(* ===== verification/_CoqProject ===== *)
-Q . S2P
Prelude.v
Base.v
Bytes.v
Hasher.v
Varint.v
Glob.v
Num.v
Codec.v
HyperLog.v
HyperLogRegs.v
HyperLogSparse.v
HyperLogSpec.v
HyperLogCmd.v
HyperLogStore.v
AclCatalog.v
Acl.v
AclIndex.v
AclPerms.v
AclText.v
AclRules.v
AclSpec.v
AclAuth.v
Atomic.v
Bucket.v
Latch.v
Candidate.v
Index.v
OverflowPool.v
Table.v
Upsert.v
SplitSpec.v
Record.v
RecordSpec.v
RecordMutSpec.v
Seal.v
Value.v
ValueSpec.v
Reviv.v
RevivSpec.v
RevivPool.v
RevivConc.v
Epoch.v
EpochOps.v
History.v
EpochSafe.v
EpochRace.v
EpochDrain.v
EpochLive.v
Resp.v
RespSpec.v
RespStateSpec.v
Bitmap.v
BitmapSpec.v
BitPosSpec.v
BitOpSpec.v
BitfieldSpec.v
BitfieldExec.v
Resize.v
ResizeSpec.v
ResizeRace.v
ResizeGrow.v
ResizeReach.v
Txn.v
TxnPlan.v
TxnLatch.v
TxnEntries.v
TxnUpgrade.v
TxnSpec.v
TxnData.v
