(* ===== verification/Prelude.v ===== *)
(** * wedb: a verification of the storage core

    wedb is a Redis-compatible store written as a workspace of Rust crates
    ([wedb/<crate>/src]).  Requests are parsed and answered in RESP by the server
    crates; data lives in a hybrid log of records ([wrecord], [whlog]) that a
    lock-free hash index ([windex]) points into; freed records go to a
    revivification pool ([wreviv]) and memory is reclaimed under epoch protection
    ([wepoch]).  Keys and collection metadata have their own byte formats
    ([wval]); the crates share the primitives of [wbase].  This library models the
    storage core, the protocol, transactions, two string types and access control
    and proves them correct; each definition carries the name of the Rust item it
    translates.

    ** Conventions

    - An unsigned [w]-bit integer is a [Z] in [[0, 2^w)] ([fits]); [usize] is 64
      bits.  Unchecked additions wrap (the release profile of the workspace sets
      [overflow-checks = false]); [checked_*], [saturating_*] and [wrapping_*]
      are written out.  Bytes are [Z] in [[0, 256)], slices [list Z].
    - Errors are values: [option] for [Option], a sum with the source's error type
      for [Result].
    - Code over [AtomicU64] cells is a tree of atomic actions ([Atomic.prog]).  The
      same tree is executed alone ([run]) and interleaved with any number of other
      threads, one action at a time ([pstep]).  Interleavings are sequentially
      consistent; behaviours that only a weaker memory ordering allows are outside
      the model.  [compare_exchange_weak] may fail spuriously at every attempt.
    - An unbounded loop takes fuel.  Running out of fuel is a distinct outcome
      ([None], or [false] where the source returns nothing); the theorems that a
      result is produced state how much fuel is enough, and the lookup walks are
      proved to end within the source's own bound on chain length.
    - [debug_assert!], logging, spin hints, back-off and cache padding have no
      counterpart; closures passed as callbacks are functions of the model;
      operating-system and allocator calls are parameters.

    ** How the parts interact

    A session parses a request ([wresp]) and runs commands against the store.  A
    command hashes its key ([whasher]), finds the chain of its bucket in the hash
    index ([windex]) and from there a record of the log ([wrecord]); it holds an
    epoch entry ([wepoch]) while it follows addresses, and what it frees goes to
    the pool of reusable records ([wreviv]).  Transactions ([wtxn]) latch the
    buckets of their keys in the same index and register at the barrier of the
    growth of the index ([wkv]), which waits for them and for the epoch before it
    replaces the table.  Bitmaps ([wbitmap]) and cardinality estimates
    ([whyperlog]) are strings with a format of their own.  What a session may run
    is a permission set over the command catalogue ([wacl], [wresp]), kept in a
    record of the store per user and namespace.  The files follow these
    borders: a component's programs are one file, what is proved of them are the
    files named after it, and a client is proved against the contract of what it
    calls ([pool_ok] of the overflow pool, the chains of [Table], [Discipline] of
    the epoch, the latches of [TxnLatch], [Backend] and [StoreLaws] of the store
    under the HyperLogLog commands, [CatalogOk] of the command catalogue under the
    access rules).

    ** Files

    [Prelude]: machine words, the bit-level tactic [bitblast], sums over lists.
    [Bytes]: slices, fixed-width encodings, lexicographic order.
    [Atomic]: programs over atomic words, their two semantics and the
    rely-guarantee logic [wp] with its soundness theorem [pool_safe].  [History]:
    the same with a history that every step extends.

    [Base] ([wbase/src/addr.rs], [align.rs]), [Varint] ([varint.rs]), [Glob]
    ([glob.rs]), [Num] ([num.rs]), [Codec] ([crc64.rs], [hash_slot.rs], [hex.rs],
    [base32.rs], [ns_prefix.rs]) and [Hasher] ([whasher/src/lib.rs]): the shared
    primitives.  Varints are inverse to decoding, reject every other byte string
    and keep the numeric order; the glob matcher decides the declarative meaning of
    a pattern; integer parsing accepts exactly its grammar; the table-driven
    checksum is the bit-by-bit one; Base32 and hexadecimal texts decode to their
    numbers; keys and patterns of different domains never meet; a streamed hash
    does not depend on how its input is cut.

    [Bucket] ([windex/src/entry.rs], [bucket.rs]): one cache line of slots and the
    latch in its overflow word.  [Latch]: under every interleaving an exclusive
    holder excludes all others, and when all threads are done the latch is free.
    [Candidate] ([candidate.rs]), [Index] ([overflow_pool.rs], [chain.rs],
    [find.rs], [insert.rs], [entry_info.rs], [table.rs], [buckets.rs],
    [split.rs]): the programs of the hash index.  [OverflowPool]: buckets are
    partitioned between the pool and its clients, none is lost or handed out
    twice.  [Table]: a chain of buckets is a list of words; lookups compute list
    functions of it, insertion, update and deletion change exactly one word.
    [Upsert]: find-or-create.  [SplitSpec]: splitting moves every live entry to
    the bucket its hash prescribes.

    [Epoch] ([wepoch/src]), [EpochOps]: the table of entries, the thread-local
    participants and the drain list.  In every interleaving a protected entry keeps
    later actions from running ([EpochSafe]) and an action runs at most once
    ([EpochDrain]); once nothing is protected, everything pending runs
    ([EpochLive]).  [EpochRace]: an interleaving in which a protection is lost.

    [Record] ([wrecord/src]), [RecordSpec], [RecordMutSpec], [Seal]: record
    headers, encoding, in-place update and the sealing protocol.  [Value]
    ([wval/src]), [ValueSpec]: stored keys and metadata; sessions never see each
    other's keys and the byte order of keys is the order of their parts.

    [Reviv] ([wreviv/src]), [RevivSpec], [RevivPool], [RevivConc]: the
    revivification pool, alone and under concurrency: a record is handed out at
    most once per time it was given back, and the counters of the bins settle.

    [Resp] ([wresp/src]), [RespSpec], [RespStateSpec]: requests and replies.  What
    the writer writes is read back, a partial request is neither rejected nor taken
    for a whole one, what the error writers write is one line, and the table of arguments stays
    inside the received bytes.

    [Bitmap] ([wbitmap/src]), [BitmapSpec], [BitPosSpec], [BitOpSpec],
    [BitfieldSpec], [BitfieldExec]: bits, ranges, counting, searching, bitwise
    operations and bit fields against the single bits of a byte string, and what
    the overflow policies do.

    [HyperLog] ([whyperlog/src], [wbase/src/hash.rs] and
    [wnode/src/resp/hyperloglog/hyper_log_log_commands.rs]): both encodings of a
    payload, the payload functions of the commands and the commands themselves.
    [HyperLogRegs]: packed registers as a list of numbers; [HyperLogSparse]: a
    stream of codes as the registers it spells out; [HyperLogSpec]: elements raise
    registers, merging takes maxima; [HyperLogCmd]: every payload function on valid
    payloads, growth and changes of encoding included; [HyperLogStore]: PFADD,
    PFCOUNT and PFMERGE over any store that satisfies [StoreLaws], merging as the
    union of sets of elements, and two corners the code does not cover.

    [AclCatalog] ([wresp/src/command.rs], [wresp/src/catalog/mod.rs]): the commands,
    their categories and the indexes over them, with the table of the server
    written out; [AclIndex]: the indexes answer as a search through the table.
    [Acl] ([wacl/src], [wnode/src/resp/acl_commands.rs]): permission sets,
    passwords, users, the access rules and the commands and AUTH over the stored
    users.  [AclPerms]: a permission set as the commands it lets run; [AclText]:
    words and letters; [AclRules]: [Rule], [Rights] and the effect [step] of a rule,
    and the operations that have it; [AclSpec]: reading a rule ([rule_of]), every
    rule refines [step], and the shortening of descriptions ends; [AclAuth]: ACL
    SETUSER, GETUSER, DELUSER and AUTH over any store, tenants, what storing a user
    between two groups of rules changes, and which words of a description stay.

    [Resize] ([wkv/src/store/resize.rs]): growth of the index.  [ResizeGrow]: one
    growth, run alone on an idle store, fills the new table with the entries that
    splitting every bucket prescribes.  [ResizeReach]: following the records of the
    log, the new table leads to what the old one led to, in the buckets where it is
    looked for.  [ResizeSpec]: in every interleaving the table of a registered
    transaction stays the active one.  [ResizeRace]: an interleaving in which an
    operation passes the closed barrier.

    [Txn] ([wtxn/src]), [TxnPlan], [TxnLatch], [TxnEntries], [TxnUpgrade],
    [TxnSpec], [TxnData]: transactions.  The lock plan, what is held after every
    method, the isolation of transactions and the release of every latch and ticket
    however a transaction ends; watched keys, queued keys and log routes.

    ** Bounds and fuel

    Chains are walked with the source's own bound [MAX_CHAIN_STEPS].  Spin loops
    with a bound in the source ([MAX_LOCK_SPINS], [MAX_READER_DRAIN_SPINS],
    [TAKE_RETRY_ROUNDS]) take that bound.  Loops that retry a compare-exchange or
    wait for other threads take fuel as a parameter: the safety theorems hold for
    every amount, the theorems that a result is produced name the amount.  The
    loop that looks for the length of a new HyperLogLog payload takes 33 steps
    ([PROBE_FUEL]), since each adds 128 bytes below a limit of 4096.  Loops over the
    input (patterns, digits, requests, codes) recur on it or take its length.  The
    description of a user is shortened by parsing rules made of its words, which
    may shorten a description again; [rationalize] takes one more than the number
    of its words, which is enough because a rule that is tried has fewer.

    ** Not modelled

    The server loop and the other commands, cluster and scripting crates, the
    devices, the log allocator and everything that is asynchronous I/O are outside
    the library: their behaviour is that of the operating system, of the runtime or
    of packages that are not part of the sources.  PROJECT.json lists every crate
    with its status.  Inside the modelled crates the following is left out: the
    budgeted wait loops of the key latch, prefetching and virtual memory
    ([windex]), floating-point parsing ([wbase/src/num.rs]) and the floating-point
    estimator of [whyperlog], which is a parameter of [count]; the asynchronous
    HyperLogLog commands, which run the same payload functions; the compression
    functions of [whasher], the digest of passwords and the byte encoding of user
    records, which belong to other packages and are parameters; the ACL commands
    that only list, and the counter by which sessions notice a change of their
    user; formatting and trait plumbing. *)

From stdpp Require Import base list numbers option tactics.
From Stdlib Require Import ZArith Lia Bool.

Declare Scope wedb_scope.
Delimit Scope wedb_scope with wedb.
#[global] Open Scope Z_scope.

(** ** Machine integers

    An unsigned [w]-bit integer is a [Z] in [[0, 2^w)].  The Rust operators
    that the sources use are spelled out at that width. *)
Module Word.

(** [fits w x]: [x] is a value of the unsigned [w]-bit type. *)
Definition fits (w x : Z) : Prop := 0 <= x < 2 ^ w.

(** Truncating cast [x as u<w>]. *)
Definition wrap (w x : Z) : Z := x mod 2 ^ w.

(** Bitwise complement [!x] on [u<w>]. *)
Definition bnot (w x : Z) : Z := Z.ldiff (Z.ones w) x.

Definition u8_max : Z := 2 ^ 8 - 1.
Definition u32_max : Z := 2 ^ 32 - 1.
Definition u64_max : Z := 2 ^ 64 - 1.
Definition i64_max : Z := 2 ^ 63 - 1.
Definition i64_min : Z := - 2 ^ 63.

(** [wrapping_add], [wrapping_sub], [wrapping_mul] on [u<w>]. *)
Definition wadd (w a b : Z) : Z := wrap w (a + b).
Definition wsub (w a b : Z) : Z := wrap w (a - b).
Definition wmul (w a b : Z) : Z := wrap w (a * b).

(** [checked_add], [checked_sub] and [checked_mul] on [u64]/[usize]. *)
Definition checked_add (a b : Z) : option Z :=
  if a + b <=? u64_max then Some (a + b) else None.
Definition checked_sub (a b : Z) : option Z :=
  if b <=? a then Some (a - b) else None.
Definition checked_mul (a b : Z) : option Z :=
  if a * b <=? u64_max then Some (a * b) else None.

(** [saturating_add] and [saturating_sub] on [u64]/[usize]. *)
Definition sat_add (a b : Z) : Z := Z.min (a + b) u64_max.
Definition sat_sub (a b : Z) : Z := Z.max (a - b) 0.

(** [is_power_of_two]. *)
Definition is_power_of_two (x : Z) : bool :=
  (0 <? x) && (Z.land x (x - 1) =? 0).

(** [x as i64] from the unsigned representation and back. *)
Definition to_i64 (x : Z) : Z := if x <? 2 ^ 63 then x else x - 2 ^ 64.
Definition of_i64 (x : Z) : Z := wrap 64 x.

End Word.
Export Word.

Create Rewrite HintDb wbits.
Create HintDb wedb.

(** ** Bit-level reasoning *)

Lemma ones_testbit (w i : Z) :
  0 <= w -> 0 <= i -> Z.testbit (Z.ones w) i = (i <? w).
Proof.
  intros Hw Hi. destruct (Z.ltb_spec i w).
  - apply Z.ones_spec_low; lia.
  - apply Z.ones_spec_high; lia.
Qed.

Lemma bnot_spec (w x i : Z) :
  0 <= w -> 0 <= i -> Z.testbit (bnot w x) i = (i <? w) && negb (Z.testbit x i).
Proof. intros. unfold bnot. rewrite Z.ldiff_spec, ones_testbit by lia. done. Qed.

Lemma wrap_testbit (w x i : Z) :
  0 <= w -> 0 <= i -> Z.testbit (wrap w x) i = (i <? w) && Z.testbit x i.
Proof.
  intros Hw Hi. unfold wrap. destruct (Z.ltb_spec i w).
  - by rewrite Z.mod_pow2_bits_low by lia.
  - by rewrite Z.mod_pow2_bits_high by lia.
Qed.

Lemma pow2_testbit (n i : Z) :
  0 <= n -> Z.testbit (2 ^ n) i = (i =? n).
Proof. intros. rewrite Z.pow2_bits_eqb by lia. apply Z.eqb_sym. Qed.

Lemma fits_high (w x i : Z) :
  fits w x -> 0 <= w <= i -> Z.testbit x i = false.
Proof.
  intros [H0 H1] Hi. destruct (Z.eq_dec x 0) as [->|]; [apply Z.testbit_0_l|].
  apply Z.bits_above_log2; [lia|].
  apply Z.log2_lt_pow2; [lia|]. eapply Z.lt_le_trans; [eassumption|].
  apply Z.pow_le_mono_r; lia.
Qed.

(** A non-negative number with no bit at or above [w] fits in [w] bits. *)
Lemma fits_of_bits (w x : Z) :
  0 <= w -> 0 <= x -> (forall i, w <= i -> Z.testbit x i = false) -> fits w x.
Proof.
  intros Hw Hx Hb. split; [lia|].
  destruct (Z.eq_dec x 0) as [->|]; [apply Z.pow_pos_nonneg; lia|].
  apply Z.log2_lt_pow2; [lia|].
  destruct (Z.lt_ge_cases (Z.log2 x) w) as [|Hge]; [done|].
  specialize (Hb _ Hge). rewrite Z.bit_log2 in Hb by lia. done.
Qed.

Lemma wrap_fits (w x : Z) : 0 <= w -> fits w (wrap w x).
Proof. intros. apply Z.mod_pos_bound, Z.pow_pos_nonneg; lia. Qed.

Lemma wrap_id (w x : Z) : fits w x -> wrap w x = x.
Proof. apply Z.mod_small. Qed.

Lemma fits_mono (w w' x : Z) : fits w x -> 0 <= w <= w' -> fits w' x.
Proof.
  intros [? ?] Hw. split; [lia|]. eapply Z.lt_le_trans; [eassumption|].
  apply Z.pow_le_mono_r; lia.
Qed.

Lemma fits_land_l (w x y : Z) : 0 <= w -> fits w x -> fits w (Z.land x y).
Proof.
  intros Hw Hx. apply fits_of_bits; [done| |].
  - apply Z.land_nonneg. left. apply Hx.
  - intros i Hi. rewrite Z.land_spec, (fits_high w) by (done || lia). done.
Qed.

Lemma fits_land_r (w x y : Z) : 0 <= w -> fits w y -> fits w (Z.land x y).
Proof. rewrite Z.land_comm. apply fits_land_l. Qed.

Lemma fits_lor (w x y : Z) : 0 <= w -> fits w x -> fits w y -> fits w (Z.lor x y).
Proof.
  intros Hw Hx Hy. apply fits_of_bits; [done| |].
  - apply Z.lor_nonneg. split; [apply Hx|apply Hy].
  - intros i Hi.
    by rewrite Z.lor_spec, (fits_high w x), (fits_high w y) by (done || lia).
Qed.

Lemma fits_shiftl (w n x : Z) :
  0 <= n -> 0 <= w -> fits w x -> fits (w + n) (Z.shiftl x n).
Proof.
  intros Hn Hw [H0 H1]. rewrite Z.shiftl_mul_pow2 by lia.
  unfold fits. rewrite Z.pow_add_r by lia.
  pose proof (Z.pow_pos_nonneg 2 n ltac:(lia) ltac:(lia)). nia.
Qed.

Lemma fits_shiftr (w n x : Z) :
  0 <= n <= w -> fits w x -> fits (w - n) (Z.shiftr x n).
Proof.
  intros Hn [H0 H1]. rewrite Z.shiftr_div_pow2 by lia. split.
  - apply Z.div_pos; [lia|]. apply Z.pow_pos_nonneg; lia.
  - apply Z.div_lt_upper_bound; [apply Z.pow_pos_nonneg; lia|].
    rewrite <- Z.pow_add_r by lia. by replace (n + (w - n)) with w by lia.
Qed.

Lemma fits_bnot (w x : Z) : 0 <= w -> fits w (bnot w x).
Proof.
  intros Hw. apply fits_of_bits; [done| |].
  - unfold bnot. apply Z.ldiff_nonneg. left.
    rewrite Z.ones_equiv. pose proof (Z.pow_pos_nonneg 2 w). lia.
  - intros i Hi. rewrite bnot_spec by lia.
    by destruct (Z.ltb_spec i w); [lia|].
Qed.

Lemma fits_ones (w n : Z) : 0 <= n <= w -> fits w (Z.ones n).
Proof.
  intros Hn. unfold fits. rewrite Z.ones_equiv.
  pose proof (Z.pow_pos_nonneg 2 n). pose proof (Z.pow_le_mono_r 2 n w). lia.
Qed.

#[export] Hint Resolve fits_land_l fits_lor fits_bnot wrap_fits : wedb.

(** [bitblast] proves equalities of words by comparing them bit by bit:
    it pushes [Z.testbit] through the operators, splits on the bit index and
    kills the bits above a word known to [fits]. *)
#[export] Hint Rewrite Z.land_spec Z.lor_spec Z.lxor_spec Z.ldiff_spec Z.testbit_0_l : wbits.
#[export] Hint Rewrite Z.shiftl_spec Z.shiftr_spec ones_testbit bnot_spec wrap_testbit
  pow2_testbit using lia : wbits.

Ltac bit_push := autorewrite with wbits.

Ltac bit_kill :=
  match goal with
  | H : fits ?w ?x |- context [Z.testbit ?x ?i] =>
      rewrite (fits_high w x i H) by lia
  | |- context [Z.testbit ?x ?i] => rewrite (Z.testbit_neg_r x i) by lia
  end.

Ltac bit_split :=
  match goal with
  | |- context [?a <? ?b] => destruct (Z.ltb_spec a b)
  | |- context [?a <=? ?b] => destruct (Z.leb_spec a b)
  | |- context [?a =? ?b] => destruct (Z.eqb_spec a b)
  end.

(** Split on the sign of a bit index that is not yet decided. *)
Ltac bit_sign :=
  match goal with
  | |- context [Z.testbit _ ?j] =>
      tryif (first [assert (0 <= j) by lia | assert (j < 0) by lia]) then fail
      else destruct (Z.lt_ge_cases j 0)
  end.

Ltac bit_bool :=
  rewrite ?andb_true_r, ?andb_true_l, ?andb_false_r, ?andb_false_l,
    ?orb_true_r, ?orb_true_l, ?orb_false_r, ?orb_false_l, ?negb_involutive.

Ltac bit_done :=
  first [ lia | reflexivity | done
        | f_equal; lia
        | repeat match goal with |- context [Z.testbit ?x ?i] => destruct (Z.testbit x i) end; reflexivity ].

Ltac bitblast :=
  apply Z.bits_inj'; intros i Hi;
  repeat (bit_push; first [bit_split | bit_sign]; simpl negb; bit_bool; try lia);
  bit_push; repeat (bit_kill; bit_bool);
  try bit_done.

(** ** Masks *)

Lemma land_pow2 (x n : Z) :
  0 <= n -> Z.land x (2 ^ n) = if Z.testbit x n then 2 ^ n else 0.
Proof.
  intros Hn. apply Z.bits_inj'. intros i Hi. rewrite Z.land_spec, pow2_testbit by lia.
  destruct (Z.eqb_spec i n) as [->|Hne]; rewrite ?andb_true_r, ?andb_false_r.
  - destruct (Z.testbit x n); [|by rewrite Z.testbit_0_l].
    rewrite pow2_testbit by lia. by rewrite Z.eqb_refl.
  - destruct (Z.testbit x n); [|by rewrite Z.testbit_0_l].
    rewrite pow2_testbit by lia. symmetry. by apply Z.eqb_neq.
Qed.

Lemma land_ones_id (w x : Z) : 0 <= w -> fits w x -> Z.land x (Z.ones w) = x.
Proof. intros Hw Hx. rewrite Z.land_ones by lia. by apply wrap_id. Qed.

(** A single-bit test [(x & (1 << n)) != 0] reads the bit. *)
Lemma land_pow2_nonzero (x n : Z) :
  0 <= n -> negb (Z.land x (2 ^ n) =? 0) = Z.testbit x n.
Proof.
  intros Hn. rewrite land_pow2 by done. pose proof (Z.pow_pos_nonneg 2 n).
  destruct (Z.testbit x n); [|done]. destruct (Z.eqb_spec (2 ^ n) 0); [lia|done].
Qed.

(** Clearing the low [n] bits of a [w]-bit word rounds it down to a multiple
    of [2^n]. *)
Lemma clear_low_bits (w n x : Z) :
  0 <= n <= w -> fits w x ->
  Z.land x (bnot w (2 ^ n - 1)) = x / 2 ^ n * 2 ^ n.
Proof.
  intros Hn Hx.
  replace (2 ^ n - 1) with (Z.ones n) by (rewrite Z.ones_equiv; lia).
  rewrite <- Z.shiftr_div_pow2, <- Z.shiftl_mul_pow2 by lia.
  bitblast.
Qed.

Lemma is_power_of_two_spec (x : Z) :
  is_power_of_two x = true <-> exists n, 0 <= n /\ x = 2 ^ n.
Proof.
  unfold is_power_of_two. rewrite andb_true_iff, Z.ltb_lt, Z.eqb_eq. split.
  - intros [Hpos Hland]. exists (Z.log2 x). split; [apply Z.log2_nonneg|].
    pose proof (Z.log2_spec x Hpos) as [Hlo Hhi].
    destruct (Z.eq_dec x (2 ^ Z.log2 x)) as [|Hne]; [done|].
    assert (Hl : Z.log2 (x - 1) = Z.log2 x) by (apply Z.log2_unique; [apply Z.log2_nonneg|lia]).
    assert (Hb : Z.testbit (Z.land x (x - 1)) (Z.log2 x) = true).
    { rewrite Z.land_spec, Z.bit_log2 by lia. rewrite <- Hl at 1.
      pose proof (Z.pow_pos_nonneg 2 (Z.log2 x) ltac:(lia) (Z.log2_nonneg x)).
      rewrite Z.bit_log2 by lia. done. }
    by rewrite Hland, Z.testbit_0_l in Hb.
  - intros (n & Hn & ->). pose proof (Z.pow_pos_nonneg 2 n). split; [lia|].
    replace (2 ^ n - 1) with (Z.ones n) by (rewrite Z.ones_equiv; lia).
    rewrite Z.land_ones, Z.mod_same by lia. done.
Qed.

(** Or-ing into zero bits is addition. *)
Lemma lor_add (c k b : Z) :
  0 <= k -> fits k b -> Z.lor (c * 2 ^ k) b = c * 2 ^ k + b.
Proof.
  intros Hk Hb.
  assert (Hl : Z.land (c * 2 ^ k) b = 0).
  { rewrite <- Z.shiftl_mul_pow2 by lia. bitblast. }
  rewrite <- Z.lxor_lor by done. symmetry. by apply Z.add_nocarry_lxor.
Qed.

(** A signed word is its pattern read back. *)
Lemma to_of_i64 x : i64_min <= x <= i64_max -> to_i64 (of_i64 x) = x.
Proof.
  unfold i64_min, i64_max, to_i64, of_i64, wrap. intros H.
  destruct (Z.ltb_spec (x mod 2 ^ 64) (2 ^ 63)); Z.to_euclidean_division_equations; lia.
Qed.

(** The top bit of a word is a comparison. *)
Lemma testbit_top (n x : Z) : 0 <= n -> fits (n + 1) x -> Z.testbit x n = (2 ^ n <=? x).
Proof.
  intros Hn [H0 H1]. rewrite Z.pow_add_r in H1 by lia. change (2 ^ 1) with 2 in H1.
  pose proof (Z.testbit_spec' x n Hn) as Hb. pose proof (Z.pow_pos_nonneg 2 n).
  destruct (Z.leb_spec (2 ^ n) x).
  - replace (x / 2 ^ n) with 1 in Hb by (apply Z.div_unique with (x - 2 ^ n); lia).
    by destruct (Z.testbit x n).
  - rewrite Z.div_small in Hb by lia. by destruct (Z.testbit x n).
Qed.

(** Linear arithmetic with division and remainder by constants. *)
Ltac euclid := Z.to_euclidean_division_equations; lia.

(** A property of every number of a range, by listing them. *)
Lemma range_all (P : Z -> Prop) a n : Forall P (seqZ a n) -> forall x, a <= x < a + n -> P x.
Proof. intros H x Hx. rewrite Forall_forall in H. by apply H, list_elem_of_In, elem_of_seqZ. Qed.

(** ** Counting over lists *)

Definition zsum {A} (f : A -> Z) (l : list A) : Z := foldr (fun a n => f a + n) 0 l.

Lemma zsum_insert {A} (f : A -> Z) l i a b :
  l !! i = Some a -> zsum f (<[i := b]> l) = zsum f l - f a + f b.
Proof.
  revert i. induction l as [|x l IH]; intros [|i] Hi; simplify_eq/=; [lia|].
  rewrite (IH _ Hi). lia.
Qed.

Lemma zsum_nonneg {A} (f : A -> Z) l : (forall a, 0 <= f a) -> 0 <= zsum f l.
Proof. intros Hf. induction l as [|x l IH]; simpl; [lia|]. specialize (Hf x). lia. Qed.

Lemma zsum_lookup {A} (f : A -> Z) l i a :
  (forall a, 0 <= f a) -> l !! i = Some a -> f a <= zsum f l.
Proof.
  intros Hf. revert i. induction l as [|x l IH]; intros [|i] Hi; simplify_eq/=.
  - pose proof (zsum_nonneg f l Hf). lia.
  - specialize (IH _ Hi). specialize (Hf x). lia.
Qed.

Lemma zsum_lookup_two {A} (f : A -> Z) l i j a b :
  (forall a, 0 <= f a) -> i <> j -> l !! i = Some a -> l !! j = Some b -> f a + f b <= zsum f l.
Proof.
  intros Hf Hij Hi Hj. revert i j Hij Hi Hj.
  induction l as [|x l IH]; intros [|i] [|j] Hij Hi Hj; simplify_eq/=.
  - pose proof (zsum_lookup f l j b Hf Hj). lia.
  - pose proof (zsum_lookup f l i a Hf Hi). lia.
  - pose proof (IH i j ltac:(congruence) Hi Hj). specialize (Hf x). lia.
Qed.

Lemma zsum_replicate {A} (f : A -> Z) n a : zsum f (replicate n a) = Z.of_nat n * f a.
Proof. induction n as [|n IH]; simpl; [done|]. rewrite IH. lia. Qed.

Lemma zsum_map {A B} (g : A -> B) (f : B -> Z) l : zsum f (map g l) = zsum (fun a => f (g a)) l.
Proof. induction l as [|a l IH]; cbn; [done|]. unfold zsum in *. cbn. by rewrite IH. Qed.

Lemma zsum_ext {A} (f g : A -> Z) l : (forall a, In a l -> f a = g a) -> zsum f l = zsum g l.
Proof.
  induction l as [|a l IH]; intros H; [done|]. cbn. rewrite (H a) by (by left).
  f_equal. apply IH. intros. apply H. by right.
Qed.

(** Changing one of distinct cells changes a sum over them by the difference. *)
Lemma zsum_change {A} `{EqDecision A} (f g : A -> Z) l a :
  List.NoDup l -> In a l -> (forall c, c <> a -> g c = f c) -> zsum g l = zsum f l - f a + g a.
Proof.
  intros Hnd. induction Hnd as [|c l Hc Hnd IH]; intros Ha Hg; [done|]. cbn.
  fold (zsum g l). fold (zsum f l). destruct Ha as [->|Ha].
  - rewrite (zsum_ext g f) by (intros x Hx; apply Hg; by intros ->). lia.
  - rewrite IH by done. rewrite (Hg c) by (by intros ->). lia.
Qed.

Lemma zsum_Forall_nonneg {A} (f : A -> Z) l : Forall (fun a => 0 <= f a) l -> 0 <= zsum f l.
Proof. induction 1; cbn; [done|]. unfold zsum in *. lia. Qed.

Lemma zsum_le_length {A} (f : A -> Z) l : (forall a, f a <= 1) -> zsum f l <= Z.of_nat (length l).
Proof. intros Hf. induction l as [|a l IH]; [done|]. cbn [zsum foldr length] in *. specialize (Hf a). unfold zsum in *. lia. Qed.

Lemma zsum_zero {A} (f : A -> Z) l : (forall a, In a l -> f a = 0) -> zsum f l = 0.
Proof. intros Hf. rewrite (zsum_ext f (fun _ => 0)) by done. induction l as [|a l IH]; [done|]. cbn.
  apply IH. intros b Hb. apply Hf. by right.
Qed.
