(* ===== verification/Base.v ===== *)
(** * Addresses and alignment ([wedb/wbase/src/addr.rs], [wedb/wbase/src/align.rs])

    [Addr] is the 48-bit log address with its read-cache bit; [Align] is the
    alignment arithmetic and the sector ranges of the block devices.  The
    theorems characterise every alignment routine by division, both on the
    power-of-two fast path and on the general path, overflow included. *)

From stdpp Require Import base list numbers option tactics.
From Stdlib Require Import ZArith Lia Bool.
From S2P Require Import Prelude.

Module Addr.

Definition ADDRESS_BITS : Z := 48.
Definition ADDRESS_MASK : Z := Z.shiftl 1 ADDRESS_BITS - 1.
Definition READ_CACHE_BIT : Z := Z.shiftl 1 (ADDRESS_BITS - 1).
Definition ABSOLUTE_ADDRESS_MASK : Z := Z.land ADDRESS_MASK (bnot 64 READ_CACHE_BIT).
Definition INVALID_ADDRESS : Z := 0.

Definition clean_address (addr : Z) : Z := Z.land addr ADDRESS_MASK.
Definition is_valid (addr : Z) : bool := negb (clean_address addr =? INVALID_ADDRESS).
Definition is_read_cache (addr : Z) : bool :=
  Z.land addr READ_CACHE_BIT =? READ_CACHE_BIT.
Definition to_absolute (addr : Z) : Z := Z.land addr ABSOLUTE_ADDRESS_MASK.
Definition with_read_cache (addr : Z) : Z :=
  Z.lor (Z.land addr ADDRESS_MASK) READ_CACHE_BIT.

Lemma ADDRESS_MASK_ones : ADDRESS_MASK = Z.ones 48.
Proof. reflexivity. Qed.
Lemma READ_CACHE_BIT_pow : READ_CACHE_BIT = 2 ^ 47.
Proof. reflexivity. Qed.
Lemma ABSOLUTE_ADDRESS_MASK_ones : ABSOLUTE_ADDRESS_MASK = Z.ones 47.
Proof. reflexivity. Qed.

Lemma is_read_cache_testbit addr : is_read_cache addr = Z.testbit addr 47.
Proof.
  unfold is_read_cache. rewrite READ_CACHE_BIT_pow, land_pow2 by lia.
  by destruct (Z.testbit addr 47).
Qed.

Lemma with_read_cache_is addr : is_read_cache (with_read_cache addr) = true.
Proof.
  rewrite is_read_cache_testbit. unfold with_read_cache.
  rewrite READ_CACHE_BIT_pow. bit_push. apply orb_true_r.
Qed.

Lemma to_absolute_with_read_cache addr :
  to_absolute (with_read_cache addr) = to_absolute addr.
Proof.
  unfold to_absolute, with_read_cache.
  rewrite ADDRESS_MASK_ones, READ_CACHE_BIT_pow, ABSOLUTE_ADDRESS_MASK_ones.
  bitblast.
Qed.

Lemma clean_address_fits addr : fits 48 (clean_address addr).
Proof. apply fits_land_r; [lia|]. rewrite ADDRESS_MASK_ones. by apply fits_ones. Qed.

Lemma clean_address_id addr : fits 48 addr -> clean_address addr = addr.
Proof. intros. unfold clean_address. rewrite ADDRESS_MASK_ones. by apply land_ones_id. Qed.

End Addr.

Module Align.

Definition DEFAULT_SECTOR_SIZE : Z := 4096.
Definition MIN_SECTOR_SIZE : Z := 512.

(** [leading_zeros] of a non-zero [u64] is [63 - log2]. *)
Definition leading_zeros (v : Z) : Z := if v =? 0 then 64 else 63 - Z.log2 v.

Definition prev_power_of2 (v : Z) : Z :=
  if v =? 0 then 0 else Z.shiftl 1 (63 - leading_zeros v).

Definition align_down (val align : Z) : Z :=
  if align <=? 1 then val
  else if is_power_of_two align then Z.land val (bnot 64 (align - 1))
  else (val / align) * align.

Definition checked_align_up (val align : Z) : option Z :=
  if align <=? 1 then Some val
  else if is_power_of_two align then
    let mask := align - 1 in
    if Z.land val mask =? 0 then Some val
    else match checked_add val mask with
         | Some v => Some (Z.land v (bnot 64 mask))
         | None => None
         end
  else
    let rem := val mod align in
    if rem =? 0 then Some val else checked_add val (align - rem).

Definition align_up (val align : Z) : Z :=
  match checked_align_up val align with
  | Some v => v
  | None =>
      if is_power_of_two align then bnot 64 (align - 1)
      else (u64_max / align) * align
  end.

Definition sector_bounds (from to sector : Z) : Z * Z :=
  (align_down from sector, align_up to sector).

Definition is_valid_sector_size (size : Z) : bool :=
  (MIN_SECTOR_SIZE <=? size) && is_power_of_two size.

Inductive SectorRangeError : Type :=
| InvalidSectorSize (s : Z)
| Overflow.

Record SectorRange : Type := mkSectorRange {
  aligned_offset : Z;
  aligned_len : Z;
  internal_offset : Z
}.

Definition calculate (offset len sector_size : Z) : SectorRange + SectorRangeError :=
  if negb (is_valid_sector_size sector_size) then inr (InvalidSectorSize sector_size)
  else
    let aligned_offset := align_down offset sector_size in
    let internal_offset := offset - aligned_offset in
    if len =? 0 then inl (mkSectorRange aligned_offset 0 internal_offset)
    else
      match checked_add offset len with
      | None => inr Overflow
      | Some end_ =>
          match checked_align_up end_ sector_size with
          | None => inr Overflow
          | Some aligned_end =>
              match checked_sub aligned_end aligned_offset with
              | None => inr Overflow
              | Some aligned_len => inl (mkSectorRange aligned_offset aligned_len internal_offset)
              end
          end
      end.

Definition sector_count (r : SectorRange) (sector_size : Z) : Z :=
  if (aligned_len r =? 0) || (sector_size =? 0) then 0 else aligned_len r / sector_size.

Definition sub_range (r : SectorRange) (len : Z) : Z * Z :=
  (internal_offset r, sat_add (internal_offset r) len).

(** Reference definitions: rounding by division. *)
Definition round_down (val align : Z) : Z := val / align * align.
Definition round_up (val align : Z) : Z := (val + align - 1) / align * align.

Lemma prev_power_of2_log2 v : 0 < v -> prev_power_of2 v = 2 ^ Z.log2 v.
Proof.
  intros Hv. unfold prev_power_of2, leading_zeros.
  destruct (Z.eqb_spec v 0); [lia|].
  replace (63 - (63 - Z.log2 v)) with (Z.log2 v) by lia. apply Z.shiftl_1_l.
Qed.

(** A 64-bit power of two above one is [2^n] with [1 <= n <= 63]. *)
Lemma pow2_u64 align :
  fits 64 align -> 1 < align -> is_power_of_two align = true ->
  exists n, 1 <= n <= 63 /\ align = 2 ^ n.
Proof.
  intros [_ Hhi] H1 (n & Hn & ->)%is_power_of_two_spec. exists n. split; [|done]. split.
  - destruct (Z.eq_dec n 0) as [->|]; [simpl in H1|]; lia.
  - apply Z.pow_lt_mono_r_iff in Hhi; lia.
Qed.

Lemma align_down_div val align :
  fits 64 val -> fits 64 align -> 0 < align -> align_down val align = round_down val align.
Proof.
  intros Hv Ha Hpos. unfold align_down, round_down.
  destruct (Z.leb_spec align 1).
  { replace align with 1 by lia. rewrite Z.div_1_r. lia. }
  destruct (is_power_of_two align) eqn:Hp; [|done].
  destruct (pow2_u64 _ Ha ltac:(lia) Hp) as (n & Hn & ->).
  apply clear_low_bits; [lia|done].
Qed.

Lemma round_up_aligned val align :
  0 < align -> val mod align = 0 -> round_up val align = val.
Proof.
  intros Hpos Hm. unfold round_up.
  apply Z.mod_divide in Hm as [q ->]; [|lia].
  replace (q * align + align - 1) with (align - 1 + q * align) by lia.
  rewrite Z.div_add, Z.div_small by lia. lia.
Qed.

Lemma round_up_unaligned val align :
  0 < align -> val mod align <> 0 -> round_up val align = val + (align - val mod align).
Proof.
  intros Hpos Hm. unfold round_up.
  pose proof (Z.div_mod val align ltac:(lia)). pose proof (Z.mod_pos_bound val align Hpos).
  set (q := val / align) in *. set (r := val mod align) in *.
  replace (val + align - 1) with (r - 1 + (q + 1) * align) by lia.
  rewrite Z.div_add, Z.div_small by lia. lia.
Qed.

Lemma round_up_bounds val align :
  0 < align -> val <= round_up val align < val + align.
Proof.
  intros Hpos. pose proof (Z.mod_pos_bound val align Hpos).
  destruct (Z.eq_dec (val mod align) 0).
  - rewrite round_up_aligned by done. lia.
  - rewrite round_up_unaligned by done. lia.
Qed.

Lemma pow2_mask_zero val n : 0 <= n -> (Z.land val (2 ^ n - 1) =? 0) = (val mod 2 ^ n =? 0).
Proof.
  intros. replace (2 ^ n - 1) with (Z.ones n) by (rewrite Z.ones_equiv; lia).
  by rewrite Z.land_ones by lia.
Qed.

(** A carry out of 64 bits pushes the rounded value out of 64 bits too. *)
Lemma round_up_pow2_overflow val n :
  0 <= n <= 64 -> u64_max < val + 2 ^ n - 1 -> u64_max < round_up val (2 ^ n).
Proof.
  intros Hn Hov. unfold round_up, u64_max in *. pose proof (Z.pow_pos_nonneg 2 n).
  assert (2 ^ (64 - n) <= (val + 2 ^ n - 1) / 2 ^ n).
  { apply Z.div_le_lower_bound; [lia|].
    rewrite <- Z.pow_add_r by lia. replace (n + (64 - n)) with 64 by lia. lia. }
  assert (2 ^ 64 = 2 ^ (64 - n) * 2 ^ n) by (rewrite <- Z.pow_add_r by lia; f_equal; lia).
  nia.
Qed.

Lemma checked_align_up_spec val align :
  fits 64 val -> fits 64 align -> 0 < align ->
  checked_align_up val align =
    if round_up val align <=? u64_max then Some (round_up val align) else None.
Proof.
  intros Hv Ha Hpos. unfold checked_align_up.
  assert (Hmax : val <= u64_max) by (unfold u64_max, fits in *; lia).
  destruct (Z.leb_spec align 1).
  { replace align with 1 by lia. rewrite round_up_aligned by (lia || apply Z.mod_1_r).
    by destruct (Z.leb_spec val u64_max); [|lia]. }
  destruct (is_power_of_two align) eqn:Hp.
  - destruct (pow2_u64 _ Ha ltac:(lia) Hp) as (n & Hn & ->).
    rewrite pow2_mask_zero by lia. destruct (Z.eqb_spec (val mod 2 ^ n) 0).
    { rewrite round_up_aligned by done. by destruct (Z.leb_spec val u64_max); [|lia]. }
    unfold checked_add. destruct (Z.leb_spec (val + (2 ^ n - 1)) u64_max) as [Hle|Hgt].
    + rewrite clear_low_bits by (unfold fits, u64_max in *; lia).
      replace (val + (2 ^ n - 1)) with (val + 2 ^ n - 1) by lia.
      fold (round_up val (2 ^ n)). destruct (Z.leb_spec (round_up val (2 ^ n)) u64_max); [done|].
      unfold round_up in *. pose proof (Z.mul_div_le (val + 2 ^ n - 1) (2 ^ n)). lia.
    + pose proof (round_up_pow2_overflow val n ltac:(lia) ltac:(lia)).
      by destruct (Z.leb_spec (round_up val (2 ^ n)) u64_max); [lia|].
  - destruct (Z.eqb_spec (val mod align) 0).
    + rewrite round_up_aligned by done. by destruct (Z.leb_spec val u64_max); [|lia].
    + rewrite round_up_unaligned by done. unfold checked_add.
      by destruct (Z.leb_spec (val + (align - val mod align)) u64_max).
Qed.

Lemma max_aligned_pow2 n :
  1 <= n <= 63 -> bnot 64 (2 ^ n - 1) = u64_max / 2 ^ n * 2 ^ n.
Proof.
  intros Hn. rewrite <- (clear_low_bits 64) by (unfold fits, u64_max; lia).
  change u64_max with (Z.ones 64).
  replace (2 ^ n - 1) with (Z.ones n) by (rewrite Z.ones_equiv; lia). bitblast.
Qed.

Lemma align_up_spec val align :
  fits 64 val -> fits 64 align -> 0 < align ->
  align_up val align =
    if round_up val align <=? u64_max then round_up val align else round_down u64_max align.
Proof.
  intros Hv Ha Hpos. unfold align_up. rewrite checked_align_up_spec by done.
  destruct (Z.leb_spec (round_up val align) u64_max) as [|Hov]; [done|].
  destruct (is_power_of_two align) eqn:Hp; [|done].
  assert (align <> 1).
  { intros ->. rewrite round_up_aligned in Hov by (lia || apply Z.mod_1_r).
    unfold u64_max, fits in *. lia. }
  destruct (pow2_u64 _ Ha ltac:(lia) Hp) as (n & Hn & ->).
  by apply max_aligned_pow2.
Qed.

(** [SectorRange::calculate] returns, for a valid sector size, the
    smallest sector-aligned range that covers the requested bytes; it reports
    an invalid sector size exactly when the size is not a power of two of at
    least 512, and an overflow exactly when the rounded end of a non-empty
    request does not fit in 64 bits. *)
Theorem calculate_covers offset len ss :
  fits 64 offset -> fits 64 len -> fits 64 ss ->
  match calculate offset len ss with
  | inl r =>
      is_valid_sector_size ss = true /\
      (ss | aligned_offset r) /\ (ss | aligned_len r) /\
      0 <= internal_offset r < ss /\ aligned_offset r + internal_offset r = offset /\
      (if len =? 0 then aligned_len r = 0
       else offset + len <= aligned_offset r + aligned_len r < offset + len + ss /\
            aligned_offset r + aligned_len r <= u64_max)
  | inr (InvalidSectorSize s) => s = ss /\ is_valid_sector_size ss = false
  | inr Overflow =>
      is_valid_sector_size ss = true /\ 0 < len /\ u64_max < round_up (offset + len) ss
  end.
Proof.
  intros Ho Hl Hs. unfold calculate.
  destruct (is_valid_sector_size ss) eqn:Hv; simpl; [|done].
  assert (Hss : 0 < ss).
  { unfold is_valid_sector_size, MIN_SECTOR_SIZE in Hv.
    apply andb_true_iff in Hv as [Hv _]. apply Z.leb_le in Hv. lia. }
  rewrite align_down_div by done. unfold round_down.
  pose proof (Z.div_mod offset ss ltac:(lia)). pose proof (Z.mod_pos_bound offset ss Hss).
  assert (Hdiv : (ss | offset / ss * ss)) by apply Z.divide_factor_r.
  destruct (Z.eqb_spec len 0) as [->|]; simpl.
  { repeat split; try done; try lia. apply Z.divide_0_r. }
  pose proof (round_up_bounds (offset + len) ss Hss).
  unfold checked_add. destruct (Z.leb_spec (offset + len) u64_max) as [Hle|].
  2: { unfold fits in Hl. repeat split; [lia|lia]. }
  rewrite checked_align_up_spec by (unfold fits, u64_max in *; lia).
  destruct (Z.leb_spec (round_up (offset + len) ss) u64_max).
  2: { unfold fits in Hl. repeat split; lia. }
  unfold checked_sub. unfold fits in Hl.
  destruct (Z.leb_spec (offset / ss * ss) (round_up (offset + len) ss)); [|lia].
  simpl. repeat split; try done; try lia.
  apply Z.divide_sub_r; [apply Z.divide_factor_r|done].
Qed.

Lemma calculate_covers_witness :
  exists r, calculate 5000 10000 4096 = inl r /\
    (4096 | aligned_offset r) /\ (4096 | aligned_len r) /\
    5000 + 10000 <= aligned_offset r + aligned_len r < 5000 + 10000 + 4096.
Proof.
  exists (mkSectorRange 4096 12288 904). split; [reflexivity|].
  destruct (calculate_covers 5000 10000 4096 ltac:(unfold fits; lia)
    ltac:(unfold fits; lia) ltac:(unfold fits; lia)) as (_ & Ho & Hl & _ & _ & Hc & _).
  split; [exact Ho|split; [exact Hl|exact Hc]].
Defined.

End Align.
