(* ===== verification/Bytes.v ===== *)
(** * Byte strings

    A byte is a [Z] in [[0, 256)], a slice is a [list Z] and a length or an
    offset is a [Z] ([usize]).  This file holds the fixed-width encodings
    ([to_le_bytes], [to_be_bytes] and their inverses), slicing, in-place
    overwriting and the lexicographic order the key space uses. *)

From stdpp Require Import base list numbers option tactics.
From Stdlib Require Import ZArith Lia Bool.
From S2P Require Import Prelude.

(** ** Lengths, slices and overwriting *)

Definition zlen {A} (l : list A) : Z := Z.of_nat (length l).

(** [&l[a..b]]. *)
Definition slice {A} (a b : Z) (l : list A) : list A :=
  take (Z.to_nat (b - a)) (drop (Z.to_nat a) l).

(** [&l[a..]]. *)
Definition slice_from {A} (a : Z) (l : list A) : list A := drop (Z.to_nat a) l.

(** [l[off..off + bs.len()].copy_from_slice(bs)]. *)
Definition splice {A} (off : Z) (bs l : list A) : list A :=
  take (Z.to_nat off) l ++ bs ++ drop (Z.to_nat off + length bs) l.

(** [s.strip_prefix(p)]. *)
Fixpoint strip_prefix (p s : list Z) : option (list Z) :=
  match p, s with
  | [], _ => Some s
  | a :: p', b :: s' => if a =? b then strip_prefix p' s' else None
  | _ :: _, [] => None
  end.

Definition bytes_ok (l : list Z) : Prop := Forall (fits 8) l.

Fixpoint bytes_eqb (a b : list Z) : bool :=
  match a, b with
  | [], [] => true
  | x :: a', y :: b' => (x =? y) && bytes_eqb a' b'
  | _, _ => false
  end.

Lemma bytes_eqb_eq a b : bytes_eqb a b = true <-> a = b.
Proof.
  revert b. induction a as [|x a IH]; intros [|y b]; simpl; try done.
  rewrite andb_true_iff, Z.eqb_eq, IH. split; [by intros [-> ->]|]. by injection 1.
Qed.

Lemma strip_prefix_app p s : strip_prefix p (p ++ s) = Some s.
Proof. induction p as [|a p IH]; simpl; [done|]. by rewrite Z.eqb_refl. Qed.

Lemma strip_prefix_Some p s r : strip_prefix p s = Some r <-> s = p ++ r.
Proof.
  split; [|intros ->; apply strip_prefix_app].
  revert s. induction p as [|a p IH]; intros s; simpl; [congruence|].
  destruct s as [|b s]; [done|]. destruct (Z.eqb_spec a b) as [->|]; [|done].
  intros Hr. by rewrite (IH s).
Qed.

Lemma zlen_nonneg {A} (l : list A) : 0 <= zlen l.
Proof. unfold zlen. lia. Qed.

Lemma zlen_app {A} (a b : list A) : zlen (a ++ b) = zlen a + zlen b.
Proof. unfold zlen. rewrite length_app. lia. Qed.

Lemma zlen_nil {A} : zlen (@nil A) = 0.
Proof. done. Qed.

Lemma zlen_cons {A} (x : A) l : zlen (x :: l) = 1 + zlen l.
Proof. unfold zlen. simpl. lia. Qed.

Lemma zlen_slice {A} a b (l : list A) :
  0 <= a <= b -> b <= zlen l -> zlen (slice a b l) = b - a.
Proof. unfold zlen, slice. intros. rewrite length_take, length_drop. lia. Qed.

Lemma zlen_splice {A} off (bs l : list A) :
  0 <= off -> off + zlen bs <= zlen l -> zlen (splice off bs l) = zlen l.
Proof.
  unfold zlen, splice. intros. rewrite !length_app, length_take, length_drop. lia.
Qed.

(** Reading back exactly what was written. *)
Lemma slice_splice_same {A} off (bs l : list A) :
  0 <= off -> off + zlen bs <= zlen l ->
  slice off (off + zlen bs) (splice off bs l) = bs.
Proof.
  unfold slice, splice, zlen. intros Ho Hl.
  replace (Z.to_nat (off + Z.of_nat (length bs) - off)) with (length bs) by lia.
  rewrite drop_app_length' by (rewrite length_take; lia).
  by apply take_app_length.
Qed.

(** Bytes before the written range are unchanged. *)
Lemma slice_splice_before {A} a b off (bs l : list A) :
  0 <= a <= b -> b <= off -> off + zlen bs <= zlen l ->
  slice a b (splice off bs l) = slice a b l.
Proof.
  unfold slice, splice, zlen. intros Ha Hb Hl.
  rewrite drop_app_le by (rewrite length_take; lia).
  rewrite take_app_le by (rewrite length_drop, length_take; lia).
  rewrite skipn_firstn_comm, take_take. f_equal. lia.
Qed.

(** Bytes after the written range are unchanged. *)
Lemma slice_splice_after {A} a b off (bs l : list A) :
  0 <= off -> off + zlen bs <= a -> a <= b -> off + zlen bs <= zlen l ->
  slice a b (splice off bs l) = slice a b l.
Proof.
  unfold slice, splice, zlen. intros Ho Ha Hb Hl. f_equal.
  rewrite !drop_app_ge by (rewrite ?length_take; lia).
  rewrite length_take, drop_drop. f_equal. lia.
Qed.

Lemma bytes_ok_app a b : bytes_ok (a ++ b) <-> bytes_ok a /\ bytes_ok b.
Proof. apply Forall_app. Qed.

Lemma bytes_ok_slice a b l : bytes_ok l -> bytes_ok (slice a b l).
Proof. intros. by apply Forall_take, Forall_drop. Qed.

Lemma bytes_ok_splice off bs l : bytes_ok bs -> bytes_ok l -> bytes_ok (splice off bs l).
Proof.
  intros. apply Forall_app; split; [by apply Forall_take|].
  apply Forall_app; split; [done|]. by apply Forall_drop.
Qed.

#[export] Hint Resolve bytes_ok_slice bytes_ok_splice : wedb.

(** ** Fixed-width encodings *)

Fixpoint le_bytes (n : nat) (x : Z) : list Z :=
  match n with
  | O => []
  | S n' => x mod 256 :: le_bytes n' (x / 256)
  end.

Fixpoint le_num (l : list Z) : Z :=
  match l with
  | [] => 0
  | b :: t => b + 256 * le_num t
  end.

Definition be_bytes (n : nat) (x : Z) : list Z := rev (le_bytes n x).
Definition be_num (l : list Z) : Z := le_num (rev l).

Lemma length_le_bytes n x : length (le_bytes n x) = n.
Proof. revert x. induction n; intros; simpl; auto. Qed.

Lemma length_be_bytes n x : length (be_bytes n x) = n.
Proof. unfold be_bytes. by rewrite length_rev, length_le_bytes. Qed.

Lemma le_bytes_ok n x : bytes_ok (le_bytes n x).
Proof.
  revert x. induction n as [|n IH]; intros x; simpl; constructor; [|apply IH].
  apply (Z.mod_pos_bound x 256). lia.
Qed.

Lemma be_bytes_ok n x : bytes_ok (be_bytes n x).
Proof. apply Forall_rev, le_bytes_ok. Qed.

Lemma pow256_pos (n : nat) : 0 < 256 ^ Z.of_nat n.
Proof. apply Z.pow_pos_nonneg; lia. Qed.

Lemma pow256_S (n : nat) : 256 ^ Z.of_nat (S n) = 256 * 256 ^ Z.of_nat n.
Proof. rewrite Nat2Z.inj_succ, Z.pow_succ_r by lia. done. Qed.

Lemma le_num_le_bytes n x : le_num (le_bytes n x) = x mod 256 ^ Z.of_nat n.
Proof.
  revert x. induction n as [|n IH]; intros x; [by rewrite Z.mod_1_r|].
  rewrite pow256_S. simpl. rewrite IH, Z.rem_mul_r by (pose proof (pow256_pos n); lia).
  done.
Qed.

Lemma le_num_bound l : bytes_ok l -> 0 <= le_num l < 256 ^ Z.of_nat (length l).
Proof.
  induction 1 as [|b l Hb Hl IH]; [simpl; lia|].
  simpl length. rewrite pow256_S. simpl. unfold fits in Hb. lia.
Qed.

Lemma le_bytes_le_num l : bytes_ok l -> le_bytes (length l) (le_num l) = l.
Proof.
  induction 1 as [|b l Hb Hl IH]; simpl; [done|]. unfold fits in Hb.
  replace (b + 256 * le_num l) with (b + le_num l * 256) by lia.
  rewrite Z_mod_plus_full, Z.mod_small, Z.div_add, Z.div_small, Z.add_0_l by lia. by rewrite IH.
Qed.

Lemma be_num_be_bytes n x : be_num (be_bytes n x) = x mod 256 ^ Z.of_nat n.
Proof. unfold be_num, be_bytes. rewrite rev_involutive. apply le_num_le_bytes. Qed.

Lemma be_bytes_be_num l : bytes_ok l -> be_bytes (length l) (be_num l) = l.
Proof.
  intros Hl. unfold be_num, be_bytes. rewrite <- length_rev.
  rewrite le_bytes_le_num by (by apply Forall_rev). apply rev_involutive.
Qed.

Lemma be_num_bound l : bytes_ok l -> 0 <= be_num l < 256 ^ Z.of_nat (length l).
Proof. intros. unfold be_num. rewrite <- length_rev. by apply le_num_bound, Forall_rev. Qed.

Lemma le_num_app a b : le_num (a ++ b) = le_num a + 256 ^ Z.of_nat (length a) * le_num b.
Proof.
  induction a as [|x a IH]; [simpl; lia|].
  simpl length. rewrite pow256_S. simpl. rewrite IH. lia.
Qed.

Lemma be_num_cons x l : be_num (x :: l) = x * 256 ^ Z.of_nat (length l) + be_num l.
Proof. unfold be_num. simpl. rewrite le_num_app, length_rev. simpl. lia. Qed.

Lemma be_num_nil : be_num [] = 0.
Proof. done. Qed.

Lemma be_bytes_head n c r :
  fits 8 c -> 0 <= r < 256 ^ Z.of_nat n ->
  be_bytes (S n) (c * 256 ^ Z.of_nat n + r) = c :: be_bytes n r.
Proof.
  intros Hc Hr.
  rewrite <- (be_bytes_be_num (c :: be_bytes n r)) by (by constructor; [|apply be_bytes_ok]).
  rewrite be_num_cons, be_num_be_bytes, length_be_bytes, Z.mod_small by done.
  f_equal. simpl. by rewrite length_be_bytes.
Qed.

Lemma be_bytes_cons n x :
  0 <= x < 256 ^ Z.of_nat (S n) ->
  be_bytes (S n) x = x / 256 ^ Z.of_nat n :: be_bytes n (x mod 256 ^ Z.of_nat n).
Proof.
  intros Hx. rewrite pow256_S in Hx. pose proof (pow256_pos n) as Hp.
  rewrite (Z.div_mod x (256 ^ Z.of_nat n)) at 1 by lia.
  rewrite (Z.mul_comm (256 ^ _)). apply be_bytes_head.
  - split; [apply Z.div_pos; lia|]. apply Z.div_lt_upper_bound; [lia|].
    change (2 ^ 8) with 256. lia.
  - by apply Z.mod_pos_bound.
Qed.

Lemma be_bytes_inj n x y :
  0 <= x < 256 ^ Z.of_nat n -> 0 <= y < 256 ^ Z.of_nat n -> be_bytes n x = be_bytes n y -> x = y.
Proof.
  intros Hx Hy E%(f_equal be_num). rewrite !be_num_be_bytes, !Z.mod_small in E; done.
Qed.

(** ** Lexicographic order *)

Fixpoint lex_lt (a b : list Z) : Prop :=
  match a, b with
  | _, [] => False
  | [], _ :: _ => True
  | x :: a', y :: b' => x < y \/ (x = y /\ lex_lt a' b')
  end.

(** On strings of equal length the byte order is the big-endian numeric order. *)
Lemma lex_lt_be_num a b :
  bytes_ok a -> bytes_ok b -> length a = length b -> (lex_lt a b <-> be_num a < be_num b).
Proof.
  intros Ha. revert b. induction Ha as [|x a Hx Ha IH]; intros b Hb Hlen.
  { destruct b; [|done]. simpl. rewrite be_num_nil. lia. }
  destruct Hb as [|y b Hy Hb]; [done|]. injection Hlen as Hlen.
  rewrite !be_num_cons, <- Hlen. simpl. rewrite (IH b Hb Hlen).
  pose proof (be_num_bound a Ha). pose proof (be_num_bound b Hb). rewrite <- Hlen in *.
  unfold fits in *. split; [nia|]. intros.
  destruct (Z.lt_trichotomy x y) as [|[->|]]; [tauto| |nia]. right. split; [done|]. lia.
Qed.

Lemma lex_lt_irrefl a : ~ lex_lt a a.
Proof. induction a; simpl; [tauto|]. intros [|[]]; [lia|done]. Qed.

Lemma lex_lt_trans a b c : lex_lt a b -> lex_lt b c -> lex_lt a c.
Proof.
  revert b c. induction a as [|x a IH]; intros [|y b] [|z c]; simpl; try tauto.
  intros [|[-> ?]] [|[-> ?]]; eauto using Z.lt_trans.
Qed.

Lemma lex_lt_app_l p a b : lex_lt (p ++ a) (p ++ b) <-> lex_lt a b.
Proof. induction p as [|x p IH]; simpl; [done|]. rewrite IH. intuition lia. Qed.
