(* ===== verification/Hasher.v ===== *)
(** * Hashing ([wedb/whasher/src/lib.rs])

    The streaming checksum folds the input in stripes of 64 bytes into four
    lanes; the one-shot hashes use it for long inputs.  The compression functions
    [gxhash64] and [gxhash128] belong to a third-party crate and are parameters.
    [stream_split_invariant]: however a stream is cut into writes, the checksum is
    the one of the whole. *)

From stdpp Require Import base list numbers option tactics.
From Stdlib Require Import ZArith Lia Bool.
From S2P Require Import Prelude Bytes.

Module Hasher.

Definition STRIPE : Z := 64.
Definition LANES : Z := 4.

Definition GOLDEN_RATIO_64 : Z := 0x9E3779B97F4A7C15.

Definition mix13 (z : Z) : Z :=
  let z := wmul 64 (Z.lxor z (Z.shiftr z 30)) 0xBF58476D1CE4E5B9 in
  let z := wmul 64 (Z.lxor z (Z.shiftr z 27)) 0x94D049BB133111EB in
  Z.lxor z (Z.shiftr z 31).

Definition splitmix64 (z : Z) : Z := mix13 (wadd 64 z GOLDEN_RATIO_64).
Definition mix_thread_id (tid : Z) : Z := splitmix64 tid.

Definition LANE_SALT : list Z := [0; GOLDEN_RATIO_64; 0xC2B2AE3D27D4EB4F; 0x165667C9197360D5].

Definition DEFAULT_LANES : list Z := map (fun salt => to_i64 (mix13 salt)) LANE_SALT.

Definition lanes_for (seed : Z) : list Z :=
  if seed =? 0 then DEFAULT_LANES
  else map (fun salt => to_i64 (mix13 (Z.lxor seed salt))) LANE_SALT.

(** [slice::as_chunks::<n>]: the whole chunks and the rest. *)
Definition as_chunks {A} (n : nat) (l : list A) : list (list A) * list A :=
  let k := (length l / n)%nat in
  (map (fun i => take n (drop (i * n) l)) (seq 0 k), drop (k * n) l).

Arguments as_chunks : simpl never.

(** [rotate_left] on [u64]. *)
Definition rotate_left (x n : Z) : Z := Z.lor (wrap 64 (Z.shiftl x n)) (Z.shiftr x (64 - n)).

Record StreamHasher : Type := mkHasher {
  lanes : list Z;
  seed : Z;
  stripes : Z;
  total : Z;
  buf_len : Z;
  buf : list Z
}.

Definition with_seed (seed : Z) : StreamHasher :=
  mkHasher (lanes_for seed) seed 0 0 0 (repeat 0 64).

Definition new : StreamHasher := mkHasher DEFAULT_LANES 0 0 0 0 (repeat 0 64).

Definition reset (h : StreamHasher) : StreamHasher :=
  mkHasher (lanes_for (seed h)) (seed h) 0 0 0 (buf h).

Section Gxhash.
(** [gxhash::gxhash64(bytes, seed)] and [gxhash128]; seeds are signed. *)
Context (gxhash64 gxhash128 : list Z -> Z -> Z).

Definition fold (lanes : list Z) (stripes : Z) (stripe : list Z) : list Z * Z :=
  let lane := Z.to_nat (Z.land stripes (LANES - 1)) in
  (alter (fun l => to_i64 (gxhash64 stripe l)) lane lanes, wadd 64 stripes 1).

(** Single stripes until the count is a multiple of four. *)
Fixpoint align (lanes : list Z) (count : Z) (cs : list (list Z)) : list Z * Z * list (list Z) :=
  match cs with
  | [] => (lanes, count, [])
  | stripe :: rest =>
      if Z.land count (LANES - 1) =? 0 then (lanes, count, cs)
      else let '(lanes', count') := fold lanes count stripe in align lanes' count' rest
  end.

(** The four chains of a quad of stripes. *)
Definition fold_quad (lanes : list Z) (quad : list (list Z)) : list Z :=
  zip_with (fun stripe l => to_i64 (gxhash64 stripe l)) quad lanes.

Fixpoint fold_rest (lanes : list Z) (count : Z) (cs : list (list Z)) : list Z * Z :=
  match cs with
  | [] => (lanes, count)
  | stripe :: rest => let '(lanes', count') := fold lanes count stripe in fold_rest lanes' count' rest
  end.

(** The part of [write] behind the buffered bytes. *)
Definition write_stripes (h : StreamHasher) (bytes : list Z) : StreamHasher :=
  let '(cs, tail) := as_chunks 64 bytes in
  let '(ls, n, cs) := align (lanes h) (stripes h) cs in
  let '(quads, rem_stripes) := as_chunks 4 cs in
  let ls := fold_left fold_quad quads ls in
  let n := wadd 64 n (zlen quads * LANES) in
  let '(ls, n) := fold_rest ls n rem_stripes in
  mkHasher ls (seed h) n (total h) (zlen tail) (splice 0 tail (buf h)).

Definition write (h : StreamHasher) (bytes : list Z) : StreamHasher :=
  match bytes with
  | [] => h
  | _ =>
      let total := wadd 64 (total h) (zlen bytes) in
      if 0 <? buf_len h then
        let needed := STRIPE - buf_len h in
        if zlen bytes <? needed then
          mkHasher (lanes h) (seed h) (stripes h) total (buf_len h + zlen bytes)
            (splice (buf_len h) bytes (buf h))
        else
          let buf := splice (buf_len h) (slice 0 needed bytes) (buf h) in
          let '(ls, n) := fold (lanes h) (stripes h) buf in
          write_stripes (mkHasher ls (seed h) n total 0 buf) (slice_from needed bytes)
      else
        write_stripes (mkHasher (lanes h) (seed h) (stripes h) total (buf_len h) (buf h)) bytes
  end.

Definition finish (h : StreamHasher) : Z :=
  let state :=
    fold_left (fun state lane => to_i64 (gxhash64 (le_bytes 8 (of_i64 lane)) state)) (lanes h)
      (to_i64 (seed h)) in
  if buf_len h =? 0 then gxhash64 (le_bytes 8 (total h)) state
  else gxhash64 (slice 0 (buf_len h) (buf h) ++ le_bytes 8 (total h)) state.

Definition compute_checksum (data : list Z) : Z := finish (write new data).

Definition compute_checksum_with_seed (data : list Z) (seed : Z) : Z :=
  finish (write (with_seed seed) data).

(** ** One-shot hashes *)

Definition ONE_SHOT_MAX : Z := Z.shiftl 1 15.
Definition FAST_HASH_DOMAIN : Z := mix13 0xFA575EED00000001.

Definition large_one_shot (bytes : list Z) (seed : Z) : Z :=
  compute_checksum_with_seed bytes (Z.lxor seed FAST_HASH_DOMAIN).

Definition fast_hash (bytes : list Z) : Z :=
  if zlen bytes <? ONE_SHOT_MAX then gxhash64 bytes 0 else large_one_shot bytes 0.

Definition fast_hash_i64 (bytes : list Z) : Z := to_i64 (fast_hash bytes).

Definition fast_hash_with_seed (bytes : list Z) (seed : Z) : Z :=
  if zlen bytes <? ONE_SHOT_MAX then gxhash64 bytes (to_i64 seed) else large_one_shot bytes seed.

Definition scoped_hash (prefix key : list Z) : Z := fast_hash_with_seed key (fast_hash prefix).

Definition combine_seed (seed_a seed_b : Z) : Z :=
  to_i64 (Z.lxor (mix13 seed_a) (rotate_left (mix13 seed_b) 32)).

Definition large_hash128 (bytes : list Z) (seed : Z) : Z :=
  let s := of_i64 seed in
  let lo := compute_checksum_with_seed bytes s in
  let hi := compute_checksum_with_seed bytes (bnot 64 s) in
  Z.lor (Z.shiftl hi 64) lo.

Definition hash128 (bytes : list Z) (seed_a seed_b : Z) : Z :=
  if zlen bytes <? ONE_SHOT_MAX then gxhash128 bytes (combine_seed seed_a seed_b)
  else large_hash128 bytes (combine_seed seed_a seed_b).

(** ** The stream a hasher has seen *)

Lemma slice_extend {A} n (bs l : list A) :
  0 <= n -> n + zlen bs <= zlen l -> slice 0 (n + zlen bs) (splice n bs l) = slice 0 n l ++ bs.
Proof.
  intros Hn Hl. unfold slice, splice, zlen in *. rewrite !drop_0, !Z.sub_0_r.
  rewrite Z2Nat.inj_add, Nat2Z.id by lia. rewrite app_assoc, take_app_le.
  - apply take_ge. rewrite length_app, length_take. lia.
  - rewrite length_app, length_take. lia.
Qed.

Lemma splice_tail {A} n (bs l : list A) :
  0 <= n -> n + zlen bs = zlen l -> splice n bs l = slice 0 n l ++ bs.
Proof.
  intros Hn Hl. unfold slice, splice, zlen in *. rewrite drop_0, Z.sub_0_r.
  rewrite (drop_ge l) by lia. by rewrite app_nil_r.
Qed.

Lemma as_chunks_small {A} n (l : list A) : (length l < n)%nat -> as_chunks n l = ([], l).
Proof. intros H. unfold as_chunks. rewrite Nat.div_small by done. by rewrite drop_0. Qed.

Lemma as_chunks_app {A} n (a b : list A) : (0 < n)%nat -> length a = n ->
  as_chunks n (a ++ b) = (a :: (as_chunks n b).1, (as_chunks n b).2).
Proof.
  intros Hn Ha. unfold as_chunks. rewrite length_app, Ha.
  replace (n + length b)%nat with (1 * n + length b)%nat by lia. rewrite Nat.div_add_l by lia.
  cbn [Nat.add seq map fst snd]. rewrite drop_0, <- Ha, take_app_length. f_equal.
  - f_equal. rewrite <- seq_shift, map_map. apply map_ext. intros i. cbn [Nat.mul].
    by rewrite drop_app_add.
  - cbn [Nat.mul]. by rewrite drop_app_add.
Qed.

(** Induction over the chunks of a list. *)
Lemma chunks_ind {A} n (P : list A -> Prop) : (0 < n)%nat ->
  (forall l, (length l < n)%nat -> P l) ->
  (forall a b, length a = n -> P b -> P (a ++ b)) -> forall l, P l.
Proof.
  intros Hn H1 H2 l. remember (length l) as k eqn:Hk. revert l Hk.
  induction (lt_wf k) as [k _ IH]. intros l ->. destruct (decide (length l < n)%nat); [auto|].
  rewrite <- (take_drop n l). apply H2; [rewrite length_take; lia|].
  eapply IH; [|reflexivity]. rewrite length_drop. lia.
Qed.

Lemma as_chunks_app_tail {A} n (a b : list A) : (0 < n)%nat ->
  as_chunks n (a ++ b) =
    ((as_chunks n a).1 ++ (as_chunks n ((as_chunks n a).2 ++ b)).1,
     (as_chunks n ((as_chunks n a).2 ++ b)).2).
Proof.
  intros Hn. revert a. apply (chunks_ind n); [done| |].
  - intros a Ha. rewrite (as_chunks_small n a Ha). cbn [fst snd app]. apply surjective_pairing.
  - intros x a Hx IH. rewrite <- app_assoc, !(as_chunks_app n x) by done. cbn [fst snd].
    rewrite IH. done.
Qed.

Lemma as_chunks_concat {A} n (l : list A) : (0 < n)%nat ->
  concat (as_chunks n l).1 ++ (as_chunks n l).2 = l /\
  Forall (fun x => length x = n) (as_chunks n l).1 /\ (length (as_chunks n l).2 < n)%nat /\
  length (as_chunks n l).1 = (length l / n)%nat.
Proof.
  intros Hn. split; [|split; [|split]].
  - revert l. apply (chunks_ind n); [done| |].
    + intros l Hl. by rewrite as_chunks_small.
    + intros a b Ha IH. rewrite as_chunks_app by done. cbn. by rewrite <- app_assoc, IH.
  - revert l. apply (chunks_ind n); [done| |].
    + intros l Hl. by rewrite as_chunks_small.
    + intros a b Ha IH. rewrite as_chunks_app by done. cbn. by constructor.
  - revert l. apply (chunks_ind n); [done| |].
    + intros l Hl. by rewrite as_chunks_small.
    + intros a b Ha IH. by rewrite as_chunks_app.
  - unfold as_chunks. cbn. by rewrite length_map, length_seq.
Qed.

(** The lanes after the stripes [cs], the first of which is the [n]-th. *)
Fixpoint fold_all (ls : list Z) (n : nat) (cs : list (list Z)) : list Z :=
  match cs with
  | [] => ls
  | c :: rest => fold_all (alter (fun l => to_i64 (gxhash64 c l)) (n mod 4)%nat ls) (S n) rest
  end.

Lemma fold_all_app ls n a b : fold_all ls n (a ++ b) = fold_all (fold_all ls n a) (n + length a) b.
Proof.
  revert ls n. induction a as [|c a IH]; intros ls n; cbn; [by rewrite Nat.add_0_r|].
  rewrite IH. f_equal. lia.
Qed.

Lemma fold_all_length ls n cs : length (fold_all ls n cs) = length ls.
Proof. revert ls n. induction cs as [|c cs IH]; intros ls n; cbn; [done|]. by rewrite IH, length_alter. Qed.

Abbreviation count n := (wrap 64 (Z.of_nat n)).

Lemma count_lane n : Z.to_nat (Z.land (count n) (LANES - 1)) = (n mod 4)%nat.
Proof.
  change (LANES - 1) with (Z.ones 2). rewrite Z.land_ones by lia. unfold wrap. change (2 ^ 2) with 4.
  rewrite Z.mod_mod_divide by (by exists (2 ^ 62)).
  change 4 with (Z.of_nat 4). rewrite <- Nat2Z.inj_mod. apply Nat2Z.id.
Qed.

Lemma count_add n k : wadd 64 (count n) (Z.of_nat k) = count (n + k).
Proof. unfold wadd, wrap. rewrite Zplus_mod_idemp_l. f_equal. lia. Qed.

Lemma fold_spec ls n c :
  fold ls (count n) c = (alter (fun l => to_i64 (gxhash64 c l)) (n mod 4)%nat ls, count (S n)).
Proof. unfold fold. rewrite count_lane. f_equal. change 1 with (Z.of_nat 1). rewrite count_add. do 2 f_equal. lia. Qed.

Lemma align_spec cs : forall ls n, exists pre rest,
  cs = pre ++ rest /\ align ls (count n) cs = (fold_all ls n pre, count (n + length pre), rest) /\
  (rest = [] \/ (n + length pre) mod 4 = 0)%nat.
Proof.
  induction cs as [|c cs IH]; intros ls n.
  { exists [], []. cbn. rewrite Nat.add_0_r. auto. }
  cbn [align]. destruct (Z.eqb_spec (Z.land (count n) (LANES - 1)) 0) as [H|H].
  - exists [], (c :: cs). cbn [length app fold_all]. rewrite Nat.add_0_r. split; [done|]. split; [done|]. right.
    by rewrite <- count_lane, H.
  - rewrite fold_spec. destruct (IH (alter (fun l => to_i64 (gxhash64 c l)) (n mod 4)%nat ls) (S n))
      as (pre & rest & -> & -> & Hr).
    exists (c :: pre), rest. split; [done|]. cbn [length fold_all].
    replace (n + S (length pre))%nat with (S n + length pre)%nat by lia. auto.
Qed.

Lemma fold_rest_spec cs : forall ls n,
  fold_rest ls (count n) cs = (fold_all ls n cs, count (n + length cs)).
Proof.
  induction cs as [|c cs IH]; intros ls n; cbn [fold_rest fold_all length]; [by rewrite Nat.add_0_r|].
  rewrite fold_spec, IH. f_equal. do 2 f_equal. lia.
Qed.

Lemma fold_quad_spec ls n quad :
  length ls = 4%nat -> length quad = 4%nat -> (n mod 4 = 0)%nat -> fold_quad ls quad = fold_all ls n quad.
Proof.
  intros Hl Hq Hn.
  assert (Hm : forall i, (i < 4)%nat -> ((i + n) mod 4 = i)%nat).
  { intros i Hi. by rewrite Nat.Div0.add_mod, Hn, Nat.add_0_r, Nat.Div0.mod_mod, Nat.mod_small. }
  destruct ls as [|l0 [|l1 [|l2 [|l3 [|]]]]], quad as [|a [|b [|c [|d [|]]]]]; try discriminate.
  cbn [fold_all]. change (S (S (S n))) with (3 + n)%nat. change (S (S n)) with (2 + n)%nat.
  change (S n) with (1 + n)%nat. rewrite Hn, (Hm 1%nat), (Hm 2%nat), (Hm 3%nat) by lia. done.
Qed.

(** The quads of an aligned list of stripes, and the stripes that are left. *)
Lemma fold_quads_spec cs : forall ls n,
  length ls = 4%nat -> (cs = [] \/ n mod 4 = 0)%nat ->
  let '(quads, rem) := as_chunks 4 cs in
  fold_all (fold_left fold_quad quads ls) (n + 4 * length quads) rem = fold_all ls n cs /\
  (n + 4 * length quads + length rem = n + length cs)%nat.
Proof.
  pattern cs. apply chunks_ind with (n := 4%nat); clear cs; [lia| |].
  - intros cs Hc ls n Hl Hn. rewrite as_chunks_small by done. cbn. by rewrite !Nat.add_0_r.
  - intros quad cs Hq IH ls n Hl [Hn|Hn]; [by destruct quad|].
    rewrite as_chunks_app by lia. specialize (IH (fold_quad ls quad) (n + 4)%nat).
    destruct (as_chunks 4 cs) as [quads rem]. cbn [fst snd fold_left length] in *.
    destruct IH as [IH1 IH2].
    { rewrite (fold_quad_spec ls n) by done. by rewrite fold_all_length. }
    { right. by rewrite Nat.Div0.add_mod, Hn. }
    rewrite fold_all_app, length_app, Hq, <- (fold_quad_spec ls n quad), <- IH1 by done.
    split; [f_equal|]; lia.
Qed.

(** ** Hashers and streams *)

(** The hasher [h] with seed [s] has seen the bytes [d]. *)
Record seen (s : Z) (d : list Z) (h : StreamHasher) : Prop := {
  se_seed : seed h = s;
  se_lanes : lanes h = fold_all (lanes_for s) 0 (as_chunks 64 d).1;
  se_stripes : stripes h = count (length (as_chunks 64 d).1);
  se_total : total h = wrap 64 (zlen d);
  se_len : buf_len h = zlen (as_chunks 64 d).2;
  se_buf : slice 0 (buf_len h) (buf h) = (as_chunks 64 d).2;
  se_size : zlen (buf h) = 64
}.

Lemma lanes_for_length s : length (lanes_for s) = 4%nat.
Proof. unfold lanes_for, DEFAULT_LANES. by destruct (s =? 0). Qed.

Lemma write_stripes_seen s d h bytes :
  seed h = s -> lanes h = fold_all (lanes_for s) 0 (as_chunks 64 d).1 ->
  stripes h = count (length (as_chunks 64 d).1) -> total h = wrap 64 (zlen (d ++ bytes)) ->
  (as_chunks 64 d).2 = [] -> zlen (buf h) = 64 -> seen s (d ++ bytes) (write_stripes h bytes).
Proof.
  intros Hs Hl Hn Ht Hd Hb. unfold write_stripes.
  pose proof (as_chunks_app_tail 64 d bytes ltac:(lia)) as E. rewrite Hd in E. cbn [app] in E.
  destruct (as_chunks_concat 64 bytes) as (_ & _ & Htail & _); [lia|].
  destruct (as_chunks 64 bytes) as [cs tail] eqn:Ec. cbn [fst snd] in *.
  set (n0 := length (as_chunks 64 d).1) in *.
  destruct (align_spec cs (lanes h) n0) as (pre & rest & -> & Ha & Hr). rewrite Hn, Ha.
  pose proof (fold_quads_spec rest (fold_all (lanes h) n0 pre) (n0 + length pre)) as Hq.
  destruct (as_chunks 4 rest) as [quads rem].
  destruct Hq as [Hq1 Hq2]; [by rewrite fold_all_length, Hl, fold_all_length, lanes_for_length|done|].
  replace (zlen quads * LANES) with (Z.of_nat (4 * length quads)) by (unfold zlen, LANES; lia).
  rewrite count_add, fold_rest_spec, Hq1.
  split; cbn [seed lanes stripes total buf_len buf]; rewrite ?E; cbn [fst snd]; try done.
  - by rewrite !fold_all_app, <- Hl.
  - rewrite !length_app. fold n0. do 2 f_equal. lia.
  - replace (zlen tail) with (0 + zlen tail) by lia. apply slice_splice_same; unfold zlen in *; lia.
  - rewrite zlen_splice; unfold zlen in *; lia.
Qed.

Lemma write_seen s d h bytes : seen s d h -> seen s (d ++ bytes) (write h bytes).
Proof.
  intros [H1 H2 H3 H4 H5 H6 H7]. unfold write.
  destruct bytes as [|b0 bs] eqn:Eb; [by rewrite app_nil_r|]. rewrite <- Eb. clear Eb b0 bs.
  destruct (as_chunks_concat 64 d) as (_ & _ & Htail & _); [lia|].
  assert (Ht : wadd 64 (total h) (zlen bytes) = wrap 64 (zlen (d ++ bytes))).
  { rewrite H4, zlen_app. unfold wadd, wrap. by rewrite Zplus_mod_idemp_l. }
  pose proof (as_chunks_app_tail 64 d bytes ltac:(lia)) as E.
  set (tail := (as_chunks 64 d).2) in *. pose proof (zlen_nonneg tail).
  assert (Hlt : zlen tail < 64) by (unfold zlen; lia).
  destruct (Z.ltb_spec 0 (buf_len h)) as [Hp|Hp].
  2: { apply write_stripes_seen; cbn; try done. apply length_zero_iff_nil. unfold zlen in *. fold tail. lia. }
  destruct (Z.ltb_spec (zlen bytes) (STRIPE - buf_len h)) as [Hn|Hn]; unfold STRIPE in *.
  - rewrite (as_chunks_small 64 (tail ++ bytes)) in E by (rewrite length_app; unfold zlen in *; lia).
    split; cbn [seed lanes stripes total buf_len buf]; rewrite ?E; cbn [fst snd]; rewrite ?app_nil_r; try done.
    + rewrite zlen_app. lia.
    + rewrite <- H6. rewrite slice_extend by (unfold zlen in *; lia). done.
    + rewrite zlen_splice; unfold zlen in *; lia.
  - set (piece := slice 0 (64 - buf_len h) bytes).
    assert (Hpl : zlen piece = 64 - buf_len h) by (subst piece; rewrite zlen_slice; lia).
    assert (Hbuf : splice (buf_len h) piece (buf h) = tail ++ piece).
    { rewrite <- H6. apply splice_tail; lia. }
    assert (Hfull : length (tail ++ piece) = 64%nat).
    { assert (zlen (tail ++ piece) = 64) by (rewrite zlen_app; lia). unfold zlen in *. lia. }
    assert (Hsplit : bytes = piece ++ slice_from (64 - buf_len h) bytes).
    { subst piece. unfold slice, slice_from. rewrite Z.sub_0_r, drop_0. by rewrite take_drop. }
    pose proof (as_chunks_app_tail 64 d piece ltac:(lia)) as Ep. fold tail in Ep.
    rewrite <- (app_nil_r (tail ++ piece)), (as_chunks_app 64 (tail ++ piece)) in Ep by (done || lia).
    cbn in Ep. rewrite Hbuf, H3, fold_spec.
    replace (d ++ bytes) with ((d ++ piece) ++ slice_from (64 - buf_len h) bytes)
      by (by rewrite <- app_assoc, <- Hsplit).
    apply write_stripes_seen; cbn [seed lanes stripes total buf]; try done.
    + rewrite Ep. cbn [fst]. by rewrite fold_all_app, <- H2.
    + rewrite Ep. cbn [fst]. rewrite length_app, Nat.add_1_r. done.
    + by rewrite Ht, <- app_assoc, <- Hsplit.
    + by rewrite Ep.
    + unfold zlen. by rewrite Hfull.
Qed.

Lemma with_seed_seen s : seen s [] (with_seed s).
Proof. split; try done. Qed.

Lemma new_seen : seen 0 [] new.
Proof. split; try done. Qed.

Lemma writes_seen s d h chunks : seen s d h -> seen s (d ++ concat chunks) (fold_left write chunks h).
Proof.
  revert d h. induction chunks as [|c chunks IH]; intros d h Hh; cbn; [by rewrite app_nil_r|].
  rewrite app_assoc. by apply IH, write_seen.
Qed.

(** Hashers that have seen the same stream agree. *)
Lemma finish_seen s d h h' : seen s d h -> seen s d h' -> finish h = finish h'.
Proof.
  intros [H1 H2 H3 H4 H5 H6 H7] [K1 K2 K3 K4 K5 K6 K7]. unfold finish.
  rewrite H1, H2, H4, H6, K1, K2, K4, K6. by rewrite H5, K5.
Qed.

(** C23: The streaming checksum does not depend on how the stream is cut: for any
    sequence of writes, the unrolled four-lane folding of each included, the
    checksum is the one of the concatenation written at once, also for a hasher
    that was used before and reset. *)
Theorem stream_split_invariant s chunks h d :
  seen s d h ->
  finish (fold_left write chunks (with_seed s)) = compute_checksum_with_seed (concat chunks) s /\
  finish (fold_left write chunks h) = compute_checksum_with_seed (d ++ concat chunks) s /\
  finish (fold_left write chunks (reset h)) = compute_checksum_with_seed (concat chunks) s.
Proof.
  intros Hh. unfold compute_checksum_with_seed.
  assert (Hr : seen s [] (reset h)).
  { destruct Hh. split; cbn; try done; by rewrite ?se_seed0. }
  assert (Hw : forall x, seen s x (write (with_seed s) x)).
  { intros x. apply (write_seen s []), with_seed_seen. }
  split; [|split]; (eapply finish_seen; [|apply Hw]).
  - apply (writes_seen s []), with_seed_seen.
  - by apply writes_seen.
  - by apply (writes_seen s []).
Qed.


End Gxhash.

(** A compression function to run the code with. *)
Definition toy_hash (bytes : list Z) (seed : Z) : Z :=
  fold_left (fun h b => wadd 64 (wmul 64 h 31) b) bytes (of_i64 seed).

Lemma stream_split_invariant_witness :
  finish toy_hash (fold_left (write toy_hash) [[1; 2; 3]; repeat 5 100; repeat 7 300] (with_seed 9)) =
    compute_checksum_with_seed toy_hash ([1; 2; 3] ++ repeat 5 100 ++ repeat 7 300) 9 /\
  compute_checksum_with_seed toy_hash ([1; 2; 3] ++ repeat 5 100 ++ repeat 7 300) 9 <>
    compute_checksum_with_seed toy_hash [1; 2; 3] 9.
Proof.
  split; [|vm_compute; discriminate].
  destruct (stream_split_invariant toy_hash 9 [[1; 2; 3]; repeat 5 100; repeat 7 300] (with_seed 9) []
    (with_seed_seen toy_hash 9)) as [H _].
  etransitivity; [exact H|]. vm_compute. reflexivity.
Defined.

End Hasher.
