(* ===== verification/Varint.v ===== *)
(** * Order-preserving prefix varints ([wedb/wbase/src/varint.rs])

    The encoder writes into a caller's buffer, the decoder reads a slice; both
    report short buffers and non-canonical input as values.  The reference
    encoding [enc] is one big-endian number per length class; the code is shown
    to produce it, to invert it, to accept nothing else, and the byte order of
    encodings is shown to be the numeric order. *)

From stdpp Require Import base list numbers option tactics.
From Stdlib Require Import ZArith Lia Bool.
From S2P Require Import Prelude Bytes.

Module Varint.

Definition VARINT_1B_MAX : Z := 128.
Definition VARINT_2B_MAX : Z := 16512.
Definition VARINT_3B_MAX : Z := 2113664.
Definition VARINT_4B_MAX : Z := 270549120.
Definition VARINT_9B_MARKER : Z := 0xFF.
Definition VARINT_1B_FIRST_BYTE_MAX : Z := 0x7F.
Definition VARINT_1B_FIRST_BYTE_LIMIT : Z := 0x80.
Definition VARINT_2B_MARKER : Z := 0x80.
Definition VARINT_2B_FIRST_BYTE_MAX : Z := 0xBF.
Definition VARINT_2B_PAYLOAD_MASK : Z := 0x3F.
Definition VARINT_3B_MARKER : Z := 0xC0.
Definition VARINT_3B_FIRST_BYTE_MAX : Z := 0xDF.
Definition VARINT_3B_PAYLOAD_MASK : Z := 0x1F.
Definition VARINT_4B_MARKER : Z := 0xE0.
Definition VARINT_4B_FIRST_BYTE_MAX : Z := 0xEF.
Definition VARINT_4B_PAYLOAD_MASK : Z := 0x0F.
Definition MAX_VARINT_LEN : Z := 9.

Definition in_class (lo hi b : Z) : bool := (lo <=? b) && (b <=? hi).

(** The length table, built entry by entry from the byte ranges. *)
Definition VARINT_LEN_LUT : list Z :=
  map (fun i =>
         let b := Z.of_nat i in
         if in_class 0 VARINT_1B_FIRST_BYTE_MAX b then 1
         else if in_class VARINT_2B_MARKER VARINT_2B_FIRST_BYTE_MAX b then 2
         else if in_class VARINT_3B_MARKER VARINT_3B_FIRST_BYTE_MAX b then 3
         else if in_class VARINT_4B_MARKER VARINT_4B_FIRST_BYTE_MAX b then 4
         else if b =? VARINT_9B_MARKER then MAX_VARINT_LEN
         else 0) (seq 0 256).

Definition lut (b : Z) : Z := nth (Z.to_nat b) VARINT_LEN_LUT 0.

Inductive VarintError : Type :=
| BufferTooShort (expected actual : Z)
| NonCanonical.

(** [dst[i] = v]. *)
Definition put (i : nat) (v : Z) (dst : list Z) : list Z := <[i := v]> dst.

Definition encode_u64 (val : Z) (dst : list Z) : (Z * list Z) + VarintError :=
  if val <? VARINT_1B_MAX then
    if zlen dst =? 0 then inr (BufferTooShort 1 0)
    else inl (1, put 0 (wrap 8 val) dst)
  else if val <? VARINT_2B_MAX then
    if zlen dst <? 2 then inr (BufferTooShort 2 (zlen dst))
    else
      let offset := wrap 16 (val - VARINT_1B_MAX) in
      let bytes := be_bytes 2 offset in
      inl (2, put 1 (nth 1 bytes 0) (put 0 (Z.lor VARINT_2B_MARKER (nth 0 bytes 0)) dst))
  else if val <? VARINT_3B_MAX then
    if zlen dst <? 3 then inr (BufferTooShort 3 (zlen dst))
    else
      let offset := wrap 32 (val - VARINT_2B_MAX) in
      let bytes := be_bytes 4 offset in
      inl (3, put 2 (nth 3 bytes 0)
                (put 1 (nth 2 bytes 0)
                   (put 0 (Z.lor VARINT_3B_MARKER (nth 1 bytes 0)) dst)))
  else if val <? VARINT_4B_MAX then
    if zlen dst <? 4 then inr (BufferTooShort 4 (zlen dst))
    else
      let offset := wrap 32 (val - VARINT_3B_MAX) in
      let bytes := be_bytes 4 offset in
      inl (4, put 3 (nth 3 bytes 0)
                (put 2 (nth 2 bytes 0)
                   (put 1 (nth 1 bytes 0)
                      (put 0 (Z.lor VARINT_4B_MARKER (nth 0 bytes 0)) dst))))
  else
    if zlen dst <? MAX_VARINT_LEN then inr (BufferTooShort MAX_VARINT_LEN (zlen dst))
    else
      let bytes := be_bytes 8 val in
      inl (MAX_VARINT_LEN,
           put 8 (nth 7 bytes 0) (put 7 (nth 6 bytes 0) (put 6 (nth 5 bytes 0)
             (put 5 (nth 4 bytes 0) (put 4 (nth 3 bytes 0) (put 3 (nth 2 bytes 0)
               (put 2 (nth 1 bytes 0) (put 1 (nth 0 bytes 0)
                 (put 0 VARINT_9B_MARKER dst))))))))).

(** [encode_u64_to_array] on the zeroed 9-byte array; the error arm is the
    source's [unreachable!()]. *)
Definition encode_u64_to_array (val : Z) : list Z * Z :=
  match encode_u64 val (replicate 9 0) with
  | inl (len, buf) => (buf, len)
  | inr _ => (replicate 9 0, 0)
  end.

Definition decode_short (slice : list Z) (b0 : Z) : (Z * Z) + VarintError :=
  let expected := lut b0 in
  if expected =? 0 then inr NonCanonical else inr (BufferTooShort expected (zlen slice)).

Definition decode_u64 (slice : list Z) : (Z * Z) + VarintError :=
  match slice with
  | [] => inr (BufferTooShort 1 0)
  | b0 :: rest =>
      if b0 <=? VARINT_1B_FIRST_BYTE_MAX then inl (b0, 1)
      else if in_class VARINT_2B_MARKER VARINT_2B_FIRST_BYTE_MAX b0 then
        match rest with
        | b1 :: _ =>
            let offset := be_num [Z.land b0 VARINT_2B_PAYLOAD_MASK; b1] in
            inl (VARINT_1B_MAX + offset, 2)
        | _ => decode_short slice b0
        end
      else if in_class VARINT_3B_MARKER VARINT_3B_FIRST_BYTE_MAX b0 then
        match rest with
        | b1 :: b2 :: _ =>
            let offset := be_num [0; Z.land b0 VARINT_3B_PAYLOAD_MASK; b1; b2] in
            inl (VARINT_2B_MAX + offset, 3)
        | _ => decode_short slice b0
        end
      else if in_class VARINT_4B_MARKER VARINT_4B_FIRST_BYTE_MAX b0 then
        match rest with
        | b1 :: b2 :: b3 :: _ =>
            let offset := be_num [Z.land b0 VARINT_4B_PAYLOAD_MASK; b1; b2; b3] in
            inl (VARINT_3B_MAX + offset, 4)
        | _ => decode_short slice b0
        end
      else if b0 =? VARINT_9B_MARKER then
        match rest with
        | c0 :: c1 :: c2 :: c3 :: c4 :: c5 :: c6 :: c7 :: _ =>
            let val := be_num [c0; c1; c2; c3; c4; c5; c6; c7] in
            if val <? VARINT_4B_MAX then inr NonCanonical else inl (val, MAX_VARINT_LEN)
        | _ => decode_short slice b0
        end
      else decode_short slice b0
  end.

(** Reference encoding: marker and offset as one big-endian number. *)
Definition enc (v : Z) : list Z :=
  if v <? VARINT_1B_MAX then be_bytes 1 v
  else if v <? VARINT_2B_MAX then be_bytes 2 (0x8000 + (v - VARINT_1B_MAX))
  else if v <? VARINT_3B_MAX then be_bytes 3 (0xC00000 + (v - VARINT_2B_MAX))
  else if v <? VARINT_4B_MAX then be_bytes 4 (0xE0000000 + (v - VARINT_3B_MAX))
  else be_bytes 9 (0xFF * 2 ^ 64 + v).

(** ** The reference encoding, byte by byte *)

Ltac unfold_bounds :=
  unfold VARINT_1B_MAX, VARINT_2B_MAX, VARINT_3B_MAX, VARINT_4B_MAX in *.

Ltac enc_class := unfold enc; unfold_bounds; repeat (bit_split; try lia).

Ltac split_be := unfold be_bytes; cbn [le_bytes rev app].

Ltac list_eq := repeat apply (f_equal2 cons); try reflexivity.

Lemma enc_1 v : 0 <= v < VARINT_1B_MAX -> enc v = [v].
Proof. intros. enc_class. split_be. list_eq; euclid. Qed.

Lemma enc_2 v o :
  v = VARINT_1B_MAX + o -> 0 <= o < 2 ^ 14 -> enc v = [0x80 + o / 256; o mod 256].
Proof. intros -> ?. enc_class. split_be. list_eq; euclid. Qed.

Lemma enc_3 v o :
  v = VARINT_2B_MAX + o -> 0 <= o < 2 ^ 21 ->
  enc v = [0xC0 + o / 65536; o / 256 mod 256; o mod 256].
Proof. intros -> ?. enc_class. split_be. list_eq; euclid. Qed.

Lemma enc_4 v o :
  v = VARINT_3B_MAX + o -> 0 <= o < 2 ^ 28 ->
  enc v = [0xE0 + o / 16777216; o / 65536 mod 256; o / 256 mod 256; o mod 256].
Proof. intros -> ?. enc_class. split_be. list_eq; euclid. Qed.

Lemma enc_9 v : VARINT_4B_MAX <= v -> fits 64 v -> enc v = 0xFF :: be_bytes 8 v.
Proof.
  unfold fits. intros. enc_class.
  change (2 ^ 64) with (256 ^ Z.of_nat 8) in *. apply be_bytes_head; [unfold fits|]; lia.
Qed.

(** Every 64-bit value lies in exactly one length class. *)
Lemma class_cases v :
  fits 64 v ->
  0 <= v < VARINT_1B_MAX \/
  (exists o, v = VARINT_1B_MAX + o /\ 0 <= o < 2 ^ 14) \/
  (exists o, v = VARINT_2B_MAX + o /\ 0 <= o < 2 ^ 21) \/
  (exists o, v = VARINT_3B_MAX + o /\ 0 <= o < 2 ^ 28) \/
  (VARINT_4B_MAX <= v /\ fits 64 v).
Proof.
  intros Hv. unfold fits in *. unfold_bounds.
  destruct (Z.lt_ge_cases v 128); [left; lia|].
  destruct (Z.lt_ge_cases v 16512); [right; left; exists (v - 128); lia|].
  destruct (Z.lt_ge_cases v 2113664); [do 2 right; left; exists (v - 16512); lia|].
  destruct (Z.lt_ge_cases v 270549120); [do 3 right; left; exists (v - 2113664); lia|].
  do 4 right. lia.
Qed.

(** ** The encoder *)

(** [dst] is known to hold [n] bytes: name them. *)
Ltac take_dst n dst :=
  lazymatch n with
  | O => idtac
  | S ?m => destruct dst as [|? dst]; [unfold zlen in *; simpl in *; lia|]; take_dst m dst
  end.

(** Select the branch of the encoder for the class at hand. *)
Ltac enc_branch := unfold encode_u64; unfold_bounds; repeat (bit_split; try lia).

Lemma encode_1 v dst :
  0 <= v < VARINT_1B_MAX ->
  encode_u64 v dst =
    if zlen dst <? 1 then inr (BufferTooShort 1 (zlen dst)) else inl (1, v :: drop 1 dst).
Proof.
  intros Hv. enc_branch; try (pose proof (zlen_nonneg dst); lia).
  - by replace (zlen dst) with 0 by lia.
  - take_dst 1%nat dst. unfold put. simpl. rewrite wrap_id; [done|unfold fits; lia].
Qed.

Lemma encode_2 v o dst :
  v = VARINT_1B_MAX + o -> 0 <= o < 2 ^ 14 ->
  encode_u64 v dst =
    if zlen dst <? 2 then inr (BufferTooShort 2 (zlen dst))
    else inl (2, [0x80 + o / 256; o mod 256] ++ drop 2 dst).
Proof.
  intros -> Ho. enc_branch; [done|]. take_dst 2%nat dst.
  rewrite (wrap_id 16) by (unfold fits; lia). unfold put, be_bytes.
  cbn [le_bytes rev app nth drop insert list_insert].
  rewrite (lor_add 2 6) by (unfold fits; try lia; euclid).
  do 2 f_equal. list_eq; euclid.
Qed.

Lemma encode_3 v o dst :
  v = VARINT_2B_MAX + o -> 0 <= o < 2 ^ 21 ->
  encode_u64 v dst =
    if zlen dst <? 3 then inr (BufferTooShort 3 (zlen dst))
    else inl (3, [0xC0 + o / 65536; o / 256 mod 256; o mod 256] ++ drop 3 dst).
Proof.
  intros -> Ho. enc_branch; [done|]. take_dst 3%nat dst.
  rewrite (wrap_id 32) by (unfold fits; lia). unfold put, be_bytes.
  cbn [le_bytes rev app nth drop insert list_insert].
  rewrite (lor_add 6 5) by (unfold fits; try lia; euclid).
  do 2 f_equal. list_eq; euclid.
Qed.

Lemma encode_4 v o dst :
  v = VARINT_3B_MAX + o -> 0 <= o < 2 ^ 28 ->
  encode_u64 v dst =
    if zlen dst <? 4 then inr (BufferTooShort 4 (zlen dst))
    else inl (4, [0xE0 + o / 16777216; o / 65536 mod 256; o / 256 mod 256; o mod 256] ++ drop 4 dst).
Proof.
  intros -> Ho. enc_branch; [done|]. take_dst 4%nat dst.
  rewrite (wrap_id 32) by (unfold fits; lia). unfold put, be_bytes.
  cbn [le_bytes rev app nth drop insert list_insert].
  rewrite (lor_add 14 4) by (unfold fits; try lia; euclid).
  do 2 f_equal. list_eq; euclid.
Qed.

Lemma encode_9 v dst :
  VARINT_4B_MAX <= v ->
  encode_u64 v dst =
    if zlen dst <? 9 then inr (BufferTooShort 9 (zlen dst))
    else inl (9, (0xFF :: be_bytes 8 v) ++ drop 9 dst).
Proof.
  intros Hv. unfold encode_u64, MAX_VARINT_LEN. unfold_bounds. repeat (bit_split; try lia); [done|].
  take_dst 9%nat dst. reflexivity.
Qed.

Lemma encode_u64_spec v dst :
  fits 64 v ->
  encode_u64 v dst =
    if zlen dst <? zlen (enc v) then inr (BufferTooShort (zlen (enc v)) (zlen dst))
    else inl (zlen (enc v), enc v ++ drop (length (enc v)) dst).
Proof.
  intros Hv.
  destruct (class_cases v Hv) as [Hc|[(o & E & Ho)|[(o & E & Ho)|[(o & E & Ho)|[Hc Hf]]]]].
  - rewrite (enc_1 _ Hc). by apply encode_1.
  - rewrite (enc_2 _ _ E Ho). by apply encode_2.
  - rewrite (enc_3 _ _ E Ho). by apply encode_3.
  - rewrite (enc_4 _ _ E Ho). by apply encode_4.
  - rewrite (enc_9 _ Hc Hf). by apply encode_9.
Qed.

Lemma enc_length v : fits 64 v -> 1 <= zlen (enc v) <= 9.
Proof.
  intros Hv.
  destruct (class_cases v Hv) as [Hc|[(o & E & Ho)|[(o & E & Ho)|[(o & E & Ho)|[Hc Hf]]]]].
  - rewrite (enc_1 _ Hc). done.
  - rewrite (enc_2 _ _ E Ho). done.
  - rewrite (enc_3 _ _ E Ho). done.
  - rewrite (enc_4 _ _ E Ho). done.
  - rewrite (enc_9 _ Hc Hf). done.
Qed.

Lemma enc_ok v : bytes_ok (enc v).
Proof. unfold enc. repeat case_match; apply be_bytes_ok. Qed.

(** The array form never takes its unreachable arm: the nine-byte buffer
    always suffices, and the bytes used are the encoding. *)
Lemma encode_u64_to_array_spec v :
  fits 64 v ->
  encode_u64_to_array v = (enc v ++ replicate (9 - length (enc v)) 0, zlen (enc v)).
Proof.
  intros Hv. unfold encode_u64_to_array. rewrite encode_u64_spec by done.
  pose proof (enc_length v Hv) as Hl. change (zlen (replicate 9 0)) with 9.
  destruct (Z.ltb_spec 9 (zlen (enc v))); [lia|]. by rewrite drop_replicate.
Qed.

(** ** The decoder *)

Ltac unfold_markers :=
  unfold in_class, VARINT_1B_FIRST_BYTE_MAX, VARINT_2B_MARKER, VARINT_2B_FIRST_BYTE_MAX,
    VARINT_3B_MARKER, VARINT_3B_FIRST_BYTE_MAX, VARINT_4B_MARKER, VARINT_4B_FIRST_BYTE_MAX,
    VARINT_9B_MARKER, MAX_VARINT_LEN in *.

Ltac dec_branch :=
  cbn [decode_u64 app]; unfold_markers; repeat (bit_split; simpl andb; try lia; try euclid).

(** Payload masks are remainders. *)
Lemma payload_2 b : Z.land b VARINT_2B_PAYLOAD_MASK = b mod 64.
Proof. exact (Z.land_ones b 6 ltac:(lia)). Qed.
Lemma payload_3 b : Z.land b VARINT_3B_PAYLOAD_MASK = b mod 32.
Proof. exact (Z.land_ones b 5 ltac:(lia)). Qed.
Lemma payload_4 b : Z.land b VARINT_4B_PAYLOAD_MASK = b mod 16.
Proof. exact (Z.land_ones b 4 ltac:(lia)). Qed.

Lemma be_num_8 v c0 c1 c2 c3 c4 c5 c6 c7 :
  fits 64 v -> be_bytes 8 v = [c0; c1; c2; c3; c4; c5; c6; c7] ->
  be_num [c0; c1; c2; c3; c4; c5; c6; c7] = v.
Proof. intros Hv <-. rewrite be_num_be_bytes. by apply (wrap_id 64). Qed.

Lemma decode_enc v rest :
  fits 64 v -> decode_u64 (enc v ++ rest) = inl (v, zlen (enc v)).
Proof.
  intros Hv.
  destruct (class_cases v Hv) as [Hc|[(o & E & Ho)|[(o & E & Ho)|[(o & E & Ho)|[Hc Hf]]]]].
  - rewrite (enc_1 _ Hc). unfold VARINT_1B_MAX in Hc. dec_branch. done.
  - rewrite (enc_2 _ _ E Ho), E. dec_branch. rewrite payload_2.
    do 2 f_equal. f_equal. unfold be_num. cbn [rev app le_num]. euclid.
  - rewrite (enc_3 _ _ E Ho), E. dec_branch. rewrite payload_3.
    do 2 f_equal. f_equal. unfold be_num. cbn [rev app le_num]. euclid.
  - rewrite (enc_4 _ _ E Ho), E. dec_branch. rewrite payload_4.
    do 2 f_equal. f_equal. unfold be_num. cbn [rev app le_num]. euclid.
  - rewrite (enc_9 _ Hc Hf). destruct (be_bytes 8 v) as [|c0 [|c1 [|c2 [|c3 [|c4 [|c5 [|c6 [|c7 [|]]]]]]]]] eqn:Eb;
      try (by pose proof (length_be_bytes 8 v) as Hlen; rewrite Eb in Hlen).
    cbn [decode_u64 app]. rewrite (be_num_8 v) by done.
    destruct (Z.ltb_spec v VARINT_4B_MAX); [lia|done].
Qed.

(** Only encodings decode: a successful decode consumed exactly the
    encoding of the value it returned. *)
Lemma decode_canonical s v n :
  bytes_ok s -> decode_u64 s = inl (v, n) ->
  fits 64 v /\ n = zlen (enc v) /\ exists rest, s = enc v ++ rest.
Proof.
  intros Hs. destruct Hs as [|b0 s Hb0 Hs]; [done|]. cbn [decode_u64]. unfold fits in Hb0.
  destruct (Z.leb_spec b0 VARINT_1B_FIRST_BYTE_MAX) as [H1|H1].
  { intros [= <- <-]. unfold VARINT_1B_FIRST_BYTE_MAX in *. unfold fits.
    rewrite enc_1 by (unfold_bounds; lia). repeat split; try lia. by exists s. }
  destruct (in_class VARINT_2B_MARKER VARINT_2B_FIRST_BYTE_MAX b0) eqn:H2.
  { unfold_markers. destruct Hs as [|b1 s Hb1 Hs]; [by unfold decode_short; case_match|].
    unfold fits in Hb1. rewrite payload_2. unfold be_num. cbn [rev app le_num].
    intros [= <- <-]. rewrite (enc_2 _ (b0 mod 64 * 256 + b1)) by (unfold_bounds; euclid).
    unfold fits. unfold_bounds. repeat split; try euclid. exists s. cbn [app]. list_eq; euclid. }
  destruct (in_class VARINT_3B_MARKER VARINT_3B_FIRST_BYTE_MAX b0) eqn:H3.
  { unfold_markers. destruct Hs as [|b1 s Hb1 [|b2 s' Hb2 Hs]];
      try (by unfold decode_short; case_match).
    unfold fits in *. rewrite payload_3. unfold be_num. cbn [rev app le_num].
    intros [= <- <-]. rewrite (enc_3 _ (b0 mod 32 * 65536 + b1 * 256 + b2)) by (unfold_bounds; euclid).
    unfold fits. unfold_bounds. repeat split; try euclid. exists s'. cbn [app]. list_eq; euclid. }
  destruct (in_class VARINT_4B_MARKER VARINT_4B_FIRST_BYTE_MAX b0) eqn:H4.
  { unfold_markers. destruct Hs as [|b1 s Hb1 [|b2 s' Hb2 [|b3 s'' Hb3 Hs]]];
      try (by unfold decode_short; case_match).
    unfold fits in *. rewrite payload_4. unfold be_num. cbn [rev app le_num].
    intros [= <- <-].
    rewrite (enc_4 _ (b0 mod 16 * 16777216 + b1 * 65536 + b2 * 256 + b3)) by (unfold_bounds; euclid).
    unfold fits. unfold_bounds. repeat split; try euclid. exists s''. cbn [app]. list_eq; euclid. }
  destruct (Z.eqb_spec b0 VARINT_9B_MARKER) as [->|]; [|by unfold decode_short; case_match].
  destruct s as [|c0 [|c1 [|c2 [|c3 [|c4 [|c5 [|c6 [|c7 s]]]]]]]];
    try (by unfold decode_short; case_match).
  destruct (Z.ltb_spec (be_num [c0; c1; c2; c3; c4; c5; c6; c7]) VARINT_4B_MAX); [done|].
  intros [= <- <-].
  assert (Hok : bytes_ok [c0; c1; c2; c3; c4; c5; c6; c7]) by (by apply (Forall_take _ 8) in Hs).
  pose proof (be_num_bound _ Hok) as Hb. pose proof (be_bytes_be_num _ Hok) as He.
  change (256 ^ Z.of_nat (length _)) with (2 ^ 64) in Hb. simpl length in He.
  rewrite enc_9 by done. rewrite He. repeat split; [lia..|]. by exists s.
Qed.

(** ** Byte order *)

Lemma be_bytes_lex n x y :
  0 <= x < y -> y < 256 ^ Z.of_nat n -> lex_lt (be_bytes n x) (be_bytes n y).
Proof.
  intros Hx Hy. apply lex_lt_be_num; try apply be_bytes_ok; [by rewrite !length_be_bytes|].
  rewrite !be_num_be_bytes, !Z.mod_small by lia. lia.
Qed.

(** The first byte identifies the length class. *)
Lemma enc_head v :
  fits 64 v -> exists h t, enc v = h :: t /\
    (v < VARINT_1B_MAX -> 0 <= h <= 0x7F) /\
    (VARINT_1B_MAX <= v < VARINT_2B_MAX -> 0x80 <= h <= 0xBF) /\
    (VARINT_2B_MAX <= v < VARINT_3B_MAX -> 0xC0 <= h <= 0xDF) /\
    (VARINT_3B_MAX <= v < VARINT_4B_MAX -> 0xE0 <= h <= 0xEF) /\
    (VARINT_4B_MAX <= v -> h = 0xFF) /\ lut h = zlen (enc v).
Proof.
  intros Hv.
  assert (Hlut : forall lo hi n h, forallb (fun i => lut (Z.of_nat i) =? n) (seq (Z.to_nat lo) (Z.to_nat (hi + 1 - lo))) = true ->
            0 <= lo -> lo <= h <= hi -> lut h = n).
  { intros lo hi n h Hall H0 Hh. rewrite forallb_forall in Hall.
    specialize (Hall (Z.to_nat h)). rewrite Z2Nat.id in Hall by lia.
    apply Z.eqb_eq, Hall, in_seq. lia. }
  destruct (class_cases v Hv) as [Hc|[(o & E & Ho)|[(o & E & Ho)|[(o & E & Ho)|[Hc Hf]]]]].
  - rewrite (enc_1 _ Hc). eexists _, _. split; [done|]. unfold_bounds.
    repeat split; try lia. by apply (Hlut 0 0x7F); [reflexivity|..]; lia.
  - rewrite (enc_2 _ _ E Ho). eexists _, _. split; [done|]. unfold_bounds.
    repeat split; try euclid. by apply (Hlut 0x80 0xBF); [reflexivity|..]; euclid.
  - rewrite (enc_3 _ _ E Ho). eexists _, _. split; [done|]. unfold_bounds.
    repeat split; try euclid. by apply (Hlut 0xC0 0xDF); [reflexivity|..]; euclid.
  - rewrite (enc_4 _ _ E Ho). eexists _, _. split; [done|]. unfold_bounds.
    repeat split; try euclid. by apply (Hlut 0xE0 0xEF); [reflexivity|..]; euclid.
  - rewrite (enc_9 _ Hc Hf). eexists _, _. split; [done|]. unfold_bounds.
    repeat split; try lia.
Qed.

Lemma enc_lt a b : fits 64 a -> fits 64 b -> a < b -> lex_lt (enc a) (enc b).
Proof.
  intros Ha Hb Hlt.
  destruct (enc_head a Ha) as (ha & ta & Ea & A1 & A2 & A3 & A4 & A5 & _).
  destruct (enc_head b Hb) as (hb & tb & Eb & B1 & B2 & B3 & B4 & B5 & _).
  destruct (Z.lt_ge_cases ha hb) as [|Hge]; [rewrite Ea, Eb; by left|].
  clear Ea Eb. unfold enc, fits in *. unfold_bounds.
  repeat (bit_split; try lia); apply be_bytes_lex; simpl; lia.
Qed.

Lemma enc_lt_iff a b : fits 64 a -> fits 64 b -> (a < b <-> lex_lt (enc a) (enc b)).
Proof.
  intros Ha Hb. split; [by apply enc_lt|]. intros Hlex.
  destruct (Z.lt_trichotomy a b) as [|[->|Hgt]]; [done| |].
  - by apply lex_lt_irrefl in Hlex.
  - destruct (lex_lt_irrefl (enc a)). eapply lex_lt_trans; [done|]. by apply enc_lt.
Qed.

(** The bytes that [encode_u64_to_array] produces. *)
Definition encoded (v : Z) : list Z :=
  let '(buf, len) := encode_u64_to_array v in slice 0 len buf.

Lemma encoded_enc v : fits 64 v -> encoded v = enc v.
Proof.
  intros Hv. unfold encoded, slice. rewrite encode_u64_to_array_spec by done.
  unfold zlen. rewrite Z.sub_0_r, Nat2Z.id. simpl. apply take_app_length.
Qed.

(** Round trip of the varint codec through a caller's buffer.  Encoding
    a 64-bit value fails only when the buffer is shorter than the encoding;
    otherwise the buffer keeps its length and its bytes past the encoding, and
    decoding it gives back the value and the number of bytes written. *)
Theorem encode_decode_roundtrip v dst :
  fits 64 v ->
  match encode_u64 v dst with
  | inl (n, buf) =>
      1 <= n <= MAX_VARINT_LEN /\ zlen buf = zlen dst /\
      slice_from n buf = slice_from n dst /\ decode_u64 buf = inl (v, n)
  | inr e => e = BufferTooShort (zlen (encoded v)) (zlen dst) /\ zlen dst < zlen (encoded v)
  end.
Proof.
  intros Hv. rewrite encode_u64_spec, encoded_enc by done. pose proof (enc_length v Hv).
  destruct (Z.ltb_spec (zlen dst) (zlen (enc v))); [done|].
  unfold zlen in *. split; [unfold MAX_VARINT_LEN; lia|]. split; [|split].
  - rewrite length_app, length_drop. lia.
  - unfold slice_from. rewrite Nat2Z.id. apply drop_app_length.
  - by apply decode_enc.
Qed.

Lemma encode_decode_roundtrip_witness :
  fits 64 300 /\ encode_u64 300 [7; 7; 7] = inl (2, [0x80; 172; 7]) /\
  decode_u64 [0x80; 172; 7] = inl (300, 2).
Proof.
  pose proof (encode_decode_roundtrip 300 [7; 7; 7] ltac:(unfold fits; lia)) as H.
  change (encode_u64 300 [7; 7; 7]) with (@inl (Z * list Z) VarintError (2, [0x80; 172; 7])) in *.
  destruct H as (_ & _ & _ & H). split; [unfold fits; lia|]. split; [reflexivity|exact H].
Defined.

(** Canonical decoding.  Whatever byte string the decoder accepts begins
    with the encoder's output for the value it returns, of exactly the length
    it reports; so no value has a second accepted encoding. *)
Theorem decode_only_canonical s v n :
  bytes_ok s -> decode_u64 s = inl (v, n) ->
  fits 64 v /\ n = zlen (encoded v) /\ slice 0 n s = encoded v.
Proof.
  intros Hs Hd. destruct (decode_canonical s v n Hs Hd) as (Hv & -> & rest & ->).
  rewrite encoded_enc by done. split; [done|]. split; [done|].
  unfold slice, zlen. rewrite Z.sub_0_r, Nat2Z.id. simpl. apply take_app_length.
Qed.

Lemma decode_only_canonical_witness :
  decode_u64 [0xC0; 0; 5; 9] = inl (16517, 3) /\ slice 0 3 [0xC0; 0; 5; 9] = encoded 16517.
Proof.
  split; [reflexivity|].
  apply (decode_only_canonical [0xC0; 0; 5; 9] 16517 3); [|reflexivity].
  repeat (constructor; [unfold fits; lia|]). constructor.
Defined.

(** Order preservation, as the module's documentation states it:
    [a < b <=> encode(a) < encode(b)] for the byte-lexicographic order. *)
Theorem encode_order_preserving a b :
  fits 64 a -> fits 64 b -> (a < b <-> lex_lt (encoded a) (encoded b)).
Proof. intros Ha Hb. rewrite !encoded_enc by done. by apply enc_lt_iff. Qed.

Lemma encode_order_preserving_witness :
  127 < 270549120 /\ lex_lt (encoded 127) (encoded 270549120).
Proof.
  split; [lia|]. apply (encode_order_preserving 127 270549120); unfold fits; lia.
Defined.

End Varint.
