(* ===== verification/Glob.v ===== *)
(** * Glob patterns ([wedb/wbase/src/glob.rs])

    [glob_match_opt] scans pattern and target once, remembering only the last
    [*] to return to.  Positions in the source are indices; here they are the
    suffixes that start there.  [matches] is the meaning of a pattern. *)

From stdpp Require Import base list numbers option tactics.
From Stdlib Require Import ZArith Lia Bool.
From S2P Require Import Prelude Bytes.

Module Glob.

Definition STAR : Z := 42.
Definition QUESTION : Z := 63.
Definition LBRACKET : Z := 91.
Definition BACKSLASH : Z := 92.
Definition RBRACKET : Z := 93.
Definition CARET : Z := 94.
Definition DASH : Z := 45.

Definition to_ascii_lowercase (b : Z) : Z := if (65 <=? b) && (b <=? 90) then b + 32 else b.

Definition byte_eq (a b : Z) (ignore_case : bool) : bool :=
  if ignore_case then to_ascii_lowercase a =? to_ascii_lowercase b else a =? b.

Definition in_range (ch low high : Z) (ignore_case : bool) : bool :=
  let '(low, high) := if low <=? high then (low, high) else (high, low) in
  if ignore_case then
    let ch := to_ascii_lowercase ch in
    let low := to_ascii_lowercase low in
    let high := to_ascii_lowercase high in
    (low <=? ch) && (ch <=? high)
  else wsub 8 ch low <=? high - low.

(** The loop of [match_bracket] at position [i], the bytes [l] still ahead:
    whether some item matched, and where the loop stopped. *)
Fixpoint bracket_loop (target_byte : Z) (ignore_case : bool) (l : list Z) (i : nat) (matched : bool)
  : bool * nat :=
  match l with
  | [] => (matched, i)
  | c :: l1 =>
      if c =? RBRACKET then (matched, i)
      else
        match l1 with
        | x :: l2 =>
            if c =? BACKSLASH then
              bracket_loop target_byte ignore_case l2 (i + 2) (matched || (x =? target_byte))
            else
              match l2 with
              | e :: l3 =>
                  if x =? DASH then
                    bracket_loop target_byte ignore_case l3 (i + 3)
                      (matched || in_range target_byte c e ignore_case)
                  else
                    bracket_loop target_byte ignore_case l1 (i + 1)
                      (matched || byte_eq c target_byte ignore_case)
              | [] =>
                  bracket_loop target_byte ignore_case l1 (i + 1)
                    (matched || byte_eq c target_byte ignore_case)
              end
        | [] =>
            bracket_loop target_byte ignore_case l1 (i + 1)
              (matched || byte_eq c target_byte ignore_case)
        end
  end.

Definition match_bracket (pat : list Z) (target_byte : Z) (ignore_case : bool) : bool * nat :=
  let body := drop 1 pat in
  let '(invert, body, i) :=
    match body with
    | c :: rest => if c =? CARET then (true, rest, 2%nat) else (false, body, 1%nat)
    | [] => (false, body, 1%nat)
    end in
  let '(matched, i) := bracket_loop target_byte ignore_case body i false in
  if (length pat <=? i)%nat then (negb (Bool.eqb matched invert), length pat)
  else (negb (Bool.eqb matched invert), (i + 1)%nat).

(** [while p + 1 < len && pattern[p + 1] == b'*' { p += 1 }]. *)
Fixpoint last_star (p : list Z) : list Z :=
  match p with
  | _ :: ((c :: _) as r) => if c =? STAR then last_star r else p
  | _ => p
  end.

Fixpoint skip_stars (p : list Z) : list Z :=
  match p with
  | c :: r => if c =? STAR then skip_stars r else p
  | [] => []
  end.

(** The main loop at pattern suffix [p] and target suffix [t]; [star] holds the
    pattern behind the last [*] and the target suffix it was tried at. *)
Fixpoint glob_loop (fuel : nat) (ignore_case : bool) (p t : list Z)
    (star : option (list Z * list Z)) : option bool :=
  match fuel with
  | O => None
  | S fuel' =>
      match t with
      | [] => Some (match skip_stars p with [] => true | _ => false end)
      | tb :: t' =>
          let retry :=
            match star with
            | Some (sp, st) => glob_loop fuel' ignore_case sp (drop 1 st) (Some (sp, drop 1 st))
            | None => Some false
            end in
          match p with
          | [] => retry
          | c :: p' =>
              if c =? STAR then
                match last_star p with
                | _ :: ((_ :: _) as r) => glob_loop fuel' ignore_case r t (Some (r, t))
                | _ => Some true
                end
              else if c =? QUESTION then glob_loop fuel' ignore_case p' t' star
              else if c =? LBRACKET then
                let '(matched, consumed) := match_bracket p tb ignore_case in
                if matched then glob_loop fuel' ignore_case (drop consumed p) t' star else retry
              else if c =? BACKSLASH then
                let pat_byte := match p' with x :: _ => x | [] => BACKSLASH end in
                if byte_eq pat_byte tb ignore_case
                then glob_loop fuel' ignore_case (match p' with _ :: r => r | [] => [] end) t' star
                else retry
              else if byte_eq c tb ignore_case then glob_loop fuel' ignore_case p' t' star
              else retry
          end
      end
  end.

Definition glob_match_opt (fuel : nat) (pattern target : list Z) (ignore_case : bool) : option bool :=
  match target with
  | [] => Some (match pattern with [] => true | _ => false end)
  | _ => glob_loop fuel ignore_case pattern target None
  end.

Definition glob_match (fuel : nat) (pattern target : list Z) := glob_match_opt fuel pattern target false.
Definition glob_match_nocase (fuel : nat) (pattern target : list Z) :=
  glob_match_opt fuel pattern target true.

(** ** Meaning of patterns *)

(** Whether the element a non-empty, non-[*] pattern starts with accepts a
    byte, and the pattern behind that element. *)
Definition elem_ok (ic : bool) (p : list Z) (tb : Z) : bool :=
  match p with
  | [] => false
  | c :: p' =>
      if c =? QUESTION then true
      else if c =? LBRACKET then fst (match_bracket p tb ic)
      else if c =? BACKSLASH then byte_eq (match p' with x :: _ => x | [] => BACKSLASH end) tb ic
      else byte_eq c tb ic
  end.

Definition elem_rest (p : list Z) : list Z :=
  match p with
  | [] => []
  | c :: p' =>
      if c =? LBRACKET then drop (snd (match_bracket p 0 false)) p
      else if (c =? BACKSLASH) then match p' with _ :: r => r | [] => [] end
      else p'
  end.

Inductive matches (ic : bool) : list Z -> list Z -> Prop :=
| matches_nil : matches ic [] []
| matches_star p t t' : matches ic p t -> matches ic (STAR :: p) (t' ++ t)
| matches_elem c p tb t :
    c <> STAR -> elem_ok ic (c :: p) tb = true -> matches ic (elem_rest (c :: p)) t ->
    matches ic (c :: p) (tb :: t).

(** ** Brackets *)

(** One iteration: the loop stops, or continues on a shorter suffix at a
    position that does not depend on the byte looked for. *)
Lemma bracket_loop_step c l :
  (forall tb ic i m, bracket_loop tb ic (c :: l) i m = (m, i)) \/
  exists l' k, (length l' <= length l)%nat /\ (1 <= k)%nat /\
    forall tb ic i m, exists m', bracket_loop tb ic (c :: l) i m = bracket_loop tb ic l' (i + k) m'.
Proof.
  destruct (c =? RBRACKET) eqn:E; [left; intros; cbn [bracket_loop]; by rewrite E|right].
  destruct l as [|x l]; [exists [], 1%nat; split; [done|]; split; [lia|];
    intros; simpl; rewrite E; eauto|].
  destruct (c =? BACKSLASH) eqn:Eb; [exists l, 2%nat; split; [simpl; lia|]; split; [lia|];
    intros; simpl; rewrite E, Eb; eauto|].
  destruct l as [|e l]; [exists [x], 1%nat; split; [done|]; split; [lia|];
    intros; cbn [bracket_loop]; rewrite E, Eb; eauto|].
  destruct (x =? DASH) eqn:Ed; [exists l, 3%nat|exists (x :: e :: l), 1%nat];
    (split; [simpl; lia|]); (split; [lia|]); intros; cbn [bracket_loop]; rewrite E, Eb, Ed; eauto.
Qed.

Lemma bracket_loop_stop ic ic' tb tb' n : forall l i m m', (length l < n)%nat ->
  snd (bracket_loop tb ic l i m) = snd (bracket_loop tb' ic' l i m').
Proof.
  induction n as [|n IH]; intros l i m m' Hl; [lia|]. destruct l as [|c l]; [done|].
  destruct (bracket_loop_step c l) as [H|(l' & k & Hs & _ & H)]; [by rewrite !H|].
  destruct (H tb ic i m) as [? ->], (H tb' ic' i m') as [? ->]. apply IH. simpl in Hl. lia.
Qed.

Lemma match_bracket_consumed p tb ic tb' ic' :
  snd (match_bracket p tb ic) = snd (match_bracket p tb' ic').
Proof.
  unfold match_bracket.
  assert (forall b i, snd (bracket_loop tb ic b i false) = snd (bracket_loop tb' ic' b i false)) as H
    by (intros b i; apply (bracket_loop_stop _ _ _ _ (S (length b))); lia).
  destruct (drop 1 p) as [|c rest]; [|destruct (c =? CARET)];
    match goal with |- context [bracket_loop tb ic ?b ?i false] =>
      specialize (H b i); destruct (bracket_loop tb ic b i false), (bracket_loop tb' ic' b i false) end;
    simpl in H; subst; by destruct (_ <=? _)%nat.
Qed.

Lemma match_bracket_pos c p tb ic : (1 <= snd (match_bracket (c :: p) tb ic))%nat.
Proof.
  unfold match_bracket. destruct (drop 1 (c :: p)) as [|d rest]; [|destruct (d =? CARET)];
    destruct (bracket_loop tb ic _ _ false); destruct (_ <=? _)%nat; simpl; lia.
Qed.

Lemma elem_rest_shorter c p : (length (elem_rest (c :: p)) <= length p)%nat.
Proof.
  cbn [elem_rest]. destruct (c =? LBRACKET).
  - rewrite length_drop. pose proof (match_bracket_pos c p 0 false). simpl. lia.
  - destruct (c =? BACKSLASH); [|done]. destruct p; simpl; lia.
Qed.

(** ** One iteration of the main loop *)

(** What the loop does when the current element rejects the byte. *)
Definition retry (fuel : nat) (ic : bool) (star : option (list Z * list Z)) : option bool :=
  match star with
  | Some (sp, st) => glob_loop fuel ic sp (drop 1 st) (Some (sp, drop 1 st))
  | None => Some false
  end.

Lemma glob_loop_elem fuel ic c p tb t star :
  c <> STAR ->
  glob_loop (S fuel) ic (c :: p) (tb :: t) star =
    if elem_ok ic (c :: p) tb then glob_loop fuel ic (elem_rest (c :: p)) t star
    else retry fuel ic star.
Proof.
  intros Hc. cbn [glob_loop elem_ok elem_rest]. fold (retry fuel ic star).
  destruct (Z.eqb_spec c STAR); [done|].
  destruct (Z.eqb_spec c QUESTION) as [->|]; [done|].
  destruct (Z.eqb_spec c LBRACKET) as [->|].
  - rewrite (match_bracket_consumed (LBRACKET :: p) 0 false tb ic).
    by destruct (match_bracket (LBRACKET :: p) tb ic) as [[] cn].
  - by destruct (Z.eqb_spec c BACKSLASH).
Qed.

Lemma last_star_spec p :
  exists n r, STAR :: p = replicate n STAR ++ STAR :: r /\ last_star (STAR :: p) = STAR :: r /\
    (forall r', r <> STAR :: r').
Proof.
  induction p as [|c p (n & r & E & L & Hr)]; [by exists 0%nat, []|].
  cbn [last_star]. destruct (Z.eqb_spec c STAR) as [->|Hc].
  - exists (S n), r. split; [by rewrite E|]. done.
  - exists 0%nat, (c :: p). split; [done|]. split; [done|]. congruence.
Qed.

(** ** Laws of [matches] *)

Lemma matches_star_iff ic p t : matches ic (STAR :: p) t <-> exists i, matches ic p (drop i t).
Proof.
  split.
  - inversion 1 as [|? t1 t'|]; subst; [|done]. exists (length t'). by rewrite drop_app_length.
  - intros [i H]. rewrite <- (take_drop i t). by apply matches_star.
Qed.

Lemma matches_star_drop ic p j t : matches ic (STAR :: p) (drop j t) -> matches ic (STAR :: p) t.
Proof. rewrite !matches_star_iff. intros [i H]. exists (j + i)%nat. by rewrite <- drop_drop. Qed.

Lemma matches_stars ic n r t : matches ic (replicate n STAR ++ STAR :: r) t <-> matches ic (STAR :: r) t.
Proof.
  induction n as [|n IH]; [done|]. cbn [replicate app]. rewrite matches_star_iff. split.
  - intros [i H]. apply (matches_star_drop _ _ i). revert H. generalize (drop i t). intros u H.
    clear IH. induction n as [|n IH] in u, H |- *; [done|]. cbn [replicate app] in H.
    rewrite matches_star_iff in H. destruct H as [j H]. apply (matches_star_drop _ _ j). by apply IH.
  - intros H. exists 0%nat. by apply IH.
Qed.

Lemma matches_elem_iff ic c p tb t :
  c <> STAR ->
  matches ic (c :: p) (tb :: t) <-> elem_ok ic (c :: p) tb = true /\ matches ic (elem_rest (c :: p)) t.
Proof. intros Hc. split; [by inversion 1|]. intros [? ?]. by apply matches_elem. Qed.

Lemma matches_nil_iff ic p : matches ic p [] <-> skip_stars p = [].
Proof.
  induction p as [|c p IH]; [split; [done|constructor]|]. cbn [skip_stars].
  destruct (Z.eqb_spec c STAR) as [->|Hc]; [|split; [by inversion 1|done]].
  rewrite <- IH, matches_star_iff. split; [intros [i H]; by rewrite drop_nil in H|].
  intros H. by exists 0%nat.
Qed.

(** [q] is [p] behind [k] one-byte elements. *)
Inductive steps : nat -> list Z -> list Z -> Prop :=
| steps_0 p : steps 0 p p
| steps_S k c p q : c <> STAR -> steps k (elem_rest (c :: p)) q -> steps (S k) (c :: p) q.

Lemma steps_snoc k p c q : steps k p (c :: q) -> c <> STAR -> steps (S k) p (elem_rest (c :: q)).
Proof.
  intros H Hc. remember (c :: q) as r eqn:E. induction H; subst.
  - apply steps_S; [done|constructor].
  - apply steps_S; auto.
Qed.

Lemma matches_steps ic k p q t :
  steps k p q -> matches ic p t -> (k <= length t)%nat /\ matches ic q (drop k t).
Proof.
  intros H. revert t. induction H as [|k c p q Hc _ IH]; intros t Hm; [split; [lia|done]|].
  inversion Hm; subst; [done|]. destruct (IH t0) as [? ?]; [done|]. split; [simpl; lia|done].
Qed.

(** ** Correctness of the scan *)

(** The remaining attempts from the last [*]. *)
Definition later (ic : bool) (star : option (list Z * list Z)) : Prop :=
  match star with
  | Some (sp, st) => exists j, (1 <= j <= length st)%nat /\ matches ic sp (drop j st)
  | None => False
  end.

(** The scan has matched one-byte elements since the last [*]. *)
Definition star_ok (star : option (list Z * list Z)) (p t : list Z) : Prop :=
  match star with
  | Some (sp, st) => exists k, steps k sp p /\ t = drop k st /\ (k <= length st)%nat
  | None => True
  end.

(** At a new [*] the attempts from the previous one add nothing. *)
Lemma later_star ic star r t : star_ok star (STAR :: r) t -> later ic star -> matches ic (STAR :: r) t.
Proof.
  destruct star as [[sp st]|]; [|done]. intros (k & Hk & -> & _) (j & _ & Hm).
  destruct (matches_steps _ _ _ _ _ Hk Hm) as [_ H]. rewrite drop_drop in H.
  apply (matches_star_drop _ _ j). by rewrite drop_drop, Nat.add_comm.
Qed.

Lemma later_end ic star p : star_ok star p [] -> ~ later ic star.
Proof.
  destruct star as [[sp st]|]; [|tauto]. intros (k & Hk & E & Hl) (j & Hj & Hm).
  destruct (matches_steps _ _ _ _ _ Hk Hm) as [H _]. rewrite length_drop in H.
  apply (f_equal length) in E. rewrite length_drop in E. simpl in E. lia.
Qed.

Lemma later_cons ic sp c st :
  later ic (Some (sp, c :: st)) <-> matches ic sp st \/ later ic (Some (sp, st)).
Proof.
  simpl. split.
  - intros ([|[|j]] & Hj & H); [lia|by left|right]. exists (S j). split; [lia|done].
  - intros [H|(j & Hj & H)]; [exists 1%nat|exists (S j)]; (split; [lia|done]).
Qed.

Lemma glob_loop_correct ic fuel : forall p t star b,
  star_ok star p t -> glob_loop fuel ic p t star = Some b ->
  b = true <-> matches ic p t \/ later ic star.
Proof.
  induction fuel as [|fuel IH]; intros p t star b Hs Hr; [done|]. destruct t as [|tb t].
  { cbn in Hr. pose proof (later_end ic star p Hs). rewrite matches_nil_iff.
    destruct (skip_stars p); injection Hr as <-; [tauto|]. split; [done|]. intros [?|?]; done. }
  assert (forall b, retry fuel ic star = Some b -> b = true <-> later ic star) as Hretry.
  { intros b' Hb. destruct star as [[sp st]|]; cbn in Hb; [|by injection Hb as <-].
    destruct Hs as (k & _ & Ht & Hk). destruct st as [|s st]; [by rewrite drop_nil in Ht|].
    rewrite later_cons. eapply IH; [|exact Hb]. exists 0%nat. split; [constructor|].
    split; [done|lia]. }
  destruct p as [|c p].
  { apply Hretry in Hr. rewrite Hr. split; [by right|]. intros [H|?]; [inversion H|done]. }
  destruct (Z.eq_dec c STAR) as [->|Hc].
  - assert (matches ic (STAR :: p) (tb :: t) \/ later ic star <-> matches ic (STAR :: p) (tb :: t)) as ->.
    { split; [|by left]. intros [?|?]; [done|]. by eapply later_star. }
    destruct (last_star_spec p) as (n & r & E & L & _). rewrite E, matches_stars. clear E.
    cbn [glob_loop] in Hr. rewrite L in Hr. cbn [Z.eqb STAR Pos.eqb] in Hr.
    destruct r as [|d r].
    + injection Hr as <-. split; [|done]. intros _. apply matches_star_iff. exists (length (tb :: t)).
      rewrite drop_all. constructor.
    + apply IH in Hr; [|exists 0%nat; split; [constructor|split; [done|lia]]]. rewrite Hr.
      rewrite matches_star_iff. split.
      * intros [H|(j & _ & H)]; [by exists 0%nat|by exists j].
      * intros [[|i] H]; [by left|right]. exists (Nat.min (S i) (length (tb :: t))).
        split; [simpl; lia|]. destruct (Nat.min_spec (S i) (length (tb :: t))) as [[_ ->]|[Hle ->]]; [done|].
        rewrite drop_all. by rewrite drop_ge in H by lia.
  - rewrite glob_loop_elem in Hr by done. rewrite matches_elem_iff by done.
    destruct (elem_ok ic (c :: p) tb) eqn:Ee.
    + apply IH in Hr; [rewrite Hr; tauto|]. destruct star as [[sp st]|]; [|done].
      destruct Hs as (k & Hk & Ht & Hl). exists (S k). split; [by apply steps_snoc|].
      destruct (drop k st) as [|x u] eqn:Ed; [done|]. injection Ht as <- <-.
      apply (f_equal (drop 1)) in Ed as Ed'. rewrite drop_drop, Nat.add_1_r in Ed'.
      split; [by rewrite Ed'|]. apply (f_equal length) in Ed. rewrite length_drop in Ed. simpl in Ed. lia.
    + rewrite (Hretry b Hr). split; [by right|]. by intros [[? _]|?].
Qed.

(** ** Termination *)

(** Iterations: each return to the last [*] moves it right by one byte, and
    between two returns every iteration shortens the pattern. *)
Definition glob_fuel (pattern target : list Z) : nat :=
  (length target + 2) * (length pattern + 1).

Definition rank (P T : nat) (p : list Z) (star : option (list Z * list Z)) : nat :=
  match star with Some (_, st) => length st | None => S T end * (P + 1) + length p.

Definition bounded (P T : nat) (p t : list Z) (star : option (list Z * list Z)) : Prop :=
  (length p <= P)%nat /\
  match star with
  | Some (sp, st) => (length sp <= P)%nat /\ (length t <= length st)%nat
  | None => (length t <= T)%nat
  end.

Lemma last_star_shorter p c r : last_star p = c :: r -> (length (c :: r) <= length p)%nat.
Proof.
  induction p as [|a [|b p] IH]; intros E.
  - done.
  - cbn in E. injection E as <- <-. done.
  - change (last_star (a :: b :: p)) with (if b =? STAR then last_star (b :: p) else a :: b :: p) in E.
    destruct (b =? STAR); [apply IH in E; simpl in *; lia|]. by rewrite E.
Qed.

Lemma glob_loop_total ic P T fuel : forall p t star,
  bounded P T p t star -> (rank P T p star < fuel)%nat -> is_Some (glob_loop fuel ic p t star).
Proof.
  induction fuel as [|fuel IH]; intros p t star [Hp Hs] Hr; [lia|].
  destruct t as [|tb t]; [by eexists|].
  assert (is_Some (retry fuel ic star)) as Hretry.
  { destruct star as [[sp st]|]; [|by eexists]. destruct Hs as [Hsp Hst].
    destruct st as [|s st]; [simpl in Hst; lia|]. apply IH; [split; [done|]; split; [done|done]|].
    change (drop 1 (s :: st)) with st. unfold rank in *. cbn [length] in *. nia. }
  destruct p as [|c p]; [done|]. destruct (Z.eq_dec c STAR) as [->|Hc].
  - cbn [glob_loop]. cbn [Z.eqb STAR Pos.eqb].
    destruct (last_star (STAR :: p)) as [|a [|d r]] eqn:El; [by eexists..|].
    apply last_star_shorter in El. simpl in El, Hp. apply IH.
    + split; [simpl; lia|]. split; [simpl; lia|done].
    + unfold rank in *. destruct star as [[sp st]|]; cbn [length] in *; nia.
  - rewrite glob_loop_elem by done. destruct (elem_ok ic (c :: p) tb); [|done].
    pose proof (elem_rest_shorter c p). simpl in Hp. apply IH.
    + split; [lia|]. destruct star as [[sp st]|]; cbn [length] in *; [split; [apply Hs|lia]|lia].
    + unfold rank in *. cbn [length] in Hr. lia.
Qed.

Lemma glob_decides ic pattern target : target <> [] ->
  exists b, glob_match_opt (glob_fuel pattern target) pattern target ic = Some b /\
    (b = true <-> matches ic pattern target).
Proof.
  destruct target as [|tb t]; [done|]. intros _. unfold glob_match_opt.
  destruct (glob_loop_total ic (length pattern) (length (tb :: t)) (glob_fuel pattern (tb :: t))
    pattern (tb :: t) None) as [b Hb].
  { by split. } { unfold rank, glob_fuel. lia. }
  exists b. split; [done|]. rewrite (glob_loop_correct ic _ _ _ None b I Hb). simpl. tauto.
Qed.

(** C40: the single-pass matcher always answers within [glob_fuel] iterations,
    with or without case folding, and its answer is the meaning of the pattern:
    remembering only the last [*] loses no match.  The one exception is the
    empty target, which only the empty pattern matches. *)
Theorem glob_match_correct ic pattern target :
  exists b, glob_match_opt (glob_fuel pattern target) pattern target ic = Some b /\
    (b = true <-> if decide (target = []) then pattern = [] else matches ic pattern target).
Proof.
  destruct target as [|tb t].
  - eexists. split; [done|]. rewrite decide_True by done. by destruct pattern.
  - rewrite decide_False by done. by apply glob_decides.
Qed.

(** The scan is not linear: on [*a..ab] against [a..a] every return to the [*]
    rescans the literal, so four times the total length is not enough. *)
Definition slow_pattern : list Z := STAR :: replicate 20 97 ++ [98].
Definition slow_target : list Z := replicate 60 97.

Lemma glob_not_linear :
  glob_match_opt (4 * (length slow_pattern + length slow_target)) slow_pattern slow_target false = None.
Proof. lazy. reflexivity. Qed.

End Glob.
