(* ===== verification/Num.v ===== *)
(** * Strict integer parsing ([wedb/wbase/src/num.rs])

    The grammar of integers in commands: an optional sign and decimal digits
    without a leading zero, inside the range of the target type. *)

From stdpp Require Import base list numbers option tactics.
From Stdlib Require Import ZArith Lia Bool.
From S2P Require Import Prelude Bytes Glob.

Module Num.

Definition PLUS : Z := 43.
Definition MINUS : Z := 45.
Definition ZERO : Z := 48.

Definition is_ascii_digit (d : Z) : bool := (48 <=? d) && (d <=? 57).

(** The loop over the digits. *)
Fixpoint scan_loop (digits : list Z) (number : Z) : option Z :=
  match digits with
  | [] => Some number
  | d :: rest =>
      if negb (is_ascii_digit d) then None
      else match checked_mul number 10 with
           | None => None
           | Some n =>
               match checked_add n (d - ZERO) with
               | None => None
               | Some n => scan_loop rest n
               end
           end
  end.

Definition scan_digits (raw : list Z) : option (Z * bool) :=
  let '(digits, negative) :=
    match raw with
    | c :: rest => if c =? PLUS then (rest, false) else if c =? MINUS then (rest, true) else (raw, false)
    | [] => (raw, false)
    end in
  match digits with
  | [] => None
  | d :: rest =>
      if (1 <? zlen digits) && (d =? ZERO) then None
      else match scan_loop digits 0 with
           | None => None
           | Some number => Some (number, negative)
           end
  end.

Definition i64_try_from (number : Z) : option Z := if number <=? i64_max then Some number else None.

Definition strict_i64 (raw : list Z) : option Z :=
  match scan_digits raw with
  | None => None
  | Some (number, negative) =>
      if negative then
        if number =? 2 ^ 63 then Some i64_min
        else match i64_try_from number with
             | None => None
             | Some positive => Some (- positive)
             end
      else i64_try_from number
  end.

Definition i32_max : Z := 2 ^ 31 - 1.
Definition i32_min : Z := - 2 ^ 31.

Definition strict_i32 (raw : list Z) : option Z :=
  match strict_i64 raw with
  | None => None
  | Some v => if (i32_min <=? v) && (v <=? i32_max) then Some v else None
  end.

Definition strict_u64 (raw : list Z) : option Z :=
  match scan_digits raw with
  | None => None
  | Some (number, negative) => if negb negative || (number =? 0) then Some number else None
  end.

Inductive DbIndexError : Type := NotInteger | OutOfRange.

Definition parse_db_index (raw : list Z) : Z + DbIndexError :=
  match strict_i32 raw with
  | Some v => if 0 <=? v then inl v else inr OutOfRange
  | None => inr NotInteger
  end.

Fixpoint eq_ignore_ascii_case (a b : list Z) : bool :=
  match a, b with
  | [], [] => true
  | x :: a', y :: b' => Glob.byte_eq x y true && eq_ignore_ascii_case a' b'
  | _, _ => false
  end.

Definition infinity_sign (raw : list Z) : option bool :=
  let '(positive, body) :=
    match raw with
    | c :: rest => if (c =? PLUS) || (c =? MINUS) then (c =? PLUS, rest) else (true, raw)
    | [] => (true, raw)
    end in
  if eq_ignore_ascii_case body [105; 110; 102] then Some positive else None.

(** ** The grammar *)

Definition value (ds : list Z) : Z := foldl (fun n d => n * 10 + (d - ZERO)) 0 ds.

Definition numeral (ds : list Z) : Prop :=
  ds <> [] /\ Forall (fun d => 48 <= d <= 57) ds /\ (1 < zlen ds -> head ds <> Some ZERO).

Inductive spelled : list Z -> bool -> list Z -> Prop :=
| spelled_plain ds : numeral ds -> spelled ds false ds
| spelled_plus ds : numeral ds -> spelled (PLUS :: ds) false ds
| spelled_minus ds : numeral ds -> spelled (MINUS :: ds) true ds.

Definition acc_value (n : Z) (ds : list Z) : Z := foldl (fun n d => n * 10 + (d - ZERO)) n ds.

Lemma acc_value_ge n ds : 0 <= n -> Forall (fun d => 48 <= d <= 57) ds -> n <= acc_value n ds.
Proof.
  intros Hn Hd. revert n Hn. induction Hd as [|d ds Hd _ IH]; intros n Hn; [done|].
  cbn [acc_value foldl]. unfold ZERO. specialize (IH (n * 10 + (d - 48))). unfold acc_value, ZERO in IH.
  etrans; [|apply IH]; lia.
Qed.

Lemma scan_loop_spec ds n r :
  0 <= n -> scan_loop ds n = Some r <->
    Forall (fun d => 48 <= d <= 57) ds /\ r = acc_value n ds /\ (ds <> [] -> r <= u64_max).
Proof.
  revert n. induction ds as [|d ds IH]; intros n Hn; cbn [scan_loop].
  { split; [intros [= <-]; split_and!; [constructor|done|done]|]. by intros (_ & -> & _). }
  unfold is_ascii_digit. destruct (Z.leb_spec 48 d), (Z.leb_spec d 57); cbn [andb negb];
    try (split; [done|]; intros (Hfc & _); apply Forall_cons_1 in Hfc as [? _]; lia).
  assert (48 <= d <= 57) as Hd by lia. unfold checked_mul, checked_add, ZERO.
  assert (Forall (fun d => 48 <= d <= 57) ds -> n * 10 + (d - 48) <= acc_value n (d :: ds)) as Hge.
  { intros Hf. apply (acc_value_ge (n * 10 + (d - 48))); [lia|done]. }
  destruct (Z.leb_spec (n * 10) u64_max);
    [destruct (Z.leb_spec (n * 10 + (d - 48)) u64_max) as [Hle|]|];
    [|split; [done|]; intros (Hfc & -> & Hm); apply Forall_cons_1 in Hfc as [_ Hf]; specialize (Hm ltac:(done));
      specialize (Hge Hf); lia..].
  rewrite IH by lia. split.
  - intros (Hf & -> & Hm). split; [by apply Forall_cons_2|]. split; [done|]. intros _. destruct ds; [exact Hle|by apply Hm].
  - intros ([_ Hf]%Forall_cons_1 & -> & Hm). split; [done|]. split; [done|]. intros _. by apply Hm.
Qed.

Lemma scan_digits_spec raw n neg :
  scan_digits raw = Some (n, neg) <-> exists ds, spelled raw neg ds /\ n = value ds /\ n <= u64_max.
Proof.
  assert (forall ds neg',
    match ds with
    | [] => None
    | d :: rest => if (1 <? zlen ds) && (d =? ZERO) then None
                   else match scan_loop ds 0 with None => None | Some x => Some (x, neg') end
    end = Some (n, neg) <-> neg = neg' /\ numeral ds /\ n = value ds /\ n <= u64_max) as Hbody.
  { intros ds neg'. destruct ds as [|d ds]; [split; [done|]; by intros (_ & [? _] & _)|].
    destruct ((1 <? zlen (d :: ds)) && (d =? ZERO)) eqn:Ez.
    - apply andb_true_iff in Ez as [?%Z.ltb_lt ->%Z.eqb_eq]. split; [done|].
      intros (_ & (_ & _ & Hz) & _). by destruct Hz.
    - assert (1 < zlen (d :: ds) -> head (d :: ds) <> Some ZERO) as Hz.
      { intros Hl [= ->]. rewrite Z.eqb_refl, andb_true_r in Ez. apply Z.ltb_ge in Ez. lia. }
      pose proof (fun r => scan_loop_spec (d :: ds) 0 r ltac:(lia)) as Hs.
      destruct (scan_loop (d :: ds) 0) as [x|].
      + destruct (Hs x) as [H1 _]. destruct H1 as (Hf & Hv & Hm); [done|]. specialize (Hm ltac:(done)).
        split; [intros [= <- <-]; done|]. intros (-> & _ & -> & _). by rewrite Hv.
      + split; [done|]. intros (_ & (_ & Hf & _) & -> & Hm). destruct (Hs (value (d :: ds))) as [_ H2].
        by discriminate H2. }
  unfold scan_digits. destruct raw as [|c rest].
  - split; [done|]. intros (ds & Hs & _). by inversion Hs as [? [? _]| |].
  - destruct (Z.eqb_spec c PLUS) as [->|Hp]; [|destruct (Z.eqb_spec c MINUS) as [->|Hm]].
    + etransitivity; [exact (Hbody rest false)|]. split; [intros (-> & ? & ?); exists rest; split; [by constructor|done]|].
      intros (ds & Hs & ?). inversion Hs as [? Hnum| |]; subst; [|done].
      destruct Hnum as (_ & Hfc & _). apply Forall_cons_1 in Hfc as [? _].
      unfold PLUS in *. lia.
    + etransitivity; [exact (Hbody rest true)|]. split; [intros (-> & ? & ?); exists rest; split; [by constructor|done]|].
      intros (ds & Hs & ?). inversion Hs as [? Hnum| |]; subst; [|done].
      destruct Hnum as (_ & Hfc & _). apply Forall_cons_1 in Hfc as [? _].
      unfold MINUS in *. lia.
    + etransitivity; [exact (Hbody (c :: rest) false)|]. split; [intros (-> & ? & ?); eexists; split; [by constructor|done]|].
      intros (ds & Hs & ?). by inversion Hs; subst.
Qed.

Lemma value_nonneg raw neg ds : spelled raw neg ds -> 0 <= value ds.
Proof.
  intros Hs. assert (numeral ds) as (_ & Hf & _) by by destruct Hs. by apply (acc_value_ge 0).
Qed.

(** The strict parser accepts exactly the spellings of the integers of
    [i64]: an optional sign, then decimal digits with no superfluous leading
    zero, whose signed value lies between [i64::MIN] and [i64::MAX]; and it
    returns that value. *)
Theorem strict_i64_correct raw v :
  strict_i64 raw = Some v <->
    exists neg ds, spelled raw neg ds /\ v = (if neg then - value ds else value ds) /\
                   i64_min <= v <= i64_max.
Proof.
  unfold strict_i64, i64_try_from, i64_min, i64_max. split.
  - destruct (scan_digits raw) as [[n neg]|] eqn:E; [|done].
    apply scan_digits_spec in E as (ds & Hs & -> & _). pose proof (value_nonneg _ _ _ Hs).
    intros Hv. exists neg, ds. split; [done|]. destruct neg.
    + destruct (Z.eqb_spec (value ds) (2 ^ 63)); [simplify_eq; lia|].
      destruct (Z.leb_spec (value ds) (2 ^ 63 - 1)); simplify_eq; lia.
    + destruct (Z.leb_spec (value ds) (2 ^ 63 - 1)); simplify_eq; lia.
  - intros (neg & ds & Hs & -> & Hr). pose proof (value_nonneg _ _ _ Hs).
    assert (scan_digits raw = Some (value ds, neg)) as ->.
    { apply scan_digits_spec. exists ds. split_and!; [done|done|]. unfold u64_max. destruct neg; lia. }
    destruct neg.
    + destruct (Z.eqb_spec (value ds) (2 ^ 63)) as [->|]; [done|].
      destruct (Z.leb_spec (value ds) (2 ^ 63 - 1)); [done|lia].
    + destruct (Z.leb_spec (value ds) (2 ^ 63 - 1)); [done|lia].
Qed.

End Num.
