(* ===== verification/Codec.v ===== *)
(** * Checksums, slots and text encodings ([wedb/wbase/src])

    [Crc64] is [crc64.rs]: the table-driven checksum against the bit-by-bit
    definition it replaces.  [HashSlot] is [hash_slot.rs].  [Hex] ([hex.rs]) and
    [Base32] ([base32.rs]) encode numbers and bytes as text; [NsPrefix]
    ([ns_prefix.rs]) folds a domain into a key. *)

From stdpp Require Import base list numbers option tactics.
From Stdlib Require Import ZArith Lia Bool.
From S2P Require Import Prelude Bytes Hasher Glob Num.

(** ** CRC-64 *)
Module Crc64.

Definition POLY : Z := 0xad93d23594c935a9.

(** One round: the register moves up by one bit. *)
Definition round (crc : Z) : Z :=
  let bit_set := negb (Z.land crc 0x8000000000000000 =? 0) in
  let crc := wrap 64 (Z.shiftl crc 1) in
  if bit_set then Z.lxor crc POLY else crc.

Definition CRC64_TABLE : list Z :=
  map (fun i => Nat.iter 8 round (Z.shiftl i 56)) (seqZ 0 256).

(** [reverse_bits] of a [w]-bit word. *)
Fixpoint reverse_bits (w : nat) (x : Z) : Z :=
  match w with
  | O => 0
  | S w' => Z.lor (Z.shiftl (Z.b2z (Z.testbit x 0)) (Z.of_nat w')) (reverse_bits w' (Z.shiftr x 1))
  end.

Definition crc64_byte (crc c : Z) : Z :=
  Z.lxor (wrap 64 (Z.shiftl crc 8))
    (nth (Z.to_nat (Z.lxor (Z.shiftr crc 56) (reverse_bits 8 c))) CRC64_TABLE 0).

Definition crc64_table (data : list Z) : Z := reverse_bits 64 (fold_left crc64_byte data 0).

Definition hash (data : list Z) : list Z := le_bytes 8 (crc64_table data).

(** *** The reference ([tests/suite/crc64.rs]) *)

Definition bitwise_round (c : Z) (crc i : Z) : Z :=
  let bit_set := negb (Z.land crc 0x8000000000000000 =? 0) in
  let bit_set := if negb (Z.land c i =? 0) then negb bit_set else bit_set in
  let crc := wrap 64 (Z.shiftl crc 1) in
  if bit_set then Z.lxor crc POLY else crc.

Definition bitwise_byte (crc c : Z) : Z :=
  fold_left (bitwise_round c) [1; 2; 4; 8; 16; 32; 64; 128] crc.

Definition crc64_bitwise (data : list Z) : Z := reverse_bits 64 (fold_left bitwise_byte data 0).

(** *** Equivalence *)

Lemma top_bit x : negb (Z.land x 0x8000000000000000 =? 0) = Z.testbit x 63.
Proof. change 0x8000000000000000 with (2 ^ 63). apply land_pow2_nonzero. lia. Qed.

Lemma poly_fits : fits 64 POLY.
Proof. unfold fits, POLY. lia. Qed.

Lemma round_fits x : fits 64 (round x).
Proof.
  unfold round. rewrite top_bit. destruct (Z.testbit x 63); [|by apply wrap_fits].
  apply fits_of_bits; [lia|apply Z.lxor_nonneg; pose proof (wrap_fits 64 (Z.shiftl x 1)); pose proof poly_fits; unfold fits in *; lia|].
  intros i Hi. rewrite Z.lxor_spec, (fits_high 64 POLY), (fits_high 64 (wrap _ _)) by
    (try apply poly_fits; try apply wrap_fits; lia). done.
Qed.

(** The rounds are linear over exclusive or. *)
Lemma round_bit x i :
  0 <= i -> Z.testbit (round x) i =
    xorb ((0 <? i) && (i <? 64) && Z.testbit x (i - 1)) (Z.testbit x 63 && Z.testbit POLY i).
Proof.
  intros Hi. unfold round. rewrite top_bit.
  assert (E : Z.testbit (wrap 64 (Z.shiftl x 1)) i = (0 <? i) && (i <? 64) && Z.testbit x (i - 1)).
  { rewrite wrap_testbit, Z.shiftl_spec by lia.
    destruct (Z.ltb_spec 0 i), (Z.ltb_spec i 64); cbn; try done; try lia.
    apply Z.testbit_neg_r. lia. }
  destruct (Z.testbit x 63); rewrite ?Z.lxor_spec, E; cbn; by rewrite ?xorb_false_r.
Qed.

Lemma round_lxor x y : round (Z.lxor x y) = Z.lxor (round x) (round y).
Proof.
  apply Z.bits_inj'. intros i Hi. rewrite Z.lxor_spec, !round_bit, !Z.lxor_spec by lia.
  destruct (0 <? i), (i <? 64), (Z.testbit x 63), (Z.testbit y 63), (Z.testbit x (i - 1)), (Z.testbit y (i - 1)),
    (Z.testbit POLY i); done.
Qed.

Lemma iter_round_lxor n x y :
  Nat.iter n round (Z.lxor x y) = Z.lxor (Nat.iter n round x) (Nat.iter n round y).
Proof. induction n as [|n IH]; [done|]. cbn [Nat.iter nat_rect]. rewrite <- round_lxor. by f_equal. Qed.

(** Below the top bits a round is a shift. *)
Lemma iter_round_small n x :
  0 <= x < 2 ^ (64 - Z.of_nat n) -> (n <= 64)%nat -> Nat.iter n round x = Z.shiftl x (Z.of_nat n).
Proof.
  induction n as [|n IH]; intros Hx Hn; [cbn; by rewrite Z.shiftl_0_r|].
  assert (Hx' : 0 <= x < 2 ^ (64 - Z.of_nat n)).
  { split; [lia|]. eapply Z.lt_le_trans; [apply Hx|]. apply Z.pow_le_mono_r; lia. }
  cbn [Nat.iter nat_rect]. change (nat_rect _ x (fun _ => round) n) with (Nat.iter n round x).
  rewrite IH by (done || lia).
  assert (Hf : fits (64 - Z.of_nat (S n)) x) by (unfold fits; lia).
  unfold round. rewrite top_bit, Z.shiftl_spec, (fits_high _ x _ Hf) by lia.
  rewrite Z.shiftl_shiftl by lia. replace (Z.of_nat n + 1) with (Z.of_nat (S n)) by lia.
  apply wrap_id. unfold fits. rewrite Z.shiftl_mul_pow2 by lia. split; [lia|].
  replace (2 ^ 64) with (2 ^ (64 - Z.of_nat (S n)) * 2 ^ Z.of_nat (S n)) by (rewrite <- Z.pow_add_r by lia; f_equal; lia).
  apply Z.mul_lt_mono_pos_r; [|lia]. pose proof (Z.pow_pos_nonneg 2 (Z.of_nat (S n))). lia.
Qed.

(** A bit of the input enters at the top. *)
Lemma bitwise_round_eq c crc i :
  0 <= i -> bitwise_round c crc (2 ^ i) = round (Z.lxor crc (Z.shiftl (Z.b2z (Z.testbit c i)) 63)).
Proof.
  intros Hi. rewrite round_lxor. unfold bitwise_round. rewrite top_bit, land_pow2_nonzero by done.
  destruct (Z.testbit c i) eqn:Ec; cbn [Z.b2z negb].
  - replace (round (Z.shiftl 1 63)) with POLY by reflexivity. unfold round. rewrite top_bit.
    destruct (Z.testbit crc 63); cbn [negb]; [|done]. by rewrite Z.lxor_assoc, Z.lxor_nilpotent, Z.lxor_0_r.
  - replace (round (Z.shiftl 0 63)) with 0 by reflexivity. rewrite Z.lxor_0_r. unfold round. by rewrite top_bit.
Qed.

(** The input bits from bit [j] on, the first at the top. *)
Fixpoint entering (n : nat) (c j : Z) : Z :=
  match n with
  | O => 0
  | S n' => Z.lxor (Z.shiftl (Z.b2z (Z.testbit c j)) 63) (Z.shiftr (entering n' c (j + 1)) 1)
  end.

Lemma entering_bound n c j : (n <= 8)%nat -> exists y, entering n c j = Z.shiftl y (64 - Z.of_nat n) /\ 0 <= y < 2 ^ Z.of_nat n.
Proof.
  revert j. induction n as [|n IH]; intros j Hn; [by exists 0|].
  destruct (IH (j + 1) ltac:(lia)) as (y & Ey & Hy). cbn [entering]. rewrite Ey.
  exists (Z.b2z (Z.testbit c j) * 2 ^ Z.of_nat n + y).
  assert (Hb : 0 <= Z.b2z (Z.testbit c j) <= 1) by (by destruct (Z.testbit c j)).
  assert (Hp : 0 < 2 ^ Z.of_nat n) by (apply Z.pow_pos_nonneg; lia).
  assert (E2 : 2 ^ Z.of_nat (S n) = 2 * 2 ^ Z.of_nat n) by (rewrite <- Z.pow_succ_r by lia; f_equal; lia).
  split; [|rewrite E2; nia].
  rewrite Z.shiftr_shiftl_l by lia. rewrite <- Z.add_nocarry_lxor.
  - rewrite !Z.shiftl_mul_pow2 by lia. rewrite Z.mul_add_distr_r, <- Z.mul_assoc, <- Z.pow_add_r by lia.
    f_equal; f_equal; f_equal; lia.
  - apply Z.bits_inj'. intros i Hi. rewrite Z.land_spec, Z.testbit_0_l, !Z.shiftl_spec by lia.
    destruct (Z.eq_dec i 63) as [->|Hne].
    + rewrite (fits_high (Z.of_nat n) y); [apply andb_false_r|unfold fits; lia|lia].
    + destruct (Z.lt_ge_cases i 63).
      * rewrite (Z.testbit_neg_r _ (i - 63)) by lia. done.
      * destruct (Z.testbit c j); cbn [Z.b2z]; [|by rewrite Z.testbit_0_l].
        change 1 with (2 ^ 0). rewrite pow2_testbit by lia. destruct (Z.eqb_spec (i - 63) 0); [lia|done].
Qed.

Lemma entering_rounds n c j crc :
  (n <= 8)%nat -> 0 <= j ->
  fold_left (bitwise_round c) (map (fun k => 2 ^ (j + k)) (seqZ 0 (Z.of_nat n))) crc
  = Nat.iter n round (Z.lxor crc (entering n c j)).
Proof.
  revert j crc. induction n as [|n IH]; intros j crc Hn Hj; [cbn; by rewrite Z.lxor_0_r|].
  rewrite (seqZ_cons 0) by lia. cbn [map fold_left]. rewrite Z.add_0_r, bitwise_round_eq by lia.
  replace (map (fun k => 2 ^ (j + k)) (seqZ (Z.succ 0) (Z.pred (Z.of_nat (S n)))))
    with (map (fun k => 2 ^ (j + 1 + k)) (seqZ 0 (Z.of_nat n))).
  2: { replace (Z.pred (Z.of_nat (S n))) with (Z.of_nat n) by lia.
       change (Z.succ 0) with 1. rewrite <- (fmap_add_seqZ 1 0). rewrite map_map. apply map_ext. intros k. f_equal. lia. }
  rewrite IH by lia. rewrite Nat.iter_succ_r. f_equal. cbn [entering].
  rewrite !round_lxor, Z.lxor_assoc. f_equal. f_equal.
  destruct (entering_bound n c (j + 1) ltac:(lia)) as (y & Ey & Hy). rewrite Ey, Z.shiftr_shiftl_l by lia.
  pose proof (iter_round_small 1 (Z.shiftl y (64 - Z.of_nat n - 1))) as Hr. cbn [Nat.iter nat_rect] in Hr.
  rewrite Hr; [|split|lia].
  - rewrite Z.shiftl_shiftl by lia. f_equal. lia.
  - apply Z.shiftl_nonneg. lia.
  - rewrite Z.shiftl_mul_pow2 by lia. change (2 ^ (64 - Z.of_nat 1)) with (2 ^ 63).
    replace (2 ^ 63) with (2 ^ Z.of_nat n * 2 ^ (64 - Z.of_nat n - 1)) by (rewrite <- Z.pow_add_r by lia; f_equal; lia).
    apply Z.mul_lt_mono_pos_r; [apply Z.pow_pos_nonneg; lia|lia].
Qed.

Lemma entering_reverse c : entering 8 c 0 = Z.shiftl (reverse_bits 8 c) 56.
Proof.
  cbn [entering reverse_bits]. rewrite !Z.shiftr_spec, !Z.add_0_l by lia. cbn [Z.add Pos.add Pos.succ].
  repeat (match goal with |- context [Z.testbit c ?i] => destruct (Z.testbit c i) end); reflexivity.
Qed.

Lemma reverse_bits_fits w x : fits (Z.of_nat w) (reverse_bits w x).
Proof.
  revert x. induction w as [|w IH]; intros x; [unfold fits; cbn; lia|].
  cbn [reverse_bits]. apply fits_lor; [lia| |eapply fits_mono; [apply IH|lia]].
  unfold fits. destruct (Z.testbit x 0); cbn [Z.b2z].
  - rewrite Z.shiftl_1_l. split; [apply Z.pow_nonneg; lia|apply Z.pow_lt_mono_r; lia].
  - rewrite Z.shiftl_0_l. split; [lia|apply Z.pow_pos_nonneg; lia].
Qed.

Lemma table_lookup i : 0 <= i < 256 -> nth (Z.to_nat i) CRC64_TABLE 0 = Nat.iter 8 round (Z.shiftl i 56).
Proof.
  intros Hi. unfold CRC64_TABLE. rewrite nth_lookup, list_lookup_fmap, lookup_seqZ_lt by lia. cbn.
  by rewrite Z2Nat.id by lia.
Qed.

(** A register is its top byte and the fifty-six bits below it. *)
Lemma register_split crc : fits 64 crc -> crc = Z.lxor (Z.shiftl (Z.shiftr crc 56) 56) (wrap 56 crc).
Proof.
  intros Hc. apply Z.bits_inj'. intros i Hi. rewrite Z.lxor_spec, Z.shiftl_spec, wrap_testbit by lia.
  destruct (Z.ltb_spec i 56).
  - rewrite (Z.testbit_neg_r _ (i - 56)) by lia. by destruct (Z.testbit crc i).
  - rewrite Z.shiftr_spec, andb_false_l, xorb_false_r by lia. f_equal. lia.
Qed.

Lemma low_shift crc : Z.shiftl (wrap 56 crc) 8 = wrap 64 (Z.shiftl crc 8).
Proof.
  apply Z.bits_inj'. intros i Hi. rewrite (wrap_testbit 64), !Z.shiftl_spec by lia.
  destruct (Z.lt_ge_cases i 8).
  - rewrite !Z.testbit_neg_r by lia. by rewrite andb_false_r.
  - rewrite wrap_testbit by lia.
    destruct (Z.ltb_spec (i - 8) 56), (Z.ltb_spec i 64); done || lia.
Qed.

Lemma byte_equiv crc c : fits 64 crc -> crc64_byte crc c = bitwise_byte crc c.
Proof.
  intros Hc. pose proof (entering_rounds 8 c 0 crc ltac:(lia) ltac:(lia)) as E.
  change (map _ _) with [1; 2; 4; 8; 16; 32; 64; 128] in E. unfold bitwise_byte. rewrite E, entering_reverse.
  assert (Hhi : fits 8 (Z.shiftr crc 56)) by (apply (fits_shiftr 64 56); [lia|done]).
  pose proof (reverse_bits_fits 8 c) as Hr. change (Z.of_nat 8) with 8 in Hr.
  unfold crc64_byte. rewrite table_lookup.
  - rewrite (register_split crc) at 3 by done.
    rewrite Z.lxor_comm, (Z.lxor_comm (Z.shiftl _ 56)), Z.lxor_assoc, <- Z.shiftl_lxor.
    rewrite (iter_round_lxor 8 (wrap 56 crc)), (iter_round_small 8 (wrap 56 crc)), <- low_shift by
      (try lia; apply (wrap_fits 56 crc); lia).
    by rewrite Z.lxor_comm.
  - apply (fits_of_bits 8); [lia|apply Z.lxor_nonneg; unfold fits in *; lia|].
    intros i Hi. by rewrite Z.lxor_spec, (fits_high 8 _ _ Hhi), (fits_high 8 _ _ Hr) by lia.
Qed.

Lemma bitwise_byte_fits crc c : fits 64 (bitwise_byte crc c).
Proof.
  pose proof (entering_rounds 8 c 0 crc ltac:(lia) ltac:(lia)) as E.
  change (map _ _) with [1; 2; 4; 8; 16; 32; 64; 128] in E. unfold bitwise_byte. rewrite E. apply round_fits.
Qed.

Lemma fold_equiv data crc : fits 64 crc -> fold_left crc64_byte data crc = fold_left bitwise_byte data crc.
Proof.
  revert crc. induction data as [|c data IH]; intros crc Hc; [done|]. cbn [fold_left].
  rewrite byte_equiv by done. apply IH, bitwise_byte_fits.
Qed.

(** C39: the table-driven CRC-64 of any byte string is the one of the
    bit-by-bit definition it replaces, and [hash] is its little-endian image. *)
Theorem crc64_correct data :
  crc64_table data = crc64_bitwise data /\ le_num (hash data) = crc64_bitwise data.
Proof.
  assert (E : crc64_table data = crc64_bitwise data).
  { unfold crc64_table, crc64_bitwise. rewrite fold_equiv by (unfold fits; lia). done. }
  split; [done|]. unfold hash. rewrite le_num_le_bytes, E. apply Z.mod_small, reverse_bits_fits.
Qed.

End Crc64.

(** ** Slots of databases *)
Module HashSlot.
Import Hasher.

Definition CLUSTER_SLOT_COUNT : Z := 16384.
Definition SLOT_MASK : Z := CLUSTER_SLOT_COUNT - 1.
Definition MURMUR_PRIME_1 : Z := 0x85EBCA6B.
Definition MURMUR_PRIME_2 : Z := 0xC2B2AE35.

Definition mix64 (namespace db : Z) : Z :=
  let a := wmul 64 namespace GOLDEN_RATIO_64 in
  let b := wmul 64 db MURMUR_PRIME_1 in
  let c := wmul 64 (wadd 64 namespace db) MURMUR_PRIME_2 in
  mix13 (Z.lxor (Z.lxor a b) c).

Definition slot_of (namespace db : Z) : Z := wrap 16 (Z.land (mix64 namespace db) SLOT_MASK).

(** The narrowing to [u16] drops nothing: a slot is an index of the table. *)
Theorem slot_of_bound namespace db :
  0 <= slot_of namespace db < CLUSTER_SLOT_COUNT /\
  slot_of namespace db = mix64 namespace db mod CLUSTER_SLOT_COUNT.
Proof.
  unfold slot_of. change SLOT_MASK with (Z.ones 14). rewrite Z.land_ones by lia.
  change (2 ^ 14) with CLUSTER_SLOT_COUNT.
  pose proof (Z.mod_pos_bound (mix64 namespace db) CLUSTER_SLOT_COUNT eq_refl) as Hb.
  rewrite wrap_id; [done|]. unfold fits, CLUSTER_SLOT_COUNT in *. lia.
Qed.

End HashSlot.

(** ** Hexadecimal text *)
Module Hex.

(** ["0123456789abcdef"]. *)
Definition HEX_CHARS_LOWER : list Z :=
  [48; 49; 50; 51; 52; 53; 54; 55; 56; 57; 97; 98; 99; 100; 101; 102].

Definition hex_val (c : Z) : option Z :=
  if (48 <=? c) && (c <=? 57) then Some (c - 48)
  else if (97 <=? c) && (c <=? 102) then Some (c - 97 + 10)
  else if (65 <=? c) && (c <=? 70) then Some (c - 65 + 10)
  else None.

(** The loop of [hex_encode_fixed]; [None] is an index out of the table. *)
Fixpoint encode_pairs (src : list Z) : option (list Z) :=
  match src with
  | [] => Some []
  | b :: src' =>
      hi ← HEX_CHARS_LOWER !! Z.to_nat (Z.shiftr b 4);
      lo ← HEX_CHARS_LOWER !! Z.to_nat (Z.land b 0x0f);
      out ← encode_pairs src';
      Some (hi :: lo :: out)
  end.

(** [None] also stands for the failed assertion on the lengths. *)
Definition hex_encode_fixed (OUT : nat) (src : list Z) : option (list Z) :=
  if (length src * 2 =? OUT)%nat then encode_pairs src else None.

Definition hex_encode_20 (src : list Z) : option (list Z) := hex_encode_fixed 40 src.
Definition hex_encode_32 (src : list Z) : option (list Z) := hex_encode_fixed 64 src.
Definition hex_encode_u128 (src : Z) : option (list Z) := hex_encode_fixed 32 (be_bytes 16 src).
Definition hex_str_u128 (src : Z) : option (list Z) := hex_encode_u128 src.

(** The loop of [hex_u128] at index [i]. *)
Fixpoint u128_loop (src : list Z) (i : nat) (bytes : list Z) : option (list Z) :=
  match src with
  | [] => Some bytes
  | c :: src' =>
      v ← hex_val c;
      old ← bytes !! (i / 2)%nat;
      u128_loop src' (S i)
        (<[(i / 2)%nat := if (Nat.land i 1 =? 0)%nat then wrap 8 (Z.shiftl v 4) else Z.lor old v]> bytes)
  end.

Definition hex_u128 (src : list Z) : option Z :=
  if negb (zlen src =? 32) then None
  else bytes ← u128_loop src 0 (replicate 16 0); Some (be_num bytes).

(** The loop of [hex_decode]: two characters at a time. *)
Fixpoint decode_pairs (src : list Z) : option (list Z) :=
  match src with
  | [] => Some []
  | [_] => None
  | h :: l :: src' =>
      hi ← hex_val h;
      lo ← hex_val l;
      out ← decode_pairs src';
      Some (Z.lor (wrap 8 (Z.shiftl hi 4)) lo :: out)
  end.

Definition hex_decode (N : nat) (src : list Z) : option (list Z) :=
  if negb (length src =? N * 2)%nat then None else decode_pairs src.

(** *** Characters *)

Lemma hex_digit_text d :
  0 <= d < 16 -> exists c, HEX_CHARS_LOWER !! Z.to_nat d = Some c /\ hex_val c = Some d.
Proof.
  revert d. change 16 with (0 + 16). apply range_all. repeat constructor; by eexists.
Qed.

(** A digit's lower-case spelling is the table's. *)
Lemma hex_val_text c d :
  hex_val c = Some d -> 0 <= d < 16 /\ HEX_CHARS_LOWER !! Z.to_nat d = Some (Glob.to_ascii_lowercase c).
Proof.
  intros E. assert (Hc : 48 <= c < 48 + 55).
  { unfold hex_val in E. destruct (Z.leb_spec 48 c), (Z.leb_spec c 57), (Z.leb_spec 97 c), (Z.leb_spec c 102),
      (Z.leb_spec 65 c), (Z.leb_spec c 70); cbn in E; try discriminate; lia. }
  revert d E. revert c Hc. apply (range_all (fun c => forall d, hex_val c = Some d -> _)).
  repeat (apply Forall_cons_2; [intros d E; first [discriminate E|injection E as <-; split; [lia|reflexivity]]|]).
  apply Forall_nil_2.
Qed.

Lemma byte_halves b : fits 8 b ->
  0 <= Z.shiftr b 4 < 16 /\ 0 <= Z.land b 0x0f < 16 /\
  Z.lor (wrap 8 (Z.shiftl (Z.shiftr b 4) 4)) (Z.land b 0x0f) = b.
Proof.
  intros Hb. change 0x0f with (Z.ones 4). rewrite Z.land_ones, Z.shiftr_div_pow2 by lia. unfold fits in Hb.
  change (2 ^ 4) with 16. pose proof (Z.mod_pos_bound b 16). pose proof (Z.div_mod b 16 ltac:(lia)).
  assert (0 <= b / 16 < 16) by (split; [apply Z.div_pos; lia|apply Z.div_lt_upper_bound; lia]).
  split_and!; try lia. rewrite Z.shiftl_mul_pow2, wrap_id by (try (unfold fits); lia).
  rewrite lor_add by (unfold fits; lia). lia.
Qed.

Lemma join_halves hi lo : 0 <= hi < 16 -> 0 <= lo < 16 ->
  let b := Z.lor (wrap 8 (Z.shiftl hi 4)) lo in
  fits 8 b /\ Z.shiftr b 4 = hi /\ Z.land b 0x0f = lo.
Proof.
  intros Hh Hl b. assert (Eb : b = hi * 16 + lo).
  { unfold b. rewrite Z.shiftl_mul_pow2, wrap_id by (try (unfold fits); lia). by rewrite lor_add by (unfold fits; lia). }
  rewrite Eb. split; [unfold fits; lia|]. change 0x0f with (Z.ones 4).
  rewrite Z.land_ones, Z.shiftr_div_pow2 by lia. change (2 ^ 4) with 16.
  rewrite Z.div_add_l, (Z.add_comm (hi * 16)), Z.mod_add, Z.div_small, Z.mod_small by lia. lia.
Qed.

(** *** Round trips *)

Lemma encode_pairs_total src : bytes_ok src ->
  exists out, encode_pairs src = Some out /\ length out = (length src * 2)%nat /\ decode_pairs out = Some src.
Proof.
  induction 1 as [|b src Hb _ (out & E & Hlen & Ed)]; [by exists []|].
  destruct (byte_halves b Hb) as (Hh & Hl & Ej).
  destruct (hex_digit_text _ Hh) as (h & Eh & Vh), (hex_digit_text _ Hl) as (l & El & Vl).
  exists (h :: l :: out). cbn [encode_pairs decode_pairs]. rewrite Eh, El, E, Vh, Vl, Ed. cbn.
  by rewrite Ej, Hlen.
Qed.

Lemma decode_pairs_text n src out : (length src <= n)%nat -> decode_pairs src = Some out ->
  bytes_ok out /\ encode_pairs out = Some (map Glob.to_ascii_lowercase src).
Proof.
  revert src out. induction n as [|n IH]; intros [|h [|l src]] out Hn E; cbn in Hn; try lia; try discriminate E.
  1,2: injection E as <-; by split; [constructor|].
  cbn [decode_pairs] in E. destruct (hex_val h) as [hi|] eqn:Vh; [|done].
  destruct (hex_val l) as [lo|] eqn:Vl; [|done]. cbn in E.
  destruct (decode_pairs src) as [rest|] eqn:Ed; [|done]. injection E as <-.
  apply hex_val_text in Vh as [Hh Eh], Vl as [Hl El].
  destruct (IH src rest ltac:(lia) Ed) as [Hok Ee]. destruct (join_halves hi lo Hh Hl) as (Hb & E1 & E2).
  split; [by constructor|]. cbn [encode_pairs]. by rewrite E1, E2, Eh, El, Ee.
Qed.

(** [hex_u128] fills its sixteen bytes a half at a time; two halves are one
    round of [decode_pairs]. *)
Lemma u128_loop_pairs n src k done_ rest :
  (length src = 2 * n)%nat -> length done_ = k -> length rest = n ->
  u128_loop src (2 * k) (done_ ++ rest) = out ← decode_pairs src; Some (done_ ++ out).
Proof.
  revert src k done_ rest. induction n as [|n IH]; intros src k dn rest Hs Hd Hr.
  { destruct src; [|cbn in Hs; lia]. destruct rest; [done|cbn in Hr; lia]. }
  destruct src as [|h [|l src]]; [cbn in Hs; lia..|]. destruct rest as [|r rest]; [cbn in Hr; lia|].
  assert (E0 : (2 * k / 2 = k)%nat) by (rewrite Nat.mul_comm; apply Nat.div_mul; lia).
  assert (E1 : (S (2 * k) / 2 = k)%nat).
  { replace (S (2 * k)) with (1 + k * 2)%nat by lia. rewrite Nat.div_add by lia. done. }
  assert (L0 : Nat.land (2 * k) 1 = 0%nat).
  { rewrite (Nat.land_ones _ 1), Nat.mul_comm. apply Nat.Div0.mod_mul. }
  assert (L1 : Nat.land (S (2 * k)) 1 = 1%nat).
  { rewrite (Nat.land_ones _ 1). replace (S (2 * k)) with (1 + k * 2 ^ 1)%nat by (cbn; lia). by rewrite Nat.Div0.mod_add. }
  cbn [u128_loop decode_pairs]. rewrite E0, E1, L0, L1. destruct (hex_val h) as [hi|]; [|done]. cbn [mbind option_bind].
  rewrite list_lookup_middle by done. cbn [mbind option_bind Nat.eqb].
  rewrite insert_app_r_alt by lia. replace (k - length dn)%nat with 0%nat by lia. cbn [insert list_insert].
  destruct (hex_val l) as [lo|]; [|done]. cbn [mbind option_bind]. rewrite list_lookup_middle by done. cbn [mbind option_bind].
  rewrite insert_app_r_alt by lia. replace (k - length dn)%nat with 0%nat by lia. cbn [insert list_insert].
  replace (S (S (2 * k))) with (2 * S k)%nat by lia. rewrite cons_middle, app_assoc.
  rewrite IH by (rewrite ?length_app; cbn in *; lia). destruct (decode_pairs src); [|done]. cbn. by rewrite <- app_assoc.
Qed.

(** The [u128] reader is the generic one on sixteen bytes, so it inverts
    [hex_str_u128]. *)
Theorem hex_u128_roundtrip :
  (forall src, hex_u128 src = be_num <$> hex_decode 16 src) /\
  (forall x, fits 128 x -> exists s, hex_str_u128 x = Some s /\ hex_u128 s = Some x).
Proof.
  assert (H : forall src, hex_u128 src = be_num <$> hex_decode 16 src).
  { intros src. unfold hex_u128, hex_decode, zlen.
    destruct (Nat.eqb_spec (length src) (16 * 2)) as [Hlen|Hlen], (Z.eqb_spec (Z.of_nat (length src)) 32); try lia; [|done].
    cbn [negb]. change (u128_loop src 0 (replicate 16 0)) with (u128_loop src (2 * 0) ([] ++ replicate 16 0)).
    rewrite (u128_loop_pairs 16 src 0 [] (replicate 16 0)) by done. by destruct (decode_pairs src). }
  split; [done|]. intros x Hx.
  destruct (encode_pairs_total (be_bytes 16 x) (be_bytes_ok 16 x)) as (s & E & Hlen & Ed). exists s.
  rewrite length_be_bytes in Hlen. unfold hex_str_u128, hex_encode_u128, hex_encode_fixed.
  rewrite length_be_bytes. split; [done|]. rewrite H. unfold hex_decode. rewrite Hlen, Ed. cbn [negb Nat.mul Nat.add Nat.eqb fmap option_fmap option_map].
  rewrite be_num_be_bytes, Z.mod_small; [done|]. apply Hx.
Qed.

(** What [hex_encode_fixed] writes [hex_decode] reads back, and
    [hex_decode] reads exactly the strings that are such a text but for case. *)
Theorem hex_roundtrip src text N :
  bytes_ok src ->
  (exists out, hex_encode_fixed (length src * 2) src = Some out /\ length out = (length src * 2)%nat /\
     hex_decode (length src) out = Some src) /\
  (forall out, hex_decode N text = Some out ->
     length out = N /\ hex_encode_fixed (N * 2) out = Some (map Glob.to_ascii_lowercase text)).
Proof.
  intros Hok. split.
  - destruct (encode_pairs_total src Hok) as (out & E & Hlen & Ed). exists out.
    unfold hex_encode_fixed, hex_decode. by rewrite Nat.eqb_refl, Hlen, Nat.eqb_refl.
  - intros out. unfold hex_decode. destruct (Nat.eqb_spec (length text) (N * 2)) as [Hlen|]; [|done].
    intros Ed. destruct (decode_pairs_text _ text out (Nat.le_refl _) Ed) as [Ho Ee].
    destruct (encode_pairs_total out Ho) as (out' & Ee' & Hl & _). rewrite Ee in Ee'. injection Ee' as <-.
    rewrite length_map in Hl. assert (length out = N) as <- by lia. split; [done|].
    unfold hex_encode_fixed. by rewrite Nat.eqb_refl.
Qed.

End Hex.

(** ** Order-preserving Base32 *)
Module Base32.

Definition BASE32_LEN_U64 : nat := 13.
Definition BASE32_LEN_U128 : nat := 26.

(** ["0123456789abcdefghijklmnopqrstuv"]. *)
Definition BASE32_LOWER_TABLE : list Z := seqZ 48 10 ++ seqZ 97 22.

Definition BASE32_DECODE_TABLE : list Z :=
  let table := replicate 256 0xFF in
  let table := fold_left (fun table i => <[(48 + i)%nat := Z.of_nat i]> table) (seq 0 10) table in
  fold_left (fun table j => <[(65 + j)%nat := 10 + Z.of_nat j]> (<[(97 + j)%nat := 10 + Z.of_nat j]> table))
    (seq 0 22) table.

(** The loop of [encode_bits] at index [i], [n] characters still to write. *)
Fixpoint encode_tail (n : nat) (head_shift i val : Z) : option (list Z) :=
  match n with
  | O => Some []
  | S n' =>
      c ← BASE32_LOWER_TABLE !! Z.to_nat (Z.land (Z.shiftr val (head_shift - i * 5)) 0x1F);
      rest ← encode_tail n' head_shift (i + 1) val;
      Some (c :: rest)
  end.

(** [None] is an index out of the table. *)
Definition encode_bits (N : nat) (val : Z) : option (list Z) :=
  let head_shift := (Z.of_nat N - 1) * 5 in
  head ← BASE32_LOWER_TABLE !! Z.to_nat (Z.shiftr val head_shift);
  tail ← encode_tail (N - 1) head_shift 1 val;
  Some (head :: tail).

Definition encode_u64 (val : Z) : option (list Z) := encode_bits BASE32_LEN_U64 val.
Definition encode_u128 (val : Z) : option (list Z) := encode_bits BASE32_LEN_U128 val.

Definition decode_digit (b : Z) : Z := nth (Z.to_nat b) BASE32_DECODE_TABLE 0.

Fixpoint decode_tail (acc : Z) (bytes : list Z) : option Z :=
  match bytes with
  | [] => Some acc
  | b :: bytes' =>
      let digit := decode_digit b in
      if digit =? 0xFF then None
      else decode_tail (Z.lor (wrap 128 (Z.shiftl acc 5)) digit) bytes'
  end.

Definition decode_base32 (s : list Z) (expect_len : nat) (head_bits : Z) : option Z :=
  if negb (length s =? expect_len)%nat then None
  else
    match s with
    | [] => None
    | b :: bytes =>
        let head := decode_digit b in
        if Z.shiftl 1 head_bits <=? head then None else decode_tail head bytes
    end.

Definition decode_u64 (s : list Z) : option Z :=
  val ← decode_base32 s BASE32_LEN_U64 4; if val <=? u64_max then Some val else None.

Definition decode_u128 (s : list Z) : option Z := decode_base32 s BASE32_LEN_U128 3.

(** *** Characters *)

(** The character of a digit. *)
Definition char (d : Z) : Z := if d <? 10 then 48 + d else 87 + d.

Lemma table_char d : 0 <= d < 32 -> BASE32_LOWER_TABLE !! Z.to_nat d = Some (char d).
Proof. revert d. apply (range_all _ 0 32). repeat (apply Forall_cons_2; [reflexivity|]). apply Forall_nil_2. Qed.

Lemma decode_char d : 0 <= d < 32 -> decode_digit (char d) = d.
Proof. revert d. apply (range_all _ 0 32). repeat (apply Forall_cons_2; [reflexivity|]). apply Forall_nil_2. Qed.

Lemma char_lt d e : 0 <= d -> 0 <= e -> (char d < char e <-> d < e).
Proof. intros. unfold char. destruct (Z.ltb_spec d 10), (Z.ltb_spec e 10); lia. Qed.

Lemma char_inj d e : char d = char e -> 0 <= d -> 0 <= e -> d = e.
Proof. unfold char. destruct (Z.ltb_spec d 10), (Z.ltb_spec e 10); lia. Qed.

Lemma decode_text b : fits 8 b -> decode_digit b <> 0xFF ->
  0 <= decode_digit b < 32 /\ char (decode_digit b) = Glob.to_ascii_lowercase b.
Proof.
  revert b. apply (range_all (fun b => decode_digit b <> 0xFF -> _) 0 256).
  assert (H : Forall (fun b => (decode_digit b =? 0xFF) || ((0 <=? decode_digit b) && (decode_digit b <? 32) &&
    (char (decode_digit b) =? Glob.to_ascii_lowercase b)) = true) (seqZ 0 256)).
  { apply List.Forall_forall, forallb_forall. vm_compute. reflexivity. }
  eapply Forall_impl; [|exact H]. intros b Hb Hne. apply orb_true_iff in Hb as [Hb|Hb].
  { by apply Z.eqb_eq in Hb. }
  apply andb_true_iff in Hb as [Hb H3]. apply andb_true_iff in Hb as [H1 H2].
  apply Z.leb_le in H1. apply Z.ltb_lt in H2. by apply Z.eqb_eq in H3.
Qed.

Lemma decode_lowercase b : fits 8 b -> decode_digit (Glob.to_ascii_lowercase b) = decode_digit b.
Proof.
  revert b. apply (range_all _ 0 256).
  assert (H : Forall (fun b => (decode_digit (Glob.to_ascii_lowercase b) =? decode_digit b) = true) (seqZ 0 256)).
  { apply List.Forall_forall, forallb_forall. vm_compute. reflexivity. }
  eapply Forall_impl; [|exact H]. intros b. apply Z.eqb_eq.
Qed.

(** *** Digits *)

Definition num32 (acc : Z) (ds : list Z) : Z := fold_left (fun a d => a * 32 + d) ds acc.

Definition digits_ok (ds : list Z) : Prop := Forall (fun d => 0 <= d < 32) ds.

Lemma pow32_S (n : nat) : 32 ^ Z.of_nat (S n) = 32 * 32 ^ Z.of_nat n.
Proof. rewrite <- Z.pow_succ_r by lia. f_equal. lia. Qed.

Lemma num32_acc acc ds : num32 acc ds = acc * 32 ^ zlen ds + num32 0 ds.
Proof.
  revert acc. induction ds as [|d ds IH]; intros acc; [unfold zlen; cbn; lia|].
  cbn [num32 fold_left]. change (num32 (acc * 32 + d) ds = acc * 32 ^ zlen (d :: ds) + num32 (0 * 32 + d) ds).
  rewrite (IH (acc * 32 + d)), (IH (0 * 32 + d)). unfold zlen. cbn [length]. rewrite pow32_S. lia.
Qed.

Lemma num32_bound ds : digits_ok ds -> 0 <= num32 0 ds < 32 ^ zlen ds.
Proof.
  induction 1 as [|d ds Hd _ IH]; [unfold zlen; cbn; lia|]. change (num32 0 (d :: ds)) with (num32 (0 * 32 + d) ds).
  rewrite num32_acc. unfold zlen in *. cbn [length]. rewrite pow32_S. nia.
Qed.

(** On digit strings of one length the lexicographic order is the numeric one. *)
Lemma num32_lex a b : digits_ok a -> digits_ok b -> length a = length b ->
  (lex_lt (map char a) (map char b) <-> num32 0 a < num32 0 b).
Proof.
  intros Ha. revert b. induction Ha as [|x a Hx Ha IH]; intros b Hb Hlen.
  { destruct b; [|done]. cbn. lia. }
  destruct Hb as [|y b Hy Hb]; [done|]. injection Hlen as Hlen. cbn [map lex_lt].
  change (num32 0 (x :: a)) with (num32 (0 * 32 + x) a). change (num32 0 (y :: b)) with (num32 (0 * 32 + y) b).
  rewrite (num32_acc _ a), (num32_acc _ b), (IH b Hb Hlen), char_lt by lia.
  pose proof (num32_bound a Ha). pose proof (num32_bound b Hb). unfold zlen in *. rewrite <- Hlen in *.
  split.
  - intros [?|[E ?]]; [nia|]. apply char_inj in E; [|lia..]. subst. lia.
  - intros. destruct (Z.lt_trichotomy x y) as [|[->|]]; [tauto| |nia]. right. split; [done|]. lia.
Qed.

Lemma num32_inj a b : digits_ok a -> digits_ok b -> length a = length b -> num32 0 a = num32 0 b -> a = b.
Proof.
  intros Ha. revert b. induction Ha as [|x a Hx Ha IH]; intros b Hb Hlen E; [by destruct b|].
  destruct Hb as [|y b Hy Hb]; [done|]. injection Hlen as Hlen.
  change (num32 (0 * 32 + x) a = num32 (0 * 32 + y) b) in E. rewrite (num32_acc _ a), (num32_acc _ b) in E.
  pose proof (num32_bound a Ha). pose proof (num32_bound b Hb). unfold zlen in *. rewrite <- Hlen in *.
  assert (x = y) as -> by nia. f_equal. apply IH; [done..|lia].
Qed.

(** *** Encoding *)

Lemma encode_tail_spec n : forall i val, 0 <= val -> exists ds,
  encode_tail n ((i + Z.of_nat n - 1) * 5) i val = Some (map char ds) /\
  length ds = n /\ digits_ok ds /\ num32 0 ds = val mod 32 ^ Z.of_nat n.
Proof.
  induction n as [|n IH]; intros i val Hv.
  { exists []. split_and!; [done..|constructor|]. cbn. by rewrite Z.mod_1_r. }
  destruct (IH (i + 1) val Hv) as (ds & E & Hlen & Hok & En).
  assert (Ed : Z.land (Z.shiftr val ((i + Z.of_nat (S n) - 1) * 5 - i * 5)) 0x1F = (val / 32 ^ Z.of_nat n) mod 32).
  { change 0x1F with (Z.ones 5). rewrite Z.land_ones, Z.shiftr_div_pow2 by lia. change (2 ^ 5) with 32. f_equal. f_equal.
    change 32 with (2 ^ 5). rewrite <- Z.pow_mul_r by lia. f_equal. lia. }
  pose proof (Z.mod_pos_bound (val / 32 ^ Z.of_nat n) 32 ltac:(lia)) as Hb.
  exists ((val / 32 ^ Z.of_nat n) mod 32 :: ds). cbn [encode_tail]. rewrite Ed, table_char by done. cbn [mbind option_bind].
  replace (i + Z.of_nat (S n) - 1) with (i + 1 + Z.of_nat n - 1) by lia. rewrite E. split_and!.
  - done.
  - cbn. by rewrite Hlen.
  - by constructor.
  - change (num32 (0 * 32 + (val / 32 ^ Z.of_nat n) mod 32) ds = val mod 32 ^ Z.of_nat (S n)).
    rewrite num32_acc, En, pow32_S. unfold zlen. rewrite Hlen, (Z.mul_comm 32), Z.rem_mul_r by lia. lia.
Qed.

Lemma encode_bits_spec n val : 0 <= val < 32 ^ Z.of_nat (S n) -> exists ds,
  encode_bits (S n) val = Some (map char ds) /\ length ds = S n /\ digits_ok ds /\ num32 0 ds = val.
Proof.
  rewrite pow32_S. intros Hv. destruct (encode_tail_spec n 1 val ltac:(lia)) as (ds & E & Hlen & Hok & En).
  pose proof (Z.pow_pos_nonneg 32 (Z.of_nat n)) as Hp.
  assert (Hd : 0 <= val / 32 ^ Z.of_nat n < 32).
  { split; [apply Z.div_pos; lia|apply Z.div_lt_upper_bound; lia]. }
  exists (val / 32 ^ Z.of_nat n :: ds). unfold encode_bits.
  replace (Z.of_nat (S n) - 1) with (1 + Z.of_nat n - 1) by lia.
  replace (S n - 1)%nat with n by lia. rewrite E.
  replace (Z.shiftr val ((1 + Z.of_nat n - 1) * 5)) with (val / 32 ^ Z.of_nat n).
  2: { rewrite Z.shiftr_div_pow2 by lia. f_equal. change 32 with (2 ^ 5). rewrite <- Z.pow_mul_r by lia. f_equal. lia. }
  rewrite table_char by done. split_and!; [done|cbn; by rewrite Hlen|by constructor|].
  change (num32 (0 * 32 + val / 32 ^ Z.of_nat n) ds = val). rewrite num32_acc, En. unfold zlen. rewrite Hlen.
  pose proof (Z.div_mod val (32 ^ Z.of_nat n)). lia.
Qed.

(** *** Decoding *)

Definition lower (s : list Z) : list Z := map Glob.to_ascii_lowercase s.

(** A byte that is a digit of either case. *)
Lemma decode_digit_iff b d : fits 8 b ->
  (decode_digit b = d /\ d <> 0xFF) <-> (0 <= d < 32 /\ char d = Glob.to_ascii_lowercase b).
Proof.
  intros Hb. split.
  - intros [<- Hne]. by apply decode_text.
  - intros [Hd E]. rewrite <- decode_lowercase, <- E, decode_char by done. lia.
Qed.

Lemma decode_tail_spec bytes : forall acc v, bytes_ok bytes -> 0 <= acc -> (acc + 1) * 32 ^ zlen bytes <= 2 ^ 128 ->
  (decode_tail acc bytes = Some v <->
   exists ds, digits_ok ds /\ map char ds = lower bytes /\ v = num32 acc ds).
Proof.
  induction bytes as [|b bytes IH]; intros acc v Hok Ha Hm; cbn [decode_tail].
  { split; [intros [= <-]; exists []; split_and!; [constructor|done..]|].
    by intros ([|] & _ & E & ->). }
  apply Forall_cons_1 in Hok as [Hb Hok]. unfold zlen in *. cbn [length] in Hm. rewrite pow32_S in Hm.
  pose proof (Z.pow_pos_nonneg 32 (Z.of_nat (length bytes))) as Hp.
  assert (Es : forall d, 0 <= d < 32 -> Z.lor (wrap 128 (Z.shiftl acc 5)) d = acc * 32 + d).
  { intros d Hd. rewrite Z.shiftl_mul_pow2, wrap_id by (try (unfold fits); nia).
    by rewrite lor_add by (unfold fits; lia). }
  destruct (Z.eqb_spec (decode_digit b) 0xFF) as [E|E].
  - split; [done|]. intros ([|d ds] & Hd & Em & _); [done|]. apply Forall_cons_1 in Hd as [Hd _]. injection Em as Em _.
    destruct (proj2 (decode_digit_iff b d Hb) (conj Hd Em)). congruence.
  - destruct (proj1 (decode_digit_iff b _ Hb) (conj eq_refl E)) as [Hd Ec]. rewrite Es by done.
    rewrite IH by (done || nia). split.
    + intros (ds & Hds & Em & ->). exists (decode_digit b :: ds). split_and!; [by constructor| |done].
      cbn [map lower]. by rewrite Ec, Em.
    + intros ([|d ds] & Hds & Em & ->); [done|]. apply Forall_cons_1 in Hds as [Hd' Hds]. injection Em as Ec' Em.
      exists ds. split_and!; [done..|]. rewrite <- Ec' in Ec. apply char_inj in Ec; [|lia..]. by rewrite Ec.
Qed.

Lemma decode_base32_spec n hb s v : bytes_ok s -> 0 <= hb <= 5 -> 2 ^ hb * 32 ^ Z.of_nat n <= 2 ^ 128 ->
  (decode_base32 s (S n) hb = Some v <->
   exists ds, length ds = S n /\ digits_ok ds /\ map char ds = lower s /\ v = num32 0 ds /\ v < 2 ^ hb * 32 ^ Z.of_nat n).
Proof.
  intros Hok Hhb Hm. unfold decode_base32. destruct (Nat.eqb_spec (length s) (S n)) as [Hlen|Hlen]; cbn [negb].
  2: { split; [done|]. intros (ds & Hl & _ & Em & _). apply (f_equal length) in Em. unfold lower in Em.
       rewrite !length_map in Em. lia. }
  destruct s as [|b s]; [done|]. injection Hlen as Hlen. apply Forall_cons_1 in Hok as [Hb Hok].
  assert (H32 : 2 ^ hb <= 2 ^ 5) by (apply Z.pow_le_mono_r; lia). change (2 ^ 5) with 32 in H32.
  rewrite Z.shiftl_1_l. split.
  - destruct (Z.leb_spec (2 ^ hb) (decode_digit b)) as [|Hh]; [done|].
    assert (Hne : decode_digit b <> 0xFF) by lia.
    destruct (proj1 (decode_digit_iff b _ Hb) (conj eq_refl Hne)) as [Hd Ec].
    intros E. apply decode_tail_spec in E as (ds & Hds & Em & ->); [|done|lia|unfold zlen; rewrite Hlen; nia].
    assert (Hl : length ds = n). { apply (f_equal length) in Em. unfold lower in Em. rewrite !length_map in Em. lia. }
    exists (decode_digit b :: ds). split_and!; [cbn; by rewrite Hl|by constructor|cbn [map lower]; by rewrite Ec, Em|done|].
    rewrite num32_acc. pose proof (num32_bound ds Hds). unfold zlen in *. rewrite Hl in *. nia.
  - intros ([|d ds] & Hl & Hds & Em & -> & Hv); [done|]. injection Hl as Hl.
    apply Forall_cons_1 in Hds as [Hd Hds]. injection Em as Ec Em.
    destruct (proj2 (decode_digit_iff b d Hb) (conj Hd Ec)) as [Ed _]. rewrite Ed.
    change (num32 0 (d :: ds)) with (num32 (0 * 32 + d) ds) in *. rewrite num32_acc in Hv.
    pose proof (num32_bound ds Hds). unfold zlen in *. rewrite Hl in *.
    assert (d < 2 ^ hb) by nia. destruct (Z.leb_spec (2 ^ hb) d); [lia|].
    apply decode_tail_spec; [done|lia|unfold zlen; rewrite Hlen; nia|]. by exists ds.
Qed.

(** *** The contract *)

(** [enc] writes [w]-bit numbers as [len] characters; [dec] accepts a byte string
    as a number exactly when, written in lower case, it is the text of that number;
    and the texts are ordered as the numbers are. *)
Record OrderCodec (w : Z) (len : nat) (enc : Z -> option (list Z)) (dec : list Z -> option Z) : Prop := {
  codec_encode : forall v, fits w v -> exists s, enc v = Some s /\ length s = len /\ bytes_ok s /\ dec s = Some v;
  codec_decode : forall s v, bytes_ok s -> (dec s = Some v <-> fits w v /\ enc v = Some (lower s));
  codec_order : forall v v' s s', fits w v -> fits w v' -> enc v = Some s -> enc v' = Some s' ->
    (lex_lt s s' <-> v < v')
}.

Lemma lower_chars ds : digits_ok ds -> lower (map char ds) = map char ds /\ bytes_ok (map char ds).
Proof.
  induction 1 as [|d ds Hd _ [E Hb]]; [by split; constructor|].
  assert (97 <= char d <= 122 \/ 48 <= char d < 65).
  { unfold char. destruct (Z.ltb_spec d 10); lia. }
  split; [|constructor; [unfold fits; lia|done]]. cbn [map lower]. f_equal; [|done].
  unfold Glob.to_ascii_lowercase. destruct (Z.leb_spec 65 (char d)), (Z.leb_spec (char d) 90); cbn; lia.
Qed.

Lemma bits_codec w n hb : 0 <= hb <= 5 -> 2 ^ w = 2 ^ hb * 32 ^ Z.of_nat n -> 2 ^ w <= 2 ^ 128 ->
  OrderCodec w (S n) (encode_bits (S n)) (fun s => decode_base32 s (S n) hb).
Proof.
  intros Hhb Ew Hw. assert (H32 : 2 ^ hb <= 2 ^ 5) by (apply Z.pow_le_mono_r; lia). change (2 ^ 5) with 32 in H32.
  pose proof (Z.pow_pos_nonneg 32 (Z.of_nat n)) as Hp.
  assert (Henc : forall v, fits w v -> exists ds, encode_bits (S n) v = Some (map char ds) /\
    length ds = S n /\ digits_ok ds /\ num32 0 ds = v).
  { intros v [H0 H1]. apply encode_bits_spec. rewrite pow32_S. nia. }
  split.
  - intros v Hv. destruct (Henc v Hv) as (ds & E & Hl & Hok & En). destruct (lower_chars ds Hok) as [El Hb].
    exists (map char ds). split_and!; [done|by rewrite length_map|done|].
    apply decode_base32_spec; [done|lia|lia|]. exists ds. split_and!; [done..|]. rewrite <- Ew. apply Hv.
  - intros s v Hok. rewrite decode_base32_spec by (done || lia). rewrite <- Ew. split.
    + intros (ds & Hl & Hds & Em & -> & Hv). pose proof (num32_bound ds Hds). split; [unfold fits; lia|].
      destruct (Henc (num32 0 ds)) as (ds' & E' & Hl' & Hds' & En'); [unfold fits; lia|].
      apply num32_inj in En' as ->; [|done..|congruence]. by rewrite E', Em.
    + intros [Hv E]. destruct (Henc v Hv) as (ds & E' & Hl & Hds & <-). rewrite E' in E. injection E as E.
      exists ds. split_and!; [done..|apply Hv].
  - intros v v' s s' Hv Hv' E E'. destruct (Henc v Hv) as (ds & E1 & Hl & Hok & <-).
    destruct (Henc v' Hv') as (ds' & E1' & Hl' & Hok' & <-). rewrite E1 in E. rewrite E1' in E'. simplify_eq.
    apply num32_lex; [done..|congruence].
Qed.

(** C38: the Base32 texts of 64- and 128-bit numbers have the fixed lengths the
    file names rely on and decode to the number they were made from.  A byte string
    is decoded to a number exactly when it is the text of that number in any mixture
    of upper and lower case; everything else is rejected.  The texts compare as the
    numbers do. *)
Theorem base32_correct :
  OrderCodec 64 BASE32_LEN_U64 encode_u64 decode_u64 /\ OrderCodec 128 BASE32_LEN_U128 encode_u128 decode_u128.
Proof.
  split; [|by apply (bits_codec 128 25 3)].
  pose proof (bits_codec 64 12 4 ltac:(lia) eq_refl ltac:(lia)) as [He Hd Ho]. unfold decode_u64.
  split; [| |exact Ho].
  - intros v Hv. destruct (He v Hv) as (s & E & Hl & Hb & Ed). exists s. split_and!; [done..|].
    change BASE32_LEN_U64 with 13%nat. rewrite Ed. cbn. unfold fits in Hv. unfold u64_max.
    destruct (Z.leb_spec v (2 ^ 64 - 1)); [done|lia].
  - intros s v Hok. rewrite <- (Hd s v Hok). change BASE32_LEN_U64 with 13%nat.
    destruct (decode_base32 s 13 4) as [x|] eqn:Ex; [|done]. cbn.
    apply Hd in Ex as [[_ Hx] _]; [|done]. unfold u64_max. destruct (Z.leb_spec x (2 ^ 64 - 1)); [done|lia].
Qed.

End Base32.

(** ** Domain prefixes *)
Module NsPrefix.

Definition NS_DELIM : Z := 58.
Definition MAX_DIGITS : Z := 20.
Definition BUF_LEN : Z := MAX_DIGITS * 2 + 2.

Record NsPrefix : Type := mkPrefix { buf : list Z; len : Z }.

Definition empty : NsPrefix := mkPrefix (replicate (Z.to_nat BUF_LEN) 0) 0.

Section Itoa.

(** [itoa::Buffer::format] on a [u64]. *)
Variable format : Z -> list Z.

(** [None] is the slice out of range. *)
Definition push (self : NsPrefix) (n : Z) : option NsPrefix :=
  let digits := format n in
  let start := len self in
  let end_ := start + zlen digits + 1 in
  if BUF_LEN <? end_ then None
  else
    let buf := splice start digits (buf self) in
    let buf := splice (end_ - 1) [NS_DELIM] buf in
    Some (mkPrefix buf (wrap 8 end_)).

Definition new (ns : Z) : option NsPrefix := push empty ns.
Definition join (self : NsPrefix) (n : Z) : option NsPrefix := push self n.

Definition as_slice (self : NsPrefix) : list Z := slice 0 (len self) (buf self).

Definition isolate (self : NsPrefix) (raw : list Z) : list Z := as_slice self ++ raw.

Definition strip (self : NsPrefix) (isolated : list Z) : option (list Z) := strip_prefix (as_slice self) isolated.

(** The two shapes in use: the domain of a channel and that of a blocking key. *)
Definition channel_domain (ns : Z) : option NsPrefix := new ns.
Definition key_domain (ns db : Z) : option NsPrefix := p ← new ns; join p db.

(** What [itoa] documents: the decimal numeral, without leading zeros. *)
Hypothesis format_numeral : forall n, fits 64 n -> Num.numeral (format n).
Hypothesis format_value : forall n, fits 64 n -> Num.value (format n) = n.

Definition segment (n : Z) : list Z := format n ++ [NS_DELIM].

(** *** Sizes *)

Lemma acc_value_pow ds n : 0 <= n -> Forall (fun d => 48 <= d <= 57) ds -> n * 10 ^ zlen ds <= Num.acc_value n ds.
Proof.
  intros Hn Hd. revert n Hn. induction Hd as [|d ds Hd _ IH]; intros n Hn; [unfold zlen; cbn; lia|].
  change (Num.acc_value n (d :: ds)) with (Num.acc_value (n * 10 + (d - Num.ZERO)) ds). unfold Num.ZERO.
  specialize (IH (n * 10 + (d - 48)) ltac:(lia)). rewrite zlen_cons, Z.pow_add_r by (try apply zlen_nonneg; lia).
  pose proof (Z.pow_pos_nonneg 10 (zlen ds) ltac:(lia) (zlen_nonneg ds)). nia.
Qed.

Lemma format_len n : fits 64 n -> 1 <= zlen (format n) <= MAX_DIGITS.
Proof.
  intros Hn. destruct (format_numeral n Hn) as (Hne & Hd & H0). pose proof (format_value n Hn) as Ev.
  destruct (format n) as [|d ds]; [done|]. apply Forall_cons_1 in Hd as [Hd Hds]. rewrite zlen_cons in *.
  pose proof (zlen_nonneg ds). split; [lia|]. destruct (Z.le_gt_cases (zlen ds) 19) as [|Hl]; [unfold MAX_DIGITS; lia|].
  change (Num.acc_value (0 * 10 + (d - Num.ZERO)) ds = n) in Ev. unfold Num.ZERO in *.
  assert (d <> 48). { intros ->. by apply H0; [lia|]. }
  pose proof (acc_value_pow ds (0 * 10 + (d - 48)) ltac:(lia) Hds).
  assert (10 ^ 20 <= 10 ^ zlen ds) by (apply Z.pow_le_mono_r; lia). unfold fits in Hn. nia.
Qed.

(** A segment is appended to what the prefix holds. *)
Lemma push_segment self n : fits 64 n -> zlen (buf self) = BUF_LEN -> 0 <= len self <= MAX_DIGITS + 1 ->
  exists p, push self n = Some p /\ zlen (buf p) = BUF_LEN /\ as_slice p = as_slice self ++ segment n /\
    len p = len self + zlen (format n) + 1.
Proof.
  intros Hn Hb Hl. pose proof (format_len n Hn) as Hf. unfold push, BUF_LEN, MAX_DIGITS in *.
  change (20 * 2 + 2) with 42 in *.
  destruct (Z.ltb_spec 42 (len self + zlen (format n) + 1)) as [|_]; [lia|].
  set (b1 := splice (len self) (format n) (buf self)).
  assert (L1 : zlen b1 = 42) by (unfold b1; rewrite zlen_splice; lia).
  eexists. split; [done|]. cbn [buf len]. rewrite wrap_id by (unfold fits; lia).
  rewrite zlen_splice by (change (zlen [NS_DELIM]) with 1; lia). split_and!; [done| |lia].
  unfold as_slice, segment. cbn [buf len]. replace (len self + zlen (format n) + 1 - 1) with (len self + zlen (format n)) by lia.
  unfold splice at 1, slice. rewrite !Z.sub_0_r. change (Z.to_nat 0) with 0%nat. rewrite !drop_0.
  assert (E1 : take (Z.to_nat (len self + zlen (format n))) b1 = slice 0 (len self) (buf self) ++ format n).
  { unfold b1, splice, slice. rewrite Z.sub_0_r. change (Z.to_nat 0) with 0%nat. rewrite drop_0. unfold zlen in *.
    rewrite app_assoc, take_app_length'; [done|]. rewrite length_app, length_take. lia. }
  rewrite E1, app_assoc, take_app_length'.
  - unfold slice. rewrite Z.sub_0_r, <- app_assoc. done.
  - unfold slice, zlen in *. rewrite !length_app, length_take, Z.sub_0_r. change (Z.to_nat 0) with 0%nat.
    rewrite drop_0. cbn [length]. lia.
Qed.

Lemma channel_domain_text ns : fits 64 ns -> exists p, channel_domain ns = Some p /\ as_slice p = segment ns.
Proof.
  intros Hn. destruct (push_segment empty ns Hn) as (p & E & _ & Es & _); [done|cbn; unfold MAX_DIGITS; lia|].
  by exists p.
Qed.

Lemma key_domain_text ns db : fits 64 ns -> fits 64 db ->
  exists p, key_domain ns db = Some p /\ as_slice p = segment ns ++ segment db.
Proof.
  intros Hn Hd. destruct (push_segment empty ns Hn) as (p & E & Hb & Es & El); [done|cbn; unfold MAX_DIGITS; lia|].
  pose proof (format_len ns Hn). destruct (push_segment p db Hd Hb) as (q & E' & _ & Es' & _).
  { rewrite El. cbn. lia. }
  exists q. unfold key_domain, new, join. rewrite E. cbn. split; [done|]. by rewrite Es', Es.
Qed.

(** *** Unambiguous segments *)

Lemma digits_split a b x y :
  Forall (fun d => 48 <= d <= 57) a -> Forall (fun d => 48 <= d <= 57) b ->
  a ++ NS_DELIM :: x = b ++ NS_DELIM :: y -> a = b /\ x = y.
Proof.
  intros Ha. revert b. induction Ha as [|d a Hd _ IH]; intros b Hb E; destruct Hb as [|e b He Hb]; cbn in E.
  - injection E as ->. done.
  - injection E as Ee _. unfold NS_DELIM in Ee. lia.
  - injection E as Ee _. unfold NS_DELIM in Ee. lia.
  - injection E as -> E. destruct (IH b Hb E) as [-> ->]. done.
Qed.

Lemma segment_split n m x y : fits 64 n -> fits 64 m -> segment n ++ x = segment m ++ y -> n = m /\ x = y.
Proof.
  intros Hn Hm. unfold segment. rewrite <- !app_assoc. intros E.
  apply digits_split in E as [E ->]; [|apply format_numeral; done..].
  by rewrite <- (format_value n), <- (format_value m), E.
Qed.

(** *** Patterns *)

(** Bytes a pattern takes literally, in either case mode. *)
Lemma literal_elem ic c p tb t : 48 <= c <= 58 ->
  Glob.matches ic (c :: p) (tb :: t) <-> tb = c /\ Glob.matches ic p t.
Proof.
  intros Hc. rewrite Glob.matches_elem_iff by (unfold Glob.STAR; lia). cbn [Glob.elem_ok Glob.elem_rest].
  unfold Glob.QUESTION, Glob.LBRACKET, Glob.BACKSLASH.
  destruct (Z.eqb_spec c 63), (Z.eqb_spec c 91), (Z.eqb_spec c 92); try lia.
  assert (Glob.byte_eq c tb ic = true <-> tb = c) as ->; [|done].
  unfold Glob.byte_eq, Glob.to_ascii_lowercase.
  destruct (Z.leb_spec 65 c), (Z.leb_spec 65 tb), (Z.leb_spec tb 90), ic; cbn [andb]; rewrite ?Z.eqb_eq; lia.
Qed.

Lemma literal_prefix ic lit p t : Forall (fun c => 48 <= c <= 58) lit ->
  Glob.matches ic (lit ++ p) t <-> exists t', t = lit ++ t' /\ Glob.matches ic p t'.
Proof.
  intros Hl. revert t. induction Hl as [|c lit Hc _ IH]; intros t; cbn [app].
  { split; [by exists t|]. by intros (t' & -> & ?). }
  destruct t as [|tb t].
  - split; [|by intros (? & ? & _)]. inversion 1; subst; unfold Glob.STAR in *; lia.
  - rewrite literal_elem, IH by done. split; [intros [-> (t' & -> & ?)]; by exists t'|].
    intros (t' & E & ?). injection E as -> ->. split; [done|]. by exists t'.
Qed.

Lemma segment_literal n : fits 64 n -> Forall (fun c => 48 <= c <= 58) (segment n).
Proof.
  intros Hn. destruct (format_numeral n Hn) as (_ & Hd & _). unfold segment. apply Forall_app_2.
  - eapply Forall_impl; [|exact Hd]. cbn. lia.
  - repeat constructor; unfold NS_DELIM; lia.
Qed.

(** What two prefixes promise of each other when their domains are equal just
    when [same]: stripping one from a key isolated by the other gives the key
    back or nothing, and a pattern isolated by the one matches a key isolated by
    the other as the bare pattern matches the bare key, or not at all. *)
Definition Isolated (p p' : NsPrefix) (same : Prop) : Prop :=
  (forall raw r, strip p (isolate p' raw) = Some r <-> same /\ r = raw) /\
  (forall ic pattern key, exists b,
     Glob.glob_match_opt (Glob.glob_fuel (isolate p pattern) (isolate p' key)) (isolate p pattern) (isolate p' key) ic
       = Some b /\ (b = true <-> same /\ Glob.matches ic pattern key)).

Lemma isolation p p' (same : Prop) :
  as_slice p' <> [] -> Forall (fun c => 48 <= c <= 58) (as_slice p) ->
  (forall x y, as_slice p ++ x = as_slice p' ++ y -> same /\ x = y) -> (same -> as_slice p = as_slice p') ->
  Isolated p p' same.
Proof.
  intros Hne' Hlit Hsplit Hsame. unfold Isolated, strip, isolate. split.
  - intros raw r. rewrite strip_prefix_Some. split.
    + intros E. symmetry in E. by apply Hsplit in E.
    + intros [Hs ->]. by rewrite (Hsame Hs).
  - intros ic pattern key.
    destruct (Glob.glob_decides ic (as_slice p ++ pattern) (as_slice p' ++ key)) as (b & E & Hb).
    { by destruct (as_slice p'). }
    exists b. split; [done|]. rewrite Hb, literal_prefix by done. split.
    + intros (t' & Et & Hm). symmetry in Et. apply Hsplit in Et as [? ->]. done.
    + intros [Hs Hm]. exists key. by rewrite (Hsame Hs).
Qed.

(** C37: in both shapes in use the prefixes fit their buffer and keep domains
    apart.  A key isolated in one domain strips to itself there and to nothing
    in any other, and a subscription pattern, whatever it contains, matches
    exactly the channels of its own domain that the bare pattern matches.  Matching
    a bare channel is meant by the meaning of patterns ([Glob.matches]): the matcher
    itself answers no for a lone star and an empty channel, which the star stands
    for; behind a prefix no channel is empty, and there the two agree. *)
Theorem domain_isolation ns db ns' db' :
  fits 64 ns -> fits 64 db -> fits 64 ns' -> fits 64 db' ->
  exists p p' q q',
    channel_domain ns = Some p /\ channel_domain ns' = Some p' /\ Isolated p p' (ns = ns') /\
    key_domain ns db = Some q /\ key_domain ns' db' = Some q' /\ Isolated q q' (ns = ns' /\ db = db').
Proof.
  intros Hn Hd Hn' Hd'.
  destruct (channel_domain_text ns Hn) as (p & E & Es), (channel_domain_text ns' Hn') as (p' & E' & Es').
  destruct (key_domain_text ns db Hn Hd) as (q & F & Fs), (key_domain_text ns' db' Hn' Hd') as (q' & F' & Fs').
  exists p, p', q, q'. split_and!; try done; apply isolation.
  - rewrite Es'. unfold segment. by destruct (format ns').
  - rewrite Es. by apply segment_literal.
  - intros x y. rewrite Es, Es'. by apply segment_split.
  - intros ->. congruence.
  - rewrite Fs'. unfold segment. by destruct (format ns').
  - rewrite Fs. apply Forall_app_2; by apply segment_literal.
  - intros x y. rewrite Fs, Fs', <- !app_assoc. intros G. apply segment_split in G as [-> G]; [|done..].
    apply segment_split in G as [-> ->]; done.
  - intros [-> ->]. congruence.
Qed.

End Itoa.

(** A printer to run the code with. *)
Fixpoint decimal (fuel : nat) (n : Z) : list Z :=
  match fuel with
  | O => [48 + n]
  | S fuel' => if n <? 10 then [48 + n] else decimal fuel' (n / 10) ++ [48 + n mod 10]
  end.

Lemma decimal_numeral fuel : forall n, 0 <= n < 10 * 10 ^ Z.of_nat fuel ->
  Num.value (decimal fuel n) = n /\ decimal fuel n <> [] /\ Forall (fun d => 48 <= d <= 57) (decimal fuel n) /\
  (1 <= n -> head (decimal fuel n) <> Some Num.ZERO) /\
  (n < 10 -> zlen (decimal fuel n) = 1).
Proof.
  assert (Hone : forall n, 0 <= n < 10 -> Num.value [48 + n] = n /\ [48 + n] <> [] /\
    Forall (fun d => 48 <= d <= 57) [48 + n] /\
    (1 <= n -> head [48 + n] <> Some Num.ZERO) /\ (n < 10 -> zlen [48 + n] = 1)).
  { intros n Hn. unfold Num.value, Num.ZERO. split_and!; try done; cbn [foldl head]; try lia.
    - repeat constructor; lia.
    - intros ? [= ?]. lia. }
  induction fuel as [|fuel IH]; intros n Hn; cbn [decimal]; [apply Hone; cbn in Hn; lia|].
  destruct (Z.ltb_spec n 10) as [Hlt|Hge]; [apply Hone; lia|].
  assert (Hp : 10 ^ Z.of_nat (S fuel) = 10 * 10 ^ Z.of_nat fuel).
  { rewrite <- Z.pow_succ_r by lia. f_equal. lia. }
  rewrite Hp in Hn. pose proof (Z.mod_pos_bound n 10 ltac:(lia)). pose proof (Z.div_mod n 10 ltac:(lia)) as Hdm.
  destruct (IH (n / 10)) as (Ev & Hne & Hd & Hh & _).
  { split; [apply Z.div_pos; lia|apply Z.div_lt_upper_bound; lia]. }
  assert (Hh' : head (decimal fuel (n / 10) ++ [48 + n mod 10]) <> Some Num.ZERO).
  { destruct (decimal fuel (n / 10)) as [|d ds]; [done|]. apply Hh. apply Z.div_le_lower_bound; lia. }
  split_and!; try done; try lia.
  - unfold Num.value in *. rewrite foldl_app, Ev. cbn [foldl]. unfold Num.ZERO. lia.
  - by destruct (decimal fuel (n / 10)).
  - apply Forall_app_2; [done|]. repeat constructor; lia.
Qed.

Lemma decimal_u64 n : fits 64 n -> Num.numeral (decimal 19 n) /\ Num.value (decimal 19 n) = n.
Proof.
  intros Hn. unfold fits in Hn. destruct (decimal_numeral 19 n) as (Ev & Hne & Hd & Hh & Hs); [cbn; lia|].
  split; [|done]. split_and!; [done..|]. intros Hl. apply Hh. destruct (Z.le_gt_cases 1 n); [done|].
  rewrite Hs in Hl by lia. lia.
Qed.

Lemma domain_isolation_witness :
  exists p p' q q',
    channel_domain (decimal 19) 1 = Some p /\ channel_domain (decimal 19) 12 = Some p' /\ Isolated p p' (1 = 12) /\
    key_domain (decimal 19) 1 23 = Some q /\ key_domain (decimal 19) 12 3 = Some q' /\ Isolated q q' (1 = 12 /\ 23 = 3).
Proof.
  apply (domain_isolation (decimal 19) (fun n Hn => proj1 (decimal_u64 n Hn)) (fun n Hn => proj2 (decimal_u64 n Hn))
    1 23 12 3); unfold fits; lia.
Defined.

End NsPrefix.
