(* ===== verification/HyperLog.v ===== *)
(** * HyperLogLog payloads ([wedb/whyperlog/src])

    A payload is a byte slice: a header of sixteen bytes and either 16384 packed
    six-bit registers (dense) or a run-length stream of operation codes (sparse).
    [Murmur] is the element hash ([wedb/wbase/src/hash.rs]); [HyperLog] are the
    operations on payloads; [Kernel] the payload functions of the commands
    ([wedb/wnode/src/resp/hyperloglog/hyper_log_log_commands.rs]).  [None] is a
    panic: an index or a range out of bounds. *)

From stdpp Require Import base list numbers option tactics.
From Stdlib Require Import ZArith Lia Bool.
From S2P Require Import Prelude Bytes Hasher.

Module Murmur.

Definition m : Z := 0xc6a4a7935bd1e995.
Definition r : Z := 47.

(** The body of the loop over the blocks. *)
Definition mix_block (h : Z) (block : list Z) : Z :=
  let k := le_num block in
  let k := wmul 64 k m in
  let k := Z.lxor k (Z.shiftr k r) in
  let k := wmul 64 k m in
  wmul 64 (Z.lxor h k) m.

(** [if cs >= i + 1 { h ^= (suffix[i] as u64) << (8 * i); }]. *)
Definition mix_byte (suffix : list Z) (h : Z) (i : nat) : Z :=
  match suffix !! i with Some b => Z.lxor h (Z.shiftl b (8 * Z.of_nat i)) | None => h end.

Definition murmur_hash2_x64_a (b_string : list Z) (seed : Z) : Z :=
  let h := Z.lxor seed (wmul 64 (zlen b_string) m) in
  let '(blocks, suffix) := Hasher.as_chunks 8 b_string in
  let h := fold_left mix_block blocks h in
  let h := fold_left (mix_byte suffix) [6; 5; 4; 3; 2; 1; 0]%nat h in
  let h := if 1 <=? zlen suffix then wmul 64 h m else h in
  let h := Z.lxor h (Z.shiftr h r) in
  let h := wmul 64 h m in
  Z.lxor h (Z.shiftr h r).

Definition murmur_hash_2_x64_a (b_string : list Z) : Z := murmur_hash2_x64_a b_string 0.

End Murmur.

Module HyperLog.
Import Murmur.

Definition REG_BITS : Z := 6.
Definition REG_BITS_MSK : Z := Z.shiftl 1 REG_BITS - 1.
Definition HLL_HEADER_BYTES : Z := 16.
Definition HYLL_MAGIC : Z := 0x48594C4C.
Definition HBIT : Z := 64.
Definition SPARSE_MAX_BYTES_PER_INSERT : Z := 2.
Definition SPARSE_SIZE_MAX_CAP : Z := Z.shiftl 1 12.
Definition SPARSE_MEMORY_SECTOR_SIZE : Z := Z.shiftl 1 7.
Definition SPARSE_HEADER_SIZE : Z := HLL_HEADER_BYTES + 2.
Definition DEFAULT_PBIT : Z := 14.
Definition DEFAULT_QBIT : Z := HBIT - DEFAULT_PBIT.
Definition DEFAULT_MCNT : Z := Z.shiftl 1 DEFAULT_PBIT.
Definition DEFAULT_DENSE_BYTES : Z := HLL_HEADER_BYTES + Z.shiftr (REG_BITS * DEFAULT_MCNT) 3.
Definition DEFAULT_SPARSE_ZERO_RANGES : Z := Z.shiftr DEFAULT_MCNT 7.

Inductive HllDtype : Type := Sparse | Dense.

Definition dtype_u8 (d : HllDtype) : Z := match d with Sparse => 0 | Dense => 1 end.

Definition dtype_try_from (value : Z) : option HllDtype :=
  if value =? 0 then Some Sparse else if value =? 1 then Some Dense else None.

Record HyperLogLog : Type := mkHll {
  qbit : Z;
  mcnt : Z;
  dense_bytes : Z;
  sparse_zero_ranges : Z;
  sparse_header_size : Z
}.

Definition new : HyperLogLog :=
  mkHll DEFAULT_QBIT DEFAULT_MCNT DEFAULT_DENSE_BYTES DEFAULT_SPARSE_ZERO_RANGES SPARSE_HEADER_SIZE.

Definition with_pbit (pbit : Z) : HyperLogLog :=
  if pbit =? DEFAULT_PBIT
  then mkHll DEFAULT_QBIT DEFAULT_MCNT DEFAULT_DENSE_BYTES DEFAULT_SPARSE_ZERO_RANGES SPARSE_HEADER_SIZE
  else
    let qbit := wrap 8 (HBIT - pbit) in
    let mcnt := Z.shiftl 1 pbit in
    mkHll qbit mcnt (HLL_HEADER_BYTES + Z.shiftr (REG_BITS * mcnt) 3) (Z.shiftr mcnt 7) SPARSE_HEADER_SIZE.

(** ** Slices *)

(** [&l[a..b]]. *)
Definition range (a b : Z) (l : list Z) : option (list Z) :=
  if (a <=? b) && (b <=? zlen l) then Some (slice a b l) else None.

(** [l[a..a + bs.len()].copy_from_slice(bs)]. *)
Definition write_at (a : Z) (bs l : list Z) : option (list Z) :=
  if a + zlen bs <=? zlen l then Some (splice a bs l) else None.

(** [l[a..b].fill(v)]. *)
Definition fill (a b v : Z) (l : list Z) : option (list Z) := write_at a (replicate (Z.to_nat (b - a)) v) l.

(** [l.copy_within(a..b, dest)]. *)
Definition copy_within (a b dest : Z) (l : list Z) : option (list Z) :=
  moved ← range a b l;
  if dest <=? zlen l - (b - a) then Some (splice dest moved l) else None.

(** ** Frames ([frame.rs]) *)

Section Self.

Variable self : HyperLogLog.

Definition set_prefix (ptr : list Z) : option (list Z) := write_at 0 (le_bytes 8 0x48594C4C00000000) ptr.

Definition get_type (ptr : list Z) : Z := default u8_max (ptr !! 3%nat).

Definition set_type (ptr : list Z) (dtype : HllDtype) : option (list Z) := write_at 3 [dtype_u8 dtype] ptr.

Definition is_sparse (ptr : list Z) : bool := get_type ptr =? dtype_u8 Sparse.
Definition is_dense (ptr : list Z) : bool := get_type ptr =? dtype_u8 Dense.

Definition set_card (ptr : list Z) (card : Z) : option (list Z) := write_at 8 (le_bytes 8 (of_i64 card)) ptr.

Definition get_card (ptr : list Z) : Z :=
  if 16 <=? zlen ptr then to_i64 (le_num (slice 8 16 ptr)) else i64_min.

Definition is_valid_card (ptr : list Z) : bool := 0 <=? get_card ptr.

Definition is_hyll (ptr : list Z) : bool :=
  match range 4 8 ptr with Some magic => bytes_eqb magic (le_bytes 4 HYLL_MAGIC) | None => false end.

(** ** Registers ([regs.rs]) *)

Definition reg_idx (hv : Z) : Z := wrap 16 (Z.land hv (mcnt self - 1)).

Definition leading_zeros (hv : Z) : Z := if hv =? 0 then 64 else 63 - Z.log2 hv.

Definition clz (hv : Z) : Z := Z.min (wrap 8 (leading_zeros hv)) (qbit self) + 1.

Definition get_register (reg : list Z) (idx : Z) : option Z :=
  let m := idx * REG_BITS in
  let b0 := Z.shiftr m 3 in
  let lsb := Z.land m 0x7 in
  x ← reg !! Z.to_nat b0;
  let v0 := Z.shiftr x lsb in
  let b1 := default 0 (reg !! Z.to_nat (b0 + 1)) in
  let v1 := wrap 8 (wrap 16 (Z.shiftl b1 (8 - lsb))) in
  Some (Z.land (Z.lor v0 v1) REG_BITS_MSK).

Definition set_register (reg : list Z) (idx val : Z) : option (list Z) :=
  let m := idx * REG_BITS in
  let b0 := Z.shiftr m 3 in
  let lsb := Z.land m 0x7 in
  let msb := 8 - lsb in
  x ← reg !! Z.to_nat b0;
  let x := Z.land x (bnot 8 (wrap 8 (wrap 16 (Z.shiftl REG_BITS_MSK lsb)))) in
  let x := Z.lor x (wrap 8 (wrap 16 (Z.shiftl val lsb))) in
  let reg := <[Z.to_nat b0 := x]> reg in
  Some (match reg !! Z.to_nat (b0 + 1) with
        | Some next_byte =>
            let next_byte := Z.land next_byte (bnot 8 (wrap 8 (Z.shiftr REG_BITS_MSK msb))) in
            let next_byte := Z.lor next_byte (wrap 8 (Z.shiftr val msb)) in
            <[Z.to_nat (b0 + 1) := next_byte]> reg
        | None => reg
        end).

(** ** Dense payloads ([dense.rs]) *)

Definition init_dense (ptr : list Z) : option (list Z) :=
  ptr ← fill 0 (dense_bytes self) 0 ptr;
  ptr ← set_prefix ptr;
  ptr ← set_type ptr Dense;
  set_card ptr i64_min.

(** [&ptr[HLL_HEADER_BYTES..]], and an operation on it in place. *)
Definition registers_of (ptr : list Z) : option (list Z) := range HLL_HEADER_BYTES (zlen ptr) ptr.

Definition on_registers (f : list Z -> option (list Z)) (ptr : list Z) : option (list Z) :=
  reg ← registers_of ptr;
  reg ← f reg;
  Some (take (Z.to_nat HLL_HEADER_BYTES) ptr ++ reg).

Definition update_dense_register (ptr : list Z) (idx cntlz : Z) : option (list Z * bool) :=
  reg ← registers_of ptr;
  lz ← get_register reg idx;
  if lz <? cntlz then
    ptr ← set_card ptr i64_min;
    ptr ← on_registers (fun reg => set_register reg idx cntlz) ptr;
    Some (ptr, true)
  else Some (ptr, false).

Definition update_dense (ptr : list Z) (hv : Z) : option (list Z * bool) :=
  update_dense_register ptr (reg_idx hv) (clz hv).

(** The body of the loop of [dense_to_dense]. *)
Definition merge_register (src : list Z) (acc : option (list Z * bool)) (idx : Z) : option (list Z * bool) :=
  '(dst, f_updated) ← acc;
  reg ← registers_of src;
  src_lz ← get_register reg idx;
  reg ← registers_of dst;
  dst_lz ← get_register reg idx;
  if dst_lz <? src_lz then
    dst ← on_registers (fun reg => set_register reg idx src_lz) dst;
    Some (dst, true)
  else Some (dst, f_updated).

Definition dense_to_dense (src dst : list Z) : option (list Z * bool) :=
  '(dst, f_updated) ← fold_left (merge_register src) (seqZ 0 (wrap 16 (mcnt self))) (Some (dst, false));
  dst ← set_card dst i64_min;
  Some (dst, f_updated).

(** ** Sparse payloads ([sparse.rs]) *)

Definition set_sparse_rle_size (ptr : list Z) (size : Z) : option (list Z) :=
  write_at HLL_HEADER_BYTES (le_bytes 2 size) ptr.

Definition get_sparse_rle_size (ptr : list Z) : Z :=
  match range HLL_HEADER_BYTES (HLL_HEADER_BYTES + 2) ptr with Some b => le_num b | None => 0 end.

Definition is_zero_range (p : Z) : bool := negb (Z.land p 0x80 =? 0).
Definition zero_range_len (p : Z) : Z := Z.land p 0x7F + 1.
Definition zero_range_set (len : Z) : Z := wrap 8 (Z.lor (len - 1) 0x80).
Definition get_non_zero (p : Z) : Z := Z.land p 0x7F + 1.
Definition set_non_zero (cnt : Z) : Z := wsub 8 cnt 1.

Definition decode_op (op : Z) : bool * Z * Z :=
  if is_zero_range op then (true, zero_range_len op, 0) else (false, 1, get_non_zero op).

Definition decode_sparse_ops (rle : list Z) : list (bool * Z * Z) := map decode_op rle.

Definition sparse_ops (ptr : list Z) : option (list (bool * Z * Z)) :=
  let start := sparse_header_size self in
  let end_ := start + get_sparse_rle_size ptr in
  rle ← range start end_ ptr;
  Some (decode_sparse_ops rle).

Fixpoint valid_ops (ops : list (bool * Z * Z)) (covered_registers : Z) : bool :=
  match ops with
  | [] => covered_registers =? mcnt self
  | (is_zero, clen, non_zero) :: ops' =>
      if negb is_zero && (qbit self + 1 <? non_zero) then false
      else
        let covered_registers := covered_registers + (if is_zero then clen else 1) in
        if mcnt self <? covered_registers then false else valid_ops ops' covered_registers
  end.

Definition is_valid_sparse_stream (ptr : list Z) : option bool :=
  let start := sparse_header_size self in
  let end_ := start + get_sparse_rle_size ptr in
  if zlen ptr <? end_ then Some false
  else rle ← range start end_ ptr; Some (valid_ops (decode_sparse_ops rle) 0).

Definition init_sparse (ptr : list Z) : option (list Z) :=
  ptr ← set_prefix ptr;
  ptr ← set_type ptr Sparse;
  ptr ← set_card ptr i64_min;
  let ranges := sparse_zero_ranges self in
  ptr ← set_sparse_rle_size ptr (wrap 16 ranges);
  let regs_start := HLL_HEADER_BYTES + 2 in
  fill regs_start (regs_start + ranges) 0xFF ptr.

Definition sparse_bytes : Z := sparse_header_size self + sparse_zero_ranges self + SPARSE_MEMORY_SECTOR_SIZE.

Definition sparse_required_bytes (cnt : Z) : Z :=
  let used_bytes := cnt * SPARSE_MAX_BYTES_PER_INSERT in
  let page_count := sat_sub used_bytes 1 / SPARSE_MEMORY_SECTOR_SIZE + 1 in
  page_count * SPARSE_MEMORY_SECTOR_SIZE.

Definition sparse_initial_length (count : Z) : Z :=
  let required_bytes := sparse_required_bytes count in
  if SPARSE_SIZE_MAX_CAP <? sparse_header_size self + required_bytes then dense_bytes self
  else if required_bytes <? sparse_zero_ranges self + SPARSE_MEMORY_SECTOR_SIZE then sparse_bytes
  else sparse_header_size self + required_bytes.

Definition sparse_current_size_in_bytes (ptr : list Z) : Z := sparse_header_size self + get_sparse_rle_size ptr.

Definition sparse_init_current : Z := sparse_header_size self + sparse_zero_ranges self.

Definition sparse_fits (current count alloc : Z) : bool :=
  current + SPARSE_MAX_BYTES_PER_INSERT * count <? alloc.

Definition can_grow_in_place (value : list Z) (value_len count : Z) : bool :=
  sparse_fits (sparse_current_size_in_bytes value) count value_len.

Definition update_grow (count : Z) (value : list Z) : Z :=
  if is_sparse value then
    let sparse_blob_bytes := sparse_current_size_in_bytes value + sparse_required_bytes count in
    if sparse_blob_bytes <? SPARSE_SIZE_MAX_CAP then sparse_blob_bytes else dense_bytes self
  else dense_bytes self.

Definition sparse_count_non_zero (ptr : list Z) : option Z :=
  let start := sparse_header_size self in
  let end_ := Z.min (start + get_sparse_rle_size ptr) (zlen ptr) in
  rle ← range start end_ ptr;
  Some (zlen (List.filter (fun '(is_zero, _, _) => negb is_zero) (decode_sparse_ops rle))).

Definition merge_grow (src_hll dst_hll : list Z) : option Z :=
  let dst_type := get_type dst_hll in
  let src_type := get_type src_hll in
  if (dst_type =? dtype_u8 Sparse) && (src_type =? dtype_u8 Sparse) then
    cnt ← sparse_count_non_zero src_hll;
    let page_bytes := sparse_required_bytes cnt in
    let sparse_blob_bytes := sparse_current_size_in_bytes dst_hll + page_bytes in
    Some (if sparse_blob_bytes <? SPARSE_SIZE_MAX_CAP then sparse_blob_bytes else dense_bytes self)
  else Some (dense_bytes self).

(** The operation code that covers register [idx]: its position, the first
    register it covers, how many, and the code. *)
Fixpoint locate (l : list Z) (idx curr offset : Z) : option (Z * Z * Z * Z) :=
  match l with
  | [] => None
  | op :: l' =>
      let clen := if is_zero_range op then zero_range_len op else 1 in
      if idx <? offset + clen then Some (curr, offset, clen, op)
      else locate l' idx (curr + 1) (offset + clen)
  end.

(** The codes a zero range is replaced with. *)
Definition split_range (idx cntlz offset clen : Z) : list Z :=
  let roffset := offset + clen - 1 in
  (if offset =? idx then [] else [zero_range_set (idx - offset)]) ++
  [set_non_zero cntlz] ++
  (if roffset =? idx then [] else [zero_range_set (roffset - idx)]).

Definition update_sparse_reg (ptr : list Z) (idx cntlz : Z) : option (list Z * bool) :=
  let rle_size := get_sparse_rle_size ptr in
  let header := sparse_header_size self in
  let end_ := header + rle_size in
  '(curr, offset, clen, op) ← locate (slice_from header ptr) idx header 0;
  let next := curr + 1 in
  if negb (is_zero_range op) then
    let lz := get_non_zero op in
    if cntlz <=? lz then Some (ptr, false)
    else
      ptr ← write_at curr [set_non_zero cntlz] ptr;
      ptr ← set_card ptr i64_min;
      Some (ptr, true)
  else
    let buf := split_range idx cntlz offset clen in
    let blen := zlen buf in
    let suffixlen := wadd 64 (wsub 64 end_ next) 1 in
    ptr ← copy_within next (next + suffixlen) (next + blen - 1) ptr;
    ptr ← write_at curr buf ptr;
    ptr ← set_sparse_rle_size ptr (wrap 16 (rle_size + blen - 1));
    ptr ← set_card ptr i64_min;
    Some (ptr, true).

Definition update_sparse (ptr : list Z) (hv : Z) : option (list Z * bool) :=
  '(ptr, f_updated) ← update_sparse_reg ptr (reg_idx hv) (clz hv);
  if f_updated : bool then ptr ← set_card ptr i64_min; Some (ptr, true) else Some (ptr, false).

(** The loops of [sparse_to_dense] and [sparse_to_sparse], with the update of a
    register of the destination. *)
Fixpoint apply_ops (update : list Z -> Z -> Z -> option (list Z * bool)) (ops : list (bool * Z * Z))
    (offset : Z) (dst : list Z) (f_updated : bool) : option (list Z * bool) :=
  match ops with
  | [] => Some (dst, f_updated)
  | (is_zero, clen, lz) :: ops' =>
      '(dst, f_updated) ←
        (if negb is_zero
         then '(dst, u) ← update dst (wrap 16 offset) lz; Some (dst, f_updated || u)
         else Some (dst, f_updated));
      apply_ops update ops' (offset + clen) dst f_updated
  end.

Definition sparse_to_dense (src dst : list Z) : option (list Z * bool) :=
  ops ← sparse_ops src; apply_ops update_dense_register ops 0 dst false.

Definition sparse_to_sparse (src dst : list Z) : option (list Z * bool) :=
  ops ← sparse_ops src; apply_ops update_sparse_reg ops 0 dst false.

Definition is_valid_hll_length (ptr : list Z) (length : Z) : option bool :=
  if is_dense ptr then Some (length =? dense_bytes self)
  else if negb (is_sparse ptr) then Some false
  else if negb ((sparse_initial_length 1 <=? length) && (length <=? SPARSE_SIZE_MAX_CAP)) then Some false
  else
    let sparse_payload_bytes := length - sparse_header_size self in
    if get_sparse_rle_size ptr <=? sparse_payload_bytes then is_valid_sparse_stream ptr else Some false.

Definition is_valid_hyll_len (ptr : list Z) (length : Z) : option bool :=
  match range 0 length ptr with
  | None => Some false
  | Some s => if is_hyll s then is_valid_hll_length s length else Some false
  end.

Definition is_valid_hyll (ptr : list Z) : option bool := is_valid_hyll_len ptr (zlen ptr).

(** ** Elements and merging ([lib.rs], [merge.rs]) *)

Fixpoint iterate (update : list Z -> Z -> option (list Z * bool)) (elements : list (list Z))
    (value : list Z) (updated : bool) : option (list Z * bool) :=
  match elements with
  | [] => Some (value, updated)
  | element :: rest =>
      let hash_value := murmur_hash_2_x64_a element in
      '(value, u) ← update value hash_value;
      iterate update rest value (updated || u)
  end.

Definition iterate_update (elements : list (list Z)) (value : list Z) (dense : bool) : option (list Z * bool) :=
  if dense then iterate update_dense elements value false else iterate update_sparse elements value false.

Definition init (elements : list (list Z)) (value : list Z) : option (list Z) :=
  let dense := zlen value =? dense_bytes self in
  value ← (if dense then init_dense value else init_sparse value);
  '(value, _) ← iterate_update elements value dense;
  Some value.

(** The payload, whether it could be updated in place, and [updated]. *)
Definition update (elements : list (list Z)) (value : list Z) : option (list Z * bool * bool) :=
  if is_dense value then '(value, updated) ← iterate_update elements value true; Some (value, true, updated)
  else if is_sparse value then
    if can_grow_in_place value (zlen value) (zlen elements)
    then '(value, updated) ← iterate_update elements value false; Some (value, true, updated)
    else Some (value, false, false)
  else Some (value, false, false).

Definition merge (src dst : list Z) : option (list Z * bool) :=
  let dtype_src := get_type src in
  let dtype_dst := get_type dst in
  if dtype_dst =? dtype_u8 Dense then
    if dtype_src =? dtype_u8 Sparse then sparse_to_dense src dst else dense_to_dense src dst
  else if (dtype_src =? dtype_u8 Sparse) && (dtype_dst =? dtype_u8 Sparse) then sparse_to_sparse src dst
  else Some (dst, false).

Definition try_merge (src dst : list Z) (dst_len : Z) : option (list Z * bool) :=
  if get_type dst =? dtype_u8 Dense then
    '(dst, _) ← merge src dst; dst ← set_card dst i64_min; Some (dst, true)
  else if get_type src =? dtype_u8 Sparse then
    cnt ← sparse_count_non_zero src;
    if sparse_fits (sparse_current_size_in_bytes dst) cnt dst_len then
      '(dst, _) ← merge src dst; dst ← set_card dst i64_min; Some (dst, true)
    else Some (dst, false)
  else Some (dst, false).

Definition copy_update_merge (src_hll old_dst new_dst : list Z) (old_value_len new_value_len : Z)
  : option (list Z) :=
  new_dst ←
    (if old_value_len =? new_value_len then
       old ← range 0 old_value_len old_dst; write_at 0 old new_dst
     else
       new_dst ← (if new_value_len =? dense_bytes self then init_dense new_dst else init_sparse new_dst);
       '(new_dst, _) ← merge old_dst new_dst;
       Some new_dst);
  '(new_dst, _) ← merge src_hll new_dst;
  set_card new_dst i64_min.

Definition copy_update (elements : list (list Z)) (old_value new_value : list Z) : option (list Z * bool) :=
  if is_sparse old_value then
    if zlen new_value =? dense_bytes self then
      new_value ← init_dense new_value;
      '(new_value, u1) ← sparse_to_dense old_value new_value;
      '(new_value, u2) ← iterate_update elements new_value true;
      Some (new_value, u1 || u2)
    else
      new_value ← init_sparse new_value;
      let sparse_blob_bytes := sparse_current_size_in_bytes old_value in
      old ← range 0 sparse_blob_bytes old_value;
      new_value ← write_at 0 old new_value;
      iterate_update elements new_value false
  else Some (new_value, false).

(** ** Counting ([estimate.rs]) *)

(** [rhisto[i] += n]. *)
Definition bump (i n : Z) (rhisto : list Z) : option (list Z) :=
  old ← rhisto !! Z.to_nat i; Some (<[Z.to_nat i := old + n]> rhisto).

Definition sparse_histogram (ptr : list Z) : option (list Z) :=
  ops ← sparse_ops ptr;
  fold_left (fun acc '(is_zero, clen, lz) => rhisto ← acc; bump (if is_zero : bool then 0 else lz) clen rhisto) ops
    (Some (replicate 64 0)).

(** The four registers in three bytes. *)
Definition unpack (chunk : list Z) : list Z :=
  match chunk with
  | [b0; b1; b2] =>
      [Z.land b0 63;
       Z.land (Z.lor (Z.shiftr b0 6) (wrap 8 (Z.shiftl b1 2))) 63;
       Z.land (Z.lor (Z.shiftr b1 4) (wrap 8 (Z.shiftl b2 4))) 63;
       Z.land (Z.shiftr b2 2) 63]
  | _ => []
  end.

Definition dense_histogram (ptr : list Z) : option (list Z) :=
  regs ← registers_of ptr;
  let total_bytes := Z.shiftr (mcnt self * 6) 3 in
  regs ← range 0 total_bytes regs;
  fold_left (fun acc v => rhisto ← acc; bump v 1 rhisto)
    (flat_map unpack (fst (Hasher.as_chunks 3 regs))) (Some (replicate 64 0)).

(** The estimate of a histogram is floating-point arithmetic. *)
Variable nc_estimator_from_histogram : list Z -> Z.

Definition count_sparse_nc_estimator (ptr : list Z) : option Z := nc_estimator_from_histogram <$> sparse_histogram ptr.
Definition count_dense_nc_estimator (ptr : list Z) : option Z := nc_estimator_from_histogram <$> dense_histogram ptr.

Definition count (ptr : list Z) : option (list Z * Z) :=
  let dtype := get_type ptr in
  if is_valid_card ptr then Some (ptr, get_card ptr)
  else
    e ← (match dtype_try_from dtype with
         | Some Sparse => count_sparse_nc_estimator ptr
         | Some Dense => count_dense_nc_estimator ptr
         | None => Some i64_min
         end);
    if negb (e =? i64_min) then ptr ← set_card ptr e; Some (ptr, e) else Some (ptr, e).

End Self.
End HyperLog.

(** ** Payload functions of the commands *)
Module Kernel.
Import HyperLog.

Section Self.

Variable hll : HyperLogLog.

Definition valid_hyll_payload (ptr : list Z) : option (option (list Z)) :=
  ok ← is_valid_hyll hll ptr; Some (if ok : bool then Some ptr else None).

(** [vec![0_u8; len]]. *)
Definition zeroed (len : Z) : list Z := replicate (Z.to_nat len) 0.

(** The loop that looks for a length with enough room; [fuel] bounds its steps. *)
Fixpoint probe_len (fuel : nat) (current n len : Z) : option Z :=
  if sparse_fits current n len then Some len
  else
    match fuel with
    | O => None
    | S fuel' =>
        let len := len + SPARSE_MEMORY_SECTOR_SIZE in
        if SPARSE_SIZE_MAX_CAP <? len then Some (dense_bytes hll) else probe_len fuel' current n len
    end.

Definition PROBE_FUEL : nat := 33.

Definition init_len (n : Z) : option Z :=
  let len := sparse_initial_length hll n in
  if len =? dense_bytes hll then Some len else probe_len PROBE_FUEL (sparse_init_current hll) n len.

Definition hll_init_payload (elements : list (list Z)) : option (list Z) :=
  len ← init_len (zlen elements);
  init hll elements (zeroed len).

Definition hll_sparse_seed : option (list Z) := init_sparse hll (zeroed (sparse_bytes hll)).

Definition add_len (blob : list Z) (n : Z) : Z :=
  let new_len := update_grow hll n blob in
  if negb (new_len =? dense_bytes hll) && negb (sparse_fits (sparse_current_size_in_bytes hll blob) n new_len)
  then dense_bytes hll else new_len.

(** The inner [option] is the source's: [None] when no register changed. *)
Definition hll_add_payload (blob : list Z) (elements : list (list Z)) : option (option (list Z)) :=
  '(blob, in_place, updated) ← update hll elements blob;
  if is_dense blob || in_place then Some (if updated : bool then Some blob else None)
  else
    '(grown, updated) ← copy_update hll elements blob (zeroed (add_len blob (zlen elements)));
    Some (if updated : bool then Some grown else None).

Definition merge_len (dst src : list Z) : option Z :=
  new_len ← merge_grow hll src dst;
  if new_len =? dense_bytes hll then Some new_len
  else
    cnt ← sparse_count_non_zero hll src;
    Some (if sparse_fits (sparse_current_size_in_bytes hll dst) cnt new_len then new_len else dense_bytes hll).

Definition hll_merge_payload (dst src : list Z) : option (list Z) :=
  new_len ← merge_len dst src;
  if negb (new_len =? zlen dst) then copy_update_merge hll src dst (zeroed new_len) (zlen dst) new_len
  else
    '(dst, _) ← merge hll src dst;
    set_card dst i64_min.

Definition hll_union_seed (raw : list Z) : option (list Z) :=
  if is_dense raw then Some raw
  else
    seed ← init_dense hll (zeroed (dense_bytes hll));
    '(seed, _) ← sparse_to_dense hll raw seed;
    Some seed.

Definition hll_union_absorb (acc : option (list Z)) (raw : list Z) : option (option (list Z)) :=
  match acc with
  | None => seed ← hll_union_seed raw; Some (Some seed)
  | Some dst => '(dst, _) ← try_merge hll raw dst (dense_bytes hll); Some (Some dst)
  end.

End Self.
End Kernel.

(** ** The commands

    What the commands need of the store ([read_user_sync] of
    [wnode/src/storage/session/common/user_read.rs], [try_rmw_window] and
    [try_rmw_sync] of [wkv]) is an interface. *)

Inductive UserRead : Type := Hit (v : list Z) | Missing | WrongType | Deferred.

Inductive HllStore : Type := Written | Degrade | IoError.

Class Backend (S : Type) := {
  read_user_sync : S -> list Z -> UserRead + unit;
  try_rmw_window : S -> list Z -> bool;
  try_rmw_sync : S -> list Z -> list Z -> S * HllStore
}.

Module Commands.
Import HyperLog Kernel.

Inductive HllLoad : Type := LPresent (raw : list Z) | LMissing | LDegrade.

(** The frame a command writes, or none when it is left to the slow path. *)
Inductive Reply : Type :=
| NotHandled
| RespOk
| RespInt (n : Z)
| RespWrongTypeHll
| RespGeneric
| RespWrongArgs.

Section Store.

Context {S : Type} `{Backend S}.

(** The estimate of a histogram of registers. *)
Variable nc_estimator_from_histogram : list Z -> Z.

Let hll := HyperLog.new.

Definition load_hll (store : S) (key : list Z) : option (HllLoad + unit) :=
  match read_user_sync store key with
  | inl (Hit v) =>
      p ← valid_hyll_payload hll v;
      Some (match p with Some raw => inl (LPresent raw) | None => inr tt end)
  | inl WrongType => Some (inr tt)
  | inl Missing => Some (inl LMissing)
  | inl Deferred => Some (inl LDegrade)
  | inr _ => Some (inr tt)
  end.

(** [store_hll_or_bail!] and the reply when the payload was written. *)
Definition store_hll (store : S) (key blob : list Z) (reply : Reply) : S * Reply :=
  match try_rmw_sync store key blob with
  | (store, Written) => (store, reply)
  | (store, Degrade) => (store, NotHandled)
  | (store, IoError) => (store, RespGeneric)
  end.

Definition hyper_log_log_add (store : S) (parse_state : list (list Z)) : option (S * Reply) :=
  match parse_state with
  | [] => Some (store, RespWrongArgs)
  | [_] => Some (store, RespInt 0)
  | key :: elements =>
      if negb (try_rmw_window store key) then Some (store, NotHandled)
      else
        l ← load_hll store key;
        match l with
        | inl LMissing => blob ← hll_init_payload hll elements; Some (store_hll store key blob (RespInt 1))
        | inl (LPresent raw) =>
            r ← hll_add_payload hll raw elements;
            Some (match r with
                  | Some blob => store_hll store key blob (RespInt 1)
                  | None => (store, RespInt 0)
                  end)
        | inl LDegrade => Some (store, NotHandled)
        | inr _ => Some (store, RespWrongTypeHll)
        end
  end.

(** The loop over the keys of a count: an early reply, or the union. *)
Fixpoint count_loop (store : S) (keys : list (list Z)) (acc : option (list Z)) : option (Reply + option (list Z)) :=
  match keys with
  | [] => Some (inr acc)
  | key :: keys' =>
      l ← load_hll store key;
      match l with
      | inl (LPresent raw) => acc ← hll_union_absorb hll acc raw; count_loop store keys' acc
      | inl LMissing => count_loop store keys' acc
      | inl LDegrade => Some (inl NotHandled)
      | inr _ => Some (inl RespWrongTypeHll)
      end
  end.

Definition hyper_log_log_length (store : S) (parse_state : list (list Z)) : option Reply :=
  match parse_state with
  | [] => Some RespWrongArgs
  | [key] =>
      l ← load_hll store key;
      match l with
      | inl (LPresent raw) => '(_, card) ← count hll nc_estimator_from_histogram raw; Some (RespInt card)
      | inl LMissing => Some (RespInt 0)
      | inl LDegrade => Some NotHandled
      | inr _ => Some RespWrongTypeHll
      end
  | _ =>
      r ← count_loop store parse_state None;
      match r with
      | inl reply => Some reply
      | inr None => Some (RespInt 0)
      | inr (Some a) => '(_, card) ← count hll nc_estimator_from_histogram a; Some (RespInt card)
      end
  end.

(** The loop over the sources of a merge. *)
Fixpoint merge_loop (store : S) (dest : list Z) (sources : list (list Z)) (dst : list Z) (merged : bool)
  : option (S * Reply) :=
  match sources with
  | [] => Some (if merged then store_hll store dest dst RespOk else (store, RespOk))
  | src_key :: sources' =>
      l ← load_hll store src_key;
      match l with
      | inr _ => Some (if merged then store_hll store dest dst RespWrongTypeHll else (store, RespWrongTypeHll))
      | inl (LPresent src) => dst ← hll_merge_payload hll dst src; merge_loop store dest sources' dst true
      | inl LMissing => merge_loop store dest sources' dst merged
      | inl LDegrade => Some (store, NotHandled)
      end
  end.

Definition hyper_log_log_merge (store : S) (parse_state : list (list Z)) : option (S * Reply) :=
  match parse_state with
  | [] => Some (store, RespWrongArgs)
  | [_] => Some (store, RespOk)
  | dest :: sources =>
      if negb (try_rmw_window store dest) then Some (store, NotHandled)
      else
        l ← load_hll store dest;
        match l with
        | inl (LPresent raw) => merge_loop store dest sources raw false
        | inl LMissing => dst ← hll_sparse_seed hll; merge_loop store dest sources dst false
        | inl LDegrade => Some (store, NotHandled)
        | inr _ => Some (store, RespWrongTypeHll)
        end
  end.

End Store.
End Commands.
