(* ===== verification/HyperLogRegs.v ===== *)
(** * Dense HyperLogLog registers

    The packed six-bit registers of a dense payload as a list of numbers: reading
    and writing a register, and the histogram the estimate is computed from. *)

From stdpp Require Import base list numbers option tactics.
From Stdlib Require Import ZArith Lia Bool.
From S2P Require Import Prelude Bytes Hasher HyperLog.

Module Regs.
Import Murmur HyperLog.

(** ** Slices of a list in parts *)

Lemma range_mid a m b i j : i = zlen a -> j = i + zlen m -> range i j (a ++ m ++ b) = Some m.
Proof.
  intros -> ->. unfold range. rewrite !zlen_app.
  pose proof (zlen_nonneg a). pose proof (zlen_nonneg m). pose proof (zlen_nonneg b).
  destruct (Z.leb_spec (zlen a) (zlen a + zlen m)); [|lia].
  destruct (Z.leb_spec (zlen a + zlen m) (zlen a + (zlen m + zlen b))); [|lia]. cbn [andb].
  unfold slice. f_equal. replace (zlen a + zlen m - zlen a) with (zlen m) by lia. unfold zlen.
  by rewrite !Nat2Z.id, drop_app_length, take_app_length.
Qed.

Lemma write_mid a old bs b i : i = zlen a -> zlen old = zlen bs ->
  write_at i bs (a ++ old ++ b) = Some (a ++ bs ++ b).
Proof.
  intros -> Hlen. unfold write_at. rewrite !zlen_app. pose proof (zlen_nonneg b).
  destruct (Z.leb_spec (zlen a + zlen bs) (zlen a + (zlen old + zlen b))); [|lia].
  f_equal. unfold splice. unfold zlen in *. rewrite Nat2Z.id, take_app_length. f_equal. f_equal.
  rewrite app_assoc, drop_app_length'; [done|]. rewrite length_app. lia.
Qed.

Lemma zlen_replicate {A} n (x : A) : zlen (replicate n x) = Z.of_nat n.
Proof. unfold zlen. by rewrite length_replicate. Qed.

Lemma zlen_le_bytes n x : zlen (le_bytes n x) = Z.of_nat n.
Proof. unfold zlen. by rewrite length_le_bytes. Qed.

(** ** Bits of a byte string *)

Definition byte (l : list Z) (i : Z) : Z := if i <? 0 then 0 else default 0 (l !! Z.to_nat i).

Definition bit (l : list Z) (j : Z) : bool := Z.testbit (byte l (j / 8)) (j mod 8).

Lemma byte_fits l i : bytes_ok l -> fits 8 (byte l i).
Proof.
  intros Hl. unfold byte. destruct (i <? 0); [unfold fits; lia|].
  destruct (l !! Z.to_nat i) as [x|] eqn:E; [|unfold fits; cbn; lia]. by eapply Forall_lookup_1 in Hl.
Qed.

Lemma byte_lookup l i : 0 <= i < zlen l -> l !! Z.to_nat i = Some (byte l i).
Proof.
  intros Hi. unfold byte, zlen in *. destruct (Z.ltb_spec i 0); [lia|].
  destruct (lookup_lt_is_Some_2 l (Z.to_nat i)) as [x ->]; [lia|done].
Qed.

Lemma byte_default l i : 0 <= i -> default 0 (l !! Z.to_nat i) = byte l i.
Proof. intros Hi. unfold byte. by destruct (Z.ltb_spec i 0); [lia|]. Qed.

Lemma byte_insert l i j x : 0 <= i < zlen l -> 0 <= j ->
  byte (<[Z.to_nat i := x]> l) j = if j =? i then x else byte l j.
Proof.
  intros Hi Hj. unfold byte, zlen in *. destruct (Z.ltb_spec j 0); [lia|].
  destruct (Z.eqb_spec j i) as [->|Hne].
  - by rewrite list_lookup_insert_eq by lia.
  - by rewrite list_lookup_insert_ne by lia.
Qed.

(** A register starts at an even bit of its first byte. *)
Lemma register_place i : 0 <= i ->
  let m := i * REG_BITS in
  Z.shiftr m 3 = m / 8 /\ Z.land m 0x7 = m mod 8 /\ 0 <= m mod 8 <= 6 /\ 0 <= m / 8 /\ m = 8 * (m / 8) + m mod 8.
Proof.
  intros Hi m. subst m. unfold REG_BITS.
  rewrite Z.shiftr_div_pow2 by lia. change 0x7 with (Z.ones 3). rewrite Z.land_ones by lia.
  change (2 ^ 3) with 8. pose proof (Z.div_mod (i * 6) 8 ltac:(lia)). pose proof (Z.mod_pos_bound (i * 6) 8 ltac:(lia)).
  split_and!; try done; lia.
Qed.

(** The bits from [j] to [j + 8] are in two bytes. *)
Lemma bit_place l i k lsb b0 : 0 <= b0 -> 0 <= lsb <= 6 -> i = 8 * b0 + lsb -> 0 <= k < 8 -> bytes_ok l ->
  bit l (i + k) = Z.testbit (byte l b0) (k + lsb) || Z.testbit (byte l (b0 + 1)) (k + lsb - 8).
Proof.
  intros Hb Hl -> Hk Hok. unfold bit. destruct (Z.lt_ge_cases (k + lsb) 8).
  - replace (8 * b0 + lsb + k) with ((k + lsb) + b0 * 8) by lia.
    rewrite Z.div_add, Z.mod_add, Z.div_small, Z.mod_small, Z.add_0_l by lia.
    by rewrite (Z.testbit_neg_r _ (k + lsb - 8)), orb_false_r by lia.
  - replace (8 * b0 + lsb + k) with ((k + lsb - 8) + (b0 + 1) * 8) by lia.
    rewrite Z.div_add, Z.mod_add, Z.div_small, Z.mod_small, Z.add_0_l by lia.
    by rewrite (fits_high 8 (byte l b0)) by (lia || by apply byte_fits).
Qed.

(** ** Reading and writing *)

Lemma get_register_bits reg i : bytes_ok reg -> 0 <= i -> i * 6 < 8 * zlen reg -> exists v,
  get_register reg i = Some v /\ fits 6 v /\ forall k, 0 <= k < 6 -> Z.testbit v k = bit reg (i * 6 + k).
Proof.
  intros Hok Hi Hlen. destruct (register_place i Hi) as (E1 & E2 & Hl & Hb & Em). unfold REG_BITS in *.
  unfold get_register, REG_BITS. rewrite E1, E2.
  rewrite (byte_lookup reg (i * 6 / 8)) by lia.
  rewrite byte_default by lia. cbn [mbind option_bind]. eexists. split; [done|].
  change REG_BITS_MSK with (Z.ones 6). split; [apply fits_land_r; [lia|by apply fits_ones]|].
  intros k Hk. rewrite (bit_place reg (i * 6) k (i * 6 mod 8) (i * 6 / 8)) by (done || lia).
  bit_push. destruct (Z.ltb_spec k 6), (Z.ltb_spec k 8), (Z.ltb_spec k 16); try lia. bit_bool.
  f_equal. f_equal. lia.
Qed.

(** What the two bytes of a register become. *)
Definition first_byte (x lsb v : Z) : Z :=
  Z.lor (Z.land x (bnot 8 (wrap 8 (wrap 16 (Z.shiftl REG_BITS_MSK lsb))))) (wrap 8 (wrap 16 (Z.shiftl v lsb))).
Definition second_byte (x msb v : Z) : Z :=
  Z.lor (Z.land x (bnot 8 (wrap 8 (Z.shiftr REG_BITS_MSK msb)))) (wrap 8 (Z.shiftr v msb)).

Lemma first_byte_bits x lsb v r : fits 8 x -> fits 6 v -> 0 <= lsb <= 6 -> 0 <= r < 8 ->
  Z.testbit (first_byte x lsb v) r = if (lsb <=? r) && (r <? lsb + 6) then Z.testbit v (r - lsb) else Z.testbit x r.
Proof.
  intros Hx Hv Hl Hr. unfold first_byte. change REG_BITS_MSK with (Z.ones 6).
  destruct (Z.leb_spec lsb r), (Z.ltb_spec r (lsb + 6)); cbn [andb]; try lia.
  all: repeat (bit_push; first [bit_split|bit_sign]; simpl negb; bit_bool; try lia).
  all: bit_push; repeat (bit_kill; bit_bool); cbn [negb]; bit_bool; done.
Qed.

Lemma second_byte_bits x msb v r : fits 8 x -> fits 6 v -> 2 <= msb <= 8 -> 0 <= r < 8 ->
  Z.testbit (second_byte x msb v) r = if r + msb <? 6 then Z.testbit v (r + msb) else Z.testbit x r.
Proof.
  intros Hx Hv Hl Hr. unfold second_byte. change REG_BITS_MSK with (Z.ones 6). bit_push.
  destruct (Z.ltb_spec (r + msb) 6), (Z.ltb_spec r 8); try lia; cbn [negb]; bit_bool; [done|].
  rewrite (fits_high 6 v) by (done || lia). by bit_bool.
Qed.

Lemma first_byte_fits x lsb v : fits 8 x -> fits 8 (first_byte x lsb v).
Proof. intros. apply fits_lor; [lia|by apply fits_land_l; [lia|]|apply wrap_fits; lia]. Qed.

Lemma second_byte_fits x msb v : fits 8 x -> fits 8 (second_byte x msb v).
Proof. intros. apply fits_lor; [lia|by apply fits_land_l; [lia|]|apply wrap_fits; lia]. Qed.

Lemma set_register_bytes reg i v : bytes_ok reg -> 0 <= i -> i * 6 + 6 <= 8 * zlen reg -> fits 6 v ->
  let b0 := i * 6 / 8 in let lsb := i * 6 mod 8 in
  exists reg', set_register reg i v = Some reg' /\ bytes_ok reg' /\ zlen reg' = zlen reg /\
    forall j, 0 <= j -> byte reg' j = if j =? b0 then first_byte (byte reg b0) lsb v
      else if j =? b0 + 1 then second_byte (byte reg (b0 + 1)) (8 - lsb) v else byte reg j.
Proof.
  intros Hok Hi Hlen Hv b0 lsb. destruct (register_place i Hi) as (E1 & E2 & Hl & Hb & Em).
  unfold set_register. unfold REG_BITS in *. rewrite E1, E2. fold b0 lsb in Hl, Hb, Em |- *.
  rewrite byte_lookup by lia. cbn [mbind option_bind]. fold (first_byte (byte reg b0) lsb v).
  set (reg1 := <[Z.to_nat b0 := first_byte (byte reg b0) lsb v]> reg).
  assert (Hok1 : bytes_ok reg1) by (apply Forall_insert; [done|by apply first_byte_fits, byte_fits]).
  assert (Hlen1 : zlen reg1 = zlen reg) by (unfold reg1, zlen; by rewrite length_insert).
  assert (E1' : forall j, 0 <= j -> byte reg1 j = if j =? b0 then first_byte (byte reg b0) lsb v else byte reg j).
  { intros j Hj. apply byte_insert; lia. }
  destruct (Z.lt_ge_cases (b0 + 1) (zlen reg)) as [Hn|Hn].
  - rewrite byte_lookup, E1' by lia. destruct (Z.eqb_spec (b0 + 1) b0); [lia|].
    fold (second_byte (byte reg (b0 + 1)) (8 - lsb) v). eexists. split; [done|]. split_and!.
    + apply Forall_insert; [done|by apply second_byte_fits, byte_fits].
    + unfold zlen in *. by rewrite length_insert.
    + intros j Hj. rewrite byte_insert, E1' by lia. destruct (Z.eqb_spec j (b0 + 1)), (Z.eqb_spec j b0); done || lia.
  - rewrite lookup_ge_None_2 by (unfold zlen in *; lia). eexists. split; [done|]. split_and!; [done..|].
    intros j Hj. rewrite E1' by done. destruct (Z.eqb_spec j b0); [done|].
    destruct (Z.eqb_spec j (b0 + 1)) as [->|]; [|done].
    assert (E0 : byte reg (b0 + 1) = 0).
    { unfold byte. destruct (Z.ltb_spec (b0 + 1) 0); [done|]. rewrite lookup_ge_None_2 by (unfold zlen in *; lia). done. }
    rewrite E0. symmetry. apply Z.bits_inj'. intros r Hr. destruct (Z.lt_ge_cases r 8).
    + rewrite second_byte_bits by (done || unfold fits; lia). destruct (Z.ltb_spec (r + (8 - lsb)) 6); [lia|done].
    + rewrite (fits_high 8 (second_byte _ _ _)); [by rewrite Z.testbit_0_l|apply second_byte_fits; unfold fits; lia|lia].
Qed.

Lemma set_register_bits reg i v : bytes_ok reg -> 0 <= i -> i * 6 + 6 <= 8 * zlen reg -> fits 6 v -> exists reg',
  set_register reg i v = Some reg' /\ bytes_ok reg' /\ zlen reg' = zlen reg /\
  forall j, 0 <= j -> bit reg' j = if (i * 6 <=? j) && (j <? i * 6 + 6) then Z.testbit v (j - i * 6) else bit reg j.
Proof.
  intros Hok Hi Hlen Hv. destruct (set_register_bytes reg i v Hok Hi Hlen Hv) as (reg' & E & Hok' & Hlen' & Eb).
  exists reg'. split_and!; [done..|]. destruct (register_place i Hi) as (_ & _ & Hl & Hb & Em). unfold REG_BITS in *.
  set (b0 := i * 6 / 8) in *. set (lsb := i * 6 mod 8) in *. clearbody b0 lsb.
  intros j Hj. unfold bit. pose proof (Z.div_mod j 8 ltac:(lia)) as Ej. pose proof (Z.mod_pos_bound j 8 ltac:(lia)) as Hr.
  assert (Hq : 0 <= j / 8) by lia. rewrite Eb by done. rewrite Em.
  set (q := j / 8) in *. set (r := j mod 8) in *. clearbody q r. subst j.
  destruct (Z.eqb_spec q b0) as [->|]; [|destruct (Z.eqb_spec q (b0 + 1)) as [->|]].
  - rewrite first_byte_bits by (done || by apply byte_fits).
    repeat (bit_split; try lia); cbn [andb]; done || (f_equal; lia).
  - rewrite second_byte_bits by (done || lia || by apply byte_fits).
    repeat (bit_split; try lia); cbn [andb]; done || (f_equal; lia).
  - repeat (bit_split; try lia); done.
Qed.

(** Writing a register changes that register and no other. *)
Lemma get_set_register reg i v : bytes_ok reg -> 0 <= i -> i * 6 + 6 <= 8 * zlen reg -> fits 6 v -> exists reg',
  set_register reg i v = Some reg' /\ bytes_ok reg' /\ zlen reg' = zlen reg /\
  forall k, 0 <= k -> k * 6 < 8 * zlen reg -> get_register reg' k = if k =? i then Some v else get_register reg k.
Proof.
  intros Hok Hi Hlen Hv. destruct (set_register_bits reg i v Hok Hi Hlen Hv) as (reg' & E & Hok' & Hlen' & Eb).
  exists reg'. split_and!; [done..|]. intros k Hk Hlk.
  destruct (get_register_bits reg' k Hok' Hk) as (w & Ew & Hw & Bw); [lia|]. rewrite Ew.
  destruct (Z.eqb_spec k i) as [->|Hne].
  - f_equal. apply Z.bits_inj'. intros j Hj. destruct (Z.lt_ge_cases j 6).
    + rewrite Bw, Eb by lia. repeat (bit_split; try lia). cbn [andb]. f_equal. lia.
    + by rewrite !(fits_high 6) by (done || lia).
  - destruct (get_register_bits reg k Hok Hk) as (x & Ex & Hx & Bx); [lia|]. rewrite Ex. f_equal.
    apply Z.bits_inj'. intros j Hj. destruct (Z.lt_ge_cases j 6).
    + rewrite Bw, Bx, Eb by lia. repeat (bit_split; try lia); done.
    + by rewrite !(fits_high 6) by (done || lia).
Qed.

(** ** Headers *)

Definition no_card : list Z := le_bytes 8 (of_i64 i64_min).

(** The first eight bytes of a payload of a type. *)
Definition Prefix (pre : list Z) (d : HllDtype) : Prop :=
  zlen pre = 8 /\ pre !! 3%nat = Some (dtype_u8 d) /\ slice 4 8 pre = le_bytes 4 HYLL_MAGIC.

Lemma prefix_new d : exists pre, Prefix pre d /\ bytes_ok pre /\
  forall old rest, zlen old = 8 -> (ptr ← set_prefix (old ++ rest); set_type ptr d) = Some (pre ++ rest).
Proof.
  exists (splice 3 [dtype_u8 d] (le_bytes 8 0x48594C4C00000000)). split_and!.
  - by destruct d.
  - destruct d; repeat constructor; vm_compute; discriminate || done.
  - intros old rest Hold. unfold set_prefix.
    pose proof (write_mid [] old (le_bytes 8 0x48594C4C00000000) rest 0 eq_refl Hold) as E. cbn [app] in E.
    rewrite E. cbn [mbind option_bind].
    unfold set_type, write_at. rewrite zlen_app. change (zlen (le_bytes 8 _)) with 8. change (zlen [dtype_u8 d]) with 1.
    pose proof (zlen_nonneg rest). destruct (Z.leb_spec (3 + 1) (8 + zlen rest)); [|lia]. done.
Qed.

Section Header.

Context (pre card rest : list Z) (d : HllDtype).
Hypothesis Hpre : Prefix pre d.
Hypothesis Hcard : zlen card = 8.

Lemma get_type_header : get_type (pre ++ card ++ rest) = dtype_u8 d.
Proof. destruct Hpre as (_ & E & _). unfold get_type. erewrite lookup_app_l_Some; done. Qed.

Lemma is_hyll_header : is_hyll (pre ++ card ++ rest) = true.
Proof.
  destruct Hpre as (Hl & _ & E). unfold is_hyll, range. rewrite !zlen_app, Hl, Hcard.
  pose proof (zlen_nonneg rest). destruct (Z.leb_spec 8 (8 + (8 + zlen rest))); [|lia]. cbn [andb Z.leb Z.compare Pos.compare Pos.compare_cont].
  apply bytes_eqb_eq. rewrite <- E. unfold slice, zlen in *. rewrite drop_app_le, take_app_le; [done|rewrite length_drop|]; lia.
Qed.

Lemma set_card_header c : set_card (pre ++ card ++ rest) c = Some (pre ++ le_bytes 8 (of_i64 c) ++ rest).
Proof. destruct Hpre as (Hl & _). apply write_mid; [done|]. by rewrite zlen_le_bytes. Qed.

Lemma registers_header : registers_of (pre ++ card ++ rest) = Some rest.
Proof.
  destruct Hpre as (Hl & _). unfold registers_of.
  pose proof (range_mid (pre ++ card) rest [] HLL_HEADER_BYTES (zlen (pre ++ card ++ rest))) as E.
  rewrite app_nil_r, <- app_assoc in E. apply E; rewrite !zlen_app, Hl, Hcard; [done|]. unfold HLL_HEADER_BYTES. lia.
Qed.

Lemma on_registers_header f :
  on_registers f (pre ++ card ++ rest) = rest' ← f rest; Some (pre ++ card ++ rest').
Proof.
  destruct Hpre as (Hl & _). unfold on_registers. rewrite registers_header. cbn [mbind option_bind].
  destruct (f rest) as [rest'|]; [|done]. cbn. f_equal.
  rewrite (app_assoc pre), take_app_length'; [by rewrite app_assoc|]. unfold zlen in *. rewrite length_app. unfold HLL_HEADER_BYTES. lia.
Qed.

End Header.

Lemma get_card_header pre c rest : zlen pre = 8 -> i64_min <= c <= i64_max ->
  get_card (pre ++ le_bytes 8 (of_i64 c) ++ rest) = c.
Proof.
  intros Hl Hc. unfold get_card. rewrite !zlen_app, Hl, zlen_le_bytes. pose proof (zlen_nonneg rest).
  destruct (Z.leb_spec 16 (8 + (Z.of_nat 8 + zlen rest))); [|lia].
  replace (slice 8 16 (pre ++ le_bytes 8 (of_i64 c) ++ rest)) with (le_bytes 8 (of_i64 c)).
  - rewrite le_num_le_bytes, Z.mod_small, to_of_i64; [done..|]. apply (wrap_fits 64). lia.
  - unfold slice, zlen in *. rewrite drop_app_length' by lia. rewrite take_app_length'; [done|]. by rewrite length_le_bytes.
Qed.

(** ** Registers as a list *)

(** What the parameters of an instance satisfy. *)
Record Shape (h : HyperLogLog) : Prop := {
  shape_mcnt : exists k, 0 < k /\ mcnt h = 128 * k;
  shape_width : mcnt h < 2 ^ 16;
  shape_qbit : 0 <= qbit h <= 62;
  shape_dense : dense_bytes h = 16 + mcnt h * 6 / 8;
  shape_ranges : sparse_zero_ranges h = mcnt h / 128;
  shape_header : sparse_header_size h = 18
}.

Lemma new_shape : Shape new.
Proof. split; try done. by exists 128. Qed.

Lemma with_pbit_shape p : 7 <= p <= 15 -> Shape (with_pbit p).
Proof.
  intros Hp. unfold with_pbit. destruct (Z.eqb_spec p DEFAULT_PBIT); [apply new_shape|].
  assert (E : 2 ^ p = 128 * 2 ^ (p - 7)) by (change 128 with (2 ^ 7); rewrite <- Z.pow_add_r by lia; f_equal; lia).
  pose proof (Z.pow_pos_nonneg 2 (p - 7) ltac:(lia) ltac:(lia)).
  split; cbn [mcnt qbit dense_bytes sparse_zero_ranges sparse_header_size]; rewrite ?Z.shiftl_1_l.
  - exists (2 ^ (p - 7)). done.
  - apply Z.pow_lt_mono_r; lia.
  - unfold HBIT. rewrite wrap_id by (unfold fits; lia). lia.
  - unfold HLL_HEADER_BYTES, REG_BITS. rewrite Z.shiftr_div_pow2 by lia. by rewrite (Z.mul_comm 6).
  - rewrite Z.shiftr_div_pow2 by lia. done.
  - done.
Qed.

(** Raising a register, and the union of two register files. *)
Definition raise (R : list Z) (i v : Z) : list Z := alter (Z.max v) (Z.to_nat i) R.
Definition join (R S : list Z) : list Z := zip_with Z.max R S.

Lemma length_raise R i v : length (raise R i v) = length R.
Proof. apply length_alter. Qed.

Lemma raise_lookup R i v k : 0 <= i ->
  raise R i v !! k = if decide (k = Z.to_nat i) then Z.max v <$> R !! k else R !! k.
Proof.
  intros Hi. unfold raise. destruct (decide (k = Z.to_nat i)) as [->|].
  - by rewrite list_lookup_alter_eq.
  - by rewrite list_lookup_alter_ne.
Qed.

Lemma raise_same R i v x : 0 <= i -> R !! Z.to_nat i = Some x -> v <= x -> raise R i v = R.
Proof.
  intros Hi Hx Hv. apply list_eq. intros k. rewrite raise_lookup by done.
  destruct (decide (k = Z.to_nat i)) as [->|]; [|done]. rewrite Hx. cbn. f_equal. lia.
Qed.

Lemma raise_insert R i v x : 0 <= i -> R !! Z.to_nat i = Some x -> x <= v -> raise R i v = <[Z.to_nat i := v]> R.
Proof.
  intros Hi Hx Hv. apply list_eq. intros k. rewrite raise_lookup by done.
  destruct (decide (k = Z.to_nat i)) as [->|].
  - rewrite Hx, list_lookup_insert_eq by (by eapply lookup_lt_Some). cbn. f_equal. lia.
  - by rewrite list_lookup_insert_ne.
Qed.

(** The union of the first [k] registers of [S] into [R]. *)
Definition pjoin (k : nat) (R S : list Z) : list Z := join (take k R) (take k S) ++ drop k R.

Lemma pjoin_lookup k R S j : length R = length S ->
  pjoin k R S !! j = if decide (j < k)%nat then x ← R !! j; y ← S !! j; Some (Z.max x y) else R !! j.
Proof.
  intros Hlen. unfold pjoin, join.
  assert (Hl : length (zip_with Z.max (take k R) (take k S)) = Nat.min k (length R)).
  { rewrite length_zip_with, !length_take. lia. }
  destruct (decide (j < k)%nat) as [Hj|Hj].
  - destruct (decide (j < length R)%nat).
    + rewrite lookup_app_l, lookup_zip_with by lia. rewrite !lookup_take_lt by done.
      by destruct (R !! j), (S !! j).
    + rewrite lookup_ge_None_2 by (rewrite length_app, Hl, length_drop; lia). by rewrite (lookup_ge_None_2 R) by lia.
  - destruct (decide (j < length R)%nat).
    + rewrite lookup_app_r, Hl, lookup_drop by lia. f_equal. lia.
    + rewrite !lookup_ge_None_2; [done|lia|rewrite length_app, Hl, length_drop; lia].
Qed.

Lemma length_pjoin k R S : length R = length S -> length (pjoin k R S) = length R.
Proof. intros Hlen. unfold pjoin, join. rewrite length_app, length_zip_with, length_drop, !length_take. lia. Qed.

Lemma pjoin_0 R S : pjoin 0 R S = R.
Proof. unfold pjoin. by rewrite !take_0, drop_0. Qed.

Lemma pjoin_full k R S : length R = length S -> (length R <= k)%nat -> pjoin k R S = join R S.
Proof. intros Hlen Hk. unfold pjoin. rewrite !take_ge, drop_ge by lia. by rewrite app_nil_r. Qed.

Lemma pjoin_succ k R S y : length R = length S -> S !! k = Some y ->
  pjoin (k + 1) R S = raise (pjoin k R S) (Z.of_nat k) y.
Proof.
  intros Hlen Hy. apply list_eq. intros j. rewrite raise_lookup, !pjoin_lookup, Nat2Z.id by (done || lia).
  repeat case_decide; subst; try lia; try done. rewrite Hy. destruct (R !! k); [|done]. cbn. f_equal. lia.
Qed.

Lemma pjoin_zeros n : forall k R S, length R = length S -> Forall (fun x => 0 <= x) R ->
  (forall i, (k <= i < k + n)%nat -> S !! i = Some 0) -> pjoin (k + n) R S = pjoin k R S.
Proof.
  induction n as [|n IH]; intros k R S Hlen HR HS; [by rewrite Nat.add_0_r|].
  replace (k + Datatypes.S n)%nat with ((k + n) + 1)%nat by lia. rewrite (pjoin_succ _ R S 0) by (done || apply HS; lia).
  rewrite IH by (done || intros i Hi; apply HS; lia).
  destruct (pjoin k R S !! (k + n)%nat) as [x|] eqn:Ex.
  - apply (raise_same _ _ _ x); [lia|by rewrite Nat2Z.id|]. rewrite pjoin_lookup, decide_False in Ex by (done || lia).
    by eapply Forall_lookup_1 in HR.
  - apply list_eq. intros j. rewrite raise_lookup, Nat2Z.id by lia. destruct (decide _) as [->|]; [|done]. by rewrite Ex.
Qed.

(** ** Histograms *)

Definition hist (R : list Z) : list Z := map (fun v => zlen (List.filter (Z.eqb v) R)) (seqZ 0 64).

Lemma filter_replicate v i n : zlen (List.filter (Z.eqb v) (replicate n i)) = if v =? i then Z.of_nat n else 0.
Proof.
  induction n as [|n IH]; [by destruct (v =? i)|]. cbn [replicate List.filter].
  destruct (Z.eqb_spec v i); [rewrite zlen_cons, IH|rewrite IH]; lia.
Qed.

Lemma bump_hist R i n : 0 <= i < 64 -> bump i (Z.of_nat n) (hist R) = Some (hist (R ++ replicate n i)).
Proof.
  intros Hi. unfold bump, hist. rewrite list_lookup_fmap, lookup_seqZ_lt by lia. cbn [fmap option_fmap option_map mbind option_bind].
  f_equal. apply list_eq. intros k. rewrite list_lookup_fmap.
  destruct (decide (k < 64)%nat) as [Hk|Hk].
  2: { rewrite !lookup_ge_None_2; [done| |]; rewrite ?length_insert, ?length_map, length_seqZ; lia. }
  rewrite lookup_seqZ_lt by lia. cbn [fmap option_fmap option_map]. rewrite List.filter_app, zlen_app, filter_replicate.
  destruct (decide (k = Z.to_nat i)) as [->|Hne].
  - rewrite list_lookup_insert_eq by (rewrite length_map, length_seqZ; lia). f_equal.
    replace (0 + Z.of_nat (Z.to_nat i)) with i by lia. destruct (Z.eqb_spec i i); [done|lia].
  - rewrite list_lookup_insert_ne, list_lookup_fmap, lookup_seqZ_lt by lia. cbn. f_equal.
    destruct (Z.eqb_spec (0 + Z.of_nat k) i); lia.
Qed.

Lemma hist_nil : hist [] = replicate 64 0.
Proof. reflexivity. Qed.

Section Dense.

Variable self : HyperLogLog.
Hypothesis shape : Shape self.

Definition regs_of (reg : list Z) : list Z := map (fun i => default 0 (get_register reg i)) (seqZ 0 (mcnt self)).

(** The bytes of the registers of a dense payload. *)
Definition RegFile (reg : list Z) : Prop := bytes_ok reg /\ zlen reg = mcnt self * 6 / 8.

Lemma mcnt_bytes : 8 * (mcnt self * 6 / 8) = mcnt self * 6 /\ 0 < mcnt self < 2 ^ 16.
Proof.
  destruct (shape_mcnt self shape) as (k & Hk & E). pose proof (shape_width self shape). rewrite E in *.
  replace (128 * k * 6) with (96 * k * 8) by lia. rewrite Z.div_mul by lia. lia.
Qed.

Lemma length_regs_of reg : length (regs_of reg) = Z.to_nat (mcnt self).
Proof. unfold regs_of. by rewrite length_map, length_seqZ. Qed.

Lemma regs_of_lookup reg i : 0 <= i < mcnt self -> regs_of reg !! Z.to_nat i = Some (default 0 (get_register reg i)).
Proof.
  intros Hi. unfold regs_of. rewrite list_lookup_fmap, lookup_seqZ_lt by lia. cbn. do 3 f_equal. lia.
Qed.

Lemma get_register_regs reg i : RegFile reg -> 0 <= i < mcnt self -> exists v,
  get_register reg i = Some v /\ regs_of reg !! Z.to_nat i = Some v /\ fits 6 v.
Proof.
  intros [Hok Hl] Hi. pose proof mcnt_bytes. destruct (get_register_bits reg i Hok) as (v & E & Hv & _); [lia..|].
  exists v. by rewrite regs_of_lookup, E by done.
Qed.

Lemma set_register_regs reg i v : RegFile reg -> 0 <= i < mcnt self -> fits 6 v -> exists reg',
  set_register reg i v = Some reg' /\ RegFile reg' /\ regs_of reg' = <[Z.to_nat i := v]> (regs_of reg).
Proof.
  intros [Hok Hl] Hi Hv. pose proof mcnt_bytes.
  destruct (get_set_register reg i v Hok) as (reg' & E & Hok' & Hl' & Eg); [lia..|done|].
  exists reg'. split; [done|]. split; [split; [done|lia]|]. apply list_eq. intros k.
  destruct (decide (k < Z.to_nat (mcnt self))%nat) as [Hk|Hk].
  2: { rewrite !lookup_ge_None_2; [done|rewrite length_insert|]; rewrite length_regs_of; lia. }
  replace k with (Z.to_nat (Z.of_nat k)) by lia. rewrite regs_of_lookup, Eg by lia.
  destruct (Z.eqb_spec (Z.of_nat k) i) as [->|Hne].
  - rewrite list_lookup_insert_eq; [done|]. rewrite length_regs_of. lia.
  - rewrite list_lookup_insert_ne, regs_of_lookup by lia. done.
Qed.

(** A dense payload that holds the registers [R]. *)
Definition DensePayload (ptr R : list Z) : Prop :=
  exists pre card reg, ptr = pre ++ card ++ reg /\ Prefix pre Dense /\ zlen card = 8 /\ bytes_ok (pre ++ card) /\
    RegFile reg /\ R = regs_of reg.

(** What an update leaves: the payload itself, or one whose cached estimate is
    void. *)
Definition Touched (ptr ptr' : list Z) (u : bool) : Prop := if u then get_card ptr' = i64_min else ptr' = ptr.

Lemma update_dense_register_ok ptr R i v : DensePayload ptr R -> 0 <= i < mcnt self -> fits 6 v -> exists ptr' u,
  update_dense_register ptr i v = Some (ptr', u) /\ DensePayload ptr' (raise R i v) /\ Touched ptr ptr' u /\
  (u = true <-> raise R i v <> R).
Proof.
  intros (pre & card & reg & -> & Hpre & Hcard & Hok & Hreg & ->) Hi Hv.
  destruct (get_register_regs reg i Hreg Hi) as (x & Ex & Hx & Fx).
  unfold update_dense_register. rewrite (registers_header pre card reg Dense) by done. cbn [mbind option_bind].
  rewrite Ex. cbn [mbind option_bind]. destruct (Z.ltb_spec x v) as [Hlt|Hge].
  - rewrite (set_card_header pre card reg Dense) by done. cbn [mbind option_bind].
    rewrite (on_registers_header pre _ reg Dense) by done. destruct (set_register_regs reg i v Hreg Hi Hv) as (reg' & E & Hreg' & Er).
    rewrite E. cbn [mbind option_bind]. rewrite (raise_insert _ i v x) by (done || lia).
    exists (pre ++ no_card ++ reg'), true. split_and!; [done| | |].
    + exists pre, no_card, reg'. split_and!; try done.
      apply bytes_ok_app in Hok as [? _]. apply bytes_ok_app. split; [done|apply le_bytes_ok].
    + apply get_card_header; [apply Hpre|]. unfold i64_min, i64_max. lia.
    + split; [|done]. intros _ E'. rewrite <- E' in Hx. rewrite list_lookup_insert_eq in Hx; [injection Hx; lia|].
      rewrite length_regs_of. lia.
  - rewrite (raise_same _ i v x) by (done || lia). exists (pre ++ card ++ reg), false. split_and!; [done| |done|].
    + by exists pre, card, reg.
    + split; [done|]. intros []. done.
Qed.

Lemma init_dense_ok ptr : bytes_ok ptr -> zlen ptr = dense_bytes self -> exists ptr',
  init_dense self ptr = Some ptr' /\ DensePayload ptr' (replicate (Z.to_nat (mcnt self)) 0) /\ get_card ptr' = i64_min.
Proof.
  intros Hok Hl. unfold init_dense, fill. rewrite (shape_dense self shape) in *. pose proof mcnt_bytes as Hm.
  set (n := mcnt self * 6 / 8) in *. rewrite Z.sub_0_r.
  pose proof (write_mid [] ptr (replicate (Z.to_nat (16 + n)) 0) [] 0 eq_refl) as E.
  cbn [app] in E. rewrite app_nil_r in E. rewrite E by (rewrite zlen_replicate; lia). clear E. cbn [mbind option_bind].
  rewrite app_nil_r. replace (Z.to_nat (16 + n)) with (8 + (8 + Z.to_nat n))%nat by lia. rewrite !replicate_add.
  destruct (prefix_new Dense) as (pre & Hpre & Hokp & E).
  specialize (E (replicate 8 0) (replicate 8 0 ++ replicate (Z.to_nat n) 0) eq_refl).
  destruct (set_prefix _) as [p1|]; [|done]. cbn [mbind option_bind] in *. rewrite E. cbn [mbind option_bind].
  rewrite (set_card_header pre _ _ Dense) by done. eexists. split; [done|]. split.
  - exists pre, no_card, (replicate (Z.to_nat n) 0). split_and!; try done.
    + apply bytes_ok_app. split; [done|apply le_bytes_ok].
    + split; [apply Forall_replicate; unfold fits; lia|rewrite zlen_replicate; lia].
    + unfold regs_of. apply list_eq. intros k. rewrite list_lookup_fmap.
      destruct (decide (k < Z.to_nat (mcnt self))%nat) as [Hk|Hk].
      * rewrite lookup_replicate_2, lookup_seqZ_lt by lia. cbn. f_equal. unfold get_register.
        destruct (replicate _ 0 !! Z.to_nat (Z.shiftr _ 3)) as [x|] eqn:Ex; [|done]. cbn [mbind option_bind default].
        apply lookup_replicate in Ex as [-> _]. destruct (replicate _ 0 !! Z.to_nat (_ + 1)) as [y|] eqn:Ey; cbn [default].
        -- apply lookup_replicate in Ey as [-> _]. by rewrite Z.shiftr_0_l, Z.shiftl_0_l.
        -- by rewrite Z.shiftr_0_l, Z.shiftl_0_l.
      * rewrite !lookup_ge_None_2; [done|rewrite length_seqZ|rewrite length_replicate]; lia.
  - apply get_card_header; [apply Hpre|]. unfold i64_min, i64_max. lia.
Qed.

Lemma merge_register_ok src S dst R f i : DensePayload src S -> DensePayload dst R -> 0 <= i < mcnt self -> exists dst' f',
  merge_register src (Some (dst, f)) i = Some (dst', f') /\ DensePayload dst' (raise R i (nth (Z.to_nat i) S 0)).
Proof.
  intros (pre1 & card1 & reg1 & -> & Hpre1 & Hcard1 & _ & Hreg1 & ->)
    (pre & card & reg & -> & Hpre & Hcard & Hok & Hreg & ->) Hi.
  destruct (get_register_regs reg1 i Hreg1 Hi) as (y & Ey & Hy & Fy).
  destruct (get_register_regs reg i Hreg Hi) as (x & Ex & Hx & Fx).
  unfold merge_register. cbn [mbind option_bind]. rewrite (registers_header pre1 card1 reg1 Dense) by done. cbn [mbind option_bind].
  rewrite Ey. cbn [mbind option_bind]. rewrite (registers_header pre card reg Dense) by done. cbn [mbind option_bind].
  rewrite Ex. cbn [mbind option_bind]. rewrite (nth_lookup_Some _ _ 0 y) by done. destruct (Z.ltb_spec x y).
  - rewrite (on_registers_header pre card reg Dense) by done.
    destruct (set_register_regs reg i y Hreg Hi Fy) as (reg' & E & Hreg' & Er). rewrite E. cbn [mbind option_bind].
    exists (pre ++ card ++ reg'), true. split; [done|]. exists pre, card, reg'.
    by rewrite (raise_insert _ i y x), Er by (done || lia).
  - rewrite (raise_same _ i y x) by (done || lia). eexists _, f. split; [done|]. by exists pre, card, reg.
Qed.

Lemma payload_length ptr R : DensePayload ptr R -> length R = Z.to_nat (mcnt self).
Proof. intros (? & ? & ? & _ & _ & _ & _ & _ & ->). apply length_regs_of. Qed.

Lemma payload_values ptr R : DensePayload ptr R -> Forall (fun x => 0 <= x < 64) R.
Proof.
  intros (? & ? & reg & _ & _ & _ & _ & Hreg & ->). apply Forall_lookup_2. intros k v Hk.
  pose proof (lookup_lt_Some _ _ _ Hk) as Hlt. rewrite length_regs_of in Hlt.
  destruct (get_register_regs reg (Z.of_nat k) Hreg) as (w & _ & Hw & Fw); [lia|].
  rewrite Nat2Z.id, Hk in Hw. injection Hw as <-. apply Fw.
Qed.

Lemma payload_zlen ptr R : DensePayload ptr R -> zlen ptr = dense_bytes self.
Proof.
  intros (pre & card & reg & -> & (Hl & _) & Hcard & _ & [_ Hreg] & _). rewrite (shape_dense self shape), !zlen_app. lia.
Qed.

Lemma merge_registers_ok src S R : DensePayload src S -> forall n dst f, (n <= Z.to_nat (mcnt self))%nat ->
  length R = length S -> DensePayload dst R -> exists dst' f',
  fold_left (merge_register src) (seqZ 0 (Z.of_nat n)) (Some (dst, f)) = Some (dst', f') /\ DensePayload dst' (pjoin n R S).
Proof.
  intros Hs. induction n as [|n IH]; intros dst f Hn Hlen Hd.
  { rewrite pjoin_0. by exists dst, f. }
  destruct (IH dst f) as (d1 & f1 & E & Hd1); [lia|done..|].
  replace (Z.of_nat (Datatypes.S n)) with (Z.of_nat n + 1) by lia. rewrite seqZ_app, fold_left_app, E by lia.
  rewrite Z.add_0_l, (seqZ_cons (Z.of_nat n)), seqZ_nil by lia. cbn [fold_left].
  destruct (merge_register_ok src S d1 (pjoin n R S) f1 (Z.of_nat n) Hs Hd1) as (d2 & f2 & E2 & Hd2); [lia|].
  exists d2, f2. split; [done|]. replace (Datatypes.S n) with (n + 1)%nat by lia.
  destruct (lookup_lt_is_Some_2 S n) as [y Hy]; [rewrite (payload_length src S Hs); lia|].
  rewrite (pjoin_succ n R S y) by done.
  rewrite Nat2Z.id, (nth_lookup_Some _ _ 0 y) in Hd2 by done. done.
Qed.

Lemma set_card_dense ptr R c : DensePayload ptr R -> exists ptr',
  set_card ptr c = Some ptr' /\ DensePayload ptr' R /\ (i64_min <= c <= i64_max -> get_card ptr' = c).
Proof.
  intros (pre & card & reg & -> & Hpre & Hcard & Hok & Hreg & ->). rewrite (set_card_header pre card reg Dense) by done.
  eexists. split; [done|]. split.
  - exists pre, (le_bytes 8 (of_i64 c)), reg. split_and!; try done. apply bytes_ok_app in Hok as [? _].
    apply bytes_ok_app. split; [done|apply le_bytes_ok].
  - intros Hc. apply get_card_header; [apply Hpre|done].
Qed.

Lemma dense_to_dense_ok src S dst R : DensePayload src S -> DensePayload dst R -> exists dst' f,
  dense_to_dense self src dst = Some (dst', f) /\ DensePayload dst' (join R S) /\ get_card dst' = i64_min.
Proof.
  intros Hs Hd. pose proof mcnt_bytes as Hm. pose proof (payload_length _ _ Hs). pose proof (payload_length _ _ Hd).
  unfold dense_to_dense. rewrite wrap_id by (unfold fits; lia).
  destruct (merge_registers_ok src S R Hs (Z.to_nat (mcnt self)) dst false) as (d1 & f1 & E & Hd1); [done|congruence|done|].
  rewrite Z2Nat.id in E by lia. rewrite E. cbn [mbind option_bind].
  rewrite pjoin_full in Hd1 by (congruence || lia). destruct (set_card_dense d1 _ i64_min Hd1) as (d2 & E2 & Hd2 & Hc).
  rewrite E2. cbn [mbind option_bind]. exists d2, f1. split_and!; [done..|]. apply Hc. unfold i64_min, i64_max. lia.
Qed.

(** *** The histogram reads the registers three bytes at a time *)

Lemma get_register_shift a b i : length a = 3%nat -> 0 <= i -> get_register (a ++ b) (i + 4) = get_register b i.
Proof.
  intros Ha Hi. destruct (register_place i Hi) as (E1 & E2 & _ & Hb & _).
  destruct (register_place (i + 4) ltac:(lia)) as (E1' & E2' & _ & _ & _). unfold REG_BITS in *.
  unfold get_register, REG_BITS. rewrite E1, E2, E1', E2'.
  replace ((i + 4) * 6) with (i * 6 + 3 * 8) by lia. rewrite Z.div_add, Z.mod_add by lia.
  assert (L : forall x, 0 <= x -> (a ++ b) !! Z.to_nat (x + 3) = b !! Z.to_nat x).
  { intros x Hx. rewrite lookup_app_r by lia. f_equal. lia. }
  rewrite L by done. replace (i * 6 / 8 + 3 + 1) with (i * 6 / 8 + 1 + 3) by lia. rewrite L by lia. done.
Qed.

Lemma unpack_chunk b0 b1 b2 rest : fits 8 b0 -> fits 8 b1 -> fits 8 b2 -> bytes_ok rest ->
  map (fun i => default 0 (get_register (b0 :: b1 :: b2 :: rest) i)) [0; 1; 2; 3] = unpack [b0; b1; b2].
Proof.
  intros H0 H1 H2 Hr.
  assert (H3 : fits 8 (default 0 (rest !! 0%nat))).
  { change 0%nat with (Z.to_nat 0). rewrite byte_default by done. by apply byte_fits. }
  cbn [map unpack].
  change (get_register (b0 :: b1 :: b2 :: rest) 0) with
    (Some (Z.land (Z.lor (Z.shiftr b0 0) (wrap 8 (wrap 16 (Z.shiftl b1 8)))) 63)).
  change (get_register (b0 :: b1 :: b2 :: rest) 1) with
    (Some (Z.land (Z.lor (Z.shiftr b0 6) (wrap 8 (wrap 16 (Z.shiftl b1 2)))) 63)).
  change (get_register (b0 :: b1 :: b2 :: rest) 2) with
    (Some (Z.land (Z.lor (Z.shiftr b1 4) (wrap 8 (wrap 16 (Z.shiftl b2 4)))) 63)).
  change (get_register (b0 :: b1 :: b2 :: rest) 3) with
    (Some (Z.land (Z.lor (Z.shiftr b2 2) (wrap 8 (wrap 16 (Z.shiftl (default 0 (rest !! 0%nat)) 6)))) 63)).
  set (b3 := default 0 (rest !! 0%nat)) in *. clearbody b3. cbn [default]. unfold id. change 63 with (Z.ones 6).
  repeat (apply (f_equal2 cons); [bitblast|]). done.
Qed.

Lemma unpack_regs reg : bytes_ok reg -> forall q, zlen reg = 3 * q ->
  flat_map unpack (Hasher.as_chunks 3 reg).1 = map (fun i => default 0 (get_register reg i)) (seqZ 0 (4 * q)).
Proof.
  revert reg. apply (Hasher.chunks_ind 3 (fun reg => bytes_ok reg -> forall q, zlen reg = 3 * q -> _)); [lia| |].
  - intros l Hl _ q Hq. unfold zlen in Hq. assert (q = 0) as -> by lia. by rewrite Hasher.as_chunks_small.
  - intros a b Ha IH Hok q Hq. apply bytes_ok_app in Hok as [Hoka Hokb].
    rewrite Hasher.as_chunks_app by (done || lia). cbn [fst flat_map]. rewrite zlen_app in Hq.
    destruct a as [|b0 [|b1 [|b2 [|]]]]; try discriminate Ha.
    change (zlen [b0; b1; b2]) with 3 in Hq. rewrite (IH Hokb (q - 1)) by lia. pose proof (zlen_nonneg b).
    replace (4 * q) with (4 + 4 * (q - 1)) by lia. rewrite seqZ_app, map_app by lia.
    repeat match goal with H : Forall _ (_ :: _) |- _ => apply Forall_cons_1 in H as [? H] end.
    unfold bytes_ok in Hoka. repeat match goal with H : Forall _ (_ :: _) |- _ => apply Forall_cons_1 in H as [? H] end.
    change (seqZ 0 4) with [0; 1; 2; 3]. cbn [app]. rewrite unpack_chunk by done. f_equal.
    rewrite <- (fmap_add_seqZ 4 0), map_map. apply map_ext_in. intros i Hi. apply list_elem_of_In, elem_of_seqZ in Hi.
    rewrite (Z.add_comm 4 i). f_equal. symmetry. apply (get_register_shift [b0; b1; b2]); [done|lia].
Qed.

Lemma bump_values l : forall R, Forall (fun x => 0 <= x < 64) l ->
  fold_left (fun acc v => rhisto ← acc; bump v 1 rhisto) l (Some (hist R)) = Some (hist (R ++ l)).
Proof.
  induction l as [|v l IH]; intros R Hl; [by rewrite app_nil_r|]. apply Forall_cons_1 in Hl as [Hv Hl].
  cbn [fold_left mbind option_bind]. change 1 with (Z.of_nat 1) at 2. rewrite (bump_hist R v 1) by done. rewrite IH by done. by rewrite <- app_assoc.
Qed.

Lemma dense_histogram_ok ptr R : DensePayload ptr R -> dense_histogram self ptr = Some (hist R).
Proof.
  intros Hd. pose proof (payload_values ptr R Hd) as Hv. destruct Hd as (pre & card & reg & -> & Hpre & Hcard & _ & [Hok Hl] & ->).
  pose proof mcnt_bytes as Hm. unfold dense_histogram. rewrite (registers_header pre card reg Dense) by done. cbn [mbind option_bind].
  rewrite Z.shiftr_div_pow2 by lia. change (2 ^ 3) with 8.
  pose proof (range_mid [] reg [] 0 (mcnt self * 6 / 8) eq_refl) as E. rewrite app_nil_r in E. cbn [app] in E.
  rewrite E by lia. cbn [mbind option_bind].
  destruct (shape_mcnt self shape) as (k & Hk & Ek).
  assert (E6 : mcnt self * 6 / 8 = 3 * (32 * k)) by lia.
  rewrite (unpack_regs reg Hok (32 * k)) by lia. replace (4 * (32 * k)) with (mcnt self) by lia.
  fold (regs_of reg). rewrite <- hist_nil. by rewrite bump_values.
Qed.

End Dense.
End Regs.
