(* ===== verification/HyperLogSparse.v ===== *)
(** * Sparse HyperLogLog streams

    A stream of operation codes as the registers it spells out: locating and
    raising a register, the places where codes begin, and what a stream may grow
    to. *)

From stdpp Require Import base list numbers option tactics.
From Stdlib Require Import ZArith Lia Bool.
From S2P Require Import Prelude Bytes Hasher HyperLog HyperLogRegs.

Module Streams.
Import Murmur HyperLog Regs.

(** ** Operation codes *)

Definition op_len (op : Z) : Z := if is_zero_range op then zero_range_len op else 1.

Definition op_regs (op : Z) : list Z :=
  if is_zero_range op then replicate (Z.to_nat (zero_range_len op)) 0 else [get_non_zero op].

Lemma op_cases op : fits 8 op ->
  (128 <= op /\ is_zero_range op = true /\ zero_range_len op = op - 127) \/
  (op < 128 /\ is_zero_range op = false /\ get_non_zero op = op + 1).
Proof.
  revert op. apply (range_all _ 0 256).
  assert (H : Forall (fun op => (if 128 <=? op then is_zero_range op && (zero_range_len op =? op - 127)
    else negb (is_zero_range op) && (get_non_zero op =? op + 1)) = true) (seqZ 0 256)).
  { apply List.Forall_forall, forallb_forall. vm_compute. reflexivity. }
  eapply Forall_impl; [|exact H]. intros op Hop. cbn in Hop.
  destruct (Z.leb_spec 128 op); apply andb_true_iff in Hop as [H1 H2]; apply Z.eqb_eq in H2; [left|right; apply negb_true_iff in H1]; done.
Qed.

Lemma op_len_bounds op : fits 8 op -> 1 <= op_len op <= 128.
Proof.
  intros Hop. unfold op_len. destruct (op_cases op Hop) as [(? & -> & ->)|(? & -> & ?)]; unfold fits in Hop; lia.
Qed.

Lemma length_op_regs op : fits 8 op -> zlen (op_regs op) = op_len op.
Proof.
  intros Hop. unfold op_len, op_regs. destruct (op_cases op Hop) as [(? & -> & ->)|(? & -> & ?)]; [|done].
  rewrite zlen_replicate. lia.
Qed.

Lemma zero_range_set_ok n : 1 <= n <= 128 ->
  fits 8 (zero_range_set n) /\ op_regs (zero_range_set n) = replicate (Z.to_nat n) 0 /\ op_len (zero_range_set n) = n.
Proof.
  intros Hn. assert (E : zero_range_set n = 127 + n).
  { assert (H : Forall (fun n => (zero_range_set n =? 127 + n) = true) (seqZ 1 128)).
    { apply List.Forall_forall, forallb_forall. vm_compute. reflexivity. }
    apply Z.eqb_eq. apply (range_all (fun n => (zero_range_set n =? 127 + n) = true) 1 128 H). lia. }
  assert (Hf : fits 8 (zero_range_set n)) by (rewrite E; unfold fits; lia). split; [done|].
  unfold op_regs, op_len. destruct (op_cases _ Hf) as [(? & -> & ->)|(? & _)]; [|lia]. rewrite E.
  split; [f_equal|]; lia.
Qed.

Lemma set_non_zero_ok v : 1 <= v <= 128 ->
  fits 8 (set_non_zero v) /\ op_regs (set_non_zero v) = [v] /\ op_len (set_non_zero v) = 1.
Proof.
  intros Hv. assert (E : set_non_zero v = v - 1).
  { unfold set_non_zero, wsub. apply wrap_id. unfold fits. lia. }
  assert (Hf : fits 8 (set_non_zero v)) by (rewrite E; unfold fits; lia). split; [done|].
  unfold op_regs, op_len. destruct (op_cases _ Hf) as [(? & _)|(? & -> & ->)]; [lia|]. rewrite E.
  split; [f_equal|]; lia.
Qed.

(** ** Streams *)

Definition expand (rle : list Z) : list Z := flat_map op_regs rle.

Definition cover (rle : list Z) : Z := zlen (expand rle).

Lemma expand_app a b : expand (a ++ b) = expand a ++ expand b.
Proof. apply flat_map_app. Qed.

Lemma cover_app a b : cover (a ++ b) = cover a + cover b.
Proof. unfold cover. by rewrite expand_app, zlen_app. Qed.

Lemma cover_cons op l : fits 8 op -> cover (op :: l) = op_len op + cover l.
Proof. intros Hop. unfold cover. cbn [expand flat_map]. by rewrite zlen_app, length_op_regs. Qed.

Lemma cover_nil : cover [] = 0.
Proof. done. Qed.

Lemma cover_nonneg l : 0 <= cover l.
Proof. apply zlen_nonneg. Qed.

Lemma zlen_cover l : bytes_ok l -> zlen l <= cover l.
Proof.
  induction 1 as [|op l Hop _ IH]; [done|]. rewrite cover_cons, zlen_cons by done.
  pose proof (op_len_bounds op Hop). lia.
Qed.

(** The code that covers a register. *)
Lemma covering l : forall idx, bytes_ok l -> 0 <= idx < cover l -> exists l1 op l2,
  l = l1 ++ op :: l2 /\ cover l1 <= idx < cover l1 + op_len op.
Proof.
  induction l as [|op l IH]; intros idx Hok Hi; [rewrite cover_nil in Hi; lia|].
  apply Forall_cons_1 in Hok as [Hop Hok]. rewrite cover_cons in Hi by done.
  destruct (Z.lt_ge_cases idx (op_len op)) as [|Hge].
  - exists [], op, l. split; [done|]. rewrite cover_nil. lia.
  - destruct (IH (idx - op_len op) Hok) as (l1 & o & l2 & -> & Hb); [lia|].
    exists (op :: l1), o, l2. split; [done|]. rewrite cover_cons by done. lia.
Qed.

Lemma locate_found l1 op rest : forall idx curr off, bytes_ok l1 ->
  off + cover l1 <= idx < off + cover l1 + op_len op ->
  locate (l1 ++ op :: rest) idx curr off = Some (curr + zlen l1, off + cover l1, op_len op, op).
Proof.
  induction l1 as [|o l1 IH]; intros idx curr off Hok Hi; cbn [app locate].
  - fold (op_len op). rewrite cover_nil in *. destruct (Z.ltb_spec idx (off + op_len op)); [|lia].
    rewrite zlen_nil. do 4 f_equal; lia.
  - apply Forall_cons_1 in Hok as [Ho Hok]. fold (op_len o). rewrite cover_cons in * by done.
    pose proof (cover_nonneg l1). destruct (Z.ltb_spec idx (off + op_len o)); [lia|].
    rewrite IH by (done || lia). rewrite zlen_cons. do 4 f_equal; lia.
Qed.

(** ** Where codes begin *)

Fixpoint starts (off : Z) (rle : list Z) : list Z :=
  match rle with
  | [] => []
  | op :: l => off :: starts (off + op_len op) l
  end.

Lemma starts_app a : forall off b, bytes_ok a -> starts off (a ++ b) = starts off a ++ starts (off + cover a) b.
Proof.
  induction a as [|op a IH]; intros off b Hok; cbn [app starts].
  - f_equal. rewrite cover_nil. lia.
  - apply Forall_cons_1 in Hok as [Hop Hok]. rewrite IH, cover_cons by done. do 3 f_equal. lia.
Qed.

Lemma length_starts l : forall off, length (starts off l) = length l.
Proof. induction l as [|op l IH]; intros off; [done|]. cbn. by rewrite IH. Qed.

Lemma starts_bounds l : forall off x, bytes_ok l -> x ∈ starts off l -> off <= x < off + cover l.
Proof.
  induction l as [|op l IH]; intros off x Hok Hx; [by apply elem_of_nil in Hx|].
  apply Forall_cons_1 in Hok as [Hop Hok]. rewrite cover_cons by done. pose proof (op_len_bounds op Hop).
  pose proof (cover_nonneg l). cbn [starts] in Hx. apply elem_of_cons in Hx as [->|Hx]; [lia|].
  apply IH in Hx; [lia|done].
Qed.

Lemma starts_NoDup l : forall off, bytes_ok l -> NoDup (starts off l).
Proof.
  induction l as [|op l IH]; intros off Hok; [constructor|]. apply Forall_cons_1 in Hok as [Hop Hok].
  cbn [starts]. constructor; [|by apply IH]. intros Hx. apply starts_bounds in Hx; [|done].
  pose proof (op_len_bounds op Hop). lia.
Qed.

(** A stream that begins codes only where another one does is not longer. *)
Lemma starts_le a b : bytes_ok a -> (forall x, x ∈ starts 0 a -> x ∈ starts 0 b) -> zlen a <= zlen b.
Proof.
  intros Ha Hsub. unfold zlen. rewrite <- (length_starts a 0), <- (length_starts b 0).
  apply inj_le, NoDup_incl_length; [by apply NoDup_ListNoDup, starts_NoDup|].
  intros x Hx. apply list_elem_of_In, Hsub, list_elem_of_In. done.
Qed.

(** ** Raising a register *)

Lemma raise_middle A x B i v : i = zlen A -> raise (A ++ x :: B) i v = A ++ Z.max v x :: B.
Proof.
  intros ->. unfold raise, zlen. rewrite Nat2Z.id. induction A as [|a A IH]; [done|].
  cbn [length app]. rewrite <- IH. done.
Qed.

Section Split.

Context (idx v off clen : Z).
Hypothesis Hidx : off <= idx < off + clen.
Hypothesis Hclen : clen <= 128.
Hypothesis Hv : 1 <= v <= 128.

Let buf := split_range idx v off clen.

Lemma split_expand :
  expand buf = replicate (Z.to_nat (idx - off)) 0 ++ v :: replicate (Z.to_nat (off + clen - 1 - idx)) 0.
Proof.
  unfold buf, split_range. rewrite !expand_app. destruct (set_non_zero_ok v Hv) as (_ & E & _).
  cbn [expand flat_map]. rewrite E. cbn [app]. f_equal.
  - destruct (Z.eqb_spec off idx); [by replace (Z.to_nat (idx - off)) with 0%nat by lia|].
    destruct (zero_range_set_ok (idx - off)) as (_ & E1 & _); [lia|]. cbn [expand flat_map]. by rewrite E1, app_nil_r.
  - f_equal. destruct (Z.eqb_spec (off + clen - 1) idx); [by replace (Z.to_nat (off + clen - 1 - idx)) with 0%nat by lia|].
    destruct (zero_range_set_ok (off + clen - 1 - idx)) as (_ & E1 & _); [lia|]. cbn [expand flat_map]. by rewrite E1, app_nil_r.
Qed.

Lemma split_bytes : bytes_ok buf.
Proof.
  unfold buf, split_range. destruct (set_non_zero_ok v Hv) as (Hf & _).
  apply bytes_ok_app. split; [|apply bytes_ok_app; split; [by constructor|]].
  - destruct (Z.eqb_spec off idx); [constructor|]. constructor; [|constructor]. apply zero_range_set_ok. lia.
  - destruct (Z.eqb_spec (off + clen - 1) idx); [constructor|]. constructor; [|constructor]. apply zero_range_set_ok. lia.
Qed.

Lemma split_cover : cover buf = clen.
Proof. unfold cover. rewrite split_expand, zlen_app, zlen_cons, !zlen_replicate. lia. Qed.

Lemma split_size : 1 <= zlen buf <= 3.
Proof.
  unfold buf, split_range. rewrite !zlen_app. change (zlen [set_non_zero v]) with 1.
  destruct (off =? idx), (off + clen - 1 =? idx); unfold zlen; cbn; lia.
Qed.

Lemma split_starts x :
  x ∈ starts off buf <-> x = off \/ x = idx \/ (x = idx + 1 /\ idx + 1 < off + clen).
Proof.
  unfold buf, split_range. destruct (set_non_zero_ok v Hv) as (_ & _ & Ev).
  assert (E1 : off <> idx -> op_len (zero_range_set (idx - off)) = idx - off) by (intros; apply zero_range_set_ok; lia).
  destruct (Z.eqb_spec off idx) as [Ho|Ho], (Z.eqb_spec (off + clen - 1) idx) as [Hr|Hr];
    cbn [app starts]; rewrite ?Ev, ?E1 by done;
    rewrite ?elem_of_cons, ?elem_of_nil; lia.
Qed.

End Split.

Section Self.

Variable self : HyperLogLog.
Hypothesis shape : Shape self.

Record Stream (rle : list Z) : Prop := {
  stream_bytes : bytes_ok rle;
  stream_cover : cover rle = mcnt self;
  stream_values : Forall (fun x => 0 <= x <= qbit self + 1) (expand rle)
}.

Lemma stream_length rle : Stream rle -> length (expand rle) = Z.to_nat (mcnt self).
Proof. intros H. pose proof (stream_cover _ H) as E. unfold cover, zlen in E. lia. Qed.

Lemma stream_size rle : Stream rle -> 0 <= zlen rle < 2 ^ 16.
Proof.
  intros H. pose proof (zlen_cover rle (stream_bytes _ H)). rewrite (stream_cover _ H) in *.
  pose proof (shape_width self shape). pose proof (zlen_nonneg rle). lia.
Qed.

(** What raising register [idx] to [v] makes of a stream. *)
Record Raised (idx v : Z) (rle rle' : list Z) : Prop := {
  raised_stream : Stream rle';
  raised_regs : expand rle' = raise (expand rle) idx v;
  raised_size : zlen rle <= zlen rle' <= zlen rle + 2;
  raised_keeps : forall x, x ∈ starts 0 rle -> x ∈ starts 0 rle';
  raised_adds : forall x, x ∈ starts 0 rle' -> x ∈ starts 0 rle \/ x = idx \/ (x = idx + 1 /\ idx + 1 < mcnt self)
}.

Lemma raised_value l1 op l2 idx v : Stream (l1 ++ op :: l2) -> is_zero_range op = false -> idx = cover l1 ->
  get_non_zero op < v <= qbit self + 1 -> Raised idx v (l1 ++ op :: l2) (l1 ++ set_non_zero v :: l2).
Proof.
  intros [Hok Hcov Hval] Hz -> Hv. pose proof (shape_qbit self shape) as Hq.
  apply bytes_ok_app in Hok as [H1 H2]. apply Forall_cons_1 in H2 as [Hop H2].
  destruct (op_cases op Hop) as [(_ & E & _)|(_ & _ & Eo)]; [congruence|]. unfold fits in Hop.
  destruct (set_non_zero_ok v) as (Hf & Er & El); [lia|].
  assert (Ereg : op_regs op = [get_non_zero op]) by (unfold op_regs; by rewrite Hz).
  assert (Elen : op_len op = 1) by (unfold op_len; by rewrite Hz).
  assert (Eexp : expand (l1 ++ set_non_zero v :: l2) = raise (expand (l1 ++ op :: l2)) (cover l1) v).
  { rewrite !expand_app. cbn [expand flat_map]. rewrite Er, Ereg. cbn [app]. rewrite raise_middle by done. do 3 f_equal. lia. }
  assert (Est : starts 0 (l1 ++ set_non_zero v :: l2) = starts 0 (l1 ++ op :: l2)).
  { rewrite !starts_app by done. cbn [starts]. by rewrite El, Elen. }
  split; [split| | | |].
  - apply bytes_ok_app. split; [done|by constructor].
  - rewrite <- Hcov, !cover_app, !cover_cons by done. lia.
  - rewrite !expand_app in *. cbn [expand flat_map] in *. rewrite Er. rewrite Ereg in Hval.
    apply Forall_app in Hval as [Ha Hb]. apply Forall_cons_1 in Hb as [_ Hb].
    apply Forall_app_2; [done|]. constructor; [lia|done].
  - done.
  - rewrite !zlen_app, !zlen_cons. lia.
  - intros x. by rewrite Est.
  - intros x. rewrite Est. tauto.
Qed.

Lemma raised_range l1 op l2 idx v : Stream (l1 ++ op :: l2) -> is_zero_range op = true ->
  cover l1 <= idx < cover l1 + op_len op -> 1 <= v <= qbit self + 1 ->
  Raised idx v (l1 ++ op :: l2) (l1 ++ split_range idx v (cover l1) (op_len op) ++ l2).
Proof.
  intros [Hok Hcov Hval] Hz Hi Hv. pose proof (shape_qbit self shape) as Hq.
  apply bytes_ok_app in Hok as [H1 H2]. apply Forall_cons_1 in H2 as [Hop H2].
  pose proof (op_len_bounds op Hop) as Hl. set (buf := split_range idx v (cover l1) (op_len op)).
  assert (Hb : bytes_ok buf) by (apply split_bytes; lia).
  assert (Ec : cover buf = op_len op) by (apply split_cover; lia).
  assert (Hs : 1 <= zlen buf <= 3) by apply split_size.
  assert (Ereg : op_regs op = replicate (Z.to_nat (idx - cover l1)) 0 ++ 0 :: replicate (Z.to_nat (cover l1 + op_len op - 1 - idx)) 0).
  { unfold op_regs, op_len in *. rewrite Hz in *. rewrite <- replicate_S, <- replicate_add. f_equal. lia. }
  assert (Eexp : expand (l1 ++ buf ++ l2) = raise (expand (l1 ++ op :: l2)) idx v).
  { rewrite !expand_app. cbn [expand flat_map]. rewrite Ereg. unfold buf. rewrite split_expand by lia.
    rewrite <- !app_assoc. cbn [app]. rewrite !(app_assoc (expand l1)), raise_middle.
    - f_equal. f_equal. lia.
    - rewrite zlen_app, zlen_replicate. fold (cover l1). lia. }
  split; [split| | | |].
  - apply bytes_ok_app. split; [done|]. by apply bytes_ok_app.
  - rewrite <- Hcov, !cover_app, cover_cons, Ec by done. lia.
  - rewrite !expand_app in *. cbn [expand flat_map] in *. apply Forall_app in Hval as [Ha Hb']. apply Forall_app in Hb' as [_ Hb'].
    apply Forall_app_2; [done|]. apply Forall_app_2; [|done]. unfold buf. rewrite split_expand by lia.
    apply Forall_app_2; [apply Forall_replicate; lia|]. constructor; [lia|]. apply Forall_replicate. lia.
  - done.
  - rewrite !zlen_app, zlen_cons. lia.
  - intros x. rewrite !starts_app by done. cbn [starts]. rewrite Ec, Z.add_0_l, !elem_of_app, elem_of_cons.
    unfold buf. rewrite split_starts by lia. tauto.
  - intros x. rewrite !starts_app by done. cbn [starts]. rewrite Ec, Z.add_0_l, !elem_of_app, elem_of_cons.
    unfold buf. rewrite split_starts by lia. rewrite cover_app, cover_cons in Hcov by done. pose proof (cover_nonneg l2).
    intuition lia.
Qed.

(** ** Payloads *)

(** A sparse payload with the stream [rle] and [n] bytes behind it. *)
Definition SparsePayload (ptr rle : list Z) (n : Z) : Prop :=
  exists pre card slack, ptr = pre ++ card ++ le_bytes 2 (zlen rle) ++ rle ++ slack /\ Prefix pre Sparse /\
    zlen card = 8 /\ bytes_ok (pre ++ card) /\ bytes_ok slack /\ zlen slack = n /\ Stream rle.

Section Layout.

Context (pre card rle slack : list Z).
Hypothesis Hpre : Prefix pre Sparse.
Hypothesis Hcard : zlen card = 8.
Hypothesis Hrle : 0 <= zlen rle < 2 ^ 16.

Let ptr := pre ++ card ++ le_bytes 2 (zlen rle) ++ rle ++ slack.

Lemma layout_size : get_sparse_rle_size ptr = zlen rle.
Proof.
  destruct Hpre as (Hl & _). unfold get_sparse_rle_size, ptr, HLL_HEADER_BYTES. rewrite (app_assoc pre).
  rewrite range_mid; [|by rewrite zlen_app; lia|by rewrite zlen_le_bytes].
  rewrite le_num_le_bytes. apply Z.mod_small. done.
Qed.

Lemma layout_stream : range (sparse_header_size self) (sparse_header_size self + zlen rle) ptr = Some rle.
Proof.
  destruct Hpre as (Hl & _). rewrite (shape_header self shape). unfold ptr.
  rewrite (app_assoc card), (app_assoc pre). apply range_mid; [|done]. rewrite !zlen_app, zlen_le_bytes. lia.
Qed.

Lemma layout_from : slice_from (sparse_header_size self) ptr = rle ++ slack.
Proof.
  destruct Hpre as (Hl & _). rewrite (shape_header self shape). unfold ptr, slice_from.
  rewrite (app_assoc card), (app_assoc pre). apply drop_app_length'. unfold zlen in *. rewrite !length_app, length_le_bytes. lia.
Qed.

Lemma layout_zlen : zlen ptr = 18 + zlen rle + zlen slack.
Proof. destruct Hpre as (Hl & _). unfold ptr. rewrite !zlen_app, zlen_le_bytes. lia. Qed.

End Layout.

Lemma shift_suffix A op l2 s0 slack buf : 1 <= zlen buf <= 1 + zlen slack ->
  (ptr ← copy_within (zlen A + 1) (zlen A + 1 + (zlen l2 + 1)) (zlen A + 1 + zlen buf - 1) (A ++ op :: l2 ++ s0 :: slack);
   write_at (zlen A) buf ptr)
  = Some (A ++ buf ++ l2 ++ s0 :: drop (length buf) (s0 :: slack)).
Proof.
  intros Hb. unfold copy_within.
  replace (A ++ op :: l2 ++ s0 :: slack) with ((A ++ [op]) ++ (l2 ++ [s0]) ++ slack) by (rewrite <- !app_assoc; done).
  rewrite range_mid; [|rewrite zlen_app; done|rewrite zlen_app; change (zlen [s0]) with 1; lia]. cbn [mbind option_bind].
  set (ptr := (A ++ [op]) ++ (l2 ++ [s0]) ++ slack).
  assert (Hl : zlen ptr = zlen A + 2 + zlen l2 + zlen slack).
  { unfold ptr. rewrite !zlen_app. change (zlen [op]) with 1. change (zlen [s0]) with 1. lia. }
  destruct (Z.leb_spec (zlen A + 1 + zlen buf - 1) (zlen ptr - (zlen A + 1 + (zlen l2 + 1) - (zlen A + 1)))); [|lia].
  cbn [mbind option_bind]. unfold splice.
  replace (Z.to_nat (zlen A + 1 + zlen buf - 1)) with (length A + length buf)%nat by (unfold zlen in *; lia).
  assert (Et : take (length A + length buf) ptr = A ++ take (length buf) (op :: l2 ++ s0 :: slack)).
  { unfold ptr. rewrite <- !app_assoc. by rewrite take_app_add. }
  assert (Ed : drop (length A + length buf + length (l2 ++ [s0])) ptr = drop (length buf) (s0 :: slack)).
  { replace (length A + length buf + length (l2 ++ [s0]))%nat with (length (A ++ op :: l2) + length buf)%nat
      by (rewrite !length_app; cbn; lia).
    replace ptr with ((A ++ op :: l2) ++ s0 :: slack) by (unfold ptr; rewrite <- !app_assoc; done). by rewrite drop_app_add. }
  rewrite Et, Ed, <- app_assoc. rewrite write_mid; [by rewrite <- app_assoc|done|].
  unfold zlen in *. rewrite length_take. cbn [length]. rewrite length_app. cbn [length]. lia.
Qed.

Lemma set_rle_header pre card size rest n : Prefix pre Sparse -> zlen card = 8 -> zlen size = 2 ->
  set_sparse_rle_size (pre ++ card ++ size ++ rest) n = Some (pre ++ card ++ le_bytes 2 n ++ rest).
Proof.
  intros (Hl & _) Hc Hs. unfold set_sparse_rle_size. rewrite !(app_assoc pre).
  apply write_mid; [rewrite zlen_app; unfold HLL_HEADER_BYTES; lia|by rewrite zlen_le_bytes].
Qed.

(** A void card is written over the old one. *)
Lemma void_card pre card rest : Prefix pre Sparse -> zlen card = 8 ->
  set_card (pre ++ card ++ rest) i64_min = Some (pre ++ no_card ++ rest) /\ get_card (pre ++ no_card ++ rest) = i64_min.
Proof.
  intros Hpre Hc. split; [by apply (set_card_header pre card rest Sparse)|].
  apply get_card_header; [apply Hpre|]. unfold i64_min, i64_max. lia.
Qed.

Lemma void_payload pre card slack rle : Prefix pre Sparse -> bytes_ok (pre ++ card) -> bytes_ok slack -> Stream rle ->
  SparsePayload (pre ++ no_card ++ le_bytes 2 (zlen rle) ++ rle ++ slack) rle (zlen slack).
Proof.
  intros Hpre Hok Hsl Hst. exists pre, no_card, slack. split_and!; try done. apply bytes_ok_app in Hok as [? _].
  apply bytes_ok_app. split; [done|apply le_bytes_ok].
Qed.

Lemma raise_grows A x B i v : i = zlen A -> x < v -> raise (A ++ x :: B) i v <> A ++ x :: B.
Proof. intros Hi Hx. rewrite raise_middle by done. intros E. apply app_inv_head in E. injection E. lia. Qed.

(** Raising where the stream has a value. *)
Lemma update_value_ok pre card slack l1 op l2 idx v :
  let rle := l1 ++ op :: l2 in
  let ptr := pre ++ card ++ le_bytes 2 (zlen rle) ++ rle ++ slack in
  Prefix pre Sparse -> zlen card = 8 -> bytes_ok (pre ++ card) -> bytes_ok slack -> Stream rle ->
  is_zero_range op = false -> idx = cover l1 -> 1 <= v <= qbit self + 1 ->
  exists rle' ptr' u, Raised idx v rle rle' /\ zlen rle' = zlen rle /\ update_sparse_reg self ptr idx v = Some (ptr', u) /\
    SparsePayload ptr' rle' (zlen slack) /\ Touched ptr ptr' u /\ (u = true <-> expand rle' <> expand rle).
Proof.
  intros rle ptr Hpre Hcard Hok Hsl Hst Hz Ei Hv. pose proof (stream_size rle Hst) as Hsz.
  pose proof (stream_bytes _ Hst) as Hb. unfold rle in Hb. apply bytes_ok_app in Hb as [Hb1 _].
  assert (El : op_len op = 1) by (unfold op_len; by rewrite Hz).
  assert (Eexp : expand rle = expand l1 ++ get_non_zero op :: expand l2).
  { unfold rle. rewrite expand_app. cbn [expand flat_map]. unfold op_regs. by rewrite Hz. }
  assert (Eloc : locate (rle ++ slack) idx 18 0 = Some (18 + zlen l1, 0 + cover l1, op_len op, op)).
  { unfold rle. rewrite <- app_assoc. cbn [app]. apply locate_found; [done|lia]. }
  unfold update_sparse_reg, ptr. rewrite layout_size, layout_from, (shape_header self shape), Eloc by done.
  cbn [mbind option_bind]. rewrite Hz. cbn [negb]. destruct (Z.leb_spec v (get_non_zero op)) as [Hle|Hgt].
  - exists rle, ptr, false. assert (Es : raise (expand rle) idx v = expand rle).
    { rewrite Eexp, raise_middle by done. do 2 f_equal. lia. }
    split_and!; try done; [split; try done; [lia|tauto]|by exists pre, card, slack].
  - pose proof (raised_value l1 op l2 idx v Hst Hz Ei ltac:(lia)) as HR. fold rle in HR.
    set (rle' := l1 ++ set_non_zero v :: l2) in *.
    assert (Hlen : zlen rle' = zlen rle) by (unfold rle', rle; by rewrite !zlen_app, !zlen_cons).
    exists rle', (pre ++ no_card ++ le_bytes 2 (zlen rle') ++ rle' ++ slack), true.
    assert (Ew : write_at (18 + zlen l1) [set_non_zero v] (pre ++ card ++ le_bytes 2 (zlen rle) ++ rle ++ slack)
      = Some (pre ++ card ++ le_bytes 2 (zlen rle') ++ rle' ++ slack)).
    { rewrite Hlen. pose proof (write_mid (pre ++ card ++ le_bytes 2 (zlen rle) ++ l1) [op] [set_non_zero v] (l2 ++ slack) (18 + zlen l1)) as E.
      unfold rle', rle in *. repeat rewrite <- app_assoc in E. repeat rewrite <- app_assoc. cbn [app] in *. apply E; [|done].
      rewrite !zlen_app, zlen_le_bytes. destruct Hpre as (Hl & _). lia. }
    rewrite Ew. cbn [mbind option_bind]. destruct (void_card pre card (le_bytes 2 (zlen rle') ++ rle' ++ slack) Hpre Hcard) as [Ec Hc].
    rewrite Ec. split_and!; try done; [by eapply void_payload; [..|apply HR]|]. split; [|done]. intros _.
    rewrite (raised_regs _ _ _ _ HR), Eexp. apply raise_grows; [done|lia].
Qed.

(** Raising inside a range of zeros. *)
Lemma update_range_ok pre card slack l1 op l2 idx v :
  let rle := l1 ++ op :: l2 in
  let rle' := l1 ++ split_range idx v (cover l1) (op_len op) ++ l2 in
  let ptr := pre ++ card ++ le_bytes 2 (zlen rle) ++ rle ++ slack in
  Prefix pre Sparse -> zlen card = 8 -> bytes_ok (pre ++ card) -> bytes_ok slack -> Stream rle ->
  is_zero_range op = true -> cover l1 <= idx < cover l1 + op_len op -> 1 <= v <= qbit self + 1 ->
  zlen rle' - zlen rle < zlen slack ->
  exists ptr', update_sparse_reg self ptr idx v = Some (ptr', true) /\
    SparsePayload ptr' rle' (zlen slack - (zlen rle' - zlen rle)) /\ get_card ptr' = i64_min.
Proof.
  intros rle rle' ptr Hpre Hcard Hok Hsl Hst Hz Hi Hv Hroom. pose proof (stream_size rle Hst) as Hsz.
  pose proof (raised_range l1 op l2 idx v Hst Hz Hi Hv) as HR. fold rle rle' in HR.
  pose proof (stream_size rle' (raised_stream _ _ _ _ HR)) as Hsz'.
  pose proof (stream_bytes _ Hst) as Hb. unfold rle in Hb. apply bytes_ok_app in Hb as [Hb1 _].
  assert (Eloc : locate (rle ++ slack) idx 18 0 = Some (18 + zlen l1, 0 + cover l1, op_len op, op)).
  { unfold rle. rewrite <- app_assoc. cbn [app]. apply locate_found; [done|lia]. }
  unfold update_sparse_reg, ptr. rewrite layout_size, layout_from, (shape_header self shape), Eloc by done.
  cbn [mbind option_bind]. rewrite Hz, Z.add_0_l. cbn [negb]. set (buf := split_range idx v (cover l1) (op_len op)) in *.
  pose proof (split_size idx v (cover l1) (op_len op)) as Hbuf. fold buf in Hbuf.
  assert (Erle : zlen rle = zlen l1 + 1 + zlen l2) by (unfold rle; rewrite zlen_app, zlen_cons; lia).
  assert (Erle' : zlen rle' = zlen rle + zlen buf - 1) by (unfold rle'; rewrite !zlen_app; lia).
  pose proof (zlen_nonneg l1). pose proof (zlen_nonneg l2).
  replace (wadd 64 (wsub 64 (18 + zlen rle) (18 + zlen l1 + 1)) 1) with (zlen l2 + 1).
  2: { unfold wadd, wsub. rewrite (wrap_id 64 (18 + zlen rle - (18 + zlen l1 + 1))), wrap_id by (unfold fits; lia). lia. }
  destruct slack as [|s0 slack]; [rewrite zlen_nil in *; lia|]. rewrite zlen_cons in *.
  pose proof (shift_suffix (pre ++ card ++ le_bytes 2 (zlen rle) ++ l1) op l2 s0 slack buf ltac:(lia)) as E.
  replace (zlen (pre ++ card ++ le_bytes 2 (zlen rle) ++ l1)) with (18 + zlen l1) in E
    by (rewrite !zlen_app, zlen_le_bytes; destruct Hpre as (Hl & _); lia).
  repeat rewrite <- app_assoc in E.
  replace (l1 ++ op :: l2 ++ s0 :: slack) with (rle ++ s0 :: slack) in E by (unfold rle; by rewrite <- app_assoc).
  destruct (copy_within _ _ _ _) as [p1|]; [|done]. cbn [mbind option_bind] in E |- *. rewrite E. cbn [mbind option_bind].
  rewrite set_rle_header by (done || by rewrite zlen_le_bytes). cbn [mbind option_bind].
  rewrite wrap_id by (unfold fits; lia). rewrite <- Erle'.
  set (slack' := s0 :: drop (length buf) (s0 :: slack)).
  replace (l1 ++ buf ++ l2 ++ slack') with (rle' ++ slack') by (unfold rle'; by rewrite <- !app_assoc).
  destruct (void_card pre card (le_bytes 2 (zlen rle') ++ rle' ++ slack') Hpre Hcard) as [Ec Hc]. rewrite Ec.
  cbn [mbind option_bind]. eexists. split; [done|]. split; [|done].
  replace (1 + zlen slack - (zlen rle' - zlen rle)) with (zlen slack').
  2: { unfold slack', zlen in *. cbn [length]. rewrite length_drop. cbn [length]. lia. }
  eapply void_payload; [done..| |apply HR]. apply Forall_cons_1 in Hsl as [Hs0 Hsl]. constructor; [done|].
  apply Forall_drop. by constructor.
Qed.

(** A register is raised in place when the stream leaves a byte more than it
    grows by. *)
Lemma update_sparse_reg_ok ptr rle n idx v : SparsePayload ptr rle n -> 0 <= idx < mcnt self -> 1 <= v <= qbit self + 1 ->
  exists rle', Raised idx v rle rle' /\
    (zlen rle' - zlen rle < n -> exists ptr' u, update_sparse_reg self ptr idx v = Some (ptr', u) /\
       SparsePayload ptr' rle' (n - (zlen rle' - zlen rle)) /\ Touched ptr ptr' u /\
       (u = true <-> expand rle' <> expand rle)).
Proof.
  intros (pre & card & slack & -> & Hpre & Hcard & Hok & Hsl & <- & Hst) Hi Hv.
  destruct (covering rle idx (stream_bytes _ Hst)) as (l1 & op & l2 & -> & Hc); [by rewrite (stream_cover _ Hst)|].
  destruct (is_zero_range op) eqn:Hz.
  - eexists. split; [by apply raised_range|]. intros Hroom.
    pose proof (raised_range l1 op l2 idx v Hst Hz Hc Hv) as HR.
    destruct (update_range_ok pre card slack l1 op l2 idx v) as (ptr' & E & Hp & Hcd); try done.
    exists ptr', true. split_and!; try done. split; [|done]. intros _. rewrite (raised_regs _ _ _ _ HR).
    pose proof (stream_bytes _ Hst) as Hb. apply bytes_ok_app in Hb as [_ Hb]. apply Forall_cons_1 in Hb as [Hop _].
    assert (Ereg : op_regs op = replicate (Z.to_nat (idx - cover l1)) 0 ++ 0 :: replicate (Z.to_nat (cover l1 + op_len op - 1 - idx)) 0).
    { unfold op_regs, op_len in *. rewrite Hz in *. rewrite <- replicate_S, <- replicate_add. f_equal. lia. }
    rewrite expand_app. cbn [expand flat_map]. rewrite Ereg, <- app_assoc. cbn [app]. rewrite app_assoc.
    apply raise_grows; [|lia]. rewrite zlen_app, zlen_replicate. fold (cover l1). lia.
  - assert (El : op_len op = 1) by (unfold op_len; by rewrite Hz).
    destruct (update_value_ok pre card slack l1 op l2 idx v) as (rle' & ptr' & u & HR & Hlen & E & Hp & Ht & Hu); try done; [lia|].
    exists rle'. split; [done|]. intros _. exists ptr', u. rewrite Hlen, Z.sub_diag, Z.sub_0_r. done.
Qed.

End Self.
End Streams.
