(* ===== verification/HyperLogSpec.v ===== *)
(** * HyperLogLog: elements, unions and payload growth

    The payload functions of the commands against the register file they stand
    for: adding elements raises registers, merging takes maxima, and neither
    representation nor growth changes what is counted. *)

From stdpp Require Import base list numbers option tactics.
From Stdlib Require Import ZArith Lia Bool.
From S2P Require Import Prelude Bytes Hasher HyperLog HyperLogRegs HyperLogSparse.

Module HllSpec.
Import Murmur HyperLog Kernel Regs Streams.

Lemma lxor_fits w x y : 0 <= w -> fits w x -> fits w y -> fits w (Z.lxor x y).
Proof.
  intros Hw Hx Hy. apply fits_of_bits; [done|apply Z.lxor_nonneg; unfold fits in *; lia|].
  intros i Hi. by rewrite Z.lxor_spec, (fits_high w x), (fits_high w y) by (done || lia).
Qed.

Lemma murmur_fits e : fits 64 (murmur_hash_2_x64_a e).
Proof.
  unfold murmur_hash_2_x64_a, murmur_hash2_x64_a. destruct (Hasher.as_chunks 8 e) as [blocks suffix].
  set (h := wmul 64 _ m). assert (Hh : fits 64 h) by (apply wrap_fits; lia). clearbody h.
  apply lxor_fits; [lia|done|]. eapply fits_mono; [by apply (fits_shiftr 64 r)|]. unfold r. lia.
Qed.

(** ** Pointwise order *)

Definition le_regs : list Z -> list Z -> Prop := Forall2 Z.le.

#[local] Instance le_regs_preorder : PreOrder le_regs.
Proof.
  split.
  - intros l. induction l; constructor; [lia|done].
  - intros a b c H. revert c. induction H as [|x y a b Hxy _ IH]; intros c Hc; inversion Hc; subst; constructor; [lia|by apply IH].
Qed.

Lemma le_regs_antisym a b : le_regs a b -> le_regs b a -> a = b.
Proof.
  intros H. induction H as [|x y a b Hxy _ IH]; intros H'; [done|]. inversion H'; subst. f_equal; [lia|by apply IH].
Qed.

Lemma raise_le R i v : le_regs R (raise R i v).
Proof.
  unfold le_regs, raise. generalize (Z.to_nat i). induction R as [|x R IH]; intros [|n]; cbn; constructor; try lia.
  - change (le_regs R R). reflexivity.
  - apply IH.
Qed.

(** ** Elements *)

Section Self.

Variable self : HyperLogLog.
Hypothesis shape : Shape self.

Definition add_hash (R : list Z) (hv : Z) : list Z := raise R (reg_idx self hv) (clz self hv).

Definition add_element (R : list Z) (e : list Z) : list Z := add_hash R (murmur_hash_2_x64_a e).

(** The registers after a list of elements. *)
Definition add_all (R : list Z) (elements : list (list Z)) : list Z := fold_left add_element elements R.

Lemma add_all_le elements : forall R, le_regs R (add_all R elements).
Proof.
  induction elements as [|e es IH]; intros R; [done|]. cbn. etransitivity; [apply raise_le|apply IH].
Qed.

Lemma reg_idx_bound hv : 0 <= hv -> 0 <= reg_idx self hv < mcnt self.
Proof.
  intros Hhv. pose proof (mcnt_bytes self shape) as [_ Hm]. unfold reg_idx.
  assert (0 <= Z.land hv (mcnt self - 1) <= mcnt self - 1).
  { split; [apply Z.land_nonneg; lia|].
    assert (E : Z.ldiff (Z.land hv (mcnt self - 1)) (mcnt self - 1) = 0).
    { apply Z.bits_inj'. intros i Hi. rewrite Z.ldiff_spec, Z.land_spec, Z.testbit_0_l.
      by destruct (Z.testbit hv i), (Z.testbit (mcnt self - 1) i). }
    apply Z.sub_nocarry_ldiff in E. pose proof (proj2 (Z.ldiff_nonneg (mcnt self - 1) (Z.land hv (mcnt self - 1)))). lia. }
  rewrite wrap_id by (unfold fits; lia). lia.
Qed.

Lemma clz_bound hv : fits 64 hv -> 1 <= clz self hv <= qbit self + 1.
Proof.
  intros [H0 H1]. pose proof (shape_qbit self shape). unfold clz, leading_zeros.
  destruct (Z.eqb_spec hv 0).
  - rewrite wrap_id by (unfold fits; lia). lia.
  - pose proof (Z.log2_nonneg hv). assert (Z.log2 hv < 64) by (apply Z.log2_lt_pow2; lia).
    rewrite wrap_id by (unfold fits; lia). lia.
Qed.

(** A loop over elements, whatever the representation: [Inv k] is what holds
    with [k] elements still to come. *)
Lemma iterate_ok (upd : list Z -> Z -> option (list Z * bool)) (Inv : nat -> list Z -> list Z -> Prop) :
  (forall k ptr R hv, fits 64 hv -> Inv (S k) ptr R -> exists ptr' u,
     upd ptr hv = Some (ptr', u) /\ Inv k ptr' (add_hash R hv) /\ Touched ptr ptr' u /\ (u = true <-> add_hash R hv <> R)) ->
  forall es ptr R f, Inv (length es) ptr R -> exists ptr' u,
    iterate upd es ptr f = Some (ptr', f || u) /\ Inv 0%nat ptr' (add_all R es) /\ Touched ptr ptr' u /\
    (u = true <-> add_all R es <> R).
Proof.
  intros Hstep. induction es as [|e es IH]; intros ptr R f HI.
  { exists ptr, false. rewrite orb_false_r. split_and!; done. }
  destruct (Hstep _ ptr R (murmur_hash_2_x64_a e) (murmur_fits e) HI) as (p1 & u1 & E1 & HI1 & Ht1 & Hu1).
  destruct (IH p1 (add_element R e) (f || u1) HI1) as (p2 & u2 & E2 & HI2 & Ht2 & Hu2).
  exists p2, (u1 || u2). cbn [iterate]. rewrite E1. cbn [mbind option_bind]. rewrite E2, orb_assoc. split_and!; [done..| |].
  - destruct u2; [by rewrite orb_true_r|]. cbn in Ht2. subst p2. by rewrite orb_false_r.
  - change (add_all R (e :: es)) with (add_all (add_element R e) es). destruct u1; cbn [orb].
    + split; [|done]. intros _ E. apply (proj1 Hu1); [done|]. apply le_regs_antisym; [|apply raise_le].
      rewrite <- E at 2. apply add_all_le.
    + assert (EQ : add_element R e = R).
      { destruct (decide (add_element R e = R)); [done|]. by apply Hu1 in n. }
      rewrite EQ in *. done.
Qed.

Lemma iterate_dense es ptr R : DensePayload self ptr R -> exists ptr' u,
  iterate_update self es ptr true = Some (ptr', u) /\ DensePayload self ptr' (add_all R es) /\ Touched ptr ptr' u /\
  (u = true <-> add_all R es <> R).
Proof.
  intros Hd. apply (iterate_ok _ (fun _ => DensePayload self)) with (f := false); [|done].
  intros _ p R' hv Hhv Hp. pose proof (clz_bound hv Hhv). pose proof (shape_qbit self shape).
  apply update_dense_register_ok; [done..|apply reg_idx_bound, Hhv|unfold fits; lia].
Qed.

(** A stream that has grown out of [rle0] in a payload of [total] bytes. *)
Definition Grown (rle0 : list Z) (total : Z) (ptr rle : list Z) (n : Z) : Prop :=
  SparsePayload self ptr rle n /\ zlen rle + n = total /\ (forall x, x ∈ starts 0 rle0 -> x ∈ starts 0 rle).

Lemma set_card_sparse ptr rle n c : SparsePayload self ptr rle n -> exists ptr',
  set_card ptr c = Some ptr' /\ SparsePayload self ptr' rle n /\ (i64_min <= c <= i64_max -> get_card ptr' = c).
Proof.
  intros (pre & card & slack & -> & Hpre & Hcard & Hok & Hsl & <- & Hst).
  rewrite (set_card_header pre card _ Sparse) by done. eexists. split; [done|]. split.
  - exists pre, (le_bytes 8 (of_i64 c)), slack. split_and!; try done. apply bytes_ok_app in Hok as [? _].
    apply bytes_ok_app. split; [done|apply le_bytes_ok].
  - intros Hc. apply get_card_header; [apply Hpre|done].
Qed.

(** One register of a stream with room for two more bytes and one to spare. *)
Lemma raise_grown rle0 total ptr rle n idx v : Grown rle0 total ptr rle n -> 2 < n ->
  0 <= idx < mcnt self -> 1 <= v <= qbit self + 1 -> exists ptr' rle' n' u,
  update_sparse_reg self ptr idx v = Some (ptr', u) /\ Grown rle0 total ptr' rle' n' /\ n - 2 <= n' /\
  expand rle' = raise (expand rle) idx v /\ Touched ptr ptr' u /\ (u = true <-> raise (expand rle) idx v <> expand rle).
Proof.
  intros (Hp & Ht & Hs) Hn Hi Hv. destruct (update_sparse_reg_ok self shape ptr rle n idx v Hp Hi Hv) as (rle' & HR & Hroom).
  pose proof (raised_size _ _ _ _ _ HR) as Hsz. destruct Hroom as (ptr' & u & E & Hp' & Htc & Hu); [lia|].
  exists ptr', rle', (n - (zlen rle' - zlen rle)), u. rewrite <- (raised_regs _ _ _ _ _ HR).
  split_and!; try done; [|lia]. split_and!; [done|lia|]. intros x Hx. by apply (raised_keeps _ _ _ _ _ HR), Hs.
Qed.

Lemma iterate_sparse es ptr rle n : SparsePayload self ptr rle n -> 2 * zlen es < n -> exists ptr' rle' n' u,
  iterate_update self es ptr false = Some (ptr', u) /\ Grown rle (zlen rle + n) ptr' rle' n' /\
  expand rle' = add_all (expand rle) es /\ Touched ptr ptr' u /\ (u = true <-> add_all (expand rle) es <> expand rle).
Proof.
  intros Hp Hn.
  destruct (iterate_ok (update_sparse self) (fun k p R => exists r m, Grown rle (zlen rle + n) p r m /\ 2 * Z.of_nat k < m /\ expand r = R))
    with (es := es) (ptr := ptr) (R := expand rle) (f := false) as (ptr' & u & E & (r & k & HG & _ & Er) & Ht & Hu).
  - intros k p R hv Hhv (r & j & HG & Hj & <-).
    destruct (raise_grown rle _ p r j (reg_idx self hv) (clz self hv) HG) as (p' & r' & n' & u & E & HG' & Hn' & Er & Ht & Hu);
      [lia|apply reg_idx_bound, Hhv|by apply clz_bound|].
    unfold update_sparse. rewrite E. cbn [mbind option_bind]. destruct u.
    + destruct HG' as (Hp' & Htot & Hst). destruct (set_card_sparse p' r' n' i64_min Hp') as (p2 & E2 & Hp2 & Hc).
      rewrite E2. cbn [mbind option_bind]. exists p2, true. split_and!; try done.
      * exists r', n'. split_and!; [done|lia|done].
      * apply Hc. unfold i64_min, i64_max. lia.
    + exists p', false. split_and!; try done. exists r', n'. split_and!; [done|lia|done].
  - exists rle, n. split_and!; done.
  - exists ptr', r, k, u. done.
Qed.

(** ** Streams cut at blocks of 128 registers *)

Definition Aligned (rle : list Z) : Prop := forall k, 0 <= k < mcnt self / 128 -> 128 * k ∈ starts 0 rle.

Definition fresh : list Z := replicate (Z.to_nat (sparse_zero_ranges self)) 0xFF.

Lemma fresh_expand n : expand (replicate n 0xFF) = replicate (128 * n) 0.
Proof.
  induction n as [|n IH]; [done|]. cbn [replicate expand flat_map]. fold (expand (replicate n 255)).
  change (op_regs 255) with (replicate 128 0). rewrite IH, <- replicate_add. f_equal. lia.
Qed.

Lemma fresh_starts n : forall off x, x ∈ starts off (replicate n 0xFF) <-> exists k, 0 <= k < Z.of_nat n /\ x = off + 128 * k.
Proof.
  induction n as [|n IH]; intros off x.
  { cbn. rewrite elem_of_nil. split; [done|]. intros (k & Hk & _). lia. }
  cbn [replicate starts]. change (op_len 255) with 128. rewrite elem_of_cons, IH. split.
  - intros [->|(k & Hk & ->)]; [exists 0|exists (k + 1)]; lia.
  - intros (k & Hk & ->). destruct (Z.eq_dec k 0) as [->|]; [left; lia|]. right. exists (k - 1). lia.
Qed.

Lemma fresh_stream : Stream self fresh /\ Aligned fresh /\ expand fresh = replicate (Z.to_nat (mcnt self)) 0 /\
  (forall rle, Aligned rle -> forall x, x ∈ starts 0 fresh -> x ∈ starts 0 rle).
Proof.
  destruct (shape_mcnt self shape) as (k & Hk & Ek). pose proof (shape_qbit self shape) as Hq.
  assert (Eq : mcnt self / 128 = k) by (rewrite Ek, Z.mul_comm; apply Z.div_mul; lia).
  assert (Er : sparse_zero_ranges self = k) by (by rewrite (shape_ranges self shape)).
  assert (Ex : expand fresh = replicate (Z.to_nat (mcnt self)) 0).
  { unfold fresh. rewrite fresh_expand, Er. f_equal. lia. }
  split_and!; [split| |done|].
  - apply Forall_replicate. unfold fits. lia.
  - unfold cover. rewrite Ex, zlen_replicate. lia.
  - rewrite Ex. apply Forall_replicate. lia.
  - intros j Hj. unfold fresh. apply fresh_starts. exists j. lia.
  - intros rle Ha x Hx. unfold fresh in Hx. apply fresh_starts in Hx as (j & Hj & ->). apply Ha. lia.
Qed.

(** Cutting a list at a length. *)
Lemma cut (l : list Z) n : 0 <= n <= zlen l -> bytes_ok l ->
  exists a b, l = a ++ b /\ zlen a = n /\ zlen b = zlen l - n /\ bytes_ok a /\ bytes_ok b.
Proof.
  intros Hn Hok. exists (take (Z.to_nat n) l), (drop (Z.to_nat n) l). rewrite take_drop.
  unfold zlen in *. rewrite length_take, length_drop. split_and!; [done|lia|lia|by apply Forall_take|by apply Forall_drop].
Qed.

Lemma init_sparse_ok ptr : bytes_ok ptr -> 18 + sparse_zero_ranges self <= zlen ptr -> exists ptr',
  init_sparse self ptr = Some ptr' /\ SparsePayload self ptr' fresh (zlen ptr - 18 - sparse_zero_ranges self) /\
  get_card ptr' = i64_min.
Proof.
  intros Hok Hl. destruct fresh_stream as (Hst & _). pose proof (stream_size self shape fresh Hst) as Hsz.
  assert (Hzr : 0 <= sparse_zero_ranges self) by (rewrite (shape_ranges self shape); pose proof (mcnt_bytes self shape); apply Z.div_pos; lia).
  assert (Ef : zlen fresh = sparse_zero_ranges self) by (unfold fresh; rewrite zlen_replicate; lia).
  destruct (cut ptr 8) as (a & r1 & -> & Ha & Hr1 & Hoka & Hok1); [lia|done|].
  destruct (cut r1 8) as (b & r2 & -> & Hb & Hr2 & Hokb & Hok2); [lia|done|].
  destruct (cut r2 2) as (c & r3 & -> & Hc & Hr3 & Hokc & Hok3); [lia|done|].
  destruct (cut r3 (zlen fresh)) as (d & e & -> & Hd & He & Hokd & Hoke); [lia|done|].
  destruct (prefix_new Sparse) as (pre & Hpre & Hokp & E). specialize (E a (b ++ c ++ d ++ e) Ha).
  unfold init_sparse. destruct (set_prefix _) as [p1|]; [|done]. cbn [mbind option_bind] in *. rewrite E. cbn [mbind option_bind].
  rewrite (set_card_header pre b _ Sparse) by done. cbn [mbind option_bind]. fold no_card.
  rewrite (set_rle_header pre _ c (d ++ e)) by done. cbn [mbind option_bind].
  rewrite wrap_id by (unfold fits; lia). replace (le_bytes 2 (sparse_zero_ranges self)) with (le_bytes 2 (zlen fresh)) by (by rewrite Ef).
  unfold fill, HLL_HEADER_BYTES.
  replace (16 + 2 + sparse_zero_ranges self - (16 + 2)) with (sparse_zero_ranges self) by lia. fold fresh.
  pose proof (write_mid (pre ++ no_card ++ le_bytes 2 (zlen fresh)) d fresh e (16 + 2)) as Ew.
  repeat rewrite <- app_assoc in Ew. rewrite Ew; [| |lia].
  2: { destruct Hpre as (Hp & _). rewrite !zlen_app, zlen_le_bytes. change (zlen no_card) with 8. lia. }
  eexists. split; [done|]. destruct (void_card pre no_card (le_bytes 2 (zlen fresh) ++ fresh ++ e) Hpre eq_refl) as [_ Hcd].
  split; [|done]. replace (zlen (a ++ b ++ c ++ d ++ e) - 18 - sparse_zero_ranges self) with (zlen e) by (rewrite !zlen_app in *; lia).
  eapply void_payload; [done| |done..]. apply bytes_ok_app. split; [done|exact Hokb].
Qed.

(** ** Merging *)

Lemma decode_op_eq op : decode_op op = (is_zero_range op, op_len op, if is_zero_range op then 0 else get_non_zero op).
Proof. unfold decode_op, op_len. by destruct (is_zero_range op). Qed.

(** The loop over a source stream, whatever the destination: [Inv rest] is what
    holds with the codes [rest] still to come. *)
Lemma apply_ops_ok (upd : list Z -> Z -> Z -> option (list Z * bool)) (Inv : list Z -> list Z -> list Z -> Prop) src R :
  Stream self src -> length R = Z.to_nat (mcnt self) -> Forall (fun x => 0 <= x) R ->
  (forall op rest ptr R', is_zero_range op = true -> Inv (op :: rest) ptr R' -> Inv rest ptr R') ->
  (forall pre op rest ptr R', src = pre ++ op :: rest -> is_zero_range op = false -> 0 <= cover pre < mcnt self ->
     1 <= get_non_zero op <= qbit self + 1 -> Inv (op :: rest) ptr R' -> exists ptr' u,
     upd ptr (cover pre) (get_non_zero op) = Some (ptr', u) /\ Inv rest ptr' (raise R' (cover pre) (get_non_zero op)) /\ Touched ptr ptr' u) ->
  forall rest pre ptr f, src = pre ++ rest -> Inv rest ptr (pjoin (Z.to_nat (cover pre)) R (expand src)) -> exists ptr' u,
    apply_ops upd (decode_sparse_ops rest) (cover pre) ptr f = Some (ptr', f || u) /\
    Inv [] ptr' (join R (expand src)) /\ Touched ptr ptr' u.
Proof.
  intros Hst HR Hpos Hzero Hval. pose proof (stream_length self src Hst) as Hlen.
  induction rest as [|op rest IH]; intros pre ptr f Hsrc HI.
  { rewrite app_nil_r in Hsrc. subst pre. exists ptr, false. rewrite orb_false_r. split_and!; [done| |done].
    rewrite pjoin_full in HI; [done|congruence|]. rewrite HR, (stream_cover _ _ Hst). lia. }
  assert (Hsrc' : src = (pre ++ [op]) ++ rest) by (by rewrite <- app_assoc).
  pose proof (stream_bytes _ _ Hst) as Hb. rewrite Hsrc in Hb. apply bytes_ok_app in Hb as [Hbp Hbr].
  apply Forall_cons_1 in Hbr as [Hop Hbr]. pose proof (cover_nonneg pre) as Hcp. pose proof (op_len_bounds op Hop) as Hol.
  pose proof (stream_cover _ _ Hst) as Hc. rewrite Hsrc, cover_app, cover_cons in Hc by done. pose proof (cover_nonneg rest).
  assert (Ec : cover (pre ++ [op]) = cover pre + op_len op) by (rewrite cover_app, cover_cons, cover_nil by done; lia).
  assert (Elk : forall i, (i < Z.to_nat (op_len op))%nat -> expand src !! (Z.to_nat (cover pre) + i)%nat = op_regs op !! i).
  { intros i Hi. rewrite Hsrc, expand_app. unfold cover, zlen. rewrite Nat2Z.id, lookup_app_r by lia.
    replace (length (expand pre) + i - length (expand pre))%nat with i by lia. cbn [expand flat_map].
    apply lookup_app_l. pose proof (length_op_regs op Hop) as E. unfold zlen in E. lia. }
  cbn [decode_sparse_ops map apply_ops]. fold (decode_sparse_ops rest). rewrite decode_op_eq. destruct (is_zero_range op) eqn:Hz; cbn [negb mbind option_bind].
  - rewrite <- Ec. apply IH; [done|]. apply (Hzero op); [done|]. rewrite Ec, Z2Nat.inj_add by lia.
    rewrite pjoin_zeros; [done|congruence|done|].
    intros i Hi. replace i with (Z.to_nat (cover pre) + (i - Z.to_nat (cover pre)))%nat by lia. rewrite Elk by lia.
    unfold op_regs, op_len in *. rewrite Hz in *. apply lookup_replicate_2. lia.
  - assert (E1 : op_len op = 1) by (unfold op_len; by rewrite Hz).
    assert (Hv : 1 <= get_non_zero op <= qbit self + 1).
    { destruct (op_cases op Hop) as [(_ & E & _)|(_ & _ & Eg)]; [congruence|]. unfold fits in Hop.
      pose proof (stream_values _ _ Hst) as Hvs. rewrite Hsrc, expand_app in Hvs. apply Forall_app in Hvs as [_ Hvs].
      cbn [expand flat_map] in Hvs. unfold op_regs in Hvs. rewrite Hz in Hvs. apply Forall_cons_1 in Hvs as [? _]. lia. }
    pose proof (mcnt_bytes self shape) as [_ Hm]. rewrite wrap_id by (unfold fits; lia).
    destruct (Hval pre op rest ptr _ Hsrc Hz ltac:(lia) Hv HI) as (p1 & u1 & Eu & HI1 & Ht1). rewrite Eu. cbn [mbind option_bind].
    rewrite <- Ec. destruct (IH (pre ++ [op]) p1 (f || u1) Hsrc') as (p2 & u2 & E2 & HI2 & Ht2).
    { rewrite Ec, E1, Z2Nat.inj_add by lia. change (Z.to_nat 1) with 1%nat.
      rewrite (pjoin_succ _ R (expand src) (get_non_zero op)); [by rewrite Z2Nat.id by lia|congruence|].
      pose proof (Elk 0%nat ltac:(lia)) as E0. rewrite Nat.add_0_r in E0. rewrite E0. unfold op_regs. by rewrite Hz. }
    exists p2, (u1 || u2). rewrite E2, orb_assoc. split_and!; [done..|].
    destruct u2; [by rewrite orb_true_r|]. cbn in Ht2. subst p2. by rewrite orb_false_r.
Qed.

Lemma payload_stream ptr rle n : SparsePayload self ptr rle n -> Stream self rle.
Proof. intros (pre & card & slack & _ & _ & _ & _ & _ & _ & Hst). done. Qed.

Definition nnz (rle : list Z) : Z := zlen (List.filter (fun op => negb (is_zero_range op)) rle).

Lemma nnz_cons op rle : nnz (op :: rle) = (if is_zero_range op then 0 else 1) + nnz rle.
Proof. unfold nnz. cbn [List.filter]. destruct (is_zero_range op); cbn [negb]; rewrite ?zlen_cons; lia. Qed.

Lemma sparse_ops_ok ptr rle n : SparsePayload self ptr rle n ->
  sparse_ops self ptr = Some (decode_sparse_ops rle) /\ sparse_count_non_zero self ptr = Some (nnz rle) /\
  sparse_current_size_in_bytes self ptr = 18 + zlen rle /\ zlen ptr = 18 + zlen rle + n.
Proof.
  intros (pre & card & slack & -> & Hpre & Hcard & Hok & Hsl & <- & Hst). pose proof (stream_size self shape rle Hst) as Hsz.
  unfold sparse_ops, sparse_count_non_zero, sparse_current_size_in_bytes. rewrite layout_size by done.
  rewrite layout_zlen by done. pose proof (zlen_nonneg slack).
  assert (Em : Z.min (sparse_header_size self + zlen rle) (18 + zlen rle + zlen slack) = sparse_header_size self + zlen rle).
  { rewrite (shape_header self shape). lia. }
  rewrite Em, layout_stream by done. cbn [mbind option_bind]. split_and!; try done.
  - f_equal. unfold nnz, decode_sparse_ops. clear. induction rle as [|op rle IH]; [done|]. cbn [map List.filter].
    rewrite decode_op_eq. destruct (is_zero_range op); cbn [negb]; rewrite ?zlen_cons; lia.
  - by rewrite (shape_header self shape).
Qed.

Lemma sparse_to_dense_ok src rle n dst R : SparsePayload self src rle n -> DensePayload self dst R -> exists dst' u,
  sparse_to_dense self src dst = Some (dst', u) /\ DensePayload self dst' (join R (expand rle)) /\ Touched dst dst' u.
Proof.
  intros Hs Hd. destruct (sparse_ops_ok src rle n Hs) as (Eo & _). unfold sparse_to_dense. rewrite Eo. cbn [mbind option_bind].
  pose proof (payload_stream _ _ _ Hs) as Hst. pose proof (shape_qbit self shape).
  apply (apply_ops_ok _ (fun _ => DensePayload self)) with (pre := []) (f := false); try done.
  - by eapply payload_length.
  - eapply Forall_impl; [|by eapply payload_values]. cbn. lia.
  - intros pre op rest p R' _ _ Hc Hv Hp.
    destruct (update_dense_register_ok self shape p R' (cover pre) (get_non_zero op) Hp) as (p' & u & E & Hp' & Ht & _);
      [lia|unfold fits; lia|]. by exists p', u.
Qed.

Lemma expand_nonneg rle : Stream self rle -> Forall (fun x => 0 <= x) (expand rle).
Proof. intros Hst. eapply Forall_impl; [|exact (stream_values _ _ Hst)]. cbn. lia. Qed.

Lemma sparse_to_sparse_ok src rle n dst rle0 n0 : SparsePayload self src rle n -> SparsePayload self dst rle0 n0 ->
  2 * nnz rle < n0 -> exists dst' u rle' n',
  sparse_to_sparse self src dst = Some (dst', u) /\ Grown rle0 (zlen rle0 + n0) dst' rle' n' /\
  expand rle' = join (expand rle0) (expand rle) /\ Touched dst dst' u.
Proof.
  intros Hs Hd Hn. destruct (sparse_ops_ok src rle n Hs) as (Eo & _). unfold sparse_to_sparse. rewrite Eo. cbn [mbind option_bind].
  pose proof (payload_stream _ _ _ Hs) as Hst.
  pose proof (payload_stream _ _ _ Hd) as Hst0.
  destruct (apply_ops_ok (update_sparse_reg self)
    (fun rest p R => exists r k, Grown rle0 (zlen rle0 + n0) p r k /\ 2 * nnz rest < k /\ expand r = R) rle (expand rle0) Hst)
    with (rest := rle) (pre := @nil Z) (ptr := dst) (f := false) as (p & u & E & (r & k & HG & _ & Er) & Ht).
  - by apply stream_length.
  - by apply expand_nonneg.
  - intros op rest p R' Hz (r & k & HG & Hk & Er). rewrite nnz_cons, Hz in Hk. by exists r, k.
  - intros pre op rest p R' _ Hz Hc Hv (r & k & HG & Hk & <-). rewrite nnz_cons, Hz in Hk.
    assert (0 <= nnz rest) by apply zlen_nonneg.
    destruct (raise_grown rle0 _ p r k (cover pre) (get_non_zero op) HG) as (p' & r' & k' & u & E & HG' & Hk' & Er & Ht & _); [lia..|].
    exists p', u. split_and!; try done. exists r', k'. split_and!; [done|lia|done].
  - done.
  - rewrite cover_nil. change (Z.to_nat 0) with 0%nat. rewrite pjoin_0. by exists rle0, n0.
  - exists p, u, r, k. done.
Qed.

Lemma join_zeros S : Forall (fun x => 0 <= x) S -> join (replicate (length S) 0) S = S.
Proof. unfold join. induction 1 as [|x S Hx _ IH]; [done|]. cbn. rewrite IH. f_equal. lia. Qed.

(** Replaying an aligned stream into a fresh one never takes more codes than it
    has itself. *)
Lemma rebuild_ok old rle n dst n0 : SparsePayload self old rle n -> Aligned rle -> SparsePayload self dst fresh n0 ->
  zlen rle < zlen fresh + n0 -> exists dst' u rle' n',
  sparse_to_sparse self old dst = Some (dst', u) /\ Grown fresh (zlen fresh + n0) dst' rle' n' /\
  expand rle' = expand rle /\ zlen rle' <= zlen rle /\ Touched dst dst' u.
Proof.
  intros Hs Ha Hd Hroom. destruct (sparse_ops_ok old rle n Hs) as (Eo & _). unfold sparse_to_sparse. rewrite Eo. cbn [mbind option_bind].
  pose proof (payload_stream _ _ _ Hs) as Hst. destruct fresh_stream as (Hf & _ & Ef & Hsub).
  destruct (apply_ops_ok (update_sparse_reg self)
    (fun rest p R => exists r k, Grown fresh (zlen fresh + n0) p r k /\ (forall x, x ∈ starts 0 r -> x ∈ starts 0 rle) /\ expand r = R)
    rle (expand fresh) Hst)
    with (rest := rle) (pre := @nil Z) (ptr := dst) (f := false) as (p & u & E & (r & k & HG & Hr & Er) & Ht).
  - by apply stream_length.
  - by apply expand_nonneg.
  - done.
  - intros pre op rest p R' Hsrc Hz Hc Hv (r & k & (Hp & Htot & Hk) & Hr & <-).
    destruct (update_sparse_reg_ok self shape p r k (cover pre) (get_non_zero op) Hp Hc Hv) as (r' & HR & Hup).
    pose proof (stream_bytes _ _ Hst) as Hb. rewrite Hsrc in Hb. apply bytes_ok_app in Hb as [Hbp Hbr]. apply Forall_cons_1 in Hbr as [Hop Hbr].
    assert (Hr' : forall x, x ∈ starts 0 r' -> x ∈ starts 0 rle).
    { intros x Hx. apply (raised_adds _ _ _ _ _ HR) in Hx as [Hx|Hx]; [by apply Hr|].
      rewrite Hsrc, starts_app, Z.add_0_l by done. apply elem_of_app. right. cbn [starts]. apply elem_of_cons.
      destruct Hx as [->|[-> Hlt]]; [by left|right]. unfold op_len. rewrite Hz.
      destruct rest as [|o rest]; [|cbn [starts]; apply elem_of_cons; by left].
      pose proof (stream_cover _ _ Hst) as Hcov. rewrite Hsrc, cover_app, cover_cons, cover_nil in Hcov by done.
      unfold op_len in Hcov. rewrite Hz in Hcov. lia. }
    pose proof (starts_le r' rle (stream_bytes _ _ (raised_stream _ _ _ _ _ HR)) Hr').
    destruct Hup as (p' & u & E & Hp' & Ht & _); [lia|]. exists p', u. split_and!; [done| |done].
    exists r', (k - (zlen r' - zlen r)). split_and!; [|done|apply (raised_regs _ _ _ _ _ HR)]. split_and!; [done|lia|].
    intros x Hx. by apply (raised_keeps _ _ _ _ _ HR), Hk.
  - done.
  - rewrite cover_nil. change (Z.to_nat 0) with 0%nat. rewrite pjoin_0. exists fresh, n0. split_and!; try done. by apply Hsub.
  - exists p, u, r, k. split_and!; try done.
    + rewrite Er, Ef, <- (stream_length _ _ Hst). by apply join_zeros, expand_nonneg.
    + apply starts_le; [|done]. destruct HG as (Hp & _). apply (payload_stream _ _ _ Hp).
Qed.

End Self.
End HllSpec.
