(* ===== verification/HyperLogCmd.v ===== *)
(** * The payload functions of PFADD, PFCOUNT and PFMERGE

    A payload that passes validation stands for a register file ([View],
    [good_view]); creating, extending, merging and counting payloads
    ([wedb/wnode/src/resp/hyperloglog/hyper_log_log_commands.rs]) are operations on
    register files, whatever the encodings and the growth in between. *)

From stdpp Require Import base list numbers option tactics.
From Stdlib Require Import ZArith Lia Bool.
From S2P Require Import Prelude Bytes Hasher HyperLog HyperLogRegs HyperLogSparse HyperLogSpec.

Module HllCmd.
Import Murmur HyperLog Kernel Regs Streams HllSpec.

Abbreviation hll := HyperLog.new.

(** ** Valid payloads *)

Definition Good (ptr : list Z) : Prop := bytes_ok ptr /\ is_valid_hyll hll ptr = Some true.

Definition stream_of (ptr : list Z) : list Z := slice 18 (18 + get_sparse_rle_size ptr) ptr.

(** The registers a payload stands for. *)
Definition registers (ptr : list Z) : list Z :=
  if is_dense ptr then regs_of hll (slice_from 16 ptr) else expand (stream_of ptr).

(** No range of zeros of a sparse payload crosses a multiple of 128, as in every
    payload that grew from an empty one. *)
Definition block_aligned (ptr : list Z) : bool :=
  is_dense ptr || forallb (fun k => existsb (Z.eqb (128 * k)) (starts 0 (stream_of ptr))) (seqZ 0 128).

Definition empty_registers : list Z := replicate (Z.to_nat (mcnt hll)) 0.

Inductive View (ptr R : list Z) : Prop :=
| view_dense : DensePayload hll ptr R -> View ptr R
| view_sparse rle n : SparsePayload hll ptr rle n -> expand rle = R -> 274 <= zlen ptr <= 4096 -> View ptr R.

#[local] Hint Resolve new_shape : core.

Lemma is_hyll_slice ptr : is_hyll ptr = true -> slice 4 8 ptr = le_bytes 4 HYLL_MAGIC.
Proof. unfold is_hyll, range. destruct (_ && _); [|done]. apply bytes_eqb_eq. Qed.

Lemma prefix_cut pre rest d : zlen pre = 8 -> get_type (pre ++ rest) = dtype_u8 d -> is_hyll (pre ++ rest) = true -> Prefix pre d.
Proof.
  intros Hl Ht Hh. apply is_hyll_slice in Hh. split; [done|]. split.
  - unfold get_type in Ht. rewrite lookup_app_l in Ht by (unfold zlen in Hl; lia).
    destruct (lookup_lt_is_Some_2 pre 3) as [x Hx]; [unfold zlen in Hl; lia|]. rewrite Hx in *. cbn in Ht. by rewrite Ht.
  - rewrite <- Hh. unfold slice, zlen in *. rewrite drop_app_le, take_app_le; [done|rewrite length_drop|]; lia.
Qed.

Lemma valid_ops_iff rle : forall c, bytes_ok rle ->
  valid_ops hll (decode_sparse_ops rle) c = true <->
  c + cover rle = mcnt hll /\ Forall (fun x => 0 <= x <= qbit hll + 1) (expand rle).
Proof.
  induction rle as [|op rle IH]; intros c Hok; cbn [decode_sparse_ops map valid_ops].
  { rewrite Z.eqb_eq, cover_nil. split; [intros ->; split; [lia|constructor]|lia]. }
  apply Forall_cons_1 in Hok as [Hop Hok]. fold (decode_sparse_ops rle). rewrite decode_op_eq, cover_cons by done.
  pose proof (op_len_bounds op Hop). pose proof (cover_nonneg rle). cbn [expand flat_map]. fold (expand rle). rewrite Forall_app.
  unfold op_len, op_regs in *. destruct (op_cases op Hop) as [(_ & -> & E)|(_ & -> & E)]; cbn [negb andb].
  - destruct (Z.ltb_spec (mcnt hll) (c + zero_range_len op)); [split; [done|lia]|]. rewrite IH by done.
    split; [intros [? ?]; split_and!; [lia|apply Forall_replicate; unfold qbit, hll, DEFAULT_QBIT, HBIT, DEFAULT_PBIT; lia|done]|].
    intros (? & _ & ?). split; [lia|done].
  - destruct (Z.ltb_spec (qbit hll + 1) (get_non_zero op)).
    { split; [done|]. intros (_ & Hv & _). apply Forall_cons_1 in Hv as [Hv _]. lia. }
    destruct (Z.ltb_spec (mcnt hll) (c + 1)); [split; [done|lia]|]. rewrite IH by done. unfold fits in Hop.
    split; [intros [? ?]; split_and!; [lia|constructor; [lia|constructor]|done]|]. intros (? & _ & ?). split; [lia|done].
Qed.

Lemma valid_hyll_iff ptr : is_valid_hyll hll ptr = Some true <->
  is_hyll ptr = true /\ is_valid_hll_length hll ptr (zlen ptr) = Some true.
Proof.
  unfold is_valid_hyll, is_valid_hyll_len. pose proof (range_mid [] ptr [] 0 (zlen ptr) eq_refl eq_refl) as E.
  rewrite app_nil_r in E. cbn [app] in E. rewrite E. destruct (is_hyll ptr); [tauto|]. split; [done|by intros []].
Qed.

Lemma registers_dense ptr R : DensePayload hll ptr R -> is_dense ptr = true /\ registers ptr = R.
Proof.
  intros (pre & card & reg & -> & Hpre & Hcard & Hok & Hreg & ->).
  assert (Hd : is_dense (pre ++ card ++ reg) = true).
  { unfold is_dense. rewrite (get_type_header pre card reg Dense) by done. done. }
  split; [done|]. unfold registers. rewrite Hd. f_equal. unfold slice_from. rewrite app_assoc.
  apply drop_app_length'. destruct Hpre as (Hl & _). unfold zlen in *. rewrite length_app. lia.
Qed.

Lemma registers_sparse ptr rle n : SparsePayload hll ptr rle n ->
  is_dense ptr = false /\ is_sparse ptr = true /\ registers ptr = expand rle /\ stream_of ptr = rle /\
  get_sparse_rle_size ptr = zlen rle /\ is_hyll ptr = true /\ bytes_ok ptr.
Proof.
  intros (pre & card & slack & -> & Hpre & Hcard & Hok & Hsl & <- & Hst).
  pose proof (stream_size hll new_shape rle Hst) as Hsz.
  set (ptr := pre ++ card ++ le_bytes 2 (zlen rle) ++ rle ++ slack).
  assert (Ht : get_type ptr = 0) by (apply (get_type_header pre card _ Sparse); done).
  assert (Es : stream_of ptr = rle).
  { pose proof (layout_stream hll new_shape pre card rle slack Hpre Hcard) as E. unfold stream_of, ptr. rewrite layout_size by done.
    unfold range in E. destruct (_ && _) in E; [|done]. injection E as E. exact E. }
  assert (Hd : is_dense ptr = false) by (unfold is_dense; by rewrite Ht).
  split_and!; try done.
  - unfold is_sparse. by rewrite Ht.
  - unfold registers. by rewrite Hd, Es.
  - unfold ptr. by apply layout_size.
  - by apply (is_hyll_header pre card _ Sparse).
  - unfold ptr. rewrite app_assoc. apply bytes_ok_app. split; [done|]. apply bytes_ok_app. split; [apply le_bytes_ok|].
    apply bytes_ok_app. split; [apply Hst|done].
Qed.

Lemma view_good ptr R : View ptr R -> Good ptr /\ registers ptr = R.
Proof.
  intros [Hd|rle n Hs <- Hl].
  - destruct (registers_dense ptr R Hd) as [Ed Er]. split; [|done]. pose proof (payload_zlen hll new_shape ptr R Hd) as Hz.
    destruct Hd as (pre & card & reg & -> & Hpre & Hcard & Hok & [Hreg _] & _). split.
    + rewrite app_assoc. by apply bytes_ok_app.
    + apply valid_hyll_iff. split; [by apply (is_hyll_header pre card reg Dense)|].
      unfold is_valid_hll_length. rewrite Ed, Hz. done.
  - destruct (registers_sparse ptr rle n Hs) as (Ed & Esp & Er & Es & Esz & Hh & Hok). split; [|done]. split; [done|].
    apply valid_hyll_iff. split; [done|]. destruct (sparse_ops_ok hll new_shape ptr rle n Hs) as (Eo & _ & _ & Hz).
    unfold is_valid_hll_length. rewrite Ed, Esp. cbn [negb]. change (sparse_initial_length hll 1) with 274.
    change SPARSE_SIZE_MAX_CAP with 4096. destruct (Z.leb_spec 274 (zlen ptr)), (Z.leb_spec (zlen ptr) 4096); try lia. cbn [andb negb].
    pose proof (payload_stream hll ptr rle n Hs) as Hst. pose proof Hs as (pre & card & slack & Ep & Hpre & Hcard & _ & _ & Hn & _).
    pose proof (zlen_nonneg slack). change (sparse_header_size hll) with 18. rewrite Esz.
    destruct (Z.leb_spec (zlen rle) (zlen ptr - 18)); [|lia]. unfold is_valid_sparse_stream. rewrite Esz.
    change (sparse_header_size hll) with 18. destruct (Z.ltb_spec (zlen ptr) (18 + zlen rle)); [lia|].
    rewrite Ep. change 18 with (sparse_header_size hll). rewrite layout_stream by done. cbn [mbind option_bind]. f_equal.
    apply valid_ops_iff; [apply Hst|]. split; [rewrite Z.add_0_l; apply Hst|apply Hst].
Qed.

Lemma good_view ptr : Good ptr -> View ptr (registers ptr).
Proof.
  intros [Hok Hv]. apply valid_hyll_iff in Hv as [Hh Hv]. unfold is_valid_hll_length in Hv.
  destruct (is_dense ptr) eqn:Ed.
  - injection Hv as Hv. apply Z.eqb_eq in Hv. change (zlen ptr = 12304) in Hv.
    assert (Ht : get_type ptr = dtype_u8 Dense) by (by apply Z.eqb_eq).
    destruct (cut ptr 8) as (pre & r1 & -> & Hpre & Hr1 & Hokp & Hok1); [lia|done|].
    destruct (cut r1 8) as (card & reg & -> & Hcard & Hreg & Hokc & Hokr); [lia|done|].
    pose proof (prefix_cut pre (card ++ reg) Dense Hpre Ht Hh) as HP.
    assert (HD : DensePayload hll (pre ++ card ++ reg) (regs_of hll reg)).
    { exists pre, card, reg. split_and!; try done; [by apply bytes_ok_app|]. split; [done|].
      change (mcnt hll * 6 / 8) with 12288. rewrite !zlen_app in *. lia. }
    apply view_dense. by rewrite (proj2 (registers_dense _ _ HD)).
  - destruct (is_sparse ptr) eqn:Es; [|done]. cbn [negb] in Hv. change (sparse_initial_length hll 1) with 274 in Hv.
    change SPARSE_SIZE_MAX_CAP with 4096 in Hv.
    destruct (Z.leb_spec 274 (zlen ptr)), (Z.leb_spec (zlen ptr) 4096); try done. cbn [andb negb] in Hv.
    change (sparse_header_size hll) with 18 in Hv. destruct (Z.leb_spec (get_sparse_rle_size ptr) (zlen ptr - 18)) as [Hsz|]; [|done].
    assert (Ht : get_type ptr = dtype_u8 Sparse) by (by apply Z.eqb_eq).
    destruct (cut ptr 8) as (pre & r1 & -> & Hpre & Hr1 & Hokp & Hok1); [lia|done|].
    destruct (cut r1 8) as (card & r2 & -> & Hcard & Hr2 & Hokc & Hok2); [lia|done|].
    destruct (cut r2 2) as (size & r3 & -> & Hsize & Hr3 & Hoks & Hok3); [lia|done|].
    assert (Ers : get_sparse_rle_size (pre ++ card ++ size ++ r3) = le_num size).
    { unfold get_sparse_rle_size, HLL_HEADER_BYTES. rewrite (app_assoc pre). rewrite range_mid; [done|rewrite zlen_app; lia|lia]. }
    rewrite Ers in *. pose proof (le_num_bound size Hoks) as Hb. rewrite !zlen_app in *.
    destruct (cut r3 (le_num size)) as (rle & slack & -> & Hrle & Hsl & Hokr & Hokl); [lia|done|].
    assert (Esz : size = le_bytes 2 (zlen rle)).
    { rewrite Hrle. unfold zlen in Hsize. replace 2%nat with (length size) by lia. symmetry. by apply le_bytes_le_num. }
    pose proof (prefix_cut pre _ Sparse Hpre Ht Hh) as HP. unfold is_valid_sparse_stream in Hv. rewrite Ers in Hv.
    change (sparse_header_size hll) with 18 in Hv. rewrite !zlen_app in Hv.
    destruct (Z.ltb_spec (zlen pre + (zlen card + (zlen size + (zlen rle + zlen slack)))) (18 + le_num size)); [done|].
    assert (Erg : range 18 (18 + le_num size) (pre ++ card ++ size ++ rle ++ slack) = Some rle).
    { rewrite (app_assoc card), (app_assoc pre). apply range_mid; rewrite ?zlen_app; lia. }
    rewrite Erg in Hv. cbn [mbind option_bind] in Hv. injection Hv as Hv. apply valid_ops_iff in Hv as [Hc Hvs]; [|done].
    assert (HS : SparsePayload hll (pre ++ card ++ size ++ rle ++ slack) rle (zlen slack)).
    { exists pre, card, slack. rewrite <- Esz. split_and!; try done. by apply bytes_ok_app. }
    destruct (registers_sparse _ _ _ HS) as (_ & _ & Er & _). eapply view_sparse; [exact HS|done|]. rewrite !zlen_app. lia.
Qed.

Lemma aligned_iff ptr rle n : SparsePayload hll ptr rle n -> (block_aligned ptr = true <-> Aligned hll rle).
Proof.
  intros Hs. destruct (registers_sparse ptr rle n Hs) as (Ed & _ & _ & Es & _). unfold block_aligned. rewrite Ed, Es. cbn [orb].
  rewrite forallb_forall. unfold Aligned. change (mcnt hll / 128) with 128. split.
  - intros H k Hk. specialize (H k). rewrite existsb_exists in H. destruct H as (x & Hx & Ex).
    + apply list_elem_of_In, elem_of_seqZ. lia.
    + apply Z.eqb_eq in Ex as <-. by apply list_elem_of_In.
  - intros H k Hk. apply list_elem_of_In, elem_of_seqZ in Hk. apply existsb_exists. exists (128 * k).
    split; [apply list_elem_of_In, H; lia|apply Z.eqb_refl].
Qed.

Lemma dense_aligned ptr R : DensePayload hll ptr R -> block_aligned ptr = true.
Proof. intros Hd. unfold block_aligned. by rewrite (proj1 (registers_dense ptr R Hd)). Qed.

(** Streams that have grown out of an aligned one are aligned. *)
Lemma grown_aligned rle0 total ptr rle n : Grown hll rle0 total ptr rle n -> Aligned hll rle0 -> block_aligned ptr = true.
Proof. intros (Hs & _ & Hsub) Ha. apply (aligned_iff ptr rle n Hs). intros k Hk. by apply Hsub, Ha. Qed.

(** A valid stream has at least one code per block. *)
Lemma stream_codes rle : Stream hll rle -> 128 <= zlen rle.
Proof.
  intros Hst. assert (H : forall l, bytes_ok l -> cover l <= 128 * zlen l).
  { induction 1 as [|op l Hop _ IH]; [by rewrite cover_nil|]. rewrite cover_cons, zlen_cons by done.
    pose proof (op_len_bounds op Hop). lia. }
  specialize (H rle (stream_bytes _ _ Hst)). rewrite (stream_cover _ _ Hst) in H. change (mcnt hll) with 16384 in H. lia.
Qed.

(** ** New keys *)

Lemma zeroed_ok n : 0 <= n -> bytes_ok (zeroed n) /\ zlen (zeroed n) = n.
Proof. intros Hn. unfold zeroed. rewrite zlen_replicate. split; [apply Forall_replicate; unfold fits; lia|lia]. Qed.

Lemma probe_len_ok n fuel : forall len, 274 <= len <= 4096 -> 4096 < len + 128 * Z.of_nat fuel -> exists r,
  probe_len hll fuel 146 n len = Some r /\ (r = 12304 \/ (274 <= r <= 4096 /\ 146 + 2 * n < r)).
Proof.
  induction fuel as [|fuel IH]; intros len Hl Hf; [lia|]. cbn [probe_len]. unfold sparse_fits, SPARSE_MAX_BYTES_PER_INSERT.
  destruct (Z.ltb_spec (146 + 2 * n) len); [exists len; split; [done|right; lia]|].
  change SPARSE_SIZE_MAX_CAP with 4096. change SPARSE_MEMORY_SECTOR_SIZE with 128.
  destruct (Z.ltb_spec 4096 (len + 128)); [exists 12304; split; [done|by left]|]. apply IH; lia.
Qed.

Lemma required_bound n : 0 <= n -> 128 <= sparse_required_bytes n.
Proof.
  intros Hn. unfold sparse_required_bytes, SPARSE_MAX_BYTES_PER_INSERT, sat_sub. change SPARSE_MEMORY_SECTOR_SIZE with 128.
  assert (0 <= Z.max (n * 2 - 1) 0 / 128) by (apply Z.div_pos; lia). lia.
Qed.

Lemma init_len_ok n : 0 <= n -> exists r,
  init_len hll n = Some r /\ (r = 12304 \/ (274 <= r <= 4096 /\ 146 + 2 * n < r)).
Proof.
  intros Hn. pose proof (required_bound n Hn). unfold init_len, sparse_initial_length.
  change SPARSE_SIZE_MAX_CAP with 4096. change (sparse_header_size hll) with 18. change (dense_bytes hll) with 12304.
  change (sparse_zero_ranges hll + SPARSE_MEMORY_SECTOR_SIZE) with 256. change (sparse_bytes hll) with 274.
  change (sparse_init_current hll) with 146.
  destruct (Z.ltb_spec 4096 (18 + sparse_required_bytes n)); [exists 12304; split; [done|by left]|].
  destruct (Z.ltb_spec (sparse_required_bytes n) 256).
  - change (274 =? 12304) with false. apply probe_len_ok; [lia|unfold PROBE_FUEL; lia].
  - destruct (Z.eqb_spec (18 + sparse_required_bytes n) 12304); [lia|]. apply probe_len_ok; [lia|unfold PROBE_FUEL; lia].
Qed.

(** A payload with its registers, no cached estimate, and its ranges aligned when
    [al] holds. *)
Definition Made (ptr R : list Z) (al : Prop) : Prop :=
  View ptr R /\ get_card ptr = i64_min /\ (al -> block_aligned ptr = true).

Lemma touched_card ptr ptr' u : Touched ptr ptr' u -> get_card ptr = i64_min -> get_card ptr' = i64_min.
Proof. destruct u; cbn; [done|by intros ->]. Qed.

Lemma made_dense ptr R al : DensePayload hll ptr R -> get_card ptr = i64_min -> Made ptr R al.
Proof. intros Hd Hc. split_and!; [by apply view_dense|done|]. intros _. by eapply dense_aligned. Qed.

Lemma made_sparse rle0 total ptr rle n al : Grown hll rle0 total ptr rle n -> 256 <= total <= 4078 ->
  get_card ptr = i64_min -> (al -> Aligned hll rle0) -> Made ptr (expand rle) al.
Proof.
  intros HG Ht Hc Ha. pose proof HG as (Hs & Et & _). destruct (sparse_ops_ok hll new_shape ptr rle n Hs) as (_ & _ & _ & Hz).
  split_and!; [|done|]; [eapply view_sparse; [exact Hs|done|lia]|]. intros H. eapply grown_aligned; [exact HG|by apply Ha].
Qed.

Lemma fresh_aligned : Aligned hll (fresh hll).
Proof. apply (fresh_stream hll new_shape). Qed.

Lemma zeroed_dense : exists ptr, init_dense hll (zeroed 12304) = Some ptr /\ DensePayload hll ptr empty_registers /\ get_card ptr = i64_min.
Proof. destruct (zeroed_ok 12304) as [Hok Hl]; [lia|]. by apply (init_dense_ok hll new_shape). Qed.

Lemma zeroed_sparse len : 274 <= len -> exists ptr,
  init_sparse hll (zeroed len) = Some ptr /\ SparsePayload hll ptr (fresh hll) (len - 146) /\ get_card ptr = i64_min.
Proof.
  intros Hl. destruct (zeroed_ok len) as [Hok Hz]; [lia|]. destruct (init_sparse_ok hll new_shape (zeroed len) Hok) as (p & E & Hp & Hc).
  { rewrite Hz. change (sparse_zero_ranges hll) with 128. lia. }
  exists p. split_and!; try done. rewrite Hz in Hp. change (sparse_zero_ranges hll) with 128 in Hp.
  by replace (len - 146) with (len - 18 - 128) by lia.
Qed.

Lemma fresh_size : zlen (fresh hll) = 128 /\ expand (fresh hll) = empty_registers.
Proof. split; [done|]. apply (fresh_stream hll new_shape). Qed.

Lemma init_payload_ok es : exists blob, hll_init_payload hll es = Some blob /\ Made blob (add_all hll empty_registers es) True.
Proof.
  destruct (init_len_ok (zlen es)) as (len & El & Hlen); [apply zlen_nonneg|]. unfold hll_init_payload, init. rewrite El.
  cbn [mbind option_bind]. change (dense_bytes hll) with 12304. destruct Hlen as [->|[Hl Hroom]].
  - destruct (zeroed_ok 12304) as [_ ->]; [lia|]. rewrite Z.eqb_refl. destruct zeroed_dense as (p & -> & Hp & Hc). cbn [mbind option_bind].
    destruct (iterate_dense hll new_shape es p empty_registers Hp) as (p' & u & -> & Hp' & Ht & _). cbn [mbind option_bind].
    exists p'. split; [done|]. apply made_dense; [done|by eapply touched_card].
  - destruct (zeroed_ok len) as [_ ->]; [lia|]. destruct (Z.eqb_spec len 12304); [lia|].
    destruct (zeroed_sparse len) as (p & -> & Hp & Hc); [lia|]. cbn [mbind option_bind]. destruct fresh_size as [Hf Ef].
    destruct (iterate_sparse hll new_shape es p (fresh hll) (len - 146) Hp) as (p' & rle & n1 & u & -> & HG & Er & Ht & _); [lia|].
    cbn [mbind option_bind]. exists p'. split; [done|]. rewrite <- Ef, <- Er.
    eapply made_sparse; [exact HG|lia|by eapply touched_card|]. intros _. apply fresh_aligned.
Qed.

(** ** Adding elements *)

Lemma copy_prefix old rle n new : SparsePayload hll old rle n -> bytes_ok new -> 18 + zlen rle <= zlen new -> exists o new',
  range 0 (18 + zlen rle) old = Some o /\ write_at 0 o new = Some new' /\
  SparsePayload hll new' rle (zlen new - 18 - zlen rle).
Proof.
  intros (pre & card & slack & -> & Hpre & Hcard & Hok & Hsl & <- & Hst) Hn Hl. pose proof (zlen_nonneg rle).
  destruct (cut new (18 + zlen rle)) as (a & b & -> & Ha & Hb & _ & Hokb); [lia|done|].
  set (o := pre ++ card ++ le_bytes 2 (zlen rle) ++ rle).
  assert (Ho : zlen o = 18 + zlen rle).
  { unfold o. rewrite !zlen_app, zlen_le_bytes. destruct Hpre as (-> & _). lia. }
  exists o, (o ++ b). split_and!.
  - replace (pre ++ card ++ le_bytes 2 (zlen rle) ++ rle ++ slack) with ([] ++ o ++ slack).
    + apply range_mid; [done|lia].
    + unfold o. cbn [app]. by repeat rewrite <- app_assoc.
  - apply (write_mid [] a o b 0); [done|lia].
  - exists pre, card, b. unfold o. split_and!; try done; [by repeat rewrite <- app_assoc|]. rewrite zlen_app in *. lia.
Qed.

(** What an added payload promises: without one the registers stay as they are;
    one that was not made dense has registers that did change. *)
Definition Added (blob : list Z) (es : list (list Z)) (r : option (list Z)) : Prop :=
  let R := registers blob in
  match r with
  | None => add_all hll R es = R
  | Some blob' => Made blob' (add_all hll R es) (block_aligned blob = true) /\
      (is_dense blob = true \/ is_dense blob' = false -> add_all hll R es <> R)
  end.

(** The growth to dense: the flag of the copied registers, then the elements'. *)
Lemma grow_dense blob rle n es : SparsePayload hll blob rle n -> exists p u1 p' u2,
  copy_update hll es blob (zeroed 12304) = Some (p', u1 || u2) /\ DensePayload hll p' (add_all hll (expand rle) es) /\
  (expand rle <> empty_registers -> u1 = true) /\ (u2 = true <-> add_all hll (expand rle) es <> expand rle) /\
  get_card p = i64_min /\ Touched p p' u2.
Proof.
  intros Hs. destruct (registers_sparse blob rle n Hs) as (_ & Esp & _). unfold copy_update. rewrite Esp.
  change (dense_bytes hll) with 12304. destruct (zeroed_ok 12304) as [_ ->]; [lia|]. rewrite Z.eqb_refl.
  destruct zeroed_dense as (p & -> & Hp & Hc). cbn [mbind option_bind]. pose proof (payload_stream hll blob rle n Hs) as Hst.
  destruct (sparse_to_dense_ok hll new_shape blob rle n p empty_registers Hs Hp) as (p1 & u1 & -> & Hp1 & Ht1). cbn [mbind option_bind].
  unfold empty_registers in Hp1. rewrite <- (stream_length hll rle Hst), join_zeros in Hp1 by (by apply (expand_nonneg hll)).
  destruct (iterate_dense hll new_shape es p1 _ Hp1) as (p2 & u2 & -> & Hp2 & Ht2 & Hu2). cbn [mbind option_bind].
  exists p1, u1, p2, u2. split_and!; try done; [|by eapply touched_card].
  intros Hne. destruct u1; [done|]. cbn in Ht1. subst p1. destruct Hne.
  rewrite <- (proj2 (registers_dense p _ Hp1)). by apply registers_dense.
Qed.

Lemma add_grow_dense blob rle n es : SparsePayload hll blob rle n -> exists grown u,
  copy_update hll es blob (zeroed 12304) = Some (grown, u) /\ Added blob es (if u then Some grown else None).
Proof.
  intros Hs. destruct (registers_sparse blob rle n Hs) as (Ed & _ & Er & _).
  destruct (grow_dense blob rle n es Hs) as (p & u1 & p2 & u2 & -> & Hp2 & _ & Hu2 & Hc & Ht).
  exists p2, (u1 || u2). split; [done|]. unfold Added. rewrite Er, Ed. destruct u1, u2; cbn [orb].
  1-3: split; [apply made_dense; [done|by eapply touched_card]|].
  1-3: rewrite (proj1 (registers_dense p2 _ Hp2)); by intros [].
  destruct (decide (add_all hll (expand rle) es = expand rle)) as [|Hne]; [done|]. by apply Hu2 in Hne.
Qed.

Lemma add_grow_sparse blob rle n es len : SparsePayload hll blob rle n -> 274 <= len <= 4096 -> 18 + zlen rle + 2 * zlen es < len ->
  exists grown u, copy_update hll es blob (zeroed len) = Some (grown, u) /\ Added blob es (if u then Some grown else None).
Proof.
  intros Hs Hl Hroom. destruct (registers_sparse blob rle n Hs) as (Ed & Esp & Er & _). unfold copy_update. rewrite Esp.
  change (dense_bytes hll) with 12304. destruct (zeroed_ok len) as [_ ->]; [lia|]. destruct (Z.eqb_spec len 12304); [lia|].
  destruct (zeroed_sparse len) as (p & -> & Hp & Hc); [lia|]. cbn [mbind option_bind].
  destruct (sparse_ops_ok hll new_shape blob rle n Hs) as (_ & _ & -> & _). destruct (sparse_ops_ok hll new_shape p _ _ Hp) as (_ & _ & _ & Hz).
  destruct fresh_size as [Hf _]. destruct (registers_sparse p _ _ Hp) as (_ & _ & _ & _ & _ & _ & Hokp). pose proof (zlen_nonneg es).
  destruct (copy_prefix blob rle n p Hs Hokp) as (o & p1 & -> & E & Hp1); [lia|]. cbn [mbind option_bind]. rewrite E. cbn [mbind option_bind].
  destruct (iterate_sparse hll new_shape es p1 rle _ Hp1) as (p2 & rle2 & n2 & u & -> & HG & Er2 & Ht & Hu); [lia|].
  exists p2, u. split; [done|]. unfold Added. rewrite Er, Ed. destruct u.
  - split; [|by intros _; apply Hu]. rewrite <- Er2. eapply made_sparse; [exact HG|lia|done|]. by apply (aligned_iff blob rle n).
  - destruct (decide (add_all hll (expand rle) es = expand rle)) as [|Hne]; [done|]. by apply Hu in Hne.
Qed.

Lemma add_len_ok blob rle n k : SparsePayload hll blob rle n -> 0 <= k ->
  add_len hll blob k = 12304 \/ (274 <= add_len hll blob k <= 4096 /\ 18 + zlen rle + 2 * k < add_len hll blob k).
Proof.
  intros Hs Hk. pose proof (required_bound k Hk). destruct (registers_sparse blob rle n Hs) as (_ & Esp & _).
  pose proof (stream_codes rle (payload_stream hll blob rle n Hs)).
  destruct (sparse_ops_ok hll new_shape blob rle n Hs) as (_ & _ & Ec & _). unfold add_len, update_grow. rewrite Esp, Ec.
  change SPARSE_SIZE_MAX_CAP with 4096. change (dense_bytes hll) with 12304. unfold sparse_fits, SPARSE_MAX_BYTES_PER_INSERT.
  destruct (Z.ltb_spec (18 + zlen rle + sparse_required_bytes k) 4096); [|by left].
  destruct (Z.eqb_spec (18 + zlen rle + sparse_required_bytes k) 12304); [lia|]. cbn [negb andb].
  destruct (Z.ltb_spec (18 + zlen rle + 2 * k) (18 + zlen rle + sparse_required_bytes k)); cbn [negb]; [right; lia|by left].
Qed.

Lemma add_payload_ok blob es : Good blob -> exists r, hll_add_payload hll blob es = Some r /\ Added blob es r.
Proof.
  intros HG. destruct (good_view blob HG) as [Hd|rle n Hs ER Hl]; unfold hll_add_payload, update.
  - destruct (registers_dense blob _ Hd) as [Ed _]. rewrite Ed.
    destruct (iterate_dense hll new_shape es blob _ Hd) as (p & u & -> & Hp & Ht & Hu). cbn [mbind option_bind].
    rewrite orb_true_r. eexists. split; [done|]. unfold Added. destruct u.
    + split; [by apply made_dense|]. intros _. by apply Hu.
    + destruct (decide (add_all hll (registers blob) es = registers blob)) as [|Hne]; [done|]. by apply Hu in Hne.
  - destruct (registers_sparse blob rle n Hs) as (Ed & Esp & Er & _). rewrite Ed, Esp.
    destruct (sparse_ops_ok hll new_shape blob rle n Hs) as (_ & _ & Ec & Hz).
    unfold can_grow_in_place, sparse_fits, SPARSE_MAX_BYTES_PER_INSERT. rewrite Ec.
    destruct (Z.ltb_spec (18 + zlen rle + 2 * zlen es) (zlen blob)) as [Hroom|_].
    + destruct (iterate_sparse hll new_shape es blob rle n Hs) as (p & rle' & n' & u & -> & HG' & Er' & Ht & Hu); [lia|].
      cbn [mbind option_bind]. rewrite orb_true_r. eexists. split; [done|]. unfold Added. rewrite Er. destruct u.
      * split; [|by intros _; apply Hu]. rewrite <- Er'. eapply made_sparse; [exact HG'|lia|done|]. by apply (aligned_iff blob rle n).
      * destruct (decide (add_all hll (expand rle) es = expand rle)) as [|Hne]; [done|]. by apply Hu in Hne.
    + cbn [mbind option_bind]. rewrite Ed. cbn [orb].
      assert (H : exists grown u, copy_update hll es blob (zeroed (add_len hll blob (zlen es))) = Some (grown, u) /\
        Added blob es (if u then Some grown else None)).
      { destruct (add_len_ok blob rle n (zlen es) Hs) as [->|[Hb Hf]]; [apply zlen_nonneg|by eapply add_grow_dense|].
        by eapply add_grow_sparse. }
      destruct H as (g & u & -> & HA). cbn [mbind option_bind]. by eexists.
Qed.

(** ** Merging *)

Lemma dense_type ptr R : DensePayload hll ptr R -> get_type ptr = 1.
Proof. intros Hd. destruct (registers_dense ptr R Hd) as [Ed _]. by apply Z.eqb_eq. Qed.

Lemma sparse_type ptr rle n : SparsePayload hll ptr rle n -> get_type ptr = 0.
Proof. intros Hs. destruct (registers_sparse ptr rle n Hs) as (_ & Es & _). by apply Z.eqb_eq. Qed.

Lemma merge_dense src S dst R : View src S -> DensePayload hll dst R -> exists dst' u,
  merge hll src dst = Some (dst', u) /\ DensePayload hll dst' (join R S).
Proof.
  intros Hs Hd. unfold merge. rewrite (dense_type dst R Hd). cbn [dtype_u8]. rewrite Z.eqb_refl.
  destruct Hs as [Hs|rle n Hs <- _].
  - rewrite (dense_type src S Hs). destruct (dense_to_dense_ok hll new_shape src S dst R Hs Hd) as (d & f & E & Hd' & _).
    exists d, f. by split.
  - rewrite (sparse_type src rle n Hs). destruct (sparse_to_dense_ok hll new_shape src rle n dst R Hs Hd) as (d & f & E & Hd' & _).
    exists d, f. by split.
Qed.

Lemma merge_sparse src rle n dst rle0 n0 : SparsePayload hll src rle n -> SparsePayload hll dst rle0 n0 ->
  merge hll src dst = sparse_to_sparse hll src dst.
Proof. intros Hs Hd. unfold merge. by rewrite (sparse_type src rle n Hs), (sparse_type dst rle0 n0 Hd). Qed.

(** The length a merge asks for: dense, or with room for two codes for every
    non-zero register of a sparse source. *)
Lemma merge_len_ok dst R src S : View dst R -> View src S -> exists len, merge_len hll dst src = Some len /\
  (len = 12304 \/ exists rd nd rs ns, SparsePayload hll dst rd nd /\ expand rd = R /\ SparsePayload hll src rs ns /\ expand rs = S /\
     274 <= len <= 4096 /\ 18 + zlen rd + 2 * nnz rs < len).
Proof.
  intros Hd Hs. unfold merge_len, merge_grow. change (dense_bytes hll) with 12304. cbn [dtype_u8].
  destruct Hd as [Hd|rd nd Hd Ed _]; [rewrite (dense_type dst R Hd)|rewrite (sparse_type dst rd nd Hd)].
  { eexists. split; [done|by left]. }
  destruct Hs as [Hs|rs ns Hs Es _]; [rewrite (dense_type src S Hs)|rewrite (sparse_type src rs ns Hs)].
  { eexists. split; [done|by left]. }
  destruct (sparse_ops_ok hll new_shape src rs ns Hs) as (_ & Ec & _). destruct (sparse_ops_ok hll new_shape dst rd nd Hd) as (_ & _ & Ez & _).
  rewrite Ec, Ez. cbn [Z.eqb andb mbind option_bind]. change SPARSE_SIZE_MAX_CAP with 4096.
  pose proof (required_bound (nnz rs) (zlen_nonneg _)). pose proof (stream_codes rd (payload_stream hll dst rd nd Hd)).
  destruct (Z.ltb_spec (18 + zlen rd + sparse_required_bytes (nnz rs)) 4096); [|eexists; split; [done|by left]].
  destruct (Z.eqb_spec (18 + zlen rd + sparse_required_bytes (nnz rs)) 12304); [lia|].
  unfold sparse_fits, SPARSE_MAX_BYTES_PER_INSERT. destruct (Z.ltb_spec (18 + zlen rd + 2 * nnz rs) (18 + zlen rd + sparse_required_bytes (nnz rs))).
  - eexists. split; [done|]. right. exists rd, nd, rs, ns. split_and!; try done; lia.
  - eexists. split; [done|by left].
Qed.

Lemma finish_dense ptr R al : DensePayload hll ptr R -> exists ptr', set_card ptr i64_min = Some ptr' /\ Made ptr' R al.
Proof.
  intros Hd. destruct (set_card_dense hll ptr R i64_min Hd) as (p & E & Hp & Hc). exists p. split; [done|].
  apply made_dense; [done|]. apply Hc. unfold i64_min, i64_max. lia.
Qed.

Lemma finish_sparse rle0 total ptr rle n al : Grown hll rle0 total ptr rle n -> 256 <= total <= 4078 ->
  (al -> Aligned hll rle0) -> exists ptr', set_card ptr i64_min = Some ptr' /\ Made ptr' (expand rle) al.
Proof.
  intros (Hs & Et & Hsub) Ht Ha. destruct (set_card_sparse hll ptr rle n i64_min Hs) as (p & E & Hp & Hc). exists p. split; [done|].
  eapply (made_sparse rle0); [by split|done| |done]. apply Hc. unfold i64_min, i64_max. lia.
Qed.

Lemma merge_rebuild dst rd nd src rs ns len : SparsePayload hll dst rd nd -> Aligned hll rd -> SparsePayload hll src rs ns ->
  274 <= len <= 4096 -> 18 + zlen rd + 2 * nnz rs < len -> len <> zlen dst ->
  exists blob, copy_update_merge hll src dst (zeroed len) (zlen dst) len = Some blob /\ Made blob (join (expand rd) (expand rs)) True.
Proof.
  intros Hd Ha Hs Hl Hroom Hne. unfold copy_update_merge. destruct (Z.eqb_spec (zlen dst) len); [lia|]. change (dense_bytes hll) with 12304.
  destruct (Z.eqb_spec len 12304); [lia|]. destruct (zeroed_sparse len) as (p & -> & Hp & _); [lia|]. cbn [mbind option_bind].
  destruct fresh_size as [Hf _]. pose proof (zlen_nonneg (List.filter (fun op => negb (is_zero_range op)) rs)) as Hnn. fold (nnz rs) in Hnn.
  rewrite (merge_sparse dst rd nd p _ _ Hd Hp).
  destruct (rebuild_ok hll new_shape dst rd nd p (len - 146) Hd Ha Hp) as (p1 & u & r1 & n1 & -> & (Hp1 & E1 & Hsub) & Er1 & Hz1 & _); [lia|].
  cbn [mbind option_bind]. rewrite (merge_sparse src rs ns p1 r1 n1 Hs Hp1).
  destruct (sparse_to_sparse_ok hll new_shape src rs ns p1 r1 n1 Hs Hp1) as (p2 & u2 & r2 & n2 & -> & HG & Er2 & _); [lia|].
  cbn [mbind option_bind]. rewrite <- Er1, <- Er2. eapply (finish_sparse r1); [exact HG|lia|]. intros _ k Hk. by apply Hsub, fresh_aligned.
Qed.

Lemma merge_to_dense dst rd nd src S : SparsePayload hll dst rd nd -> View src S -> zlen dst <> 12304 ->
  exists blob, copy_update_merge hll src dst (zeroed 12304) (zlen dst) 12304 = Some blob /\ Made blob (join (expand rd) S) True.
Proof.
  intros Hd Hs Hne. unfold copy_update_merge. destruct (Z.eqb_spec (zlen dst) 12304); [done|]. change (dense_bytes hll) with 12304.
  rewrite Z.eqb_refl. destruct zeroed_dense as (p & -> & Hp & _). cbn [mbind option_bind].
  pose proof (payload_stream hll dst rd nd Hd) as Hst.
  assert (Em : merge hll dst p = sparse_to_dense hll dst p) by (unfold merge; by rewrite (dense_type p _ Hp), (sparse_type dst rd nd Hd)).
  rewrite Em. destruct (sparse_to_dense_ok hll new_shape dst rd nd p _ Hd Hp) as (p1 & u & -> & Hp1 & _). cbn [mbind option_bind].
  unfold empty_registers in Hp1. rewrite <- (stream_length hll rd Hst), join_zeros in Hp1 by (by apply (expand_nonneg hll)).
  destruct (merge_dense src S p1 _ Hs Hp1) as (p2 & u2 & -> & Hp2). cbn [mbind option_bind]. by apply finish_dense.
Qed.

Lemma merge_payload_ok dst R src S : View dst R -> View src S -> block_aligned dst = true ->
  exists blob, hll_merge_payload hll dst src = Some blob /\ Made blob (join R S) True.
Proof.
  intros Hd Hs Ha. destruct (merge_len_ok dst R src S Hd Hs) as (len & El & Hlen). unfold hll_merge_payload. rewrite El. cbn [mbind option_bind].
  destruct Hlen as [->|(rd & nd & rs & ns & Hd' & <- & Hs' & <- & Hl & Hroom)].
  - destruct Hd as [Hd|rd nd Hd <- Hl].
    + rewrite (payload_zlen hll new_shape dst R Hd). change (negb (12304 =? dense_bytes hll)) with false. cbv iota.
      destruct (merge_dense src S dst R Hs Hd) as (p & u & -> & Hp). cbn [mbind option_bind]. by apply finish_dense.
    + destruct (Z.eqb_spec 12304 (zlen dst)); [lia|]. cbn [negb]. eapply merge_to_dense; [done|done|lia].
  - apply (aligned_iff dst rd nd Hd') in Ha. destruct (Z.eqb_spec len (zlen dst)) as [->|Hne]; cbn [negb].
    + destruct (sparse_ops_ok hll new_shape dst rd nd Hd') as (_ & _ & _ & Hz). rewrite (merge_sparse src rs ns dst rd nd Hs' Hd').
      destruct (sparse_to_sparse_ok hll new_shape src rs ns dst rd nd Hs' Hd') as (p & u & r & n & -> & HG & Er & _); [lia|].
      cbn [mbind option_bind]. rewrite <- Er. eapply finish_sparse; [exact HG|lia|done].
    + by eapply merge_rebuild.
Qed.

Lemma sparse_seed_ok : exists seed, hll_sparse_seed hll = Some seed /\ Made seed empty_registers True.
Proof.
  unfold hll_sparse_seed. change (sparse_bytes hll) with 274. destruct (zeroed_sparse 274) as (p & E & Hp & Hc); [lia|].
  exists p. split; [done|]. destruct fresh_size as [Hf <-]. eapply (made_sparse (fresh hll) 256 p (fresh hll) 128); [|lia|done|].
  - split_and!; [done|lia|done].
  - intros _. apply fresh_aligned.
Qed.

(** ** Counting *)

Section Count.

Variable est : list Z -> Z.

(** The estimate cached in a payload is that of its registers. *)
Definition Cached (ptr : list Z) : Prop := is_valid_card ptr = true -> get_card ptr = est (hist (registers ptr)).

Lemma bump_ops rle : forall R, bytes_ok rle -> Forall (fun x => 0 <= x < 64) (expand rle) ->
  fold_left (fun acc '(is_zero, clen, lz) => rhisto ← acc; bump (if is_zero : bool then 0 else lz) clen rhisto)
    (decode_sparse_ops rle) (Some (hist R)) = Some (hist (R ++ expand rle)).
Proof.
  induction rle as [|op rle IH]; intros R Hok Hv; [by rewrite app_nil_r|]. apply Forall_cons_1 in Hok as [Hop Hok].
  cbn [expand flat_map] in Hv. fold (expand rle) in Hv. apply Forall_app in Hv as [Hv1 Hv]. cbn [decode_sparse_ops map fold_left].
  fold (decode_sparse_ops rle). rewrite decode_op_eq. cbn [mbind option_bind].
  assert (E : bump (if is_zero_range op then 0 else if is_zero_range op then 0 else get_non_zero op) (op_len op) (hist R) =
              Some (hist (R ++ op_regs op))).
  { pose proof (op_len_bounds op Hop) as Hb. unfold op_regs, op_len in *. destruct (is_zero_range op).
    - rewrite <- (Z2Nat.id (zero_range_len op)) by lia. rewrite bump_hist by lia. by rewrite Z2Nat.id by lia.
    - apply Forall_cons_1 in Hv1 as [Hv1 _]. by apply (bump_hist R _ 1). }
  rewrite E, IH by done. by rewrite <- app_assoc.
Qed.

Lemma sparse_histogram_ok ptr rle n : SparsePayload hll ptr rle n -> sparse_histogram hll ptr = Some (hist (expand rle)).
Proof.
  intros Hs. destruct (sparse_ops_ok hll new_shape ptr rle n Hs) as (Eo & _). unfold sparse_histogram. rewrite Eo. cbn [mbind option_bind].
  pose proof (payload_stream hll ptr rle n Hs) as Hst. change (replicate 64 0) with (hist []).
  apply (bump_ops rle []); [apply Hst|]. eapply Forall_impl; [|exact (stream_values _ _ Hst)].
  intros x Hx. change (qbit hll) with 50 in Hx. cbn in Hx. lia.
Qed.

Lemma count_ok ptr R : View ptr R -> Cached ptr -> exists ptr', count hll est ptr = Some (ptr', est (hist R)).
Proof.
  intros Hv Hc. destruct (view_good ptr R Hv) as [_ Er]. unfold count, Cached in *. rewrite Er in Hc.
  destruct (is_valid_card ptr); [rewrite Hc by done; by eexists|]. destruct Hv as [Hd|rle n Hs <- _].
  - rewrite (dense_type ptr R Hd). change (dtype_try_from 1) with (Some Dense). cbv iota. unfold count_dense_nc_estimator.
    rewrite (dense_histogram_ok hll new_shape ptr R Hd). cbn [fmap option_fmap option_map mbind option_bind].
    destruct (est (hist R) =? i64_min); cbn [negb]; [by eexists|]. destruct (set_card_dense hll ptr R (est (hist R)) Hd) as (p & -> & _). by eexists.
  - rewrite (sparse_type ptr rle n Hs). change (dtype_try_from 0) with (Some Sparse). cbv iota. unfold count_sparse_nc_estimator.
    rewrite (sparse_histogram_ok ptr rle n Hs). cbn [fmap option_fmap option_map mbind option_bind].
    destruct (est (hist (expand rle)) =? i64_min); cbn [negb]; [by eexists|]. destruct (set_card_sparse hll ptr rle n (est (hist (expand rle))) Hs) as (p & -> & _). by eexists.
Qed.

(** ** The union of several keys *)

Lemma void_cached ptr : get_card ptr = i64_min -> Cached ptr.
Proof. intros Hc. unfold Cached, is_valid_card. by rewrite Hc. Qed.

Definition Union (acc : option (list Z)) (R : list Z) : Prop :=
  exists a, acc = Some a /\ DensePayload hll a R /\ Cached a.

Lemma union_seed_ok raw R : View raw R -> Cached raw -> exists a, hll_union_seed hll raw = Some a /\ DensePayload hll a R /\ Cached a.
Proof.
  intros Hv Hc. unfold hll_union_seed. destruct Hv as [Hd|rle n Hs <- _].
  - rewrite (proj1 (registers_dense raw R Hd)). by exists raw.
  - destruct (registers_sparse raw rle n Hs) as (-> & _). change (dense_bytes hll) with 12304.
    destruct zeroed_dense as (p & -> & Hp & Hcp). cbn [mbind option_bind]. pose proof (payload_stream hll raw rle n Hs) as Hst.
    destruct (sparse_to_dense_ok hll new_shape raw rle n p _ Hs Hp) as (p1 & u & -> & Hp1 & Ht). cbn [mbind option_bind].
    unfold empty_registers in Hp1. rewrite <- (stream_length hll rle Hst), join_zeros in Hp1 by (by apply (expand_nonneg hll)).
    exists p1. split_and!; [done|done|]. by eapply void_cached, touched_card.
Qed.

Lemma union_absorb_ok acc U raw R : Union acc U -> View raw R -> exists acc', hll_union_absorb hll acc raw = Some acc' /\ Union acc' (join U R).
Proof.
  intros (a & -> & Hd & _) Hv. unfold hll_union_absorb, try_merge. rewrite (dense_type a U Hd). cbn [dtype_u8]. rewrite Z.eqb_refl.
  destruct (merge_dense raw R a U Hv Hd) as (p & u & -> & Hp). cbn [mbind option_bind].
  destruct (set_card_dense hll p _ i64_min Hp) as (p' & -> & Hp' & Hc). cbn [mbind option_bind]. eexists. split; [done|].
  exists p'. split_and!; [done|done|]. apply void_cached, Hc. unfold i64_min, i64_max. lia.
Qed.

End Count.

End HllCmd.
