(* ===== verification/HyperLogStore.v ===== *)
(** * PFADD, PFCOUNT and PFMERGE over a store

    The commands over any store that keeps what is written: what they answer and
    what the keys hold afterwards, in terms of the registers the keys stand for. *)

From stdpp Require Import base list numbers option tactics gmap.
From Stdlib Require Import ZArith Lia Bool.
From S2P Require Import Prelude Bytes Hasher HyperLog HyperLogRegs HyperLogSparse HyperLogSpec HyperLogCmd.

Module HllStoreSpec.
Import Murmur HyperLog Kernel Commands Regs Streams HllSpec HllCmd.

(** What the commands rely on: a write that took place is read back and leaves the
    other keys alone; one that was handed to the slow path wrote nothing. *)
Class StoreLaws (St : Type) `{Backend St} := {
  written_reads : forall (s : St) k v s', try_rmw_sync s k v = (s', Written) ->
    read_user_sync s' k = inl (Hit v) /\ forall k', k' <> k -> read_user_sync s' k' = read_user_sync s k';
  degraded_reads : forall (s : St) k v s', try_rmw_sync s k v = (s', Degrade) ->
    forall k', read_user_sync s' k' = read_user_sync s k'
}.

(** What a key is to the commands. *)
Inductive KeyState : Type := KRegs (R : list Z) | KAbsent | KNotHll | KDeferred.

Section Spec.

Context {St : Type} `{LS : StoreLaws St}.
Variable est : list Z -> Z.

Definition key_state (s : St) (k : list Z) : KeyState :=
  match read_user_sync s k with
  | inl (Hit v) => match is_valid_hyll hll v with Some true => KRegs (registers v) | _ => KNotHll end
  | inl Missing => KAbsent
  | inl Deferred => KDeferred
  | inl WrongType | inr _ => KNotHll
  end.

Definition key_dense (s : St) (k : list Z) : bool :=
  match read_user_sync s k with inl (Hit v) => is_dense v | _ => false end.

(** Values are bytes. *)
Definition Readable (s : St) : Prop := forall k v, read_user_sync s k = inl (Hit v) -> bytes_ok v.

(** The payload of a key, when it is one, has aligned ranges and no stale estimate. *)
Definition Clean (s : St) (k : list Z) : Prop :=
  forall v, read_user_sync s k = inl (Hit v) -> is_valid_hyll hll v = Some true -> block_aligned v = true /\ Cached est v.

(** The end of a command that writes a payload with the registers [R] to [key]. *)
Definition Stored (s : St) (key : list Z) (s' : St) (reply ok : Reply) (R : list Z) : Prop :=
  (reply = ok /\ key_state s' key = KRegs R /\ (Clean s key -> Clean s' key) /\ Readable s' /\
   forall k, k <> key -> read_user_sync s' k = read_user_sync s k) \/
  (reply = NotHandled /\ forall k, read_user_sync s' k = read_user_sync s k) \/
  reply = RespGeneric.

Lemma rle_size_nonneg v : bytes_ok v -> 0 <= get_sparse_rle_size v.
Proof.
  intros Hok. unfold get_sparse_rle_size, range. destruct (_ && _); [|lia].
  apply le_num_bound. unfold slice. by apply Forall_take, Forall_drop.
Qed.

Lemma valid_total v : bytes_ok v -> exists b, is_valid_hyll hll v = Some b.
Proof.
  intros Hok. unfold is_valid_hyll, is_valid_hyll_len. destruct (range 0 (zlen v) v) as [w|] eqn:Ew; [|by eexists].
  assert (Hokw : bytes_ok w).
  { unfold range in Ew. destruct (_ && _); [|done]. injection Ew as <-. unfold slice. by apply Forall_take, Forall_drop. }
  destruct (is_hyll w); [|by eexists]. unfold is_valid_hll_length. destruct (is_dense w); [by eexists|].
  destruct (is_sparse w); [|by eexists]. cbn [negb]. destruct (negb _); [by eexists|].
  destruct (_ <=? _); [|by eexists]. unfold is_valid_sparse_stream. pose proof (rle_size_nonneg w Hokw).
  change (sparse_header_size hll) with 18. destruct (Z.ltb_spec (zlen w) (18 + get_sparse_rle_size w)); [by eexists|].
  unfold range. destruct (Z.leb_spec 18 (18 + get_sparse_rle_size w)), (Z.leb_spec (18 + get_sparse_rle_size w) (zlen w)); try lia.
  by eexists.
Qed.

(** A load says what the key is. *)
Lemma load_ok s k : Readable s -> exists l, load_hll s k = Some l /\
  match key_state s k with
  | KRegs R => exists raw, l = inl (LPresent raw) /\ read_user_sync s k = inl (Hit raw) /\ Good raw /\ registers raw = R
  | KAbsent => l = inl LMissing
  | KNotHll => l = inr tt
  | KDeferred => l = inl LDegrade
  end.
Proof.
  intros Hr. unfold load_hll, key_state. destruct (read_user_sync s k) as [[v| | |]|[]] eqn:E; try by eexists.
  pose proof (Hr k v E) as Hok. unfold valid_hyll_payload. destruct (valid_total v Hok) as [b Eb]. rewrite Eb. cbn [mbind option_bind].
  destruct b; eexists; (split; [done|]); [|done]. by exists v.
Qed.

Lemma store_ok s key blob R al ok : Readable s -> Made blob R al -> (Clean s key -> al) ->
  let '(s', reply) := store_hll s key blob ok in
  Stored s key s' reply ok R /\ (reply = ok -> ok <> NotHandled -> ok <> RespGeneric -> key_dense s' key = is_dense blob).
Proof.
  intros Hr (Hv & Hc & Ha) Hal. unfold store_hll. destruct (try_rmw_sync s key blob) as [s' w] eqn:E. destruct w.
  - destruct (written_reads s key blob s' E) as [Hk Ho]. destruct (view_good blob R Hv) as [[Hok Hval] HR]. split.
    + left. split_and!; [done| | | |done].
      * unfold key_state. by rewrite Hk, Hval, HR.
      * intros Hcl v Hv' _. rewrite Hk in Hv'. injection Hv' as <-. split; [by apply Ha, Hal|by apply void_cached].
      * intros k v Hkv. destruct (decide (k = key)) as [->|Hne]; [congruence|]. rewrite Ho in Hkv by done. by eapply Hr.
    + intros _ _ _. unfold key_dense. by rewrite Hk.
  - pose proof (degraded_reads s key blob s' E). split; [by right; left|]. by intros <-.
  - split; [by right; right|]. by intros <-.
Qed.

Lemma clean_aligned s k v : Clean s k -> read_user_sync s k = inl (Hit v) -> Good v -> block_aligned v = true.
Proof. intros Hcl E [_ Hv]. by apply (Hcl v). Qed.

(** ** PFADD *)

(** C16: PFADD over any store: it never panics; a key that is not a payload or is
    deferred is left alone with the error or the slow path; otherwise the key ends
    with the registers raised by every element, the other keys as they were, and
    [:0] means that no register changed. [:1] without a change happens only when
    the payload was rewritten from sparse to dense. *)
Theorem pfadd_correct (s : St) key e es : Readable s -> try_rmw_window s key = true -> exists s' reply,
  hyper_log_log_add s (key :: e :: es) = Some (s', reply) /\
  match key_state s key with
  | KNotHll => s' = s /\ reply = RespWrongTypeHll
  | KDeferred => s' = s /\ reply = NotHandled
  | KAbsent => Stored s key s' reply (RespInt 1) (add_all hll empty_registers (e :: es))
  | KRegs R =>
      (s' = s /\ reply = RespInt 0 /\ add_all hll R (e :: es) = R) \/
      (Stored s key s' reply (RespInt 1) (add_all hll R (e :: es)) /\
       (reply = RespInt 1 -> add_all hll R (e :: es) = R -> key_dense s key = false /\ key_dense s' key = true))
  end.
Proof.
  intros Hr Hw. unfold hyper_log_log_add. rewrite Hw. cbn [negb]. destruct (load_ok s key Hr) as (l & -> & Hl). cbn [mbind option_bind].
  destruct (key_state s key) as [R| | |] eqn:Ek.
  - destruct Hl as (raw & -> & Er & HG & <-). destruct (add_payload_ok raw (e :: es) HG) as (r & -> & HA). cbn [mbind option_bind].
    destruct r as [blob|]; unfold Added in HA; [|eexists _, _; split; [done|by left]]. destruct HA as [HM Hne].
    pose proof (store_ok s key blob _ _ (RespInt 1) Hr HM) as HS. destruct (store_hll s key blob (RespInt 1)) as [s' reply].
    eexists _, _. split; [done|]. right. destruct HS as [HS Hd]; [intros Hcl; by eapply clean_aligned|].
    split; [done|]. intros Hrep Hsame. rewrite Hd by done. unfold key_dense. rewrite Er.
    destruct (is_dense raw), (is_dense blob); try done; destruct Hne; by auto.
  - subst l. destruct (init_payload_ok (e :: es)) as (blob & -> & HM). cbn [mbind option_bind].
    pose proof (store_ok s key blob _ _ (RespInt 1) Hr HM) as HS. destruct (store_hll s key blob (RespInt 1)) as [s' reply].
    eexists _, _. split; [done|]. by apply HS.
  - subst l. by eexists _, _.
  - subst l. by eexists _, _.
Qed.

(** ** PFCOUNT *)

(** The union of the keys, or the answer that ends the command. *)
Fixpoint union_states (s : St) (keys : list (list Z)) (acc : option (list Z)) : Reply + option (list Z) :=
  match keys with
  | [] => inr acc
  | k :: keys' =>
      match key_state s k with
      | KRegs R => union_states s keys' (Some (match acc with Some U => join U R | None => R end))
      | KAbsent => union_states s keys' acc
      | KNotHll => inl RespWrongTypeHll
      | KDeferred => inl NotHandled
      end
  end.

Definition count_reply (r : Reply + option (list Z)) : Reply :=
  match r with inl reply => reply | inr None => RespInt 0 | inr (Some U) => RespInt (est (hist U)) end.

Lemma count_loop_ok s keys : Readable s -> Forall (Clean s) keys -> forall acc accR,
  match acc, accR with None, None => True | Some _, Some U => Union est acc U | _, _ => False end ->
  exists r, count_loop s keys acc = Some r /\
  match r, union_states s keys accR with
  | inl a, inl b => a = b
  | inr None, inr None => True
  | inr (Some a), inr (Some U) => Union est (Some a) U
  | _, _ => False
  end.
Proof.
  intros Hr Hcl. induction Hcl as [|k keys Hk _ IH]; intros acc accR Hacc; cbn [count_loop union_states].
  { eexists. split; [done|]. by destruct acc, accR. }
  destruct (load_ok s k Hr) as (l & -> & Hl). cbn [mbind option_bind]. destruct (key_state s k) as [R| | |].
  - destruct Hl as (raw & -> & Er & HG & <-). pose proof (good_view raw HG) as Hv. destruct HG as [Hok Hval].
    destruct (Hk raw Er Hval) as [_ Hc]. destruct acc as [a|], accR as [U|]; try done.
    + destruct (union_absorb_ok est (Some a) U raw _ Hacc Hv) as (acc' & -> & HU). cbn [mbind option_bind]. apply IH.
      destruct HU as (b & -> & Hb). by exists b.
    + destruct (union_seed_ok est raw _ Hv Hc) as (b & Eb & HD & HC). unfold hll_union_absorb. rewrite Eb. cbn [mbind option_bind].
      apply IH. by exists b.
  - subst l. by apply IH.
  - subst l. by eexists.
  - subst l. by eexists.
Qed.

(** C18: PFCOUNT answers the estimate of the pointwise maximum of the registers of
    the keys that hold payloads, whatever their encodings, [:0] when none does, the
    error at the first key that holds something else. It never panics.  The payloads
    are those the commands themselves make ([Clean]): their zero ranges are aligned
    and a count that is cached in them is not stale. *)
Theorem pfcount_correct (s : St) keys : keys <> [] -> Readable s -> Forall (Clean s) keys ->
  hyper_log_log_length est s keys = Some (count_reply (union_states s keys None)).
Proof.
  intros Hne Hr Hcl. destruct keys as [|k [|k2 keys]]; [done| |].
  - cbn [hyper_log_log_length union_states]. destruct (load_ok s k Hr) as (l & -> & Hl). cbn [mbind option_bind].
    destruct (key_state s k) as [R| | |]; [|by subst l..]. destruct Hl as (raw & -> & Er & HG & <-).
    apply Forall_cons_1 in Hcl as [Hk _]. destruct (Hk raw Er (proj2 HG)) as [_ Hc].
    destruct (count_ok est raw _ (good_view raw HG) Hc) as (p & ->). done.
  - unfold hyper_log_log_length. destruct (count_loop_ok s (k :: k2 :: keys) Hr Hcl None None I) as (r & -> & HU).
    cbn [mbind option_bind]. destruct r as [a|[a|]], (union_states s (k :: k2 :: keys) None) as [b|[U|]]; try done; [by rewrite HU|].
    destruct HU as (b & [= <-] & HD & HC). destruct (count_ok est a U (view_dense _ _ HD) HC) as (p & ->). done.
Qed.

(** ** PFMERGE *)

(** The registers of the destination after the sources, how the loop ends, and
    whether a source was merged. *)
Fixpoint merge_states (s : St) (sources : list (list Z)) (R : list Z) (merged : bool) : Reply * list Z * bool :=
  match sources with
  | [] => (RespOk, R, merged)
  | k :: sources' =>
      match key_state s k with
      | KRegs Q => merge_states s sources' (join R Q) true
      | KAbsent => merge_states s sources' R merged
      | KNotHll => (RespWrongTypeHll, R, merged)
      | KDeferred => (NotHandled, R, merged)
      end
  end.

Definition merge_outcome (s : St) (dest : list Z) (s' : St) (reply : Reply) (spec : Reply * list Z * bool) : Prop :=
  match spec with
  | (NotHandled, _, _) => s' = s /\ reply = NotHandled
  | (end_, _, false) => s' = s /\ reply = end_
  | (end_, R, true) => Stored s dest s' reply end_ R
  end.

Lemma merge_loop_ok s dest sources : Readable s -> forall dst R merged, View dst R -> block_aligned dst = true ->
  (merged = true -> get_card dst = i64_min) -> exists s' reply,
  merge_loop s dest sources dst merged = Some (s', reply) /\ merge_outcome s dest s' reply (merge_states s sources R merged).
Proof.
  intros Hr. induction sources as [|k sources IH]; intros dst R merged Hv Ha Hc; cbn [merge_loop merge_states].
  { destruct merged; [|by eexists _, _]. pose proof (store_ok s dest dst R True RespOk Hr) as HS.
    destruct (store_hll s dest dst RespOk) as [s' reply]. eexists _, _. split; [done|].
    apply HS; [|done]. split_and!; [done|by apply Hc|done]. }
  destruct (load_ok s k Hr) as (l & -> & Hl). cbn [mbind option_bind]. destruct (key_state s k) as [Q| | |].
  - destruct Hl as (raw & -> & _ & HG & <-). destruct (merge_payload_ok dst R raw _ Hv (good_view raw HG) Ha) as (d & -> & HM).
    cbn [mbind option_bind]. destruct HM as (HV & HC & HA). apply IH; [done|by apply HA|done].
  - subst l. by apply IH.
  - subst l. destruct merged; [|by eexists _, _]. pose proof (store_ok s dest dst R True RespWrongTypeHll Hr) as HS.
    destruct (store_hll s dest dst RespWrongTypeHll) as [s' reply]. eexists _, _. split; [done|].
    apply HS; [|done]. split_and!; [done|by apply Hc|done].
  - subst l. by eexists _, _.
Qed.

(** C17: PFMERGE leaves the destination with the pointwise maximum of its
    registers and those of the sources (of the sources before the first that is
    not a payload, when it ends with the error), writes nothing when no source is
    there or one is deferred, and leaves the other keys alone. It never panics on
    a destination whose ranges are aligned. *)
Theorem pfmerge_correct (s : St) dest src sources : Readable s -> Clean s dest -> try_rmw_window s dest = true ->
  exists s' reply, hyper_log_log_merge s (dest :: src :: sources) = Some (s', reply) /\
  match key_state s dest with
  | KNotHll => s' = s /\ reply = RespWrongTypeHll
  | KDeferred => s' = s /\ reply = NotHandled
  | KAbsent => merge_outcome s dest s' reply (merge_states s (src :: sources) empty_registers false)
  | KRegs R => merge_outcome s dest s' reply (merge_states s (src :: sources) R false)
  end.
Proof.
  intros Hr Hcl Hw. unfold hyper_log_log_merge. rewrite Hw. cbn [negb]. destruct (load_ok s dest Hr) as (l & -> & Hl). cbn [mbind option_bind].
  destruct (key_state s dest) as [R| | |].
  - destruct Hl as (raw & -> & Er & HG & <-). apply merge_loop_ok; [done|by apply good_view|by eapply clean_aligned|done].
  - subst l. destruct sparse_seed_ok as (seed & -> & HV & _ & HA). cbn [mbind option_bind]. apply merge_loop_ok; [done|done|by apply HA|done].
  - subst l. by eexists _, _.
  - subst l. by eexists _, _.
Qed.

End Spec.

(** ** A store in memory *)

Abbreviation MemStore := (gmap (list Z) (list Z)).

#[export] Instance mem_backend : Backend MemStore := {|
  read_user_sync s k := match s !! k with Some v => inl (Hit v) | None => inl Missing end;
  try_rmw_window _ _ := true;
  try_rmw_sync s k v := (<[k := v]> s, Written)
|}.

#[export] Instance mem_laws : StoreLaws MemStore.
Proof.
  split; intros s k v s' [= <-]. unfold read_user_sync, mem_backend. split; [by rewrite lookup_insert_eq|].
  intros k' Hne. by rewrite lookup_insert_ne by done.
Qed.

Lemma mem_readable k v : bytes_ok v -> Readable ({[k := v]} : MemStore).
Proof. intros Hok k' v'. cbn. destruct (decide (k = k')) as [->|]; [rewrite lookup_singleton_eq|by rewrite lookup_singleton_ne]. by intros [= <-]. Qed.

(** The sparse payload with the element ["a"]. *)
Definition one_element : list Z := default [] (hll_init_payload hll [[97]]).

Lemma one_element_made : Made one_element (add_all hll empty_registers [[97]]) True.
Proof.
  destruct (init_payload_ok [[97]]) as (b & E & HM). unfold one_element. rewrite E. exact HM.
Qed.

Lemma made_store est k v R : Made v R True -> Readable ({[k := v]} : MemStore) /\ Clean est ({[k := v]} : MemStore) k.
Proof.
  intros (HV & HC & HA). destruct (view_good _ _ HV) as [[Hok _] _]. split; [by apply mem_readable|].
  intros w. unfold read_user_sync, mem_backend. rewrite lookup_singleton_eq. intros [= <-] _. split; [by apply HA|by apply void_cached].
Qed.

Lemma one_element_store est k : Readable ({[k := one_element]} : MemStore) /\ Clean est ({[k := one_element]} : MemStore) k.
Proof. exact (made_store est k one_element _ one_element_made). Qed.

Lemma pfadd_correct_witness : exists s' reply,
  hyper_log_log_add ({[[1] := one_element]} : MemStore) [[1]; [98]; [99]] = Some (s', reply) /\ reply = RespInt 1.
Proof.
  destruct (pfadd_correct (fun _ => 0) ({[[1] := one_element]} : MemStore) [1] [98] [[99]]) as (s' & reply & E & _).
  - exact (proj1 (one_element_store (fun _ => 0) [1])).
  - reflexivity.
  - exists s', reply. split; [exact E|]. apply (f_equal (fmap snd)) in E. apply Some_inj. etransitivity; [symmetry; exact E|].
    vm_compute. reflexivity.
Defined.

Lemma pfcount_correct_witness : exists reply,
  hyper_log_log_length (fun _ => 7) ({[[1] := one_element]} : MemStore) [[1]; [2]] = Some reply /\ reply = RespInt 7.
Proof.
  eexists. split; [apply (pfcount_correct (fun _ => 7))|].
  - discriminate.
  - exact (proj1 (one_element_store (fun _ => 7) [1])).
  - constructor; [exact (proj2 (one_element_store (fun _ => 7) [1]))|]. constructor; [|constructor]. intros v Hv. discriminate Hv.
  - vm_compute. reflexivity.
Defined.

Lemma pfmerge_correct_witness : exists s' reply,
  hyper_log_log_merge ({[[1] := one_element]} : MemStore) [[1]; [1]; [2]] = Some (s', reply) /\ reply = RespOk.
Proof.
  destruct (pfmerge_correct (fun _ => 0) ({[[1] := one_element]} : MemStore) [1] [1] [[2]]) as (s' & reply & E & _).
  - exact (proj1 (one_element_store (fun _ => 0) [1])).
  - exact (proj2 (one_element_store (fun _ => 0) [1])).
  - reflexivity.
  - exists s', reply. split; [exact E|]. apply (f_equal (fmap snd)) in E. apply Some_inj. etransitivity; [symmetry; exact E|].
    vm_compute. reflexivity.
Defined.

(** ** Sets of elements *)

Lemma raise_comm R i v j w : 0 <= i -> 0 <= j -> raise (raise R i v) j w = raise (raise R j w) i v.
Proof.
  intros Hi Hj. apply list_eq. intros k. rewrite !raise_lookup by done.
  repeat case_decide; destruct (R !! k); cbn; f_equal; lia.
Qed.

Lemma raise_idem R i v : 0 <= i -> raise (raise R i v) i v = raise R i v.
Proof.
  intros Hi. apply list_eq. intros k. rewrite !raise_lookup by done. case_decide; [|done]. destruct (R !! k); cbn; f_equal; lia.
Qed.

Lemma join_raise A B i v : 0 <= i -> join A (raise B i v) = join (raise A i v) (raise B i v).
Proof.
  intros Hi. apply list_eq. intros k. unfold join. rewrite !lookup_zip_with, !raise_lookup by done.
  case_decide; destruct (A !! k), (B !! k); cbn; try done. f_equal. lia.
Qed.

Lemma raise_join A B i v : 0 <= i -> join (raise A i v) (raise B i v) = raise (join A B) i v.
Proof.
  intros Hi. apply list_eq. intros k. unfold join. rewrite !raise_lookup, !lookup_zip_with, !raise_lookup by done.
  case_decide; destruct (A !! k), (B !! k); cbn; try done. f_equal. lia.
Qed.

Lemma element_idx e : 0 <= reg_idx hll (murmur_hash_2_x64_a e).
Proof. apply (reg_idx_bound hll new_shape), murmur_fits. Qed.

Lemma add_all_join es : forall A B, join A (add_all hll B es) = add_all hll (join A B) es.
Proof.
  induction es as [|e es IH]; intros A B; [done|]. cbn [add_all fold_left]. fold (add_all hll (add_element hll B e) es).
  fold (add_all hll (add_element hll (join A B) e) es). rewrite IH. f_equal. pose proof (element_idx e).
  unfold add_element, add_hash. by rewrite join_raise, raise_join.
Qed.

Lemma add_all_element e es : forall R, add_element hll R e = R -> add_element hll (add_all hll R es) e = add_all hll R es.
Proof.
  induction es as [|x es IH]; intros R HR; [done|]. cbn [add_all fold_left]. apply IH. pose proof (element_idx e). pose proof (element_idx x).
  unfold add_element, add_hash in *. by rewrite raise_comm, HR.
Qed.

Lemma add_all_has e es : e ∈ es -> forall R, add_element hll (add_all hll R es) e = add_all hll R es.
Proof.
  induction es as [|x es IH]; intros He R; [by apply elem_of_nil in He|]. cbn [add_all fold_left].
  apply elem_of_cons in He as [<-|He]; [|by apply IH]. apply add_all_element. unfold add_element, add_hash. by rewrite raise_idem by apply element_idx.
Qed.

Lemma add_all_absorb T es : (forall e, e ∈ es -> add_element hll T e = T) -> forall R, join T R = T -> join T (add_all hll R es) = T.
Proof.
  intros HT R HR. rewrite add_all_join, HR. clear HR. induction es as [|e es IH]; [done|]. cbn [add_all fold_left].
  rewrite HT by (by left). apply IH. intros x Hx. apply HT. by right.
Qed.

Lemma join_comm A B : join A B = join B A.
Proof.
  apply list_eq. intros k. unfold join. rewrite !lookup_zip_with. destruct (A !! k), (B !! k); cbn; try done. f_equal. lia.
Qed.

Lemma view_registers ptr R : View ptr R -> join R empty_registers = R.
Proof.
  intros Hv. assert (H : length R = Z.to_nat (mcnt hll) /\ Forall (fun x => 0 <= x) R).
  { destruct Hv as [Hd|rle n Hs <- _].
    - split; [exact (payload_length hll ptr R Hd)|]. apply (Forall_impl _ _ _ (payload_values hll new_shape ptr R Hd)). cbn. lia.
    - pose proof (payload_stream hll ptr rle n Hs) as Hst. split; [exact (stream_length hll rle Hst)|exact (expand_nonneg hll rle Hst)]. }
  destruct H as [Hl Hn]. unfold empty_registers. rewrite <- Hl, join_comm. exact (join_zeros R Hn).
Qed.

Lemma added_registers es : join (add_all hll empty_registers es) empty_registers = add_all hll empty_registers es.
Proof. destruct (init_payload_ok es) as (b & _ & HV & _). by eapply view_registers. Qed.

(** The registers of a list of elements depend on the set of its elements. *)
Lemma add_all_set es es' : (forall e, e ∈ es <-> e ∈ es') -> add_all hll empty_registers es = add_all hll empty_registers es'.
Proof.
  intros Hset. assert (H : forall l l', (forall e, e ∈ l' -> e ∈ l) ->
    join (add_all hll empty_registers l) (add_all hll empty_registers l') = add_all hll empty_registers l).
  { intros l l' Hsub. apply add_all_absorb; [|apply added_registers]. intros e He. by apply add_all_has, Hsub. }
  rewrite <- (H es es') by (intros e; apply Hset). rewrite join_comm. apply H. intros e. apply Hset.
Qed.

Lemma made_counts est ptr R al : Made ptr R al -> snd <$> count hll est ptr = Some (est (hist R)).
Proof. intros (HV & HC & _). destruct (count_ok est ptr R HV (void_cached est ptr HC)) as (p & ->). done. Qed.

(** C19: merging the payloads of two lists of elements gives the registers, and so
    the count, of a payload built from any list of the elements of both, in any
    order and with any repetitions, whatever the encodings on the way. *)
Theorem merge_is_union est es1 es2 es : (forall e, e ∈ es <-> e ∈ es1 \/ e ∈ es2) -> exists b1 b2 m b,
  hll_init_payload hll es1 = Some b1 /\ hll_init_payload hll es2 = Some b2 /\ hll_merge_payload hll b1 b2 = Some m /\
  hll_init_payload hll es = Some b /\ registers m = registers b /\ snd <$> count hll est m = snd <$> count hll est b.
Proof.
  intros Hset. destruct (init_payload_ok es1) as (b1 & E1 & HV1 & _ & HA1). destruct (init_payload_ok es2) as (b2 & E2 & HV2 & _).
  destruct (init_payload_ok es) as (b & E & HM). destruct (merge_payload_ok b1 _ b2 _ HV1 HV2 (HA1 I)) as (m & Em & HMm).
  rewrite add_all_join, added_registers in HMm. unfold add_all in HMm. rewrite <- fold_left_app in HMm. fold (add_all hll empty_registers (es1 ++ es2)) in HMm.
  rewrite (add_all_set (es1 ++ es2) es) in HMm by (intros e; rewrite elem_of_app, Hset; done).
  exists b1, b2, m, b. split_and!; try done.
  - rewrite (proj2 (view_good m _ (proj1 HMm))). by rewrite (proj2 (view_good b _ (proj1 HM))).
  - by rewrite (made_counts est m _ _ HMm), (made_counts est b _ _ HM).
Qed.

Lemma merge_is_union_witness : exists b1 b2 m b,
  hll_init_payload hll [[97]; [98]] = Some b1 /\ hll_init_payload hll [[98]; [99]] = Some b2 /\ hll_merge_payload hll b1 b2 = Some m /\
  hll_init_payload hll [[99]; [98]; [97]; [97]] = Some b /\ registers m = registers b /\
  snd <$> count hll (fun h => nth 0 h 0) m = snd <$> count hll (fun h => nth 0 h 0) b.
Proof.
  apply (merge_is_union (fun h => nth 0 h 0) [[97]; [98]] [[98]; [99]] [[99]; [98]; [97]; [97]]).
  intros e. rewrite !elem_of_cons, elem_of_nil. tauto.
Defined.

(** ** Two corners *)

Lemma again_same e n R : add_element hll R e = R -> add_all hll R (replicate n e) = R.
Proof.
  intros HR. induction n as [|n IH]; [done|]. unfold add_all. cbn [replicate fold_left]. rewrite HR. exact IH.
Qed.

Lemma one_element_again e R n : add_all hll (add_all hll R [e]) (replicate n e) = add_all hll R [e].
Proof. apply again_same, add_all_has. by left. Qed.

Lemma bytes_ok_check l : forallb (fun x => (0 <=? x) && (x <? 256)) l = true -> bytes_ok l.
Proof. intros H. apply Forall_forall. intros x Hx. rewrite forallb_forall in H. apply list_elem_of_In in Hx. specialize (H x Hx). unfold fits. lia. Qed.

(** A valid sparse payload whose ranges are not aligned: 127 times a register with
    the value 1 and a range of 128 registers, and a last register. *)
Definition unaligned_payload : list Z :=
  le_bytes 8 0x48594C4C00000000 ++ le_bytes 8 (of_i64 i64_min) ++ le_bytes 2 255 ++
  concat (replicate 127 [0; 255]) ++ [0] ++ [0].

(** The payload with the value 1 in thirty registers that fall inside the ranges. *)
Definition thirty_registers : list Z :=
  default [] (seed ← hll_sparse_seed hll;
    fold_left (fun acc i => p ← acc; fst <$> update_sparse_reg hll p (4 * i + 2) 1) (seqZ 0 30) (Some seed)).

(** PFMERGE into a valid payload whose ranges are not aligned can panic: the
    destination is rebuilt with aligned ranges, which take more codes than the new
    length was computed for. *)
Lemma merge_panics_on_unaligned :
  Good unaligned_payload /\ Good thirty_registers /\ block_aligned unaligned_payload = false /\
  hll_merge_payload hll unaligned_payload thirty_registers = None.
Proof.
  split; [split; [apply bytes_ok_check|]; vm_compute; reflexivity|].
  split; [split; [apply bytes_ok_check|]; vm_compute; reflexivity|]. split; vm_compute; reflexivity.
Qed.

(** C20: when PFADD makes a sparse payload that is not empty dense - the elements do
    not fit into its room and the length it grows to is that of a dense one - it
    reports an update whatever the elements are, so also when every one of them was
    there already: the registers copied from the old payload count as changes.  The
    registers are those of the payload raised by the elements. *)
Theorem dense_growth_reports_update blob es : Good blob -> is_dense blob = false -> registers blob <> empty_registers ->
  can_grow_in_place hll blob (zlen blob) (zlen es) = false -> add_len hll blob (zlen es) = dense_bytes hll ->
  exists blob', hll_add_payload hll blob es = Some (Some blob') /\ registers blob' = add_all hll (registers blob) es.
Proof.
  intros HG Hd Hne Hroom Hlen. destruct (good_view blob HG) as [Hd'|rle n Hs ER _].
  { by rewrite (proj1 (registers_dense blob _ Hd')) in Hd. }
  destruct (registers_sparse blob rle n Hs) as (_ & Esp & _). unfold hll_add_payload, update. rewrite Hd, Esp, Hroom.
  cbn [mbind option_bind orb]. rewrite Hd, Hlen. cbn [orb]. change (dense_bytes hll) with 12304.
  destruct (grow_dense blob rle n es Hs) as (p & u1 & p1 & u2 & -> & Hp & Hu1 & _). cbn [mbind option_bind].
  rewrite ER in *. rewrite (Hu1 Hne). cbn [orb]. exists p1. split; [done|]. by apply registers_dense.
Qed.

Lemma dense_growth_reports_update_witness :
  add_all hll (registers one_element) (replicate 2000 [97]) = registers one_element /\
  exists blob', hll_add_payload hll one_element (replicate 2000 [97]) = Some (Some blob') /\
    registers blob' = add_all hll (registers one_element) (replicate 2000 [97]).
Proof.
  destruct one_element_made as (HV & _). destruct (view_good _ _ HV) as [HG HR]. split; [rewrite HR; apply one_element_again|].
  apply (dense_growth_reports_update one_element (replicate 2000 [97])).
  - exact HG.
  - vm_compute. reflexivity.
  - intros E. apply (f_equal (forallb (Z.eqb 0))) in E. vm_compute in E. discriminate E.
  - vm_compute. reflexivity.
  - vm_compute. reflexivity.
Defined.

End HllStoreSpec.
