(* ===== verification/AclCatalog.v ===== *)
(** * The command catalogue ([wedb/wresp/src/command.rs], [wedb/wresp/src/catalog])

    [Text]: the string functions of the access rules.  [Catalog]: the commands with
    their numbers, the categories, the entries of the catalogue and the indexes
    over them ([catalog/mod.rs]).  [COMMANDS] are the members of the enumeration;
    [RESP_COMMANDS_INFO] is the content of [RespCommandsInfo.json] as far as the
    access rules use it: number, name, categories and subcommands.  Strings are
    ASCII, as everything the access rules read has been sanitised to it. *)

From Stdlib Require Import ZArith Lia Bool Ascii String.
From stdpp Require Import base list numbers option tactics strings gmap.
From S2P Require Import Prelude Bytes.

Open Scope string_scope.
Open Scope list_scope.
Open Scope Z_scope.

Module Text.

Definition code (c : ascii) : Z := Z.of_N (N_of_ascii c).
Definition char_of (z : Z) : ascii := ascii_of_N (Z.to_N z).

Definition lower (c : ascii) : ascii := if (65 <=? code c) && (code c <=? 90) then char_of (code c + 32) else c.
Definition upper (c : ascii) : ascii := if (97 <=? code c) && (code c <=? 122) then char_of (code c - 32) else c.

Fixpoint map_chars (f : ascii -> ascii) (s : string) : string :=
  match s with EmptyString => EmptyString | String c s' => String (f c) (map_chars f s') end.

Definition to_ascii_lowercase : string -> string := map_chars lower.
Definition to_ascii_uppercase : string -> string := map_chars upper.
Definition eq_ignore_ascii_case (a b : string) : bool := String.eqb (to_ascii_lowercase a) (to_ascii_lowercase b).

Definition is_ascii_digit (c : ascii) : bool := (48 <=? code c) && (code c <=? 57).
Definition is_ascii_alphanumeric (c : ascii) : bool :=
  is_ascii_digit c || ((65 <=? code c) && (code c <=? 90)) || ((97 <=? code c) && (code c <=? 122)).

Definition is_whitespace (c : ascii) : bool := (code c =? 32) || ((9 <=? code c) && (code c <=? 13)).

Definition chars : string -> list ascii := list_ascii_of_string.
Definition of_chars : list ascii -> string := string_of_list_ascii.

(** [s.as_bytes()] and back. *)
Definition as_bytes (s : string) : list Z := map code (chars s).
Definition of_bytes (l : list Z) : string := of_chars (map char_of l).

Definition is_empty (s : string) : bool := match s with EmptyString => true | _ => false end.

Definition contains (c : ascii) (s : string) : bool := existsb (Ascii.eqb c) (chars s).

(** [s.split_once(c)]. *)
Fixpoint split_once (c : ascii) (s : string) : option (string * string) :=
  match s with
  | EmptyString => None
  | String x s' =>
      if Ascii.eqb c x then Some (EmptyString, s')
      else '(a, b) ← split_once c s'; Some (String x a, b)
  end.

(** The words of [s], [cur] being the characters of the first one read so far, the
    last one first. *)
Fixpoint words (s : list ascii) (cur : list ascii) : list string :=
  match s with
  | [] => match cur with [] => [] | _ => [of_chars (rev cur)] end
  | c :: s' =>
      if is_whitespace c
      then match cur with [] => words s' [] | _ => of_chars (rev cur) :: words s' [] end
      else words s' (c :: cur)
  end.

Definition split_whitespace (s : string) : list string := words (chars s) [].

Fixpoint skip_spaces (l : list ascii) : list ascii :=
  match l with c :: l' => if is_whitespace c then skip_spaces l' else l | [] => [] end.

Definition trim (s : string) : string := of_chars (rev (skip_spaces (rev (skip_spaces (chars s))))).

(** [&s[n..]]. *)
Definition tail_from (n : nat) (s : string) : string := of_chars (drop n (chars s)).

(** [ascii_sanitize] ([wbase/src/ascii.rs]). *)
Definition ascii_sanitize (bytes : list Z) : string := of_bytes (map (fun b => if b <? 128 then b else 63) bytes).

(** [s.parse::<u64>()]. *)
Fixpoint digits (l : list ascii) (acc : Z) : option Z :=
  match l with
  | [] => Some acc
  | c :: l' =>
      if is_ascii_digit c
      then let acc := acc * 10 + (code c - 48) in if acc <=? u64_max then digits l' acc else None
      else None
  end.

Definition parse_u64 (s : string) : option Z :=
  match chars s with
  | [] => None
  | c :: l =>
      if Ascii.eqb c "+" then match l with [] => None | _ => digits l 0 end else digits (c :: l) 0
  end.

End Text.

Module Catalog.
Import Text.

(** ** Commands *)

(** The members of the enumeration, as [strum] names them. *)
Definition COMMANDS : list (string * Z) := [
  ("NONE", 0); ("APPEND", 1); ("BITFIELD", 2); ("BZMPOP", 3); ("BZPOPMAX", 4); ("BZPOPMIN", 5); ("DECR", 6);
  ("DECRBY", 7); ("DEL", 8); ("DELIFEXPIM", 9); ("DELIFGREATER", 10); ("EXPIRE", 11); ("EXPIREAT", 12);
  ("FLUSHALL", 13); ("FLUSHDB", 14); ("GEOADD", 15); ("GEORADIUS", 16); ("GEORADIUSBYMEMBER", 17);
  ("GEOSEARCHSTORE", 18); ("GETDEL", 19); ("GETEX", 20); ("GETSET", 21); ("HCOLLECT", 22); ("HDEL", 23);
  ("HEXPIRE", 24); ("HPEXPIRE", 25); ("HEXPIREAT", 26); ("HPEXPIREAT", 27); ("HPERSIST", 28); ("HINCRBY", 29);
  ("HINCRBYFLOAT", 30); ("HMSET", 31); ("HSET", 32); ("HSETNX", 33); ("INCR", 34); ("INCRBY", 35);
  ("INCRBYFLOAT", 36); ("LINSERT", 37); ("LMOVE", 38); ("LMPOP", 39); ("LPOP", 40); ("LPUSH", 41); ("LPUSHX", 42);
  ("LREM", 43); ("LSET", 44); ("LTRIM", 45); ("BLPOP", 46); ("BRPOP", 47); ("BLMOVE", 48); ("BRPOPLPUSH", 49);
  ("BLMPOP", 50); ("MIGRATE", 51); ("MSET", 52); ("MSETNX", 53); ("PERSIST", 54); ("PEXPIRE", 55); ("PEXPIREAT", 56);
  ("PFADD", 57); ("PFMERGE", 58); ("PSETEX", 59); ("RENAME", 60); ("RICREATE", 61); ("RIDEL", 62); ("RIPROMOTE", 63);
  ("RIRESTORE", 64); ("RISET", 65); ("RESTORE", 66); ("RENAMENX", 67); ("RPOP", 68); ("RPOPLPUSH", 69);
  ("RPUSH", 70); ("RPUSHX", 71); ("SADD", 72); ("SDIFFSTORE", 73); ("SET", 74); ("SETBIT", 75); ("SETEX", 76);
  ("SETEXNX", 77); ("SETEXXX", 78); ("SETNX", 79); ("SETIFMATCH", 80); ("SETIFGREATER", 81); ("SETWITHETAG", 82);
  ("SETKEEPTTL", 83); ("SETKEEPTTLXX", 84); ("SETRANGE", 85); ("SINTERSTORE", 86); ("SMOVE", 87); ("SPOP", 88);
  ("SREM", 89); ("SUNIONSTORE", 90); ("SWAPDB", 91); ("UNLINK", 92); ("VADD", 93); ("VREM", 94); ("VSETATTR", 95);
  ("ZADD", 96); ("ZCOLLECT", 97); ("ZDIFFSTORE", 98); ("ZEXPIRE", 99); ("ZPEXPIRE", 100); ("ZEXPIREAT", 101);
  ("ZPEXPIREAT", 102); ("ZPERSIST", 103); ("ZINCRBY", 104); ("ZMPOP", 105); ("ZINTERSTORE", 106); ("ZPOPMAX", 107);
  ("ZPOPMIN", 108); ("ZRANGESTORE", 109); ("ZREM", 110); ("ZREMRANGEBYLEX", 111); ("ZREMRANGEBYRANK", 112);
  ("ZREMRANGEBYSCORE", 113); ("ZUNIONSTORE", 114); ("BITOP", 115); ("BITOP_AND", 116); ("BITOP_OR", 117);
  ("BITOP_XOR", 118); ("BITOP_NOT", 119); ("BITOP_DIFF", 120); ("BITCOUNT", 121); ("BITFIELD_RO", 122);
  ("BITPOS", 123); ("COSCAN", 124); ("DBSIZE", 125); ("DUMP", 126); ("EXISTS", 127); ("EXPIRETIME", 128);
  ("GEODIST", 129); ("GEOHASH", 130); ("GEOPOS", 131); ("GEORADIUS_RO", 132); ("GEORADIUSBYMEMBER_RO", 133);
  ("GEOSEARCH", 134); ("GET", 135); ("GETBIT", 136); ("GETIFNOTMATCH", 137); ("GETRANGE", 138); ("GETWITHETAG", 139);
  ("HEXISTS", 140); ("HGET", 141); ("HGETALL", 142); ("HKEYS", 143); ("HLEN", 144); ("HMGET", 145);
  ("HRANDFIELD", 146); ("HSCAN", 147); ("HSTRLEN", 148); ("HVALS", 149); ("KEYS", 150); ("LCS", 151); ("HTTL", 152);
  ("HPTTL", 153); ("HEXPIRETIME", 154); ("HPEXPIRETIME", 155); ("LINDEX", 156); ("LLEN", 157); ("LPOS", 158);
  ("LRANGE", 159); ("MEMORY_USAGE", 160); ("MGET", 161); ("OBJECT_ENCODING", 162); ("OBJECT_FREQ", 163);
  ("OBJECT_IDLETIME", 164); ("OBJECT_REFCOUNT", 165); ("PEXPIRETIME", 166); ("PFCOUNT", 167); ("PTTL", 168);
  ("SCAN", 169); ("SCARD", 170); ("SDIFF", 171); ("SINTER", 172); ("SINTERCARD", 173); ("SISMEMBER", 174);
  ("SMEMBERS", 175); ("SMISMEMBER", 176); ("SPUBLISH", 177); ("SRANDMEMBER", 178); ("SSCAN", 179);
  ("SSUBSCRIBE", 180); ("STRLEN", 181); ("SUBSTR", 182); ("SUNION", 183); ("TTL", 184); ("TYPE", 185);
  ("VCARD", 186); ("VDIM", 187); ("VEMB", 188); ("VGETATTR", 189); ("VINFO", 190); ("VISMEMBER", 191);
  ("VLINKS", 192); ("VRANDMEMBER", 193); ("VSIM", 194); ("WATCH", 195); ("WATCHMS", 196); ("WATCHOS", 197);
  ("ZCARD", 198); ("ZCOUNT", 199); ("ZDIFF", 200); ("ZINTER", 201); ("ZINTERCARD", 202); ("ZLEXCOUNT", 203);
  ("ZMSCORE", 204); ("ZRANDMEMBER", 205); ("ZRANGE", 206); ("ZRANGEBYLEX", 207); ("ZRANGEBYSCORE", 208);
  ("ZRANK", 209); ("ZREVRANGE", 210); ("ZREVRANGEBYLEX", 211); ("ZREVRANGEBYSCORE", 212); ("ZREVRANK", 213);
  ("ZTTL", 214); ("ZPTTL", 215); ("ZEXPIRETIME", 216); ("ZPEXPIRETIME", 217); ("ZSCAN", 218); ("ZSCORE", 219);
  ("ZUNION", 220); ("RICONFIG", 221); ("RICOUNT", 222); ("RIEXISTS", 223); ("RIGET", 224); ("RIMETRICS", 225);
  ("RIRANGE", 226); ("RISCAN", 227); ("EVAL", 228); ("EVALSHA", 229); ("ASYNC", 230); ("PING", 231); ("PUBSUB", 232);
  ("PUBSUB_CHANNELS", 233); ("PUBSUB_NUMPAT", 234); ("PUBSUB_NUMSUB", 235); ("PUBLISH", 236); ("SUBSCRIBE", 237);
  ("PSUBSCRIBE", 238); ("UNSUBSCRIBE", 239); ("PUNSUBSCRIBE", 240); ("ASKING", 241); ("SELECT", 242); ("ECHO", 243);
  ("CLIENT", 244); ("CLIENT_ID", 245); ("CLIENT_INFO", 246); ("CLIENT_LIST", 247); ("CLIENT_KILL", 248);
  ("CLIENT_GETNAME", 249); ("CLIENT_SETNAME", 250); ("CLIENT_SETINFO", 251); ("CLIENT_UNBLOCK", 252);
  ("MONITOR", 253); ("MULTI", 257); ("EXEC", 258); ("DISCARD", 259); ("UNWATCH", 260); ("RUNTXP", 261);
  ("READONLY", 262); ("READWRITE", 263); ("REPLICAOF", 264); ("SECONDARYOF", 265); ("INFO", 266); ("TIME", 267);
  ("ROLE", 268); ("SAVE", 269); ("EXPDELSCAN", 270); ("LASTSAVE", 271); ("BGSAVE", 272); ("COMMITAOF", 273);
  ("FAILOVER", 274); ("CUSTOMOBJCMD", 277); ("SCRIPT", 279); ("SCRIPT_EXISTS", 280); ("SCRIPT_FLUSH", 281);
  ("SCRIPT_LOAD", 282); ("ACL", 283); ("ACL_CAT", 284); ("ACL_DELUSER", 285); ("ACL_GENPASS", 286);
  ("ACL_GETUSER", 287); ("ACL_LIST", 288); ("ACL_LOAD", 289); ("ACL_SAVE", 290); ("ACL_SETUSER", 291);
  ("ACL_USERS", 292); ("ACL_WHOAMI", 293); ("COMMAND", 294); ("COMMAND_COUNT", 295); ("COMMAND_DOCS", 296);
  ("COMMAND_INFO", 297); ("COMMAND_GETKEYS", 298); ("COMMAND_GETKEYSANDFLAGS", 299); ("MEMORY", 300);
  ("OBJECT", 301); ("OBJECT_HELP", 302); ("CONFIG", 303); ("CONFIG_GET", 304); ("CONFIG_REWRITE", 305);
  ("CONFIG_SET", 306); ("DEBUG", 307); ("LATENCY", 308); ("LATENCY_HELP", 309); ("LATENCY_HISTOGRAM", 310);
  ("LATENCY_RESET", 311); ("SLOWLOG", 312); ("SLOWLOG_HELP", 313); ("SLOWLOG_LEN", 314); ("SLOWLOG_GET", 315);
  ("SLOWLOG_RESET", 316); ("CLUSTER", 317); ("CLUSTER_ADDSLOTS", 318); ("CLUSTER_ADDSLOTSRANGE", 319);
  ("CLUSTER_ADVANCE_TIME", 320); ("CLUSTER_APPENDLOG", 321); ("CLUSTER_ATTACH_SYNC", 322); ("CLUSTER_BANLIST", 323);
  ("CLUSTER_BEGIN_REPLICA_RECOVER", 324); ("CLUSTER_BUMPEPOCH", 325); ("CLUSTER_COUNTKEYSINSLOT", 326);
  ("CLUSTER_DELKEYSINSLOT", 327); ("CLUSTER_DELKEYSINSLOTRANGE", 328); ("CLUSTER_DELSLOTS", 329);
  ("CLUSTER_DELSLOTSRANGE", 330); ("CLUSTER_ENDPOINT", 331); ("CLUSTER_FAILOVER", 332);
  ("CLUSTER_FAILREPLICATIONOFFSET", 333); ("CLUSTER_FAILSTOPWRITES", 334); ("CLUSTER_FLUSHALL", 335);
  ("CLUSTER_FLUSHALL_NS", 336); ("CLUSTER_FORGET", 337); ("CLUSTER_GETKEYSINSLOT", 338); ("CLUSTER_GOSSIP", 339);
  ("CLUSTER_HELP", 340); ("CLUSTER_INFO", 341); ("CLUSTER_INITIATE_REPLICA_SYNC", 342); ("CLUSTER_KEYSLOT", 343);
  ("CLUSTER_MEET", 344); ("CLUSTER_MIGRATE", 345); ("CLUSTER_MLOG_KEY_TIME", 346); ("CLUSTER_MTASKS", 347);
  ("CLUSTER_MYID", 348); ("CLUSTER_MYPARENTID", 349); ("CLUSTER_NODES", 350); ("CLUSTER_PUBLISH", 351);
  ("CLUSTER_SPUBLISH", 352); ("CLUSTER_REPLICAS", 353); ("CLUSTER_REPLICATE", 354); ("CLUSTER_RESERVE", 355);
  ("CLUSTER_RESET", 356); ("CLUSTER_SEND_CKPT_FILE_SEGMENT", 357); ("CLUSTER_SEND_CKPT_METADATA", 358);
  ("CLUSTER_SETCONFIGEPOCH", 359); ("CLUSTER_SETSLOT", 360); ("CLUSTER_SETSLOTSRANGE", 361); ("CLUSTER_SHARDS", 362);
  ("CLUSTER_SLOTS", 363); ("CLUSTER_SLOTSTATE", 364); ("CLUSTER_SNAPSHOT_DATA", 365); ("CLUSTER_SYNC", 366);
  ("AUTH", 367); ("HELLO", 368); ("QUIT", 369); ("SUNSUBSCRIBE", 370); ("PUBSUB_SHARDCHANNELS", 371);
  ("PUBSUB_SHARDNUMSUB", 372); ("INVALID", 65535)
].

Definition RespCommand : Type := Z.

Definition NoCommand : RespCommand := 0.
Definition SetCommand : RespCommand := 74.
Definition Setexnx : RespCommand := 77.
Definition Setexxx : RespCommand := 78.
Definition Setkeepttl : RespCommand := 83.
Definition Setkeepttlxx : RespCommand := 84.
Definition Bitop : RespCommand := 115.
Definition BitopAnd : RespCommand := 116.
Definition BitopOr : RespCommand := 117.
Definition BitopXor : RespCommand := 118.
Definition BitopNot : RespCommand := 119.
Definition BitopDiff : RespCommand := 120.
Definition Secondaryof : RespCommand := 265.
Definition ClusterSetconfigepoch : RespCommand := 359.
Definition Auth : RespCommand := 367.
Definition Quit : RespCommand := 369.
Definition LAST_VALID_COMMAND : RespCommand := 372.
Definition Invalid : RespCommand := 65535.

Definition from_cs_name (name : string) : option RespCommand :=
  snd <$> List.find (fun '(member, _) => eq_ignore_ascii_case member name) COMMANDS.

Definition to_cs_name (cmd : RespCommand) : string :=
  default "" (fst <$> List.find (fun '(_, k) => k =? cmd) COMMANDS).

Definition EXPANDED_SET : list RespCommand := [Setexnx; Setexxx; Setkeepttl; Setkeepttlxx].
Definition EXPANDED_BITOP : list RespCommand := [BitopAnd; BitopNot; BitopOr; BitopXor; BitopDiff].

Definition normalize_for_acls (cmd : RespCommand) : RespCommand :=
  if existsb (Z.eqb cmd) EXPANDED_SET then SetCommand
  else if existsb (Z.eqb cmd) EXPANDED_BITOP then Bitop
  else cmd.

Definition expand_for_acls (cmd : RespCommand) : list RespCommand :=
  if cmd =? SetCommand then EXPANDED_SET else if cmd =? Bitop then EXPANDED_BITOP else [].

Definition is_no_auth (cmd : RespCommand) : bool := wsub 16 cmd Auth <=? wsub 16 Quit Auth.

(** ** Categories *)

Definition ALL : Z := Z.shiftl 1 24 - 1.

(** The single categories in the order of their bits. *)
Definition CATEGORIES : list (string * Z) :=
  zip ["admin"; "bitmap"; "blocking"; "connection"; "dangerous"; "geo"; "hash"; "hyperloglog"; "fast"; "keyspace";
       "list"; "pubsub"; "read"; "scripting"; "set"; "sortedset"; "slow"; "stream"; "string"; "transaction"; "write";
       "garnet"; "custom"; "vector"] (map (Z.shiftl 1) (seqZ 0 24)).

(** [a.contains(b)] on bit sets. *)
Definition cats_contain (a b : Z) : bool := Z.land a b =? b.

(** ** Entries *)

Inductive RespCommandsInfo : Type :=
| mkInfo (command : RespCommand) (name : string) (acl_categories : Z) (sub_commands : list RespCommandsInfo).

Definition RESP_COMMANDS_INFO : list RespCommandsInfo := [
  mkInfo 283 "ACL" 0x10000 [
    mkInfo 284 "ACL|CAT" 0x10000 [];
    mkInfo 285 "ACL|DELUSER" 0x10011 [];
    mkInfo 286 "ACL|GENPASS" 0x10000 [];
    mkInfo 287 "ACL|GETUSER" 0x10011 [];
    mkInfo 288 "ACL|LIST" 0x10011 [];
    mkInfo 289 "ACL|LOAD" 0x10011 [];
    mkInfo 290 "ACL|SAVE" 0x10011 [];
    mkInfo 291 "ACL|SETUSER" 0x10011 [];
    mkInfo 292 "ACL|USERS" 0x10011 [];
    mkInfo 293 "ACL|WHOAMI" 0x10000 []];
  mkInfo 1 "APPEND" 0x140100 [];
  mkInfo 241 "ASKING" 0x108 [];
  mkInfo 230 "ASYNC" 0x10000 [];
  mkInfo 367 "AUTH" 0x108 [];
  mkInfo 272 "BGSAVE" 0x10011 [];
  mkInfo 121 "BITCOUNT" 0x11002 [];
  mkInfo 2 "BITFIELD" 0x110002 [];
  mkInfo 122 "BITFIELD_RO" 0x1102 [];
  mkInfo 115 "BITOP" 0x110002 [];
  mkInfo 123 "BITPOS" 0x11002 [];
  mkInfo 48 "BLMOVE" 0x110404 [];
  mkInfo 50 "BLMPOP" 0x110404 [];
  mkInfo 46 "BLPOP" 0x110404 [];
  mkInfo 47 "BRPOP" 0x110404 [];
  mkInfo 49 "BRPOPLPUSH" 0x110404 [];
  mkInfo 3 "BZMPOP" 0x118004 [];
  mkInfo 4 "BZPOPMAX" 0x108104 [];
  mkInfo 5 "BZPOPMIN" 0x108104 [];
  mkInfo 244 "CLIENT" 0x10000 [
    mkInfo 249 "CLIENT|GETNAME" 0x10008 [];
    mkInfo 245 "CLIENT|ID" 0x10008 [];
    mkInfo 246 "CLIENT|INFO" 0x10008 [];
    mkInfo 248 "CLIENT|KILL" 0x10019 [];
    mkInfo 247 "CLIENT|LIST" 0x10019 [];
    mkInfo 251 "CLIENT|SETINFO" 0x10008 [];
    mkInfo 250 "CLIENT|SETNAME" 0x10008 [];
    mkInfo 252 "CLIENT|UNBLOCK" 0x10019 []];
  mkInfo 317 "CLUSTER" 0x10000 [
    mkInfo 318 "CLUSTER|ADDSLOTS" 0x10011 [];
    mkInfo 319 "CLUSTER|ADDSLOTSRANGE" 0x10011 [];
    mkInfo 320 "CLUSTER|ADVANCE_TIME" 0x210011 [];
    mkInfo 321 "CLUSTER|APPENDLOG" 0x210011 [];
    mkInfo 322 "CLUSTER|ATTACH_SYNC" 0x210011 [];
    mkInfo 323 "CLUSTER|BANLIST" 0x210011 [];
    mkInfo 324 "CLUSTER|BEGIN_REPLICA_RECOVER" 0x210011 [];
    mkInfo 325 "CLUSTER|BUMPEPOCH" 0x10011 [];
    mkInfo 326 "CLUSTER|COUNTKEYSINSLOT" 0x10000 [];
    mkInfo 327 "CLUSTER|DELKEYSINSLOT" 0x210011 [];
    mkInfo 328 "CLUSTER|DELKEYSINSLOTRANGE" 0x210011 [];
    mkInfo 329 "CLUSTER|DELSLOTS" 0x10011 [];
    mkInfo 330 "CLUSTER|DELSLOTSRANGE" 0x10011 [];
    mkInfo 331 "CLUSTER|ENDPOINT" 0x210011 [];
    mkInfo 332 "CLUSTER|FAILOVER" 0x10011 [];
    mkInfo 333 "CLUSTER|FAILREPLICATIONOFFSET" 0x210011 [];
    mkInfo 334 "CLUSTER|FAILSTOPWRITES" 0x210011 [];
    mkInfo 335 "CLUSTER|FLUSHALL" 0x210011 [];
    mkInfo 336 "CLUSTER|FLUSHALL_NS" 0x210011 [];
    mkInfo 337 "CLUSTER|FORGET" 0x10011 [];
    mkInfo 338 "CLUSTER|GETKEYSINSLOT" 0x10000 [];
    mkInfo 339 "CLUSTER|GOSSIP" 0x210011 [];
    mkInfo 340 "CLUSTER|HELP" 0x210001 [];
    mkInfo 341 "CLUSTER|INFO" 0x10000 [];
    mkInfo 342 "CLUSTER|INITIATE_REPLICA_SYNC" 0x210011 [];
    mkInfo 343 "CLUSTER|KEYSLOT" 0x10000 [];
    mkInfo 344 "CLUSTER|MEET" 0x10011 [];
    mkInfo 345 "CLUSTER|MIGRATE" 0x210011 [];
    mkInfo 346 "CLUSTER|MLOG_KEY_TIME" 0x210001 [];
    mkInfo 347 "CLUSTER|MTASKS" 0x210011 [];
    mkInfo 348 "CLUSTER|MYID" 0x10000 [];
    mkInfo 349 "CLUSTER|MYPARENTID" 0x200001 [];
    mkInfo 350 "CLUSTER|NODES" 0x10000 [];
    mkInfo 351 "CLUSTER|PUBLISH" 0x210801 [];
    mkInfo 353 "CLUSTER|REPLICAS" 0x10011 [];
    mkInfo 354 "CLUSTER|REPLICATE" 0x10011 [];
    mkInfo 355 "CLUSTER|RESERVE" 0x200011 [];
    mkInfo 356 "CLUSTER|RESET" 0x10011 [];
    mkInfo 357 "CLUSTER|SEND_CKPT_FILE_SEGMENT" 0x210011 [];
    mkInfo 358 "CLUSTER|SEND_CKPT_METADATA" 0x210011 [];
    mkInfo 359 "CLUSTER|SET-CONFIG-EPOCH" 0x10011 [];
    mkInfo 360 "CLUSTER|SETSLOT" 0x10011 [];
    mkInfo 361 "CLUSTER|SETSLOTSRANGE" 0x210011 [];
    mkInfo 362 "CLUSTER|SHARDS" 0x10000 [];
    mkInfo 363 "CLUSTER|SLOTS" 0x10000 [];
    mkInfo 364 "CLUSTER|SLOTSTATE" 0x210011 [];
    mkInfo 365 "CLUSTER|SNAPSHOT_DATA" 0x210011 [];
    mkInfo 352 "CLUSTER|SPUBLISH" 0x210801 [];
    mkInfo 366 "CLUSTER|SYNC" 0x210011 []];
  mkInfo 294 "COMMAND" 0x10008 [
    mkInfo 295 "COMMAND|COUNT" 0x10008 [];
    mkInfo 296 "COMMAND|DOCS" 0x10008 [];
    mkInfo 298 "COMMAND|GETKEYS" 0x10008 [];
    mkInfo 299 "COMMAND|GETKEYSANDFLAGS" 0x10008 [];
    mkInfo 297 "COMMAND|INFO" 0x10008 []];
  mkInfo 273 "COMMITAOF" 0x200001 [];
  mkInfo 303 "CONFIG" 0x10000 [
    mkInfo 304 "CONFIG|GET" 0x10011 [];
    mkInfo 305 "CONFIG|REWRITE" 0x10011 [];
    mkInfo 306 "CONFIG|SET" 0x10011 []];
  mkInfo 124 "COSCAN" 0x211000 [];
  mkInfo 277 "CustomObjCmd" 0x610010 [];
  mkInfo 125 "DBSIZE" 0x1300 [];
  mkInfo 307 "DEBUG" 0x10011 [];
  mkInfo 6 "DECR" 0x140100 [];
  mkInfo 7 "DECRBY" 0x140100 [];
  mkInfo 8 "DEL" 0x110200 [];
  mkInfo 10 "DELIFGREATER" 0x150000 [];
  mkInfo 259 "DISCARD" 0x80100 [];
  mkInfo 126 "DUMP" 0x11200 [];
  mkInfo 243 "ECHO" 0x108 [];
  mkInfo 228 "EVAL" 0x12000 [];
  mkInfo 229 "EVALSHA" 0x12000 [];
  mkInfo 258 "EXEC" 0x90000 [];
  mkInfo 127 "EXISTS" 0x1300 [];
  mkInfo 270 "EXPDELSCAN" 0x200001 [];
  mkInfo 11 "EXPIRE" 0x100300 [];
  mkInfo 12 "EXPIREAT" 0x100300 [];
  mkInfo 128 "EXPIRETIME" 0x1300 [];
  mkInfo 274 "FAILOVER" 0x10011 [];
  mkInfo 13 "FLUSHALL" 0x110210 [];
  mkInfo 14 "FLUSHDB" 0x110210 [];
  mkInfo 15 "GEOADD" 0x110020 [];
  mkInfo 129 "GEODIST" 0x11020 [];
  mkInfo 130 "GEOHASH" 0x11020 [];
  mkInfo 131 "GEOPOS" 0x11020 [];
  mkInfo 16 "GEORADIUS" 0x110020 [];
  mkInfo 132 "GEORADIUS_RO" 0x11020 [];
  mkInfo 17 "GEORADIUSBYMEMBER" 0x110020 [];
  mkInfo 133 "GEORADIUSBYMEMBER_RO" 0x11020 [];
  mkInfo 134 "GEOSEARCH" 0x11020 [];
  mkInfo 18 "GEOSEARCHSTORE" 0x110020 [];
  mkInfo 135 "GET" 0x41100 [];
  mkInfo 136 "GETBIT" 0x1102 [];
  mkInfo 19 "GETDEL" 0x140100 [];
  mkInfo 20 "GETEX" 0x140100 [];
  mkInfo 137 "GETIFNOTMATCH" 0x41100 [];
  mkInfo 138 "GETRANGE" 0x51000 [];
  mkInfo 21 "GETSET" 0x140100 [];
  mkInfo 139 "GETWITHETAG" 0x41100 [];
  mkInfo 22 "HCOLLECT" 0x300041 [];
  mkInfo 23 "HDEL" 0x100140 [];
  mkInfo 368 "HELLO" 0x108 [];
  mkInfo 140 "HEXISTS" 0x1140 [];
  mkInfo 24 "HEXPIRE" 0x100140 [];
  mkInfo 26 "HEXPIREAT" 0x100140 [];
  mkInfo 154 "HEXPIRETIME" 0x1140 [];
  mkInfo 141 "HGET" 0x1140 [];
  mkInfo 142 "HGETALL" 0x11040 [];
  mkInfo 29 "HINCRBY" 0x100140 [];
  mkInfo 30 "HINCRBYFLOAT" 0x100140 [];
  mkInfo 143 "HKEYS" 0x11040 [];
  mkInfo 144 "HLEN" 0x1140 [];
  mkInfo 145 "HMGET" 0x1140 [];
  mkInfo 31 "HMSET" 0x100140 [];
  mkInfo 28 "HPERSIST" 0x100140 [];
  mkInfo 25 "HPEXPIRE" 0x100140 [];
  mkInfo 27 "HPEXPIREAT" 0x100140 [];
  mkInfo 155 "HPEXPIRETIME" 0x1140 [];
  mkInfo 153 "HPTTL" 0x1140 [];
  mkInfo 146 "HRANDFIELD" 0x11040 [];
  mkInfo 147 "HSCAN" 0x11040 [];
  mkInfo 32 "HSET" 0x100140 [];
  mkInfo 33 "HSETNX" 0x100140 [];
  mkInfo 148 "HSTRLEN" 0x1140 [];
  mkInfo 152 "HTTL" 0x1140 [];
  mkInfo 149 "HVALS" 0x11040 [];
  mkInfo 34 "INCR" 0x140100 [];
  mkInfo 35 "INCRBY" 0x140100 [];
  mkInfo 36 "INCRBYFLOAT" 0x140100 [];
  mkInfo 266 "INFO" 0x10010 [];
  mkInfo 150 "KEYS" 0x11210 [];
  mkInfo 271 "LASTSAVE" 0x111 [];
  mkInfo 308 "LATENCY" 0x10000 [
    mkInfo 309 "LATENCY|HELP" 0x210000 [];
    mkInfo 310 "LATENCY|HISTOGRAM" 0x10011 [];
    mkInfo 311 "LATENCY|RESET" 0x10011 []];
  mkInfo 151 "LCS" 0x51000 [];
  mkInfo 156 "LINDEX" 0x11400 [];
  mkInfo 37 "LINSERT" 0x110400 [];
  mkInfo 157 "LLEN" 0x1500 [];
  mkInfo 38 "LMOVE" 0x110400 [];
  mkInfo 39 "LMPOP" 0x110400 [];
  mkInfo 40 "LPOP" 0x100500 [];
  mkInfo 158 "LPOS" 0x11400 [];
  mkInfo 41 "LPUSH" 0x100500 [];
  mkInfo 42 "LPUSHX" 0x100500 [];
  mkInfo 159 "LRANGE" 0x11400 [];
  mkInfo 43 "LREM" 0x110400 [];
  mkInfo 44 "LSET" 0x110400 [];
  mkInfo 45 "LTRIM" 0x110400 [];
  mkInfo 300 "MEMORY" 0x10000 [
    mkInfo 160 "MEMORY|USAGE" 0x11000 []];
  mkInfo 161 "MGET" 0x41100 [];
  mkInfo 51 "MIGRATE" 0x110210 [];
  mkInfo 253 "MONITOR" 0x10011 [];
  mkInfo 52 "MSET" 0x150000 [];
  mkInfo 53 "MSETNX" 0x150000 [];
  mkInfo 257 "MULTI" 0x80100 [];
  mkInfo 301 "OBJECT" 0x10000 [
    mkInfo 162 "OBJECT|ENCODING" 0x11200 [];
    mkInfo 163 "OBJECT|FREQ" 0x11200 [];
    mkInfo 302 "OBJECT|HELP" 0x10200 [];
    mkInfo 164 "OBJECT|IDLETIME" 0x11200 [];
    mkInfo 165 "OBJECT|REFCOUNT" 0x11200 []];
  mkInfo 54 "PERSIST" 0x100300 [];
  mkInfo 55 "PEXPIRE" 0x100300 [];
  mkInfo 56 "PEXPIREAT" 0x100300 [];
  mkInfo 166 "PEXPIRETIME" 0x1300 [];
  mkInfo 57 "PFADD" 0x100180 [];
  mkInfo 167 "PFCOUNT" 0x11080 [];
  mkInfo 58 "PFMERGE" 0x110080 [];
  mkInfo 231 "PING" 0x108 [];
  mkInfo 59 "PSETEX" 0x150000 [];
  mkInfo 238 "PSUBSCRIBE" 0x10800 [];
  mkInfo 168 "PTTL" 0x1300 [];
  mkInfo 236 "PUBLISH" 0x900 [];
  mkInfo 232 "PUBSUB" 0x10000 [
    mkInfo 233 "PUBSUB|CHANNELS" 0x10800 [];
    mkInfo 234 "PUBSUB|NUMPAT" 0x10800 [];
    mkInfo 235 "PUBSUB|NUMSUB" 0x10800 [];
    mkInfo 371 "PUBSUB|SHARDCHANNELS" 0x10800 [];
    mkInfo 372 "PUBSUB|SHARDNUMSUB" 0x10800 []];
  mkInfo 240 "PUNSUBSCRIBE" 0x10800 [];
  mkInfo 369 "QUIT" 0x108 [];
  mkInfo 262 "READONLY" 0x108 [];
  mkInfo 263 "READWRITE" 0x108 [];
  mkInfo 60 "RENAME" 0x110200 [];
  mkInfo 67 "RENAMENX" 0x100300 [];
  mkInfo 264 "REPLICAOF" 0x10011 [];
  mkInfo 66 "RESTORE" 0x110210 [];
  mkInfo 221 "RI.CONFIG" 0x201100 [];
  mkInfo 61 "RI.CREATE" 0x310000 [];
  mkInfo 222 "RI.COUNT" 0x201100 [];
  mkInfo 62 "RI.DEL" 0x300100 [];
  mkInfo 223 "RI.EXISTS" 0x201100 [];
  mkInfo 224 "RI.GET" 0x201100 [];
  mkInfo 225 "RI.METRICS" 0x201100 [];
  mkInfo 226 "RI.RANGE" 0x211000 [];
  mkInfo 227 "RI.SCAN" 0x211000 [];
  mkInfo 65 "RI.SET" 0x300100 [];
  mkInfo 268 "ROLE" 0x111 [];
  mkInfo 68 "RPOP" 0x100500 [];
  mkInfo 69 "RPOPLPUSH" 0x110400 [];
  mkInfo 70 "RPUSH" 0x100500 [];
  mkInfo 71 "RPUSHX" 0x100500 [];
  mkInfo 261 "RUNTXP" 0x280000 [];
  mkInfo 72 "SADD" 0x104100 [];
  mkInfo 269 "SAVE" 0x10011 [];
  mkInfo 169 "SCAN" 0x11200 [];
  mkInfo 170 "SCARD" 0x5100 [];
  mkInfo 279 "SCRIPT" 0x10000 [
    mkInfo 280 "SCRIPT|EXISTS" 0x12000 [];
    mkInfo 281 "SCRIPT|FLUSH" 0x12000 [];
    mkInfo 282 "SCRIPT|LOAD" 0x12000 []];
  mkInfo 171 "SDIFF" 0x15000 [];
  mkInfo 73 "SDIFFSTORE" 0x114000 [];
  mkInfo 265 "SECONDARYOF" 0x10011 [];
  mkInfo 242 "SELECT" 0x108 [];
  mkInfo 74 "SET" 0x150000 [];
  mkInfo 75 "SETBIT" 0x110002 [];
  mkInfo 76 "SETEX" 0x150000 [];
  mkInfo 81 "SETIFGREATER" 0x150000 [];
  mkInfo 80 "SETIFMATCH" 0x150000 [];
  mkInfo 79 "SETNX" 0x140100 [];
  mkInfo 85 "SETRANGE" 0x150000 [];
  mkInfo 82 "SETWITHETAG" 0x150000 [];
  mkInfo 172 "SINTER" 0x15000 [];
  mkInfo 173 "SINTERCARD" 0x15000 [];
  mkInfo 86 "SINTERSTORE" 0x114000 [];
  mkInfo 174 "SISMEMBER" 0x5100 [];
  mkInfo 265 "SLAVEOF" 0x10011 [];
  mkInfo 312 "SLOWLOG" 0x10000 [
    mkInfo 315 "SLOWLOG|GET" 0x10011 [];
    mkInfo 313 "SLOWLOG|HELP" 0x10000 [];
    mkInfo 314 "SLOWLOG|LEN" 0x10011 [];
    mkInfo 316 "SLOWLOG|RESET" 0x10011 []];
  mkInfo 175 "SMEMBERS" 0x15000 [];
  mkInfo 176 "SMISMEMBER" 0x5100 [];
  mkInfo 87 "SMOVE" 0x104100 [];
  mkInfo 88 "SPOP" 0x104100 [];
  mkInfo 177 "SPUBLISH" 0x11800 [];
  mkInfo 178 "SRANDMEMBER" 0x15000 [];
  mkInfo 89 "SREM" 0x104100 [];
  mkInfo 179 "SSCAN" 0x15000 [];
  mkInfo 180 "SSUBSCRIBE" 0x11800 [];
  mkInfo 181 "STRLEN" 0x41100 [];
  mkInfo 237 "SUBSCRIBE" 0x10800 [];
  mkInfo 182 "SUBSTR" 0x51000 [];
  mkInfo 183 "SUNION" 0x15000 [];
  mkInfo 90 "SUNIONSTORE" 0x114000 [];
  mkInfo 370 "SUNSUBSCRIBE" 0x11800 [];
  mkInfo 91 "SWAPDB" 0x100310 [];
  mkInfo 267 "TIME" 0x100 [];
  mkInfo 184 "TTL" 0x1300 [];
  mkInfo 185 "TYPE" 0x1300 [];
  mkInfo 92 "UNLINK" 0x100300 [];
  mkInfo 239 "UNSUBSCRIBE" 0x10800 [];
  mkInfo 260 "UNWATCH" 0x80100 [];
  mkInfo 93 "VADD" 0x900100 [];
  mkInfo 186 "VCARD" 0x801100 [];
  mkInfo 187 "VDIM" 0x801100 [];
  mkInfo 188 "VEMB" 0x801100 [];
  mkInfo 189 "VGETATTR" 0x801100 [];
  mkInfo 190 "VINFO" 0x801100 [];
  mkInfo 191 "VISMEMBER" 0x801100 [];
  mkInfo 192 "VLINKS" 0x801100 [];
  mkInfo 193 "VRANDMEMBER" 0x811000 [];
  mkInfo 94 "VREM" 0x910000 [];
  mkInfo 95 "VSETATTR" 0x900100 [];
  mkInfo 194 "VSIM" 0x811000 [];
  mkInfo 195 "WATCH" 0x81100 [];
  mkInfo 196 "WATCHMS" 0x81100 [];
  mkInfo 197 "WATCHOS" 0x81100 [];
  mkInfo 96 "ZADD" 0x108100 [];
  mkInfo 198 "ZCARD" 0x9100 [];
  mkInfo 97 "ZCOLLECT" 0x308001 [];
  mkInfo 199 "ZCOUNT" 0x9100 [];
  mkInfo 200 "ZDIFF" 0x19000 [];
  mkInfo 98 "ZDIFFSTORE" 0x118000 [];
  mkInfo 99 "ZEXPIRE" 0x308100 [];
  mkInfo 101 "ZEXPIREAT" 0x308100 [];
  mkInfo 216 "ZEXPIRETIME" 0x209100 [];
  mkInfo 104 "ZINCRBY" 0x108100 [];
  mkInfo 201 "ZINTER" 0x19000 [];
  mkInfo 202 "ZINTERCARD" 0x19000 [];
  mkInfo 106 "ZINTERSTORE" 0x118000 [];
  mkInfo 203 "ZLEXCOUNT" 0x9100 [];
  mkInfo 105 "ZMPOP" 0x118000 [];
  mkInfo 204 "ZMSCORE" 0x9100 [];
  mkInfo 103 "ZPERSIST" 0x308100 [];
  mkInfo 100 "ZPEXPIRE" 0x308100 [];
  mkInfo 102 "ZPEXPIREAT" 0x308100 [];
  mkInfo 217 "ZPEXPIRETIME" 0x209100 [];
  mkInfo 107 "ZPOPMAX" 0x108100 [];
  mkInfo 108 "ZPOPMIN" 0x108100 [];
  mkInfo 215 "ZPTTL" 0x209100 [];
  mkInfo 205 "ZRANDMEMBER" 0x19000 [];
  mkInfo 206 "ZRANGE" 0x19000 [];
  mkInfo 207 "ZRANGEBYLEX" 0x19000 [];
  mkInfo 208 "ZRANGEBYSCORE" 0x19000 [];
  mkInfo 109 "ZRANGESTORE" 0x118000 [];
  mkInfo 209 "ZRANK" 0x9100 [];
  mkInfo 110 "ZREM" 0x108100 [];
  mkInfo 111 "ZREMRANGEBYLEX" 0x118000 [];
  mkInfo 112 "ZREMRANGEBYRANK" 0x118000 [];
  mkInfo 113 "ZREMRANGEBYSCORE" 0x118000 [];
  mkInfo 210 "ZREVRANGE" 0x19000 [];
  mkInfo 211 "ZREVRANGEBYLEX" 0x19000 [];
  mkInfo 212 "ZREVRANGEBYSCORE" 0x19000 [];
  mkInfo 213 "ZREVRANK" 0x9100 [];
  mkInfo 218 "ZSCAN" 0x19000 [];
  mkInfo 219 "ZSCORE" 0x9100 [];
  mkInfo 214 "ZTTL" 0x209100 [];
  mkInfo 220 "ZUNION" 0x19000 [];
  mkInfo 114 "ZUNIONSTORE" 0x118000 []
].

Record CmdEntry : Type := mkEntry {
  cs : string;
  name : string;
  cmd : RespCommand;
  cats : Z;
  parent : option RespCommand
}.

(** The entry of a node and of the nodes below it. *)
Fixpoint push_entry (parent : option RespCommand) (entry : RespCommandsInfo) : list CmdEntry :=
  match entry with
  | mkInfo command name acl_categories sub_commands =>
      mkEntry (to_cs_name command) (to_ascii_lowercase name) command acl_categories parent
      :: flat_map (push_entry (Some command)) sub_commands
  end.

Definition project_entries (roots : list RespCommandsInfo) : list CmdEntry := flat_map (push_entry None) roots.

(** ** Indexes *)

Record Catalog : Type := mkCatalog {
  entries : list CmdEntry;
  by_cmd : list (option CmdEntry);
  children : gmap Z (list CmdEntry);
  cat_members : list (list Z)
}.

(** The indexes with one more entry; [None] is an index out of range. *)
Definition index_entry (acc : option Catalog) (idx_entry : Z * CmdEntry) : option Catalog :=
  let '(idx, entry) := idx_entry in
  c ← acc;
  slot ← by_cmd c !! Z.to_nat (cmd entry);
  let by_cmd' := match slot with None => <[Z.to_nat (cmd entry) := Some entry]> (by_cmd c) | Some _ => by_cmd c end in
  let children' :=
    match parent entry with
    | Some p => <[p := default [] (children c !! p) ++ [entry]]> (children c)
    | None => children c
    end in
  let cat_members' :=
    zip_with (fun cat members => if cats_contain (cats entry) (snd cat) then members ++ [wrap 16 idx] else members)
      CATEGORIES (cat_members c) in
  Some (mkCatalog (entries c) by_cmd' children' cat_members').

Definition build (es : list CmdEntry) : option Catalog :=
  fold_left index_entry (zip (seqZ 0 (zlen es)) es)
    (Some (mkCatalog es (replicate (Z.to_nat (LAST_VALID_COMMAND + 1)) None) ∅ (replicate (length CATEGORIES) []))).

(** The columns still to be read of the categories asked for, and the last entry
    that was produced. *)
Record CategoryIter : Type := mkIter {
  iter_entries : list CmdEntry;
  cursors : list (option (list Z));
  last : option Z
}.

Fixpoint skip_produced (la : Z) (l : list Z) : list Z :=
  match l with [] => [] | x :: l' => if x <=? la then skip_produced la l' else l end.

Definition u16_max : Z := 2 ^ 16 - 1.

(** The step of an iterator; [None] is an index out of range. *)
Definition next (it : CategoryIter) : option (option CmdEntry * CategoryIter) :=
  let cursors := map (fmap (fun l => match last it with Some la => skip_produced la l | None => l end)) (cursors it) in
  let heads := omap (fun cur => cur ≫= head) cursors in
  let min := fold_left Z.min heads u16_max in
  if negb (min =? u16_max) then
    e ← iter_entries it !! Z.to_nat min;
    Some (Some e, mkIter (iter_entries it) cursors (Some min))
  else Some (None, mkIter (iter_entries it) cursors (last it)).

(** Everything an iterator produces; each step but the last produces an entry. *)
Fixpoint collect (fuel : nat) (it : CategoryIter) : option (list CmdEntry) :=
  match fuel with
  | O => None
  | S fuel =>
      '(e, it) ← next it;
      match e with Some e => l ← collect fuel it; Some (e :: l) | None => Some [] end
  end.

Section Queries.

Variable catalog : option Catalog.

Definition try_get_resp_command_info (cmd : RespCommand) : option CmdEntry :=
  c ← catalog; slot ← by_cmd c !! Z.to_nat cmd; slot.

Definition children_of (cmd : RespCommand) : list CmdEntry :=
  default [] (c ← catalog; children c !! cmd).

Definition commands_for_category (acl : Z) : option (list CmdEntry) :=
  match catalog with
  | Some c =>
      let cursors := zip_with (fun cat members => if cats_contain acl (snd cat) then Some members else None)
                       CATEGORIES (cat_members c) in
      collect (S (length (entries c))) (mkIter (entries c) cursors None)
  | None => collect 1 (mkIter [] (replicate (length CATEGORIES) None) None)
  end.

End Queries.

Definition CATALOG : option Catalog := build (project_entries RESP_COMMANDS_INFO).

End Catalog.
