(* ===== verification/Acl.v ===== *)
(** * Access control lists ([wedb/wacl/src])

    [Perms]: which commands a user may run ([command_permission_set.rs]).
    [Passwords]: password hashes ([acl_password.rs], [secrets_utility.rs]).
    [Users]: users and the rules that change them ([user.rs], [acl_parser.rs]).
    [Access]: the bootstrap user and authentication ([access_control_list.rs],
    [auth/garnet_acl_authenticator.rs]).  [AclCommands]: ACL SETUSER, DELUSER and
    GETUSER and AUTH over the stored users
    ([wedb/wnode/src/resp/acl_commands.rs]).

    A change of the permissions also rewrites the text that describes them, by
    parsing shorter rules, which is a recursion on the number of words of that
    text; [rationalize] takes it as fuel. *)

From Stdlib Require Import ZArith Lia Bool Ascii String.
From stdpp Require Import base list numbers option tactics strings gmap pretty.
From S2P Require Import Prelude Bytes Hasher Codec AclCatalog.

Open Scope string_scope.
Open Scope list_scope.
Open Scope Z_scope.

Inductive AclError : Type :=
| ErrCodec
| ErrAcl (message : string)
| ErrParsing (message filename : string) (line : Z)
| ErrPassword (message : string)
| UnknownOperation (op : string)
| CategoryDoesNotExist (category_name : string)
| CommandDoesNotExist (command_name : string).

(** The text of an error. *)
Definition acl_error_text (e : AclError) : string :=
  match e with
  | ErrCodec => "ACL record codec failure"
  | ErrAcl m | ErrParsing m _ _ | ErrPassword m => m
  | UnknownOperation op => "Unknown operation '" +:+ op +:+ "'"
  | CategoryDoesNotExist c => "ACL Category '" +:+ c +:+ "' does not exist"
  | CommandDoesNotExist c => "Command '" +:+ c +:+ "' does not exist"
  end.

(** ** Permissions *)
Module Perms.
Import Text Catalog.

Inductive Special : Type := All | NoneOf | SetOf.

Definition COMMAND_LIST_LEN : Z := (LAST_VALID_COMMAND + 1 + 63) / 64.
Definition ALL_COMMANDS_BITS : list Z := replicate (Z.to_nat COMMAND_LIST_LEN) u64_max.
Definition EMPTY_COMMANDS_BITS : list Z := replicate (Z.to_nat COMMAND_LIST_LEN) 0.

Definition WIRE_MODE_SET : Z := 0.
Definition WIRE_MODE_ALL : Z := 1.
Definition WIRE_MODE_NONE : Z := 2.

Record CommandPermissionSet : Type := mkPerms {
  special : Special;
  command_list : list Z;
  custom_allowed : gset string;
  custom_denied : gset string;
  description : string
}.

Definition all : CommandPermissionSet := mkPerms All EMPTY_COMMANDS_BITS ∅ ∅ "+@all".
Definition none : CommandPermissionSet := mkPerms NoneOf EMPTY_COMMANDS_BITS ∅ ∅ "".

Definition is_all (self : CommandPermissionSet) : bool := match special self with All => true | _ => false end.
Definition is_none (self : CommandPermissionSet) : bool := match special self with NoneOf => true | _ => false end.

Definition wire_mode (self : CommandPermissionSet) : Z :=
  match special self with SetOf => WIRE_MODE_SET | All => WIRE_MODE_ALL | NoneOf => WIRE_MODE_NONE end.

Definition wire_bitmap (self : CommandPermissionSet) : list Z :=
  match special self with SetOf => command_list self | _ => [] end.

Definition from_wire (mode : Z) (bitmap : list Z) (allowed denied : gset string) : AclError + CommandPermissionSet :=
  if mode =? WIRE_MODE_ALL then inr all
  else if mode =? WIRE_MODE_NONE then inr none
  else if mode =? WIRE_MODE_SET then
    if zlen bitmap =? COMMAND_LIST_LEN then inr (mkPerms SetOf bitmap allowed denied "")
    else inl (ErrAcl ("ACL record bitmap length " +:+ pretty (zlen bitmap) +:+ " != expected " +:+ pretty COMMAND_LIST_LEN))
  else inl (ErrAcl ("unknown ACL permission mode byte " +:+ pretty mode)).

Definition with_description (self : CommandPermissionSet) (d : string) : CommandPermissionSet :=
  mkPerms (special self) (command_list self) (custom_allowed self) (custom_denied self) d.

Definition set_description (self : CommandPermissionSet) (d : string) : CommandPermissionSet :=
  match special self with SetOf => with_description self d | _ => self end.

Definition bit_on (self : CommandPermissionSet) (cmd : RespCommand) : bool :=
  let word := Z.shiftr cmd 6 in
  if word <? COMMAND_LIST_LEN
  then negb (Z.land (nth (Z.to_nat word) (command_list self) 0) (Z.shiftl 1 (Z.land cmd 63)) =? 0)
  else false.

Definition with_bits (self : CommandPermissionSet) (sp : Special) (bits : list Z) : CommandPermissionSet :=
  mkPerms sp bits (custom_allowed self) (custom_denied self) (description self).

Definition set_bit (self : CommandPermissionSet) (cmd : RespCommand) (on : bool) : CommandPermissionSet :=
  let word := Z.shiftr cmd 6 in
  if word <? COMMAND_LIST_LEN then
    let mask := Z.shiftl 1 (Z.land cmd 63) in
    let old := nth (Z.to_nat word) (command_list self) 0 in
    with_bits self (special self)
      (<[Z.to_nat word := if on then Z.lor old mask else Z.land old (bnot 64 mask)]> (command_list self))
  else self.

Definition apply_cmd_bit (self : CommandPermissionSet) (cmd : RespCommand) (on : bool) : CommandPermissionSet :=
  fold_left (fun p extra => set_bit p extra on) (expand_for_acls cmd) (set_bit self cmd on).

Definition can_run_command (self : CommandPermissionSet) (command : RespCommand) : bool :=
  if is_all self then true else bit_on self command.

Definition contains_ignore (set : gset string) (nm : string) : bool :=
  existsb (fun s => eq_ignore_ascii_case s nm) (elements set).

Definition can_run_custom_command (self : CommandPermissionSet) (generic_cmd : RespCommand) (custom_name : string) : bool :=
  if is_all self then true
  else if contains_ignore (custom_denied self) custom_name then false
  else if contains_ignore (custom_allowed self) custom_name then true
  else bit_on self generic_cmd.

Definition copy (self : CommandPermissionSet) : CommandPermissionSet :=
  with_bits self SetOf (if is_all self then ALL_COMMANDS_BITS else command_list self).

Definition insert_custom (set : gset string) (normalized_name : string) : gset string := {[normalized_name]} ∪ set.

Definition remove_custom (set : gset string) (normalized_name : string) : gset string :=
  list_to_set (List.filter (fun s => negb (eq_ignore_ascii_case s normalized_name)) (elements set)).

Definition add_custom_command (self : CommandPermissionSet) (normalized_name : string) : CommandPermissionSet :=
  mkPerms (if is_none self then SetOf else special self) (command_list self)
    (insert_custom (custom_allowed self) normalized_name) (remove_custom (custom_denied self) normalized_name)
    (description self).

Definition remove_custom_command (self : CommandPermissionSet) (normalized_name : string) : CommandPermissionSet :=
  mkPerms (if is_all self then SetOf else special self) (if is_all self then ALL_COMMANDS_BITS else command_list self)
    (remove_custom (custom_allowed self) normalized_name) (insert_custom (custom_denied self) normalized_name)
    (description self).

Definition add_command (self : CommandPermissionSet) (command : RespCommand) : CommandPermissionSet :=
  if is_all self then self
  else
    let self := if is_none self then with_bits self SetOf (command_list self) else self in
    apply_cmd_bit self command true.

Definition remove_command (self : CommandPermissionSet) (command : RespCommand) : CommandPermissionSet :=
  if is_no_auth command || is_none self then self
  else
    let self := if is_all self then with_bits self SetOf ALL_COMMANDS_BITS else self in
    apply_cmd_bit self command false.

Definition set_eq_ignore (a b : gset string) : bool :=
  (size a =? size b)%nat && forallb (contains_ignore b) (elements a).

Definition is_equivalent_to (self other : CommandPermissionSet) : bool :=
  if is_all self then is_all other
  else bool_decide (command_list self = command_list other) &&
       set_eq_ignore (custom_allowed self) (custom_allowed other) &&
       set_eq_ignore (custom_denied self) (custom_denied other).

End Perms.

(** ** Passwords *)
Module Passwords.
Import Text.

Definition NUM_HASH_BYTES : nat := 32.

Definition AclPassword : Type := list Z.

(** [constant_equals]: four words are compared without a branch. *)
Definition constant_equals (a b : list Z) : bool :=
  fold_left (fun diff '(ca, cb) => Z.lor diff (Z.lxor (le_num ca) (le_num cb)))
    (zip (fst (Hasher.Hasher.as_chunks 8 a)) (fst (Hasher.Hasher.as_chunks 8 b))) 0 =? 0.

Section Sha.

(** The digest of the [sha2] crate. *)
Variable sha256 : list Z -> list Z.

Definition from_bytes (password : list Z) : AclPassword := sha256 password.
Definition from_string (password : string) : AclPassword := from_bytes (as_bytes password).

Definition from_hash (hash_string : string) : AclError + AclPassword :=
  if negb (length (chars hash_string) =? NUM_HASH_BYTES * 2)%nat
  then inl (ErrPassword "Unable to parse input password hash. The input is of wrong length.")
  else
    match Hex.hex_decode NUM_HASH_BYTES (as_bytes hash_string) with
    | Some password_hash => inr password_hash
    | None => inl (ErrPassword "Unable to parse input password hash. The input is not of the correct format.")
    end.

End Sha.

End Passwords.

(** ** Users and rules *)
Module Users.
Import Text Catalog Perms Passwords.

Record User : Type := mkUser {
  user_name : string;
  is_enabled : bool;
  is_passwordless : bool;
  enabled_commands : CommandPermissionSet;
  password_hashes : list AclPassword
}.

(** The outcome of code that may fail, or whose fuel may not be enough. *)
Inductive Outcome (A : Type) : Type := Done (a : A) | Failed (e : AclError) | OutOfFuel.
Arguments Done {A} a.
Arguments Failed {A} e.
Arguments OutOfFuel {A}.

Definition and_then {A B : Type} (x : Outcome A) (f : A -> Outcome B) : Outcome B :=
  match x with Done a => f a | Failed e => Failed e | OutOfFuel => OutOfFuel end.

Definition or_fuel {A : Type} (x : option A) : Outcome A := match x with Some a => Done a | None => OutOfFuel end.

Definition of_result {A : Type} (x : AclError + A) : Outcome A := match x with inr a => Done a | inl e => Failed e end.

(** *** Names *)

Definition validate_username (nm : string) : AclError + unit :=
  if is_empty nm then inl (ErrAcl "Username cannot be empty")
  else if contains "#" nm then inl (ErrAcl ("Username '" +:+ nm +:+ "' cannot contain '#'"))
  else inr tt.

Definition parse_user_namespace_with_default (raw : string) (default_ns : Z) : AclError + (string * Z) :=
  match split_once "#" raw with
  | Some (ns_str, username) =>
      if is_empty username then inl (ErrAcl "Username cannot be empty after '#'")
      else if contains "#" username then inl (ErrAcl ("Username '" +:+ username +:+ "' cannot contain '#'"))
      else
        match parse_u64 ns_str with
        | Some ns => inr (username, ns)
        | None => inl (ErrAcl ("Invalid namespace prefix '" +:+ ns_str +:+ "'"))
        end
  | None =>
      match validate_username raw with inl e => inl e | inr _ => inr (raw, default_ns) end
  end.

Definition parse_user_namespace (raw : string) : AclError + (string * Z) := parse_user_namespace_with_default raw 0.

(** *** Categories and commands of the rules ([acl_parser.rs]) *)

Definition parsing_err (message : string) : AclError := ErrParsing message "" (-1).

(** The categories in the order in which they are listed. *)
Definition ACL_CATEGORIES : list (string * Z) :=
  (fun nm => (nm, default ALL (snd <$> List.find (fun '(c, _) => String.eqb c nm) CATEGORIES))) <$>
  ["admin"; "bitmap"; "blocking"; "connection"; "dangerous"; "geo"; "hash"; "hyperloglog"; "fast"; "keyspace"; "list";
   "pubsub"; "read"; "scripting"; "set"; "sortedset"; "slow"; "stream"; "string"; "transaction"; "vector"; "write";
   "garnet"; "custom"; "all"].

Definition BIT_NAMES : list string :=
  fold_left (fun names '(nm, bits) => if is_power_of_two bits then <[Z.to_nat (Z.log2 bits) := nm]> names else names)
    ACL_CATEGORIES (replicate 24 "").

Definition get_acl_category_by_name (nm : string) : option Z :=
  snd <$> List.find (fun '(category_name, _) => eq_ignore_ascii_case category_name nm) ACL_CATEGORIES.

Definition get_name_by_acl_category (category : Z) : string :=
  if category =? ALL then "all"
  else if is_power_of_two category && (Z.log2 category <? 24) then nth (Z.to_nat (Z.log2 category)) BIT_NAMES ""
  else "unknown".

Definition is_valid_custom_command_name (nm : string) : bool :=
  match chars nm with
  | [] => false
  | first :: rest =>
      is_ascii_alphanumeric first &&
      forallb (fun b => is_ascii_alphanumeric b || existsb (Ascii.eqb b) ["."; "_"; "-"; "|"]%char) rest
  end.

Definition is_valid_parse (command : RespCommand) (from_str : string) : bool :=
  negb (command =? NoCommand) && negb (command =? Invalid) && negb (existsb is_ascii_digit (chars from_str)).

Definition is_invalid_command_to_acl (command : RespCommand) : bool :=
  (command =? Invalid) || (command =? NoCommand) || negb (normalize_for_acls command =? command).

Definition lookup_command (effective_name : string) : option RespCommand :=
  command ← from_cs_name effective_name;
  if is_valid_parse command effective_name then Some command else None.

(** [x.or_else(|| y)]. *)
Definition or_else {A : Type} (x y : option A) : option A := match x with Some a => Some a | None => y end.

Section Rules.

Variable catalog : option Catalog.
Variable sha256 : list Z -> list Z.

Definition try_parse_command_for_acl (command_name : string) : AclError + option RespCommand :=
  let '(effective, is_sub_command) :=
    match split_once "|" command_name with
    | Some (a, b) => (a +:+ "_" +:+ b, true)
    | None => (command_name, false)
    end in
  let found :=
    or_else (lookup_command effective)
   (or_else (if contains "." effective
             then lookup_command (of_chars (List.filter (fun c => negb (Ascii.eqb c ".")) (chars effective))) else None)
   (or_else (if eq_ignore_ascii_case command_name "SLAVEOF" then Some Secondaryof else None)
            (if eq_ignore_ascii_case command_name "CLUSTER|SET-CONFIG-EPOCH" then Some ClusterSetconfigepoch else None))) in
  match found with
  | None => inr None
  | Some command =>
      if is_sub_command && bool_decide (try_get_resp_command_info catalog command = None)
      then inl (parsing_err ("Couldn't load information for " +:+ effective +:+ ", shouldn't be possible"))
      else inr (if is_invalid_command_to_acl command then None else Some command)
  end.

Definition determine_command_details (infos : list CmdEntry) : list RespCommand :=
  flat_map (fun info =>
    cmd info :: (match parent info with None => map cmd (children_of catalog (cmd info)) | Some _ => [] end)) infos.

Definition ACL_INFO_ERR : string := "Unable to obtain ACL information, this shouldn't be possible".

(** *** Changes of a user ([user.rs]) *)

Definition new (nm : string) : User := mkUser nm false false none [].

Definition from_user (user : User) : User :=
  mkUser (user_name user) (is_enabled user) (is_passwordless user) (copy (enabled_commands user)) (password_hashes user).

Definition set_enabled (self : User) (enabled : bool) : User :=
  mkUser (user_name self) enabled (is_passwordless self) (enabled_commands self) (password_hashes self).

Definition set_passwordless (self : User) (passwordless : bool) : User :=
  mkUser (user_name self) (is_enabled self) passwordless (enabled_commands self) (password_hashes self).

Definition with_commands (self : User) (p : CommandPermissionSet) : User :=
  mkUser (user_name self) (is_enabled self) (is_passwordless self) p (password_hashes self).

Definition with_passwords (self : User) (hs : list AclPassword) : User :=
  mkUser (user_name self) (is_enabled self) (is_passwordless self) (enabled_commands self) hs.

Definition add_password_hash (self : User) (password : AclPassword) : User :=
  if existsb (fun h => constant_equals h password) (password_hashes self) then self
  else with_passwords self (password_hashes self ++ [password]).

Definition remove_password_hash (self : User) (password : AclPassword) : User :=
  with_passwords self (List.filter (fun h => negb (constant_equals h password)) (password_hashes self)).

Definition clear_passwords (self : User) : User := with_passwords self [].

Definition reset (self : User) : User := set_enabled (with_commands (clear_passwords self) none) false.

Definition validate_password (self : User) (password : AclPassword) : bool :=
  if is_passwordless self then true
  else fold_left (fun matched hash => matched || constant_equals password hash) (password_hashes self) false.

Definition can_access_command (self : User) (command : RespCommand) : bool :=
  can_run_command (enabled_commands self) command.

Definition can_access_custom_command (self : User) (generic_cmd : RespCommand) (custom_name : string) : bool :=
  can_run_custom_command (enabled_commands self) generic_cmd custom_name.

Definition sign (add : bool) : string := if add then "+" else "-".

(** One command of a list that is added or removed, and whether it could be run. *)
Definition change_command (add : bool) (acc : CommandPermissionSet * bool) (cmd : RespCommand) : CommandPermissionSet * bool :=
  let '(p, deep) := acc in
  let deep := deep || can_run_command p cmd in
  ((if add then add_command p cmd else remove_command p cmd), deep).

Definition merge_description (p : CommandPermissionSet) (desc_update : string) : string :=
  if is_empty (description p) then desc_update else description p +:+ " " +:+ desc_update.

Section Rationalize.

(** [rationalize_acl_description]; [None] when its fuel is used up. *)
Variable rationalize_acl_description : CommandPermissionSet -> string -> bool -> option string.

Definition apply_commands (self : User) (cmds : list RespCommand) (desc_update : string) (add : bool) : option User :=
  let p := enabled_commands self in
  let noop := if add then forallb (can_run_command p) cmds else negb (existsb (can_run_command p) cmds) in
  if noop then Some self
  else
    let '(p, deep) := fold_left (change_command add) cmds (p, false) in
    d ← rationalize_acl_description p (merge_description p desc_update) deep;
    Some (with_commands self (with_description p d)).

Definition apply_category (self : User) (category : Z) (add : bool) : Outcome User :=
  if negb (category =? ALL) && (category =? 0) then Failed (ErrAcl ACL_INFO_ERR)
  else if (add && is_all (enabled_commands self)) || (negb add && is_none (enabled_commands self)) then Done self
  else if category =? ALL then Done (with_commands self (if add then all else none))
  else
    and_then (or_fuel (commands_for_category catalog category)) (fun infos =>
      or_fuel (apply_commands self (determine_command_details infos)
                 (sign add +:+ "@" +:+ get_name_by_acl_category category) add)).

Definition apply_command (self : User) (command : RespCommand) (add : bool) : Outcome User :=
  match try_get_resp_command_info catalog command with
  | None => Failed (ErrAcl ACL_INFO_ERR)
  | Some info => or_fuel (apply_commands self (determine_command_details [info]) (sign add +:+ name info) add)
  end.

Definition apply_custom_command (self : User) (custom_name : string) (add : bool) : Outcome User :=
  if negb (is_valid_custom_command_name custom_name)
  then Failed (ErrAcl ("Invalid custom command name '" +:+ custom_name +:+ "'"))
  else
    let normalized := to_ascii_uppercase custom_name in
    let perms := enabled_commands self in
    let allowed := bool_decide (normalized ∈ custom_allowed perms) in
    let denied := bool_decide (normalized ∈ custom_denied perms) in
    let noop :=
      if add then is_all perms || (allowed && negb denied) else negb (is_all perms) && denied && negb allowed in
    if noop then Done self
    else
      let lower := to_ascii_lowercase normalized in
      let perms := if add then add_custom_command perms normalized else remove_custom_command perms normalized in
      or_fuel
        (d ← rationalize_acl_description perms (merge_description perms (sign add +:+ lower)) false;
         Some (with_commands self (with_description perms d))).

(** [+name] and [-name]: a command of the server, or else a custom command. *)
Definition apply_named (user : User) (command_name : string) (add : bool) : Outcome User :=
  match try_parse_command_for_acl command_name with
  | inr (Some command) => apply_command user command add
  | inl err => Failed err
  | inr None =>
      if is_valid_custom_command_name command_name then apply_custom_command user command_name add
      else Failed (CommandDoesNotExist command_name)
  end.

Definition apply_acl_op_to_user (user : User) (op : string) : Outcome User :=
  match chars op with
  | [] => Done user
  | first :: _ =>
      if eq_ignore_ascii_case op "on" then Done (set_enabled user true)
      else if eq_ignore_ascii_case op "off" then Done (set_enabled user false)
      else if eq_ignore_ascii_case op "nopass" then Done (set_passwordless (clear_passwords user) true)
      else if eq_ignore_ascii_case op "reset" then Done (reset user)
      else if eq_ignore_ascii_case op "resetpass" then Done (set_passwordless (clear_passwords user) false)
      else if existsb (Ascii.eqb first) ["#"; "!"; ">"; "<"]%char then
        let pw :=
          if existsb (Ascii.eqb first) ["#"; "!"]%char then
            match from_hash (tail_from 1 op) with
            | inr pw => Done pw
            | inl e => Failed (parsing_err (acl_error_text e))
            end
          else Done (from_string sha256 (tail_from 1 op)) in
        and_then pw (fun pw =>
          Done (if existsb (Ascii.eqb first) ["#"; ">"]%char then add_password_hash user pw else remove_password_hash user pw))
      else if existsb (Ascii.eqb first) ["-"; "+"]%char then
        let add := Ascii.eqb first "+" in
        match chars op with
        | _ :: second :: _ =>
            if Ascii.eqb second "@" then
              let category_name := tail_from 2 op in
              match get_acl_category_by_name category_name with
              | None => Failed (CategoryDoesNotExist category_name)
              | Some category => apply_category user category add
              end
            else apply_named user (tail_from 1 op) add
        | _ => apply_named user (tail_from 1 op) add
        end
      else if String.eqb op "~*" then Done user
      else if eq_ignore_ascii_case op "allkeys" then Done user
      else if eq_ignore_ascii_case op "resetkeys" then Done user
      else Failed (UnknownOperation op)
  end.

Fixpoint apply_ops (user : User) (ops : list string) : Outcome User :=
  match ops with [] => Done user | op :: ops' => and_then (apply_acl_op_to_user user op) (fun user => apply_ops user ops') end.

Definition parse_acl_rule (input : string) : Outcome User :=
  match split_whitespace input with
  | first :: raw_username :: op1 :: rest =>
      if negb (eq_ignore_ascii_case first "user")
      then Failed (parsing_err "ACL rules need to start with the USER keyword")
      else
        and_then
          (of_result (if contains "#" raw_username
                      then match parse_user_namespace raw_username with inr (u, _) => inr u | inl e => inl e end
                      else match validate_username raw_username with inr _ => inr raw_username | inl e => inl e end))
          (fun username => apply_ops (new username) (op1 :: rest))
  | _ => Failed (parsing_err "Malformed ACL rule")
  end.

End Rationalize.

(** *** The description of the permissions *)

Section Shrink.

(** [AclParser::parse_acl_rule]. *)
Variable parse : string -> Outcome User.

(** The rule that is tried for position [i]. *)
Definition without_rule (parts : list string) (i : nat) : string :=
  let kept := if (1 <? i)%nat then drop 1 (take i parts) else [] in
  fold_left (fun acc part => acc +:+ " " +:+ part) kept "user test on >xxx".

(** One pass over the words from position [i] on. *)
Fixpoint shrink_pass (fuel : nat) (set : CommandPermissionSet) (parts : list string) (i : nat) (shrunk : bool)
  : option (list string * bool) :=
  match fuel with
  | O => None
  | S fuel =>
      if (i <? length parts)%nat then
        match parse (without_rule parts i) with
        | OutOfFuel => None
        | Done without_user =>
            if is_equivalent_to (copy (enabled_commands without_user)) set
            then shrink_pass fuel set (take i parts ++ drop (S i) parts) i true
            else shrink_pass fuel set parts (S i) shrunk
        | Failed _ => shrink_pass fuel set parts (S i) shrunk
        end
      else Some (parts, shrunk)
  end.

(** Passes until one removes nothing. *)
Fixpoint shrink (fuel : nat) (set : CommandPermissionSet) (parts : list string) : option (list string) :=
  match fuel with
  | O => None
  | S fuel =>
      '(parts, shrunk) ← shrink_pass (S (length parts)) set parts 0 false;
      if shrunk : bool then shrink fuel set parts else Some parts
  end.

Definition rationalize_with (set : CommandPermissionSet) (descr : string) (use_deep_rationalization : bool) : option string :=
  let parts := split_whitespace descr in
  parts ← (if use_deep_rationalization then shrink (S (length parts)) set parts else Some parts);
  Some (String.concat " " parts).

End Shrink.

Fixpoint rationalize (fuel : nat) : CommandPermissionSet -> string -> bool -> option string :=
  match fuel with
  | O => fun _ _ _ => None
  | S fuel => rationalize_with (parse_acl_rule (rationalize fuel))
  end.

(** Fuel for [k] more words in the description. *)
Definition fuel_for (user : User) (k : nat) : nat :=
  S (length (split_whitespace (description (enabled_commands user))) + k).

Definition apply_op (user : User) (op : string) : Outcome User :=
  apply_acl_op_to_user (rationalize (fuel_for user 1)) user op.

Definition set_ops (user : User) (ops : list string) : Outcome User :=
  apply_ops (rationalize (fuel_for user (length ops))) user ops.

Definition parse_rule (input : string) : Outcome User :=
  parse_acl_rule (rationalize (S (length (split_whitespace input)))) input.

(** *** Text and stored form *)

Definition describe_user (self : User) : string :=
  let perms_str := trim (description (enabled_commands self)) in
  "user " +:+ user_name self +:+ (if is_enabled self then " on" else " off") +:+
  (if is_passwordless self then " nopass" else "") +:+
  String.concat "" (map (fun hash => " #" +:+ of_bytes (default [] (Hex.hex_encode_32 hash))) (password_hashes self)) +:+
  (if is_empty perms_str then "" else " " +:+ perms_str).

Record UserRecord : Type := mkRecord {
  rec_name : string;
  rec_is_enabled : bool;
  rec_is_passwordless : bool;
  rec_password_hashes : list (list Z);
  perms_mode : Z;
  perms_bitmap : list Z;
  rec_custom_allowed : list string;
  rec_custom_denied : list string;
  rec_description : string
}.

Definition to_record (self : User) : UserRecord :=
  let perms := enabled_commands self in
  mkRecord (user_name self) (is_enabled self) (is_passwordless self) (password_hashes self) (wire_mode perms)
    (wire_bitmap perms) (elements (custom_allowed perms)) (elements (custom_denied perms)) (description perms).

Definition from_record (record : UserRecord) : AclError + User :=
  match from_wire (perms_mode record) (perms_bitmap record)
          (list_to_set (rec_custom_allowed record)) (list_to_set (rec_custom_denied record)) with
  | inl e => inl e
  | inr perms =>
      inr (mkUser (rec_name record) (rec_is_enabled record) (rec_is_passwordless record)
             (set_description perms (rec_description record)) (rec_password_hashes record))
  end.

End Rules.
End Users.

(** ** The bootstrap user and authentication *)
Module Access.
Import Text Catalog Perms Passwords Users.

Definition DEFAULT_USER_NAME : string := "default".

Section Access.

Variable catalog : option Catalog.
Variable sha256 : list Z -> list Z.

(** [default] with every command, enabled. *)
Definition default_with_all : Outcome User :=
  and_then (apply_category catalog (fun _ _ _ => None) (new DEFAULT_USER_NAME) ALL true) (fun user =>
  Done (set_enabled user true)).

Definition nopass_default_handle : Outcome User :=
  and_then default_with_all (fun user => Done (set_passwordless user true)).

Definition new_access_control_list (default_password : string) : Outcome User :=
  if is_empty default_password then nopass_default_handle
  else and_then default_with_all (fun user => Done (add_password_hash user (from_string sha256 default_password))).

Definition acl_password_check (user : User) (password : list Z) : bool :=
  if negb (is_enabled user) then false
  else if is_passwordless user then true
  else validate_password user (from_string sha256 (ascii_sanitize password)).

(** The template method with the check of a password. *)
Definition authenticate (default_user : User) (username password : list Z) (internal : User -> list Z -> bool) : option User :=
  let uname := ascii_sanitize username in
  match (if is_empty uname then inr (DEFAULT_USER_NAME, 0) else parse_user_namespace uname) with
  | inl _ => None
  | inr (clean_user, target_ns) =>
      if negb (target_ns =? 0) || negb (String.eqb clean_user DEFAULT_USER_NAME) then None
      else if internal default_user password then Some default_user else None
  end.

End Access.
End Access.

(** ** Users in the store *)
Module AclCommands.
Import Text Catalog Perms Passwords Users Access.

Definition RESP_ERR_ACL_FOREIGN_NAMESPACE : string :=
  "ERR permission denied: only namespace 0 can manage foreign namespaces".

Definition RESP_ERR_ACL_AUTH_DISABLED : string := "ERR ACL Authenticator is disabled.".

Definition acl_exception_message (exception : AclError) : string := "ERR " +:+ acl_error_text exception.

(** [abort_with_wrong_number_of_arguments]. *)
Definition wrong_number_of_arguments (cmd_name : string) : string :=
  "ERR wrong number of arguments for '" +:+ cmd_name +:+ "' command".

(** What a command answers; the frames are the protocol's. *)
Inductive AclReply : Type :=
| ReplyOk
| ReplyError (message : string)
| ReplyInt (n : Z)
| ReplyNull
| ReplyUser (enabled : bool) (passwords : gset string) (commands : string).

Definition foreign_namespace_denied (caller_ns : Z) (raw_name : string) (target_ns : Z) : bool :=
  negb (caller_ns =? 0) && (negb (target_ns =? caller_ns) || contains "#" raw_name).

Definition resolve_acl_username (caller_ns : Z) (raw : list Z) : string + (string * Z) :=
  let raw_name := ascii_sanitize raw in
  match parse_user_namespace_with_default raw_name caller_ns with
  | inl e => inl (acl_exception_message e)
  | inr (clean_user, target_ns) =>
      if foreign_namespace_denied caller_ns raw_name target_ns then inl RESP_ERR_ACL_FOREIGN_NAMESPACE
      else inr (clean_user, target_ns)
  end.

Inductive AclAuthOutcome : Type := Success (user : User) (ns : Z) | Denied | ForeignNamespace | StorageError | NoRecord.

Section Store.

Variable catalog : option Catalog.
Variable sha256 : list Z -> list Z.

(** The [bitcode] crate. *)
Variable encode : UserRecord -> list Z.
Variable decode : list Z -> option UserRecord.

(** Reading and writing a record of the store; the error is its text. *)
Context {St : Type}.
Variable read : St -> Z -> string -> string + option (list Z).
Variable write : St -> Z -> string -> list Z -> St * (string + unit).
Variable delete : St -> Z -> string -> St * (string + bool).

Definition to_bytes (self : User) : list Z := encode (to_record self).

Definition user_from_bytes (bytes : list Z) : AclError + User :=
  match decode bytes with Some record => from_record record | None => inl ErrCodec end.

Definition from_rule_bytes (nm : string) (bytes : list Z) : AclError + User :=
  match validate_username nm with inl e => inl e | inr _ => user_from_bytes bytes end.

(** [AclCtx]. *)
Record AclCtx : Type := mkCtx {
  ctx_default_user : option User;
  is_custom_command_registered : option (string -> bool);
  caller_namespace : Z
}.

Definition in_memory_default_user (ctx : AclCtx) (ns : Z) : option User :=
  if negb (ns =? 0) then None else ctx_default_user ctx.

(** The user a change starts from. *)
Definition current_user (existing : option (list Z)) (clean_username : string) (target_ns : Z) (ctx : AclCtx) : AclError + User :=
  match existing with
  | Some bytes => from_rule_bytes clean_username bytes
  | None =>
      match in_memory_default_user ctx target_ns with
      | Some user => if String.eqb (user_name user) clean_username then inr (from_user user) else inr (new clean_username)
      | None => inr (new clean_username)
      end
  end.

(** A custom command the change names that is not registered. *)
Definition unregistered (ctx : AclCtx) (pre_allowed pre_denied : gset string) (new_user : User) : option string :=
  match is_custom_command_registered ctx with
  | None => None
  | Some is_registered =>
      List.find (fun nm => negb (bool_decide (nm ∈ pre_allowed)) && negb (bool_decide (nm ∈ pre_denied)) && negb (is_registered nm))
        (elements (custom_allowed (enabled_commands new_user)) ++ elements (custom_denied (enabled_commands new_user)))
  end.

Definition apply_set_user (store : St) (clean_username : string) (target_ns : Z) (ops : list (list Z)) (ctx : AclCtx)
  : St * Outcome unit :=
  match read store target_ns clean_username with
  | inl e => (store, Failed (ErrAcl e))
  | inr existing =>
      match current_user existing clean_username target_ns ctx with
      | inl e => (store, Failed e)
      | inr current =>
          match set_ops catalog sha256 (from_user current) (map ascii_sanitize ops) with
          | Failed e => (store, Failed e)
          | OutOfFuel => (store, OutOfFuel)
          | Done new_user =>
              match unregistered ctx (custom_allowed (enabled_commands current)) (custom_denied (enabled_commands current)) new_user with
              | Some nm =>
                  (store, Failed (ErrAcl ("Unknown custom command '" +:+ nm +:+ "' (not registered with any loaded module)")))
              | None =>
                  match write store target_ns clean_username (to_bytes new_user) with
                  | (store, inl e) => (store, Failed (ErrAcl e))
                  | (store, inr _) => (store, Done tt)
                  end
              end
          end
      end
  end.

(** The handler of ACL SETUSER; no reply when the fuel of a rule is used up. *)
Definition network_acl_set_user (ctx : AclCtx) (store : St) (parse_state : list (list Z)) : St * option AclReply :=
  match parse_state with
  | [] => (store, Some (ReplyError (wrong_number_of_arguments "acl|setuser")))
  | raw :: ops =>
      if bool_decide (ctx_default_user ctx = None) then (store, Some (ReplyError RESP_ERR_ACL_AUTH_DISABLED))
      else
        match resolve_acl_username (caller_namespace ctx) raw with
        | inl frame => (store, Some (ReplyError frame))
        | inr (clean_user, target_ns) =>
            match apply_set_user store clean_user target_ns ops ctx with
            | (store, Done _) => (store, Some ReplyOk)
            | (store, Failed exception) => (store, Some (ReplyError (acl_exception_message exception)))
            | (store, OutOfFuel) => (store, None)
            end
        end
  end.

(** The loop of ACL DELUSER. *)
Fixpoint delete_users (ctx : AclCtx) (store : St) (usernames : list (list Z)) (successful_deletes : Z) : St * AclReply :=
  match usernames with
  | [] => (store, ReplyInt successful_deletes)
  | username :: rest =>
      match resolve_acl_username (caller_namespace ctx) username with
      | inl frame => (store, ReplyError frame)
      | inr (clean_user, target_ns) =>
          if String.eqb clean_user DEFAULT_USER_NAME && (target_ns =? 0)
          then (store, ReplyError (acl_exception_message (ErrAcl "The special 'default' user cannot be removed from the system")))
          else
            match delete store target_ns clean_user with
            | (store, inr true) => delete_users ctx store rest (successful_deletes + 1)
            | (store, inr false) => delete_users ctx store rest successful_deletes
            | (store, inl e) => (store, ReplyError (acl_exception_message (ErrAcl e)))
            end
      end
  end.

Definition network_acl_del_user (ctx : AclCtx) (store : St) (parse_state : list (list Z)) : St * AclReply :=
  match parse_state with
  | [] => (store, ReplyError (wrong_number_of_arguments "acl|deluser"))
  | _ =>
      if bool_decide (ctx_default_user ctx = None) then (store, ReplyError RESP_ERR_ACL_AUTH_DISABLED)
      else delete_users ctx store parse_state 0
  end.

(** The user that is shown. *)
Definition user_reply (user : User) : AclReply :=
  ReplyUser (is_enabled user)
    (list_to_set (map (fun password => "#" +:+ of_bytes (default [] (Hex.hex_encode_32 password))) (password_hashes user)))
    (description (enabled_commands user)).

Definition network_acl_get_user (ctx : AclCtx) (store : St) (parse_state : list (list Z)) : AclReply :=
  match parse_state with
  | [raw] =>
      if bool_decide (ctx_default_user ctx = None) then ReplyError RESP_ERR_ACL_AUTH_DISABLED
      else
        match resolve_acl_username (caller_namespace ctx) raw with
        | inl frame => ReplyError frame
        | inr (clean_user, target_ns) =>
            match read store target_ns clean_user with
            | inl e => ReplyError (acl_exception_message (ErrAcl e))
            | inr None =>
                match in_memory_default_user ctx target_ns with
                | Some user => if String.eqb (user_name user) clean_user then user_reply (from_user user) else ReplyNull
                | None => ReplyNull
                end
            | inr (Some bytes) =>
                match from_rule_bytes clean_user bytes with
                | inr user => user_reply user
                | inl e => ReplyError (acl_exception_message e)
                end
            end
        end
  | _ => ReplyError (wrong_number_of_arguments "acl|getuser")
  end.

Definition authenticate_user_via_store (store : St) (namespace : Z) (username password : list Z) : AclAuthOutcome :=
  let uname := ascii_sanitize username in
  match parse_user_namespace_with_default uname namespace with
  | inl _ => Denied
  | inr (clean_user, target_ns) =>
      if foreign_namespace_denied namespace uname target_ns then ForeignNamespace
      else
        match read store target_ns clean_user with
        | inl _ => StorageError
        | inr None => NoRecord
        | inr (Some bytes) =>
            match from_rule_bytes clean_user bytes with
            | inl _ => Denied
            | inr user =>
                if negb (is_enabled user) then Denied
                else if negb (validate_password user (from_string sha256 (ascii_sanitize password))) then Denied
                else Success user target_ns
            end
        end
  end.

End Store.
End AclCommands.
