(* ===== verification/AclIndex.v ===== *)
(** * The indexes of the command catalogue ([wedb/wresp/src/catalog/mod.rs])

    The index by number holds the first entry of every command, the index by
    parent the subcommands in order, and the merge of the columns of several
    categories is the list of the entries that have one of them, in order and
    without repetition. *)

From Stdlib Require Import ZArith Lia Bool Ascii String.
From stdpp Require Import base list numbers option tactics strings gmap sorting.
From S2P Require Import Prelude Bytes AclCatalog.

Open Scope Z_scope.

Module Index.
Import Text Catalog.

(** ** Columns *)

(** The numbers of the entries that satisfy [P], counted from [i]. *)
Fixpoint column (P : CmdEntry -> bool) (i : Z) (es : list CmdEntry) : list Z :=
  match es with [] => [] | e :: es' => (if P e then [i] else []) ++ column P (i + 1) es' end.

Lemma column_app P es1 : forall i es2, column P i (es1 ++ es2) = column P i es1 ++ column P (i + zlen es1) es2.
Proof.
  induction es1 as [|e es1 IH]; intros i es2; cbn [column app].
  { f_equal. unfold zlen. cbn. lia. }
  rewrite IH, <- app_assoc. do 2 f_equal. f_equal. rewrite zlen_cons. lia.
Qed.

Lemma elem_of_column P es : forall i x, x ∈ column P i es <-> exists e, i <= x /\ es !! Z.to_nat (x - i) = Some e /\ P e = true.
Proof.
  induction es as [|e es IH]; intros i x; cbn [column].
  { rewrite elem_of_nil. split; [done|]. intros (e & _ & He & _). by rewrite lookup_nil in He. }
  rewrite elem_of_app, IH. split.
  - intros [H|(e' & Hx & He & HP)].
    + destruct (P e) eqn:HP; [|by apply elem_of_nil in H]. apply list_elem_of_singleton in H as ->.
      exists e. split_and!; [lia| |done]. by rewrite Z.sub_diag.
    + exists e'. split_and!; [lia| |done]. replace (Z.to_nat (x - i)) with (S (Z.to_nat (x - (i + 1)))) by lia. done.
  - intros (e' & Hx & He & HP). destruct (decide (x = i)) as [->|Hne].
    + rewrite Z.sub_diag in He. injection He as <-. left. rewrite HP. by apply list_elem_of_singleton.
    + right. exists e'. split_and!; [lia| |done]. by replace (Z.to_nat (x - i)) with (S (Z.to_nat (x - (i + 1)))) in He by lia.
Qed.

Lemma column_sorted P es : forall i, StronglySorted Z.lt (column P i es).
Proof.
  induction es as [|e es IH]; intros i; cbn [column]; [constructor|].
  destruct (P e); [|apply IH]. cbn [app]. constructor; [apply IH|]. apply Forall_forall. intros x Hx.
  apply elem_of_column in Hx as (e' & Hx & _). lia.
Qed.

(** ** Building *)

(** What the indexes hold when the entries [es] have been read. *)
Record Indexed (es : list CmdEntry) (c : Catalog) : Prop := {
  indexed_length : zlen (by_cmd c) = LAST_VALID_COMMAND + 1;
  indexed_by_cmd : forall k, 0 <= k <= LAST_VALID_COMMAND -> by_cmd c !! Z.to_nat k = Some (List.find (fun e => cmd e =? k) es);
  indexed_children : forall p, default [] (children c !! p) = List.filter (fun e => bool_decide (parent e = Some p)) es;
  indexed_members : cat_members c = map (fun cat => column (fun e => cats_contain (cats e) (snd cat)) 0 es) CATEGORIES
}.

Definition Numbered (es : list CmdEntry) : Prop := Forall (fun e => 0 <= cmd e <= LAST_VALID_COMMAND) es /\ zlen es < u16_max.

Lemma find_app {A} (f : A -> bool) l1 l2 :
  List.find f (l1 ++ l2) = match List.find f l1 with Some x => Some x | None => List.find f l2 end.
Proof. induction l1 as [|x l1 IH]; [done|]. cbn. by destruct (f x). Qed.

Lemma index_entry_ok es e c : Indexed es c -> 0 <= cmd e <= LAST_VALID_COMMAND -> zlen es < u16_max -> exists c',
  index_entry (Some c) (zlen es, e) = Some c' /\ Indexed (es ++ [e]) c' /\ entries c' = entries c.
Proof.
  intros [Hlen Hb Hc Hm] He Hl. unfold index_entry. cbn [mbind option_bind]. rewrite Hb by done. cbn [mbind option_bind].
  eexists. split; [done|]. split; [|done]. split; cbn [by_cmd children cat_members].
  - rewrite <- Hlen. unfold zlen. by destruct (List.find _ es); rewrite ?length_insert.
  - intros k Hk. rewrite find_app. cbn [List.find]. destruct (decide (k = cmd e)) as [->|Hne].
    + rewrite Z.eqb_refl. destruct (List.find (fun e0 => cmd e0 =? cmd e) es) as [x|] eqn:E; [by rewrite Hb, E|].
      apply list_lookup_insert_eq. by apply lookup_lt_is_Some_1; rewrite Hb.
    + destruct (Z.eqb_spec (cmd e) k); [congruence|].
      assert (E : by_cmd c !! Z.to_nat k = Some (match List.find (fun e0 => cmd e0 =? k) es with Some x => Some x | None => None end)).
      { rewrite Hb by done. by destruct (List.find _ es). }
      destruct (List.find (fun e0 => cmd e0 =? cmd e) es); [done|]. rewrite list_lookup_insert_ne by lia. done.
  - intros p. rewrite List.filter_app. cbn [List.filter]. destruct (parent e) as [q|].
    + destruct (decide (q = p)) as [->|Hne].
      * rewrite bool_decide_true by done. rewrite lookup_insert_eq. cbn [default id]. by rewrite Hc.
      * rewrite bool_decide_false by congruence. rewrite app_nil_r, lookup_insert_ne by done. apply Hc.
    + rewrite bool_decide_false by done. rewrite app_nil_r. apply Hc.
  - rewrite Hm. pose proof (zlen_nonneg es). rewrite wrap_id by (unfold fits, u16_max in *; lia).
    generalize CATEGORIES. intros cs. induction cs as [|cat cs IH]; [done|]. cbn [map zip_with]. rewrite IH. f_equal.
    rewrite column_app. cbn [column]. rewrite app_nil_r, Z.add_0_l. by destruct (cats_contain _ _); rewrite ?app_nil_r.
Qed.

Lemma index_fold es2 : forall es1 c, Indexed es1 c -> Forall (fun e => 0 <= cmd e <= LAST_VALID_COMMAND) es2 ->
  zlen es1 + zlen es2 <= u16_max -> exists c',
  fold_left index_entry (zip (seqZ (zlen es1) (zlen es2)) es2) (Some c) = Some c' /\ Indexed (es1 ++ es2) c' /\ entries c' = entries c.
Proof.
  induction es2 as [|e es2 IH]; intros es1 c Hi Hn Hl.
  { exists c. by rewrite app_nil_r. }
  apply Forall_cons_1 in Hn as [He Hn]. rewrite zlen_cons in *. pose proof (zlen_nonneg es2).
  rewrite seqZ_cons by lia. cbn [zip zip_with fold_left].
  destruct (index_entry_ok es1 e c Hi He) as (c1 & -> & Hi1 & He1); [lia|].
  destruct (IH (es1 ++ [e]) c1 Hi1 Hn) as (c2 & E & Hi2 & He2).
  { rewrite zlen_app. change (zlen [e]) with 1. lia. }
  rewrite zlen_app in E. change (zlen [e]) with 1 in E. exists c2.
  replace (Z.succ (zlen es1)) with (zlen es1 + 1) by lia. replace (Z.pred (1 + zlen es2)) with (zlen es2) by lia.
  rewrite <- app_assoc in Hi2. split_and!; [exact E|done|congruence].
Qed.

Lemma build_ok es : Numbered es -> exists c, build es = Some c /\ Indexed es c /\ entries c = es.
Proof.
  intros [Hn Hl]. unfold build.
  destruct (index_fold es [] (mkCatalog es (replicate (Z.to_nat (LAST_VALID_COMMAND + 1)) None) ∅ (replicate (length CATEGORIES) [])))
    as (c & E & Hi & He); [|done|rewrite zlen_nil; lia|by exists c].
  split; cbn [by_cmd children cat_members].
  - done.
  - intros k Hk. apply lookup_replicate. split; [done|]. unfold LAST_VALID_COMMAND in *. lia.
  - intros p. by rewrite lookup_empty.
  - generalize CATEGORIES. intros cs. induction cs as [|cat cs IH]; [done|]. cbn [length replicate map]. f_equal. exact IH.
Qed.

(** ** Merging columns *)

Lemma skip_produced_ok la l x : StronglySorted Z.lt l -> la < x -> (x ∈ skip_produced la l <-> x ∈ l).
Proof.
  intros Hs Hx. induction l as [|y l IH]; [done|]. cbn [skip_produced]. inversion Hs as [|? ? Hs' Hy]; subst.
  destruct (Z.leb_spec y la); [|done]. rewrite IH by done. rewrite elem_of_cons. split; [by right|].
  intros [->|]; [lia|done].
Qed.

Lemma skip_produced_sorted la l : StronglySorted Z.lt l -> StronglySorted Z.lt (skip_produced la l) /\ Forall (fun x => la < x) (skip_produced la l).
Proof.
  intros Hs. induction l as [|y l IH]; [by split; constructor|]. cbn [skip_produced]. inversion Hs as [|? ? Hs' Hy]; subst.
  destruct (Z.leb_spec y la); [by apply IH|]. split; [done|]. constructor; [done|]. apply Forall_forall. intros z Hz.
  rewrite Forall_forall in Hy. specialize (Hy z Hz). lia.
Qed.

Lemma fold_min l : forall a, fold_left Z.min l a <= a /\ (forall x, x ∈ l -> fold_left Z.min l a <= x) /\
  (fold_left Z.min l a = a \/ fold_left Z.min l a ∈ l).
Proof.
  induction l as [|y l IH]; intros a; cbn [fold_left].
  { split_and!; [lia| |by left]. intros x Hx. by apply elem_of_nil in Hx. }
  destruct (IH (Z.min a y)) as (H1 & H2 & H3). split_and!; [lia| |].
  - intros x Hx. apply elem_of_cons in Hx as [->|Hx]; [lia|by apply H2].
  - destruct H3 as [H3|H3]; [|right; by right]. rewrite H3. destruct (Z.min_spec a y) as [[_ ->]|[_ ->]]; [by left|right; by left].
Qed.

(** The columns agree with [Q] above the last entry produced. *)
Record Columns (n : Z) (Q : Z -> Prop) (cur : list (option (list Z))) (la : Z) : Prop := {
  columns_sorted : forall l, Some l ∈ cur -> StronglySorted Z.lt l;
  columns_bound : forall l x, Some l ∈ cur -> x ∈ l -> 0 <= x < n;
  columns_agree : forall x, la < x -> (Q x <-> exists l, Some l ∈ cur /\ x ∈ l)
}.

Definition skipped (la : option Z) : option (list Z) -> option (list Z) :=
  fmap (fun l => match la with Some a => skip_produced a l | None => l end).

Lemma skip_produced_sub a l x : x ∈ skip_produced a l -> x ∈ l.
Proof.
  induction l as [|y l IH]; [done|]. cbn [skip_produced]. destruct (y <=? a); [|done]. intros H. right. by apply IH.
Qed.

Lemma columns_skip n Q cur la : Columns n Q cur (default (-1) la) ->
  Columns n Q (map (skipped la) cur) (default (-1) la) /\
  (forall l x, Some l ∈ map (skipped la) cur -> x ∈ l -> default (-1) la < x).
Proof.
  intros [Hs Hb Hq]. unfold skipped. destruct la as [a|]; cbn [default id].
  - split; [split|].
    + intros l Hl. apply list_elem_of_fmap in Hl as ([l0|] & [= ->] & Hl). by apply skip_produced_sorted, Hs.
    + intros l x Hl Hx. apply list_elem_of_fmap in Hl as ([l0|] & [= ->] & Hl). apply (Hb l0); [done|]. by eapply skip_produced_sub.
    + intros x Hx. rewrite Hq by done. split; intros (l & Hl & Hxl).
      * exists (skip_produced a l). split; [|by apply skip_produced_ok; [apply Hs|..]]. apply list_elem_of_fmap. by exists (Some l).
      * apply list_elem_of_fmap in Hl as ([l0|] & [= ->] & Hl). exists l0. split; [done|]. by eapply skip_produced_sub.
    + intros l x Hl Hx. apply list_elem_of_fmap in Hl as ([l0|] & [= ->] & Hl).
      destruct (skip_produced_sorted a l0 (Hs l0 Hl)) as [_ HF]. rewrite Forall_forall in HF. by apply HF.
  - assert (E : map (fmap (fun l : list Z => l)) cur = cur).
    { clear. induction cur as [|[l|] cur IH]; [done|..]; cbn; by f_equal. }
    rewrite E. split; [by split|]. intros l x Hl Hx. specialize (Hb l x Hl Hx). lia.
Qed.

(** The least number of the columns. *)
Lemma heads_min n Q cur la : Columns n Q cur la -> (forall l x, Some l ∈ cur -> x ∈ l -> la < x) -> n < u16_max ->
  let m := fold_left Z.min (omap (fun c => c ≫= head) cur) u16_max in
  (m = u16_max /\ forall x, la < x -> ~ Q x) \/ (la < m < n /\ Q m /\ forall x, la < x < m -> ~ Q x).
Proof.
  intros [Hs Hb Hq] Hla Hn m. destruct (fold_min (omap (fun c => c ≫= head) cur) u16_max) as (H1 & H2 & H3). fold m in H1, H2, H3.
  assert (Hle : forall x, la < x -> Q x -> m <= x).
  { intros x Hx HQ. apply Hq in HQ as (l & Hl & Hxl); [|done]. destruct l as [|y l]; [by apply elem_of_nil in Hxl|].
    assert (m <= y) by (apply H2, list_elem_of_omap; by exists (Some (y :: l))).
    pose proof (Hs _ Hl) as HS. inversion HS as [|? ? _ HF]; subst. rewrite Forall_forall in HF.
    apply elem_of_cons in Hxl as [->|Hxl]; [lia|]. specialize (HF x Hxl). lia. }
  destruct H3 as [H3|H3].
  - left. split; [done|]. intros x Hx HQ. specialize (Hle x Hx HQ). apply Hq in HQ as (l & Hl & Hxl); [|done]. specialize (Hb l x Hl Hxl). lia.
  - right. apply list_elem_of_omap in H3 as ([[|y l]|] & Hl & E); try done. injection E as ->.
    assert (Hm : m ∈ m :: l) by (by left). pose proof (Hla _ m Hl Hm). pose proof (Hb _ m Hl Hm).
    split_and!; [lia..| |].
    + apply Hq; [done|]. by exists (m :: l).
    + intros x Hx HQ. specialize (Hle x (proj1 Hx) HQ). lia.
Qed.

Lemma filter_first (P : CmdEntry -> bool) es a m e : (a <= m)%nat -> es !! m = Some e -> P e = true ->
  (forall k e', (a <= k < m)%nat -> es !! k = Some e' -> P e' = false) ->
  List.filter P (drop a es) = e :: List.filter P (drop (S m) es).
Proof.
  intros Ha He HP Hno. rewrite <- (take_drop (m - a) (drop a es)), List.filter_app, drop_drop.
  replace (a + (m - a))%nat with m by lia. rewrite (drop_S es e m) by done. cbn [List.filter]. rewrite HP.
  assert (E : forall l, (forall e', e' ∈ l -> P e' = false) -> List.filter P l = []).
  { induction l as [|x l IH]; intros H; [done|]. cbn. rewrite (H x) by (by left). apply IH. intros e' He'. apply H. by right. }
  rewrite E; [done|]. intros e' He'. apply list_elem_of_lookup in He' as (k & Hk). apply lookup_take_Some in Hk as [Hk Hlt].
  rewrite lookup_drop in Hk. by apply (Hno (a + k)%nat); [lia|].
Qed.

Definition holds_at (P : CmdEntry -> bool) (es : list CmdEntry) (x : Z) : Prop :=
  0 <= x /\ exists e, es !! Z.to_nat x = Some e /\ P e = true.

Definition last_of (it : CategoryIter) : Z := default (-1) (last it).

Lemma collect_ok (P : CmdEntry -> bool) es fuel : forall it, iter_entries it = es -> zlen es < u16_max ->
  Columns (zlen es) (holds_at P es) (cursors it) (last_of it) -> -1 <= last_of it ->
  (length (drop (Z.to_nat (last_of it + 1)) es) < fuel)%nat ->
  collect fuel it = Some (List.filter P (drop (Z.to_nat (last_of it + 1)) es)).
Proof.
  induction fuel as [|fuel IH]; intros it Ees Hn HC Hge Hf; [lia|]. cbn [collect]. unfold next.
  change (map _ (cursors it)) with (map (skipped (last it)) (cursors it)).
  destruct (columns_skip _ _ _ _ HC) as [HC' Hgt]. change (default (-1) (last it)) with (last_of it) in *.
  set (la := last_of it) in *. set (cur := map (skipped (last it)) (cursors it)) in *.
  destruct (heads_min _ _ _ _ HC' Hgt Hn) as [[-> Hno]|(Hm & HQ & Hno)].
  - rewrite Z.eqb_refl. cbn [negb mbind option_bind]. f_equal. symmetry.
    assert (E : forall l, (forall e', e' ∈ l -> P e' = false) -> List.filter P l = []).
    { induction l as [|x l IHl]; intros H; [done|]. cbn. rewrite (H x) by (by left). apply IHl. intros e' He'. apply H. by right. }
    apply E. intros e' He'. apply list_elem_of_lookup in He' as (k & Hk). rewrite lookup_drop in Hk.
    destruct (P e') eqn:HP; [|done]. destruct (Hno (la + 1 + Z.of_nat k)); [lia|]. split; [lia|]. exists e'. split; [|done].
    by replace (Z.to_nat (la + 1 + Z.of_nat k)) with (Z.to_nat (la + 1) + k)%nat by lia.
  - set (m := fold_left Z.min (omap (fun c => c ≫= head) cur) u16_max) in *.
    destruct (Z.eqb_spec m u16_max); [unfold u16_max in *; lia|]. cbn [negb]. destruct HQ as (Hm0 & e & He & HP).
    rewrite Ees, He. cbn [mbind option_bind]. rewrite (IH (mkIter es cur (Some m))); change (last_of (mkIter es cur (Some m))) with m; cbn [iter_entries cursors]; try done.
    + rewrite (filter_first P es (Z.to_nat (la + 1)) (Z.to_nat m) e); [|lia|done|done|].
      { replace (Z.to_nat (m + 1)) with (S (Z.to_nat m)) by lia. done. }
      intros k e' Hk He'. destruct (P e') eqn:HP'; [|done]. destruct (Hno (Z.of_nat k)); [lia|]. split; [lia|]. exists e'. by rewrite Nat2Z.id.
    + destruct HC' as [Hs Hb Hq]. split; [done|done|]. intros x Hx. apply Hq. lia.
    + lia.
    + rewrite length_drop in *. pose proof (lookup_lt_Some _ _ _ He). lia.
Qed.

(** The categories of [acl], over the single ones. *)
Definition has_category (acl : Z) (e : CmdEntry) : bool :=
  existsb (fun cat => cats_contain acl (snd cat) && cats_contain (cats e) (snd cat)) CATEGORIES.

Lemma category_columns es (cs : list (string * Z)) acl : forall l,
  Some l ∈ zip_with (fun cat members => if cats_contain acl (snd cat) then Some members else None) cs
    (map (fun cat => column (fun e => cats_contain (cats e) (snd cat)) 0 es) cs) <->
  exists cat, cat ∈ cs /\ cats_contain acl (snd cat) = true /\ l = column (fun e => cats_contain (cats e) (snd cat)) 0 es.
Proof.
  intros l. induction cs as [|cat cs IH]; cbn [map zip_with].
  { rewrite elem_of_nil. split; [done|]. intros (cat & Hc & _). by apply elem_of_nil in Hc. }
  rewrite elem_of_cons, IH. split.
  - intros [H|(cat' & Hc & H)].
    + exists cat. destruct (cats_contain acl (snd cat)); [|done]. injection H as ->. split_and!; [by left|done|done].
    + exists cat'. split; [by right|done].
  - intros (cat' & Hc & Ha & ->). apply elem_of_cons in Hc as [->|Hc]; [left; by rewrite Ha|]. right. by exists cat'.
Qed.

Lemma category_entries es acl : Numbered es ->
  commands_for_category (build es) acl = Some (List.filter (has_category acl) es).
Proof.
  intros Hnum. destruct (build_ok es Hnum) as (c & -> & [_ _ _ Hm] & He). unfold commands_for_category. rewrite Hm, He.
  rewrite (collect_ok (has_category acl) es); change (last_of _) with (-1); cbn [iter_entries cursors]; try done.
  - apply Hnum.
  - split.
    + intros l Hl. apply category_columns in Hl as (cat & _ & _ & ->). apply column_sorted.
    + intros l x Hl Hx. apply category_columns in Hl as (cat & _ & _ & ->). apply elem_of_column in Hx as (e & Hx & Hl & _).
      apply lookup_lt_Some in Hl. unfold zlen. lia.
    + intros x Hx. unfold holds_at, has_category. split.
      * intros (H0 & e & Hlk & HP). apply existsb_exists in HP as (cat & Hc & HP). apply andb_true_iff in HP as [Ha HP].
        apply list_elem_of_In in Hc. eexists. split; [apply category_columns; by exists cat|]. apply elem_of_column. exists e.
        rewrite Z.sub_0_r. by split_and!.
      * intros (l & Hl & Hxl). apply category_columns in Hl as (cat & Hc & Ha & ->). apply elem_of_column in Hxl as (e & H0 & Hlk & HP).
        rewrite Z.sub_0_r in Hlk. split; [done|]. exists e. split; [done|]. apply existsb_exists. exists cat.
        split; [by apply list_elem_of_In|]. by rewrite Ha, HP.
  - change (Z.to_nat (-1 + 1)) with 0%nat. rewrite drop_0. lia.
Qed.

Lemma find_entry es k : Numbered es -> 0 <= k <= LAST_VALID_COMMAND ->
  try_get_resp_command_info (build es) k = List.find (fun e => cmd e =? k) es.
Proof.
  intros Hnum Hk. destruct (build_ok es Hnum) as (c & -> & [_ Hb _ _] & _). unfold try_get_resp_command_info. cbn [mbind option_bind].
  rewrite Hb by done. done.
Qed.

Lemma found_entry es k e : Numbered es -> try_get_resp_command_info (build es) k = Some e -> e ∈ es.
Proof.
  intros Hnum. destruct (build_ok es Hnum) as (c & -> & [Hl Hb _ _] & _). unfold try_get_resp_command_info. cbn [mbind option_bind].
  intros H. destruct (by_cmd c !! Z.to_nat k) as [slot|] eqn:E; [|done]. cbn [mbind option_bind] in H. subst slot.
  pose proof (lookup_lt_Some _ _ _ E) as Hlt. unfold zlen in Hl. specialize (Hb (Z.of_nat (Z.to_nat k))).
  rewrite Nat2Z.id, E in Hb. apply list_elem_of_In.
  assert (Hf : Some (Some e) = Some (List.find (fun e0 => cmd e0 =? Z.of_nat (Z.to_nat k)) es)) by (apply Hb; unfold LAST_VALID_COMMAND in *; lia).
  apply (inj Some) in Hf. symmetry in Hf.
  by apply List.find_some in Hf as [Hf _].
Qed.

Lemma children_entries es p : Numbered es -> children_of (build es) p = List.filter (fun e => bool_decide (parent e = Some p)) es.
Proof.
  intros Hnum. destruct (build_ok es Hnum) as (c & -> & [_ _ Hc _] & _). unfold children_of. cbn [mbind option_bind]. apply Hc.
Qed.

(** C13: the indexes the catalogue is built with answer as a search through its
    entries would: the information of a command is its first entry, the subcommands
    of a command are the entries that name it as their parent, and the merge of the
    columns of the categories asked for ends and produces exactly the entries that
    have one of them, each once and in the order of the catalogue. *)
Theorem catalog_index_correct es acl k p : Numbered es -> 0 <= k <= LAST_VALID_COMMAND ->
  commands_for_category (build es) acl = Some (List.filter (has_category acl) es) /\
  try_get_resp_command_info (build es) k = List.find (fun e => cmd e =? k) es /\
  children_of (build es) p = List.filter (fun e => bool_decide (parent e = Some p)) es.
Proof. intros Hnum Hk. split_and!; [by apply category_entries|by apply find_entry|by apply children_entries]. Qed.

Lemma numbered_check es :
  forallb (fun e => (0 <=? cmd e) && (cmd e <=? LAST_VALID_COMMAND)) es && (zlen es <? u16_max) = true -> Numbered es.
Proof.
  intros H. apply andb_true_iff in H as [H Hl]. split; [|lia]. apply Forall_forall. intros e He.
  rewrite forallb_forall in H. apply list_elem_of_In in He. specialize (H e He). lia.
Qed.

Lemma entries_numbered : Numbered (project_entries RESP_COMMANDS_INFO).
Proof. apply numbered_check. vm_compute. reflexivity. Qed.

Lemma catalog_index_correct_witness :
  commands_for_category CATALOG (Z.shiftl 1 22) = Some (List.filter (has_category (Z.shiftl 1 22)) (project_entries RESP_COMMANDS_INFO)) /\
  try_get_resp_command_info CATALOG 135 = List.find (fun e => cmd e =? 135) (project_entries RESP_COMMANDS_INFO) /\
  children_of CATALOG 283 = List.filter (fun e => bool_decide (parent e = Some 283)) (project_entries RESP_COMMANDS_INFO).
Proof.
  exact (catalog_index_correct (project_entries RESP_COMMANDS_INFO) (Z.shiftl 1 22) 135 283 entries_numbered ltac:(unfold LAST_VALID_COMMAND; lia)).
Defined.

End Index.
