(* ===== verification/AclPerms.v ===== *)
(** * Permission sets ([wedb/wacl/src/command_permission_set.rs])

    A permission set as the commands it lets run: granting and revoking a command
    covers its variants, and nothing else changes. *)

From Stdlib Require Import ZArith Lia Bool Ascii String.
From stdpp Require Import base list numbers option tactics strings gmap.
From S2P Require Import Prelude Bytes AclCatalog Acl AclIndex.

Open Scope Z_scope.

Module PermSpec.
Import Text Catalog Perms.

Definition Valid (c : RespCommand) : Prop := 0 <= c <= LAST_VALID_COMMAND.

(** A command that is not a variant of another one. *)
Definition Real (c : RespCommand) : Prop := Valid c /\ normalize_for_acls c = c.

(** ** Variants *)

Lemma normalize_real c : normalize_for_acls (normalize_for_acls c) = normalize_for_acls c.
Proof.
  unfold normalize_for_acls at 2 3. destruct (existsb (Z.eqb c) EXPANDED_SET) eqn:E1; [done|].
  destruct (existsb (Z.eqb c) EXPANDED_BITOP) eqn:E2; [done|]. unfold normalize_for_acls. by rewrite E1, E2.
Qed.

Lemma expand_iff c d : normalize_for_acls c = c -> (d = c \/ d ∈ expand_for_acls c) <-> normalize_for_acls d = c.
Proof.
  intros Hc. unfold expand_for_acls. unfold normalize_for_acls in *.
  assert (Hin : forall l, existsb (Z.eqb d) l = true <-> d ∈ l).
  { intros l. rewrite existsb_exists. setoid_rewrite Z.eqb_eq. split; [intros (x & H & ->); by apply list_elem_of_In|].
    intros H. exists d. split; [by apply list_elem_of_In|done]. }
  destruct (existsb (Z.eqb d) EXPANDED_SET) eqn:E1; [|destruct (existsb (Z.eqb d) EXPANDED_BITOP) eqn:E2].
  - pose proof (proj1 (Hin _) E1) as H1. split.
    + intros [->|H]; [by rewrite E1 in Hc|]. destruct (Z.eqb_spec c SetCommand); [done|]. destruct (Z.eqb_spec c Bitop); [|by apply elem_of_nil in H].
      exfalso. clear -H1 H. unfold EXPANDED_SET, EXPANDED_BITOP in *. set_unfold. unfold Setexnx, Setexxx, Setkeepttl, Setkeepttlxx, BitopAnd, BitopNot, BitopOr, BitopXor, BitopDiff in *. lia.
    + intros <-. rewrite Z.eqb_refl. by right.
  - pose proof (proj1 (Hin _) E2) as H2. split.
    + intros [->|H]; [by rewrite E1, E2 in Hc|]. destruct (Z.eqb_spec c SetCommand) as [->|]; [|destruct (Z.eqb_spec c Bitop); [done|by apply elem_of_nil in H]].
      exfalso. clear -H2 H. unfold EXPANDED_SET, EXPANDED_BITOP in *. set_unfold. unfold Setexnx, Setexxx, Setkeepttl, Setkeepttlxx, BitopAnd, BitopNot, BitopOr, BitopXor, BitopDiff in *. lia.
    + intros <-. right. unfold SetCommand, Bitop. done.
  - split; [|by intros ->; left]. intros [H|H]; [done|]. exfalso.
    destruct (c =? SetCommand); [by apply Hin in H; rewrite E1 in H|].
    destruct (c =? Bitop); [by apply Hin in H; rewrite E2 in H|by apply elem_of_nil in H].
Qed.

Lemma expand_valid c d : d ∈ expand_for_acls c -> Valid d.
Proof.
  unfold expand_for_acls. destruct (c =? SetCommand); [|destruct (c =? Bitop); [|intros H; by apply elem_of_nil in H]].
  all: unfold EXPANDED_SET, EXPANDED_BITOP, Valid, LAST_VALID_COMMAND; intros H; set_unfold.
  all: unfold Setexnx, Setexxx, Setkeepttl, Setkeepttlxx, BitopAnd, BitopNot, BitopOr, BitopXor, BitopDiff in *; lia.
Qed.

(** ** Bits *)

Definition Bits (l : list Z) : Prop := zlen l = COMMAND_LIST_LEN /\ Forall (fits 64) l.

Lemma word_bound c : Valid c -> 0 <= Z.shiftr c 6 < COMMAND_LIST_LEN /\ 0 <= Z.land c 63 < 64.
Proof.
  unfold Valid, LAST_VALID_COMMAND, RespCommand in *. intros Hc. rewrite Z.shiftr_div_pow2 by lia. change 63 with (Z.ones 6). rewrite Z.land_ones by lia.
  change COMMAND_LIST_LEN with 6. change (2 ^ 6) with 64.
  pose proof (Z.mod_pos_bound c 64). pose proof (Z.div_pos c 64). pose proof (Z.div_lt_upper_bound c 64 6). lia.
Qed.

Lemma bit_on_testbit p c : Valid c -> Bits (command_list p) ->
  bit_on p c = Z.testbit (nth (Z.to_nat (Z.shiftr c 6)) (command_list p) 0) (Z.land c 63).
Proof.
  intros Hc Hb. destruct (word_bound c Hc) as [Hw Hl]. unfold bit_on. destruct (Z.ltb_spec (Z.shiftr c 6) COMMAND_LIST_LEN); [|lia].
  set (w := nth _ _ _). set (b := Z.land c 63) in *. destruct (Z.eqb_spec (Z.land w (Z.shiftl 1 b)) 0) as [E|E]; cbn [negb].
  - destruct (Z.testbit w b) eqn:T; [|done]. exfalso. assert (T1 : Z.testbit (Z.land w (Z.shiftl 1 b)) b = true).
    { rewrite Z.land_spec, T, Z.shiftl_spec, Z.sub_diag by lia. done. }
    by rewrite E, Z.testbit_0_l in T1.
  - destruct (Z.testbit w b) eqn:T; [done|]. destruct E. apply Z.bits_inj'. intros i Hi. rewrite Z.land_spec, Z.testbit_0_l.
    destruct (decide (i = b)) as [->|Hne]; [by rewrite T|]. rewrite Z.shiftl_spec by lia.
    destruct (Z.testbit 1 (i - b)) eqn:T1; [|apply andb_false_r]. exfalso. destruct (decide (i < b)); [by rewrite Z.testbit_neg_r in T1 by lia|].
    change 1 with (2 ^ 0) in T1. rewrite Z.pow2_bits_eqb in T1 by lia. lia.
Qed.

Lemma split_number c d : 0 <= c -> 0 <= d -> Z.shiftr c 6 = Z.shiftr d 6 -> Z.land c 63 = Z.land d 63 -> c = d.
Proof.
  intros Hc Hd Hw Hb. change 63 with (Z.ones 6) in Hb. rewrite !Z.land_ones in Hb by lia. rewrite !Z.shiftr_div_pow2 in Hw by lia.
  rewrite (Z.div_mod c (2 ^ 6)), (Z.div_mod d (2 ^ 6)) by lia. by rewrite Hw, Hb.
Qed.

Lemma one_bit b i : 0 <= b -> 0 <= i -> Z.testbit (Z.shiftl 1 b) i = (i =? b).
Proof. intros Hb Hi. rewrite Z.shiftl_1_l. rewrite Z.pow2_bits_eqb by lia. apply Z.eqb_sym. Qed.

Lemma word_changed old b (on : bool) i : 0 <= b < 64 -> 0 <= i < 64 ->
  Z.testbit (if on then Z.lor old (Z.shiftl 1 b) else Z.land old (bnot 64 (Z.shiftl 1 b))) i = if i =? b then on else Z.testbit old i.
Proof.
  intros Hb Hi. destruct on; [rewrite Z.lor_spec|rewrite Z.land_spec; unfold bnot; rewrite Z.ldiff_spec, ones_testbit by lia].
  all: rewrite one_bit by lia; destruct (Z.eqb_spec i b); cbn; rewrite ?orb_true_r, ?orb_false_r, ?andb_false_r; try done.
  destruct (Z.ltb_spec i 64); [by rewrite andb_true_r|lia].
Qed.

Lemma word_fits old b (on : bool) : fits 64 old -> 0 <= b < 64 ->
  fits 64 (if on then Z.lor old (Z.shiftl 1 b) else Z.land old (bnot 64 (Z.shiftl 1 b))).
Proof.
  intros Ho Hb. assert (Hnn : 0 <= old) by (unfold fits in Ho; lia). apply fits_of_bits; [lia| |].
  - destruct on; [apply Z.lor_nonneg; split; [done|]; apply Z.shiftl_nonneg; lia|apply Z.land_nonneg; by left].
  - intros i Hi. destruct on; [rewrite Z.lor_spec, one_bit by lia; rewrite (fits_high 64 old) by (done || lia); cbn; lia|].
    by rewrite Z.land_spec, (fits_high 64 old) by (done || lia).
Qed.

(** What a change of bits leaves alone. *)
Definition SameCustom (p q : CommandPermissionSet) : Prop :=
  custom_allowed q = custom_allowed p /\ custom_denied q = custom_denied p /\ description q = description p.

Lemma set_bit_ok p c on : Valid c -> Bits (command_list p) ->
  Bits (command_list (set_bit p c on)) /\ special (set_bit p c on) = special p /\ SameCustom p (set_bit p c on) /\
  forall d, Valid d -> bit_on (set_bit p c on) d = if d =? c then on else bit_on p d.
Proof.
  intros Hc Hb. destruct (word_bound c Hc) as [Hw Hl]. pose proof Hb as [Hlen Hfit].
  unfold zlen in Hlen. change COMMAND_LIST_LEN with 6 in *.
  assert (Hb' : Bits (command_list (set_bit p c on))).
  { unfold set_bit. destruct (Z.ltb_spec (Z.shiftr c 6) COMMAND_LIST_LEN); [|done]. cbn [command_list with_bits]. split.
    - unfold zlen. rewrite length_insert. change COMMAND_LIST_LEN with 6. lia.
    - apply Forall_insert; [done|]. apply word_fits; [|done]. rewrite nth_lookup. destruct (_ !! _) as [w|] eqn:E; [|unfold fits; cbn; lia].
      by eapply Forall_lookup_1 in E. }
  split; [done|]. split; [unfold set_bit; by destruct (_ <? _)|]. split; [unfold set_bit; by destruct (_ <? _)|].
  intros d Hd. rewrite !bit_on_testbit by done. destruct (word_bound d Hd) as [Hwd Hld]. unfold set_bit.
  change COMMAND_LIST_LEN with 6. destruct (Z.ltb_spec (Z.shiftr c 6) 6); [|lia]. cbn [command_list with_bits].
  rewrite (nth_lookup (<[_:=_]> _)). destruct (decide (Z.shiftr d 6 = Z.shiftr c 6)) as [E|E].
  - rewrite E, list_lookup_insert_eq by lia. cbn [default]. unfold id. rewrite word_changed by lia.
    destruct (Z.eqb_spec (Z.land d 63) (Z.land c 63)) as [E1|E1], (Z.eqb_spec d c) as [->|Hne]; try done.
    destruct Hne. apply split_number; unfold Valid in *; try lia; done.
  - rewrite list_lookup_insert_ne by lia. rewrite <- nth_lookup. destruct (Z.eqb_spec d c) as [->|]; done.
Qed.

Lemma apply_cmd_bit_ok p c on : Real c -> Bits (command_list p) ->
  Bits (command_list (apply_cmd_bit p c on)) /\ special (apply_cmd_bit p c on) = special p /\ SameCustom p (apply_cmd_bit p c on) /\
  forall d, Valid d -> bit_on (apply_cmd_bit p c on) d = if normalize_for_acls d =? c then on else bit_on p d.
Proof.
  intros [Hc Hr] Hb. unfold apply_cmd_bit.
  assert (H : forall l q, (forall x, x ∈ l -> Valid x) -> Bits (command_list q) ->
    let q' := fold_left (fun p extra => set_bit p extra on) l q in
    Bits (command_list q') /\ special q' = special q /\ SameCustom q q' /\
    forall d, Valid d -> bit_on q' d = if existsb (Z.eqb d) l then on else bit_on q d).
  { induction l as [|x l IH]; intros q Hx Hq; [by cbn|]. cbn [fold_left existsb].
    destruct (set_bit_ok q x on) as (B1 & S1 & (C1 & C2 & C3) & D1); [apply Hx; by left|done|].
    destruct (IH (set_bit q x on)) as (B2 & S2 & (C4 & C5 & C6) & D2); [intros y Hy; apply Hx; by right|done|].
    split_and!; [done|congruence|split_and!; congruence|]. intros d Hd. rewrite D2, D1 by done.
    destruct (d =? x), (existsb (Z.eqb d) l); done. }
  destruct (set_bit_ok p c on Hc Hb) as (B1 & S1 & (C1 & C2 & C3) & D1).
  destruct (H (expand_for_acls c) (set_bit p c on)) as (B2 & S2 & (C4 & C5 & C6) & D2); [intros x Hx; by eapply expand_valid|done|].
  split_and!; [done|congruence|split_and!; congruence|]. intros d Hd. rewrite D2, D1 by done.
  pose proof (expand_iff c d Hr) as Hiff.
  assert (Hin : existsb (Z.eqb d) (expand_for_acls c) = true <-> d ∈ expand_for_acls c).
  { rewrite existsb_exists. setoid_rewrite Z.eqb_eq. split; [intros (x & Hx & ->); by apply list_elem_of_In|].
    intros Hx. exists d. split; [by apply list_elem_of_In|done]. }
  destruct (Z.eqb_spec (normalize_for_acls d) c) as [E|E].
  - apply Hiff in E as [->|E]; [rewrite Z.eqb_refl; by destruct (existsb _ _)|]. by rewrite (proj2 Hin E).
  - destruct (existsb (Z.eqb d) (expand_for_acls c)) eqn:E1; [destruct E; apply Hiff; right; by apply Hin|].
    destruct (Z.eqb_spec d c) as [->|]; [|done]. destruct E. by apply Hiff; left.
Qed.

(** ** Well-formed sets *)

Record Wf (p : CommandPermissionSet) : Prop := {
  wf_bits : Bits (command_list p);
  wf_zero : special p <> SetOf -> command_list p = EMPTY_COMMANDS_BITS;
  wf_all : special p = All -> custom_allowed p = ∅ /\ custom_denied p = ∅;
  wf_none : special p = NoneOf -> custom_allowed p = ∅;
  wf_upper : forall n, n ∈ custom_allowed p ∪ custom_denied p -> to_ascii_uppercase n = n;
  wf_variants : forall d, Valid d -> can_run_command p d = can_run_command p (normalize_for_acls d)
}.

Lemma normalize_valid d : Valid d -> Valid (normalize_for_acls d).
Proof. intros Hd. unfold normalize_for_acls. destruct (existsb _ _); [by cbv|]. destruct (existsb _ _); [by cbv|done]. Qed.

Lemma empty_bits : Bits EMPTY_COMMANDS_BITS.
Proof. split; [done|]. apply Forall_replicate. unfold fits. lia. Qed.

Lemma full_bits : Bits ALL_COMMANDS_BITS.
Proof. split; [done|]. apply Forall_replicate. unfold fits, u64_max. lia. Qed.

Lemma empty_off p d : Valid d -> command_list p = EMPTY_COMMANDS_BITS -> bit_on p d = false.
Proof.
  intros Hd E. rewrite bit_on_testbit by (done || rewrite E; apply empty_bits). rewrite E, nth_lookup.
  unfold EMPTY_COMMANDS_BITS. destruct (_ !! _) as [w|] eqn:El; [|by rewrite Z.testbit_0_l].
  apply lookup_replicate in El as [-> _]. apply Z.testbit_0_l.
Qed.

Lemma full_on p d : Valid d -> command_list p = ALL_COMMANDS_BITS -> bit_on p d = true.
Proof.
  intros Hd E. destruct (word_bound d Hd) as [Hw Hl]. rewrite bit_on_testbit by (done || rewrite E; apply full_bits). rewrite E, nth_lookup.
  unfold ALL_COMMANDS_BITS. rewrite lookup_replicate_2 by lia. cbn [default]. unfold id. change u64_max with (Z.ones 64).
  rewrite ones_testbit by lia. lia.
Qed.

Lemma wf_all_set : Wf all.
Proof. split; [apply empty_bits|done|done|done| |done]. intros n Hn. by apply elem_of_union in Hn as [Hn%elem_of_empty|Hn%elem_of_empty]. Qed.

Lemma wf_none_set : Wf none.
Proof.
  split; [apply empty_bits|done|done|done| |]; [intros n Hn; by apply elem_of_union in Hn as [Hn%elem_of_empty|Hn%elem_of_empty]|]. intros d Hd. unfold can_run_command. cbn [is_all special none].
  rewrite !empty_off; [done|by apply normalize_valid|done|done|done].
Qed.

Lemma none_runs p d : Wf p -> special p = NoneOf -> Valid d -> can_run_command p d = false.
Proof. intros HW E Hd. unfold can_run_command, is_all. rewrite E. apply empty_off; [done|]. apply (wf_zero p HW). by rewrite E. Qed.

(** The set with the sentinel [All] spelled out. *)
Lemma copy_ok p : Wf p -> Wf (copy p) /\ special (copy p) = SetOf /\ SameCustom p (copy p) /\
  forall d, Valid d -> can_run_command (copy p) d = can_run_command p d.
Proof.
  intros HW.
  assert (Hr : forall d, Valid d -> can_run_command (copy p) d = can_run_command p d).
  { intros d Hd. unfold can_run_command, copy. cbn [is_all special with_bits]. destruct (is_all p) eqn:E; [by apply full_on|done]. }
  split_and!; try done. split; cbn [special copy with_bits custom_allowed custom_denied]; try done.
  - unfold copy. cbn [command_list with_bits]. destruct (is_all p); [apply full_bits|apply HW].
  - apply HW.
  - intros d Hd. rewrite !Hr by (done || by apply normalize_valid). by apply HW.
Qed.

(** The result of changing commands: what may run, what is left alone. *)
Definition Changed (p q : CommandPermissionSet) (sp : Special) (runs : RespCommand -> bool) : Prop :=
  Wf q /\ special q = sp /\ SameCustom p q /\ forall d, Valid d -> can_run_command q d = runs d.

Lemma bits_changed p sp c on (base : CommandPermissionSet) : Wf p -> Real c -> sp = SetOf ->
  base = with_bits p sp (command_list base) -> Bits (command_list base) ->
  (forall d, Valid d -> bit_on base d = can_run_command p d) ->
  Changed p (apply_cmd_bit base c on) SetOf (fun d => if normalize_for_acls d =? c then on else can_run_command p d).
Proof.
  intros HW Hc -> Eb HB Hrun. destruct (apply_cmd_bit_ok base c on Hc HB) as (B & S & (C1 & C2 & C3) & D).
  assert (Sb : special base = SetOf) by (by rewrite Eb). rewrite Sb in S.
  assert (Hr : forall d, Valid d -> can_run_command (apply_cmd_bit base c on) d = if normalize_for_acls d =? c then on else can_run_command p d).
  { intros d Hd. unfold can_run_command at 1, is_all. rewrite S, D by done. by rewrite Hrun. }
  assert (Ca : custom_allowed base = custom_allowed p) by (by rewrite Eb).
  assert (Cd : custom_denied base = custom_denied p) by (by rewrite Eb).
  split_and!; [|done|split_and!; [congruence..|]|done].
  - split; rewrite ?C1, ?C2, ?Ca, ?Cd, ?S; try done; [apply HW|].
    intros d Hd. rewrite !Hr by (done || by apply normalize_valid). rewrite normalize_real. by rewrite <- (wf_variants p HW).
  - rewrite C3. by rewrite Eb.
Qed.

Lemma add_command_ok p c : Wf p -> Real c ->
  Changed p (add_command p c) (match special p with All => All | _ => SetOf end)
    (fun d => can_run_command p d || (normalize_for_acls d =? c)).
Proof.
  intros HW Hc. unfold add_command. destruct (special p) eqn:E; unfold is_all, is_none; rewrite E; cbv iota.
  - split_and!; try done. intros d Hd. unfold can_run_command, is_all. by rewrite E.
  - pose proof (bits_changed p SetOf c true (with_bits p SetOf (command_list p)) HW Hc eq_refl eq_refl (wf_bits p HW)) as H.
    destruct H as (W & S & C & D); [intros d Hd; unfold can_run_command, is_all; by rewrite E|]. split_and!; [done|done|apply C..|].
    intros d Hd. rewrite D by done. destruct (_ =? _); by rewrite ?orb_true_r, ?orb_false_r.
  - pose proof (bits_changed p SetOf c true p HW Hc eq_refl) as H.
    destruct H as (W & S & C & D); [by destruct p; cbn in E; subst|apply HW|intros d Hd; unfold can_run_command, is_all; by rewrite E|].
    split_and!; [done|done|apply C..|]. intros d Hd. rewrite D by done. destruct (_ =? _); by rewrite ?orb_true_r, ?orb_false_r.
Qed.

Lemma remove_command_ok p c : Wf p -> Real c ->
  Changed p (remove_command p c)
    (match special p with NoneOf => NoneOf | All => if is_no_auth c then All else SetOf | SetOf => SetOf end)
    (fun d => can_run_command p d && negb ((normalize_for_acls d =? c) && negb (is_no_auth c))).
Proof.
  intros HW Hc. unfold remove_command. destruct (is_no_auth c) eqn:En; cbn [orb].
  { split_and!; try done; [by destruct (special p)|]. intros d Hd. by rewrite andb_false_r, andb_true_r. }
  destruct (special p) eqn:E; unfold is_all, is_none; rewrite E; cbv iota; cbn [negb].
  - pose proof (bits_changed p SetOf c false (with_bits p SetOf ALL_COMMANDS_BITS) HW Hc eq_refl eq_refl full_bits) as H.
    destruct H as (W & S & C & D).
    { intros d Hd. unfold can_run_command, is_all. rewrite E. by apply full_on. }
    split_and!; [done|done|apply C..|]. intros d Hd. rewrite D, andb_true_r by done. by destruct (_ =? _); rewrite ?andb_true_r, ?andb_false_r.
  - split_and!; try done. intros d Hd. by rewrite (none_runs p d HW E Hd).
  - pose proof (bits_changed p SetOf c false p HW Hc eq_refl) as H.
    destruct H as (W & S & C & D); [by destruct p; cbn in E; subst|apply HW|intros d Hd; unfold can_run_command, is_all; by rewrite E|].
    split_and!; [done|done|apply C..|]. intros d Hd. rewrite D, andb_true_r by done. by destruct (_ =? _); rewrite ?andb_true_r, ?andb_false_r.
Qed.

End PermSpec.
