(* ===== verification/AclText.v ===== *)
(** * Text of the access rules

    Words and letters: joining words with blanks and splitting again gives the
    words back, and comparing without regard to case is equality of the upper-case
    forms. *)

From Stdlib Require Import ZArith Lia Bool Ascii String.
From stdpp Require Import base list numbers option tactics strings gmap.
From S2P Require Import Prelude Bytes AclCatalog.

Open Scope Z_scope.

Module TextSpec.
Import Text.

(** ** Letters *)

Lemma all_ascii (P : ascii -> bool) :
  forallb (fun n => P (ascii_of_nat n)) (seq 0 256) = true -> forall c, P c = true.
Proof.
  intros H c. rewrite <- (ascii_nat_embedding c). rewrite List.forallb_forall in H. apply H.
  apply List.in_seq. pose proof (nat_ascii_bounded c). lia.
Qed.

Lemma upper_lower c : upper (lower c) = upper c.
Proof. apply Ascii.eqb_eq. revert c. apply all_ascii. by vm_compute. Qed.

Lemma lower_upper c : lower (upper c) = lower c.
Proof. apply Ascii.eqb_eq. revert c. apply all_ascii. by vm_compute. Qed.

Lemma upper_upper c : upper (upper c) = upper c.
Proof. apply Ascii.eqb_eq. revert c. apply all_ascii. by vm_compute. Qed.

Lemma map_chars_comp f g s : map_chars f (map_chars g s) = map_chars (fun c => f (g c)) s.
Proof. induction s as [|c s IH]; cbn; by rewrite ?IH. Qed.

Lemma map_chars_ext f g s : (forall c, f c = g c) -> map_chars f s = map_chars g s.
Proof. intros H. induction s as [|c s IH]; cbn; by rewrite ?H, ?IH. Qed.

Lemma uppercase_idem s : to_ascii_uppercase (to_ascii_uppercase s) = to_ascii_uppercase s.
Proof. unfold to_ascii_uppercase. rewrite map_chars_comp. apply map_chars_ext, upper_upper. Qed.

Lemma eq_ignore_upper a b : eq_ignore_ascii_case a b = bool_decide (to_ascii_uppercase a = to_ascii_uppercase b).
Proof.
  apply eq_bool_prop_intro. rewrite bool_decide_spec. unfold eq_ignore_ascii_case. rewrite Is_true_true, String.eqb_eq.
  unfold to_ascii_lowercase, to_ascii_uppercase. split; intros H.
  - apply (f_equal (map_chars upper)) in H. rewrite !map_chars_comp in H. by rewrite !(map_chars_ext _ upper _ upper_lower) in H.
  - apply (f_equal (map_chars lower)) in H. rewrite !map_chars_comp in H. by rewrite !(map_chars_ext _ lower _ lower_upper) in H.
Qed.

(** ** Words *)

Lemma chars_app a b : chars (a +:+ b) = chars a ++ chars b.
Proof. unfold chars. induction a as [|c a IH]; [done|]. change (list_ascii_of_string (String c a +:+ b)) with (c :: list_ascii_of_string (a +:+ b)). by rewrite IH. Qed.

Lemma chars_of_chars l : chars (of_chars l) = l.
Proof. apply list_ascii_of_string_of_list_ascii. Qed.

Lemma of_chars_chars s : of_chars (chars s) = s.
Proof. apply string_of_list_ascii_of_string. Qed.

(** Characters that make one word. *)
Definition solid (l : list ascii) : Prop := Forall (fun c => is_whitespace c = false) l.

Definition word (w : string) : Prop := w <> EmptyString /\ solid (chars w).

Lemma words_solid l rest cur : solid l -> words (l ++ rest) cur = words rest (rev l ++ cur).
Proof.
  revert cur. induction l as [|c l IH]; intros cur; [done|]. intros [Hc Hl]%Forall_cons. cbn [app words].
  rewrite Hc, IH by done. cbn [rev]. by rewrite <- app_assoc.
Qed.

Lemma split_cut a b : split_whitespace (a +:+ " " +:+ b) = split_whitespace a ++ split_whitespace b.
Proof.
  unfold split_whitespace. rewrite chars_app. change (chars (" " +:+ b)) with (" "%char :: chars b).
  assert (H : forall l rest cur, words (l ++ " "%char :: rest) cur = words l cur ++ words rest []); [|apply H].
  induction l as [|c l IH]; intros rest cur.
  - cbn [app words]. change (is_whitespace " ") with true. cbv iota. by destruct cur.
  - cbn [app words]. destruct (is_whitespace c); [|apply IH]. destruct cur; rewrite IH; done.
Qed.

Lemma split_word w : word w -> split_whitespace w = [w].
Proof.
  intros [Hne Hs]. unfold split_whitespace. rewrite <- (app_nil_r (chars w)), words_solid by done. rewrite app_nil_r. cbn [words].
  destruct (rev (chars w)) as [|c l] eqn:E; [|rewrite <- E, rev_involutive; by rewrite of_chars_chars].
  apply (f_equal (@rev ascii)) in E. rewrite rev_involutive in E. destruct Hne. rewrite <- (of_chars_chars w), E. done.
Qed.

Lemma rev_word (cur : list ascii) : cur <> [] -> solid cur -> word (of_chars (rev cur)).
Proof.
  intros Hne Hk. split.
  - intros E. apply (f_equal chars) in E. rewrite chars_of_chars in E. apply (f_equal (@rev ascii)) in E. by rewrite rev_involutive in E.
  - rewrite chars_of_chars. apply List.Forall_forall. intros c Hc. rewrite <- List.in_rev in Hc.
    by apply (proj1 (List.Forall_forall _ _) Hk).
Qed.

Lemma words_word l cur : solid cur -> Forall word (words l cur).
Proof.
  revert cur. induction l as [|c l IH]; intros cur Hcur; cbn [words].
  - destruct cur; [constructor|]. constructor; [by apply rev_word|constructor].
  - destruct (is_whitespace c) eqn:E; [|apply IH; by constructor].
    destruct cur; [apply IH; constructor|]. constructor; [by apply rev_word|]. apply IH. constructor.
Qed.

Lemma split_words s : Forall word (split_whitespace s).
Proof. apply words_word. constructor. Qed.

Lemma split_concat ws : Forall word ws -> split_whitespace (String.concat " " ws) = ws.
Proof.
  induction 1 as [|w ws Hw Hws IH]; [done|]. destruct ws as [|v ws]; [by apply split_word|].
  change (String.concat " " (w :: v :: ws)) with (w +:+ " " +:+ String.concat " " (v :: ws)).
  by rewrite split_cut, IH, (split_word w).
Qed.

Lemma split_appended ws s : Forall word ws ->
  split_whitespace (fold_left (fun acc part => acc +:+ " " +:+ part) ws s) = split_whitespace s ++ ws.
Proof.
  intros Hws. revert s. induction Hws as [|w ws Hw Hws IH]; intros s; cbn [fold_left]; [by rewrite app_nil_r|].
  rewrite IH, split_cut, (split_word w), <- app_assoc by done. done.
Qed.

(** How many words a text has. *)
Definition nwords (s : string) : nat := length (split_whitespace s).

Lemma nwords_solid s : solid (chars s) -> (nwords s <= 1)%nat.
Proof. intros H. unfold nwords. destruct (decide (s = EmptyString)) as [->|Hne]; [cbn; lia|]. rewrite split_word by done. cbn. lia. Qed.

Lemma solid_app a b : solid (chars a) -> solid (chars b) -> solid (chars (a +:+ b)).
Proof. intros Ha Hb. rewrite chars_app. by apply Forall_app_2. Qed.

End TextSpec.
