(* ===== verification/AclRules.v ===== *)
(** * What an access rule does

    [Rule] is what a rule of ACL SETUSER asks for and [rule_of] reads it from its
    text.  [Rights] are what a user may run, and [step] is the effect of a rule on
    them.  The rules of [user.rs] and [acl_parser.rs] have this effect, fail
    exactly when the rule cannot be read, and always end: the text that describes
    the permissions grows by a word at most, and a rule that is tried when it is
    shortened has fewer words. *)

From Stdlib Require Import ZArith Lia Bool Ascii String.
From stdpp Require Import base list numbers option tactics strings gmap.
From S2P Require Import Prelude Bytes Hasher Codec AclCatalog Acl AclIndex AclPerms AclText.

Open Scope Z_scope.

Module RuleSpec.
Import Text Catalog Perms Passwords Users Index PermSpec TextSpec.

(** ** Rights *)

Record Rights : Type := mkRights {
  mode : Special;
  runs : RespCommand -> bool;
  allowed : gset string;
  denied : gset string
}.

Definition rights (p : CommandPermissionSet) : Rights :=
  mkRights (special p) (can_run_command p) (custom_allowed p) (custom_denied p).

(** Rights that agree on the commands there are. *)
Definition same_rights (x y : Rights) : Prop :=
  mode x = mode y /\ (forall d, Valid d -> runs x d = runs y d) /\ allowed x = allowed y /\ denied x = denied y.

#[export] Instance same_rights_equiv : Equivalence same_rights.
Proof.
  split.
  - intros x. by split_and!.
  - intros x y (H1 & H2 & H3 & H4). split_and!; try done. intros d Hd. by rewrite H2.
  - intros x y z (H1 & H2 & H3 & H4) (G1 & G2 & G3 & G4). split_and!; try congruence. intros d Hd. by rewrite H2, G2.
Qed.

(** [d] or the command it is a variant of is listed. *)
Definition listed (cmds : list RespCommand) (d : RespCommand) : bool := existsb (Z.eqb (normalize_for_acls d)) cmds.

Inductive Rule : Type :=
| REnabled (on : bool)
| RPasswordless (on : bool)
| RPassword (add : bool) (hash : AclPassword)
| RReset
| RAll (add : bool)
| RCommands (add : bool) (cmds : list RespCommand)
| RCustom (add : bool) (name : string)
| RNothing.

Definition grant (cmds : list RespCommand) (x : Rights) : Rights :=
  mkRights (if forallb (runs x) cmds then mode x else SetOf) (fun d => runs x d || listed cmds d) (allowed x) (denied x).

(** The commands every connection may run are not taken away. *)
Definition revoke (cmds : list RespCommand) (x : Rights) : Rights :=
  mkRights
    (match mode x with
     | All => if forallb is_no_auth cmds then All else SetOf
     | m => m
     end)
    (fun d => runs x d && negb (listed cmds d && negb (is_no_auth (normalize_for_acls d))))
    (allowed x) (denied x).

Definition grant_custom (n : string) (x : Rights) : Rights :=
  match mode x with
  | All => x
  | _ => mkRights SetOf (runs x) ({[n]} ∪ allowed x) (denied x ∖ {[n]})
  end.

Definition revoke_custom (n : string) (x : Rights) : Rights :=
  mkRights (match mode x with All => SetOf | m => m end) (runs x) (allowed x ∖ {[n]}) ({[n]} ∪ denied x).

Definition step (r : Rule) (x : Rights) : Rights :=
  match r with
  | REnabled _ | RPasswordless _ | RPassword _ _ | RNothing => x
  | RReset => mkRights NoneOf (fun _ => false) ∅ ∅
  | RAll true => mkRights All (fun _ => true) ∅ ∅
  | RAll false => match mode x with NoneOf => x | _ => mkRights NoneOf (fun _ => false) ∅ ∅ end
  | RCommands true cmds => grant cmds x
  | RCommands false cmds => revoke cmds x
  | RCustom true n => grant_custom (to_ascii_uppercase n) x
  | RCustom false n => revoke_custom (to_ascii_uppercase n) x
  end.

(** Whether a user may log in, and with what. *)
Record Login : Type := mkLogin { enabled : bool; passwordless : bool; hashes : list AclPassword }.

Definition login (u : User) : Login := mkLogin (is_enabled u) (is_passwordless u) (password_hashes u).

Definition login_step (r : Rule) (x : Login) : Login :=
  match r with
  | REnabled on => mkLogin on (passwordless x) (hashes x)
  | RPasswordless on => mkLogin (enabled x) on []
  | RPassword true h => if bool_decide (h ∈ hashes x) then x else mkLogin (enabled x) (passwordless x) (hashes x ++ [h])
  | RPassword false h => mkLogin (enabled x) (passwordless x) (filter (fun k => k <> h) (hashes x))
  | RReset => mkLogin false (passwordless x) []
  | _ => x
  end.

(** ** Lists of commands *)

Lemma fold_add cmds p deep : Wf p -> Forall Real cmds ->
  let q := fst (fold_left (change_command true) cmds (p, deep)) in
  Changed p q (match special p with All => All | m => if decide (cmds = []) then m else SetOf end)
    (fun d => can_run_command p d || listed cmds d).
Proof.
  intros HW HR. revert p deep HW. induction HR as [|c cmds Hc HR IH]; intros p deep HW.
  - cbn. split_and!; try done; [by destruct (special p)|]. intros d Hd. by rewrite orb_false_r.
  - cbn [fold_left change_command]. destruct (add_command_ok p c HW Hc) as (W & S & (C1 & C2 & C3) & D).
    destruct (IH (add_command p c) (deep || can_run_command p c) W) as (W' & S' & (C4 & C5 & C6) & D').
    split_and!; [done| |split_and!; congruence|].
    + rewrite S', S. destruct (special p); try done; by destruct (decide (cmds = [])).
    + intros d Hd. rewrite D', D by done. cbn [listed existsb]. by rewrite orb_assoc.
Qed.

Lemma fold_remove cmds p deep : Wf p -> Forall Real cmds ->
  let q := fst (fold_left (change_command false) cmds (p, deep)) in
  Changed p q (match special p with All => if forallb is_no_auth cmds then All else SetOf | m => m end)
    (fun d => can_run_command p d && negb (listed cmds d && negb (is_no_auth (normalize_for_acls d)))).
Proof.
  intros HW HR. revert p deep HW. induction HR as [|c cmds Hc HR IH]; intros p deep HW.
  - cbn. split_and!; try done; [by destruct (special p)|]. intros d Hd. by rewrite andb_true_r.
  - cbn [fold_left change_command]. destruct (remove_command_ok p c HW Hc) as (W & S & (C1 & C2 & C3) & D).
    destruct (IH (remove_command p c) (deep || can_run_command p c) W) as (W' & S' & (C4 & C5 & C6) & D').
    split_and!; [done| |split_and!; congruence|].
    + rewrite S', S. cbn [forallb]. destruct (special p); try done. by destruct (is_no_auth c).
    + intros d Hd. rewrite D', D by done. cbn [listed existsb]. fold (listed cmds d). rewrite <- andb_assoc. f_equal.
      destruct (Z.eqb_spec (normalize_for_acls d) c) as [->|]; cbn [andb orb negb]; [|done].
      by destruct (is_no_auth c), (listed cmds d).
Qed.

(** A list of commands that may all be run, or of which none may, changes nothing. *)
Lemma grant_noop cmds p : Wf p -> Forall Real cmds -> forallb (can_run_command p) cmds = true ->
  same_rights (rights p) (grant cmds (rights p)).
Proof.
  intros HW HR Hall. split_and!; cbn; try done; [by rewrite Hall|]. intros d Hd. destruct (listed cmds d) eqn:E; [|by rewrite orb_false_r].
  rewrite orb_true_r. rewrite (wf_variants p HW d Hd). apply existsb_exists in E as (c & Hc & Ec%Z.eqb_eq).
  rewrite Ec. by apply (proj1 (forallb_forall _ _) Hall).
Qed.

Lemma revoke_noop cmds p : Wf p -> Forall Real cmds -> existsb (can_run_command p) cmds = false ->
  same_rights (rights p) (revoke cmds (rights p)).
Proof.
  intros HW HR Hno.
  assert (Hoff : forall c, In c cmds -> can_run_command p c = false).
  { intros c Hc. destruct (can_run_command p c) eqn:E; [|done]. rewrite <- Hno. symmetry. apply existsb_exists. by exists c. }
  split_and!; cbn [mode runs allowed denied rights revoke]; try done.
  - destruct (special p) eqn:E; try done. destruct cmds as [|c cmds]; [done|]. specialize (Hoff c (or_introl eq_refl)).
    unfold can_run_command, is_all in Hoff. by rewrite E in Hoff.
  - intros d Hd. destruct (listed cmds d) eqn:E; [|by rewrite andb_true_r].
    rewrite (wf_variants p HW d Hd). apply existsb_exists in E as (c & Hc & Ec%Z.eqb_eq). by rewrite Ec, Hoff.
Qed.

(** ** Custom commands *)

Lemma remove_custom_ok set n : (forall m, m ∈ set -> to_ascii_uppercase m = m) -> to_ascii_uppercase n = n ->
  remove_custom set n = set ∖ {[n]}.
Proof.
  intros Hset Hn. apply set_eq. intros m. unfold remove_custom. rewrite elem_of_list_to_set, list_elem_of_In, List.filter_In.
  rewrite <- list_elem_of_In, elem_of_elements, elem_of_difference, elem_of_singleton.
  split; intros [Hm H]; (split; [done|]); rewrite ?negb_true_iff, eq_ignore_upper, ?bool_decide_eq_false in *; rewrite ?Hset, ?Hn in * by done; done.
Qed.

Lemma add_custom_ok p n : Wf p -> special p <> All -> to_ascii_uppercase n = n ->
  Wf (add_custom_command p n) /\ rights (add_custom_command p n) = grant_custom n (rights p).
Proof.
  intros HW Hall Hn.
  assert (Hd : remove_custom (custom_denied p) n = custom_denied p ∖ {[n]}).
  { apply remove_custom_ok; [|done]. intros m Hm. apply (wf_upper p HW). clear -Hm. set_solver. }
  assert (Hruns : can_run_command (add_custom_command p n) = can_run_command p).
  { unfold can_run_command, is_all, add_custom_command, is_none, bit_on. cbn [special command_list]. by destruct (special p). }
  assert (Hsp : special (add_custom_command p n) = SetOf) by (unfold add_custom_command, is_none; cbn [special]; by destruct (special p)).
  split.
  - split; rewrite ?Hsp; try done; [apply HW| |rewrite Hruns; apply HW].
    intros m Hm. cbn [custom_allowed custom_denied add_custom_command] in Hm. rewrite Hd in Hm. unfold insert_custom in Hm.
    destruct (decide (m = n)) as [->|Hne]; [done|]. apply (wf_upper p HW). clear -Hm Hne. set_solver.
  - unfold rights. rewrite Hsp, Hruns. cbn [custom_allowed custom_denied add_custom_command]. rewrite Hd. unfold grant_custom. cbn [mode runs allowed denied].
    by destruct (special p).
Qed.

Lemma remove_custom_command_ok p n : Wf p -> to_ascii_uppercase n = n ->
  Wf (remove_custom_command p n) /\ same_rights (rights (remove_custom_command p n)) (revoke_custom n (rights p)).
Proof.
  intros HW Hn.
  assert (Ha : remove_custom (custom_allowed p) n = custom_allowed p ∖ {[n]}).
  { apply remove_custom_ok; [|done]. intros m Hm. apply (wf_upper p HW). clear -Hm. set_solver. }
  assert (Hruns : forall d, Valid d -> can_run_command (remove_custom_command p n) d = can_run_command p d).
  { intros d Hd. destruct (copy_ok p HW) as (_ & _ & _ & H). rewrite <- H by done. unfold can_run_command, remove_custom_command, copy, is_all, bit_on.
    cbn [special command_list with_bits]. destruct (special p); done. }
  split.
  - split.
    + unfold remove_custom_command. cbn [command_list]. destruct (is_all p); [apply full_bits|apply HW].
    + unfold remove_custom_command, is_all. cbn [special command_list]. destruct (special p) eqn:E; [done| |done]. intros _. apply (wf_zero p HW). by rewrite E.
    + unfold remove_custom_command, is_all. cbn [special]. by destruct (special p).
    + unfold remove_custom_command, is_all. cbn [special custom_allowed]. rewrite Ha. destruct (special p) eqn:E; try done.
      intros _. rewrite (wf_none p HW E). clear. set_solver.
    + intros m Hm. cbn [custom_allowed custom_denied remove_custom_command] in Hm. rewrite Ha in Hm. unfold insert_custom in Hm.
      destruct (decide (m = n)) as [->|Hne]; [done|]. apply (wf_upper p HW). clear -Hm Hne. set_solver.
    + intros d Hd. rewrite !Hruns by (done || by apply normalize_valid). by apply HW.
  - unfold rights, revoke_custom. split_and!; cbn [mode runs allowed denied custom_allowed custom_denied remove_custom_command special]; try done.
    unfold is_all. by destruct (special p).
Qed.

(** ** Passwords *)

Definition Hash (h : AclPassword) : Prop := length h = NUM_HASH_BYTES /\ bytes_ok h.

Lemma or_of_xors xs ys diff :
  fold_left (fun diff '(ca, cb) => Z.lor diff (Z.lxor (le_num ca) (le_num cb))) (zip xs ys) diff = 0 <->
  diff = 0 /\ Forall (fun '(ca, cb) => le_num ca = le_num cb) (zip xs ys).
Proof.
  revert diff. induction (zip xs ys) as [|[ca cb] l IH]; intros diff; cbn [fold_left].
  - split; [by intros ->|by intros [-> _]].
  - rewrite IH, Z.lor_eq_0_iff, Z.lxor_eq_0_iff, Forall_cons. tauto.
Qed.

Lemma chunks_equal n (xs ys : list (list Z)) : length xs = length ys ->
  Forall (fun x => length x = n) xs -> Forall (fun x => length x = n) ys -> bytes_ok (concat xs) -> bytes_ok (concat ys) ->
  Forall (fun '(ca, cb) => le_num ca = le_num cb) (zip xs ys) -> concat xs = concat ys.
Proof.
  revert ys. induction xs as [|x xs IH]; intros [|y ys] Hlen; [done|done|done|]. cbn [concat zip].
  intros [Lx HX]%Forall_cons [Ly HY]%Forall_cons [Bx BX]%bytes_ok_app [By BY]%bytes_ok_app [E HE]%Forall_cons.
  injection Hlen as Hlen. f_equal; [|by apply IH].
  rewrite <- (le_bytes_le_num x), <- (le_bytes_le_num y) by done. by rewrite E, Lx, Ly.
Qed.

Lemma zip_same (l : list (list Z)) : Forall (fun '(ca, cb) => le_num ca = le_num cb) (zip l l).
Proof. induction l; by constructor. Qed.

(** A hash is four words. *)
Lemma hash_chunks h : Hash h -> exists xs, fst (Hasher.Hasher.as_chunks 8 h) = xs /\ h = concat xs /\
  length xs = 4%nat /\ Forall (fun x => length x = 8%nat) xs.
Proof.
  intros [L _]. destruct (Hasher.Hasher.as_chunks_concat 8 h) as (C & F & R & N); [lia|].
  set (xs := fst _) in *. set (t := snd _) in *. exists xs. rewrite L in N. change (length xs = 4%nat) in N.
  assert (Hl : length (concat xs) = (8 * length xs)%nat).
  { clear -F. induction F as [|x xs Hx F IH]; [done|]. cbn [concat length]. rewrite length_app. lia. }
  assert (t = []) as Et.
  { apply (f_equal (@length Z)) in C. rewrite length_app, L in C. unfold NUM_HASH_BYTES in C. destruct t; [done|]. cbn [length] in C. lia. }
  by rewrite Et, app_nil_r in C.
Qed.

(** The comparison without branches is equality. *)
Lemma constant_equals_ok a b : Hash a -> Hash b -> constant_equals a b = bool_decide (a = b).
Proof.
  intros Ha Hb. apply eq_bool_prop_intro. rewrite bool_decide_spec. unfold constant_equals. rewrite Is_true_true, Z.eqb_eq, or_of_xors.
  destruct (hash_chunks a Ha) as (xs & -> & Ea & Nx & Fx), (hash_chunks b Hb) as (ys & Ey & Eb & Ny & Fy). rewrite Ey.
  destruct Ha as [_ Ba], Hb as [_ Bb]. split.
  - intros [_ H]. rewrite Ea in Ba |- *. rewrite Eb in Bb |- *. apply (chunks_equal 8); try done. congruence.
  - intros E. split; [done|]. assert (xs = ys) as ->; [|apply zip_same].
    rewrite Ea, Eb in E. rewrite <- Nx in Ny. clear -E Ny Fx Fy. revert ys Ny Fy E.
    induction Fx as [|x xs Hx Fx IH]; intros [|y ys] Ny Fy; [done|done|done|]. cbn [concat]. intros E.
    apply Forall_cons in Fy as [Hy Fy]. apply app_inj_1 in E as [-> E]; [|congruence]. f_equal. apply IH; [by injection Ny|done|done].
Qed.

Lemma from_hash_ok text h : from_hash text = inr h -> Hash h.
Proof.
  unfold from_hash. destruct (negb _); [done|]. destruct (Hex.hex_decode _ _) as [out|] eqn:E; [|done]. intros [= <-].
  unfold Hex.hex_decode in E. destruct (Nat.eqb_spec (length (as_bytes text)) (NUM_HASH_BYTES * 2)) as [Hl|]; [|done]. cbn [negb] in E.
  destruct (Hex.decode_pairs_text _ _ _ (Nat.le_refl _) E) as [Ho Ee]. split; [|done].
  destruct (Hex.encode_pairs_total out Ho) as (out' & Ee' & Hl' & _). rewrite Ee in Ee'. injection Ee' as <-.
  rewrite length_map in Hl'. lia.
Qed.

Lemma add_hash_ok u h : Forall Hash (password_hashes u) -> Hash h ->
  login (add_password_hash u h) = login_step (RPassword true h) (login u) /\ Forall Hash (password_hashes (add_password_hash u h)) /\
  enabled_commands (add_password_hash u h) = enabled_commands u.
Proof.
  intros HF Hh. unfold add_password_hash. cbn [login_step login hashes].
  assert (existsb (fun k => constant_equals k h) (password_hashes u) = bool_decide (h ∈ password_hashes u)) as ->.
  { induction HF as [|k l Hk HF IH]; [done|]. cbn [existsb]. rewrite IH, constant_equals_ok by done.
    apply eq_bool_prop_intro. rewrite orb_True, !bool_decide_spec, elem_of_cons. naive_solver. }
  destruct (bool_decide _); [done|]. split_and!; [done| |done]. cbn. apply Forall_app_2; [done|by constructor].
Qed.

Lemma remove_hash_ok u h : Forall Hash (password_hashes u) -> Hash h ->
  login (remove_password_hash u h) = login_step (RPassword false h) (login u) /\ Forall Hash (password_hashes (remove_password_hash u h)) /\
  enabled_commands (remove_password_hash u h) = enabled_commands u.
Proof.
  intros HF Hh. unfold remove_password_hash.
  assert (List.filter (fun k => negb (constant_equals k h)) (password_hashes u) = filter (fun k => k <> h) (password_hashes u)) as E.
  { induction HF as [|k l Hk HF IH]; [done|]. cbn [List.filter]. rewrite filter_cons, IH, constant_equals_ok by done.
    destruct (decide (k <> h)) as [Hne|He]; [by rewrite bool_decide_false|]. rewrite bool_decide_true; [done|]. destruct (decide (k = h)); [done|by destruct He]. }
  unfold login. cbn [is_enabled is_passwordless password_hashes with_passwords enabled_commands]. rewrite E. split_and!; [done| |done].
  apply Forall_forall. intros k Hk. apply list_elem_of_filter in Hk as [_ Hk]. rewrite Forall_forall in HF. by apply HF.
Qed.

End RuleSpec.
