(* ===== verification/AclSpec.v ===== *)
(** * The access rules are carried out

    The rules of a user ([user.rs], [acl_parser.rs]) refine [RuleSpec.step]. *)

From Stdlib Require Import ZArith Lia Bool Ascii String.
From stdpp Require Import base list numbers option tactics strings gmap.
From S2P Require Import Prelude Bytes Hasher Codec AclCatalog Acl AclIndex AclPerms AclText AclRules.

Open Scope Z_scope.

Module AclSpec.
Import Text Catalog Perms Passwords Users Index PermSpec TextSpec RuleSpec.

(** What the table of commands has to satisfy. *)
Record CatalogOk (es : list CmdEntry) : Prop := {
  cat_numbered : Numbered es;
  cat_real : Forall (fun e => normalize_for_acls (cmd e) = cmd e) es;
  cat_words : Forall (fun e => solid (chars (name e))) es
}.

Definition WfUser (u : User) : Prop := Wf (enabled_commands u) /\ Forall Hash (password_hashes u).

(** [u'] is [u] after the rule. *)
Definition Effect (r : Rule) (u u' : User) : Prop :=
  WfUser u' /\ same_rights (rights (enabled_commands u')) (step r (rights (enabled_commands u))) /\
  login u' = login_step r (login u) /\ user_name u' = user_name u.

(** The words that describe the permissions. *)
Definition desc_words (u : User) : nat := nwords (description (enabled_commands u)).

(** A shortening that has an answer for every text of at most [b] words. *)
Definition Total (R : CommandPermissionSet -> string -> bool -> option string) (b : nat) : Prop :=
  forall set d deep, (nwords d <= b)%nat -> exists d', R set d deep = Some d' /\ (nwords d' <= nwords d)%nat.

Lemma merge_words p upd : solid (chars upd) -> (nwords (merge_description p upd) <= nwords (description p) + 1)%nat.
Proof.
  intros Hs%nwords_solid. unfold merge_description. destruct (is_empty (description p)); [lia|].
  unfold nwords in *. rewrite split_cut, length_app. lia.
Qed.

Lemma described p d : Wf p -> Wf (with_description p d).
Proof. intros [H1 H2 H3 H4 H5 H6]. by split. Qed.

(** The change of the permissions to [q], with a new description. *)
Lemma described_effect R b r u q upd deep : Total R b -> WfUser u -> Wf q -> description q = description (enabled_commands u) ->
  same_rights (rights q) (step r (rights (enabled_commands u))) -> login_step r (login u) = login u ->
  solid (chars upd) -> (desc_words u + 1 <= b)%nat ->
  exists d, R q (merge_description q upd) deep = Some d /\
    Effect r u (with_commands u (with_description q d)) /\ (desc_words (with_commands u (with_description q d)) <= desc_words u + 1)%nat.
Proof.
  intros HR [_ Hh] HW Hd Hs Hl Hu Hb. pose proof (merge_words q upd Hu) as Hm. rewrite Hd in Hm.
  destruct (HR q (merge_description q upd) deep) as (d & E & Hle); [unfold desc_words in Hb; lia|]. exists d. split; [done|].
  split; [|unfold desc_words in *; cbn [enabled_commands with_commands description with_description]; lia]. split_and!; [split; [by apply described|done]|done|by rewrite Hl|done].
Qed.

Lemma apply_commands_ok R b u cmds upd add : Total R b -> WfUser u -> Forall Real cmds -> solid (chars upd) -> (desc_words u + 1 <= b)%nat ->
  exists u', apply_commands R u cmds upd add = Some u' /\ Effect (RCommands add cmds) u u' /\ (desc_words u' <= desc_words u + 1)%nat.
Proof.
  intros HR HU Hc Hu Hb. unfold apply_commands. set (p := enabled_commands u). pose proof HU as [HW Hh]. fold p in HW.
  assert (Hl : login_step (RCommands add cmds) (login u) = login u) by done.
  destruct (if add then _ else _) eqn:Enoop.
  { exists u. split; [done|]. split; [|lia]. split_and!; [done| |done|done]. destruct add; [by apply grant_noop|]. apply negb_true_iff in Enoop. by apply revoke_noop. }
  assert (Hq : forall deep, exists q deep', fold_left (change_command add) cmds (p, deep) = (q, deep') /\ Wf q /\ description q = description p /\
    same_rights (rights q) (step (RCommands add cmds) (rights p))).
  { intros deep. destruct (fold_left (change_command add) cmds (p, deep)) as [q deep'] eqn:E. exists q, deep'. split; [done|]. destruct add.
    - destruct (fold_add cmds p deep HW Hc) as (W & S & (C1 & C2 & C3) & D). rewrite E in *. cbn [fst] in *. split_and!; try done.
      split_and!; try done. cbn [mode step grant runs rights]. rewrite Enoop, S. destruct (special p) eqn:Es; [|destruct (decide (cmds = [])) as [->|]; done..].
      exfalso. apply eq_true_false_abs in Enoop; [done|]. apply forallb_forall. intros c _. unfold can_run_command, is_all. by rewrite Es.
    - destruct (fold_remove cmds p deep HW Hc) as (W & S & (C1 & C2 & C3) & D). rewrite E in *. by split_and!. }
  destruct (Hq false) as (q & deep & -> & W & Hd & Hs).
  destruct (described_effect R b (RCommands add cmds) u q upd deep) as (d & -> & HE & Hle); try done. by eexists.
Qed.

Lemma chars_map f s : chars (map_chars f s) = map f (chars s).
Proof. unfold chars. induction s as [|c s IH]; [done|]. cbn. by f_equal. Qed.

Lemma custom_solid n : is_valid_custom_command_name n = true -> solid (chars (to_ascii_lowercase (to_ascii_uppercase n))).
Proof.
  intros H. unfold to_ascii_lowercase, to_ascii_uppercase. rewrite !chars_map. unfold solid. rewrite !Forall_map.
  assert (Hc : forall c, is_ascii_alphanumeric c || existsb (Ascii.eqb c) ["."; "_"; "-"; "|"]%char = true -> is_whitespace (lower (upper c)) = false).
  { intros c Hc. pose proof (all_ascii (fun c => implb (is_ascii_alphanumeric c || existsb (Ascii.eqb c) ["."; "_"; "-"; "|"]%char) (negb (is_whitespace (lower (upper c))))) eq_refl c) as Hall.
    cbv beta in Hall. rewrite Hc in Hall. by apply negb_true_iff. }
  unfold is_valid_custom_command_name in H. destruct (chars n) as [|c l]; [done|]. apply andb_true_iff in H as [H1 H2]. constructor.
  - apply Hc. by rewrite H1.
  - apply Forall_forall. intros x Hx. apply Hc. rewrite forallb_forall in H2. apply H2. by apply list_elem_of_In.
Qed.

Lemma sign_solid add s : solid (chars s) -> solid (chars (sign add +:+ s)).
Proof. intros H. apply solid_app; [|done]. destruct add; by repeat constructor. Qed.

(** A custom command that is listed already changes nothing. *)
Lemma custom_noop p N (add : bool) : Wf p ->
  (if add then is_all p || (bool_decide (N ∈ custom_allowed p) && negb (bool_decide (N ∈ custom_denied p)))
   else negb (is_all p) && bool_decide (N ∈ custom_denied p) && negb (bool_decide (N ∈ custom_allowed p))) = true ->
  rights p = (if add then grant_custom else revoke_custom) N (rights p).
Proof.
  intros HW H. destruct add.
  - unfold grant_custom, is_all in *. cbn [mode rights] in *. destruct (special p) eqn:E; [done| |]; cbn [orb] in H.
    all: apply andb_true_iff in H as [Ha%bool_decide_eq_true Hd%negb_true_iff%bool_decide_eq_false].
    + rewrite (wf_none p HW E) in Ha. by apply elem_of_empty in Ha.
    + unfold rights. rewrite E. cbn [runs allowed denied]. f_equal; [clear -Ha|clear -Hd]; set_solver.
  - unfold revoke_custom, is_all in *. cbn [mode rights runs allowed denied] in *.
    destruct (special p) eqn:E; cbn [negb andb] in H; [done|..].
    all: apply andb_true_iff in H as [Hd%bool_decide_eq_true Ha%negb_true_iff%bool_decide_eq_false].
    all: unfold rights; rewrite E; f_equal; [clear -Ha|clear -Hd]; set_solver.
Qed.

Lemma apply_custom_ok R b u n add : Total R b -> WfUser u -> is_valid_custom_command_name n = true -> (desc_words u + 1 <= b)%nat ->
  exists u', apply_custom_command R u n add = Done u' /\ Effect (RCustom add n) u u' /\ (desc_words u' <= desc_words u + 1)%nat.
Proof.
  intros HR HU Hn Hb. unfold apply_custom_command. rewrite Hn. cbn [negb]. set (p := enabled_commands u). pose proof HU as [HW Hh]. fold p in HW.
  set (N := to_ascii_uppercase n). assert (HN : to_ascii_uppercase N = N) by apply uppercase_idem.
  destruct (if add then _ else _) eqn:Enoop.
  all: assert (Hstep : step (RCustom add n) (rights p) = (if add then grant_custom else revoke_custom) N (rights p)) by (by destruct add).
  { exists u. split; [done|]. split; [|lia]. split_and!; [done| |done|done]. fold p. rewrite Hstep, <- (custom_noop p N add HW Enoop). done. }
  assert (Hq : exists q, (if add then add_custom_command p N else remove_custom_command p N) = q /\ Wf q /\ description q = description p /\
    same_rights (rights q) (step (RCustom add n) (rights p))).
  { eexists. split; [done|]. rewrite Hstep. destruct add.
    - destruct (add_custom_ok p N HW) as [W E]; [|done|by rewrite E]. intros E. unfold is_all in Enoop. by rewrite E in Enoop.
    - by destruct (remove_custom_command_ok p N HW HN) as [W E]. }
  destruct Hq as (q & -> & W & Hd & Hs).
  destruct (described_effect R b (RCustom add n) u q (sign add +:+ to_ascii_lowercase N) false) as (d & -> & HE & Hle); try done.
  - by apply sign_solid, custom_solid.
  - by eexists.
Qed.

(** ** Reading a rule *)

Section Rules.

Variable es : list CmdEntry.
Variable sha256 : list Z -> list Z.

(** The commands a rule that names [infos] is about: a command stands for its
    subcommands too. *)
Definition covered (infos : list CmdEntry) : list RespCommand :=
  flat_map (fun info =>
    cmd info :: match parent info with
                | None => map cmd (List.filter (fun e => bool_decide (parent e = Some (cmd info))) es)
                | Some _ => []
                end) infos.

(** [+@name] and [-@name]. *)
Definition category_rule (add : bool) (category_name : string) : AclError + Rule :=
  match get_acl_category_by_name category_name with
  | None => inl (CategoryDoesNotExist category_name)
  | Some category =>
      inr (if category =? ALL then RAll add else RCommands add (covered (List.filter (has_category category) es)))
  end.

(** [+name] and [-name]. *)
Definition named_rule (add : bool) (command_name : string) : AclError + Rule :=
  match try_parse_command_for_acl (build es) command_name with
  | inl e => inl e
  | inr (Some command) =>
      match try_get_resp_command_info (build es) command with
      | Some info => inr (RCommands add (covered [info]))
      | None => inl (ErrAcl ACL_INFO_ERR)
      end
  | inr None =>
      if is_valid_custom_command_name command_name then inr (RCustom add command_name)
      else inl (CommandDoesNotExist command_name)
  end.

Definition password_rule (first : ascii) (text : string) : AclError + Rule :=
  match (if existsb (Ascii.eqb first) ["#"; "!"]%char then from_hash text else inr (from_string sha256 text)) with
  | inl e => inl (parsing_err (acl_error_text e))
  | inr h => inr (RPassword (existsb (Ascii.eqb first) ["#"; ">"]%char) h)
  end.

Definition rule_of (op : string) : AclError + Rule :=
  match chars op with
  | [] => inr RNothing
  | first :: rest =>
      if eq_ignore_ascii_case op "on" then inr (REnabled true)
      else if eq_ignore_ascii_case op "off" then inr (REnabled false)
      else if eq_ignore_ascii_case op "nopass" then inr (RPasswordless true)
      else if eq_ignore_ascii_case op "reset" then inr RReset
      else if eq_ignore_ascii_case op "resetpass" then inr (RPasswordless false)
      else if existsb (Ascii.eqb first) ["#"; "!"; ">"; "<"]%char then password_rule first (of_chars rest)
      else if existsb (Ascii.eqb first) ["-"; "+"]%char then
        match rest with
        | "@"%char :: category_name => category_rule (Ascii.eqb first "+") (of_chars category_name)
        | _ => named_rule (Ascii.eqb first "+") (of_chars rest)
        end
      else if String.eqb op "~*" || eq_ignore_ascii_case op "allkeys" || eq_ignore_ascii_case op "resetkeys" then inr RNothing
      else inl (UnknownOperation op)
  end.

Hypothesis Hcat : CatalogOk es.
Hypothesis Hsha : forall l, Hash (sha256 l).

Lemma covered_real infos : (forall e, e ∈ infos -> e ∈ es) -> Forall Real (covered infos).
Proof.
  intros Hsub. destruct Hcat as [[Hn _] Hr _]. rewrite Forall_forall in Hn, Hr.
  assert (H : forall e, e ∈ es -> Real (cmd e)) by (intros e He; split; [by apply Hn|by apply Hr]).
  apply Forall_forall. intros c Hc. apply list_elem_of_In in Hc. apply in_flat_map in Hc as (info & Hi & Hc). apply list_elem_of_In in Hi.
  destruct Hc as [<-|Hc]; [by apply H, Hsub|]. destruct (parent info); [done|]. apply in_map_iff in Hc as (e & <- & He).
  apply List.filter_In in He as [He _]. apply H. by apply list_elem_of_In.
Qed.

Lemma covered_details infos : determine_command_details (build es) infos = covered infos.
Proof.
  unfold determine_command_details, covered. induction infos as [|e l IH]; [done|]. cbn [flat_map]. rewrite IH. do 2 f_equal.
  destruct (parent e); [done|]. f_equal. apply children_entries, Hcat.
Qed.

Lemma category_known n category : get_acl_category_by_name n = Some category -> category <> 0 /\ solid (chars (get_name_by_acl_category category)).
Proof.
  intros H. unfold get_acl_category_by_name in H. apply fmap_Some in H as ([nm c] & H & ->). apply List.find_some in H as [H _].
  assert (Hall : forallb (fun '(_, c) => negb (c =? 0) && forallb (fun x => negb (is_whitespace x)) (chars (get_name_by_acl_category c))) ACL_CATEGORIES = true) by (by vm_compute).
  rewrite forallb_forall in Hall. specialize (Hall _ H). cbn [snd] in *. apply andb_true_iff in Hall as [H0 Hs]. split; [lia|].
  apply Forall_forall. intros x Hx. rewrite forallb_forall in Hs. apply negb_true_iff, Hs. by apply list_elem_of_In.
Qed.

(** ** One rule *)

(** The rule fails as [rule_of] says, or has its effect. *)
Definition Refines (spec : AclError + Rule) (u : User) (out : Outcome User) : Prop :=
  match spec with
  | inl e => out = Failed e
  | inr r => exists u', out = Done u' /\ Effect r u u' /\ (desc_words u' <= desc_words u + 1)%nat
  end.

Lemma all_effect u : WfUser u -> Effect (RAll true) u (with_commands u all).
Proof. intros [HW Hh]. split_and!; [split; [apply wf_all_set|done]|by split_and!|done|done]. Qed.

Lemma none_rights : same_rights (rights none) (mkRights NoneOf (fun _ => false) ∅ ∅).
Proof. split_and!; try done. intros d Hd. by apply none_runs; [apply wf_none_set|..]. Qed.

Lemma unchanged r u : WfUser u -> same_rights (rights (enabled_commands u)) (step r (rights (enabled_commands u))) ->
  login_step r (login u) = login u -> Refines (inr r) u (Done u).
Proof. intros HU Hs Hl. exists u. split; [done|]. split; [by split_and!|lia]. Qed.

(** Granting to a user with every right, and revoking from one with none. *)
Lemma category_noop u add cmds : WfUser u -> Forall Real cmds ->
  (add && is_all (enabled_commands u)) || (negb add && is_none (enabled_commands u)) = true ->
  Refines (inr (RAll add)) u (Done u) /\ Refines (inr (RCommands add cmds)) u (Done u).
Proof.
  intros HU HR H. pose proof HU as [HW _]. set (p := enabled_commands u) in *. unfold is_all, is_none in H.
  destruct add, (special p) eqn:E; try done; split; apply unchanged; try done; fold p.
  - destruct (wf_all p HW E) as [Ea Ed]. unfold rights. rewrite E, Ea, Ed. split_and!; try done. cbn. intros d _. unfold can_run_command, is_all. by rewrite E.
  - apply grant_noop; [done..|]. apply forallb_forall. intros c _. unfold can_run_command, is_all. by rewrite E.
  - unfold rights. cbn [step mode]. by rewrite E.
  - apply revoke_noop; [done..|]. destruct (existsb _ cmds) eqn:Ex; [|done]. apply existsb_exists in Ex as (c & Hc & Hr).
    apply list_elem_of_In in Hc. rewrite Forall_forall in HR. destruct (HR c Hc) as [Hv _]. by rewrite (none_runs p c HW E Hv) in Hr.
Qed.

Lemma category_ok R b u n add : Total R b -> WfUser u -> (desc_words u + 1 <= b)%nat ->
  Refines (category_rule add n) u
    (match get_acl_category_by_name n with None => Failed (CategoryDoesNotExist n) | Some category => apply_category (build es) R u category add end).
Proof.
  intros HR HU Hb. unfold category_rule. destruct (get_acl_category_by_name n) as [category|] eqn:E; [|done].
  destruct (category_known n category E) as [Hc Hs]. unfold apply_category. destruct (Z.eqb_spec category 0) as [|_]; [done|]. rewrite andb_false_r.
  assert (Hreal : Forall Real (covered (List.filter (has_category category) es))).
  { apply covered_real. intros e He. apply list_elem_of_In, List.filter_In in He as [He _]. by apply list_elem_of_In. }
  destruct ((add && _) || _) eqn:Enoop.
  { destruct (category_noop u add _ HU Hreal Enoop) as [H1 H2]. by destruct (category =? ALL). }
  pose proof HU as [HW Hh]. destruct (category =? ALL).
  - eexists. split; [done|]. destruct add; (split; [|unfold desc_words; cbn [enabled_commands with_commands]; change (nwords (description all)) with 1%nat; change (nwords (description none)) with 0%nat; lia]).
    + by apply all_effect.
    + unfold is_none in Enoop. split_and!; [split; [apply wf_none_set|done]| |done|done]. cbn [enabled_commands with_commands step mode rights].
      destruct (special (enabled_commands u)); [apply none_rights|done|apply none_rights].
  - rewrite category_entries by apply Hcat. cbn [and_then or_fuel]. rewrite covered_details.
    destruct (apply_commands_ok R b u (covered (List.filter (has_category category) es)) (sign add +:+ "@" +:+ get_name_by_acl_category category) add)
      as (u' & -> & HE & Hle); [done..| |done|by exists u'].
    apply sign_solid, solid_app; [by repeat constructor|done].
Qed.

Lemma named_ok R b u n add : Total R b -> WfUser u -> (desc_words u + 1 <= b)%nat ->
  Refines (named_rule add n) u (apply_named (build es) R u n add).
Proof.
  intros HR HU Hb. unfold named_rule, apply_named. destruct (try_parse_command_for_acl (build es) n) as [e|[command|]]; [done| |].
  - unfold apply_command. destruct (try_get_resp_command_info (build es) command) as [info|] eqn:E; [|done].
    apply found_entry in E; [|apply Hcat]. rewrite covered_details.
    destruct (apply_commands_ok R b u (covered [info]) (sign add +:+ name info) add) as (u' & -> & HE & Hle); try done.
    + apply covered_real. intros e He. apply list_elem_of_singleton in He. by subst e.
    + apply sign_solid. destruct Hcat as [_ _ Hw]. rewrite Forall_forall in Hw. by apply Hw.
    + by exists u'.
  - destruct (is_valid_custom_command_name n) eqn:E; [|done].
    destruct (apply_custom_ok R b u n add) as (u' & -> & HE & Hle); try done. by exists u'.
Qed.

Lemma password_ok u first text : WfUser u ->
  Refines (password_rule first text) u
    (and_then (if existsb (Ascii.eqb first) ["#"; "!"]%char
               then match from_hash text with inr pw => Done pw | inl e => Failed (parsing_err (acl_error_text e)) end
               else Done (from_string sha256 text))
       (fun pw => Done (if existsb (Ascii.eqb first) ["#"; ">"]%char then add_password_hash u pw else remove_password_hash u pw))).
Proof.
  intros [HW Hh]. unfold password_rule.
  assert (H : forall pw, Hash pw -> Refines (inr (RPassword (existsb (Ascii.eqb first) ["#"; ">"]%char) pw)) u
    (Done (if existsb (Ascii.eqb first) ["#"; ">"]%char then add_password_hash u pw else remove_password_hash u pw))).
  { intros pw Hpw. eexists. split; [done|]. unfold desc_words. destruct (existsb _ _).
    - destruct (add_hash_ok u pw Hh Hpw) as (L & F & E). rewrite E. split; [|lia]. split_and!; [by split; [rewrite E|]|by rewrite E|done|].
      unfold add_password_hash. by destruct (existsb _ _).
    - destruct (remove_hash_ok u pw Hh Hpw) as (L & F & E). rewrite E. split; [|lia]. split_and!; [by split; [rewrite E|]|by rewrite E|done|done]. }
  destruct (existsb (Ascii.eqb first) ["#"; "!"]%char); [|apply H, Hsha].
  destruct (from_hash text) as [e|pw] eqn:E; [done|]. by apply H, (from_hash_ok text).
Qed.

Lemma op_ok R b u op : Total R b -> WfUser u -> (desc_words u + 1 <= b)%nat ->
  Refines (rule_of op) u (apply_acl_op_to_user (build es) sha256 R u op).
Proof.
  intros HR HU Hb. pose proof HU as [HW Hh]. unfold rule_of, apply_acl_op_to_user. unfold tail_from.
  destruct (chars op) as [|first rest]; [by apply unchanged|]. cbn [drop].
  assert (Hplain : forall r u', enabled_commands u' = enabled_commands u -> Forall Hash (password_hashes u') ->
    step r (rights (enabled_commands u)) = rights (enabled_commands u) -> login u' = login_step r (login u) -> user_name u' = user_name u ->
    Refines (inr r) u (Done u')).
  { intros r u' E F S L Nm. exists u'. split; [done|]. unfold desc_words. split; [|rewrite E; lia]. split_and!; [by split; [rewrite E|]|by rewrite E, S|done|done]. }
  destruct (eq_ignore_ascii_case op "on"); [by apply Hplain|].
  destruct (eq_ignore_ascii_case op "off"); [by apply Hplain|].
  destruct (eq_ignore_ascii_case op "nopass"); [by apply Hplain; try constructor|].
  destruct (eq_ignore_ascii_case op "reset").
  { eexists. split; [done|]. split; [|unfold desc_words; cbn; lia]. split_and!; [split; [apply wf_none_set|constructor]|apply none_rights|done|done]. }
  destruct (eq_ignore_ascii_case op "resetpass"); [by apply Hplain; try constructor|].
  destruct (existsb (Ascii.eqb first) ["#"; "!"; ">"; "<"]%char); [by apply password_ok|].
  destruct (existsb (Ascii.eqb first) ["-"; "+"]%char).
  { pose proof (named_ok R b u (of_chars rest) (Ascii.eqb first "+") HR HU Hb) as Hn. destruct rest as [|second rest]; [done|].
    destruct (Ascii.eqb_spec second "@") as [->|Hne]; [by apply (category_ok R b)|].
    destruct second as [[] [] [] [] [] [] [] []]; first [done|by destruct Hne]. }
  destruct (String.eqb op "~*"); [by apply unchanged|].
  destruct (eq_ignore_ascii_case op "allkeys"); [by apply unchanged|].
  destruct (eq_ignore_ascii_case op "resetkeys"); [by apply unchanged|done].
Qed.

(** ** Several rules *)

Fixpoint rules_of (ops : list string) : AclError + list Rule :=
  match ops with
  | [] => inr []
  | op :: ops' =>
      match rule_of op with
      | inl e => inl e
      | inr r => match rules_of ops' with inl e => inl e | inr rs => inr (r :: rs) end
      end
  end.

(** The rules in turn. *)
Definition Effects (rs : list Rule) (u u' : User) : Prop :=
  WfUser u' /\ same_rights (rights (enabled_commands u')) (fold_left (fun x r => step r x) rs (rights (enabled_commands u))) /\
  login u' = fold_left (fun x r => login_step r x) rs (login u) /\ user_name u' = user_name u.

Lemma step_same r x y : (forall cmds add, r = RCommands add cmds -> Forall Real cmds) -> same_rights x y -> same_rights (step r x) (step r y).
Proof.
  intros Hr (Hm & Hruns & Ha & Hd). destruct r as [| | | |add|add cmds|add n|]; try done.
  - cbn. rewrite Hm. destruct add; [done|]. destruct (mode y) eqn:E; try done. split_and!; first [done|congruence].
  - specialize (Hr cmds add eq_refl). assert (Hf : forallb (runs x) cmds = forallb (runs y) cmds).
    { clear -Hr Hruns. induction Hr as [|c cmds [Hc _] Hr IH]; [done|]. cbn. by rewrite Hruns, IH. }
    cbn. destruct add; split_and!; cbn [mode runs allowed denied grant revoke]; rewrite ?Hm, ?Hf; try done; intros d Hv; by rewrite Hruns.
  - cbn. destruct add; unfold grant_custom, revoke_custom; rewrite Hm; [destruct (mode y) eqn:E; [split_and!; first [done|congruence]|..]|]; split_and!; cbn [mode runs allowed denied]; first [done|congruence].
Qed.

(** The commands a rule names are no variants. *)
Definition RealRule (r : Rule) : Prop := forall cmds add, r = RCommands add cmds -> Forall Real cmds.

Lemma rule_real op r : rule_of op = inr r -> RealRule r.
Proof.
  intros H cmds add ->. unfold rule_of in H. destruct (chars op) as [|first rest]; [done|].
  repeat (destruct (eq_ignore_ascii_case op _); [done|]). destruct (existsb _ _).
  { unfold password_rule in H. destruct (if existsb _ _ then _ else _); done. }
  assert (Hn : forall n a, named_rule a n = inr (RCommands add cmds) -> Forall Real cmds).
  { intros n a. unfold named_rule. destruct (try_parse_command_for_acl (build es) n) as [|[c|]]; [done| |by destruct (is_valid_custom_command_name n)].
    destruct (try_get_resp_command_info (build es) c) as [info|] eqn:E; [|done]. intros Hr. assert (covered [info] = cmds) as <- by congruence. apply covered_real. intros e He.
    apply list_elem_of_singleton in He. subst e. by apply found_entry in E; [|apply Hcat]. }
  assert (Hc : forall n a, category_rule a n = inr (RCommands add cmds) -> Forall Real cmds).
  { intros n a. unfold category_rule. destruct (get_acl_category_by_name n) as [c|]; [|done]. destruct (c =? ALL); [done|].
    intros Hr. assert (covered (List.filter (has_category c) es) = cmds) as <- by congruence. apply covered_real. intros e He. apply list_elem_of_In, List.filter_In in He as [He _]. by apply list_elem_of_In. }
  destruct (existsb _ _); [|by destruct (_ || _)]. destruct rest as [|second rest]; [by eapply Hn|].
  destruct second as [[] [] [] [] [] [] [] []]; first [by eapply Hn|by eapply Hc].
Qed.

Lemma steps_same rs x y : Forall RealRule rs -> same_rights x y ->
  same_rights (fold_left (fun x r => step r x) rs x) (fold_left (fun x r => step r x) rs y).
Proof. intros HR. revert x y. induction HR as [|r rs Hr HR IH]; intros x y Hxy; [done|]. cbn [fold_left]. apply IH. by apply step_same. Qed.

Lemma rules_real ops rs : rules_of ops = inr rs -> Forall RealRule rs.
Proof.
  revert rs. induction ops as [|op ops IH]; intros rs; cbn [rules_of]; [by intros [= <-]|].
  destruct (rule_of op) as [e|r] eqn:E; [done|]. destruct (rules_of ops) as [e|rs']; [done|]. intros [= <-]. constructor; [by eapply rule_real|by apply IH].
Qed.

(** The rules fail at the first one that cannot be read, or have their effects. *)
Definition RefinesAll (spec : AclError + list Rule) (u : User) (out : Outcome User) : Prop :=
  match spec with inl e => out = Failed e | inr rs => exists u', out = Done u' /\ Effects rs u u' end.

Lemma ops_ok R b u ops : Total R b -> WfUser u -> (desc_words u + length ops <= b)%nat ->
  RefinesAll (rules_of ops) u (apply_ops (build es) sha256 R u ops).
Proof.
  intros HR. revert u. induction ops as [|op ops IH]; intros u HU Hb.
  { exists u. split; [done|]. by split_and!. }
  cbn [rules_of apply_ops length] in *. pose proof (op_ok R b u op HR HU) as Ho. unfold Refines in Ho.
  destruct (rule_of op) as [e|r] eqn:Er; [rewrite Ho by lia; done|]. destruct Ho as (u1 & -> & (HU1 & S1 & L1 & N1) & Hd); [lia|]. cbn [and_then].
  specialize (IH u1 HU1). unfold RefinesAll in *. destruct (rules_of ops) as [e|rs] eqn:Ers; [by rewrite IH by lia|].
  destruct IH as (u2 & -> & (HU2 & S2 & L2 & N2)); [lia|]. exists u2. split; [done|]. split_and!; [done| |by rewrite L2, L1|congruence].
  rewrite S2. cbn [fold_left]. apply steps_same; [by apply (rules_real ops)|done].
Qed.

(** ** The description can always be shortened *)

Lemma wf_new n : WfUser (new n).
Proof. split; [apply wf_none_set|constructor]. Qed.

Lemma ends_ops R b u ops : Total R b -> WfUser u -> (desc_words u + length ops <= b)%nat -> apply_ops (build es) sha256 R u ops <> OutOfFuel.
Proof. intros HR HU Hb. pose proof (ops_ok R b u ops HR HU Hb) as H. unfold RefinesAll in H. destruct (rules_of ops); [by rewrite H|]. by destruct H as (u' & -> & _). Qed.

(** The first two rules of the text that is tried leave the description alone. *)
Lemma ends_parse R input kept : Total R (length kept) -> split_whitespace input = ["user"; "test"; "on"; ">xxx"]%string ++ kept ->
  parse_acl_rule (build es) sha256 R input <> OutOfFuel.
Proof.
  intros HR E. unfold parse_acl_rule. rewrite E. cbn [app].
  change (apply_ops (build es) sha256 R (new "test") ("on"%string :: ">xxx"%string :: kept) <> OutOfFuel).
  cbn [apply_ops]. change (apply_acl_op_to_user (build es) sha256 R (new "test") "on") with (Done (set_enabled (new "test") true)). cbn [and_then].
  change (apply_acl_op_to_user (build es) sha256 R (set_enabled (new "test") true) ">xxx")
    with (Done (with_passwords (set_enabled (new "test") true) [from_string sha256 "xxx"])). cbn [and_then].
  apply (ends_ops R (length kept)); [done| |done]. split; [apply wf_none_set|]. constructor; [apply Hsha|constructor].
Qed.

Section Shrinks.

Variable parse : string -> Outcome User.
Variable n : nat.
Hypothesis Hparse : forall parts i, Forall word parts -> (i < length parts <= n)%nat -> parse (without_rule parts i) <> OutOfFuel.

Lemma pass_ends fuel set parts i shrunk : Forall word parts -> (length parts <= n)%nat -> (length parts - i < fuel)%nat ->
  exists parts' shrunk', shrink_pass parse fuel set parts i shrunk = Some (parts', shrunk') /\ Forall word parts' /\
    (length parts' <= length parts)%nat /\ (shrunk' = true -> shrunk = true \/ (length parts' < length parts)%nat).
Proof.
  revert parts i shrunk. induction fuel as [|fuel IH]; intros parts i shrunk Hw Hn Hf; [lia|]. cbn [shrink_pass].
  destruct (Nat.ltb_spec i (length parts)) as [Hi|Hi]; [|exists parts, shrunk; split_and!; auto].
  assert (Hgo : exists parts' shrunk', shrink_pass parse fuel set parts (S i) shrunk = Some (parts', shrunk') /\ Forall word parts' /\
    (length parts' <= length parts)%nat /\ (shrunk' = true -> shrunk = true \/ (length parts' < length parts)%nat)) by (apply IH; [done..|lia]).
  destruct (parse (without_rule parts i)) as [u|e|] eqn:E; [|done|by destruct (Hparse parts i Hw ltac:(lia))].
  destruct (is_equivalent_to _ _); [|done]. set (q := take i parts ++ drop (S i) parts).
  assert (Hq : length q = (length parts - 1)%nat) by (unfold q; rewrite length_app, length_take, length_drop; lia).
  destruct (IH q i true) as (parts' & sh & E' & W' & L' & _); [apply Forall_app_2; [by apply Forall_take|by apply Forall_drop]|lia|lia|].
  exists parts', sh. split_and!; [done|done|lia|]. intros _. right. lia.
Qed.

Lemma shrink_ends fuel set parts : Forall word parts -> (length parts <= n)%nat -> (length parts < fuel)%nat ->
  exists parts', shrink parse fuel set parts = Some parts' /\ Forall word parts' /\ (length parts' <= length parts)%nat.
Proof.
  revert parts. induction fuel as [|fuel IH]; intros parts Hw Hn Hf; [lia|]. cbn [shrink].
  destruct (pass_ends (S (length parts)) set parts 0 false) as (q & sh & -> & Wq & Lq & Hs); [done|done|lia|]. cbn [mbind option_bind].
  destruct sh; [|by exists q]. destruct Hs as [|Hs]; [done|done|]. destruct (IH q) as (q' & E & W' & L'); [done|lia|lia|].
  exists q'. split_and!; [done|done|lia].
Qed.

Lemma rationalize_ends : Total (rationalize_with parse) n.
Proof.
  intros set d deep Hd. unfold rationalize_with, nwords in *. pose proof (split_words d) as Hw. set (parts := split_whitespace d) in *.
  assert (H : exists q, (if deep then shrink parse (S (length parts)) set parts else Some parts) = Some q /\ Forall word q /\ (length q <= length parts)%nat).
  { destruct deep; [apply shrink_ends; [done|done|lia]|by exists parts]. }
  destruct H as (q & -> & Wq & Lq). cbn [mbind option_bind]. eexists. split; [done|]. by rewrite split_concat.
Qed.

End Shrinks.

Lemma rationalize_total f b : (b < f)%nat -> Total (rationalize (build es) sha256 f) b.
Proof.
  revert b. induction f as [|f IH]; intros b Hb; [lia|]. cbn [rationalize]. apply rationalize_ends. intros parts i Hw Hi.
  apply (ends_parse _ _ (if (1 <? i)%nat then drop 1 (take i parts) else [])).
  - apply IH. destruct (Nat.ltb_spec 1 i); cbn [length]; [rewrite length_drop, length_take|]; lia.
  - unfold without_rule. apply split_appended. destruct (_ <? _)%nat; [by apply Forall_drop, Forall_take|constructor].
Qed.

Lemma set_ops_ok u ops : WfUser u -> RefinesAll (rules_of ops) u (set_ops (build es) sha256 u ops).
Proof.
  intros HU. apply (ops_ok _ (desc_words u + length ops)); [|done|done]. apply rationalize_total. unfold fuel_for, desc_words, nwords. lia.
Qed.

End Rules.

(** C10: the rules of ACL SETUSER, applied to a user, always end.  They fail exactly
    when one of them cannot be read, with the error of the first such rule.
    Otherwise the rights of the user are those the rules give one after the other:
    a command that is granted or revoked takes its variants and subcommands with it
    and leaves every other command alone, a category stands for all its commands,
    the commands every connection needs cannot be revoked, and switches, passwords
    and custom commands change only themselves.  A new user gets its rights from the
    text of a rule in the same way. *)
Theorem set_ops_correct es sha256 u ops : CatalogOk es -> (forall l, Hash (sha256 l)) -> WfUser u ->
  RefinesAll (rules_of es sha256 ops) u (set_ops (build es) sha256 u ops) /\
  (forall name, word name -> contains "#" name = false -> Forall word ops -> ops <> [] ->
     RefinesAll (rules_of es sha256 ops) (new name) (parse_rule (build es) sha256 (String.concat " " ("user"%string :: name :: ops)))).
Proof.
  intros Hcat Hsha HU. split; [by apply set_ops_ok|]. intros name Hn Hsharp Hops Hne. unfold parse_rule.
  assert (Hw : Forall word ("user"%string :: name :: ops)) by (constructor; [split; [done|by repeat constructor]|by constructor]).
  unfold parse_acl_rule. rewrite split_concat by done.
  destruct ops as [|op ops]; [done|]. cbn [length].
  rewrite Hsharp. unfold validate_username. rewrite Hsharp. destruct name as [|c name]; [by destruct Hn|].
  cbn [is_empty of_result and_then]. change (negb (eq_ignore_ascii_case "user" "user")) with false. cbv iota.
  apply (ops_ok es sha256 Hcat Hsha _ (S (length ops))); [apply rationalize_total; [done|done|lia]|apply wf_new|done].
Qed.

(** The table of the server. *)
Lemma catalog_ok : CatalogOk (project_entries RESP_COMMANDS_INFO).
Proof.
  split; [apply entries_numbered|..].
  - apply Forall_forall. intros e He%list_elem_of_In.
    assert (H : forallb (fun e => normalize_for_acls (cmd e) =? cmd e) (project_entries RESP_COMMANDS_INFO) = true) by (vm_compute; reflexivity).
    rewrite forallb_forall in H. specialize (H e He). lia.
  - apply Forall_forall. intros e He%list_elem_of_In.
    assert (H : forallb (fun e => forallb (fun c => negb (is_whitespace c)) (chars (name e))) (project_entries RESP_COMMANDS_INFO) = true) by (vm_compute; reflexivity).
    rewrite forallb_forall in H. specialize (H e He). apply Forall_forall. intros c Hc%list_elem_of_In. rewrite forallb_forall in H. by apply negb_true_iff, H.
Qed.

(** Some digest. *)
Definition digest (l : list Z) : list Z := take 32 (map (fun b => b mod 256) l ++ replicate 32 0).

Lemma digest_hash l : Hash (digest l).
Proof.
  split; [unfold digest; rewrite length_take, length_app, length_replicate; unfold NUM_HASH_BYTES; lia|].
  apply Forall_take, Forall_app_2; [|apply Forall_replicate; unfold fits; lia]. apply Forall_forall. intros b Hb.
  apply list_elem_of_fmap in Hb as (x & -> & _). unfold fits. pose proof (Z.mod_pos_bound x 256). lia.
Qed.

Lemma set_ops_correct_witness :
  let ops := ["on"; "+@read"; "-get"; "+foo"]%string in
  RefinesAll (rules_of (project_entries RESP_COMMANDS_INFO) digest ops) (new "x") (set_ops (build (project_entries RESP_COMMANDS_INFO)) digest (new "x") ops) /\
  match set_ops (build (project_entries RESP_COMMANDS_INFO)) digest (new "x") ops with
  | Done u => (is_enabled u, map (can_access_command u) [135; 141; 74], can_access_custom_command u 277 "Foo") = (true, [false; true; false], true)
  | _ => False
  end.
Proof.
  intros ops. split; [|vm_compute; reflexivity].
  exact (proj1 (set_ops_correct (project_entries RESP_COMMANDS_INFO) digest (new "x") ops catalog_ok digest_hash (wf_new "x"))).
Defined.

End AclSpec.
