(* ===== verification/AclAuth.v ===== *)
(** * Users in the store

    ACL SETUSER and AUTH over the records of the store
    ([wedb/wnode/src/resp/acl_commands.rs], [wedb/wacl/src/user.rs]): what was set
    is what AUTH checks, a tenant reaches only its own records, what storing a user
    between two groups of rules changes, and which words of a description stay. *)

From Stdlib Require Import ZArith Lia Bool Ascii String.
From stdpp Require Import base list numbers option tactics strings gmap.
From S2P Require Import Prelude Bytes Hasher Codec AclCatalog Acl AclIndex AclPerms AclText AclRules AclSpec.

Open Scope Z_scope.

Module AclAuth.
Import Text Catalog Perms Passwords Users Access AclCommands Index PermSpec TextSpec RuleSpec AclSpec.

(** ** The stored form *)

(** A stored user is read back as it was, but for the custom commands of a user
    whose commands are stored as all or none. *)
Definition Restored (u back : User) : Prop :=
  WfUser back /\ login back = login u /\ user_name back = user_name u /\
  special (enabled_commands back) = special (enabled_commands u) /\
  (forall d, Valid d -> can_access_command back d = can_access_command u d) /\
  (special (enabled_commands u) = SetOf -> enabled_commands back = enabled_commands u) /\
  (special (enabled_commands u) <> SetOf -> custom_allowed (enabled_commands back) = ∅ /\ custom_denied (enabled_commands back) = ∅).

Lemma record_roundtrip u : WfUser u -> exists back, from_record (to_record u) = inr back /\ Restored u back.
Proof.
  intros [HW Hh]. unfold from_record, to_record. set (p := enabled_commands u) in *. cbn [perms_mode perms_bitmap rec_custom_allowed rec_custom_denied].
  unfold wire_mode, wire_bitmap, from_wire. destruct (special p) eqn:E; cbn -[all none].
  - eexists. split; [done|]. split_and!; [split; [apply wf_all_set|done]|done|done|exact (eq_sym E)| |intros H; fold p in H; congruence|done].
    intros d Hd. unfold can_access_command, can_run_command, is_all. fold p. by rewrite E.
  - eexists. split; [done|]. split_and!; [split; [apply wf_none_set|done]|done|done|exact (eq_sym E)| |intros H; fold p in H; congruence|done].
    intros d Hd. unfold can_access_command. rewrite (none_runs (enabled_commands u) d HW E Hd). by apply none_runs; [apply wf_none_set|..].
  - destruct (wf_bits p HW) as [Hl _]. rewrite Hl. cbn. eexists. split; [done|].
    assert (Ep : mkPerms SetOf (command_list p) (list_to_set (elements (custom_allowed p))) (list_to_set (elements (custom_denied p))) (description p) = p).
    { rewrite !list_to_set_elements_L. destruct p; cbn in *. by rewrite E. }
    unfold set_description. cbn [special with_description command_list custom_allowed custom_denied]. unfold with_description. cbn [special command_list custom_allowed custom_denied].
    rewrite Ep. split_and!; [by split|done|done|done|done|done|]. intros H. by destruct H.
Qed.

(** ** Names *)

Lemma split_once_contains c s : split_once c s = None <-> contains c s = false.
Proof.
  unfold contains, chars. induction s as [|x s IH]; [done|]. cbn. destruct (Ascii.eqb c x); [done|]. cbn. rewrite <- IH.
  destruct (split_once c s) as [[a b]|]; done.
Qed.

Lemma parsed_valid raw ns name target : parse_user_namespace_with_default raw ns = inr (name, target) -> validate_username name = inr tt.
Proof.
  unfold parse_user_namespace_with_default. destruct (split_once "#" raw) as [[a b]|].
  - destruct (is_empty b) eqn:E1; [done|]. destruct (contains "#" b) eqn:E2; [done|]. destruct (parse_u64 a); [|done]. intros [= <- _].
    unfold validate_username. by rewrite E1, E2.
  - destruct (validate_username raw) as [|[]] eqn:E; [done|]. by intros [= <- _].
Qed.

Lemma resolved_parse caller raw name ns : resolve_acl_username caller raw = inr (name, ns) ->
  parse_user_namespace_with_default (ascii_sanitize raw) caller = inr (name, ns) /\ foreign_namespace_denied caller (ascii_sanitize raw) ns = false.
Proof.
  unfold resolve_acl_username. destruct (parse_user_namespace_with_default _ _) as [|[n t]]; [done|].
  destruct (foreign_namespace_denied _ _ _) eqn:E; [done|]. by intros [= -> ->].
Qed.

Lemma own_namespace caller raw name ns : caller <> 0 -> parse_user_namespace_with_default raw caller = inr (name, ns) ->
  foreign_namespace_denied caller raw ns = false -> ns = caller /\ name = raw /\ contains "#" raw = false.
Proof.
  intros Hc Hp Hf. unfold foreign_namespace_denied in Hf. destruct (Z.eqb_spec caller 0); [done|]. cbn [negb andb] in Hf.
  apply orb_false_iff in Hf as [Hn Hs]. unfold parse_user_namespace_with_default in Hp. rewrite (proj2 (split_once_contains _ _) Hs) in Hp.
  destruct (validate_username raw); [done|]. injection Hp as <- <-. by split_and!.
Qed.

Lemma validate_password_ok u h : WfUser u -> Hash h ->
  validate_password u h = passwordless (login u) || bool_decide (h ∈ hashes (login u)).
Proof.
  intros [_ HF] Hh. unfold validate_password. cbn [login passwordless hashes]. destruct (is_passwordless u); [done|]. cbn [orb].
  assert (H : forall l b, Forall Hash l -> fold_left (fun matched hash => matched || constant_equals h hash) l b = b || bool_decide (h ∈ l)).
  { induction l as [|k l IH]; intros b Hl; [by rewrite orb_false_r|]. apply Forall_cons in Hl as [Hk Hl]. cbn [fold_left].
    rewrite IH, constant_equals_ok by done. rewrite <- orb_assoc. f_equal. apply eq_bool_prop_intro. rewrite orb_True, !bool_decide_spec, elem_of_cons. done. }
  by rewrite H.
Qed.

Lemma wf_from_user u : WfUser u -> WfUser (from_user u).
Proof. intros [HW Hh]. by split; [apply copy_ok|]. Qed.

(** ** ACL SETUSER, then AUTH *)

Definition may_login (x : Login) (h : AclPassword) : bool := enabled x && (passwordless x || bool_decide (h ∈ hashes x)).

Section Store.

Variable sha256 : list Z -> list Z.
Variable encode : UserRecord -> list Z.
Variable decode : list Z -> option UserRecord.
Context {St : Type}.
Variable read : St -> Z -> string -> string + option (list Z).

Hypothesis Hsha : forall l, Hash (sha256 l).
Hypothesis Hcodec : forall r, decode (encode r) = Some r.

Lemma auth_stored st ctx raw name ns u : resolve_acl_username (caller_namespace ctx) raw = inr (name, ns) -> ctx_default_user ctx <> None -> WfUser u ->
  read st ns name = inr (Some (to_bytes encode u)) ->
  exists back, Restored u back /\
    network_acl_get_user decode read ctx st [raw] = user_reply back /\
    forall password, authenticate_user_via_store sha256 decode read st (caller_namespace ctx) raw password =
      if may_login (login u) (from_string sha256 (ascii_sanitize password)) then Success back ns else Denied.
Proof.
  intros Hr Hctx HU Hread. destruct (resolved_parse _ _ _ _ Hr) as [Hp Hf]. destruct (record_roundtrip u HU) as (back & Eb & HR). exists back. split; [done|].
  split.
  { unfold network_acl_get_user. rewrite bool_decide_false, Hr, Hread by done. unfold from_rule_bytes, user_from_bytes, to_bytes.
    by rewrite (parsed_valid _ _ _ _ Hp), Hcodec, Eb. }
  intros password. unfold authenticate_user_via_store. rewrite Hp, Hf, Hread. unfold from_rule_bytes, user_from_bytes, to_bytes.
  rewrite (parsed_valid _ _ _ _ Hp), Hcodec, Eb. destruct HR as (HW & Hl & _). rewrite validate_password_ok by (done || apply Hsha). unfold may_login. rewrite <- Hl.
  cbn [login enabled]. destruct (is_enabled back); cbn [negb andb]; [|done]. by destruct (_ || _).
Qed.

End Store.

(** What ACL SETUSER does for [name] when [current] is the user the rules apply to,
    and what AUTH and ACL GETUSER by the same caller answer afterwards. *)
Definition SetUserOutcome es sha256 encode decode {St : Type} (read : St -> Z -> string -> string + option (list Z)) write
    (raw : list Z) (name : string) (ns : Z) (ops : list (list Z)) (ctx : AclCtx) (st : St) (current : User) : Prop :=
  let set_user := network_acl_set_user (build es) sha256 encode decode read write ctx st (raw :: ops) in
  match rules_of es sha256 (map ascii_sanitize ops) with
  | inl e => set_user = (st, Some (ReplyError (acl_exception_message e)))
  | inr rs =>
      exists new, Effects rs (from_user current) new /\
      match unregistered ctx (custom_allowed (enabled_commands current)) (custom_denied (enabled_commands current)) new with
      | Some _ => exists message, set_user = (st, Some (ReplyError message))
      | None =>
          forall st', write st ns name (to_bytes encode new) = (st', inr tt) ->
            set_user = (st', Some ReplyOk) /\
            exists back, Restored new back /\
              network_acl_get_user decode read ctx st' [raw] = user_reply back /\
              forall password, authenticate_user_via_store sha256 decode read st' (caller_namespace ctx) raw password =
                if may_login (login new) (from_string sha256 (ascii_sanitize password)) then Success back ns else Denied
      end
  end.

(** ** A store in memory *)

Module Memory.

Definition fields (r : UserRecord) :=
  (rec_name r, rec_is_enabled r, rec_is_passwordless r, rec_password_hashes r, perms_mode r, perms_bitmap r, rec_custom_allowed r, rec_custom_denied r, rec_description r).

Definition record '(a, b, c, d, e, f, g, h, i) : UserRecord := mkRecord a b c d e f g h i.

Definition encode (r : UserRecord) : list Z := [Z.pos (countable.encode (fields r))].
Definition decode (bs : list Z) : option UserRecord := match bs with [Z.pos p] => record <$> countable.decode p | _ => None end.

Lemma codec r : decode (encode r) = Some r.
Proof. unfold decode, encode. rewrite decode_encode. by destruct r. Qed.

Definition St : Type := gmap (Z * string) (list Z).
Definition read (st : St) (ns : Z) (n : string) : string + option (list Z) := inr (st !! (ns, n)).
Definition write (st : St) (ns : Z) (n : string) (bs : list Z) : St * (string + unit) := (<[(ns, n) := bs]> st, inr tt).

Lemma written st ns n bs st' : write st ns n bs = (st', inr tt) -> read st' ns n = inr (Some bs).
Proof. intros [= <-]. unfold read. f_equal. apply (lookup_insert_eq (M := gmap (Z * string))). Qed.

End Memory.

(** ** Theorems *)

(** C11: ACL SETUSER for a name the caller may address always answers.  It fails and
    leaves the store alone when a rule cannot be read, with that rule's error, or
    when the rules name a custom command that is not registered.  Otherwise it
    stores the user with the rules applied, and from then on ACL GETUSER shows that
    user and AUTH by the same caller with the same name succeeds exactly with what
    the rules left: for an enabled user, with one of its passwords or, without a
    password, with any; and the session has the commands the rules gave. *)
Theorem set_user_then_auth es sha256 encode decode (St : Type) (read : St -> Z -> string -> string + option (list Z)) write
    raw name ns ops ctx st existing current :
  CatalogOk es -> (forall l, Hash (sha256 l)) -> (forall r, decode (encode r) = Some r) ->
  (forall st ns n bs st', write st ns n bs = (st', inr tt) -> read st' ns n = inr (Some bs)) ->
  ctx_default_user ctx <> None -> resolve_acl_username (caller_namespace ctx) raw = inr (name, ns) ->
  read st ns name = inr existing -> current_user decode existing name ns ctx = inr current -> WfUser current ->
  SetUserOutcome es sha256 encode decode read write raw name ns ops ctx st current.
Proof.
  intros Hcat Hsha Hcodec Hwrite Hctx Hr Hread Hcur HU.
  pose proof (set_ops_ok es sha256 Hcat Hsha (from_user current) (map ascii_sanitize ops) (wf_from_user _ HU)) as H.
  unfold SetUserOutcome, network_acl_set_user, apply_set_user. rewrite bool_decide_false, Hr, Hread, Hcur by done.
  unfold RefinesAll in H. destruct (rules_of es sha256 (map ascii_sanitize ops)) as [e|rs]; [by rewrite H|].
  destruct H as (new & -> & HE). exists new. split; [done|]. destruct (unregistered _ _ _ new); [by eexists|].
  intros st' Hw. rewrite Hw. split; [done|].
  apply (auth_stored sha256 encode decode read Hsha Hcodec st' ctx raw name ns); [done|done|apply HE|by eapply Hwrite].
Qed.

Lemma set_user_then_auth_witness :
  let es := project_entries RESP_COMMANDS_INFO in
  let ops := map as_bytes ["on"; ">pw"; "+get"]%string in
  let ctx := mkCtx (Some (new "default")) None 7 in
  let run := network_acl_set_user (build es) digest Memory.encode Memory.decode Memory.read Memory.write ctx ∅ (as_bytes "bob" :: ops) in
  let auth pw := authenticate_user_via_store digest Memory.decode Memory.read (fst run) 7 (as_bytes "bob") (as_bytes pw) in
  SetUserOutcome es digest Memory.encode Memory.decode Memory.read Memory.write (as_bytes "bob") "bob" 7 ops ctx ∅ (new "bob") /\
  snd run = Some ReplyOk /\ auth "no"%string = Denied /\
  match auth "pw"%string with Success u ns => (ns, can_access_command u 135, can_access_command u 74) = (7, true, false) | _ => False end.
Proof.
  intros es ops ctx run auth. split; [|vm_compute; split_and!; reflexivity].
  exact (set_user_then_auth es digest Memory.encode Memory.decode Memory.St Memory.read Memory.write (as_bytes "bob") "bob" 7 ops ctx ∅ None (new "bob")
    catalog_ok digest_hash Memory.codec Memory.written ltac:(done) eq_refl eq_refl eq_refl (wf_new "bob")).
Defined.

(** A deleted user is gone, the one of the bootstrap is not deleted, and deleting
    stops at the first name that is refused. *)
Lemma del_user_ok decode sha256 (St : Type) (read : St -> Z -> string -> string + option (list Z)) delete ctx st raw rest name ns st' (b : bool) :
  (forall st ns n b st', delete st ns n = (st', inr b) -> read st' ns n = inr None) ->
  ctx_default_user ctx <> None -> resolve_acl_username (caller_namespace ctx) raw = inr (name, ns) ->
  if decide (name = DEFAULT_USER_NAME /\ ns = 0)
  then exists message, network_acl_del_user delete ctx st (raw :: rest) = (st, ReplyError message)
  else delete st ns name = (st', inr b) ->
    network_acl_del_user delete ctx st [raw] = (st', ReplyInt (if b then 1 else 0)) /\
    forall password, authenticate_user_via_store sha256 decode read st' (caller_namespace ctx) raw password = NoRecord.
Proof.
  intros Hdel Hctx Hr. unfold network_acl_del_user. rewrite bool_decide_false by done. cbn [delete_users]. rewrite Hr.
  destruct (decide _) as [[-> ->]|Hd]; [by eexists|]. intros E.
  destruct (String.eqb name DEFAULT_USER_NAME && (ns =? 0)) eqn:Eb.
  { apply andb_true_iff in Eb as [En%String.eqb_eq Es]. destruct Hd. split; [done|lia]. }
  rewrite E. split; [by destruct b|]. intros password. destruct (resolved_parse _ _ _ _ Hr) as [Hp Hf].
  unfold authenticate_user_via_store. by rewrite Hp, Hf, (Hdel _ _ _ _ _ E).
Qed.

(** C12: a caller of a namespace other than 0 reaches its own namespace only: a name
    resolves to itself there, one with a namespace prefix is refused, and AUTH reads
    no record of another namespace.  A caller of namespace 0 reaches the namespace
    it names. *)
Theorem tenant_isolation sha256 decode (St : Type) (read : St -> Z -> string -> string + option (list Z)) caller raw :
  (caller <> 0 -> forall name ns, resolve_acl_username caller raw = inr (name, ns) ->
     ns = caller /\ name = ascii_sanitize raw /\ contains "#" name = false) /\
  (caller <> 0 -> contains "#" (ascii_sanitize raw) = true -> forall st password,
     exists m, resolve_acl_username caller raw = inl m /\
     authenticate_user_via_store sha256 decode read st caller raw password ∈ [Denied; ForeignNamespace]) /\
  (caller <> 0 -> forall st st' password, (forall n, read st caller n = read st' caller n) ->
     authenticate_user_via_store sha256 decode read st caller raw password = authenticate_user_via_store sha256 decode read st' caller raw password) /\
  (forall digits name ns, ascii_sanitize raw = (digits +:+ String "#" name)%string -> contains "#" digits = false -> contains "#" name = false ->
     name <> EmptyString -> parse_u64 digits = Some ns -> resolve_acl_username 0 raw = inr (name, ns)).
Proof.
  split_and!.
  - intros Hc name ns Hr. destruct (resolved_parse _ _ _ _ Hr) as [Hp Hf]. destruct (own_namespace _ _ _ _ Hc Hp Hf) as (-> & -> & Hs). by split_and!.
  - intros Hc Hs st password. unfold resolve_acl_username, authenticate_user_via_store, foreign_namespace_denied. rewrite Hs.
    destruct (Z.eqb_spec caller 0) as [|_]; [done|]. cbn [negb andb]. destruct (parse_user_namespace_with_default _ _) as [e|[n t]].
    + eexists. split; [done|]. by left.
    + rewrite orb_true_r. eexists. split; [done|]. right. by left.
  - intros Hc st st' password Hsame. unfold authenticate_user_via_store.
    destruct (parse_user_namespace_with_default _ _) as [e|[n t]] eqn:Hp; [done|]. destruct (foreign_namespace_denied _ _ _) eqn:Hf; [done|].
    destruct (own_namespace _ _ _ _ Hc Hp Hf) as (-> & _). by rewrite Hsame.
  - intros digits name ns Es Hd Hn Hne Hp. unfold resolve_acl_username, parse_user_namespace_with_default. rewrite Es.
    assert (split_once "#" (digits +:+ String "#" name) = Some (digits, name)) as ->.
    { clear -Hd. induction digits as [|c digits IH]; [done|]. change (String c digits +:+ String "#" name) with (String c (digits +:+ String "#" name)).
      unfold contains, chars in *. cbn [list_ascii_of_string existsb] in Hd. cbn [split_once]. destruct (Ascii.eqb "#" c); [done|]. cbn [orb] in Hd. by rewrite IH. }
    destruct name as [|c name]; [done|]. cbn [is_empty]. by rewrite Hn, Hp.
Qed.

Lemma tenant_isolation_witness :
  resolve_acl_username 0 (as_bytes "12#bob") = inr ("bob"%string, 12) /\
  exists m, resolve_acl_username 7 (as_bytes "12#bob") = inl m /\
    authenticate_user_via_store digest Memory.decode Memory.read ∅ 7 (as_bytes "12#bob") [] ∈ [Denied; ForeignNamespace].
Proof.
  split.
  - destruct (tenant_isolation digest Memory.decode Memory.St Memory.read 0 (as_bytes "12#bob")) as (_ & _ & _ & H).
    exact (H "12"%string "bob"%string 12 eq_refl eq_refl eq_refl ltac:(done) eq_refl).
  - destruct (tenant_isolation digest Memory.decode Memory.St Memory.read 7 (as_bytes "12#bob")) as (_ & H & _).
    exact (H ltac:(done) eq_refl ∅ []).
Defined.

(** *** Storing a user between two groups of rules *)

(** A rule that says nothing of custom commands. *)
Definition keeps_custom (r : Rule) : bool := match r with RReset | RAll _ | RCustom _ _ => false | _ => true end.

Abbreviation after rs x := (fold_left (fun x r => step r x) rs x).

Lemma custom_kept rs x : Forall (fun r => keeps_custom r = true) rs ->
  allowed (after rs x) = allowed x /\ denied (after rs x) = denied x /\ (mode x <> All -> mode (after rs x) <> All).
Proof.
  intros HR. revert x. induction HR as [|r rs Hr HR IH]; intros x; [done|]. cbn [fold_left].
  destruct (IH (step r x)) as (-> & -> & Hm). clear IH. destruct r as [| | | |add|[] cmds|add n|]; try done.
  - split_and!; try done. intros H. apply Hm. cbn. by destruct (forallb _ _).
  - split_and!; try done. intros H. apply Hm. cbn. by destruct (mode x).
Qed.

Lemma runs_kept rs x y : Forall (fun r => keeps_custom r = true) rs -> (forall d, Valid d -> runs x d = runs y d) ->
  forall d, Valid d -> runs (after rs x) d = runs (after rs y) d.
Proof.
  intros HR. revert x y. induction HR as [|r rs Hr HR IH]; intros x y H; [done|]. cbn [fold_left]. apply IH.
  destruct r as [| | | |add|[] cmds|add n|]; try done; cbn; intros d Hd; by rewrite H.
Qed.

(** Custom commands of a user with no custom command on its lists, and of one that is denied it. *)
Lemma custom_generic u g n : special (enabled_commands u) <> All -> custom_allowed (enabled_commands u) = ∅ ->
  custom_denied (enabled_commands u) = ∅ -> can_access_custom_command u g n = can_access_command u g.
Proof.
  intros Hm Ha Hd. unfold can_access_custom_command, can_run_custom_command, can_access_command, can_run_command, is_all.
  rewrite Ha, Hd. by destruct (special (enabled_commands u)).
Qed.

Lemma custom_refused u g n : special (enabled_commands u) <> All -> contains_ignore (custom_denied (enabled_commands u)) n = true ->
  can_access_custom_command u g n = false.
Proof.
  intros Hm Hd. unfold can_access_custom_command, can_run_custom_command, is_all. rewrite Hd. by destruct (special (enabled_commands u)).
Qed.

(** C14: ACL SETUSER stores the user, and the next one goes on from the stored form.
    For a user with a set of commands this makes no difference: further rules give
    the rights, and the way to log in, that they give without storing.  A user
    that has no commands at all loses its denied custom commands: after further rules
    that speak only of the server's commands, categories, switches and passwords, each
    command that was denied stays denied without storing, while behind the stored form
    it may be run exactly when the generic command for custom commands may. *)
Theorem record_loses_denial es sha256 u ops rs : CatalogOk es -> (forall l, Hash (sha256 l)) -> WfUser u ->
  rules_of es sha256 ops = inr rs ->
  exists back at_once later, from_record (to_record u) = inr back /\
    set_ops (build es) sha256 u ops = Done at_once /\ set_ops (build es) sha256 (from_user back) ops = Done later /\
    login later = login at_once /\
    (special (enabled_commands u) = SetOf ->
       same_rights (rights (enabled_commands later)) (rights (enabled_commands at_once))) /\
    (special (enabled_commands u) = NoneOf -> Forall (fun r => keeps_custom r = true) rs ->
       forall n g, contains_ignore (custom_denied (enabled_commands u)) n = true -> Valid g ->
       can_access_custom_command at_once g n = false /\
       can_access_custom_command later g n = can_access_command at_once g).
Proof.
  intros Hcat Hsha HU Hrs. destruct (record_roundtrip u HU) as (back & Hb & HWb & Hlog & _ & Hsp & Hruns & Hset & Hcust).
  pose proof (set_ops_ok es sha256 Hcat Hsha u ops HU) as H1. rewrite Hrs in H1. destruct H1 as (u1 & E1 & W1 & R1 & L1 & _).
  pose proof (set_ops_ok es sha256 Hcat Hsha _ ops (wf_from_user back HWb)) as H2. rewrite Hrs in H2. destruct H2 as (u2 & E2 & W2 & R2 & L2 & _).
  destruct (copy_ok (enabled_commands back) (proj1 HWb)) as (_ & Cm & (Ca & Cd & _) & Cr).
  exists back, u1, u2. split; [done|]. split; [done|]. split; [done|]. split; [rewrite L1, L2; unfold login in *; cbn; congruence|]. split.
  - intros E. rewrite R1, R2. apply steps_same; [by eapply rules_real|]. rewrite <- (Hset E). split_and!; try done. cbn. by rewrite Hset.
  - intros E HK n g Hn Hg. destruct Hcust as [Ba Bd]; [congruence|].
    destruct R1 as (M1 & Hr1 & A1 & D1), R2 as (M2 & Hr2 & A2 & D2).
    destruct (custom_kept rs (rights (enabled_commands u)) HK) as (K1 & K2 & K3).
    destruct (custom_kept rs (rights (enabled_commands (from_user back))) HK) as (J1 & J2 & J3).
    rewrite K2 in D1. rewrite J1 in A2. rewrite J2 in D2. cbn [rights mode runs allowed denied] in *. split.
    + apply custom_refused; [rewrite M1; apply K3; congruence|by rewrite D1].
    + rewrite custom_generic; [|rewrite M2; apply J3; cbn; congruence|rewrite A2; cbn in *; congruence|rewrite D2; cbn in *; congruence].
      unfold can_access_command. rewrite Hr1, Hr2 by done. apply runs_kept; [done| |done].
      intros d Hd. exact (eq_trans (Cr d Hd) (Hruns d Hd)).
Qed.

(** The commands of the server. *)
Abbreviation entries := (project_entries RESP_COMMANDS_INFO).

(** A user for which [foo] is denied, and a category with the generic command. *)
Lemma denial_demo :
  match set_ops (build entries) digest (from_user (new "x")) ["reset"; "-foo"]%string with
  | Done u =>
      is_none (enabled_commands u) && contains_ignore (custom_denied (enabled_commands u)) "foo" &&
      match set_ops (build entries) digest u ["+@custom"]%string with Done u1 => can_access_command u1 277 | _ => false end
  | _ => false
  end = true.
Proof. vm_compute. reflexivity. Qed.

Lemma custom_category_demo :
  match rules_of entries digest ["+@custom"]%string with inr rs => forallb keeps_custom rs | inl _ => false end = true.
Proof. vm_compute. reflexivity. Qed.

(** With [reset -foo +@custom] the command [foo] is denied; with [reset -foo] and
    [+@custom] in a second ACL SETUSER it may be run. *)
Lemma record_loses_denial_witness : exists u back at_once later,
  set_ops (build entries) digest (from_user (new "x")) ["reset"; "-foo"]%string = Done u /\ from_record (to_record u) = inr back /\
  set_ops (build entries) digest u ["+@custom"]%string = Done at_once /\ can_access_custom_command at_once 277 "foo" = false /\
  set_ops (build entries) digest (from_user back) ["+@custom"]%string = Done later /\ can_access_custom_command later 277 "foo" = true.
Proof.
  pose proof denial_demo as HD. pose proof custom_category_demo as HC.
  pose proof (set_ops_ok entries digest catalog_ok digest_hash (from_user (new "x")) ["reset"; "-foo"]%string
    (wf_from_user _ (wf_new "x"))) as HR.
  destruct (set_ops (build entries) digest (from_user (new "x")) ["reset"; "-foo"]%string) as [u| |]; [|discriminate|discriminate].
  apply andb_true_iff in HD as [[Hs Hd]%andb_true_iff Hg].
  assert (HU : WfUser u).
  { unfold RefinesAll in HR. destruct (rules_of _ _ _); [discriminate|]. destruct HR as (u' & [= <-] & HU & _). exact HU. }
  destruct (rules_of entries digest ["+@custom"]%string) as [|rs] eqn:E; [discriminate|].
  destruct (record_loses_denial entries digest u ["+@custom"]%string rs catalog_ok digest_hash HU E)
    as (back & u1 & u2 & Hb & E1 & E2 & _ & _ & H).  rewrite E1 in Hg.
  exists u, back, u1, u2. split; [reflexivity|]. split; [exact Hb|]. split; [exact E1|].
  assert (HN : special (enabled_commands u) = NoneOf) by (clear -Hs; unfold is_none in Hs; destruct (special _); [discriminate|reflexivity|discriminate]).
  assert (HK : Forall (fun r => keeps_custom r = true) rs).
  { clear -HC. apply Forall_forall. intros r Hr. rewrite forallb_forall in HC. by apply HC, list_elem_of_In. }
  destruct (H HN HK "foo"%string 277 Hd) as [H1 H2].
  - split; discriminate.
  - split; [exact H1|]. split; [exact E2|]. rewrite H2. exact Hg.
Defined.

(** *** The description of the permissions *)

(** Something other than every command may be run. *)
Definition Some_rights (p : CommandPermissionSet) : Prop :=
  special p = SetOf /\ exists d, Valid d /\ can_run_command p d = true.

(** A shortening that keeps the first two words while something may be run. *)
Definition Keeps (R : CommandPermissionSet -> string -> bool -> option string) : Prop :=
  forall set d deep d' a b ws, Some_rights set -> split_whitespace d = a :: b :: ws -> R set d deep = Some d' ->
  exists ws', split_whitespace d' = a :: b :: ws' /\ ws' `sublist_of` ws.

Lemma not_empty p t : Some_rights p -> enabled_commands t = none -> is_equivalent_to (copy (enabled_commands t)) p = false.
Proof.
  intros (Hs & d & Hd & Hr) ->. unfold is_equivalent_to. cbn [is_all copy special with_bits none].
  unfold can_run_command, is_all in Hr. rewrite Hs in Hr. change (is_all none) with false. cbn [command_list none].
  rewrite bool_decide_eq_false_2; [done|]. intros E. rewrite (empty_off p d Hd) in Hr; done.
Qed.

Section Shrinks.
Context (catalog : option Catalog) (sha256 : list Z -> list Z).

(** The rules tried for the first two words are none. *)
Lemma first_tried R parts i : (i < 2)%nat -> exists t,
  parse_acl_rule catalog sha256 R (without_rule parts i) = Done t /\ enabled_commands t = none.
Proof. intros Hi. unfold without_rule. destruct (Nat.ltb_spec 1 i); [lia|]. eexists. split; reflexivity. Qed.

Lemma pass_keeps R fuel set i a b ws shrunk parts' s : (2 <= i)%nat ->
  shrink_pass (parse_acl_rule catalog sha256 R) fuel set (a :: b :: ws) i shrunk = Some (parts', s) ->
  exists ws', parts' = a :: b :: ws' /\ ws' `sublist_of` ws.
Proof.
  revert i ws shrunk. induction fuel as [|fuel IH]; intros i ws shrunk Hi; cbn [shrink_pass]; [done|].
  destruct (i <? length (a :: b :: ws))%nat; [|intros [= <- <-]; by exists ws].
  destruct (parse_acl_rule _ _ _ _) as [t|e|]; [|by apply IH; lia|done].
  destruct (is_equivalent_to _ _); [|by apply IH; lia]. destruct i as [|[|i]]; [lia..|]. cbn [take drop app].
  intros (ws' & -> & Hsub)%IH; [|lia]. exists ws'. split; [done|]. etrans; [exact Hsub|].
  rewrite <- (take_drop i ws) at 3. apply sublist_app; [done|]. replace (drop (S i) ws) with (drop 1 (drop i ws)) by (rewrite drop_drop; f_equal; lia). apply sublist_drop.
Qed.

Lemma pass_start R fuel set a b ws shrunk : Some_rights set ->
  shrink_pass (parse_acl_rule catalog sha256 R) (S (S fuel)) set (a :: b :: ws) 0 shrunk =
  shrink_pass (parse_acl_rule catalog sha256 R) fuel set (a :: b :: ws) 2 shrunk.
Proof.
  intros Hs. remember (S fuel) as fuel' eqn:Ef. cbn [shrink_pass length]. destruct (first_tried R (a :: b :: ws) 0) as (t & -> & Et); [lia|].
  rewrite not_empty by done. subst fuel'. remember fuel as fuel'. cbn [shrink_pass length].
  destruct (first_tried R (a :: b :: ws) 1) as (t' & -> & Et'); [lia|]. by rewrite not_empty.
Qed.

Lemma shrink_keeps R fuel set a b ws parts' : Some_rights set ->
  shrink (parse_acl_rule catalog sha256 R) fuel set (a :: b :: ws) = Some parts' ->
  exists ws', parts' = a :: b :: ws' /\ ws' `sublist_of` ws.
Proof.
  intros Hs. revert ws. induction fuel as [|fuel IH]; intros ws; [done|]. cbn [shrink length]. rewrite pass_start by done.
  destruct (shrink_pass _ _ _ _ _ _) as [[parts s]|] eqn:E; [|done]. apply pass_keeps in E as (ws1 & -> & H1); [|lia].
  cbn [mbind option_bind]. destruct s; [|intros [= <-]; by exists ws1].
  intros (ws' & -> & H2)%IH. exists ws'. split; [done|]. by etrans.
Qed.

Lemma rationalize_keeps fuel : Keeps (rationalize catalog sha256 fuel).
Proof.
  intros set d deep d' a b ws Hs Hd. destruct fuel as [|fuel]; [done|]. cbn [rationalize]. unfold rationalize_with. rewrite Hd.
  assert (Hw : Forall word (a :: b :: ws)) by (rewrite <- Hd; apply split_words).
  assert (Hjoin : forall ws', ws' `sublist_of` ws -> split_whitespace (String.concat " " (a :: b :: ws')) = a :: b :: ws').
  { intros ws' Hsub. apply split_concat. apply Forall_cons in Hw as [Ha Hw]. apply Forall_cons in Hw as [Hb Hw].
    constructor; [done|]. constructor; [done|]. clear -Hw Hsub. induction Hsub; [done|..]; apply Forall_cons in Hw as [? ?]; [constructor|]; auto. }
  destruct deep; cbn [mbind option_bind].
  - destruct (shrink _ _ _ _) as [parts|] eqn:E; [|done]. apply shrink_keeps in E as (ws' & -> & Hsub); [|done].
    intros [= <-]. exists ws'. split; [by apply Hjoin|done].
  - intros [= <-]. exists ws. split; [by apply Hjoin|done].
Qed.

End Shrinks.

(** Changes of the permissions leave the description as it is. *)
Lemma set_bit_description p c on : description (set_bit p c on) = description p.
Proof. unfold set_bit. by destruct (_ <? _). Qed.

Lemma apply_cmd_bit_description p c on : description (apply_cmd_bit p c on) = description p.
Proof.
  unfold apply_cmd_bit. transitivity (description (set_bit p c on)); [|apply set_bit_description].
  generalize (set_bit p c on) as q. induction (expand_for_acls c) as [|x l IH]; intros q; [done|]. cbn [fold_left]. by rewrite IH, set_bit_description.
Qed.

Lemma change_commands_description add cmds acc : description (fst (fold_left (change_command add) cmds acc)) = description (fst acc).
Proof.
  revert acc. induction cmds as [|c cmds IH]; intros [p deep]; [done|]. cbn [fold_left]. rewrite IH. cbn [change_command fst].
  unfold add_command, remove_command. destruct add; [destruct (is_all p)|destruct (_ || _)]; try done; rewrite apply_cmd_bit_description; by destruct (_ p).
Qed.

Section Descriptions.
Context (catalog : option Catalog) (sha256 : list Z -> list Z) (R : CommandPermissionSet -> string -> bool -> option string).
Context (HR : Keeps R) (u : User) (a b : string) (ws : list string).
Context (Hu : split_whitespace (description (enabled_commands u)) = a :: b :: ws).

(** The description of [v] begins as that of [u]. *)
Definition Begins (v : User) : Prop := Some_rights (enabled_commands v) ->
  exists ws', split_whitespace (description (enabled_commands v)) = a :: b :: ws'.

Lemma merged_begins q upd deep d : description q = description (enabled_commands u) -> R q (merge_description q upd) deep = Some d ->
  Begins (with_commands u (with_description q d)).
Proof.
  intros Hq E Hs. unfold merge_description in E. rewrite Hq in E.
  destruct (is_empty (description (enabled_commands u))) eqn:Ee.
  { by destruct (description (enabled_commands u)). }
  eapply HR in E as (ws' & E & _); [by exists ws'|exact Hs|]. by rewrite split_cut, Hu.
Qed.

Lemma commands_begin cmds upd add v : apply_commands R u cmds upd add = Some v -> Begins v.
Proof.
  unfold apply_commands. destruct (if add then _ else _); [intros [= <-] _; by exists ws|].
  pose proof (change_commands_description add cmds (enabled_commands u, false)) as Hd.
  destruct (fold_left _ _ _) as [q deep]. cbn [fst] in Hd. destruct (R q _ _) as [d|] eqn:E; [|done].
  intros [= <-]. by eapply merged_begins.
Qed.

Lemma custom_begins n add v : apply_custom_command R u n add = Done v -> Begins v.
Proof.
  unfold apply_custom_command. destruct (negb _); [done|]. cbn zeta. destruct (if add then _ else _); [intros [= <-] _; by exists ws|].
  destruct (R _ _ _) as [d|] eqn:E; [|done]. intros [= <-]. eapply merged_begins; [|exact E]. by destruct add.
Qed.

Lemma named_begins n add v : apply_named catalog R u n add = Done v -> Begins v.
Proof.
  unfold apply_named. destruct (try_parse_command_for_acl catalog n) as [e|[c|]]; [done| |].
  - unfold apply_command. destruct (try_get_resp_command_info catalog c); [|done].
    destruct (apply_commands _ _ _ _ _) as [v'|] eqn:E; [|done]. intros [= <-]. by eapply commands_begin.
  - destruct (is_valid_custom_command_name n); [|done]. apply custom_begins.
Qed.

Lemma category_begins category add v : apply_category catalog R u category add = Done v -> Begins v.
Proof.
  unfold apply_category. destruct (_ && _); [done|]. destruct (_ || _); [intros [= <-] _; by exists ws|].
  destruct (category =? ALL); [intros [= <-] [Hs _]; by destruct add|].
  destruct (commands_for_category catalog category) as [infos|]; [|done]. cbn [or_fuel and_then].
  destruct (apply_commands _ _ _ _ _) as [v'|] eqn:E; [|done]. intros [= <-]. by eapply commands_begin.
Qed.

Lemma op_begins op v : apply_acl_op_to_user catalog sha256 R u op = Done v -> Begins v.
Proof.
  assert (Hsame : forall v', enabled_commands v' = enabled_commands u -> Done v' = Done v -> Begins v).
  { intros v' E [= <-] _. rewrite E. by exists ws. }
  unfold apply_acl_op_to_user. destruct (chars op) as [|first rest]; [by apply Hsame|].
  destruct (eq_ignore_ascii_case op "on"); [by apply Hsame|]. destruct (eq_ignore_ascii_case op "off"); [by apply Hsame|].
  destruct (eq_ignore_ascii_case op "nopass"); [by apply Hsame|].
  destruct (eq_ignore_ascii_case op "reset"); [by intros [= <-] [? _]|]. destruct (eq_ignore_ascii_case op "resetpass"); [by apply Hsame|].
  destruct (existsb (Ascii.eqb first) ["#"; "!"; ">"; "<"]%char).
  { cbn zeta. destruct (if existsb _ _ then _ else _); try done. cbn [and_then]. apply Hsame. destruct (existsb _ _); [|done].
    unfold add_password_hash. by destruct (existsb _ _). }
  destruct (existsb (Ascii.eqb first) ["-"; "+"]%char).
  { destruct rest as [|second rest]; [apply named_begins|]. destruct (Ascii.eqb second "@"); [|apply named_begins].
    destruct (get_acl_category_by_name _); [apply category_begins|done]. }
  destruct (String.eqb op "~*"); [by apply Hsame|]. destruct (eq_ignore_ascii_case op "allkeys"); [by apply Hsame|].
  destruct (eq_ignore_ascii_case op "resetkeys"); [by apply Hsame|done].
Qed.

End Descriptions.

(** C15: the description of a user's permissions keeps its first two words through
    every rule, as long as the user has a set of commands of which one may be run:
    what they grant may have been revoked since.  Further words may be dropped when
    the description is shortened, these are not. *)
Theorem description_keeps_first catalog sha256 fuel u op v a b ws :
  split_whitespace (description (enabled_commands u)) = a :: b :: ws ->
  apply_acl_op_to_user catalog sha256 (rationalize catalog sha256 fuel) u op = Done v ->
  special (enabled_commands v) = SetOf -> (exists d, Valid d /\ can_access_command v d = true) ->
  exists ws', split_whitespace (description (enabled_commands v)) = a :: b :: ws'.
Proof.
  intros Hu E Hs Hd. eapply (op_begins catalog sha256); [by apply rationalize_keeps|exact Hu|exact E|by split].
Qed.

(** A user after [+get +set], and after [-get]. *)
Lemma description_demo :
  match set_ops (build entries) digest (new "x") ["+get"; "+set"]%string with
  | Done u =>
      match apply_acl_op_to_user (build entries) digest (rationalize (build entries) digest 4) u "-get" with
      | Done v =>
          split_whitespace (description (enabled_commands u)) = ["+get"; "+set"]%string /\ special (enabled_commands v) = SetOf /\
          can_access_command v SetCommand = true /\ can_access_command v 135 = false
      | _ => False
      end
  | _ => False
  end.
Proof. vm_compute. done. Qed.

Lemma set_valid : Valid SetCommand.
Proof. split; discriminate. Qed.

(** GET may not be run, and the description still begins with [+get]. *)
Lemma description_keeps_first_witness : exists u v ws,
  set_ops (build entries) digest (new "x") ["+get"; "+set"]%string = Done u /\
  apply_acl_op_to_user (build entries) digest (rationalize (build entries) digest 4) u "-get" = Done v /\
  can_access_command v 135 = false /\
  split_whitespace (description (enabled_commands v)) = "+get"%string :: "+set"%string :: ws.
Proof.
  pose proof description_demo as H. destruct (set_ops _ _ _ _) as [u| |]; [|destruct H|destruct H].
  destruct (apply_acl_op_to_user _ _ _ u "-get") as [v| |] eqn:E; [|destruct H|destruct H]. destruct H as (Hu & Hs & Hr & Hn).
  destruct (description_keeps_first (build entries) digest 4 u "-get" v "+get" "+set" [] Hu E Hs
    (ex_intro _ SetCommand (conj set_valid Hr))) as [ws Hw].
  exists u, v, ws. split; [reflexivity|]. split; [exact E|]. split; [exact Hn|exact Hw].
Defined.

(** The answer of [f] about a user that was made. *)
Definition about {B : Type} (x : Outcome User) (f : User -> option B) : option B := match x with Done u => f u | _ => None end.

(** Resetting a user does not take back that any password is accepted. *)
Lemma reset_keeps_nopass :
  about (parse_rule CATALOG digest "user x nopass reset on") (fun u => Some (is_enabled u, validate_password u (digest []))) = Some (true, true).
Proof. vm_compute. reflexivity. Qed.

(** Of a user that may run everything the description becomes empty when a command
    is revoked that cannot be revoked. *)
Lemma all_described_as_nothing :
  about (parse_rule CATALOG digest "user x on +@all -auth") (fun u => Some (describe_user u, is_all (enabled_commands u))) =
    Some ("user x on"%string, true).
Proof. vm_compute. reflexivity. Qed.

End AclAuth.
