(* ===== verification/Atomic.v ===== *)
(** * Programs over atomic words

    The lock-free parts of wedb read and write [AtomicU64] cells.  A program
    is a tree of atomic actions ([prog]); loops carry fuel.  Two semantics are
    given to the same tree: [run] executes it alone, and [pstep] interleaves any
    number of threads, one atomic action at a time, weak compare-exchange
    failing spuriously whenever it likes.  (Interleavings are sequentially
    consistent: the [Acquire]/[Release] annotations of the source are not used
    to allow more behaviours.)  [wp] is a rely-guarantee weakest precondition:
    each thread owns a ghost value, a global invariant ties the memory to the
    ghost values of all threads, and [pool_safe] shows that the invariant holds
    in every reachable state. *)

From stdpp Require Import base list numbers option tactics relations.
From Stdlib Require Import ZArith Lia Bool.
From S2P Require Import Prelude.

Section Programs.
Context {L : Type} `{EqDecision L}.

Inductive prog (A : Type) : Type :=
| Ret (a : A)
| Load (l : L) (k : Z -> prog A)
| Store (l : L) (v : Z) (k : prog A)
| Cas (weak : bool) (l : L) (old new : Z) (k : bool -> Z -> prog A)
| Rmw (l : L) (f : Z -> Z) (k : Z -> prog A).
Arguments Ret {A} _.
Arguments Load {A} _ _.
Arguments Store {A} _ _ _.
Arguments Cas {A} _ _ _ _ _.
Arguments Rmw {A} _ _ _.

Fixpoint bind {A B} (p : prog A) (f : A -> prog B) : prog B :=
  match p with
  | Ret a => f a
  | Load l k => Load l (fun v => bind (k v) f)
  | Store l v k => Store l v (bind k f)
  | Cas w l o n k => Cas w l o n (fun ok v => bind (k ok v) f)
  | Rmw l g k => Rmw l g (fun v => bind (k v) f)
  end.

(** One-action programs, named after the [AtomicU64] methods. *)
Definition load (l : L) : prog Z := Load l Ret.
Definition store (l : L) (v : Z) : prog unit := Store l v (Ret tt).
Definition compare_exchange (l : L) (old new : Z) : prog (bool * Z) :=
  Cas false l old new (fun ok v => Ret (ok, v)).
Definition compare_exchange_weak (l : L) (old new : Z) : prog (bool * Z) :=
  Cas true l old new (fun ok v => Ret (ok, v)).
Definition fetch_add (l : L) (x : Z) : prog Z := Rmw l (fun v => wadd 64 v x) Ret.
Definition fetch_sub (l : L) (x : Z) : prog Z := Rmw l (fun v => wsub 64 v x) Ret.
Definition fetch_or (l : L) (x : Z) : prog Z := Rmw l (fun v => Z.lor v x) Ret.
Definition fetch_and (l : L) (x : Z) : prog Z := Rmw l (fun v => Z.land v x) Ret.
Definition fetch_max (l : L) (x : Z) : prog Z := Rmw l (fun v => Z.max v x) Ret.

(** ** Memory and solitary execution *)

Definition mem : Type := L -> Z.
Definition upd (m : mem) (l : L) (v : Z) : mem :=
  fun l' => if decide (l = l') then v else m l'.

Fixpoint run {A} (p : prog A) (m : mem) : A * mem :=
  match p with
  | Ret a => (a, m)
  | Load l k => run (k (m l)) m
  | Store l v k => run k (upd m l v)
  | Cas _ l old new k =>
      if m l =? old then run (k true old) (upd m l new) else run (k false (m l)) m
  | Rmw l f k => run (k (m l)) (upd m l (f (m l)))
  end.

Lemma upd_eq m l v : upd m l v l = v.
Proof. unfold upd. by rewrite decide_True. Qed.

Lemma upd_ne m l l' v : l <> l' -> upd m l v l' = m l'.
Proof. intros. unfold upd. by rewrite decide_False. Qed.

Lemma run_bind {A B} (p : prog A) (f : A -> prog B) m :
  run (bind p f) m = let '(a, m') := run p m in run (f a) m'.
Proof.
  revert m. induction p as [a|l k IH|l v k IH|w l old new k IH|l g k IH]; intros m; simpl; auto.
  destruct (m l =? old); auto.
Qed.

(** Solitary execution of each action. *)
Lemma run_load {B} l (f : Z -> prog B) m : run (bind (load l) f) m = run (f (m l)) m.
Proof. reflexivity. Qed.

Lemma run_store {B} l v (f : unit -> prog B) m : run (bind (store l v) f) m = run (f tt) (upd m l v).
Proof. reflexivity. Qed.

Lemma run_cas_ok {B} l old new (f : bool * Z -> prog B) m :
  m l = old -> run (bind (compare_exchange l old new) f) m = run (f (true, old)) (upd m l new).
Proof. intros <-. simpl. by rewrite Z.eqb_refl. Qed.

Lemma run_cas_weak_ok {B} l old new (f : bool * Z -> prog B) m :
  m l = old -> run (bind (compare_exchange_weak l old new) f) m = run (f (true, old)) (upd m l new).
Proof. intros <-. simpl. by rewrite Z.eqb_refl. Qed.

Lemma run_fetch_add {B} l x (f : Z -> prog B) m :
  run (bind (fetch_add l x) f) m = run (f (m l)) (upd m l (wadd 64 (m l) x)).
Proof. reflexivity. Qed.

Lemma run_fetch_sub {B} l x (f : Z -> prog B) m :
  run (bind (fetch_sub l x) f) m = run (f (m l)) (upd m l (wsub 64 (m l) x)).
Proof. reflexivity. Qed.

(** ** Interleaving *)

Inductive step {A} : mem -> prog A -> mem -> prog A -> Prop :=
| step_load m l k : step m (Load l k) m (k (m l))
| step_store m l v k : step m (Store l v k) (upd m l v) k
| step_cas_ok m w l old new k :
    m l = old -> step m (Cas w l old new k) (upd m l new) (k true old)
| step_cas_fail m w l old new k :
    m l <> old -> step m (Cas w l old new k) m (k false (m l))
| step_cas_spurious m l old new k :
    step m (Cas true l old new k) m (k false (m l))
| step_rmw m l f k : step m (Rmw l f k) (upd m l (f (m l))) (k (m l)).

Definition pool (A : Type) : Type := mem * list (prog A).

Inductive pstep {A} : pool A -> pool A -> Prop :=
| pstep_thread m ps i p m' p' :
    ps !! i = Some p -> step m p m' p' -> pstep (m, ps) (m', <[i := p']> ps).

Lemma pstep_length {A} (c c' : pool A) : rtc pstep c c' -> length c'.2 = length c.2.
Proof.
  induction 1 as [|c1 c2 c3 Hs _ IH]; [done|]. rewrite IH.
  destruct Hs. simpl. apply length_insert.
Qed.

Lemma pstep_then {A} (m m' m'' : mem) (ps : list (prog A)) i p p' r :
  ps !! i = Some p -> step m p m' p' ->
  (<[i := p']> ps !! i = Some p' -> rtc pstep (m', <[i := p']> ps) (m'', <[i := r]> (<[i := p']> ps))) ->
  rtc pstep (m, ps) (m'', <[i := r]> ps).
Proof.
  intros Hi Hs Hr. eapply rtc_l; [by eapply pstep_thread|].
  rewrite list_insert_insert_eq in Hr. apply Hr.
  apply list_lookup_insert_eq. by eapply lookup_lt_Some.
Qed.

(** Solitary execution is one of the interleavings. *)
Lemma run_steps {A} (p : prog A) m ps i :
  ps !! i = Some p ->
  rtc pstep (m, ps) ((run p m).2, <[i := Ret (run p m).1]> ps).
Proof.
  revert m ps. induction p as [a|l k IH|l v k IH|w l old new k IH|l g k IH]; intros m ps Hi; simpl.
  - by rewrite list_insert_id.
  - eapply pstep_then; [done|apply step_load|apply IH].
  - eapply pstep_then; [done|apply step_store|apply IH].
  - destruct (Z.eqb_spec (m l) old).
    + eapply pstep_then; [done|by apply step_cas_ok|apply IH].
    + eapply pstep_then; [done|by apply step_cas_fail|apply IH].
  - eapply pstep_then; [done|apply step_rmw|apply IH].
Qed.

(** The first [n] actions of a solitary execution. *)
Fixpoint run_for {A} (n : nat) (p : prog A) (m : mem) : mem * prog A :=
  match n with
  | O => (m, p)
  | S n' =>
      match p with
      | Ret a => (m, Ret a)
      | Load l k => run_for n' (k (m l)) m
      | Store l v k => run_for n' k (upd m l v)
      | Cas _ l old new k =>
          if m l =? old then run_for n' (k true old) (upd m l new) else run_for n' (k false (m l)) m
      | Rmw l f k => run_for n' (k (m l)) (upd m l (f (m l)))
      end
  end.

Lemma run_for_steps {A} n (p : prog A) m ps i :
  ps !! i = Some p -> rtc pstep (m, ps) ((run_for n p m).1, <[i := (run_for n p m).2]> ps).
Proof.
  revert p m ps. induction n as [|n IH]; intros p m ps Hi; simpl; [by rewrite list_insert_id|].
  destruct p as [a|l k|l v k|w l old new k|l g k]; simpl.
  - by rewrite list_insert_id.
  - eapply pstep_then; [done|apply step_load|apply IH].
  - eapply pstep_then; [done|apply step_store|apply IH].
  - destruct (Z.eqb_spec (m l) old).
    + eapply pstep_then; [done|by apply step_cas_ok|apply IH].
    + eapply pstep_then; [done|by apply step_cas_fail|apply IH].
  - eapply pstep_then; [done|apply step_rmw|apply IH].
Qed.

(** ** Rely-guarantee weakest preconditions *)

Section Logic.
Context {G : Type} (Inv : mem -> list G -> Prop).

(** The thread with ghost [g] may move the memory from [m] to [m'] and its
    ghost to [g'] without breaking the invariant. *)
Definition guar (m m' : mem) (i : nat) (gs : list G) (g' : G) : Prop :=
  Inv m' (<[i := g']> gs).

Fixpoint wp {A} (p : prog A) (g : G) (Q : A -> G -> Prop) : Prop :=
  match p with
  | Ret a => Q a g
  | Load l k =>
      forall m gs i, Inv m gs -> gs !! i = Some g ->
        exists g', guar m m i gs g' /\ wp (k (m l)) g' Q
  | Store l v k =>
      forall m gs i, Inv m gs -> gs !! i = Some g ->
        exists g', guar m (upd m l v) i gs g' /\ wp k g' Q
  | Cas w l old new k =>
      forall m gs i, Inv m gs -> gs !! i = Some g ->
        (m l = old -> exists g', guar m (upd m l new) i gs g' /\ wp (k true old) g' Q) /\
        (m l <> old \/ w = true -> exists g', guar m m i gs g' /\ wp (k false (m l)) g' Q)
  | Rmw l f k =>
      forall m gs i, Inv m gs -> gs !! i = Some g ->
        exists g', guar m (upd m l (f (m l))) i gs g' /\ wp (k (m l)) g' Q
  end.

Lemma wp_mono {A} (p : prog A) g (Q R : A -> G -> Prop) :
  (forall a h, Q a h -> R a h) -> wp p g Q -> wp p g R.
Proof.
  intros HQR. revert g. induction p as [a|l k IH|l v k IH|w l old new k IH|l f k IH];
    intros g; simpl; [by apply HQR|..]; intros Hp m gs i Hi Hg;
    specialize (Hp m gs i Hi Hg).
  - destruct Hp as (g' & ? & ?). eauto.
  - destruct Hp as (g' & ? & ?). eauto.
  - destruct Hp as [Hok Hfail]. split; [intros Hm; destruct (Hok Hm) as (g' & ? & ?)
      |intros Hm; destruct (Hfail Hm) as (g' & ? & ?)]; eauto.
  - destruct Hp as (g' & ? & ?). eauto.
Qed.

Lemma wp_bind {A B} (p : prog A) (f : A -> prog B) g Q :
  wp p g (fun a h => wp (f a) h Q) -> wp (bind p f) g Q.
Proof.
  revert g. induction p as [a|l k IH|l v k IH|w l old new k IH|l h k IH];
    intros g; simpl; [done|..]; intros Hp m gs i Hi Hg;
    specialize (Hp m gs i Hi Hg).
  - destruct Hp as (g' & ? & ?). eauto.
  - destruct Hp as (g' & ? & ?). eauto.
  - destruct Hp as [Hok Hfail]. split; [intros Hm; destruct (Hok Hm) as (g' & ? & ?)
      |intros Hm; destruct (Hfail Hm) as (g' & ? & ?)]; eauto.
  - destruct Hp as (g' & ? & ?). eauto.
Qed.

(** One step of a thread keeps its precondition and the invariant. *)
Lemma wp_step {A} m (p : prog A) m' p' g gs i Q :
  step m p m' p' -> Inv m gs -> gs !! i = Some g -> wp p g Q ->
  exists g', Inv m' (<[i := g']> gs) /\ wp p' g' Q.
Proof.
  intros Hs Hi Hg Hp. destruct Hs; simpl in Hp; specialize (Hp _ _ _ Hi Hg).
  - exact Hp.
  - exact Hp.
  - destruct Hp as [Hok _]. auto.
  - destruct Hp as [_ Hfail]. auto.
  - destruct Hp as [_ Hfail]. auto.
  - exact Hp.
Qed.

(** Threads paired with their ghosts. *)
Definition pool_ok {A} (Q : A -> G -> Prop) (c : pool A) : Prop :=
  exists gs, Inv c.1 gs /\ Forall2 (fun p g => wp p g Q) c.2 gs.

Lemma pool_ok_step {A} (Q : A -> G -> Prop) c c' :
  pstep c c' -> pool_ok Q c -> pool_ok Q c'.
Proof.
  destruct 1 as [m ps i p m' p' Hp Hs]. intros (gs & Hi & Hall). simpl in *.
  destruct (Forall2_lookup_l _ _ _ _ _ Hall Hp) as (g & Hg & Hwp).
  destruct (wp_step _ _ _ _ _ _ _ _ Hs Hi Hg Hwp) as (g' & Hi' & Hwp').
  exists (<[i := g']> gs). split; [done|]. simpl. by apply Forall2_insert.
Qed.

(** Every reachable configuration satisfies the invariant. *)
Lemma pool_safe {A} (Q : A -> G -> Prop) c c' :
  rtc pstep c c' -> pool_ok Q c -> pool_ok Q c'.
Proof. induction 1; eauto using pool_ok_step. Qed.

End Logic.
End Programs.

Arguments prog L A : clear implicits.
Arguments mem L : clear implicits.
Arguments Ret {L A} _.
Arguments Load {L A} _ _.
Arguments Store {L A} _ _ _.
Arguments Cas {L A} _ _ _ _ _.
Arguments Rmw {L A} _ _ _.

(** The same program on cells renamed by [f]. *)
Fixpoint relocate {L M A} (f : L -> M) (p : prog L A) : prog M A :=
  match p with
  | Ret a => Ret a
  | Load l k => Load (f l) (fun v => relocate f (k v))
  | Store l v k => Store (f l) v (relocate f k)
  | Cas w l o n k => Cas w (f l) o n (fun ok v => relocate f (k ok v))
  | Rmw l g k => Rmw (f l) g (fun v => relocate f (k v))
  end.

(** Every value the program can return, whatever its loads observe. *)
Fixpoint always {L A} (P : A -> Prop) (p : prog L A) : Prop :=
  match p with
  | Ret a => P a
  | Load _ k => forall v, always P (k v)
  | Store _ _ k => always P k
  | Cas _ _ _ _ k => forall ok v, always P (k ok v)
  | Rmw _ _ k => forall v, always P (k v)
  end.

Lemma always_bind {L A B} (p : prog L A) (f : A -> prog L B) Q P :
  always Q p -> (forall a, Q a -> always P (f a)) -> always P (bind p f).
Proof. induction p; simpl; eauto. Qed.

Lemma always_true {L A} (p : prog L A) : always (fun _ => True) p.
Proof. induction p; simpl; auto. Qed.

(** Every cell the program can write satisfies [P]. *)
Fixpoint writes {L A} (P : L -> Prop) (p : prog L A) : Prop :=
  match p with
  | Ret _ => True
  | Load _ k => forall v, writes P (k v)
  | Store l _ k => P l /\ writes P k
  | Cas _ l _ _ k => P l /\ forall ok v, writes P (k ok v)
  | Rmw l _ k => P l /\ forall v, writes P (k v)
  end.

Lemma writes_bind {L A B} P (p : prog L A) (f : A -> prog L B) :
  writes P p -> (forall a, writes P (f a)) -> writes P (bind p f).
Proof. intros Hp Hf. revert Hp. induction p; simpl; intuition auto. Qed.

Lemma writes_relocate {L M A} (f : L -> M) P (p : prog L A) :
  (forall l, P (f l)) -> writes P (relocate f p).
Proof. intros Hf. induction p; simpl; auto. Qed.

Lemma run_writes {L A} `{EqDecision L} P (p : prog L A) m l :
  writes P p -> ~ P l -> (run p m).2 l = m l.
Proof.
  intros Hp Hl. revert m Hp. induction p as [a|x k IH|x v k IH|w x old new k IH|x g k IH];
    intros m; cbn [writes run]; auto.
  - intros [Hx Hk]. rewrite IH by done. apply upd_ne. by intros ->.
  - intros [Hx Hk]. destruct (m x =? old); [|auto]. rewrite IH by done. apply upd_ne. by intros ->.
  - intros [Hx Hk]. rewrite IH by done. apply upd_ne. by intros ->.
Qed.

(** A program that only writes cells the invariant does not look at. *)
Lemma wp_frame {L A G} `{EqDecision L} (Inv : mem L -> list G -> Prop) P (p : prog L A) g :
  (forall m gs l v, Inv m gs -> P l -> Inv (upd m l v) gs) ->
  writes P p -> wp Inv p g (fun _ h => h = g).
Proof.
  intros HI. induction p as [a|l k IH|l v k IH|w l old new k IH|l f k IH]; simpl; [done|..];
    intros Hp m gs i Hm Hg; unfold guar.
  - exists g. rewrite list_insert_id by done. auto.
  - destruct Hp. exists g. rewrite list_insert_id by done. auto.
  - destruct Hp. split; intros _; exists g; rewrite list_insert_id by done; auto.
  - destruct Hp. exists g. rewrite list_insert_id by done. auto.
Qed.

Declare Scope prog_scope.
Delimit Scope prog_scope with prog.
Notation "'let*' x := p 'in' q" := (bind p (fun x => q))
  (at level 10, x pattern, p at level 100, q at level 200) : prog_scope.
Notation "p ';;' q" := (bind p (fun _ => q))
  (at level 100, q at level 200, right associativity) : prog_scope.
