(* ===== verification/Bucket.v ===== *)
(** * Hash buckets ([wedb/windex/src/entry.rs], [wedb/windex/src/bucket.rs])

    [Entry] is the packed slot word: 48-bit address, 15-bit tag, tentative bit.
    [Bucket] is one cache line of eight atomic words, seven slots and the
    overflow word, whose high bits are the bucket latch.  A bucket is named by
    the function [entries] from a slot number to its cell, so that the same code
    runs in any memory. *)

From stdpp Require Import base list numbers option tactics.
From Stdlib Require Import ZArith Lia Bool.
From S2P Require Import Prelude Base Atomic.
Local Open Scope prog_scope.

Module Entry.

Definition TAG_BITS : Z := 63 - Addr.ADDRESS_BITS.
Definition TAG_SHIFT : Z := 63 - TAG_BITS.
Definition TAG_MASK : Z := Z.shiftl 1 TAG_BITS - 1.
Definition TAG_POS_MASK : Z := Z.shiftl TAG_MASK TAG_SHIFT.
Definition TENTATIVE_SHIFT : Z := 63.
Definition TENTATIVE_MASK : Z := Z.shiftl 1 TENTATIVE_SHIFT.
Definition HASH_TAG_SHIFT : Z := 64 - TAG_BITS.

(** [HashBucketEntry::new]: the packed word. *)
Definition new (address tag : Z) (tentative : bool) : Z :=
  Z.lor (Z.lor (Z.land address Addr.ADDRESS_MASK)
               (Z.shiftl (Z.land tag TAG_MASK) TAG_SHIFT))
        (if tentative then TENTATIVE_MASK else 0).

Definition address (raw : Z) : Z := Z.land raw Addr.ADDRESS_MASK.
Definition tag (raw : Z) : Z := wrap 16 (Z.shiftr (Z.land raw TAG_POS_MASK) TAG_SHIFT).
Definition is_tentative (raw : Z) : bool := negb (Z.land raw TENTATIVE_MASK =? 0).
Definition is_empty (raw : Z) : bool := raw =? 0.
Definition is_valid (raw : Z) : bool := negb (raw =? 0) && negb (is_tentative raw).
Definition is_read_cache (raw : Z) : bool := negb (Z.land raw Addr.READ_CACHE_BIT =? 0).
Definition matches_tag (raw tag : Z) : bool :=
  (Z.shiftr raw TAG_SHIFT =? Z.land tag TAG_MASK) && negb (Z.land raw Addr.ADDRESS_MASK =? 0).
Definition with_tentative (raw : Z) (tentative : bool) : Z :=
  if tentative then Z.lor raw TENTATIVE_MASK else Z.land raw (bnot 64 TENTATIVE_MASK).
Definition with_tag (raw tag : Z) : Z :=
  Z.lor (Z.land raw (bnot 64 TAG_POS_MASK)) (Z.shiftl (Z.land tag TAG_MASK) TAG_SHIFT).
Definition tag_from_hash (hash : Z) : Z :=
  wrap 16 (Z.land (Z.shiftr hash HASH_TAG_SHIFT) TAG_MASK).

End Entry.

Module Bucket.

Definition DATA_ENTRIES : nat := 7.
Definition OVERFLOW_INDEX : nat := 7.
Definition ENTRIES_PER_BUCKET : nat := 8.
Definition MAX_LOCK_SPINS : nat := 10.
Definition MAX_READER_DRAIN_SPINS : nat := 100.
Definition SHARED_LATCH_BITS : Z := 13.
Definition SHARED_LATCH_SHIFT : Z := Addr.ADDRESS_BITS.
Definition SHARED_LATCH_MASK : Z :=
  Z.shiftl (Z.shiftl 1 SHARED_LATCH_BITS - 1) SHARED_LATCH_SHIFT.
Definition SHARED_LATCH_INC : Z := Z.shiftl 1 SHARED_LATCH_SHIFT.
Definition HANDOFF_SHIFT : Z := SHARED_LATCH_SHIFT + SHARED_LATCH_BITS.
Definition HANDOFF_MASK : Z := Z.shiftl 1 HANDOFF_SHIFT.
Definition RELEASE_NOTIFY_SHIFT : Z := HANDOFF_SHIFT + 1.
Definition RELEASE_NOTIFY_MASK : Z := Z.shiftl 1 RELEASE_NOTIFY_SHIFT.
Definition EXCLUSIVE_LATCH_SHIFT : Z := 63.
Definition EXCLUSIVE_LATCH_MASK : Z := Z.shiftl 1 EXCLUSIVE_LATCH_SHIFT.
Definition LATCH_MASK : Z := Z.lor SHARED_LATCH_MASK EXCLUSIVE_LATCH_MASK.

Section Methods.
Context {L : Type} (entries : nat -> L).

Definition overflow_word : L := entries OVERFLOW_INDEX.

Fixpoint lock_shared_spin (spins : nat) : prog L bool :=
  match spins with
  | O => Ret false
  | S spins' =>
      let* curr := load overflow_word in
      if (Z.land curr EXCLUSIVE_LATCH_MASK =? 0)
         && negb (Z.land curr SHARED_LATCH_MASK =? SHARED_LATCH_MASK)
      then
        let new_val := curr + SHARED_LATCH_INC in
        let* r := compare_exchange_weak overflow_word curr new_val in
        if fst r then Ret true else lock_shared_spin spins'
      else lock_shared_spin spins'
  end.

Definition try_lock_shared : prog L bool := lock_shared_spin MAX_LOCK_SPINS.

Definition unlock_shared : prog L unit :=
  let* _ := fetch_sub overflow_word SHARED_LATCH_INC in Ret tt.

Definition handoff_pending : prog L bool :=
  let* curr := load overflow_word in Ret (negb (Z.land curr HANDOFF_MASK =? 0)).

Fixpoint drain_spin (spins : nat) : prog L bool :=
  match spins with
  | O => Ret false
  | S spins' =>
      let* curr := load overflow_word in
      if Z.land curr SHARED_LATCH_MASK =? 0 then Ret true else drain_spin spins'
  end.

(** The unbounded rollback loop, with fuel; [false] when fuel runs out. *)
Fixpoint rollback_loop (fuel : nat) : prog L bool :=
  match fuel with
  | O => Ret false
  | S fuel' =>
      let* curr := load overflow_word in
      let new_val := Z.land curr (bnot 64 EXCLUSIVE_LATCH_MASK) in
      let* r := compare_exchange_weak overflow_word curr new_val in
      if fst r then Ret true else rollback_loop fuel'
  end.

(** [None]: still in the rollback loop when the fuel ran out. *)
Definition drain_or_rollback (fuel : nat) : prog L (option bool) :=
  let* drained := drain_spin MAX_READER_DRAIN_SPINS in
  if drained then Ret (Some true)
  else let* rolled := rollback_loop fuel in
       Ret (if rolled then Some false else None).

Fixpoint acquire_bit_spin (spins : nat) : prog L bool :=
  match spins with
  | O => Ret false
  | S spins' =>
      let* curr := load overflow_word in
      if Z.land curr EXCLUSIVE_LATCH_MASK =? 0 then
        let new_val := Z.lor curr EXCLUSIVE_LATCH_MASK in
        let* r := compare_exchange_weak overflow_word curr new_val in
        if fst r then Ret true else acquire_bit_spin spins'
      else acquire_bit_spin spins'
  end.

Definition try_lock_exclusive_now (fuel : nat) : prog L (option bool) :=
  let* acquired_bit := acquire_bit_spin MAX_LOCK_SPINS in
  if negb acquired_bit then Ret (Some false) else drain_or_rollback fuel.

Definition try_lock_exclusive (fuel : nat) : prog L (option bool) :=
  let* pending := handoff_pending in
  if pending then Ret (Some false) else try_lock_exclusive_now fuel.

Definition unlock_exclusive : prog L unit :=
  let* _ := fetch_and overflow_word (bnot 64 EXCLUSIVE_LATCH_MASK) in
  let* _ := fetch_or overflow_word RELEASE_NOTIFY_MASK in
  Ret tt.

Fixpoint consume_loop (fuel : nat) (curr : Z) : prog L (option bool) :=
  match fuel with
  | O => Ret None
  | S fuel' =>
      let* r := compare_exchange_weak overflow_word curr
                  (Z.land curr (bnot 64 RELEASE_NOTIFY_MASK)) in
      if fst r then Ret (Some true)
      else if Z.land (snd r) RELEASE_NOTIFY_MASK =? 0 then Ret (Some false)
      else consume_loop fuel' (snd r)
  end.

Definition consume_release_notify (fuel : nat) : prog L (option bool) :=
  let* curr := load overflow_word in
  if Z.land curr RELEASE_NOTIFY_MASK =? 0 then Ret (Some false) else consume_loop fuel curr.

Definition set_handoff : prog L unit :=
  let* _ := fetch_or overflow_word HANDOFF_MASK in Ret tt.

Definition clear_handoff : prog L unit :=
  let* _ := fetch_and overflow_word (bnot 64 HANDOFF_MASK) in Ret tt.

Definition is_latched_exclusive : prog L bool :=
  let* curr := load overflow_word in Ret (negb (Z.land curr EXCLUSIVE_LATCH_MASK =? 0)).

Definition is_latched_shared : prog L bool :=
  let* curr := load overflow_word in Ret (negb (Z.land curr SHARED_LATCH_MASK =? 0)).

Definition num_latched_shared : prog L Z :=
  let* curr := load overflow_word in
  Ret (wrap 16 (Z.shiftr (Z.land curr SHARED_LATCH_MASK) SHARED_LATCH_SHIFT)).

Definition is_latched : prog L bool :=
  let* curr := load overflow_word in Ret (negb (Z.land curr LATCH_MASK =? 0)).

Definition overflow_index : prog L Z :=
  let* curr := load overflow_word in Ret (Z.land curr Addr.ADDRESS_MASK).

Fixpoint set_overflow_loop (fuel : nat) (target_addr curr : Z) : prog L (option bool) :=
  match fuel with
  | O => Ret None
  | S fuel' =>
      if negb (Z.land curr Addr.ADDRESS_MASK =? 0) then Ret (Some false)
      else
        let new_val := Z.lor curr target_addr in
        let* r := compare_exchange_weak overflow_word curr new_val in
        if fst r then Ret (Some true) else set_overflow_loop fuel' target_addr (snd r)
  end.

Definition set_overflow_index (fuel : nat) (overflow_idx : Z) : prog L (option bool) :=
  if overflow_idx =? 0 then Ret (Some false)
  else
    let target_addr := Z.land overflow_idx Addr.ADDRESS_MASK in
    let* curr := load overflow_word in
    set_overflow_loop fuel target_addr curr.

(** [find_tag_address]: slots are tried in order, each loaded twice. *)
Definition check_tag_slot (expected_hi : Z) (i : nat) : prog L (option Z) :=
  let* raw := load (entries i) in
  if raw =? 0 then Ret None
  else if Z.shiftr raw Entry.TAG_SHIFT =? expected_hi then
    let* synced := load (entries i) in
    if Z.shiftr synced Entry.TAG_SHIFT =? expected_hi then
      let addr := Z.land synced Addr.ADDRESS_MASK in
      if negb (addr =? 0) then Ret (Some addr) else Ret None
    else Ret None
  else Ret None.

(** The unrolled sequence of [if let Some(..) = check(slot)]. *)
Fixpoint first_some {A} (check : nat -> prog L (option A)) (slots : list nat) : prog L (option A) :=
  match slots with
  | [] => Ret None
  | i :: rest =>
      let* r := check i in
      match r with
      | Some a => Ret (Some a)
      | None => first_some check rest
      end
  end.

Definition find_tag_address (tag : Z) : prog L (option Z) :=
  first_some (check_tag_slot (Z.land tag Entry.TAG_MASK)) (seq 0 DATA_ENTRIES).

Definition check_entry_slot (target_raw : Z) (i : nat) : prog L (option (nat * Z)) :=
  let* raw := load (entries i) in
  if raw =? 0 then Ret None
  else if raw =? target_raw then
    let* synced := load (entries i) in
    if synced =? target_raw then Ret (Some (i, synced)) else Ret None
  else Ret None.

Definition find_entry_by_address (tag address : Z) : prog L (option (nat * Z)) :=
  first_some (check_entry_slot (Entry.new address tag false)) (seq 0 DATA_ENTRIES).

Definition check_empty_slot (i : nat) : prog L (option nat) :=
  let* raw := load (entries i) in
  if raw =? 0 then Ret (Some i) else Ret None.

Definition find_empty_slot : prog L (option nat) :=
  first_some check_empty_slot (seq 0 DATA_ENTRIES).

Definition try_insert (slot : nat) (tag address : Z) : prog L bool :=
  if (DATA_ENTRIES <=? slot)%nat then Ret false
  else
    let entry := Entry.new address tag false in
    let* r := compare_exchange (entries slot) 0 entry in
    Ret (fst r).

End Methods.

End Bucket.
