(* ===== verification/Latch.v ===== *)
(** * The bucket latch under concurrency ([wedb/windex/src/bucket.rs])

    Any number of threads acquire and release the latch of one bucket through
    the methods of [Bucket], in any interleaving of their atomic actions.  The
    invariant ties the latch word to what each thread believes it holds: the
    shared field counts the readers, the exclusive bit is set exactly when one
    thread is draining or owns the bucket, and an owner excludes readers. *)

From stdpp Require Import base list numbers option tactics relations.
From Stdlib Require Import ZArith Lia Bool.
From S2P Require Import Prelude Base Atomic Bucket.
Local Open Scope prog_scope.

Module Latch.
Import Bucket.

(** ** The latch word as fields *)

Definition shared_of (w : Z) : Z := Z.shiftr (Z.land w SHARED_LATCH_MASK) SHARED_LATCH_SHIFT.
Definition excl_of (w : Z) : bool := Z.testbit w 63.

Lemma shared_mask_eq : SHARED_LATCH_MASK = Z.shiftl (Z.ones 13) 48.
Proof. reflexivity. Qed.

Lemma excl_mask_eq : EXCLUSIVE_LATCH_MASK = 2 ^ 63.
Proof. reflexivity. Qed.

Lemma shared_of_div w : shared_of w = (w / 2 ^ 48) mod 2 ^ 13.
Proof.
  unfold shared_of. rewrite shared_mask_eq. unfold SHARED_LATCH_SHIFT, Addr.ADDRESS_BITS.
  rewrite <- Z.shiftr_div_pow2, <- Z.land_ones by lia. bitblast.
Qed.

Lemma shared_of_bits w v :
  (forall i, 48 <= i < 61 -> Z.testbit w i = Z.testbit v i) -> shared_of w = shared_of v.
Proof.
  intros H. unfold shared_of. rewrite shared_mask_eq. unfold SHARED_LATCH_SHIFT, Addr.ADDRESS_BITS.
  apply Z.bits_inj'. intros i Hi. bit_push. repeat bit_split; bit_bool; try done; try lia.
  apply H. lia.
Qed.

Lemma shared_of_bound w : 0 <= shared_of w < 2 ^ 13.
Proof. rewrite shared_of_div. apply Z.mod_pos_bound. lia. Qed.

Lemma excl_free w : (Z.land w EXCLUSIVE_LATCH_MASK =? 0) = negb (excl_of w).
Proof.
  unfold excl_of. rewrite excl_mask_eq, <- (land_pow2_nonzero w 63), negb_involutive by lia. done.
Qed.

Lemma shared_field w : Z.land w SHARED_LATCH_MASK = shared_of w * 2 ^ 48.
Proof.
  unfold shared_of, SHARED_LATCH_SHIFT, Addr.ADDRESS_BITS.
  rewrite <- Z.shiftl_mul_pow2, shared_mask_eq by lia. bitblast.
Qed.

Lemma shared_zero w : (Z.land w SHARED_LATCH_MASK =? 0) = (shared_of w =? 0).
Proof. rewrite shared_field. repeat bit_split; lia. Qed.

Lemma shared_full w :
  (Z.land w SHARED_LATCH_MASK =? SHARED_LATCH_MASK) = (shared_of w =? 2 ^ 13 - 1).
Proof.
  rewrite shared_field. change SHARED_LATCH_MASK with ((2 ^ 13 - 1) * 2 ^ 48).
  repeat bit_split; lia.
Qed.

(** What each atomic update does to the fields. *)

Lemma inc_fields w :
  fits 64 w -> shared_of w <> 2 ^ 13 - 1 ->
  fits 64 (w + SHARED_LATCH_INC) /\ shared_of (w + SHARED_LATCH_INC) = shared_of w + 1 /\
  excl_of (w + SHARED_LATCH_INC) = excl_of w.
Proof.
  change SHARED_LATCH_INC with (2 ^ 48). intros Hw Hs. rewrite !shared_of_div in *.
  assert (Hw' : fits 64 (w + 2 ^ 48)) by (unfold fits in *; euclid).
  split; [done|]. split; [unfold fits in *; euclid|].
  unfold excl_of. rewrite !testbit_top by done. unfold fits in *.
  repeat bit_split; try done; euclid.
Qed.

Lemma dec_fields w :
  fits 64 w -> 0 < shared_of w ->
  fits 64 (wsub 64 w SHARED_LATCH_INC) /\
  shared_of (wsub 64 w SHARED_LATCH_INC) = shared_of w - 1 /\
  excl_of (wsub 64 w SHARED_LATCH_INC) = excl_of w.
Proof.
  change SHARED_LATCH_INC with (2 ^ 48). intros Hw Hs. unfold wsub. rewrite !shared_of_div in *.
  assert (Hw' : fits 64 (w - 2 ^ 48)) by (unfold fits in *; euclid).
  rewrite wrap_id by done.
  split; [done|]. split; [unfold fits in *; euclid|].
  unfold excl_of. rewrite !testbit_top by done. unfold fits in *.
  repeat bit_split; try done; euclid.
Qed.

Lemma set_excl_fields w :
  fits 64 w ->
  fits 64 (Z.lor w EXCLUSIVE_LATCH_MASK) /\
  shared_of (Z.lor w EXCLUSIVE_LATCH_MASK) = shared_of w /\
  excl_of (Z.lor w EXCLUSIVE_LATCH_MASK) = true.
Proof.
  rewrite excl_mask_eq. intros Hw. split; [|split].
  - apply fits_lor; [lia|done|unfold fits; lia].
  - apply shared_of_bits. intros i Hi. bit_push. bit_split; [lia|]. apply orb_false_r.
  - unfold excl_of. bit_push. apply orb_true_r.
Qed.

Lemma clear_excl_fields w :
  fits 64 w ->
  fits 64 (Z.land w (bnot 64 EXCLUSIVE_LATCH_MASK)) /\
  shared_of (Z.land w (bnot 64 EXCLUSIVE_LATCH_MASK)) = shared_of w /\
  excl_of (Z.land w (bnot 64 EXCLUSIVE_LATCH_MASK)) = false.
Proof.
  rewrite excl_mask_eq. intros Hw. split; [|split].
  - by apply fits_land_l.
  - apply shared_of_bits. intros i Hi. bit_push. repeat bit_split; try lia. apply andb_true_r.
  - unfold excl_of. bit_push. apply andb_false_r.
Qed.

(** Updates that only touch bits outside the latch fields. *)
Lemma outside_or_fields w x :
  fits 64 w -> fits 64 x ->
  (forall i, 48 <= i < 61 \/ i = 63 -> Z.testbit x i = false) ->
  fits 64 (Z.lor w x) /\ shared_of (Z.lor w x) = shared_of w /\ excl_of (Z.lor w x) = excl_of w.
Proof.
  intros Hw Hx Hb. split; [by apply fits_lor|]. split.
  - apply shared_of_bits. intros i Hi. rewrite Z.lor_spec, (Hb i) by lia. apply orb_false_r.
  - unfold excl_of. rewrite Z.lor_spec, (Hb 63) by lia. apply orb_false_r.
Qed.

Lemma outside_and_fields w x :
  fits 64 w -> (forall i, 48 <= i < 61 \/ i = 63 -> Z.testbit x i = true) ->
  fits 64 (Z.land w x) /\ shared_of (Z.land w x) = shared_of w /\ excl_of (Z.land w x) = excl_of w.
Proof.
  intros Hw Hb. split; [by apply fits_land_l|]. split.
  - apply shared_of_bits. intros i Hi. rewrite Z.land_spec, (Hb i) by lia. apply andb_true_r.
  - unfold excl_of. rewrite Z.land_spec, (Hb 63) by lia. apply andb_true_r.
Qed.

(** ** Threads, ghost states and the invariant *)

(** The memory holds the bucket's cells and, for each client thread, a flag
    that the thread raises while it is inside its critical section: 1 to read,
    2 to write. *)
Inductive lloc : Type :=
| Cell (i : nat)
| Flag (t : nat).

#[export] Instance lloc_eq_dec : EqDecision lloc.
Proof. solve_decision. Defined.

Inductive lstate : Type := Idle | Shared | Pending | Excl.

Record ghost : Type := mkGhost { g_tid : nat; g_st : lstate; g_fl : Z }.

Definition is_shared (g : ghost) : Z := match g_st g with Shared => 1 | _ => 0 end.
Definition is_holder (g : ghost) : Z := match g_st g with Pending | Excl => 1 | _ => 0 end.

Definition flag_ok (g : ghost) : Prop :=
  g_fl g = 0 \/ (g_fl g = 1 /\ (g_st g = Shared \/ g_st g = Excl)) \/ (g_fl g = 2 /\ g_st g = Excl).

Definition word (m : mem lloc) : Z := m (Cell OVERFLOW_INDEX).

Record Inv (m : mem lloc) (gs : list ghost) : Prop := {
  inv_fits : fits 64 (word m);
  inv_shared : shared_of (word m) = zsum is_shared gs;
  inv_holder : Z.b2z (excl_of (word m)) = zsum is_holder gs;
  inv_owner : forall i g, gs !! i = Some g -> g_st g = Excl -> shared_of (word m) = 0;
  inv_thread : forall i g, gs !! i = Some g -> g_tid g = i /\ m (Flag i) = g_fl g /\ flag_ok g
}.

Lemma is_shared_nonneg g : 0 <= is_shared g.
Proof. unfold is_shared. by destruct (g_st g). Qed.

Lemma is_holder_nonneg g : 0 <= is_holder g.
Proof. unfold is_holder. by destruct (g_st g). Qed.

Lemma excl_b2z w : 0 <= Z.b2z (excl_of w) <= 1.
Proof. by destruct (excl_of w). Qed.

(** The only rule used to change the latch word: thread [i] replaces it by
    [w'] while its own state goes from [g] to one with state [st']. *)
Lemma inv_word m gs i g w' st' :
  Inv m gs -> gs !! i = Some g ->
  fits 64 w' ->
  shared_of w' = shared_of (word m) - is_shared g + is_shared (mkGhost (g_tid g) st' (g_fl g)) ->
  Z.b2z (excl_of w') = Z.b2z (excl_of (word m)) - is_holder g
                       + is_holder (mkGhost (g_tid g) st' (g_fl g)) ->
  (st' = Excl -> shared_of w' = 0) ->
  (shared_of w' <= shared_of (word m) \/ excl_of (word m) = false) ->
  flag_ok (mkGhost (g_tid g) st' (g_fl g)) ->
  Inv (upd m (Cell OVERFLOW_INDEX) w') (<[i := mkGhost (g_tid g) st' (g_fl g)]> gs).
Proof.
  intros HI Hi Hfit Hsh Hho Hex Hmono Hfl. destruct HI as [I1 I2 I3 I4 I5].
  assert (Hlen : (i < length gs)%nat) by (by eapply lookup_lt_Some).
  constructor; unfold word in *; rewrite ?upd_eq.
  - done.
  - rewrite (zsum_insert _ _ _ _ _ Hi). lia.
  - rewrite (zsum_insert _ _ _ _ _ Hi). lia.
  - intros j h Hj Hst. destruct (decide (i = j)) as [<-|Hne].
    + rewrite list_lookup_insert_eq in Hj by done. simplify_eq/=. auto.
    + rewrite list_lookup_insert_ne in Hj by done.
      pose proof (I4 _ _ Hj Hst) as Hz. pose proof (shared_of_bound w').
      destruct Hmono as [|Hf]; [lia|].
      pose proof (zsum_lookup is_holder gs j h is_holder_nonneg Hj) as Hc.
      unfold is_holder at 1 in Hc. rewrite Hst in Hc. rewrite <- I3, Hf in Hc. done.
  - intros j h Hj. rewrite upd_ne by done. destruct (decide (i = j)) as [<-|Hne].
    + rewrite list_lookup_insert_eq in Hj by done. injection Hj as <-.
      destruct (I5 _ _ Hi) as (? & ? & _). done.
    + rewrite list_lookup_insert_ne in Hj by done. by apply I5.
Qed.

(** Changing the own flag while inside the matching critical section. *)
Lemma inv_flag m gs i g v :
  Inv m gs -> gs !! i = Some g -> flag_ok (mkGhost (g_tid g) (g_st g) v) ->
  Inv (upd m (Flag (g_tid g)) v) (<[i := mkGhost (g_tid g) (g_st g) v]> gs).
Proof.
  intros HI Hi Hfl. destruct HI as [I1 I2 I3 I4 I5].
  assert (Hlen : (i < length gs)%nat) by (by eapply lookup_lt_Some).
  destruct (I5 _ _ Hi) as (Ht & _ & _).
  constructor; unfold word in *; rewrite ?upd_ne by done.
  - done.
  - rewrite (zsum_insert _ _ _ _ _ Hi). unfold is_shared at 2 3. simpl. lia.
  - rewrite (zsum_insert _ _ _ _ _ Hi). unfold is_holder at 2 3. simpl. lia.
  - intros j h Hj Hst. destruct (decide (i = j)) as [<-|Hne].
    + rewrite list_lookup_insert_eq in Hj by done. injection Hj as <-. by apply (I4 i g).
    + rewrite list_lookup_insert_ne in Hj by done. by apply (I4 j h).
  - intros j h Hj. destruct (decide (i = j)) as [<-|Hne].
    + rewrite list_lookup_insert_eq in Hj by done. injection Hj as <-. by rewrite Ht, upd_eq.
    + rewrite list_lookup_insert_ne in Hj by done. rewrite upd_ne by congruence. by apply I5.
Qed.

(** The invariant only looks at the contents of the memory. *)
Lemma Inv_ext m m' gs : (forall l, m l = m' l) -> Inv m gs -> Inv m' gs.
Proof.
  intros E [I1 I2 I3 I4 I5]. unfold word in *.
  constructor; unfold word; rewrite <- ?E; try done.
  intros i g Hi. rewrite <- E. by apply I5.
Qed.

(** A writer inside its section is alone in it. *)
Lemma flag_exclusion m gs i j :
  Inv m gs -> (i < length gs)%nat -> (j < length gs)%nat -> i <> j ->
  m (Flag i) = 2 -> m (Flag j) = 0.
Proof.
  intros HI Hi Hj Hij Hfi.
  destruct (lookup_lt_is_Some_2 gs i Hi) as [g Hg].
  destruct (lookup_lt_is_Some_2 gs j Hj) as [h Hh].
  destruct (inv_thread _ _ HI i g Hg) as (_ & Eg & Fg).
  destruct (inv_thread _ _ HI j h Hh) as (_ & Eh & Fh).
  assert (Hst : g_st g = Excl) by (destruct Fg as [|[[]|[]]]; [lia|lia|done]).
  pose proof (inv_owner _ _ HI i g Hg Hst) as Hz.
  pose proof (zsum_lookup_two is_holder gs i j g h is_holder_nonneg Hij Hg Hh) as H2.
  rewrite <- (inv_holder _ _ HI) in H2. pose proof (excl_b2z (word m)) as Hb.
  rewrite (inv_shared _ _ HI) in Hz.
  pose proof (zsum_lookup is_shared gs j h is_shared_nonneg Hh) as H1.
  unfold is_holder, is_shared in *. rewrite Hst in H2.
  destruct Fh as [|[[_ [E|E]]|[_ E]]]; [lia|rewrite E in *; lia..].
Qed.

(** The latch is free when no thread holds it. *)
Lemma idle_free m gs :
  Inv m gs -> Forall (fun g => g_st g = Idle) gs ->
  shared_of (word m) = 0 /\ excl_of (word m) = false.
Proof.
  intros HI Hidle.
  assert (Hsum : forall f, (forall g, g_st g = Idle -> f g = 0) -> zsum f gs = 0).
  { intros f Hf. clear -Hidle Hf. induction Hidle as [|g gs Hg _ IH]; simpl; [done|].
    by rewrite (Hf g Hg), IH. }
  rewrite (inv_shared _ _ HI), Hsum by (intros g; unfold is_shared; by intros ->).
  split; [done|]. pose proof (inv_holder _ _ HI) as Hh.
  rewrite Hsum in Hh by (intros g; unfold is_holder; by intros ->). by destruct (excl_of (word m)).
Qed.

(** A step that changes neither memory nor ghost. *)
Lemma inv_stutter m gs i g : Inv m gs -> gs !! i = Some g -> Inv m (<[i := g]> gs).
Proof. intros. by rewrite list_insert_id. Qed.

(** ** Triples for the latch methods *)

Abbreviation W := (@overflow_word lloc Cell).
Abbreviation wpl := (wp Inv).

(** The conditions under which the thread with ghost [g] may replace the latch
    word [w] by [w'] and move to state [st']. *)
Record may_write (g : ghost) (w w' : Z) (st' : lstate) : Prop := {
  mw_fits : fits 64 w';
  mw_shared : shared_of w' = shared_of w - is_shared g + is_shared (mkGhost (g_tid g) st' (g_fl g));
  mw_holder : Z.b2z (excl_of w') = Z.b2z (excl_of w) - is_holder g
                                   + is_holder (mkGhost (g_tid g) st' (g_fl g));
  mw_owner : st' = Excl -> shared_of w' = 0;
  mw_mono : shared_of w' <= shared_of w \/ excl_of w = false;
  mw_flag : flag_ok (mkGhost (g_tid g) st' (g_fl g))
}.

(** What the invariant tells a thread with ghost [g] about the word it reads. *)
Record word_ok (g : ghost) (w : Z) : Prop := {
  wo_fits : fits 64 w;
  wo_shared : is_shared g <= shared_of w;
  wo_holder : is_holder g <= Z.b2z (excl_of w);
  wo_flag : flag_ok g;
  wo_owner : g_st g = Excl -> shared_of w = 0
}.

Lemma inv_word_ok m gs i g : Inv m gs -> gs !! i = Some g -> word_ok g (word m).
Proof.
  intros HI Hi. destruct HI as [I1 I2 I3 I4 I5]. constructor.
  - done.
  - rewrite I2. eapply zsum_lookup; [apply is_shared_nonneg|done].
  - rewrite I3. eapply zsum_lookup; [apply is_holder_nonneg|done].
  - apply (I5 _ _ Hi).
  - by eapply I4.
Qed.

Lemma inv_may_write m gs i g w' st' :
  Inv m gs -> gs !! i = Some g -> may_write g (word m) w' st' ->
  Inv (upd m W w') (<[i := mkGhost (g_tid g) st' (g_fl g)]> gs).
Proof. intros HI Hi []. by apply inv_word. Qed.

(** A load may change the own ghost state, justified by the word it sees. *)
Lemma wp_load_inv {A} (k : Z -> prog lloc A) g Q :
  (forall m gs i, Inv m gs -> gs !! i = Some g ->
     exists g', Inv m (<[i := g']> gs) /\ wpl (k (word m)) g' Q) ->
  wpl (let* w := load W in k w) g Q.
Proof. intros Hk. exact Hk. Qed.

Lemma wp_load_word {A} (k : Z -> prog lloc A) g Q :
  (forall w, word_ok g w -> wpl (k w) g Q) -> wpl (let* w := load W in k w) g Q.
Proof.
  intros Hk m gs i HI Hi. exists g. split; [by apply inv_stutter|].
  apply Hk. by eapply inv_word_ok.
Qed.

(** Loading a cell whose value does not matter. *)
Lemma wp_cas_word {A} (k : bool * Z -> prog lloc A) g st' curr w' Q :
  (word_ok g curr -> may_write g curr w' st') ->
  wpl (k (true, curr)) (mkGhost (g_tid g) st' (g_fl g)) Q ->
  (forall v, word_ok g v -> wpl (k (false, v)) g Q) ->
  wpl (let* r := compare_exchange_weak W curr w' in k r) g Q.
Proof.
  intros Hmay Hok Hfail m gs i HI Hi. pose proof (inv_word_ok _ _ _ _ HI Hi) as Hwo. split.
  - intros E. eexists. split; [|exact Hok]. apply inv_may_write; [done..|].
    unfold word. change (m (Cell OVERFLOW_INDEX)) with (m W). rewrite E. apply Hmay.
    unfold word in Hwo. change (m (Cell OVERFLOW_INDEX)) with (m W) in Hwo. by rewrite E in Hwo.
  - intros _. exists g. split; [by apply inv_stutter|]. by apply Hfail.
Qed.

Lemma wp_rmw_word {A} f (k : Z -> prog lloc A) g st' Q :
  (forall w, word_ok g w -> may_write g w (f w) st') ->
  (forall w, wpl (k w) (mkGhost (g_tid g) st' (g_fl g)) Q) ->
  wpl (Rmw W f k) g Q.
Proof.
  intros Hmay Hk m gs i HI Hi. eexists. split; [|apply Hk].
  apply inv_may_write; [done..|]. apply Hmay. by eapply inv_word_ok.
Qed.

Lemma wp_flag {A} (k : prog lloc A) g v Q :
  flag_ok (mkGhost (g_tid g) (g_st g) v) ->
  wpl k (mkGhost (g_tid g) (g_st g) v) Q ->
  wpl (let* _ := store (Flag (g_tid g)) v in k) g Q.
Proof. intros Hf Hk m gs i HI Hi. eexists. split; [by apply inv_flag|done]. Qed.

Definition at_state (t : nat) (s : lstate) (g : ghost) : Prop := g = mkGhost t s 0.

(** The transitions of the latch. *)

Ltac may F S E :=
  constructor; unfold is_shared, is_holder, flag_ok; cbn [g_st g_tid g_fl] in *;
  [exact F|rewrite S; lia|rewrite E; cbn [Z.b2z]; try lia|try done|rewrite S; try (left; lia)|auto].

Lemma may_share t w :
  word_ok (mkGhost t Idle 0) w -> shared_of w <> 2 ^ 13 - 1 -> excl_of w = false ->
  may_write (mkGhost t Idle 0) w (w + SHARED_LATCH_INC) Shared.
Proof.
  intros Hw Hs He. destruct (inc_fields w (wo_fits _ _ Hw) Hs) as (F & S & E).
  may F S E. auto.
Qed.

Lemma may_unshare t w :
  word_ok (mkGhost t Shared 0) w ->
  may_write (mkGhost t Shared 0) w (wsub 64 w SHARED_LATCH_INC) Idle.
Proof.
  intros Hw. pose proof (wo_shared _ _ Hw) as Hs. unfold is_shared in Hs. cbn [g_st] in Hs.
  destruct (dec_fields w (wo_fits _ _ Hw) ltac:(lia)) as (F & S & E). may F S E.
Qed.

Lemma may_claim t w :
  word_ok (mkGhost t Idle 0) w -> excl_of w = false ->
  may_write (mkGhost t Idle 0) w (Z.lor w EXCLUSIVE_LATCH_MASK) Pending.
Proof.
  intros Hw He. destruct (set_excl_fields w (wo_fits _ _ Hw)) as (F & S & E).
  may F S E. rewrite He. cbn [Z.b2z]. lia.
Qed.

Lemma holder_excl g w : word_ok g w -> is_holder g = 1 -> excl_of w = true.
Proof.
  intros Hw Hh. pose proof (wo_holder _ _ Hw) as H. rewrite Hh in H.
  by destruct (excl_of w).
Qed.

Lemma may_release t st w :
  st = Pending \/ st = Excl ->
  word_ok (mkGhost t st 0) w ->
  may_write (mkGhost t st 0) w (Z.land w (bnot 64 EXCLUSIVE_LATCH_MASK)) Idle.
Proof.
  intros Hst Hw.
  assert (He : excl_of w = true).
  { apply (holder_excl (mkGhost t st 0)); [done|]. by destruct Hst as [-> | ->]. }
  destruct (clear_excl_fields w (wo_fits _ _ Hw)) as (F & S & E).
  destruct Hst as [-> | ->]; may F S E; rewrite He; cbn [Z.b2z]; lia.
Qed.

(** Writes outside the latch fields, by a thread in any state. *)
Lemma may_outside g w w' :
  word_ok g w -> fits 64 w' -> shared_of w' = shared_of w -> excl_of w' = excl_of w ->
  may_write g w w' (g_st g).
Proof.
  intros Hw F S E. destruct g as [t st fl].
  constructor; cbn [g_st g_tid g_fl] in *; [done|lia|rewrite E; lia| |left; lia|apply (wo_flag _ _ Hw)].
  intros ->. rewrite S. by apply (wo_owner _ _ Hw).
Qed.

(** ** Triples *)

Lemma wp_lock_shared t spins :
  wpl (lock_shared_spin Cell spins) (mkGhost t Idle 0)
    (fun ok g => at_state t (if ok then Shared else Idle) g).
Proof.
  induction spins as [|n IH]; [done|]. cbn [lock_shared_spin].
  apply wp_load_word. intros w Hw. rewrite excl_free, shared_full.
  destruct (excl_of w) eqn:Ee; cbn [negb andb]; [apply IH|].
  destruct (Z.eqb_spec (shared_of w) (2 ^ 13 - 1)) as [|Hs]; cbn [negb]; [apply IH|].
  apply (wp_cas_word _ _ Shared); [by intros; apply may_share|done|intros; apply IH].
Qed.

Lemma wp_unlock_shared t :
  wpl (unlock_shared Cell) (mkGhost t Shared 0) (fun _ g => at_state t Idle g).
Proof. apply (wp_rmw_word _ _ _ Idle); [intros; by apply may_unshare|done]. Qed.

Lemma wp_acquire_bit t spins :
  wpl (acquire_bit_spin Cell spins) (mkGhost t Idle 0)
    (fun ok g => at_state t (if ok then Pending else Idle) g).
Proof.
  induction spins as [|n IH]; [done|]. cbn [acquire_bit_spin].
  apply wp_load_word. intros w Hw. rewrite excl_free.
  destruct (excl_of w) eqn:Ee; cbn [negb]; [apply IH|].
  apply (wp_cas_word _ _ Pending); [by intros; apply may_claim|done|intros; apply IH].
Qed.

(** Seeing no reader turns a pending thread into the owner. *)
Lemma wp_drain t spins :
  wpl (drain_spin Cell spins) (mkGhost t Pending 0)
    (fun ok g => at_state t (if ok then Excl else Pending) g).
Proof.
  induction spins as [|n IH]; [done|]. cbn [drain_spin].
  apply wp_load_inv. intros m gs i HI Hi. rewrite shared_zero.
  destruct (Z.eqb_spec (shared_of (word m)) 0) as [Hz|].
  - exists (mkGhost t Excl 0). split; [|done].
    pose proof (inv_word_ok _ _ _ _ HI Hi) as Hw.
    pose proof (holder_excl _ _ Hw eq_refl) as He.
    assert (Hmw : may_write (mkGhost t Pending 0) (word m) (word m) Excl).
    { constructor; unfold is_shared, is_holder, flag_ok; cbn [g_st g_tid g_fl]; auto; try lia.
      apply (wo_fits _ _ Hw). }
    pose proof (inv_may_write _ _ _ _ _ _ HI Hi Hmw) as Hnew.
    eapply Inv_ext; [|exact Hnew]. intros l. unfold upd. by case_decide; subst.
  - exists (mkGhost t Pending 0). split; [by apply inv_stutter|apply IH].
Qed.

Lemma wp_rollback t fuel :
  wpl (rollback_loop Cell fuel) (mkGhost t Pending 0)
    (fun ok g => at_state t (if ok then Idle else Pending) g).
Proof.
  induction fuel as [|n IH]; [done|]. cbn [rollback_loop].
  apply wp_load_word. intros w Hw.
  apply (wp_cas_word _ _ Idle); [by intros; apply may_release; auto|done|intros; apply IH].
Qed.

(** [None] is a thread that still spins in the rollback loop. *)
Definition after_excl (t : nat) (r : option bool) : lstate :=
  match r with Some true => Excl | Some false => Idle | None => Pending end.

Lemma wp_try_lock_exclusive_now t fuel :
  wpl (try_lock_exclusive_now Cell fuel) (mkGhost t Idle 0)
    (fun r g => at_state t (after_excl t r) g).
Proof.
  apply wp_bind. eapply wp_mono; [|apply wp_acquire_bit].
  intros [] g Hg; rewrite Hg; cbn [negb]; [|done].
  apply wp_bind. eapply wp_mono; [|apply wp_drain].
  intros [] h Hh; rewrite Hh; [done|].
  apply wp_bind. eapply wp_mono; [|apply wp_rollback].
  by intros [] h' ->.
Qed.

Lemma wp_try_lock_exclusive t fuel :
  wpl (try_lock_exclusive Cell fuel) (mkGhost t Idle 0)
    (fun r g => at_state t (after_excl t r) g).
Proof.
  apply wp_bind. apply wp_load_word. intros w Hw.
  destruct (Z.land w HANDOFF_MASK =? 0); cbn [negb wp]; [apply wp_try_lock_exclusive_now|done].
Qed.

(** Bits outside the latch fields. *)
Lemma wp_or_outside {A} x (k : prog lloc A) g Q :
  fits 64 x -> (forall i, 48 <= i < 61 \/ i = 63 -> Z.testbit x i = false) ->
  wpl k g Q -> wpl (let* _ := fetch_or W x in k) g Q.
Proof.
  intros Hx Hb Hk. apply (wp_rmw_word _ _ _ (g_st g)); [|by destruct g].
  intros w Hw. destruct (outside_or_fields w x (wo_fits _ _ Hw) Hx Hb) as (F & S & E).
  by apply may_outside.
Qed.

Lemma wp_and_outside {A} x (k : prog lloc A) g Q :
  (forall i, 48 <= i < 61 \/ i = 63 -> Z.testbit x i = true) ->
  wpl k g Q -> wpl (let* _ := fetch_and W x in k) g Q.
Proof.
  intros Hb Hk. apply (wp_rmw_word _ _ _ (g_st g)); [|by destruct g].
  intros w Hw. destruct (outside_and_fields w x (wo_fits _ _ Hw) Hb) as (F & S & E).
  by apply may_outside.
Qed.

Lemma pow2_outside n :
  n = 61 \/ n = 62 -> fits 64 (2 ^ n) /\
  (forall i, 48 <= i < 61 \/ i = 63 -> Z.testbit (2 ^ n) i = false) /\
  (forall i, 48 <= i < 61 \/ i = 63 -> Z.testbit (bnot 64 (2 ^ n)) i = true).
Proof.
  intros Hn. split; [unfold fits; destruct Hn as [-> | ->]; lia|].
  split; intros i Hi; bit_push; repeat (bit_split; try lia); done.
Qed.

Lemma wp_unlock_exclusive t :
  wpl (unlock_exclusive Cell) (mkGhost t Excl 0) (fun _ g => at_state t Idle g).
Proof.
  apply (wp_rmw_word _ _ _ Idle); [intros; apply may_release; auto|]. intros w.
  destruct (pow2_outside 62 ltac:(auto)) as (H1 & H2 & _). by apply (wp_or_outside (2 ^ 62)).
Qed.

Lemma wp_set_handoff g : wpl (set_handoff Cell) g (fun _ h => h = g).
Proof. destruct (pow2_outside 61 ltac:(auto)) as (H1 & H2 & _). by apply (wp_or_outside (2 ^ 61)). Qed.

Lemma wp_clear_handoff g : wpl (clear_handoff Cell) g (fun _ h => h = g).
Proof.
  destruct (pow2_outside 61 ltac:(auto)) as (_ & _ & H3).
  by apply (wp_and_outside (bnot 64 (2 ^ 61))).
Qed.

Lemma wp_consume_loop fuel curr g :
  wpl (consume_loop Cell fuel curr) g (fun _ h => h = g).
Proof.
  revert curr. induction fuel as [|n IH]; intros curr; [done|]. cbn [consume_loop].
  apply (wp_cas_word _ _ (g_st g)); [|by destruct g|].
  - intros Hw. destruct (pow2_outside 62 ltac:(auto)) as (_ & _ & H3).
    destruct (outside_and_fields curr (bnot 64 (2 ^ 62)) (wo_fits _ _ Hw) H3) as (F & S & E).
    by apply may_outside.
  - intros v _. cbn [fst snd]. by destruct (Z.land v RELEASE_NOTIFY_MASK =? 0).
Qed.

Lemma wp_consume_release_notify fuel g :
  wpl (consume_release_notify Cell fuel) g (fun _ h => h = g).
Proof.
  apply wp_load_word. intros w Hw.
  destruct (Z.land w RELEASE_NOTIFY_MASK =? 0); [done|apply wp_consume_loop].
Qed.

Lemma wp_set_overflow_loop fuel target curr g :
  fits 48 target -> wpl (set_overflow_loop Cell fuel target curr) g (fun _ h => h = g).
Proof.
  intros Ht. revert curr. induction fuel as [|n IH]; intros curr; [done|]. cbn [set_overflow_loop].
  destruct (negb _); [done|].
  apply (wp_cas_word _ _ (g_st g)); [|by destruct g|intros v _; apply IH].
  intros Hw. destruct (outside_or_fields curr target (wo_fits _ _ Hw)) as (F & S & E).
  - apply (fits_mono 48); [done|lia].
  - intros i Hi. apply (fits_high 48); [done|lia].
  - by apply may_outside.
Qed.

Lemma wp_set_overflow_index fuel idx g :
  wpl (set_overflow_index Cell fuel idx) g (fun _ h => h = g).
Proof.
  unfold set_overflow_index. destruct (idx =? 0); [done|].
  apply wp_load_word. intros w Hw. apply wp_set_overflow_loop, Addr.clean_address_fits.
Qed.

(** ** Client threads *)

(** One use of the latch by a thread.  The guarded sessions follow the RAII
    guards [BucketSharedGuard] and [BucketExclusiveGuard]: the body runs only
    when the guard was obtained, and dropping the guard releases the latch. *)
Inductive session : Type :=
| SShared
| SExclusive
| SExclusiveNow
| SSetHandoff
| SClearHandoff
| SConsumeNotify
| SSetOverflow (idx : Z).

Definition owned_body (t : nat) (r : option bool) : prog lloc bool :=
  match r with
  | None => Ret false
  | Some false => Ret true
  | Some true =>
      let* _ := store (Flag t) 2 in
      let* _ := store (Flag t) 0 in
      let* _ := unlock_exclusive Cell in
      Ret true
  end.

(** [false]: the thread is still inside an unbounded loop of the latch code. *)
Definition session_prog (fuel t : nat) (s : session) : prog lloc bool :=
  match s with
  | SShared =>
      let* ok := try_lock_shared Cell in
      if ok then
        let* _ := store (Flag t) 1 in
        let* _ := store (Flag t) 0 in
        let* _ := unlock_shared Cell in
        Ret true
      else Ret true
  | SExclusive => let* r := try_lock_exclusive Cell fuel in owned_body t r
  | SExclusiveNow => let* r := try_lock_exclusive_now Cell fuel in owned_body t r
  | SSetHandoff => let* _ := set_handoff Cell in Ret true
  | SClearHandoff => let* _ := clear_handoff Cell in Ret true
  | SConsumeNotify =>
      let* r := consume_release_notify Cell fuel in
      Ret (match r with Some _ => true | None => false end)
  | SSetOverflow idx =>
      let* r := set_overflow_index Cell fuel idx in
      Ret (match r with Some _ => true | None => false end)
  end.

Fixpoint client (fuel t : nat) (ss : list session) : prog lloc bool :=
  match ss with
  | [] => Ret true
  | s :: rest =>
      let* ok := session_prog fuel t s in
      if ok then client fuel t rest else Ret false
  end.

Definition post (r : bool) (g : ghost) : Prop := r = true -> g_st g = Idle /\ g_fl g = 0.

Lemma wp_owned_body t r :
  wpl (owned_body t r) (mkGhost t (after_excl t r) 0)
    (fun ok g => ok = true -> at_state t Idle g).
Proof.
  destruct r as [[]|]; [|done|done]. cbn [owned_body after_excl].
  apply (wp_flag _ (mkGhost t Excl 0)); [right; right; done|].
  apply (wp_flag _ (mkGhost t Excl 2)); [left; done|].
  apply wp_bind. eapply wp_mono; [|apply wp_unlock_exclusive]. by intros ? ? -> ?.
Qed.

Lemma wp_session fuel t s :
  wpl (session_prog fuel t s) (mkGhost t Idle 0) (fun ok g => ok = true -> at_state t Idle g).
Proof.
  destruct s as [| | | | | |idx]; cbn [session_prog]; apply wp_bind.
  - eapply wp_mono; [|apply wp_lock_shared]. intros [] g ->; [|done].
    apply (wp_flag _ (mkGhost t Shared 0)); [right; left; auto|].
    apply (wp_flag _ (mkGhost t Shared 1)); [left; done|].
    apply wp_bind. eapply wp_mono; [|apply wp_unlock_shared]. by intros ? ? -> ?.
  - eapply wp_mono; [|apply wp_try_lock_exclusive]. intros r g ->. apply wp_owned_body.
  - eapply wp_mono; [|apply wp_try_lock_exclusive_now]. intros r g ->. apply wp_owned_body.
  - eapply wp_mono; [|apply wp_set_handoff]. by intros ? ? ->.
  - eapply wp_mono; [|apply wp_clear_handoff]. by intros ? ? ->.
  - eapply wp_mono; [|apply wp_consume_release_notify]. by intros ? ? ->.
  - eapply wp_mono; [|apply wp_set_overflow_index]. by intros ? ? ->.
Qed.

Lemma wp_client fuel t ss : wpl (client fuel t ss) (mkGhost t Idle 0) post.
Proof.
  induction ss as [|s rest IH]; [done|]. cbn [client]. apply wp_bind.
  eapply wp_mono; [|apply wp_session]. intros [] g Hg; [|done]. by rewrite (Hg eq_refl).
Qed.

(** All clients start idle on a fresh bucket ([HashBucket::new]: zeroed). *)
Definition fresh : mem lloc := fun _ => 0.
Definition threads (fuel : nat) (clients : list (list session)) : list (prog lloc bool) :=
  imap (client fuel) clients.

Definition idle_ghosts (n : nat) : list ghost := map (fun t => mkGhost t Idle 0) (seq 0 n).

Lemma idle_ghosts_lookup n i g :
  idle_ghosts n !! i = Some g -> g = mkGhost i Idle 0.
Proof.
  unfold idle_ghosts. intros Hg. apply list_lookup_fmap_Some_1 in Hg as (t & -> & Ht).
  apply lookup_seq in Ht as [-> _]. done.
Qed.

Lemma zsum_idle f n : (forall t, f (mkGhost t Idle 0) = 0) -> zsum f (idle_ghosts n) = 0.
Proof.
  intros Hf. unfold idle_ghosts. generalize 0%nat. induction n as [|n IH]; intros s; simpl; [done|].
  by rewrite Hf, IH.
Qed.

Lemma initial_ok fuel clients : pool_ok Inv post (fresh, threads fuel clients).
Proof.
  exists (idle_ghosts (length clients)). split.
  - constructor; try done.
    + rewrite zsum_idle by done. done.
    + rewrite zsum_idle by done. done.
    + intros i g Hg%idle_ghosts_lookup. subst. repeat split. by left.
  - apply Forall2_same_length_lookup. simpl. unfold threads, idle_ghosts. split.
    { by rewrite length_imap, length_map, length_seq. }
    intros i p g Hp Hg%idle_ghosts_lookup. rewrite list_lookup_imap in Hp.
    apply fmap_Some in Hp as (ss & _ & ->). rewrite Hg. apply wp_client.
Qed.

(** A reachable configuration comes with ghosts for its threads. *)
Lemma reachable_inv fuel clients m ps :
  rtc pstep (fresh, threads fuel clients) (m, ps) ->
  exists gs, Inv m gs /\ length gs = length clients /\ Forall2 (fun p g => wpl p g post) ps gs.
Proof.
  intros Hr. destruct (pool_safe _ _ _ _ Hr (initial_ok fuel clients)) as (gs & HI & Hall).
  exists gs. split; [done|]. split; [|done]. apply pstep_length in Hr. simpl in *.
  rewrite <- (Forall2_length _ _ _ Hall), Hr. apply length_imap.
Qed.

(** C24: mutual exclusion of the bucket latch.  However many threads run
    whatever sequence of latch sessions on a fresh bucket, and however their
    atomic actions interleave, a thread inside an exclusive section excludes
    every other thread from both exclusive and shared sections. *)
Theorem latch_mutual_exclusion fuel clients m ps i j :
  rtc pstep (fresh, threads fuel clients) (m, ps) ->
  (i < length clients)%nat -> (j < length clients)%nat -> i <> j ->
  m (Flag i) = 2 -> m (Flag j) = 0.
Proof.
  intros Hr Hi Hj Hij Hfi. destruct (reachable_inv _ _ _ _ Hr) as (gs & HI & Hlen & _).
  by eapply (flag_exclusion m gs i j); [|lia..| |].
Qed.

(** Two clients; the first runs alone until it is inside its section. *)
Definition demo : list (list session) := [[SExclusive]; [SShared; SExclusiveNow]].
Definition demo_state : mem lloc * prog lloc bool :=
  run_for 5 (client 1 0 [SExclusive]) fresh.

Lemma latch_mutual_exclusion_witness :
  demo_state.1 (Flag 0) = 2 /\ demo_state.1 (Flag 1) = 0.
Proof.
  split; [reflexivity|].
  apply (latch_mutual_exclusion 1 demo demo_state.1 (<[0%nat := demo_state.2]> (threads 1 demo)) 0 1);
    [|simpl; lia|simpl; lia|lia|reflexivity].
  apply run_for_steps. reflexivity.
Defined.

(** The latch does not leak.  When every thread has finished its
    sessions, the latch is free again: no reader is counted and the exclusive
    bit is clear, whatever interleaving led there. *)
Theorem latch_no_leak fuel clients m ps :
  rtc pstep (fresh, threads fuel clients) (m, ps) ->
  Forall (fun p => p = Ret true) ps ->
  shared_of (word m) = 0 /\ excl_of (word m) = false.
Proof.
  intros Hr Hdone. destruct (reachable_inv _ _ _ _ Hr) as (gs & HI & _ & Hall).
  eapply idle_free; [done|]. apply Forall_lookup. intros i g Hg.
  destruct (Forall2_lookup_r _ _ _ _ _ Hall Hg) as (p & Hp & Hwp).
  rewrite (proj1 (Forall_lookup _ _) Hdone i p Hp) in Hwp. by apply Hwp.
Qed.

Lemma latch_no_leak_witness :
  let m1 := (run (client 1 0 [SExclusive]) fresh).2 in
  let m2 := (run (client 1 1 [SShared; SExclusiveNow]) m1).2 in
  m2 (Cell OVERFLOW_INDEX) = RELEASE_NOTIFY_MASK /\
  shared_of (word m2) = 0 /\ excl_of (word m2) = false.
Proof.
  intros m1 m2. split; [reflexivity|].
  apply (latch_no_leak 1 demo m2 [Ret true; Ret true]); [|by repeat constructor].
  pose proof (run_steps (client 1 0 [SExclusive]) fresh (threads 1 demo) 0 eq_refl) as S1.
  pose proof (run_steps (client 1 1 [SShared; SExclusiveNow]) m1
                [Ret true; client 1 1 [SShared; SExclusiveNow]] 1 eq_refl) as S2.
  replace (run (client 1 0 [SExclusive]) fresh).1 with true in S1 by (vm_compute; reflexivity).
  replace (run (client 1 1 [SShared; SExclusiveNow]) m1).1 with true in S2 by (vm_compute; reflexivity).
  etrans; [exact S1|exact S2].
Defined.

End Latch.
