(* ===== verification/Candidate.v ===== *)
(** * Candidate addresses ([wedb/windex/src/candidate.rs])

    The small-vector of addresses returned by a lookup: eight inline words, then
    a heap vector.  [to_list] is the sequence it stands for. *)

From stdpp Require Import base list numbers option tactics sorting.
From Stdlib Require Import ZArith Lia Bool.
From S2P Require Import Prelude.

Module Candidate.

Record CandidateAddresses : Type := mkCand { buf : list Z; len : Z; extra : list Z }.

Definition BUF_LEN : Z := 8.

Definition new : CandidateAddresses := mkCand (replicate 8 0) 0 [].

Definition push (c : CandidateAddresses) (addr : Z) : CandidateAddresses :=
  if len c <? BUF_LEN
  then mkCand (<[Z.to_nat (len c) := addr]> (buf c)) (len c + 1) (extra c)
  else mkCand (buf c) (len c) (extra c ++ [addr]).

Definition is_empty (c : CandidateAddresses) : bool := len c =? 0.
Definition length_of (c : CandidateAddresses) : Z := len c + Z.of_nat (length (extra c)).

Definition prefix (c : CandidateAddresses) : list Z := take (Z.to_nat (len c)) (buf c).

(** [iter]. *)
Definition to_list (c : CandidateAddresses) : list Z := prefix c ++ extra c.

Definition contains (c : CandidateAddresses) (addr : Z) : bool :=
  existsb (Z.eqb addr) (prefix c) || existsb (Z.eqb addr) (extra c).

(** [Index::index]; [None] where the source panics. *)
Definition index (c : CandidateAddresses) (idx : Z) : option Z :=
  if idx <? len c then buf c !! Z.to_nat idx else extra c !! Z.to_nat (idx - len c).

(** [sort_unstable_by(|a, b| b.cmp(a))] on words: the descending permutation. *)
Definition desc (a b : Z) : Prop := b <= a.

#[export] Instance desc_dec a b : Decision (desc a b).
Proof. unfold desc. apply _. Defined.

#[export] Instance desc_total : Total desc.
Proof. intros a b. unfold desc. lia. Qed.

#[export] Instance desc_trans : Transitive desc.
Proof. intros a b c. unfold desc. lia. Qed.

Definition sort_desc (l : list Z) : list Z := merge_sort desc l.

Definition sort_descending (c : CandidateAddresses) : CandidateAddresses :=
  match extra c with
  | [] =>
      let n := Z.to_nat (len c) in
      match n with
      | 0%nat | 1%nat => c
      | 2%nat =>
          match buf c with
          | a :: b :: rest => if a <? b then mkCand (b :: a :: rest) (len c) [] else c
          | _ => c
          end
      | _ => mkCand (sort_desc (take n (buf c)) ++ drop n (buf c)) (len c) []
      end
  | _ =>
      let all := sort_desc (extra c ++ prefix c) in
      let main_len := Nat.min (length (buf c)) (length all) in
      mkCand (take main_len all ++ drop main_len (buf c)) (Z.of_nat main_len) (drop main_len all)
  end.

(** The heap vector is used only when the inline words are full. *)
Record wf (c : CandidateAddresses) : Prop := {
  wf_buf : length (buf c) = 8%nat;
  wf_len : 0 <= len c <= 8;
  wf_extra : extra c <> [] -> len c = 8
}.

Lemma new_wf : wf new.
Proof. split; simpl; [done|lia|done]. Qed.

Lemma prefix_length c : wf c -> length (prefix c) = Z.to_nat (len c).
Proof. intros [Hb Hl _]. unfold prefix. rewrite length_take. lia. Qed.

Lemma push_spec c addr : wf c -> wf (push c addr) /\ to_list (push c addr) = to_list c ++ [addr].
Proof.
  intros [Hb Hl He]. unfold push, to_list, prefix, BUF_LEN.
  destruct (Z.ltb_spec (len c) 8) as [Hlt|Hge]; simpl.
  - assert (extra c = []) as Hx.
    { destruct (extra c) eqn:E; [done|]. rewrite He in Hlt; [lia|done]. }
    rewrite Hx, !app_nil_r. split.
    + split; simpl; [by rewrite length_insert|lia|congruence].
    + replace (Z.to_nat (len c + 1)) with (S (Z.to_nat (len c))) by lia.
      erewrite take_S_r by (apply list_lookup_insert_eq; lia).
      by rewrite take_insert_ge by lia.
  - split; [|by rewrite app_assoc]. split; simpl; [done|lia|intros; lia].
Qed.

Lemma contains_spec c addr : contains c addr = true <-> addr ∈ to_list c.
Proof.
  unfold contains, to_list. rewrite orb_true_iff, !existsb_exists, elem_of_app, !list_elem_of_In.
  split; intros [H|H]; [left|right|left|right];
    try (destruct H as (x & ? & ->%Z.eqb_eq); done); exists addr; by rewrite Z.eqb_refl.
Qed.

Lemma index_spec c idx : wf c -> 0 <= idx -> index c idx = to_list c !! Z.to_nat idx.
Proof.
  intros Hwf Hi. unfold index, to_list. pose proof (prefix_length c Hwf) as Hp.
  destruct Hwf as [Hb Hl He]. destruct (Z.ltb_spec idx (len c)).
  - rewrite lookup_app_l by lia. unfold prefix. rewrite lookup_take_lt by lia. done.
  - rewrite lookup_app_r by lia. f_equal. lia.
Qed.

Lemma sort_desc_perm l : sort_desc l ≡ₚ l.
Proof. apply merge_sort_Permutation. Qed.

Lemma sort_desc_sorted l : StronglySorted desc (sort_desc l).
Proof. apply StronglySorted_merge_sort; apply _. Qed.

(** Sorting and splitting again at the inline capacity. *)
Lemma sort_descending_split c :
  wf c -> wf (sort_descending c) /\ exists l, l ≡ₚ to_list c /\
    StronglySorted desc l /\ to_list (sort_descending c) = l.
Proof.
  intros [Hb Hl He]. unfold sort_descending, to_list, prefix.
  destruct (extra c) as [|x xs] eqn:Ex.
  - rewrite app_nil_r.
    destruct (Z.to_nat (len c)) as [|[|[|n]]] eqn:En.
    + split; [by split|]. exists []. rewrite En, Ex. split; [done|]. split; [constructor|done].
    + split; [by split|]. rewrite En, Ex, app_nil_r. eexists; split; [reflexivity|].
      destruct (buf c) as [|y ys]; [done|]. simpl. rewrite take_0. split; [repeat constructor|done].
    + destruct (buf c) as [|y [|z zs]] eqn:Eb; try done.
      destruct (Z.ltb_spec y z); simpl; rewrite ?Ex, ?En, ?Eb; simpl; rewrite ?take_0, ?app_nil_r.
      * split; [by split; simpl; [rewrite <- Hb|lia|]|]. exists [z; y].
        split; [apply perm_swap|]. split; [|done]. repeat constructor; unfold desc; lia.
      * split; [by split; rewrite ?Eb|]. exists [y; z]. split; [done|]. split; [|done].
        repeat constructor; unfold desc; lia.
    + simpl buf. simpl len. simpl extra. set (t := take _ _).
      assert (length (sort_desc t) = length t) as Hs by exact (Permutation_length (sort_desc_perm t)).
      assert (length t = S (S (S n))) as Ht by (unfold t; rewrite length_take; lia).
      split; [split; simpl; [rewrite length_app, length_drop; lia|lia|done]|].
      exists (sort_desc t). rewrite app_nil_r, En, take_app_length' by lia.
      eauto using sort_desc_perm, sort_desc_sorted.
  - set (all := sort_desc _).
    assert (length all = length (x :: xs) + Z.to_nat (len c))%nat as Ha.
    { unfold all. rewrite (Permutation_length (sort_desc_perm ((x :: xs) ++ take (Z.to_nat (len c)) (buf c)))), length_app, length_take. lia. }
    assert (len c = 8) as H8 by (by apply He). simpl in Ha.
    replace (Nat.min (length (buf c)) (length all)) with 8%nat by lia. simpl len. simpl extra.
    simpl buf. split.
    + split; simpl; [rewrite length_app, length_take, length_drop; lia|lia|done].
    + exists all. rewrite Nat2Z.id, take_app_length' by (rewrite length_take; lia).
      rewrite take_drop. unfold all.
      split; [by rewrite sort_desc_perm, Permutation_app_comm|].
      split; [apply sort_desc_sorted|done].
Qed.

(** [sort_descending], with its special cases for 0, 1 and 2 inline
    addresses and its spill through the heap vector, keeps the representation
    well formed, keeps exactly the candidates it had, and leaves the sequence
    seen by [iter] sorted from newest (largest) to oldest address. *)
Theorem sort_descending_correct c (Hwf : wf c) :
  wf (sort_descending c) /\ to_list (sort_descending c) ≡ₚ to_list c /\
  StronglySorted desc (to_list (sort_descending c)).
Proof.
  destruct (sort_descending_split c Hwf) as (? & l & ? & ? & ->). auto.
Qed.

Definition pushes (l : list Z) : CandidateAddresses := foldl push new l.

Lemma pushes_spec l : wf (pushes l) /\ to_list (pushes l) = l.
Proof.
  unfold pushes. induction l as [|x l IH] using rev_ind; [split; [apply new_wf|done]|].
  rewrite foldl_app. simpl. destruct IH as [Hw Hl].
  destruct (push_spec _ x Hw) as [? ->]. by rewrite Hl.
Qed.

Lemma sort_descending_correct_witness :
  wf (pushes [3; 9; 1; 7; 2; 8; 5; 6; 4; 10]) /\
  to_list (sort_descending (pushes [3; 9; 1; 7; 2; 8; 5; 6; 4; 10])) =
    [10; 9; 8; 7; 6; 5; 4; 3; 2; 1] /\
  to_list (sort_descending (pushes [3; 9; 1; 7; 2; 8; 5; 6; 4; 10])) ≡ₚ
    to_list (pushes [3; 9; 1; 7; 2; 8; 5; 6; 4; 10]).
Proof.
  assert (wf (pushes [3; 9; 1; 7; 2; 8; 5; 6; 4; 10])) as H.
  { split; [reflexivity|vm_compute; split; discriminate|reflexivity]. }
  split; [exact H|]. split; [vm_compute; reflexivity|].
  apply (sort_descending_correct _ H).
Defined.

End Candidate.
