(* ===== verification/Index.v ===== *)
(** * The hash index ([wedb/windex/src])

    Overflow pool ([overflow_pool.rs]), chain walking ([chain.rs]), lookup
    ([find.rs]), insertion and deletion ([insert.rs]), entry handles
    ([entry_info.rs]) and bucket splitting ([split.rs]), as programs over the
    atomic words of the main bucket array, the overflow chunks and the pool's
    counters.  Unbounded loops take fuel and return [None] when it runs out. *)

From stdpp Require Import base list numbers option tactics.
From Stdlib Require Import ZArith Lia Bool.
From S2P Require Import Prelude Base Atomic Bucket Candidate.
Local Open Scope prog_scope.

Module Index.
Import Bucket.

(** ** Memory layout *)

(** A bucket: one of the main array, or a slot of an overflow chunk. *)
Inductive bref : Type :=
| Main (idx : Z)
| Ovf (chunk slot : Z).

#[export] Instance bref_eq_dec : EqDecision bref.
Proof. solve_decision. Defined.

Inductive iloc : Type :=
| Slot (b : bref) (i : nat)
| PAllocated
| PFreeHead
| PFreeCount
| PChunk (idx : Z).

#[export] Instance iloc_eq_dec : EqDecision iloc.
Proof. solve_decision. Defined.

Abbreviation iprog := (prog iloc).
Abbreviation cells := Slot.

Inductive Error : Type :=
| InvalidBucketCount (n : Z)
| InvalidAddress (a : Z)
| AddressOverflow (a : Z)
| OverflowPoolExhausted
| OverflowCycleDetected
| LockTimeout
| Mem.

(** [HashIndex]: the immutable fields; buckets and pool live in memory. *)
Record HashIndex : Type := mkIndex { size : Z; mask : Z }.

(** [size_of::<HashBucket>()]. *)
Definition BUCKET_BYTES : Z := 64.

Section New.
(** [DirectVirtualMemory::allocate(size, align)]: whether the operating system
    grants the zero-filled mapping. *)
Context (vm_allocate : Z -> Z -> bool).

Definition buckets_new (len : Z) : Z + Error :=
  if len =? 0 then inr (InvalidBucketCount 0)
  else match checked_mul len BUCKET_BYTES with
       | None => inr (InvalidBucketCount len)
       | Some size_bytes => if vm_allocate size_bytes 64 then inl len else inr Mem
       end.

Definition new_index (num_buckets : Z) : HashIndex + Error :=
  if (num_buckets =? 0) || negb (is_power_of_two num_buckets)
  then inr (InvalidBucketCount num_buckets)
  else match buckets_new num_buckets with
       | inr e => inr e
       | inl _ => inl (mkIndex num_buckets (num_buckets - 1))
       end.

End New.

Definition get_bucket (ix : HashIndex) (bucket_idx : Z) : bref :=
  Main (Z.land bucket_idx (mask ix)).

Definition bucket_index_for_hash (ix : HashIndex) (hash : Z) : Z := Z.land hash (mask ix).

(** ** Overflow pool *)

Definition CHUNK_BITS : Z := 10.
Definition CHUNK_SIZE : Z := Z.shiftl 1 CHUNK_BITS.
Definition CHUNK_MASK : Z := CHUNK_SIZE - 1.
Definition MAX_CHUNKS : Z := 4096.
Definition FREE_LIST_ID_MASK : Z := 0xFFFFFFFF.

(** [get_unchecked]: the bucket an index names. *)
Definition get_unchecked (id : Z) : bref :=
  let zero_based := id - 1 in
  Ovf (Z.shiftr zero_based CHUNK_BITS) (Z.land zero_based CHUNK_MASK).

Definition pool_get (id : Z) : iprog (option bref) :=
  let* allocated := load PAllocated in
  if (id =? 0) || (allocated <? id) then Ret None
  else
    let zero_based := id - 1 in
    let chunk_idx := Z.shiftr zero_based CHUNK_BITS in
    let slot_idx := Z.land zero_based CHUNK_MASK in
    if MAX_CHUNKS <=? chunk_idx then Ret None
    else
      let* ptr := load (PChunk chunk_idx) in
      if ptr =? 0 then Ret None else Ret (Some (Ovf chunk_idx slot_idx)).

(** A chunk pointer is 0 (null) or 1 (published, zero-initialised). *)
Definition ensure_chunk (chunk_idx : Z) : iprog (unit + Error) :=
  if MAX_CHUNKS <=? chunk_idx then Ret (inr OverflowPoolExhausted)
  else
    let* ptr := load (PChunk chunk_idx) in
    if negb (ptr =? 0) then Ret (inl tt)
    else
      let* _ := compare_exchange (PChunk chunk_idx) 0 1 in
      Ret (inl tt).

(** [(curr >> 32) as u32]. *)
Definition free_tag (curr : Z) : Z := wrap 32 (Z.shiftr curr 32).

(** [(tag.wrapping_add(1) as u64) << 32 | id]. *)
Definition next_head (curr id : Z) : Z :=
  Z.lor (Z.shiftl (wadd 32 (free_tag curr) 1) 32) id.

(** The free-list arm; [Some None] falls through to the bump allocator. *)
Fixpoint allocate_free (fuel : nat) (curr : Z) : iprog (option (option Z)) :=
  match fuel with
  | O => Ret None
  | S fuel' =>
      if Z.land curr FREE_LIST_ID_MASK =? 0 then Ret (Some None)
      else
        let head_id := Z.land curr FREE_LIST_ID_MASK in
        let* ob := pool_get head_id in
        match ob with
        | Some bucket =>
            let* e0 := load (cells bucket 0) in
            let next_id := Z.land e0 FREE_LIST_ID_MASK in
            let* r := compare_exchange_weak PFreeHead curr (next_head curr next_id) in
            if fst r then
              let* _ := store (cells bucket 0) 0 in
              let* _ := fetch_sub PFreeCount 1 in
              Ret (Some (Some head_id))
            else allocate_free fuel' (snd r)
        | None => Ret (Some None)
        end
  end.

Definition allocate_bump : iprog (Z + Error) :=
  let* prev := fetch_add PAllocated 1 in
  let id := prev + 1 in
  let chunk_idx := Z.shiftr prev CHUNK_BITS in
  if MAX_CHUNKS <=? chunk_idx then
    let* _ := fetch_sub PAllocated 1 in Ret (inr OverflowPoolExhausted)
  else
    let* ptr := load (PChunk chunk_idx) in
    if ptr =? 0 then
      let* r := ensure_chunk chunk_idx in
      match r with
      | inr e => let* _ := fetch_sub PAllocated 1 in Ret (inr e)
      | inl _ => Ret (inl id)
      end
    else Ret (inl id).

Definition allocate (fuel : nat) : iprog (option (Z + Error)) :=
  let* curr := load PFreeHead in
  let* r := allocate_free fuel curr in
  match r with
  | None => Ret None
  | Some (Some id) => Ret (Some (inl id))
  | Some None => let* r := allocate_bump in Ret (Some r)
  end.

(** [for entry in &bucket.entries { entry.store(0) }]. *)
Fixpoint clear_entries (b : bref) (slots : list nat) : iprog unit :=
  match slots with
  | [] => Ret tt
  | i :: rest => let* _ := store (cells b i) 0 in clear_entries b rest
  end.

Fixpoint free_push (fuel : nat) (b : bref) (id curr : Z) : iprog bool :=
  match fuel with
  | O => Ret false
  | S fuel' =>
      let head_id := Z.land curr FREE_LIST_ID_MASK in
      let* _ := store (cells b 0) head_id in
      let* r := compare_exchange_weak PFreeHead curr
                  (next_head curr (Z.land id FREE_LIST_ID_MASK)) in
      if fst r then let* _ := fetch_add PFreeCount 1 in Ret true
      else free_push fuel' b id (snd r)
  end.

(** [false]: out of fuel. *)
Definition free (fuel : nat) (id : Z) : iprog bool :=
  let* allocated := load PAllocated in
  if (id =? 0) || (allocated <? id) then Ret true
  else
    let* ob := pool_get id in
    match ob with
    | Some bucket =>
        let* _ := clear_entries bucket (seq 0 ENTRIES_PER_BUCKET) in
        let* curr := load PFreeHead in
        free_push fuel bucket id curr
    | None => Ret true
    end.

(** ** Chain walking *)

Inductive ChainStep : Type := Next | End | Cycle.

Inductive SlotScan : Type := Hit (raw : Z) | Free | Occupied.

Record ChainWalker : Type := mkWalker { curr : bref; wstep : Z }.

Definition MAX_CHAIN_STEPS : Z := Z.shiftl 1 22.

Definition new_walker (start : bref) : ChainWalker := mkWalker start 0.

Definition advance (w : ChainWalker) : iprog (ChainStep * ChainWalker) :=
  let* overflow_idx := overflow_index (cells (curr w)) in
  if overflow_idx =? 0 then Ret (End, w)
  else
    let w' := mkWalker (get_unchecked overflow_idx) (wstep w + 1) in
    if MAX_CHAIN_STEPS <=? wstep w' then Ret (Cycle, w') else Ret (Next, w').

Definition step_result (s : ChainStep) : unit + Error :=
  match s with
  | Next => inl tt
  | Cycle => inr OverflowCycleDetected
  | End => inr OverflowPoolExhausted
  end.

(** [None]: out of fuel in the allocator or in [set_overflow_index]. *)
Definition extend (fuel : nat) (w : ChainWalker) : iprog (option (unit + Error)) :=
  let* idx := overflow_index (cells (curr w)) in
  if idx =? 0 then
    let* r := allocate fuel in
    match r with
    | None => Ret None
    | Some (inr e) => Ret (Some (inr e))
    | Some (inl new_idx) =>
        let* linked := set_overflow_index (cells (curr w)) fuel new_idx in
        match linked with
        | None => Ret None
        | Some true => Ret (Some (inl tt))
        | Some false =>
            let* done := free fuel new_idx in
            Ret (if done then Some (inl tt) else None)
        end
    end
  else Ret (Some (inl tt)).

Definition advance_or_extend (fuel : nat) (w : ChainWalker)
  : iprog (option (unit + Error) * ChainWalker) :=
  let* r := advance w in
  match r with
  | (End, w) =>
      let* e := extend fuel w in
      match e with
      | None => Ret (None, w)
      | Some (inr err) => Ret (Some (inr err), w)
      | Some (inl _) =>
          let* r := advance w in Ret (Some (step_result (fst r)), snd r)
      end
  | (st, w) => Ret (Some (step_result st), w)
  end.

(** ** Lookup *)

(** The loop shared by the read paths: scan the current bucket, then advance;
    the end of the chain and an over-long chain both end the search. *)
Fixpoint walk {A} (fuel : nat) (scan : bref -> iprog (option A)) (w : ChainWalker)
  : iprog (option (option A)) :=
  match fuel with
  | O => Ret None
  | S fuel' =>
      let* r := scan (curr w) in
      match r with
      | Some a => Ret (Some (Some a))
      | None =>
          let* s := advance w in
          match s with
          | (Next, w') => walk fuel' scan w'
          | (_, _) => Ret (Some None)
          end
      end
  end.

Definition find_tag_by_hash (ix : HashIndex) (fuel : nat) (hash : Z) : iprog (option (option Z)) :=
  let tag := Entry.tag_from_hash hash in
  let bucket_idx := Z.land hash (mask ix) in
  walk fuel (fun b => find_tag_address (cells b) tag) (new_walker (get_bucket ix bucket_idx)).

(** [check_slot] of [lookup_candidates_by_hash]. *)
Definition check_slot (item : iloc) (expected_hi : Z) (results : Candidate.CandidateAddresses) : iprog (Candidate.CandidateAddresses) :=
  let* raw := load item in
  if raw =? 0 then Ret results
  else if Z.shiftr raw Entry.TAG_SHIFT =? expected_hi then
    let addr := Z.land raw Addr.ADDRESS_MASK in
    if negb (addr =? 0) then Ret (Candidate.push results addr) else Ret results
  else Ret results.

Fixpoint check_slots (b : bref) (expected_hi : Z) (slots : list nat) (results : Candidate.CandidateAddresses)
  : iprog (Candidate.CandidateAddresses) :=
  match slots with
  | [] => Ret results
  | i :: rest =>
      let* results := check_slot (cells b i) expected_hi results in
      check_slots b expected_hi rest results
  end.

Fixpoint candidates_loop (fuel : nat) (expected_hi : Z) (w : ChainWalker) (results : Candidate.CandidateAddresses)
  : iprog (option (Candidate.CandidateAddresses)) :=
  match fuel with
  | O => Ret None
  | S fuel' =>
      let* results := check_slots (curr w) expected_hi (seq 0 DATA_ENTRIES) results in
      let* s := advance w in
      match s with
      | (Next, w') => candidates_loop fuel' expected_hi w' results
      | (_, _) => Ret (Some results)
      end
  end.

Definition lookup_candidates_by_hash (ix : HashIndex) (fuel : nat) (hash : Z)
  : iprog (option (Candidate.CandidateAddresses)) :=
  let tag := Entry.tag_from_hash hash in
  let bucket_idx := Z.land hash (mask ix) in
  candidates_loop fuel (Z.land tag Entry.TAG_MASK) (new_walker (get_bucket ix bucket_idx)) Candidate.new.

Definition classify_slot (item : iloc) (tag min_valid_addr : Z) : iprog SlotScan :=
  let* raw := load item in
  if raw =? 0 then Ret Free
  else if (0 <? min_valid_addr) && negb (Entry.is_tentative raw)
          && negb (Entry.is_read_cache raw) && (Entry.address raw <? min_valid_addr)
  then
    let* r := compare_exchange item raw 0 in
    if fst r then Ret Free
    else
      let actual := snd r in
      if actual =? 0 then Ret Free
      else if Entry.matches_tag actual tag
              && (Entry.is_read_cache actual || (min_valid_addr <=? Entry.address actual))
      then Ret (Hit actual)
      else Ret Occupied
  else if Entry.matches_tag raw tag then
    let* synced := load item in
    if Entry.matches_tag synced tag then Ret (Hit synced)
    else if synced =? 0 then Ret Free
    else Ret Occupied
  else Ret Occupied.

(** ** Entry handles *)

Record HashEntryInfo : Type := mkInfo {
  first_bucket : bref; bucket : bref; slot : nat; raw : Z; itag : Z
}.

Definition set_raw (h : HashEntryInfo) (r : Z) : HashEntryInfo :=
  mkInfo (first_bucket h) (bucket h) (slot h) r (itag h).

Definition is_found (h : HashEntryInfo) : bool := negb (raw h =? 0).
Definition info_address (h : HashEntryInfo) : Z := Entry.address (raw h).

Definition try_cas (h : HashEntryInfo) (new_address : Z) : iprog (bool * HashEntryInfo) :=
  if (new_address =? Addr.INVALID_ADDRESS) || (Addr.ADDRESS_MASK <? new_address)
  then Ret (false, h)
  else
    let new_raw := Entry.new new_address (itag h) false in
    let* r := compare_exchange (cells (bucket h) (slot h)) (raw h) new_raw in
    if fst r then Ret (true, set_raw h new_raw) else Ret (false, h).

Definition cas_to_zero (h : HashEntryInfo) (found_only : bool) : iprog (bool * HashEntryInfo) :=
  if raw h =? 0 then Ret (negb found_only, h)
  else
    let* r := compare_exchange (cells (bucket h) (slot h)) (raw h) 0 in
    if fst r then Ret (true, set_raw h 0) else Ret (false, h).

Definition try_set_invalid (h : HashEntryInfo) := cas_to_zero h false.
Definition try_elide (h : HashEntryInfo) := cas_to_zero h true.

Definition owns_slot (h : HashEntryInfo) (raw : Z) : bool :=
  (raw =? 0) || (Entry.tag raw =? itag h).

Definition set_to_current (h : HashEntryInfo) : iprog HashEntryInfo :=
  let* raw := load (cells (bucket h) (slot h)) in
  Ret (if owns_slot h raw then set_raw h raw else h).

(** The data slots of one bucket, tried in order until a hit. *)
Definition find_hit (first b : bref) (tag min_valid_addr : Z) : iprog (option HashEntryInfo) :=
  first_some (fun i =>
    let* s := classify_slot (cells b i) tag min_valid_addr in
    Ret (match s with
         | Hit raw => Some (mkInfo first b i raw tag)
         | Free | Occupied => None
         end)) (seq 0 DATA_ENTRIES).

Definition find_tag_entry_by_hash_with_min_addr (ix : HashIndex) (fuel : nat)
    (hash min_valid_addr : Z) : iprog (option (option HashEntryInfo)) :=
  let tag := Entry.tag_from_hash hash in
  let first := get_bucket ix (Z.land hash (mask ix)) in
  walk fuel (fun b => find_hit first b tag min_valid_addr) (new_walker first).

Definition find_exact_entry_by_hash (ix : HashIndex) (fuel : nat) (hash address : Z)
  : iprog (option (option HashEntryInfo)) :=
  let tag := Entry.tag_from_hash hash in
  let first := get_bucket ix (Z.land hash (mask ix)) in
  walk fuel (fun b =>
    let* r := find_entry_by_address (cells b) tag address in
    Ret (match r with
         | Some (slot, entry) => Some (mkInfo first b slot entry tag)
         | None => None
         end)) (new_walker first).

(** ** Insertion, update and deletion *)

(** The inner loop of [insert_to_bucket]; a lost slot restarts at [start]. *)
Fixpoint insert_loop (fuel sub : nat) (start : bref) (tag address : Z) (w : ChainWalker)
  : iprog (option (unit + Error)) :=
  match fuel with
  | O => Ret None
  | S fuel' =>
      let* empty := find_empty_slot (cells (curr w)) in
      match empty with
      | Some slot =>
          let* ok := try_insert (cells (curr w)) slot tag address in
          if ok then Ret (Some (inl tt))
          else insert_loop fuel' sub start tag address (new_walker start)
      | None =>
          let* r := advance_or_extend sub w in
          match r with
          | (None, _) => Ret None
          | (Some (inr e), _) => Ret (Some (inr e))
          | (Some (inl _), w') => insert_loop fuel' sub start tag address w'
          end
      end
  end.

Definition insert_to_bucket (ix : HashIndex) (fuel sub : nat) (bucket_idx tag address : Z)
  : iprog (option (unit + Error)) :=
  if address =? Addr.INVALID_ADDRESS then Ret (Some (inr (InvalidAddress address)))
  else if Addr.ADDRESS_MASK <? address then Ret (Some (inr (AddressOverflow address)))
  else
    let start := get_bucket ix (Z.land bucket_idx (mask ix)) in
    insert_loop fuel sub start tag address (new_walker start).

(** The slot scan of [find_or_create_tag_by_hash_with_min_addr]: a hit, or the
    first free slot seen so far. *)
Fixpoint scan_slots (b : bref) (tag min_valid_addr : Z) (slots : list nat)
    (first_free : option (bref * nat)) : iprog ((nat * Z) + option (bref * nat)) :=
  match slots with
  | [] => Ret (inr first_free)
  | i :: rest =>
      let* s := classify_slot (cells b i) tag min_valid_addr in
      match s with
      | Hit raw => Ret (inl (i, raw))
      | Free =>
          scan_slots b tag min_valid_addr rest
            (match first_free with Some f => Some f | None => Some (b, i) end)
      | Occupied => scan_slots b tag min_valid_addr rest first_free
      end
  end.

Fixpoint find_or_create_loop (fuel sub : nat) (first : bref) (tag min_valid_addr : Z)
    (w : ChainWalker) (first_free : option (bref * nat))
  : iprog (option (HashEntryInfo + Error)) :=
  match fuel with
  | O => Ret None
  | S fuel' =>
      let* s := scan_slots (curr w) tag min_valid_addr (seq 0 DATA_ENTRIES) first_free in
      match s with
      | inl (i, raw) => Ret (Some (inl (mkInfo first (curr w) i raw tag)))
      | inr first_free =>
          let continue :=
            let* r := advance_or_extend sub w in
            match r with
            | (None, _) => Ret None
            | (Some (inr e), _) => Ret (Some (inr e))
            | (Some (inl _), w') =>
                find_or_create_loop fuel' sub first tag min_valid_addr w' first_free
            end in
          match first_free with
          | Some (free_bucket, slot) =>
              let* idx := overflow_index (cells (curr w)) in
              if idx =? 0 then Ret (Some (inl (mkInfo first free_bucket slot 0 tag)))
              else continue
          | None => continue
          end
      end
  end.

Definition find_or_create_tag_by_hash_with_min_addr (ix : HashIndex) (fuel sub : nat)
    (hash min_valid_addr : Z) : iprog (option (HashEntryInfo + Error)) :=
  let tag := Entry.tag_from_hash hash in
  let first := get_bucket ix (Z.land hash (mask ix)) in
  find_or_create_loop fuel sub first tag min_valid_addr (new_walker first) None.

Definition update_address_by_hash (ix : HashIndex) (fuel : nat) (hash old_address new_address : Z)
  : iprog (option bool) :=
  if (new_address =? Addr.INVALID_ADDRESS) || (Addr.ADDRESS_MASK <? new_address)
     || (old_address =? Addr.INVALID_ADDRESS)
  then Ret (Some false)
  else
    let* r := find_exact_entry_by_hash ix fuel hash old_address in
    match r with
    | None => Ret None
    | Some None => Ret (Some false)
    | Some (Some hei) => let* c := try_cas hei new_address in Ret (Some (fst c))
    end.

Definition delete_by_hash (ix : HashIndex) (fuel : nat) (hash address : Z) : iprog (option bool) :=
  if address =? Addr.INVALID_ADDRESS then Ret (Some false)
  else
    let* r := find_exact_entry_by_hash ix fuel hash address in
    match r with
    | None => Ret None
    | Some None => Ret (Some false)
    | Some (Some hei) => let* c := try_elide hei in Ret (Some (fst c))
    end.

(** ** Splitting into a table of twice the size *)

Module Split.

Definition CHUNK_BITS : Z := 14.
Definition CHUNK_SIZE : Z := Z.shiftl 1 CHUNK_BITS.

Definition chunk_count (old_index_size : Z) : Z :=
  let count := old_index_size / CHUNK_SIZE in
  if count =? 0 then 1 else count.

Definition chunk_offset_for_hash (hash old_mask : Z) : Z :=
  Z.shiftr (Z.land hash old_mask) CHUNK_BITS.

(** The cells of the old table and of the new one. *)
Abbreviation loc2 := (iloc + iloc)%type.
Abbreviation in_old := (relocate (inl : iloc -> loc2)).
Abbreviation in_new := (relocate (inr : iloc -> loc2)).

Section Migrate.
Context (old_index new_index : HashIndex) (fuel sub : nat) (min_valid_addr : Z).
(** The callbacks: [record_locator addr] is the key hash and the previous
    address of a resident record; [trace_back addr bit] follows the log chain to
    the first record whose new hash bit is [bit]. *)
Context (record_locator : Z -> option (Z * Z)) (trace_back : Z -> Z -> option Z).

Definition migrate_into (bucket_idx tag address : Z) : prog loc2 (option (unit + Error)) :=
  in_new (insert_to_bucket new_index fuel sub bucket_idx tag address).

(** [p?; q]. *)
Definition try_then (p q : prog loc2 (option (unit + Error))) : prog loc2 (option (unit + Error)) :=
  let* r := p in
  match r with
  | Some (inl _) => q
  | _ => Ret r
  end.

(** The body of the slot loop, for the word [raw]. *)
Definition split_entry (left_bucket_idx right_bucket_idx high_bit_pos raw : Z)
  : prog loc2 (option (unit + Error)) :=
  if raw =? 0 then Ret (Some (inl tt))
  else if negb (Entry.is_valid raw) then Ret (Some (inl tt))
  else
    let addr := Entry.address raw in
    if addr =? 0 then Ret (Some (inl tt))
    else if (0 <? min_valid_addr) && negb (Entry.is_read_cache raw) && (addr <? min_valid_addr)
    then Ret (Some (inl tt))
    else
      let tag := Entry.tag raw in
      match record_locator addr with
      | Some (hash, prev_addr) =>
          let bit := Z.land (Z.shiftr hash high_bit_pos) 1 in
          let '(primary_idx, other_idx, target_bit) :=
            if bit =? 0 then (left_bucket_idx, right_bucket_idx, 1)
            else (right_bucket_idx, left_bucket_idx, 0) in
          try_then (migrate_into primary_idx tag addr)
            (if negb (prev_addr =? 0) then
               match trace_back prev_addr target_bit with
               | Some other_addr => migrate_into other_idx tag other_addr
               | None => Ret (Some (inl tt))
               end
             else Ret (Some (inl tt)))
      | None =>
          try_then (migrate_into left_bucket_idx tag addr)
                   (migrate_into right_bucket_idx tag addr)
      end.

Fixpoint split_slots (left_bucket_idx right_bucket_idx high_bit_pos : Z) (b : bref)
    (slots : list nat) : prog loc2 (option (unit + Error)) :=
  match slots with
  | [] => Ret (Some (inl tt))
  | i :: rest =>
      let* raw := in_old (load (cells b i)) in
      try_then (split_entry left_bucket_idx right_bucket_idx high_bit_pos raw)
               (split_slots left_bucket_idx right_bucket_idx high_bit_pos b rest)
  end.

Fixpoint split_loop (steps : nat) (left_bucket_idx right_bucket_idx high_bit_pos : Z)
    (w : ChainWalker) : prog loc2 (option (unit + Error)) :=
  match steps with
  | O => Ret None
  | S steps' =>
      try_then
        (split_slots left_bucket_idx right_bucket_idx high_bit_pos (curr w) (seq 0 DATA_ENTRIES))
        (let* s := in_old (advance w) in
         match s with
         | (Next, w') => split_loop steps' left_bucket_idx right_bucket_idx high_bit_pos w'
         | (End, _) => Ret (Some (inl tt))
         | (Cycle, _) => Ret (Some (inr OverflowCycleDetected))
         end)
  end.

(** [old_size] is a power of two: [trailing_zeros] is its logarithm. *)
Definition split_single_bucket (bucket_idx : Z) : prog loc2 (option (unit + Error)) :=
  let old_size := size old_index in
  let high_bit_pos := Z.log2 old_size in
  let left_bucket_idx := Z.land bucket_idx (mask old_index) in
  let right_bucket_idx := left_bucket_idx + old_size in
  split_loop fuel left_bucket_idx right_bucket_idx high_bit_pos
    (new_walker (get_bucket old_index left_bucket_idx)).

Fixpoint split_range (start_bucket : Z) (count : nat) : prog loc2 (option (unit + Error)) :=
  match count with
  | O => Ret (Some (inl tt))
  | S count' => try_then (split_single_bucket start_bucket) (split_range (start_bucket + 1) count')
  end.

Definition split_chunk (chunk_idx num_chunks : Z) : prog loc2 (option (unit + Error)) :=
  let chunk_size := size old_index / num_chunks in
  let start_bucket := chunk_size * Z.land chunk_idx (num_chunks - 1) in
  split_range start_bucket (Z.to_nat chunk_size).

End Migrate.
End Split.

End Index.
