(* ===== verification/OverflowPool.v ===== *)
(** * The overflow pool's contract ([wedb/windex/src/overflow_pool.rs])

    [pool_ok m owned fl] says that the memory [m] holds a pool whose buckets
    are partitioned between the set [owned] of the pool's clients and the free
    list [fl].  [allocate] moves one bucket, zeroed, from the pool to the client
    and [free] moves it back; no index is ever lost or handed out twice. *)

From stdpp Require Import base list numbers option tactics sets.
From Stdlib Require Import ZArith Lia Bool.
From S2P Require Import Prelude Base Atomic Bucket Index.
Local Open Scope prog_scope.

Module OverflowPool.
Import Bucket Index.

Definition CAPACITY : Z := MAX_CHUNKS * CHUNK_SIZE.

(** ** Index arithmetic *)

Lemma get_unchecked_inj a b : get_unchecked a = get_unchecked b -> a = b.
Proof.
  unfold get_unchecked, CHUNK_MASK. intros [= H1 H2].
  change (CHUNK_SIZE - 1) with (Z.ones CHUNK_BITS) in H2.
  rewrite !Z.land_ones in H2 by (unfold CHUNK_BITS; lia).
  rewrite !Z.shiftr_div_pow2 in H1 by (unfold CHUNK_BITS; lia).
  change (2 ^ CHUNK_BITS) with 1024 in *. euclid.
Qed.

#[export] Instance get_unchecked_Inj : Inj (=) (=) get_unchecked.
Proof. exact get_unchecked_inj. Qed.

Lemma get_unchecked_main a i : get_unchecked a <> Main i.
Proof. done. Qed.

Lemma chunk_lt a : a < CAPACITY <-> Z.shiftr a CHUNK_BITS < MAX_CHUNKS.
Proof.
  unfold CAPACITY, MAX_CHUNKS. rewrite Z.shiftr_div_pow2 by (unfold CHUNK_BITS; lia).
  change (2 ^ CHUNK_BITS) with 1024. change CHUNK_SIZE with 1024. euclid.
Qed.

Lemma next_head_id curr id :
  0 <= id < 2 ^ 32 -> Z.land (next_head curr id) FREE_LIST_ID_MASK = id.
Proof.
  intros H. unfold next_head, FREE_LIST_ID_MASK. change 0xFFFFFFFF with (Z.ones 32).
  assert (fits 32 id) by (unfold fits; lia). bitblast.
Qed.

(** ** The contract *)

Fixpoint linked (m : mem iloc) (head : Z) (fl : list Z) : Prop :=
  match fl with
  | [] => head = 0
  | id :: rest =>
      head = id /\ linked m (Z.land (m (Slot (get_unchecked id) 0)) FREE_LIST_ID_MASK) rest
  end.

(** The pool's three counters and its chunk table. *)
Definition pool_cell (l : iloc) : Prop :=
  match l with Slot _ _ => False | _ => True end.

Record pool_ok (m : mem iloc) (owned : Z -> Prop) (fl : list Z) : Prop := {
  po_alloc : 0 <= m PAllocated <= CAPACITY;
  po_chunks : forall id, 1 <= id <= m PAllocated -> m (PChunk (Z.shiftr (id - 1) CHUNK_BITS)) <> 0;
  po_owned : forall id, owned id -> 1 <= id <= m PAllocated;
  po_linked : linked m (Z.land (m PFreeHead) FREE_LIST_ID_MASK) fl;
  po_nodup : NoDup fl;
  po_free : forall id, id ∈ fl -> 1 <= id <= m PAllocated /\ ~ owned id;
  po_blank : forall id k, id ∈ fl -> (1 <= k < 8)%nat -> m (Slot (get_unchecked id) k) = 0;
  po_fresh : forall id k, m PAllocated < id -> (k < 8)%nat -> m (Slot (get_unchecked id) k) = 0;
  po_total : forall id, 1 <= id <= m PAllocated -> owned id \/ id ∈ fl;
  po_count : m PFreeCount = Z.of_nat (length fl)
}.

(** [linked] reads only the first word of the listed buckets. *)
Lemma linked_frame m m' h fl :
  (forall id, id ∈ fl -> m' (Slot (get_unchecked id) 0) = m (Slot (get_unchecked id) 0)) ->
  linked m h fl -> linked m' h fl.
Proof.
  revert h. induction fl as [|id fl IH]; simpl; [done|].
  intros h Hm [-> Hl]. split; [done|]. rewrite Hm by set_solver. apply IH; [set_solver|done].
Qed.

Lemma free_length_bound m owned fl : pool_ok m owned fl -> Z.of_nat (length fl) <= m PAllocated.
Proof.
  intros P. assert (fl ⊆ seqZ 1 (m PAllocated)) as Hs.
  { intros id Hid. apply elem_of_seqZ. destruct (po_free _ _ _ P id Hid). lia. }
  apply NoDup_submseteq in Hs; [|apply P]. apply submseteq_length in Hs.
  rewrite length_seqZ in Hs. pose proof (po_alloc _ _ _ P). lia.
Qed.

Lemma pool_ok_ext m (owned owned' : Z -> Prop) fl :
  (forall x, owned x <-> owned' x) -> pool_ok m owned fl -> pool_ok m owned' fl.
Proof.
  intros E P. split; try apply P.
  - intros id Ho%E. by apply (po_owned _ _ _ P).
  - intros id Hin. destruct (po_free _ _ _ P id Hin) as [? Hno]. split; [done|]. by rewrite <- E.
  - intros id Hid. rewrite <- E. by apply (po_total _ _ _ P).
Qed.

(** Client words never matter to the pool: it reads free and unborn buckets only. *)
Lemma pool_ok_frame m m' (owned : Z -> Prop) fl :
  (forall l, pool_cell l -> m' l = m l) ->
  (forall id k, ~ owned id -> m' (Slot (get_unchecked id) k) = m (Slot (get_unchecked id) k)) ->
  pool_ok m owned fl -> pool_ok m' owned fl.
Proof.
  intros Hp Hs P. assert (m' PAllocated = m PAllocated) as Ha by by apply Hp.
  split; rewrite ?Ha, ?(Hp PFreeHead), ?(Hp PFreeCount) by done; try apply P.
  - intros id Hid. rewrite Hp by done. by apply P.
  - eapply linked_frame; [|apply P]. intros id Hid. apply Hs. by destruct (po_free _ _ _ P id Hid).
  - intros id k Hid Hk. rewrite Hs by (by destruct (po_free _ _ _ P id Hid)).
    by apply (po_blank _ _ _ P).
  - intros id k Hid Hk. rewrite Hs; [by apply (po_fresh _ _ _ P)|].
    intros Ho%(po_owned _ _ _ P). lia.
Qed.

Lemma pool_get_owned m owned fl id :
  pool_ok m owned fl -> 1 <= id <= m PAllocated ->
  run (pool_get id) m = (Some (get_unchecked id), m).
Proof.
  intros P Hid. unfold pool_get. rewrite run_load.
  destruct (Z.eqb_spec id 0); [lia|]. destruct (Z.ltb_spec (m PAllocated) id); [lia|]. cbn [orb].
  assert (Z.shiftr (id - 1) CHUNK_BITS < MAX_CHUNKS).
  { apply chunk_lt. pose proof (po_alloc _ _ _ P). lia. }
  destruct (Z.leb_spec MAX_CHUNKS (Z.shiftr (id - 1) CHUNK_BITS)); [lia|].
  rewrite run_load. destruct (Z.eqb_spec (m (PChunk (Z.shiftr (id - 1) CHUNK_BITS))) 0) as [E|E].
  - by apply (po_chunks _ _ _ P) in E.
  - done.
Qed.

(** ** Allocation *)

(** What [allocate] promises. *)
Definition alloc_post (m : mem iloc) (owned : Z -> Prop) (fl : list Z) (r : Z + Error)
    (m' : mem iloc) : Prop :=
  match r with
  | inl id =>
      ~ owned id /\
      (forall k, (k < 8)%nat -> m' (Slot (get_unchecked id) k) = 0) /\
      (forall b k, b <> get_unchecked id -> m' (Slot b k) = m (Slot b k)) /\
      exists fl', pool_ok m' (fun x => x = id \/ owned x) fl'
  | inr e =>
      e = OverflowPoolExhausted /\ fl = [] /\ m PAllocated = CAPACITY /\ forall l, m' l = m l
  end.

Ltac upd_simpl := repeat first
  [ rewrite upd_eq | rewrite upd_ne by (first [discriminate | congruence]) ].

(** The memory after the head of the free list is taken. *)
Definition popped (m : mem iloc) (id : Z) : mem iloc :=
  upd (upd (upd m PFreeHead
    (next_head (m PFreeHead) (Z.land (m (Slot (get_unchecked id) 0)) FREE_LIST_ID_MASK)))
    (Slot (get_unchecked id) 0) 0) PFreeCount (wsub 64 (m PFreeCount) 1).

Lemma popped_ok m owned id fl :
  pool_ok m owned (id :: fl) -> pool_ok (popped m id) (fun x => x = id \/ owned x) fl.
Proof.
  intros P. pose proof (po_nodup _ _ _ P) as [Hni Hnd]%NoDup_cons.
  pose proof (free_length_bound _ _ _ P) as Hb. pose proof (po_alloc _ _ _ P) as Ha.
  assert (forall x, x ∈ fl -> x <> id) as Hx by (intros x ? ->; done).
  assert (forall x, x ∈ fl -> get_unchecked x <> get_unchecked id) as Hg.
  { intros x Hin E%get_unchecked_inj. by apply (Hx x). }
  assert (popped m id PAllocated = m PAllocated) as Hal by (unfold popped; by upd_simpl).
  assert (forall b k, b <> get_unchecked id -> popped m id (Slot b k) = m (Slot b k)) as Hs
    by (intros; unfold popped; by upd_simpl).
  split; rewrite ?Hal; try done.
  - intros x Hxr. unfold popped. upd_simpl. by apply P.
  - intros x [->|Ho]; [by apply (po_free _ _ _ P); left|by apply P].
  - unfold popped at 2. upd_simpl. rewrite next_head_id.
    + eapply linked_frame; [|apply (po_linked _ _ _ P)]. intros x Hin. apply Hs. by apply Hg.
    + unfold FREE_LIST_ID_MASK. change 0xFFFFFFFF with (Z.ones 32).
      rewrite Z.land_ones by lia. apply Z.mod_pos_bound. lia.
  - intros x Hin. destruct (po_free _ _ _ P x) as [Hr Hno]; [by right|].
    split; [done|]. intros [->|?]; [by apply (Hx id)|done].
  - intros x k Hin Hk. rewrite Hs by (by apply Hg). apply (po_blank _ _ _ P); [by right|done].
  - intros x k Hlt Hk. rewrite Hs; [by apply (po_fresh _ _ _ P)|]. intros E%get_unchecked_inj. subst.
    destruct (po_free _ _ _ P id) as [? _]; [left|]. lia.
  - intros x Hr. destruct (po_total _ _ _ P x Hr) as [?|[->|?]%elem_of_cons]; auto.
  - unfold popped. upd_simpl. rewrite (po_count _ _ _ P). simpl length in *.
    unfold wsub, wrap. change CAPACITY with 4194304 in Ha. rewrite Z.mod_small; lia.
Qed.

Lemma popped_zero m owned id fl k :
  pool_ok m owned (id :: fl) -> (k < 8)%nat -> popped m id (Slot (get_unchecked id) k) = 0.
Proof.
  intros P Hk. unfold popped. destruct (decide (k = 0%nat)) as [->|]; upd_simpl; [done|].
  apply (po_blank _ _ _ P); [left|lia].
Qed.

Lemma run_allocate_free m owned fl fuel :
  pool_ok m owned fl ->
  run (allocate_free (S fuel) (m PFreeHead)) m =
    match fl with
    | [] => (Some None, m)
    | id :: _ => (Some (Some id), popped m id)
    end.
Proof.
  intros P. pose proof (po_linked _ _ _ P) as Hl. cbn [allocate_free].
  destruct fl as [|id fl]; simpl in Hl; [by rewrite Hl|].
  destruct Hl as [-> _]. destruct (po_free _ _ _ P id) as [Hid _]; [left|].
  destruct (Z.eqb_spec id 0); [lia|].
  rewrite run_bind, (pool_get_owned _ _ _ _ P Hid), run_load, run_cas_weak_ok by done.
  cbn [fst]. rewrite run_store, run_fetch_sub. unfold popped. by upd_simpl.
Qed.

(** The memory after a bucket is taken from the bump counter. *)
Definition bumped (m m' : mem iloc) : Prop :=
  m' PAllocated = m PAllocated + 1 /\
  m' (PChunk (Z.shiftr (m PAllocated) CHUNK_BITS)) <> 0 /\
  (forall c, m (PChunk c) <> 0 -> m' (PChunk c) <> 0) /\
  m' PFreeHead = m PFreeHead /\ m' PFreeCount = m PFreeCount /\
  (forall b k, m' (Slot b k) = m (Slot b k)).

Lemma bumped_ok m m' owned :
  pool_ok m owned [] -> m PAllocated < CAPACITY -> bumped m m' ->
  pool_ok m' (fun x => x = m PAllocated + 1 \/ owned x) [].
Proof.
  intros P Hc (Ha & Hn & Hch & Hh & Hf & Hs). pose proof (po_alloc _ _ _ P) as Hal.
  split; rewrite ?Ha, ?Hh, ?Hf; try lia.
  - intros id Hid. destruct (decide (id = m PAllocated + 1)) as [->|].
    + by replace (m PAllocated + 1 - 1) with (m PAllocated) by lia.
    + apply Hch, (po_chunks _ _ _ P). lia.
  - intros id [->|Ho%(po_owned _ _ _ P)]; lia.
  - apply P.
  - constructor.
  - intros id []%not_elem_of_nil.
  - intros id k []%not_elem_of_nil.
  - intros id k Hid Hk. rewrite Hs. apply (po_fresh _ _ _ P); [lia|done].
  - intros id Hid. destruct (decide (id = m PAllocated + 1)) as [->|]; [by left; left|].
    destruct (po_total _ _ _ P id) as [?|[]%not_elem_of_nil]; [lia|]. by left; right.
  - apply P.
Qed.

Lemma run_ensure_chunk m c :
  c < MAX_CHUNKS -> m (PChunk c) = 0 ->
  run (ensure_chunk c) m = (inl tt, upd m (PChunk c) 1).
Proof.
  intros Hc Hz. unfold ensure_chunk. destruct (Z.leb_spec MAX_CHUNKS c); [lia|].
  rewrite run_load, Hz. simpl. by rewrite Hz.
Qed.

Lemma run_allocate_bump m owned :
  pool_ok m owned [] ->
  let r := run allocate_bump m in
  (m PAllocated < CAPACITY /\ r.1 = inl (m PAllocated + 1) /\ bumped m r.2) \/
  (m PAllocated = CAPACITY /\ r.1 = inr OverflowPoolExhausted /\ forall l, r.2 l = m l).
Proof.
  intros P. pose proof (po_alloc _ _ _ P) as Ha. unfold allocate_bump.
  assert (CAPACITY < 2 ^ 63) as Hcap by (vm_compute; reflexivity).
  assert (wadd 64 (m PAllocated) 1 = m PAllocated + 1) as Hw
    by (unfold wadd, wrap; rewrite Z.mod_small; lia).
  rewrite run_fetch_add, Hw. pose proof (chunk_lt (m PAllocated)) as Hlt.
  destruct (Z.leb_spec MAX_CHUNKS (Z.shiftr (m PAllocated) CHUNK_BITS)).
  - right. split; [lia|]. rewrite run_fetch_sub. upd_simpl. split; [done|]. simpl. intros l.
    unfold upd. repeat case_decide; subst; try done. unfold wsub, wrap. rewrite Z.mod_small; lia.
  - left. split; [lia|]. rewrite run_load. upd_simpl.
    set (c := Z.shiftr (m PAllocated) CHUNK_BITS) in *.
    destruct (Z.eqb_spec (m (PChunk c)) 0).
    + rewrite run_bind, run_ensure_chunk by (upd_simpl; done). split; [done|]. simpl.
      unfold bumped. fold c. upd_simpl.
      repeat split; try done; intros; unfold upd; by repeat case_decide.
    + split; [done|]. simpl. unfold bumped. fold c. upd_simpl.
      repeat split; try done; intros; unfold upd; by repeat case_decide.
Qed.

Lemma bump_post m owned r m' :
  pool_ok m owned [] ->
  (m PAllocated < CAPACITY /\ r = inl (m PAllocated + 1) /\ bumped m m') \/
  (m PAllocated = CAPACITY /\ r = inr OverflowPoolExhausted /\ forall l, m' l = m l) ->
  alloc_post m owned [] r m'.
Proof.
  intros P [(Hlt & -> & Hb)|(Hc & -> & Hl)]; [|done]. simpl.
  split; [intros ?%(po_owned _ _ _ P); lia|].
  pose proof (bumped_ok _ _ _ P Hlt Hb). destruct Hb as (_ & _ & _ & _ & _ & Hs).
  split; [intros k Hk; rewrite Hs; apply (po_fresh _ _ _ P); [lia|done]|]. eauto.
Qed.

Lemma popped_post m owned id fl :
  pool_ok m owned (id :: fl) -> alloc_post m owned (id :: fl) (inl id) (popped m id).
Proof.
  intros P. simpl. destruct (po_free _ _ _ P id) as [_ Hno]; [left|]. split; [done|].
  split; [intros k; by apply (popped_zero m owned id fl)|].
  split; [intros b k Hb; unfold popped; by upd_simpl|]. eauto using popped_ok.
Qed.

Lemma run_allocate m owned fl fuel :
  pool_ok m owned fl ->
  exists r m', run (allocate (S fuel)) m = (Some r, m') /\ alloc_post m owned fl r m'.
Proof.
  intros P. unfold allocate. rewrite run_load, run_bind, (run_allocate_free _ _ _ _ P).
  destruct fl as [|id fl]; [|eexists _, _; split; [done|]; by apply popped_post].
  rewrite run_bind. pose proof (run_allocate_bump m owned P) as Hb.
  destruct (run allocate_bump m) as [r m']. exists r, m'. split; [done|]. by apply bump_post.
Qed.

(** Allocating an overflow bucket on a well-formed pool always answers.
    On success the index was owned by nobody, all eight words of its bucket are
    zero, no other bucket changed, and the pool stays well formed with that
    index owned by the caller.  It fails only when the free list is empty and
    all [MAX_CHUNKS * CHUNK_SIZE] buckets are in use, and then it leaves every
    cell as it was. *)
Theorem allocate_correct m owned fl fuel (P : pool_ok m owned fl) :
  exists r, (run (allocate (S fuel)) m).1 = Some r /\
            alloc_post m owned fl r (run (allocate (S fuel)) m).2.
Proof. destruct (run_allocate m owned fl fuel P) as (r & m' & -> & H). eauto. Qed.

(** ** Recycling *)

Lemma run_clear_entries b slots m :
  (run (clear_entries b slots) m).1 = tt /\
  (forall k, (run (clear_entries b slots) m).2 (Slot b k) =
             if bool_decide (k ∈ slots) then 0 else m (Slot b k)) /\
  (forall l, (forall k, l <> Slot b k) -> (run (clear_entries b slots) m).2 l = m l).
Proof.
  revert m. induction slots as [|i slots IH]; intros m; cbn [clear_entries]; [done|].
  rewrite run_store. destruct (IH (upd m (Slot b i) 0)) as (? & Hk & Hl). split; [done|]. split.
  - intros k. rewrite Hk. clear. destruct (decide (k = i)) as [->|Hne].
    + upd_simpl. rewrite (bool_decide_eq_true_2 (i ∈ i :: slots)) by left. by case_bool_decide.
    + upd_simpl. rewrite (bool_decide_ext (k ∈ i :: slots) (k ∈ slots)); [done|].
      rewrite elem_of_cons. tauto.
  - intros l Hne. rewrite Hl by done. apply upd_ne. intros E. by apply (Hne i).
Qed.

(** The memory after [id] is pushed on the free list. *)
Definition pushed (m m' : mem iloc) (id : Z) : Prop :=
  m' PFreeHead = next_head (m PFreeHead) (Z.land id FREE_LIST_ID_MASK) /\
  m' PFreeCount = wadd 64 (m PFreeCount) 1 /\
  m' (Slot (get_unchecked id) 0) = Z.land (m PFreeHead) FREE_LIST_ID_MASK /\
  (forall k, (1 <= k < 8)%nat -> m' (Slot (get_unchecked id) k) = 0) /\
  (forall b k, b <> get_unchecked id -> m' (Slot b k) = m (Slot b k)) /\
  m' PAllocated = m PAllocated /\ (forall c, m' (PChunk c) = m (PChunk c)).

Lemma run_free m owned fl id fuel :
  pool_ok m owned fl -> 1 <= id <= m PAllocated ->
  (run (free (S fuel) id) m).1 = true /\ pushed m (run (free (S fuel) id) m).2 id.
Proof.
  intros P Hid. unfold free. rewrite run_load.
  destruct (Z.eqb_spec id 0); [lia|]. destruct (Z.ltb_spec (m PAllocated) id); [lia|]. cbn [orb].
  rewrite run_bind, (pool_get_owned _ _ _ _ P Hid), run_bind.
  pose proof (run_clear_entries (get_unchecked id) (seq 0 ENTRIES_PER_BUCKET) m) as (_ & Hk & Hl).
  destruct (run (clear_entries _ _) m) as [u m1]. cbn [fst snd] in Hk, Hl.
  rewrite run_load. cbn [free_push]. rewrite run_store, run_cas_weak_ok by by upd_simpl.
  cbn [fst]. rewrite run_fetch_add. split; [done|]. simpl. unfold pushed. upd_simpl.
  rewrite !Hl by done. repeat split; try done.
  - intros k Hk'. rewrite upd_ne, upd_ne, upd_ne by (first [done|intros [=]; lia]). rewrite Hk.
    rewrite bool_decide_eq_true_2; [done|]. apply elem_of_seq. unfold ENTRIES_PER_BUCKET. lia.
  - intros b k Hb. upd_simpl. apply Hl. congruence.
  - intros c. upd_simpl. by apply Hl.
Qed.

(** Giving an owned overflow bucket back always completes, leaves the pool
    well formed with that index on top of the free list and no longer owned,
    and touches no other bucket; together with [allocate] every index up to the
    allocation counter is at all times either owned or free, never both. *)
Theorem free_correct m (owned : Z -> Prop) fl id fuel (P : pool_ok m owned fl) (Ho : owned id) :
  (run (free (S fuel) id) m).1 = true /\
  pool_ok (run (free (S fuel) id) m).2 (fun x => owned x /\ x <> id) (id :: fl) /\
  (forall b k, b <> get_unchecked id -> (run (free (S fuel) id) m).2 (Slot b k) = m (Slot b k)).
Proof.
  pose proof (po_owned _ _ _ P id Ho) as Hid.
  destruct (run_free _ _ _ _ fuel P Hid) as [-> (Hh & Hc & H0 & Hz & Hs & Ha & Hch)].
  set (m' := (run _ m).2) in *. split; [done|]. split; [|done].
  pose proof (free_length_bound _ _ _ P) as Hb. pose proof (po_alloc _ _ _ P) as Hal.
  assert (CAPACITY < 2 ^ 32) as Hcap by (vm_compute; reflexivity).
  assert (id ∉ fl) as Hni by (intros Hin%(po_free _ _ _ P); tauto).
  assert (forall x, x <> id -> get_unchecked x <> get_unchecked id) as Hg
    by (intros x Hx E%get_unchecked_inj; done).
  assert (Z.land id FREE_LIST_ID_MASK = id) as Hidm.
  { change FREE_LIST_ID_MASK with (Z.ones 32). rewrite Z.land_ones by lia. apply Z.mod_small. lia. }
  split; rewrite ?Ha; try done.
  - intros x Hx. rewrite Hch. by apply (po_chunks _ _ _ P).
  - intros x [? _]. by apply (po_owned _ _ _ P).
  - rewrite Hh, Hidm, next_head_id by lia. simpl. split; [done|]. rewrite H0.
    rewrite <- Z.land_assoc, Z.land_diag. eapply linked_frame; [|apply (po_linked _ _ _ P)].
    intros x Hx. apply Hs, Hg. by intros ->.
  - constructor; [done|apply P].
  - intros x [->|Hx]%elem_of_cons; [split; [lia|tauto]|].
    destruct (po_free _ _ _ P x Hx). split; [done|tauto].
  - intros x k [->|Hx]%elem_of_cons Hk; [by apply Hz|].
    rewrite Hs by (apply Hg; by intros ->). by apply (po_blank _ _ _ P).
  - intros x k Hx Hk. rewrite Hs by (apply Hg; lia). by apply (po_fresh _ _ _ P).
  - intros x Hx. destruct (decide (x = id)) as [->|]; [right; left|].
    destruct (po_total _ _ _ P x Hx); [by left|right; by right].
  - rewrite Hc, (po_count _ _ _ P). simpl. unfold wadd, wrap. rewrite Z.mod_small; lia.
Qed.

(** The empty pool, and the pool with one bucket handed out. *)
Lemma empty_pool_ok : pool_ok (fun _ => 0) (fun _ => False) [].
Proof.
  assert (forall id : Z, id ∉ []) as Hn by (intros id; apply not_elem_of_nil).
  split; try done; try apply NoDup_nil_2; intros; first [lia | by destruct (Hn id)].
Qed.

Lemma allocate_correct_witness :
  pool_ok (fun _ => 0) (fun _ => False) [] /\
  (run (allocate 1) (fun _ => 0)).1 = Some (inl 1) /\
  exists r, (run (allocate 1) (fun _ => 0)).1 = Some r /\
            alloc_post (fun _ => 0) (fun _ => False) [] r (run (allocate 1) (fun _ => 0)).2.
Proof.
  split; [exact empty_pool_ok|]. split; [vm_compute; reflexivity|].
  exact (allocate_correct (fun _ => 0) (fun _ => False) [] 0 empty_pool_ok).
Defined.

Definition one_bucket : mem iloc :=
  upd (upd (fun _ => 0) PAllocated 1) (PChunk 0) 1.

Lemma one_bucket_ok : pool_ok one_bucket (fun x => x = 1) [].
Proof.
  assert (bumped (fun _ => 0) one_bucket) as Hb.
  { unfold bumped, one_bucket. repeat split; done. }
  eapply pool_ok_ext; [|exact (bumped_ok _ _ _ empty_pool_ok eq_refl Hb)].
  intros x. simpl. tauto.
Qed.

Lemma free_correct_witness :
  pool_ok one_bucket (fun x => x = 1) [] /\
  (run (free 1 1) one_bucket).1 = true /\
  pool_ok (run (free 1 1) one_bucket).2 (fun x => x = 1 /\ x <> 1) [1].
Proof.
  split; [exact one_bucket_ok|].
  destruct (free_correct one_bucket (fun x => x = 1) [] 1 0 one_bucket_ok eq_refl) as (H1 & H2 & _).
  split; [exact H1|exact H2].
Defined.

End OverflowPool.
