(* ===== verification/Table.v ===== *)
(** * The hash index as a table of chains ([wedb/windex/src/{chain,find,insert}.rs])

    A main bucket and the overflow buckets linked from it form a [chain]; its
    words in order are the bucket's contents.  The lookups of [Index] are shown to
    compute list functions of those words, insertion, update and deletion to
    change exactly one of them, and every walk to end, even on a corrupt chain. *)

From stdpp Require Import base list numbers option tactics sets.
From Stdlib Require Import ZArith Lia Bool.
From S2P Require Import Prelude Base Atomic Bucket Candidate Index OverflowPool.
Local Open Scope prog_scope.

Module Table.
Import Bucket Index OverflowPool.

(** ** Chains *)

Definition ovf (m : mem iloc) (b : bref) : Z :=
  Z.land (m (Slot b OVERFLOW_INDEX)) Addr.ADDRESS_MASK.

(** The overflow indices linked from [b], in order. *)
Fixpoint chain (m : mem iloc) (b : bref) (ids : list Z) : Prop :=
  match ids with
  | [] => ovf m b = 0
  | id :: rest => id <> 0 /\ ovf m b = id /\ chain m (get_unchecked id) rest
  end.

Definition chain_buckets (b : bref) (ids : list Z) : list bref := b :: map get_unchecked ids.

Definition bucket_words (m : mem iloc) (b : bref) : list Z :=
  map (fun i => m (Slot b i)) (seq 0 DATA_ENTRIES).

Definition chain_words (m : mem iloc) (bs : list bref) : list Z := bs ≫= bucket_words m.

(** The address a word offers to a lookup of tag [hi]. *)
Definition hit (hi w : Z) : option Z :=
  if (Z.shiftr w Entry.TAG_SHIFT =? hi) && negb (Z.land w Addr.ADDRESS_MASK =? 0)
  then Some (Z.land w Addr.ADDRESS_MASK) else None.

Lemma hit_zero hi : hit hi 0 = None.
Proof. unfold hit. rewrite Z.land_0_l, andb_false_r. done. Qed.

Lemma chain_frame m m' b ids :
  (forall c, c ∈ chain_buckets b ids -> ovf m' c = ovf m c) -> chain m b ids -> chain m' b ids.
Proof.
  revert b. induction ids as [|id ids IH]; intros b Hf; simpl.
  - rewrite Hf; [done|left].
  - intros (? & ? & Hc). rewrite Hf by left. split; [done|]. split; [done|].
    apply IH; [|done]. intros c Hin. apply Hf. by right.
Qed.

Lemma chain_words_frame m m' bs :
  (forall c k, c ∈ bs -> (k < 7)%nat -> m' (Slot c k) = m (Slot c k)) ->
  chain_words m' bs = chain_words m bs.
Proof.
  intros Hf. induction bs as [|c bs IH]; [done|]. unfold chain_words. cbn [mbind list_bind].
  f_equal; [|apply IH; intros c' k Hin; apply Hf; by right].
  apply map_ext_in. intros k Hk%in_seq. apply Hf; [left|]. unfold DATA_ENTRIES in Hk. lia.
Qed.

Lemma chain_words_app m bs bs' : chain_words m (bs ++ bs') = chain_words m bs ++ chain_words m bs'.
Proof. apply bind_app. Qed.

(** ** Walking *)

Lemma run_overflow_index m b : run (overflow_index (cells b)) m = (ovf m b, m).
Proof. reflexivity. Qed.

Lemma run_advance m w :
  run (advance w) m =
    if ovf m (curr w) =? 0 then ((End, w), m)
    else let w' := mkWalker (get_unchecked (ovf m (curr w))) (wstep w + 1) in
         ((if MAX_CHAIN_STEPS <=? wstep w' then Cycle else Next, w'), m).
Proof.
  unfold advance. rewrite run_bind, run_overflow_index.
  destruct (ovf m (curr w) =? 0); [done|]. cbn zeta. by destruct (MAX_CHAIN_STEPS <=? _).
Qed.

Lemma run_first_some {A} (check : nat -> iprog (option A)) f slots m :
  (forall i, run (check i) m = (f i, m)) ->
  run (first_some check slots) m = (head (omap f slots), m).
Proof.
  intros Hc. induction slots as [|i slots IH]; [done|]. cbn [first_some].
  rewrite run_bind, Hc. simpl. destruct (f i); [done|]. apply IH.
Qed.

(** The walker has room to reach the end of the chain. *)
Definition walkable (fuel : nat) (w : ChainWalker) (ids : list Z) : Prop :=
  (length ids < fuel)%nat /\ wstep w + Z.of_nat (length ids) < MAX_CHAIN_STEPS.

Lemma run_walk {A} (scan : bref -> iprog (option A)) f fuel w ids m :
  (forall b, run (scan b) m = (f b, m)) -> chain m (curr w) ids -> walkable fuel w ids ->
  run (walk fuel scan w) m = (Some (head (omap f (chain_buckets (curr w) ids))), m).
Proof.
  intros Hs. revert fuel w. induction ids as [|id ids IH]; intros fuel w Hc [Hf Hm];
    (destruct fuel as [|fuel]; [simpl in Hf; lia|]); cbn [walk]; rewrite run_bind, Hs;
    unfold chain_buckets; cbn [map omap list_omap]; destruct (f (curr w)); try done;
    rewrite run_bind, run_advance; simpl in Hc.
  - rewrite Hc. done.
  - destruct Hc as (Hid & -> & Hc). destruct (Z.eqb_spec id 0); [done|]. cbn zeta.
    cbn [wstep]. simpl length in Hf, Hm. destruct (Z.leb_spec MAX_CHAIN_STEPS (wstep w + 1)); [lia|].
    rewrite IH; [done|done|]. split; simpl; lia.
Qed.

Lemma head_omap_bind {A B C} (g : B -> option C) (h : A -> list B) (l : list A) :
  head (omap (fun a => head (omap g (h a))) l) = head (omap g (l ≫= h)).
Proof.
  induction l as [|a l IH]; [done|]. cbn. rewrite omap_app. fold (l ≫= h).
  destruct (omap g (h a)) eqn:E; simpl; [by rewrite <- IH|done].
Qed.

Lemma omap_map {A B C} (g : B -> option C) (h : A -> B) l : omap g (map h l) = omap (fun a => g (h a)) l.
Proof. induction l as [|a l IH]; [done|]. cbn. destruct (g (h a)); by rewrite ?IH. Qed.

Lemma run_find_tag_address m b tag :
  run (find_tag_address (cells b) tag) m =
    (head (omap (hit (Z.land tag Entry.TAG_MASK)) (bucket_words m b)), m).
Proof.
  unfold find_tag_address, bucket_words. rewrite omap_map. apply run_first_some. intros i.
  unfold check_tag_slot. rewrite run_load.
  destruct (Z.eqb_spec (m (Slot b i)) 0) as [E|E]; [by rewrite E, hit_zero|].
  unfold hit. destruct (Z.shiftr (m (Slot b i)) Entry.TAG_SHIFT =? _) eqn:Et; [|done].
  rewrite run_load, Et. cbn [andb]. by destruct (negb _).
Qed.

(** ** Lookup *)

(** The chain that holds [hash]. *)
Definition home (ix : HashIndex) (hash : Z) : bref := get_bucket ix (Z.land hash (mask ix)).

(** The addresses stored for [hash], in chain order. *)
Definition live (m : mem iloc) (b : bref) (ids : list Z) (hash : Z) : list Z :=
  omap (hit (Z.land (Entry.tag_from_hash hash) Entry.TAG_MASK))
       (chain_words m (chain_buckets b ids)).

(** A tag lookup on a well-linked chain changes nothing and returns the
    first address, in bucket and slot order along the overflow chain, stored
    under the key's tag, and nothing when no slot of the chain has the tag. *)
Theorem find_tag_correct ix m hash ids fuel
    (Hc : chain m (home ix hash) ids) (Hw : walkable fuel (new_walker (home ix hash)) ids) :
  run (find_tag_by_hash ix fuel hash) m = (Some (head (live m (home ix hash) ids hash)), m).
Proof.
  unfold find_tag_by_hash. erewrite run_walk; [|intros b; apply run_find_tag_address|exact Hc|exact Hw].
  unfold live, chain_words. by rewrite <- head_omap_bind.
Qed.

Lemma run_check_slots m b hi slots results :
  Candidate.wf results ->
  exists c, run (check_slots b hi slots results) m = (c, m) /\ Candidate.wf c /\
    Candidate.to_list c = Candidate.to_list results ++
      omap (hit hi) (map (fun i => m (Slot b i)) slots).
Proof.
  revert results. induction slots as [|i slots IH]; intros results Hwf; cbn [check_slots].
  - exists results. simpl. by rewrite app_nil_r.
  - rewrite run_bind. unfold check_slot. rewrite run_load. simpl map. cbn [omap list_omap].
    destruct (Z.eqb_spec (m (Slot b i)) 0) as [E|E]; [rewrite E, hit_zero; by apply IH|].
    unfold hit at 1. destruct (Z.shiftr (m (Slot b i)) Entry.TAG_SHIFT =? hi);
      [|by apply IH]. cbn [andb]. destruct (negb _); [|by apply IH].
    set (a := Z.land _ _). destruct (Candidate.push_spec results a Hwf) as [Hp Hl].
    destruct (IH _ Hp) as (c & Hr & ? & Ht). exists c. cbn [run].
    rewrite Hr. split; [done|]. split; [done|]. by rewrite Ht, Hl, <- app_assoc.
Qed.

Lemma run_candidates_loop m hi ids fuel w results :
  Candidate.wf results -> chain m (curr w) ids -> walkable fuel w ids ->
  exists c, run (candidates_loop fuel hi w results) m = (Some c, m) /\ Candidate.wf c /\
    Candidate.to_list c = Candidate.to_list results ++
      omap (hit hi) (chain_words m (chain_buckets (curr w) ids)).
Proof.
  revert fuel w results. induction ids as [|id ids IH]; intros fuel w results Hwf Hc [Hf Hm];
    (destruct fuel as [|fuel]; [simpl in Hf; lia|]); cbn [candidates_loop]; rewrite run_bind;
    destruct (run_check_slots m (curr w) hi (seq 0 DATA_ENTRIES) results Hwf) as (c & -> & Hcw & Hl);
    rewrite run_bind, run_advance; simpl in Hc; unfold chain_buckets.
  - rewrite Hc. exists c. split; [done|]. split; [done|]. rewrite Hl. cbn [map].
    unfold chain_words. cbn [mbind list_bind]. by rewrite app_nil_r.
  - destruct Hc as (Hid & -> & Hc). destruct (Z.eqb_spec id 0); [done|]. cbn zeta. cbn [wstep].
    simpl length in Hf, Hm. destruct (Z.leb_spec MAX_CHAIN_STEPS (wstep w + 1)); [lia|].
    edestruct (IH fuel (mkWalker (get_unchecked id) (wstep w + 1)) c Hcw Hc) as (c' & -> & ? & Hl').
    { split; simpl; lia. }
    exists c'. split; [done|]. split; [done|]. rewrite Hl', Hl, <- app_assoc. f_equal.
    unfold chain_words at 2. cbn [map mbind list_bind]. rewrite omap_app. done.
Qed.

(** The candidate list of a key is exactly the sequence of addresses
    stored under its tag along the overflow chain, in order and with repetitions,
    whether or not it spills out of the eight inline words. *)
Theorem lookup_candidates_correct ix m hash ids fuel
    (Hc : chain m (home ix hash) ids) (Hw : walkable fuel (new_walker (home ix hash)) ids) :
  exists c, run (lookup_candidates_by_hash ix fuel hash) m = (Some c, m) /\
            Candidate.wf c /\ Candidate.to_list c = live m (home ix hash) ids hash.
Proof.
  exact (run_candidates_loop m _ ids fuel (new_walker (home ix hash)) Candidate.new
           Candidate.new_wf Hc Hw).
Qed.

(** ** Walks end *)

Lemma always_advance w :
  always (fun r => match fst r with
                   | Next => wstep (snd r) = wstep w + 1 /\ wstep w + 1 < MAX_CHAIN_STEPS
                   | _ => True end) (advance w).
Proof.
  intros v. cbn. destruct (_ =? 0); [done|]. cbn [wstep].
  destruct (Z.leb_spec MAX_CHAIN_STEPS (wstep w + 1)); [done|]. cbn. lia.
Qed.

Lemma always_walk {A} (scan : bref -> iprog (option A)) fuel w :
  wstep w < MAX_CHAIN_STEPS -> MAX_CHAIN_STEPS <= wstep w + Z.of_nat fuel ->
  always (fun r => r <> None) (walk fuel scan w).
Proof.
  revert w. induction fuel as [|fuel IH]; intros w Hlt Hf; [lia|]. cbn [walk].
  eapply always_bind; [apply always_true|]. intros [a|] _; [done|].
  eapply always_bind; [apply always_advance|]. intros [[| |] w'] Hw; try done.
  cbn in Hw. apply IH; lia.
Qed.

(** Every lookup along a chain ends within [MAX_CHAIN_STEPS] buckets,
    whatever values its loads return: on a cyclic or corrupt chain, and under any
    interference by other threads, the walk stops. *)
Theorem find_tag_terminates ix hash fuel (Hf : MAX_CHAIN_STEPS <= Z.of_nat fuel) :
  always (fun r => r <> None) (find_tag_by_hash ix fuel hash).
Proof. apply always_walk; [done|]. cbn [wstep new_walker]. lia. Qed.

Lemma find_tag_terminates_witness :
  MAX_CHAIN_STEPS <= Z.of_nat (Z.to_nat MAX_CHAIN_STEPS) /\
  always (fun r => r <> None)
    (find_tag_by_hash (mkIndex 4 3) (Z.to_nat MAX_CHAIN_STEPS) 5).
Proof.
  assert (MAX_CHAIN_STEPS <= Z.of_nat (Z.to_nat MAX_CHAIN_STEPS)) as H
    by (rewrite Z2Nat.id; [apply Z.le_refl | unfold MAX_CHAIN_STEPS; discriminate]).
  split; [exact H|]. exact (find_tag_terminates (mkIndex 4 3) 5 _ H).
Defined.

(** ** The table invariant *)

(** [chains i] are the overflow indices of main bucket [i]. *)
Definition in_chains (ix : HashIndex) (chains : Z -> list Z) (id : Z) : Prop :=
  exists i, 0 <= i < size ix /\ id ∈ chains i.

Record index_ok (ix : HashIndex) (m : mem iloc) (chains : Z -> list Z) (fl : list Z) : Prop := {
  io_size : exists k, 0 <= k < 64 /\ size ix = 2 ^ k;
  io_mask : mask ix = size ix - 1;
  io_chain : forall i, 0 <= i < size ix -> chain m (Main i) (chains i);
  io_uniq : forall i j a b id, 0 <= i < size ix -> 0 <= j < size ix ->
    chains i !! a = Some id -> chains j !! b = Some id -> i = j /\ a = b;
  io_pool : pool_ok m (in_chains ix chains) fl
}.

(** The buckets and the words of main bucket [i]. *)
Definition buckets_at (chains : Z -> list Z) (i : Z) : list bref := chain_buckets (Main i) (chains i).
Definition words_at (m : mem iloc) (chains : Z -> list Z) (i : Z) : list Z :=
  chain_words m (buckets_at chains i).

Lemma elem_of_buckets c b ids :
  c ∈ chain_buckets b ids <-> c = b \/ exists id, c = get_unchecked id /\ id ∈ ids.
Proof.
  unfold chain_buckets. rewrite elem_of_cons.
  change (map get_unchecked ids) with (get_unchecked <$> ids). by rewrite list_elem_of_fmap.
Qed.

Section Invariant.
Context (ix : HashIndex) (m : mem iloc) (chains : Z -> list Z) (fl : list Z).
Context (Hok : index_ok ix m chains fl).

Lemma size_pos : 0 < size ix.
Proof. destruct (io_size _ _ _ _ Hok) as (k & ? & ->). lia. Qed.

Lemma land_mask x : Z.land x (mask ix) = x mod size ix.
Proof.
  rewrite (io_mask _ _ _ _ Hok). destruct (io_size _ _ _ _ Hok) as (k & ? & ->).
  rewrite <- Z.land_ones by lia. f_equal. rewrite Z.ones_equiv. lia.
Qed.

Lemma home_main x : home ix x = Main (x mod size ix) /\ 0 <= x mod size ix < size ix.
Proof.
  pose proof size_pos. unfold home, get_bucket. rewrite !land_mask, Z.mod_mod by lia.
  split; [done|]. apply Z.mod_pos_bound. lia.
Qed.

Lemma chain_nodup i : 0 <= i < size ix -> NoDup (chains i).
Proof.
  intros Hi. apply NoDup_alt. intros a b id Ha Hb.
  by destruct (io_uniq _ _ _ _ Hok i i a b id Hi Hi Ha Hb).
Qed.

Lemma buckets_nodup i : 0 <= i < size ix -> NoDup (buckets_at chains i).
Proof.
  intros Hi. constructor.
  - intros Hin%list_elem_of_In%in_map_iff. by destruct Hin as (? & [=] & _).
  - apply (NoDup_fmap_2 _). by apply chain_nodup.
Qed.

Lemma buckets_disjoint i j c :
  0 <= i < size ix -> 0 <= j < size ix ->
  c ∈ buckets_at chains i -> c ∈ buckets_at chains j -> i = j.
Proof.
  intros Hi Hj [->|(a & -> & Ha)]%elem_of_buckets [E|(b & E & Hb)]%elem_of_buckets; try done.
  - by injection E.
  - apply get_unchecked_inj in E as <-.
    apply list_elem_of_lookup in Ha as (x & Ha), Hb as (y & Hb).
    by destruct (io_uniq _ _ _ _ Hok i j x y a Hi Hj Ha Hb).
Qed.

(** Writing a data slot of a chain keeps the invariant. *)
Lemma index_ok_data i c k v :
  0 <= i < size ix -> c ∈ buckets_at chains i -> (k < 7)%nat ->
  index_ok ix (upd m (Slot c k) v) chains fl.
Proof.
  intros Hi Hc Hk. split; try apply Hok.
  - intros j Hj. eapply chain_frame; [|by apply (io_chain _ _ _ _ Hok)].
    intros d _. unfold ovf. rewrite upd_ne; [done|]. unfold OVERFLOW_INDEX. intros [= _ E]. lia.
  - eapply pool_ok_frame; [| |apply (io_pool _ _ _ _ Hok)].
    + intros l Hl. apply upd_ne. by intros <-.
    + intros id k' Hno. apply upd_ne. intros [= Hb ->]. apply Hno. exists i. split; [done|].
      apply elem_of_buckets in Hc as [->|(x & -> & Hx)]; [done|].
      by apply get_unchecked_inj in Hb as ->.
Qed.

Lemma words_other i j c k v :
  0 <= i < size ix -> 0 <= j < size ix -> i <> j -> c ∈ buckets_at chains i ->
  words_at (upd m (Slot c k) v) chains j = words_at m chains j.
Proof.
  intros Hi Hj Hne Hc. apply chain_words_frame. intros d k' Hd _. apply upd_ne. intros [= -> _].
  by destruct Hne; apply (buckets_disjoint i j d).
Qed.

End Invariant.

(** Writing one data slot replaces one word of its chain. *)
Lemma bucket_words_upd m c k :
  (k < 7)%nat ->
  exists l1 l2, bucket_words m c = l1 ++ m (Slot c k) :: l2 /\
    forall v, bucket_words (upd m (Slot c k) v) c = l1 ++ v :: l2.
Proof.
  intros Hk. unfold bucket_words, DATA_ENTRIES.
  exists (map (fun i => m (Slot c i)) (seq 0 k)), (map (fun i => m (Slot c i)) (seq (S k) (6 - k))).
  replace 7%nat with (k + S (6 - k))%nat by lia. rewrite seq_app, !map_app. simpl. split; [done|].
  intros v. rewrite map_app. simpl. rewrite upd_eq. f_equal; [|f_equal];
    apply map_ext_in; intros i Hi%in_seq; apply upd_ne; intros [= E]; lia.
Qed.

Lemma words_upd m bs c k :
  NoDup bs -> c ∈ bs -> (k < 7)%nat ->
  exists l1 l2, chain_words m bs = l1 ++ m (Slot c k) :: l2 /\
    forall v, chain_words (upd m (Slot c k) v) bs = l1 ++ v :: l2.
Proof.
  intros Hnd Hc Hk. apply list_elem_of_split in Hc as (b1 & b2 & ->).
  apply NoDup_app in Hnd as (_ & Hd & [Hn _]%NoDup_cons).
  destruct (bucket_words_upd m c k Hk) as (l1 & l2 & Hb & Hu).
  exists (chain_words m b1 ++ l1), (l2 ++ chain_words m b2). split.
  - rewrite chain_words_app. unfold chain_words at 2. cbn [mbind list_bind].
    rewrite Hb, <- !app_assoc. done.
  - intros v. rewrite chain_words_app. unfold chain_words at 2. cbn [mbind list_bind].
    rewrite Hu, <- !app_assoc. cbn [app]. fold (chain_words (upd m (Slot c k) v) b2).
    rewrite !(chain_words_frame m (upd m (Slot c k) v)); [done|..];
      intros d k' Hin _; apply upd_ne; intros [= -> _]; [done|]. apply (Hd d); [done|left].
Qed.

(** ** Entry words *)

Lemma new_entry_nonzero addr tag : 0 < addr <= Addr.ADDRESS_MASK -> Entry.new addr tag false <> 0.
Proof.
  intros Ha E. apply (f_equal (fun w => Z.land w Addr.ADDRESS_MASK)) in E. revert E.
  unfold Entry.new. rewrite Z.lor_0_r, Z.land_lor_distr_l.
  change Addr.ADDRESS_MASK with (Z.ones 48). rewrite <- Z.land_assoc, Z.land_diag.
  rewrite Z.land_ones by lia. rewrite Z.mod_small by (change Addr.ADDRESS_MASK with (2 ^ 48 - 1) in Ha; lia).
  rewrite Z.land_0_l. intros [-> _]%Z.lor_eq_0_iff. lia.
Qed.

(** ** Exact lookup, deletion and update *)

Definition at_slot (m : mem iloc) (target : Z) (b : bref) (i : nat) : option (nat * Z) :=
  if m (Slot b i) =? target then Some (i, target) else None.

Lemma run_find_entry m b tag addr :
  0 < addr <= Addr.ADDRESS_MASK ->
  run (find_entry_by_address (cells b) tag addr) m =
    (head (omap (at_slot m (Entry.new addr tag false) b) (seq 0 DATA_ENTRIES)), m).
Proof.
  intros Ha. pose proof (new_entry_nonzero addr tag Ha) as Hn.
  unfold find_entry_by_address. apply run_first_some. intros i.
  unfold check_entry_slot, at_slot. rewrite run_load.
  destruct (Z.eqb_spec (m (Slot b i)) 0) as [E|E].
  - rewrite E. by destruct (Z.eqb_spec 0 (Entry.new addr tag false)).
  - destruct (Z.eqb_spec (m (Slot b i)) (Entry.new addr tag false)) as [Et|]; [|done].
    by rewrite run_load, Et, Z.eqb_refl.
Qed.

Lemma head_omap_some {A B} (f : A -> option B) l b :
  head (omap f l) = Some b -> exists a, a ∈ l /\ f a = Some b.
Proof.
  intros H%head_Some_elem_of. apply list_elem_of_omap in H. naive_solver.
Qed.

Lemma head_omap_none {A B} (f : A -> option B) l a :
  head (omap f l) = None -> a ∈ l -> f a = None.
Proof.
  intros H%head_None Ha. destruct (f a) eqn:E; [|done].
  assert (b ∈ omap f l) as Hin by (apply list_elem_of_omap; eauto). rewrite H in Hin.
  by apply not_elem_of_nil in Hin.
Qed.

Lemma elem_of_chain_words m bs w :
  w ∈ chain_words m bs <-> exists b k, b ∈ bs /\ (k < 7)%nat /\ m (Slot b k) = w.
Proof.
  unfold chain_words. rewrite list_elem_of_bind. split.
  - intros (b & Hw & Hb). apply list_elem_of_In, in_map_iff in Hw as (k & <- & Hk%in_seq).
    exists b, k. unfold DATA_ENTRIES in Hk. split; [done|]. split; [lia|done].
  - intros (b & k & Hb & Hk & <-). exists b. split; [|done].
    apply list_elem_of_In, in_map_iff. exists k. split; [done|]. apply in_seq.
    unfold DATA_ENTRIES. lia.
Qed.

(** What [find_exact_entry_by_hash] promises. *)
Definition exact_post (m : mem iloc) (bs : list bref) (tag target : Z)
    (r : option HashEntryInfo) : Prop :=
  match r with
  | Some h => bucket h ∈ bs /\ (slot h < 7)%nat /\ m (Slot (bucket h) (slot h)) = target /\
              raw h = target /\ itag h = tag
  | None => target ∉ chain_words m bs
  end.

Lemma run_find_exact ix m hash addr ids fuel :
  0 < addr <= Addr.ADDRESS_MASK ->
  chain m (home ix hash) ids -> walkable fuel (new_walker (home ix hash)) ids ->
  exists r, run (find_exact_entry_by_hash ix fuel hash addr) m = (Some r, m) /\
    exact_post m (chain_buckets (home ix hash) ids) (Entry.tag_from_hash hash)
      (Entry.new addr (Entry.tag_from_hash hash) false) r.
Proof.
  intros Ha Hc Hw. unfold find_exact_entry_by_hash. set (tag := Entry.tag_from_hash hash).
  set (target := Entry.new addr tag false). fold (home ix hash).
  set (f := fun b => match head (omap (at_slot m target b) (seq 0 DATA_ENTRIES)) with
                     | Some (i, e) => Some (mkInfo (home ix hash) b i e tag) | None => None end).
  rewrite (run_walk _ f _ _ ids); [|intros b; rewrite run_bind, run_find_entry by done; done|done..].
  eexists; split; [done|]. cbn [curr new_walker]. set (bs := chain_buckets _ ids).
  destruct (head (omap f bs)) as [h|] eqn:E; cbn [exact_post].
  - apply head_omap_some in E as (b & Hb & Hf). unfold f in Hf.
    destruct (head (omap _ _)) as [[i e]|] eqn:Ei; simplify_eq. cbn [bucket slot raw itag].
    apply head_omap_some in Ei as (j & Hj%elem_of_seq & Hat). unfold at_slot in Hat.
    destruct (Z.eqb_spec (m (Slot b j)) target); simplify_eq. unfold DATA_ENTRIES in Hj.
    repeat split; [done|lia|done].
  - intros (b & k & Hb & Hk & Hm)%elem_of_chain_words.
    apply (head_omap_none _ _ b) in E; [|done]. unfold f in E.
    destruct (head (omap _ _)) as [[? ?]|] eqn:Ei; [done|].
    apply (head_omap_none _ _ k) in Ei; [|apply elem_of_seq; unfold DATA_ENTRIES; lia].
    unfold at_slot in Ei. by rewrite Hm, Z.eqb_refl in Ei.
Qed.

(** One word [w] of the chain of main bucket [i] became [v], and nothing else
    changed. *)
Definition replaced (ix : HashIndex) (chains : Z -> list Z) (i w v : Z) (m m' : mem iloc) : Prop :=
  (exists l1 l2, words_at m chains i = l1 ++ w :: l2 /\ words_at m' chains i = l1 ++ v :: l2) /\
  (forall j, 0 <= j < size ix -> j <> i -> words_at m' chains j = words_at m chains j).

Lemma replaced_upd ix m chains fl i c k v :
  index_ok ix m chains fl -> 0 <= i < size ix -> c ∈ buckets_at chains i -> (k < 7)%nat ->
  index_ok ix (upd m (Slot c k) v) chains fl /\
  replaced ix chains i (m (Slot c k)) v m (upd m (Slot c k) v).
Proof.
  intros Hok Hi Hc Hk. split; [by eapply index_ok_data|]. split.
  - destruct (words_upd m (buckets_at chains i) c k) as (l1 & l2 & H1 & H2);
      [by eapply buckets_nodup|done|done|]. exists l1, l2. split; [exact H1|apply H2].
  - intros j Hj Hne. by eapply (words_other ix m chains fl Hok i j).
Qed.

(** The outcome of a write to the entry ([tag], [addr]) of [hash]. *)
Definition rewritten (ix : HashIndex) (chains : Z -> list Z) (fl : list Z) (hash addr v : Z)
    (m : mem iloc) (r : option bool * mem iloc) : Prop :=
  let i := hash mod size ix in
  let w := Entry.new addr (Entry.tag_from_hash hash) false in
  ((w ∈ words_at m chains i) /\ r.1 = Some true /\
     index_ok ix r.2 chains fl /\ replaced ix chains i w v m r.2) \/
  ((w ∉ words_at m chains i) /\ r.1 = Some false /\ r.2 = m).

Section Rewrite.
Context (ix : HashIndex) (m : mem iloc) (chains : Z -> list Z) (fl : list Z).
Context (hash : Z) (fuel : nat).
Context (Hok : index_ok ix m chains fl).
Context (Hw : walkable fuel (new_walker (home ix hash)) (chains (hash mod size ix))).

Lemma run_find_exact_ok addr :
  0 < addr <= Addr.ADDRESS_MASK ->
  exists r, run (find_exact_entry_by_hash ix fuel hash addr) m = (Some r, m) /\
    exact_post m (buckets_at chains (hash mod size ix)) (Entry.tag_from_hash hash)
      (Entry.new addr (Entry.tag_from_hash hash) false) r.
Proof.
  intros Ha. destruct (home_main _ _ _ _ Hok hash) as [Hh Hi].
  pose proof (io_chain _ _ _ _ Hok _ Hi) as Hc. rewrite <- Hh in Hc.
  destruct (run_find_exact ix m hash addr _ fuel Ha Hc Hw) as (r & Hr & Hp).
  rewrite Hh in Hp. eauto.
Qed.

(** A CAS through the handle of an exact match. *)
Lemma rewritten_hit h addr v :
  exact_post m (buckets_at chains (hash mod size ix)) (Entry.tag_from_hash hash)
    (Entry.new addr (Entry.tag_from_hash hash) false) (Some h) ->
  rewritten ix chains fl hash addr v m (Some true, upd m (Slot (bucket h) (slot h)) v).
Proof.
  intros (Hb & Hs & Hm & _ & _). destruct (home_main _ _ _ _ Hok hash) as [_ Hi].
  left. split; [apply elem_of_chain_words; eauto|]. split; [done|].
  destruct (replaced_upd ix m chains fl _ _ _ v Hok Hi Hb Hs) as [? Hr]. rewrite Hm in Hr. done.
Qed.

(** C28: deleting a (key, address) pair answers [true] exactly when some slot of
    the key's chain holds it; then one such slot becomes empty, every other word
    of this and all other chains is unchanged and the table stays well formed.
    Otherwise the memory is untouched. *)
Theorem delete_correct addr (Ha : 0 < addr <= Addr.ADDRESS_MASK) :
  rewritten ix chains fl hash addr 0 m (run (delete_by_hash ix fuel hash addr) m).
Proof.
  unfold delete_by_hash, Addr.INVALID_ADDRESS. destruct (Z.eqb_spec addr 0); [lia|].
  rewrite run_bind. destruct (run_find_exact_ok addr Ha) as ([h|] & -> & Hp); [|by right].
  pose proof Hp as (_ & _ & Hm & Hr & _). unfold try_elide, cas_to_zero.
  pose proof (new_entry_nonzero addr (Entry.tag_from_hash hash) Ha).
  destruct (Z.eqb_spec (raw h) 0); [congruence|]. rewrite run_bind, run_cas_ok by congruence.
  by apply rewritten_hit.
Qed.

(** Replacing the address of a (key, old address) pair answers [true]
    exactly when the pair is stored, and then one slot holding it afterwards holds
    the same tag with the new address and nothing else changes. *)
Theorem update_address_correct old new
    (Ho : 0 < old <= Addr.ADDRESS_MASK) (Hn : 0 < new <= Addr.ADDRESS_MASK) :
  rewritten ix chains fl hash old (Entry.new new (Entry.tag_from_hash hash) false) m
    (run (update_address_by_hash ix fuel hash old new) m).
Proof.
  unfold update_address_by_hash, Addr.INVALID_ADDRESS.
  destruct (Z.eqb_spec new 0); [lia|]. destruct (Z.ltb_spec Addr.ADDRESS_MASK new); [lia|].
  destruct (Z.eqb_spec old 0); [lia|]. cbn [orb].
  rewrite run_bind. destruct (run_find_exact_ok old Ho) as ([h|] & -> & Hp); [|by right].
  pose proof Hp as (_ & _ & Hm & Hr & Ht). unfold try_cas, Addr.INVALID_ADDRESS.
  destruct (Z.eqb_spec new 0); [lia|]. destruct (Z.ltb_spec Addr.ADDRESS_MASK new); [lia|].
  cbn [orb]. rewrite run_bind, run_cas_ok by congruence. rewrite Ht. by apply rewritten_hit.
Qed.

End Rewrite.

(** ** Insertion *)

Lemma run_find_empty_slot m b :
  run (find_empty_slot (cells b)) m =
    (head (omap (fun i => if m (Slot b i) =? 0 then Some i else None) (seq 0 DATA_ENTRIES)), m).
Proof.
  apply run_first_some. intros i. unfold check_empty_slot. rewrite run_load.
  by destruct (m (Slot b i) =? 0).
Qed.

Lemma run_try_insert m b k tag addr :
  (k < 7)%nat -> m (Slot b k) = 0 ->
  run (try_insert (cells b) k tag addr) m = (true, upd m (Slot b k) (Entry.new addr tag false)).
Proof.
  intros Hk Hm. unfold try_insert, DATA_ENTRIES. destruct (Nat.leb_spec 7 k); [lia|].
  by rewrite run_cas_ok.
Qed.

(** Linking overflow bucket [id] behind the last bucket [c]. *)
Definition link (m : mem iloc) (c : bref) (id : Z) : mem iloc :=
  upd m (Slot c OVERFLOW_INDEX) (Z.lor (m (Slot c OVERFLOW_INDEX)) id).

Lemma small_id id : 1 <= id <= CAPACITY -> Z.land id Addr.ADDRESS_MASK = id.
Proof.
  intros H. change Addr.ADDRESS_MASK with (Z.ones 48). rewrite Z.land_ones by lia.
  apply Z.mod_small. change CAPACITY with 4194304 in H. lia.
Qed.

Lemma ovf_link m c id : 1 <= id <= CAPACITY -> ovf m c = 0 -> ovf (link m c id) c = id.
Proof.
  intros Hid Ho. unfold ovf, link in *. rewrite upd_eq, Z.land_lor_distr_l, Ho.
  by rewrite small_id, Z.lor_0_l.
Qed.

Lemma run_set_overflow m c id fuel :
  1 <= id <= CAPACITY -> ovf m c = 0 ->
  run (set_overflow_index (cells c) (S fuel) id) m = (Some true, link m c id).
Proof.
  intros Hid Ho. unfold set_overflow_index. destruct (Z.eqb_spec id 0); [lia|].
  rewrite run_load, (small_id id Hid). cbn [set_overflow_loop]. unfold overflow_word.
  fold (ovf m c). rewrite Ho. cbn [negb Z.eqb]. by rewrite run_cas_weak_ok.
Qed.

(** What one extending step does at the end [c] of a chain. *)
Lemma run_extend m owned fl fuel w :
  pool_ok m owned fl -> ovf m (curr w) = 0 -> wstep w + 1 < MAX_CHAIN_STEPS ->
  (forall id, curr w = get_unchecked id -> owned id) ->
  exists r m1, alloc_post m owned fl r m1 /\
    run (advance_or_extend (S fuel) w) m =
      match r with
      | inl id => ((Some (inl tt), mkWalker (get_unchecked id) (wstep w + 1)), link m1 (curr w) id)
      | inr e => ((Some (inr e), w), m1)
      end.
Proof.
  intros P Ho Hs Hown. unfold advance_or_extend. rewrite run_bind, run_advance, Ho. simpl Z.eqb.
  cbv iota. unfold extend at 1. rewrite run_bind, run_bind, run_overflow_index, Ho.
  simpl Z.eqb. cbv iota. rewrite run_bind.
  destruct (run_allocate m owned fl fuel P) as (r & m1 & -> & Hp). exists r, m1.
  split; [done|]. destruct r as [id|e]; [|done].
  destruct Hp as (Hno & Hz & Hfr & fl' & P').
  assert (1 <= id <= CAPACITY) as Hid.
  { pose proof (po_alloc _ _ _ P'). pose proof (po_owned _ _ _ P' id (or_introl eq_refl)). lia. }
  assert (ovf m1 (curr w) = 0) as Ho1.
  { unfold ovf. rewrite Hfr; [done|]. intros E. by apply Hno, Hown. }
  rewrite run_bind, (run_set_overflow _ _ _ _ Hid Ho1). cbn [run].
  rewrite run_bind, run_advance, (ovf_link _ _ _ Hid Ho1). destruct (Z.eqb_spec id 0); [lia|].
  cbn zeta. cbn [wstep]. destruct (Z.leb_spec MAX_CHAIN_STEPS (wstep w + 1)); [lia|]. done.
Qed.

(** The three ways an insertion into the chain [ids] of [b] can end. *)
Inductive insert_out (m : mem iloc) (owned : Z -> Prop) (fl : list Z) (b : bref) (ids : list Z)
    (e : Z) : (unit + Error) -> mem iloc -> Prop :=
| out_slot c k :
    c ∈ chain_buckets b ids -> (k < 7)%nat -> m (Slot c k) = 0 ->
    insert_out m owned fl b ids e (inl tt) (upd m (Slot c k) e)
| out_extend id m1 c :
    last (chain_buckets b ids) = Some c -> alloc_post m owned fl (inl id) m1 ->
    insert_out m owned fl b ids e (inl tt) (upd (link m1 c id) (Slot (get_unchecked id) 0) e)
| out_exhausted m1 err :
    alloc_post m owned fl (inr err) m1 ->
    insert_out m owned fl b ids e (inr err) m1.

Lemma insert_out_cons m owned fl b id ids e r m' :
  insert_out m owned fl (get_unchecked id) ids e r m' -> insert_out m owned fl b (id :: ids) e r m'.
Proof.
  destruct 1 as [c k Hc|id' m1 c Hl|].
  - apply out_slot; [by right|done..].
  - eapply out_extend; [|done]. exact Hl.
  - by apply out_exhausted.
Qed.

(** An insertion at a fresh, zeroed bucket takes its first slot. *)
Lemma run_insert_fresh m fuel sub start tag addr w :
  (forall k, (k < 7)%nat -> m (Slot (curr w) k) = 0) ->
  run (insert_loop (S fuel) sub start tag addr w) m =
    (Some (inl tt), upd m (Slot (curr w) 0) (Entry.new addr tag false)).
Proof.
  intros Hz. cbn [insert_loop]. rewrite run_bind, run_find_empty_slot.
  cbn [seq DATA_ENTRIES omap list_omap]. rewrite (Hz 0%nat) by lia. cbn [Z.eqb head].
  rewrite run_bind, run_try_insert by (first [lia | apply Hz; lia]). done.
Qed.

Lemma run_insert_loop m owned fl start tag addr sub ids : forall fuel w,
  pool_ok m owned fl -> chain m (curr w) ids ->
  (S (length ids) < fuel)%nat -> wstep w + Z.of_nat (length ids) + 1 < MAX_CHAIN_STEPS ->
  (forall id, curr w = get_unchecked id \/ id ∈ ids -> owned id) ->
  exists r m', run (insert_loop fuel (S sub) start tag addr w) m = (Some r, m') /\
    insert_out m owned fl (curr w) ids (Entry.new addr tag false) r m'.
Proof.
  induction ids as [|id ids IH]; intros fuel w P Hc Hf Hm Hown;
    (destruct fuel as [|fuel]; [lia|]); cbn [insert_loop]; rewrite run_bind, run_find_empty_slot;
    destruct (head (omap _ _)) as [k|] eqn:Ek.
  1, 3: apply head_omap_some in Ek as (k' & Hk%elem_of_seq & Hz);
    destruct (Z.eqb_spec (m (Slot (curr w) k')) 0); simplify_eq; unfold DATA_ENTRIES in Hk;
    rewrite run_bind, run_try_insert by (first [lia | done]);
    eexists _, _; split; [done|]; apply out_slot; [left|lia|done].
  - simpl in Hc, Hm, Hf. destruct (run_extend m owned fl sub w P Hc) as (r & m1 & Hp & Hr);
      [lia|intros; apply Hown; by left|]. rewrite run_bind, Hr.
    destruct r as [id|e]; [|eexists _, _; split; [done|by apply out_exhausted]].
    destruct fuel as [|fuel]; [lia|]. pose proof Hp as (Hno & Hz & _).
    rewrite run_insert_fresh; [eexists _, _; split; [done|by eapply out_extend]|].
    intros k Hk. cbn [curr]. unfold link. rewrite upd_ne; [apply Hz; lia|].
    unfold OVERFLOW_INDEX. intros [= _ E]. lia.
  - simpl in Hc, Hf, Hm. destruct Hc as (Hid & Ho & Hc).
    rewrite run_bind. unfold advance_or_extend. rewrite run_bind, run_advance, Ho.
    destruct (Z.eqb_spec id 0); [done|]. cbn zeta. cbn [wstep].
    destruct (Z.leb_spec MAX_CHAIN_STEPS (wstep w + 1)); [lia|]. cbn [run step_result].
    destruct (IH fuel (mkWalker (get_unchecked id) (wstep w + 1)) P Hc) as (r & m' & -> & Ho');
      [lia|simpl; lia| |eauto using insert_out_cons].
    intros x [E%get_unchecked_inj|Hx]; apply Hown; right; [subst; left|by right].
Qed.

(** Extending a chain at its end. *)
Lemma chain_snoc m m' b ids id c :
  chain m b ids -> last (chain_buckets b ids) = Some c -> NoDup (chain_buckets b ids) ->
  (forall d, d ∈ chain_buckets b ids -> d <> c -> ovf m' d = ovf m d) ->
  id <> 0 -> ovf m' c = id -> ovf m' (get_unchecked id) = 0 ->
  chain m' b (ids ++ [id]).
Proof.
  intros Hch. revert b Hch. induction ids as [|x ids IH]; intros b Hch Hl Hnd Hf Hid Hc Hz.
  - simpl in Hl. simplify_eq. done.
  - destruct Hch as (Hx & Ho & Hch). simpl. apply NoDup_cons in Hnd as [Hni Hnd].
    assert (c ∈ chain_buckets (get_unchecked x) ids) as Hin by (apply last_Some_elem_of; exact Hl).
    rewrite Hf; [|left|by intros ->]. split; [done|]. split; [done|].
    apply IH; try done. intros d Hd. apply Hf. by right.
Qed.

Definition extended (chains : Z -> list Z) (i id : Z) : Z -> list Z :=
  fun j => if decide (j = i) then chains i ++ [id] else chains j.

Definition occupied (m : mem iloc) (chains : Z -> list Z) (i : Z) : list Z :=
  filter (fun w => w <> 0) (words_at m chains i).

(** The table after the entry word [e] was added to main bucket [i]. *)
Definition added (ix : HashIndex) (i e : Z) (m : mem iloc) (chains : Z -> list Z)
    (m' : mem iloc) (chains' : Z -> list Z) : Prop :=
  occupied m' chains' i ≡ₚ e :: occupied m chains i /\
  (forall j, 0 <= j < size ix -> j <> i -> words_at m' chains' j = words_at m chains j).

Lemma added_slot ix m chains fl i c k e :
  index_ok ix m chains fl -> 0 <= i < size ix -> c ∈ buckets_at chains i -> (k < 7)%nat ->
  m (Slot c k) = 0 -> e <> 0 -> added ix i e m chains (upd m (Slot c k) e) chains.
Proof.
  intros Hok Hi Hc Hk Hm He. destruct (replaced_upd ix m chains fl i c k e) as [_ [Hw Ho]]; try done.
  split; [|done]. destruct Hw as (l1 & l2 & H1 & H2). unfold occupied. rewrite H1, H2, Hm.
  rewrite !filter_app, filter_cons_True, filter_cons_False by (auto; lia).
  by rewrite <- Permutation_middle.
Qed.

Lemma slot_bucket a b j k : Slot a j = Slot b k -> a = b.
Proof. by injection 1. Qed.

Section Extend.
Context (ix : HashIndex) (m m1 : mem iloc) (chains : Z -> list Z) (fl : list Z).
Context (i id e : Z) (c : bref).
Context (Hok : index_ok ix m chains fl) (Hi : 0 <= i < size ix).
Context (Hlast : last (buckets_at chains i) = Some c).
Context (Hp : alloc_post m (in_chains ix chains) fl (inl id) m1).

Let m' : mem iloc := upd (link m1 c id) (Slot (get_unchecked id) 0) e.

Lemma ext_old j d : 0 <= j < size ix -> d ∈ buckets_at chains j -> d <> get_unchecked id.
Proof.
  intros Hj [->|(x & -> & Hx)]%elem_of_buckets E; [done|].
  apply get_unchecked_inj in E as ->. destruct Hp as [Hno _]. apply Hno. by exists j.
Qed.

Lemma ext_last_in : c ∈ buckets_at chains i.
Proof. by apply last_Some_elem_of. Qed.

Lemma ext_slot d k : d <> get_unchecked id -> (k < 7)%nat -> m' (Slot d k) = m (Slot d k).
Proof.
  intros Hd Hk. unfold m', link. rewrite !upd_ne.
  - destruct Hp as (_ & _ & Hf & _). by apply Hf.
  - unfold OVERFLOW_INDEX. intros [= _ E]. lia.
  - congruence.
Qed.

Lemma ext_ovf d : d <> get_unchecked id -> d <> c -> ovf m' d = ovf m d.
Proof.
  intros Hd Hc. unfold ovf, m', link. rewrite !upd_ne by congruence.
  destruct Hp as (_ & _ & Hf & _). by rewrite Hf.
Qed.

Lemma ext_id : 1 <= id <= CAPACITY.
Proof.
  destruct Hp as (_ & _ & _ & fl' & P'). pose proof (po_alloc _ _ _ P').
  pose proof (po_owned _ _ _ P' id (or_introl eq_refl)). lia.
Qed.

Lemma ext_last_ovf : ovf m c = 0.
Proof.
  pose proof (io_chain _ _ _ _ Hok i Hi) as Hc. revert Hlast Hc. unfold buckets_at.
  generalize (Main i). induction (chains i) as [|x ids IH]; intros b Hl.
  - simpl in Hl. by simplify_eq.
  - intros (_ & _ & Hc). by apply (IH (get_unchecked x)).
Qed.

Lemma ext_linked : ovf m' c = id.
Proof.
  pose proof (ext_old i c Hi ext_last_in) as Hne.
  assert (ovf m' c = ovf (link m1 c id) c) as ->.
  { unfold ovf, m'. rewrite upd_ne; [done|congruence]. }
  apply ovf_link; [exact ext_id|]. unfold ovf. destruct Hp as (_ & _ & Hf & _).
  rewrite Hf by done. exact ext_last_ovf.
Qed.

Lemma ext_new k : (k < 8)%nat -> m' (Slot (get_unchecked id) k) = if decide (k = 0%nat) then e else 0.
Proof.
  intros Hk. pose proof (ext_old i c Hi ext_last_in) as Hne. unfold m', link.
  case_decide as Hz; [subst; apply upd_eq|].
  rewrite upd_ne, upd_ne by congruence. destruct Hp as (_ & Hzero & _). by apply Hzero.
Qed.

Lemma ext_chain j : 0 <= j < size ix -> chain m' (Main j) (extended chains i id j).
Proof.
  intros Hj. unfold extended. case_decide as E.
  - subst j. eapply chain_snoc; [by apply (io_chain _ _ _ _ Hok)|exact Hlast
      |by eapply buckets_nodup| | | |].
    + intros d Hd Hne. apply ext_ovf; [by eapply ext_old|done].
    + pose proof ext_id. lia.
    + exact ext_linked.
    + unfold ovf. rewrite ext_new by (unfold OVERFLOW_INDEX; lia). done.
  - eapply chain_frame; [|by apply (io_chain _ _ _ _ Hok)]. intros d Hd.
    apply ext_ovf; [by eapply ext_old|]. intros ->. apply E.
    by eapply (buckets_disjoint _ _ _ _ Hok); [| |exact Hd|exact ext_last_in].
Qed.

Lemma ext_in x : in_chains ix (extended chains i id) x <-> x = id \/ in_chains ix chains x.
Proof.
  unfold in_chains, extended. split.
  - intros (j & Hj & Hx). case_decide; [|eauto]. subst.
    apply elem_of_app in Hx as [?|?%list_elem_of_singleton]; eauto.
  - intros [->|(j & Hj & Hx)].
    + exists i. split; [done|]. rewrite decide_True, elem_of_app by done. right. left.
    + exists j. split; [done|]. case_decide; [|done]. subst. apply elem_of_app. by left.
Qed.

Lemma ext_lookup j a x :
  extended chains i id j !! a = Some x -> 0 <= j < size ix ->
  chains j !! a = Some x \/ (x = id /\ j = i /\ a = length (chains i)).
Proof.
  unfold extended. case_decide; [|by left]. subst.
  intros [H|[Hl H]]%lookup_app_Some _; [by left|right].
  apply list_lookup_singleton_Some in H as [? <-]. split; [done|]. split; [done|lia].
Qed.

Lemma ext_uniq j k a b x :
  0 <= j < size ix -> 0 <= k < size ix ->
  extended chains i id j !! a = Some x -> extended chains i id k !! b = Some x -> j = k /\ a = b.
Proof.
  intros Hj Hk Ha%ext_lookup Hb%ext_lookup; try done. destruct Hp as [Hno _].
  destruct Ha as [Ha|(Hx & ? & ?)], Hb as [Hb|(Hy & ? & ?)].
  - by eapply (io_uniq _ _ _ _ Hok).
  - destruct Hno. exists j. rewrite <- Hy. split; [done|]. by eapply list_elem_of_lookup_2.
  - destruct Hno. exists k. rewrite <- Hx. split; [done|]. by eapply list_elem_of_lookup_2.
  - split; congruence.
Qed.

Lemma ext_pool : exists fl', pool_ok m' (in_chains ix (extended chains i id)) fl'.
Proof.
  destruct Hp as (_ & _ & _ & fl' & P'). exists fl'.
  eapply pool_ok_ext; [intros x; symmetry; apply ext_in|].
  eapply pool_ok_frame; [| |exact P'].
  - intros l Hl. unfold m', link. rewrite !upd_ne; [done|by intros <-|by intros <-].
  - intros x k Hx. unfold m', link. rewrite !upd_ne; [done| |].
    + intros E%slot_bucket. apply Hx. right. exists i. split; [done|].
      pose proof ext_last_in as [->|(y & -> & Hy)]%elem_of_buckets; [done|].
      by apply get_unchecked_inj in E as ->.
    + intros E%slot_bucket%get_unchecked_inj. apply Hx. by left.
Qed.

Lemma ext_ok : exists fl', index_ok ix m' (extended chains i id) fl'.
Proof.
  destruct ext_pool as (fl' & P'). exists fl'. split; try apply Hok.
  - apply ext_chain.
  - apply ext_uniq.
  - exact P'.
Qed.

Lemma ext_added : e <> 0 -> added ix i e m chains m' (extended chains i id).
Proof.
  intros He. split.
  - unfold occupied, words_at, buckets_at, extended. rewrite decide_True by done.
    unfold chain_buckets. rewrite map_app, app_comm_cons, chain_words_app, filter_app.
    fold (chain_buckets (Main i) (chains i)).
    rewrite (chain_words_frame m m'); [|intros d k Hd Hk; apply ext_slot; [by eapply ext_old|done]].
    assert (chain_words m' (map get_unchecked [id]) = [e; 0; 0; 0; 0; 0; 0]) as ->.
    { cbn. rewrite !ext_new by lia. done. }
    rewrite filter_cons_True by done. rewrite !filter_cons_False by lia. rewrite filter_nil.
    by rewrite Permutation_app_comm.
  - intros j Hj Hne. unfold words_at, buckets_at, extended. rewrite decide_False by done.
    apply chain_words_frame. intros d k Hd Hk. apply ext_slot; [by eapply ext_old|done].
Qed.

End Extend.

(** Chains grow by at most one bucket. *)
Definition grown (chains chains' : Z -> list Z) : Prop :=
  forall j, (length (chains' j) <= S (length (chains j)))%nat.

Lemma grown_extended chains i id : grown chains (extended chains i id).
Proof.
  intros j. unfold extended. destruct (decide (j = i)) as [->|]; [|lia]. rewrite length_app. cbn. lia.
Qed.

Lemma insert_spec ix m chains fl bucket_idx tag addr fuel sub :
  index_ok ix m chains fl -> 0 < addr <= Addr.ADDRESS_MASK ->
  (S (length (chains (bucket_idx mod size ix)%Z)) < fuel)%nat ->
  Z.of_nat (length (chains (bucket_idx mod size ix))) + 1 < MAX_CHAIN_STEPS ->
  let i := bucket_idx mod size ix in
  let r := run (insert_to_bucket ix fuel (S sub) bucket_idx tag addr) m in
  (r.1 = Some (inl tt) /\ exists chains' fl', index_ok ix r.2 chains' fl' /\
     added ix i (Entry.new addr tag false) m chains r.2 chains' /\ grown chains chains') \/
  (r.1 = Some (inr OverflowPoolExhausted) /\ fl = [] /\ m PAllocated = CAPACITY /\
     forall l, r.2 l = m l).
Proof.
  intros Hok Ha Hf Hs i r. destruct (home_main _ _ _ _ Hok bucket_idx) as [Hh Hi].
  pose proof (new_entry_nonzero addr tag Ha) as He.
  assert (r = run (insert_loop fuel (S sub) (Main i) tag addr (new_walker (Main i))) m) as ->.
  { unfold r, insert_to_bucket, Addr.INVALID_ADDRESS. destruct (Z.eqb_spec addr 0); [lia|].
    destruct (Z.ltb_spec Addr.ADDRESS_MASK addr); [lia|]. fold (home ix bucket_idx). by rewrite Hh. }
  destruct (run_insert_loop m _ fl (Main i) tag addr sub (chains i) fuel (new_walker (Main i))
    (io_pool _ _ _ _ Hok) (io_chain _ _ _ _ Hok i Hi)) as (x & m' & -> & Hout).
  { exact Hf. } { simpl. fold i in Hs. lia. } { intros id [?|Hid]; [done|]. by exists i. }
  cbn [curr new_walker fst snd] in *. destruct Hout as [c k Hc Hk Hm|id m1 c Hl Hp|m1 err Hp].
  - left. split; [done|]. exists chains, fl. split; [by eapply index_ok_data|].
    split; [by eapply added_slot|]. intros j. lia.
  - left. split; [done|]. exists (extended chains i id).
    destruct (ext_ok ix m m1 chains fl i id (Entry.new addr tag false) c) as (fl' & ?); try done.
    exists fl'. split; [done|]. split; [by eapply ext_added|apply grown_extended].
  - right. destruct Hp as (-> & ? & ? & ?). done.
Qed.

(** C26: inserting an entry into a main bucket of a well-formed table either
    adds exactly that entry to the bucket's chain, reusing a free slot or linking
    a fresh overflow bucket when the chain is full, with every other chain
    unchanged and the table still well formed; or, when no overflow bucket is
    left, reports [OverflowPoolExhausted] and leaves every cell as it was. *)
Theorem insert_correct ix m chains fl bucket_idx tag addr fuel sub
    (Hok : index_ok ix m chains fl) (Ha : 0 < addr <= Addr.ADDRESS_MASK)
    (Hf : (S (length (chains (bucket_idx mod size ix)%Z)) < fuel)%nat)
    (Hs : Z.of_nat (length (chains (bucket_idx mod size ix))) + 1 < MAX_CHAIN_STEPS) :
  let i := bucket_idx mod size ix in
  let r := run (insert_to_bucket ix fuel (S sub) bucket_idx tag addr) m in
  (r.1 = Some (inl tt) /\ exists chains' fl', index_ok ix r.2 chains' fl' /\
     added ix i (Entry.new addr tag false) m chains r.2 chains') \/
  (r.1 = Some (inr OverflowPoolExhausted) /\ fl = [] /\ m PAllocated = CAPACITY /\
     forall l, r.2 l = m l).
Proof.
  intros i r. destruct (insert_spec ix m chains fl bucket_idx tag addr fuel sub Hok Ha Hf Hs)
    as [(H1 & c & f & H2 & H3 & _)|H]; [left; eauto|by right].
Qed.

(** ** A new table, and a small one *)

(** [HashIndex::new] accepts exactly the powers of two whose bucket array
    fits the address space and is granted by the system; the table it returns is
    well formed and empty. *)
Theorem new_index_correct vm n (Hn : 0 <= n < 2 ^ 64) :
  match new_index vm n with
  | inl ix => (exists k, n = 2 ^ k) /\ vm (n * BUCKET_BYTES) 64 = true /\ size ix = n /\
              index_ok ix (fun _ => 0) (fun _ => []) [] /\
              forall i, occupied (fun _ => 0) (fun _ => []) i = []
  | inr Mem => vm (n * BUCKET_BYTES) 64 = false
  | inr e => e = InvalidBucketCount n /\
             ((forall k, 0 <= k -> n <> 2 ^ k) \/ 2 ^ 64 <= n * BUCKET_BYTES)
  end.
Proof.
  unfold new_index, buckets_new. destruct (Z.eqb_spec n 0) as [->|H0]; cbn [orb].
  { split; [done|]. left. intros k Hk. pose proof (Z.pow_pos_nonneg 2 k). lia. }
  destruct (is_power_of_two n) eqn:Hp; cbn [negb].
  - apply is_power_of_two_spec in Hp as (k & Hk & E). unfold checked_mul.
    destruct (Z.leb_spec (n * BUCKET_BYTES) u64_max) as [Hle|Hgt].
    + destruct (vm (n * BUCKET_BYTES) 64) eqn:Hv; [|done].
      split; [by exists k|]. split; [done|]. split; [done|]. split; [|done].
      split; try done.
      * exists k. split; [|done]. split; [done|]. rewrite E in Hn.
        apply (Z.pow_lt_mono_r_iff 2); lia.
      * eapply pool_ok_ext; [|apply empty_pool_ok]. intros x. split; [done|].
        by intros (? & _ & ?%not_elem_of_nil).
    + split; [done|]. right. unfold u64_max in Hgt. lia.
  - split; [done|]. left. intros k Hk E.
    assert (is_power_of_two n = true) by (apply is_power_of_two_spec; eauto). congruence.
Qed.

Lemma new_index_correct_witness :
  new_index (fun _ _ => true) 8 = inl (mkIndex 8 7) /\
  index_ok (mkIndex 8 7) (fun _ => 0) (fun _ => []) [].
Proof.
  assert (0 <= 8 < 2 ^ 64) as H by (split; vm_compute; congruence).
  pose proof (new_index_correct (fun _ _ => true) 8 H) as Hc.
  assert (new_index (fun _ _ => true) 8 = inl (mkIndex 8 7)) as E by (vm_compute; reflexivity).
  rewrite E in Hc. split; [exact E|apply Hc].
Defined.

(** One main bucket with all seven slots taken by tag 5. *)
Definition demo_ix : HashIndex := mkIndex 1 0.
Definition demo_hash : Z := Z.shiftl 5 49.
Definition demo_entry (k : nat) : Z := Entry.new (100 + Z.of_nat k) 5 false.
Definition demo : mem iloc :=
  foldr (fun k m => upd m (Slot (Main 0) k) (demo_entry k)) (fun _ => 0) (seq 0 7).

Lemma demo_ok : index_ok demo_ix demo (fun _ => []) [].
Proof.
  unfold demo. assert (Forall (fun k => (k < 7)%nat) (seq 0 7)) as Hs by (apply Forall_seq; lia).
  induction Hs as [|k ks Hk _ IH]; cbn [foldr].
  - split; try done; [exists 0; done|]. eapply pool_ok_ext; [|apply empty_pool_ok]. intros x.
    split; [done|]. by intros (? & _ & ?%not_elem_of_nil).
  - eapply (index_ok_data _ _ _ _ IH 0); [done|left|done].
Qed.

Lemma demo_walkable : walkable 2 (new_walker (home demo_ix demo_hash)) [].
Proof. split; [simpl; lia|vm_compute; reflexivity]. Qed.

Lemma find_tag_correct_witness :
  chain demo (home demo_ix demo_hash) [] /\
  (run (find_tag_by_hash demo_ix 2 demo_hash) demo).1 = Some (Some 100).
Proof.
  assert (chain demo (home demo_ix demo_hash) []) as Hc by (vm_compute; reflexivity).
  split; [exact Hc|].
  rewrite (find_tag_correct demo_ix demo demo_hash [] 2 Hc demo_walkable). vm_compute. reflexivity.
Defined.

Lemma lookup_candidates_correct_witness :
  live demo (home demo_ix demo_hash) [] demo_hash = [100; 101; 102; 103; 104; 105; 106] /\
  exists c, run (lookup_candidates_by_hash demo_ix 2 demo_hash) demo = (Some c, demo) /\
            Candidate.to_list c = [100; 101; 102; 103; 104; 105; 106].
Proof.
  assert (live demo (home demo_ix demo_hash) [] demo_hash = [100; 101; 102; 103; 104; 105; 106])
    as Hl by (vm_compute; reflexivity).
  split; [exact Hl|].
  assert (chain demo (home demo_ix demo_hash) []) as Hc by (vm_compute; reflexivity).
  destruct (lookup_candidates_correct demo_ix demo demo_hash [] 2 Hc demo_walkable) as (c & Hr & _ & Ht).
  exists c. rewrite Hl in Ht. split; [exact Hr|exact Ht].
Defined.

Lemma delete_correct_witness :
  (run (delete_by_hash demo_ix 2 demo_hash 103) demo).1 = Some true /\
  rewritten demo_ix (fun _ => []) [] demo_hash 103 0 demo
    (run (delete_by_hash demo_ix 2 demo_hash 103) demo).
Proof.
  split; [vm_compute; reflexivity|].
  apply (delete_correct demo_ix demo (fun _ => []) [] demo_hash 2 demo_ok demo_walkable).
  split; [reflexivity|vm_compute; discriminate].
Defined.

Lemma update_address_correct_witness :
  (run (update_address_by_hash demo_ix 2 demo_hash 103 200) demo).1 = Some true /\
  rewritten demo_ix (fun _ => []) [] demo_hash 103
    (Entry.new 200 (Entry.tag_from_hash demo_hash) false) demo
    (run (update_address_by_hash demo_ix 2 demo_hash 103 200) demo).
Proof.
  split; [vm_compute; reflexivity|].
  apply (update_address_correct demo_ix demo (fun _ => []) [] demo_hash 2 demo_ok demo_walkable);
    (split; [reflexivity|vm_compute; discriminate]).
Defined.

(** The full bucket takes an overflow bucket. *)
Lemma insert_correct_witness :
  (run (insert_to_bucket demo_ix 3 1 0 5 900) demo).1 = Some (inl tt) /\
  (exists chains' fl',
     index_ok demo_ix (run (insert_to_bucket demo_ix 3 1 0 5 900) demo).2 chains' fl' /\
     added demo_ix 0 (Entry.new 900 5 false) demo (fun _ => [])
       (run (insert_to_bucket demo_ix 3 1 0 5 900) demo).2 chains').
Proof.
  assert (0 < 900 <= Addr.ADDRESS_MASK) as Ha by (split; [reflexivity|vm_compute; discriminate]).
  assert ((S (length (A:=Z) []) < 3)%nat) as Hf by (simpl; lia).
  assert (Z.of_nat (length (A:=Z) []) + 1 < MAX_CHAIN_STEPS) as Hs by (vm_compute; reflexivity).
  assert ((run (insert_to_bucket demo_ix 3 1 0 5 900) demo).1 = Some (inl tt)) as Hr
    by (vm_compute; reflexivity).
  destruct (insert_correct demo_ix demo (fun _ => []) [] 0 5 900 3 0 demo_ok Ha Hf Hs)
    as [[_ H]|[H _]].
  - split; [exact Hr|exact H].
  - rewrite Hr in H. discriminate H.
Defined.

End Table.
