(* ===== verification/Upsert.v ===== *)
(** * Find-or-create ([wedb/windex/src/insert.rs], [find.rs], [entry_info.rs])

    The probe behind upserts: one pass over a chain returns the slot that
    holds the key's tag, or the first free slot, clearing on the way the entries
    whose address the log has truncated; a full chain is extended. *)

From stdpp Require Import base list numbers option tactics sets.
From Stdlib Require Import ZArith Lia Bool.
From S2P Require Import Prelude Base Atomic Bucket Candidate Index OverflowPool Table.
Local Open Scope prog_scope.

Module Upsert.
Import Bucket Index OverflowPool Table.

(** A committed entry below the truncation point [min]. *)
Definition dead (min w : Z) : bool :=
  negb (w =? 0) && ((0 <? min) && negb (Entry.is_tentative w)
    && negb (Entry.is_read_cache w) && (Entry.address w <? min)).

Lemma dead_zero min : dead min 0 = false.
Proof. reflexivity. Qed.

Lemma matches_tag_zero tag : Entry.matches_tag 0 tag = false.
Proof. unfold Entry.matches_tag. rewrite Z.land_0_l. apply andb_false_r. Qed.

(** [m'] is [m] with some dead data slots of the buckets [bs] cleared. *)
Definition purged (min : Z) (bs : list bref) (m m' : mem iloc) : Prop :=
  forall l, m' l = m l \/
    (m' l = 0 /\ dead min (m l) = true /\ exists c k, l = Slot c k /\ c ∈ bs /\ (k < 7)%nat).

Lemma purged_refl min bs m : purged min bs m m.
Proof. by left. Qed.

Lemma purged_trans min bs m1 m2 m3 : purged min bs m1 m2 -> purged min bs m2 m3 -> purged min bs m1 m3.
Proof.
  intros H1 H2 l. destruct (H2 l) as [->|(-> & Hd & Hl)]; [apply H1|].
  destruct (H1 l) as [E|(E & _ & _)]; rewrite E in Hd; [by right|]. by rewrite dead_zero in Hd.
Qed.

Lemma purged_mono min bs bs' m m' : bs ⊆ bs' -> purged min bs m m' -> purged min bs' m m'.
Proof. intros Hs H l. destruct (H l) as [?|(? & ? & c & k & ? & ? & ?)]; [by left|right]. eauto 10. Qed.

Lemma purged_slot min bs m c k :
  c ∈ bs -> (k < 7)%nat -> dead min (m (Slot c k)) = true -> purged min bs m (upd m (Slot c k) 0).
Proof.
  intros Hc Hk Hd l. unfold upd. case_decide; [subst; right|by left]. eauto 10.
Qed.

(** A purge never touches latches, overflow links or the pool. *)
Lemma purged_ovf min bs m m' c : purged min bs m m' -> ovf m' c = ovf m c.
Proof.
  intros H. unfold ovf. destruct (H (Slot c OVERFLOW_INDEX)) as [->|(_ & _ & d & k & E & _ & Hk)]; [done|].
  injection E as _ <-. unfold OVERFLOW_INDEX in Hk. lia.
Qed.

Lemma purged_outside min bs m m' l :
  purged min bs m m' -> (forall c k, l = Slot c k -> c ∉ bs) -> m' l = m l.
Proof. intros H Hl. destruct (H l) as [?|(_ & _ & c & k & E & Hc & _)]; [done|]. by apply Hl in E. Qed.

(** ** One slot, one bucket *)

Lemma run_classify_slot m l tag min :
  run (classify_slot l tag min) m =
    if m l =? 0 then (Free, m)
    else if dead min (m l) then (Free, upd m l 0)
    else if Entry.matches_tag (m l) tag then (Hit (m l), m) else (Occupied, m).
Proof.
  unfold classify_slot, dead. rewrite run_load.
  destruct (m l =? 0) eqn:E0; [done|]. cbn [negb andb].
  destruct (_ && _ && _ && _); [by rewrite run_cas_ok|].
  destruct (Entry.matches_tag (m l) tag) eqn:Et; [|done]. by rewrite run_load, Et.
Qed.

(** A live entry with the wanted tag. *)
Definition wanted (min tag w : Z) : bool := Entry.matches_tag w tag && negb (dead min w).

(** What the slot scan of one bucket promises. *)
Definition scan_post (min tag : Z) (b : bref) (slots : list nat) (ff : option (bref * nat))
    (m m' : mem iloc) (r : (nat * Z) + option (bref * nat)) : Prop :=
  purged min [b] m m' /\
  match r with
  | inl (i, w) => i ∈ slots /\ m' (Slot b i) = w /\ m (Slot b i) = w /\ wanted min tag w = true
  | inr None => ff = None /\ m' = m /\
                (forall i, i ∈ slots -> wanted min tag (m (Slot b i)) = false)
  | inr (Some f) => (ff = Some f \/
                     ff = None /\ exists i, i ∈ slots /\ f = (b, i) /\ m' (Slot b i) = 0) /\
                    (forall i, i ∈ slots -> wanted min tag (m (Slot b i)) = false)
  end.

Lemma wanted_dead min tag w : dead min w = true -> wanted min tag w = false.
Proof. unfold wanted. intros ->. apply andb_false_r. Qed.

Lemma wanted_nonzero min tag w : wanted min tag w = true -> w <> 0.
Proof. intros Hw ->. unfold wanted in Hw. by rewrite matches_tag_zero in Hw. Qed.

(** Passing over an occupied slot. *)
Lemma scan_post_skip min tag b i slots ff m m' r :
  wanted min tag (m (Slot b i)) = false ->
  scan_post min tag b slots ff m m' r -> scan_post min tag b (i :: slots) ff m m' r.
Proof.
  intros Hi [Hp Hr]. split; [done|].
  assert ((forall j, j ∈ slots -> wanted min tag (m (Slot b j)) = false) ->
          forall j, j ∈ i :: slots -> wanted min tag (m (Slot b j)) = false) as Hall.
  { intros H j [->|?]%elem_of_cons; auto. }
  destruct r as [[j w]|[f|]].
  - destruct Hr as (? & ?). split; [by right|done].
  - destruct Hr as [Hf ?]. split; [|auto].
    destruct Hf as [?|(? & j & ? & ?)]; [by left|right]. split; [done|]. exists j. split; [by right|done].
  - destruct Hr as (? & ? & ?). auto.
Qed.

Definition or_first (ff : option (bref * nat)) (f : bref * nat) : option (bref * nat) :=
  match ff with Some g => Some g | None => Some f end.

(** Passing over a free slot, cleared or not. *)
Lemma scan_post_free min tag b i slots ff m m1 m' r :
  purged min [b] m m1 -> m1 (Slot b i) = 0 ->
  (forall l, l <> Slot b i -> m1 l = m l) -> wanted min tag (m (Slot b i)) = false ->
  scan_post min tag b slots (or_first ff (b, i)) m1 m' r -> scan_post min tag b (i :: slots) ff m m' r.
Proof.
  intros Hp Hz Hf Hi [Hp' Hr]. split; [by eapply purged_trans|].
  assert ((forall j, j ∈ slots -> wanted min tag (m1 (Slot b j)) = false) ->
          forall j, j ∈ i :: slots -> wanted min tag (m (Slot b j)) = false) as Hall.
  { intros H j Hj. destruct (decide (j = i)) as [->|Hne]; [done|].
    rewrite <- Hf by congruence. apply H. by apply elem_of_cons in Hj as [?|?]. }
  assert (m' (Slot b i) = 0) as Hz'.
  { destruct (Hp' (Slot b i)) as [->|(-> & _)]; done. }
  destruct r as [[j w]|[f|]].
  - destruct Hr as (? & ? & Hm & Hw). split; [by right|]. split; [done|]. split; [|done].
    rewrite <- Hf; [done|]. intros E. rewrite E, Hz in Hm. apply (wanted_nonzero _ _ _ Hw). done.
  - destruct Hr as [Hff ?]. split; [|auto]. destruct ff as [g|]; simpl in Hff.
    + left. destruct Hff as [?|[? _]]; congruence.
    + destruct Hff as [Hff|[? _]]; [|done]. right. split; [done|]. exists i.
      split; [left|]. split; [congruence|done].
  - destruct Hr as [Hff _]. by destruct ff.
Qed.

Lemma run_scan_slots min tag b slots ff m :
  Forall (fun i => (i < 7)%nat) slots ->
  exists r m', run (scan_slots b tag min slots ff) m = (r, m') /\ scan_post min tag b slots ff m m' r.
Proof.
  revert ff m. induction slots as [|i slots IH]; intros ff m Hs; cbn [scan_slots].
  { exists (inr ff), m. split; [done|]. split; [apply purged_refl|].
    destruct ff; (split; [auto|]); try split; auto; intros j []%not_elem_of_nil. }
  apply Forall_cons in Hs as [Hi Hs]. rewrite run_bind, run_classify_slot.
  destruct (Z.eqb_spec (m (Slot b i)) 0) as [E|E].
  - destruct (IH (or_first ff (b, i)) m Hs) as (r & m' & Hr & Hp). exists r, m'. split; [exact Hr|].
    eapply scan_post_free; [apply purged_refl|done|done| |exact Hp].
    unfold wanted. by rewrite E, matches_tag_zero.
  - destruct (dead min (m (Slot b i))) eqn:Hd.
    + destruct (IH (or_first ff (b, i)) (upd m (Slot b i) 0) Hs) as (r & m' & Hr & Hp).
      exists r, m'. split; [exact Hr|]. eapply scan_post_free; [| | | |exact Hp].
      * apply purged_slot; [left|done|done].
      * apply upd_eq.
      * intros l Hl. by apply upd_ne.
      * by apply wanted_dead.
    + destruct (Entry.matches_tag (m (Slot b i)) tag) eqn:Ht.
      * eexists _, _. split; [done|]. split; [apply purged_refl|]. split; [left|].
        unfold wanted. by rewrite Ht, Hd.
      * destruct (IH ff m Hs) as (r & m' & Hr & Hp). exists r, m'. split; [exact Hr|].
        apply scan_post_skip; [|done]. unfold wanted. by rewrite Ht.
Qed.

(** ** The whole chain *)

Definition no_wanted (min tag : Z) (m : mem iloc) (bs : list bref) : Prop :=
  forall w, w ∈ chain_words m bs -> wanted min tag w = false.

Lemma no_wanted_purged min tag bs m m' cs :
  purged min bs m m' -> no_wanted min tag m' cs -> no_wanted min tag m cs.
Proof.
  intros Hp H w (c & k & Hc & Hk & <-)%elem_of_chain_words.
  destruct (Hp (Slot c k)) as [E|(_ & Hd & _)]; [|by apply wanted_dead].
  apply H, elem_of_chain_words. eauto.
Qed.

Lemma no_wanted_cons min tag m b cs :
  (forall i, i ∈ seq 0 DATA_ENTRIES -> wanted min tag (m (Slot b i)) = false) ->
  no_wanted min tag m cs -> no_wanted min tag m (b :: cs).
Proof.
  intros Hb Hc w (c & k & [->|Hin]%elem_of_cons & Hk & <-)%elem_of_chain_words.
  - apply Hb, elem_of_seq. unfold DATA_ENTRIES. lia.
  - apply Hc, elem_of_chain_words. eauto.
Qed.

(** The ways the probe of the buckets [b :: ids] can end; [bs] is the whole chain. *)
Inductive probe_out (min tag : Z) (first : bref) (m : mem iloc) (owned : Z -> Prop)
    (fl : list Z) (bs : list bref) (b : bref) (ids : list Z) (ff : option (bref * nat))
  : (HashEntryInfo + Error) -> mem iloc -> Prop :=
| probe_hit c k w m' :
    purged min bs m m' -> c ∈ bs -> (k < 7)%nat -> m' (Slot c k) = w -> wanted min tag w = true ->
    probe_out min tag first m owned fl bs b ids ff (inl (mkInfo first c k w tag)) m'
| probe_free c k m' :
    purged min bs m m' -> c ∈ bs -> (k < 7)%nat -> m' (Slot c k) = 0 ->
    no_wanted min tag m (chain_buckets b ids) ->
    probe_out min tag first m owned fl bs b ids ff (inl (mkInfo first c k 0 tag)) m'
| probe_extend id m1 c :
    ff = None -> last (chain_buckets b ids) = Some c -> alloc_post m owned fl (inl id) m1 ->
    no_wanted min tag m (chain_buckets b ids) ->
    probe_out min tag first m owned fl bs b ids ff
      (inl (mkInfo first (get_unchecked id) 0 0 tag)) (link m1 c id)
| probe_exhausted m1 err :
    ff = None -> alloc_post m owned fl (inr err) m1 ->
    probe_out min tag first m owned fl bs b ids ff (inr err) m1.

Definition free_ok (m : mem iloc) (bs : list bref) (ff : option (bref * nat)) : Prop :=
  match ff with Some (c, k) => m (Slot c k) = 0 /\ c ∈ bs /\ (k < 7)%nat | None => True end.

(** The scan of a fresh bucket finds its first slot free. *)
Lemma run_probe_fresh m fuel sub first tag min w :
  (forall k, (k < 8)%nat -> m (Slot (curr w) k) = 0) ->
  run (find_or_create_loop (S fuel) sub first tag min w None) m =
    (Some (inl (mkInfo first (curr w) 0 0 tag)), m).
Proof.
  intros Hz. cbn [find_or_create_loop]. rewrite run_bind.
  assert (forall slots ff, Forall (fun i => (i < 8)%nat) slots ->
    run (scan_slots (curr w) tag min slots ff) m =
      (inr (match slots with [] => ff | i :: _ => or_first ff (curr w, i) end), m)) as Hs.
  { induction slots as [|i slots IH]; intros ff Hf; [done|]. apply Forall_cons in Hf as [Hi Hf].
    cbn [scan_slots]. rewrite run_bind, run_classify_slot, (Hz i Hi). cbn [Z.eqb].
    etrans; [apply (IH (or_first ff (curr w, i)) Hf)|]. destruct slots, ff; done. }
  rewrite Hs by (apply Forall_seq; unfold DATA_ENTRIES; lia). cbn [seq DATA_ENTRIES or_first].
  rewrite run_bind, run_overflow_index. unfold ovf. rewrite Hz by (unfold OVERFLOW_INDEX; lia). done.
Qed.

(** Purging owned buckets is invisible to the pool. *)
Lemma purged_pool min bs m m' (owned : Z -> Prop) fl :
  purged min bs m m' -> (forall id, get_unchecked id ∈ bs -> owned id) ->
  pool_ok m owned fl -> pool_ok m' owned fl.
Proof.
  intros Hp Ho. apply pool_ok_frame.
  - intros l Hl. eapply purged_outside; [done|]. by intros c k ->.
  - intros id k Hno. eapply purged_outside; [done|]. intros c j E%slot_bucket Hc. subst.
    by apply Hno, Ho.
Qed.

(** From the outcome on the rest of the chain to the outcome on the chain. *)
Lemma probe_out_cons min tag first m m1 owned fl bs b id ids ff ff' r m' :
  b ∈ bs -> purged min [b] m m1 -> (ff' = None -> ff = None /\ m1 = m) ->
  (forall i, i ∈ seq 0 DATA_ENTRIES -> wanted min tag (m (Slot b i)) = false) ->
  probe_out min tag first m1 owned fl bs (get_unchecked id) ids ff' r m' ->
  probe_out min tag first m owned fl bs b (id :: ids) ff r m'.
Proof.
  intros Hb Hp Hn Hw Ho. assert (purged min bs m m1) as Hp'.
  { eapply purged_mono; [|exact Hp]. intros x ->%list_elem_of_singleton. done. }
  assert (forall cs, no_wanted min tag m1 cs -> no_wanted min tag m (b :: cs)) as Hcons.
  { intros cs H. apply no_wanted_cons; [done|]. by eapply no_wanted_purged. }
  destruct Ho as [c k w m' Hq|c k m' Hq|id' m2 c Hf|m2 err Hf].
  - eapply probe_hit; try done. by eapply purged_trans.
  - eapply probe_free; try done; [by eapply purged_trans|]. by apply Hcons.
  - destruct (Hn Hf) as [-> ->]. eapply probe_extend; [done|done|done|]. by apply Hcons.
  - destruct (Hn Hf) as [-> ->]. by apply probe_exhausted.
Qed.

Lemma free_ok_scan min tag bs b ff ff' m m1 :
  b ∈ bs -> free_ok m bs ff -> scan_post min tag b (seq 0 DATA_ENTRIES) ff m m1 (inr ff') ->
  free_ok m1 bs ff' /\ (ff' = None -> ff = None /\ m1 = m) /\
  (forall i, i ∈ seq 0 DATA_ENTRIES -> wanted min tag (m (Slot b i)) = false).
Proof.
  intros Hb Hff [Hp Hr]. destruct ff' as [f|].
  - destruct Hr as [[->|(-> & i & Hi%elem_of_seq & -> & Hz)] Hw].
    + split; [|done]. destruct f as [c k]. destruct Hff as (Hz & ? & ?). split; [|done].
      destruct (Hp (Slot c k)) as [->|[-> _]]; done.
    + split; [|done]. split; [done|]. split; [done|]. unfold DATA_ENTRIES in Hi. lia.
  - destruct Hr as (-> & -> & Hw). done.
Qed.

Lemma run_probe min tag first owned fl bs sub ids : forall fuel w ff m,
  pool_ok m owned fl -> chain m (curr w) ids ->
  (S (length ids) < fuel)%nat -> wstep w + Z.of_nat (length ids) + 1 < MAX_CHAIN_STEPS ->
  chain_buckets (curr w) ids ⊆ bs -> (forall id, get_unchecked id ∈ bs -> owned id) ->
  free_ok m bs ff ->
  exists r m', run (find_or_create_loop fuel (S sub) first tag min w ff) m = (Some r, m') /\
    probe_out min tag first m owned fl bs (curr w) ids ff r m'.
Proof.
  induction ids as [|id ids IH]; intros fuel w ff m P Hc Hf Hm Hbs Hown Hff;
    (destruct fuel as [|fuel]; [lia|]); cbn [find_or_create_loop]; rewrite run_bind;
    (assert (curr w ∈ bs) as Hb by (apply Hbs; left));
    (destruct (run_scan_slots min tag (curr w) (seq 0 DATA_ENTRIES) ff m) as (r & m1 & -> & Hp);
      [apply Forall_seq; unfold DATA_ENTRIES; lia|]);
    (assert (purged min bs m m1) as Hpu by (eapply purged_mono; [|apply Hp];
      intros x ->%list_elem_of_singleton; done));
    (destruct r as [[i v]|ff']; [destruct Hp as (_ & Hi%elem_of_seq & Hv & _ & Hw);
      eexists _, _; split; [done|]; eapply probe_hit; try done; unfold DATA_ENTRIES in Hi; lia|]);
    destruct (free_ok_scan _ _ _ _ _ _ _ _ Hb Hff Hp) as (Hff' & Hnone & Hnw); simpl in Hc, Hm, Hf.
  - assert (no_wanted min tag m (chain_buckets (curr w) [])) as Hno.
    { apply no_wanted_cons; [done|]. intros x (? & ? & []%not_elem_of_nil & _)%elem_of_chain_words. }
    destruct ff' as [[c k]|].
    + rewrite run_bind, run_overflow_index, (purged_ovf _ _ _ _ _ Hpu), Hc. simpl Z.eqb. cbv iota.
      destruct Hff' as (? & ? & ?). eexists _, _. split; [done|]. by apply probe_free.
    + destruct (Hnone eq_refl) as [-> ->]. rewrite run_bind.
      destruct (run_extend m owned fl sub w P Hc) as (r & m2 & Hal & ->); [lia|intros x E; apply Hown; by rewrite <- E|].
      destruct r as [x|e]; [|eexists _, _; split; [done|by apply probe_exhausted]].
      destruct fuel as [|fuel]; [lia|]. pose proof Hal as (Hx & Hz & _).
      rewrite run_probe_fresh; [eexists _, _; split; [done|by eapply probe_extend]|].
      intros k Hk. cbn [curr]. unfold link. rewrite upd_ne; [by apply Hz|].
      intros E%slot_bucket. apply Hx, Hown. by rewrite <- E.
  - destruct Hc as (Hid & Ho & Hc).
    assert (run (advance_or_extend (S sub) w) m1 =
      ((Some (inl tt), mkWalker (get_unchecked id) (wstep w + 1)), m1)) as Hadv.
    { unfold advance_or_extend. rewrite run_bind, run_advance, (purged_ovf _ _ _ _ _ Hpu), Ho.
      destruct (Z.eqb_spec id 0); [done|]. cbn zeta. cbn [wstep].
      destruct (Z.leb_spec MAX_CHAIN_STEPS (wstep w + 1)); [lia|]. done. }
    assert (chain m1 (get_unchecked id) ids) as Hc1.
    { eapply chain_frame; [|exact Hc]. intros d _. by eapply purged_ovf. }
    destruct (IH fuel (mkWalker (get_unchecked id) (wstep w + 1)) ff' m1) as (r & m' & Hr & Hout);
      [by eapply purged_pool|done|lia|simpl; lia|intros x Hx; apply Hbs; by right|done|done|].
    exists r, m'. split; [|eapply probe_out_cons; try done; by destruct Hp].
    destruct ff' as [[c k]|]; [rewrite run_bind, run_overflow_index, (purged_ovf _ _ _ _ _ Hpu), Ho;
      destruct (Z.eqb_spec id 0); [done|]|]; rewrite run_bind, Hadv; exact Hr.
Qed.

(** ** The theorem *)

Lemma index_ok_purged ix m m' chains fl min i :
  index_ok ix m chains fl -> 0 <= i < size ix -> purged min (buckets_at chains i) m m' ->
  index_ok ix m' chains fl.
Proof.
  intros Hok Hi Hp. split; try apply Hok.
  - intros j Hj. eapply chain_frame; [|by apply (io_chain _ _ _ _ Hok)].
    intros d _. by eapply purged_ovf.
  - eapply purged_pool; [done| |apply (io_pool _ _ _ _ Hok)].
    intros id [?|(x & E%get_unchecked_inj & Hx)]%elem_of_buckets; [done|]. subst. by exists i.
Qed.

(** Live entries stay, dead ones may go, nothing appears; other chains are equal. *)
Definition swept (min : Z) (ix : HashIndex) (i : Z) (m : mem iloc) (chains : Z -> list Z)
    (m' : mem iloc) (chains' : Z -> list Z) : Prop :=
  (forall w, w <> 0 -> w ∈ words_at m' chains' i -> w ∈ words_at m chains i) /\
  (forall w, w ∈ words_at m chains i -> dead min w = false -> w <> 0 -> w ∈ words_at m' chains' i) /\
  (forall j, 0 <= j < size ix -> j <> i -> words_at m' chains' j = words_at m chains j).

Lemma swept_purged min ix i m m' chains fl :
  index_ok ix m chains fl -> 0 <= i < size ix -> purged min (buckets_at chains i) m m' ->
  swept min ix i m chains m' chains.
Proof.
  intros Hok Hi Hp. split; [|split].
  - intros w Hw (c & k & Hc & Hk & <-)%elem_of_chain_words.
    destruct (Hp (Slot c k)) as [->|[E _]]; [|done]. apply elem_of_chain_words. eauto.
  - intros w (c & k & Hc & Hk & <-)%elem_of_chain_words Hd _.
    destruct (Hp (Slot c k)) as [<-|(_ & Hd' & _)]; [|congruence]. apply elem_of_chain_words. eauto.
  - intros j Hj Hne. apply chain_words_frame. intros c k Hc _. eapply purged_outside; [done|].
    intros d k' E%slot_bucket Hd. subst. by apply Hne, (buckets_disjoint ix m chains fl Hok j i d).
Qed.

Lemma swept_extended min ix i id c m m1 chains fl :
  index_ok ix m chains fl -> 0 <= i < size ix -> last (buckets_at chains i) = Some c ->
  alloc_post m (in_chains ix chains) fl (inl id) m1 ->
  (exists fl', index_ok ix (link m1 c id) (extended chains i id) fl') /\
  swept min ix i m chains (link m1 c id) (extended chains i id).
Proof.
  intros Hok Hi Hl Hal. set (m2 := upd (link m1 c id) (Slot (get_unchecked id) 0) 0).
  destruct (ext_ok ix m m1 chains fl i id 0 c Hok Hi Hl Hal) as (fl' & Hok'). fold m2 in Hok'.
  assert (forall l, link m1 c id l = m2 l) as Heq.
  { intros l. unfold m2. destruct (decide (Slot (get_unchecked id) 0 = l)) as [<-|];
      [|by rewrite upd_ne]. rewrite upd_eq. unfold link. rewrite upd_ne.
    - destruct Hal as (_ & Hz & _). apply Hz. lia.
    - unfold OVERFLOW_INDEX. intros [=]. }
  assert (forall j, words_at (link m1 c id) (extended chains i id) j
                  = words_at m2 (extended chains i id) j) as Hwm.
  { intros j. apply chain_words_frame. auto. }
  split; [exists fl'; eapply (index_ok_purged _ m2 _ _ _ min i); [done|done|by left; rewrite Heq]|].
  assert (words_at m2 (extended chains i id) i = words_at m chains i ++ replicate 7 0) as Hwi.
  { unfold words_at, buckets_at, extended. rewrite decide_True by done.
    unfold chain_buckets. rewrite map_app, app_comm_cons, chain_words_app.
    fold (chain_buckets (Main i) (chains i)). f_equal.
    - apply chain_words_frame. intros d k Hd Hk. eapply (ext_slot ix); [done| |done].
      by eapply (ext_old ix).
    - cbn. unfold m2. rewrite !(ext_new ix m m1 chains fl i id 0 c) by (done || lia). done. }
  split; [|split].
  - intros w Hw. rewrite Hwm, Hwi, elem_of_app. intros [?|[? _]%elem_of_replicate]; [done|congruence].
  - intros w Hw _ _. rewrite Hwm, Hwi, elem_of_app. by left.
  - intros j Hj Hne. rewrite Hwm. unfold words_at, buckets_at, extended.
    rewrite decide_False by done. apply chain_words_frame. intros d k Hd Hk.
    eapply (ext_slot ix); [done| |done]. by eapply (ext_old ix).
Qed.

(** The slot handed to the caller. *)
Definition handle_ok (min tag : Z) (m m' : mem iloc) (chains chains' : Z -> list Z) (i : Z)
    (h : HashEntryInfo) : Prop :=
  first_bucket h = Main i /\ itag h = tag /\ bucket h ∈ buckets_at chains' i /\ (slot h < 7)%nat /\
  m' (Slot (bucket h) (slot h)) = raw h /\
  (if is_found h then wanted min tag (raw h) = true
   else no_wanted min tag m (buckets_at chains i)).

(** C27: the upsert probe on a well-formed table returns a handle to a data slot
    of the key's own chain whose snapshot is the slot's current word: a live entry
    with the key's tag when the chain has one, and otherwise a free slot, linking
    a fresh overflow bucket when the chain is full.  On the way it may clear
    entries below the truncation point and changes nothing else; the table
    stays well formed.  It fails only when the chain is full and the overflow pool is
    exhausted, and then leaves every cell as it was. *)
Theorem find_or_create_correct ix m chains fl hash min fuel sub
    (Hok : index_ok ix m chains fl)
    (Hf : (S (length (chains (hash mod size ix)%Z)) < fuel)%nat)
    (Hs : Z.of_nat (length (chains (hash mod size ix))) + 1 < MAX_CHAIN_STEPS) :
  let i := hash mod size ix in
  let r := run (find_or_create_tag_by_hash_with_min_addr ix fuel (S sub) hash min) m in
  (exists h chains' fl', r.1 = Some (inl h) /\ index_ok ix r.2 chains' fl' /\
     handle_ok min (Entry.tag_from_hash hash) m r.2 chains chains' i h /\
     swept min ix i m chains r.2 chains') \/
  (r.1 = Some (inr OverflowPoolExhausted) /\ fl = [] /\ m PAllocated = CAPACITY /\
     forall l, r.2 l = m l).
Proof.
  intros i r. destruct (home_main _ _ _ _ Hok hash) as [Hh Hi]. fold i in Hh, Hi, Hs.
  set (tag := Entry.tag_from_hash hash).
  assert (r = run (find_or_create_loop fuel (S sub) (Main i) tag min (new_walker (Main i)) None) m)
    as ->.
  { unfold r, find_or_create_tag_by_hash_with_min_addr. fold (home ix hash). by rewrite Hh. }
  destruct (run_probe min tag (Main i) _ fl (buckets_at chains i) sub (chains i) fuel
    (new_walker (Main i)) None m (io_pool _ _ _ _ Hok) (io_chain _ _ _ _ Hok i Hi))
    as (x & m' & -> & Hout); [exact Hf|simpl; lia|done| |done|].
  { intros id [?|(y & E%get_unchecked_inj & Hy)]%elem_of_buckets; [done|]. subst. by exists i. }
  cbn [curr new_walker fst snd] in *.
  destruct Hout as [c k w m' Hp Hc Hk Hm Hw|c k m' Hp Hc Hk Hm Hn|id m1 c _ Hl Hal Hn|m1 err _ Hal].
  - left. eexists _, chains, fl. split; [done|]. split; [by eapply index_ok_purged|].
    split; [|by eapply swept_purged]. repeat (split; [done|]). unfold is_found. cbn [raw].
    destruct (Z.eqb_spec w 0); [|done]. by apply wanted_nonzero in Hw.
  - left. eexists _, chains, fl. split; [done|]. split; [by eapply index_ok_purged|].
    split; [|by eapply swept_purged]. by repeat (split; [done|]).
  - left. destruct (swept_extended min ix i id c m m1 chains fl Hok Hi Hl Hal) as [(fl' & ?) ?].
    eexists _, _, fl'. split; [done|]. split; [done|]. split; [|done].
    split; [done|]. split; [done|]. cbn [bucket slot raw]. split.
    { apply elem_of_buckets. right. exists id. split; [done|]. unfold extended.
      rewrite decide_True, elem_of_app by done. right. left. }
    split; [lia|]. split; [|done]. unfold link. rewrite upd_ne.
    + destruct Hal as (_ & Hz & _). apply Hz. lia.
    + unfold OVERFLOW_INDEX. intros [=].
  - right. destruct Hal as (-> & ? & ? & ?). done.
Qed.

(** A stale entry below the truncation point is cleared and its slot reused. *)
Lemma find_or_create_correct_witness :
  (exists h, (run (find_or_create_tag_by_hash_with_min_addr demo_ix 3 1 0 102) demo).1 = Some (inl h) /\
             is_found h = false /\ slot h = 0%nat) /\
  exists h chains' fl',
    (run (find_or_create_tag_by_hash_with_min_addr demo_ix 3 1 0 102) demo).1 = Some (inl h) /\
    index_ok demo_ix (run (find_or_create_tag_by_hash_with_min_addr demo_ix 3 1 0 102) demo).2
      chains' fl' /\
    swept 102 demo_ix 0 demo (fun _ => [])
      (run (find_or_create_tag_by_hash_with_min_addr demo_ix 3 1 0 102) demo).2 chains'.
Proof.
  assert ((S (length (A:=Z) []) < 3)%nat) as Hf by (simpl; lia).
  assert (Z.of_nat (length (A:=Z) []) + 1 < MAX_CHAIN_STEPS) as Hs by (vm_compute; reflexivity).
  split; [eexists; split; [vm_compute; reflexivity|split; reflexivity]|].
  destruct (find_or_create_correct demo_ix demo (fun _ => []) [] 0 102 3 0 demo_ok Hf Hs)
    as [(h & chains' & fl' & H1 & H2 & _ & H3)|(_ & _ & H & _)].
  - exists h, chains', fl'. split; [exact H1|]. split; [exact H2|exact H3].
  - vm_compute in H. discriminate H.
Defined.

End Upsert.
