(* ===== verification/SplitSpec.v ===== *)
(** * Splitting buckets ([wedb/windex/src/split.rs])

    Migrating the chain of one bucket into a table of twice the size inserts, for
    every live entry, exactly the entries the split prescribes, into the two
    buckets the old one divides into. *)

From stdpp Require Import base list numbers option tactics.
From Stdlib Require Import ZArith Lia Bool.
From S2P Require Import Prelude Base Atomic Bucket Index OverflowPool Table.
Local Open Scope prog_scope.

Module SplitSpec.
Import Bucket Index OverflowPool Table Split.

(** ** Programs on part of the memory *)

Lemma run_relocate {L M A} `{EqDecision L, EqDecision M} (f : L -> M) (p : prog L A) :
  (forall l l', f l = f l' -> l = l') -> forall (m : mem M) (n : mem L),
  (forall l, m (f l) = n l) ->
  (run (relocate f p) m).1 = (run p n).1 /\ (forall l, (run (relocate f p) m).2 (f l) = (run p n).2 l) /\
  (forall x, (forall l, x <> f l) -> (run (relocate f p) m).2 x = m x).
Proof.
  intros Hinj. assert (forall (m : mem M) (n : mem L) l v, (forall l, m (f l) = n l) ->
    forall l', upd m (f l) v (f l') = upd n l v l') as Hupd.
  { intros m n l v Hmn l'. unfold upd. destruct (decide (l = l')) as [->|Hne].
    - by rewrite decide_True.
    - rewrite decide_False; [done|]. by intros ?%Hinj. }
  assert (forall (m : mem M) l v x, (forall l, x <> f l) -> upd m (f l) v x = m x) as Hout
    by (intros m l v x Hx; rewrite upd_ne; [done|by apply not_eq_sym]).
  induction p as [a|l k IH|l v k IH|w l old new k IH|l g k IH]; intros m n Hmn; cbn [relocate run].
  - done.
  - rewrite Hmn. by apply IH.
  - destruct (IH (upd m (f l) v) (upd n l v)) as (H1 & H2 & H3); [by apply Hupd|].
    split_and!; [done..|]. intros x Hx. by rewrite H3, Hout.
  - rewrite Hmn. destruct (n l =? old); [|by apply IH].
    destruct (IH true old (upd m (f l) new) (upd n l new)) as (H1 & H2 & H3); [by apply Hupd|].
    split_and!; [done..|]. intros x Hx. by rewrite H3, Hout.
  - rewrite Hmn. destruct (IH (n l) (upd m (f l) (g (n l))) (upd n l (g (n l)))) as (H1 & H2 & H3);
      [by apply Hupd|]. split_and!; [done..|]. intros x Hx. by rewrite H3, Hout.
Qed.

(** ** What a split inserts *)

(** A main bucket of the new table and an entry for it. *)
Abbreviation move := (Z * Z)%type.

Section Split.
Context (old_index new_index : HashIndex) (fuel sub : nat) (min_valid_addr : Z).
Context (record_locator : Z -> option (Z * Z)) (trace_back : Z -> Z -> option Z).

(** Live: valid, with an address, and not truncated from the log. *)
Definition live_entry (raw : Z) : bool :=
  negb (raw =? 0) && Entry.is_valid raw && negb (Entry.address raw =? 0) &&
  negb ((0 <? min_valid_addr) && negb (Entry.is_read_cache raw) && (Entry.address raw <? min_valid_addr)).

Definition entry_of (address tag : Z) : Z := Entry.new address tag false.

(** The entry goes to the side of its record's hash, and the first record of
    the other side behind it in the log to that side; an entry whose record is
    not in memory goes to both. *)
Definition moves (left right bit_pos raw : Z) : list move :=
  if live_entry raw then
    let addr := Entry.address raw in
    let tag := Entry.tag raw in
    match record_locator addr with
    | Some (hash, prev_addr) =>
        let to_right := Z.testbit hash bit_pos in
        (if to_right then right else left, entry_of addr tag) ::
        (if prev_addr =? 0 then []
         else match trace_back prev_addr (if to_right then 0 else 1) with
              | Some other => [(if to_right then left else right, entry_of other tag)]
              | None => []
              end)
    | None => [(left, entry_of addr tag); (right, entry_of addr tag)]
    end
  else [].

(** The entries of [mv] for bucket [j]. *)
Definition bound_for (j : Z) (mv : list move) : list Z := map snd (filter (fun x => x.1 = j) mv).

(** The new table gained the entries of [mv]. *)
Definition migrated (mv : list move) (m : mem iloc) (chains : Z -> list Z) (m' : mem iloc)
    (chains' : Z -> list Z) : Prop :=
  forall j, 0 <= j < size new_index ->
    occupied m' chains' j ≡ₚ bound_for j mv ++ occupied m chains j.

Lemma bound_for_app j mv1 mv2 : bound_for j (mv1 ++ mv2) = bound_for j mv1 ++ bound_for j mv2.
Proof. unfold bound_for. by rewrite list.filter_app, map_app. Qed.

Lemma migrated_nil m chains : migrated [] m chains m chains.
Proof. by intros j Hj. Qed.

Lemma migrated_app mv1 mv2 m c m1 c1 m2 c2 :
  migrated mv1 m c m1 c1 -> migrated mv2 m1 c1 m2 c2 -> migrated (mv1 ++ mv2) m c m2 c2.
Proof.
  intros H1 H2 j Hj. rewrite (H2 j Hj), (H1 j Hj). unfold bound_for.
  rewrite list.filter_app, map_app, !app_assoc. apply Permutation_app_tail, Permutation_app_comm.
Qed.

Lemma migrated_one i e m c m' c' :
  added new_index i e m c m' c' -> migrated [(i, e)] m c m' c'.
Proof.
  intros [Hi Ho] j Hj. unfold bound_for. destruct (decide (j = i)) as [->|Hne].
  - rewrite filter_cons_True by done. done.
  - rewrite filter_cons_False by (cbn; congruence). rewrite filter_nil. cbn [map app].
    unfold occupied. by rewrite Ho.
Qed.

(** A chain whose words did not change kept its length. *)
Lemma words_at_length m chains j : length (words_at m chains j) = (7 * S (length (chains j)))%nat.
Proof.
  unfold words_at, buckets_at, chain_words, chain_buckets. generalize (chains j) as ids. intros ids.
  change (Main j :: map get_unchecked ids) with ([Main j] ++ map get_unchecked ids).
  replace (S (length ids)) with (length ([Main j] ++ map get_unchecked ids))
    by (by rewrite length_app, length_map).
  generalize ([Main j] ++ map get_unchecked ids) as bs. intros bs.
  induction bs as [|b bs IH]; [done|]. cbn [mbind list_bind]. rewrite length_app.
  rewrite IH. unfold bucket_words. rewrite length_map, length_seq. cbn [length]. unfold DATA_ENTRIES. lia.
Qed.

Lemma bound_one idx e j : bound_for j [(idx, e)] = if decide (j = idx) then [e] else [].
Proof.
  unfold bound_for. case_decide as E.
  - by rewrite filter_cons_True.
  - by rewrite filter_cons_False by (cbn; congruence).
Qed.

Lemma added_lengths i e m c m' c' :
  added new_index i e m c m' c' -> grown c c' -> forall j, 0 <= j < size new_index ->
  (length (c' j) <= length (c j) + if decide (j = i) then 1 else 0)%nat.
Proof.
  intros [_ Ho] Hg j Hj. case_decide as E; [specialize (Hg j); lia|].
  pose proof (words_at_length m' c' j) as H1. rewrite (Ho j Hj E), words_at_length in H1. lia.
Qed.

(** ** Migrating steps *)

Context (mo : mem iloc).

(** The old table is [mo]; the new one is well formed, with room for [k j] more
    overflow buckets in the walks of chain [j]. *)
Record state (k : Z -> nat) (m : mem loc2) (mn : mem iloc) (chains : Z -> list Z) (fl : list Z) : Prop := {
  st_old : forall l, m (inl l) = mo l;
  st_new : forall l, m (inr l) = mn l;
  st_ok : index_ok new_index mn chains fl;
  st_fuel : forall j, 0 <= j < size new_index -> (length (chains j) + k j < fuel)%nat;
  st_steps : forall j, 0 <= j < size new_index ->
    Z.of_nat (length (chains j) + k j) < MAX_CHAIN_STEPS
}.

Lemma state_ext k k' m mn chains fl :
  (forall j, k j = k' j) -> state k m mn chains fl -> state k' m mn chains fl.
Proof. intros E [H1 H2 H3 H4 H5]. split; [done..| |]; intros j Hj; rewrite <- E; auto. Qed.

(** [p] inserts [mv], or stops when no overflow bucket is left. *)
Definition does (p : prog loc2 (option (unit + Error))) (mv : list move) : Prop :=
  forall k m mn chains fl, state (fun j => length (bound_for j mv) + k j)%nat m mn chains fl ->
    let '(r, m') := run p m in
    exists mn' chains' fl' k' mv',
      state k' m' mn' chains' fl' /\ migrated mv' mn chains mn' chains' /\
      ((r = Some (inl tt) /\ mv' = mv /\ k' = k) \/
       (r = Some (inr OverflowPoolExhausted) /\ mv' `prefix_of` mv /\ fl' = [] /\
        mn' PAllocated = CAPACITY)).

Lemma does_ret : does (Ret (Some (inl tt))) [].
Proof.
  intros k m mn chains fl Hs. cbn. exists mn, chains, fl, k, []. split; [done|].
  split; [apply migrated_nil|]. by left.
Qed.

Lemma does_then p q mv1 mv2 : does p mv1 -> does q mv2 -> does (try_then p q) (mv1 ++ mv2).
Proof.
  intros Hp Hq k m mn chains fl Hs. unfold try_then. rewrite run_bind.
  eapply (state_ext _ (fun j => length (bound_for j mv1) + (length (bound_for j mv2) + k j))%nat) in Hs;
    [|intros j; rewrite bound_for_app, length_app; lia].
  specialize (Hp (fun j => length (bound_for j mv2) + k j)%nat _ _ _ _ Hs).
  destruct (run p m) as [r m1].
  destruct Hp as (mn1 & c1 & fl1 & k1 & mv1' & Hs1 & Hm1 & [(-> & -> & ->)|(-> & Hpre & Hfl & Hcap)]).
  - specialize (Hq k _ _ _ _ Hs1). destruct (run q m1) as [r m2].
    destruct Hq as (mn2 & c2 & fl2 & k2 & mv2' & Hs2 & Hm2 & H).
    exists mn2, c2, fl2, k2, (mv1 ++ mv2'). split; [done|]. split; [by eapply migrated_app|].
    destruct H as [(-> & -> & ->)|(-> & Hpre & ? & ?)]; [by left|right].
    split_and!; [done| |done..]. by apply prefix_app.
  - cbn. exists mn1, c1, fl1, k1, mv1'. split; [done|]. split; [done|]. right.
    split_and!; [done| |done..]. by apply prefix_app_r.
Qed.

Lemma does_load b i (q : Z -> prog loc2 (option (unit + Error))) mv :
  does (q (mo (Slot b i))) mv -> does (let* raw := in_old (load (cells b i)) in q raw) mv.
Proof.
  intros H k m mn chains fl Hs. cbn. rewrite (st_old _ _ _ _ _ Hs). by apply (H k m mn chains fl).
Qed.

Lemma does_insert idx tag address :
  0 <= idx < size new_index -> 0 < address <= Addr.ADDRESS_MASK ->
  does (migrate_into new_index fuel (S sub) idx tag address) [(idx, entry_of address tag)].
Proof.
  intros Hi Ha k m mn chains fl Hs. unfold migrate_into.
  pose proof (run_relocate (inr : iloc -> loc2)
    (insert_to_bucket new_index fuel (S sub) idx tag address)) as Hrun.
  destruct (Hrun ltac:(by intros ? ? [= ->]) m mn (st_new _ _ _ _ _ Hs)) as (H1 & H2 & H3). clear Hrun.
  destruct (run (relocate inr _) m) as [r m']. cbn [fst snd] in *.
  assert (forall l, m' (inl l) = mo l) as Hold
    by (intros l; rewrite H3 by done; apply (st_old _ _ _ _ _ Hs)).
  pose proof (insert_spec new_index mn chains fl idx tag address fuel sub (st_ok _ _ _ _ _ Hs) Ha) as Hins.
  rewrite (Z.mod_small idx) in Hins by lia. pose proof (st_fuel _ _ _ _ _ Hs) as Hf.
  pose proof (st_steps _ _ _ _ _ Hs) as Hst.
  pose proof (bound_one idx (entry_of address tag)) as Hone. cbv beta in Hf, Hst.
  destruct Hins as [(E & c' & fl' & Hok & Hadd & Hg)|(E & Hfl & Hcap & Hsame)].
  { specialize (Hf idx Hi). rewrite Hone, decide_True in Hf by done. cbn in Hf. lia. }
  { specialize (Hst idx Hi). rewrite Hone, decide_True in Hst by done. cbn in Hst. lia. }
  - exists (run (insert_to_bucket new_index fuel (S sub) idx tag address) mn).2, c', fl', k,
      [(idx, entry_of address tag)]. split; [|split; [by apply migrated_one|left; by rewrite H1]].
    pose proof (added_lengths _ _ _ _ _ _ Hadd Hg) as Hlen.
    split; [done|done|done| |]; intros j Hj; specialize (Hf j Hj); specialize (Hst j Hj);
      specialize (Hlen j Hj); rewrite Hone in Hf, Hst; case_decide; cbn in Hf, Hst, Hlen; lia.
  - exists mn, chains, fl, (fun j => length (bound_for j [(idx, entry_of address tag)]) + k j)%nat, [].
    split; [|split; [apply migrated_nil|right]].
    + destruct Hs as [? ? ? ? ?]. split; [done|intros l; by rewrite H2, Hsame|done..].
    + rewrite H1. split_and!; [done|apply prefix_nil|done..].
Qed.

Lemma does_advance w (q : ChainStep * ChainWalker -> prog loc2 (option (unit + Error))) mv :
  does (q (run (advance w) mo).1) mv -> does (let* s := in_old (advance w) in q s) mv.
Proof.
  intros H k m mn chains fl Hs. rewrite run_bind.
  destruct (run_relocate (inl : iloc -> loc2) (advance w) ltac:(by intros ? ? [= ->]) m mo
              (st_old _ _ _ _ _ Hs)) as (H1 & H2 & H3).
  destruct (run (relocate inl (advance w)) m) as [s m']. cbn [fst snd] in *. rewrite H1.
  apply (H k m' mn chains fl). destruct Hs as [_ Hn ? ? ?].
  split; [|intros l; by rewrite H3|done..]. intros l. rewrite H2, run_advance.
  by destruct (_ =? 0).
Qed.

Context (left right bit_pos : Z).
Context (Hleft : 0 <= left < size new_index) (Hright : 0 <= right < size new_index).
(** The callback follows the log to records, which have addresses. *)
Context (Htrace : forall addr hash prev b other, record_locator addr = Some (hash, prev) ->
  trace_back prev b = Some other -> 0 < other <= Addr.ADDRESS_MASK).

Lemma bit_of hash : (Z.land (Z.shiftr hash bit_pos) 1 =? 0) = negb (Z.testbit hash bit_pos).
Proof.
  change 1 with (Z.ones 1). rewrite Z.land_ones by lia. change (2 ^ 1) with 2.
  rewrite <- Z.bit0_mod, Z.shiftr_spec by lia. rewrite Z.add_0_l. by destruct (Z.testbit hash bit_pos).
Qed.

Lemma address_bounds raw : Entry.address raw <> 0 -> 0 < Entry.address raw <= Addr.ADDRESS_MASK.
Proof.
  unfold Entry.address. intros H. pose proof (Addr.clean_address_fits raw) as Hf.
  unfold Addr.clean_address, fits in Hf. change Addr.ADDRESS_MASK with (2 ^ 48 - 1) in *. lia.
Qed.

Lemma does_entry raw :
  does (split_entry new_index fuel (S sub) min_valid_addr record_locator trace_back left right bit_pos raw)
       (moves left right bit_pos raw).
Proof.
  unfold split_entry, moves, live_entry.
  destruct (raw =? 0); [apply does_ret|]. destruct (Entry.is_valid raw); [|apply does_ret].
  cbn [negb andb]. destruct (Z.eqb_spec (Entry.address raw) 0) as [|Ha]; [apply does_ret|]. cbn [negb andb].
  destruct ((0 <? min_valid_addr) && _ && _); [apply does_ret|]. cbn [negb].
  pose proof (address_bounds raw Ha) as Hb.
  destruct (record_locator (Entry.address raw)) as [[hash prev]|] eqn:Erl.
  - rewrite bit_of. destruct (Z.testbit hash bit_pos); cbn [negb].
    + apply (does_then _ _ [_]); [by apply does_insert|].
      destruct (prev =? 0); [apply does_ret|]. cbn [negb].
      destruct (trace_back prev 0) as [o|] eqn:E; [|apply does_ret]. apply does_insert; [done|by eapply Htrace].
    + apply (does_then _ _ [_]); [by apply does_insert|].
      destruct (prev =? 0); [apply does_ret|]. cbn [negb].
      destruct (trace_back prev 1) as [o|] eqn:E; [|apply does_ret]. apply does_insert; [done|by eapply Htrace].
  - apply (does_then _ _ [_] [_]); by apply does_insert.
Qed.

Lemma does_slots b slots :
  does (split_slots new_index fuel (S sub) min_valid_addr record_locator trace_back left right bit_pos b slots)
       (map (fun i => mo (Slot b i)) slots ≫= moves left right bit_pos).
Proof.
  induction slots as [|i slots IH]; [apply does_ret|]. cbn [split_slots map mbind list_bind].
  apply does_load, does_then; [apply does_entry|done].
Qed.

Lemma does_loop steps : forall w ids,
  chain mo (curr w) ids -> walkable steps w ids ->
  does (split_loop new_index fuel (S sub) min_valid_addr record_locator trace_back steps left right bit_pos w)
       (chain_words mo (chain_buckets (curr w) ids) ≫= moves left right bit_pos).
Proof.
  induction steps as [|steps IH]; intros w ids Hc [Hl Hm]; [lia|].
  cbn [split_loop]. unfold chain_words, chain_buckets. cbn [mbind list_bind]. rewrite bind_app.
  apply does_then; [apply does_slots|]. apply does_advance. rewrite run_advance.
  destruct ids as [|id ids]; cbn [chain] in Hc.
  - rewrite Hc. cbn. apply does_ret.
  - destruct Hc as (Hid & -> & Hc). destruct (Z.eqb_spec id 0); [done|]. cbn zeta. cbn [wstep length] in *.
    destruct (Z.leb_spec MAX_CHAIN_STEPS (wstep w + 1)); [lia|]. cbn [fst].
    apply (IH (mkWalker (get_unchecked id) (wstep w + 1)) ids Hc). split; cbn [wstep]; lia.
Qed.

End Split.

(** ** Splitting one bucket *)

(** Doubling the table adds one bit of the hash to the bucket number. *)
Lemma double_mod hash k :
  0 <= k -> hash mod (2 * 2 ^ k) = hash mod 2 ^ k + (if Z.testbit hash k then 2 ^ k else 0).
Proof.
  intros Hk. pose proof (Z.pow_pos_nonneg 2 k). rewrite Z.mul_comm, Z.rem_mul_r by lia.
  f_equal. pose proof (Z.testbit_spec' hash k Hk) as <-. destruct (Z.testbit hash k); cbn; lia.
Qed.

(** The entry of a resident record moves to the record's bucket. *)
Lemma moves_home mva rl tb ws left k raw hash prev :
  0 <= k -> raw ∈ ws -> live_entry mva raw = true -> rl (Entry.address raw) = Some (hash, prev) ->
  hash mod 2 ^ k = left ->
  (hash mod (2 * 2 ^ k), entry_of (Entry.address raw) (Entry.tag raw)) ∈
    (ws ≫= moves mva rl tb left (left + 2 ^ k) k).
Proof.
  intros Hk Hin Hl Hr Hm. apply list_elem_of_bind. exists raw. split; [|done].
  unfold moves. rewrite Hl, Hr, double_mod, Hm by done. cbn zeta.
  destruct (Z.testbit hash k); rewrite ?Z.add_0_r; apply elem_of_cons; by left.
Qed.

Lemma migrated_elem ix mv m c m' c' j e :
  migrated ix mv m c m' c' -> 0 <= j < size ix -> (j, e) ∈ mv -> e ∈ occupied m' c' j.
Proof.
  intros H Hj He. rewrite (H j Hj). apply elem_of_app. left. unfold bound_for.
  apply (list_elem_of_fmap_2 snd _ (j, e)). by apply list_elem_of_filter.
Qed.

(** The entries that splitting bucket [b] of the old table inserts. *)
Definition bucket_moves (old : HashIndex) (mo : mem iloc) (oc : Z -> list Z) (mva : Z)
    (rl : Z -> option (Z * Z)) (tb : Z -> Z -> option Z) (b : Z) : list move :=
  words_at mo oc b ≫= moves mva rl tb b (b + size old) (Z.log2 (size old)).

Section Buckets.
Context (old new : HashIndex) (fuel sub : nat) (mva : Z).
Context (rl : Z -> option (Z * Z)) (tb : Z -> Z -> option Z).
Context (mo : mem iloc) (oc : Z -> list Z) (ofl : list Z).
Context (Ho : index_ok old mo oc ofl) (Hsize : size new = 2 * size old).
Context (Htrace : forall addr hash prev b other, rl addr = Some (hash, prev) ->
  tb prev b = Some other -> 0 < other <= Addr.ADDRESS_MASK).

Lemma does_bucket bucket :
  (length (oc (bucket mod size old)) < fuel)%nat ->
  Z.of_nat (length (oc (bucket mod size old))) < MAX_CHAIN_STEPS ->
  does new fuel mo (split_single_bucket old new fuel (S sub) mva rl tb bucket)
    (bucket_moves old mo oc mva rl tb (bucket mod size old)).
Proof.
  set (left := bucket mod size old). intros Hf Hst.
  destruct (home_main _ _ _ _ Ho bucket) as [Hh Hr]. fold left in Hh, Hr.
  assert (split_single_bucket old new fuel (S sub) mva rl tb bucket =
    split_loop new fuel (S sub) mva rl tb fuel left (left + size old) (Z.log2 (size old))
      (new_walker (Main left))) as ->.
  { unfold split_single_bucket, get_bucket. rewrite !(land_mask _ _ _ _ Ho), Z.mod_mod; [done|].
    apply not_eq_sym, Z.lt_neq. by apply (size_pos old mo oc ofl). }
  apply (does_loop new fuel sub mva rl tb mo left (left + size old) (Z.log2 (size old))
    ltac:(lia) ltac:(lia) Htrace fuel (new_walker (Main left)) (oc left)).
  - apply (io_chain _ _ _ _ Ho left Hr).
  - split; cbn; lia.
Qed.

Context (Hf : forall j, 0 <= j < size old -> (length (oc j) < fuel)%nat).
Context (Hst : forall j, 0 <= j < size old -> Z.of_nat (length (oc j)) < MAX_CHAIN_STEPS).

Lemma does_range count : forall start,
  0 <= start -> start + Z.of_nat count <= size old ->
  does new fuel mo (split_range old new fuel (S sub) mva rl tb start count)
    (seqZ start (Z.of_nat count) ≫= bucket_moves old mo oc mva rl tb).
Proof.
  induction count as [|count IH]; intros start Hs Hc; [apply does_ret|].
  cbn [split_range]. rewrite seqZ_cons by lia. cbn [mbind list_bind].
  replace (Z.pred (Z.of_nat (S count))) with (Z.of_nat count) by lia.
  apply does_then; [|apply (IH (start + 1)); lia].
  pose proof (Z.mod_small start (size old) ltac:(lia)) as Hm.
  pose proof (does_bucket start) as Hb. rewrite Hm in Hb. apply Hb; [apply Hf|apply Hst]; lia.
Qed.

End Buckets.

(** C29: splitting a bucket of a well-formed table into a well-formed table of
    twice the size leaves the old table as it is.  On success the new table
    gained exactly the prescribed entries, in the two buckets the old one divides
    into and no other; in particular the entry of every record that is in memory
    and belongs to the bucket is now in the new bucket of the record's hash.  The
    only failure is an exhausted overflow pool, with a prefix of the entries
    inserted and the new table still well formed. *)
Theorem split_bucket_correct old new fuel sub mva rl tb bucket m mo mn oc ofl nc nfl
    (Ho : index_ok old mo oc ofl) (Hn : index_ok new mn nc nfl) (Hsize : size new = 2 * size old)
    (Hmo : forall l, m (inl l) = mo l) (Hmn : forall l, m (inr l) = mn l)
    (Htrace : forall addr hash prev b other, rl addr = Some (hash, prev) ->
       tb prev b = Some other -> 0 < other <= Addr.ADDRESS_MASK) :
  let left := bucket mod size old in
  let mv := words_at mo oc left ≫= moves mva rl tb left (left + size old) (Z.log2 (size old)) in
  (length (oc left) < fuel)%nat -> Z.of_nat (length (oc left)) < MAX_CHAIN_STEPS ->
  (forall j, 0 <= j < size new -> (length (nc j) + length (bound_for j mv) < fuel)%nat) ->
  (forall j, 0 <= j < size new ->
     Z.of_nat (length (nc j) + length (bound_for j mv)) < MAX_CHAIN_STEPS) ->
  let '(r, m') := run (split_single_bucket old new fuel (S sub) mva rl tb bucket) m in
  (forall l, m' (inl l) = mo l) /\
  exists mn' nc' nfl', (forall l, m' (inr l) = mn' l) /\ index_ok new mn' nc' nfl' /\
    ((r = Some (inl tt) /\ migrated new mv mn nc mn' nc' /\
      forall raw hash prev, raw ∈ words_at mo oc left -> live_entry mva raw = true ->
        rl (Entry.address raw) = Some (hash, prev) -> hash mod size old = left ->
        entry_of (Entry.address raw) (Entry.tag raw) ∈ occupied mn' nc' (hash mod size new)) \/
     (r = Some (inr OverflowPoolExhausted) /\ nfl' = [] /\ mn' PAllocated = CAPACITY /\
      exists mv', mv' `prefix_of` mv /\ migrated new mv' mn nc mn' nc')).
Proof.
  intros left mv Hf Hst Hfn Hsn. destruct (home_main _ _ _ _ Ho bucket) as [_ Hr]. fold left in Hr.
  destruct (io_size _ _ _ _ Ho) as (k & Hk & Hpow).
  assert (Z.log2 (size old) = k) as Hlog by (rewrite Hpow, Z.log2_pow2; lia).
  pose proof (does_bucket old new fuel sub mva rl tb mo oc ofl Ho Hsize Htrace bucket Hf Hst) as Hdo.
  specialize (Hdo (fun _ => 0%nat) m mn nc nfl). fold left in Hdo. unfold bucket_moves in Hdo.
  fold mv in Hdo.
  specialize (Hdo ltac:(split; [done..| |]; intros j Hj; rewrite Nat.add_0_r; auto)).
  subst mv. rewrite Hlog in *. clearbody left.
  destruct (run (split_single_bucket _ _ _ _ _ _ _ _) m) as [r m'].
  destruct Hdo as (mn' & nc' & nfl' & k' & mv' & [Hold Hnew Hok _ _] & Hmig & H).
  split; [done|]. exists mn', nc', nfl'. split; [done|]. split; [done|].
  destruct H as [(-> & -> & _)|(-> & Hpre & ? & ?)]; [left|right].
  2: { split_and!; [done..|]. by exists mv'. }
  split; [done|]. split; [done|]. intros raw hash prev Hin Hl Hrl Hmod.
  eapply migrated_elem; [done|apply Z.mod_pos_bound; lia|]. rewrite Hsize, Hpow.
  eapply moves_home; [lia|done..|]. by rewrite <- Hpow.
Qed.

(** The full bucket of [Table.demo] divided by the parity of the addresses. *)
Definition demo_new : HashIndex := mkIndex 2 1.
Definition demo_locator (addr : Z) : option (Z * Z) := Some (demo_hash + addr mod 2, 0).
Definition demo_both : mem loc2 := fun l => match l with inl x => demo x | inr _ => 0 end.

Lemma demo_new_ok : index_ok demo_new (fun _ => 0) (fun _ => []) [].
Proof.
  split; try done; [exists 1; done|]. eapply pool_ok_ext; [|apply empty_pool_ok]. intros x.
  split; [done|]. by intros (? & _ & ?%not_elem_of_nil).
Qed.

Lemma split_bucket_correct_witness :
  (run (split_single_bucket demo_ix demo_new 20 1 0 demo_locator (fun _ _ => None) 0) demo_both).1 =
    Some (inl tt) /\
  forall l, (run (split_single_bucket demo_ix demo_new 20 1 0 demo_locator (fun _ _ => None) 0) demo_both).2
    (inl l) = demo l.
Proof.
  pose proof (split_bucket_correct demo_ix demo_new 20 0 0 demo_locator (fun _ _ => None) 0 demo_both demo
    (fun _ => 0) (fun _ => []) [] (fun _ => []) [] demo_ok demo_new_ok eq_refl (fun _ => eq_refl)
    (fun _ => eq_refl) ltac:(discriminate)) as H.
  specialize (H ltac:(vm_compute; lia) ltac:(vm_compute; reflexivity)).
  specialize (H ltac:(intros j [? ?]; assert (j = 0 \/ j = 1) as [-> | ->] by (cbn in *; lia); vm_compute; lia)).
  specialize (H ltac:(intros j [? ?]; assert (j = 0 \/ j = 1) as [-> | ->] by (cbn in *; lia); vm_compute; reflexivity)).
  split; [vm_compute; reflexivity|].
  destruct (run (split_single_bucket _ _ _ _ _ _ _ _) demo_both) as [r m']. exact (proj1 H).
Defined.

End SplitSpec.
