(* ===== verification/Record.v ===== *)
(** * Log records ([wedb/wrecord/src])

    [Header] is the 16-byte record header, two packed words
    ([header/bits.rs], [header.rs]); [Codec] writes a record into a buffer
    ([codec.rs]); [RecordRef] and [RecordMut] are the read view and the in-place
    updates ([record_ref.rs], [record_mut.rs]).  Additions that the source does
    not check wrap at 64 bits, as in its release profile. *)

From stdpp Require Import base list numbers option tactics.
From Stdlib Require Import ZArith Lia Bool.
From S2P Require Import Prelude Base Bytes Atomic.

Inductive RecordError : Type :=
| BufferTooShort (expected actual : Z)
| AddressOverflow (a : Z)
| KeyLengthOverflow (n : Z)
| ValueLengthOverflow (n : Z)
| RecordSizeOverflow
| ValueLengthMismatch (expected actual : Z)
| TombstoneUpdate.

Module Header.

Definition HEADER_SIZE : Z := 16.
Definition RECORD_ALIGNMENT : Z := 8.
Definition RDH_WORD_OFFSET : Z := 8.
Definition RDH_WORD_SIZE : Z := 8.

Definition PAD_KEY_LEN : Z := Z.shiftl 1 24 - 1.
Definition SEALED_BIT : Z := Z.shiftl 1 60.
Definition IN_NEW_VERSION_BIT : Z := Z.shiftl 1 61.
Definition HEADER_READ_CACHE_BIT : Z := Z.shiftl 1 62.
Definition TOMBSTONE_BIT : Z := Z.shiftl 1 63.
Definition FILLER_WORDS_SHIFT : Z := 0.
Definition FILLER_WORDS_BITS : Z := 8.
Definition FILLER_WORDS_VALUE_MASK : Z := Z.shiftl 1 FILLER_WORDS_BITS - 1.
Definition FILLER_WORDS_MASK : Z := Z.shiftl FILLER_WORDS_VALUE_MASK FILLER_WORDS_SHIFT.
Definition KEY_LEN_SHIFT : Z := FILLER_WORDS_SHIFT + FILLER_WORDS_BITS.
Definition KEY_LEN_BITS : Z := 24.
Definition KEY_LEN_VALUE_MASK : Z := Z.shiftl 1 KEY_LEN_BITS - 1.
Definition KEY_LEN_MASK : Z := Z.shiftl KEY_LEN_VALUE_MASK KEY_LEN_SHIFT.
Definition VAL_LEN_SHIFT : Z := KEY_LEN_SHIFT + KEY_LEN_BITS.
Definition VAL_LEN_BITS : Z := 32.
Definition VAL_LEN_VALUE_MASK : Z := Z.shiftl 1 VAL_LEN_BITS - 1.
Definition VAL_LEN_MASK : Z := Z.shiftl VAL_LEN_VALUE_MASK VAL_LEN_SHIFT.
Definition MAX_FILLER_BYTES : Z := Z.shiftl FILLER_WORDS_VALUE_MASK 3.

Definition align_record_size (size : Z) : Z :=
  Z.land (wadd 64 size (RECORD_ALIGNMENT - 1)) (bnot 64 (RECORD_ALIGNMENT - 1)).

Definition with_bit (word mask : Z) (on : bool) : Z :=
  if on then Z.lor word mask else Z.land word (bnot 64 mask).

Definition pack_rdh_word (filler_words key_len val_len : Z) : Z :=
  Z.lor (Z.lor (Z.land filler_words FILLER_WORDS_VALUE_MASK)
               (Z.shiftl (Z.land key_len KEY_LEN_VALUE_MASK) KEY_LEN_SHIFT))
        (Z.shiftl (Z.land val_len VAL_LEN_VALUE_MASK) VAL_LEN_SHIFT).

Record RecordHeader : Type := from_words { prev_address : Z; rdh_word : Z }.

Definition new (prev_addr key_len val_len : Z) (is_tombstone : bool) : RecordHeader + RecordError :=
  if negb (Z.land prev_addr (bnot 64 Addr.ADDRESS_MASK) =? 0) then inr (AddressOverflow prev_addr)
  else inl (from_words (with_bit prev_addr TOMBSTONE_BIT is_tombstone)
                       (pack_rdh_word 0 key_len val_len)).

Definition from_raw (prev_address key_len val_len : Z) : RecordHeader :=
  from_words prev_address (pack_rdh_word 0 key_len val_len).

Definition address (h : RecordHeader) : Z := Z.land (prev_address h) Addr.ADDRESS_MASK.

Definition set_info (h : RecordHeader) (w : Z) : RecordHeader := from_words w (rdh_word h).
Definition set_rdh (h : RecordHeader) (w : Z) : RecordHeader := from_words (prev_address h) w.

Definition is_tombstone (h : RecordHeader) : bool := negb (Z.land (prev_address h) TOMBSTONE_BIT =? 0).
Definition set_tombstone (h : RecordHeader) (on : bool) : RecordHeader :=
  set_info h (with_bit (prev_address h) TOMBSTONE_BIT on).
Definition is_closed_word (word : Z) : bool := negb (Z.land word SEALED_BIT =? 0).
Definition is_closed (h : RecordHeader) : bool := is_closed_word (prev_address h).
Definition is_sealed (h : RecordHeader) : bool := negb (Z.land (prev_address h) SEALED_BIT =? 0).
Definition set_sealed (h : RecordHeader) (on : bool) : RecordHeader :=
  set_info h (with_bit (prev_address h) SEALED_BIT on).
Definition seal (h : RecordHeader) : RecordHeader := set_sealed h true.
Definition is_in_new_version (h : RecordHeader) : bool :=
  negb (Z.land (prev_address h) IN_NEW_VERSION_BIT =? 0).
Definition set_in_new_version (h : RecordHeader) (on : bool) : RecordHeader :=
  set_info h (with_bit (prev_address h) IN_NEW_VERSION_BIT on).
Definition is_read_cache (h : RecordHeader) : bool :=
  negb (Z.land (prev_address h) HEADER_READ_CACHE_BIT =? 0).

Definition filler_words (h : RecordHeader) : Z :=
  wrap 8 (Z.shiftr (Z.land (rdh_word h) FILLER_WORDS_MASK) FILLER_WORDS_SHIFT).
Definition filler_bytes (h : RecordHeader) : Z := Z.shiftl (filler_words h) 3.
Definition set_filler_words (h : RecordHeader) (words : Z) : RecordHeader :=
  set_rdh h (Z.lor (Z.land (rdh_word h) (bnot 64 FILLER_WORDS_MASK))
                   (Z.shiftl (Z.land words FILLER_WORDS_VALUE_MASK) FILLER_WORDS_SHIFT)).
Definition set_filler_bytes (h : RecordHeader) (total_bytes : Z) : RecordHeader :=
  let words := Z.shiftr total_bytes 3 in
  set_filler_words h (if FILLER_WORDS_VALUE_MASK <? words then wrap 8 FILLER_WORDS_VALUE_MASK
                      else wrap 8 words).
Definition set_val_len (h : RecordHeader) (val_len : Z) : RecordHeader :=
  set_rdh h (Z.lor (Z.land (rdh_word h) (bnot 64 VAL_LEN_MASK))
                   (Z.shiftl (Z.land val_len VAL_LEN_VALUE_MASK) VAL_LEN_SHIFT)).
Definition key_len (h : RecordHeader) : Z :=
  wrap 32 (Z.shiftr (Z.land (rdh_word h) KEY_LEN_MASK) KEY_LEN_SHIFT).
Definition val_len (h : RecordHeader) : Z :=
  wrap 32 (Z.shiftr (Z.land (rdh_word h) VAL_LEN_MASK) VAL_LEN_SHIFT).

Definition kv_size (h : RecordHeader) : Z := sat_add (sat_add HEADER_SIZE (key_len h)) (val_len h).
Definition record_size (h : RecordHeader) : Z := align_record_size (kv_size h).
Definition physical_size (h : RecordHeader) : Z := sat_add (record_size h) (filler_bytes h).
Definition checked_physical_size (h : RecordHeader) : option Z :=
  checked_add (record_size h) (filler_bytes h).
Definition val_capacity (h : RecordHeader) : Z :=
  sat_sub (physical_size h) (HEADER_SIZE + key_len h).

Definition set_address (h : RecordHeader) (prev_addr : Z) : RecordHeader + RecordError :=
  if negb (Z.land prev_addr (bnot 64 Addr.ADDRESS_MASK) =? 0) then inr (AddressOverflow prev_addr)
  else inl (set_info h (Z.lor (Z.land prev_addr Addr.ADDRESS_MASK)
                              (Z.land (prev_address h) (bnot 64 Addr.ADDRESS_MASK)))).

Definition slack_for_val_len (h : RecordHeader) (new_val_len : Z) : option Z :=
  let physical := physical_size h in
  let new_aligned := align_record_size (sat_add (sat_add HEADER_SIZE (key_len h)) new_val_len) in
  if (new_aligned <=? physical) && (physical - new_aligned <=? MAX_FILLER_BYTES)
  then Some (physical - new_aligned) else None.

Definition can_update_with_slack (h : RecordHeader) (new_val_len : Z) : bool :=
  negb (is_tombstone h) && bool_decide (is_Some (slack_for_val_len h new_val_len)).

Definition to_bytes (h : RecordHeader) : list Z :=
  le_bytes 8 (prev_address h) ++ le_bytes 8 (rdh_word h).
Definition from_bytes (bs : list Z) : RecordHeader :=
  from_words (le_num (take 8 bs)) (le_num (take 8 (drop 8 bs))).

(** [first_chunk::<HEADER_SIZE>()]. *)
Definition decode_opt (src : list Z) : option RecordHeader :=
  if HEADER_SIZE <=? zlen src then Some (from_bytes (take 16 src)) else None.
Definition from_slice (src : list Z) : RecordHeader + RecordError :=
  if HEADER_SIZE <=? zlen src then inl (from_bytes (take 16 src))
  else inr (BufferTooShort HEADER_SIZE (zlen src)).

Definition is_null (h : RecordHeader) : bool :=
  (prev_address h =? 0) && (Z.land (rdh_word h) (bnot 64 FILLER_WORDS_MASK) =? 0).
Definition pad (remaining_bytes : Z) : RecordHeader :=
  let val_len := if HEADER_SIZE <=? remaining_bytes then wrap 32 (remaining_bytes - HEADER_SIZE)
                 else 0 in
  from_words 0 (pack_rdh_word 0 PAD_KEY_LEN val_len).
Definition is_pad (h : RecordHeader) : bool := key_len h =? PAD_KEY_LEN.
Definition is_unreadable (h : RecordHeader) : bool := is_pad h || is_null h.
Definition pad_extent (h : RecordHeader) : Z := HEADER_SIZE + val_len h.

Definition is_zero_slice (src : list Z) : bool :=
  if HEADER_SIZE <=? zlen src
  then Z.lor (le_num (take 8 src)) (le_num (take 8 (drop 8 src))) =? 0
  else forallb (Z.eqb 0) src.
Definition read_address (src : list Z) : option Z :=
  if 8 <=? zlen src then Some (Z.land (le_num (take 8 src)) Addr.ADDRESS_MASK) else None.

(** The lock-free operations on the info word of a shared record. *)
Section Atomics.
Context {L : Type} (atomic_word : L).
Local Open Scope prog_scope.

Definition try_seal : prog L bool :=
  let* expected := load atomic_word in
  if is_closed_word expected then Ret false
  else
    let new_word := Z.lor expected SEALED_BIT in
    let* r := compare_exchange atomic_word expected new_word in
    Ret (fst r).

Definition try_update_address (expected_prev_addr new_prev_addr : Z) : prog L bool :=
  let* expected := load atomic_word in
  if negb (Z.land expected Addr.ADDRESS_MASK =? Z.land expected_prev_addr Addr.ADDRESS_MASK)
  then Ret false
  else
    let new_word := Z.lor (Z.land expected (bnot 64 Addr.ADDRESS_MASK))
                          (Z.land new_prev_addr Addr.ADDRESS_MASK) in
    let* r := compare_exchange atomic_word expected new_word in
    Ret (fst r).

Definition set_invalid_atomic : prog L unit :=
  let* _ := fetch_or atomic_word SEALED_BIT in Ret tt.

End Atomics.
End Header.

Module Codec.
Import Header.

Definition record_size (key_len val_len : Z) : Z :=
  align_record_size (sat_add (sat_add HEADER_SIZE key_len) val_len).

Definition checked_record_size (key_len val_len : Z) : option Z :=
  match checked_add HEADER_SIZE key_len with
  | None => None
  | Some s => checked_add s val_len
  end.

Definition MAX_KEY_LEN : Z := PAD_KEY_LEN - 1.

Definition build_header (prev_addr : Z) (key : list Z) (val_len : Z)
    (is_tombstone in_new_version : bool) : (RecordHeader * Z) + RecordError :=
  if MAX_KEY_LEN <? zlen key then inr (KeyLengthOverflow (zlen key))
  else if u32_max <? val_len then inr (ValueLengthOverflow val_len)
  else match new prev_addr (wrap 32 (zlen key)) (wrap 32 val_len) is_tombstone with
       | inr e => inr e
       | inl header =>
           inl (set_in_new_version header in_new_version, record_size (zlen key) val_len)
       end.

(** Key, value, then the header; the two stores of an aligned record and the
    copy of an unaligned one write the same sixteen bytes. *)
Definition write_record_unchecked (buf : list Z) (header : RecordHeader) (key val : list Z)
  : list Z :=
  let buf := splice HEADER_SIZE key buf in
  let buf := splice (HEADER_SIZE + zlen key) val buf in
  splice 0 (to_bytes header) buf.

Definition publish_extent_header (buf : list Z) (rec_size : Z) : list Z :=
  splice RDH_WORD_OFFSET (le_bytes 8 (rdh_word (pad rec_size))) buf.

(** The buffer and the bytes used, or an error and the buffer untouched. *)
Definition encode_to_slice (dst : list Z) (prev_addr : Z) (key val : list Z)
    (is_tombstone in_new_version : bool) : (list Z * Z) + RecordError :=
  match build_header prev_addr key (zlen val) is_tombstone in_new_version with
  | inr e => inr e
  | inl (header, total_size) =>
      if total_size <=? zlen dst
      then inl (write_record_unchecked dst header key val, total_size)
      else inr (BufferTooShort total_size (zlen dst))
  end.

End Codec.

Module RecordRef.
Import Header.

Record RecordRef : Type := mkRef { header : RecordHeader; key : list Z; value : list Z }.

Definition from_slice (src : list Z) : RecordRef + RecordError :=
  match Header.from_slice src with
  | inr e => inr e
  | inl header =>
      let total_size := record_size header in
      if zlen src <? total_size then inr (BufferTooShort total_size (zlen src))
      else
        let key_end := HEADER_SIZE + key_len header in
        inl (mkRef header (slice HEADER_SIZE key_end src)
                   (slice key_end (key_end + val_len header) src))
  end.

End RecordRef.

Module RecordMut.
Import Header.

(** The cached header and the record's physical bytes. *)
Record RecordMut : Type := mkMut { header : RecordHeader; bytes : list Z }.

Definition parse_header_phys (src : list Z) : (RecordHeader * Z) + RecordError :=
  match Header.from_slice src with
  | inr e => inr e
  | inl header =>
      match checked_physical_size header with
      | None => inr RecordSizeOverflow
      | Some phys_size =>
          if zlen src <? phys_size then inr (BufferTooShort phys_size (zlen src))
          else inl (header, phys_size)
      end
  end.

Definition from_slice_mut (src : list Z) : RecordMut + RecordError :=
  match parse_header_phys src with
  | inr e => inr e
  | inl (header, phys_size) => inl (mkMut header (slice 0 phys_size src))
  end.

Definition key_end (r : RecordMut) : Z := HEADER_SIZE + key_len (header r).

(** The two atomic words inside the bytes. *)
Definition info_word (r : RecordMut) : Z := le_num (take 8 (bytes r)).
Definition store_info (bs : list Z) (w : Z) : list Z := splice 0 (le_bytes 8 w) bs.
Definition store_rdh (bs : list Z) (w : Z) : list Z := splice RDH_WORD_OFFSET (le_bytes 8 w) bs.

Definition info_fetch_or (r : RecordMut) (mask : Z) : RecordMut :=
  mkMut (set_info (header r) (Z.lor (prev_address (header r)) mask))
        (store_info (bytes r) (Z.lor (info_word r) mask)).
Definition info_fetch_and (r : RecordMut) (mask : Z) : RecordMut :=
  mkMut (set_info (header r) (Z.land (prev_address (header r)) mask))
        (store_info (bytes r) (Z.land (info_word r) mask)).
Definition info_set_bit (r : RecordMut) (mask : Z) (on : bool) : RecordMut :=
  if on then info_fetch_or r mask else info_fetch_and r (bnot 64 mask).

Definition publish_rdh (r : RecordMut) : RecordMut :=
  mkMut (header r) (store_rdh (bytes r) (rdh_word (header r))).

Definition key (r : RecordMut) : list Z := slice HEADER_SIZE (key_end r) (bytes r).
Definition value (r : RecordMut) : list Z :=
  slice (key_end r) (key_end r + val_len (header r)) (bytes r).

(** The exclusive borrow makes the first compare-exchange of the clearing loop
    succeed. *)
Definition publish_val_layout (r : RecordMut) (new_val_len remaining_slack : Z)
    (clear_tombstone : bool) : RecordMut :=
  let h := set_val_len (header r) (wrap 32 new_val_len) in
  let h := set_filler_words h (wrap 8 (Z.shiftr remaining_slack 3)) in
  let r := publish_rdh (mkMut h (bytes r)) in
  if clear_tombstone then
    let keep := bnot 64 (Z.lor TOMBSTONE_BIT SEALED_BIT) in
    mkMut (set_info (header r) (Z.land (prev_address (header r)) keep))
          (store_info (bytes r) (Z.land (info_word r) keep))
  else r.

Definition write_val_with_slack (r : RecordMut) (new_val : list Z) (clear_tombstone : bool)
  : RecordMut + RecordError :=
  if is_tombstone (header r) && negb clear_tombstone then inr TombstoneUpdate
  else
    let new_val_len := zlen new_val in
    match slack_for_val_len (header r) new_val_len with
    | None => inr (ValueLengthMismatch (physical_size (header r)) new_val_len)
    | Some remaining_slack =>
        let r := mkMut (header r) (splice (key_end r) new_val (bytes r)) in
        inl (publish_val_layout r new_val_len remaining_slack clear_tombstone)
    end.

Definition update_value_with_slack (r : RecordMut) (new_val : list Z) :=
  write_val_with_slack r new_val false.
Definition revivify_with_slack (r : RecordMut) (new_val : list Z) :=
  write_val_with_slack r new_val true.

Definition resize_val_with_slack (r : RecordMut) (new_val_len : Z) : RecordMut + RecordError :=
  if is_tombstone (header r) then inr TombstoneUpdate
  else
    match slack_for_val_len (header r) new_val_len with
    | None => inr (ValueLengthMismatch (physical_size (header r)) new_val_len)
    | Some remaining_slack => inl (publish_val_layout r new_val_len remaining_slack false)
    end.

Definition set_tombstone (r : RecordMut) (on : bool) : RecordMut := info_set_bit r TOMBSTONE_BIT on.

Definition try_seal (r : RecordMut) : bool * RecordMut :=
  if is_closed_word (info_word r) then (false, r)
  else (true, mkMut (set_sealed (header r) true)
                    (store_info (bytes r) (Z.lor (info_word r) SEALED_BIT))).

End RecordMut.
