(* ===== verification/RecordSpec.v ===== *)
(** * Correctness of the record layer

    The header's fields are independent; encoding and decoding a record are
    inverse. *)

From stdpp Require Import base list numbers option tactics.
From Stdlib Require Import ZArith Lia Bool.
From S2P Require Import Prelude Base Bytes Atomic Record.

Module HeaderSpec.
Import Header.

(** ** Bit fields *)

Definition header_ok (h : RecordHeader) : Prop := fits 64 (prev_address h) /\ fits 64 (rdh_word h).

Ltac field_masks :=
  unfold filler_words, key_len, val_len, set_filler_words, set_val_len, set_rdh, pack_rdh_word,
    FILLER_WORDS_MASK, KEY_LEN_MASK, VAL_LEN_MASK;
  cbn [rdh_word prev_address];
  change FILLER_WORDS_VALUE_MASK with (Z.ones 8); change KEY_LEN_VALUE_MASK with (Z.ones 24);
  change VAL_LEN_VALUE_MASK with (Z.ones 32); change FILLER_WORDS_SHIFT with 0;
  change KEY_LEN_SHIFT with 8; change VAL_LEN_SHIFT with 32.

Ltac fields := field_masks; bitblast.

Lemma filler_pack p f k v : fits 8 f -> filler_words (from_words p (pack_rdh_word f k v)) = f.
Proof. intros. fields. Qed.

Lemma key_len_pack p f k v : fits 24 k -> key_len (from_words p (pack_rdh_word f k v)) = k.
Proof. intros. fields. Qed.

Lemma val_len_pack p f k v : fits 32 v -> val_len (from_words p (pack_rdh_word f k v)) = v.
Proof. intros. fields. Qed.

Lemma pack_fields h :
  fits 64 (rdh_word h) -> pack_rdh_word (filler_words h) (key_len h) (val_len h) = rdh_word h.
Proof. intros. fields. Qed.

Lemma set_val_len_filler h v : filler_words (set_val_len h v) = filler_words h.
Proof. fields. Qed.

Lemma set_val_len_key h v : key_len (set_val_len h v) = key_len h.
Proof. fields. Qed.

Lemma set_val_len_val h v : fits 32 v -> val_len (set_val_len h v) = v.
Proof. intros. fields. Qed.

Lemma set_filler_filler h f : fits 8 f -> filler_words (set_filler_words h f) = f.
Proof. intros. fields. Qed.

Lemma set_filler_key h f : key_len (set_filler_words h f) = key_len h.
Proof. fields. Qed.

Lemma set_filler_val h f : val_len (set_filler_words h f) = val_len h.
Proof. fields. Qed.

Lemma pack_fits f k v : fits 64 (pack_rdh_word f k v).
Proof.
  field_masks. apply fits_lor; [lia|apply fits_lor; [lia|..]|].
  - apply (fits_mono 8); [|lia]. apply fits_land_r; [lia|]. by apply fits_ones.
  - apply (fits_mono (24 + 8)); [|lia]. apply fits_shiftl; [lia..|].
    apply fits_land_r; [lia|]. by apply fits_ones.
  - change 64 with (32 + 32). apply fits_shiftl; [lia..|]. apply fits_land_r; [lia|]. by apply fits_ones.
Qed.

Lemma field_bounds h : fits 8 (filler_words h) /\ fits 24 (key_len h) /\ fits 32 (val_len h).
Proof.
  split; [apply wrap_fits; lia|]. split; [|apply wrap_fits; lia].
  unfold key_len. change KEY_LEN_MASK with (Z.shiftl (Z.ones 24) 8). change KEY_LEN_SHIFT with 8.
  assert (fits 32 (Z.land (rdh_word h) (Z.shiftl (Z.ones 24) 8))) as Hf.
  { apply fits_land_r; [lia|]. apply (fits_shiftl 24 8); [lia..|]. by apply fits_ones. }
  apply (fits_shiftr 32 8) in Hf; [|lia]. change (32 - 8) with 24 in Hf.
  rewrite wrap_id; [done|]. apply (fits_mono 24); [done|lia].
Qed.

(** ** Flags *)

Lemma flag_bit w n : 0 <= n -> negb (Z.land w (Z.shiftl 1 n) =? 0) = Z.testbit w n.
Proof. intros. rewrite Z.shiftl_1_l. by apply land_pow2_nonzero. Qed.

Lemma with_bit_testbit w n on i :
  0 <= n < 64 -> 0 <= i < 64 ->
  Z.testbit (with_bit w (Z.shiftl 1 n) on) i = if i =? n then on else Z.testbit w i.
Proof.
  intros Hn Hi. unfold with_bit. rewrite Z.shiftl_1_l. destruct on.
  - rewrite Z.lor_spec, pow2_testbit by lia. destruct (i =? n); by rewrite ?orb_true_r, ?orb_false_r.
  - rewrite Z.land_spec, bnot_spec, pow2_testbit by lia. destruct (Z.ltb_spec i 64); [|lia].
    destruct (i =? n); by rewrite ?andb_false_r, ?andb_true_r.
Qed.

Lemma with_bit_fits w n on : 0 <= n < 64 -> fits 64 w -> fits 64 (with_bit w (Z.shiftl 1 n) on).
Proof.
  intros Hn Hw. unfold with_bit. rewrite Z.shiftl_1_l. destruct on.
  - apply fits_lor; [lia|done|]. split; [apply Z.pow_nonneg; lia|apply Z.pow_lt_mono_r; lia].
  - by apply fits_land_l.
Qed.

Lemma with_bit_address w n on :
  48 <= n < 64 ->
  Z.land (with_bit w (Z.shiftl 1 n) on) Addr.ADDRESS_MASK = Z.land w Addr.ADDRESS_MASK.
Proof.
  intros Hn. change Addr.ADDRESS_MASK with (Z.ones 48). apply Z.bits_inj'. intros i Hi.
  rewrite !Z.land_spec, ones_testbit by lia. destruct (Z.ltb_spec i 48); [|by rewrite !andb_false_r].
  rewrite with_bit_testbit by lia. destruct (Z.eqb_spec i n); [lia|done].
Qed.

(** ** Sizes *)

Definition up8 (n : Z) : Z := (n + 7) / 8 * 8.

Lemma align_up8 n : 0 <= n <= u64_max - 7 -> align_record_size n = up8 n.
Proof.
  intros Hn. unfold align_record_size, wadd, RECORD_ALIGNMENT, up8. unfold u64_max in Hn.
  change (8 - 1) with (2 ^ 3 - 1). rewrite wrap_id by (unfold fits; lia).
  rewrite clear_low_bits; [done|lia|]. unfold fits. lia.
Qed.

Lemma up8_bounds n : n <= up8 n < n + 8 /\ up8 n mod 8 = 0.
Proof. unfold up8. split; [euclid|]. apply Z.mod_mul. lia. Qed.

(** Header fields are far below the 64-bit limits the saturating sums guard. *)
Lemma sizes h :
  kv_size h = 16 + key_len h + val_len h /\
  record_size h = up8 (16 + key_len h + val_len h) /\
  physical_size h = record_size h + 8 * filler_words h /\
  checked_physical_size h = Some (physical_size h) /\
  16 <= record_size h < 2 ^ 33.
Proof.
  pose proof (field_bounds h) as (Hf & Hk & Hv). unfold fits in *.
  assert (kv_size h = 16 + key_len h + val_len h) as E.
  { unfold kv_size, sat_add, HEADER_SIZE, u64_max. lia. }
  assert (record_size h = up8 (16 + key_len h + val_len h)) as R.
  { unfold record_size. rewrite E. apply align_up8. unfold u64_max. lia. }
  pose proof (up8_bounds (16 + key_len h + val_len h)) as [Hb _].
  assert (filler_bytes h = 8 * filler_words h) as F.
  { unfold filler_bytes. rewrite Z.shiftl_mul_pow2 by lia. lia. }
  split; [done|]. split; [done|]. unfold physical_size, checked_physical_size, checked_add, sat_add.
  rewrite F. unfold u64_max. destruct (Z.leb_spec (record_size h + 8 * filler_words h) (2 ^ 64 - 1)); [|lia].
  split; [lia|]. split; [f_equal; lia|lia].
Qed.

(** The capacity gate, on value lengths that fit their field. *)
Lemma slack_spec h n :
  0 <= n <= u32_max ->
  slack_for_val_len h n =
    let a := up8 (16 + key_len h + n) in
    if (a <=? physical_size h) && (physical_size h - a <=? MAX_FILLER_BYTES)
    then Some (physical_size h - a) else None.
Proof.
  intros Hn. pose proof (field_bounds h) as (_ & Hk & _). unfold fits in Hk. unfold u32_max in Hn.
  unfold slack_for_val_len.
  replace (sat_add (sat_add HEADER_SIZE (key_len h)) n) with (16 + key_len h + n)
    by (unfold sat_add, HEADER_SIZE, u64_max; lia).
  rewrite align_up8 by (unfold u64_max; lia). done.
Qed.

(** Relaying the value length and the slack keeps the physical extent. *)
Lemma relaid_physical h n slack :
  0 <= n <= u32_max -> slack_for_val_len h n = Some slack ->
  let h' := set_filler_words (set_val_len h (wrap 32 n)) (wrap 8 (Z.shiftr slack 3)) in
  physical_size h' = physical_size h /\ val_len h' = n /\ key_len h' = key_len h /\
  prev_address h' = prev_address h /\ 16 + key_len h + n <= physical_size h.
Proof.
  intros Hn Hs h'. rewrite slack_spec in Hs by done. simpl in Hs.
  destruct (Z.leb_spec (up8 (16 + key_len h + n)) (physical_size h)); [|done].
  destruct (Z.leb_spec (physical_size h - up8 (16 + key_len h + n)) MAX_FILLER_BYTES) as [Hm|]; [|done].
  simpl in Hs. injection Hs as Hs. change MAX_FILLER_BYTES with 2040 in Hm.
  assert (fits 32 n) as Hn32 by (unfold fits; unfold u32_max in Hn; lia).
  pose proof (sizes h) as (_ & R & P & _ & _).
  pose proof (up8_bounds (16 + key_len h + n)) as [Hb Hb8].
  pose proof (up8_bounds (16 + key_len h + val_len h)) as [Hc Hc8].
  assert (slack mod 8 = 0) as H8 by (rewrite P, R in Hs; euclid).
  assert (wrap 8 (Z.shiftr slack 3) = slack / 8) as Hw.
  { rewrite Z.shiftr_div_pow2 by lia. apply wrap_id. unfold fits. change (2 ^ 3) with 8. euclid. }
  assert (val_len h' = n /\ key_len h' = key_len h /\ filler_words h' = slack / 8) as (V & K & F).
  { unfold h'. rewrite set_filler_val, set_filler_key, set_val_len_key, (wrap_id 32 n) by done.
    rewrite set_val_len_val, set_filler_filler by (done || (apply wrap_fits; lia)). done. }
  pose proof (sizes h') as (_ & R' & P' & _ & _). rewrite K, V in R'.
  split; [rewrite P', R', F; euclid|]. repeat (split; [done|]). lia.
Qed.

Lemma relaid_ok h v f : header_ok h -> header_ok (set_filler_words (set_val_len h v) f).
Proof.
  intros [Hp Hr]. split; [done|]. cbn [rdh_word set_filler_words set_val_len set_rdh].
  apply fits_lor; [lia| |].
  - apply fits_land_l; [lia|]. apply fits_lor; [lia|by apply fits_land_l|].
    change 64 with (32 + 32). apply fits_shiftl; [unfold VAL_LEN_SHIFT; cbv; discriminate|lia|].
    apply fits_land_r; [lia|]. by apply (fits_ones 32 32).
  - apply (fits_mono (8 + 0)); [|lia]. apply fits_shiftl; [by unfold FILLER_WORDS_SHIFT|lia|].
    apply fits_land_r; [lia|]. by apply (fits_ones 8 8).
Qed.

(** ** Bytes *)

Lemma length_to_bytes h : length (to_bytes h) = 16%nat.
Proof. unfold to_bytes. by rewrite length_app, !length_le_bytes. Qed.

Lemma to_bytes_ok h : bytes_ok (to_bytes h).
Proof. apply bytes_ok_app. split; apply le_bytes_ok. Qed.

Lemma from_to_bytes h : header_ok h -> from_bytes (to_bytes h) = h.
Proof.
  intros [Hp Hr]. unfold from_bytes, to_bytes. destruct h as [p r]. cbn [prev_address rdh_word] in *.
  rewrite take_app_length', drop_app_length' by (by rewrite length_le_bytes).
  rewrite (take_ge (le_bytes 8 r)) by (by rewrite length_le_bytes).
  rewrite !le_num_le_bytes. unfold fits in *. change (256 ^ Z.of_nat 8) with (2 ^ 64).
  by rewrite !Z.mod_small.
Qed.

(** A pad header is recognised as one, is never a readable record, and
    spans exactly the bytes it was built for. *)
Theorem pad_roundtrip n (Hn : HEADER_SIZE <= n <= HEADER_SIZE + u32_max) :
  is_pad (pad n) = true /\ is_unreadable (pad n) = true /\ pad_extent (pad n) = n /\
  from_bytes (to_bytes (pad n)) = pad n.
Proof.
  unfold HEADER_SIZE, u32_max in Hn.
  assert (fits 24 PAD_KEY_LEN) as Hk by (split; vm_compute; congruence).
  assert (is_pad (pad n) = true) as Hp.
  { unfold is_pad, pad. rewrite key_len_pack by done. apply Z.eqb_refl. }
  split; [done|]. split; [unfold is_unreadable; by rewrite Hp|]. split.
  - unfold pad_extent, pad, HEADER_SIZE. destruct (Z.leb_spec 16 n); [|lia].
    rewrite val_len_pack by (apply wrap_fits; lia). rewrite wrap_id; [lia|]. unfold fits. lia.
  - apply from_to_bytes. split; [by vm_compute|]. apply pack_fits.
Qed.

Lemma pad_roundtrip_witness :
  HEADER_SIZE <= 4096 <= HEADER_SIZE + u32_max /\ pad_extent (pad 4096) = 4096.
Proof.
  assert (HEADER_SIZE <= 4096 <= HEADER_SIZE + u32_max) as H
    by (unfold HEADER_SIZE, u32_max; lia).
  split; [exact H|]. apply (pad_roundtrip 4096 H).
Defined.

End HeaderSpec.

Module CodecSpec.
Import Header HeaderSpec Codec.

Lemma address_check a :
  fits 64 a -> (Z.land a (bnot 64 Addr.ADDRESS_MASK) =? 0) = (a <=? Addr.ADDRESS_MASK).
Proof.
  intros Ha. change Addr.ADDRESS_MASK with (2 ^ 48 - 1). rewrite clear_low_bits by (done || lia).
  unfold fits in Ha. destruct (Z.leb_spec a (2 ^ 48 - 1)).
  - rewrite Z.div_small by lia. done.
  - apply Z.eqb_neq. assert (1 <= a / 2 ^ 48) by (apply Z.div_le_lower_bound; lia). lia.
Qed.

(** The first error that applies, if any. *)
Definition encode_error (dst key val : list Z) (prev_addr : Z) : option RecordError :=
  if MAX_KEY_LEN <? zlen key then Some (KeyLengthOverflow (zlen key))
  else if u32_max <? zlen val then Some (ValueLengthOverflow (zlen val))
  else if Addr.ADDRESS_MASK <? prev_addr then Some (AddressOverflow prev_addr)
  else if zlen dst <? up8 (16 + zlen key + zlen val)
       then Some (BufferTooShort (up8 (16 + zlen key + zlen val)) (zlen dst))
  else None.

(** The header an accepted record gets. *)
Definition encoded_header (prev_addr : Z) (key val : list Z) (tomb ver : bool) : RecordHeader :=
  from_words (with_bit (with_bit prev_addr TOMBSTONE_BIT tomb) IN_NEW_VERSION_BIT ver)
             (pack_rdh_word 0 (zlen key) (zlen val)).

Lemma encode_spec dst prev_addr key val tomb ver :
  fits 64 prev_addr ->
  encode_to_slice dst prev_addr key val tomb ver =
    match encode_error dst key val prev_addr with
    | Some e => inr e
    | None => inl (write_record_unchecked dst (encoded_header prev_addr key val tomb ver) key val,
                   up8 (16 + zlen key + zlen val))
    end.
Proof.
  intros Hp. unfold encode_to_slice, build_header, encode_error.
  pose proof (zlen_nonneg key). pose proof (zlen_nonneg val).
  destruct (Z.ltb_spec MAX_KEY_LEN (zlen key)) as [|Hk]; [done|].
  destruct (Z.ltb_spec u32_max (zlen val)) as [|Hv]; [done|].
  change MAX_KEY_LEN with (2 ^ 24 - 2) in Hk. unfold u32_max in Hv.
  rewrite !wrap_id by (unfold fits; lia). unfold new. rewrite address_check by done.
  destruct (Z.leb_spec prev_addr Addr.ADDRESS_MASK), (Z.ltb_spec Addr.ADDRESS_MASK prev_addr);
    try lia; [|done]. cbn [negb].
  assert (record_size (zlen key) (zlen val) = up8 (16 + zlen key + zlen val)) as ->.
  { unfold record_size. rewrite <- align_up8 by (unfold u64_max; lia). f_equal.
    unfold sat_add, HEADER_SIZE, u64_max. lia. }
  destruct (Z.leb_spec (up8 (16 + zlen key + zlen val)) (zlen dst)),
    (Z.ltb_spec (zlen dst) (up8 (16 + zlen key + zlen val))); try lia; done.
Qed.

(** The three parts written into a large enough buffer. *)
Lemma write_record_parts dst h key val :
  16 + zlen key + zlen val <= zlen dst ->
  let buf := write_record_unchecked dst h key val in
  zlen buf = zlen dst /\ take 16 buf = to_bytes h /\
  slice 16 (16 + zlen key) buf = key /\
  slice (16 + zlen key) (16 + zlen key + zlen val) buf = val /\
  (forall a b, 16 + zlen key + zlen val <= a -> a <= b -> slice a b buf = slice a b dst).
Proof.
  intros Hd buf. pose proof (zlen_nonneg key). pose proof (zlen_nonneg val).
  assert (zlen (to_bytes h) = 16) as Ht by (unfold zlen; rewrite length_to_bytes; done).
  unfold buf, write_record_unchecked, HEADER_SIZE.
  set (b1 := splice 16 key dst). set (b2 := splice (16 + zlen key) val b1).
  assert (zlen b1 = zlen dst) as L1 by (apply zlen_splice; lia).
  assert (zlen b2 = zlen dst) as L2 by (unfold b2; rewrite zlen_splice; lia).
  split; [rewrite zlen_splice; lia|]. split.
  - pose proof (slice_splice_same 0 (to_bytes h) b2) as E. rewrite Ht in E.
    unfold slice in E. rewrite drop_0 in E. apply E; lia.
  - split; [|split].
    + rewrite slice_splice_after by lia. unfold b2. rewrite slice_splice_before by lia.
      apply slice_splice_same; lia.
    + rewrite slice_splice_after by lia. apply slice_splice_same; lia.
    + intros a b Ha Hb. rewrite slice_splice_after by lia. unfold b2.
      rewrite slice_splice_after by lia. unfold b1. by rewrite slice_splice_after by lia.
Qed.

Lemma encoded_header_ok prev_addr key val tomb ver :
  fits 64 prev_addr -> header_ok (encoded_header prev_addr key val tomb ver).
Proof. intros. split; [|apply pack_fits]. by repeat apply with_bit_fits. Qed.

Lemma encoded_header_flags prev_addr key val tomb ver (h := encoded_header prev_addr key val tomb ver) :
  fits 48 prev_addr ->
  address h = prev_addr /\ is_tombstone h = tomb /\ is_in_new_version h = ver /\
  is_sealed h = false /\ is_read_cache h = false.
Proof.
  intros Hp. unfold h, address, is_tombstone, is_in_new_version, is_sealed, is_read_cache,
    encoded_header, TOMBSTONE_BIT, IN_NEW_VERSION_BIT, SEALED_BIT, HEADER_READ_CACHE_BIT.
  cbn [prev_address]. rewrite !flag_bit, !with_bit_testbit, !with_bit_address by lia. cbn [Z.eqb Pos.eqb].
  rewrite !(fits_high 48) by (done || lia).
  change Addr.ADDRESS_MASK with (Z.ones 48). by rewrite land_ones_id.
Qed.

(** C36: encoding a record fails with the first of the key-length,
    value-length, address and buffer errors that applies, and otherwise writes a
    record that reads back as the same key, value, previous address and flags,
    unsealed and never mistaken for a pad; its aligned size is the returned size
    and the bytes behind the value are untouched. *)
Theorem encode_decode_record dst prev_addr key val tomb ver (Hp : fits 64 prev_addr) :
  match encode_to_slice dst prev_addr key val tomb ver with
  | inr e => encode_error dst key val prev_addr = Some e
  | inl (buf, n) =>
      encode_error dst key val prev_addr = None /\ zlen buf = zlen dst /\
      (forall a b, 16 + zlen key + zlen val <= a -> a <= b -> slice a b buf = slice a b dst) /\
      exists h, RecordRef.from_slice buf = inl (RecordRef.mkRef h key val) /\
        address h = prev_addr /\ is_tombstone h = tomb /\ is_in_new_version h = ver /\
        is_sealed h = false /\ is_pad h = false /\
        Header.record_size h = n /\ physical_size h = n
  end.
Proof.
  rewrite encode_spec by done. destruct (encode_error dst key val prev_addr) eqn:He; [done|].
  split; [done|]. unfold encode_error in He.
  destruct (Z.ltb_spec MAX_KEY_LEN (zlen key)) as [|Hk]; [done|].
  destruct (Z.ltb_spec u32_max (zlen val)) as [|Hv]; [done|].
  destruct (Z.ltb_spec Addr.ADDRESS_MASK prev_addr) as [|Ha]; [done|].
  destruct (Z.ltb_spec (zlen dst) (up8 (16 + zlen key + zlen val))) as [|Hd]; [done|].
  change MAX_KEY_LEN with (2 ^ 24 - 2) in Hk. change Addr.ADDRESS_MASK with (2 ^ 48 - 1) in Ha.
  unfold u32_max in Hv. pose proof (zlen_nonneg key). pose proof (zlen_nonneg val).
  pose proof (up8_bounds (16 + zlen key + zlen val)) as [Hu _].
  set (h := encoded_header prev_addr key val tomb ver).
  destruct (write_record_parts dst h key val) as (Hl & Ht & Hkey & Hval & Hrest); [lia|].
  set (buf := write_record_unchecked dst h key val) in *. split; [done|]. split; [done|].
  assert (key_len h = zlen key /\ val_len h = zlen val /\ filler_words h = 0) as (K & V & F).
  { unfold h, encoded_header. rewrite key_len_pack, val_len_pack, filler_pack by (unfold fits; lia).
    done. }
  pose proof (sizes h) as (_ & R & P & _). rewrite K, V in R. rewrite F in P.
  exists h. split.
  - unfold RecordRef.from_slice, Header.from_slice, HEADER_SIZE. rewrite Hl.
    destruct (Z.leb_spec 16 (zlen dst)); [|lia].
    rewrite Ht, from_to_bytes by (by apply encoded_header_ok). rewrite R.
    destruct (Z.ltb_spec (zlen dst) (up8 (16 + zlen key + zlen val))); [lia|].
    by rewrite K, V, Hkey, Hval.
  - destruct (encoded_header_flags prev_addr key val tomb ver) as (? & ? & ? & ? & _);
      [unfold fits in *; lia|]. repeat (split; [done|]). split; [|split; [exact R|lia]].
    unfold is_pad. rewrite K. change PAD_KEY_LEN with (2 ^ 24 - 1). apply Z.eqb_neq. lia.
Qed.

Lemma encode_decode_record_witness :
  fits 64 77 /\
  exists buf, encode_to_slice (replicate 32 9) 77 [1; 2; 3] [4; 5] true false = inl (buf, 24) /\
  exists h, RecordRef.from_slice buf = inl (RecordRef.mkRef h [1; 2; 3] [4; 5]) /\ address h = 77.
Proof.
  assert (fits 64 77) as Hp by (unfold fits; lia). split; [exact Hp|].
  pose proof (encode_decode_record (replicate 32 9) 77 [1; 2; 3] [4; 5] true false Hp) as H.
  destruct (encode_to_slice (replicate 32 9) 77 [1; 2; 3] [4; 5] true false) as [[buf n]|e] eqn:E.
  - assert (n = 24) as Hn by (vm_compute in E; congruence). subst n. exists buf. split; [reflexivity|].
    destruct H as (_ & _ & _ & h & Hr & Ha & _). exists h. split; [exact Hr|exact Ha].
  - vm_compute in E. discriminate E.
Defined.

End CodecSpec.
