(* ===== verification/RecordMutSpec.v ===== *)
(** * In-place updates of records ([wedb/wrecord/src/record_mut.rs])

    A record opened for update caches its header; every operation keeps the
    cache and the bytes in agreement, stays inside the slot and keeps the key. *)

From stdpp Require Import base list numbers option tactics.
From Stdlib Require Import ZArith Lia Bool.
From S2P Require Import Prelude Base Bytes Atomic Record RecordSpec.

Module MutSpec.
Import Header HeaderSpec RecordMut.

(** The cached header is the one in the bytes, and the bytes are its extent. *)
Record wf (r : RecordMut) : Prop := {
  wf_header : header_ok (header r);
  wf_bytes : bytes_ok (bytes r);
  wf_extent : zlen (bytes r) = physical_size (header r);
  wf_cached : take 16 (bytes r) = to_bytes (header r)
}.

Lemma take_store_rdh bs w :
  16 <= zlen bs -> take 16 (store_rdh bs w) = take 8 bs ++ le_bytes 8 w.
Proof.
  unfold zlen, store_rdh, splice, RDH_WORD_OFFSET. intros Hl. rewrite app_assoc.
  apply take_app_length'. rewrite length_app, length_take, length_le_bytes. lia.
Qed.

Lemma take_store_info bs w :
  16 <= zlen bs -> take 16 (store_info bs w) = le_bytes 8 w ++ take 8 (drop 8 bs).
Proof.
  unfold zlen, store_info, splice. intros Hl. simpl Z.to_nat. rewrite take_0. cbn [app].
  by rewrite take_app, length_le_bytes.
Qed.

Lemma cached_words r :
  wf r -> take 8 (bytes r) = le_bytes 8 (prev_address (header r)) /\
          take 8 (drop 8 (bytes r)) = le_bytes 8 (rdh_word (header r)) /\
          info_word r = prev_address (header r).
Proof.
  intros [[Hp _] _ _ Hc].
  assert (take 8 (bytes r) = le_bytes 8 (prev_address (header r))) as E.
  { replace (take 8 (bytes r)) with (take 8 (take 16 (bytes r))) by (by rewrite take_take).
    rewrite Hc. apply take_app_length'. by rewrite length_le_bytes. }
  split; [done|]. split.
  - replace (take 8 (drop 8 (bytes r))) with (drop 8 (take 16 (bytes r)))
      by (by rewrite skipn_firstn_comm).
    rewrite Hc. apply drop_app_length'. by rewrite length_le_bytes.
  - unfold info_word. rewrite E, le_num_le_bytes. by apply Z.mod_small.
Qed.

Lemma wf_extent_16 r : wf r -> 16 + key_len (header r) + val_len (header r) <= zlen (bytes r).
Proof.
  intros W. rewrite (wf_extent _ W). pose proof (sizes (header r)) as (_ & R & P & _).
  pose proof (field_bounds (header r)) as (Hf & _). unfold fits in Hf.
  pose proof (up8_bounds (16 + key_len (header r) + val_len (header r))) as [? _]. lia.
Qed.

Lemma wf_key_bounds r : wf r -> 16 <= key_end r <= zlen (bytes r).
Proof.
  intros W. pose proof (wf_extent_16 r W). unfold key_end, HEADER_SIZE.
  pose proof (field_bounds (header r)) as (_ & Hk & Hv). unfold fits in *. lia.
Qed.

(** Opening a buffer for in-place update succeeds exactly when it holds
    the whole physical extent its header announces, and then gives a record whose
    cached header agrees with its bytes. *)
Theorem from_slice_mut_wf src (Hb : bytes_ok src) :
  match from_slice_mut src with
  | inl r => wf r /\ bytes r = slice 0 (physical_size (header r)) src
  | inr e => (e = BufferTooShort HEADER_SIZE (zlen src) /\ zlen src < HEADER_SIZE) \/
             (let h := from_bytes (take 16 src) in
              e = BufferTooShort (physical_size h) (zlen src) /\ zlen src < physical_size h)
  end.
Proof.
  unfold from_slice_mut, parse_header_phys, Header.from_slice, HEADER_SIZE.
  destruct (Z.leb_spec 16 (zlen src)) as [H16|]; [|by left].
  set (h := from_bytes (take 16 src)). pose proof (sizes h) as (_ & R & P & -> & Hr).
  pose proof (field_bounds h) as (Hf & _). unfold fits in Hf.
  destruct (Z.ltb_spec (zlen src) (physical_size h)); [by right|]. split; [|done].
  assert (length (take 16 src) = 16%nat) as Hl by (rewrite length_take; unfold zlen in H16; lia).
  assert (bytes_ok (take 16 src)) as Hb16 by by apply Forall_take.
  split; cbn [header bytes].
  - assert (forall l, bytes_ok l -> length l = 8%nat -> fits 64 (le_num l)) as Hn.
    { intros l Hl1 Hl2. pose proof (le_num_bound l Hl1) as Hn. rewrite Hl2 in Hn. exact Hn. }
    split; apply Hn; try (by apply Forall_take); try (by apply Forall_take, Forall_drop);
      rewrite length_take, ?length_drop; lia.
  - by apply bytes_ok_slice.
  - rewrite zlen_slice; lia.
  - unfold slice. rewrite drop_0, take_take, Nat.min_l by lia. unfold to_bytes, h, from_bytes.
    cbn [prev_address rdh_word]. set (t := take 16 src) in *.
    replace 8%nat with (length (take 8 t)) at 1 by (rewrite length_take; lia).
    rewrite le_bytes_le_num by by apply Forall_take.
    replace 8%nat with (length (take 8 (drop 8 t))) at 2 by (rewrite length_take, length_drop; lia).
    rewrite le_bytes_le_num by by apply Forall_take, Forall_drop.
    rewrite (take_ge (drop 8 t)) by (rewrite length_drop; lia). by rewrite take_drop.
Qed.

(** ** In-place updates *)

Lemma publish_rdh_wf bs h h' :
  wf (mkMut h bs) -> header_ok h' -> prev_address h' = prev_address h ->
  physical_size h' = physical_size h -> wf (publish_rdh (mkMut h' bs)).
Proof.
  intros W Hh Hp Hs. pose proof (wf_key_bounds _ W) as Hk. cbn [bytes] in Hk.
  destruct (cached_words _ W) as (H8 & _ & _). destruct W as [_ Hb He _]. cbn [header bytes] in *.
  split; cbn [publish_rdh header bytes].
  - done.
  - apply bytes_ok_splice; [apply le_bytes_ok|done].
  - unfold store_rdh. rewrite zlen_splice; [congruence|done|].
    unfold zlen in *. rewrite length_le_bytes. unfold RDH_WORD_OFFSET. lia.
  - rewrite take_store_rdh, H8, <- Hp by lia. done.
Qed.

(** The two payload parts lie behind the header words. *)
Lemma slice_store_rdh bs w a b :
  16 <= a -> a <= b -> b <= zlen bs -> slice a b (store_rdh bs w) = slice a b bs.
Proof.
  intros. unfold store_rdh, RDH_WORD_OFFSET. apply slice_splice_after; try done;
    unfold zlen in *; rewrite length_le_bytes; lia.
Qed.

Lemma slice_store_info bs w a b :
  16 <= a -> a <= b -> b <= zlen bs -> slice a b (store_info bs w) = slice a b bs.
Proof.
  intros. unfold store_info. apply slice_splice_after; try done;
    unfold zlen in *; rewrite length_le_bytes; lia.
Qed.

(** Rewriting the info word keeps everything the other word determines. *)
Lemma store_info_wf r w :
  wf r -> fits 64 w ->
  let r' := mkMut (set_info (header r) w) (store_info (bytes r) w) in
  wf r' /\ physical_size (header r') = physical_size (header r) /\ key r' = key r /\ value r' = value r.
Proof.
  intros W Hw r'. pose proof (wf_key_bounds r W) as Hk. pose proof (wf_extent_16 r W) as H16.
  destruct (cached_words _ W) as (_ & H8 & _). destruct W as [[Hp Hr] Hb He _].
  assert (physical_size (header r') = physical_size (header r)) as Hps by reflexivity.
  pose proof (field_bounds (header r)) as (_ & Hkf & Hvf). unfold fits in Hkf, Hvf.
  split; [|split; [done|split]].
  - split; cbn [r' header bytes]; [done| | |].
    + apply bytes_ok_splice; [apply le_bytes_ok|done].
    + unfold store_info. rewrite zlen_splice; [done|done|].
      unfold zlen in *. rewrite length_le_bytes. lia.
    + rewrite take_store_info, H8 by lia. done.
  - unfold key, r', key_end in *. cbn [header bytes set_info] in *.
    apply slice_store_info; unfold HEADER_SIZE in *; cbn in *; lia.
  - unfold value, r', key_end in *. cbn [header bytes] in *.
    apply slice_store_info; unfold HEADER_SIZE in *; cbn in *; lia.
Qed.

Lemma splice_value_wf r v :
  wf r -> bytes_ok v -> key_end r + zlen v <= zlen (bytes r) ->
  let r' := mkMut (header r) (splice (key_end r) v (bytes r)) in
  wf r' /\ key r' = key r /\ slice (key_end r) (key_end r + zlen v) (bytes r') = v.
Proof.
  intros W Hv Hl r'. pose proof (wf_key_bounds r W) as Hk. pose proof (zlen_nonneg v).
  pose proof W as [Hh Hb He Hc].
  assert (zlen (bytes r') = zlen (bytes r)) as Hz by (apply zlen_splice; lia).
  split; [|split].
  - split; cbn [r' header bytes]; [done|by apply bytes_ok_splice|cbn [r' bytes] in Hz; congruence|].
    rewrite <- Hc. pose proof (slice_splice_before 0 16 (key_end r) v (bytes r)) as E.
    unfold slice in E. rewrite !drop_0 in E. apply E; lia.
  - unfold key, r'. cbn [header bytes]. apply slice_splice_before; unfold key_end, HEADER_SIZE in *; cbn in *; lia.
  - apply slice_splice_same; lia.
Qed.

(** Relaying a record to a value length its slot can hold. *)
Lemma relay_wf r n slack :
  wf r -> 0 <= n <= u32_max -> slack_for_val_len (header r) n = Some slack ->
  let r' := publish_val_layout r n slack false in
  wf r' /\ physical_size (header r') = physical_size (header r) /\ key r' = key r /\
  value r' = slice (key_end r) (key_end r + n) (bytes r) /\
  prev_address (header r') = prev_address (header r).
Proof.
  intros W Hn Hs r'. pose proof (wf_key_bounds r W) as Hk.
  destruct (relaid_physical (header r) n slack Hn Hs) as (P & V & K & A & Hfit).
  unfold r', publish_val_layout. set (h' := set_filler_words _ _) in *.
  assert (header_ok h') as Hh' by (apply relaid_ok, W).
  rewrite (wf_extent r W) in Hk. pose proof (wf_extent r W) as He.
  split; [by eapply (publish_rdh_wf _ (header r)); [destruct r; exact W|..]|].
  split; [done|]. unfold key, value, key_end in *. cbn [header bytes publish_rdh].
  rewrite K, V. unfold HEADER_SIZE in *. split; [apply slice_store_rdh; lia|].
  split; [apply slice_store_rdh; lia|done].
Qed.

Definition keep_mask : Z := bnot 64 (Z.lor TOMBSTONE_BIT SEALED_BIT).

Lemma keep_mask_testbit i : 0 <= i < 64 -> Z.testbit keep_mask i = negb ((i =? 63) || (i =? 60)).
Proof.
  intros Hi. unfold keep_mask, TOMBSTONE_BIT, SEALED_BIT. rewrite !Z.shiftl_1_l.
  rewrite bnot_spec, Z.lor_spec, !pow2_testbit by lia. by destruct (Z.ltb_spec i 64); [|lia].
Qed.

Lemma keep_mask_flags h (h' := set_info h (Z.land (prev_address h) keep_mask)) :
  is_tombstone h' = false /\ is_sealed h' = false /\
  is_in_new_version h' = is_in_new_version h /\ address h' = address h.
Proof.
  unfold h', is_tombstone, is_sealed, is_in_new_version, address, TOMBSTONE_BIT, SEALED_BIT,
    IN_NEW_VERSION_BIT. cbn [prev_address set_info].
  rewrite !flag_bit, !Z.land_spec, !keep_mask_testbit by lia. cbn [Z.eqb Pos.eqb orb negb].
  rewrite !andb_false_r, andb_true_r. repeat (split; [done|]).
  change Addr.ADDRESS_MASK with (Z.ones 48). apply Z.bits_inj'. intros i Hi.
  rewrite !Z.land_spec, !ones_testbit by lia. destruct (Z.ltb_spec i 48); [|by rewrite !andb_false_r].
  rewrite keep_mask_testbit by lia.
  destruct (Z.eqb_spec i 63), (Z.eqb_spec i 60); try lia. by rewrite !andb_true_r.
Qed.

(** Whether the slot of [h] can take a value of [n] bytes. *)
Definition slot_takes (h : RecordHeader) (n : Z) : Prop :=
  let a := up8 (16 + key_len h + n) in a <= physical_size h <= a + MAX_FILLER_BYTES.

Lemma slack_some h n :
  0 <= n <= u32_max ->
  (exists s, slack_for_val_len h n = Some s /\ slot_takes h n) \/
  (slack_for_val_len h n = None /\ ~ slot_takes h n).
Proof.
  intros Hn. rewrite slack_spec by done. unfold slot_takes. simpl. set (a := up8 _).
  destruct (Z.leb_spec a (physical_size h)), (Z.leb_spec (physical_size h - a) MAX_FILLER_BYTES);
    simpl; [left; eexists; split; [done|lia]|right; split; [done|lia]..].
Qed.

(** Writing a value in place (update or revival) succeeds exactly when
    the record is not a tombstone or is being revived and the slot can hold the
    value.  Then the record's cached header and bytes still agree, its physical
    extent, key, previous address and version flag are unchanged, its value is the
    new one, and a revival clears the tombstone and seal while an update keeps them. *)
Theorem write_val_correct r new_val clear (W : wf r) (Hv : bytes_ok new_val)
    (Hn : zlen new_val <= u32_max) :
  match write_val_with_slack r new_val clear with
  | inl r' =>
      wf r' /\ physical_size (header r') = physical_size (header r) /\
      key r' = key r /\ value r' = new_val /\ address (header r') = address (header r) /\
      is_in_new_version (header r') = is_in_new_version (header r) /\
      is_tombstone (header r') = false /\
      is_sealed (header r') = (if clear then false else is_sealed (header r)) /\
      slot_takes (header r) (zlen new_val)
  | inr e =>
      (e = TombstoneUpdate /\ is_tombstone (header r) = true /\ clear = false) \/
      (e = ValueLengthMismatch (physical_size (header r)) (zlen new_val) /\
       ~ slot_takes (header r) (zlen new_val))
  end.
Proof.
  pose proof (zlen_nonneg new_val). unfold write_val_with_slack.
  destruct (is_tombstone (header r) && negb clear) eqn:Ht.
  { left. apply andb_true_iff in Ht as [? ?%negb_true_iff]. done. }
  destruct (slack_some (header r) (zlen new_val)) as [(slack & Hs & Hfit)|[Hs Hno]]; [lia| |];
    rewrite Hs; [|by right].
  destruct (relaid_physical (header r) (zlen new_val) slack) as (_ & _ & _ & _ & Hle); [lia|done|].
  destruct (splice_value_wf r new_val W Hv) as (W1 & K1 & V1).
  { rewrite (wf_extent r W). unfold key_end, HEADER_SIZE. lia. }
  set (r1 := mkMut _ _) in *.
  destruct (relay_wf r1 (zlen new_val) slack W1) as (W2 & P2 & K2 & V2 & A2); [lia|done|].
  assert (key_end r1 = key_end r) as Hke by done. rewrite Hke, V1 in V2.
  destruct clear.
  - unfold publish_val_layout. set (r2 := publish_rdh _).
    change (publish_val_layout r1 (zlen new_val) slack false) with r2 in W2, P2, K2, V2, A2.
    fold keep_mask. destruct (cached_words r2 W2) as (_ & _ & ->).
    destruct (store_info_wf r2 (Z.land (prev_address (header r2)) keep_mask) W2) as (W3 & P3 & K3 & V3).
    { apply fits_land_l; [lia|]. apply W2. }
    destruct (keep_mask_flags (header r2)) as (F1 & F2 & F3 & F4).
    split; [exact W3|]. split; [by rewrite P3|]. split; [by rewrite K3, K2|].
    split; [by rewrite V3|]. cbn [header]. rewrite F4, F3. unfold address, is_in_new_version.
    rewrite A2. done.
  - split; [done|]. split; [done|]. split; [by rewrite K2|]. split; [done|].
    unfold address, is_in_new_version, is_tombstone, is_sealed in *. rewrite A2.
    repeat (split; [done|]). rewrite andb_true_r in Ht. done.
Qed.

(** A 24-byte record: key [7], value [8; 9], previous address 5. *)
Definition small_bytes : list Z :=
  match Codec.encode_to_slice (replicate 24 0) 5 [7] [8; 9] false false with
  | inl (b, _) => b
  | inr _ => []
  end.
Definition small : RecordMut := mkMut (from_bytes (take 16 small_bytes)) small_bytes.

Lemma small_bytes_ok : bytes_ok small_bytes.
Proof.
  assert (forallb (fun b => (0 <=? b) && (b <? 256)) small_bytes = true) as H by (vm_compute; reflexivity).
  apply List.Forall_forall. intros b Hb. rewrite forallb_forall in H.
  apply H, andb_true_iff in Hb as [?%Z.leb_le ?%Z.ltb_lt]. split; done.
Qed.

Lemma small_wf : wf small.
Proof.
  split.
  - split; split; vm_compute; congruence.
  - exact small_bytes_ok.
  - vm_compute. reflexivity.
  - vm_compute. reflexivity.
Qed.

Lemma from_slice_mut_wf_witness : bytes_ok small_bytes /\ from_slice_mut small_bytes = inl small /\ wf small.
Proof.
  pose proof (from_slice_mut_wf small_bytes small_bytes_ok) as H.
  assert (from_slice_mut small_bytes = inl small) as E by (vm_compute; reflexivity).
  rewrite E in H. split; [exact small_bytes_ok|]. split; [exact E|apply H].
Defined.

Lemma write_val_correct_witness :
  wf small /\ exists r', write_val_with_slack small [1; 2; 3; 4; 5] false = inl r' /\
                         value r' = [1; 2; 3; 4; 5] /\ key r' = [7].
Proof.
  assert (bytes_ok [1; 2; 3; 4; 5]) as Hv by (repeat constructor; (discriminate || reflexivity)).
  assert (zlen [1; 2; 3; 4; 5] <= u32_max) as Hn by (vm_compute; discriminate).
  pose proof (write_val_correct small [1; 2; 3; 4; 5] false small_wf Hv Hn) as H.
  destruct (write_val_with_slack small [1; 2; 3; 4; 5] false) as [r'|e] eqn:E.
  - split; [exact small_wf|]. exists r'. destruct H as (_ & _ & Hk & Hval & _).
    split; [reflexivity|]. split; [exact Hval|]. rewrite Hk. vm_compute. reflexivity.
  - vm_compute in E. discriminate E.
Defined.

(** For lengths that fit the value-length field, resizing in place
    succeeds exactly on a live record whose slot can hold the length, and then keeps the
    record well formed, its extent, key and info word, and exposes as value the
    bytes that follow the key. *)
Theorem resize_correct r n (W : wf r) (Hn : 0 <= n <= u32_max) :
  match resize_val_with_slack r n with
  | inl r' =>
      wf r' /\ physical_size (header r') = physical_size (header r) /\ key r' = key r /\
      value r' = slice (key_end r) (key_end r + n) (bytes r) /\
      prev_address (header r') = prev_address (header r) /\
      is_tombstone (header r) = false /\ slot_takes (header r) n
  | inr e =>
      (e = TombstoneUpdate /\ is_tombstone (header r) = true) \/
      (e = ValueLengthMismatch (physical_size (header r)) n /\ ~ slot_takes (header r) n)
  end.
Proof.
  unfold resize_val_with_slack. destruct (is_tombstone (header r)) eqn:Ht; [by left|].
  destruct (slack_some (header r) n Hn) as [(slack & Hs & Hfit)|[Hs Hno]]; rewrite Hs; [|by right].
  destruct (relay_wf r n slack W Hn Hs) as (? & ? & ? & ? & ?). done.
Qed.

Lemma resize_correct_witness :
  wf small /\ exists r', resize_val_with_slack small 4 = inl r' /\ value r' = [8; 9; 0; 0].
Proof.
  assert (0 <= 4 <= u32_max) as Hn by (split; vm_compute; discriminate).
  pose proof (resize_correct small 4 small_wf Hn) as H.
  destruct (resize_val_with_slack small 4) as [r'|e] eqn:E.
  - split; [exact small_wf|]. exists r'. destruct H as (_ & _ & _ & Hval & _).
    split; [reflexivity|]. rewrite Hval. vm_compute. reflexivity.
  - vm_compute in E. discriminate E.
Defined.

(** The capacity gate is not a bound on every [usize]: the saturated sum
    wraps to zero when it is rounded up, so a 24-byte record accepts a resize to
    the largest length and then announces a value of 2^32 - 1 bytes that lies
    outside its slot. *)
Theorem resize_accepts_overflow :
  wf small /\ zlen (bytes small) = 24 /\
  exists r', resize_val_with_slack small u64_max = inl r' /\
             val_len (header r') = u32_max /\ zlen (bytes r') = 24.
Proof.
  split; [exact small_wf|]. split; [vm_compute; reflexivity|].
  eexists. split; [vm_compute; reflexivity|]. split; vm_compute; reflexivity.
Qed.

End MutSpec.
