(* ===== verification/Seal.v ===== *)
(** * Sealing shared records ([wedb/wrecord/src/header.rs])

    The compare-exchange protocol on a record's info word, under any
    interleaving of threads. *)

From stdpp Require Import base list numbers option tactics relations.
From Stdlib Require Import ZArith Lia Bool.
From S2P Require Import Prelude Base Bytes Atomic Record RecordSpec.

Module SealSpec.
Import Header HeaderSpec.
Local Open Scope prog_scope.

(** What threads do to the info word of a shared record. *)
Inductive client : Type :=
| Sealer
| Mover (expected_prev_addr new_prev_addr : Z)
| Invalidator.

#[export] Instance client_eq_dec : EqDecision client.
Proof. solve_decision. Defined.

Definition client_prog (c : client) : prog unit bool :=
  match c with
  | Sealer => try_seal tt
  | Mover e n => try_update_address tt e n
  | Invalidator => let* _ := set_invalid_atomic tt in Ret false
  end.

(** A thread and whether it won the seal. *)
Abbreviation ghost := (client * bool)%type.
Definition wins (gs : list ghost) : Z := zsum (fun g : ghost => if g.2 then 1 else 0) gs.
Definition sealed (w : Z) : Z := if Z.testbit w 60 then 1 else 0.

Definition done_ok (b : bool) (g : ghost) : Prop := g.1 = Sealer -> b = g.2.

Section Protocol.
Context (clients : list client) (w0 : Z).

(** The seal bit is paid for by one winner or by the initial word. *)
Definition Inv (m : mem unit) (gs : list ghost) : Prop :=
  gs.*1 = clients /\ wins gs + sealed w0 <= sealed (m tt).

Lemma Inv_same m gs i g : Inv m gs -> gs !! i = Some g -> Inv m (<[i := g]> gs).
Proof. intros H Hi. by rewrite list_insert_id. Qed.

Lemma Inv_write m w gs i g :
  Inv m gs -> gs !! i = Some g -> (Z.testbit (m tt) 60 = true -> Z.testbit w 60 = true) ->
  Inv (upd m tt w) (<[i := g]> gs).
Proof.
  intros [Hc H] Hi Hw. rewrite list_insert_id by done. split; [done|].
  unfold sealed in *. rewrite upd_eq.
  destruct (Z.testbit (m tt) 60); [by rewrite Hw|]. destruct (Z.testbit w 60); lia.
Qed.

Lemma wp_try_seal : wp Inv (try_seal tt) (Sealer, false) done_ok.
Proof.
  intros m gs i HI Hi. exists (Sealer, false). split; [by apply Inv_same|].
  cbn [bind]. unfold is_closed_word, SEALED_BIT. rewrite flag_bit by lia.
  destruct (Z.testbit (m tt) 60) eqn:Hb; [done|].
  intros m' gs' j [Hc HI'] Hj. split.
  - intros Hm. exists (Sealer, true). split; [|done]. split.
    + rewrite list_fmap_insert, list_insert_id; [done|]. by rewrite list_lookup_fmap, Hj.
    + unfold wins. rewrite (zsum_insert _ _ _ _ _ Hj), upd_eq. fold (wins gs').
      unfold sealed in *. rewrite Hm, Hb in HI'.
      rewrite Z.shiftl_1_l, Z.lor_spec, pow2_testbit, Z.eqb_refl, orb_true_r by lia.
      cbn [snd]. lia.
  - intros _. exists (Sealer, false). split; [by apply Inv_same|done].
Qed.

Lemma wp_mover e n : wp Inv (try_update_address tt e n) (Mover e n, false) done_ok.
Proof.
  intros m gs i HI Hi. exists (Mover e n, false). split; [by apply Inv_same|].
  cbn [bind]. destruct (negb _); [done|]. intros m' gs' j HI' Hj. split.
  - intros Hm. exists (Mover e n, false). split; [|done]. apply Inv_write; [done..|].
    rewrite Hm. intros Hb. change Addr.ADDRESS_MASK with (Z.ones 48).
    rewrite Z.lor_spec, Z.land_spec, bnot_spec, ones_testbit, Hb by lia. done.
  - intros _. exists (Mover e n, false). split; [by apply Inv_same|done].
Qed.

Lemma wp_seal_client c : wp Inv (client_prog c) (c, false) done_ok.
Proof.
  destruct c as [|e n|]; [apply wp_try_seal|apply wp_mover|].
  intros m gs i HI Hi. exists (Invalidator, false). split; [|done].
  apply Inv_write; [done..|]. intros Hb. by rewrite Z.lor_spec, Hb.
Qed.

End Protocol.

Lemma pool_start (m0 : mem unit) (clients : list client) :
  pool_ok (Inv clients (m0 tt)) done_ok (m0, map client_prog clients).
Proof.
  exists (map (fun c => (c, false)) clients). cbn [fst snd]. split; [split|].
  - induction clients as [|c cs IH]; [done|]. cbn. by f_equal.
  - assert (wins (map (fun c => (c, false)) clients) = 0) as ->; [|lia].
    induction clients as [|c cs IH]; [done|]. exact IH.
  - generalize clients at 1. intros all. induction clients; constructor; [apply wp_seal_client|done].
Qed.

(** A finished sealer that succeeded has its ghost mark. *)
Lemma winner_ghost clients w0 ps gs i :
  gs.*1 = clients -> Forall2 (fun p g => wp (Inv clients w0) p g done_ok) ps gs ->
  clients !! i = Some Sealer -> ps !! i = Some (Ret true) -> gs !! i = Some (Sealer, true).
Proof.
  intros Hc Hall Hi Hp. destruct (Forall2_lookup_l _ _ _ _ _ Hall Hp) as ([c b] & Hg & Hq).
  rewrite <- Hc, list_lookup_fmap, Hg in Hi. cbn in Hi. injection Hi as ->.
  specialize (Hq eq_refl). cbn in Hq. by subst.
Qed.

(** Whatever the interleaving of any number of threads that seal, move or
    invalidate a shared record, at most one sealing attempt succeeds, none does
    on a record that was sealed to begin with, and after a success the record
    stays sealed. *)
Theorem seal_once (m0 m : mem unit) (clients : list client) (ps : list (prog unit bool)) i j
    (Hsteps : rtc pstep (m0, map client_prog clients) (m, ps))
    (Hi : clients !! i = Some Sealer) (Hri : ps !! i = Some (Ret true))
    (Hj : clients !! j = Some Sealer) (Hrj : ps !! j = Some (Ret true)) :
  i = j /\ Z.testbit (m0 tt) 60 = false /\ Z.testbit (m tt) 60 = true.
Proof.
  destruct (pool_safe _ _ _ _ Hsteps (pool_start m0 clients)) as (gs & [Hc Hw] & Hall).
  cbn [fst snd] in *.
  pose proof (winner_ghost _ _ _ _ _ Hc Hall Hi Hri) as Hgi.
  pose proof (winner_ghost _ _ _ _ _ Hc Hall Hj Hrj) as Hgj.
  assert (forall g : ghost, 0 <= if g.2 then 1 else 0) as Hnn by (intros [? []]; cbn; lia).
  pose proof (zsum_lookup _ _ _ _ Hnn Hgi) as H1. cbn in H1. unfold wins, sealed in Hw.
  destruct (Z.testbit (m0 tt) 60), (Z.testbit (m tt) 60); try lia.
  split; [|done]. destruct (decide (i = j)) as [|Hne]; [done|].
  pose proof (zsum_lookup_two _ _ _ _ _ _ Hnn Hne Hgi Hgj) as H2. cbn in H2. lia.
Qed.

Lemma seal_once_witness :
  exists m ps, rtc pstep ((fun _ => 0), map client_prog [Sealer; Mover 0 9]) (m, ps) /\
    ps !! 0%nat = Some (Ret true) /\ Z.testbit (m tt) 60 = true.
Proof.
  set (m := (run (try_seal tt) (fun _ : unit => 0)).2).
  set (ps := <[0%nat := Ret (run (try_seal tt) (fun _ : unit => 0)).1]>
               (map client_prog [Sealer; Mover 0 9])).
  assert (rtc pstep ((fun _ => 0), map client_prog [Sealer; Mover 0 9]) (m, ps)) as Hs
    by exact (run_steps (try_seal tt) (fun _ => 0) (map client_prog [Sealer; Mover 0 9]) 0 eq_refl).
  assert (ps !! 0%nat = Some (Ret true)) as Hp by (vm_compute; reflexivity).
  exists m, ps. split; [exact Hs|]. split; [exact Hp|].
  apply (seal_once (fun _ => 0) m [Sealer; Mover 0 9] ps 0 0 Hs eq_refl Hp eq_refl Hp).
Defined.

End SealSpec.
