(* ===== verification/Value.v ===== *)
(** * Keys and metadata values ([wedb/wval/src])

    [Tag]: the type bytes ([tag.rs]).  [NsCodec]: the stored form of a key, its
    namespace and database as order-preserving varints, a tag byte and the user
    key ([ns_codec.rs]).  [MetaVal]: the 32-byte collection metadata ([meta.rs]).
    [I64Codec]: eight-byte counters and expiries ([codec.rs]). *)

From stdpp Require Import base list numbers option tactics.
From Stdlib Require Import ZArith Lia Bool.
From S2P Require Import Prelude Bytes Varint.

Module Err.

Inductive ValError : Type :=
| BufferTooShort (expected actual : Z)
| InvalidKeyTag (b : Z)
| InvalidGarnetObjectType (b : Z)
| InvalidCustomObjectType (b : Z)
| InvalidStorageEncoding (b : Z)
| NonCanonicalEncoding.

End Err.

Module Tag.

Inductive KeyTag : Type :=
| String | Meta | Ttl | Vector | Etag | ObjectEnvelope | Acl | DbMeta | VectorRegistry.

#[export] Instance KeyTag_eq_dec : EqDecision KeyTag.
Proof. solve_decision. Defined.

Definition as_u8 (t : KeyTag) : Z :=
  match t with
  | String => 0x00 | Meta => 0x01 | Ttl => 0x09 | Vector => 0x0A | Etag => 0x0B
  | ObjectEnvelope => 0x0C | Acl => 0x0D | DbMeta => 0x0E | VectorRegistry => 0x0F
  end.

(** [from_repr]: the variant with this discriminant. *)
Definition from_u8 (val : Z) : option KeyTag :=
  if val =? 0x00 then Some String else if val =? 0x01 then Some Meta
  else if val =? 0x09 then Some Ttl else if val =? 0x0A then Some Vector
  else if val =? 0x0B then Some Etag else if val =? 0x0C then Some ObjectEnvelope
  else if val =? 0x0D then Some Acl else if val =? 0x0E then Some DbMeta
  else if val =? 0x0F then Some VectorRegistry else None.

Definition tag_strip_prefix (t : KeyTag) (key : list Z) : option (list Z) :=
  match key with
  | first :: rest => if first =? as_u8 t then Some rest else None
  | [] => None
  end.

Definition is_user_visible (t : KeyTag) : bool :=
  match t with String | Meta | ObjectEnvelope => true | _ => false end.

Inductive GarnetObjectType : Type :=
| Null | SortedSet | List | Hash | Set_ | RangeIndex | All.

Definition object_as_u8 (t : GarnetObjectType) : Z :=
  match t with
  | Null => 0 | SortedSet => 1 | List => 2 | Hash => 3 | Set_ => 4 | RangeIndex => 5 | All => 0xfb
  end.

Definition object_from_u8 (val : Z) : option GarnetObjectType :=
  if val =? 0 then Some Null else if val =? 1 then Some SortedSet else if val =? 2 then Some List
  else if val =? 3 then Some Hash else if val =? 4 then Some Set_
  else if val =? 5 then Some RangeIndex else if val =? 0xfb then Some All else None.

Definition is_tiered_collection (t : GarnetObjectType) : bool :=
  match t with RangeIndex | Hash | Set_ | SortedSet | List => true | _ => false end.

Lemma from_as_u8 t : from_u8 (as_u8 t) = Some t.
Proof. by destruct t. Qed.

Lemma as_from_u8 b t : from_u8 b = Some t -> b = as_u8 t.
Proof. unfold from_u8. repeat (case_match; [intros [= <-]; cbn; lia|]). done. Qed.

Lemma object_from_as_u8 t : object_from_u8 (object_as_u8 t) = Some t.
Proof. by destruct t. Qed.

Lemma object_as_from_u8 b t : object_from_u8 b = Some t -> b = object_as_u8 t.
Proof. unfold object_from_u8. repeat (case_match; [intros [= <-]; cbn; lia|]). done. Qed.

End Tag.

Module NsCodec.
Import Varint Tag Err.

Definition MIN_SESSION_PREFIX_LEN : Z := 2.
Definition MAX_SESSION_PREFIX_LEN : nat := 18.
Definition STACK_KEY_CAP : Z := 62.

Record SessionPrefixBuf : Type := mkPrefix { buf : list Z; len : Z }.

Definition decode_varint (slice : list Z) : (Z * Z) + ValError :=
  match decode_u64 slice with
  | inl v => inl v
  | inr (Varint.BufferTooShort expected actual) => inr (BufferTooShort expected actual)
  | inr NonCanonical => inr NonCanonicalEncoding
  end.

(** [split_at_checked]: the part behind [n], when there are [n] bytes. *)
Definition split_at_checked (n : Z) (key : list Z) : option (list Z) :=
  if n <=? zlen key then Some (slice_from n key) else None.

Definition decode_session_prefix (key : list Z) : ((Z * Z) * Z) + ValError :=
  match decode_varint key with
  | inr e => inr e
  | inl (ns, ns_len) =>
      match split_at_checked ns_len key with
      | None => inr (BufferTooShort ns_len (zlen key))
      | Some rest =>
          match decode_varint rest with
          | inr e => inr e
          | inl (db, db_len) => inl ((ns, db), ns_len + db_len)
          end
      end
  end.

Definition encode_session_prefix_to_array (ns db : Z) : list Z * Z :=
  if (ns <? VARINT_1B_MAX) && (db <? VARINT_1B_MAX) then
    (<[1%nat := wrap 8 db]> (<[0%nat := wrap 8 ns]> (replicate MAX_SESSION_PREFIX_LEN 0)), 2)
  else
    let '(ns_buf, ns_len) := encode_u64_to_array ns in
    let '(db_buf, db_len) := encode_u64_to_array db in
    let buf := splice 0 (slice 0 ns_len ns_buf) (replicate MAX_SESSION_PREFIX_LEN 0) in
    (splice ns_len (slice 0 db_len db_buf) buf, ns_len + db_len).

Definition new_prefix (ns db : Z) : SessionPrefixBuf :=
  let '(buf, len) := encode_session_prefix_to_array ns db in mkPrefix buf (wrap 8 len).

Definition prefix_slice (p : SessionPrefixBuf) : list Z :=
  let n := if len p <? Z.of_nat MAX_SESSION_PREFIX_LEN then len p else Z.of_nat MAX_SESSION_PREFIX_LEN in
  slice 0 n (buf p).

Definition prefix_from_slice (s : list Z) : SessionPrefixBuf + ValError :=
  let slow :=
    if (zlen s =? 0) || (Z.of_nat MAX_SESSION_PREFIX_LEN <? zlen s) then inr (BufferTooShort 1 (zlen s))
    else match decode_session_prefix s with
         | inr e => inr e
         | inl (_, total_len) =>
             if negb (zlen s =? total_len) then inr NonCanonicalEncoding
             else inl (mkPrefix (splice 0 (slice 0 total_len s) (replicate MAX_SESSION_PREFIX_LEN 0))
                                (wrap 8 total_len))
         end in
  match s with
  | [b0; b1] =>
      if (b0 <? VARINT_1B_FIRST_BYTE_LIMIT) && (b1 <? VARINT_1B_FIRST_BYTE_LIMIT)
      then inl (mkPrefix (<[1%nat := b1]> (<[0%nat := b0]> (replicate MAX_SESSION_PREFIX_LEN 0))) 2)
      else slow
  | _ => slow
  end.

Definition prefix_decode (p : SessionPrefixBuf) : (Z * Z) + ValError :=
  if len p =? 2 then inl (nth 0 (buf p) 0, nth 1 (buf p) 0)
  else match decode_session_prefix (prefix_slice p) with
       | inr e => inr e
       | inl (nsdb, _) => inl nsdb
       end.

(** A key on the stack or on the heap. *)
Inductive TaggedKeyBuf : Type :=
| Stack (buf : list Z) (len : Z)
| Heap (vec : list Z).

Definition as_slice (k : TaggedKeyBuf) : list Z :=
  match k with Stack buf len => slice 0 len buf | Heap vec => vec end.

(** [set_tag_at]: [None] where the source panics. *)
Definition set_tag_at (k : TaggedKeyBuf) (tag_offset : Z) (new_tag : KeyTag) : option TaggedKeyBuf :=
  if tag_offset <? zlen (as_slice k) then
    Some (match k with
          | Stack buf len => Stack (<[Z.to_nat tag_offset := as_u8 new_tag]> buf) len
          | Heap vec => Heap (<[Z.to_nat tag_offset := as_u8 new_tag]> vec)
          end)
  else None.

Fixpoint copy_parts (parts : list (list Z)) (off : Z) (buf : list Z) : list Z :=
  match parts with
  | [] => buf
  | part :: rest => copy_parts rest (off + zlen part) (splice off part buf)
  end.

Definition build_key (parts : list (list Z)) : TaggedKeyBuf :=
  let total_len := zlen (concat parts) in
  if total_len <=? STACK_KEY_CAP
  then Stack (copy_parts parts 0 (replicate (Z.to_nat STACK_KEY_CAP) 0)) (wrap 8 total_len)
  else Heap (concat parts).

Definition encode_with_session_prefix (prefix : list Z) (tag : KeyTag) (payload : list Z)
  : TaggedKeyBuf := build_key [prefix; [as_u8 tag]; payload].

Definition encode_tagged_key (ns db : Z) (tag : KeyTag) (payload : list Z) : TaggedKeyBuf :=
  encode_with_session_prefix (prefix_slice (new_prefix ns db)) tag payload.

Definition encode_vector_key_with_prefix (prefix : list Z) (context : Z) (key : list Z)
  : TaggedKeyBuf := build_key [prefix; [as_u8 Vector]; be_bytes 8 context; key].

(** [None] where the source panics. *)
Definition replace_tag_at (key : list Z) (tag_offset : Z) (new_tag : KeyTag) : option TaggedKeyBuf :=
  if tag_offset <? zlen key
  then Some (build_key [slice 0 tag_offset key; [as_u8 new_tag]; slice_from (tag_offset + 1) key])
  else None.

(** Both leading bytes are one-byte varints. *)
Definition short_prefix (ns_b db_b : Z) : bool :=
  (ns_b <? VARINT_1B_FIRST_BYTE_LIMIT) && (db_b <? VARINT_1B_FIRST_BYTE_LIMIT).

Definition decode_tagged_slow (key : list Z) : (Z * Z * KeyTag * list Z) + ValError :=
  match decode_session_prefix key with
  | inr e => inr e
  | inl ((ns, db), prefix_len) =>
      match split_at_checked prefix_len key with
      | None => inr (BufferTooShort prefix_len (zlen key))
      | Some [] => inr (BufferTooShort 1 0)
      | Some (tag_byte :: payload) =>
          match from_u8 tag_byte with
          | None => inr (InvalidKeyTag tag_byte)
          | Some tag => inl (ns, db, tag, payload)
          end
      end
  end.

Definition decode_tagged_key (key : list Z) : (Z * Z * KeyTag * list Z) + ValError :=
  match key with
  | ns_b :: db_b :: tag_byte :: payload =>
      if short_prefix ns_b db_b then
        match from_u8 tag_byte with
        | None => inr (InvalidKeyTag tag_byte)
        | Some tag => inl (ns_b, db_b, tag, payload)
        end
      else decode_tagged_slow key
  | _ => decode_tagged_slow key
  end.

Definition strip_session_prefix (key session_prefix : list Z) : option (KeyTag * list Z) :=
  match strip_prefix session_prefix key with
  | Some (tag_byte :: payload) =>
      match from_u8 tag_byte with Some tag => Some (tag, payload) | None => None end
  | _ => None
  end.

Definition strip_session_prefix_with_tag (key session_prefix : list Z) (expected_tag : KeyTag)
  : option (list Z) :=
  match strip_prefix session_prefix key with
  | Some (tag_byte :: payload) => if tag_byte =? as_u8 expected_tag then Some payload else None
  | _ => None
  end.

Definition extract_live_user_key (key session_prefix : list Z) : option (KeyTag * list Z) :=
  match strip_session_prefix key session_prefix with
  | Some (tag, user_key) => if is_user_visible tag then Some (tag, user_key) else None
  | None => None
  end.

Definition varint_len_from_byte (first : Z) : option Z :=
  let n := lut first in if negb (n =? 0) then Some n else None.

Definition prefix_len_slow (key : list Z) : option Z :=
  match key with
  | [] => None
  | first :: _ =>
      match varint_len_from_byte first with
      | None => None
      | Some ns_len =>
          match split_at_checked ns_len key with
          | None | Some [] => None
          | Some (db_first :: _) =>
              match varint_len_from_byte db_first with
              | None => None
              | Some db_len =>
                  let prefix_len := ns_len + db_len in
                  if prefix_len <=? zlen key then Some prefix_len else None
              end
          end
      end
  end.

Definition session_prefix_len_from_slice (key : list Z) : option Z :=
  match key with
  | ns_b :: db_b :: _ =>
      if short_prefix ns_b db_b then Some MIN_SESSION_PREFIX_LEN else prefix_len_slow key
  | _ => prefix_len_slow key
  end.

(** What follows the session prefix, found without decoding it. *)
Definition behind_prefix (key : list Z) : option (list Z) :=
  match session_prefix_len_from_slice key with
  | None => None
  | Some prefix_len => split_at_checked prefix_len key
  end.

Definition decode_tag (key : list Z) : option KeyTag :=
  let slow :=
    match behind_prefix key with
    | Some (tag_byte :: _) => from_u8 tag_byte
    | _ => None
    end in
  match key with
  | ns_b :: db_b :: tag_byte :: _ => if short_prefix ns_b db_b then from_u8 tag_byte else slow
  | _ => slow
  end.

Definition decode_meta_user_key (key : list Z) : option (list Z) :=
  let slow :=
    match behind_prefix key with
    | Some (tag_byte :: payload) => if tag_byte =? as_u8 Meta then Some payload else None
    | _ => None
    end in
  match key with
  | ns_b :: db_b :: tag_byte :: payload =>
      if short_prefix ns_b db_b then if tag_byte =? as_u8 Meta then Some payload else None
      else slow
  | _ => slow
  end.

End NsCodec.

Module MetaVal.
Import Tag Err.

Definition META_VALUE_SIZE : Z := 32.

Definition encoding_try_from_u8 (val : Z) : bool := val =? 2.

Record MetaValue : Type := mkMeta {
  key_id : Z; collection_type : GarnetObjectType; reserved : list Z; size : Z; next_expiry : Z
}.

Definition new_with_expiry (key_id : Z) (ty : GarnetObjectType) (size next_expiry : Z) : MetaValue :=
  mkMeta key_id ty [2; 0; 0; 0; 0; 0; 0] size next_expiry.
Definition new (key_id : Z) (ty : GarnetObjectType) (size : Z) : MetaValue :=
  new_with_expiry key_id ty size i64_max.

Definition inc_size (v : MetaValue) (count : Z) : MetaValue :=
  mkMeta (key_id v) (collection_type v) (reserved v) (sat_add (size v) count) (next_expiry v).
Definition dec_size (v : MetaValue) (count : Z) : MetaValue :=
  mkMeta (key_id v) (collection_type v) (reserved v) (sat_sub (size v) count) (next_expiry v).

Definition is_range_index (v : MetaValue) : bool :=
  match collection_type v with RangeIndex => true | _ => false end.
Definition is_live (v : MetaValue) : bool := is_range_index v || (0 <? size v).

Definition to_bytes (v : MetaValue) : list Z :=
  be_bytes 8 (key_id v) ++ [object_as_u8 (collection_type v)] ++ reserved v ++
  be_bytes 8 (size v) ++ be_bytes 8 (of_i64 (next_expiry v)).

Definition read_be_u64_at (s : list Z) (offset : Z) : Z := be_num (slice offset (offset + 8) s).

Definition from_slice (s : list Z) : MetaValue + ValError :=
  if zlen s <? META_VALUE_SIZE then inr (BufferTooShort META_VALUE_SIZE (zlen s))
  else
    let ty_byte := nth 8 s 0 in
    match object_from_u8 ty_byte with
    | None => inr (InvalidGarnetObjectType ty_byte)
    | Some ty =>
        if negb (encoding_try_from_u8 (nth 9 s 0)) then inr (InvalidStorageEncoding (nth 9 s 0))
        else inl (mkMeta (read_be_u64_at s 0) ty (slice 9 16 s) (read_be_u64_at s 16)
                         (to_i64 (read_be_u64_at s 24)))
    end.

End MetaVal.

Module I64Codec.

Definition encode (v : Z) : list Z := be_bytes 8 (of_i64 v).
Definition decode (bs : list Z) : option Z :=
  if 8 <=? zlen bs then Some (to_i64 (be_num (take 8 bs))) else None.

Definition expiry_elapsed (expiry : option Z) (now : Z) : bool :=
  match expiry with Some ticks => ticks <? now | None => false end.
Definition expiry_reached (expiry : option Z) (now : Z) : bool :=
  match expiry with Some ticks => ticks <=? now | None => false end.

End I64Codec.
