(* ===== verification/ValueSpec.v ===== *)
(** * Correctness of the key and metadata codecs ([wedb/wval/src])

    The stored key is the concatenation of its parts; decoding inverts encoding
    and accepts nothing else; keys of different sessions never mix, and the byte
    order of keys is the order of (namespace, database, tag, user key). *)

From stdpp Require Import base list numbers option tactics.
From Stdlib Require Import ZArith Lia Bool.
From S2P Require Import Prelude Bytes Varint Value.

Module KeySpec.
Import Varint Tag Err NsCodec.

(** ** Concatenating parts *)

Lemma take_splice off (p l : list Z) :
  0 <= off -> off + zlen p <= zlen l ->
  take (Z.to_nat (off + zlen p)) (splice off p l) = take (Z.to_nat off) l ++ p.
Proof.
  intros Ho Hl. unfold splice, zlen in *. rewrite app_assoc.
  apply take_app_length'. rewrite length_app, length_take. lia.
Qed.

Lemma copy_parts_spec parts : forall off buf,
  0 <= off -> off + zlen (concat parts) <= zlen buf ->
  take (Z.to_nat (off + zlen (concat parts))) (copy_parts parts off buf) =
    take (Z.to_nat off) buf ++ concat parts.
Proof.
  induction parts as [|p parts IH]; intros off buf Ho Hl; cbn [copy_parts concat] in *.
  - by rewrite zlen_nil, Z.add_0_r, app_nil_r.
  - rewrite zlen_app in *. pose proof (zlen_nonneg p). pose proof (zlen_nonneg (concat parts)).
    rewrite Z.add_assoc, IH by (rewrite ?zlen_splice; lia).
    rewrite take_splice by lia. by rewrite <- app_assoc.
Qed.

Lemma build_key_spec parts : as_slice (build_key parts) = concat parts.
Proof.
  unfold build_key. destruct (Z.leb_spec (zlen (concat parts)) STACK_KEY_CAP) as [H|]; [|done].
  pose proof (zlen_nonneg (concat parts)). unfold STACK_KEY_CAP in *. cbn [as_slice].
  rewrite wrap_id by (unfold fits; lia). unfold slice. rewrite drop_0, Z.sub_0_r.
  pose proof (copy_parts_spec parts 0 (replicate (Z.to_nat 62) 0)) as E.
  rewrite Z.add_0_l in E. apply E; [done|].
  change (zlen (replicate (Z.to_nat 62) 0)) with 62. lia.
Qed.

(** ** The session prefix *)

Lemma slice_enc v pad : slice 0 (zlen (enc v)) (enc v ++ pad) = enc v.
Proof. unfold slice, zlen. rewrite Z.sub_0_r, Nat2Z.id. apply take_app_length. Qed.

Lemma prefix_slice_new ns db :
  fits 64 ns -> fits 64 db -> prefix_slice (new_prefix ns db) = enc ns ++ enc db.
Proof.
  intros Hn Hd. unfold new_prefix, encode_session_prefix_to_array. unfold VARINT_1B_MAX.
  destruct ((ns <? 128) && (db <? 128)) eqn:E.
  - apply andb_true_iff in E as [H1%Z.ltb_lt H2%Z.ltb_lt]. unfold fits in *.
    rewrite !wrap_id by (unfold fits; lia). rewrite !enc_1 by (unfold VARINT_1B_MAX; lia). done.
  - clear E. rewrite !encode_u64_to_array_spec, !slice_enc by done.
    pose proof (enc_length ns Hn). pose proof (enc_length db Hd). unfold prefix_slice. cbn [len buf].
    rewrite wrap_id by (unfold fits; lia).
    assert ((if zlen (enc ns) + zlen (enc db) <? Z.of_nat MAX_SESSION_PREFIX_LEN
             then zlen (enc ns) + zlen (enc db) else Z.of_nat MAX_SESSION_PREFIX_LEN)
            = zlen (enc ns) + zlen (enc db)) as ->.
    { change (Z.of_nat MAX_SESSION_PREFIX_LEN) with 18.
      destruct (Z.ltb_spec (zlen (enc ns) + zlen (enc db)) 18); lia. }
    pose proof (copy_parts_spec [enc ns; enc db] 0 (replicate MAX_SESSION_PREFIX_LEN 0)) as E.
    cbn [copy_parts concat] in E. rewrite !Z.add_0_l, app_nil_r, zlen_app in E.
    unfold slice. rewrite drop_0, Z.sub_0_r, E; [done|lia|].
    change (zlen (replicate MAX_SESSION_PREFIX_LEN 0)) with 18. lia.
Qed.

Lemma encode_tagged_key_spec ns db tag payload :
  fits 64 ns -> fits 64 db ->
  as_slice (encode_tagged_key ns db tag payload) = enc ns ++ enc db ++ as_u8 tag :: payload.
Proof.
  intros Hn Hd. unfold encode_tagged_key, encode_with_session_prefix.
  rewrite build_key_spec, prefix_slice_new by done. cbn [concat]. rewrite app_nil_r.
  by rewrite <- app_assoc.
Qed.

Lemma split_behind (a b : list Z) : split_at_checked (zlen a) (a ++ b) = Some b.
Proof.
  unfold split_at_checked. rewrite zlen_app. pose proof (zlen_nonneg b).
  destruct (Z.leb_spec (zlen a) (zlen a + zlen b)); [|lia].
  unfold slice_from, zlen. by rewrite Nat2Z.id, drop_app_length.
Qed.

Lemma decode_prefix_enc ns db rest :
  fits 64 ns -> fits 64 db ->
  decode_session_prefix (enc ns ++ enc db ++ rest) = inl ((ns, db), zlen (enc ns) + zlen (enc db)).
Proof.
  intros Hn Hd. unfold decode_session_prefix, decode_varint.
  by rewrite decode_enc, split_behind, decode_enc by done.
Qed.

Lemma decode_prefix_canonical key ns db n :
  bytes_ok key -> decode_session_prefix key = inl ((ns, db), n) ->
  fits 64 ns /\ fits 64 db /\ n = zlen (enc ns) + zlen (enc db) /\
  exists rest, key = enc ns ++ enc db ++ rest.
Proof.
  intros Hk. unfold decode_session_prefix, decode_varint.
  destruct (decode_u64 key) as [[v1 n1]|[| ]] eqn:E1; try done.
  destruct (decode_canonical key v1 n1 Hk E1) as (F1 & -> & r1 & ->). rewrite split_behind.
  apply bytes_ok_app in Hk as [_ Hr].
  destruct (decode_u64 r1) as [[v2 n2]|[| ]] eqn:E2; try done.
  destruct (decode_canonical r1 v2 n2 Hr E2) as (F2 & -> & r2 & ->).
  intros [= <- <- <-]. split; [done|]. split; [done|]. split; [done|]. eauto.
Qed.

(** The fast path agrees with the general one. *)
Lemma decode_tagged_key_slow key : bytes_ok key -> decode_tagged_key key = decode_tagged_slow key.
Proof.
  intros Hk. destruct key as [|a [|b [|c p]]]; try done. cbn [decode_tagged_key].
  destruct (short_prefix a b) eqn:Es; [|done].
  apply andb_true_iff in Es as [Ha%Z.ltb_lt Hb%Z.ltb_lt]. unfold VARINT_1B_FIRST_BYTE_LIMIT in *.
  apply Forall_cons_1 in Hk as [Fa Hk]. apply Forall_cons_1 in Hk as [Fb _]. unfold fits in *.
  assert (decode_session_prefix (a :: b :: c :: p) = inl ((a, b), 2)) as E.
  { pose proof (decode_prefix_enc a b (c :: p)) as E. rewrite !enc_1 in E by (unfold VARINT_1B_MAX; lia).
    apply E; unfold fits; lia. }
  unfold decode_tagged_slow. rewrite E.
  by rewrite (split_behind [a; b] (c :: p) : split_at_checked 2 (a :: b :: c :: p) = Some (c :: p)).
Qed.

(** A stored key decodes to the namespace, database, tag and user key it
    was built from, through the short path and the general one alike; and every byte
    string that decodes is the stored form of what it decodes to, so two
    different keys never share a stored form. *)
Theorem tagged_key_roundtrip key ns db tag payload (Hk : bytes_ok key) :
  decode_tagged_key key = inl (ns, db, tag, payload) <->
    fits 64 ns /\ fits 64 db /\ key = as_slice (encode_tagged_key ns db tag payload).
Proof.
  rewrite decode_tagged_key_slow by done. unfold decode_tagged_slow. split.
  - destruct (decode_session_prefix key) as [[[ns' db'] n]|] eqn:E; [|done].
    destruct (decode_prefix_canonical _ _ _ _ Hk E) as (Fn & Fd & -> & rest & ->).
    rewrite app_assoc, <- zlen_app, split_behind. destruct rest as [|b rest]; [done|].
    destruct (from_u8 b) as [t|] eqn:Et; [|done]. intros [= <- <- <- <-].
    split; [done|]. split; [done|]. rewrite encode_tagged_key_spec by done.
    apply as_from_u8 in Et as ->. by rewrite <- app_assoc.
  - intros (Fn & Fd & ->). rewrite encode_tagged_key_spec, decode_prefix_enc by done.
    rewrite app_assoc, <- zlen_app, split_behind. by rewrite from_as_u8.
Qed.

Lemma tagged_key_roundtrip_witness :
  bytes_ok [0x80; 1; 5; 0x0C; 97; 98] /\
  decode_tagged_key [0x80; 1; 5; 0x0C; 97; 98] = inl (129, 5, ObjectEnvelope, [97; 98]).
Proof.
  assert (bytes_ok [0x80; 1; 5; 0x0C; 97; 98]) as Hk by (repeat constructor; (discriminate || reflexivity)).
  split; [exact Hk|]. apply (tagged_key_roundtrip _ _ _ _ _ Hk).
  split; [|split]; [split; vm_compute; congruence..|vm_compute; reflexivity].
Defined.

(** ** Sessions *)

(** Encodings are prefix-free. *)
Lemma enc_prefix_free a b x y :
  fits 64 a -> fits 64 b -> enc a ++ x = enc b ++ y -> a = b /\ x = y.
Proof.
  intros Ha Hb E. pose proof (decode_enc a x Ha) as D1. rewrite E, decode_enc in D1 by done.
  injection D1 as <- _. split; [done|]. by apply app_inv_head in E.
Qed.

(** Stripping a session's prefix from a stored key succeeds exactly for
    the keys of that session, and then yields their tag and user key: a key of
    one namespace or database is never seen by another. *)
Theorem session_isolation ns db ns' db' tag payload
    (Hn : fits 64 ns) (Hd : fits 64 db) (Hn' : fits 64 ns') (Hd' : fits 64 db') :
  strip_session_prefix (as_slice (encode_tagged_key ns db tag payload))
                       (prefix_slice (new_prefix ns' db')) =
    if decide ((ns, db) = (ns', db')) then Some (tag, payload) else None.
Proof.
  rewrite encode_tagged_key_spec, prefix_slice_new by done. unfold strip_session_prefix.
  case_decide as Hc.
  - injection Hc as <- <-. rewrite app_assoc, strip_prefix_app. by rewrite from_as_u8.
  - destruct (strip_prefix (enc ns' ++ enc db') (enc ns ++ enc db ++ as_u8 tag :: payload)) as [r|] eqn:E;
      [|done]. apply strip_prefix_Some in E. rewrite <- app_assoc in E.
    apply enc_prefix_free in E as [-> E]; [|done..]. apply enc_prefix_free in E as [-> _]; [|done..].
    done.
Qed.

Lemma session_isolation_witness :
  strip_session_prefix (as_slice (encode_tagged_key 1 300 String [107])) (prefix_slice (new_prefix 1 300))
    = Some (String, [107]) /\
  strip_session_prefix (as_slice (encode_tagged_key 1 300 String [107])) (prefix_slice (new_prefix 1 2))
    = None.
Proof.
  split.
  - apply (session_isolation 1 300 1 300 String [107]); unfold fits; lia.
  - apply (session_isolation 1 300 1 2 String [107]); unfold fits; lia.
Defined.

(** ** Order *)

Lemma lex_lt_app p q x y :
  lex_lt p q -> (forall z, q <> p ++ z) -> lex_lt (p ++ x) (q ++ y).
Proof.
  revert q. induction p as [|a p IH]; intros [|b q] Hl Hn; cbn in *; try done.
  - by destruct (Hn (b :: q)).
  - destruct Hl as [|[-> Hl]]; [by left|right]. split; [done|]. apply IH; [done|].
    intros z ->. by apply (Hn z).
Qed.

Lemma enc_app_lt a b x y :
  fits 64 a -> fits 64 b -> a < b -> lex_lt (enc a ++ x) (enc b ++ y).
Proof.
  intros Ha Hb Hlt. apply lex_lt_app; [by apply enc_lt|]. intros z E.
  rewrite <- (app_nil_r (enc b)) in E. apply enc_prefix_free in E as [? _]; [lia|done..].
Qed.

Lemma lex_lt_asym a b : lex_lt a b -> ~ lex_lt b a.
Proof. intros H1 H2. by apply (lex_lt_irrefl a), (lex_lt_trans a b a). Qed.

Lemma enc_app_lt_iff a b x y :
  fits 64 a -> fits 64 b ->
  lex_lt (enc a ++ x) (enc b ++ y) <-> a < b \/ (a = b /\ lex_lt x y).
Proof.
  intros Ha Hb. split.
  - intros H. destruct (Z.lt_trichotomy a b) as [|[->|Hgt]]; [by left| |].
    + right. split; [done|]. by apply lex_lt_app_l in H.
    + exfalso. by apply (lex_lt_asym _ _ H), enc_app_lt.
  - intros [?|[-> ?]]; [by apply enc_app_lt|by apply lex_lt_app_l].
Qed.

(** The byte order of stored keys is the lexicographic order of
    (namespace, database, tag byte, user key): scanning keys in byte order visits
    each database, and each kind of key in it, as one contiguous range. *)
Theorem tagged_key_order ns db tag p ns' db' tag' p'
    (Hn : fits 64 ns) (Hd : fits 64 db) (Hn' : fits 64 ns') (Hd' : fits 64 db') :
  lex_lt (as_slice (encode_tagged_key ns db tag p)) (as_slice (encode_tagged_key ns' db' tag' p')) <->
    ns < ns' \/ (ns = ns' /\ (db < db' \/ (db = db' /\
      (as_u8 tag < as_u8 tag' \/ (as_u8 tag = as_u8 tag' /\ lex_lt p p'))))).
Proof. rewrite !encode_tagged_key_spec, !enc_app_lt_iff by done. done. Qed.

Lemma tagged_key_order_witness :
  lex_lt (as_slice (encode_tagged_key 7 127 VectorRegistry [255]))
         (as_slice (encode_tagged_key 7 128 String [])).
Proof.
  apply (tagged_key_order 7 127 VectorRegistry [255] 7 128 String []);
    [unfold fits; lia..|]. right. split; [reflexivity|]. left. lia.
Defined.

(** ** Reading the tag without decoding *)

Lemma head_len v : fits 64 v ->
  exists h t, enc v = h :: t /\ varint_len_from_byte h = Some (zlen (enc v)) /\
    (h < VARINT_1B_FIRST_BYTE_LIMIT -> 0 <= v < 128 /\ enc v = [v] /\ h = v).
Proof.
  intros Hv. destruct (enc_head v Hv) as (h & t & E & H1 & H2 & H3 & H4 & H5 & Hl).
  exists h, t. split; [done|]. pose proof (enc_length v Hv). unfold varint_len_from_byte. rewrite Hl.
  destruct (Z.eqb_spec (zlen (enc v)) 0); [lia|]. split; [done|].
  unfold VARINT_1B_FIRST_BYTE_LIMIT, VARINT_1B_MAX, VARINT_2B_MAX, VARINT_3B_MAX, VARINT_4B_MAX,
    fits in *. intros Hh.
  assert (0 <= v < 128) as Hv1 by lia. rewrite enc_1 in E by (unfold VARINT_1B_MAX; lia).
  injection E as <- <-. rewrite enc_1 by (unfold VARINT_1B_MAX; lia). done.
Qed.

Lemma prefix_len_enc ns db rest :
  fits 64 ns -> fits 64 db ->
  session_prefix_len_from_slice (enc ns ++ enc db ++ rest) = Some (zlen (enc ns) + zlen (enc db)).
Proof.
  intros Hn Hd. destruct (head_len ns Hn) as (h & t & E & L & S1).
  destruct (head_len db Hd) as (h' & t' & E' & L' & S2).
  assert (prefix_len_slow (enc ns ++ enc db ++ rest) = Some (zlen (enc ns) + zlen (enc db))) as Hslow.
  { unfold prefix_len_slow. rewrite E at 1. cbn [app]. rewrite L, split_behind.
    rewrite E' at 1. cbn [app]. rewrite L', !zlen_app. pose proof (zlen_nonneg rest).
    destruct (Z.leb_spec (zlen (enc ns) + zlen (enc db)) (zlen (enc ns) + (zlen (enc db) + zlen rest)));
      [done|lia]. }
  unfold session_prefix_len_from_slice.
  destruct (enc ns ++ enc db ++ rest) as [|a [|b r]] eqn:Ek; [done..|].
  destruct (short_prefix a b) eqn:Es; [|done].
  apply andb_true_iff in Es as [Ha%Z.ltb_lt Hb%Z.ltb_lt].
  rewrite E in Ek. injection Ek as -> Ek. destruct (S1 Ha) as (_ & E1 & _).
  rewrite E1 in E. injection E as <- <-. cbn [app] in Ek. rewrite E' in Ek. injection Ek as -> _.
  destruct (S2 Hb) as (_ & E2 & _). rewrite E1, E2. done.
Qed.

(** The tag and the metadata user key of a stored key can be read without
    decoding its namespace and database, and the results are the encoded ones. *)
Theorem peek_key ns db tag payload (Hn : fits 64 ns) (Hd : fits 64 db) :
  let key := as_slice (encode_tagged_key ns db tag payload) in
  decode_tag key = Some tag /\
  decode_meta_user_key key = (if decide (tag = Meta) then Some payload else None) /\
  session_prefix_len_from_slice key = Some (zlen (prefix_slice (new_prefix ns db))).
Proof.
  cbv zeta. rewrite encode_tagged_key_spec, prefix_slice_new, prefix_len_enc, zlen_app by done.
  assert (behind_prefix (enc ns ++ enc db ++ as_u8 tag :: payload) = Some (as_u8 tag :: payload)) as Hb.
  { unfold behind_prefix. rewrite prefix_len_enc by done.
    by rewrite app_assoc, <- zlen_app, split_behind. }
  assert (forall b, (as_u8 tag =? as_u8 Meta) = b -> (if b then Some payload else None) =
            (if decide (tag = Meta) then Some payload else None)) as Hm.
  { intros b <-. by destruct tag. }
  destruct (head_len ns Hn) as (h & t & E & _ & S1). destruct (head_len db Hd) as (h' & t' & E' & _ & S2).
  unfold decode_tag, decode_meta_user_key. rewrite Hb, from_as_u8.
  destruct (enc ns ++ enc db ++ as_u8 tag :: payload) as [|a [|b [|c r]]] eqn:Ek;
    try (split; [done|]; split; [by apply Hm|done]).
  destruct (short_prefix a b) eqn:Es; [|split; [done|]; split; [by apply Hm|done]].
  apply andb_true_iff in Es as [Ha%Z.ltb_lt Hb'%Z.ltb_lt].
  rewrite E in Ek. injection Ek as -> Ek. destruct (S1 Ha) as (_ & E1 & _).
  rewrite E1 in E. injection E as <- <-. cbn [app] in Ek. rewrite E' in Ek. injection Ek as -> Ek.
  destruct (S2 Hb') as (_ & E2 & _). rewrite E2 in E'. injection E' as <- <-. cbn [app] in Ek.
  injection Ek as <- <-. rewrite from_as_u8. split; [done|]. split; [by apply Hm|done].
Qed.

Lemma peek_key_witness :
  decode_tag (as_slice (encode_tagged_key 70000 3 Meta [1; 2])) = Some Meta /\
  decode_meta_user_key (as_slice (encode_tagged_key 70000 3 Meta [1; 2])) = Some [1; 2].
Proof.
  destruct (peek_key 70000 3 Meta [1; 2]) as (H1 & H2 & _); [unfold fits; lia..|].
  split; [exact H1|exact H2].
Defined.

End KeySpec.

Module MetaSpec.
Import Tag Err MetaVal.

Record wf (v : MetaValue) : Prop := {
  wf_key : fits 64 (key_id v);
  wf_size : fits 64 (size v);
  wf_expiry : i64_min <= next_expiry v <= i64_max;
  wf_reserved : bytes_ok (reserved v) /\ length (reserved v) = 7%nat /\ head (reserved v) = Some 2
}.

Lemma of_to_i64 x : fits 64 x -> of_i64 (to_i64 x) = x.
Proof.
  unfold fits, to_i64, of_i64, wrap. intros H. destruct (Z.ltb_spec x (2 ^ 63)); euclid.
Qed.

Lemma to_i64_range x : fits 64 x -> i64_min <= to_i64 x <= i64_max.
Proof.
  unfold fits, to_i64, i64_min, i64_max. intros H. destruct (Z.ltb_spec x (2 ^ 63)); lia.
Qed.

Lemma be8 x : fits 64 x -> exists c0 c1 c2 c3 c4 c5 c6 c7,
  be_bytes 8 x = [c0; c1; c2; c3; c4; c5; c6; c7] /\ be_num [c0; c1; c2; c3; c4; c5; c6; c7] = x.
Proof.
  intros Hx. pose proof (length_be_bytes 8 x) as Hl.
  assert (be_num (be_bytes 8 x) = x) as E by (rewrite be_num_be_bytes; by apply Z.mod_small).
  destruct (be_bytes 8 x) as [|? [|? [|? [|? [|? [|? [|? [|? [|]]]]]]]]] ; try done.
  repeat eexists. done.
Qed.

Lemma slice_cat (a b c : Z) (l : list Z) :
  0 <= a <= b -> b <= c -> slice a b l ++ slice b c l = slice a c l.
Proof.
  intros Ha Hb. unfold slice.
  replace (Z.to_nat b) with (Z.to_nat a + Z.to_nat (b - a))%nat by lia.
  rewrite <- drop_drop. replace (Z.to_nat (c - a)) with (Z.to_nat (b - a) + Z.to_nat (c - b))%nat by lia.
  by rewrite take_take_drop.
Qed.

Lemma slice_one (i : Z) (l : list Z) : 0 <= i < zlen l -> slice i (i + 1) l = [nth (Z.to_nat i) l 0].
Proof.
  intros Hi. unfold slice, zlen in *. replace (i + 1 - i) with 1 by lia.
  rewrite <- (Nat.add_0_r (Z.to_nat i)) at 2. rewrite <- nth_skipn.
  assert (length (drop (Z.to_nat i) l) <> 0%nat) as Hl by (rewrite length_drop; lia).
  by destruct (drop (Z.to_nat i) l).
Qed.

Lemma read_be_bytes s off :
  bytes_ok s -> 0 <= off -> off + 8 <= zlen s ->
  be_bytes 8 (read_be_u64_at s off) = slice off (off + 8) s /\ fits 64 (read_be_u64_at s off).
Proof.
  intros Hs Ho Hl. unfold read_be_u64_at. pose proof (bytes_ok_slice off (off + 8) s Hs) as Hok.
  pose proof (zlen_slice off (off + 8) s) as Hz. unfold zlen in *.
  assert (length (slice off (off + 8) s) = 8%nat) as H8 by lia.
  split; [rewrite <- H8 at 1; by apply be_bytes_be_num|].
  pose proof (be_num_bound _ Hok) as Hb. rewrite H8 in Hb. done.
Qed.

(** Collection metadata survives its 32-byte form: what is written reads
    back as the same identifier, type, reserved bytes, size and expiry, negative
    expiries included; and whatever reads back is written as the bytes read. *)
Theorem meta_roundtrip v s (W : wf v) (Hs : bytes_ok s) :
  from_slice (to_bytes v ++ s) = inl v /\
  (forall v', from_slice s = inl v' -> wf v' /\ slice 0 META_VALUE_SIZE s = to_bytes v').
Proof.
  split.
  - destruct W as [Hk Hz He (Hr & Hl & Hh)]. destruct v as [k ty r z e].
    cbn [key_id collection_type reserved size next_expiry] in *.
    destruct r as [|r0 [|r1 [|r2 [|r3 [|r4 [|r5 [|r6 [|]]]]]]]]; try done. injection Hh as ->.
    unfold from_slice, to_bytes. cbn [key_id collection_type reserved size next_expiry].
    destruct (be8 k Hk) as (a0 & a1 & a2 & a3 & a4 & a5 & a6 & a7 & -> & E1).
    destruct (be8 z Hz) as (b0 & b1 & b2 & b3 & b4 & b5 & b6 & b7 & -> & E2).
    destruct (be8 (of_i64 e)) as (c0 & c1 & c2 & c3 & c4 & c5 & c6 & c7 & -> & E3);
      [by apply wrap_fits|].
    cbn [app nth]. rewrite !zlen_cons. pose proof (zlen_nonneg s). unfold META_VALUE_SIZE.
    bit_split; [lia|]. rewrite object_from_as_u8. unfold read_be_u64_at, slice.
    change (encoding_try_from_u8 2) with true.
    change (Z.to_nat (0 + 8 - 0)) with 8%nat. change (Z.to_nat (16 + 8 - 16)) with 8%nat.
    change (Z.to_nat (24 + 8 - 24)) with 8%nat. change (Z.to_nat (16 - 9)) with 7%nat.
    change (Z.to_nat 0) with 0%nat. change (Z.to_nat 9) with 9%nat.
    change (Z.to_nat 16) with 16%nat. change (Z.to_nat 24) with 24%nat. cbn [negb drop take].
    by rewrite take_0, E1, E2, E3, to_of_i64.
  - intros v'. unfold from_slice. destruct (Z.ltb_spec (zlen s) META_VALUE_SIZE) as [|Hl]; [done|].
    unfold META_VALUE_SIZE in *.
    destruct (object_from_u8 (nth 8 s 0)) as [ty|] eqn:Et; [|done].
    apply object_as_from_u8 in Et. unfold encoding_try_from_u8.
    destruct (Z.eqb_spec (nth 9 s 0) 2) as [Ee|]; [|done]. intros [= <-].
    destruct (read_be_bytes s 0 Hs) as [R1 F1]; [lia..|].
    destruct (read_be_bytes s 16 Hs) as [R2 F2]; [lia..|].
    destruct (read_be_bytes s 24 Hs) as [R3 F3]; [lia..|]. split.
    + pose proof (zlen_slice 9 16 s). split; cbn; [done|done|by apply to_i64_range|].
      split; [by apply bytes_ok_slice|]. split; [unfold zlen in *; lia|].
      change 9 with (9 + 0) at 1. rewrite <- (slice_cat 9 10 16) by lia.
      rewrite (slice_one 9) by lia. cbn. by f_equal.
    + unfold to_bytes. cbn [key_id collection_type reserved size next_expiry].
      rewrite R1, of_to_i64, R3, R2, <- Et by done. change [nth 8 s 0] with [nth (Z.to_nat 8) s 0].
      rewrite <- slice_one by lia. by rewrite !slice_cat by lia.
Qed.

Lemma meta_roundtrip_witness :
  from_slice (to_bytes (mkMeta 9 Hash [2; 0; 0; 0; 0; 0; 0] 3 (-5)) ++ [7]) =
    inl (mkMeta 9 Hash [2; 0; 0; 0; 0; 0; 0] 3 (-5)).
Proof.
  refine (proj1 (meta_roundtrip (mkMeta 9 Hash [2; 0; 0; 0; 0; 0; 0] 3 (-5)) [7] _ _)).
  - split; cbn; [unfold fits; lia..|unfold i64_min, i64_max; lia|].
    split; [|split; reflexivity]. repeat constructor; lia.
  - repeat constructor; lia.
Defined.

Lemma i64_roundtrip v rest :
  i64_min <= v <= i64_max -> I64Codec.decode (I64Codec.encode v ++ rest) = Some v.
Proof.
  intros Hv. unfold I64Codec.decode, I64Codec.encode.
  destruct (be8 (of_i64 v)) as (c0 & c1 & c2 & c3 & c4 & c5 & c6 & c7 & -> & E); [by apply wrap_fits|].
  cbn [app take]. rewrite !zlen_cons. pose proof (zlen_nonneg rest). bit_split; [|lia].
  by rewrite take_0, E, to_of_i64.
Qed.

End MetaSpec.
