(* ===== verification/Reviv.v ===== *)
(** * The revivification pool ([wedb/wreviv/src])

    Deleted records are kept in a pool of reusable slots.  [FreeRecord]: one slot,
    an atomic word packing a 48-bit address and a 16-bit size ([record.rs]).
    [Bin]: a fixed array of slots for sizes up to a bound, with a counter of the
    occupied ones and an insertion cursor ([bin.rs]).  [Pool]: bins of increasing
    sizes, an optional bin for records too large for the 16-bit size, and
    statistics ([pool.rs]).  Every cell is an atomic word named by [loc]; a bin
    is its position in the pool and its constants. *)

From stdpp Require Import base list numbers option tactics.
From Stdlib Require Import ZArith Lia Bool.
From S2P Require Import Prelude Base Atomic.

Local Open Scope prog_scope.

Inductive loc : Type :=
| Slot (bin i : nat)
| ActiveCount (bin : nat)
| Cursor (bin : nat)
| PutCount | TakeCount | HitCount | DropCount
| SuspendCount.

#[export] Instance loc_eq_dec : EqDecision loc.
Proof. solve_decision. Defined.

Module FreeRecord.

Definition SIZE_BITS : Z := 16.
Definition SIZE_SHIFT : Z := Addr.ADDRESS_BITS.
Definition SIZE_MASK : Z := Z.shiftl 1 SIZE_BITS - 1.
Definition MAX_INLINE_SIZE : Z := SIZE_MASK.
Definition RECORD_ALIGNMENT : Z := 8.
Definition EMPTY_WORD : Z := Addr.INVALID_ADDRESS.

Inductive SetStatus : Type := InsertedEmpty | ReplacedExpired | Occupied.

Definition pack (address size : Z) : Z :=
  Z.lor (wrap 64 (Z.shiftl (Z.land size SIZE_MASK) SIZE_SHIFT)) (Z.land address Addr.ADDRESS_MASK).
Definition raw_address (raw : Z) : Z := Z.land raw Addr.ADDRESS_MASK.
Definition raw_size (raw : Z) : Z := wrap 32 (Z.shiftr raw SIZE_SHIFT).
Definition unpack (raw : Z) : Z * Z := (raw_address raw, raw_size raw).

Definition validate_addr (address min_address : Z) : bool :=
  negb ((address <? min_address) || (address =? 0) || (Addr.ADDRESS_MASK <? address)).
Definition validate (address size min_address : Z) : bool :=
  validate_addr address min_address && negb (size =? 0) && (size <=? MAX_INLINE_SIZE).

Definition raw (l : loc) : prog loc Z := load l.

Definition cas_store (l : loc) (new_val min_address : Z) : prog loc SetStatus :=
  let* current := load l in
  let is_empty := current =? EMPTY_WORD in
  if negb is_empty && (min_address <=? raw_address current) then Ret Occupied
  else
    let* (ok, _) := compare_exchange l current new_val in
    if negb ok then Ret Occupied
    else if is_empty then Ret InsertedEmpty else Ret ReplacedExpired.

Definition set (l : loc) (address size min_address : Z) : prog loc SetStatus :=
  if negb (validate address size min_address) then Ret Occupied
  else cas_store l (pack address size) min_address.

Definition set_addr (l : loc) (address min_address : Z) : prog loc SetStatus :=
  if negb (validate_addr address min_address) then Ret Occupied
  else cas_store l (pack address 0) min_address.

Definition try_take_exact (l : loc) (expected_raw : Z) : prog loc bool :=
  let* (ok, _) := compare_exchange l expected_raw EMPTY_WORD in Ret ok.

(** The loop of [try_purge_below].  A round that fails is one in which the word was
    changed meanwhile, or the weak exchange failed for no reason; after [fuel] such
    rounds the model gives up and leaves the word alone, where the code goes on. *)
Fixpoint purge_loop (fuel : nat) (l : loc) (min_address current : Z) : prog loc bool :=
  match fuel with
  | O => Ret false
  | S fuel =>
      if current =? EMPTY_WORD then Ret false
      else if min_address <=? raw_address current then Ret false
      else
        let* (ok, actual) := compare_exchange_weak l current EMPTY_WORD in
        if ok then Ret true else purge_loop fuel l min_address actual
  end.

Definition try_purge_below (fuel : nat) (l : loc) (min_address : Z) : prog loc bool :=
  let* current := load l in purge_loop fuel l min_address current.

Definition clear (l : loc) : prog loc unit := store l EMPTY_WORD.

End FreeRecord.

Module Bin.
Import FreeRecord.

Definition USE_FIRST_FIT : Z := 0.
Definition BEST_FIT_SCAN_ALL : Z := u64_max.
Definition TAKE_RETRY_ROUNDS : nat := 4.

(** [id]: the cells of this bin; [capacity]: the length of [slots]. *)
Record FreeRecordBin : Type := mkBin {
  id : nat; capacity : nat; best_fit_scan_limit : Z; max_size : Z
}.

(** [RecordSizeReader]: the size of the record at an address, when it can be
    told. *)
Abbreviation RecordSizeReader := (Z -> option Z).

Definition with_scan_limit (id : nat) (max_size : Z) (capacity : nat) (best_fit_scan_limit : Z)
  : FreeRecordBin :=
  mkBin id capacity (Z.min best_fit_scan_limit (Z.of_nat capacity)) (Z.min max_size MAX_INLINE_SIZE).

Definition new_oversize (id : nat) (max_size : Z) (capacity : nat) : FreeRecordBin :=
  mkBin id capacity (Z.of_nat capacity) max_size.

Definition is_oversize (b : FreeRecordBin) : bool := MAX_INLINE_SIZE <? max_size b.

(** The cells of [slots]. *)
Definition slots (b : FreeRecordBin) : list loc := map (Slot (id b)) (seq 0 (capacity b)).

Definition len (b : FreeRecordBin) : prog loc Z :=
  let* n := load (ActiveCount (id b)) in Ret (Z.max (to_i64 n) 0).

Definition is_empty (b : FreeRecordBin) : prog loc bool :=
  let* n := load (ActiveCount (id b)) in Ret (to_i64 n <=? 0).

Definition dec_count (b : FreeRecordBin) : prog loc unit :=
  let* _ := fetch_sub (ActiveCount (id b)) 1 in Ret tt.

Fixpoint put_loop (b : FreeRecordBin) (address size min_address : Z) (ls : list loc)
  : prog loc SetStatus :=
  match ls with
  | [] => Ret Occupied
  | slot :: rest =>
      let* status := if is_oversize b then set_addr slot address min_address
                     else set slot address size min_address in
      match status with
      | InsertedEmpty => let* _ := fetch_add (ActiveCount (id b)) 1 in Ret InsertedEmpty
      | ReplacedExpired => Ret ReplacedExpired
      | Occupied => put_loop b address size min_address rest
      end
  end.

Definition put_ok (b : FreeRecordBin) (address size min_address : Z) : bool :=
  if is_oversize b
  then validate_addr address min_address && negb (size =? 0) && (size <=? max_size b)
  else validate address size min_address && (size <=? max_size b).

Definition put (b : FreeRecordBin) (address size min_address : Z) : prog loc SetStatus :=
  if negb (put_ok b address size min_address) then Ret Occupied
  else if (capacity b =? 0)%nat then Ret Occupied
  else
    let* c := fetch_add (Cursor (id b)) 1 in
    let start := Z.to_nat (c mod Z.of_nat (capacity b)) in
    put_loop b address size min_address (drop start (slots b) ++ take start (slots b)).

Definition size_at (current : Z) (read : option RecordSizeReader) : Z :=
  match read with
  | Some f => default 0 (f (raw_address current))
  | None => raw_size current
  end.

(** A hit with its address and size, and the number of purged slots. *)
Abbreviation taken := (option (Z * Z) * Z)%type.

(** One pass over the slots: a hit, or whether a candidate was seen. *)
Fixpoint first_fit_round (b : FreeRecordBin) (required_size min_reviv_addr min_eligible_addr : Z)
    (read : option RecordSizeReader) (ls : list loc) (found_candidate : bool) (purged : Z)
  : prog loc (option (Z * Z) * bool * Z) :=
  match ls with
  | [] => Ret (None, found_candidate, purged)
  | slot :: rest =>
      let next := first_fit_round b required_size min_reviv_addr min_eligible_addr read rest in
      let* current := raw slot in
      if current =? EMPTY_WORD then next found_candidate purged
      else
        let addr := raw_address current in
        if addr <? min_reviv_addr then
          let* ok := try_take_exact slot current in
          if ok then dec_count b ;; next found_candidate (purged + 1)
          else next found_candidate purged
        else if addr <? min_eligible_addr then next found_candidate purged
        else
          let size := size_at current read in
          if required_size <=? size then
            let* ok := try_take_exact slot current in
            if ok then dec_count b ;; Ret (Some (addr, size), true, purged)
            else next true purged
          else next found_candidate purged
  end.

Fixpoint first_fit_rounds (rounds : nat) (b : FreeRecordBin)
    (required_size min_reviv_addr min_eligible_addr : Z) (read : option RecordSizeReader) (purged : Z)
  : prog loc taken :=
  match rounds with
  | O => Ret (None, purged)
  | S rounds =>
      let* (hit, found_candidate, purged) :=
        first_fit_round b required_size min_reviv_addr min_eligible_addr read (slots b) false purged in
      match hit with
      | Some r => Ret (Some r, purged)
      | None =>
          if negb found_candidate then Ret (None, purged)
          else first_fit_rounds rounds b required_size min_reviv_addr min_eligible_addr read purged
      end
  end.

Definition first_fit (b : FreeRecordBin) (required_size min_reviv_addr min_eligible_addr : Z)
    (read : option RecordSizeReader) : prog loc taken :=
  let* empty := is_empty b in
  if empty || (capacity b =? 0)%nat then Ret (None, 0)
  else first_fit_rounds TAKE_RETRY_ROUNDS b required_size min_reviv_addr min_eligible_addr read 0.

Definition take_first_fit (b : FreeRecordBin) (required_size min_reviv_addr min_eligible_addr : Z)
  : prog loc taken := first_fit b required_size min_reviv_addr min_eligible_addr None.

(** The variables of the scan. *)
Record Scan : Type := mkScan {
  best_idx : option nat; best_size : Z; best_raw : Z; first_fit_idx : option nat; purged : Z
}.

Definition start_scan (purged : Z) : Scan := mkScan None u32_max 0 None purged.

(** The candidate at [i]: the new variables and whether the scan ends here. *)
Definition consider (s : Scan) (i : nat) (current size required_size : Z) : Scan * bool :=
  if required_size <=? size then
    let ff := match first_fit_idx s with None => Some i | Some _ => first_fit_idx s end in
    if size =? required_size then (mkScan (Some i) size current ff (purged s), true)
    else if size <? best_size s then (mkScan (Some i) size current ff (purged s), false)
    else (mkScan (best_idx s) (best_size s) (best_raw s) ff (purged s), false)
  else (s, false).

Definition scan_full (s : Scan) (i : nat) (local_scan_limit : Z) : bool :=
  match first_fit_idx s with
  | Some ff_idx => local_scan_limit <=? Z.of_nat (i - ff_idx)
  | None => false
  end.

Fixpoint best_fit_scan (b : FreeRecordBin) (required_size min_reviv_addr min_eligible_addr : Z)
    (local_scan_limit : Z) (read : option RecordSizeReader) (idxs : list nat) (s : Scan)
  : prog loc Scan :=
  match idxs with
  | [] => Ret s
  | i :: rest =>
      let next s :=
        if scan_full s i local_scan_limit then Ret s
        else best_fit_scan b required_size min_reviv_addr min_eligible_addr local_scan_limit read rest s in
      let* current := raw (Slot (id b) i) in
      if current =? EMPTY_WORD then next s
      else
        let addr := raw_address current in
        if addr <? min_reviv_addr then
          let* ok := try_take_exact (Slot (id b) i) current in
          if ok then dec_count b ;; next (mkScan (best_idx s) (best_size s) (best_raw s) (first_fit_idx s) (purged s + 1))
          else next s
        else if addr <? min_eligible_addr then next s
        else
          let '(s, stop) := consider s i current (size_at current read) required_size in
          if stop then Ret s else next s
  end.

(** The retry loop; [n] is the logarithm of the scan limit, which each retry
    halves. *)
Fixpoint best_fit_loop (n : nat) (b : FreeRecordBin)
    (required_size min_reviv_addr min_eligible_addr : Z) (local_scan_limit : Z)
    (read : option RecordSizeReader) (purged_before : Z) : prog loc taken :=
  let* s := best_fit_scan b required_size min_reviv_addr min_eligible_addr local_scan_limit read
              (seq 0 (capacity b)) (start_scan purged_before) in
  match best_idx s with
  | None => Ret (None, purged s)
  | Some idx =>
      let* ok := try_take_exact (Slot (id b) idx) (best_raw s) in
      if ok then dec_count b ;; Ret (Some (raw_address (best_raw s), best_size s), purged s)
      else
        let local_scan_limit := local_scan_limit / 2 in
        let fallback :=
          let* (res, p) := first_fit b required_size min_reviv_addr min_eligible_addr read in
          Ret (res, purged s + p) in
        if local_scan_limit <=? 1 then fallback
        else match n with
             | O => fallback
             | S n => best_fit_loop n b required_size min_reviv_addr min_eligible_addr
                        local_scan_limit read (purged s)
             end
  end.

Definition best_fit (b : FreeRecordBin) (required_size min_reviv_addr min_eligible_addr : Z)
    (scan_limit : Z) (read : option RecordSizeReader) : prog loc taken :=
  let* empty := is_empty b in
  if empty || (capacity b =? 0)%nat then Ret (None, 0)
  else if scan_limit =? USE_FIRST_FIT
  then first_fit b required_size min_reviv_addr min_eligible_addr read
  else best_fit_loop (Z.to_nat (Z.log2 scan_limit)) b required_size min_reviv_addr min_eligible_addr
         scan_limit read 0.

Definition take_best_fit (b : FreeRecordBin) (required_size min_reviv_addr min_eligible_addr : Z)
  : prog loc taken :=
  best_fit b required_size min_reviv_addr min_eligible_addr (best_fit_scan_limit b) None.

Definition take_oversize (b : FreeRecordBin) (required_size min_reviv_addr min_eligible_addr : Z)
    (read : RecordSizeReader) : prog loc taken :=
  best_fit b required_size min_reviv_addr min_eligible_addr (best_fit_scan_limit b) (Some read).

Fixpoint purge_slots (fuel : nat) (b : FreeRecordBin) (min_address : Z) (ls : list loc) (purged : Z)
  : prog loc Z :=
  match ls with
  | [] => Ret purged
  | slot :: rest =>
      let* ok := try_purge_below fuel slot min_address in
      if ok then dec_count b ;; purge_slots fuel b min_address rest (purged + 1)
      else purge_slots fuel b min_address rest purged
  end.

Definition purge_below (fuel : nat) (b : FreeRecordBin) (min_address : Z) : prog loc Z :=
  let* empty := is_empty b in
  if empty then Ret 0 else purge_slots fuel b min_address (slots b) 0.

Fixpoint clear_slots (ls : list loc) : prog loc unit :=
  match ls with
  | [] => Ret tt
  | slot :: rest => FreeRecord.clear slot ;; clear_slots rest
  end.

Definition clear (b : FreeRecordBin) : prog loc unit :=
  clear_slots (slots b) ;; store (ActiveCount (id b)) 0.

(** Each retry has one unit of fuel. *)
Lemma halving_fuel limit :
  1 < limit / 2 -> Z.to_nat (Z.log2 limit) = S (Z.to_nat (Z.log2 (limit / 2))).
Proof.
  intros H. assert (4 <= limit) as Hl by euclid.
  pose proof (Z.log2_le_mono 4 limit Hl) as H4. change (Z.log2 4) with 2 in H4.
  rewrite <- Z.div2_div, Z.div2_spec, Z.log2_shiftr by lia. lia.
Qed.

End Bin.

Module Pool.
Import FreeRecord Bin.

Inductive PoolError : Type :=
| EmptyBinSizes | InvalidCapacity | UnsortedBinSizes | SizeOverflow (size : Z).

Definition MAX_ALIGNED_BIN_SIZE : Z := MAX_INLINE_SIZE - MAX_INLINE_SIZE mod RECORD_ALIGNMENT.
Definition DEFAULT_BIN_SIZES : list Z :=
  [16; 32; 64; 128; 256; 512; 1024; 2048; 4096; 8192; 16384; 32768; MAX_ALIGNED_BIN_SIZE].
Definition BINS_TO_SEARCH : nat := 1.
Definition DEFAULT_BIN_CAPACITY : nat := 256.
Definition SUSPEND_DISABLED : Z := -1.

Record Oversize : Type := mkOversize { bin : FreeRecordBin; read_size : RecordSizeReader }.
Record FreeRecordPool : Type := mkPool { bins : list FreeRecordBin; oversize : option Oversize }.

Fixpoint check_sizes (bin_sizes : list Z) (prev : Z) : option PoolError :=
  match bin_sizes with
  | [] => None
  | size :: rest =>
      if (size =? 0) || (size <=? prev) then Some UnsortedBinSizes
      else if MAX_INLINE_SIZE <? size then Some (SizeOverflow size)
      else check_sizes rest size
  end.

(** The pool and the initial contents of its cells. *)
Definition build (bin_sizes : list Z) (bin_capacity : nat) (best_fit_scan_limit : Z)
    (enable_revivification : bool) : (FreeRecordPool * mem loc) + PoolError :=
  if (length bin_sizes =? 0)%nat then inr EmptyBinSizes
  else if (bin_capacity =? 0)%nat then inr InvalidCapacity
  else match check_sizes bin_sizes 0 with
       | Some e => inr e
       | None =>
           inl (mkPool (imap (fun i s => with_scan_limit i s bin_capacity best_fit_scan_limit) bin_sizes)
                       None,
                upd (fun _ => 0) SuspendCount
                    (if enable_revivification then 0 else of_i64 SUSPEND_DISABLED))
       end.

Definition new (enable_revivification : bool) : (FreeRecordPool * mem loc) + PoolError :=
  build DEFAULT_BIN_SIZES DEFAULT_BIN_CAPACITY BEST_FIT_SCAN_ALL enable_revivification.

Definition with_bin_sizes_and_scan_limit (bin_sizes : list Z) (bin_capacity : nat)
    (best_fit_scan_limit : Z) : (FreeRecordPool * mem loc) + PoolError :=
  build bin_sizes bin_capacity best_fit_scan_limit true.

Definition with_oversize (p : FreeRecordPool) (max_size : Z) (read_size : RecordSizeReader)
  : FreeRecordPool :=
  mkPool (bins p)
    (Some (mkOversize (new_oversize (length (bins p)) max_size DEFAULT_BIN_CAPACITY) read_size)).

Definition pause : prog loc unit := let* _ := fetch_sub SuspendCount 1 in Ret tt.
Definition resume : prog loc unit := let* _ := fetch_add SuspendCount 1 in Ret tt.
Definition is_enabled : prog loc bool := let* n := load SuspendCount in Ret (n =? 0).

Definition count_drop (n : Z) : prog loc unit := let* _ := fetch_add DropCount n in Ret tt.

(** The number of leading bins below [size]. *)
Fixpoint partition_point (f : FreeRecordBin -> bool) (l : list FreeRecordBin) : nat :=
  match l with
  | [] => 0
  | b :: rest => if f b then S (partition_point f rest) else 0
  end.

Definition find_bin_index (p : FreeRecordPool) (size : Z) : option nat :=
  let idx := partition_point (fun b => max_size b <? size) (bins p) in
  if (idx <? length (bins p))%nat then Some idx else None.

Definition search_window (p : FreeRecordPool) (start_bin : nat) : list FreeRecordBin :=
  let e := Nat.min (start_bin + 1 + BINS_TO_SEARCH) (length (bins p)) in
  take (e - start_bin) (drop start_bin (bins p)).

Definition put_oversize (p : FreeRecordPool) (address size min_address : Z) : prog loc bool :=
  match oversize p with
  | None => count_drop 1 ;; Ret false
  | Some arm =>
      let* status := Bin.put (bin arm) address size min_address in
      match status with
      | InsertedEmpty => Ret true
      | ReplacedExpired => count_drop 1 ;; Ret true
      | Occupied => count_drop 1 ;; Ret false
      end
  end.

Fixpoint put_window (bs : list FreeRecordBin) (address size min_address : Z) : prog loc bool :=
  match bs with
  | [] => count_drop 1 ;; Ret false
  | b :: rest =>
      let* status := Bin.put b address size min_address in
      match status with
      | InsertedEmpty => Ret true
      | ReplacedExpired => count_drop 1 ;; Ret true
      | Occupied => put_window rest address size min_address
      end
  end.

Definition put (p : FreeRecordPool) (address size min_address : Z) : prog loc bool :=
  let* _ := fetch_add PutCount 1 in
  if MAX_INLINE_SIZE <? size then put_oversize p address size min_address
  else if negb (validate address size min_address) then count_drop 1 ;; Ret false
  else match find_bin_index p size with
       | None => count_drop 1 ;; Ret false
       | Some bin_idx => put_window (search_window p bin_idx) address size min_address
       end.

(** The statistics behind one bin's answer. *)
Definition account (r : taken) : prog loc (option (Z * Z)) :=
  let '(res, purged) := r in
  (if 0 <? purged then count_drop purged else Ret tt) ;;
  match res with
  | Some hit => let* _ := fetch_add HitCount 1 in Ret (Some hit)
  | None => Ret None
  end.

Definition take_oversize (p : FreeRecordPool) (required_size min_reviv_addr min_eligible_addr : Z)
  : prog loc (option (Z * Z)) :=
  match oversize p with
  | None => Ret None
  | Some arm =>
      if max_size (bin arm) <? required_size then Ret None
      else
        let* r := Bin.take_oversize (bin arm) required_size min_reviv_addr min_eligible_addr
                    (read_size arm) in
        account r
  end.

Fixpoint take_window (bs : list FreeRecordBin) (required_size min_reviv_addr min_eligible_addr : Z)
  : prog loc (option (Z * Z)) :=
  match bs with
  | [] => Ret None
  | b :: rest =>
      let* r := take_best_fit b required_size min_reviv_addr min_eligible_addr in
      let* res := account r in
      match res with
      | Some hit => Ret (Some hit)
      | None => take_window rest required_size min_reviv_addr min_eligible_addr
      end
  end.

Definition take (p : FreeRecordPool) (required_size min_reviv_addr min_eligible_addr : Z)
  : prog loc (option (Z * Z)) :=
  let* enabled := is_enabled in
  if negb enabled then Ret None
  else
    let* _ := fetch_add TakeCount 1 in
    if required_size =? 0 then Ret None
    else
      let min_eligible_addr := Z.max min_eligible_addr min_reviv_addr in
      match find_bin_index p required_size with
      | None => take_oversize p required_size min_reviv_addr min_eligible_addr
      | Some start_bin =>
          let* hit := take_window (search_window p start_bin) required_size min_reviv_addr min_eligible_addr in
          match hit with
          | Some h => Ret (Some h)
          | None =>
              if (length (bins p) <=? start_bin + 1 + BINS_TO_SEARCH)%nat
              then take_oversize p required_size min_reviv_addr min_eligible_addr
              else Ret None
          end
      end.

Fixpoint purge_bins (fuel : nat) (bs : list FreeRecordBin) (min_address total : Z) : prog loc Z :=
  match bs with
  | [] => Ret total
  | b :: rest =>
      let* n := Bin.purge_below fuel b min_address in purge_bins fuel rest min_address (total + n)
  end.

Definition purge_below (fuel : nat) (p : FreeRecordPool) (min_address : Z) : prog loc Z :=
  let* total := purge_bins fuel (bins p) min_address 0 in
  let* total_purged :=
    match oversize p with
    | Some arm => let* n := Bin.purge_below fuel (bin arm) min_address in Ret (total + n)
    | None => Ret total
    end in
  (if 0 <? total_purged then count_drop total_purged else Ret tt) ;;
  Ret total_purged.

Definition reset_stats : prog loc unit :=
  store PutCount 0 ;; store TakeCount 0 ;; store HitCount 0 ;; store DropCount 0.

Fixpoint all_empty (bs : list FreeRecordBin) : prog loc bool :=
  match bs with
  | [] => Ret true
  | b :: rest => let* e := Bin.is_empty b in if e then all_empty rest else Ret false
  end.

Definition is_empty (p : FreeRecordPool) : prog loc bool :=
  let* e := all_empty (bins p) in
  if e then match oversize p with Some arm => Bin.is_empty (bin arm) | None => Ret true end
  else Ret false.

Fixpoint clear_bins (bs : list FreeRecordBin) : prog loc unit :=
  match bs with
  | [] => Ret tt
  | b :: rest => Bin.clear b ;; clear_bins rest
  end.

Definition clear (p : FreeRecordPool) : prog loc unit :=
  clear_bins (bins p) ;;
  match oversize p with Some arm => Bin.clear (bin arm) | None => Ret tt end.

End Pool.
