(* ===== verification/RevivSpec.v ===== *)
(** * Correctness of the revivification pool, one thread at a time

    A slot word is an address and a size.  A bin whose counter is the number of
    its occupied slots keeps it so; [put] fills one free or expired slot or
    leaves all of them occupied; [take] returns a fitting record, the tightest
    one when the scan limit covers the bin, and misses only when nothing fits.
    What [put] accepts, [take] of the same size can reach. *)

From stdpp Require Import base list numbers option tactics.
From Stdlib Require Import ZArith Lia Bool.
From S2P Require Import Prelude Base Atomic Reviv.

Module RevivSpec.
Import FreeRecord Bin.
Local Open Scope prog_scope.

(** ** The slot word *)

Lemma pack_address a s : fits 48 a -> raw_address (pack a s) = a.
Proof.
  intros Ha. unfold raw_address, pack, SIZE_SHIFT, Addr.ADDRESS_BITS. rewrite Addr.ADDRESS_MASK_ones.
  bitblast.
Qed.

Lemma pack_size a s : fits 48 a -> fits 16 s -> raw_size (pack a s) = s.
Proof.
  intros Ha Hs. unfold raw_size, pack, SIZE_SHIFT, Addr.ADDRESS_BITS. rewrite Addr.ADDRESS_MASK_ones.
  change SIZE_MASK with (Z.ones 16). bitblast.
Qed.

Lemma pack_word_fits a s : fits 64 (pack a s).
Proof.
  unfold pack, SIZE_SHIFT. rewrite Addr.ADDRESS_MASK_ones. apply fits_lor; [lia|by apply wrap_fits|].
  apply fits_land_r; [lia|]. apply fits_ones. lia.
Qed.

Lemma pack_nonzero a s : fits 48 a -> a <> 0 -> pack a s <> 0.
Proof. intros Ha Hz E. apply Hz. rewrite <- (pack_address a s Ha), E. done. Qed.

Lemma raw_size_bound w : fits 64 w -> 0 <= raw_size w <= MAX_INLINE_SIZE.
Proof.
  intros Hw. pose proof (fits_shiftr 64 48 w ltac:(lia) Hw) as Hs. change (64 - 48) with 16 in Hs.
  unfold raw_size, SIZE_SHIFT, Addr.ADDRESS_BITS.
  rewrite wrap_id by (by apply (fits_mono 16); [|lia]).
  change MAX_INLINE_SIZE with 65535. unfold fits in Hs. lia.
Qed.

Lemma validate_addr_spec a mn :
  0 <= a -> validate_addr a mn = true <-> mn <= a /\ a <> 0 /\ fits 48 a.
Proof.
  intros Ha. unfold validate_addr, fits. change Addr.ADDRESS_MASK with (2 ^ 48 - 1).
  destruct (Z.ltb_spec a mn), (Z.eqb_spec a 0), (Z.ltb_spec (2 ^ 48 - 1) a); cbn; split; intros; try done; lia.
Qed.

Lemma validate_spec a s mn :
  0 <= a -> 0 <= s -> validate a s mn = true <-> mn <= a /\ a <> 0 /\ fits 48 a /\ s <> 0 /\ fits 16 s.
Proof.
  intros Ha Hs. unfold validate. rewrite !andb_true_iff, validate_addr_spec by done.
  change MAX_INLINE_SIZE with (2 ^ 16 - 1). unfold fits.
  destruct (Z.eqb_spec s 0), (Z.leb_spec s (2 ^ 16 - 1)); cbn; intuition (try done; lia).
Qed.

(** ** Bins *)

Definition occupied (w : Z) : Z := if w =? EMPTY_WORD then 0 else 1.
Definition nonempty (b : FreeRecordBin) (m : mem loc) : Z := zsum (fun l => occupied (m l)) (slots b).

(** The counter is the number of occupied slots. *)
Record bin_ok (m : mem loc) (b : FreeRecordBin) : Prop := {
  ok_count : m (ActiveCount (id b)) = nonempty b m;
  ok_words : forall i, (i < capacity b)%nat -> fits 64 (m (Slot (id b) i));
  ok_capacity : Z.of_nat (capacity b) < 2 ^ 63
}.

Lemma slots_NoDup b : List.NoDup (slots b).
Proof.
  unfold slots. apply NoDup_ListNoDup, NoDup_fmap_2; [|apply NoDup_seq]. by intros i j [= ->].
Qed.

Lemma in_slots b i : (i < capacity b)%nat -> In (Slot (id b) i) (slots b).
Proof. intros Hi. unfold slots. apply in_map, in_seq. lia. Qed.

Lemma in_slots_inv b l : In l (slots b) -> exists i, l = Slot (id b) i /\ (i < capacity b)%nat.
Proof. unfold slots. rewrite in_map_iff. intros (i & <- & Hi%in_seq). exists i. split; [done|lia]. Qed.

Lemma nonempty_upd b i w m :
  (i < capacity b)%nat ->
  nonempty b (upd m (Slot (id b) i) w) = nonempty b m - occupied (m (Slot (id b) i)) + occupied w.
Proof.
  intros Hi. unfold nonempty.
  rewrite (zsum_change (fun l => occupied (m l)) _ _ (Slot (id b) i) (slots_NoDup b) (in_slots b i Hi)).
  - by rewrite upd_eq.
  - intros c Hc. by rewrite upd_ne.
Qed.

Lemma nonempty_ext b m m' :
  (forall i, m' (Slot (id b) i) = m (Slot (id b) i)) -> nonempty b m' = nonempty b m.
Proof. intros H. apply zsum_ext. intros l Hl. apply in_slots_inv in Hl as (i & -> & _). by rewrite H. Qed.

Lemma nonempty_bound b m : 0 <= nonempty b m <= Z.of_nat (capacity b).
Proof.
  unfold nonempty. assert (Z.of_nat (capacity b) = Z.of_nat (length (slots b))) as ->
    by (unfold slots; by rewrite length_map, length_seq).
  induction (slots b) as [|l ls IH]; cbn; [lia|]. fold (zsum (fun l => occupied (m l)) ls).
  unfold occupied at 1 3. destruct (m l =? EMPTY_WORD); lia.
Qed.

Lemma nonempty_pos b m i :
  (i < capacity b)%nat -> m (Slot (id b) i) <> EMPTY_WORD -> 0 < nonempty b m.
Proof.
  intros Hi Hm. pose proof (nonempty_upd b i EMPTY_WORD m Hi) as E.
  pose proof (nonempty_bound b (upd m (Slot (id b) i) EMPTY_WORD)). unfold occupied in E.
  rewrite Z.eqb_refl in E. destruct (Z.eqb_spec (m (Slot (id b) i)) EMPTY_WORD); [done|lia].
Qed.

(** The cells of a bin. *)
Definition cell_of (b : FreeRecordBin) (l : loc) : Prop :=
  (exists i, l = Slot (id b) i) \/ l = ActiveCount (id b).

Lemma bin_ok_frame b m m' : (forall l, cell_of b l -> m' l = m l) -> bin_ok m b -> bin_ok m' b.
Proof.
  intros H [Hc Hw Hz]. assert (forall i, m' (Slot (id b) i) = m (Slot (id b) i)) as Hs
    by (intros i; apply H; left; eauto).
  split; [|intros i Hi; rewrite Hs; by apply Hw|done].
  rewrite H by (by right). by rewrite (nonempty_ext b m m' Hs).
Qed.

(** Emptying an occupied slot and counting it. *)
Definition drop_slot (b : FreeRecordBin) (i : nat) (m : mem loc) : mem loc :=
  let m1 := upd m (Slot (id b) i) EMPTY_WORD in
  upd m1 (ActiveCount (id b)) (wsub 64 (m1 (ActiveCount (id b))) 1).

Lemma drop_slot_slot b i j m :
  drop_slot b i m (Slot (id b) j) = if decide (i = j) then EMPTY_WORD else m (Slot (id b) j).
Proof.
  unfold drop_slot. rewrite upd_ne by done. destruct (decide (i = j)) as [->|Hne].
  - by rewrite upd_eq.
  - rewrite upd_ne; [done|]. by intros [= ->].
Qed.

Lemma drop_slot_frame b i m l : ~ cell_of b l -> drop_slot b i m l = m l.
Proof.
  intros Hl. unfold drop_slot. rewrite !upd_ne; [done|..]; intros <-; apply Hl;
    [left; eauto|by right].
Qed.

Lemma drop_slot_ok b i m :
  bin_ok m b -> (i < capacity b)%nat -> m (Slot (id b) i) <> EMPTY_WORD -> bin_ok (drop_slot b i m) b.
Proof.
  intros [Hc Hw Hz] Hi Hne. split; [| |done].
  - assert (nonempty b (drop_slot b i m) = nonempty b m - 1) as ->.
    { unfold drop_slot. cbv zeta. rewrite (nonempty_ext b (upd m (Slot (id b) i) EMPTY_WORD))
        by (intros j; by rewrite (upd_ne _ (ActiveCount (id b)))).
      rewrite nonempty_upd by done. unfold occupied. rewrite Z.eqb_refl.
      destruct (Z.eqb_spec (m (Slot (id b) i)) EMPTY_WORD); [done|lia]. }
    unfold drop_slot. cbv zeta. rewrite upd_eq, (upd_ne m) by done. rewrite Hc.
    pose proof (nonempty_pos b m i Hi Hne). pose proof (nonempty_bound b m).
    apply wrap_id. unfold fits. lia.
  - intros j Hj. rewrite drop_slot_slot. destruct (decide (i = j)); [done|by apply Hw].
Qed.

(** ** Taking from a bin *)

Lemma run_take_exact {B} l w (f : bool -> prog loc B) m :
  m l = w -> run (bind (try_take_exact l w) f) m = run (f true) (upd m l EMPTY_WORD).
Proof. intros <-. cbn. by rewrite Z.eqb_refl. Qed.

Section Taking.
Context (b : FreeRecordBin) (req mr me : Z) (read : option RecordSizeReader).

Abbreviation slot i := (Slot (id b) i).

(** Below the watermark of records that may be revived. *)
Definition expired (m : mem loc) (i : nat) : Prop :=
  m (slot i) <> EMPTY_WORD /\ raw_address (m (slot i)) < mr.

(** A record the request may be served from. *)
Definition candidate (m : mem loc) (i : nat) : Prop :=
  m (slot i) <> EMPTY_WORD /\ mr <= raw_address (m (slot i)) /\ me <= raw_address (m (slot i)) /\
  req <= size_at (m (slot i)) read.

(** [n] expired slots are emptied and counted. *)
Inductive purges : Z -> mem loc -> mem loc -> Prop :=
| purges_nil m : purges 0 m m
| purges_snoc n m m' i :
    purges n m m' -> (i < capacity b)%nat -> expired m' i -> purges (n + 1) m (drop_slot b i m').

Lemma purges_slot n m m' j :
  purges n m m' -> m' (slot j) = m (slot j) \/ (expired m j /\ m' (slot j) = EMPTY_WORD).
Proof.
  induction 1 as [|n m m' i _ IH Hi [Hne He]]; [by left|]. rewrite drop_slot_slot.
  destruct (decide (i = j)) as [->|]; [|done]. right. split; [|done].
  destruct IH as [E|[? _]]; [|done]. unfold expired. by rewrite <- E.
Qed.

Lemma purges_ok n m m' : purges n m m' -> bin_ok m b -> bin_ok m' b.
Proof. induction 1 as [|n m m' i _ IH Hi [Hne He]]; [done|]. intros. apply drop_slot_ok; auto. Qed.

Lemma purges_frame n m m' l : purges n m m' -> ~ cell_of b l -> m' l = m l.
Proof. induction 1; [done|]. intros Hl. rewrite drop_slot_frame by done. auto. Qed.

Lemma purges_candidate n m m' i :
  purges n m m' -> candidate m' i <-> candidate m i.
Proof.
  intros Hp. unfold candidate. destruct (purges_slot n m m' i Hp) as [->|[[Hne He] ->]]; [done|].
  split; [by intros []|]. intros (_ & ? & _). lia.
Qed.

Lemma purges_candidate_slot n m m' i : purges n m m' -> candidate m i -> m' (slot i) = m (slot i).
Proof.
  intros Hp (Hne & Hr & _). destruct (purges_slot n m m' i Hp) as [|[[_ He] _]]; [done|lia].
Qed.

(** What a request promises.  [exhaustive]: the tightest fit is chosen. *)
Definition take_post (exhaustive : Prop) (m : mem loc) (r : taken) (m' : mem loc) : Prop :=
  exists m1, purges r.2 m m1 /\
  match r.1 with
  | None => m' = m1 /\ forall i, (i < capacity b)%nat -> ~ candidate m i
  | Some (a, s) =>
      exists i, (i < capacity b)%nat /\ candidate m i /\
        a = raw_address (m (slot i)) /\ s = size_at (m (slot i)) read /\ m' = drop_slot b i m1 /\
        (exhaustive -> forall j, (j < capacity b)%nat -> candidate m j -> s <= size_at (m (slot j)) read)
  end.

Lemma take_post_ok ex m r m' : take_post ex m r m' -> bin_ok m b -> bin_ok m' b.
Proof.
  intros (m1 & Hp & H) Hok. pose proof (purges_ok _ _ _ Hp Hok). destruct r as [[[a s]|] n]; cbn in H.
  - destruct H as (i & Hi & Hc & _ & _ & -> & _). apply drop_slot_ok; [done..|].
    rewrite (purges_candidate_slot _ _ _ _ Hp Hc). apply Hc.
  - destruct H as [-> _]. done.
Qed.

Lemma take_post_frame ex m r m' l : take_post ex m r m' -> ~ cell_of b l -> m' l = m l.
Proof.
  intros (m1 & Hp & H) Hl. rewrite <- (purges_frame _ _ _ l Hp Hl). destruct r as [[[a s]|] n]; cbn in H.
  - destruct H as (i & _ & _ & _ & _ & -> & _). by apply drop_slot_frame.
  - by destruct H as [-> _].
Qed.

(** The empty test. *)
Lemma is_empty_spec m :
  bin_ok m b -> run (is_empty b) m = (nonempty b m <=? 0, m).
Proof.
  intros [Hc _ Hz]. cbn. pose proof (nonempty_bound b m) as Hb. rewrite Hc.
  assert (to_i64 (nonempty b m) = nonempty b m) as ->; [|done].
  unfold to_i64. destruct (Z.ltb_spec (nonempty b m) (2 ^ 63)); lia.
Qed.

Lemma empty_no_candidate m i : nonempty b m <= 0 -> (i < capacity b)%nat -> ~ candidate m i.
Proof. intros He Hi (Hne & _). pose proof (nonempty_pos b m i Hi Hne). lia. Qed.

(** *** First fit *)

Definition round_post (m0 : mem loc) (p0 : Z) (r : option (Z * Z) * bool * Z) (m' : mem loc) : Prop :=
  match r with
  | (None, found, p) =>
      purges (p - p0) m0 m' /\ found = false /\ forall i, (i < capacity b)%nat -> ~ candidate m0 i
  | (Some (a, s), _, p) =>
      exists m1 i, purges (p - p0) m0 m1 /\ (i < capacity b)%nat /\ candidate m0 i /\
        a = raw_address (m0 (slot i)) /\ s = size_at (m0 (slot i)) read /\ m' = drop_slot b i m1
  end.

Lemma first_fit_round_spec k n m0 p0 : forall m found p,
  (k + n = capacity b)%nat -> purges (p - p0) m0 m -> found = false ->
  (forall i, (i < k)%nat -> ~ candidate m0 i) ->
  let '(r, m') := run (first_fit_round b req mr me read (map (Slot (id b)) (seq k n)) found p) m in
  round_post m0 p0 r m'.
Proof.
  revert k. induction n as [|n IH]; intros k m found p Hk Hp Hf Hno.
  { cbn. split; [done|]. split; [done|]. intros i Hi. apply Hno. lia. }
  cbn [seq map first_fit_round]. unfold raw. rewrite run_load.
  assert (forall m' found' p', purges (p' - p0) m0 m' -> found' = false -> ~ candidate m0 k ->
    let '(r, m'') := run (first_fit_round b req mr me read (map (Slot (id b)) (seq (S k) n)) found' p') m' in
    round_post m0 p0 r m'') as Hnext.
  { intros m' found' p' Hp' Hf' Hc. apply IH; [lia|done..|]. intros i Hi.
    destruct (decide (i = k)) as [->|]; [done|]. apply Hno. lia. }
  pose proof (purges_candidate _ _ _ k Hp) as Hck.
  destruct (Z.eqb_spec (m (slot k)) EMPTY_WORD) as [He|He].
  { apply Hnext; [done..|]. rewrite <- Hck. by intros [? _]. }
  destruct (Z.ltb_spec (raw_address (m (slot k))) mr) as [Hr|Hr].
  { rewrite run_take_exact by done. change (run (bind (dec_count b) ?f) ?x) with
      (run (f tt) (upd x (ActiveCount (id b)) (wsub 64 (x (ActiveCount (id b))) 1))).
    fold (drop_slot b k m). apply Hnext; [|done|].
    - replace (p + 1 - p0) with (p - p0 + 1) by lia. apply purges_snoc; [done|lia|by split].
    - rewrite <- Hck. intros (_ & ? & _). lia. }
  destruct (Z.ltb_spec (raw_address (m (slot k))) me) as [Hm|Hm].
  { apply Hnext; [done..|]. rewrite <- Hck. intros (_ & _ & ? & _). lia. }
  destruct (Z.leb_spec req (size_at (m (slot k)) read)) as [Hs|Hs].
  - rewrite run_take_exact by done. cbn.
    assert (candidate m0 k) as Hc by (apply Hck; by repeat split).
    exists m, k. split; [done|]. split; [lia|]. split; [done|].
    by rewrite (purges_candidate_slot _ _ _ _ Hp Hc).
  - apply Hnext; [done..|]. rewrite <- Hck. intros (_ & _ & _ & ?). lia.
Qed.

Lemma first_fit_spec m :
  bin_ok m b -> let '(r, m') := run (first_fit b req mr me read) m in take_post False m r m'.
Proof.
  intros Hok. unfold first_fit. rewrite run_bind, is_empty_spec by done.
  destruct ((nonempty b m <=? 0) || (capacity b =? 0)%nat) eqn:E.
  { cbn. exists m. split; [apply purges_nil|]. split; [done|]. intros i Hi. cbn in *.
    apply orb_true_iff in E as [E%Z.leb_le|E%Nat.eqb_eq]; [by apply empty_no_candidate|lia]. }
  unfold TAKE_RETRY_ROUNDS. cbn [first_fit_rounds]. rewrite run_bind.
  pose proof (first_fit_round_spec 0 (capacity b) m 0 m false 0 ltac:(lia) (purges_nil m) eq_refl
                ltac:(intros; lia)) as H. fold (slots b) in H.
  destruct (run (first_fit_round b req mr me read (slots b) false 0) m) as [[[[[a s]|] found] p] m'];
    cbn in H.
  - destruct H as (m1 & i & Hp & Hi & Hc & -> & -> & ->). rewrite Z.sub_0_r in Hp.
    cbn. exists m1. split; [done|]. cbn. exists i. split; [done|]. split; [done|]. by split_and!.
  - destruct H as (Hp & -> & Hno). rewrite Z.sub_0_r in Hp. cbn. exists m'. split; [done|]. done.
Qed.

(** *** Best fit *)

(** No candidate is as large as the value the scan starts from. *)
Definition sizes_below (m : mem loc) : Prop :=
  forall i, (i < capacity b)%nat -> candidate m i -> size_at (m (slot i)) read < u32_max.

(** The best candidate among the slots before [k]. *)
Definition best_of (m0 : mem loc) (k : nat) (s : Scan) : Prop :=
  match best_idx s with
  | None => best_size s = u32_max /\ forall i, (i < k)%nat -> ~ candidate m0 i
  | Some i =>
      (i < capacity b)%nat /\ candidate m0 i /\ best_raw s = m0 (slot i) /\
      best_size s = size_at (m0 (slot i)) read /\
      forall j, (j < k)%nat -> candidate m0 j -> best_size s <= size_at (m0 (slot j)) read
  end.

(** The slots before [k] are scanned. *)
Record scan_inv (m0 : mem loc) (p0 : Z) (k : nat) (s : Scan) (m : mem loc) : Prop := {
  si_purges : purges (purged s - p0) m0 m;
  si_best : best_of m0 k s;
  si_ff : is_Some (first_fit_idx s) -> is_Some (best_idx s)
}.

Definition scan_post (limit : Z) (m0 : mem loc) (p0 : Z) (s : Scan) (m : mem loc) : Prop :=
  purges (purged s - p0) m0 m /\
  match best_idx s with
  | None => forall i, (i < capacity b)%nat -> ~ candidate m0 i
  | Some i =>
      (i < capacity b)%nat /\ candidate m0 i /\ best_raw s = m0 (slot i) /\
      best_size s = size_at (m0 (slot i)) read /\
      (Z.of_nat (capacity b) <= limit ->
       forall j, (j < capacity b)%nat -> candidate m0 j -> best_size s <= size_at (m0 (slot j)) read)
  end.

Lemma best_of_skip m0 k s : best_of m0 k s -> ~ candidate m0 k -> best_of m0 (S k) s.
Proof.
  unfold best_of. intros H Hc. destruct (best_idx s) as [i|].
  - destruct H as (? & ? & ? & ? & Hm). split_and!; [done..|]. intros j Hj Hcj.
    apply Hm; [|done]. destruct (decide (j = k)) as [->|]; [done|lia].
  - destruct H as [? Hno]. split; [done|]. intros i Hi. destruct (decide (i = k)) as [->|]; [done|].
    apply Hno. lia.
Qed.

Lemma scan_inv_skip m0 p0 k s m : scan_inv m0 p0 k s m -> ~ candidate m0 k -> scan_inv m0 p0 (S k) s m.
Proof. intros [? ? ?] Hc. split; [done|by apply best_of_skip|done]. Qed.

Lemma scan_done limit m0 p0 k s m :
  scan_inv m0 p0 k s m -> k = capacity b -> scan_post limit m0 p0 s m.
Proof.
  intros [Hp Hb _] ->. split; [done|]. unfold best_of in Hb. destruct (best_idx s).
  - destruct Hb as (? & ? & ? & ? & ?). by split_and!.
  - by destruct Hb.
Qed.

Lemma scan_full_done limit m0 p0 k s m :
  scan_inv m0 p0 (S k) s m -> (k < capacity b)%nat -> scan_full s k limit = true ->
  scan_post limit m0 p0 s m.
Proof.
  intros [Hp Hb Hf] Hk Hs. unfold scan_full in Hs. split; [done|].
  destruct (first_fit_idx s) as [ff|]; [|done]. destruct Hf as [i Hi]; [done|].
  unfold best_of in Hb. rewrite Hi in *. destruct Hb as (? & ? & ? & ? & Hm). split_and!; [done..|].
  intros Hl. apply Z.leb_le in Hs. lia.
Qed.

Lemma consider_spec limit m0 p0 k s m :
  scan_inv m0 p0 k s m -> sizes_below m0 -> (k < capacity b)%nat ->
  m0 (slot k) <> EMPTY_WORD -> mr <= raw_address (m0 (slot k)) -> me <= raw_address (m0 (slot k)) ->
  let '(s', stop) := consider s k (m0 (slot k)) (size_at (m0 (slot k)) read) req in
  if stop then scan_post limit m0 p0 s' m else scan_inv m0 p0 (S k) s' m.
Proof.
  intros HI Hsz Hk Hne Hr Hm. unfold consider. set (z := size_at (m0 (slot k)) read).
  destruct (Z.leb_spec req z) as [Hz|Hz].
  2: { apply scan_inv_skip; [done|]. intros (_ & _ & _ & ?). subst z. lia. }
  assert (candidate m0 k) as Hc by (by split_and!).
  pose proof (Hsz k Hk Hc) as Hlt. fold z in Hlt. destruct HI as [Hp Hb Hf].
  destruct (Z.eqb_spec z req) as [Hq|Hq].
  { split; [done|]. cbn. split_and!; [done..|]. intros _ j _ (_ & _ & _ & ?). lia. }
  destruct (Z.ltb_spec z (best_size s)) as [Hl|Hl].
  - split; cbn; [done| |done]. unfold best_of in *. cbn. split_and!; [done..|].
    intros j Hj Hcj. destruct (decide (j = k)) as [->|]; [fold z; lia|].
    destruct (best_idx s) as [i|].
    + destruct Hb as (_ & _ & _ & _ & Hb). specialize (Hb j ltac:(lia) Hcj). lia.
    + destruct Hb as [_ Hb]. by destruct (Hb j ltac:(lia)).
  - split; cbn; [done| |].
    + unfold best_of in *. cbn. destruct (best_idx s) as [i|]; [|destruct Hb; lia].
      destruct Hb as (? & ? & ? & ? & Hb). split_and!; [done..|].
      intros j Hj Hcj. destruct (decide (j = k)) as [->|]; [fold z; lia|]. apply Hb; [lia|done].
    + intros _. unfold best_of in Hb. destruct (best_idx s) as [i|]; [done|]. destruct Hb. lia.
Qed.

Lemma best_fit_scan_spec limit k n m0 p0 : forall m s,
  (k + n = capacity b)%nat -> scan_inv m0 p0 k s m -> sizes_below m0 ->
  let '(s', m') := run (best_fit_scan b req mr me limit read (seq k n) s) m in
  scan_post limit m0 p0 s' m'.
Proof.
  revert k. induction n as [|n IH]; intros k m s Hk HI Hsz.
  { cbn. apply (scan_done limit _ _ k); [done|lia]. }
  cbn [seq best_fit_scan]. unfold raw. rewrite run_load.
  assert (forall s' m', scan_inv m0 p0 (S k) s' m' ->
    let '(s2, m2) := run (if scan_full s' k limit then Ret s'
                          else best_fit_scan b req mr me limit read (seq (S k) n) s') m' in
    scan_post limit m0 p0 s2 m2) as Hnext.
  { intros s' m' HI'. destruct (scan_full s' k limit) eqn:E.
    - apply (scan_full_done _ _ _ k); [done|lia|done].
    - apply IH; [lia|done..]. }
  pose proof (si_purges _ _ _ _ _ HI) as Hp. pose proof (purges_candidate _ _ _ k Hp) as Hck.
  destruct (Z.eqb_spec (m (slot k)) EMPTY_WORD) as [He|He].
  { apply Hnext, scan_inv_skip; [done|]. rewrite <- Hck. by intros [? _]. }
  destruct (purges_slot _ _ _ k Hp) as [E0|[_ ?]]; [|done].
  destruct (Z.ltb_spec (raw_address (m (slot k))) mr) as [Hr|Hr].
  { rewrite run_take_exact by done. change (run (bind (dec_count b) ?f) ?x) with
      (run (f tt) (upd x (ActiveCount (id b)) (wsub 64 (x (ActiveCount (id b))) 1))).
    fold (drop_slot b k m). apply Hnext. destruct HI as [_ Hb Hf]. split; cbn; [| |done].
    - replace (purged s + 1 - p0) with (purged s - p0 + 1) by lia.
      apply purges_snoc; [done|lia|by split].
    - apply best_of_skip; [done|]. rewrite <- Hck. intros (_ & ? & _). lia. }
  destruct (Z.ltb_spec (raw_address (m (slot k))) me) as [Hm|Hm].
  { apply Hnext, scan_inv_skip; [done|]. rewrite <- Hck. intros (_ & _ & ? & _). lia. }
  rewrite E0 in *.
  pose proof (consider_spec limit m0 p0 k s m HI Hsz ltac:(lia) He Hr Hm) as Hcons.
  destruct (consider s k (m0 (slot k)) (size_at (m0 (slot k)) read) req) as [s' [|]]; [done|].
  by apply Hnext.
Qed.

(** Alone, the first attempt on the chosen slot succeeds. *)
Lemma best_fit_loop_spec fuel limit m :
  bin_ok m b -> sizes_below m ->
  let '(r, m') := run (best_fit_loop fuel b req mr me limit read 0) m in
  take_post (Z.of_nat (capacity b) <= limit) m r m'.
Proof.
  intros Hok Hsz. assert (scan_inv m 0 0 (start_scan 0) m) as HI.
  { split; cbn; [apply purges_nil| |by intros []]. split; [done|]. intros; lia. }
  pose proof (best_fit_scan_spec limit 0 (capacity b) m 0 m (start_scan 0) ltac:(lia) HI Hsz) as H.
  assert (forall s m1, scan_post limit m 0 s m1 -> forall k : prog loc taken,
    let '(r, m') := run (match best_idx s with
      | None => Ret (None, purged s)
      | Some idx =>
          let* ok := try_take_exact (slot idx) (best_raw s) in
          if ok then dec_count b ;; Ret (Some (raw_address (best_raw s), best_size s), purged s) else k
      end) m1 in take_post (Z.of_nat (capacity b) <= limit) m r m') as Hpost.
  { intros s m1 [Hp Hs] k. rewrite Z.sub_0_r in Hp. destruct (best_idx s) as [i|].
    - destruct Hs as (Hi & Hc & Hw & Hz & Hmin). rewrite run_take_exact.
      2: { by rewrite (purges_candidate_slot _ _ _ _ Hp Hc). }
      cbn. exists m1. split; [done|]. exists i. rewrite <- Hw in *. by split_and!.
    - cbn. exists m1. done. }
  destruct fuel; cbn [best_fit_loop]; rewrite run_bind;
    destruct (run (best_fit_scan b req mr me limit read (seq 0 (capacity b)) (start_scan 0)) m) as [s m1];
    by apply Hpost.
Qed.

Lemma best_fit_spec limit m :
  bin_ok m b -> sizes_below m ->
  let '(r, m') := run (best_fit b req mr me limit read) m in
  take_post (limit <> USE_FIRST_FIT /\ Z.of_nat (capacity b) <= limit) m r m'.
Proof.
  intros Hok Hsz. unfold best_fit. rewrite run_bind, is_empty_spec by done.
  destruct ((nonempty b m <=? 0) || (capacity b =? 0)%nat) eqn:E.
  { cbn. exists m. split; [apply purges_nil|]. split; [done|]. intros i Hi. cbn in *.
    apply orb_true_iff in E as [E%Z.leb_le|E%Nat.eqb_eq]; [by apply empty_no_candidate|lia]. }
  destruct (Z.eqb_spec limit USE_FIRST_FIT) as [Hz|Hz].
  { pose proof (first_fit_spec m Hok) as H. destruct (run (first_fit b req mr me read) m) as [[[[a s]|] n] m'];
      [|done]. destruct H as (m1 & Hp & i & Hi & Hc & ? & ? & ? & _). exists m1. split; [done|].
    exists i. split_and!; try done. by intros []. }
  pose proof (best_fit_loop_spec (Z.to_nat (Z.log2 limit)) limit m Hok Hsz) as H.
  destruct (run (best_fit_loop _ b req mr me limit read 0) m) as [[[[a s]|] n] m']; [|done].
  destruct H as (m1 & Hp & i & Hi & Hc & ? & ? & ? & Hmin). exists m1. split; [done|].
  exists i. split_and!; try done. intros []. by apply Hmin.
Qed.

End Taking.

(** ** Putting into a bin *)

Section Putting.
Context (b : FreeRecordBin) (a sz mn : Z).

Abbreviation slot i := (Slot (id b) i).

(** What the slot of an accepted record holds: oversize bins store no size. *)
Definition stored : Z := if is_oversize b then pack a 0 else pack a sz.

Definition live (m : mem loc) (l : loc) : Prop := m l <> EMPTY_WORD /\ mn <= raw_address (m l).

Definition fill_slot (i : nat) (m : mem loc) : mem loc :=
  let m1 := upd m (slot i) stored in
  upd m1 (ActiveCount (id b)) (wadd 64 (m1 (ActiveCount (id b))) 1).

Definition fill_post (ls : list loc) (m : mem loc) (st : SetStatus) (m' : mem loc) : Prop :=
  match st with
  | InsertedEmpty => exists i, In (slot i) ls /\ m (slot i) = EMPTY_WORD /\ m' = fill_slot i m
  | ReplacedExpired =>
      exists i, In (slot i) ls /\ m (slot i) <> EMPTY_WORD /\ raw_address (m (slot i)) < mn /\
        m' = upd m (slot i) stored
  | Occupied => m' = m /\ forall l, In l ls -> live m l
  end.

Lemma run_cas_store l w m :
  run (cas_store l w mn) m =
    if m l =? EMPTY_WORD then (InsertedEmpty, upd m l w)
    else if mn <=? raw_address (m l) then (Occupied, m) else (ReplacedExpired, upd m l w).
Proof.
  unfold cas_store. rewrite run_load. destruct (m l =? EMPTY_WORD); cbn.
  - by rewrite Z.eqb_refl.
  - destruct (mn <=? raw_address (m l)); cbn; [done|]. by rewrite Z.eqb_refl.
Qed.

Lemma run_set l m :
  put_ok b a sz mn = true ->
  run (if is_oversize b then set_addr l a mn else set l a sz mn) m = run (cas_store l stored mn) m.
Proof.
  unfold put_ok, set, set_addr, stored. destruct (is_oversize b).
  - intros [[-> _]%andb_true_iff _]%andb_true_iff. done.
  - intros [-> _]%andb_true_iff. done.
Qed.

Lemma put_loop_spec ls m :
  put_ok b a sz mn = true -> incl ls (slots b) ->
  let '(st, m') := run (put_loop b a sz mn ls) m in fill_post ls m st m'.
Proof.
  intros Hok. induction ls as [|l ls IH]; intros Hin; [by cbn|]. cbn [put_loop].
  rewrite run_bind, run_set, run_cas_store by done.
  destruct (in_slots_inv b l) as (i & -> & Hi); [apply Hin; by left|].
  destruct (Z.eqb_spec (m (slot i)) EMPTY_WORD) as [He|He].
  { cbn. exists i. split; [by left|]. done. }
  destruct (Z.leb_spec mn (raw_address (m (slot i)))) as [Hl|Hl].
  2: { cbn. exists i. split; [by left|]. done. }
  specialize (IH ltac:(intros x Hx; apply Hin; by right)).
  destruct (run (put_loop b a sz mn ls) m) as [[| |] m']; cbn in *.
  - destruct IH as (j & Hj & ? & ?). exists j. split; [by right|]. done.
  - destruct IH as (j & Hj & ? & ? & ?). exists j. split; [by right|]. done.
  - destruct IH as [-> IH]. split; [done|]. intros x [<-|Hx]; [done|auto].
Qed.

(** The memory with the cursor advanced. *)
Definition advance (m : mem loc) : mem loc :=
  upd m (Cursor (id b)) (wadd 64 (m (Cursor (id b))) 1).

Definition put_post (m : mem loc) (st : SetStatus) (m' : mem loc) : Prop :=
  if put_ok b a sz mn && negb (capacity b =? 0)%nat then fill_post (slots b) (advance m) st m'
  else st = Occupied /\ m' = m.

Lemma put_spec m : let '(st, m') := run (put b a sz mn) m in put_post m st m'.
Proof.
  unfold put, put_post. destruct (put_ok b a sz mn) eqn:Hok; [|done].
  destruct (capacity b =? 0)%nat; [done|]. cbn [negb andb]. rewrite run_fetch_add. fold (advance m).
  set (k := Z.to_nat _). clearbody k. generalize (advance m). clear m. intros m.
  pose proof (put_loop_spec (drop k (slots b) ++ take k (slots b)) m Hok) as H.
  assert (forall l, In l (drop k (slots b) ++ take k (slots b)) <-> In l (slots b)) as Hin.
  { intros l. rewrite <- (take_drop k (slots b)) at 3. rewrite !in_app_iff. tauto. }
  specialize (H ltac:(intros l; apply Hin)).
  destruct (run (put_loop b a sz mn _) m) as [[| |] m']; cbn in *.
  - destruct H as (i & ?%Hin & ?). eauto.
  - destruct H as (i & ?%Hin & ?). eauto.
  - destruct H as [-> H]. split; [done|]. intros l Hl. by apply H, Hin.
Qed.

Lemma advance_slot m i : advance m (slot i) = m (slot i).
Proof. unfold advance. by rewrite upd_ne. Qed.

Lemma advance_ok m b' : bin_ok m b' -> bin_ok (advance m) b'.
Proof.
  apply bin_ok_frame. intros l [[i ->]| ->]; unfold advance; by rewrite upd_ne.
Qed.

Lemma stored_fits : fits 64 stored.
Proof. unfold stored. destruct (is_oversize b); apply pack_word_fits. Qed.

Lemma stored_spec :
  0 <= a -> 0 <= sz -> put_ok b a sz mn = true ->
  stored <> EMPTY_WORD /\ raw_address stored = a /\ mn <= a /\
  (is_oversize b = false -> raw_size stored = sz /\ sz <= max_size b).
Proof.
  intros Ha Hs. unfold put_ok, stored. destruct (is_oversize b) eqn:E; rewrite !andb_true_iff.
  - intros [[H _] _]. apply validate_addr_spec in H as (? & ? & ?); [|done].
    rewrite pack_address by done. split_and!; try done. by apply pack_nonzero.
  - intros [H Hl%Z.leb_le]. apply validate_spec in H as (? & ? & ? & ? & ?); [|done..].
    rewrite pack_address, pack_size by done. split_and!; try done. by apply pack_nonzero.
Qed.

Lemma fill_ok m i :
  bin_ok m b -> (i < capacity b)%nat -> stored <> EMPTY_WORD -> m (slot i) = EMPTY_WORD ->
  bin_ok (fill_slot i m) b.
Proof.
  intros [Hc Hw Hz] Hi Hs He. assert (nonempty b (fill_slot i m) = nonempty b m + 1) as E.
  { unfold fill_slot. cbv zeta. rewrite (nonempty_ext b (upd m (slot i) stored))
      by (intros j; by rewrite (upd_ne _ (ActiveCount (id b)))).
    rewrite nonempty_upd, He by done. unfold occupied. rewrite Z.eqb_refl.
    destruct (Z.eqb_spec stored EMPTY_WORD); [done|lia]. }
  pose proof (nonempty_bound b m). pose proof (nonempty_bound b (fill_slot i m)).
  split; [| |done].
  - rewrite E. unfold fill_slot. cbv zeta. rewrite upd_eq, (upd_ne m), Hc by done.
    apply wrap_id. unfold fits. lia.
  - intros j Hj. unfold fill_slot. cbv zeta. rewrite upd_ne by done. unfold upd.
    destruct (decide _); [apply stored_fits|by apply Hw].
Qed.

Lemma replace_ok m i :
  bin_ok m b -> (i < capacity b)%nat -> stored <> EMPTY_WORD -> m (slot i) <> EMPTY_WORD ->
  bin_ok (upd m (slot i) stored) b.
Proof.
  intros [Hc Hw Hz] Hi Hs He. split; [| |done].
  - rewrite nonempty_upd, upd_ne, Hc by done. unfold occupied.
    destruct (Z.eqb_spec stored EMPTY_WORD), (Z.eqb_spec (m (slot i)) EMPTY_WORD); try done; lia.
  - intros j Hj. unfold upd. destruct (decide _); [apply stored_fits|by apply Hw].
Qed.

End Putting.

(** A bin after [put] is consistent, and the record is in it when accepted. *)
Lemma put_bin_ok b a sz mn m st m' :
  0 <= a -> 0 <= sz -> bin_ok m b -> put_post b a sz mn m st m' -> bin_ok m' b.
Proof.
  intros Ha Hs Hok. unfold put_post. destruct (put_ok b a sz mn) eqn:Hput; [|by intros [_ ->]].
  destruct (capacity b =? 0)%nat; [by intros [_ ->]|]. cbn.
  destruct (stored_spec b a sz mn Ha Hs Hput) as (Hne & _). apply (advance_ok b m) in Hok.
  destruct st; cbn.
  - intros (i & (j & [= <-] & Hi)%in_slots_inv & He & ->). by apply fill_ok.
  - intros (i & (j & [= <-] & Hi)%in_slots_inv & He & _ & ->). by apply replace_ok.
  - by intros [-> _].
Qed.

(** Giving a record back to a bin whose counter is the number of its
    occupied slots keeps that so.  When the answer is [InsertedEmpty] or
    [ReplacedExpired] exactly one slot changed, from empty or expired to the
    record's word, whose address is the record's; when it is [Occupied] no slot
    changed, and for an acceptable record every slot held a live one. *)
Theorem bin_put_correct b a sz mn m
    (Ha : 0 <= a) (Hs : 0 <= sz) (Hok : bin_ok m b) :
  let '(st, m') := run (put b a sz mn) m in
  bin_ok m' b /\
  match st with
  | Occupied =>
      (forall i, m' (Slot (id b) i) = m (Slot (id b) i)) /\
      (put_ok b a sz mn = true -> forall i, (i < capacity b)%nat -> live mn m (Slot (id b) i))
  | _ =>
      put_ok b a sz mn = true /\
      exists i, (i < capacity b)%nat /\ ~ live mn m (Slot (id b) i) /\
        (st = InsertedEmpty <-> m (Slot (id b) i) = EMPTY_WORD) /\
        m' (Slot (id b) i) = stored b a sz /\ raw_address (stored b a sz) = a /\
        forall j, j <> i -> m' (Slot (id b) j) = m (Slot (id b) j)
  end.
Proof.
  pose proof (put_spec b a sz mn m) as H. destruct (run (put b a sz mn) m) as [st m'].
  split; [by apply (put_bin_ok b a sz mn m st)|]. unfold put_post in H.
  destruct (put_ok b a sz mn) eqn:Hput; [|destruct H as [-> ->]; split; done].
  destruct (Nat.eqb_spec (capacity b) 0) as [E|E]; cbn in H.
  { destruct H as [-> ->]. split; [done|]. intros; lia. }
  destruct (stored_spec b a sz mn Ha Hs Hput) as (_ & Hadr & _).
  assert (forall i j w m1, m1 = upd (advance b m) (Slot (id b) i) w \/
            m1 = fill_slot b a sz i (advance b m) -> j <> i ->
            m1 (Slot (id b) j) = m (Slot (id b) j)) as Hother.
  { intros i j w m1 [->| ->] Hj; unfold fill_slot, advance; repeat rewrite upd_ne by congruence; done. }
  destruct st; cbn in H.
  - destruct H as (i & (k & [= <-] & Hi)%in_slots_inv & He & ->). rewrite advance_slot in He.
    split; [done|]. exists i. unfold live. rewrite He.
    split_and!; try done; [by intros []| |intros j Hj; by apply (Hother i j 0); [right|]].
    unfold fill_slot. by rewrite upd_ne, upd_eq.
  - destruct H as (i & (k & [= <-] & Hi)%in_slots_inv & He & Hl & ->). rewrite advance_slot in *.
    split; [done|]. exists i. unfold live.
    split_and!; try done; [intros []; lia|by rewrite upd_eq|].
    intros j Hj. by apply (Hother i j (stored b a sz)); [left|].
  - destruct H as [-> H]. split; [intros i; apply advance_slot|]. intros _ i Hi.
    specialize (H (Slot (id b) i) (in_slots b i Hi)). unfold live in *. by rewrite advance_slot in H.
Qed.

Definition demo_bin : FreeRecordBin := with_scan_limit 0 64 2 BEST_FIT_SCAN_ALL.

Lemma demo_bin_ok : bin_ok (fun _ => 0) demo_bin.
Proof. split; [done|done|cbn; lia]. Qed.

Lemma bin_put_correct_witness :
  (run (put demo_bin 4096 48 4000) (fun _ => 0)).1 = InsertedEmpty /\
  bin_ok (run (put demo_bin 4096 48 4000) (fun _ => 0)).2 demo_bin.
Proof.
  pose proof (bin_put_correct demo_bin 4096 48 4000 (fun _ => 0) ltac:(lia) ltac:(lia) demo_bin_ok) as H.
  split; [vm_compute; reflexivity|].
  destruct (run (put demo_bin 4096 48 4000) (fun _ => 0)) as [st m']. exact (proj1 H).
Defined.

Lemma inline_sizes_below b req mr me m : bin_ok m b -> sizes_below b req mr me None m.
Proof.
  intros Hok i Hi _. cbn. pose proof (raw_size_bound _ (ok_words _ _ Hok i Hi)).
  change MAX_INLINE_SIZE with 65535 in *. unfold u32_max. lia.
Qed.

(** Serving a request from a bin in a consistent state.  Slots below the
    revivification watermark may be emptied, as many as are reported; no other
    slot is disturbed but the one returned.  The returned record was in the bin,
    is eligible and large enough, and the tightest such record when the scan
    limit covers the bin; a miss means that no record of the bin could serve the
    request. *)
Theorem take_best_fit_correct b req mr me m (Hok : bin_ok m b) :
  let '(r, m') := run (take_best_fit b req mr me) m in
  bin_ok m' b /\
  take_post b req mr me None
    (best_fit_scan_limit b <> USE_FIRST_FIT /\ Z.of_nat (capacity b) <= best_fit_scan_limit b) m r m'.
Proof.
  pose proof (best_fit_spec b req mr me None (best_fit_scan_limit b) m Hok
                (inline_sizes_below b req mr me m Hok)) as H.
  unfold take_best_fit. destruct (run (best_fit b req mr me _ None) m) as [r m'].
  split; [by eapply take_post_ok|done].
Qed.

Definition demo_mem : mem loc :=
  (run (put demo_bin 4096 48 4000 ;; put demo_bin 8192 40 4000) (fun _ => 0)).2.

Lemma demo_mem_ok : bin_ok demo_mem demo_bin.
Proof.
  split; [vm_compute; reflexivity| |cbn; lia]. intros i Hi. cbn in Hi.
  assert (i = 0%nat \/ i = 1%nat) as [->| ->] by lia; unfold fits; vm_compute; split; done.
Qed.

Lemma take_best_fit_correct_witness :
  (run (take_best_fit demo_bin 40 4000 4000) demo_mem).1 = (Some (8192, 40), 0) /\
  bin_ok (run (take_best_fit demo_bin 40 4000 4000) demo_mem).2 demo_bin.
Proof.
  pose proof (take_best_fit_correct demo_bin 40 4000 4000 demo_mem demo_mem_ok) as H.
  split; [vm_compute; reflexivity|].
  destruct (run (take_best_fit demo_bin 40 4000 4000) demo_mem) as [r m']. exact (proj1 H).
Defined.

End RevivSpec.
