(* ===== verification/RevivPool.v ===== *)
(** * Correctness of the whole revivification pool, one thread at a time

    Building a pool, giving records back to it and taking them again. *)

From Stdlib Require Import ZArith Lia Bool.
From stdpp Require Import base list numbers option tactics.
From S2P Require Import Prelude Base Atomic Reviv RevivSpec.

Module RevivPool.
Import FreeRecord Bin Pool RevivSpec.
Local Open Scope prog_scope.

(** Every bin is consistent and has cells of its own; sizes increase and fit
    the slot word, the oversize bin's excepted. *)
Record pool_ok (p : FreeRecordPool) (m : mem loc) : Prop := {
  pk_bins : forall i b, bins p !! i = Some b ->
    id b = i /\ bin_ok m b /\ 0 < max_size b <= MAX_INLINE_SIZE;
  pk_sorted : forall i j b c, bins p !! i = Some b -> bins p !! j = Some c -> (i < j)%nat ->
    max_size b < max_size c;
  pk_arm : forall arm, oversize p = Some arm ->
    id (bin arm) = length (bins p) /\ bin_ok m (bin arm) /\ MAX_INLINE_SIZE < max_size (bin arm)
}.

(** ** Frames *)

Definition stat (l : loc) : Prop := l = HitCount \/ l = DropCount \/ l = PutCount \/ l = TakeCount.

(** A memory that differs in statistics only. *)
Definition same_cells (m m' : mem loc) : Prop := forall l, ~ stat l -> m' l = m l.

Lemma same_refl m : same_cells m m.
Proof. done. Qed.

Lemma same_trans m1 m2 m3 : same_cells m1 m2 -> same_cells m2 m3 -> same_cells m1 m3.
Proof. intros H1 H2 l Hl. by rewrite H2, H1. Qed.

Lemma same_upd m l v : stat l -> same_cells m (upd m l v).
Proof. intros Hl l' Hl'. rewrite upd_ne; [done|]. by intros ->. Qed.

Lemma cell_not_stat b l : cell_of b l -> ~ stat l.
Proof. by intros [[i ->]| ->] [|[|[|]]]. Qed.

Lemma same_ok m m' b : same_cells m m' -> bin_ok m b -> bin_ok m' b.
Proof. intros H. apply bin_ok_frame. intros l Hl. by apply H, (cell_not_stat b). Qed.

Lemma other_cell b c l : id b <> id c -> cell_of c l -> ~ cell_of b l.
Proof. intros Hne [[i ->]| ->] [[j Hj]|Hj]; congruence. Qed.

(** ** Taking *)

Lemma run_account r m :
  exists m', run (account r) m = (r.1, m') /\ same_cells m m'.
Proof.
  destruct r as [[h|] n]; unfold account; destruct (0 <? n); cbn; eexists; (split; [reflexivity|]);
    repeat first [apply same_refl | eapply same_trans; [|by apply same_upd; unfold stat; auto]].
Qed.

(** A bin and how the sizes of its records are found. *)
Abbreviation source := (FreeRecordBin * option RecordSizeReader)%type.

(** Record [i] of source [src] can serve the request. *)
Definition serves (req mr me : Z) (m : mem loc) (src : source) (i : nat) : Prop :=
  (i < capacity src.1)%nat /\ candidate src.1 req mr me src.2 m i.

(** The answer of a search of several bins. *)
Definition search_post (ss : list source) (req mr me : Z) (m : mem loc) (res : option (Z * Z)) : Prop :=
  match res with
  | Some (a, s) =>
      exists src i, src ∈ ss /\ serves req mr me m src i /\
        a = raw_address (m (Slot (id src.1) i)) /\ s = size_at (m (Slot (id src.1) i)) src.2
  | None => forall src i, src ∈ ss -> ~ serves req mr me m src i
  end.

(** Cells that belong to none of the bins and are no statistics. *)
Definition outside (ss : list source) (l : loc) : Prop :=
  ~ stat l /\ forall src, src ∈ ss -> ~ cell_of src.1 l.

(** The bins are consistent, and no size is beyond the scan's starting value. *)
Definition sources_ok (req mr me : Z) (ss : list source) (m : mem loc) : Prop :=
  forall src, src ∈ ss -> bin_ok m src.1 /\ sizes_below src.1 req mr me src.2 m.

(** What a search does. *)
Definition searches (ss : list source) (req mr me : Z) (m : mem loc) (res : option (Z * Z))
    (m' : mem loc) : Prop :=
  (forall src, src ∈ ss -> bin_ok m' src.1) /\ (forall l, outside ss l -> m' l = m l) /\
  search_post ss req mr me m res.

Lemma serves_same req mr me m m' src i :
  m' (Slot (id src.1) i) = m (Slot (id src.1) i) ->
  serves req mr me m' src i <-> serves req mr me m src i.
Proof. unfold serves, candidate. by intros ->. Qed.

Lemma sources_ok_frame req mr me ss m m' :
  (forall src l, src ∈ ss -> cell_of src.1 l -> m' l = m l) ->
  sources_ok req mr me ss m -> sources_ok req mr me ss m'.
Proof.
  intros H Hok src Hs. destruct (Hok src Hs) as [Hb Hz]. split.
  - apply (bin_ok_frame _ m); [|done]. intros l. by apply H.
  - intros i Hi Hc. assert (m' (Slot (id src.1) i) = m (Slot (id src.1) i)) as E
      by (apply (H src); [done|left; eauto]).
    rewrite E. apply Hz; [done|]. unfold candidate in *. by rewrite E in Hc.
Qed.

(** One bin and the statistics behind it. *)
Lemma take_one {B} b req mr me read m (f : option (Z * Z) -> prog loc B) :
  sources_ok req mr me [(b, read)] m ->
  exists res m',
    run (let* r := best_fit b req mr me (best_fit_scan_limit b) read in let* res := account r in f res) m =
    run (f res) m' /\ searches [(b, read)] req mr me m res m'.
Proof.
  intros Hss. destruct (Hss (b, read)) as [Hok Hsz]; [by left|]. cbn in Hok, Hsz. rewrite run_bind.
  pose proof (best_fit_spec b req mr me read (best_fit_scan_limit b) m Hok Hsz) as H.
  destruct (run (best_fit b req mr me _ read) m) as [r m1].
  pose proof (take_post_ok _ _ _ _ _ _ _ _ _ H Hok) as Hok1.
  pose proof (fun l => take_post_frame _ _ _ _ _ _ _ _ _ l H) as Hfr.
  rewrite run_bind. destruct (run_account r m1) as (m2 & -> & Hs2).
  exists r.1, m2. split; [done|]. split.
  { intros src ->%list_elem_of_singleton. by apply (same_ok m1). }
  split.
  { intros l [Hst Hout]. rewrite Hs2 by done. apply Hfr, (Hout (b, read)). by left. }
  destruct H as (mp & Hp & H). destruct r as [[[a s]|] n]; cbn in *.
  - destruct H as (i & Hi & Hc & -> & -> & _). exists (b, read), i. split_and!; try done. by left.
  - destruct H as [_ Hno]. intros src i ->%list_elem_of_singleton [Hi Hc]. by apply (Hno i Hi).
Qed.

Lemma ids_apart (ss1 ss2 : list source) s1 s2 :
  NoDup (map (id ∘ fst) (ss1 ++ ss2)) -> s1 ∈ ss1 -> s2 ∈ ss2 -> id s1.1 <> id s2.1.
Proof.
  rewrite map_app. intros Hnd H1 H2 E. apply list.NoDup_app in Hnd as (_ & Hd & _).
  apply (Hd (id s1.1)); [|rewrite E];
    [apply (list_elem_of_fmap_2 (id ∘ fst) ss1 s1 H1)|apply (list_elem_of_fmap_2 (id ∘ fst) ss2 s2 H2)].
Qed.

(** A search that misses in some bins goes on in others with the same cells. *)
Lemma searches_app ss1 ss2 req mr me m m1 res m' :
  NoDup (map (id ∘ fst) (ss1 ++ ss2)) ->
  searches ss1 req mr me m None m1 -> searches ss2 req mr me m1 res m' ->
  searches (ss1 ++ ss2) req mr me m res m'.
Proof.
  intros Hnd (Hok1 & Hfr1 & Hno) (Hok2 & Hfr2 & Hw).
  assert (forall s1 s2, s1 ∈ ss1 -> s2 ∈ ss2 -> id s1.1 <> id s2.1) as Hids.
  { intros s1 s2. by apply ids_apart. }
  split; [|split].
  - intros src [Hs|Hs]%elem_of_app; [|auto]. apply (bin_ok_frame _ m1); [|auto]. intros l Hl.
    apply Hfr2. split; [by apply (cell_not_stat src.1)|]. intros s2 H2.
    apply (other_cell s2.1 src.1 l); [|done]. apply not_eq_sym. by apply Hids.
  - intros l [Hst Hout]. rewrite Hfr2, Hfr1; [done|..]; (split; [done|]); intros src Hs; apply Hout;
      apply elem_of_app; auto.
  - assert (forall src i, src ∈ ss2 -> m1 (Slot (id src.1) i) = m (Slot (id src.1) i)) as Hsame.
    { intros src i Hs. apply Hfr1. split; [by intros [|[|[|]]]|]. intros s1 H1.
      apply (other_cell s1.1 src.1); [by apply Hids|left; eauto]. }
    destruct res as [[a s]|]; cbn in *.
    + destruct Hw as (src & i & Hs & Hsv & -> & ->). exists src, i. rewrite (Hsame src i Hs).
      split_and!; try done; [apply elem_of_app; by right|]. by apply (serves_same _ _ _ m m1 _ _ (Hsame src i Hs)).
    + intros src i [Hs|Hs]%elem_of_app Hsv; [by apply (Hno src i)|]. apply (Hw src i Hs).
      by apply (serves_same _ _ _ m m1 _ _ (Hsame src i Hs)).
Qed.

(** A hit in the first bins is the answer. *)
Lemma searches_hit ss1 ss2 req mr me m h m1 :
  searches ss1 req mr me m (Some h) m1 -> NoDup (map (id ∘ fst) (ss1 ++ ss2)) ->
  sources_ok req mr me ss2 m -> searches (ss1 ++ ss2) req mr me m (Some h) m1.
Proof.
  intros (Hok1 & Hfr1 & Hw) Hnd Hok2. split; [|split].
  - intros src [Hs|Hs]%elem_of_app; [auto|]. apply (bin_ok_frame _ m); [|by apply Hok2].
    intros l Hl. apply Hfr1. split; [by apply (cell_not_stat src.1)|]. intros s1 H1.
    apply (other_cell s1.1 src.1 l); [|done]. by apply (ids_apart ss1 ss2).
  - intros l [Hst Hout]. apply Hfr1. split; [done|]. intros src Hs. apply Hout, elem_of_app. by left.
  - destruct h as [a s]. destruct Hw as (src & i & Hs & ?). exists src, i. split; [|done].
    apply elem_of_app. by left.
Qed.

Definition inline (b : FreeRecordBin) : source := (b, None).

Lemma take_window_spec bs req mr me : forall m,
  NoDup (map (id ∘ fst) (map inline bs)) -> sources_ok req mr me (map inline bs) m ->
  let '(res, m') := run (take_window bs req mr me) m in searches (map inline bs) req mr me m res m'.
Proof.
  induction bs as [|b bs IH]; intros m Hnd Hall.
  { cbn. split; [|split; [done|]]; intros src; intros; exfalso; by apply (not_elem_of_nil src). }
  cbn [take_window]. unfold take_best_fit.
  match goal with |- context [run (bind _ (fun r => bind (account r) ?f)) _] =>
    destruct (take_one b req mr me None m f) as (res & m1 & -> & Hs) end.
  { intros src ->%list_elem_of_singleton. apply Hall. by left. }
  change (map inline (b :: bs)) with ([inline b] ++ map inline bs) in *. destruct res as [h|].
  - cbn [run]. apply searches_hit; [done..|]. intros src Hsrc. apply Hall, elem_of_app. by right.
  - specialize (IH m1). pose proof Hnd as Hnd'. rewrite map_app in Hnd'.
    apply list.NoDup_app in Hnd' as (_ & _ & Hnd'). specialize (IH Hnd').
    destruct (run (take_window bs req mr me) m1) as [res m']. eapply searches_app; [done..|].
    apply IH. apply (sources_ok_frame _ _ _ _ m).
    + intros src l Hsrc Hl. destruct Hs as (_ & Hfr & _). apply Hfr.
      split; [by apply (cell_not_stat src.1)|]. intros s1 Hs1.
      apply (other_cell s1.1 src.1 l); [|done]. by apply (ids_apart [inline b] (map inline bs)).
    + intros src Hsrc. apply Hall, elem_of_app. by right.
Qed.

(** ** The pool *)

(** Where a request of this size looks: the window of the ladder, and the
    oversize bin when the window reaches the end of the ladder. *)
Definition arm_sources (p : FreeRecordPool) (req : Z) : list source :=
  match oversize p with
  | Some arm => if max_size (bin arm) <? req then [] else [(bin arm, Some (read_size arm))]
  | None => []
  end.

Definition reach (p : FreeRecordPool) (req : Z) : list source :=
  match find_bin_index p req with
  | None => arm_sources p req
  | Some k =>
      map inline (search_window p k) ++
      (if (length (bins p) <=? k + 1 + BINS_TO_SEARCH)%nat then arm_sources p req else [])
  end.

(** Sizes read from record headers stay below the largest 32-bit number. *)
Definition reader_ok (p : FreeRecordPool) : Prop :=
  forall arm a s, oversize p = Some arm -> read_size arm a = Some s -> s < u32_max.

Lemma search_window_lookup p k b :
  b ∈ search_window p k -> exists i, bins p !! i = Some b /\ (k <= i)%nat.
Proof.
  unfold search_window. intros (j & Hj)%list_elem_of_lookup. apply lookup_take_Some in Hj as [Hj _].
  rewrite lookup_drop in Hj. exists (k + j)%nat. split; [done|lia].
Qed.

Lemma reach_lookup p req src :
  src ∈ reach p req ->
  (exists i, bins p !! i = Some src.1 /\ src.2 = None) \/
  (exists arm, oversize p = Some arm /\ src = (bin arm, Some (read_size arm))).
Proof.
  assert (src ∈ arm_sources p req ->
    exists arm, oversize p = Some arm /\ src = (bin arm, Some (read_size arm))) as Harm.
  { unfold arm_sources. destruct (oversize p) as [arm|]; [|by intros ?%not_elem_of_nil].
    destruct (_ <? _); [by intros ?%not_elem_of_nil|]. intros ->%list_elem_of_singleton. eauto. }
  unfold reach. destruct (find_bin_index p req) as [k|]; [|by right; apply Harm].
  intros [Hs|Hs]%elem_of_app.
  - left. apply list_elem_of_fmap in Hs as (b & -> & Hb).
    destruct (search_window_lookup p k b Hb) as (i & Hi & _). eauto.
  - right. destruct (_ <=? _)%nat; [by apply Harm|]. by apply not_elem_of_nil in Hs.
Qed.

Lemma reach_ok p m req mr me :
  pool_ok p m -> reader_ok p -> 0 <= req -> sources_ok req mr me (reach p req) m.
Proof.
  intros P Hrd Hreq src Hs. destruct (reach_lookup p req src Hs) as [(i & Hi & Hn)|(arm & Ha & ->)].
  - destruct (pk_bins p m P i src.1 Hi) as (_ & Hok & _). split; [done|]. rewrite Hn.
    by apply inline_sizes_below.
  - destruct (pk_arm p m P arm Ha) as (_ & Hok & _). split; [done|].
    intros i _ _. unfold size_at. cbn [fst snd].
    destruct (read_size arm (raw_address (m (Slot (id (bin arm)) i)))) as [s|] eqn:E; cbn.
    + by eapply Hrd.
    + done.
Qed.

Lemma NoDup_lookup_ids (bs : list FreeRecordBin) k :
  (forall i b, bs !! i = Some b -> id b = (k + i)%nat) -> map id bs = seq k (length bs).
Proof.
  revert k. induction bs as [|b bs IH]; intros k H; [done|]. cbn. f_equal.
  - rewrite (H 0%nat b eq_refl). lia.
  - apply IH. intros i c Hc. rewrite (H (S i) c Hc). lia.
Qed.

Lemma map_id_inline bs : map (id ∘ fst) (map inline bs) = map id bs.
Proof. by rewrite map_map. Qed.

Lemma window_ids p m k :
  pool_ok p m -> map id (search_window p k) = seq k (length (search_window p k)).
Proof.
  intros P. apply NoDup_lookup_ids. intros i b Hi. unfold search_window in Hi.
  apply lookup_take_Some in Hi as [Hi _]. rewrite lookup_drop in Hi.
  by destruct (pk_bins p m P _ _ Hi).
Qed.

Lemma reach_NoDup p m req : pool_ok p m -> NoDup (map (id ∘ fst) (reach p req)).
Proof.
  intros P. assert (NoDup (map (id ∘ fst) (arm_sources p req)) /\
    forall x, x ∈ map (id ∘ fst) (arm_sources p req) -> x = length (bins p)) as [Ha Hx].
  { unfold arm_sources. destruct (oversize p) as [arm|] eqn:E; [|split; [constructor|by intros x ?%not_elem_of_nil]].
    destruct (_ <? _); [split; [constructor|by intros x ?%not_elem_of_nil]|]. cbn. split; [apply NoDup_singleton|].
    intros x ->%list_elem_of_singleton. by destruct (pk_arm p m P arm E). }
  unfold reach. destruct (find_bin_index p req) as [k|]; [|done]. rewrite map_app, map_id_inline.
  apply list.NoDup_app. split; [rewrite (window_ids p m k P); apply NoDup_seq|]. split.
  - intros x Hw. destruct (_ <=? _)%nat; [|apply not_elem_of_nil]. intros ->%Hx.
    apply list_elem_of_fmap in Hw as (b & E & Hb).
    destruct (search_window_lookup p k b Hb) as (i & Hi & _).
    destruct (pk_bins p m P i b Hi) as [Hid _]. apply lookup_lt_Some in Hi. lia.
  - destruct (_ <=? _)%nat; [done|constructor].
Qed.

Lemma take_arm_spec p m req mr me :
  sources_ok req mr me (arm_sources p req) m ->
  let '(res, m') := run (Pool.take_oversize p req mr me) m in
  searches (arm_sources p req) req mr me m res m'.
Proof.
  intros Hok. unfold Pool.take_oversize, arm_sources in *. destruct (oversize p) as [arm|].
  2: { cbn. split; [|split; [done|]]; intros src; intros; exfalso; by apply (not_elem_of_nil src). }
  destruct (max_size (bin arm) <? req).
  { cbn. split; [|split; [done|]]; intros src; intros; exfalso; by apply (not_elem_of_nil src). }
  unfold Bin.take_oversize.
  destruct (take_one (bin arm) req mr me (Some (read_size arm)) m (fun r => Ret r) Hok) as (res & m' & E & Hs).
  rewrite run_bind in E. rewrite run_bind.
  destruct (run (best_fit _ _ _ _ _ _) m) as [r m1]. rewrite run_bind in E.
  destruct (run (account r) m1) as [r2 m2]. cbn in E. by injection E as -> ->.
Qed.

(** Bins of the pool are told apart by their cells. *)
Definition pool_bin (p : FreeRecordPool) (b : FreeRecordBin) : Prop :=
  (exists i, bins p !! i = Some b) \/ (exists arm, oversize p = Some arm /\ b = bin arm).

Lemma pool_bin_id p m b c : pool_ok p m -> pool_bin p b -> pool_bin p c -> id b = id c -> b = c.
Proof.
  intros P [[i Hi]|(arm & Ha & ->)] [[j Hj]|(arm' & Ha' & ->)] E.
  - destruct (pk_bins p m P i b Hi) as [Ei _], (pk_bins p m P j c Hj) as [Ej _]. congruence.
  - destruct (pk_bins p m P i b Hi) as [Ei _], (pk_arm p m P arm' Ha') as [Ej _].
    apply lookup_lt_Some in Hi. lia.
  - destruct (pk_bins p m P j c Hj) as [Ei _], (pk_arm p m P arm Ha) as [Ej _].
    apply lookup_lt_Some in Hj. lia.
  - congruence.
Qed.

(** The pool is consistent when its bins are. *)
Lemma pool_ok_bins p m m' :
  pool_ok p m -> (forall b, pool_bin p b -> bin_ok m' b) -> pool_ok p m'.
Proof.
  intros P H. split.
  - intros i b Hi. destruct (pk_bins p m P i b Hi) as (? & _ & ?). split_and!; [done| |lia..].
    apply H. left. eauto.
  - apply (pk_sorted p m P).
  - intros arm Ha. destruct (pk_arm p m P arm Ha) as (? & _ & ?). split_and!; [done| |lia].
    apply H. right. eauto.
Qed.

Lemma pool_bin_ok p m b : pool_ok p m -> pool_bin p b -> bin_ok m b.
Proof.
  intros P [[i Hi]|(arm & Ha & ->)]; [apply (pk_bins p m P i b Hi)|apply (pk_arm p m P arm Ha)].
Qed.

Lemma same_pool_ok p m m' : pool_ok p m -> same_cells m m' -> pool_ok p m'.
Proof. intros P H. apply (pool_ok_bins p m); [done|]. intros b Hb. apply (same_ok m); [done|by apply (pool_bin_ok p)]. Qed.

Lemma searches_pool_ok p ss req mr me m res m' :
  pool_ok p m -> (forall src, src ∈ ss -> pool_bin p src.1) -> searches ss req mr me m res m' ->
  pool_ok p m'.
Proof.
  intros P Hss (Hok & Hfr & _). apply (pool_ok_bins p m); [done|]. intros b Hb.
  destruct (decide (id b ∈ map (id ∘ fst) ss)) as [Hin|Hout].
  - apply list_elem_of_fmap in Hin as (src & E & Hs).
    rewrite (pool_bin_id p m b src.1 P Hb (Hss src Hs) E). auto.
  - apply (bin_ok_frame b m); [|by apply (pool_bin_ok p)]. intros l Hl. apply Hfr.
    split; [by apply (cell_not_stat b)|]. intros src Hs. apply (other_cell src.1 b l); [|done].
    intros E. apply Hout. rewrite <- E. apply (list_elem_of_fmap_2 (id ∘ fst) ss src Hs).
Qed.

Lemma reach_pool p req src : src ∈ reach p req -> pool_bin p src.1.
Proof.
  intros [(i & Hi & _)|(arm & Ha & ->)]%reach_lookup; [left; eauto|right; eauto].
Qed.

Lemma take_ladder_spec p m req mr me :
  pool_ok p m -> reader_ok p -> 0 <= req ->
  let '(res, m') := run (match find_bin_index p req with
    | None => Pool.take_oversize p req mr me
    | Some start_bin =>
        let* hit := take_window (search_window p start_bin) req mr me in
        match hit with
        | Some h => Ret (Some h)
        | None =>
            if (length (bins p) <=? start_bin + 1 + BINS_TO_SEARCH)%nat
            then Pool.take_oversize p req mr me
            else Ret None
        end
    end) m in searches (reach p req) req mr me m res m'.
Proof.
  intros P Hrd Hreq. pose proof (reach_ok p m req mr me P Hrd Hreq) as Hok.
  pose proof (reach_NoDup p m req P) as Hnd. unfold reach in *.
  destruct (find_bin_index p req) as [k|]; [|by apply take_arm_spec].
  set (arm := if (length (bins p) <=? k + 1 + BINS_TO_SEARCH)%nat then arm_sources p req else []) in *.
  assert (sources_ok req mr me (map inline (search_window p k)) m) as Hokw
    by (intros src Hs; apply Hok, elem_of_app; by left).
  assert (sources_ok req mr me arm m) as Hoka by (intros src Hs; apply Hok, elem_of_app; by right).
  pose proof Hnd as Hnd'. rewrite map_app in Hnd'. apply list.NoDup_app in Hnd' as (Hnw & _ & _).
  rewrite run_bind. pose proof (take_window_spec _ req mr me m Hnw Hokw) as Hw.
  destruct (run (take_window (search_window p k) req mr me) m) as [[h|] m1].
  { by apply searches_hit. }
  assert (sources_ok req mr me arm m1) as Hoka1.
  { apply (sources_ok_frame _ _ _ _ m); [|done]. intros src l Hs Hl. destruct Hw as (_ & Hfr & _).
    apply Hfr. split; [by apply (cell_not_stat src.1)|]. intros s1 H1.
    apply (other_cell s1.1 src.1 l); [|done]. by eapply ids_apart. }
  subst arm. destruct (length (bins p) <=? k + 1 + BINS_TO_SEARCH)%nat.
  - pose proof (take_arm_spec p m1 req mr me Hoka1) as Ha.
    destruct (run (Pool.take_oversize p req mr me) m1) as [res m']. by eapply searches_app.
  - cbn. eapply searches_app; [done..|].
    split; [|split; [done|]]; intros src; intros; exfalso; by apply (not_elem_of_nil src).
Qed.

Lemma pool_take_spec p m req mr me :
  pool_ok p m -> reader_ok p -> 0 <= req ->
  let '(res, m') := run (Pool.take p req mr me) m in
  pool_ok p m' /\
  (m SuspendCount <> 0 -> res = None /\ m' = m) /\
  (m SuspendCount = 0 -> req <> 0 -> search_post (reach p req) req mr (Z.max me mr) m res).
Proof.
  intros P Hrd Hreq.
  unfold Pool.take, is_enabled. rewrite run_bind, run_load. cbn [run].
  destruct (Z.eqb_spec (m SuspendCount) 0) as [He|He]; cbn [negb]; [|by cbn].
  rewrite run_fetch_add. set (m1 := upd m TakeCount _).
  assert (same_cells m m1) as Hs by (apply same_upd; unfold stat; auto).
  pose proof (same_pool_ok p m m1 P Hs) as P1.
  destruct (Z.eqb_spec req 0) as [Hz|Hz]; [cbn; by split_and!|].
  pose proof (take_ladder_spec p m1 req mr (Z.max me mr) P1 Hrd Hreq) as H.
  destruct (run _ m1) as [res m'].
  split; [by eapply searches_pool_ok; [done|apply reach_pool|done]|]. split; [done|]. intros _ _.
  destruct H as (_ & _ & H).
  assert (forall (src : source) i, m1 (Slot (id src.1) i) = m (Slot (id src.1) i)) as Hcells
    by (intros src i; apply Hs; by intros [|[|[|]]]).
  destruct res as [[a s]|]; cbn in *.
  - destruct H as (src & i & Hsrc & Hsv & -> & ->). exists src, i. rewrite Hcells.
    split_and!; try done; by apply (serves_same _ _ _ m m1 src i (Hcells src i)).
  - intros src i Hsrc Hsv. apply (H src i Hsrc). by apply (serves_same _ _ _ m m1 src i (Hcells src i)).
Qed.

(** A request to the pool.  A paused or disabled pool gives nothing and is
    not touched.  Otherwise a hit is a record of one of the bins the request
    reaches, at or above both lower bounds and large enough, a miss means that
    no record within reach could serve the request, and the pool stays
    consistent. *)
Theorem pool_take_correct p m req mr me
    (P : pool_ok p m) (Hrd : reader_ok p) (Hreq : 0 <= req) :
  let '(res, m') := run (Pool.take p req mr me) m in
  pool_ok p m' /\
  (m SuspendCount <> 0 -> res = None /\ m' = m) /\
  (m SuspendCount = 0 -> req <> 0 -> search_post (reach p req) req mr (Z.max me mr) m res).
Proof. by apply pool_take_spec. Qed.

(** ** Giving records back *)

Lemma put_frame b a s mn m st m' l :
  put_post b a s mn m st m' -> ~ cell_of b l -> l <> Cursor (id b) -> m' l = m l.
Proof.
  intros H Hl Hc. assert (advance b m l = m l) as Ha by (unfold advance; by rewrite upd_ne).
  unfold put_post in H. destruct (put_ok b a s mn && negb (capacity b =? 0)%nat); [|by destruct H as [_ ->]].
  destruct st; cbn in H.
  - destruct H as (i & _ & _ & ->). unfold fill_slot. cbv zeta.
    rewrite !upd_ne; [done|..]; intros <-; apply Hl; [left; eauto|by right].
  - destruct H as (i & _ & _ & _ & ->). rewrite upd_ne; [done|]. intros <-. apply Hl. left. eauto.
  - by destruct H as [-> _].
Qed.

(** The record is in bin [b], and [m'] is [m] up to cells of [b]. *)
Definition kept (b : FreeRecordBin) (a s mn : Z) (m' : mem loc) : Prop :=
  put_ok b a s mn = true /\ exists i, (i < capacity b)%nat /\ m' (Slot (id b) i) = stored b a s.

Lemma put_kept b a s mn m st m' :
  put_post b a s mn m st m' -> st <> Occupied -> kept b a s mn m'.
Proof.
  unfold put_post, kept. intros H Hst. destruct (put_ok b a s mn); [|by destruct H].
  destruct (capacity b =? 0)%nat; [by destruct H|]. split; [done|]. destruct st; [| |done].
  - destruct H as (i & (j & [= <-] & Hi)%in_slots_inv & _ & ->). exists i. split; [done|].
    unfold fill_slot. by rewrite upd_ne, upd_eq.
  - destruct H as (i & (j & [= <-] & Hi)%in_slots_inv & _ & _ & ->). exists i. by rewrite upd_eq.
Qed.

Lemma kept_same b a s mn m m' : same_cells m m' -> kept b a s mn m -> kept b a s mn m'.
Proof.
  intros Hs [Ho (i & Hi & E)]. split; [done|]. exists i. split; [done|]. rewrite Hs; [done|].
  by intros [|[|[|]]].
Qed.

(** One bin of the pool: the others are as they were. *)
Lemma put_pool_ok p b a s mn m st m' :
  pool_ok p m -> pool_bin p b -> 0 <= a -> 0 <= s -> put_post b a s mn m st m' ->
  pool_ok p m' /\ m' SuspendCount = m SuspendCount.
Proof.
  intros P Hb Ha Hs H. split.
  - apply (pool_ok_bins p m); [done|]. intros c Hc. destruct (decide (id b = id c)) as [E|Hne].
    + rewrite <- (pool_bin_id p m b c P Hb Hc E). apply (put_bin_ok b a s mn m st m'); [done..| |done].
      by apply (pool_bin_ok p).
    + apply (bin_ok_frame c m); [|by apply (pool_bin_ok p)]. intros l Hl.
      eapply put_frame; [done|by apply (other_cell b c l)|]. by destruct Hl as [[i ->]| ->].
  - eapply put_frame; [done| |done]. by intros [[i ?]|?].
Qed.

(** What giving a record back to some bins does. *)
Definition put_window_post (p : FreeRecordPool) (bs : list FreeRecordBin) (a s mn : Z) (m : mem loc)
    (ok : bool) (m' : mem loc) : Prop :=
  pool_ok p m' /\ m' SuspendCount = m SuspendCount /\
  (ok = true -> exists b, b ∈ bs /\ kept b a s mn m').

Lemma run_count_drop {B} n (q : prog loc B) m :
  exists m', run (bind (count_drop n) (fun _ => q)) m = run q m' /\ same_cells m m' /\
    m' SuspendCount = m SuspendCount.
Proof.
  eexists. split; [reflexivity|]. split; [apply same_upd; unfold stat; auto|]. by rewrite upd_ne.
Qed.

Lemma put_window_spec p bs a s mn : forall m,
  pool_ok p m -> (forall b, b ∈ bs -> pool_bin p b) -> 0 <= a -> 0 <= s ->
  let '(ok, m') := run (put_window bs a s mn) m in put_window_post p bs a s mn m ok m'.
Proof.
  induction bs as [|b bs IH]; intros m P Hbs Ha Hs; cbn [put_window].
  { destruct (run_count_drop 1 (Ret false) m) as (m' & -> & Hsm & ?). cbn.
    split_and!; try done. by apply (same_pool_ok p m). }
  rewrite run_bind. pose proof (put_spec b a s mn m) as H.
  destruct (run (Bin.put b a s mn) m) as [st m1].
  assert (pool_bin p b) as Hb by (apply Hbs; by left).
  destruct (put_pool_ok p b a s mn m st m1 P Hb Ha Hs H) as [P1 E1].
  pose proof (put_kept _ _ _ _ _ _ _ H) as Hk. destruct st.
  - cbn. split_and!; try done. intros _. exists b. split; [by left|by apply Hk].
  - destruct (run_count_drop 1 (Ret true) m1) as (m' & -> & Hsm & E2). cbn.
    split; [by apply (same_pool_ok p m1)|]. split; [congruence|]. intros _. exists b. split; [by left|].
    apply (kept_same _ _ _ _ m1); [done|by apply Hk].
  - specialize (IH m1 P1 ltac:(intros c Hc; apply Hbs; by right) Ha Hs).
    destruct (run (put_window bs a s mn) m1) as [ok m']. destruct IH as (P' & E' & IH).
    split; [done|]. split; [congruence|]. intros ->. destruct (IH eq_refl) as (c & Hc & ?).
    exists c. split; [by right|done].
Qed.

(** *** Choosing bins *)

Lemma partition_point_spec f l :
  (forall i b, l !! i = Some b -> (i < partition_point f l)%nat -> f b = true) /\
  (forall b, l !! partition_point f l = Some b -> f b = false) /\ (partition_point f l <= length l)%nat.
Proof.
  induction l as [|b l (IH1 & IH2 & IH3)]; cbn; [split_and!; [|done..]; intros; lia|].
  destruct (f b) eqn:E; (split; [|split]); try lia.
  - intros [|i] c; cbn; [by intros [= <-]|]. intros Hc Hi. apply (IH1 i); [done|lia].
  - apply IH2.
  - by intros c [= <-].
Qed.

Lemma find_bin_index_None p m s :
  pool_ok p m -> MAX_INLINE_SIZE < s -> find_bin_index p s = None.
Proof.
  intros P Hs. unfold find_bin_index.
  destruct (partition_point_spec (fun b => max_size b <? s) (bins p)) as (_ & H & _).
  destruct (Nat.ltb_spec (partition_point (fun b => max_size b <? s) (bins p)) (length (bins p))) as [Hlt|]; [|done].
  apply lookup_lt_is_Some_2 in Hlt as [b Hb]. specialize (H b Hb). apply Z.ltb_ge in H.
  destruct (pk_bins p m P _ _ Hb) as (_ & _ & ?). lia.
Qed.

(** What giving a record back to the pool does: a record it keeps is within
    reach of requests of its size. *)
Definition pool_put_post (p : FreeRecordPool) (a s mn : Z) (m : mem loc) (ok : bool) (m' : mem loc)
  : Prop :=
  pool_ok p m' /\ m' SuspendCount = m SuspendCount /\
  (ok = true -> exists src, src ∈ reach p s /\ kept src.1 a s mn m' /\
     (src.2 = None <-> s <= MAX_INLINE_SIZE)).

Lemma put_refused p a s mn m :
  pool_ok p m ->
  let '(ok, m') := run (count_drop 1 ;; Ret false) m in pool_put_post p a s mn m ok m'.
Proof.
  intros P. destruct (run_count_drop 1 (Ret false) m) as (m' & -> & Hsm & ?). cbn.
  split_and!; try done. by apply (same_pool_ok p m).
Qed.

Lemma put_arm_spec p a s mn m :
  pool_ok p m -> 0 <= a -> MAX_INLINE_SIZE < s ->
  let '(ok, m') := run (put_oversize p a s mn) m in pool_put_post p a s mn m ok m'.
Proof.
  intros P Ha Hs. unfold put_oversize. destruct (oversize p) as [arm|] eqn:Earm; [|by apply put_refused].
  change MAX_INLINE_SIZE with 65535 in *.
  pose proof (put_window_spec p [bin arm] a s mn m P) as H.
  specialize (H ltac:(intros b ->%list_elem_of_singleton; right; eauto) Ha ltac:(lia)).
  cbn [put_window] in H. destruct (run _ m) as [ok m']. destruct H as (P' & E' & H).
  split_and!; try done. intros Hok. destruct (H Hok) as (b & ->%list_elem_of_singleton & Hk).
  exists (bin arm, Some (read_size arm)).
  split_and!; try done; [|change MAX_INLINE_SIZE with 65535; split; [done|lia]].
  unfold reach. rewrite (find_bin_index_None p m) by done. unfold arm_sources. rewrite Earm.
  destruct Hk as [Hput _]. unfold put_ok in Hput. destruct (pk_arm p m P arm Earm) as (_ & _ & Hbig).
  unfold is_oversize in Hput. destruct (Z.ltb_spec MAX_INLINE_SIZE (max_size (bin arm))); [|lia].
  apply andb_true_iff in Hput as [_ Hle%Z.leb_le].
  destruct (Z.ltb_spec (max_size (bin arm)) s); [lia|]. by left.
Qed.

Lemma pool_put_spec p m a s mn :
  pool_ok p m -> 0 <= a -> 0 <= s ->
  let '(ok, m') := run (Pool.put p a s mn) m in pool_put_post p a s mn m ok m'.
Proof.
  intros P Ha Hs. unfold Pool.put. rewrite run_fetch_add. set (m1 := upd m PutCount _).
  assert (same_cells m m1) as Hs1 by (apply same_upd; unfold stat; auto).
  pose proof (same_pool_ok p m m1 P Hs1) as P1.
  assert (forall ok m', pool_put_post p a s mn m1 ok m' -> pool_put_post p a s mn m ok m') as Hm
    by (intros ok m'; done).
  destruct (Z.ltb_spec MAX_INLINE_SIZE s) as [Hl|Hl].
  { pose proof (put_arm_spec p a s mn m1 P1 Ha Hl). by destruct (run _ m1). }
  destruct (validate a s mn); cbn [negb]; [|by pose proof (put_refused p a s mn m1 P1); destruct (run _ m1)].
  destruct (find_bin_index p s) as [k|] eqn:Ek;
    [|by pose proof (put_refused p a s mn m1 P1); destruct (run _ m1)].
  pose proof (put_window_spec p (search_window p k) a s mn m1 P1) as H.
  specialize (H ltac:(intros b (i & Hi & _)%search_window_lookup; left; eauto) Ha Hs).
  destruct (run (put_window (search_window p k) a s mn) m1) as [ok m']. destruct H as (P' & E' & H).
  split_and!; try done. intros Hok. destruct (H Hok) as (b & Hb & Hk). exists (inline b).
  split_and!; try done. unfold reach. rewrite Ek. apply elem_of_app. left.
  by apply (list_elem_of_fmap_2 inline).
Qed.

(** What the pool accepts can be taken again: after a record was given back
    successfully, a request of the same size whose lower bounds are not above
    the record's address succeeds, with a record at least as large.  For
    oversize records the size read from the record's header must be the size it
    was given back with, or more. *)
Theorem pool_put_take p m m' a s mn mr me
    (P : pool_ok p m) (Hrd : reader_ok p) (Ha : 0 <= a) (Hs : 0 < s)
    (Hput : run (Pool.put p a s mn) m = (true, m')) (Hon : m SuspendCount = 0)
    (Hmr : mr <= a) (Hme : me <= a)
    (Hread : MAX_INLINE_SIZE < s -> forall arm, oversize p = Some arm ->
               exists z, read_size arm a = Some z /\ s <= z) :
  exists a' s', (run (Pool.take p s mr me) m').1 = Some (a', s') /\ s <= s' /\ mr <= a' /\ me <= a'.
Proof.
  pose proof (pool_put_spec p m a s mn P Ha ltac:(lia)) as H. rewrite Hput in H.
  destruct H as (P' & Eon & H). destruct (H eq_refl) as (src & Hsrc & [Hok (i & Hi & E)] & Hinl).
  destruct (stored_spec src.1 a s mn Ha ltac:(lia) Hok) as (Hne & Hadr & _ & Hsz).
  assert (serves s mr (Z.max me mr) m' src i) as Hserve.
  { split; [done|]. unfold candidate. rewrite E, Hadr. split_and!; [done|lia|lia|].
    destruct (reach_lookup p s src Hsrc) as [(k & Hk & Hn)|(arm & Harm & ->)].
    - rewrite Hn. cbn. destruct (pk_bins p m P k src.1 Hk) as (_ & _ & Hmax).
      destruct Hsz as [-> _]; [|done]. unfold is_oversize. apply Z.ltb_ge. lia.
    - cbn in Hadr, Hinl |- *. rewrite Hadr.
      destruct (Z.lt_ge_cases MAX_INLINE_SIZE s) as [Hbig|Hsmall]; [|by apply Hinl in Hsmall].
      by destruct (Hread Hbig arm Harm) as (z & -> & ?). }
  pose proof (pool_take_spec p m' s mr me P' Hrd ltac:(lia)) as Ht.
  destruct (run (Pool.take p s mr me) m') as [res m2]. destruct Ht as (_ & _ & Ht).
  rewrite Hon in Eon. specialize (Ht Eon ltac:(lia)). destruct res as [[a' s']|].
  - destruct Ht as (src' & j & _ & [_ (_ & Hr & Hm & Hz)] & -> & ->). cbn. do 2 eexists.
    split; [done|]. split_and!; lia.
  - by destruct (Ht src i Hsrc).
Qed.

(** ** Building *)

Lemma check_sizes_spec sizes : forall prev,
  check_sizes sizes prev = None <->
    (forall i s, sizes !! i = Some s -> prev < s /\ s <> 0 /\ s <= MAX_INLINE_SIZE) /\
    (forall i j s t, sizes !! i = Some s -> sizes !! j = Some t -> (i < j)%nat -> s < t).
Proof.
  induction sizes as [|z sizes IH]; intros prev; cbn; [done|].
  destruct ((z =? 0) || (z <=? prev)) eqn:E1.
  { split; [done|]. intros [H _]. specialize (H 0%nat z eq_refl).
    apply orb_true_iff in E1 as [?%Z.eqb_eq|?%Z.leb_le]; lia. }
  apply orb_false_iff in E1 as [Hz%Z.eqb_neq Hp%Z.leb_gt].
  destruct (Z.ltb_spec MAX_INLINE_SIZE z) as [Hm|Hm].
  { split; [done|]. intros [H _]. specialize (H 0%nat z eq_refl). lia. }
  rewrite IH. split; intros [H1 H2].
  - split.
    + intros [|i] s; cbn; [by intros [= <-]|]. intros Hs. destruct (H1 i s Hs). lia.
    + intros [|i] [|j] s t; cbn; intros Hs Ht Hij; try lia.
      * injection Hs as <-. by destruct (H1 j t Ht).
      * apply (H2 i j); [done..|lia].
  - split.
    + intros i s Hs. destruct (H1 (S i) s Hs) as (? & ? & ?). split_and!; try done.
      apply (H2 0%nat (S i)); [done..|lia].
    + intros i j s t Hs Ht Hij. apply (H2 (S i) (S j)); [done..|lia].
Qed.

Definition ladder (sizes : list Z) : Prop :=
  (forall i s, sizes !! i = Some s -> 0 < s <= MAX_INLINE_SIZE) /\
  (forall i j s t, sizes !! i = Some s -> sizes !! j = Some t -> (i < j)%nat -> s < t).

Lemma check_ladder sizes : Forall (Z.le 0) sizes -> check_sizes sizes 0 = None <-> ladder sizes.
Proof.
  intros Hpos. rewrite check_sizes_spec. unfold ladder. split; intros [H1 H2]; (split; [|done]); intros i s Hs;
    specialize (H1 i s Hs); lia.
Qed.

Lemma zero_bin_ok b v :
  Z.of_nat (capacity b) < 2 ^ 63 -> bin_ok (upd (fun _ => 0) SuspendCount v) b.
Proof.
  intros Hc. split; [|done|done]. symmetry. unfold nonempty.
  rewrite (zsum_ext _ (fun _ => 0)) by (intros l (i & -> & _)%in_slots_inv; done).
  by induction (slots b).
Qed.

Lemma build_pool_ok sizes cap limit v :
  Z.of_nat cap < 2 ^ 63 -> ladder sizes ->
  pool_ok (mkPool (imap (fun i s => with_scan_limit i s cap limit) sizes) None)
          (upd (fun _ => 0) SuspendCount v).
Proof.
  intros Hcap [H1 H2].
  assert (forall i b, imap (fun i s => with_scan_limit i s cap limit) sizes !! i = Some b ->
    exists s, sizes !! i = Some s /\ b = with_scan_limit i s cap limit /\ max_size b = s) as Hl.
  { intros i b. rewrite list_lookup_imap. destruct (sizes !! i) as [s|] eqn:E; [|done]. cbn.
    intros [= <-]. exists s. split_and!; try done. cbn. specialize (H1 i s E). lia. }
  split; cbn [bins oversize]; [| |done].
  - intros i b Hb. destruct (Hl i b Hb) as (s & Hs & -> & Hm). split; [done|].
    split; [by apply zero_bin_ok|]. rewrite Hm. by apply (H1 i).
  - intros i j b c Hb Hc Hij. destruct (Hl i b Hb) as (s & Hs & _ & ->), (Hl j c Hc) as (t & Ht & _ & ->).
    by apply (H2 i j).
Qed.

Lemma default_ladder : ladder DEFAULT_BIN_SIZES.
Proof. apply check_ladder; [by repeat constructor|]. by vm_compute. Qed.

(** A pool is built exactly from a non-empty, strictly increasing ladder of
    positive sizes that fit the slot word and a positive number of slots; the
    pool is consistent, its bins have these sizes, and it is enabled as asked.
    The default pool is always built: the error branch that the source marks
    unreachable is never taken. *)
Theorem build_correct sizes cap limit enable
    (Hcap : Z.of_nat cap < 2 ^ 63) (Hpos : Forall (Z.le 0) sizes) :
  (sizes <> [] /\ cap <> 0%nat /\ ladder sizes <-> exists r, build sizes cap limit enable = inl r) /\
  (forall p m, build sizes cap limit enable = inl (p, m) ->
     pool_ok p m /\ map max_size (bins p) = sizes /\ (run is_enabled m).1 = enable) /\
  (exists p m, Pool.new enable = inl (p, m) /\ pool_ok p m).
Proof.
  pose proof (check_ladder sizes Hpos) as Hl. split_and!.
  - unfold build. destruct sizes as [|z zs]; cbn [length Nat.eqb].
    { split; [by intros []|by intros []]. }
    destruct (Nat.eqb_spec cap 0) as [->|Hc]; [split; [by intros (_ & ? & _)|by intros []]|].
    destruct (check_sizes (z :: zs) 0) as [e|]; split; try (by intros []); eauto.
    + intros (_ & _ & H%Hl). done.
    + intros _. split_and!; try done. by apply Hl.
  - intros p m. unfold build. destruct (length sizes =? 0)%nat; [done|].
    destruct (cap =? 0)%nat; [done|]. destruct (check_sizes sizes 0) as [e|] eqn:E; [done|].
    apply (check_ladder sizes Hpos) in E. intros [= <- <-]. split_and!; [by apply build_pool_ok| |].
    + cbn [bins]. apply list_eq. intros i. rewrite list_lookup_fmap, list_lookup_imap.
      destruct (sizes !! i) as [s|] eqn:Es; [|done]. cbn. destruct E as [E _]. specialize (E i s Es).
      f_equal. lia.
    + cbn. rewrite upd_eq. by destruct enable.
  - do 2 eexists. split; [reflexivity|]. apply build_pool_ok; [by vm_compute|apply default_ladder].
Qed.

Lemma build_correct_witness :
  exists p m, build [16; 64] 2 BEST_FIT_SCAN_ALL true = inl (p, m) /\ pool_ok p m /\
    map max_size (bins p) = [16; 64].
Proof.
  destruct (build_correct [16; 64] 2 BEST_FIT_SCAN_ALL true) as (_ & H & _); [cbn; lia|by repeat constructor|].
  do 2 eexists. split; [reflexivity|]. destruct (H _ _ eq_refl) as (H1 & H2 & _). split; [exact H1|exact H2].
Defined.

Definition demo_pool : FreeRecordPool :=
  with_oversize (mkPool (imap (fun i s => with_scan_limit i s 2 BEST_FIT_SCAN_ALL) [16; 64; 256]) None)
    131072 (fun _ => Some 70000).
Definition zero_mem : mem loc := upd (fun _ => 0) SuspendCount 0.

Lemma demo_pool_ok : pool_ok demo_pool zero_mem.
Proof.
  destruct (build_pool_ok [16; 64; 256] 2 BEST_FIT_SCAN_ALL 0) as [H1 H2 _].
  - cbn. lia.
  - apply check_ladder; [by repeat constructor|]. by vm_compute.
  - split; [exact H1|exact H2|]. intros arm [= <-]. split; [done|]. split; [|cbn; done].
    apply zero_bin_ok. by vm_compute.
Qed.

Lemma demo_reader_ok : reader_ok demo_pool.
Proof. intros arm a s [= <-] [= <-]. done. Qed.

Lemma pool_take_correct_witness :
  pool_ok demo_pool (run (Pool.take demo_pool 100 0 0) zero_mem).2.
Proof.
  pose proof (pool_take_correct demo_pool zero_mem 100 0 0 demo_pool_ok demo_reader_ok ltac:(lia)) as H.
  destruct (run (Pool.take demo_pool 100 0 0) zero_mem) as [res m']. exact (proj1 H).
Defined.

Lemma pool_put_take_witness :
  exists a' s', (run (Pool.take demo_pool 70000 100 4000)
                     (run (Pool.put demo_pool 4096 70000 100) zero_mem).2).1 = Some (a', s') /\ 70000 <= s'.
Proof.
  destruct (pool_put_take demo_pool zero_mem (run (Pool.put demo_pool 4096 70000 100) zero_mem).2
              4096 70000 100 100 4000 demo_pool_ok demo_reader_ok) as (a' & s' & H1 & H2 & _);
    [lia|lia|vm_compute; reflexivity|reflexivity|lia|lia| |].
  - intros _ arm [= <-]. exists 70000. split; [reflexivity|lia].
  - exists a', s'. split; [exact H1|exact H2].
Defined.

End RevivPool.
