(* ===== verification/RevivConc.v ===== *)
(** * The revivification pool under concurrency ([wedb/wreviv/src])

    Any number of threads give records back, take and purge at the same time.
    A record is handed out at most as often as it was given back, and when all
    threads have finished the counter of every bin is again the number of its
    occupied slots. *)

From stdpp Require Import base list numbers option tactics relations.
From Stdlib Require Import ZArith Lia Bool.
From S2P Require Import Prelude Base Atomic Reviv RevivSpec RevivPool.

Module RevivConc.
Import FreeRecord Bin RevivSpec.
Local Open Scope prog_scope.

Inductive client : Type :=
| Putter (address size min_address : Z)
| Taker (required_size min_reviv_addr min_eligible_addr : Z)
| Purger (fuel : nat) (min_address : Z)
| Pauser
| Resumer.

Inductive outcome : Type :=
| PutDone (ok : bool)
| Took (hit : option (Z * Z))
| Finished.

Definition client_prog (p : Pool.FreeRecordPool) (c : client) : prog loc outcome :=
  match c with
  | Putter a s mn => let* ok := Pool.put p a s mn in Ret (PutDone ok)
  | Taker req mr me => let* hit := Pool.take p req mr me in Ret (Took hit)
  | Purger fuel mn => let* _ := Pool.purge_below fuel p mn in Ret Finished
  | Pauser => Pool.pause ;; Ret Finished
  | Resumer => Pool.resume ;; Ret Finished
  end.

(** What a thread has done: the word it stored, the word it took, and the
    change of a bin's counter it still owes. *)
Record ghost : Type := mkGhost { who : client; put_word : Z; took_word : Z; owes : nat * Z }.

Definition idle (c : client) : ghost := mkGhost c 0 0 (0%nat, 0).
Definition gave (c : client) (w : Z) : ghost := mkGhost c w 0 (0%nat, 0).
Definition carries (c : client) (w : Z) : ghost := mkGhost c 0 w (0%nat, 0).

(** 1 if the word holds a record at address [a]. *)
Definition holds (a w : Z) : Z := if raw_address w =? a then 1 else 0.
Definition owed (b : FreeRecordBin) (g : ghost) : Z := if decide ((owes g).1 = id b) then (owes g).2 else 0.

(** 1 if the client gives back a record at address [a]. *)
Definition offers (a : Z) (c : client) : Z :=
  match c with Putter a' _ _ => if a' =? a then 1 else 0 | _ => 0 end.

(** A thread stores only the record it was asked to. *)
Definition honest (g : ghost) : Prop := forall a, a <> 0 -> holds a (put_word g) <= offers a (who g).

(** All bins of the pool. *)
Definition pool_bins (p : Pool.FreeRecordPool) : list FreeRecordBin :=
  Pool.bins p ++ match Pool.oversize p with Some arm => [Pool.bin arm] | None => [] end.

Definition all_slots (bs : list FreeRecordBin) : list loc := concat (map slots bs).

Lemma in_all_slots bs b i : In b bs -> (i < capacity b)%nat -> In (Slot (id b) i) (all_slots bs).
Proof. intros Hb Hi. apply in_concat. exists (slots b). split; [by apply in_map|by apply in_slots]. Qed.

Lemma all_slots_inv bs l : In l (all_slots bs) -> exists b i, In b bs /\ l = Slot (id b) i.
Proof.
  intros (ls & Hls & Hl)%in_concat. apply in_map_iff in Hls as (b & <- & Hb).
  apply in_slots_inv in Hl as (i & -> & _). eauto.
Qed.

Lemma all_slots_bounded bs l :
  In l (all_slots bs) -> exists b i, In b bs /\ l = Slot (id b) i /\ (i < capacity b)%nat.
Proof.
  intros (ls & Hls & Hl)%in_concat. apply in_map_iff in Hls as (b & <- & Hb).
  apply in_slots_inv in Hl as (i & -> & Hi). eauto.
Qed.

Lemma all_slots_NoDup bs : List.NoDup (map id bs) -> List.NoDup (all_slots bs).
Proof.
  induction bs as [|b bs IH]; intros Hnd; [constructor|]. apply NoDup_cons_iff in Hnd as [Hb Hnd].
  unfold all_slots. cbn. apply List.NoDup_app; [apply slots_NoDup|by apply IH|].
  intros l Hl Hl'. apply in_slots_inv in Hl as (i & -> & _).
  apply all_slots_inv in Hl' as (c & j & Hc & [= E _]). apply Hb. rewrite E. by apply in_map.
Qed.

Section Protocol.
Context (bs : list FreeRecordBin) (ids : List.NoDup (map id bs)).
Context (m0 : mem loc) (clients : list client).

Definition stored_at (a : Z) (m : mem loc) : Z := zsum (fun l => holds a (m l)) (all_slots bs).

Record Inv (m : mem loc) (gs : list ghost) : Prop := {
  inv_who : map who gs = clients;
  inv_records : forall a, a <> 0 ->
    stored_at a m + zsum (fun g => holds a (took_word g)) gs <=
    stored_at a m0 + zsum (fun g => holds a (put_word g)) gs;
  inv_counts : forall b, In b bs ->
    m (ActiveCount (id b)) = wrap 64 (nonempty b m - zsum (owed b) gs);
  inv_words : forall l, In l (all_slots bs) -> fits 64 (m l);
  inv_honest : Forall honest gs
}.

Lemma bin_unique b c : In b bs -> In c bs -> id b = id c -> b = c.
Proof.
  clear m0 clients. induction bs as [|d ds IH]; intros Hb Hc E; [done|].
  apply NoDup_cons_iff in ids as [Hd Hnd].
  destruct Hb as [->|Hb], Hc as [->|Hc]; [done|..].
  - destruct Hd. rewrite E. by apply in_map.
  - destruct Hd. rewrite <- E. by apply in_map.
  - by apply IH.
Qed.

(** ** Steps that keep the accounts *)

Lemma Inv_idle m gs i g : Inv m gs -> gs !! i = Some g -> Inv m (<[i := g]> gs).
Proof. intros H Hi. by rewrite list_insert_id. Qed.

(** Cells the accounts do not mention. *)
Definition neutral (l : loc) : Prop :=
  match l with Slot _ _ | ActiveCount _ => False | _ => True end.

Lemma Inv_neutral m gs l v : neutral l -> Inv m gs -> Inv (upd m l v) gs.
Proof.
  intros Hl [Hw Hr Hc Hf Hh]. assert (forall l', In l' (all_slots bs) -> upd m l v l' = m l') as Hs.
  { intros l' (b & i & _ & ->)%all_slots_inv. rewrite upd_ne; [done|]. by intros ->. }
  split; [done| | | |done].
  - intros a Ha. unfold stored_at at 1.
    rewrite (zsum_ext _ (fun l => holds a (m l))) by (intros l' Hl'; by rewrite Hs). by apply Hr.
  - intros b Hb. rewrite upd_ne by (by intros ->).
    rewrite (nonempty_ext b m (upd m l v)) by (intros i; rewrite upd_ne; [done|]; by intros ->).
    by apply Hc.
  - intros l' Hl'. rewrite Hs by done. by apply Hf.
Qed.

Lemma who_insert gs i g g' : gs !! i = Some g -> who g' = who g -> map who (<[i := g']> gs) = map who gs.
Proof.
  intros Hi E. change (map who) with (fmap (M := list) who). rewrite list_fmap_insert, E.
  apply list_insert_id. by rewrite list_lookup_fmap, Hi.
Qed.

Lemma stored_upd a m b i w :
  In b bs -> (i < capacity b)%nat ->
  stored_at a (upd m (Slot (id b) i) w) = stored_at a m - holds a (m (Slot (id b) i)) + holds a w.
Proof.
  intros Hb Hi. unfold stored_at.
  rewrite (zsum_change (fun l => holds a (m l)) _ _ (Slot (id b) i) (all_slots_NoDup bs ids)).
  - by rewrite upd_eq.
  - by apply in_all_slots.
  - intros c Hc. by rewrite upd_ne.
Qed.

(** A slot changes from [old] to [w]: the thread's ghost pays for it. *)
Lemma Inv_slot m gs k g g' b i w :
  Inv m gs -> gs !! k = Some g -> In b bs -> (i < capacity b)%nat -> fits 64 w ->
  who g' = who g -> honest g' ->
  (forall a, a <> 0 -> holds a w + holds a (took_word g') + holds a (put_word g) <=
       holds a (m (Slot (id b) i)) + holds a (took_word g) + holds a (put_word g')) ->
  (owes g).2 = 0 ->
  (forall c, owed c g' = if decide (id b = id c) then occupied w - occupied (m (Slot (id b) i)) else 0) ->
  Inv (upd m (Slot (id b) i) w) (<[k := g']> gs).
Proof.
  intros [Hw Hr Hc Hf Hh] Hk Hb Hi Hfw Ewho Hhon Hpay Howe Howe'. split.
  - by rewrite (who_insert gs k g).
  - intros a Ha. rewrite stored_upd, !(zsum_insert _ _ _ _ _ Hk) by done.
    specialize (Hr a Ha). specialize (Hpay a Ha). lia.
  - intros c Hcin. rewrite upd_ne by done. rewrite (zsum_insert _ _ _ _ _ Hk), (Hc c Hcin).
    f_equal. assert (owed c g = 0) as -> by (unfold owed; destruct (decide _); lia).
    rewrite Howe'. destruct (decide (id b = id c)) as [E|Hne].
    + rewrite <- (bin_unique b c Hb Hcin E). rewrite nonempty_upd by done. lia.
    + rewrite (nonempty_ext c m (upd m (Slot (id b) i) w)) by (intros j; rewrite upd_ne; [done|]; congruence).
      lia.
  - intros l Hl. unfold upd. destruct (decide _); [done|by apply Hf].
  - by apply Forall_insert.
Qed.

(** The debt to a counter is paid. *)
Lemma Inv_count m gs k g g' b f :
  Inv m gs -> gs !! k = Some g -> In b bs -> who g' = who g -> took_word g' = took_word g ->
  put_word g' = put_word g -> (owes g).1 = id b -> owes g' = (0%nat, 0) ->
  (forall v, f v = wrap 64 (v + (owes g).2)) ->
  Inv (upd m (ActiveCount (id b)) (f (m (ActiveCount (id b))))) (<[k := g']> gs).
Proof.
  intros [Hw Hr Hc Hf Hh] Hk Hb Ewho Etook Eput Howe Howe' Hfv.
  set (m' := upd m (ActiveCount (id b)) _).
  assert (forall c i, m' (Slot (id c) i) = m (Slot (id c) i)) as Hs by (intros; by apply upd_ne).
  split.
  - by rewrite (who_insert gs k g).
  - intros a Ha. rewrite !(zsum_insert _ _ _ _ _ Hk), Etook, Eput. unfold stored_at at 1.
    rewrite (zsum_ext _ (fun l => holds a (m l)))
      by (intros l (c & i & _ & ->)%all_slots_inv; by rewrite Hs).
    specialize (Hr a Ha). unfold stored_at in Hr at 1. lia.
  - intros c Hcin. rewrite (nonempty_ext c m m') by apply Hs. rewrite (zsum_insert _ _ _ _ _ Hk).
    assert (owed c g' = 0) as -> by (unfold owed; rewrite Howe'; by destruct (decide _)).
    change (owed c g) with (if decide ((owes g).1 = id c) then (owes g).2 else 0).
    destruct (decide ((owes g).1 = id c)) as [E|Hne].
    + rewrite Howe in E. rewrite <- (bin_unique b c Hb Hcin E). unfold m'. rewrite upd_eq, Hfv, (Hc b Hb).
      unfold wrap. rewrite Z.add_mod_idemp_l by done. f_equal. lia.
    + unfold m'. rewrite upd_ne by congruence. rewrite (Hc c Hcin). f_equal. lia.
  - intros l Hl. pose proof Hl as (c & i & _ & ->)%all_slots_inv. rewrite Hs. by apply Hf.
  - apply Forall_insert; [done|]. intros a Ha. rewrite Eput, Ewho.
    by apply (proj1 (Forall_lookup _ _) Hh k g Hk).
Qed.

(** ** Threads *)

Lemma wp_load {A} l (k : Z -> prog loc A) g Q :
  (forall v, wp Inv (k v) g Q) -> wp Inv (Load l k) g Q.
Proof. intros H m gs i HI Hi. exists g. split; [by apply Inv_idle|done]. Qed.

Lemma wp_rmw {A} l f (k : Z -> prog loc A) g Q :
  neutral l -> (forall v, wp Inv (k v) g Q) -> wp Inv (Rmw l f k) g Q.
Proof.
  intros Hl H m gs i HI Hi. exists g. split; [|done]. apply Inv_neutral; [done|]. by apply Inv_idle.
Qed.

Lemma holds_zero a : a <> 0 -> holds a 0 = 0.
Proof. unfold holds. change (raw_address 0) with 0. by destruct (Z.eqb_spec 0 a). Qed.

Lemma holds_nonneg a w : 0 <= holds a w.
Proof. unfold holds. by destruct (_ =? _). Qed.

Lemma honest_none c w d : honest (mkGhost c 0 w d).
Proof. intros a Ha. cbn. rewrite holds_zero by done. unfold offers. destruct c; try lia. by destruct (_ =? _). Qed.

Lemma occupied_word w : w <> EMPTY_WORD -> occupied w = 1.
Proof. unfold occupied. by destruct (Z.eqb_spec w EMPTY_WORD). Qed.

(** Emptying a slot, the record dropped or carried away. *)
Lemma wp_empty {A} c b i cur w weak (k1 : prog loc A) (k2 : Z -> prog loc A) Q :
  In b bs -> (i < capacity b)%nat -> cur <> EMPTY_WORD -> w = 0 \/ w = cur ->
  wp Inv k1 (carries c w) Q -> (forall v, wp Inv (k2 v) (idle c) Q) ->
  wp Inv (Cas weak (Slot (id b) i) cur EMPTY_WORD (fun ok v =>
            if ok then Rmw (ActiveCount (id b)) (fun n => wsub 64 n 1) (fun _ => k1) else k2 v)) (idle c) Q.
Proof.
  intros Hb Hi Hcur Hw H1 H2 m gs k HI Hk. split.
  - intros Hm. exists (mkGhost c 0 w (id b, -1)). split.
    + eapply Inv_slot; [done..| |done|apply honest_none| |done|]; cbn.
      * split; done.
      * intros a Ha. rewrite Hm. pose proof (holds_nonneg a cur).
        destruct Hw as [->| ->]; rewrite !holds_zero by done; lia.
      * intros d. by rewrite Hm, (occupied_word cur).
    + intros m' gs' k' HI' Hk'. exists (carries c w). split; [|done].
      by eapply (Inv_count m' gs' k' _ _ b (fun n => wsub 64 n 1)).
  - intros _. exists (idle c). split; [by apply Inv_idle|done].
Qed.

Lemma wp_take_exact {A} c b i cur w (k1 k2 : prog loc A) Q :
  In b bs -> (i < capacity b)%nat -> cur <> EMPTY_WORD -> w = 0 \/ w = cur ->
  wp Inv k1 (carries c w) Q -> wp Inv k2 (idle c) Q ->
  wp Inv (let* ok := try_take_exact (Slot (id b) i) cur in if ok then dec_count b ;; k1 else k2)
     (idle c) Q.
Proof. intros Hb Hi Hc Hw H1 H2. exact (wp_empty c b i cur w false k1 (fun _ => k2) Q Hb Hi Hc Hw H1 (fun _ => H2)). Qed.

(** Storing a record into a slot that is empty or expired. *)
Lemma wp_cas_store c b i w mn :
  In b bs -> (i < capacity b)%nat -> fits 64 w -> w <> EMPTY_WORD -> honest (gave c w) ->
  wp Inv (cas_store (Slot (id b) i) w mn) (idle c) (fun st g =>
    g = match st with
        | InsertedEmpty => mkGhost c w 0 (id b, 1) | ReplacedExpired => gave c w | Occupied => idle c
        end).
Proof.
  intros Hb Hi Hfw Hw Hhon. apply wp_bind. cbn [wp]. apply wp_load. intros v. cbn [wp].
  destruct (negb (v =? EMPTY_WORD) && (mn <=? raw_address v)); [done|].
  apply wp_bind. cbn [wp]. intros m gs k HI Hk. split.
  - intros Hm. exists (if v =? EMPTY_WORD then mkGhost c w 0 (id b, 1) else gave c w).
    split; [|by destruct (v =? EMPTY_WORD)]. eapply Inv_slot; [done..| | | |done|].
    + by destruct (v =? EMPTY_WORD).
    + by destruct (v =? EMPTY_WORD).
    + intros a Ha. pose proof (holds_nonneg a (m (Slot (id b) i))).
      destruct (v =? EMPTY_WORD); cbn; rewrite !holds_zero by done; lia.
    + intros d. rewrite Hm, (occupied_word w) by done. unfold occupied, owed.
      destruct (v =? EMPTY_WORD); cbn; do 2 (destruct (decide _); try done).
  - intros _. exists (idle c). split; [by apply Inv_idle|done].
Qed.

(** *** Bins *)

Definition put_done (c : client) (a : Z) (st : SetStatus) (g : ghost) : Prop :=
  match st with
  | Occupied => g = idle c
  | _ => exists w, g = gave c w /\ raw_address w = a
  end.

Lemma wp_put_loop c b a sz mn ls :
  offers a c = 1 -> In b bs -> 0 <= a -> 0 <= sz -> put_ok b a sz mn = true -> incl ls (slots b) ->
  wp Inv (put_loop b a sz mn ls) (idle c) (put_done c a).
Proof.
  intros Hc Hb Ha Hs Hok Hin. destruct (stored_spec b a sz mn Ha Hs Hok) as (Hne & Hadr & _).
  assert (honest (gave c (stored b a sz))) as Hhon.
  { intros a' Ha'. cbn. unfold holds. rewrite Hadr. unfold offers in *.
    destruct (Z.eqb_spec a a') as [<-|]; [by rewrite Hc|]. destruct c; try lia. by destruct (_ =? a'). }
  induction ls as [|l ls IH]; [done|]. cbn [put_loop]. apply wp_bind.
  destruct (in_slots_inv b l) as (i & -> & Hi); [apply Hin; by left|].
  assert ((if is_oversize b then set_addr (Slot (id b) i) a mn else set (Slot (id b) i) a sz mn) =
          cas_store (Slot (id b) i) (stored b a sz) mn) as ->.
  { unfold put_ok, set, set_addr, stored in *. destruct (is_oversize b).
    - by apply andb_true_iff in Hok as [[-> _]%andb_true_iff _].
    - by apply andb_true_iff in Hok as [-> _]. }
  eapply wp_mono; [|by apply (wp_cas_store c b i (stored b a sz)); [| |apply stored_fits| |]].
  intros [| |] g ->; cbn [put_loop].
  - intros m gs k HI Hk. exists (gave c (stored b a sz)). split; [|by exists (stored b a sz)].
    by eapply (Inv_count m gs k _ _ b (fun n => wadd 64 n 1)).
  - by exists (stored b a sz).
  - apply IH. intros x Hx. apply Hin. by right.
Qed.

Lemma wp_bin_put c b a sz mn :
  offers a c = 1 -> In b bs -> 0 <= a -> 0 <= sz -> wp Inv (put b a sz mn) (idle c) (put_done c a).
Proof.
  intros Hc Hb Ha Hs. unfold put. destruct (put_ok b a sz mn) eqn:Hok; [|done].
  destruct (capacity b =? 0)%nat; [done|]. cbn [negb]. apply wp_bind. cbn [wp]. apply wp_rmw; [done|].
  intros v. cbn [wp]. apply wp_put_loop; [done..|]. intros l Hl.
  apply in_app_iff in Hl. rewrite <- (take_drop (Z.to_nat (v mod Z.of_nat (capacity b))) (slots b)).
  apply in_app_iff. tauto.
Qed.

(** A hit is the word the thread carries. *)
Definition took (c : client) (hit : option (Z * Z)) (g : ghost) : Prop :=
  match hit with
  | Some (a, _) => exists w, g = carries c w /\ raw_address w = a
  | None => g = idle c
  end.

Lemma wp_first_fit_round c b req mr me read ls : forall found p,
  In b bs -> incl ls (slots b) ->
  wp Inv (first_fit_round b req mr me read ls found p) (idle c) (fun r => took c r.1.1).
Proof.
  induction ls as [|l ls IH]; intros found p Hb Hin; [done|]. cbn [first_fit_round].
  destruct (in_slots_inv b l) as (i & -> & Hi); [apply Hin; by left|].
  specialize (fun found p => IH found p Hb ltac:(intros x Hx; apply Hin; by right)).
  apply wp_load. intros v. cbn [bind].
  destruct (Z.eqb_spec v EMPTY_WORD) as [|Hv]; [apply IH|].
  destruct (raw_address v <? mr).
  { apply (wp_take_exact c b i v 0); [done..|by left|apply IH|apply IH]. }
  destruct (raw_address v <? me); [apply IH|].
  destruct (req <=? size_at v read); [|apply IH].
  apply (wp_take_exact c b i v v); [done..|by right|cbn; by exists v|apply IH].
Qed.

Lemma wp_first_fit_rounds c b req mr me read n : forall p,
  In b bs -> wp Inv (first_fit_rounds n b req mr me read p) (idle c) (fun r => took c r.1).
Proof.
  induction n as [|n IH]; intros p Hb; [done|]. cbn [first_fit_rounds]. apply wp_bind.
  eapply wp_mono; [|apply wp_first_fit_round; [done|apply incl_refl]]. intros [[[r|] found] p'] g; cbn [fst]; [done|].
  intros ->. destruct found; cbn [negb]; [by apply IH|done].
Qed.

Lemma wp_first_fit c b req mr me read :
  In b bs -> wp Inv (first_fit b req mr me read) (idle c) (fun r => took c r.1).
Proof.
  intros Hb. apply wp_load. intros v. cbn [bind].
  destruct (_ || _); [done|by apply wp_first_fit_rounds].
Qed.

(** The variables of the scan name a slot of the bin and a record in it. *)
Definition scan_ok (b : FreeRecordBin) (s : Scan) : Prop :=
  forall i, best_idx s = Some i -> (i < capacity b)%nat /\ best_raw s <> EMPTY_WORD.

Lemma consider_ok b s i cur z req :
  scan_ok b s -> (i < capacity b)%nat -> cur <> EMPTY_WORD -> scan_ok b (consider s i cur z req).1.
Proof.
  intros Hs Hi Hc. unfold consider. destruct (req <=? z); [|done].
  destruct (z =? req); [by intros j [= <-]|]. destruct (z <? best_size s); [by intros j [= <-]|done].
Qed.

Lemma wp_best_fit_scan c b req mr me limit read idxs : forall s,
  In b bs -> Forall (fun i => i < capacity b)%nat idxs -> scan_ok b s ->
  wp Inv (best_fit_scan b req mr me limit read idxs s) (idle c) (fun s' g => g = idle c /\ scan_ok b s').
Proof.
  induction idxs as [|i idxs IH]; intros s Hb Hall Hs; [done|].
  apply Forall_cons_1 in Hall as [Hi Hall]. cbn [best_fit_scan]. apply wp_load. intros v. cbn [bind].
  assert (forall s', scan_ok b s' -> wp Inv (if scan_full s' i limit then Ret s'
            else best_fit_scan b req mr me limit read idxs s') (idle c)
            (fun s' g => g = idle c /\ scan_ok b s')) as Hnext.
  { intros s' Hs'. destruct (scan_full s' i limit); [done|by apply IH]. }
  destruct (Z.eqb_spec v EMPTY_WORD) as [|Hv]; [by apply Hnext|].
  destruct (raw_address v <? mr).
  { apply (wp_take_exact c b i v 0); [done..|by left|by apply Hnext|by apply Hnext]. }
  destruct (raw_address v <? me); [by apply Hnext|].
  pose proof (consider_ok b s i v (size_at v read) req Hs Hi Hv) as Hc.
  destruct (consider s i v (size_at v read) req) as [s' [|]]; [done|by apply Hnext].
Qed.

Lemma wp_best_fit_loop c b req mr me read n : forall limit p,
  In b bs -> wp Inv (best_fit_loop n b req mr me limit read p) (idle c) (fun r => took c r.1).
Proof.
  induction n as [|n IH]; intros limit p Hb; cbn [best_fit_loop]; apply wp_bind;
    (eapply wp_mono; [|apply (wp_best_fit_scan c b); [done| |done]];
     [|apply List.Forall_forall; intros x Hx%in_seq; lia]);
    intros s g [-> Hs]; destruct (best_idx s) as [i|] eqn:Ei; try done;
    destruct (Hs i Ei) as [Hi Hr]; apply (wp_take_exact c b i (best_raw s) (best_raw s)); try done;
    try (by right); try (cbn; by exists (best_raw s));
    assert (wp Inv (let* (res, q) := first_fit b req mr me read in Ret (res, purged s + q)) (idle c)
              (fun r => took c r.1)) as Hff
      by (apply wp_bind; eapply wp_mono; [|by apply wp_first_fit]; by intros [res q] g);
    destruct (limit / 2 <=? 1); try done. by apply IH.
Qed.

Lemma wp_best_fit c b req mr me limit read :
  In b bs -> wp Inv (best_fit b req mr me limit read) (idle c) (fun r => took c r.1).
Proof.
  intros Hb. apply wp_load. intros v. cbn [bind]. destruct (_ || _); [done|].
  destruct (limit =? USE_FIRST_FIT); [by apply wp_first_fit|by apply wp_best_fit_loop].
Qed.

Lemma wp_purge_loop c b i mn fuel : forall cur,
  In b bs -> (i < capacity b)%nat ->
  wp Inv (purge_loop fuel (Slot (id b) i) mn cur) (idle c)
     (fun ok g => g = if ok then mkGhost c 0 0 (id b, -1) else idle c).
Proof.
  induction fuel as [|fuel IH]; intros cur Hb Hi; [done|]. cbn [purge_loop].
  destruct (Z.eqb_spec cur EMPTY_WORD) as [|Hc]; [done|].
  destruct (mn <=? raw_address cur); [done|]. intros m gs k HI Hk. split.
  - intros Hm. exists (mkGhost c 0 0 (id b, -1)). split; [|done].
    eapply Inv_slot; [done..| |done|apply honest_none| |done|]; cbn.
    + split; done.
    + intros a Ha. pose proof (holds_nonneg a (m (Slot (id b) i))). rewrite !holds_zero by done. lia.
    + intros d. by rewrite Hm, (occupied_word cur).
  - intros _. exists (idle c). split; [by apply Inv_idle|]. by apply IH.
Qed.

Lemma wp_purge_slots c b mn fuel ls : forall n,
  In b bs -> incl ls (slots b) ->
  wp Inv (purge_slots fuel b mn ls n) (idle c) (fun _ g => g = idle c).
Proof.
  induction ls as [|l ls IH]; intros n Hb Hin; [done|]. cbn [purge_slots].
  destruct (in_slots_inv b l) as (i & -> & Hi); [apply Hin; by left|].
  specialize (fun n => IH n Hb ltac:(intros x Hx; apply Hin; by right)).
  apply wp_bind. apply wp_load. intros v. cbn [bind].
  eapply wp_mono; [|by apply (wp_purge_loop c b i)]. intros [|] g ->; [|apply IH].
  intros m gs k HI Hk. exists (idle c). split; [|apply IH].
  by eapply (Inv_count m gs k _ _ b (fun n => wsub 64 n 1)).
Qed.

Lemma wp_purge_below c b mn fuel :
  In b bs -> wp Inv (Bin.purge_below fuel b mn) (idle c) (fun _ g => g = idle c).
Proof.
  intros Hb. apply wp_load. intros v. cbn [bind]. destruct (_ <=? 0); [done|].
  apply wp_purge_slots; [done|apply incl_refl].
Qed.

(** *** The pool *)

Section OnePool.
Context (p : Pool.FreeRecordPool) (Hp : bs = pool_bins p).

Lemma window_bins k b : In b (Pool.search_window p k) -> In b bs.
Proof.
  rewrite Hp. unfold Pool.search_window, pool_bins. intros Hb. apply in_app_iff. left.
  apply list_elem_of_In. apply list_elem_of_In in Hb. by apply subseteq_take, subseteq_drop in Hb.
Qed.

Lemma arm_bin arm : Pool.oversize p = Some arm -> In (Pool.bin arm) bs.
Proof. intros E. rewrite Hp. unfold pool_bins. rewrite E. apply in_app_iff. right. by left. Qed.

Lemma wp_count_drop {A} n (k : prog loc A) g Q :
  wp Inv k g Q -> wp Inv (Pool.count_drop n ;; k) g Q.
Proof. intros H. by apply wp_rmw. Qed.

(** A put that was accepted left its word in a slot. *)
Definition put_answer (c : client) (a : Z) (ok : bool) (g : ghost) : Prop :=
  if ok then exists w, g = gave c w /\ raw_address w = a else g = idle c.

Lemma wp_put_window c a s mn l :
  offers a c = 1 -> 0 <= a -> 0 <= s -> incl l bs ->
  wp Inv (Pool.put_window l a s mn) (idle c) (put_answer c a).
Proof.
  intros Hc Ha Hs. induction l as [|b l IH]; intros Hin; cbn [Pool.put_window]; [by apply wp_count_drop|].
  apply wp_bind. eapply wp_mono; [|apply wp_bin_put; [done|apply Hin; by left|done..]].
  intros [| |] g Hg; [done|by apply wp_count_drop|]. cbn in Hg. subst g.
  apply IH. intros x Hx. apply Hin. by right.
Qed.

Lemma wp_pool_put c a s mn :
  offers a c = 1 -> 0 <= a -> 0 <= s -> wp Inv (Pool.put p a s mn) (idle c) (put_answer c a).
Proof.
  intros Hc Ha Hs. apply wp_rmw; [done|]. intros v. cbn [bind]. destruct (MAX_INLINE_SIZE <? s).
  - unfold Pool.put_oversize. destruct (Pool.oversize p) as [arm|] eqn:E; [|by apply wp_count_drop].
    apply (wp_put_window c a s mn [Pool.bin arm]); [done..|]. intros x [<-|[]]. by apply arm_bin.
  - destruct (negb (validate a s mn)); [by apply wp_count_drop|].
    destruct (Pool.find_bin_index p s) as [k|]; [|by apply wp_count_drop].
    apply wp_put_window; [done..|]. intros b. apply window_bins.
Qed.

Lemma wp_account c r g : took c r.1 g -> wp Inv (Pool.account r) g (took c).
Proof.
  destruct r as [[h|] n]; intros Hg; unfold Pool.account; destruct (0 <? n);
    repeat first [done | apply wp_rmw; [done|]; intros ? ].
Qed.

Lemma wp_take_one {A} c b req mr me read (k : option (Z * Z) -> prog loc A) Q :
  In b bs -> (forall r g, took c r g -> wp Inv (k r) g Q) ->
  wp Inv (let* r := best_fit b req mr me (best_fit_scan_limit b) read in
          let* res := Pool.account r in k res) (idle c) Q.
Proof.
  intros Hb Hk. apply wp_bind. eapply wp_mono; [|by apply wp_best_fit]. intros r g Hg.
  apply wp_bind. eapply wp_mono; [|apply (wp_account c); exact Hg]. auto.
Qed.

Lemma wp_take_window c req mr me l :
  incl l bs -> wp Inv (Pool.take_window l req mr me) (idle c) (took c).
Proof.
  induction l as [|b l IH]; intros Hin; [done|]. cbn [Pool.take_window].
  apply wp_take_one; [apply Hin; by left|]. intros [h|] g Hg; [done|]. cbn in Hg. subst g.
  apply IH. intros x Hx. apply Hin. by right.
Qed.

Lemma wp_take_arm c req mr me :
  wp Inv (Pool.take_oversize p req mr me) (idle c) (took c).
Proof.
  unfold Pool.take_oversize. destruct (Pool.oversize p) as [arm|] eqn:E; [|done].
  destruct (_ <? req); [done|]. apply wp_bind. eapply wp_mono; [|apply wp_best_fit; by apply arm_bin].
  intros r g. apply wp_account.
Qed.

Lemma wp_pool_take c req mr me : wp Inv (Pool.take p req mr me) (idle c) (took c).
Proof.
  apply wp_load. intros v. cbn [bind]. destruct (v =? 0); cbn [negb]; [|done].
  apply wp_rmw; [done|]. intros u. cbn [bind]. destruct (req =? 0); [done|].
  destruct (Pool.find_bin_index p req) as [k|]; [|apply wp_take_arm].
  apply wp_bind. eapply wp_mono; [|apply wp_take_window; intros b; apply window_bins].
  intros [h|] g Hg; [done|]. cbn in Hg. subst g. destruct (_ <=? _)%nat; [apply wp_take_arm|done].
Qed.

Lemma wp_purge_bins c fuel mn l : forall n,
  incl l bs -> wp Inv (Pool.purge_bins fuel l mn n) (idle c) (fun _ g => g = idle c).
Proof.
  induction l as [|b l IH]; intros n Hin; [done|]. cbn [Pool.purge_bins]. apply wp_bind.
  eapply wp_mono; [|apply wp_purge_below, Hin; by left]. intros k g ->.
  apply IH. intros x Hx. apply Hin. by right.
Qed.

Lemma wp_pool_purge c fuel mn :
  wp Inv (Pool.purge_below fuel p mn) (idle c) (fun _ g => g = idle c).
Proof.
  apply wp_bind. eapply wp_mono; [|apply wp_purge_bins; intros b Hb; rewrite Hp; apply in_app_iff; by left].
  intros n g ->. apply wp_bind.
  assert (wp Inv (match Pool.oversize p with
      | Some arm => let* k := Bin.purge_below fuel (Pool.bin arm) mn in Ret (n + k)
      | None => Ret n end) (idle c) (fun _ g => g = idle c)) as H.
  { destruct (Pool.oversize p) as [arm|] eqn:E; [|done]. apply wp_bind.
    eapply wp_mono; [|apply wp_purge_below; by apply arm_bin]. by intros k g ->. }
  eapply wp_mono; [|exact H]. intros k g ->. destruct (0 <? k); [by apply wp_rmw|done].
Qed.

End OnePool.
End Protocol.
(** ** All threads *)

(** Machine integers are not negative. *)
Definition client_ok (c : client) : Prop :=
  match c with Putter a s _ => 0 <= a /\ 0 <= s | _ => True end.

(** A finished thread owes nothing and carries what it returned. *)
Definition settled (r : outcome) (g : ghost) : Prop :=
  (owes g).2 = 0 /\ match r with Took (Some (a, _)) => raw_address (took_word g) = a | _ => True end.

Lemma pool_ids p m : RevivPool.pool_ok p m -> List.NoDup (map id (pool_bins p)).
Proof.
  intros P. unfold pool_bins. rewrite map_app.
  rewrite (RevivPool.NoDup_lookup_ids (Pool.bins p) 0)
    by (intros i b Hb; apply (RevivPool.pk_bins p m P i b Hb)).
  destruct (Pool.oversize p) as [arm|] eqn:E; [|rewrite app_nil_r; apply seq_NoDup].
  cbn. destruct (RevivPool.pk_arm p m P arm E) as (-> & _). rewrite <- seq_S. apply seq_NoDup.
Qed.

Lemma in_pool_bins p b : In b (pool_bins p) <-> RevivPool.pool_bin p b.
Proof.
  unfold pool_bins, RevivPool.pool_bin. rewrite in_app_iff, <- list_elem_of_In, list_elem_of_lookup.
  destruct (Pool.oversize p) as [arm|]; split; intros [H|H]; auto.
  - destruct H as [<-|[]]. right. eauto.
  - destruct H as (arm' & [= <-] & ->). right. by left.
  - done.
  - by destruct H as (arm' & ? & _).
Qed.

Section Pools.
Context (p : Pool.FreeRecordPool) (m0 : mem loc) (P : RevivPool.pool_ok p m0).
Context (clients : list client) (Hclients : Forall client_ok clients).

Lemma wp_pool_client c :
  client_ok c -> wp (Inv (pool_bins p) m0 clients) (client_prog p c) (idle c) settled.
Proof.
  intros Hc. pose proof (pool_ids p m0 P) as ids.
  destruct c as [a s mn|req mr me|fuel mn| |]; cbn [client_prog]; try (by apply wp_rmw); apply wp_bind.
  - destruct Hc as [Ha Hs]. eapply wp_mono; [|apply wp_pool_put; [done|done|cbn; by rewrite Z.eqb_refl|done..]].
    intros [|] g; cbn; [by intros (w & -> & _)|by intros ->].
  - eapply wp_mono; [|by apply wp_pool_take]. intros [[a s]|] g; cbn; [|by intros ->].
    by intros (w & -> & Hw).
  - eapply wp_mono; [|by apply wp_pool_purge]. by intros n g ->.
Qed.

Lemma zsum_idle_ghosts (f : ghost -> Z) l : (forall c, f (idle c) = 0) -> zsum f (map idle l) = 0.
Proof. intros Hf. induction l as [|c l IH]; [done|]. cbn. fold (zsum f (map idle l)). rewrite IH, Hf. done. Qed.

Lemma start : pool_ok (Inv (pool_bins p) m0 clients) settled (m0, map (client_prog p) clients).
Proof.
  exists (map idle clients). cbn [fst snd]. split; [split|].
  - rewrite map_map. apply map_id.
  - intros a Ha. rewrite !zsum_idle_ghosts by (intros c; cbn; by apply holds_zero). lia.
  - intros b Hb. rewrite zsum_idle_ghosts by (intros c; unfold owed; by destruct (decide _)).
    destruct (RevivPool.pool_bin_ok p m0 b P ltac:(by apply in_pool_bins)) as [Hc _ Hz].
    pose proof (nonempty_bound b m0). rewrite Hc, Z.sub_0_r. symmetry. apply wrap_id. unfold fits. lia.
  - intros l (b & i & Hb & -> & Hi)%all_slots_bounded.
    apply (ok_words m0 b); [|done]. by apply (RevivPool.pool_bin_ok p m0 b P), in_pool_bins.
  - apply Forall_map, Forall_true. intros c. apply honest_none.
  - pose proof wp_pool_client as Hw. revert Hw. generalize (Inv (pool_bins p) m0 clients). intros I Hw.
    induction Hclients as [|c cs Hc Hcs IH]; constructor; [by apply Hw|by apply IH].
Qed.

End Pools.

(** Hits a set of threads have returned for address [a]. *)
Definition handed_out (a : Z) (ps : list (prog loc outcome)) : Z :=
  zsum (fun q => match q with Ret (Took (Some (a', _))) => if a' =? a then 1 else 0 | _ => 0 end) ps.

Lemma zsum_Forall2 {A B} (f : A -> Z) (g : B -> Z) (R : A -> B -> Prop) l k :
  (forall x y, R x y -> f x <= g y) -> Forall2 R l k -> zsum f l <= zsum g k.
Proof.
  intros H. induction 1 as [|x y l k Hxy _ IH]; [done|]. cbn. specialize (H x y Hxy).
  unfold zsum in IH. lia.
Qed.

(** C35: whatever the interleaving of any number of threads that give records
    back, take, purge, pause and resume, the hits handed out for an address and
    the slots that still hold it are together at most the slots that held it at
    the start and the threads that gave it back.  In particular no record is
    handed out twice, and none that was not given back. *)
Theorem handed_out_once p m0 m clients ps a
    (P : RevivPool.pool_ok p m0) (Hc : Forall client_ok clients)
    (Hsteps : rtc pstep (m0, map (client_prog p) clients) (m, ps)) (Ha : a <> 0) :
  handed_out a ps + stored_at (pool_bins p) a m <=
  stored_at (pool_bins p) a m0 + zsum (offers a) clients.
Proof.
  destruct (pool_safe _ _ _ _ Hsteps (start p m0 P clients Hc)) as (gs & [Hw Hr _ _ Hh] & Hall).
  cbn [fst snd] in *. specialize (Hr a Ha).
  assert (handed_out a ps <= zsum (fun g => holds a (took_word g)) gs) as H1.
  { eapply zsum_Forall2; [|exact Hall]. intros q g Hq. cbn beta.
    destruct q as [r| | | |]; try apply holds_nonneg. destruct r as [ok|[[a' s]|]|]; try apply holds_nonneg.
    destruct Hq as [_ E]. unfold holds. by rewrite E. }
  assert (zsum (fun g => holds a (put_word g)) gs <= zsum (offers a) clients) as H2.
  { rewrite <- Hw, zsum_map. clear - Hh Ha. induction Hh as [|g gs Hg _ IH]; [done|]. cbn.
    specialize (Hg a Ha). unfold zsum in IH. lia. }
  lia.
Qed.

(** When all threads have finished, the pool is consistent again: the
    counter of every bin, which the empty-bin tests rely on, is the number of its
    occupied slots. *)
Theorem pool_settles p m0 m clients ps
    (P : RevivPool.pool_ok p m0) (Hc : Forall client_ok clients)
    (Hsteps : rtc pstep (m0, map (client_prog p) clients) (m, ps))
    (Hdone : Forall (fun q => exists r, q = Ret r) ps) :
  RevivPool.pool_ok p m.
Proof.
  destruct (pool_safe _ _ _ _ Hsteps (start p m0 P clients Hc)) as (gs & [_ _ Hn Hf _] & Hall).
  cbn [fst snd] in *. apply (RevivPool.pool_ok_bins p m0); [done|]. intros b Hb.
  pose proof (RevivPool.pool_bin_ok p m0 b P Hb) as [_ _ Hz].
  apply in_pool_bins in Hb. specialize (Hn b Hb).
  assert (zsum (owed b) gs = 0) as E.
  { clear - Hdone Hall. induction Hall as [|q g ps gs Hq _ IH]; [done|].
    apply Forall_cons_1 in Hdone as [(r & ->) Hdone]. destruct Hq as [Hq _]. cbn.
    unfold zsum in IH. rewrite IH by done. unfold owed. destruct (decide _); lia. }
  pose proof (nonempty_bound b m). split; [| |done].
  - rewrite Hn, E, Z.sub_0_r. apply wrap_id. unfold fits. lia.
  - intros i Hi. by apply Hf, in_all_slots.
Qed.

(** One thread gives a record back, then another takes it. *)
Definition demo_clients : list client := [Putter 4096 48 100; Taker 48 100 100].
Definition demo_start : pool outcome :=
  (RevivPool.zero_mem, map (client_prog RevivPool.demo_pool) demo_clients).
Definition demo_run1 := run (client_prog RevivPool.demo_pool (Putter 4096 48 100)) RevivPool.zero_mem.
Definition demo_run2 := run (client_prog RevivPool.demo_pool (Taker 48 100 100)) demo_run1.2.
Definition demo_end : pool outcome := (demo_run2.2, [Ret demo_run1.1; Ret demo_run2.1]).

Lemma demo_steps : rtc pstep demo_start demo_end.
Proof.
  etrans.
  - exact (run_steps (client_prog RevivPool.demo_pool (Putter 4096 48 100)) RevivPool.zero_mem
             (map (client_prog RevivPool.demo_pool) demo_clients) 0 eq_refl).
  - exact (run_steps (client_prog RevivPool.demo_pool (Taker 48 100 100)) demo_run1.2
             [Ret demo_run1.1; client_prog RevivPool.demo_pool (Taker 48 100 100)] 1 eq_refl).
Qed.

Lemma demo_clients_ok : Forall client_ok demo_clients.
Proof. repeat constructor; lia. Qed.

Lemma handed_out_once_witness :
  handed_out 4096 demo_end.2 = 1 /\
  handed_out 4096 demo_end.2 + stored_at (pool_bins RevivPool.demo_pool) 4096 demo_end.1 <= 1.
Proof.
  split; [vm_compute; reflexivity|].
  exact (handed_out_once RevivPool.demo_pool RevivPool.zero_mem demo_end.1 demo_clients demo_end.2 4096
           RevivPool.demo_pool_ok demo_clients_ok demo_steps ltac:(lia)).
Defined.

Lemma pool_settles_witness : RevivPool.pool_ok RevivPool.demo_pool demo_end.1.
Proof.
  apply (pool_settles RevivPool.demo_pool RevivPool.zero_mem demo_end.1 demo_clients demo_end.2
           RevivPool.demo_pool_ok demo_clients_ok demo_steps).
  repeat constructor; eexists; reflexivity.
Defined.

End RevivConc.
