(* ===== verification/Epoch.v ===== *)
(** * Epoch protection ([wedb/wepoch/src])

    A thread that follows shared pointers publishes the global epoch in an entry
    of a table ([EpochEntry], [entry.rs]); memory is freed by actions registered
    with the epoch that was current when it was unlinked, which run only when no
    entry is older ([LightEpoch], [epoch.rs]).  Entries are taken either by a
    thread, remembered in its thread-local state ([Tls], [tls.rs]), or reserved by
    a [Participant] ([participant.rs], [guard.rs]).  The cells are those of one
    instance; an action is a number and calling it is counted in [Ran]. *)

From stdpp Require Import base list numbers option tactics.
From Stdlib Require Import ZArith Lia Bool.
From S2P Require Import Prelude Hasher Atomic.

Local Open Scope prog_scope.

(** The cells of one [LightEpoch]: the global words, the entries, the drain list. *)
Inductive loc : Type :=
| NextInstanceId | ActiveInstances
| CurrentEpoch | SafeToReclaim | DrainCount
| EntryEpoch (i : nat) | EntryThread (i : nat) | EntryReentrant (i : nat) | EntryReserved (i : nat)
| DrainEpoch (j : nat) | DrainAction (j : nat)
| Ran (a : nat).

#[export] Instance loc_eq_dec : EqDecision loc.
Proof. solve_decision. Defined.

(** [AtomicU32::fetch_add] and [fetch_sub]. *)
Definition fetch_add32 (l : loc) (x : Z) : prog loc Z := Rmw l (fun v => wadd 32 v x) Ret.
Definition fetch_sub32 (l : loc) (x : Z) : prog loc Z := Rmw l (fun v => wsub 32 v x) Ret.

(** ** One entry of the table *)
Module EpochEntry.

Definition try_reserve (i : nat) : prog loc bool :=
  let* e := load (EntryEpoch i) in
  if negb (e =? 0) then Ret false
  else
    let* (ok, _) := compare_exchange (EntryReserved i) 0 1 in
    if negb ok then Ret false
    else
      let* e := load (EntryEpoch i) in
      if negb (e =? 0) then (store (EntryReserved i) 0 ;; Ret false)
      else Ret true.

Definition reset (i : nat) : prog loc unit :=
  store (EntryReentrant i) 0 ;;
  store (EntryThread i) 0 ;;
  store (EntryEpoch i) 0.

Definition release_reserve (i : nat) : prog loc unit :=
  reset i ;; store (EntryReserved i) 0.

Fixpoint cas_inc_loop (fuel : nat) (i : nat) (cur : Z) : prog loc bool :=
  match fuel with
  | O => Ret false
  | S fuel' =>
      let* (ok, next) := compare_exchange_weak (EntryReentrant i) cur (wadd 32 cur 1) in
      if ok then Ret true else cas_inc_loop fuel' i next
  end.

Definition cas_inc_reentrant (fuel : nat) (i : nat) : prog loc bool :=
  let* cur := load (EntryReentrant i) in cas_inc_loop fuel i cur.

Definition inc_reentrant (fuel : nat) (i : nat) : prog loc bool := cas_inc_reentrant fuel i.

Fixpoint enter_loop (fuel : nat) (i : nat) (thread_id cur : Z) : prog loc (option Z) :=
  match fuel with
  | O => Ret None
  | S fuel' =>
      if 0 <? cur then
        let* ok := cas_inc_reentrant fuel' i in
        if ok then (let* e := load (EntryEpoch i) in Ret (Some e)) else Ret None
      else
        let* epoch := load CurrentEpoch in
        let* (ok, _) := compare_exchange (EntryEpoch i) 0 epoch in
        if negb ok then (let* cur := load (EntryReentrant i) in enter_loop fuel' i thread_id cur)
        else
          store (EntryThread i) thread_id ;;
          store (EntryReentrant i) 1 ;;
          Ret (Some epoch)
  end.

Definition enter_with_tid (fuel : nat) (i : nat) (thread_id : Z) : prog loc (option Z) :=
  let* cur := load (EntryReentrant i) in enter_loop fuel i thread_id cur.

Fixpoint exit_loop (fuel : nat) (i : nat) (cur : Z) : prog loc (option bool) :=
  match fuel with
  | O => Ret None
  | S fuel' =>
      if cur =? 0 then Ret (Some false)
      else
        let* (ok, _) := compare_exchange_weak (EntryReentrant i) cur (cur - 1) in
        if negb ok then (let* cur := load (EntryReentrant i) in exit_loop fuel' i cur)
        else if 1 <? cur then Ret (Some false)
        else
          store (EntryThread i) 0 ;;
          store (EntryEpoch i) 0 ;;
          Ret (Some true)
  end.

Definition exit (fuel : nat) (i : nat) : prog loc (option bool) :=
  let* cur := load (EntryReentrant i) in exit_loop fuel i cur.

Definition try_claim (i : nat) (thread_id : Z) : prog loc bool :=
  let* e := load (EntryEpoch i) in
  if negb (e =? 0) then Ret false
  else
    let* r := load (EntryReserved i) in
    if negb (r =? 0) then Ret false
    else
      let* epoch := load CurrentEpoch in
      let* (ok, _) := compare_exchange (EntryEpoch i) 0 epoch in
      if negb ok then Ret false
      else
        let* r := load (EntryReserved i) in
        if negb (r =? 0) then (store (EntryEpoch i) 0 ;; Ret false)
        else
          store (EntryThread i) thread_id ;;
          store (EntryReentrant i) 1 ;;
          Ret true.

Definition refresh_epoch (i : nat) (new_epoch : Z) : prog loc unit := store (EntryEpoch i) new_epoch.
Definition protected_epoch (i : nat) : prog loc Z := load (EntryEpoch i).
Definition is_protected (i : nat) : prog loc bool :=
  let* e := protected_epoch i in Ret (negb (e =? 0)).
Definition reentrant_count (i : nat) : prog loc Z := load (EntryReentrant i).
Definition thread_id (i : nat) : prog loc Z := load (EntryThread i).

End EpochEntry.

(** ** Thread-local state *)
Module Tls.

Definition MAX_LOCAL_ENTRIES : nat := 4.
Definition MAX_OVERFLOW_STATES : nat := 16.

(** What a thread remembers of one instance; [epoch] is its weak pointer, named by
    the instance.  A slot is an entry's index plus one, zero standing for none. *)
Record LocalEntryState : Type := {
  instance_id : Z;
  active_entry : nat;
  cached : nat;
  epoch : option Z
}.

(** [inline] is the occupied prefix of the inline array. *)
Record LocalEpochEntries : Type := {
  inline : list LocalEntryState;
  overflow : list LocalEntryState
}.

Record FastEntry : Type := {
  fast_instance : Z;
  slot : nat;
  ptr : nat
}.

Definition EMPTY : FastEntry := {| fast_instance := 0; slot := 0; ptr := 0 |}.

(** The thread-locals of one thread and its identifier. *)
Record ThreadLocal : Type := {
  tid : Z;
  entries : LocalEpochEntries;
  fast_entry : FastEntry;
  fast_participant : FastEntry
}.

Definition new_entries : LocalEpochEntries := {| inline := []; overflow := [] |}.
Definition new_thread (tid : Z) : ThreadLocal :=
  {| tid := tid; entries := new_entries; fast_entry := EMPTY; fast_participant := EMPTY |}.

Definition is_instance (instance : Z) (s : LocalEntryState) : bool := instance_id s =? instance.

Definition find_state (es : LocalEpochEntries) (instance : Z) : option LocalEntryState :=
  snd <$> list_find (fun s => is_instance instance s = true) (inline es ++ overflow es).

Definition find (es : LocalEpochEntries) (instance : Z) : option (nat * nat) :=
  (fun s => (active_entry s, cached s)) <$> find_state es instance.

(** [find_mut] followed by an update of the state found: the first match changes. *)
Fixpoint update_first (f : LocalEntryState -> LocalEntryState) (instance : Z)
    (l : list LocalEntryState) : list LocalEntryState :=
  match l with
  | [] => []
  | s :: l' => if is_instance instance s then f s :: l' else s :: update_first f instance l'
  end.

Definition find_mut_update (f : LocalEntryState -> LocalEntryState) (instance : Z)
    (es : LocalEpochEntries) : LocalEpochEntries :=
  if existsb (is_instance instance) (inline es)
  then {| inline := update_first f instance (inline es); overflow := overflow es |}
  else {| inline := inline es; overflow := update_first f instance (overflow es) |}.

Section Weak.
(** [alive i]: some strong reference to instance [i] is left. *)
Context (alive : Z -> bool).

Definition weak_alive (w : option Z) : bool := match w with Some i => alive i | None => false end.

Definition set_active (es : LocalEpochEntries) (instance : Z) (entry : nat) : LocalEpochEntries :=
  match find_state es instance with
  | Some _ =>
      find_mut_update (fun s =>
        {| instance_id := instance_id s; active_entry := entry;
           cached := if (entry =? 0)%nat then cached s else entry;
           epoch := if (entry =? 0)%nat then epoch s
                    else if weak_alive (epoch s) then epoch s else Some instance |}) instance es
  | None =>
      let new_state := {| instance_id := instance; active_entry := entry; cached := entry;
                          epoch := if (entry =? 0)%nat then None else Some instance |} in
      if (length (inline es) <? MAX_LOCAL_ENTRIES)%nat
      then {| inline := inline es ++ [new_state]; overflow := overflow es |}
      else
        let kept := if (MAX_OVERFLOW_STATES <=? length (overflow es))%nat
                    then List.filter (fun s => negb (active_entry s =? 0)%nat || weak_alive (epoch s))
                                (overflow es)
                    else overflow es in
        {| inline := inline es; overflow := kept ++ [new_state] |}
  end.

Definition note_participant_slot (t : ThreadLocal) (instance : Z) (idx : nat) : ThreadLocal :=
  {| tid := tid t; entries := entries t; fast_entry := fast_entry t;
     fast_participant := {| fast_instance := instance; slot := S idx; ptr := idx |} |}.

Definition get_thread_entry (t : ThreadLocal) (instance : Z) : nat :=
  from_option fst O (find (entries t) instance).
Definition cached_slot (t : ThreadLocal) (instance : Z) : nat :=
  from_option snd O (find (entries t) instance).

(** [n_entries] is the table length of the instance. *)
Definition set_thread_entry (t : ThreadLocal) (instance : Z) (n_entries entry : nat) : ThreadLocal :=
  let es := set_active (entries t) instance entry in
  let resolved :=
    negb (entry =? 0)%nat && weak_alive (find_state es instance ≫= epoch) && (entry <=? n_entries)%nat in
  {| tid := tid t; entries := es;
     fast_entry := if resolved
                   then {| fast_instance := instance; slot := entry; ptr := pred entry |}
                   else EMPTY;
     fast_participant := fast_participant t |}.

Definition clear_thread_entry (t : ThreadLocal) (instance : Z) : ThreadLocal :=
  {| tid := tid t;
     entries := find_mut_update (fun s =>
        {| instance_id := instance_id s; active_entry := 0; cached := cached s; epoch := epoch s |})
        instance (entries t);
     fast_entry := if fast_instance (fast_entry t) =? instance then EMPTY else fast_entry t;
     fast_participant := fast_participant t |}.

(** The entries of [instance] that the destructor of the thread-locals resets. *)
Definition dropped_slots (es : LocalEpochEntries) (instance : Z) (n_entries : nat) : list nat :=
  pred <$> List.filter (fun a => negb (a =? 0)%nat && (a <=? n_entries)%nat)
    (active_entry <$> List.filter (fun s => weak_alive (epoch s) && bool_decide (epoch s = Some instance))
       (inline es ++ overflow es)).

Fixpoint drop_entries (slots : list nat) : prog loc unit :=
  match slots with
  | [] => Ret tt
  | i :: slots' => EpochEntry.reset i ;; drop_entries slots'
  end.

End Weak.
End Tls.

(** ** The epoch table *)
Module LightEpoch.
Import EpochEntry Tls.

Definition DRAIN_LIST_SIZE : nat := 16.
Definition DRAIN_ENTRY_FREE : Z := u64_max.
Definition DRAIN_ENTRY_CLAIMING : Z := u64_max - 1.
Definition DEFAULT_MAX_THREADS : Z := 128.

Record LightEpoch : Type := { id : Z; n_entries : nat; max_sessions : nat }.

(** Errors of [register] ([error.rs]). *)
Inductive Error : Type := ExceededMaxThreads (limit : nat).

(** [parallelism] is what the operating system reports. *)
Definition default_table_size (parallelism : option Z) : Z :=
  match parallelism with Some n => Z.max (wmul 64 n 2) 128 | None => DEFAULT_MAX_THREADS end.

Definition new (parallelism : option Z) (sessions : Z) : prog loc LightEpoch :=
  let max_sessions := Z.max sessions 1 in
  let capacity := sat_add max_sessions (default_table_size parallelism) in
  let* _ := fetch_add ActiveInstances 1 in
  let* i := fetch_add NextInstanceId 1 in
  Ret {| id := i; n_entries := Z.to_nat capacity; max_sessions := Z.to_nat max_sessions |}.

(** The cells of a new instance. *)
Definition new_cells (l : loc) : Z :=
  match l with
  | CurrentEpoch | NextInstanceId => 1
  | DrainEpoch _ => DRAIN_ENTRY_FREE
  | _ => 0
  end.

(** [EpochAction::call]: a word is an action, zero none. *)
Definition action_word (a : nat) : Z := Z.of_nat a + 1.
Definition call (w : Z) : prog loc unit :=
  if w =? 0 then Ret tt
  else Rmw (Ran (Z.to_nat (w - 1))) (fun n => n + 1) (fun _ => Ret tt).

(** [take] on the action cell of a drain entry. *)
Definition take_action (j : nat) : prog loc Z :=
  let* w := load (DrainAction j) in
  store (DrainAction j) 0 ;;
  Ret w.

Definition has_pending_drain : prog loc bool :=
  let* n := load DrainCount in Ret (0 <? n).

Definition protected_by (i : nat) (tid : Z) : prog loc bool :=
  let* p := is_protected i in
  if p then (let* t := thread_id i in Ret (t =? tid)) else Ret false.

Definition current_epoch : prog loc Z := load CurrentEpoch.

Fixpoint oldest_loop (n i : nat) (oldest : Z) : prog loc Z :=
  match n with
  | O => Ret oldest
  | S n' =>
      let* epoch := protected_epoch i in
      if negb (epoch =? 0) && (epoch <? oldest)
      then if epoch =? 1 then Ret epoch else oldest_loop n' (S i) epoch
      else oldest_loop n' (S i) oldest
  end.

Definition compute_safe_to_reclaim_epoch_with (e : LightEpoch) (current_epoch : Z) : prog loc Z :=
  let* oldest := oldest_loop (n_entries e) 0 current_epoch in
  let safe := sat_sub oldest 1 in
  let* prev := load SafeToReclaim in
  if prev <? safe then
    let* actual_prev := fetch_max SafeToReclaim safe in
    Ret (Z.max actual_prev safe)
  else Ret prev.

Definition compute_safe_to_reclaim_epoch (e : LightEpoch) : prog loc Z :=
  let* c := load CurrentEpoch in compute_safe_to_reclaim_epoch_with e c.

Definition cas_claim_slot (j : nat) (expect : Z) : prog loc bool :=
  let* (ok, _) := compare_exchange (DrainEpoch j) expect DRAIN_ENTRY_CLAIMING in Ret ok.

Definition try_claim_ready_slot (j : nat) (safe_epoch : Z) : prog loc bool :=
  let* trigger_epoch := load (DrainEpoch j) in
  if trigger_epoch <=? safe_epoch then cas_claim_slot j trigger_epoch else Ret false.

Fixpoint drain_slots (n j : nat) (safe_epoch : Z) : prog loc unit :=
  match n with
  | O => Ret tt
  | S n' =>
      let* claimed := try_claim_ready_slot j safe_epoch in
      if claimed then
        let* action := take_action j in
        let* _ := fetch_sub32 DrainCount 1 in
        store (DrainEpoch j) DRAIN_ENTRY_FREE ;;
        call action ;;
        let* remaining := load DrainCount in
        if remaining =? 0 then Ret tt else drain_slots n' (S j) safe_epoch
      else drain_slots n' (S j) safe_epoch
  end.

Definition drain (e : LightEpoch) : prog loc unit :=
  let* safe_epoch := compute_safe_to_reclaim_epoch e in
  drain_slots DRAIN_LIST_SIZE 0 safe_epoch.

Definition drain_if_pending (e : LightEpoch) : prog loc unit :=
  let* p := has_pending_drain in if p then drain e else Ret tt.

Fixpoint any_protected (n i : nat) : prog loc bool :=
  match n with
  | O => Ret false
  | S n' => let* p := is_protected i in if p then Ret true else any_protected n' (S i)
  end.

Fixpoint suspend_drain (fuel : nat) (e : LightEpoch) : prog loc bool :=
  match fuel with
  | O => Ret false
  | S fuel' =>
      let* n := load DrainCount in
      if 0 <? n then
        let* p := any_protected (n_entries e) 0 in
        if p then Ret true else (drain e ;; suspend_drain fuel' e)
      else Ret true
  end.

Definition after_release (fuel : nat) (e : LightEpoch) : prog loc bool :=
  let* p := has_pending_drain in if p then suspend_drain fuel e else Ret true.

Definition bump_current_epoch (e : LightEpoch) : prog loc Z :=
  let* old := fetch_add CurrentEpoch 1 in
  let new_epoch := wadd 64 old 1 in
  let* p := has_pending_drain in
  (if p then drain e
   else (let* _ := compute_safe_to_reclaim_epoch_with e new_epoch in Ret tt)) ;;
  Ret new_epoch.

Definition is_safe_to_reclaim (e : LightEpoch) (target_epoch : Z) : prog loc bool :=
  let* s := load SafeToReclaim in
  if target_epoch <=? s then Ret true
  else (let* s := compute_safe_to_reclaim_epoch e in Ret (target_epoch <=? s)).

Fixpoint refresh_loop (n i : nat) (tid target_epoch : Z) : prog loc unit :=
  match n with
  | O => Ret tt
  | S n' =>
      let* p := protected_by i tid in
      (if p then refresh_epoch i target_epoch else Ret tt) ;;
      refresh_loop n' (S i) tid target_epoch
  end.

Definition refresh_thread_protected_entries (e : LightEpoch) (tid target_epoch : Z) : prog loc unit :=
  refresh_loop (n_entries e) 0 tid target_epoch.

Definition active_idx (e : LightEpoch) (t : ThreadLocal) : option nat :=
  let entry := get_thread_entry t (id e) in
  if negb (entry =? 0)%nat && (entry <=? n_entries e)%nat then Some (pred entry) else None.

Fixpoint help_loop (n i : nat) (tid : Z) (tls_idx : option nat) (prior_epoch current : Z) : prog loc unit :=
  match n with
  | O => Ret tt
  | S n' =>
      let* p := protected_by i tid in
      let* hit :=
        (if p then
           if bool_decide (Some i = tls_idx) then Ret true
           else (let* pe := protected_epoch i in Ret (pe =? prior_epoch))
         else Ret false) in
      (if hit then refresh_epoch i current else Ret tt) ;;
      help_loop n' (S i) tid tls_idx prior_epoch current
  end.

Definition help_drain (e : LightEpoch) (t : ThreadLocal) (prior_epoch : Z) : prog loc unit :=
  let tls_idx := active_idx e t in
  let* current := load CurrentEpoch in
  help_loop (n_entries e) 0 (tid t) tls_idx prior_epoch current ;;
  drain e.

Definition refresh_entry_relaxed (e : LightEpoch) (t : ThreadLocal) (idx : nat) : prog loc unit :=
  if (idx <? n_entries e)%nat then
    let* p := is_protected idx in
    if p then
      let* o := thread_id idx in
      if o =? tid t then (let* c := load CurrentEpoch in refresh_epoch idx c) else Ret tt
    else Ret tt
  else Ret tt.

(** One pass over the drain list; [true] when the action was registered. *)
Fixpoint register_slots (n j : nat) (prior_epoch : Z) (action : nat) : prog loc bool :=
  match n with
  | O => Ret false
  | S n' =>
      let* curr_epoch := load (DrainEpoch j) in
      let* ready :=
        (if curr_epoch =? DRAIN_ENTRY_FREE then Ret true
         else (let* s := load SafeToReclaim in Ret (curr_epoch <=? s))) in
      let* claimed := (if ready then cas_claim_slot j curr_epoch else Ret false) in
      if claimed then
        let* prev_action := take_action j in
        store (DrainAction j) (action_word action) ;;
        (if curr_epoch =? DRAIN_ENTRY_FREE
         then (let* _ := fetch_add32 DrainCount 1 in Ret tt) else Ret tt) ;;
        store (DrainEpoch j) prior_epoch ;;
        call prev_action ;;
        Ret true
      else register_slots n' (S j) prior_epoch action
  end.

Fixpoint register_loop (fuel : nat) (e : LightEpoch) (t : ThreadLocal) (prior_epoch : Z) (action : nat)
    (relaxed_entry : option nat) : prog loc bool :=
  match fuel with
  | O => Ret false
  | S fuel' =>
      let* registered := register_slots DRAIN_LIST_SIZE 0 prior_epoch action in
      if registered then Ret true
      else
        (match relaxed_entry with Some ridx => refresh_entry_relaxed e t ridx | None => Ret tt end) ;;
        help_drain e t prior_epoch ;;
        register_loop fuel' e t prior_epoch action relaxed_entry
  end.

Definition bump_current_epoch_action_impl (fuel : nat) (e : LightEpoch) (t : ThreadLocal) (on_drain : nat)
    (relaxed_entry : option nat) : prog loc bool :=
  let* bumped := bump_current_epoch e in
  let prior_epoch := wsub 64 bumped 1 in
  let* registered := register_loop fuel e t prior_epoch on_drain relaxed_entry in
  if registered then (help_drain e t prior_epoch ;; Ret true) else Ret false.

Definition bump_current_epoch_action (fuel : nat) (e : LightEpoch) (t : ThreadLocal) (on_drain : nat) : prog loc bool :=
  bump_current_epoch_action_impl fuel e t on_drain None.

Definition bump_current_epoch_action_relaxed (fuel : nat) (e : LightEpoch) (t : ThreadLocal) (relaxed on_drain : nat)
    : prog loc bool :=
  bump_current_epoch_action_impl fuel e t on_drain (Some relaxed).

(** The destructor, under exclusive access. *)
Fixpoint drop_slots (n j : nat) : prog loc unit :=
  match n with
  | O => Ret tt
  | S n' =>
      let* epoch := load (DrainEpoch j) in
      (if epoch =? DRAIN_ENTRY_FREE then Ret tt
       else
         let* _ := fetch_sub32 DrainCount 1 in
         store (DrainEpoch j) DRAIN_ENTRY_FREE ;;
         let* action := take_action j in
         call action) ;;
      drop_slots n' (S j)
  end.

Definition drop : prog loc unit :=
  drop_slots DRAIN_LIST_SIZE 0 ;;
  Rmw ActiveInstances (fun v => default v (checked_sub v 1)) (fun _ => Ret tt).

(** ** Protection by the calling thread *)
Section Threads.
Context (alive : Z -> bool).

Definition cached_hit (fe : FastEntry) (id tid : Z) : prog loc (option nat) :=
  if negb (fast_instance fe =? id) || (slot fe =? 0)%nat then Ret None
  else
    let* p := protected_by (ptr fe) tid in
    Ret (if p then Some (ptr fe) else None).

Definition tls_protected_entry (e : LightEpoch) (t : ThreadLocal) : prog loc (option nat) :=
  let* hit := cached_hit (fast_entry t) (id e) (tid t) in
  match hit with
  | Some i => Ret (Some i)
  | None =>
      match active_idx e t with
      | None => Ret None
      | Some idx =>
          let* p := protected_by idx (tid t) in
          Ret (if p then Some idx else None)
      end
  end.

Definition claim_entry (e : LightEpoch) (t : ThreadLocal) (idx : nat) : prog loc (option ThreadLocal) :=
  let* ok := try_claim idx (tid t) in
  if negb ok then Ret None
  else
    drain_if_pending e ;;
    Ret (Some (set_thread_entry alive t (id e) (n_entries e) (S idx))).

Fixpoint claim_ring (n offset start : nat) (e : LightEpoch) (t : ThreadLocal) : prog loc (option ThreadLocal) :=
  match n with
  | O => Ret None
  | S n' =>
      let sum := (start + offset)%nat in
      let* r := claim_entry e t (if (sum <? n_entries e)%nat then sum else (sum - n_entries e)%nat) in
      match r with Some t' => Ret (Some t') | None => claim_ring n' (S offset) start e t end
  end.

Fixpoint claim_loop (fuel start : nat) (e : LightEpoch) (t : ThreadLocal) : prog loc (option ThreadLocal) :=
  match fuel with
  | O => Ret None
  | S fuel' =>
      let* r := claim_ring (n_entries e) 0 start e t in
      match r with Some t' => Ret (Some t') | None => claim_loop fuel' start e t end
  end.

Definition resume (fuel : nat) (e : LightEpoch) (t : ThreadLocal) : prog loc (option ThreadLocal) :=
  let* hit := tls_protected_entry e t in
  match hit with
  | Some i =>
      let* ok := inc_reentrant fuel i in
      if ok then (drain_if_pending e ;; Ret (Some t)) else Ret None
  | None =>
      let* r :=
        (match cached_slot t (id e) with
         | S idx => if (idx <? n_entries e)%nat then claim_entry e t idx else Ret None
         | O => Ret None
         end) in
      match r with
      | Some t' => Ret (Some t')
      | None =>
          let start := Z.to_nat (Hasher.mix_thread_id (tid t) mod Z.of_nat (n_entries e)) in
          claim_loop fuel start e t
      end
  end.

Definition suspend (fuel : nat) (e : LightEpoch) (t : ThreadLocal) : prog loc (option ThreadLocal) :=
  let* hit := tls_protected_entry e t in
  match hit with
  | None => Ret (Some t)
  | Some i =>
      let* r := exit fuel i in
      match r with
      | None => Ret None
      | Some false => Ret (Some t)
      | Some true =>
          let t' := clear_thread_entry t (id e) in
          let* ok := after_release fuel e in
          Ret (if ok then Some t' else None)
      end
  end.

Definition this_instance_protected (e : LightEpoch) (t : ThreadLocal) : prog loc bool :=
  let* hit := tls_protected_entry e t in Ret (bool_decide (hit <> None)).

Fixpoint find_protected (n i : nat) (tid : Z) : prog loc (option nat) :=
  match n with
  | O => Ret None
  | S n' => let* p := protected_by i tid in if p then Ret (Some i) else find_protected n' (S i) tid
  end.

Definition thread_protected_entry (e : LightEpoch) (t : ThreadLocal) : prog loc (option nat) :=
  let* hit := tls_protected_entry e t in
  match hit with
  | Some i => Ret (Some i)
  | None =>
      let* hit := cached_hit (fast_participant t) (id e) (tid t) in
      match hit with
      | Some i => Ret (Some i)
      | None => find_protected (n_entries e) 0 (tid t)
      end
  end.

Definition thread_protected (e : LightEpoch) (t : ThreadLocal) : prog loc bool :=
  let* hit := thread_protected_entry e t in Ret (bool_decide (hit <> None)).

Fixpoint register_entries (n i : nat) : prog loc (option nat) :=
  match n with
  | O => Ret None
  | S n' => let* ok := try_reserve i in if ok then Ret (Some i) else register_entries n' (S i)
  end.

(** The index of the participant's entry. *)
Definition register (e : LightEpoch) (t : ThreadLocal) : prog loc ((nat * ThreadLocal) + Error) :=
  let* r := register_entries (Nat.min (max_sessions e) (n_entries e)) 0 in
  Ret (match r with
       | Some idx => inl (idx, note_participant_slot t (id e) idx)
       | None => inr (ExceededMaxThreads (max_sessions e))
       end).

(** ** Waiting ([wait.rs]) *)

Fixpoint suspend_all (fuel : nat) (e : LightEpoch) (t : ThreadLocal) (exited : nat)
    : prog loc (option (ThreadLocal * nat)) :=
  match fuel with
  | O => Ret None
  | S fuel' =>
      let* p := this_instance_protected e t in
      if p then
        let* r := suspend fuel' e t in
        match r with Some t' => suspend_all fuel' e t' (S exited) | None => Ret None end
      else Ret (Some (t, exited))
  end.

Fixpoint resume_all (count fuel : nat) (e : LightEpoch) (t : ThreadLocal) : prog loc (option ThreadLocal) :=
  match count with
  | O => Ret (Some t)
  | S count' =>
      let* r := resume fuel e t in
      match r with Some t' => resume_all count' fuel e t' | None => Ret None end
  end.

(** [elapsed n]: the time limit is over when the condition is tested for the
    [n]-th time. *)
Fixpoint wait_loop (fuel n : nat) (condition : prog loc bool) (on_step : prog loc unit)
    (elapsed : nat -> bool) : prog loc (option bool) :=
  match fuel with
  | O => Ret None
  | S fuel' =>
      let* c := condition in
      if c then Ret (Some true)
      else if elapsed n then Ret (Some false)
      else (on_step ;; wait_loop fuel' (S n) condition on_step elapsed)
  end.

Definition wait_condition_sync (fuel : nat) (epoch : option LightEpoch) (allow_protected : bool)
    (condition : prog loc bool) (on_step : prog loc unit) (elapsed : nat -> bool) (t : ThreadLocal)
    : prog loc (option (bool * ThreadLocal)) :=
  let* c := condition in
  if c then Ret (Some (true, t))
  else
    let* r :=
      (match epoch with
       | Some ep =>
           if allow_protected then
             let* r := suspend_all fuel ep t 0 in
             match r with
             | None => Ret None
             | Some (t', exited) =>
                 let* current := current_epoch in
                 refresh_thread_protected_entries ep (tid t) current ;;
                 Ret (Some (t', exited))
             end
           else Ret (Some (t, O))
       | None => Ret (Some (t, O))
       end) in
    match r with
    | None => Ret None
    | Some (t', exited) =>
        let* w := wait_loop fuel 0 condition on_step elapsed in
        match w with
        | None => Ret None
        | Some b =>
            match epoch with
            | None => Ret (Some (b, t'))
            | Some ep =>
                let* r := resume_all exited fuel ep t' in
                Ret ((fun t'' => (b, t'')) <$> r)
            end
        end
    end.

Fixpoint bump_past (fuel : nat) (e : LightEpoch) (target_epoch : Z) : prog loc bool :=
  match fuel with
  | O => Ret false
  | S fuel' =>
      let* c := load CurrentEpoch in
      if c <=? target_epoch then (bump_current_epoch e ;; bump_past fuel' e target_epoch) else Ret true
  end.

Fixpoint refresh_pinned (n i : nat) (tid target_epoch cur : Z) : prog loc unit :=
  match n with
  | O => Ret tt
  | S n' =>
      let* p := protected_by i tid in
      let* pinned := (if p then (let* pe := protected_epoch i in Ret (pe <=? target_epoch)) else Ret false) in
      (if pinned then refresh_epoch i cur else Ret tt) ;;
      refresh_pinned n' (S i) tid target_epoch cur
  end.

Definition bump_and_wait (fuel : nat) (e : LightEpoch) (t : ThreadLocal) (target_epoch : Z) : prog loc bool :=
  let* ok := bump_past fuel e target_epoch in
  if negb ok then Ret false
  else
    let* cur := load CurrentEpoch in
    refresh_pinned (n_entries e) 0 (tid t) target_epoch cur ;;
    let* r := wait_condition_sync fuel None false (is_safe_to_reclaim e target_epoch)
                (drain_if_pending e) (fun _ => false) t in
    match r with
    | None => Ret false
    | Some _ => (drain_if_pending e ;; Ret true)
    end.

End Threads.
End LightEpoch.

(** ** Participants ([participant.rs], [guard.rs])

    A participant is the index of the entry it reserved. *)
Module Participant.
Import EpochEntry Tls LightEpoch.

Definition enter (fuel : nat) (e : LightEpoch) (t : ThreadLocal) (entry_idx : nat) : prog loc (option Z) :=
  let* r := enter_with_tid fuel entry_idx (tid t) in
  match r with
  | Some protected_epoch => drain_if_pending e ;; Ret (Some protected_epoch)
  | None => Ret None
  end.

Definition refresh (e : LightEpoch) (entry_idx : nat) : prog loc unit :=
  let* p := is_protected entry_idx in
  if p then
    let* current := current_epoch in
    refresh_epoch entry_idx current ;;
    drain_if_pending e
  else Ret tt.

Definition exit (fuel : nat) (e : LightEpoch) (entry_idx : nat) : prog loc bool :=
  let* r := EpochEntry.exit fuel entry_idx in
  match r with
  | Some true => after_release fuel e
  | Some false => Ret true
  | None => Ret false
  end.

Definition resume (fuel : nat) (e : LightEpoch) (t : ThreadLocal) (entry_idx : nat) : prog loc bool :=
  let* r := enter_with_tid fuel entry_idx (tid t) in
  match r with
  | Some _ => drain_if_pending e ;; Ret true
  | None => Ret false
  end.

Definition drop (fuel : nat) (e : LightEpoch) (entry_idx : nat) : prog loc bool :=
  release_reserve entry_idx ;; after_release fuel e.

Fixpoint exit_times (count fuel : nat) (e : LightEpoch) (entry_idx : nat) : prog loc bool :=
  match count with
  | O => Ret true
  | S count' =>
      let* ok := exit fuel e entry_idx in
      if ok then exit_times count' fuel e entry_idx else Ret false
  end.

Fixpoint resume_times (count fuel : nat) (e : LightEpoch) (t : ThreadLocal) (entry_idx : nat) : prog loc bool :=
  match count with
  | O => Ret true
  | S count' =>
      let* ok := resume fuel e t entry_idx in
      if ok then resume_times count' fuel e t entry_idx else Ret false
  end.

(** [EpochSuspendGuard::new] gives up all levels of protection and remembers how
    many there were; dropping the guard takes them again. *)
Definition suspend_guard (fuel : nat) (e : LightEpoch) (entry_idx : nat) : prog loc (option nat) :=
  let* count := reentrant_count entry_idx in
  let* ok := exit_times (Z.to_nat count) fuel e entry_idx in
  Ret (if ok then Some (Z.to_nat count) else None).

Definition drop_suspend_guard (count fuel : nat) (e : LightEpoch) (t : ThreadLocal) (entry_idx : nat)
    : prog loc bool :=
  resume_times count fuel e t entry_idx.

End Participant.
