(* ===== verification/EpochOps.v ===== *)
(** * Operations on an epoch table

    The operations that threads perform on one [LightEpoch], and a proof principle
    for their invariants: a [Discipline] is a property of programs closed under the
    few ways in which the operations touch the shared cells; every operation has
    it.  [EpochSafe] and [EpochDrain] are its two instances. *)

From stdpp Require Import base list numbers option tactics relations.
From Stdlib Require Import ZArith Lia Bool.
From S2P Require Import Prelude Atomic Epoch.

Module EpochOps.
Import EpochEntry Tls LightEpoch.
Local Open Scope prog_scope.

(** ** What threads do *)

Inductive op : Type :=
| Resume | Suspend | ThreadProtected
| Register
| Enter (idx : nat) | Refresh (idx : nat) | Exit (idx : nat) | Drop (idx : nat)
| SuspendGuard (idx : nat) | DropSuspendGuard (idx count : nat)
| Bump | Drain | IsSafe (target : Z) | BumpAndWait (target : Z)
| BumpAction (a : nat) | BumpActionRelaxed (idx a : nat)
| WaitFor (target : Z) (allow_protected : bool) (elapsed : nat -> bool)
| RefreshThread
| ThreadExit.

Section Clients.
Context (alive : Z -> bool) (fuel : nat) (e : LightEpoch).

(** [None] when some loop ran out of fuel. *)
Definition or_stop (t : ThreadLocal) (p : prog loc bool) : prog loc (option ThreadLocal) :=
  let* ok := p in Ret (if ok then Some t else None).

Definition exec (o : op) (t : ThreadLocal) : prog loc (option ThreadLocal) :=
  match o with
  | Resume => resume alive fuel e t
  | Suspend => suspend fuel e t
  | ThreadProtected => thread_protected e t ;; Ret (Some t)
  | Register => let* r := register e t in Ret (Some (match r with inl (_, t') => t' | inr _ => t end))
  | Enter idx => let* r := Participant.enter fuel e t idx in Ret (match r with Some _ => Some t | None => None end)
  | Refresh idx => Participant.refresh e idx ;; Ret (Some t)
  | Exit idx => or_stop t (Participant.exit fuel e idx)
  | Drop idx => or_stop t (Participant.drop fuel e idx)
  | SuspendGuard idx =>
      let* r := Participant.suspend_guard fuel e idx in Ret (match r with Some _ => Some t | None => None end)
  | DropSuspendGuard idx count => or_stop t (Participant.drop_suspend_guard count fuel e t idx)
  | Bump => bump_current_epoch e ;; Ret (Some t)
  | Drain => drain e ;; Ret (Some t)
  | IsSafe target => is_safe_to_reclaim e target ;; Ret (Some t)
  | BumpAndWait target => or_stop t (bump_and_wait alive fuel e t target)
  | BumpAction a => or_stop t (bump_current_epoch_action fuel e t a)
  | BumpActionRelaxed idx a => or_stop t (bump_current_epoch_action_relaxed fuel e t idx a)
  | WaitFor target allow elapsed =>
      let* r := wait_condition_sync alive fuel (Some e) allow (is_safe_to_reclaim e target)
                  (drain_if_pending e) elapsed t in
      Ret (snd <$> r)
  | RefreshThread =>
      let* current := current_epoch in
      refresh_thread_protected_entries e (tid t) current ;; Ret (Some t)
  | ThreadExit =>
      drop_entries (dropped_slots alive (entries t) (id e) (n_entries e)) ;; Ret None
  end.

(** A thread executes its operations in order. *)
Fixpoint client (os : list op) (t : ThreadLocal) : prog loc (option ThreadLocal) :=
  match os with
  | [] => Ret (Some t)
  | o :: os' => let* r := exec o t in match r with Some t' => client os' t' | None => Ret None end
  end.
End Clients.

(** ** Disciplines *)

(** Cells of an entry other than its epoch. *)
Definition entry_cell (l : loc) : bool :=
  match l with EntryThread _ | EntryReentrant _ | EntryReserved _ => true | _ => false end.

(** [P b p]: a thread that knows the global epoch to have reached [b] may execute
    [p].  Epochs are published only when they have been read. *)
Class Discipline (e : LightEpoch) (P : forall {A}, Z -> prog loc A -> Prop) : Prop := {
  d_ret : forall A b (x : A), P b (Ret x);
  d_bind : forall A B b (p : prog loc A) (f : A -> prog loc B), P b p -> (forall x, P b (f x)) -> P b (bind p f);
  d_load : forall b l, P b (load l);
  d_load_current : forall A b (f : Z -> prog loc A),
    (forall c, 1 <= c -> P (Z.max b c) (f c)) -> P b (bind (load CurrentEpoch) f);
  d_store : forall b l v, entry_cell l = true -> P b (store l v);
  d_cas : forall A b w l old new (k : bool -> Z -> prog loc A),
    entry_cell l = true -> (forall ok v, P b (k ok v)) -> P b (Cas w l old new k);
  d_publish : forall b i v, v = 0 \/ 1 <= v <= b -> P b (store (EntryEpoch i) v);
  d_publish_cas : forall A b w i old v (k : bool -> Z -> prog loc A),
    v = 0 \/ 1 <= v <= b -> (forall ok x, P b (k ok x)) -> P b (Cas w (EntryEpoch i) old v k);
  d_drain : forall b, P b (drain e);
  d_bump : forall A b (f : Z -> prog loc A),
    (forall c, P (Z.max b c) (f c)) -> P b (bind (bump_current_epoch e) f);
  d_is_safe : forall b target, P b (is_safe_to_reclaim e target)
}.

Create HintDb epoch.

(** Syntax-directed proofs. *)
Ltac ops_split P :=
  match goal with
  | |- P _ _ (match ?x with _ => _ end) => destruct x eqn:?
  end.
Ltac ops_with P :=
  repeat first
    [ solve [eauto 2 with epoch]
    | apply d_publish; first [by left | right; lia]
    | ops_split P
    | match goal with
      | |- P _ _ (bind (load CurrentEpoch) _) => apply d_load_current; intros ? ?
      | |- P _ _ (bind current_epoch _) => apply d_load_current; intros ? ?
      | |- P _ _ (bind (compare_exchange _ _ _) _) => apply d_cas; [done|intros ? ?]; cbn [bind]
      | |- P _ _ (bind (compare_exchange_weak _ _ _) _) => apply d_cas; [done|intros ? ?]; cbn [bind]
      | |- P _ _ (bind _ _) => apply d_bind; [|intros ?]
      end ].

Section Operations.
Context (e : LightEpoch) (P : forall {A}, Z -> prog loc A -> Prop) `{!Discipline e (@P)}.
Arguments P {A} _ _.

Ltac ops := ops_with (@P).

Local Hint Extern 1 (@P _ _ _) => first [apply d_ret | apply d_load | apply d_drain | apply d_is_safe] : epoch.
Local Hint Extern 2 (@P _ _ (store _ _)) => apply d_store; reflexivity : epoch.

Lemma ops_has_pending b : P b has_pending_drain.
Proof. unfold has_pending_drain. ops. Qed.
Hint Resolve ops_has_pending : epoch.

Lemma ops_drain_if_pending b : P b (drain_if_pending e).
Proof. unfold drain_if_pending. ops. Qed.
Hint Resolve ops_drain_if_pending : epoch.

Lemma ops_is_protected b i : P b (is_protected i).
Proof. unfold is_protected, protected_epoch. ops. Qed.
Hint Resolve ops_is_protected : epoch.

Lemma ops_any_protected b n i : P b (any_protected n i).
Proof. revert i. induction n as [|n IH]; intros i; cbn [any_protected]; ops. Qed.
Hint Resolve ops_any_protected : epoch.

Lemma ops_suspend_drain b fuel : P b (suspend_drain fuel e).
Proof. induction fuel as [|fuel IH]; cbn [suspend_drain]; ops. Qed.
Hint Resolve ops_suspend_drain : epoch.

Lemma ops_after_release b fuel : P b (after_release fuel e).
Proof. unfold after_release. ops. Qed.
Hint Resolve ops_after_release : epoch.

Lemma ops_protected_by b i tid : P b (protected_by i tid).
Proof. unfold protected_by, thread_id. ops. Qed.
Hint Resolve ops_protected_by : epoch.


Lemma ops_refresh_loop b n i tid c : 1 <= c <= b -> P b (refresh_loop n i tid c).
Proof.
  intros Hc. revert i. induction n as [|n IH]; intros i; cbn [refresh_loop]; unfold refresh_epoch; ops.
Qed.

Lemma ops_help_drain b t prior : P b (help_drain e t prior).
Proof.
  apply d_load_current. intros c Hc. apply d_bind; [|intros _; apply d_drain].
  generalize (n_entries e) as n. intros n. generalize O as i.
  induction n as [|n IH]; intros i; cbn [help_loop]; unfold refresh_epoch, protected_epoch; ops.
Qed.
Hint Resolve ops_help_drain : epoch.

Lemma ops_refresh_relaxed b t idx : P b (refresh_entry_relaxed e t idx).
Proof.
  unfold refresh_entry_relaxed, refresh_epoch, thread_id. ops.
Qed.
Hint Resolve ops_refresh_relaxed : epoch.


Lemma ops_reset b i : P b (reset i).
Proof. unfold reset. ops. Qed.
Hint Resolve ops_reset : epoch.

Lemma ops_cas_inc b fuel i : P b (cas_inc_reentrant fuel i).
Proof.
  unfold cas_inc_reentrant. apply d_bind; [apply d_load|].
  induction fuel as [|fuel IH]; intros cur; cbn [cas_inc_loop]; ops.
Qed.
Hint Resolve ops_cas_inc : epoch.

Lemma ops_enter b fuel i tid : P b (enter_with_tid fuel i tid).
Proof.
  unfold enter_with_tid. apply d_bind; [apply d_load|]. revert b.
  induction fuel as [|fuel IH]; intros b cur; cbn [enter_loop]; [apply d_ret|].
  destruct (0 <? cur); [ops|]. apply d_load_current. intros c Hc.
  apply d_publish_cas; [right; lia|]. intros ok v. cbn [bind]. ops.
Qed.
Hint Resolve ops_enter : epoch.

Lemma ops_exit b fuel i : P b (EpochEntry.exit fuel i).
Proof.
  unfold EpochEntry.exit. apply d_bind; [apply d_load|].
  induction fuel as [|fuel IH]; intros cur; cbn [exit_loop]; ops.
Qed.
Hint Resolve ops_exit : epoch.

Lemma ops_try_claim b i tid : P b (try_claim i tid).
Proof.
  unfold try_claim. do 2 (apply d_bind; [apply d_load|]; intros ?; ops_split (@P); [apply d_ret|]).
  apply d_load_current. intros c Hc. apply d_publish_cas; [right; lia|]. intros ok v. cbn [bind]. ops.
Qed.
Hint Resolve ops_try_claim : epoch.

Lemma ops_try_reserve b i : P b (try_reserve i).
Proof. unfold try_reserve. ops. Qed.
Hint Resolve ops_try_reserve : epoch.

Lemma ops_cached_hit b fe i t : P b (cached_hit fe i t).
Proof. unfold cached_hit. ops. Qed.
Hint Resolve ops_cached_hit : epoch.

Lemma ops_tls_entry b t : P b (tls_protected_entry e t).
Proof. unfold tls_protected_entry. ops. Qed.
Hint Resolve ops_tls_entry : epoch.

Lemma ops_claim_entry al b t i : P b (claim_entry al e t i).
Proof. unfold claim_entry. ops. Qed.
Hint Resolve ops_claim_entry : epoch.

Lemma ops_resume al b fuel t : P b (resume al fuel e t).
Proof.
  assert (forall n o start, P b (claim_ring al n o start e t)) as Hring
    by (induction n as [|n IH]; intros o start; cbn [claim_ring]; ops).
  assert (forall f start, P b (claim_loop al f start e t)) as Hloop
    by (induction f as [|f IH]; intros start; cbn [claim_loop]; ops).
  unfold resume, inc_reentrant. ops.
Qed.
Hint Resolve ops_resume : epoch.

Lemma ops_suspend b fuel t : P b (suspend fuel e t).
Proof. unfold suspend. ops. Qed.
Hint Resolve ops_suspend : epoch.

Lemma ops_thread_protected b t : P b (thread_protected e t).
Proof.
  assert (forall n i tid, P b (find_protected n i tid)) as Hfind
    by (induction n as [|n IH]; intros i tid; cbn [find_protected]; ops).
  unfold thread_protected, thread_protected_entry. ops.
Qed.
Hint Resolve ops_thread_protected : epoch.

Lemma ops_register b t : P b (register e t).
Proof.
  assert (forall n i, P b (register_entries n i)) as Hreg
    by (induction n as [|n IH]; intros i; cbn [register_entries]; ops).
  unfold register. ops.
Qed.
Hint Resolve ops_register : epoch.

Lemma ops_participant_enter b fuel t i : P b (Participant.enter fuel e t i).
Proof. unfold Participant.enter. ops. Qed.
Lemma ops_participant_refresh b i : P b (Participant.refresh e i).
Proof. unfold Participant.refresh, refresh_epoch. ops. Qed.
Lemma ops_participant_exit b fuel i : P b (Participant.exit fuel e i).
Proof. unfold Participant.exit. ops. Qed.
Lemma ops_participant_resume b fuel t i : P b (Participant.resume fuel e t i).
Proof. unfold Participant.resume. ops. Qed.
Lemma ops_participant_drop b fuel i : P b (Participant.drop fuel e i).
Proof. unfold Participant.drop, release_reserve. ops. Qed.
Hint Resolve ops_participant_enter ops_participant_refresh ops_participant_exit
  ops_participant_resume ops_participant_drop : epoch.

Lemma ops_suspend_guard b fuel i : P b (Participant.suspend_guard fuel e i).
Proof.
  assert (forall n, P b (Participant.exit_times n fuel e i)) as Hexit
    by (induction n as [|n IH]; cbn [Participant.exit_times]; ops).
  unfold Participant.suspend_guard, reentrant_count. ops.
Qed.
Lemma ops_drop_suspend_guard b n fuel t i : P b (Participant.drop_suspend_guard n fuel e t i).
Proof. unfold Participant.drop_suspend_guard. induction n as [|n IH]; cbn [Participant.resume_times]; ops. Qed.
Hint Resolve ops_suspend_guard ops_drop_suspend_guard : epoch.

Lemma ops_suspend_all b fuel t n : P b (suspend_all fuel e t n).
Proof.
  revert t n. induction fuel as [|fuel IH]; intros t n; cbn [suspend_all]; unfold this_instance_protected; ops.
Qed.
Lemma ops_resume_all al b n fuel t : P b (resume_all al n fuel e t).
Proof. revert t. induction n as [|n IH]; intros t; cbn [resume_all]; ops. Qed.
Lemma ops_wait_loop b fuel n p q el :
  P b p -> P b q -> P b (wait_loop fuel n p q el).
Proof. intros Hp Hq. revert n. induction fuel as [|fuel IH]; intros n; cbn [wait_loop]; ops. Qed.
Hint Resolve ops_suspend_all ops_resume_all ops_wait_loop : epoch.

Lemma ops_wait al b fuel allow target el t :
  P b (wait_condition_sync al fuel (Some e) allow (is_safe_to_reclaim e target)
               (drain_if_pending e) el t).
Proof.
  unfold wait_condition_sync, refresh_thread_protected_entries. ops.
  all: apply ops_refresh_loop; lia.
Qed.
Hint Resolve ops_wait : epoch.

Lemma ops_bump_and_wait al b fuel t target : P b (bump_and_wait al fuel e t target).
Proof.
  assert (forall f b, P b (bump_past f e target)) as Hpast.
  { induction f as [|f IH]; intros b'; cbn [bump_past]; [apply d_ret|].
    apply d_bind; [apply d_load|]. intros c. destruct (c <=? target); [|apply d_ret].
    apply d_bump. intros c'. apply IH. }
  assert (forall n i b tid tg c, 1 <= c <= b -> P b (refresh_pinned n i tid tg c)) as Hpin.
  { induction n as [|n IH]; intros i b' tid tg c Hc; cbn [refresh_pinned];
      unfold protected_epoch, refresh_epoch; ops. }
  unfold bump_and_wait, wait_condition_sync. ops. apply Hpin. lia.
Qed.
Hint Resolve ops_bump_and_wait : epoch.

Lemma ops_drop_entries b l : P b (drop_entries l).
Proof. induction l as [|i l IH]; cbn [drop_entries]; ops. Qed.
Hint Resolve ops_drop_entries : epoch.

(** Every operation but the registration of actions. *)
Definition registers (o : op) : bool :=
  match o with BumpAction _ | BumpActionRelaxed _ _ => true | _ => false end.

Lemma ops_exec al fuel b o t : registers o = false -> P b (exec al fuel e o t).
Proof.
  intros Ho. destruct o; try discriminate Ho; unfold exec, or_stop, refresh_thread_protected_entries;
    try solve [ops].
  - apply d_bump. intros. apply d_ret.
  - ops. apply ops_refresh_loop. lia.
Qed.

End Operations.
End EpochOps.
