(* ===== verification/History.v ===== *)
(** * Interleavings with a history

    The logic of [Atomic] extended with a history: a value that every step of
    every thread updates from the memory before and after it, such as the time
    at which a cell was last written.  Steps into memories that are not [ok] are
    not followed (a counter that has run out), and every step followed satisfies
    the guarantee [T].  Programs do not see the history. *)

From stdpp Require Import base list numbers option tactics relations.
From Stdlib Require Import ZArith Lia Bool.
From S2P Require Import Prelude Atomic.

Section History.
Context {L : Type} `{EqDecision L}.
Context {H G : Type}.
Context (note : mem L -> mem L -> H -> H) (ok : mem L -> Prop).
Context (T : mem L -> mem L -> Prop) (Inv : mem L -> H -> list G -> Prop).

(** A step between memories that are [ok]. *)
Definition ok_step {A} (c c' : pool A) : Prop := pstep c c' /\ ok c'.1.

(** The same step with the history it leaves. *)
Inductive hstep {A} : pool A * H -> pool A * H -> Prop :=
| hstep_intro c c' h : ok_step c c' -> hstep (c, h) (c', note c.1 c'.1 h).

Definition hguar (m m' : mem L) (h : H) (i : nat) (gs : list G) (g' : G) : Prop :=
  T m m' /\ Inv m' (note m m' h) (<[i := g']> gs).

(** [hwp] asks of each action that it keeps the invariant, whatever the other
    threads did before. *)
Fixpoint hwp {A} (p : prog L A) (g : G) (Q : A -> G -> Prop) : Prop :=
  match p with
  | Ret a => Q a g
  | Load l k =>
      forall m h gs i, Inv m h gs -> gs !! i = Some g -> ok m ->
        exists g', hguar m m h i gs g' /\ hwp (k (m l)) g' Q
  | Store l v k =>
      forall m h gs i, Inv m h gs -> gs !! i = Some g -> ok (upd m l v) ->
        exists g', hguar m (upd m l v) h i gs g' /\ hwp k g' Q
  | Cas w l old new k =>
      forall m h gs i, Inv m h gs -> gs !! i = Some g ->
        (m l = old -> ok (upd m l new) ->
           exists g', hguar m (upd m l new) h i gs g' /\ hwp (k true old) g' Q) /\
        (m l <> old \/ w = true -> ok m ->
           exists g', hguar m m h i gs g' /\ hwp (k false (m l)) g' Q)
  | Rmw l f k =>
      forall m h gs i, Inv m h gs -> gs !! i = Some g -> ok (upd m l (f (m l))) ->
        exists g', hguar m (upd m l (f (m l))) h i gs g' /\ hwp (k (m l)) g' Q
  end.

(** The inductive cases of the structural rules: one action, then the hypothesis
    for the rest. *)
Ltac hwp_cases :=
  intros Hp m h gs i HI Hg; specialize (Hp m h gs i HI Hg);
  try (destruct Hp as [Hok Hfail]; split; intros Hm Ho;
       [destruct (Hok Hm Ho) as (g' & ? & ?)|destruct (Hfail Hm Ho) as (g' & ? & ?)]; by eauto);
  intros Ho; destruct (Hp Ho) as (g' & ? & ?); by eauto.

Lemma hwp_mono {A} (p : prog L A) g (Q R : A -> G -> Prop) :
  hwp p g Q -> (forall a g', Q a g' -> R a g') -> hwp p g R.
Proof.
  intros Hp HQR. revert g Hp. induction p as [a|l k IH|l v k IH|w l old new k IH|l f k IH];
    intros g; simpl; [by apply HQR|..]; hwp_cases.
Qed.

Lemma hwp_bind {A B} (p : prog L A) (f : A -> prog L B) g (Q : B -> G -> Prop) :
  hwp p g (fun a g' => hwp (f a) g' Q) -> hwp (bind p f) g Q.
Proof.
  revert g. induction p as [a|l k IH|l v k IH|w l old new k IH|l e k IH];
    intros g; simpl; [done|..]; hwp_cases.
Qed.

Lemma hwp_bind_assoc {A B C} (p : prog L A) (f : A -> prog L B) (k : B -> prog L C) g Q :
  hwp (bind p (fun a => bind (f a) k)) g Q -> hwp (bind (bind p f) k) g Q.
Proof.
  revert g. induction p as [a|l j IH|l v j IH|w l old new j IH|l e j IH];
    intros g; simpl; [done|..]; hwp_cases.
Qed.

(** Sequencing with an intermediate assertion. *)
Lemma hwp_seq {A B} (p : prog L A) (f : A -> prog L B) g (Q : A -> G -> Prop) (R : B -> G -> Prop) :
  hwp p g Q -> (forall a g', Q a g' -> hwp (f a) g' R) -> hwp (bind p f) g R.
Proof. intros Hp Hf. apply hwp_bind. by eapply hwp_mono. Qed.

Definition hpool_ok {A} (Q : A -> G -> Prop) (ch : pool A * H) : Prop :=
  exists gs, Inv ch.1.1 ch.2 gs /\ Forall2 (fun p g => hwp p g Q) ch.1.2 gs.

Lemma hwp_step {A} m (p : prog L A) m' p' h g gs i Q :
  step m p m' p' -> ok m' -> Inv m h gs -> gs !! i = Some g -> hwp p g Q ->
  exists g', hguar m m' h i gs g' /\ hwp p' g' Q.
Proof.
  intros Hs Ho HI Hg Hp. destruct Hs; simpl in Hp; specialize (Hp _ _ _ _ HI Hg);
    first [exact (Hp Ho) | destruct Hp as [Hok Hfail]; auto].
Qed.

(** One step of the pool keeps the invariant and satisfies the guarantee. *)
Lemma hpool_step {A} (Q : A -> G -> Prop) ch ch' :
  hstep ch ch' -> hpool_ok Q ch -> T ch.1.1 ch'.1.1 /\ hpool_ok Q ch'.
Proof.
  destruct 1 as [c c' h [Hs Ho]]. destruct Hs as [m ps i p m' p' Hp Hs].
  intros (gs & HI & Hall). simpl in *.
  destruct (Forall2_lookup_l _ _ _ _ _ Hall Hp) as (g & Hg & Hwp).
  destruct (hwp_step _ _ _ _ _ _ _ _ _ Hs Ho HI Hg Hwp) as (g' & [HT HI'] & Hwp').
  split; [done|]. exists (<[i := g']> gs). split; [done|]. simpl. by apply Forall2_insert.
Qed.

Lemma hpool_safe {A} (Q : A -> G -> Prop) ch ch' :
  rtc hstep ch ch' -> hpool_ok Q ch -> hpool_ok Q ch'.
Proof. induction 1; [done|]. intros Hc. apply IHrtc. by eapply hpool_step. Qed.

(** Every run has a history. *)
Lemma ok_steps_history {A} (R : pool A -> pool A -> Prop) c c' h :
  (forall a b, R a b -> ok_step a b) -> rtc R c c' ->
  exists h', rtc hstep (c, h) (c', h') /\ rtc (fun ch ch' => hstep ch ch' /\ R ch.1 ch'.1) (c, h) (c', h').
Proof.
  intros HR Hr. revert h. induction Hr as [c|c c1 c2 Hs _ IH]; intros h; [by exists h|].
  destruct (IH (note c.1 c1.1 h)) as (h' & H1 & H2). exists h'.
  assert (hstep (c, h) (c1, note c.1 c1.1 h)) by (constructor; by apply HR).
  split; eapply rtc_l; eauto.
Qed.

End History.

(** ** Schedules

    A list of thread numbers determines a run; runs of concrete programs are
    computed. *)
Section Schedules.
Context {L : Type} `{EqDecision L} {A : Type}.

(** One action of thread [i]; compare-exchange does not fail spuriously. *)
Definition step_thread (c : pool (L:=L) A) (i : nat) : option (pool (L:=L) A) :=
  match c.2 !! i with
  | Some (Load l k) => Some (c.1, <[i := k (c.1 l)]> c.2)
  | Some (Store l v k) => Some (upd c.1 l v, <[i := k]> c.2)
  | Some (Cas _ l old new k) =>
      if c.1 l =? old then Some (upd c.1 l new, <[i := k true old]> c.2)
      else Some (c.1, <[i := k false (c.1 l)]> c.2)
  | Some (Rmw l f k) => Some (upd c.1 l (f (c.1 l)), <[i := k (c.1 l)]> c.2)
  | _ => None
  end.

(** The configuration after a schedule, threads that have returned doing nothing. *)
Definition run_schedule (sched : list nat) (c : pool (L:=L) A) : pool (L:=L) A :=
  foldl (fun c i => default c (step_thread c i)) c sched.

(** [P] holds after every step of the schedule. *)
Fixpoint schedule_all (P : mem L -> bool) (sched : list nat) (c : pool (L:=L) A) : bool :=
  match sched with
  | [] => true
  | i :: sched' =>
      match step_thread c i with
      | Some c' => P c'.1 && schedule_all P sched' c'
      | None => schedule_all P sched' c
      end
  end.

Lemma step_thread_pstep c i c' : step_thread c i = Some c' -> pstep c c'.
Proof.
  destruct c as [m ps]. unfold step_thread. simpl. destruct (ps !! i) as [p|] eqn:Hi; [|done].
  destruct p as [a|l k|l v k|w l old new k|l f k]; [done| | | |].
  - intros [= <-]. eapply pstep_thread; [done|constructor].
  - intros [= <-]. eapply pstep_thread; [done|constructor].
  - destruct (Z.eqb_spec (m l) old); intros [= <-].
    + eapply pstep_thread; [done|by constructor].
    + eapply pstep_thread; [done|by constructor].
  - intros [= <-]. eapply pstep_thread; [done|constructor].
Qed.

(** Thread [i] has an action to do. *)
Definition can_step (c : pool (L:=L) A) (i : nat) : bool :=
  match step_thread c i with Some _ => true | None => false end.

Lemma run_schedule_one c i : can_step c i = true -> pstep c (run_schedule [i] c).
Proof.
  unfold can_step, run_schedule. simpl. destruct (step_thread c i) eqn:Hs; [|done].
  intros _. by eapply step_thread_pstep.
Qed.

Lemma run_schedule_steps (P : mem L -> bool) sched c :
  schedule_all P sched c = true ->
  rtc (fun c c' => pstep c c' /\ P c'.1 = true) c (run_schedule sched c).
Proof.
  revert c. induction sched as [|i sched IH]; intros c; simpl; [done|].
  destruct (step_thread c i) as [c'|] eqn:Hs; [|apply IH].
  intros [HP Hall]%andb_true_iff. eapply rtc_l; [|by apply IH].
  split; [|done]. by eapply step_thread_pstep.
Qed.

(** Threads that are not scheduled do not move. *)
Lemma run_schedule_other sched (c : pool (L:=L) A) i :
  i ∉ sched -> (run_schedule sched c).2 !! i = c.2 !! i.
Proof.
  revert c. induction sched as [|j sched IH]; intros c Hi; [done|].
  apply not_elem_of_cons in Hi as [Hij Hi].
  change (run_schedule (j :: sched) c) with (run_schedule sched (default c (step_thread c j))).
  rewrite IH by done.
  unfold step_thread. destruct (c.2 !! j) as [[a|l k|l v k|w l old new k|l f k]|]; simpl; try done;
    try by rewrite list_lookup_insert_ne.
  destruct (c.1 l =? old); simpl; by rewrite list_lookup_insert_ne.
Qed.

Lemma run_schedule_rtc sched (c : pool (L:=L) A) : rtc pstep c (run_schedule sched c).
Proof.
  revert c. induction sched as [|i sched IH]; intros c; [done|].
  unfold run_schedule in *. simpl. destruct (step_thread c i) eqn:Hs; simpl; [|apply IH].
  eapply rtc_l; [by eapply step_thread_pstep|apply IH].
Qed.

End Schedules.
