(* ===== verification/EpochSafe.v ===== *)
(** * Safety of epoch protection ([wedb/wepoch/src])

    Any number of threads protect themselves, refresh, leave, bump the epoch,
    register actions and drain, in any interleaving.  The history records when
    each entry was last written: its [stamp] is the global epoch at that moment.
    The invariant is that the reclaimable epoch stays below the stamp of every
    protected entry, although the epoch an entry publishes may be stale when it
    is published. *)

From stdpp Require Import base list numbers option tactics relations.
From Stdlib Require Import ZArith Lia Bool.
From S2P Require Import Prelude Atomic Epoch EpochOps History.

Module EpochSafe.
Import EpochEntry Tls LightEpoch EpochOps.
Local Open Scope prog_scope.

(** ** Stamps *)

(** The epochs that registered triggers may take: the counter has not reached the
    marks of free and claimed drain entries. *)
Definition not_exhausted (m : mem loc) : Prop := m CurrentEpoch < DRAIN_ENTRY_CLAIMING.

Definition stamps (m m' : mem loc) (st : nat -> Z) : nat -> Z :=
  fun i => if m' (EntryEpoch i) =? m (EntryEpoch i) then st i else m' CurrentEpoch.

(** A drain entry is claimed when it is free or its trigger is reclaimable. *)
Definition claims_reclaimable (m m' : mem loc) : Prop :=
  forall j, m (DrainEpoch j) <> DRAIN_ENTRY_CLAIMING -> m' (DrainEpoch j) = DRAIN_ENTRY_CLAIMING ->
    m (DrainEpoch j) = DRAIN_ENTRY_FREE \/ m (DrainEpoch j) <= m SafeToReclaim.

(** A thread knows lower bounds of the two monotone counters; while it scans the
    table, the entries it has passed are not older than the oldest epoch seen. *)
Record ghost : Type := { known_current : Z; known_safe : Z; scanning : option (nat * Z) }.

Definition scan_ok (m : mem loc) (st : nat -> Z) (s : option (nat * Z)) : Prop :=
  match s with
  | None => True
  | Some (k, o) => 1 <= o <= m CurrentEpoch /\
                   forall i, (i < k)%nat -> m (EntryEpoch i) <> 0 -> o <= st i
  end.

Definition ghost_ok (m : mem loc) (st : nat -> Z) (g : ghost) : Prop :=
  known_current g <= m CurrentEpoch /\ known_safe g <= m SafeToReclaim /\ scan_ok m st (scanning g).

Section Safety.
Context (e : LightEpoch).

Definition entry_ok (m : mem loc) (st : nat -> Z) (i : nat) : Prop :=
  m (EntryEpoch i) <> 0 ->
  1 <= m (EntryEpoch i) <= st i /\ st i <= m CurrentEpoch /\ m SafeToReclaim < st i.

Record Inv (m : mem loc) (st : nat -> Z) (gs : list ghost) : Prop := {
  inv_ok : not_exhausted m;
  inv_current : 1 <= m CurrentEpoch;
  inv_safe : 0 <= m SafeToReclaim < m CurrentEpoch;
  inv_entries : forall i, (i < n_entries e)%nat -> entry_ok m st i;
  inv_ghosts : Forall (ghost_ok m st) gs
}.

Abbreviation hwp := (hwp stamps not_exhausted claims_reclaimable Inv).
Abbreviation hguar := (hguar stamps claims_reclaimable Inv).

(** A step that only moves the counters forward and publishes epochs that are
    not ahead of them. *)
Lemma Inv_step m m' st gs i g' :
  Inv m st gs -> not_exhausted m' ->
  m CurrentEpoch <= m' CurrentEpoch ->
  m SafeToReclaim <= m' SafeToReclaim < m' CurrentEpoch ->
  (forall k, (k < n_entries e)%nat -> entry_ok m' (stamps m m' st) k) ->
  ghost_ok m' (stamps m m' st) g' ->
  Inv m' (stamps m m' st) (<[i := g']> gs).
Proof.
  intros HI Ho Hc Hs He Hg. pose proof (inv_current _ _ _ HI). pose proof (inv_safe _ _ _ HI).
  split; [done|lia|lia|done|]. apply Forall_insert; [|done].
  eapply Forall_impl; [apply (inv_ghosts _ _ _ HI)|]. intros g (H1 & H2 & H3).
  split; [lia|]. split; [lia|]. destruct (scanning g) as [[k o]|]; [|done].
  destruct H3 as [Ho1 Ho2]. split; [lia|]. intros n Hn Hne. unfold stamps.
  destruct (Z.eqb_spec (m' (EntryEpoch n)) (m (EntryEpoch n))) as [Heq|]; [|lia].
  apply Ho2; [done|]. by rewrite <- Heq.
Qed.

(** Entries that a step does not change keep their stamps. *)
Lemma entry_ok_frame m m' st i :
  entry_ok m st i -> m' (EntryEpoch i) = m (EntryEpoch i) -> m CurrentEpoch <= m' CurrentEpoch ->
  m' SafeToReclaim = m SafeToReclaim -> entry_ok m' (stamps m m' st) i.
Proof.
  intros He Hi Hc Hs Hne. unfold stamps. rewrite Hi, Z.eqb_refl.
  rewrite Hi in Hne. specialize (He Hne). rewrite Hs. lia.
Qed.

Lemma ghost_ok_frame m m' st g :
  ghost_ok m st g -> m CurrentEpoch <= m' CurrentEpoch -> m SafeToReclaim <= m' SafeToReclaim ->
  (forall i, m' (EntryEpoch i) = m (EntryEpoch i) \/ m' (EntryEpoch i) = 0 \/
             stamps m m' st i = m' CurrentEpoch) ->
  ghost_ok m' (stamps m m' st) g.
Proof.
  intros (H1 & H2 & H3) Hc Hs He. split; [lia|]. split; [lia|].
  destruct (scanning g) as [[k o]|]; [|done]. destruct H3 as [Ho1 Ho2]. split; [lia|].
  intros i Hi Hne. destruct (He i) as [Heq|[Heq|Heq]]; [|done|lia].
  unfold stamps. rewrite Heq, Z.eqb_refl. apply Ho2; [done|]. by rewrite <- Heq.
Qed.

(** ** What each write does to the invariant *)

Definition quiet (l : loc) : bool :=
  match l with CurrentEpoch | SafeToReclaim | EntryEpoch _ | DrainEpoch _ => false | _ => true end.

(** A step that changes no epoch, neither global nor of an entry. *)
Lemma guar_frame m m' st gs i g' :
  Inv m st gs -> not_exhausted m' -> m' CurrentEpoch = m CurrentEpoch ->
  m' SafeToReclaim = m SafeToReclaim -> (forall k, m' (EntryEpoch k) = m (EntryEpoch k)) ->
  claims_reclaimable m m' -> ghost_ok m st g' -> hguar m m' st i gs g'.
Proof.
  intros HI Ho Hc Hs He HT Hg. split; [done|]. pose proof (inv_safe _ _ _ HI).
  apply Inv_step; try done; [lia|lia| |].
  - intros k Hk. apply entry_ok_frame; [by apply (inv_entries _ _ _ HI)|done|lia|done].
  - apply ghost_ok_frame; [done|lia|lia|]. intros k. left. apply He.
Qed.

Lemma guar_same m st gs i g' : Inv m st gs -> ghost_ok m st g' -> hguar m m st i gs g'.
Proof.
  intros HI Hg. apply guar_frame; try done; [apply (inv_ok _ _ _ HI)|]. intros j H1 H2. by rewrite H2 in H1.
Qed.

Lemma ghost_of m st gs i g : Inv m st gs -> gs !! i = Some g -> ghost_ok m st g.
Proof. intros HI Hi. eapply Forall_lookup_1; [apply (inv_ghosts _ _ _ HI)|done]. Qed.

Lemma guar_quiet m l v st gs i g :
  quiet l = true -> Inv m st gs -> gs !! i = Some g -> hguar m (upd m l v) st i gs g.
Proof.
  intros Hl HI Hi. assert (forall l', quiet l' = false -> upd m l v l' = m l') as Hu.
  { intros l' Hl'. apply upd_ne. intros ->. by rewrite Hl in Hl'. }
  apply guar_frame; try done.
  - unfold not_exhausted. rewrite Hu by done. apply (inv_ok _ _ _ HI).
  - by apply Hu.
  - by apply Hu.
  - intros k. by apply Hu.
  - intros j H1 H2. rewrite Hu in H2 by done. by rewrite H2 in H1.
  - by eapply ghost_of.
Qed.

Lemma guar_drain m j v st gs i g :
  (v = DRAIN_ENTRY_CLAIMING -> m (DrainEpoch j) = DRAIN_ENTRY_FREE \/ m (DrainEpoch j) <= m SafeToReclaim) ->
  Inv m st gs -> gs !! i = Some g -> hguar m (upd m (DrainEpoch j) v) st i gs g.
Proof.
  intros Hv HI Hi. apply guar_frame; try done.
  - unfold not_exhausted. rewrite upd_ne by done. apply (inv_ok _ _ _ HI).
  - intros k H1 H2. destruct (decide (j = k)) as [->|Hne].
    + rewrite upd_eq in H2. auto.
    + rewrite upd_ne in H2 by congruence. by rewrite H2 in H1.
  - by eapply ghost_of.
Qed.

Lemma stamps_entry m n v st k :
  stamps m (upd m (EntryEpoch n) v) st k =
  if decide (k = n) then (if v =? m (EntryEpoch n) then st n else m CurrentEpoch) else st k.
Proof.
  unfold stamps. rewrite (upd_ne _ _ CurrentEpoch) by done. case_decide as Hk.
  - subst. by rewrite upd_eq.
  - rewrite upd_ne by congruence. by rewrite Z.eqb_refl.
Qed.

(** Publishing a known epoch, or leaving. *)
Lemma guar_entry m n v st gs i g :
  v = 0 \/ 1 <= v <= known_current g ->
  Inv m st gs -> gs !! i = Some g -> hguar m (upd m (EntryEpoch n) v) st i gs g.
Proof.
  intros Hv HI Hi. pose proof (ghost_of _ _ _ _ _ HI Hi) as Hg. destruct (inv_safe _ _ _ HI).
  split; [intros j H1 H2; rewrite upd_ne in H2 by done; by rewrite H2 in H1|].
  apply Inv_step; rewrite ?upd_ne by done; try done; [| |].
  - unfold not_exhausted. rewrite upd_ne by done. apply (inv_ok _ _ _ HI).
  - intros k Hk. unfold entry_ok. rewrite stamps_entry, (upd_ne _ _ CurrentEpoch), (upd_ne _ _ SafeToReclaim) by done.
    destruct (decide (k = n)) as [->|Hne]; rewrite ?upd_eq.
    + pose proof (inv_entries _ _ _ HI _ Hk) as He. destruct Hg as [Hg _].
      intros Hne. destruct (Z.eqb_spec v (m (EntryEpoch n))) as [->|]; [by apply He|lia].
    + rewrite upd_ne by congruence. by apply (inv_entries _ _ _ HI).
  - apply ghost_ok_frame; rewrite ?upd_ne by done; try done. intros k. rewrite stamps_entry.
    destruct (decide (k = n)) as [->|]; [|left; by rewrite upd_ne by congruence].
    rewrite upd_eq. destruct (Z.eqb_spec v (m (EntryEpoch n))); auto.
Qed.

Lemma stamps_other m l v st k :
  (forall n, l <> EntryEpoch n) -> stamps m (upd m l v) st k = st k.
Proof. intros Hl. unfold stamps. rewrite upd_ne by done. by rewrite Z.eqb_refl. Qed.

(** Bumping the global epoch. *)
Lemma guar_bump m st gs i g :
  Inv m st gs -> gs !! i = Some g -> not_exhausted (upd m CurrentEpoch (wadd 64 (m CurrentEpoch) 1)) ->
  let c := m CurrentEpoch + 1 in
  wadd 64 (m CurrentEpoch) 1 = c /\ c < DRAIN_ENTRY_CLAIMING /\
  hguar m (upd m CurrentEpoch c) st i gs
    {| known_current := Z.max (known_current g) c; known_safe := known_safe g; scanning := scanning g |}.
Proof.
  intros HI Hi Ho c. pose proof (ghost_of _ _ _ _ _ HI Hi) as Hg. destruct (inv_safe _ _ _ HI).
  pose proof (inv_ok _ _ _ HI) as Hm. unfold not_exhausted in *. rewrite upd_eq in Ho.
  assert (wadd 64 (m CurrentEpoch) 1 = c) as Hc
    by (apply wrap_id; unfold fits; unfold DRAIN_ENTRY_CLAIMING, u64_max in Hm; lia).
  rewrite Hc in Ho. split; [done|]. split; [done|].
  split; [intros j H1 H2; rewrite upd_ne in H2 by done; by rewrite H2 in H1|].
  apply Inv_step; rewrite ?upd_eq, ?upd_ne by done; try done; [lia|lia| |].
  - intros k Hk. apply entry_ok_frame; rewrite ?upd_eq, ?upd_ne by done; try done; [|lia].
    by apply (inv_entries _ _ _ HI).
  - assert (ghost_ok (upd m CurrentEpoch c) (stamps m (upd m CurrentEpoch c) st) g) as (H1 & H2 & H3).
    { apply ghost_ok_frame; rewrite ?upd_eq, ?upd_ne by done; try done; [lia|].
      intros k. left. by rewrite upd_ne. }
    split; [|done]. simpl. rewrite upd_eq in *. lia.
Qed.

(** A thread is about to look at entry [i], the oldest epoch so far being [o]. *)
Definition scan_at (g : ghost) (i : nat) (o : Z) : Prop :=
  scanning g = Some (i, o) \/ (i = O /\ 1 <= o <= known_current g /\ scanning g = None).

Lemma scan_at_ok m st g i o : ghost_ok m st g -> scan_at g i o -> scan_ok m st (Some (i, o)).
Proof.
  intros (H1 & H2 & H3) [Hs|(-> & Ho & _)]; [by rewrite Hs in H3|]. split; [lia|]. intros k Hk. lia.
Qed.

(** Raising the reclaimable epoch after a complete scan. *)
Lemma guar_safe m st gs i g o :
  Inv m st gs -> gs !! i = Some g -> scan_at g (n_entries e) o ->
  let s := Z.max (m SafeToReclaim) (sat_sub o 1) in
  hguar m (upd m SafeToReclaim s) st i gs
    {| known_current := known_current g; known_safe := s; scanning := None |}.
Proof.
  intros HI Hi Hscan s. pose proof (ghost_of _ _ _ _ _ HI Hi) as Hg. destruct (inv_safe _ _ _ HI).
  destruct (scan_at_ok _ _ _ _ _ Hg Hscan) as [Ho Hall]. destruct Hg as (Hg1 & Hg2 & _).
  unfold sat_sub in s.
  split; [intros j H1 H2; rewrite upd_ne in H2 by done; by rewrite H2 in H1|].
  apply Inv_step; rewrite ?upd_eq, ?upd_ne by done; try done; [|lia|].
  - unfold not_exhausted. rewrite upd_ne by done. apply (inv_ok _ _ _ HI).
  - intros k Hk. unfold entry_ok. rewrite stamps_other, upd_eq, !(upd_ne _ SafeToReclaim) by done.
    intros Hne. pose proof (inv_entries _ _ _ HI _ Hk Hne). specialize (Hall k Hk Hne). lia.
Qed.

(** ** Programs that keep the invariant

    [keeps b s p]: a thread that knows the global epoch to be at least [b] and the
    reclaimable epoch at least [s] can execute [p]. *)

Definition extends (g g' : ghost) : Prop :=
  known_current g <= known_current g' /\ known_safe g <= known_safe g' /\ scanning g' = None.

Definition keeps (b s : Z) {A} (p : prog loc A) : Prop :=
  forall g, scanning g = None -> b <= known_current g -> s <= known_safe g ->
    hwp p g (fun _ g' => extends g g').

Lemma extends_trans g1 g2 g3 : extends g1 g2 -> extends g2 g3 -> extends g1 g3.
Proof. unfold extends. intuition lia. Qed.

Lemma keeps_ret b s {A} (a : A) : keeps b s (Ret a).
Proof. intros g Hg _ _. simpl. split; [lia|]. split; [lia|done]. Qed.

Lemma keeps_bind b s {A B} (p : prog loc A) (f : A -> prog loc B) :
  keeps b s p -> (forall a, keeps b s (f a)) -> keeps b s (bind p f).
Proof.
  intros Hp Hf g Hg Hb Hs. eapply hwp_seq; [by apply Hp|]. intros a g' Hext. pose proof Hext as (H1 & H2 & H3). eapply hwp_mono; [apply Hf; [done|lia|lia]|].
  intros b' g''. by apply extends_trans.
Qed.

(** Knowledge gained by the first program is available to the rest. *)
Lemma keeps_learn b s {A B} (p : prog loc A) (f : A -> prog loc B) (R : A -> ghost -> Prop) :
  (forall g, scanning g = None -> b <= known_current g -> s <= known_safe g ->
     hwp p g (fun a g' => extends g g' /\ R a g')) ->
  (forall a g', R a g' -> scanning g' = None -> b <= known_current g' -> s <= known_safe g' ->
     hwp (f a) g' (fun _ g'' => extends g' g'')) ->
  keeps b s (bind p f).
Proof.
  intros Hp Hf g Hg Hb Hs. eapply hwp_seq; [by apply Hp|]. intros a g' [Hext HR].
  pose proof Hext as (H1 & H2 & H3). eapply hwp_mono; [apply Hf; [done|done|lia|lia]|].
  intros b' g''. by apply extends_trans.
Qed.

Lemma keeps_weaken b b' s s' {A} (p : prog loc A) :
  keeps b' s' p -> b' <= b -> s' <= s -> keeps b s p.
Proof. intros Hp ?? g Hg ??. apply Hp; [done|lia|lia]. Qed.

Lemma keeps_load b s l : keeps b s (load l).
Proof.
  intros g Hg Hb Hs m st gs i HI Hi _. exists g. split; [apply guar_same; [done|by eapply ghost_of]|].
  simpl. split; [lia|]. split; [lia|done].
Qed.

Lemma keeps_load_current b s {A} (f : Z -> prog loc A) :
  (forall c, 1 <= c < DRAIN_ENTRY_CLAIMING -> keeps (Z.max b c) s (f c)) ->
  keeps b s (bind (load CurrentEpoch) f).
Proof.
  intros Hf. apply keeps_learn with (R := fun c g => 1 <= c < DRAIN_ENTRY_CLAIMING /\ c <= known_current g).
  - intros g Hg Hb Hs m st gs i HI Hi _. destruct (ghost_of _ _ _ _ _ HI Hi) as (H1 & H2 & H3).
    exists {| known_current := m CurrentEpoch; known_safe := known_safe g; scanning := None |}.
    split; [apply guar_same; [done|]; split; [simpl; lia|done]|].
    pose proof (inv_current _ _ _ HI). pose proof (inv_ok _ _ _ HI). unfold not_exhausted in *.
    simpl. unfold extends. simpl. repeat split; try done; lia.
  - intros c g' [Hc Hk] Hg Hb Hs. apply Hf; [done|done|lia|done].
Qed.

Lemma keeps_load_safe b s {A} (f : Z -> prog loc A) :
  (forall v, keeps b (Z.max s v) (f v)) -> keeps b s (bind (load SafeToReclaim) f).
Proof.
  intros Hf. apply keeps_learn with (R := fun v g => v <= known_safe g).
  - intros g Hg Hb Hs m st gs i HI Hi _. destruct (ghost_of _ _ _ _ _ HI Hi) as (H1 & H2 & H3).
    exists {| known_current := known_current g; known_safe := m SafeToReclaim; scanning := None |}.
    split; [apply guar_same; [done|]; split; [done|split; [simpl; lia|done]]|].
    simpl. unfold extends. simpl. repeat split; try done; lia.
  - intros c g' Hk Hg Hb Hs. apply Hf; [done|done|lia].
Qed.

(** A single write. *)
Lemma keeps_store b s l v :
  (forall m st gs i g, Inv m st gs -> gs !! i = Some g -> b <= known_current g ->
     hguar m (upd m l v) st i gs g) -> keeps b s (store l v).
Proof.
  intros Hw g Hg Hb Hs m st gs i HI Hi _. exists g. split; [by apply Hw|].
  simpl. split; [lia|]. split; [lia|done].
Qed.

Lemma keeps_rmw b s l f {A} (k : Z -> prog loc A) :
  quiet l = true -> (forall v, keeps b s (k v)) -> keeps b s (Rmw l f k).
Proof.
  intros Hl Hk. change (Rmw l f k) with (bind (Rmw l f Ret) k). apply keeps_bind; [|done].
  intros g Hg Hb Hs m st gs i HI Hi _. exists g. split; [by apply guar_quiet|].
  simpl. split; [lia|]. split; [lia|done].
Qed.

Lemma keeps_cas b s w l old new {A} (k : bool -> Z -> prog loc A) :
  (forall m st gs i g, Inv m st gs -> gs !! i = Some g -> b <= known_current g -> s <= known_safe g ->
     m l = old -> hguar m (upd m l new) st i gs g) ->
  (forall ok v, keeps b s (k ok v)) -> keeps b s (Cas w l old new k).
Proof.
  intros Hw Hk g Hg Hb Hs m st gs i HI Hi. split; intros Hm _; exists g.
  - split; [by apply Hw|]. by apply Hk.
  - split; [apply guar_same; [done|by eapply ghost_of]|]. by apply Hk.
Qed.

Lemma keeps_quiet_store b s l v : quiet l = true -> keeps b s (store l v).
Proof. intros Hl. apply keeps_store. intros. by apply guar_quiet. Qed.

Lemma keeps_publish b s n v : v = 0 \/ 1 <= v <= b -> keeps b s (store (EntryEpoch n) v).
Proof. intros Hv. apply keeps_store. intros. apply guar_entry; [lia|done|done]. Qed.

Lemma keeps_drain_store b s j v : v <> DRAIN_ENTRY_CLAIMING -> keeps b s (store (DrainEpoch j) v).
Proof. intros Hv. apply keeps_store. intros. by apply guar_drain. Qed.

Lemma keeps_quiet_cas b s w l old new {A} (k : bool -> Z -> prog loc A) :
  quiet l = true -> (forall ok v, keeps b s (k ok v)) -> keeps b s (Cas w l old new k).
Proof. intros Hl. apply keeps_cas. intros. by apply guar_quiet. Qed.

Lemma keeps_publish_cas b s w n old v {A} (k : bool -> Z -> prog loc A) :
  v = 0 \/ 1 <= v <= b -> (forall ok v, keeps b s (k ok v)) -> keeps b s (Cas w (EntryEpoch n) old v k).
Proof. intros Hv. apply keeps_cas. intros. apply guar_entry; [lia|done|done]. Qed.

(** A drain entry may be claimed when it is free or reclaimable. *)
Lemma keeps_claim b s j v : v = DRAIN_ENTRY_FREE \/ v <= s -> keeps b s (cas_claim_slot j v).
Proof.
  intros Hv. apply keeps_cas; [|intros; apply keeps_ret].
  intros m st gs i g HI Hi _ Hs Hm. apply guar_drain; [|done|done]. intros _. rewrite Hm.
  destruct (ghost_of _ _ _ _ _ HI Hi) as (_ & ? & _). destruct Hv; [by left|right; lia].
Qed.

(** ** Scanning the table *)

Lemma oldest_loop_ok kc ks n i o g :
  scan_at g i o -> known_current g = kc -> known_safe g = ks -> (i + n)%nat = n_entries e ->
  hwp (oldest_loop n i o) g (fun a g' => scan_at g' (n_entries e) a /\
    known_current g' = kc /\ known_safe g' = ks).
Proof.
  revert i o g. induction n as [|n IH]; intros i o g Hg Hkc Hks Hn.
  { simpl. by replace (n_entries e) with i by lia. }
  intros m st gs t HI Ht _. pose proof (ghost_of _ _ _ _ _ HI Ht) as Hgo.
  destruct (scan_at_ok _ _ _ _ _ Hgo Hg) as [Ho Hall].
  pose proof (inv_entries _ _ _ HI i ltac:(lia)) as He. unfold entry_ok in He.
  assert (forall k o', 1 <= o' <= o -> (forall j, (j < k)%nat -> m (EntryEpoch j) <> 0 -> o' <= st j) ->
    hguar m m st t gs {| known_current := known_current g; known_safe := known_safe g;
                         scanning := Some (k, o') |}) as Hset.
  { intros k o' Ho' Hk. apply guar_same; [done|]. destruct Hgo as (? & ? & _).
    split; [done|]. split; [done|]. split; [lia|done]. }
  cbn [bind oldest_loop protected_epoch load].
  destruct (Z.eqb_spec (m (EntryEpoch i)) 0) as [H0|H0]; simpl.
  - eexists. split; [apply (Hset (S i) o); [lia|]|apply IH; [by left|done|done|lia]].
    intros j Hj Hne. apply Hall; [|done]. destruct (decide (j = i)) as [->|]; [done|lia].
  - specialize (He H0). destruct (Z.ltb_spec (m (EntryEpoch i)) o).
    + destruct (Z.eqb_spec (m (EntryEpoch i)) 1) as [H1|H1].
      * eexists. split; [apply (Hset (n_entries e) 1); [lia|]|simpl; rewrite H1; split; [by left|done]].
        intros j Hj Hne. pose proof (inv_entries _ _ _ HI j Hj Hne). lia.
      * eexists. split; [apply (Hset (S i) (m (EntryEpoch i))); [lia|]|apply IH; [by left|done|done|lia]].
        intros j Hj Hne. destruct (decide (j = i)) as [->|]; [lia|].
        specialize (Hall j ltac:(lia) Hne). lia.
    + eexists. split; [apply (Hset (S i) o); [lia|]|apply IH; [by left|done|done|lia]].
      intros j Hj Hne. destruct (decide (j = i)) as [->|]; [lia|]. apply Hall; [lia|done].
Qed.

Lemma compute_safe_ok c g :
  scanning g = None -> 1 <= c <= known_current g ->
  hwp (compute_safe_to_reclaim_epoch_with e c) g (fun v g' => extends g g' /\ v <= known_safe g').
Proof.
  intros Hg Hc. unfold compute_safe_to_reclaim_epoch_with.
  eapply hwp_seq; [apply oldest_loop_ok; [by right|done|done|done]|]. intros o g1 (Hs & Hk1 & Hk2).
  intros m st gs i HI Hi _. pose proof (ghost_of _ _ _ _ _ HI Hi) as Hgo.
  pose proof (scan_at_ok _ _ _ _ _ Hgo Hs) as Hscan. pose proof Hgo as (H1 & H2 & H3).
  set (safe := sat_sub o 1). cbn [bind].
  destruct (Z.ltb_spec (m SafeToReclaim) safe) as [Hlt|Hge].
  - exists {| known_current := known_current g1; known_safe := m SafeToReclaim;
              scanning := Some (n_entries e, o) |}.
    split; [apply guar_same; [done|]; split; [done|split; [simpl; lia|done]]|].
    intros m2 st2 gs2 i2 HI2 Hi2 _. eexists.
    split; [eapply guar_safe; [done|done|by left]|]. unfold extends. simpl.
    destruct (ghost_of _ _ _ _ _ HI2 Hi2) as (_ & Hk & _). simpl in Hk. fold safe. repeat split; lia.
  - exists {| known_current := known_current g1; known_safe := m SafeToReclaim; scanning := None |}.
    split; [apply guar_same; [done|]; split; [done|split; [simpl; lia|done]]|].
    unfold extends. simpl. repeat split; lia.
Qed.

Lemma keeps_compute_with b s c {A} (f : Z -> prog loc A) :
  1 <= c <= b -> (forall v, keeps b (Z.max s v) (f v)) ->
  keeps b s (bind (compute_safe_to_reclaim_epoch_with e c) f).
Proof.
  intros Hc Hf. apply keeps_learn with (R := fun v g => v <= known_safe g).
  - intros g Hg Hb Hs. apply compute_safe_ok; [done|lia].
  - intros v g' Hv Hg Hb Hs. apply Hf; [done|done|lia].
Qed.


(** ** The operations *)

Hint Resolve keeps_ret keeps_load keeps_quiet_store : epoch.

(** Syntax-directed proofs of [keeps]. *)
Ltac keep_split :=
  match goal with
  | |- keeps _ _ (match ?x with _ => _ end) => destruct x eqn:?
  end.
Ltac keep :=
  repeat first
    [ solve [eauto 2 with epoch]
    | apply keeps_publish; first [by left | right; lia]
    | apply keeps_drain_store; done
    | keep_split
    | match goal with
      | |- keeps _ _ (bind (load CurrentEpoch) _) => apply keeps_load_current; intros ? ?
      | |- keeps _ _ (bind current_epoch _) => apply keeps_load_current; intros ? ?
      | |- keeps _ _ (bind (compare_exchange _ _ _) _) => apply keeps_quiet_cas; [done|intros ? ?]; cbn [bind]
      | |- keeps _ _ (bind (compare_exchange_weak _ _ _) _) => apply keeps_quiet_cas; [done|intros ? ?]; cbn [bind]
      | |- keeps _ _ (bind (fetch_add32 _ _) _) => apply keeps_rmw; [done|intros ?]; cbn [bind]
      | |- keeps _ _ (bind (fetch_sub32 _ _) _) => apply keeps_rmw; [done|intros ?]; cbn [bind]
      | |- keeps _ _ (bind _ _) => apply keeps_bind; [|intros ?]
      | |- keeps _ _ (Rmw _ _ _) => apply keeps_rmw; [done|intros ?]
      end ].

Lemma keeps_call b s w : keeps b s (call w).
Proof. unfold call. keep. Qed.
Hint Resolve keeps_call : epoch.

Lemma keeps_take_action b s j : keeps b s (take_action j).
Proof. unfold take_action. keep. Qed.
Hint Resolve keeps_take_action : epoch.

Lemma keeps_drain_slots b s n j v : v <= s -> keeps b s (drain_slots n j v).
Proof.
  intros Hv. revert j. induction n as [|n IH]; intros j; cbn [drain_slots]; [apply keeps_ret|].
  apply keeps_bind; [|intros claimed; keep].
  unfold try_claim_ready_slot. apply keeps_bind; [apply keeps_load|]. intros tr.
  destruct (Z.leb_spec tr v); [|apply keeps_ret]. apply keeps_claim. right. lia.
Qed.

Lemma keeps_compute b s {A} (f : Z -> prog loc A) :
  (forall v, keeps b (Z.max s v) (f v)) -> keeps b s (bind (compute_safe_to_reclaim_epoch e) f).
Proof.
  intros Hf. apply (keeps_load_current b s (fun c => bind (compute_safe_to_reclaim_epoch_with e c) f)).
  intros c Hc. apply keeps_compute_with; [lia|]. intros v. eapply keeps_weaken; [apply Hf|lia|lia].
Qed.

Lemma keeps_drain b s : keeps b s (drain e).
Proof. apply keeps_compute. intros v. apply keeps_drain_slots. lia. Qed.
Hint Resolve keeps_drain : epoch.

Lemma keeps_fetch_add_current b s {A} (f : Z -> prog loc A) :
  (forall c, 1 <= c -> c + 1 < DRAIN_ENTRY_CLAIMING -> keeps (Z.max b (c + 1)) s (f c)) ->
  keeps b s (bind (fetch_add CurrentEpoch 1) f).
Proof.
  intros Hf. apply keeps_learn with
    (R := fun c g => 1 <= c /\ c + 1 < DRAIN_ENTRY_CLAIMING /\ c + 1 <= known_current g).
  - intros g Hg Hb Hs m st gs i HI Hi Ho. pose proof (inv_current _ _ _ HI).
    destruct (guar_bump _ _ _ _ _ HI Hi Ho) as (Hw & Hc & Hguar). rewrite Hw. eexists. split; [exact Hguar|].
    unfold extends. simpl. repeat split; try done; lia.
  - intros c g' (? & ? & ?) Hg Hb Hs. apply Hf; [done|done|done|lia|done].
Qed.

Lemma keeps_assoc b s {A B C} (p : prog loc A) (f : A -> prog loc B) (k : B -> prog loc C) :
  keeps b s (bind p (fun a => bind (f a) k)) -> keeps b s (bind (bind p f) k).
Proof. intros Hp g Hg Hb Hs. apply hwp_bind_assoc. by apply Hp. Qed.

Lemma keeps_bump b s {A} (f : Z -> prog loc A) :
  (forall c, 2 <= c < DRAIN_ENTRY_CLAIMING -> keeps (Z.max b c) s (f c)) ->
  keeps b s (bind (bump_current_epoch e) f).
Proof.
  intros Hf. unfold bump_current_epoch. apply keeps_assoc, keeps_fetch_add_current. intros c Hc Hc'.
  assert (wadd 64 c 1 = c + 1) as ->
    by (apply wrap_id; unfold fits; unfold DRAIN_ENTRY_CLAIMING, u64_max in *; lia).
  apply keeps_assoc, keeps_bind; [apply keeps_bind; [apply keeps_load|intros; apply keeps_ret]|]. intros p.
  apply keeps_assoc, keeps_bind; [|intros _; cbn [bind]; apply Hf; lia].
  destruct p; [apply keeps_drain|]. apply keeps_compute_with; [lia|]. intros v. apply keeps_ret.
Qed.

Lemma keeps_is_safe b s target : keeps b s (is_safe_to_reclaim e target).
Proof.
  unfold is_safe_to_reclaim. apply keeps_bind; [apply keeps_load|]. intros v.
  destruct (target <=? v); [apply keeps_ret|]. apply keeps_compute. intros. apply keeps_ret.
Qed.
Hint Resolve keeps_is_safe : epoch.

(** Publishing only what was read is a discipline. *)
#[local] Instance keeps_discipline : Discipline e (fun A b p => keeps b 0 p).
Proof.
  split; intros.
  - apply keeps_ret.
  - by apply keeps_bind.
  - apply keeps_load.
  - apply keeps_load_current. intros c Hc. apply H. lia.
  - apply keeps_quiet_store. by destruct l.
  - apply keeps_quiet_cas; [by destruct l|done].
  - by apply keeps_publish.
  - by apply keeps_publish_cas.
  - apply keeps_drain.
  - apply keeps_bump. auto.
  - apply keeps_is_safe.
Qed.

Lemma keeps_register_slots b s n j prior a :
  prior < DRAIN_ENTRY_CLAIMING -> keeps b s (register_slots n j prior a).
Proof.
  intros Hp. assert (prior <> DRAIN_ENTRY_CLAIMING) by lia.
  revert j. induction n as [|n IH]; intros j; cbn [register_slots]; [apply keeps_ret|].
  apply keeps_bind; [apply keeps_load|]. intros tr.
  assert (forall claimed : bool, keeps b s (if claimed then
        let* prev_action := take_action j in
        store (DrainAction j) (action_word a) ;;
        (if tr =? DRAIN_ENTRY_FREE
         then (let* _ := fetch_add32 DrainCount 1 in Ret tt) else Ret tt) ;;
        store (DrainEpoch j) prior ;; call prev_action ;; Ret true
      else register_slots n (S j) prior a)) as Hrest by (intros claimed; keep).
  destruct (tr =? DRAIN_ENTRY_FREE) eqn:Htr.
  - apply Z.eqb_eq in Htr. cbn [bind]. apply keeps_bind; [apply keeps_claim; by left|exact Hrest].
  - apply keeps_assoc, keeps_load_safe. intros v. cbn [bind]. destruct (Z.leb_spec tr v).
    + apply keeps_bind; [apply keeps_claim; right; lia|].
      intros claimed. eapply keeps_weaken; [apply Hrest|lia|lia].
    + cbn [bind]. eapply keeps_weaken; [apply (Hrest false)|lia|lia].
Qed.

Lemma keeps_bump_action b fuel t a r : keeps b 0 (bump_current_epoch_action_impl fuel e t a r).
Proof.
  apply keeps_bump. intros c Hc.
  assert (wsub 64 c 1 = c - 1) as ->
    by (apply wrap_id; unfold fits; unfold DRAIN_ENTRY_CLAIMING, u64_max in *; lia).
  assert (forall prior, keeps (Z.max b c) 0 (help_drain e t prior)) as Hhelp
    by (intros prior; apply (ops_help_drain e (fun A b p => keeps b 0 p))).
  assert (forall idx, keeps (Z.max b c) 0 (refresh_entry_relaxed e t idx)) as Hrelax
    by (intros idx; apply (ops_refresh_relaxed e (fun A b p => keeps b 0 p))).
  apply keeps_bind; [|intros reg; keep].
  induction fuel as [|fuel IH]; cbn [register_loop]; [apply keeps_ret|].
  apply keeps_bind; [apply keeps_register_slots; lia|]. intros reg. keep.
Qed.

Lemma keeps_client al fuel b os t : keeps b 0 (client al fuel e os t).
Proof.
  revert t. induction os as [|o os IH]; intros t; cbn [client]; [apply keeps_ret|].
  apply keeps_bind; [|intros [t'|]; [apply IH|apply keeps_ret]].
  destruct (registers o) eqn:Ho; [|by apply (ops_exec e (fun A b p => keeps b 0 p))].
  destruct o; try discriminate Ho; apply keeps_bind;
    try (intros; apply keeps_ret); apply keeps_bump_action.
Qed.

(** ** The initial state *)

Definition start : ghost := {| known_current := 1; known_safe := 0; scanning := None |}.

Lemma start_ok al fuel (cs : list (list op * ThreadLocal)) :
  hpool_ok stamps not_exhausted claims_reclaimable Inv (fun _ _ => True)
    ((new_cells, (fun c => client al fuel e c.1 c.2) <$> cs), fun _ => 1).
Proof.
  exists (replicate (length cs) start). split.
  - split; try done. apply Forall_replicate. done.
  - apply Forall2_fmap_l, Forall2_replicate_r; [done|]. apply Forall_forall. intros c _.
    eapply hwp_mono; [apply (keeps_client al fuel 1); done|done].
Qed.

(** An entry that is not written keeps its stamp. *)
Lemma stamp_kept {A} (c c' : pool A) st st' i v :
  rtc (fun ch ch' => hstep stamps not_exhausted ch ch' /\
         (ok_step not_exhausted ch.1 ch'.1 /\ ch'.1.1 (EntryEpoch i) = v)) (c, st) (c', st') ->
  c.1 (EntryEpoch i) = v -> st' i = st i /\ c'.1 (EntryEpoch i) = v.
Proof.
  intros Hr. remember (c, st) as ch eqn:Hch. remember (c', st') as ch' eqn:Hch'.
  revert c st Hch. induction Hr as [|x y z [Hs [_ Hv]] _ IH]; intros c st ->; [by simplify_eq|].
  intros Hc. inversion Hs as [? c1 ? Hok]; subst. simpl in *.
  destruct (IH eq_refl _ _ eq_refl eq_refl) as [-> ->]. split; [|done].
  unfold stamps. by rewrite Hc, Z.eqb_refl.
Qed.

End Safety.

(** C1: Epoch protection: take any number of threads that execute any operations
    of the crate on a new instance, interleaved in any way.  If entry [i] is
    protected in [c1] and is not written again up to [c2], then the reclaimable
    epoch in [c2] is below the global epoch of [c1], and the only drain entries
    that a next step can claim are free ones and those whose trigger is an epoch
    before that of [c1]: no action registered by a bump that happened after [c1]
    can start to run. *)
Theorem epoch_protects al fuel e cs (c1 c2 c3 : pool (option ThreadLocal)) i v :
  (i < n_entries e)%nat ->
  rtc (ok_step not_exhausted) (new_cells, (fun c => client al fuel e c.1 c.2) <$> cs) c1 ->
  c1.1 (EntryEpoch i) = v -> v <> 0 ->
  rtc (fun c c' => ok_step not_exhausted c c' /\ c'.1 (EntryEpoch i) = v) c1 c2 ->
  ok_step not_exhausted c2 c3 ->
  c2.1 SafeToReclaim < c1.1 CurrentEpoch /\
  forall j, c2.1 (DrainEpoch j) <> DRAIN_ENTRY_CLAIMING -> c3.1 (DrainEpoch j) = DRAIN_ENTRY_CLAIMING ->
    c2.1 (DrainEpoch j) = DRAIN_ENTRY_FREE \/ c2.1 (DrainEpoch j) < c1.1 CurrentEpoch.
Proof.
  intros Hi H01 Hv Hne H12 H23. pose proof (start_ok e al fuel cs) as Hok0.
  destruct (ok_steps_history stamps not_exhausted _ _ _ (fun _ => 1) (fun _ _ H => H) H01) as (st1 & Hr1 & _).
  pose proof (hpool_safe _ _ _ _ _ _ _ Hr1 Hok0) as Hok1.
  destruct (ok_steps_history stamps not_exhausted _ _ _ st1
    (fun a b (H : _ /\ _) => proj1 H) H12) as (st2 & Hr2 & Hs2).
  pose proof (hpool_safe _ _ _ _ _ _ _ Hr2 Hok1) as Hok2.
  destruct (stamp_kept _ _ _ _ _ _ Hs2 Hv) as [Hst Hv2].
  pose proof (hpool_step _ _ _ _ _ _ _ (hstep_intro _ _ c2 c3 st2 H23) Hok2) as [HT _].
  destruct Hok1 as (gs1 & HI1 & _), Hok2 as (gs2 & HI2 & _). simpl in *.
  pose proof (inv_entries _ _ _ _ HI1 _ Hi ltac:(congruence)) as He1.
  pose proof (inv_entries _ _ _ _ HI2 _ Hi ltac:(congruence)) as He2.
  split; [lia|]. intros j H1 H2. destruct (HT j H1 H2); [by left|right; lia].
Qed.
(** A reader protected before a bump, and the bump's action waiting for it. *)
Definition example_epoch : LightEpoch := {| id := 1; n_entries := 1; max_sessions := 1 |}.
Definition example_clients : list (list op * ThreadLocal) :=
  [([Resume], new_thread 1); ([BumpAction 7], new_thread 2)].
Definition example_start : pool (option ThreadLocal) :=
  (new_cells, (fun c => client (fun _ => true) 2 example_epoch c.1 c.2) <$> example_clients).
Definition example_protected : pool (option ThreadLocal) := run_schedule (replicate 9 0%nat) example_start.
Definition example_waiting : pool (option ThreadLocal) :=
  run_schedule (replicate 20 1%nat) example_protected.
Definition example_next : pool (option ThreadLocal) := run_schedule [1%nat] example_waiting.

Definition not_exhaustedb (m : mem loc) : bool := m CurrentEpoch <? DRAIN_ENTRY_CLAIMING.
Definition pinnedb (m : mem loc) : bool := not_exhaustedb m && (m (EntryEpoch 0) =? 1).

Lemma example_ok_step c c' : pstep c c' /\ not_exhaustedb c'.1 = true -> ok_step (A := option ThreadLocal) not_exhausted c c'.
Proof. intros [Hs Hb]. split; [done|]. by apply Z.ltb_lt. Qed.

Lemma epoch_protects_witness :
  example_waiting.1 (DrainEpoch 0) = 1 /\ example_waiting.1 SafeToReclaim < example_protected.1 CurrentEpoch.
Proof.
  split; [vm_compute; reflexivity|].
  refine (proj1 (epoch_protects (fun _ => true) 2 example_epoch example_clients example_protected
    example_waiting example_next 0 1 _ _ _ _ _ _)).
  - simpl. lia.
  - eapply rtc_subrel; [exact example_ok_step|]. apply run_schedule_steps. vm_compute. reflexivity.
  - vm_compute. reflexivity.
  - lia.
  - eapply rtc_subrel; [|apply (run_schedule_steps pinnedb (replicate 20 1%nat)); vm_compute; reflexivity].
    intros c c' [Hs Hb]. apply andb_true_iff in Hb as [Hb1 Hb2]. split; [by apply example_ok_step|].
    by apply Z.eqb_eq.
  - split; [apply run_schedule_one; vm_compute; reflexivity|]. vm_compute. reflexivity.
Defined.
End EpochSafe.
