(* ===== verification/EpochRace.v ===== *)
(** * A race between claiming and releasing an entry ([wedb/wepoch/src/entry.rs])

    [try_claim] undoes its claim by storing zero into the entry when it finds the
    entry reserved.  When the participant that reserved it is dropped between the
    test and the store, another thread can claim the entry in between, and the
    store erases that thread's protection. *)

From stdpp Require Import base list numbers option tactics relations.
From Stdlib Require Import ZArith Lia Bool.
From S2P Require Import Prelude Atomic Epoch EpochOps History.

Module EpochRace.
Import Tls LightEpoch EpochOps.

(** One entry; two threads that protect themselves, one that registers a participant
    and drops it, and one that bumps the epoch with an action. *)
Definition race_epoch : LightEpoch := {| id := 1; n_entries := 1; max_sessions := 1 |}.
Definition race_clients : list (list op * ThreadLocal) :=
  [([Resume], new_thread 1); ([Resume], new_thread 2);
   ([Register; Drop 0], new_thread 3); ([BumpAction 7], new_thread 4)].
Definition race_start : pool (option ThreadLocal) :=
  (new_cells, (fun c => client (fun _ => true) 2 race_epoch c.1 c.2) <$> race_clients).

(** Thread 0 finds the entry free; thread 2 reserves it; thread 0 publishes, sees
    the reservation; thread 2 drops its participant; thread 1 claims the entry. *)
Definition race_schedule : list nat :=
  replicate 3 0%nat ++ replicate 3 2%nat ++ replicate 2 0%nat ++ replicate 5 2%nat ++ replicate 8 1%nat.
Definition race_protected : pool (option ThreadLocal) := run_schedule race_schedule race_start.

(** Thread 0 undoes its claim; thread 3 bumps the epoch. *)
Definition race_reclaimed : pool (option ThreadLocal) :=
  run_schedule (0%nat :: replicate 80 3%nat) race_protected.

(** C25: The protection of a thread can be erased by another thread's failed claim:
    there is an interleaving in which thread 1 has returned from [resume], its entry
    published, before thread 3 starts to bump the epoch, and in which the action of
    that bump is executed although thread 1 is still protected. *)
Theorem rollback_erases_protection :
  exists (c1 c2 : pool (option ThreadLocal)) t,
    rtc pstep race_start c1 /\ c1.2 !! 1%nat = Some (Ret (Some t)) /\
    active_idx race_epoch t = Some 0%nat /\ c1.1 (EntryEpoch 0) = 1 /\ c1.1 (EntryThread 0) = tid t /\
    c1.2 !! 3%nat = race_start.2 !! 3%nat /\
    rtc pstep c1 c2 /\ c2.2 !! 1%nat = c1.2 !! 1%nat /\ c2.1 (Ran 7) = 1.
Proof.
  exists race_protected, race_reclaimed,
    (set_thread_entry (fun _ => true) (new_thread 2) 1 1 1).
  split; [apply run_schedule_rtc|]. split; [vm_compute; reflexivity|].
  split; [reflexivity|]. split; [vm_compute; reflexivity|]. split; [vm_compute; reflexivity|].
  split; [apply run_schedule_other; by apply (bool_decide_unpack _)|].
  split; [apply run_schedule_rtc|].
  split; [apply run_schedule_other; by apply (bool_decide_unpack _)|].
  vm_compute. reflexivity.
Qed.

End EpochRace.
