(* ===== verification/EpochDrain.v ===== *)
(** * The drain list under concurrency ([wedb/wepoch/src/epoch.rs])

    A drain entry marked as being claimed belongs to exactly one thread, which
    moves actions between the entry and its own hands; calling an action uses it
    up.  So an action runs at most as often as it was registered, none is lost,
    and the counter of pending actions is the number of entries in use as soon as
    no thread is between its two updates. *)

From stdpp Require Import base list numbers option tactics relations.
From Stdlib Require Import ZArith Lia Bool.
From S2P Require Import Prelude Atomic Epoch EpochOps History EpochSafe.

Module EpochDrain.
Import EpochEntry Tls LightEpoch EpochOps.
Import EpochSafe (not_exhausted).
Local Open Scope prog_scope.

(** The drain entry a thread has claimed, with the action word in it. *)
Record account : Type := {
  owns : option (nat * Z);
  debt : Z;
  hold : Z
}.

Definition owns_slot (j : nat) (g : account) : Z :=
  match owns g with Some (k, _) => if decide (k = j) then 1 else 0 | None => 0 end.

Lemma owns_slot_nonneg j g : 0 <= owns_slot j g.
Proof. unfold owns_slot. destruct (owns g) as [[k w]|]; [case_decide|]; lia. Qed.

Lemma owns_slot_self j w g : owns g = Some (j, w) -> owns_slot j g = 1.
Proof. intros Ho. unfold owns_slot. rewrite Ho. by rewrite decide_True. Qed.

Definition drain_slots_list : list nat := seq 0 DRAIN_LIST_SIZE.

Section Accounts.
(** The accounts of action [a], of which [total] registrations are asked for. *)
Context (e : LightEpoch) (a : nat) (total : Z).

Definition is_action (w : Z) : Z := if w =? action_word a then 1 else 0.
Definition cells (m : mem loc) : Z := zsum (fun j => is_action (m (DrainAction j))) drain_slots_list.
Definition in_use (m : mem loc) (j : nat) : Z := if m (DrainEpoch j) =? DRAIN_ENTRY_FREE then 0 else 1.
Definition used (m : mem loc) : Z := zsum (in_use m) drain_slots_list.
Definition claimed (m : mem loc) (j : nat) : Z := if m (DrainEpoch j) =? DRAIN_ENTRY_CLAIMING then 1 else 0.

Record Inv (m : mem loc) (h : unit) (gs : list account) : Prop := {
  inv_bounds : 1 <= m CurrentEpoch < DRAIN_ENTRY_CLAIMING /\ m SafeToReclaim < DRAIN_ENTRY_CLAIMING;
  inv_actions : m (Ran a) + cells m + zsum hold gs = total;
  inv_count : m DrainCount = wrap 32 (used m + zsum debt gs);
  inv_owner : forall j, zsum (owns_slot j) gs = claimed m j;
  inv_content : forall g j w, In g gs -> owns g = Some (j, w) ->
    (j < DRAIN_LIST_SIZE)%nat /\ m (DrainAction j) = w;
  inv_free : forall j, (j < DRAIN_LIST_SIZE)%nat -> m (DrainEpoch j) = DRAIN_ENTRY_FREE -> m (DrainAction j) = 0;
  inv_words : forall j, 0 <= m (DrainAction j);
  inv_hold : Forall (fun g => 0 <= hold g) gs
}.

Definition no_history (m m' : mem loc) (h : unit) : unit := tt.
Definition any_step (m m' : mem loc) : Prop := True.

Abbreviation hwp := (hwp no_history not_exhausted any_step Inv).
Abbreviation hguar := (hguar no_history any_step Inv).

(** Cells that the accounts do not mention. *)
Definition neutral (l : loc) : bool :=
  match l with
  | CurrentEpoch | SafeToReclaim | DrainCount | DrainEpoch _ | DrainAction _ | Ran _ => false
  | _ => true
  end.

(** A step that keeps the ghost and changes neither the accounts nor the bounds. *)
Lemma guar_keep m m' h gs i g :
  Inv m h gs -> gs !! i = Some g ->
  1 <= m' CurrentEpoch < DRAIN_ENTRY_CLAIMING -> m' SafeToReclaim < DRAIN_ENTRY_CLAIMING ->
  m' DrainCount = m DrainCount -> m' (Ran a) = m (Ran a) ->
  (forall j, m' (DrainEpoch j) = m (DrainEpoch j)) -> (forall j, m' (DrainAction j) = m (DrainAction j)) ->
  hguar m m' h i gs g.
Proof.
  intros HI Hi Hc Hs Hn Hr He Ha. split; [done|]. rewrite list_insert_id by done.
  destruct HI as [_ H2 H3 H4 H5 H6 H7 H8]. split; [done| | | | | | |done].
  - rewrite Hr. rewrite <- H2. do 2 f_equal. apply zsum_ext. intros j _. by rewrite Ha.
  - rewrite Hn, H3. do 2 f_equal. apply zsum_ext. intros j _. unfold in_use. by rewrite He.
  - intros j. unfold claimed. rewrite He. apply H4.
  - intros g' j w Hg Ho. rewrite Ha. by eapply H5.
  - intros j Hj Hf. rewrite Ha. apply H6; [done|]. by rewrite <- He.
  - intros j. rewrite Ha. apply H7.
Qed.

Lemma drain_guar_same m h gs i g : Inv m h gs -> gs !! i = Some g -> hguar m m h i gs g.
Proof. intros HI Hi. destruct (inv_bounds _ _ _ HI). by apply guar_keep. Qed.

Lemma guar_neutral m l v h gs i g :
  neutral l = true -> Inv m h gs -> gs !! i = Some g -> hguar m (upd m l v) h i gs g.
Proof.
  intros Hl HI Hi. destruct (inv_bounds _ _ _ HI).
  assert (forall l', neutral l' = false -> upd m l v l' = m l') as Hu.
  { intros l' Hl'. apply upd_ne. intros ->. by rewrite Hl in Hl'. }
  apply guar_keep; try done; intros; rewrite ?Hu; try done; lia.
Qed.

(** ** Moves of the owner of a drain entry *)

Lemma slot_in j : (j < DRAIN_LIST_SIZE)%nat -> In j drain_slots_list.
Proof. intros Hj. apply in_seq. lia. Qed.

Lemma zsum_slots (f f' : nat -> Z) j :
  (j < DRAIN_LIST_SIZE)%nat -> (forall k, k <> j -> f' k = f k) ->
  zsum f' drain_slots_list = zsum f drain_slots_list - f j + f' j.
Proof. intros Hj Hf. apply zsum_change; [apply seq_NoDup|by apply slot_in|done]. Qed.

(** An owner excludes all others. *)
Lemma owner_unique m h gs i g g' j w w' :
  Inv m h gs -> gs !! i = Some g -> owns g = Some (j, w) ->
  owns g' = Some (j, w') -> forall i', gs !! i' = Some g' -> i' = i.
Proof.
  intros HI Hi Ho Ho' i' Hi'. destruct (decide (i' = i)) as [|Hne]; [done|].
  pose proof (inv_owner _ _ _ HI j) as Hsum.
  pose proof (zsum_lookup_two (owns_slot j) gs i' i g' g) as H2.
  specialize (H2 (owns_slot_nonneg j) Hne Hi' Hi).
  rewrite (owns_slot_self j w' g'), (owns_slot_self j w g) in H2 by done. unfold claimed in Hsum.
  destruct (m (DrainEpoch j) =? DRAIN_ENTRY_CLAIMING); lia.
Qed.

(** What is in the hands of the others is untouched by a step of thread [i]. *)
Lemma others_content m m' h gs i g g' :
  Inv m h gs -> gs !! i = Some g ->
  (forall k, match owns g with Some (j, _) => k <> j | None => m (DrainEpoch k) = DRAIN_ENTRY_CLAIMING end ->
     m' (DrainAction k) = m (DrainAction k)) ->
  (forall j w, owns g' = Some (j, w) -> (j < DRAIN_LIST_SIZE)%nat /\ m' (DrainAction j) = w) ->
  forall x j w, In x (<[i := g']> gs) -> owns x = Some (j, w) ->
    (j < DRAIN_LIST_SIZE)%nat /\ m' (DrainAction j) = w.
Proof.
  intros HI Hi Hm Hg' x j w Hx Hox.
  apply list_elem_of_In, list_elem_of_lookup in Hx as (k & Hk).
  destruct (decide (k = i)) as [->|Hne].
  { rewrite list_lookup_insert_eq in Hk by (by eapply lookup_lt_Some). simplify_eq. by apply Hg'. }
  rewrite list_lookup_insert_ne in Hk by done.
  assert (In x gs) as Hin by (apply list_elem_of_In, list_elem_of_lookup; eauto).
  destruct (inv_content _ _ _ HI x j w Hin Hox) as [Hj Hw]. split; [done|].
  rewrite Hm; [done|]. destruct (owns g) as [[j' w']|] eqn:Ho.
  - intros ->. apply Hne. by eapply (owner_unique m h gs i g x j' w' w).
  - pose proof (inv_owner _ _ _ HI j) as Hsum. unfold claimed in Hsum.
    destruct (Z.eqb_spec (m (DrainEpoch j)) DRAIN_ENTRY_CLAIMING) as [|]; [done|].
    pose proof (zsum_lookup (owns_slot j) gs k x (owns_slot_nonneg j) Hk) as H2.
    rewrite (owns_slot_self j w) in H2 by done. lia.
Qed.

(** A step of the thread with account [g], after which its account is [g']. *)
Lemma guar_move m m' h gs i g g' :
  Inv m h gs -> gs !! i = Some g ->
  m' CurrentEpoch = m CurrentEpoch -> m' SafeToReclaim = m SafeToReclaim ->
  m' (Ran a) + cells m' + hold g' = m (Ran a) + cells m + hold g ->
  m' DrainCount = wrap 32 (m DrainCount + (used m' - used m) + (debt g' - debt g)) ->
  (forall j, owns_slot j g' - owns_slot j g = claimed m' j - claimed m j) ->
  (forall k, match owns g with Some (j, _) => k <> j | None => m (DrainEpoch k) = DRAIN_ENTRY_CLAIMING end ->
     m' (DrainAction k) = m (DrainAction k)) ->
  (forall j w, owns g' = Some (j, w) -> (j < DRAIN_LIST_SIZE)%nat /\ m' (DrainAction j) = w) ->
  (forall j, (j < DRAIN_LIST_SIZE)%nat -> m' (DrainEpoch j) = DRAIN_ENTRY_FREE -> m' (DrainAction j) = 0) ->
  (forall j, 0 <= m' (DrainAction j)) -> 0 <= hold g' ->
  hguar m m' h i gs g'.
Proof.
  intros HI Hi Hc Hs Ha Hn Ho Hk Hg' Hf Hw Hh. split; [done|]. split.
  - rewrite Hc, Hs. apply (inv_bounds _ _ _ HI).
  - pose proof (inv_actions _ _ _ HI). rewrite (zsum_insert _ _ _ g) by done. lia.
  - rewrite Hn, (inv_count _ _ _ HI), (zsum_insert _ _ _ g) by done. unfold wrap.
    rewrite <- Z.add_assoc, Zplus_mod_idemp_l. f_equal. lia.
  - intros j. rewrite (zsum_insert _ _ _ g), (inv_owner _ _ _ HI) by done. specialize (Ho j). lia.
  - by eapply others_content.
  - done.
  - done.
  - apply Forall_insert; [apply (inv_hold _ _ _ HI)|done].
Qed.

Lemma hold_nonneg m h gs i g : Inv m h gs -> gs !! i = Some g -> 0 <= hold g.
Proof. intros HI Hi. by eapply (Forall_lookup_1 _ _ _ _ (inv_hold _ _ _ HI)). Qed.

Lemma count_fits m h gs : Inv m h gs -> fits 32 (m DrainCount).
Proof. intros HI. rewrite (inv_count _ _ _ HI). by apply wrap_fits. Qed.

Lemma cells_upd m j w :
  (j < DRAIN_LIST_SIZE)%nat ->
  cells (upd m (DrainAction j) w) = cells m - is_action (m (DrainAction j)) + is_action w.
Proof.
  intros Hj. unfold cells. rewrite (zsum_slots (fun j => is_action (m (DrainAction j))) _ j Hj).
  - by rewrite upd_eq.
  - intros k Hk. by rewrite upd_ne by congruence.
Qed.

Lemma cells_ext m m' : (forall j, m' (DrainAction j) = m (DrainAction j)) -> cells m' = cells m.
Proof. intros He. apply zsum_ext. intros j _. by rewrite He. Qed.

Lemma used_upd m j v :
  (j < DRAIN_LIST_SIZE)%nat ->
  used (upd m (DrainEpoch j) v) = used m - in_use m j + (if v =? DRAIN_ENTRY_FREE then 0 else 1).
Proof.
  intros Hj. unfold used. rewrite (zsum_slots (in_use m) _ j Hj).
  - unfold in_use. by rewrite upd_eq.
  - intros k Hk. unfold in_use. by rewrite upd_ne by congruence.
Qed.

Lemma used_ext m m' : (forall j, m' (DrainEpoch j) = m (DrainEpoch j)) -> used m' = used m.
Proof. intros He. apply zsum_ext. intros j _. unfold in_use. by rewrite He. Qed.

Lemma claimed_upd m j v k :
  claimed (upd m (DrainEpoch j) v) k =
  if decide (j = k) then (if v =? DRAIN_ENTRY_CLAIMING then 1 else 0) else claimed m k.
Proof.
  unfold claimed. case_decide as Hk; [subst; by rewrite upd_eq|by rewrite upd_ne by congruence].
Qed.

(** Claiming the entry [j] that holds epoch [tr]. *)
Lemma guar_claim m h gs i j tr n :
  Inv m h gs -> gs !! i = Some {| owns := None; debt := 0; hold := n |} ->
  (j < DRAIN_LIST_SIZE)%nat -> m (DrainEpoch j) = tr -> tr <> DRAIN_ENTRY_CLAIMING ->
  hguar m (upd m (DrainEpoch j) DRAIN_ENTRY_CLAIMING) h i gs
    {| owns := Some (j, m (DrainAction j)); debt := if tr =? DRAIN_ENTRY_FREE then -1 else 0; hold := n |}.
Proof.
  intros HI Hi Hj Htr Hne. pose proof (count_fits _ _ _ HI).
  eapply guar_move; [done|done|by rewrite upd_ne|by rewrite upd_ne|..]; cbn [owns debt hold].
  - rewrite upd_ne by done. rewrite (cells_ext m) by (intros; by rewrite upd_ne). lia.
  - rewrite upd_ne, used_upd by done. unfold in_use. rewrite Htr.
    destruct (tr =? DRAIN_ENTRY_FREE); simpl; rewrite wrap_id; try lia; unfold fits in *; lia.
  - intros k. rewrite claimed_upd. unfold owns_slot, claimed. simpl.
    destruct (decide (j = k)) as [<-|]; [|lia]. rewrite Htr. destruct (Z.eqb_spec tr DRAIN_ENTRY_CLAIMING); [done|lia].
  - intros k _. by rewrite upd_ne.
  - intros k w [= <- <-]. split; [done|]. by rewrite upd_ne.
  - intros k Hk. destruct (decide (j = k)) as [<-|Hjk]; [by rewrite upd_eq|].
    rewrite !upd_ne by congruence. by apply (inv_free _ _ _ HI).
  - intros k. rewrite upd_ne by done. apply (inv_words _ _ _ HI).
  - by apply (hold_nonneg _ _ _ _ _ HI Hi).
Qed.

(** Writing the action cell of an entry that the thread owns. *)
Lemma guar_action m h gs i j w d n w' :
  Inv m h gs -> gs !! i = Some {| owns := Some (j, w); debt := d; hold := n |} ->
  0 <= w' -> is_action w' <= n + is_action w ->
  hguar m (upd m (DrainAction j) w') h i gs
    {| owns := Some (j, w'); debt := d; hold := n + is_action w - is_action w' |}.
Proof.
  intros HI Hi Hw' Hn. pose proof (count_fits _ _ _ HI) as Hfit.
  destruct (inv_content _ _ _ HI _ j w (proj1 (list_elem_of_In _ _) (list_elem_of_lookup_2 _ _ _ Hi)) eq_refl)
    as [Hj Hw].
  eapply guar_move; [done|done|by rewrite upd_ne|by rewrite upd_ne|..]; cbn [owns debt hold].
  - rewrite upd_ne, cells_upd, Hw by done. lia.
  - rewrite upd_ne by done. rewrite (used_ext m) by (intros; by rewrite upd_ne).
    symmetry. rewrite wrap_id by (unfold fits in *; lia). lia.
  - intros k. unfold claimed. rewrite upd_ne by done. unfold owns_slot. simpl. lia.
  - intros k Hk. by rewrite upd_ne by congruence.
  - intros k w0 [= <- <-]. split; [done|]. by rewrite upd_eq.
  - intros k Hk. rewrite upd_ne by done. intros Hf.
    destruct (decide (j = k)) as [<-|Hjk]; [|rewrite upd_ne by congruence; by apply (inv_free _ _ _ HI)].
    pose proof (inv_owner _ _ _ HI j) as Hsum. unfold claimed in Hsum. rewrite Hf in Hsum.
    change (DRAIN_ENTRY_FREE =? DRAIN_ENTRY_CLAIMING) with false in Hsum. cbv iota in Hsum.
    pose proof (zsum_lookup (owns_slot j) gs i _ (owns_slot_nonneg j) Hi) as H2.
    rewrite (owns_slot_self j w) in H2 by done. lia.
  - intros k. destruct (decide (j = k)) as [<-|Hjk]; [by rewrite upd_eq|].
    rewrite upd_ne by congruence. apply (inv_words _ _ _ HI).
  - lia.
Qed.

(** Counting. *)
Lemma guar_count m h gs i o d n x :
  Inv m h gs -> gs !! i = Some {| owns := o; debt := d; hold := n |} ->
  hguar m (upd m DrainCount (wrap 32 (m DrainCount + x))) h i gs {| owns := o; debt := d + x; hold := n |}.
Proof.
  intros HI Hi.
  eapply guar_move; [done|done|by rewrite upd_ne|by rewrite upd_ne|..]; cbn [owns debt hold].
  - rewrite upd_ne by done. rewrite (cells_ext m) by (intros; by rewrite upd_ne). lia.
  - rewrite upd_eq. rewrite (used_ext m) by (intros; by rewrite upd_ne). f_equal. lia.
  - intros k. unfold claimed. rewrite upd_ne by done. unfold owns_slot. simpl. lia.
  - intros k _. by rewrite upd_ne.
  - intros k w ->. rewrite upd_ne by done.
    eapply (inv_content _ _ _ HI _ _ _ (proj1 (list_elem_of_In _ _) (list_elem_of_lookup_2 _ _ _ Hi))).
    reflexivity.
  - intros k Hk. rewrite !upd_ne by done. by apply (inv_free _ _ _ HI).
  - intros k. rewrite upd_ne by done. apply (inv_words _ _ _ HI).
  - by apply (hold_nonneg _ _ _ _ _ HI Hi).
Qed.

(** Publishing the entry: [v] is the free mark or a trigger epoch. *)
Lemma guar_publish m h gs i j w n v d :
  Inv m h gs -> gs !! i = Some {| owns := Some (j, w); debt := d; hold := n |} ->
  v <> DRAIN_ENTRY_CLAIMING -> (v = DRAIN_ENTRY_FREE -> w = 0) ->
  d = (if v =? DRAIN_ENTRY_FREE then -1 else 0) ->
  hguar m (upd m (DrainEpoch j) v) h i gs {| owns := None; debt := 0; hold := n |}.
Proof.
  intros HI Hi Hv Hfree Hd. pose proof (count_fits _ _ _ HI) as Hfit.
  pose proof (proj1 (list_elem_of_In _ _) (list_elem_of_lookup_2 _ _ _ Hi)) as Hin.
  destruct (inv_content _ _ _ HI _ j w Hin eq_refl) as [Hj Hw].
  assert (m (DrainEpoch j) = DRAIN_ENTRY_CLAIMING) as Hm.
  { pose proof (inv_owner _ _ _ HI j) as Hsum. unfold claimed in Hsum.
    pose proof (zsum_lookup (owns_slot j) gs i _ (owns_slot_nonneg j) Hi) as H2.
    rewrite (owns_slot_self j w) in H2 by done.
    destruct (Z.eqb_spec (m (DrainEpoch j)) DRAIN_ENTRY_CLAIMING); [done|lia]. }
  eapply guar_move; [done|done|by rewrite upd_ne|by rewrite upd_ne|..]; cbn [owns debt hold].
  - rewrite upd_ne by done. rewrite (cells_ext m) by (intros; by rewrite upd_ne). lia.
  - rewrite upd_ne, used_upd by done. unfold in_use. rewrite Hm, Hd.
    change (DRAIN_ENTRY_CLAIMING =? DRAIN_ENTRY_FREE) with false. cbv iota.
    destruct (v =? DRAIN_ENTRY_FREE); rewrite wrap_id; try lia; unfold fits in *; lia.
  - intros k. rewrite claimed_upd. unfold owns_slot, claimed. cbn [owns].
    destruct (decide (j = k)) as [<-|]; [|lia]. rewrite Hm, Z.eqb_refl.
    destruct (Z.eqb_spec v DRAIN_ENTRY_CLAIMING); [done|lia].
  - intros k _. by rewrite upd_ne.
  - done.
  - intros k Hk. rewrite (upd_ne _ _ (DrainAction k)) by done.
    destruct (decide (j = k)) as [<-|Hjk]; [rewrite upd_eq; intros Hf; by rewrite Hw, Hfree|].
    rewrite upd_ne by congruence. by apply (inv_free _ _ _ HI).
  - intros k. rewrite upd_ne by done. apply (inv_words _ _ _ HI).
  - by apply (hold_nonneg _ _ _ _ _ HI Hi).
Qed.

(** Calling an action that the thread holds. *)
Lemma guar_call m h gs i b n :
  Inv m h gs -> gs !! i = Some {| owns := None; debt := 0; hold := n + is_action (action_word b) |} ->
  0 <= n ->
  hguar m (upd m (Ran b) (m (Ran b) + 1)) h i gs {| owns := None; debt := 0; hold := n |}.
Proof.
  intros HI Hi Hn. pose proof (count_fits _ _ _ HI) as Hfit.
  eapply guar_move; [done|done|by rewrite upd_ne|by rewrite upd_ne|..]; cbn [owns debt hold].
  - rewrite (cells_ext m) by (intros; by rewrite upd_ne). unfold is_action, action_word.
    destruct (Z.eqb_spec (Z.of_nat b + 1) (Z.of_nat a + 1)).
    + replace b with a by lia. rewrite upd_eq. lia.
    + rewrite upd_ne by (intros [= ->]; lia). lia.
  - rewrite upd_ne by done. rewrite (used_ext m) by (intros; by rewrite upd_ne).
    symmetry. rewrite wrap_id by (unfold fits in *; lia). lia.
  - intros k. unfold claimed. rewrite upd_ne by done. unfold owns_slot. simpl. lia.
  - intros k _. by rewrite upd_ne.
  - done.
  - intros k Hk. rewrite !upd_ne by done. by apply (inv_free _ _ _ HI).
  - intros k. rewrite upd_ne by done. apply (inv_words _ _ _ HI).
  - done.
Qed.

(** ** Programs that leave the accounts of their thread as they are *)

Definition acc (n : Z) : account := {| owns := None; debt := 0; hold := n |}.

Definition steady {A} (p : prog loc A) : Prop := forall n, 0 <= n -> hwp p (acc n) (fun _ g' => g' = acc n).

Lemma is_action_0 : is_action 0 = 0.
Proof. unfold is_action, action_word. destruct (Z.eqb_spec 0 (Z.of_nat a + 1)); lia. Qed.

Lemma is_action_nonneg w : 0 <= is_action w.
Proof. unfold is_action. destruct (w =? action_word a); lia. Qed.

Lemma steady_ret {A} (x : A) : steady (Ret x).
Proof. done. Qed.

Lemma steady_bind {A B} (p : prog loc A) (f : A -> prog loc B) :
  steady p -> (forall x, steady (f x)) -> steady (bind p f).
Proof. intros Hp Hf n Hn. eapply hwp_seq; [by apply Hp|]. intros x g' ->. by apply Hf. Qed.

Lemma steady_assoc {A B C} (p : prog loc A) (f : A -> prog loc B) (k : B -> prog loc C) :
  steady (bind p (fun a => bind (f a) k)) -> steady (bind (bind p f) k).
Proof. intros Hp n Hn. by apply hwp_bind_assoc, Hp. Qed.

Lemma steady_load l : steady (load l).
Proof. intros n Hn m h gs i HI Hi _. exists (acc n). split; [by apply drain_guar_same|done]. Qed.

(** What is read of the two counters is below the marks. *)
Lemma steady_load_current {A} (f : Z -> prog loc A) :
  (forall c, 1 <= c < DRAIN_ENTRY_CLAIMING -> steady (f c)) -> steady (bind (load CurrentEpoch) f).
Proof.
  intros Hf n Hn m h gs i HI Hi _. exists (acc n). split; [by apply drain_guar_same|].
  apply Hf; [apply (inv_bounds _ _ _ HI)|done].
Qed.

Lemma steady_load_safe {A} (f : Z -> prog loc A) :
  (forall v, v < DRAIN_ENTRY_CLAIMING -> steady (f v)) -> steady (bind (load SafeToReclaim) f).
Proof.
  intros Hf n Hn m h gs i HI Hi _. exists (acc n). split; [by apply drain_guar_same|].
  apply Hf; [apply (inv_bounds _ _ _ HI)|done].
Qed.

Lemma steady_store l v : neutral l = true -> steady (store l v).
Proof. intros Hl n Hn m h gs i HI Hi _. exists (acc n). split; [by apply guar_neutral|done]. Qed.

Lemma steady_cas w l old new {A} (k : bool -> Z -> prog loc A) :
  neutral l = true -> (forall ok v, steady (k ok v)) -> steady (Cas w l old new k).
Proof.
  intros Hl Hk n Hn m h gs i HI Hi. split; intros Hm _; exists (acc n).
  - split; [by apply guar_neutral|by apply Hk].
  - split; [by apply drain_guar_same|by apply Hk].
Qed.

Lemma steady_fetch_max v : v < DRAIN_ENTRY_CLAIMING -> steady (fetch_max SafeToReclaim v).
Proof.
  intros Hv n Hn m h gs i HI Hi _. exists (acc n). destruct (inv_bounds _ _ _ HI). split; [|done].
  apply guar_keep; intros; rewrite ?upd_eq, ?upd_ne by done; try done. lia.
Qed.

Lemma fetch_add_ok n :
  0 <= n ->
  hwp (fetch_add CurrentEpoch 1) (acc n) (fun c g' => g' = acc n /\ 1 <= c < DRAIN_ENTRY_CLAIMING - 1).
Proof.
  intros Hn m h gs i HI Hi Ho. exists (acc n). destruct (inv_bounds _ _ _ HI) as [Hc Hs].
  unfold not_exhausted in Ho. rewrite upd_eq in Ho.
  assert (wadd 64 (m CurrentEpoch) 1 = m CurrentEpoch + 1) as Hw
    by (apply wrap_id; unfold fits; unfold DRAIN_ENTRY_CLAIMING, u64_max in *; lia).
  rewrite Hw in *. split; [|cbn; split; [done|lia]].
  apply guar_keep; intros; rewrite ?upd_eq, ?upd_ne by done; try done. lia.
Qed.

(** Taking the action out of an entry that the thread owns. *)
Lemma take_action_ok j w d n :
  hwp (take_action j) {| owns := Some (j, w); debt := d; hold := n |}
    (fun w' g' => w' = w /\ 0 <= w /\ g' = {| owns := Some (j, 0); debt := d; hold := n + is_action w |}).
Proof.
  intros m h gs i HI Hi _.
  destruct (inv_content _ _ _ HI _ j w (proj1 (list_elem_of_In _ _) (list_elem_of_lookup_2 _ _ _ Hi)) eq_refl)
    as [Hj Hw].
  pose proof (inv_words _ _ _ HI j) as Hpos. rewrite Hw in Hpos.
  eexists. split; [by apply drain_guar_same|]. intros m2 h2 gs2 i2 HI2 Hi2 _.
  pose proof (hold_nonneg _ _ _ _ _ HI2 Hi2) as Hn. simpl in Hn. pose proof (is_action_nonneg w).
  eexists. split; [apply (guar_action _ _ _ _ _ _ _ _ 0 HI2 Hi2); [done|rewrite is_action_0; lia]|]. cbn [hwp].
  rewrite Hw. split; [done|]. split; [done|]. f_equal. rewrite is_action_0. lia.
Qed.

Lemma call_ok w n : 0 <= w -> 0 <= n -> hwp (call w) (acc (n + is_action w)) (fun _ g' => g' = acc n).
Proof.
  intros Hw Hn. unfold call. destruct (Z.eqb_spec w 0) as [->|Hne].
  - cbn. f_equal. rewrite is_action_0. lia.
  - intros m h gs i HI Hi _. exists (acc n). split; [|done]. apply guar_call; [done| |done].
    rewrite Hi. unfold acc. do 3 f_equal. unfold action_word. f_equal. lia.
Qed.

Lemma claim_ok j tr n :
  (j < DRAIN_LIST_SIZE)%nat -> tr <> DRAIN_ENTRY_CLAIMING ->
  hwp (cas_claim_slot j tr) (acc n) (fun ok g' =>
    if ok : bool
    then exists w, g' = {| owns := Some (j, w); debt := if tr =? DRAIN_ENTRY_FREE then -1 else 0; hold := n |}
    else g' = acc n).
Proof.
  intros Hj Htr m h gs i HI Hi. split; intros Hm _.
  - eexists. split; [by apply (guar_claim _ _ _ _ _ tr n)|]. by eexists.
  - exists (acc n). split; [by apply drain_guar_same|done].
Qed.

Lemma count_step x o d n :
  hwp (Rmw DrainCount (fun v => wrap 32 (v + x)) Ret) {| owns := o; debt := d; hold := n |}
    (fun _ g' => g' = {| owns := o; debt := d + x; hold := n |}).
Proof. intros m h gs i HI Hi _. eexists. split; [by apply guar_count|done]. Qed.

Lemma publish_step j w n v d :
  v <> DRAIN_ENTRY_CLAIMING -> (v = DRAIN_ENTRY_FREE -> w = 0) ->
  d = (if v =? DRAIN_ENTRY_FREE then -1 else 0) ->
  hwp (store (DrainEpoch j) v) {| owns := Some (j, w); debt := d; hold := n |} (fun _ g' => g' = acc n).
Proof. intros Hv Hf Hd m h gs i HI Hi _. exists (acc n). split; [by eapply guar_publish|done]. Qed.

(** A claimed entry is emptied, freed and its action called. *)
Lemma steady_drain_slots k j v :
  (j + k <= DRAIN_LIST_SIZE)%nat -> v < DRAIN_ENTRY_CLAIMING -> steady (drain_slots k j v).
Proof.
  intros Hk Hv. revert j Hk. induction k as [|k IH]; intros j Hk n Hn; cbn [drain_slots]; [done|].
  unfold try_claim_ready_slot. apply hwp_bind_assoc.
  eapply hwp_seq; [by apply steady_load|]. intros tr ? ->.
  destruct (Z.leb_spec tr v); [|cbn [bind]; apply IH; lia].
  eapply hwp_seq; [apply claim_ok; lia|]. intros [|] g Hg; [|subst; apply IH; lia].
  destruct Hg as [w ->].
  assert ((tr =? DRAIN_ENTRY_FREE) = false) as -> by (unfold DRAIN_ENTRY_FREE, DRAIN_ENTRY_CLAIMING in *; lia).
  eapply hwp_seq; [apply take_action_ok|]. intros w' g (-> & Hw & ->).
  eapply hwp_seq; [apply (count_step (-1))|]. intros _ g ->.
  eapply hwp_seq; [by apply publish_step|]. intros _ g ->.
  eapply hwp_seq; [by apply call_ok|]. intros _ g ->.
  eapply hwp_seq; [by apply steady_load|]. intros x g ->.
  destruct (x =? 0); [done|]. apply IH; lia.
Qed.

(** A registered action leaves the hands of its thread. *)
Lemma register_slots_ok k j prior b n :
  (j + k <= DRAIN_LIST_SIZE)%nat -> prior < DRAIN_ENTRY_CLAIMING -> 0 <= n ->
  hwp (register_slots k j prior b) (acc (n + is_action (action_word b)))
    (fun ok g' => g' = acc (if ok : bool then n else n + is_action (action_word b))).
Proof.
  intros Hk Hp Hn. pose proof (is_action_nonneg (action_word b)) as Hb.
  revert j Hk. induction k as [|k IH]; intros j Hk; cbn [register_slots]; [done|].
  eapply hwp_seq; [apply steady_load; lia|]. intros tr ? ->.
  eapply hwp_seq with (Q := fun ready g' => g' = acc (n + is_action (action_word b)) /\
    (ready = true -> tr <> DRAIN_ENTRY_CLAIMING)).
  { destruct (tr =? DRAIN_ENTRY_FREE) eqn:Hf.
    - apply Z.eqb_eq in Hf. cbn. split; [done|]. intros _. by rewrite Hf.
    - intros m h gs i HI Hi _. eexists. split; [by apply drain_guar_same|]. split; [done|].
      destruct (inv_bounds _ _ _ HI). intros Hle%Z.leb_le. lia. }
  intros ready g [-> Hready]. destruct ready; [|cbn [bind]; apply IH; lia].
  eapply hwp_seq; [apply claim_ok; [lia|auto]|]. intros [|] g Hg; [|subst; apply IH; lia].
  destruct Hg as [w ->].
  eapply hwp_seq; [apply take_action_ok|]. intros w' g (-> & Hw & ->).
  eapply hwp_seq with (Q := fun _ g' => g' = {| owns := Some (j, action_word b);
    debt := if tr =? DRAIN_ENTRY_FREE then -1 else 0; hold := n + is_action w |}).
  { pose proof (is_action_nonneg w). intros m h gs i HI Hi _.
    eexists. split; [apply (guar_action _ _ _ _ _ _ _ _ (action_word b) HI Hi); [unfold action_word; lia|]|].
    - rewrite is_action_0. lia.
    - cbn [hwp]. f_equal. rewrite is_action_0. lia. }
  intros _ g ->.
  eapply hwp_seq with (Q := fun _ g' => g' = {| owns := Some (j, action_word b); debt := 0; hold := n + is_action w |}).
  { destruct (tr =? DRAIN_ENTRY_FREE); [|done].
    eapply hwp_seq; [apply (count_step 1)|]. intros _ g ->. done. }
  intros _ g ->.
  assert (prior <> DRAIN_ENTRY_FREE) as Hpf by (unfold DRAIN_ENTRY_FREE, DRAIN_ENTRY_CLAIMING in *; lia).
  eapply hwp_seq; [apply publish_step; [lia|done|by destruct (Z.eqb_spec prior DRAIN_ENTRY_FREE)]|]. intros _ g ->.
  eapply hwp_seq; [by apply call_ok|]. by intros _ g ->.
Qed.

(** ** The operations *)

Lemma oldest_loop_le k i o n :
  0 <= n -> hwp (oldest_loop k i o) (acc n) (fun v g' => g' = acc n /\ v <= o).
Proof.
  intros Hn. revert i o. induction k as [|k IH]; intros i o; cbn [oldest_loop]; [done|].
  eapply hwp_seq; [by apply steady_load|]. intros x g ->.
  destruct (negb (x =? 0) && (x <? o)) eqn:Hx; [|apply IH].
  apply andb_true_iff in Hx as [_ Hx%Z.ltb_lt]. destruct (x =? 1); [cbn; split; [done|lia]|].
  eapply hwp_mono; [apply IH|]. intros v g' [-> Hv]. split; [done|lia].
Qed.

Lemma steady_compute_with c {A} (f : Z -> prog loc A) :
  1 <= c < DRAIN_ENTRY_CLAIMING -> (forall v, v < DRAIN_ENTRY_CLAIMING -> steady (f v)) ->
  steady (bind (compute_safe_to_reclaim_epoch_with e c) f).
Proof.
  intros Hc Hf n Hn. unfold compute_safe_to_reclaim_epoch_with. apply hwp_bind_assoc.
  eapply hwp_seq; [by apply oldest_loop_le|]. intros o g [-> Ho]. apply hwp_bind_assoc.
  assert (sat_sub o 1 < DRAIN_ENTRY_CLAIMING) as Hs by (unfold sat_sub; lia).
  revert n Hn. apply steady_load_safe. intros prev Hprev.
  destruct (prev <? sat_sub o 1); [|by apply Hf].
  intros n Hn m h gs i HI Hi Ho'.
  destruct (steady_fetch_max (sat_sub o 1) Hs n Hn m h gs i HI Hi Ho') as (g' & Hg' & Heq). cbn in Heq. subst g'.
  exists (acc n). split; [done|]. apply Hf; [|done]. destruct (inv_bounds _ _ _ HI). lia.
Qed.

Lemma steady_compute {A} (f : Z -> prog loc A) :
  (forall v, v < DRAIN_ENTRY_CLAIMING -> steady (f v)) -> steady (bind (compute_safe_to_reclaim_epoch e) f).
Proof.
  intros Hf. apply steady_assoc, steady_load_current. intros c Hc. by apply steady_compute_with.
Qed.

Lemma steady_drain : steady (drain e).
Proof. apply steady_compute. intros v Hv. by apply steady_drain_slots. Qed.

Lemma bump_ok n :
  0 <= n ->
  hwp (bump_current_epoch e) (acc n) (fun c g' => g' = acc n /\ 2 <= c < DRAIN_ENTRY_CLAIMING).
Proof.
  intros Hn. unfold bump_current_epoch. eapply hwp_seq; [by apply fetch_add_ok|]. intros c g [-> Hc].
  assert (wadd 64 c 1 = c + 1) as ->
    by (apply wrap_id; unfold fits; unfold DRAIN_ENTRY_CLAIMING, u64_max in *; lia).
  eapply hwp_seq; [by apply (steady_bind _ _ (steady_load _) (fun _ => steady_ret _))|]. intros p g ->.
  eapply hwp_seq with (Q := fun _ g' => g' = acc n); [|intros _ g ->; cbn; split; [done|lia]].
  revert n Hn. change (steady (if p then drain e
    else (let* _ := compute_safe_to_reclaim_epoch_with e (c + 1) in Ret tt))).
  destruct p; [apply steady_drain|]. apply steady_compute_with; [lia|]. intros. apply steady_ret.
Qed.

Lemma steady_bump {A} (f : Z -> prog loc A) :
  (forall c, 2 <= c < DRAIN_ENTRY_CLAIMING -> steady (f c)) -> steady (bind (bump_current_epoch e) f).
Proof. intros Hf n Hn. eapply hwp_seq; [by apply bump_ok|]. intros c g [-> Hc]. by apply Hf. Qed.

#[local] Instance steady_discipline : Discipline e (fun A _ p => steady p).
Proof.
  split; intros.
  - apply steady_ret.
  - by apply steady_bind.
  - apply steady_load.
  - apply steady_load_current. intros c Hc. apply H. lia.
  - apply steady_store. by destruct l.
  - apply steady_cas; [by destruct l|done].
  - by apply steady_store.
  - by apply steady_cas.
  - apply steady_drain.
  - apply steady_bump. auto.
  - apply steady_bind; [apply steady_load|]. intros s. destruct (target <=? s); [apply steady_ret|].
    apply steady_compute. intros. apply steady_ret.
Qed.

Lemma register_loop_ok fuel t prior b r n :
  prior < DRAIN_ENTRY_CLAIMING -> 0 <= n ->
  hwp (register_loop fuel e t prior b r) (acc (n + is_action (action_word b)))
    (fun ok g' => g' = acc (if ok : bool then n else n + is_action (action_word b))).
Proof.
  intros Hp Hn. pose proof (is_action_nonneg (action_word b)) as Hb.
  induction fuel as [|fuel IH]; cbn [register_loop]; [done|].
  eapply hwp_seq; [by apply register_slots_ok|]. intros [|] g ->; [done|].
  eapply hwp_seq with (Q := fun _ g' => g' = acc (n + is_action (action_word b))).
  { destruct r as [idx|]; [|done].
    apply (ops_refresh_relaxed e (fun A _ p => steady p) 0); lia. }
  intros _ g ->. eapply hwp_seq; [apply (ops_help_drain e (fun A _ p => steady p) 0); lia|].
  intros _ g ->. exact IH.
Qed.

Lemma bump_action_ok fuel t b r n :
  0 <= n ->
  hwp (bump_current_epoch_action_impl fuel e t b r) (acc (n + is_action (action_word b)))
    (fun ok g' => ok = true -> g' = acc n).
Proof.
  intros Hn. pose proof (is_action_nonneg (action_word b)) as Hb.
  eapply hwp_seq; [apply bump_ok; lia|]. intros c g [-> Hc].
  assert (wsub 64 c 1 = c - 1) as ->
    by (apply wrap_id; unfold fits; unfold DRAIN_ENTRY_CLAIMING, u64_max in *; lia).
  eapply hwp_seq; [apply register_loop_ok; lia|]. intros [|] g ->; [|done].
  eapply hwp_seq; [by apply (ops_help_drain e (fun A _ p => steady p) 0)|]. by intros _ g ->.
Qed.

(** The registrations of [a] that an operation asks for. *)
Definition asks (o : op) : Z :=
  match o with BumpAction b | BumpActionRelaxed _ b => is_action (action_word b) | _ => 0 end.

Lemma asks_nonneg o : 0 <= asks o.
Proof. destruct o; try done; apply is_action_nonneg. Qed.

Lemma exec_ok al fuel o t n :
  0 <= n -> hwp (exec al fuel e o t) (acc (n + asks o)) (fun r g' => r <> None -> g' = acc n).
Proof.
  intros Hn. destruct (registers o) eqn:Ho.
  - destruct o; try discriminate Ho; cbn [exec asks];
      (eapply hwp_seq; [by apply bump_action_ok|]; intros [|] g Hg; cbn; [auto|done]).
  - replace (asks o) with 0 by (by destruct o). rewrite Z.add_0_r.
    eapply hwp_mono; [by apply (ops_exec e (fun A _ p => steady p) al fuel 0)|]. auto.
Qed.

Lemma client_ok al fuel os t :
  hwp (client al fuel e os t) (acc (zsum asks os)) (fun r g' => r <> None -> g' = acc 0).
Proof.
  revert t. induction os as [|o os IH]; intros t; cbn [client]; [done|].
  change (zsum asks (o :: os)) with (asks o + zsum asks os). rewrite Z.add_comm.
  eapply hwp_seq; [apply exec_ok, zsum_nonneg, asks_nonneg|].
  intros [t'|] g Hg; [|cbn; congruence]. rewrite Hg by done. apply IH.
Qed.

End Accounts.

(** The registrations of [a] that the threads ask for. *)
Definition registrations (a : nat) (cs : list (list op * ThreadLocal)) : Z :=
  zsum (fun c => zsum (asks a) c.1) cs.

(** The drain entries in use that hold [a]. *)
Definition pending (a : nat) (m : mem loc) : Z :=
  zsum (fun j => if m (DrainEpoch j) =? DRAIN_ENTRY_FREE then 0 else is_action a (m (DrainAction j)))
    drain_slots_list.

Definition start (al : Z -> bool) (fuel : nat) (e : LightEpoch) (cs : list (list op * ThreadLocal))
    : pool (option ThreadLocal) :=
  (new_cells, (fun c => client al fuel e c.1 c.2) <$> cs).

Lemma start_accounts al fuel e cs a :
  hpool_ok no_history not_exhausted any_step (Inv a (registrations a cs))
    (fun r g => r <> None -> g = acc 0) (start al fuel e cs, tt).
Proof.
  exists ((fun c => acc (zsum (asks a) c.1)) <$> cs). split.
  - split.
    + done.
    + assert (cells a new_cells = 0) as Hc.
      { apply zsum_zero. intros j _. apply is_action_0. }
      cbn [start fst snd]. rewrite Hc. cbn [new_cells]. unfold registrations. apply (zsum_map (fun c : list op * ThreadLocal => acc (zsum (asks a) c.1)) hold).
    + change (used new_cells) with 0.
      rewrite zsum_zero; [done|]. intros g Hg. apply list_elem_of_In, list_elem_of_fmap in Hg as (c & -> & _). done.
    + intros j. change (claimed new_cells j) with 0. apply zsum_zero.
      intros g Hg. apply list_elem_of_In, list_elem_of_fmap in Hg as (c & -> & _). done.
    + intros g j w Hg. apply list_elem_of_In, list_elem_of_fmap in Hg as (c & -> & _). done.
    + done.
    + done.
    + apply Forall_fmap, Forall_forall. intros c _. apply zsum_nonneg, asks_nonneg.
  - apply Forall2_fmap. cbn. apply Forall_Forall2_diag, Forall_forall. intros c _. apply client_ok.
Qed.

(** What the accounts say about the memory. *)
Lemma accounts_pending a total m h gs : Inv a total m h gs -> pending a m = cells a m.
Proof.
  intros HI. apply zsum_ext. intros j Hj%in_seq.
  destruct (Z.eqb_spec (m (DrainEpoch j)) DRAIN_ENTRY_FREE) as [Hf|]; [|done].
  rewrite (inv_free _ _ _ _ _ HI j) by (done || unfold DRAIN_LIST_SIZE in *; lia). by rewrite is_action_0.
Qed.

Lemma used_range m : 0 <= used m <= 16.
Proof.
  assert (forall j, 0 <= in_use m j <= 1) as Hb by (intros j; unfold in_use; destruct (_ =? _); lia).
  split; [apply zsum_nonneg; intros; apply Hb|].
  etransitivity; [apply zsum_le_length; intros; apply Hb|]. done.
Qed.

(** C7: Deferred actions run at most once and are never lost: in every interleaving
    of any threads, an action has run at most as often as its registration was asked
    for; and when all threads have returned from their operations, every registered
    action either has run or waits in a drain entry, and the counter of pending
    actions is the number of drain entries in use. *)
Theorem actions_run_once al fuel e cs (c : pool (option ThreadLocal)) a :
  rtc (ok_step not_exhausted) (start al fuel e cs) c ->
  c.1 (Ran a) <= registrations a cs /\
  (Forall (fun p => exists t, p = Ret (Some t)) c.2 ->
     c.1 (Ran a) + pending a c.1 = registrations a cs /\ c.1 DrainCount = used c.1).
Proof.
  intros Hr.
  destruct (ok_steps_history no_history not_exhausted _ _ _ tt (fun _ _ H => H) Hr) as (h & Hh & _).
  pose proof (hpool_safe _ _ _ _ _ _ _ Hh (start_accounts al fuel e cs a)) as (gs & HI & Hall).
  cbn [fst snd] in *. pose proof (inv_actions _ _ _ _ _ HI) as Hsum.
  assert (0 <= cells a c.1) by (apply zsum_nonneg; intros; apply is_action_nonneg).
  pose proof (zsum_Forall_nonneg hold gs (inv_hold _ _ _ _ _ HI)) as Hhold.
  split; [lia|]. intros Hret.
  assert (forall g, In g gs -> g = acc 0) as Hdone.
  { intros g Hg. apply list_elem_of_In, list_elem_of_lookup in Hg as (i & Hi).
    destruct (Forall2_lookup_r _ _ _ _ _ Hall Hi) as (p & Hp & Hwp).
    destruct (Forall_lookup_1 _ _ _ _ Hret Hp) as [t ->]. by apply Hwp. }
  rewrite (zsum_zero hold) in Hsum by (intros g Hg; by rewrite (Hdone g Hg)).
  split; [rewrite (accounts_pending _ _ _ _ _ HI); lia|].
  rewrite (inv_count _ _ _ _ _ HI), (zsum_zero debt) by (intros g Hg; by rewrite (Hdone g Hg)).
  pose proof (used_range c.1). rewrite Z.add_0_r. apply wrap_id. unfold fits. lia.
Qed.

(** Two readers, and two actions registered and drained between them. *)
Definition example_clients : list (list op * ThreadLocal) :=
  [([Resume; Suspend], new_thread 1); ([BumpAction 3; BumpAction 4], new_thread 2)].
Definition example_end : pool (option ThreadLocal) :=
  run_schedule (replicate 9 0%nat ++ replicate 200 1%nat ++ replicate 100 0%nat)
    (start (fun _ => true) 3 EpochSafe.example_epoch example_clients).

Definition returnedb (p : prog loc (option ThreadLocal)) : bool :=
  match p with Ret (Some _) => true | _ => false end.

Lemma returned_all ps : forallb returnedb ps = true -> Forall (fun p => exists t, p = Ret (Some t)) ps.
Proof.
  intros Hb. apply Forall_forall. intros p Hp%list_elem_of_In. rewrite forallb_forall in Hb.
  specialize (Hb p Hp). destruct p as [[t|]| | | |]; try done. by exists t.
Qed.

Lemma actions_run_once_witness :
  example_end.1 (Ran 3) + pending 3 example_end.1 = 1 /\ example_end.1 DrainCount = used example_end.1.
Proof.
  refine (proj2 (actions_run_once (fun _ => true) 3 EpochSafe.example_epoch example_clients example_end 3 _) _).
  - eapply rtc_subrel; [exact EpochSafe.example_ok_step|]. apply run_schedule_steps. vm_compute. reflexivity.
  - apply returned_all. vm_compute. reflexivity.
Defined.

End EpochDrain.
