(* ===== verification/EpochLive.v ===== *)
(** * Deferred actions do run ([wedb/wepoch/src/epoch.rs])

    The counterpart of [EpochSafe]: once no entry is protected, draining executes
    every pending action; in particular the last thread to leave does so before
    [suspend] returns. *)

From stdpp Require Import base list numbers option tactics relations.
From Stdlib Require Import ZArith Lia Bool.
From S2P Require Import Prelude Atomic Epoch EpochOps History EpochSafe EpochDrain.

Module EpochLive.
Import EpochEntry Tls LightEpoch EpochDrain.
Local Open Scope prog_scope.

(** The drain list of a quiescent table: entries in use hold an action and a
    trigger that has been reached by [v]. *)
Record drainable (m : mem loc) (v : Z) : Prop := {
  dr_count : m DrainCount = used m;
  dr_trigger : forall j, (j < DRAIN_LIST_SIZE)%nat ->
    m (DrainEpoch j) = DRAIN_ENTRY_FREE \/ m (DrainEpoch j) <= v;
  dr_free : forall j, (j < DRAIN_LIST_SIZE)%nat -> m (DrainEpoch j) = DRAIN_ENTRY_FREE -> m (DrainAction j) = 0;
  dr_words : forall j, 0 <= m (DrainAction j)
}.

(** All entries free, every pending action run once more, the rest untouched. *)
Record drained (m m' : mem loc) : Prop := {
  dd_free : forall j, (j < DRAIN_LIST_SIZE)%nat -> m' (DrainEpoch j) = DRAIN_ENTRY_FREE;
  dd_count : m' DrainCount = 0;
  dd_ran : forall a, m' (Ran a) = m (Ran a) + pending a m
}.

Lemma pending_cells m v a : drainable m v -> pending a m = cells a m.
Proof.
  intros Hd. apply zsum_ext. intros j Hj%in_seq.
  destruct (Z.eqb_spec (m (DrainEpoch j)) DRAIN_ENTRY_FREE) as [Hf|]; [|done].
  rewrite (dr_free _ _ Hd j) by (done || unfold DRAIN_LIST_SIZE in *; lia). by rewrite is_action_0.
Qed.

Lemma zsum_nonneg_zero {A} (f : A -> Z) l a :
  (forall x, 0 <= f x) -> zsum f l = 0 -> In a l -> f a = 0.
Proof.
  intros Hf Hz Ha. apply list_elem_of_In, list_elem_of_lookup in Ha as (i & Hi).
  pose proof (zsum_lookup f l i a Hf Hi). specialize (Hf a). lia.
Qed.

Lemma in_use_nonneg m j : 0 <= in_use m j.
Proof. unfold in_use. destruct (_ =? _); lia. Qed.

Lemma used_zero_free m j : used m = 0 -> (j < DRAIN_LIST_SIZE)%nat -> m (DrainEpoch j) = DRAIN_ENTRY_FREE.
Proof.
  intros Hu Hj. pose proof (zsum_nonneg_zero (in_use m) _ j (in_use_nonneg m) Hu (slot_in j Hj)) as H.
  unfold in_use in H. destruct (Z.eqb_spec (m (DrainEpoch j)) DRAIN_ENTRY_FREE); [done|lia].
Qed.

(** Nothing left to drain. *)
Lemma drained_refl m v : drainable m v -> used m = 0 -> drained m m.
Proof.
  intros Hd Hu. split.
  - intros j Hj. by apply used_zero_free.
  - by rewrite (dr_count _ _ Hd).
  - intros a. enough (pending a m = 0) by lia. apply zsum_zero. intros j Hj%in_seq.
    rewrite used_zero_free; [by rewrite Z.eqb_refl|done|unfold DRAIN_LIST_SIZE in *; lia].
Qed.

(** The memory after the entry [j] has been drained. *)
Definition drain_entry (m : mem loc) (j : nat) : mem loc :=
  let m1 := upd m (DrainEpoch j) DRAIN_ENTRY_CLAIMING in
  let m2 := upd m1 (DrainAction j) 0 in
  let m3 := upd m2 DrainCount (wsub 32 (m DrainCount) 1) in
  let m4 := upd m3 (DrainEpoch j) DRAIN_ENTRY_FREE in
  (run (call (m (DrainAction j))) m4).2.

Lemma call_cells w m l : (forall a, l <> Ran a) -> (run (call w) m).2 l = m l.
Proof. intros Hl. unfold call. destruct (w =? 0); cbn; [done|]. by rewrite upd_ne. Qed.

Lemma drain_entry_epoch m j k :
  drain_entry m j (DrainEpoch k) = if decide (j = k) then DRAIN_ENTRY_FREE else m (DrainEpoch k).
Proof.
  unfold drain_entry. rewrite call_cells by done. case_decide as Hk; [subst; by rewrite upd_eq|].
  by rewrite !upd_ne by congruence.
Qed.

Lemma drain_entry_action m j k :
  drain_entry m j (DrainAction k) = if decide (j = k) then 0 else m (DrainAction k).
Proof.
  unfold drain_entry. rewrite call_cells by done. rewrite !(upd_ne _ (DrainEpoch j)), upd_ne by done.
  case_decide as Hk; [subst; by rewrite upd_eq|]. by rewrite !upd_ne by congruence.
Qed.

Lemma drain_entry_count m j : drain_entry m j DrainCount = wsub 32 (m DrainCount) 1.
Proof. unfold drain_entry. rewrite call_cells by done. rewrite upd_ne by done. apply upd_eq. Qed.

Lemma drain_entry_ran m j a :
  0 <= m (DrainAction j) ->
  drain_entry m j (Ran a) = m (Ran a) + is_action a (m (DrainAction j)).
Proof.
  intros Hw. unfold drain_entry, call. destruct (Z.eqb_spec (m (DrainAction j)) 0) as [H0|H0]; cbn.
  - rewrite !upd_ne by done. rewrite H0, is_action_0. lia.
  - unfold is_action, action_word. destruct (Z.eqb_spec (m (DrainAction j)) (Z.of_nat a + 1)) as [Hw'|Hw'].
    + replace (Z.to_nat (m (DrainAction j) - 1)) with a by lia. rewrite upd_eq, !upd_ne by done. done.
    + rewrite upd_ne by (intros [= Ha]; lia). rewrite !upd_ne by done. lia.
Qed.

Lemma drain_entry_used m j :
  (j < DRAIN_LIST_SIZE)%nat -> m (DrainEpoch j) <> DRAIN_ENTRY_FREE -> used (drain_entry m j) = used m - 1.
Proof.
  intros Hj Hne. unfold used. rewrite (zsum_slots (in_use m) _ j Hj).
  - unfold in_use. rewrite drain_entry_epoch, decide_True by done. rewrite Z.eqb_refl.
    destruct (Z.eqb_spec (m (DrainEpoch j)) DRAIN_ENTRY_FREE); [done|lia].
  - intros k Hk. unfold in_use. by rewrite drain_entry_epoch, decide_False by congruence.
Qed.

Lemma drain_entry_cells m j a :
  (j < DRAIN_LIST_SIZE)%nat -> cells a (drain_entry m j) = cells a m - is_action a (m (DrainAction j)).
Proof.
  intros Hj. unfold cells. rewrite (zsum_slots (fun j => is_action a (m (DrainAction j))) _ j Hj).
  - rewrite drain_entry_action, decide_True, is_action_0 by done. lia.
  - intros k Hk. by rewrite drain_entry_action, decide_False by congruence.
Qed.

Lemma drain_entry_drainable m v j :
  drainable m v -> (j < DRAIN_LIST_SIZE)%nat -> m (DrainEpoch j) <> DRAIN_ENTRY_FREE ->
  drainable (drain_entry m j) v.
Proof.
  intros Hd Hj Hne. split.
  - rewrite drain_entry_count, drain_entry_used by done. rewrite (dr_count _ _ Hd).
    pose proof (used_range (drain_entry m j)) as Hr. rewrite drain_entry_used in Hr by done.
    apply wrap_id. unfold fits. lia.
  - intros k Hk. rewrite drain_entry_epoch. case_decide; [by left|by apply (dr_trigger _ _ Hd)].
  - intros k Hk. rewrite drain_entry_epoch, drain_entry_action. case_decide; [done|by apply (dr_free _ _ Hd)].
  - intros k. rewrite drain_entry_action. case_decide; [done|apply (dr_words _ _ Hd)].
Qed.

Lemma run_drain_slot m n j v :
  (j < DRAIN_LIST_SIZE)%nat -> m (DrainEpoch j) <= v ->
  run (drain_slots (S n) j v) m =
  if drain_entry m j DrainCount =? 0 then (tt, drain_entry m j)
  else run (drain_slots n (S j) v) (drain_entry m j).
Proof.
  intros Hj Hle. cbn [drain_slots]. unfold try_claim_ready_slot, cas_claim_slot.
  cbn [bind run load]. destruct (Z.leb_spec (m (DrainEpoch j)) v); [|lia].
  cbn [bind run compare_exchange]. rewrite Z.eqb_refl. cbn [bind run take_action load store fetch_sub32].
  rewrite run_bind. rewrite !upd_ne by done. unfold drain_entry. cbv zeta.
  destruct (run (call (m (DrainAction j))) _) as [[] m']. cbn [bind run load snd].
  by destruct (m' DrainCount =? 0).
Qed.

Lemma run_skip_slot m n j v :
  v < m (DrainEpoch j) -> run (drain_slots (S n) j v) m = run (drain_slots n (S j) v) m.
Proof.
  intros Hlt. cbn [drain_slots]. unfold try_claim_ready_slot. cbn [bind run load].
  by destruct (Z.leb_spec (m (DrainEpoch j)) v); [lia|].
Qed.

Lemma drained_step m v j m' :
  drainable m v -> (j < DRAIN_LIST_SIZE)%nat -> m (DrainEpoch j) <> DRAIN_ENTRY_FREE ->
  drained (drain_entry m j) m' -> drained m m'.
Proof.
  intros Hd Hj Hne [H1 H2 H3]. split; [done|done|]. intros a.
  rewrite H3, drain_entry_ran by apply (dr_words _ _ Hd).
  rewrite (pending_cells _ v a (drain_entry_drainable m v j Hd Hj Hne)), (pending_cells _ v a Hd).
  rewrite drain_entry_cells by done. lia.
Qed.

(** One pass of [drain] empties the list. *)
Lemma drain_slots_drains n j v m :
  drainable m v -> v < DRAIN_ENTRY_FREE -> (j + n)%nat = DRAIN_LIST_SIZE ->
  (forall k, (k < j)%nat -> m (DrainEpoch k) = DRAIN_ENTRY_FREE) ->
  drained m (run (drain_slots n j v) m).2 /\
  (forall l, (forall k, l <> DrainEpoch k /\ l <> DrainAction k /\ l <> Ran k) -> l <> DrainCount ->
     (run (drain_slots n j v) m).2 l = m l).
Proof.
  intros Hd Hv. revert j m Hd. induction n as [|n IH]; intros j m Hd Hn Hlow.
  { split; [|done]. apply (drained_refl _ v Hd). apply zsum_zero. intros k Hk%in_seq. unfold in_use.
    rewrite Hlow by lia. by rewrite Z.eqb_refl. }
  assert (j < DRAIN_LIST_SIZE)%nat as Hj by lia.
  destruct (dr_trigger _ _ Hd j Hj) as [Hf|Hle].
  - rewrite run_skip_slot by lia. apply IH; [done|lia|]. intros k Hk.
    destruct (decide (k = j)) as [->|]; [done|apply Hlow; lia].
  - assert (m (DrainEpoch j) <> DRAIN_ENTRY_FREE) as Hne by lia.
    pose proof (drain_entry_drainable m v j Hd Hj Hne) as Hd'. rewrite run_drain_slot by done.
    assert (forall l, (forall k, l <> DrainEpoch k /\ l <> DrainAction k /\ l <> Ran k) -> l <> DrainCount ->
      drain_entry m j l = m l) as Hother.
    { intros l Hl Hc. unfold drain_entry. rewrite call_cells by (intros a; apply (Hl a)).
      destruct (Hl j) as (? & ? & _). by rewrite !upd_ne by congruence. }
    destruct (Z.eqb_spec (drain_entry m j DrainCount) 0) as [Hc|Hc].
    + split; [|done]. apply (drained_step _ v j _ Hd Hj Hne), (drained_refl _ v Hd').
      by rewrite <- (dr_count _ _ Hd').
    + destruct (IH (S j) _ Hd' ltac:(lia)) as [H1 H2].
      { intros k Hk. rewrite drain_entry_epoch. case_decide; [done|apply Hlow; lia]. }
      split; [by apply (drained_step _ v j _ Hd Hj Hne)|]. intros l Hl Hl'. rewrite H2 by done. auto.
Qed.

(** ** No entry protected *)

Definition unprotected (e : LightEpoch) (m : mem loc) : Prop :=
  forall i, (i < n_entries e)%nat -> m (EntryEpoch i) = 0.

Lemma run_oldest n i o m :
  (forall k, (i <= k < i + n)%nat -> m (EntryEpoch k) = 0) -> run (oldest_loop n i o) m = (o, m).
Proof.
  revert i. induction n as [|n IH]; intros i Hi; [done|]. cbn. rewrite Hi by lia. cbn.
  apply IH. intros k Hk. apply Hi. lia.
Qed.

(** The reclaimable epoch is then the one before the current. *)
Lemma run_compute e m :
  unprotected e m -> 1 <= m CurrentEpoch -> 0 <= m SafeToReclaim < m CurrentEpoch ->
  run (compute_safe_to_reclaim_epoch e) m =
  (m CurrentEpoch - 1, if m SafeToReclaim <? m CurrentEpoch - 1
                       then upd m SafeToReclaim (m CurrentEpoch - 1) else m).
Proof.
  intros Hu Hc Hs. unfold compute_safe_to_reclaim_epoch, compute_safe_to_reclaim_epoch_with.
  cbn [bind run load]. rewrite run_bind, run_oldest by (intros; apply Hu; lia). cbn [bind run load].
  replace (sat_sub (m CurrentEpoch) 1) with (m CurrentEpoch - 1) by (unfold sat_sub; lia).
  destruct (Z.ltb_spec (m SafeToReclaim) (m CurrentEpoch - 1)); cbn; [|f_equal; lia].
  rewrite !Z.max_r by lia. done.
Qed.

(** The pending actions were registered before the current epoch. *)
Record quiescent (m : mem loc) : Prop := {
  q_current : 1 <= m CurrentEpoch < DRAIN_ENTRY_CLAIMING;
  q_safe : 0 <= m SafeToReclaim < m CurrentEpoch;
  q_drain : drainable m (m CurrentEpoch - 1)
}.

Lemma run_drain e m :
  unprotected e m -> quiescent m ->
  let m' := (run (drain e) m).2 in
  run (drain e) m = (tt, m') /\ drained m m' /\ (forall i, m' (EntryEpoch i) = m (EntryEpoch i)).
Proof.
  intros Hu [Hc Hs Hd] m'. subst m'. split; [by destruct (run (drain e) m) as [[] m']|].
  unfold drain. rewrite run_bind, run_compute by (done || lia).
  set (m1 := if _ <? _ then _ else _).
  assert (forall l, l <> SafeToReclaim -> m1 l = m l) as Hm1
    by (intros l Hl; subst m1; destruct (_ <? _); [by rewrite upd_ne by congruence|done]).
  assert (drainable m1 (m CurrentEpoch - 1)) as Hd1.
  { destruct Hd as [H1 H2 H3 H4]. split.
    - rewrite Hm1, H1 by done. symmetry. apply used_ext. intros. by rewrite Hm1.
    - intros j Hj. rewrite Hm1 by done. auto.
    - intros j Hj. rewrite !Hm1 by done. auto.
    - intros j. rewrite Hm1 by done. auto. }
  destruct (drain_slots_drains DRAIN_LIST_SIZE 0 (m CurrentEpoch - 1) m1 Hd1) as [[F1 F2 F3] F4];
    [unfold DRAIN_ENTRY_FREE, DRAIN_ENTRY_CLAIMING in *; lia|done|lia|].
  split; [split; [done|done|]|].
  - intros a. rewrite F3, Hm1 by done. f_equal. apply zsum_ext. intros j _. by rewrite !Hm1.
  - intros i. rewrite F4 by done. by rewrite Hm1.
Qed.

Lemma run_any_protected n i m :
  (forall k, (i <= k < i + n)%nat -> m (EntryEpoch k) = 0) -> run (any_protected n i) m = (false, m).
Proof.
  revert i. induction n as [|n IH]; intros i Hi; [done|]. cbn. rewrite Hi by lia. cbn.
  apply IH. intros k Hk. apply Hi. lia.
Qed.

Lemma run_suspend_drain e m fuel :
  unprotected e m -> quiescent m -> (2 <= fuel)%nat ->
  let '(ok, m') := run (suspend_drain fuel e) m in
  ok = true /\ drained m m'.
Proof.
  intros Hu Hq Hf. destruct fuel as [|[|fuel]]; [lia|lia|]. pose proof (q_drain _ Hq) as Hd.
  cbn [suspend_drain]. cbn [bind run load]. destruct (Z.ltb_spec 0 (m DrainCount)) as [Hpos|Hz].
  - rewrite run_bind, run_any_protected by (intros; apply Hu; lia).
    rewrite run_bind. destruct (run_drain e m Hu Hq) as (Hr & Hdr & _).
    rewrite Hr. cbn [bind run load]. rewrite (dd_count _ _ Hdr). by split.
  - split; [done|]. apply (drained_refl _ _ Hd). pose proof (used_range m).
    rewrite (dr_count _ _ Hd) in Hz. lia.
Qed.

(** C8: The last thread to leave runs everything that is pending.  It runs alone:
    no entry is protected any more, the drain list is quiescent (no entry is being
    claimed or written), and no other thread takes steps meanwhile.  Then the drain
    after a release returns (two rounds are enough) with every drain entry free, no
    action pending, and every action that was pending executed exactly once more. *)
Theorem suspend_drains e m fuel :
  unprotected e m -> quiescent m -> (2 <= fuel)%nat ->
  let '(ok, m') := run (after_release fuel e) m in
  ok = true /\ drained m m'.
Proof.
  intros Hu Hq Hf. pose proof (q_drain _ Hq) as Hd. unfold after_release, has_pending_drain. cbn [bind run load].
  destruct (Z.ltb_spec 0 (m DrainCount)) as [Hpos|Hz]; [by apply run_suspend_drain|].
  split; [done|]. apply (drained_refl _ _ Hd). pose proof (used_range m). rewrite (dr_count _ _ Hd) in Hz. lia.
Qed.

(** One pending action with trigger 1. *)
Definition example_pending : mem loc :=
  upd (upd (upd (upd new_cells CurrentEpoch 2) (DrainEpoch 5) 1) (DrainAction 5) (action_word 9)) DrainCount 1.

Lemma suspend_drains_witness :
  let '(ok, m') := run (after_release 2 EpochSafe.example_epoch) example_pending in
  ok = true /\ drained example_pending m' /\ m' (Ran 9) = 1.
Proof.
  pose proof (suspend_drains EpochSafe.example_epoch example_pending 2) as H.
  destruct (run (after_release 2 EpochSafe.example_epoch) example_pending) as [ok m'] eqn:Hr.
  destruct H as [-> Hd].
  - intros i Hi. reflexivity.
  - split; [by vm_compute|by vm_compute|]. split.
    + reflexivity.
    + intros j Hj. destruct (decide (j = 5%nat)) as [->|Hj5]; [right; by vm_compute|].
      left. unfold example_pending. by rewrite !upd_ne by congruence.
    + intros j Hj. destruct (decide (j = 5%nat)) as [->|Hj5]; [by vm_compute|].
      intros _. unfold example_pending. by rewrite !upd_ne by congruence.
    + intros j. unfold example_pending. rewrite upd_ne by done.
      destruct (decide (j = 5%nat)) as [->|Hj5]; [rewrite upd_eq; by vm_compute|].
      by rewrite !upd_ne by congruence.
  - lia.
  - split; [done|]. split; [done|]. rewrite (dd_ran _ _ Hd). reflexivity.
Defined.

End EpochLive.
