(* ===== verification/Resp.v ===== *)
(** * The RESP wire protocol ([wedb/wresp/src])

    [Read]: length headers, bulk strings and replies ([read.rs]); [Frame]: whole
    requests ([frame.rs]); [Length]: the length prefix of serialised values
    ([length.rs]); [Writer]: the response writer for both protocol versions
    ([resp_memory_writer.rs], [ext.rs]); [ParseState]: the argument table of a
    session ([session_parse_state.rs], [argslice/arg_slice.rs]).  A reader that
    takes [&mut &[u8]] returns the slice it leaves; [inl false] is [Ok(false)],
    more input needed. *)

From stdpp Require Import base list numbers option tactics.
From Stdlib Require Import ZArith Lia Bool.
From S2P Require Import Prelude Bytes Num.

(** ASCII. *)
Module Ascii.
Definition TAB : Z := 9.
Definition LF : Z := 10.
Definition CR : Z := 13.
Definition SPACE : Z := 32.
Definition HASH : Z := 35.
Definition DOLLAR : Z := 36.
Definition PERCENT : Z := 37.
Definition STAR : Z := 42.
Definition PLUS : Z := 43.
Definition MINUS : Z := 45.
Definition COLON : Z := 58.
Definition EQUALS : Z := 61.
Definition UNDERSCORE : Z := 95.
Definition TILDE : Z := 126.
Definition CRLF : list Z := [CR; LF].
End Ascii.

(** Errors ([error.rs]); digits are kept as the bytes of their text. *)
Inductive RespError : Type :=
| IntegerOverflow (digits : list Z)
| UnexpectedToken (token : Z)
| InvalidStringLength (length : Z).

Module Read.
Import Ascii.

Definition MAX_ARGUMENT_LENGTH_BYTES : Z := 512 * 1024 * 1024.

Definition digit_of (b : Z) : Z := wsub 32 b 48.

(** The first nineteen digits cannot overflow. *)
Fixpoint read_short (n : nat) (head : list Z) (value i : Z) : Z * Z * list Z :=
  match n, head with
  | S n', b :: head' =>
      let next_digit := digit_of b in
      if 9 <? next_digit then (value, i, head)
      else read_short n' head' (wadd 64 (wmul 64 10 value) next_digit) (i + 1)
  | _, _ => (value, i, head)
  end.

(** The number of digits read is returned on overflow. *)
Fixpoint read_long (head : list Z) (value i : Z) : (Z * Z * list Z) + Z :=
  match head with
  | b :: head' =>
      let next_digit := digit_of b in
      if 9 <? next_digit then inl (value, i, head)
      else if ((value =? 1844674407370955161) && (5 <? next_digit)) || (1844674407370955161 <? value)
      then inr i
      else read_long head' (wadd 64 (wmul 64 10 value) next_digit) (i + 1)
  | [] => inl (value, i, head)
  end.

(** Value, number of digits and the rest of the input. *)
Definition try_read_u64 (ptr : list Z) : (Z * Z * list Z) + RespError :=
  let '(value, i, head) := read_short 19 ptr 0 0 in
  match read_long head value i with
  | inl r => inl r
  | inr i => inr (IntegerOverflow (slice 0 i ptr))
  end.

(** Outcome, [length] and [ptr] after the call. *)
Record header_result : Type := Header {
  outcome : bool + RespError;
  length : Z;
  ptr : list Z
}.

(** The part behind the sign. *)
Definition read_number (p digits_at : list Z) (negative : bool) : header_result :=
  match try_read_u64 digits_at with
  | inr e => Header (inr e) (-1) p
  | inl (value, digits_read, read_head) =>
      if digits_read =? 0 then Header (inr (UnexpectedToken (default 0 (head read_head)))) (-1) p
      else if (Num.i32_max <? value) && (negb negative || (Num.i32_max + 1 <? value))
      then Header (inr (IntegerOverflow (slice 0 digits_read digits_at))) (-1) p
      else
        let len := if negative then - value else value in
        match read_head with
        | a :: b :: rest =>
            if bytes_eqb [a; b] CRLF then Header (inl true) len rest
            else Header (inr (UnexpectedToken (if a =? CR then b else a))) len p
        | _ => Header (inl false) len p
        end
  end.

Definition try_read_signed_length_header (p : list Z) (expected_sigil : Z) : header_result :=
  match p with
  | sigil :: (sign :: _ :: _) as read_head =>
      let negative := sign =? MINUS in
      if (sigil =? UNDERSCORE) && bytes_eqb (take 2 read_head) CRLF
      then Header (inl true) (-1) (drop 2 read_head)
      else if negb (sigil =? expected_sigil) then Header (inr (UnexpectedToken sigil)) (-1) p
      else if negative then
        if zlen p <? 5 then Header (inl false) (-1) p
        else if bytes_eqb (take 4 read_head) ([MINUS; 49] ++ CRLF)
        then Header (inl true) (-1) (drop 4 read_head)
        else read_number p (drop 1 read_head) true
      else read_number p read_head false
  | _ => Header (inl false) (-1) p
  end.

Definition try_read_unsigned_length_header (p : list Z) (expected_sigil : Z) : header_result :=
  let r := try_read_signed_length_header p expected_sigil in
  match outcome r with
  | inl true => if length r <? 0 then Header (inr (InvalidStringLength (length r))) (length r) (ptr r) else r
  | _ => r
  end.

Definition try_read_unsigned_array_length (p : list Z) : header_result := try_read_unsigned_length_header p STAR.
Definition try_read_signed_array_length (p : list Z) : header_result := try_read_signed_length_header p STAR.
Definition try_read_signed_map_length (p : list Z) : header_result := try_read_signed_length_header p PERCENT.
Definition try_read_signed_set_length (p : list Z) : header_result := try_read_signed_length_header p TILDE.
Definition try_read_verbatim_string_length (p : list Z) : header_result := try_read_signed_length_header p EQUALS.

Definition exceeds_max_argument_length (len : Z) : bool := MAX_ARGUMENT_LENGTH_BYTES <? len.

(** Payload of [len] bytes and its terminator; the slice left on success. *)
Definition read_payload (p : list Z) (len : Z) : ((bool + RespError) * list Z * list Z) :=
  let skip_len := len + 2 in
  if zlen p <? skip_len then (inl false, [], p)
  else if negb (bytes_eqb (slice len skip_len p) CRLF)
  then (inr (UnexpectedToken (default 0 (p !! Z.to_nat len))), [], p)
  else (inl true, slice 0 len p, slice_from skip_len p).

(** Outcome, result and remaining input. *)
Definition try_slice_with_length_header (p : list Z) : (bool + RespError) * list Z * list Z :=
  let r := try_read_unsigned_length_header p DOLLAR in
  match outcome r with
  | inr e => (inr e, [], ptr r)
  | inl false => (inl false, [], ptr r)
  | inl true =>
      if exceeds_max_argument_length (length r) then (inl false, [], ptr r)
      else read_payload (ptr r) (length r)
  end.

(** [result] keeps its old value [old] unless it is set. *)
Definition try_read_ptr_with_signed_length_header (old : option (list Z)) (p : list Z)
    : (bool + RespError) * option (list Z) * list Z :=
  let r := try_read_signed_length_header p DOLLAR in
  match outcome r with
  | inr e => (inr e, old, ptr r)
  | inl false => (inl false, old, ptr r)
  | inl true =>
      if exceeds_max_argument_length (length r) then (inl false, old, ptr r)
      else if length r <? 0 then (inl true, None, ptr r)
      else match read_payload (ptr r) (length r) with
           | (inl true, payload, rest) => (inl true, Some payload, rest)
           | (o, _, rest) => (o, old, rest)
           end
  end.

(** The position of the first [CRLF]. *)
Fixpoint find_crlf (p : list Z) : option nat :=
  match p with
  | a :: ((b :: _) as p') => if bytes_eqb [a; b] CRLF then Some O else S <$> find_crlf p'
  | _ => None
  end.

Definition try_read_as_span (p : list Z) : bool * list Z * list Z :=
  match find_crlf p with
  | Some pos => (true, take pos p, drop (pos + 2) p)
  | None => (false, [], p)
  end.

Definition try_read_error_as_span (p : list Z) : bool * list Z * list Z :=
  if zlen p <? 2 then (false, [], p)
  else match p with
       | c :: rest => if negb (c =? MINUS) then (false, [], p) else try_read_as_span rest
       | [] => (false, [], p)
       end.

Inductive ReplyError : Type := ErrorReply (text : list Z) | Malformed.

Definition error_reply_of (reply : list Z) : ReplyError :=
  match try_read_error_as_span reply with
  | (true, span, _) => ErrorReply span
  | _ => Malformed
  end.

Definition parse_bulk_reply (reply : list Z) : option (list Z) + ReplyError :=
  match head reply with
  | Some c =>
      if c =? DOLLAR then
        match try_read_ptr_with_signed_length_header None reply with
        | (inl true, payload, _) => inl payload
        | _ => inr Malformed
        end
      else if c =? MINUS then inr (error_reply_of reply)
      else inr Malformed
  | None => inr Malformed
  end.

Definition parse_simple_reply (reply : list Z) : unit + ReplyError :=
  match head reply with
  | Some c => if c =? PLUS then inl tt else if c =? MINUS then inr (error_reply_of reply) else inr Malformed
  | None => inr Malformed
  end.

End Read.

Module Frame.
Import Ascii Read.

(** The loop over the arguments of a request. *)
Fixpoint parse_args (count : nat) (p : list Z) (args : list (list Z)) : option (list (list Z) * list Z) + RespError :=
  match count with
  | O => inl (Some (args, p))
  | S count' =>
      match try_read_ptr_with_signed_length_header None p with
      | (inr e, _, _) => inr e
      | (inl false, _, _) => inl None
      | (inl true, None, _) => inr (InvalidStringLength (-1))
      | (inl true, Some span, rest) => parse_args count' rest (args ++ [span])
      end
  end.

Definition is_blank (b : Z) : bool := (b =? SPACE) || (b =? TAB).

(** [split] at blanks. *)
Fixpoint split_blank (l : list Z) : list (list Z) :=
  match l with
  | [] => [[]]
  | b :: l' =>
      if is_blank b then [] :: split_blank l'
      else match split_blank l' with
           | w :: ws => (b :: w) :: ws
           | [] => [[b]]
           end
  end.

Definition strip_cr (line : list Z) : list Z :=
  match rev line with c :: r => if c =? CR then rev r else line | [] => line end.

Definition nonempty (s : list Z) : bool := match s with [] => false | _ => true end.

(** Bytes consumed and arguments. *)
Definition parse_resp_frame (buffer : list Z) : option (Z * list (list Z)) + RespError :=
  match buffer with
  | [] => inl None
  | b0 :: _ =>
      if b0 =? STAR then
        let r := try_read_unsigned_array_length buffer in
        match outcome r with
        | inr e => inr e
        | inl false => inl None
        | inl true =>
            match parse_args (Z.to_nat (length r)) (ptr r) [] with
            | inr e => inr e
            | inl None => inl None
            | inl (Some (args, rest)) => inl (Some (zlen buffer - zlen rest, args))
            end
        end
      else
        match list_find (fun b => b = LF) buffer with
        | None => inl None
        | Some (newline, _) =>
            let line := strip_cr (take newline buffer) in
            inl (Some (Z.of_nat newline + 1, List.filter nonempty (split_blank line)))
        end
  end.

End Frame.

Module Length.

Definition MAX_LENGTH : Z := 0xFFFFFF.

Definition try_read_length (input : list Z) : option (Z * Z) :=
  match input with
  | [] => None
  | first :: rest =>
      let form := Z.shiftr first 6 in
      if form =? 0 then Some (Z.land first 0x3F, 1)
      else if form =? 1 then
        match rest with
        | b :: _ => Some (Z.lor (Z.shiftl (Z.land first 0x3F) 8) b, 2)
        | [] => None
        end
      else if form =? 2 then
        match rest with
        | a :: b :: c :: d :: _ => Some (be_num [a; b; c; d], 5)
        | _ => None
        end
      else None
  end.

(** The number of bytes written and the buffer. *)
Definition try_write_length (length : Z) (output : list Z) : option (Z * list Z) :=
  if MAX_LENGTH <? length then None
  else if length <? Z.shiftl 1 6 then
    match output with
    | [] => None
    | _ => Some (1, splice 0 [Z.land (wrap 8 length) 0x3F] output)
    end
  else if length <? Z.shiftl 1 14 then
    if zlen output <? 2 then None
    else Some (2, splice 0 [Z.lor (wrap 8 (Z.land (Z.shiftr length 8) 0x3F)) (Z.shiftl 1 6); wrap 8 length] output)
  else
    if zlen output <? 5 then None
    else Some (5, splice 0 (Z.shiftl 2 6 :: be_bytes 4 length) output).

End Length.

Module ParseState.
Import Ascii Read.

Record ArgSlice : Type := { offset : Z; arg_length : Z }.

Definition resolve (a : ArgSlice) (buf : list Z) : list Z :=
  if arg_length a =? 0 then [] else slice (offset a) (offset a + arg_length a) buf.
Definition total_size (a : ArgSlice) : Z := arg_length a + 4.
Definition is_empty (a : ArgSlice) : bool := arg_length a =? 0.

Record SessionParseState : Type := { count : Z; root_buffer : list ArgSlice; first : Z }.

Definition MIN_PARAMS : Z := 5.
Definition no_arg : ArgSlice := {| offset := 0; arg_length := 0 |}.

Definition new : SessionParseState := {| count := 0; root_buffer := []; first := 0 |}.

(** [resize] to a larger length. *)
Definition grow (l : list ArgSlice) (n : Z) : list ArgSlice :=
  if zlen l <? n then l ++ replicate (Z.to_nat (n - zlen l)) no_arg else l.

Definition initialize (st : SessionParseState) (n : Z) : SessionParseState :=
  let cap := Z.max n MIN_PARAMS in
  {| count := n; root_buffer := grow (root_buffer st) cap; first := 0 |}.

Definition get_arg_slice_by_ref (st : SessionParseState) (i : Z) : option ArgSlice :=
  root_buffer st !! Z.to_nat (first st + i).

Definition arg_in (st : SessionParseState) (buf : list Z) (i : Z) : option (list Z) :=
  (fun a => resolve a buf) <$> get_arg_slice_by_ref st i.

(** State, outcome and [ptr] after the call. *)
Definition read (st : SessionParseState) (i : Z) (buffer : list Z) (p stop : Z)
    : SessionParseState * (bool + RespError) * Z :=
  let r := try_read_unsigned_length_header (slice p stop buffer) DOLLAR in
  match outcome r with
  | inr e => (st, inr e, p)
  | inl false => (st, inl false, p)
  | inl true =>
      if MAX_ARGUMENT_LENGTH_BYTES <? length r then (st, inl false, p)
      else
        let p := stop - zlen (ptr r) in
        let len := length r in
        if stop <? p + len + 2 then (st, inl false, p)
        else if negb (bytes_eqb (slice (p + len) (p + len + 2) buffer) CRLF)
        then (st, inr (UnexpectedToken (default 0 (buffer !! Z.to_nat (p + len)))), p)
        else
          let st' := {| count := if count st <=? i then i + 1 else count st;
                        root_buffer := <[Z.to_nat i := {| offset := p; arg_length := len |}]>
                                         (grow (root_buffer st) (i + 1));
                        first := first st |} in
          (st', inl true, p + len + 2)
  end.

Definition parameters (st : SessionParseState) : list ArgSlice :=
  if count st =? 0 then []
  else
    let stop := Z.min (sat_add (first st) (count st)) (zlen (root_buffer st)) in
    if stop <=? first st then [] else slice (first st) stop (root_buffer st).

Definition get_serialized_length (st : SessionParseState) : Z :=
  4 + zsum total_size (parameters st).

(** One argument: its length and its bytes. *)
Fixpoint serialize_args (params : list ArgSlice) (buf dest : list Z) (curr : Z) : list Z * Z :=
  match params with
  | [] => (dest, curr)
  | arg :: params' =>
      let dest := splice curr (le_bytes 4 (wrap 32 (arg_length arg))) dest in
      let curr := curr + 4 in
      let dest := splice curr (resolve arg buf) dest in
      serialize_args params' buf dest (curr + arg_length arg)
  end.

Definition serialize_to (st : SessionParseState) (buf dest : list Z) : list Z * Z :=
  let params := parameters st in
  let dest := splice 0 (le_bytes 4 (wrap 32 (zlen params))) dest in
  serialize_args params buf dest 4.

End ParseState.

Module Writer.
Import Ascii.

Definition MAX_ERROR_MSG_LEN : Z := 512.
Definition MIN_ERROR_PREFIX_LEN : Z := 3.
Definition RESP3_MIN : Z := 3.
Definition EMPTY_ARRAY_FRAME : list Z := [STAR; 48] ++ CRLF.
Definition ERR : list Z := [69; 82; 82].

Definition is_resp3 (resp_version : Z) : bool := RESP3_MIN <=? resp_version.

Definition is_break (b : Z) : bool := (b =? CR) || (b =? LF).

Fixpoint until_break (s : list Z) : nat :=
  match s with b :: s' => if is_break b then O else S (until_break s') | [] => O end.

Definition sanitize_error_bytes (s : list Z) (max_len : Z) : list Z :=
  take (Nat.min (until_break s) (Z.to_nat max_len)) s.

Definition write_error_frame_to (out prefix msg : list Z) : list Z :=
  let clean := sanitize_error_bytes msg MAX_ERROR_MSG_LEN in
  out ++ [MINUS] ++ prefix ++ (match prefix with [] => [] | _ => [SPACE] end) ++ clean ++ CRLF.

Definition write_error_bytes (out error_bytes : list Z) : list Z := write_error_frame_to out [] error_bytes.
Definition write_error (out error_string : list Z) : list Z := write_error_bytes out error_string.
Definition write_error_with_prefix (out prefix msg : list Z) : list Z := write_error_frame_to out prefix msg.
Definition write_simple_string_bytes (out bytes : list Z) : list Z := out ++ [PLUS] ++ bytes ++ CRLF.
Definition write_integer_from_bytes (out bytes : list Z) : list Z := out ++ [COLON] ++ bytes ++ CRLF.
Definition write_empty_array (out : list Z) : list Z := out ++ EMPTY_ARRAY_FRAME.
Definition write_direct (out span : list Z) : list Z := out ++ span.

(** The text before the first space. *)
Fixpoint before_space (s : list Z) : option (list Z) :=
  match s with
  | b :: s' => if b =? SPACE then Some [] else cons b <$> before_space s'
  | [] => None
  end.

Definition is_ascii_uppercase (b : Z) : bool := (65 <=? b) && (b <=? 90).

Definition write_resp_error (out msg : list Z) : list Z :=
  let kind := before_space msg in
  if match kind with
     | Some prefix => (MIN_ERROR_PREFIX_LEN <=? zlen prefix) && forallb is_ascii_uppercase prefix
     | None => false
     end
  then write_error out msg
  else if bytes_eqb msg ERR then write_error out ERR
  else write_error_with_prefix out ERR msg.

(** [write_error_raw] ([cmd_strings.rs]). *)
Definition write_error_raw (output msg : list Z) : list Z := write_error output msg.

Section Numbers.
(** The decimal formatter for integers. *)
Context (itoa : Z -> list Z).

Definition write_prefixed_len_to (out : list Z) (prefix len : Z) : list Z :=
  out ++ [prefix] ++ itoa len ++ CRLF.
Definition write_bulk_string_to (out item : list Z) : list Z :=
  out ++ [DOLLAR] ++ itoa (zlen item) ++ CRLF ++ item ++ CRLF.

Definition write_array_length (out : list Z) (len : Z) : list Z := write_prefixed_len_to out STAR len.
Definition write_int64 (out : list Z) (value : Z) : list Z := out ++ [COLON] ++ itoa value ++ CRLF.
Definition write_integer_as_bulk_string (out : list Z) (value : Z) : list Z :=
  write_bulk_string_to out (itoa value).

(** What the two protocol versions write differently. *)
Record RespProtocol : Type := {
  VERSION : Z;
  write_null : list Z -> list Z;
  write_null_array : list Z -> list Z;
  write_map_len : list Z -> Z -> list Z;
  write_set_len : list Z -> Z -> list Z;
  write_bool : list Z -> bool -> list Z;
  write_verbatim_string : list Z -> list Z -> list Z -> list Z;
  write_empty_set : list Z -> list Z
}.

Definition Resp2 : RespProtocol := {|
  VERSION := 2;
  write_null out := out ++ [DOLLAR; MINUS; 49] ++ CRLF;
  write_null_array out := out ++ [STAR; MINUS; 49] ++ CRLF;
  write_map_len out len := write_prefixed_len_to out STAR (Z.min (len * 2) u64_max);
  write_set_len out len := write_prefixed_len_to out STAR len;
  write_bool out value := out ++ (if value then [COLON; 49] ++ CRLF else [COLON; 48] ++ CRLF);
  write_verbatim_string out message _ := write_bulk_string_to out message;
  write_empty_set out := out ++ EMPTY_ARRAY_FRAME
|}.

Definition Resp3 : RespProtocol := {|
  VERSION := 3;
  write_null out := out ++ [UNDERSCORE] ++ CRLF;
  write_null_array out := out ++ [UNDERSCORE] ++ CRLF;
  write_map_len out len := write_prefixed_len_to out PERCENT len;
  write_set_len out len := write_prefixed_len_to out TILDE len;
  write_bool out value := out ++ (if value then [HASH; 116] ++ CRLF else [HASH; 102] ++ CRLF);
  write_verbatim_string out message format :=
    out ++ [EQUALS] ++ itoa (sat_add (zlen message) 4) ++ CRLF ++ format ++ [COLON] ++ message ++ CRLF;
  write_empty_set out := out ++ [TILDE; 48] ++ CRLF
|}.

Definition protocol (resp_version : Z) : RespProtocol := if is_resp3 resp_version then Resp3 else Resp2.
Definition write_resp_null_ver (out : list Z) (resp_version : Z) : list Z :=
  write_null (protocol resp_version) out.
Definition write_resp_null_array_ver (out : list Z) (resp_version : Z) : list Z :=
  write_null_array (protocol resp_version) out.
Definition write_resp_missing_member_ver (out : list Z) (included_count : bool) (resp_version : Z) : list Z :=
  if included_count then write_empty_array out else write_resp_null_ver out resp_version.

End Numbers.

(** ** Frame heads written after the body *)
Section Backfill.
Context (write_head : list Z -> Z -> list Z).

Definition RESP_FRAME_HEAD_RESERVED : Z := 5.

Definition with_frame_head {R} (count : Z) (f : list Z -> R) : R := f (write_head [] count).
Definition resp_frame_head_len (count : Z) : Z := with_frame_head count zlen.

(** The output and the position of the head. *)
Definition reserve_resp_frame_head (output : list Z) (reserved : Z) : list Z * Z :=
  (output ++ replicate (Z.to_nat reserved) 0, zlen output).

(** [output.copy_within(a..b, dest)]. *)
Definition copy_within (a b dest : Z) (output : list Z) : list Z := splice dest (slice a b output) output.
(** [output.resize(n, 0)]. *)
Definition resize (n : Z) (output : list Z) : list Z :=
  take (Z.to_nat n) output ++ replicate (Z.to_nat n - length output) 0.

Definition backfill_resp_frame_head (output : list Z) (base reserved count : Z) : list Z :=
  with_frame_head count (fun head =>
    let actual := zlen head in
    let output :=
      if actual <? reserved then
        take (Z.to_nat (zlen output - (reserved - actual)))
          (copy_within (base + reserved) (zlen output) (base + actual) output)
      else if reserved <? actual then
        let old_len := zlen output in
        copy_within (base + reserved) old_len (base + actual) (resize (old_len + (actual - reserved)) output)
      else output in
    splice base head output).

End Backfill.
End Writer.
