(* ===== verification/RespSpec.v ===== *)
(** * Correctness of the RESP reader and writer ([wedb/wresp/src])

    What the writer writes, the readers read back, whatever follows it; a request
    that has arrived only in part is never mistaken for a whole or a malformed
    one; error frames are a single line; heads filled in afterwards do not disturb
    the body. *)

From stdpp Require Import base list numbers option tactics.
From Stdlib Require Import ZArith Lia Bool.
From S2P Require Import Prelude Bytes Num Resp.

Module RespSpec.
Import Ascii Num.

(** ** Digits *)

Definition digit (d : Z) : Prop := 48 <= d <= 57.

(** Input behind which a number cannot go on. *)
Definition stops (rest : list Z) : Prop :=
  match rest with [] => True | b :: _ => fits 8 b /\ ~ digit b end.

Lemma digit_of_digit b : digit b -> Read.digit_of b = b - 48.
Proof. intros Hb. unfold digit in Hb. apply wrap_id. unfold fits. lia. Qed.

Lemma digit_of_other b : fits 8 b -> ~ digit b -> 9 < Read.digit_of b.
Proof.
  unfold fits, digit, Read.digit_of, wsub, wrap. intros Hb Hd. change (2 ^ 8) with 256 in Hb.
  destruct (Z.lt_ge_cases b 48).
  - replace (b - 48) with ((b - 48 + 2 ^ 32) + (-1) * 2 ^ 32) by lia.
    rewrite Z.mod_add by lia. rewrite Z.mod_small by lia. lia.
  - rewrite Z.mod_small by lia. lia.
Qed.

Lemma stops_crlf rest : stops (CRLF ++ rest).
Proof. cbn. unfold digit, fits, CR. lia. Qed.

Lemma acc_value_app v a b : acc_value v (a ++ b) = acc_value (acc_value v a) b.
Proof. apply foldl_app. Qed.

Lemma acc_value_bound v ds :
  0 <= v -> Forall digit ds -> acc_value v ds < (v + 1) * 10 ^ Z.of_nat (length ds).
Proof.
  intros Hv Hd. revert v Hv. induction Hd as [|d ds Hd Hds IH]; intros v Hv; [cbn; lia|].
  change (acc_value v (d :: ds)) with (acc_value (v * 10 + (d - ZERO)) ds).
  specialize (IH (v * 10 + (d - ZERO))). unfold digit, ZERO in *. cbn [length].
  rewrite Nat2Z.inj_succ, Z.pow_succ_r by lia. pose proof (Z.pow_pos_nonneg 10 (Z.of_nat (length ds))). nia.
Qed.

Lemma read_short_digits n ds rest v i :
  0 <= v -> (v + 1) * 10 ^ Z.of_nat (length ds) <= 2 ^ 64 -> Forall digit ds -> (length ds <= n)%nat ->
  (length ds = n \/ stops rest) ->
  Read.read_short n (ds ++ rest) v i = (acc_value v ds, i + zlen ds, rest).
Proof.
  intros Hv Hb Hd. revert n v i Hv Hb. induction Hd as [|d ds Hd Hds IH]; intros n v i Hv Hb Hn Hend.
  - cbn [app]. rewrite zlen_nil, Z.add_0_r. destruct n as [|n]; [done|]. destruct Hend as [|Hs]; [done|].
    destruct rest as [|b rest]; [done|]. destruct Hs as [H1 H2]. cbn [Read.read_short].
    pose proof (digit_of_other b H1 H2). destruct (Z.ltb_spec 9 (Read.digit_of b)); [done|lia].
  - destruct n as [|n]; [cbn in Hn; lia|]. cbn [app Read.read_short].
    rewrite digit_of_digit by done. unfold digit in Hd. destruct (Z.ltb_spec 9 (d - 48)); [lia|].
    cbn [length] in Hb. rewrite Nat2Z.inj_succ, Z.pow_succ_r in Hb by lia.
    pose proof (Z.pow_pos_nonneg 10 (Z.of_nat (length ds)) ltac:(lia) ltac:(lia)) as Hp.
    assert (wadd 64 (wmul 64 10 v) (d - 48) = v * 10 + (d - ZERO)) as ->.
    { unfold wadd, wmul, ZERO. rewrite (wrap_id 64 (10 * v)) by (unfold fits; nia).
      rewrite wrap_id by (unfold fits; nia). lia. }
    rewrite IH; [|unfold ZERO; lia|unfold ZERO; nia|cbn in Hn; lia|].
    + rewrite zlen_cons. f_equal. f_equal. lia.
    + destruct Hend as [Hl|]; [left; cbn in Hl; lia|by right].
Qed.

(** Beyond nineteen digits each one is checked. *)
Lemma read_long_digits ds rest v i :
  fits 64 v -> Forall digit ds -> stops rest ->
  if acc_value v ds <=? u64_max
  then Read.read_long (ds ++ rest) v i = inl (acc_value v ds, i + zlen ds, rest)
  else exists k, i <= k <= i + zlen ds /\ Read.read_long (ds ++ rest) v i = inr k.
Proof.
  intros Hv Hd Hs. revert v i Hv. induction Hd as [|d ds Hd Hds IH]; intros v i Hv.
  - cbn [acc_value foldl app]. unfold fits, u64_max in *. destruct (Z.leb_spec v (2 ^ 64 - 1)); [|lia].
    rewrite zlen_nil, Z.add_0_r. destruct rest as [|b rest]; [done|]. destruct Hs as [H1 H2].
    cbn [Read.read_long]. pose proof (digit_of_other b H1 H2). destruct (Z.ltb_spec 9 (Read.digit_of b)); [done|lia].
  - change (acc_value v (d :: ds)) with (acc_value (v * 10 + (d - ZERO)) ds).
    cbn [app Read.read_long]. rewrite digit_of_digit by done. pose proof Hd as Hd'. unfold digit in Hd'.
    destruct (Z.ltb_spec 9 (d - 48)); [lia|].
    pose proof (acc_value_ge (v * 10 + (d - ZERO)) ds) as Hge. unfold fits, ZERO in *.
    specialize (Hge ltac:(lia) Hds). pose proof (zlen_nonneg ds). rewrite zlen_cons.
    destruct ((v =? 1844674407370955161) && (5 <? d - 48) || (1844674407370955161 <? v)) eqn:Ho.
    + assert (u64_max < v * 10 + (d - 48)) by (unfold u64_max; lia).
      destruct (Z.leb_spec (acc_value (v * 10 + (d - 48)) ds) u64_max); [lia|]. exists i. split; [lia|done].
    + assert (v * 10 + (d - 48) <= u64_max) by (unfold u64_max; lia).
      assert (wadd 64 (wmul 64 10 v) (d - 48) = v * 10 + (d - 48)) as ->.
      { unfold wadd, wmul. rewrite (wrap_id 64 (10 * v)) by (unfold fits, u64_max in *; lia).
        rewrite wrap_id by (unfold fits, u64_max in *; lia). lia. }
      specialize (IH (v * 10 + (d - 48)) (i + 1)).
      destruct (acc_value (v * 10 + (d - 48)) ds <=? u64_max).
      * rewrite IH by (unfold u64_max in *; lia). do 2 f_equal. f_equal. lia.
      * destruct IH as (k & Hk & Hr); [unfold u64_max in *; lia|]. exists k. split; [lia|done].
Qed.

Lemma nineteen_digits : 10 ^ 19 <= 2 ^ 64.
Proof. lia. Qed.

(** [try_read_u64] reads the longest run of digits, or reports that its value does
    not fit. *)
Lemma try_read_u64_spec ds rest :
  Forall digit ds -> stops rest ->
  if value ds <=? u64_max
  then Read.try_read_u64 (ds ++ rest) = inl (value ds, zlen ds, rest)
  else exists k, 0 <= k <= zlen ds /\ Read.try_read_u64 (ds ++ rest) = inr (IntegerOverflow (slice 0 k (ds ++ rest))).
Proof.
  intros Hd Hs. unfold Read.try_read_u64.
  pose proof (Forall_take digit 19 ds Hd) as Hd1. pose proof (Forall_drop digit 19 ds Hd) as Hd2.
  assert (Hsplit : ds = take 19 ds ++ drop 19 ds) by (by rewrite take_drop).
  assert (Hlen1 : (length (take 19 ds) <= 19)%nat) by (rewrite length_take; lia).
  assert (0 <= value (take 19 ds) < 2 ^ 64) as Hb.
  { split; [apply (acc_value_ge 0); [lia|done]|].
    pose proof (acc_value_bound 0 (take 19 ds) ltac:(lia) Hd1) as Hv.
    eapply Z.lt_le_trans; [exact Hv|].
    transitivity (10 ^ 19); [|exact nineteen_digits]. rewrite Z.mul_1_l. apply Z.pow_le_mono_r; lia. }
  assert (Read.read_short 19 (ds ++ rest) 0 0 = (value (take 19 ds), zlen (take 19 ds), drop 19 ds ++ rest)) as ->.
  { rewrite Hsplit at 1. rewrite <- app_assoc. rewrite read_short_digits; try done.
    - transitivity (10 ^ 19); [|exact nineteen_digits]. rewrite Z.mul_1_l. apply Z.pow_le_mono_r; lia.
    - destruct (Nat.le_gt_cases 19 (length ds)); [left; rewrite length_take; lia|right].
      rewrite drop_ge by lia. done. }
  pose proof (read_long_digits (drop 19 ds) rest (value (take 19 ds)) (zlen (take 19 ds)) Hb Hd2 Hs) as Hl.
  replace (acc_value (value (take 19 ds)) (drop 19 ds)) with (value ds) in Hl
    by (rewrite Hsplit at 1; apply acc_value_app).
  assert (zlen (take 19 ds) + zlen (drop 19 ds) = zlen ds) as Hz by (by rewrite <- zlen_app, take_drop).
  destruct (value ds <=? u64_max).
  - rewrite Hl, Hz. done.
  - destruct Hl as (k & Hk & ->). exists k. pose proof (zlen_nonneg (take 19 ds)). split; [lia|done].
Qed.

(** ** Length headers *)

Lemma zlen_pos {A} (l : list A) : l <> [] -> 0 < zlen l.
Proof. destruct l as [|x l]; [done|]. rewrite zlen_cons. pose proof (zlen_nonneg l). lia. Qed.

Lemma read_number_ok p ds rest :
  ds <> [] -> Forall digit ds -> value ds <= i32_max ->
  Read.read_number p (ds ++ CRLF ++ rest) false = Read.Header (inl true) (value ds) rest.
Proof.
  intros Hne Hd Hv. unfold Read.read_number. pose proof (try_read_u64_spec ds (CRLF ++ rest) Hd (stops_crlf rest)) as H.
  unfold i32_max, u64_max in *. destruct (Z.leb_spec (value ds) (2 ^ 64 - 1)); [|lia]. rewrite H.
  pose proof (zlen_pos ds Hne). destruct (Z.eqb_spec (zlen ds) 0); [lia|].
  destruct (Z.ltb_spec (2 ^ 31 - 1) (value ds)); [lia|]. done.
Qed.

(** The number has arrived but not the end of its line. *)
Lemma read_number_partial p ds t :
  ds <> [] -> Forall digit ds -> value ds <= i32_max -> t = [] \/ t = [CR] ->
  Read.outcome (Read.read_number p (ds ++ t) false) = inl false.
Proof.
  intros Hne Hd Hv Ht. unfold Read.read_number.
  assert (stops t) as Hs by (destruct Ht as [->| ->]; [done|apply (stops_crlf [])]).
  pose proof (try_read_u64_spec ds t Hd Hs) as H.
  unfold i32_max, u64_max in *. destruct (Z.leb_spec (value ds) (2 ^ 64 - 1)); [|lia]. rewrite H.
  pose proof (zlen_pos ds Hne). destruct (Z.eqb_spec (zlen ds) 0); [lia|].
  destruct (Z.ltb_spec (2 ^ 31 - 1) (value ds)); [lia|]. by destruct Ht as [->| ->].
Qed.

(** A header on a number goes straight to the number. *)
Lemma header_number sigil d ds t :
  sigil <> UNDERSCORE -> digit d -> (2 <= length (ds ++ t) + 1)%nat ->
  Read.try_read_signed_length_header (sigil :: d :: ds ++ t) sigil =
  Read.read_number (sigil :: d :: ds ++ t) ((d :: ds) ++ t) false.
Proof.
  intros Hs Hd Hl. unfold Read.try_read_signed_length_header.
  destruct (ds ++ t) as [|x l] eqn:E; [cbn in Hl; lia|].
  destruct (Z.eqb_spec sigil UNDERSCORE); [done|]. rewrite Z.eqb_refl.
  unfold digit in Hd. destruct (Z.eqb_spec d Ascii.MINUS) as [Hm|]; [unfold Ascii.MINUS in Hm; lia|].
  cbn [app negb andb]. by rewrite E.
Qed.

Section Formatter.
(** The integer formatter prints the decimal numeral of a number. *)
Context (itoa : Z -> list Z).
Hypothesis itoa_numeral : forall n, 0 <= n -> numeral (itoa n).
Hypothesis itoa_value : forall n, 0 <= n -> value (itoa n) = n.

Lemma itoa_cons n : 0 <= n -> exists d ds, itoa n = d :: ds /\ digit d /\ Forall digit ds.
Proof.
  intros Hn. destruct (itoa_numeral n Hn) as (Hne & Hd & _). destruct (itoa n) as [|d ds]; [done|].
  apply Forall_cons_1 in Hd as [Hd Hds]. by exists d, ds.
Qed.

Lemma header_roundtrip sigil n rest :
  sigil <> UNDERSCORE -> 0 <= n <= i32_max ->
  Read.try_read_signed_length_header (sigil :: itoa n ++ CRLF ++ rest) sigil = Read.Header (inl true) n rest.
Proof.
  intros Hs Hn. destruct (itoa_cons n ltac:(lia)) as (d & ds & E & Hd & Hds). rewrite E. cbn [app].
  rewrite header_number by (done || rewrite !length_app; cbn; lia).
  rewrite read_number_ok; [|done|by constructor|rewrite <- E, itoa_value; lia].
  by rewrite <- E, itoa_value by lia.
Qed.

(** A proper prefix of a header asks for more. *)
Lemma header_partial sigil n p k :
  sigil <> UNDERSCORE -> 0 <= n <= i32_max -> sigil :: itoa n ++ CRLF = p ++ k -> k <> [] ->
  Read.outcome (Read.try_read_signed_length_header p sigil) = inl false.
Proof.
  intros Hs Hn E Hk. destruct (itoa_cons n ltac:(lia)) as (d & ds & Ei & Hd & Hds). rewrite Ei in E.
  assert (value (d :: ds) = n) as Hv by (rewrite <- Ei; apply itoa_value; lia).
  destruct p as [|s [|d' [|x p]]]; try done. cbn [app] in E. injection E as <- <- E.
  assert (exists ds' t, x :: p = ds' ++ t /\ Forall digit ds' /\ (t = [] \/ t = [CR]) /\ value (d :: ds') <= i32_max)
    as (ds' & t & Ep & Hds' & Ht & Hv').
  { change (ds ++ CRLF = (x :: p) ++ k) in E. apply app_eq_inv in E as [(l & -> & E)|(l & E & E')].
    - exists (x :: p), []. rewrite app_nil_r. apply Forall_app in Hds as [Hds1 Hds2].
      split; [done|]. split; [done|]. split; [by left|].
      change (d :: (x :: p) ++ l) with ((d :: x :: p) ++ l) in Hv. unfold value in Hv. rewrite foldl_app in Hv.
      pose proof (acc_value_ge (value (d :: x :: p)) l) as Hge. unfold acc_value, value in *.
      etransitivity; [apply Hge; [|done]|lia].
      apply (acc_value_ge 0 (d :: x :: p)); [lia|by constructor].
    - exists ds, l. split; [done|]. split; [done|]. split; [|lia].
      destruct l as [|c [|c' l]]; [by left|right; by injection E' as <-|].
      exfalso. injection E' as _ _ E'. symmetry in E'. apply app_eq_nil in E' as [_ ?]. done. }
  rewrite Ep. rewrite header_number; [|done|done|rewrite <- Ep; cbn; lia].
  apply read_number_partial; [done|by constructor|done|done].
Qed.

(** ** Bulk strings *)

Definition bulk (item : list Z) : list Z := Writer.write_bulk_string_to itoa [] item.

(** Arguments that the readers accept. *)
Definition fits_argument (item : list Z) : Prop := zlen item <= Read.MAX_ARGUMENT_LENGTH_BYTES.

Lemma bulk_shape item : bulk item = DOLLAR :: itoa (zlen item) ++ CRLF ++ item ++ CRLF.
Proof. done. Qed.

Lemma argument_length item : fits_argument item -> 0 <= zlen item <= i32_max.
Proof.
  unfold fits_argument, Read.MAX_ARGUMENT_LENGTH_BYTES, i32_max. pose proof (zlen_nonneg item). lia.
Qed.

Lemma read_payload_ok item rest :
  Read.read_payload (item ++ CRLF ++ rest) (zlen item) = (inl true, item, rest).
Proof.
  unfold Read.read_payload. pose proof (zlen_nonneg item). pose proof (zlen_nonneg rest).
  rewrite !zlen_app. change (zlen CRLF) with 2.
  destruct (Z.ltb_spec (zlen item + (2 + zlen rest)) (zlen item + 2)); [lia|].
  assert (slice (zlen item) (zlen item + 2) (item ++ CRLF ++ rest) = CRLF) as ->.
  { unfold slice. replace (Z.to_nat (zlen item + 2 - zlen item)) with 2%nat by lia.
    replace (Z.to_nat (zlen item)) with (length item) by (unfold zlen; lia). by rewrite drop_app_length. }
  assert (slice 0 (zlen item) (item ++ CRLF ++ rest) = item) as ->.
  { unfold slice. replace (Z.to_nat (zlen item - 0)) with (length item) by (unfold zlen; lia).
    apply take_app_length. }
  assert (slice_from (zlen item + 2) (item ++ CRLF ++ rest) = rest) as ->; [|done].
  unfold slice_from. replace (Z.to_nat (zlen item + 2)) with (length item + 2)%nat by (unfold zlen; lia).
  by rewrite <- drop_drop, drop_app_length.
Qed.

Lemma read_payload_partial len q :
  zlen q < len + 2 -> Read.read_payload q len = (inl false, [], q).
Proof. intros Hq. unfold Read.read_payload. by destruct (Z.ltb_spec (zlen q) (len + 2)); [|lia]. Qed.

(** Behind its header a bulk string is its payload. *)
Lemma bulk_after_header old item q :
  fits_argument item ->
  Read.try_read_ptr_with_signed_length_header old (DOLLAR :: itoa (zlen item) ++ CRLF ++ q) =
  match Read.read_payload q (zlen item) with
  | (inl true, payload, rest) => (inl true, Some payload, rest)
  | (o, _, rest) => (o, old, rest)
  end.
Proof.
  intros Hf. unfold Read.try_read_ptr_with_signed_length_header.
  rewrite header_roundtrip by (done || by apply argument_length). cbn [Read.outcome Read.length Read.ptr].
  unfold Read.exceeds_max_argument_length. pose proof (zlen_nonneg item). unfold fits_argument in Hf.
  destruct (Z.ltb_spec Read.MAX_ARGUMENT_LENGTH_BYTES (zlen item)); [lia|].
  by destruct (Z.ltb_spec (zlen item) 0); [lia|].
Qed.

Lemma bulk_read old item rest :
  fits_argument item ->
  Read.try_read_ptr_with_signed_length_header old (bulk item ++ rest) = (inl true, Some item, rest).
Proof.
  intros Hf. rewrite bulk_shape.
  replace ((DOLLAR :: itoa (zlen item) ++ CRLF ++ item ++ CRLF) ++ rest)
    with (DOLLAR :: itoa (zlen item) ++ CRLF ++ (item ++ CRLF ++ rest)) by (cbn [app]; by rewrite <- !app_assoc).
  by rewrite bulk_after_header, read_payload_ok.
Qed.

Lemma bulk_partial old item p k :
  fits_argument item -> bulk item = p ++ k -> k <> [] ->
  exists o rest, Read.try_read_ptr_with_signed_length_header old p = (inl false, o, rest).
Proof.
  intros Hf E Hk. rewrite bulk_shape in E.
  assert (forall q k', item ++ CRLF = q ++ k' -> k' <> [] ->
    exists o rest, Read.try_read_ptr_with_signed_length_header old (DOLLAR :: itoa (zlen item) ++ CRLF ++ q)
      = (inl false, o, rest)) as Hq.
  { intros q k' Eq Hk'. rewrite bulk_after_header, read_payload_partial; [eauto| |done].
    assert (zlen (item ++ CRLF) = zlen q + zlen k') as Hz by (by rewrite Eq, zlen_app).
    rewrite zlen_app in Hz. change (zlen CRLF) with 2 in Hz. pose proof (zlen_pos k' Hk'). lia. }
  replace (DOLLAR :: itoa (zlen item) ++ CRLF ++ item ++ CRLF)
    with ((DOLLAR :: itoa (zlen item) ++ CRLF) ++ item ++ CRLF) in E by (cbn [app]; by rewrite <- app_assoc).
  apply app_eq_inv in E as [(l & E & E')|(l & -> & E)].
  - destruct l as [|x l].
    + rewrite app_nil_r in E. subst p.
      pose proof (Hq [] (item ++ CRLF) eq_refl ltac:(by destruct item)) as Hq0. by rewrite app_nil_r in Hq0.
    + unfold Read.try_read_ptr_with_signed_length_header.
      rewrite (header_partial DOLLAR (zlen item) p (x :: l)) by (done || by apply argument_length). eauto.
  - cbn [app]. rewrite <- app_assoc. by eapply Hq.
Qed.

(** ** Requests *)

Definition request (args : list (list Z)) : list Z :=
  Writer.write_array_length itoa [] (zlen args) ++ concat (map bulk args).

Lemma request_shape args : request args = STAR :: itoa (zlen args) ++ CRLF ++ concat (map bulk args).
Proof. unfold request, Writer.write_array_length, Writer.write_prefixed_len_to. cbn [app]. by rewrite <- app_assoc. Qed.

Lemma parse_args_ok args rest acc :
  Forall fits_argument args ->
  Frame.parse_args (length args) (concat (map bulk args) ++ rest) acc = inl (Some (acc ++ args, rest)).
Proof.
  intros Hf. revert acc. induction Hf as [|a args Ha Hf IH]; intros acc; cbn [length map concat Frame.parse_args].
  - by rewrite app_nil_r.
  - rewrite <- app_assoc, bulk_read by done. rewrite IH. by rewrite <- app_assoc.
Qed.

Lemma parse_args_partial args p k acc :
  Forall fits_argument args -> concat (map bulk args) = p ++ k -> k <> [] ->
  Frame.parse_args (length args) p acc = inl None.
Proof.
  intros Hf. revert p acc. induction Hf as [|a args Ha Hf IH]; intros p acc E Hk; cbn [map concat] in E.
  { symmetry in E. apply app_eq_nil in E as [_ ?]. done. }
  cbn [length Frame.parse_args]. apply app_eq_inv in E as [(l & E & E')|(l & -> & E)].
  - destruct l as [|x l].
    + rewrite app_nil_r in E. subst p. rewrite <- (app_nil_r (bulk a)), bulk_read by done.
      by apply IH.
    + destruct (bulk_partial None a p (x :: l)) as (o & r & ->); done.
  - rewrite bulk_read by done. by apply IH.
Qed.

(** What happens behind the header of a request. *)
Lemma parse_frame_header n q :
  0 <= n <= i32_max ->
  Frame.parse_resp_frame (STAR :: itoa n ++ CRLF ++ q) =
  match Frame.parse_args (Z.to_nat n) q [] with
  | inr e => inr e
  | inl None => inl None
  | inl (Some (args, rest)) => inl (Some (zlen (STAR :: itoa n ++ CRLF ++ q) - zlen rest, args))
  end.
Proof.
  intros Hn. unfold Frame.parse_resp_frame. rewrite Z.eqb_refl.
  unfold Read.try_read_unsigned_array_length, Read.try_read_unsigned_length_header.
  rewrite header_roundtrip by done. cbn [Read.outcome Read.length Read.ptr].
  destruct (Z.ltb_spec n 0); [lia|]. done.
Qed.


(** C21: a request written by the writer - the array header and one bulk string
    per argument - is parsed back to exactly its arguments, and exactly its own
    bytes are consumed, whatever follows it in the buffer. *)
Theorem frame_roundtrip args rest :
  zlen args <= i32_max -> Forall fits_argument args ->
  Frame.parse_resp_frame (request args ++ rest) = inl (Some (zlen (request args), args)).
Proof.
  intros Hn Hf. pose proof (zlen_nonneg args).
  replace (request args ++ rest) with (STAR :: itoa (zlen args) ++ CRLF ++ (concat (map bulk args) ++ rest))
    by (rewrite request_shape; cbn [app]; by rewrite <- !app_assoc).
  rewrite parse_frame_header by done.
  replace (Z.to_nat (zlen args)) with (length args) by (unfold zlen; lia).
  rewrite parse_args_ok by done. cbn [app]. do 3 f_equal.
  rewrite request_shape, !zlen_cons, !zlen_app. lia.
Qed.

(** C22: a request that has arrived only in part is neither taken for a whole one
    nor rejected: on every proper prefix the parser asks for more input. *)
Theorem frame_incremental args p k :
  zlen args <= i32_max -> Forall fits_argument args -> request args = p ++ k -> k <> [] ->
  Frame.parse_resp_frame p = inl None.
Proof.
  intros Hn Hf E Hk. pose proof (zlen_nonneg args). rewrite request_shape in E.
  replace (STAR :: itoa (zlen args) ++ CRLF ++ concat (map bulk args))
    with ((STAR :: itoa (zlen args) ++ CRLF) ++ concat (map bulk args)) in E by (cbn [app]; by rewrite <- app_assoc).
  assert (forall q, concat (map bulk args) = q ++ k ->
    Frame.parse_resp_frame (STAR :: itoa (zlen args) ++ CRLF ++ q) = inl None) as Hq.
  { intros q Eq. rewrite parse_frame_header by done.
    replace (Z.to_nat (zlen args)) with (length args) by (unfold zlen; lia).
    by rewrite (parse_args_partial args q k). }
  apply app_eq_inv in E as [(l & E & E')|(l & -> & E)].
  - destruct l as [|x l].
    + rewrite app_nil_r in E. subst p. specialize (Hq [] (eq_sym E')). by rewrite app_nil_r in Hq.
    + destruct p as [|b p]; [done|]. pose proof E as Eb. injection Eb as <- _. unfold Frame.parse_resp_frame.
      rewrite Z.eqb_refl. unfold Read.try_read_unsigned_array_length, Read.try_read_unsigned_length_header.
      rewrite (header_partial STAR (zlen args) (STAR :: p) (x :: l)) by done.
      by rewrite (header_partial STAR (zlen args) (STAR :: p) (x :: l)) by done.
  - cbn [app]. rewrite <- app_assoc. by apply Hq.
Qed.

End Formatter.

(** The decimal formatter is a parameter of the theorems; this is one. *)
Fixpoint decimal_digits (fuel : nat) (n : Z) (acc : list Z) : list Z :=
  match fuel with
  | O => acc
  | S fuel' =>
      let acc := (48 + n mod 10) :: acc in
      if n <? 10 then acc else decimal_digits fuel' (n / 10) acc
  end.
Definition decimal (n : Z) : list Z := decimal_digits (S (Z.to_nat (Z.log2 n))) n [].

Lemma decimal_digits_spec fuel n acc :
  0 <= n -> n < 2 ^ Z.of_nat fuel -> (0 < fuel)%nat ->
  exists ds, decimal_digits fuel n acc = ds ++ acc /\ numeral ds /\ value ds = n /\ (0 < n -> head ds <> Some ZERO).
Proof.
  revert n acc. induction fuel as [|fuel IH]; intros n acc Hn Hb Hf; [lia|]. cbn [decimal_digits].
  pose proof (Z.mod_pos_bound n 10 ltac:(lia)) as Hm. pose proof (Z.div_mod n 10 ltac:(lia)) as Hdm.
  destruct (Z.ltb_spec n 10) as [Hlt|Hge].
  - rewrite Z.mod_small by lia. exists [48 + n]. unfold numeral, value, ZERO. cbn.
    repeat split; try done; [by repeat constructor; lia|lia|]. intros Hp [=]. lia.
  - rewrite Nat2Z.inj_succ, Z.pow_succ_r in Hb by lia.
    destruct (IH (n / 10) ((48 + n mod 10) :: acc)) as (ds & -> & (Hne & Hd & _) & Hv & Hh).
    { lia. } { lia. } { destruct fuel; [cbn in Hb; lia|lia]. }
    exists (ds ++ [48 + n mod 10]). split; [by rewrite <- app_assoc|]. specialize (Hh ltac:(lia)).
    assert (head (ds ++ [48 + n mod 10]) <> Some ZERO) as Hh' by (by destruct ds).
    split; [split; [by destruct ds|split; [|done]]|].
    + apply Forall_app. split; [done|]. repeat constructor; lia.
    + split; [|done]. unfold value. rewrite foldl_app. fold (value ds). cbn. unfold ZERO. lia.
Qed.

Lemma decimal_spec n : 0 <= n -> numeral (decimal n) /\ value (decimal n) = n.
Proof.
  intros Hn. unfold decimal. destruct (decimal_digits_spec (S (Z.to_nat (Z.log2 n))) n []) as (ds & -> & H1 & H2 & _).
  - done.
  - pose proof (Z.log2_nonneg n). rewrite Nat2Z.inj_succ, Z2Nat.id by done.
    destruct (Z.eq_dec n 0) as [->|]; [done|]. apply Z.log2_spec. lia.
  - lia.
  - by rewrite app_nil_r.
Qed.

(** [SET k hello]. *)
Definition set_args : list (list Z) := [[83; 69; 84]; [107]; [104; 101; 108; 108; 111]].

Lemma frame_roundtrip_witness :
  Frame.parse_resp_frame (request decimal set_args ++ [42; 49]) = inl (Some (31, set_args)).
Proof.
  apply (frame_roundtrip decimal (fun n Hn => proj1 (decimal_spec n Hn)) (fun n Hn => proj2 (decimal_spec n Hn))).
  - by vm_compute.
  - repeat constructor; by vm_compute.
Defined.

Lemma frame_incremental_witness : Frame.parse_resp_frame (take 20 (request decimal set_args)) = inl None.
Proof.
  apply (frame_incremental decimal (fun n Hn => proj1 (decimal_spec n Hn)) (fun n Hn => proj2 (decimal_spec n Hn))
           set_args _ (drop 20 (request decimal set_args))).
  - by vm_compute.
  - repeat constructor; by vm_compute.
  - by rewrite take_drop.
  - by vm_compute.
Defined.

(** ** Error replies *)

Definition no_break (b : Z) : Prop := Writer.is_break b = false.

Lemma until_break_clean s : Forall no_break (take (Writer.until_break s) s).
Proof.
  induction s as [|b s IH]; [constructor|]. cbn [Writer.until_break].
  destruct (Writer.is_break b) eqn:E; [constructor|]. by constructor.
Qed.

Lemma sanitize_clean s n : Forall no_break (Writer.sanitize_error_bytes s n).
Proof.
  unfold Writer.sanitize_error_bytes. rewrite Nat.min_comm, <- take_take.
  apply Forall_take, until_break_clean.
Qed.

Lemma zlen_sanitize s n : 0 <= n -> zlen (Writer.sanitize_error_bytes s n) <= n.
Proof. intros Hn. unfold zlen, Writer.sanitize_error_bytes. rewrite length_take. lia. Qed.

(** Clean beginnings survive. *)
Lemma sanitize_prefix a s n :
  Forall no_break a -> zlen a <= n -> exists r, Writer.sanitize_error_bytes (a ++ s) n = a ++ r.
Proof.
  intros Ha Hn. unfold Writer.sanitize_error_bytes.
  assert (length a <= Writer.until_break (a ++ s))%nat as Hu.
  { clear Hn. induction Ha as [|b a Hb Ha IH]; cbn [length app Writer.until_break]; [lia|]. rewrite Hb. lia. }
  eexists. rewrite take_app_ge by (unfold zlen in Hn; lia). done.
Qed.

Lemma find_crlf_line text rest :
  Forall no_break text -> Read.find_crlf (text ++ CRLF ++ rest) = Some (length text).
Proof.
  induction 1 as [|b text Hb Ht IH]; [done|]. cbn [app].
  change (Read.find_crlf (b :: text ++ CRLF ++ rest) = Some (length (b :: text))).
  destruct (text ++ CRLF ++ rest) as [|c l] eqn:E; [by destruct text|].
  change (Read.find_crlf (b :: c :: l))
    with (if bytes_eqb [b; c] CRLF then Some O else S <$> Read.find_crlf (c :: l)).
  destruct (bytes_eqb [b; c] CRLF) eqn:Ee; [|by rewrite IH].
  apply bytes_eqb_eq in Ee. injection Ee as -> _. done.
Qed.

Lemma error_span text rest :
  Forall no_break text ->
  Read.try_read_error_as_span (Ascii.MINUS :: text ++ CRLF ++ rest) = (true, text, rest).
Proof.
  intros Ht. unfold Read.try_read_error_as_span. pose proof (zlen_nonneg text). pose proof (zlen_nonneg rest).
  rewrite zlen_cons, !zlen_app. change (zlen CRLF) with 2. destruct (Z.ltb_spec (1 + (zlen text + (2 + zlen rest))) 2); [lia|].
  rewrite Z.eqb_refl. cbn [negb]. unfold Read.try_read_as_span. rewrite find_crlf_line by done.
  by rewrite take_app_length, <- drop_drop, drop_app_length.
Qed.

Definition uppercase (b : Z) : Prop := Writer.is_ascii_uppercase b = true.

Lemma uppercase_clean b : uppercase b -> no_break b.
Proof. unfold uppercase, no_break, Writer.is_ascii_uppercase, Writer.is_break, CR, LF. lia. Qed.

Lemma before_space_prefix msg kind : Writer.before_space msg = Some kind -> exists s, msg = kind ++ SPACE :: s.
Proof.
  revert kind. induction msg as [|b msg IH]; intros kind; cbn [Writer.before_space]; [done|].
  destruct (Z.eqb_spec b SPACE) as [->|]; [intros [= <-]; by exists msg|].
  destruct (Writer.before_space msg) as [k|]; [|done]. intros [= <-]. destruct (IH k eq_refl) as [s ->]. by exists s.
Qed.

(** [frame] is [out] and the error line of [text], which a client reads as exactly
    this text, going on behind the line. *)
Definition error_line (out text frame : list Z) : Prop :=
  frame = out ++ Ascii.MINUS :: text ++ CRLF /\ Forall no_break text /\
  forall rest, Read.try_read_error_as_span (Ascii.MINUS :: text ++ CRLF ++ rest) = (true, text, rest).

(** An error kind: three capital letters at least. *)
Definition begins_with_kind (text : list Z) : Prop :=
  exists kind s, text = kind ++ s /\ zlen kind = 3 /\ Forall uppercase kind.

Lemma error_line_of out text : Forall no_break text -> error_line out text (out ++ Ascii.MINUS :: text ++ CRLF).
Proof. intros Ht. split; [done|]. split; [done|]. intros rest. by apply error_span. Qed.

(** The text that the frame holds: the prefix, and the message up to its first line
    break and at most 512 bytes of it. *)
Definition error_text (prefix msg : list Z) : list Z :=
  prefix ++ (match prefix with [] => [] | _ => [SPACE] end) ++ take (Nat.min (Writer.until_break msg) 512) msg.

Lemma frame_line out prefix msg : Forall no_break prefix ->
  error_line out (error_text prefix msg) (Writer.write_error_frame_to out prefix msg).
Proof.
  intros Hp. assert (Hc : Forall no_break (error_text prefix msg)).
  { apply Forall_app_2; [done|]. apply Forall_app_2; [|apply (sanitize_clean msg Writer.MAX_ERROR_MSG_LEN)].
    destruct prefix; by repeat constructor. }
  unfold Writer.write_error_frame_to. cbn zeta. change (Writer.sanitize_error_bytes msg Writer.MAX_ERROR_MSG_LEN)
    with (take (Nat.min (Writer.until_break msg) 512) msg).
  pose proof (error_line_of out _ Hc) as H. unfold error_text in H at 2. rewrite <- !app_assoc in H. exact H.
Qed.

Lemma zlen_error_text prefix msg : zlen (error_text prefix msg) <= zlen prefix + 513.
Proof.
  unfold error_text, zlen. rewrite !length_app, length_take. destruct prefix; cbn [length]; lia.
Qed.

(** A message that begins with a kind keeps it. *)
Lemma kind_kept msg kind s : msg = kind ++ SPACE :: s -> Writer.MIN_ERROR_PREFIX_LEN <= zlen kind -> Forall uppercase kind ->
  begins_with_kind (error_text [] msg) /\ zlen (error_text [] msg) <= 512.
Proof.
  intros -> Hl Hu. split; [|unfold error_text, zlen; cbn [app]; rewrite length_take; lia].
  assert (Hk : Forall uppercase (take 3 kind)) by (by apply Forall_take).
  assert (Hk3 : zlen (take 3 kind) = 3) by (unfold zlen, Writer.MIN_ERROR_PREFIX_LEN in *; rewrite length_take; lia).
  destruct (sanitize_prefix (take 3 kind) (drop 3 kind ++ SPACE :: s) Writer.MAX_ERROR_MSG_LEN) as [r Hr].
  { eapply Forall_impl; [apply uppercase_clean|exact Hk]. } { rewrite Hk3. done. }
  rewrite app_assoc, take_drop in Hr. exists (take 3 kind), r. split; [exact Hr|done].
Qed.

Lemma ERR_clean : Forall no_break Writer.ERR.
Proof. by repeat constructor. Qed.

(** C34: what the writers of error replies write is one line whatever message it
    carries: the text holds no line break, so the message cannot smuggle in another
    reply, and a client reads exactly this text and continues behind the frame.
    [write_error_bytes], [write_error] and [write_error_raw] write the message up to
    its first line break and at most 512 bytes of it, and nothing else;
    [write_error_with_prefix] puts a prefix and a space before it, which is one line
    when the prefix has no line break.  The text of [write_resp_error], and in
    general only its text, is sure to begin with an error kind of three capital
    letters; it is at most 516 bytes long. *)
Theorem error_reply_line out prefix msg :
  error_line out (error_text [] msg) (Writer.write_error_bytes out msg) /\
  error_line out (error_text [] msg) (Writer.write_error out msg) /\
  error_line out (error_text [] msg) (Writer.write_error_raw out msg) /\
  (Forall no_break prefix -> error_line out (error_text prefix msg) (Writer.write_error_with_prefix out prefix msg)) /\
  exists text, error_line out text (Writer.write_resp_error out msg) /\ begins_with_kind text /\ zlen text <= 516.
Proof.
  assert (Hraw : forall m, error_line out (error_text [] m) (Writer.write_error_bytes out m)) by (intros m; by apply frame_line).
  split_and!; [apply Hraw..|apply frame_line|]. unfold Writer.write_resp_error.
  match goal with |- context [if ?b then _ else _] => destruct b eqn:E end.
  - destruct (Writer.before_space msg) as [kind|] eqn:Ek; [|done].
    apply andb_true_iff in E as [Hl%Z.leb_le Hu]. apply before_space_prefix in Ek as [s Em].
    exists (error_text [] msg). split; [apply Hraw|].
    destruct (kind_kept msg kind s Em Hl) as [Hk Hz]; [|split; [done|lia]].
    apply Forall_forall. rewrite forallb_forall in Hu. intros x Hx. by apply Hu.
  - destruct (bytes_eqb msg Writer.ERR).
    + exists Writer.ERR. split; [apply Hraw|]. split; [|by vm_compute]. exists Writer.ERR, []. by repeat constructor.
    + exists (error_text Writer.ERR msg). split; [apply frame_line, ERR_clean|].
      split; [|pose proof (zlen_error_text Writer.ERR msg) as Hz; change (zlen Writer.ERR) with 3 in Hz; lia].
      eexists Writer.ERR, _. split; [done|]. split; [done|]. by repeat constructor.
Qed.

(** The message [no], a line break and a forged reply. *)
Lemma error_reply_line_witness :
  error_line [] [69; 82; 82; 32; 110; 111] (Writer.write_error_with_prefix [] Writer.ERR [110; 111; 13; 10; 43; 79; 75]).
Proof.
  destruct (error_reply_line [] Writer.ERR [110; 111; 13; 10; 43; 79; 75]) as (_ & _ & _ & H & _).
  exact (H ERR_clean).
Defined.

(** ** Heads written after the body *)

Lemma take_into {A} (o r h : list A) : take (Z.to_nat (zlen o + zlen h)) (o ++ r) = o ++ take (length h) r.
Proof.
  unfold zlen. replace (Z.to_nat (Z.of_nat (length o) + Z.of_nat (length h))) with (length o + length h)%nat by lia.
  apply take_app_add.
Qed.

Lemma slice_body {A} (o g body r : list A) :
  slice (zlen o + zlen g) (zlen o + zlen g + zlen body) (o ++ g ++ body ++ r) = body.
Proof.
  unfold slice, zlen.
  replace (Z.to_nat (Z.of_nat (length o) + Z.of_nat (length g) + Z.of_nat (length body) -
    (Z.of_nat (length o) + Z.of_nat (length g)))) with (length body) by lia.
  replace (Z.to_nat (Z.of_nat (length o) + Z.of_nat (length g))) with (length (o ++ g)) by (rewrite length_app; lia).
  by rewrite app_assoc, drop_app_length, take_app_length.
Qed.

(** The bytes over which a head is copied do not matter. *)
Lemma splice_head {A} (o g head body : list A) :
  length g = length head -> splice (zlen o) head (o ++ g ++ body) = o ++ head ++ body.
Proof.
  intros Hg. unfold splice, zlen. rewrite Nat2Z.id, take_app_length. f_equal. f_equal.
  rewrite <- Hg, app_assoc, <- length_app. by rewrite drop_app_length.
Qed.

(** A frame head that is filled in after its body has been written ends up in
    front of it: however many bytes were reserved and however long the head turns
    out to be, the output is what was there before, the head and the body. *)
Theorem backfill_correct (write_head : list Z -> Z -> list Z) output reserved body count :
  0 <= reserved ->
  let '(reserved_output, base) := Writer.reserve_resp_frame_head output reserved in
  Writer.backfill_resp_frame_head write_head (reserved_output ++ body) base reserved count =
  output ++ write_head [] count ++ body.
Proof.
  intros Hr. unfold Writer.reserve_resp_frame_head, Writer.backfill_resp_frame_head, Writer.with_frame_head.
  generalize (write_head [] count) as head. intros head.
  remember (replicate (Z.to_nat reserved) 0) as g eqn:Eg.
  assert (zlen g = reserved) as <- by (subst g; unfold zlen; rewrite length_replicate; lia). clear Hr Eg.
  rewrite <- app_assoc. unfold Writer.copy_within.
  destruct (Z.ltb_spec (zlen head) (zlen g)) as [Hlt|Hge]; [|destruct (Z.ltb_spec (zlen g) (zlen head)) as [Hlt|Hge']].
  - rewrite !zlen_app. replace (zlen output + (zlen g + zlen body)) with (zlen output + zlen g + zlen body) by lia.
    pose proof (slice_body output g body []) as Hs. rewrite app_nil_r in Hs. rewrite Hs.
    unfold splice at 2. rewrite take_into. rewrite <- app_assoc.
    unfold zlen in Hlt. rewrite (take_app_le g) by lia.
    generalize (drop (Z.to_nat (zlen output + zlen head) + length body) (output ++ g ++ body)) as d.
    intros d.
    replace (output ++ take (length head) g ++ body ++ d) with ((output ++ take (length head) g ++ body) ++ d)
      by (by rewrite <- !app_assoc).
    rewrite take_app_length'.
    + apply splice_head. rewrite length_take. lia.
    + rewrite !length_app, length_take. unfold zlen. lia.
  - set (z := replicate (length head - length g) 0).
    assert (Writer.resize (zlen (output ++ g ++ body) + (zlen head - zlen g)) (output ++ g ++ body) =
      output ++ g ++ body ++ z) as ->.
    { unfold Writer.resize, zlen in *. rewrite take_ge by lia. rewrite <- !app_assoc. do 3 f_equal.
      unfold z. f_equal. lia. }
    rewrite !zlen_app. replace (zlen output + (zlen g + zlen body)) with (zlen output + zlen g + zlen body) by lia.
    rewrite slice_body. unfold splice at 2. rewrite take_into, <- app_assoc.
    rewrite (drop_ge (output ++ _)), app_nil_r.
    + apply splice_head. unfold zlen in Hlt. rewrite length_take, !length_app. unfold z. rewrite length_replicate. lia.
    + unfold zlen in *. rewrite !length_app. unfold z. rewrite length_replicate. lia.
  - apply splice_head. unfold zlen in *. lia.
Qed.

Lemma backfill_correct_witness :
  Writer.backfill_resp_frame_head (Writer.write_array_length decimal) ([1; 2] ++ replicate 5 0 ++ [7; 8]) 2 5 1000 =
  [1; 2] ++ [42; 49; 48; 48; 48; 13; 10] ++ [7; 8].
Proof. apply (backfill_correct (Writer.write_array_length decimal) [1; 2] 5 [7; 8] 1000). lia. Defined.

(** ** Length prefixes *)

(** The bytes a length needs. *)
Definition length_size (len : Z) : Z := if len <? 2 ^ 6 then 1 else if len <? 2 ^ 14 then 2 else 5.

Lemma splice_start {A} (bs l : list A) : splice 0 bs l = bs ++ drop (length bs) l.
Proof. done. Qed.

Lemma split_two_byte_form len :
  64 <= len < 16384 ->
  let first := Z.lor (wrap 8 (Z.land (Z.shiftr len 8) 0x3F)) (Z.shiftl 1 6) in
  Z.shiftr first 6 = 1 /\ Z.lor (Z.shiftl (Z.land first 0x3F) 8) (wrap 8 len) = len.
Proof.
  intros Hl. set (h := len / 256). assert (0 <= h < 64) as Hh by (subst h; split; [apply Z.div_pos|apply Z.div_lt_upper_bound]; lia).
  cbv zeta. rewrite (Z.shiftr_div_pow2 len) by lia. change (len / 2 ^ 8) with h.
  assert (Z.land h 0x3F = h) as -> by (by apply (land_ones_id 6)).
  rewrite (wrap_id 8 h) by (unfold fits; lia). change (Z.shiftl 1 6) with (1 * 2 ^ 6).
  rewrite Z.lor_comm, lor_add by (unfold fits; lia). split.
  - rewrite Z.shiftr_div_pow2 by lia. symmetry. apply (Z.div_unique _ _ _ h); lia.
  - change 0x3F with (Z.ones 6). rewrite Z.land_ones by lia.
    replace ((1 * 2 ^ 6 + h) mod 2 ^ 6) with h by (apply (Z.mod_unique _ _ 1); lia).
    rewrite Z.shiftl_mul_pow2, lor_add by (try apply wrap_fits; lia).
    unfold wrap. change (2 ^ 8) with 256. pose proof (Z.div_mod len 256). subst h. lia.
Qed.

(** Every length up to the maximum for which there is room is written in the
    shortest of the three forms and read back with the number of bytes used; the
    rest of the buffer is untouched.  Writing fails only for a larger length or
    for want of room. *)
Theorem length_roundtrip len output :
  0 <= len ->
  match Length.try_write_length len output with
  | Some (n, output') =>
      n = length_size len /\ zlen output' = zlen output /\ slice_from n output' = slice_from n output /\
      Length.try_read_length output' = Some (len, n)
  | None => Length.MAX_LENGTH < len \/ zlen output < length_size len
  end.
Proof.
  intros Hl. unfold Length.try_write_length, length_size. pose proof (zlen_nonneg output).
  change (Z.shiftl 1 6) with (2 ^ 6). change (Z.shiftl 1 14) with (2 ^ 14). change (Z.shiftl 2 6) with 128.
  destruct (Z.ltb_spec Length.MAX_LENGTH len) as [|Hm]; [by left|].
  destruct (Z.ltb_spec len (2 ^ 6)) as [H6|H6]; [|destruct (Z.ltb_spec len (2 ^ 14)) as [H14|H14]].
  - destruct output as [|b output]; [right; rewrite zlen_nil; lia|].
    rewrite (wrap_id 8) by (unfold fits; lia).
    assert (Z.land len 0x3F = len) as Hland by (by apply (land_ones_id 6)). rewrite Hland.
    split; [done|]. split; [apply zlen_splice; [lia|unfold zlen; cbn [length]; lia]|].
    split; [done|]. rewrite splice_start. cbn [app]. unfold Length.try_read_length.
    rewrite Z.shiftr_div_pow2, Z.div_small by lia. by rewrite Hland.
  - destruct (Z.ltb_spec (zlen output) 2) as [|H2]; [by right|].
    destruct (split_two_byte_form len) as [Hf Hv]; [lia|]. change (Z.shiftl 1 6) with (2 ^ 6) in Hf, Hv.
    split; [done|]. split; [apply zlen_splice; [lia|done]|]. split; [by rewrite splice_start|].
    rewrite splice_start. cbn [app]. unfold Length.try_read_length. by rewrite Hf, Hv.
  - destruct (Z.ltb_spec (zlen output) 5) as [|H5]; [by right|].
    pose proof (be_num_be_bytes 4 len) as Hn. pose proof (length_be_bytes 4 len) as Hlen.
    rewrite Z.mod_small in Hn by (change (256 ^ Z.of_nat 4) with (2 ^ 32); unfold Length.MAX_LENGTH in Hm; lia).
    destruct (be_bytes 4 len) as [|a [|b [|c [|d [|]]]]]; try done.
    split; [done|]. split; [apply zlen_splice; [lia|done]|]. split; [by rewrite splice_start|].
    rewrite splice_start. change (Some (be_num [a; b; c; d], 5) = Some (len, 5)). by rewrite Hn.
Qed.

Lemma length_roundtrip_witness :
  0 <= 1000 /\ Length.try_write_length 1000 [9; 9; 9] = Some (2, [67; 232; 9]) /\
  Length.try_read_length [67; 232; 9] = Some (1000, 2).
Proof. split; [lia|]. split; [done|]. apply (length_roundtrip 1000 [9; 9; 9]). lia. Defined.

End RespSpec.
