(* ===== verification/RespStateSpec.v ===== *)
(** * Correctness of the argument table of a session
    ([wedb/wresp/src/session_parse_state.rs])

    Reading any bytes keeps the table well-formed and the cursor inside the
    received data; reading a bulk string makes its payload the argument. *)

From stdpp Require Import base list numbers option tactics.
From Stdlib Require Import ZArith Lia Bool.
From S2P Require Import Prelude Bytes Num Resp RespSpec.

Module RespStateSpec.
Import Ascii Num ParseState RespSpec.

(** The table has a slot for every argument. *)
Record wf (st : SessionParseState) : Prop := {
  wf_first : first st = 0;
  wf_count : 0 <= count st <= zlen (root_buffer st)
}.

Lemma zlen_grow l n : zlen (grow l n) = Z.max (zlen l) n.
Proof.
  unfold grow. destruct (Z.ltb_spec (zlen l) n); [|lia].
  rewrite zlen_app. unfold zlen in *. rewrite length_replicate. lia.
Qed.

Lemma grow_lookup l n j : (j < length l)%nat -> grow l n !! j = l !! j.
Proof. intros Hj. unfold grow. destruct (zlen l <? n); [|done]. by apply lookup_app_l. Qed.

Lemma initialize_wf st n : 0 <= n -> wf (initialize st n).
Proof.
  intros Hn. split; [done|]. cbn [count root_buffer initialize]. rewrite zlen_grow. lia.
Qed.

(** ** What the readers leave *)

Lemma read_short_rest n h v i : zlen (Read.read_short n h v i).2 <= zlen h.
Proof.
  revert h v i. induction n as [|n IH]; intros h v i; [done|]. destruct h as [|b h]; [done|].
  cbn [Read.read_short]. destruct (9 <? Read.digit_of b); [done|].
  etransitivity; [apply IH|]. rewrite zlen_cons. lia.
Qed.

Lemma read_long_rest h v i r : Read.read_long h v i = inl r -> zlen r.2 <= zlen h.
Proof.
  revert v i. induction h as [|b h IH]; intros v i; cbn [Read.read_long]; [by intros [= <-]|].
  destruct (9 <? Read.digit_of b); [by intros [= <-]|].
  match goal with |- context [if ?c then _ else _] => destruct c end; [done|].
  intros Hr. rewrite zlen_cons. apply IH in Hr. lia.
Qed.

Lemma try_read_u64_rest p r : Read.try_read_u64 p = inl r -> zlen r.2 <= zlen p.
Proof.
  unfold Read.try_read_u64. pose proof (read_short_rest 19 p 0 0) as Hs.
  destruct (Read.read_short 19 p 0 0) as [[v i] h]. destruct (Read.read_long h v i) as [r'|] eqn:E; [|done].
  intros [= <-]. apply read_long_rest in E. cbn in Hs. lia.
Qed.

Lemma zlen_drop_le {A} n (l : list A) : zlen (drop n l) <= zlen l.
Proof. unfold zlen. rewrite length_drop. lia. Qed.

Lemma read_number_rest p ds neg : zlen ds <= zlen p -> zlen (Read.ptr (Read.read_number p ds neg)) <= zlen p.
Proof.
  intros Hds. unfold Read.read_number. destruct (Read.try_read_u64 ds) as [[[v n] h]|e] eqn:E; [|done].
  apply try_read_u64_rest in E. cbn in E. destruct (n =? 0); [done|].
  match goal with |- context [if ?c then _ else _] => destruct c end; [done|].
  destruct h as [|a [|b h]]; [done|done|]. destruct (bytes_eqb [a; b] CRLF); [|done].
  cbn [Read.ptr]. rewrite !zlen_cons in E. lia.
Qed.

Lemma header_rest p sigil : zlen (Read.ptr (Read.try_read_signed_length_header p sigil)) <= zlen p.
Proof.
  unfold Read.try_read_signed_length_header. destruct p as [|s [|x [|y p]]]; try done.
  pose proof (zlen_nonneg p). pose proof (zlen_cons s (x :: y :: p)) as Hc.
  repeat match goal with |- context [if ?c then _ else _] => destruct c end; cbn [Read.ptr]; try done;
    try (apply read_number_rest); try (etransitivity; [apply zlen_drop_le|]); try (rewrite Hc; lia).
Qed.

(** A header that is accepted gives a length that is not negative. *)
Lemma unsigned_header_ok p sigil :
  let r := Read.try_read_unsigned_length_header p sigil in
  Read.outcome r = inl true -> 0 <= Read.length r /\ zlen (Read.ptr r) <= zlen p.
Proof.
  cbv zeta. unfold Read.try_read_unsigned_length_header. pose proof (header_rest p sigil) as Hr.
  destruct (Read.try_read_signed_length_header p sigil) as [[[|]|e] n q]; cbn [Read.outcome Read.length Read.ptr] in *; try done.
  destruct (Z.ltb_spec n 0); cbn [Read.outcome Read.length Read.ptr]; [done|]. by intros _.
Qed.

(** ** Reading an argument *)

(** Storing an argument. *)
Definition store (st : SessionParseState) (i : Z) (a : ArgSlice) : SessionParseState :=
  {| count := if count st <=? i then i + 1 else count st;
     root_buffer := <[Z.to_nat i := a]> (grow (root_buffer st) (i + 1));
     first := first st |}.

Lemma store_wf st i a : wf st -> 0 <= i -> wf (store st i a).
Proof.
  intros [Hf Hc] Hi. split; [done|]. cbn [count root_buffer store]. unfold zlen. rewrite length_insert.
  change (Z.of_nat (length (grow (root_buffer st) (i + 1)))) with (zlen (grow (root_buffer st) (i + 1))).
  rewrite zlen_grow. destruct (Z.leb_spec (count st) i); lia.
Qed.

Lemma store_lookup st i a : wf st -> 0 <= i -> get_arg_slice_by_ref (store st i a) i = Some a.
Proof.
  intros [Hf Hc] Hi. unfold get_arg_slice_by_ref, store. cbn [root_buffer first]. rewrite Hf, Z.add_0_l.
  apply list_lookup_insert_eq. pose proof (zlen_grow (root_buffer st) (i + 1)) as Hg. unfold zlen in Hg. lia.
Qed.

Lemma store_lookup_other st i j a :
  wf st -> 0 <= i -> 0 <= j < count st -> j <> i ->
  get_arg_slice_by_ref (store st i a) j = get_arg_slice_by_ref st j.
Proof.
  intros [Hf Hc] Hi Hj Hne. unfold get_arg_slice_by_ref, store. cbn [root_buffer first]. rewrite Hf, Z.add_0_l.
  rewrite list_lookup_insert_ne by lia. apply grow_lookup. unfold zlen in Hc. lia.
Qed.

(** The cases in which no argument is stored. *)
Local Ltac nothing_stored := split; [done|]; split; [lia|done].

(** On any bytes, reading an argument keeps the table well-formed, leaves the
    other arguments alone and keeps the cursor inside the received data; an
    argument that is stored lies, with its terminator, between the old and the
    new cursor.  Without success no argument changes. *)
Theorem read_bounds st i buffer p stop :
  wf st -> 0 <= i -> 0 <= p <= stop -> stop <= zlen buffer ->
  let '(st', outcome, p') := read st i buffer p stop in
  wf st' /\ p <= p' <= stop /\
  (forall j, 0 <= j < count st -> j <> i -> get_arg_slice_by_ref st' j = get_arg_slice_by_ref st j) /\
  match outcome with
  | inl true => exists a, get_arg_slice_by_ref st' i = Some a /\ p <= offset a /\ 0 <= arg_length a /\
      offset a + arg_length a + 2 = p' /\ slice (offset a + arg_length a) p' buffer = CRLF
  | _ => st' = st
  end.
Proof.
  intros Hwf Hi Hp Hs. unfold read.
  pose proof (unsigned_header_ok (slice p stop buffer) DOLLAR) as Hok. rewrite zlen_slice in Hok by lia.
  destruct (Read.try_read_unsigned_length_header (slice p stop buffer) DOLLAR) as [[[|]|e] n q];
    cbn [Read.outcome Read.length Read.ptr] in *; [|nothing_stored|nothing_stored].
  destruct (Hok eq_refl) as [Hn Hq]. clear Hok. pose proof (zlen_nonneg q).
  destruct (Read.MAX_ARGUMENT_LENGTH_BYTES <? n); [nothing_stored|].
  destruct (Z.ltb_spec stop (stop - zlen q + n + 2)); [nothing_stored|].
  destruct (bytes_eqb (slice (stop - zlen q + n) (stop - zlen q + n + 2) buffer) CRLF) eqn:Eb; cbn [negb];
    [|nothing_stored].
  apply bytes_eqb_eq in Eb. fold (store st i {| offset := stop - zlen q; arg_length := n |}).
  split; [by apply store_wf|]. split; [lia|]. split; [intros j Hj Hne; by apply store_lookup_other|].
  eexists. split; [by apply store_lookup|]. cbn [offset arg_length]. repeat split; try done; lia.
Qed.

(** ** Serialisation *)

Lemma serialize_args_length params buf dest curr :
  (serialize_args params buf dest curr).2 = curr + zsum total_size params.
Proof.
  revert dest curr. induction params as [|a params IH]; intros dest curr; cbn [serialize_args zsum foldr]; [cbn; lia|].
  rewrite IH. unfold zsum, total_size. lia.
Qed.

(** The table serialises to as many bytes as were budgeted. *)
Lemma serialize_to_length st buf dest : (serialize_to st buf dest).2 = get_serialized_length st.
Proof. apply serialize_args_length. Qed.

Section Formatter.
Context (itoa : Z -> list Z).
Hypothesis itoa_numeral : forall n, 0 <= n -> numeral (itoa n).
Hypothesis itoa_value : forall n, 0 <= n -> value (itoa n) = n.

(** Reading a bulk string that the writer wrote stores its payload as the
    argument, and the cursor moves to the byte behind it. *)
Theorem read_bulk st i pre item post stop :
  wf st -> 0 <= i -> fits_argument item ->
  let buffer := pre ++ bulk itoa item ++ post in
  zlen pre + zlen (bulk itoa item) <= stop <= zlen buffer ->
  exists st', read st i buffer (zlen pre) stop = (st', inl true, zlen pre + zlen (bulk itoa item)) /\
    arg_in st' buffer i = Some item /\ count st' = Z.max (count st) (i + 1).
Proof.
  intros Hwf Hi Hf buffer Hstop. pose proof (argument_length item Hf) as Hlen. unfold read.
  set (h := [DOLLAR] ++ itoa (zlen item) ++ CRLF).
  assert (bulk itoa item = h ++ item ++ CRLF) as Hb
    by (rewrite bulk_shape; unfold h; cbn [app]; by rewrite <- app_assoc).
  assert (zlen (bulk itoa item) = zlen h + (zlen item + 2)) as Hz by (by rewrite Hb, !zlen_app).
  set (q := item ++ CRLF ++ take (Z.to_nat (stop - zlen pre - zlen (bulk itoa item))) post).
  assert (slice (zlen pre) stop buffer = DOLLAR :: itoa (zlen item) ++ CRLF ++ q) as ->.
  { unfold slice, buffer. replace (Z.to_nat (zlen pre)) with (length pre) by (unfold zlen; lia). rewrite drop_app_length.
    replace (Z.to_nat (stop - zlen pre)) with
      (length (bulk itoa item) + Z.to_nat (stop - zlen pre - zlen (bulk itoa item)))%nat by (unfold zlen in *; lia).
    rewrite take_app_add, Hb. unfold h, q. cbn [app]. by rewrite <- !app_assoc. }
  unfold Read.try_read_unsigned_length_header. rewrite header_roundtrip by done.
  cbn [Read.outcome Read.length Read.ptr]. destruct (Z.ltb_spec (zlen item) 0); [lia|].
  cbn [Read.outcome Read.length Read.ptr]. unfold fits_argument in Hf.
  destruct (Z.ltb_spec Read.MAX_ARGUMENT_LENGTH_BYTES (zlen item)); [lia|].
  assert (stop - zlen q = zlen pre + zlen h) as ->.
  { unfold q. rewrite !zlen_app. change (zlen CRLF) with 2. unfold buffer in Hstop. rewrite !zlen_app in Hstop.
    unfold zlen in *. rewrite length_take. lia. }
  destruct (Z.ltb_spec stop (zlen pre + zlen h + zlen item + 2)); [lia|].
  assert (buffer = pre ++ h ++ item ++ CRLF ++ post) as Eb by (unfold buffer; rewrite Hb, <- !app_assoc; done).
  assert (slice (zlen pre + zlen h + zlen item) (zlen pre + zlen h + zlen item + 2) buffer = CRLF) as ->.
  { rewrite Eb. replace (zlen pre + zlen h) with (zlen (pre ++ h)) by apply zlen_app.
    replace (pre ++ h ++ item ++ CRLF ++ post) with ((pre ++ h) ++ item ++ CRLF ++ post) by (by rewrite <- app_assoc).
    apply (slice_body (pre ++ h) item CRLF post). }
  cbn [bytes_eqb negb CRLF]. rewrite !Z.eqb_refl. cbn [andb negb].
  fold (store st i {| offset := zlen pre + zlen h; arg_length := zlen item |}).
  replace (zlen pre + zlen h + zlen item + 2) with (zlen pre + zlen (bulk itoa item)) by lia.
  eexists. split; [done|]. split.
  - unfold arg_in. rewrite store_lookup by done. cbn. unfold resolve. cbn [arg_length offset]. f_equal.
    destruct (Z.eqb_spec (zlen item) 0); [by destruct item|]. rewrite Eb. apply slice_body.
  - cbn [count store]. destruct (Z.leb_spec (count st) i); lia.
Qed.

End Formatter.

Lemma read_bounds_witness :
  (read (initialize new 1) 0 [36; 49; 13; 10; 65; 13; 10; 36] 0 8).2 <= 8.
Proof.
  pose proof (read_bounds (initialize new 1) 0 [36; 49; 13; 10; 65; 13; 10; 36] 0 8) as H.
  destruct (read (initialize new 1) 0 [36; 49; 13; 10; 65; 13; 10; 36] 0 8) as [[st' o] p'] eqn:E.
  apply H; [apply initialize_wf; lia|lia|lia|by vm_compute].
Defined.

Lemma read_bulk_witness :
  exists st', read (initialize new 1) 0 ([9] ++ bulk decimal [65; 66] ++ [7]) 1 10 = (st', inl true, 9) /\
    arg_in st' ([9] ++ bulk decimal [65; 66] ++ [7]) 0 = Some [65; 66] /\ count st' = 1.
Proof.
  apply (read_bulk decimal (fun n Hn => proj1 (decimal_spec n Hn)) (fun n Hn => proj2 (decimal_spec n Hn))
           (initialize new 1) 0 [9] [65; 66] [7] 10).
  - apply initialize_wf. lia.
  - lia.
  - by vm_compute.
  - by vm_compute.
Defined.

End RespStateSpec.
