(* ===== verification/Bitmap.v ===== *)
(** * Bitmaps ([wedb/wbitmap/src])

    [Manager]: bit offsets, single bits and ranges ([manager.rs]); [BitCount]
    ([bit_count.rs]); [BitPos] ([bit_pos.rs]); [BitOp] ([bit_op.rs]); [BitField]:
    parsing and execution of bit fields ([bitfield/parse.rs],
    [bitfield/execute.rs]).  A bitmap is its list of bytes, bit 0 the most
    significant bit of the first byte.  An [i64] is its value in [Z]; where the
    code works on its bits, the pattern in [0, 2^64).  Counts and positions of
    bits are bounded by the payload and kept in [Z]. *)

From stdpp Require Import base list numbers option tactics.
From Stdlib Require Import ZArith Lia Bool.
From S2P Require Import Prelude Bytes Num.

(** [l[i]], for an index in range. *)
Definition byte_at (l : list Z) (i : Z) : Z := default 0 (l !! Z.to_nat i).

(** Arithmetic of [i64]. *)
Definition i64_ok (x : Z) : bool := (i64_min <=? x) && (x <=? i64_max).
Definition checked_mul_i64 (a b : Z) : option Z := if i64_ok (a * b) then Some (a * b) else None.
Definition checked_add_i64 (a b : Z) : option Z := if i64_ok (a + b) then Some (a + b) else None.

(** [leading_zeros] of a [w]-bit word. *)
Definition leading_zeros (w x : Z) : Z := if x =? 0 then w else w - 1 - Z.log2 x.

(** [count_ones] of a [w]-bit word. *)
Definition count_ones (w : nat) (x : Z) : Z := zsum (fun i => Z.b2z (Z.testbit x (Z.of_nat i))) (seq 0 w).

Module Manager.

Definition OFFSET_UNIT_BYTE : Z := 0.
Definition OFFSET_UNIT_BIT : Z := 1.
Definition MAX_BITMAP_PAYLOAD_BYTES : Z := 512 * 1024 * 1024.

(** The entry [s, e] of the mask table. *)
Fixpoint mask_loop (n : nat) (i m : Z) : Z :=
  match n with
  | O => m
  | S n' => mask_loop n' (i + 1) (Z.lor m (Z.shiftl 1 (7 - i)))
  end.
Definition BIT_RANGE_MASKS (s e : Z) : Z := if s <? e then mask_loop (Z.to_nat (e - s)) s 0 else 0.

Definition MAX_OFFSET_FOR_BITMAP_LENGTH : Z := MAX_BITMAP_PAYLOAD_BYTES * 8 - 1.

Definition is_valid_bit_offset (offset : Z) : bool := (0 <=? offset) && (offset <=? MAX_OFFSET_FOR_BITMAP_LENGTH).

Definition try_validate_bitfield_offset (offset bit_count : Z) (multiply_offset : bool) : option (Z * Z) :=
  if bit_count =? 0 then None
  else
    match (if multiply_offset then checked_mul_i64 offset bit_count else Some offset) with
    | None => None
    | Some normalized_offset =>
        if normalized_offset <? 0 then None
        else
          match checked_add_i64 normalized_offset (bit_count - 1) with
          | None => None
          | Some end_offset => if is_valid_bit_offset end_offset then Some (normalized_offset, end_offset) else None
          end
    end.

Definition try_validate_bit_pos_offsets (start_offset end_offset offset_type : Z) (has_start has_end : bool) : bool :=
  let max_length :=
    if offset_type =? OFFSET_UNIT_BIT then MAX_OFFSET_FOR_BITMAP_LENGTH + 1 else MAX_BITMAP_PAYLOAD_BYTES in
  let max_offset := max_length - 1 in
  if has_start && ((start_offset <? - max_length) || (max_offset <? start_offset)) then true
  else if has_end && ((end_offset <? - max_length) || (max_offset <? end_offset)) then true
  else false.

Definition index (offset : Z) : option Z :=
  if negb (is_valid_bit_offset offset) then None else Some (Z.shiftr offset 3).

Definition length_in_bytes (offset : Z) : option Z :=
  if negb (is_valid_bit_offset offset) then None else Some (Z.shiftr offset 3 + 1).

(** The bitmap and the old bit; [None] is an index out of range. *)
Definition update_bitmap (value : list Z) (offset set : Z) : option (list Z * Z) :=
  let byte_index := wrap 64 (Z.shiftr offset 3) in
  let bit_index := 7 - Z.land offset 7 in
  match value !! Z.to_nat byte_index with
  | None => None
  | Some byte_val =>
      let old_val := Z.land (Z.shiftr byte_val bit_index) 1 in
      let byte_val := Z.lor (Z.land byte_val (bnot 8 (Z.shiftl 1 bit_index))) (wrap 8 (Z.shiftl set bit_index)) in
      Some (<[Z.to_nat byte_index := byte_val]> value, old_val)
  end.

Definition get_bit (offset : Z) (value : list Z) : Z :=
  let byte_index := wrap 64 (Z.shiftr offset 3) in
  if zlen value <=? byte_index then 0
  else Z.land (Z.shiftr (byte_at value byte_index) (7 - Z.land offset 7)) 1.

Definition process_negative_offset (offset val_len : Z) : Z :=
  if (val_len <=? 0) || (offset <=? - val_len) then 0 else val_len + offset.

Definition normalize_scan_range (offset_type start_offset end_offset len : Z) : option (Z * Z) :=
  let limit := if offset_type =? OFFSET_UNIT_BIT then len * 8 else len in
  let start := if start_offset <? 0 then process_negative_offset start_offset limit else start_offset in
  let stop := if end_offset <? 0 then process_negative_offset end_offset limit else end_offset in
  let stop := if limit <=? stop then limit - 1 else stop in
  if (limit <=? start) || (stop <? start) then None else Some (start, stop).

End Manager.

Module BitCount.
Import Manager.

Definition bit_index_count (payload start_bit_offset end_bit_offset : Z) : Z :=
  if (8 <? start_bit_offset) || (8 <? end_bit_offset) then 0
  else count_ones 8 (Z.land (BIT_RANGE_MASKS start_bit_offset end_bit_offset) payload).

Definition bit_index_count_range (value : list Z) (start_offset end_offset : Z) : Z :=
  let start_byte := start_offset / 8 in
  let end_byte := end_offset / 8 in
  let left_bit_index := Z.land start_offset 7 in
  let right_bit_index := Z.land end_offset 7 + 1 in
  if start_byte =? end_byte then bit_index_count (byte_at value start_byte) left_bit_index right_bit_index
  else bit_index_count (byte_at value start_byte) left_bit_index 8
       + bit_index_count (byte_at value end_byte) 0 right_bit_index.

(** [while curr < vend { count += f(curr); curr += step }]. *)
Fixpoint batches (fuel : nat) (f : Z -> Z) (step curr vend count : Z) : Z * Z :=
  match fuel with
  | O => (curr, count)
  | S fuel' => if curr <? vend then batches fuel' f step (curr + step) vend (count + f curr) else (curr, count)
  end.

Definition u64_read (bitmap : list Z) (idx : Z) : Z := le_num (slice idx (idx + 8) bitmap).

(** The set bits of the 8-byte chunks of [width] bytes. *)
Fixpoint popc_chunks (n : nat) (bytes : list Z) : Z :=
  match n with
  | O => 0
  | S n' => count_ones 64 (le_num (take 8 bytes)) + popc_chunks n' (drop 8 bytes)
  end.
Definition popc_bytes (bitmap : list Z) (idx width : Z) : Z :=
  popc_chunks (Z.to_nat (width / 8)) (slice idx (idx + width) bitmap).

Definition popc_tail (bitmap : list Z) (idx tail : Z) : Z :=
  if tail =? 0 then 0 else zsum (count_ones 8) (slice idx (idx + tail) bitmap).

Definition BATCH_4X8 : Z := 8 * 4.

Definition popc_4x8 (bitmap : list Z) (curr : Z) : Z :=
  count_ones 64 (u64_read bitmap curr) + count_ones 64 (u64_read bitmap (curr + 8))
  + (count_ones 64 (u64_read bitmap (curr + 16)) + count_ones 64 (u64_read bitmap (curr + 24))).

Definition popc_u64_span (bitmap : list Z) (curr len : Z) : Z :=
  let tail := len mod BATCH_4X8 in
  let vend := curr + (len - tail) in
  let '(curr, count) := batches (Z.to_nat len) (popc_4x8 bitmap) BATCH_4X8 curr vend 0 in
  let len := tail in
  let tail := len mod 8 in
  let vend := curr + (len - tail) in
  let '(curr, count) := batches (Z.to_nat len) (fun c => count_ones 64 (u64_read bitmap c)) 8 curr vend count in
  count + popc_tail bitmap curr tail.

Definition scalar_popc (bitmap : list Z) (start stop : Z) : Z := popc_u64_span bitmap start (stop - start + 1).

Definition simd_popc_x256 (bitmap : list Z) (start stop : Z) : Z :=
  let batch_size := 8 * 32 in
  let len := stop - start + 1 in
  let tail := Z.land len (batch_size - 1) in
  let vend := start + (len - tail) in
  let '(curr, count) := batches (Z.to_nat len) (fun c => popc_bytes bitmap c (8 * 32)) batch_size start vend 0 in
  if tail =? 0 then count
  else
    let len := tail in
    let batch_size := 32 in
    let tail := Z.land len (batch_size - 1) in
    let vend := curr + (len - tail) in
    let '(curr, count) := batches (Z.to_nat len) (fun c => popc_bytes bitmap c 32) batch_size curr vend count in
    if tail =? 0 then count else count + popc_u64_span bitmap curr tail.

Definition bit_count_bytes (value : list Z) (start stop count : Z) : Z :=
  if stop - start <? 128 then count + scalar_popc value start stop else count + simd_popc_x256 value start stop.

Definition bit_count_driver (start_offset end_offset offset_type : Z) (value : list Z) (val_len : Z) : Z :=
  if (start_offset <? 0) && (end_offset <? 0) && (end_offset <? start_offset) then 0
  else
    match normalize_scan_range offset_type start_offset end_offset val_len with
    | None => 0
    | Some (start_offset, end_offset) =>
        if offset_type =? OFFSET_UNIT_BIT then
          let count := bit_index_count_range value start_offset end_offset in
          let start_offset := start_offset / 8 + 1 in
          let end_offset := end_offset / 8 - 1 in
          if end_offset <? start_offset then count else bit_count_bytes value start_offset end_offset count
        else bit_count_bytes value start_offset end_offset 0
    end.

End BitCount.

Module BitPos.
Import Manager.

(** The bits of byte [current >> 3] that belong to the range. *)
Definition bit_mask (left_bit_offset right_bit_offset : Z) : Z :=
  Z.land (Z.lxor (Z.shiftr 0xff left_bit_offset) (Z.shiftr 0xff right_bit_offset)) 0xff.

Fixpoint bit_search_loop (fuel : nat) (input : list Z) (current end_bit_offset : Z) (search_bit : bool) : Z :=
  match fuel with
  | O => -1
  | S fuel' =>
      if current <=? end_bit_offset then
        let byte_index := Z.shiftr current 3 in
        let left_bit_offset := Z.land current 7 in
        let boundary := 8 - left_bit_offset in
        let right_bit_offset :=
          if current + boundary <=? end_bit_offset then left_bit_offset + 8 else Z.land end_bit_offset 7 + 1 in
        let mask := bit_mask left_bit_offset right_bit_offset in
        let payload := Z.land (byte_at input byte_index) mask in
        let invalid_mask := Z.land (if search_bit then 0 else 0xff) mask in
        if negb (payload =? invalid_mask) then
          let payload := wrap 64 (Z.shiftl payload (56 + left_bit_offset)) in
          let payload := if search_bit then payload else bnot 64 payload in
          current + leading_zeros 64 payload
        else bit_search_loop fuel' input (current + boundary) end_bit_offset search_bit
      else -1
  end.

Definition bit_pos_bit_search (input : list Z) (start_bit_offset end_bit_offset search_for : Z) : Z :=
  bit_search_loop (S (Z.to_nat (end_bit_offset - start_bit_offset + 1))) input start_bit_offset end_bit_offset
    (search_for =? 1).

(** [payload.leading_zeros()] of a [w]-bit word, inverted when zeros are sought. *)
Definition first_hit (w payload : Z) (search_bit : bool) : Z :=
  leading_zeros w (if search_bit then payload else bnot w payload).

(** The word of [w] bits without the bit that is sought. *)
Definition invalid_word (w : Z) (search_bit : bool) : Z := if search_bit then 0 else 2 ^ w - 1.

Fixpoint byte_search_loop (fuel : nat) (input : list Z) (current end_offset : Z) (search_bit : bool) : option Z :=
  match fuel with
  | O => None
  | S fuel' =>
      if current <=? end_offset then
        let remainder := end_offset - current + 1 in
        if 8 <=? remainder then
          let payload := be_num (slice current (current + 8) input) in
          if negb (payload =? invalid_word 64 search_bit)
          then Some (Z.shiftl current 3 + first_hit 64 payload search_bit)
          else byte_search_loop fuel' input (current + 8) end_offset search_bit
        else if 4 <=? remainder then
          let payload := be_num (slice current (current + 4) input) in
          if negb (payload =? invalid_word 32 search_bit)
          then Some (Z.shiftl current 3 + first_hit 32 payload search_bit)
          else byte_search_loop fuel' input (current + 4) end_offset search_bit
        else
          let byte := byte_at input current in
          if negb (byte =? invalid_word 8 search_bit)
          then Some (Z.shiftl current 3 + first_hit 64 (Z.shiftl byte 56) search_bit)
          else byte_search_loop fuel' input (current + 1) end_offset search_bit
      else None
  end.

Definition bit_pos_byte_search (input : list Z) (start_offset end_offset search_for : Z) (has_end_offset : bool) : Z :=
  match byte_search_loop (S (Z.to_nat (end_offset - start_offset + 1))) input start_offset end_offset (search_for =? 1) with
  | Some pos => pos
  | None => if (search_for =? 0) && negb has_end_offset then zlen input * 8 else -1
  end.

Definition bit_pos_driver (input : list Z) (input_len start_offset end_offset search_for offset_type : Z)
    (has_end_offset : bool) : Z :=
  match normalize_scan_range offset_type start_offset end_offset input_len with
  | None => -1
  | Some (start_offset, end_offset) =>
      if offset_type =? OFFSET_UNIT_BYTE
      then bit_pos_byte_search input start_offset end_offset search_for has_end_offset
      else bit_pos_bit_search input start_offset end_offset search_for
  end.

End BitPos.

Module BitOp.

Inductive BitmapOperation : Type := And | Or | Xor | Not | Diff.

Record BitOpAccumulator : Type := {
  op : BitmapOperation;
  dst : list Z;
  shortest_src_length : Z;
  keys_found : Z
}.

Definition new (o : BitmapOperation) : BitOpAccumulator :=
  {| op := o; dst := []; shortest_src_length := u64_max; keys_found := 0 |}.

(** Folding in place over the common prefix. *)
Fixpoint fold_common (f : Z -> Z -> Z) (d s : list Z) : list Z :=
  match d, s with
  | x :: d', y :: s' => f x y :: fold_common f d' s'
  | _, _ => d
  end.

(** [resize(n, 0)] when it grows. *)
Definition grow_zero (n : Z) (d : list Z) : list Z :=
  if zlen d <? n then d ++ replicate (Z.to_nat (n - zlen d)) 0 else d.

Definition fold (a : BitOpAccumulator) (src : list Z) : BitOpAccumulator :=
  let keys := keys_found a + 1 in
  let shortest := Z.min (shortest_src_length a) (zlen src) in
  let dst' :=
    if keys =? 1 then match op a with Not => map (bnot 8) src | _ => src end
    else
      let common := Z.min (zlen (dst a)) (zlen src) in
      match op a with
      | And => grow_zero (zlen src) (fold_common Z.land (dst a) src)
      | Or => fold_common Z.lor (dst a) src ++ slice_from common src
      | Xor => fold_common Z.lxor (dst a) src ++ slice_from common src
      | Diff => grow_zero (zlen src) (fold_common (fun d s => Z.land d (bnot 8 s)) (dst a) src)
      | Not => dst a
      end in
  {| op := op a; dst := dst'; shortest_src_length := shortest; keys_found := keys |}.

Definition finish (a : BitOpAccumulator) : option (list Z) :=
  match op a with
  | Diff => if keys_found a =? 1 then None else Some (dst a)
  | And =>
      if 0 <? keys_found a
      then Some (take (Z.to_nat (shortest_src_length a)) (dst a)
                 ++ replicate (length (dst a) - Z.to_nat (shortest_src_length a)) 0)
      else Some (dst a)
  | _ => Some (dst a)
  end.

End BitOp.

Module BitField.
Import Manager.

(** [wbase::eq_ascii_case_const]. *)
Definition to_lower (b : Z) : Z := if (65 <=? b) && (b <=? 90) then b + 32 else b.
Definition eq_ascii_case_const (a b : list Z) : bool := bytes_eqb (map to_lower a) (map to_lower b).

Inductive BitFieldSecondaryCommand : Type := Get | Set_ | IncrBy.

(** [BitFieldOverflow] as its byte. *)
Definition Wrap : Z := 0.
Definition Sat : Z := 1.
Definition Fail_ : Z := 2.

(** Command words. *)
Definition SAT : list Z := [83; 65; 84].
Definition WRAP : list Z := [87; 82; 65; 80].
Definition FAIL : list Z := [70; 65; 73; 76].
Definition BIT : list Z := [66; 73; 84].
Definition BYTE : list Z := [66; 89; 84; 69].
Definition GET : list Z := [71; 69; 84].
Definition SET : list Z := [83; 69; 84].
Definition INCRBY : list Z := [73; 78; 67; 82; 66; 89].

Definition parse_bitfield_overflow_slice (raw : list Z) : option Z :=
  if zlen raw =? 3 then if eq_ascii_case_const raw SAT then Some Sat else None
  else if zlen raw =? 4 then
    if eq_ascii_case_const raw WRAP then Some Wrap
    else if eq_ascii_case_const raw FAIL then Some Fail_
    else None
  else None.

Definition parse_bitmap_offset_type (raw : list Z) : option Z :=
  if zlen raw =? 3 then if eq_ascii_case_const raw BIT then Some 1 else None
  else if zlen raw =? 4 then if eq_ascii_case_const raw BYTE then Some 0 else None
  else None.

Definition try_get_bitfield_secondary_command (raw : list Z) : option BitFieldSecondaryCommand :=
  if zlen raw =? 3 then
    if eq_ascii_case_const raw GET then Some Get
    else if eq_ascii_case_const raw SET then Some Set_
    else None
  else if zlen raw =? 6 then if eq_ascii_case_const raw INCRBY then Some IncrBy else None
  else None.

(** Width and signedness. *)
Definition parse_bitfield_encoding (encoding : list Z) : option (Z * bool) :=
  match encoding with
  | c :: (_ :: _) as digits =>
      match (if c =? 105 then Some true else if c =? 117 then Some false else None) with
      | None => None
      | Some signed =>
          match Num.strict_i64 digits with
          | None => None
          | Some bit_count =>
              if (0 <? bit_count) && (if signed then bit_count <=? 64 else bit_count <? 64)
              then Some (bit_count, signed) else None
          end
      end
  | _ => None
  end.

Definition parse_bitfield_offset (raw : list Z) : option (Z * bool) :=
  let '(digits, multiply_offset) :=
    match raw with
    | c :: (_ :: _) as rest => if c =? 35 then (rest, true) else (raw, false)
    | _ => (raw, false)
    end in
  match Num.strict_i64 digits with
  | None => None
  | Some offset => if 0 <=? offset then Some (offset, multiply_offset) else None
  end.

Definition parse_bitfield_type_offset (encoding offset_raw : list Z) : option (Z * Z) :=
  match parse_bitfield_encoding encoding with
  | None => None
  | Some (bit_count, signed) =>
      match parse_bitfield_offset offset_raw with
      | None => None
      | Some (offset, multiply_offset) =>
          match try_validate_bitfield_offset offset bit_count multiply_offset with
          | None => None
          | Some (normalized_offset, _) =>
              Some (if signed then Z.lor 0x80 bit_count else bit_count, normalized_offset)
          end
      end
  end.

Record BitFieldCmdArgs : Type := Args {
  secondary_command : BitFieldSecondaryCommand;
  type_info : Z;
  args_offset : Z;
  args_value : Z;
  overflow_type : Z
}.

(** Width and sign of a [type_info]. *)
Definition encoding_of (type_info : Z) : Z := Z.land type_info 0x7F.
Definition signed_of (type_info : Z) : bool := negb (Z.land type_info 0x80 =? 0).

Definition length_from_type (args : BitFieldCmdArgs) : Z :=
  let end_offset := args_offset args + encoding_of (type_info args) - 1 in
  default 0 (length_in_bytes end_offset).

Definition new_block_alloc_length_from_type (args : BitFieldCmdArgs) (value_len : Z) : Z :=
  Z.max value_len (length_from_type args).

(** ** Overflow *)

(** The tables, for widths up to 64; [SIGNED_MASK] as a bit pattern. *)
Definition UNSIGNED_MAX_VAL (bit_count : Z) : Z := if bit_count =? 0 then 0 else 2 ^ bit_count - 1.
Definition SIGNED_SIGNBIT (bit_count : Z) : Z := if bit_count =? 0 then 0 else 2 ^ (bit_count - 1).
Definition SIGNED_MASK (bit_count : Z) : Z :=
  if bit_count =? 0 then 0 else if bit_count =? 64 then 2 ^ 64 - 1 else 2 ^ (bit_count - 1) - 1.

Definition check_unsigned_bitfield_overflow (value incr_by bit_count overflow_type : Z) : Z * bool :=
  let max_val := UNSIGNED_MAX_VAL bit_count in
  let max_add := wsub 64 max_val value in
  let neg := incr_by <? 0 in
  let abs_incr_by := if neg then wadd 64 (bnot 64 (of_i64 incr_by)) 1 else of_i64 incr_by in
  let overflow := max_add <? abs_incr_by in
  let underflow := (value <? abs_incr_by) && neg in
  let result := if neg then wsub 64 value abs_incr_by else wadd 64 value abs_incr_by in
  let result := Z.land result max_val in
  if overflow_type =? Wrap then if overflow || underflow then (result, true) else (result, false)
  else if overflow_type =? Sat then
    if overflow then (max_val, true) else if underflow then (0, true) else (result, false)
  else if overflow_type =? Fail_ then if overflow || underflow then (0, true) else (result, false)
  else (0, true).

(** [result] is the bit pattern of [value.wrapping_add(incr_by)]. *)
Definition check_signed_bitfield_overflow (value incr_by bit_count overflow_type : Z) : Z * bool :=
  let signbit := SIGNED_SIGNBIT bit_count in
  let mask := SIGNED_MASK bit_count in
  let result := wadd 64 (of_i64 value) (of_i64 incr_by) in
  let underflow := (Z.land result signbit =? 0) && (value <? 0) && (incr_by <? 0) in
  let overflow :=
    if bit_count =? 64 then (to_i64 result <? 0) && (0 <=? value) && (0 <? incr_by)
    else (0 <? Z.land result (bnot 64 mask)) && (0 <=? value) && (0 <? incr_by) in
  if overflow_type =? Wrap then
    if underflow || overflow then
      let res :=
        if bit_count <? 64 then
          if 0 <? Z.land result signbit then Z.lor result (bnot 64 mask) else Z.land result mask
        else result in
      (to_i64 res, true)
    else (to_i64 result, false)
  else if overflow_type =? Sat then
    let max_val := if bit_count =? 64 then i64_max else to_i64 signbit - 1 in
    if overflow then (max_val, true)
    else if underflow then (- max_val - 1, true)
    else (to_i64 result, false)
  else if overflow_type =? Fail_ then if underflow || overflow then (0, true) else (to_i64 result, false)
  else (0, true).

Definition check_bitfield_overflow (value incr_by bit_count overflow_type : Z) (signed : bool) : Z * bool :=
  let '(new_value, overflow) :=
    if signed then check_signed_bitfield_overflow value incr_by bit_count overflow_type
    else
      let '(nv, overflow) := check_unsigned_bitfield_overflow (of_i64 value) incr_by bit_count overflow_type in
      (to_i64 nv, overflow) in
  (new_value, (overflow_type =? Fail_) && overflow).

(** ** Reading and writing a field *)

(** The loop that fills [buf], from the last slot down; [curr] afterwards. *)
Fixpoint fill_buf (slots : nat) (buf value : list Z) (curr cend : Z) : list Z * Z :=
  match slots with
  | O => (buf, curr)
  | S slot =>
      if curr <? cend
      then fill_buf slot (<[slot := byte_at value curr]> buf) value (curr + 1) cend
      else fill_buf slot buf value curr cend
  end.

(** The value, [buf] and [curr]. *)
Definition get_value (value : list Z) (curr cend vend offset encoding : Z) (signed : bool) : Z * list Z * Z :=
  let '(buf, curr) := fill_buf 8 (replicate 8 0) value curr cend in
  let return_value := le_num buf in
  let left := offset - Z.shiftl (Z.shiftr offset 3) 3 in
  let return_value := wrap 64 (Z.shiftl return_value left) in
  let return_value :=
    if 64 - left <? encoding then
      let lsb := if curr <? vend then Z.shiftr (byte_at value curr) (8 - left) else 0 in
      Z.lor return_value lsb
    else return_value in
  let right := 64 - encoding in
  (if signed then Z.shiftr (to_i64 return_value) right else to_i64 (Z.shiftr return_value right), buf, curr).

(** The bitmap; [None] is an index out of range. *)
Definition set_value (buf value : list Z) (curr cend offset encoding unaligned_bits new_value : Z) : option (list Z) :=
  let byte_index_start := Z.shiftr offset 3 in
  let tmp := Z.land (of_i64 new_value) (if encoding =? 64 then 2 ^ 64 - 1 else Z.shiftl 1 encoding - 1) in
  let ninth :=
    if unaligned_bits <? encoding then
      let sbits := encoding - unaligned_bits in
      let smask := Z.shiftl 1 sbits - 1 in
      let keep := 8 - sbits in
      let msb := wrap 8 (Z.shiftl (Z.land tmp smask) keep) in
      match value !! Z.to_nat curr with
      | None => None
      | Some b =>
          let b9 := Z.land b (Z.shiftl 1 keep - 1) in
          Some (<[Z.to_nat curr := Z.lor msb b9]> value, encoding - sbits, sbits, Z.land tmp (bnot 64 smask))
      end
    else Some (value, encoding, 0, tmp) in
  match ninth with
  | None => None
  | Some (value, pbits, sbits, tmp) =>
      let shf := unaligned_bits - encoding in
      let mask := if encoding =? 64 then 2 ^ 64 - 1 else Z.shiftl 1 pbits - 1 in
      let '(tmp, mask) :=
        if shf <? 0
        then (Z.shiftr tmp (- shf), bnot 64 (Z.shiftr (wrap 64 (Z.shiftl mask sbits)) (- shf)))
        else (wrap 64 (Z.shiftl tmp shf), bnot 64 (wrap 64 (Z.shiftl mask shf))) in
      let old_v := le_num buf in
      let tmp := Z.lor (Z.land old_v mask) tmp in
      let curr := byte_index_start in
      if curr <? cend then
        let write_len := Z.min (cend - curr) 8 in
        Some (splice curr (slice 0 write_len (be_bytes 8 tmp)) value)
      else Some value
  end.

Definition get_bitfield (bitmap : list Z) (bitmap_length offset encoding : Z) (signed : bool) : option Z :=
  match try_validate_bitfield_offset offset encoding false with
  | None => None
  | Some (offset, end_offset) =>
      match index offset, index end_offset with
      | Some byte_index_start, Some e =>
          let byte_index_end := e + 1 in
          if bitmap_length <=? byte_index_start then Some 0
          else
            let vend := bitmap_length in
            let cend := Z.min byte_index_end vend in
            let '(v, _, _) := get_value bitmap byte_index_start cend vend offset encoding signed in
            Some v
      | _, _ => None
      end
  end.

(** The value that [write_bitfield] stores and its overflow flag; [None] when a
    [SET] is abandoned. *)
Definition new_field_value (args : BitFieldCmdArgs) (old_value : Z) : option (Z * bool) :=
  let encoding := encoding_of (type_info args) in
  let signed := signed_of (type_info args) in
  match secondary_command args with
  | Set_ =>
      if (overflow_type args =? Fail_)
         && (check_bitfield_overflow old_value 0 encoding (overflow_type args) signed).2
      then None
      else Some (args_value args, false)
  | _ => Some (check_bitfield_overflow old_value (args_value args) encoding (overflow_type args) signed)
  end.

(** What a write returns: nothing ([None] of the code), or value and flag, and
    the bitmap; the outer [None] is an index out of range. *)
Definition write_bitfield (bitmap : list Z) (bitmap_length : Z) (args : BitFieldCmdArgs)
    : option (option (Z * bool) * list Z) :=
  let encoding := encoding_of (type_info args) in
  let signed := signed_of (type_info args) in
  match try_validate_bitfield_offset (args_offset args) encoding false with
  | None => Some (None, bitmap)
  | Some (offset, end_offset) =>
      match index offset, index end_offset with
      | Some byte_index_start, Some e =>
          let byte_index_end := e + 1 in
          if bitmap_length <=? byte_index_start then Some (None, bitmap)
          else
            let vend := bitmap_length in
            let cend := Z.min byte_index_end vend in
            let '(old_value, buf, curr) := get_value bitmap byte_index_start cend vend offset encoding signed in
            match new_field_value args old_value with
            | None => Some (Some (0, true), bitmap)
            | Some (new_value, overflow) =>
                let left := offset - Z.shiftl (Z.shiftr offset 3) 3 in
                match set_value buf bitmap curr cend offset encoding (64 - left) new_value with
                | None => None
                | Some bitmap' =>
                    Some (Some (match secondary_command args with Set_ => (old_value, false) | _ => (new_value, overflow) end),
                          bitmap')
                end
            end
      | _, _ => Some (None, bitmap)
      end
  end.

Definition bit_field_execute (args : BitFieldCmdArgs) (value : list Z) : option (option (Z * bool) * list Z) :=
  match secondary_command args with
  | Get =>
      Some ((fun v => (v, false)) <$>
              get_bitfield value (zlen value) (args_offset args) (encoding_of (type_info args)) (signed_of (type_info args)),
            value)
  | _ => write_bitfield value (zlen value) args
  end.

Definition bit_field_execute_ro (args : BitFieldCmdArgs) (value : list Z) : option Z :=
  match secondary_command args with
  | Get => get_bitfield value (zlen value) (args_offset args) (encoding_of (type_info args)) (signed_of (type_info args))
  | _ => None
  end.

End BitField.
