(* ===== verification/BitmapSpec.v ===== *)
(** * Correctness of the bitmap operations ([wedb/wbitmap/src])

    [bit l j] is bit [j] of the bitmap [l].  Single bits, counting, searching and
    the bitwise operations are related to it. *)

From stdpp Require Import base list numbers option tactics.
From Stdlib Require Import ZArith Lia Bool.
From S2P Require Import Prelude Bytes Num Bitmap.

Module BitmapSpec.
Import Manager.

(** Bit [j], most significant bit of each byte first; clear behind the end. *)
Definition bit (l : list Z) (j : Z) : bool := Z.testbit (byte_at l (j / 8)) (7 - j mod 8).

(** ** Bits and bytes *)

Lemma byte_at_ok l i : bytes_ok l -> fits 8 (byte_at l i).
Proof.
  intros Hl. unfold byte_at. destruct (l !! Z.to_nat i) as [b|] eqn:E; [|by cbn].
  by apply (Forall_lookup_1 _ _ _ _ Hl E).
Qed.

Lemma byte_at_app a b i :
  0 <= i -> byte_at (a ++ b) i = if i <? zlen a then byte_at a i else byte_at b (i - zlen a).
Proof.
  intros Hi. unfold byte_at, zlen. destruct (Z.ltb_spec i (Z.of_nat (length a))).
  - by rewrite lookup_app_l by lia.
  - rewrite lookup_app_r by lia. do 2 f_equal. lia.
Qed.

Lemma bit_app a b j :
  0 <= j -> bit (a ++ b) j = if j <? 8 * zlen a then bit a j else bit b (j - 8 * zlen a).
Proof.
  intros Hj. unfold bit. rewrite byte_at_app by (apply Z.div_pos; lia).
  pose proof (Z.div_mod j 8). pose proof (Z.mod_pos_bound j 8).
  destruct (Z.ltb_spec (j / 8) (zlen a)), (Z.ltb_spec j (8 * zlen a)); try lia; [done|].
  replace ((j - 8 * zlen a) / 8) with (j / 8 - zlen a) by (apply (Z.div_unique _ _ _ (j mod 8)); lia).
  replace ((j - 8 * zlen a) mod 8) with (j mod 8) by (apply (Z.mod_unique _ _ (j / 8 - zlen a)); lia). done.
Qed.

Lemma bit_high l j : 8 * zlen l <= j -> bit l j = false.
Proof.
  intros Hj. unfold bit, byte_at. rewrite lookup_ge_None_2; [apply Z.testbit_0_l|].
  unfold zlen in Hj. pose proof (Z.div_mod j 8). pose proof (Z.mod_pos_bound j 8). lia.
Qed.

Lemma bit_cons_low b l j : 0 <= j < 8 -> bit (b :: l) j = Z.testbit b (7 - j).
Proof. intros Hj. unfold bit. rewrite Z.div_small, Z.mod_small by lia. done. Qed.

Lemma bit_cons_high b l j : 8 <= j -> bit (b :: l) j = bit l (j - 8).
Proof.
  intros Hj. change (b :: l) with ([b] ++ l). rewrite bit_app by lia. change (zlen [b]) with 1.
  destruct (Z.ltb_spec j (8 * 1)); [lia|]. done.
Qed.

Lemma pow256_pow2 (n : nat) : 256 ^ Z.of_nat n = 2 ^ (8 * Z.of_nat n).
Proof. change 256 with (2 ^ 8). rewrite <- Z.pow_mul_r by lia. done. Qed.

(** The bits of a big-endian number. *)
Lemma bit_be_num l j :
  bytes_ok l -> 0 <= j < 8 * zlen l -> Z.testbit (be_num l) (8 * zlen l - 1 - j) = bit l j.
Proof.
  intros Hl. revert j. induction Hl as [|b l Hb Hl IH]; intros j Hj; [unfold zlen in Hj; simpl in Hj; lia|].
  rewrite be_num_cons, pow256_pow2. rewrite zlen_cons in *.
  pose proof (be_num_bound l Hl) as Hr. rewrite pow256_pow2 in Hr.
  change (Z.of_nat (length l)) with (zlen l) in *. pose proof (zlen_nonneg l).
  rewrite <- lor_add by (unfold fits; lia). rewrite Z.lor_spec.
  rewrite <- Z.shiftl_mul_pow2 by lia. rewrite Z.shiftl_spec by lia.
  destruct (Z.lt_ge_cases j 8).
  - rewrite bit_cons_low by lia. rewrite (fits_high (8 * zlen l) (be_num l)) by (unfold fits; lia).
    rewrite orb_false_r. f_equal. lia.
  - rewrite bit_cons_high by lia. rewrite Z.testbit_neg_r by lia. cbn [orb].
    rewrite <- IH by lia. f_equal. lia.
Qed.

Lemma bit_be_bytes n x j : 0 <= j < 8 * Z.of_nat n -> bit (be_bytes n x) j = Z.testbit x (8 * Z.of_nat n - 1 - j).
Proof.
  intros Hj. assert (zlen (be_bytes n x) = Z.of_nat n) as Hz by (unfold zlen; by rewrite length_be_bytes).
  rewrite <- bit_be_num; [|apply be_bytes_ok|lia]. rewrite Hz, be_num_be_bytes, pow256_pow2.
  rewrite Z.mod_pow2_bits_low by lia. done.
Qed.

Lemma bit_slice a b l j :
  0 <= a <= b -> b <= zlen l -> 0 <= j < 8 * (b - a) -> bit (slice a b l) j = bit l (8 * a + j).
Proof.
  intros Ha Hb Hj.
  assert (l = take (Z.to_nat a) l ++ slice a b l ++ drop (Z.to_nat b) l) as E.
  { unfold slice. rewrite <- (take_drop (Z.to_nat a) l) at 1. f_equal.
    rewrite <- (take_drop (Z.to_nat (b - a)) (drop (Z.to_nat a) l)) at 1. f_equal. rewrite drop_drop. f_equal. lia. }
  rewrite E at 2. rewrite bit_app by lia.
  assert (zlen (take (Z.to_nat a) l) = a) as -> by (unfold zlen in *; rewrite length_take; lia).
  destruct (Z.ltb_spec (8 * a + j) (8 * a)); [lia|]. rewrite bit_app by lia. rewrite zlen_slice by lia.
  destruct (Z.ltb_spec (8 * a + j - 8 * a) (8 * (b - a))); [|lia]. f_equal. lia.
Qed.

(** ** Single bits *)

Lemma land_7 j : Z.land j 7 = j mod 8.
Proof. change 7 with (Z.ones 3). by rewrite Z.land_ones. Qed.

Lemma shiftr_3 j : Z.shiftr j 3 = j / 8.
Proof. by rewrite Z.shiftr_div_pow2. Qed.

Lemma land_1_shiftr x k : 0 <= k -> Z.land (Z.shiftr x k) 1 = Z.b2z (Z.testbit x k).
Proof.
  intros Hk. change 1 with (Z.ones 1). rewrite Z.land_ones by lia. change (2 ^ 1) with 2.
  rewrite <- Z.bit0_mod, Z.shiftr_spec by lia. done.
Qed.

Lemma get_bit_bit j l : 0 <= j <= i64_max -> get_bit j l = Z.b2z (bit l j).
Proof.
  intros Hj. unfold get_bit. rewrite shiftr_3, land_7.
  pose proof (Z.div_mod j 8). pose proof (Z.mod_pos_bound j 8). unfold i64_max in Hj.
  rewrite wrap_id by (unfold fits; lia). destruct (Z.leb_spec (zlen l) (j / 8)).
  - by rewrite bit_high by lia.
  - by rewrite land_1_shiftr by lia.
Qed.

Lemma byte_at_insert l i k b :
  0 <= i < zlen l -> 0 <= k -> byte_at (<[Z.to_nat i := b]> l) k = if k =? i then b else byte_at l k.
Proof.
  intros Hi Hk. unfold byte_at, zlen in *. destruct (Z.eqb_spec k i) as [->|].
  - by rewrite list_lookup_insert_eq by lia.
  - by rewrite list_lookup_insert_ne by lia.
Qed.

Lemma bit_insert l i b j :
  0 <= i < zlen l -> 0 <= j ->
  bit (<[Z.to_nat i := b]> l) j = if j / 8 =? i then Z.testbit b (7 - j mod 8) else bit l j.
Proof.
  intros Hi Hj. unfold bit. rewrite byte_at_insert by (try apply Z.div_pos; lia). by destruct (j / 8 =? i).
Qed.

(** Two positions are equal when byte and bit are. *)
Lemma same_position i j : i / 8 = j / 8 -> i mod 8 = j mod 8 -> i = j.
Proof. intros. pose proof (Z.div_mod i 8). pose proof (Z.div_mod j 8). lia. Qed.

(** Setting a bit changes that bit and no other, keeps the length, and
    returns the bit as [get_bit] saw it before. *)
Theorem update_bitmap_correct value offset set :
  0 <= offset < 8 * zlen value -> offset <= i64_max -> 0 <= set <= 1 ->
  exists value', update_bitmap value offset set = Some (value', get_bit offset value) /\
    zlen value' = zlen value /\
    forall j, 0 <= j <= i64_max -> get_bit j value' = if j =? offset then set else get_bit j value.
Proof.
  intros Ho Hm Hs. unfold update_bitmap. rewrite shiftr_3, land_7.
  pose proof (Z.div_mod offset 8 ltac:(lia)) as Hdm. pose proof (Z.mod_pos_bound offset 8 ltac:(lia)) as Hmod.
  set (i := offset / 8) in *. set (k := 7 - offset mod 8).
  rewrite wrap_id by (unfold fits, i64_max in *; lia).
  destruct (value !! Z.to_nat i) as [b|] eqn:E; [|apply lookup_ge_None in E; unfold zlen in *; lia].
  assert (byte_at value i = b) as Hb by (unfold byte_at; by rewrite E).
  rewrite land_1_shiftr, <- Hb by lia. rewrite get_bit_bit by lia.
  eexists. split; [unfold bit; fold i; fold k; done|]. split; [unfold zlen; by rewrite length_insert|].
  intros j Hj. rewrite !get_bit_bit, bit_insert by lia.
  pose proof (Z.div_mod j 8 ltac:(lia)). pose proof (Z.mod_pos_bound j 8 ltac:(lia)).
  destruct (Z.eqb_spec (j / 8) i) as [Ei|]; [|destruct (Z.eqb_spec j offset) as [->|]; [done|done]].
  rewrite Z.lor_spec, Z.land_spec, bnot_spec, wrap_testbit, !Z.shiftl_spec by lia.
  destruct (Z.eqb_spec j offset) as [->|Hne].
  - fold k. rewrite Z.sub_diag. destruct (Z.ltb_spec k 8); [|lia]. cbn [negb andb].
    assert (set = 0 \/ set = 1) as [->| ->] by lia; by rewrite ?andb_false_r.
  - assert (j mod 8 <> offset mod 8) by (intros ?; apply Hne; by apply same_position).
    assert (Z.testbit 1 (7 - j mod 8 - k) = false) as ->.
    { destruct (Z.lt_ge_cases (7 - j mod 8 - k) 0); [by rewrite Z.testbit_neg_r by lia|].
      change 1 with (2 ^ 0). rewrite Z.pow2_bits_false by lia. done. }
    assert (Z.testbit set (7 - j mod 8 - k) = false) as ->.
    { destruct (Z.lt_ge_cases (7 - j mod 8 - k) 0); [by rewrite Z.testbit_neg_r by lia|].
      apply (fits_high 1); unfold fits; lia. }
    destruct (Z.ltb_spec (7 - j mod 8) 8); [|lia]. rewrite ?andb_true_r, ?andb_false_r, ?orb_false_r.
    unfold bit. by rewrite Ei.
Qed.

Lemma update_bitmap_correct_witness :
  exists value', update_bitmap [0; 128] 9 1 = Some (value', 0) /\ zlen value' = 2 /\
    forall j, 0 <= j <= i64_max -> get_bit j value' = if j =? 9 then 1 else get_bit j [0; 128].
Proof. apply (update_bitmap_correct [0; 128] 9 1); [by vm_compute|by vm_compute|lia]. Defined.

(** ** Sums over ranges *)

Definition zrange (f : Z -> Z) (a n : Z) : Z := zsum f (seqZ a n).

Lemma zsum_app {A} (f : A -> Z) l k : zsum f (l ++ k) = zsum f l + zsum f k.
Proof. induction l as [|x l IH]; [done|]. unfold zsum in *. cbn [app foldr]. lia. Qed.

Lemma zrange_empty f a n : n <= 0 -> zrange f a n = 0.
Proof. intros Hn. unfold zrange. by rewrite seqZ_nil. Qed.

Lemma zrange_split f a n m : 0 <= n -> 0 <= m -> zrange f a (n + m) = zrange f a n + zrange f (a + n) m.
Proof. intros. unfold zrange. by rewrite seqZ_app, zsum_app. Qed.

Lemma zrange_ext f g a n : (forall j, a <= j < a + n -> f j = g j) -> zrange f a n = zrange g a n.
Proof. intros Hfg. apply zsum_ext. intros j Hj%list_elem_of_In. apply Hfg. by apply elem_of_seqZ in Hj. Qed.

Lemma zrange_zero f a n : (forall j, a <= j < a + n -> f j = 0) -> zrange f a n = 0.
Proof. intros Hf. apply zsum_zero. intros j Hj%list_elem_of_In. apply Hf. by apply elem_of_seqZ in Hj. Qed.

Lemma zrange_shift f a b n : zrange f (a + b) n = zrange (fun j => f (a + j)) b n.
Proof. unfold zrange. rewrite <- fmap_add_seqZ. apply zsum_map. Qed.

(** Only the window of a longer range counts. *)
Lemma zrange_window f n a b :
  0 <= a <= b -> b <= n ->
  zrange (fun j => if (a <=? j) && (j <? b) then f j else 0) 0 n = zrange f a (b - a).
Proof.
  intros Ha Hb. replace n with (a + ((b - a) + (n - b))) by lia. rewrite !zrange_split by lia.
  rewrite (zrange_zero _ 0 a), (zrange_zero _ (0 + a + (b - a))).
  - rewrite Z.add_0_r, !Z.add_0_l. apply zrange_ext. intros j Hj.
    destruct (Z.leb_spec a j), (Z.ltb_spec j b); (done || lia).
  - intros j Hj. destruct (Z.leb_spec a j), (Z.ltb_spec j b); (done || lia).
  - intros j Hj. destruct (Z.leb_spec a j), (Z.ltb_spec j b); (done || lia).
Qed.

(** ** Counting *)

Definition bit_z (l : list Z) (j : Z) : Z := Z.b2z (bit l j).
(** The set bits of [n] bytes from byte [c]. *)
Definition byte_sum (l : list Z) (c n : Z) : Z := zrange (bit_z l) (8 * c) (8 * n).

Lemma byte_sum_split l c n m : 0 <= n -> 0 <= m -> byte_sum l c (n + m) = byte_sum l c n + byte_sum l (c + n) m.
Proof.
  intros. unfold byte_sum. replace (8 * (n + m)) with (8 * n + 8 * m) by lia. rewrite zrange_split by lia.
  do 2 f_equal. lia.
Qed.

Lemma count_ones_split n m x :
  count_ones (n + m) x = count_ones n x + count_ones m (Z.shiftr x (Z.of_nat n)).
Proof.
  unfold count_ones. rewrite seq_app, zsum_app. f_equal. cbn [Nat.add].
  replace (seq n m) with (map (Nat.add n) (seq 0 m))
    by (rewrite (fmap_add_seq n 0 m : map _ _ = _); f_equal; lia).
  rewrite zsum_map. apply zsum_ext. intros i _. rewrite Z.shiftr_spec by lia. do 2 f_equal. lia.
Qed.

Lemma count_ones_low n x y : x mod 2 ^ Z.of_nat n = y mod 2 ^ Z.of_nat n -> count_ones n x = count_ones n y.
Proof.
  intros E. apply zsum_ext. intros i Hi%in_seq.
  rewrite <- (Z.mod_pow2_bits_low x (Z.of_nat n)), <- (Z.mod_pow2_bits_low y (Z.of_nat n)) by lia. by rewrite E.
Qed.

Lemma count_ones_le_num bs : bytes_ok bs -> count_ones (8 * length bs) (le_num bs) = zsum (count_ones 8) bs.
Proof.
  induction 1 as [|b bs Hb Hbs IH]; [done|]. cbn [length le_num].
  replace (8 * S (length bs))%nat with (8 + 8 * length bs)%nat by lia. rewrite count_ones_split.
  unfold fits in Hb. change (2 ^ 8) with 256 in Hb. change (zsum (count_ones 8) (b :: bs)) with (count_ones 8 b + zsum (count_ones 8) bs).
  f_equal.
  - apply count_ones_low. change (2 ^ Z.of_nat 8) with 256. rewrite Z.mul_comm, Z.mod_add by lia. done.
  - rewrite <- IH. f_equal. rewrite Z.shiftr_div_pow2 by lia. change (2 ^ Z.of_nat 8) with 256.
    rewrite Z.mul_comm, Z.div_add, Z.div_small by lia. lia.
Qed.

Lemma count_ones_byte l i : 0 <= i -> count_ones 8 (byte_at l i) = byte_sum l i 1.
Proof.
  intros Hi. unfold byte_sum, zrange. change (8 * 1) with 8.
  assert (forall r, 0 <= r < 8 -> bit_z l (8 * i + r) = Z.b2z (Z.testbit (byte_at l i) (7 - r))) as Hb.
  { intros r Hr. unfold bit_z, bit. replace ((8 * i + r) / 8) with i by (apply (Z.div_unique _ _ _ r); lia).
    replace ((8 * i + r) mod 8) with r by (apply (Z.mod_unique _ _ i); lia). done. }
  replace (8 * i) with (8 * i + 0) by lia. change (zsum (bit_z l) (seqZ (8 * i + 0) 8)) with (zrange (bit_z l) (8 * i + 0) 8).
  rewrite zrange_shift. rewrite (zrange_ext _ _ 0 8 (fun r Hr => Hb r ltac:(lia))).
  set (f := fun k => Z.b2z (Z.testbit (byte_at l i) k)).
  change (f 0 + (f 1 + (f 2 + (f 3 + (f 4 + (f 5 + (f 6 + (f 7 + 0))))))) =
          f 7 + (f 6 + (f 5 + (f 4 + (f 3 + (f 2 + (f 1 + (f 0 + 0)))))))). lia.
Qed.

Lemma slice_cons l c n : 0 <= c -> 0 < n -> c < zlen l -> slice c (c + n) l = byte_at l c :: slice (c + 1) (c + n) l.
Proof.
  intros Hc Hn Hl. unfold slice, byte_at, zlen in *.
  replace (Z.to_nat (c + n - c)) with (S (Z.to_nat (c + n - (c + 1)))) by lia.
  destruct (lookup_lt_is_Some_2 l (Z.to_nat c)) as [b Hb]; [lia|]. rewrite Hb.
  rewrite (drop_S _ _ _ Hb). cbn [take]. do 3 f_equal. lia.
Qed.

Lemma zsum_slice l c n : 0 <= c -> 0 <= n -> c + n <= zlen l -> zsum (count_ones 8) (slice c (c + n) l) = byte_sum l c n.
Proof.
  intros Hc Hn. revert c Hc. pattern n. apply natlike_ind; [|clear n Hn; intros n Hn IH|done]; intros c Hc Hl.
  - unfold slice. replace (Z.to_nat (c + 0 - c)) with 0%nat by lia. unfold byte_sum. by rewrite zrange_empty by lia.
  - rewrite slice_cons by lia. replace (Z.succ n) with (1 + n) by lia. rewrite byte_sum_split by lia.
    change (count_ones 8 (byte_at l c) + zsum (count_ones 8) (slice (c + 1) (c + (1 + n)) l) = byte_sum l c 1 + byte_sum l (c + 1) n).
    rewrite count_ones_byte by lia. f_equal. rewrite <- (IH (c + 1)) by lia. do 2 f_equal. lia.
Qed.

Lemma count_ones_u64 l c : bytes_ok l -> 0 <= c -> c + 8 <= zlen l -> count_ones 64 (BitCount.u64_read l c) = byte_sum l c 8.
Proof.
  intros Hl Hc Hb. unfold BitCount.u64_read. rewrite <- zsum_slice by lia. rewrite <- count_ones_le_num by auto with wedb.
  pose proof (zlen_slice c (c + 8) l ltac:(lia) Hb) as Hz. unfold zlen in Hz.
  replace (length (slice c (c + 8) l)) with 8%nat by lia. done.
Qed.

Lemma batches_sum f l step (k fuel : nat) curr vend count :
  0 < step -> 0 <= curr -> vend = curr + step * Z.of_nat k -> (k <= fuel)%nat ->
  (forall c, curr <= c -> c + step <= vend -> f c = byte_sum l c step) ->
  BitCount.batches fuel f step curr vend count = (vend, count + byte_sum l curr (vend - curr)).
Proof.
  intros Hs. revert curr count fuel. induction k as [|k IH]; intros curr count fuel Hc Hv Hf Hfc.
  - assert (vend = curr) as -> by lia. unfold byte_sum. rewrite zrange_empty, Z.add_0_r by lia.
    destruct fuel; cbn [BitCount.batches]; [done|]. destruct (Z.ltb_spec curr curr); [lia|done].
  - destruct fuel as [|fuel]; [lia|]. cbn [BitCount.batches]. destruct (Z.ltb_spec curr vend); [|lia].
    rewrite IH; [|lia|lia|lia|intros; apply Hfc; lia]. rewrite Hfc by lia. f_equal.
    replace (vend - curr) with (step + (vend - (curr + step))) by lia. rewrite byte_sum_split by lia. lia.
Qed.

(** A loop over whole batches, then the rest. *)
Lemma batches_mod f l step len curr count :
  bytes_ok l -> 0 < step -> 0 <= curr -> 0 <= len ->
  (forall c, curr <= c -> c + step <= curr + len -> f c = byte_sum l c step) ->
  let vend := curr + (len - len mod step) in
  BitCount.batches (Z.to_nat len) f step curr vend count = (vend, count + byte_sum l curr (len - len mod step)).
Proof.
  intros Hl Hs Hc Hlen Hf vend. pose proof (Z.div_mod len step ltac:(lia)) as Hd.
  pose proof (Z.mod_pos_bound len step Hs). pose proof (Z.div_pos len step Hlen Hs).
  replace (len - len mod step) with (vend - curr) by (subst vend; lia).
  apply (batches_sum f l step (Z.to_nat (len / step))); [done|done|subst vend; nia|nia|].
  intros c Hc1 Hc2. apply Hf; [done|subst vend; lia].
Qed.

Lemma popc_tail_sum l c n : 0 <= c -> 0 <= n -> c + n <= zlen l -> BitCount.popc_tail l c n = byte_sum l c n.
Proof.
  intros Hc Hn Hl. unfold BitCount.popc_tail. destruct (Z.eqb_spec n 0) as [->|]; [|by apply zsum_slice].
  unfold byte_sum. by rewrite zrange_empty.
Qed.

Lemma popc_4x8_sum l c : bytes_ok l -> 0 <= c -> c + 32 <= zlen l -> BitCount.popc_4x8 l c = byte_sum l c 32.
Proof.
  intros Hl Hc Hb. unfold BitCount.popc_4x8. rewrite !count_ones_u64 by (done || lia).
  change 32 with (8 + (8 + (8 + 8))). rewrite !byte_sum_split by lia.
  replace (c + 16) with (c + 8 + 8) by lia. replace (c + 24) with (c + 8 + 8 + 8) by lia. lia.
Qed.

Lemma popc_u64_span_sum l curr len :
  bytes_ok l -> 0 <= curr -> 0 <= len -> curr + len <= zlen l ->
  BitCount.popc_u64_span l curr len = byte_sum l curr len.
Proof.
  intros Hl Hc Hn Hb. unfold BitCount.popc_u64_span, BitCount.BATCH_4X8. change (8 * 4) with 32.
  rewrite (batches_mod _ l); [|done|lia|lia|lia|intros; apply popc_4x8_sum; (done || lia)].
  pose proof (Z.mod_pos_bound len 32 ltac:(lia)) as H32. pose proof (Z.mod_le len 32 Hn ltac:(lia)).
  set (t := len mod 32) in *.
  rewrite (batches_mod _ l); [|done|lia|lia|lia|intros; apply count_ones_u64; (done || lia)].
  pose proof (Z.mod_pos_bound t 8 ltac:(lia)). pose proof (Z.mod_le t 8 ltac:(lia) ltac:(lia)).
  rewrite popc_tail_sum by lia. replace len with ((len - t) + ((t - t mod 8) + t mod 8)) at 4 by lia.
  rewrite !byte_sum_split by lia. lia.
Qed.

Lemma popc_chunks_sum (n : nat) bs : bytes_ok bs -> length bs = (8 * n)%nat -> BitCount.popc_chunks n bs = zsum (count_ones 8) bs.
Proof.
  revert bs. induction n as [|n IH]; intros bs Hb Hl; [by destruct bs|]. cbn [BitCount.popc_chunks].
  rewrite IH by (try apply Forall_drop; rewrite ?length_drop; done || lia).
  pose proof (count_ones_le_num (take 8 bs) ltac:(by apply Forall_take)) as Hc.
  rewrite length_take in Hc. replace (8 * (8 `min` length bs))%nat with 64%nat in Hc by lia. rewrite Hc.
  rewrite <- zsum_app. by rewrite take_drop.
Qed.

Lemma popc_bytes_sum l c (n : nat) :
  bytes_ok l -> 0 <= c -> c + 8 * Z.of_nat n <= zlen l ->
  BitCount.popc_bytes l c (8 * Z.of_nat n) = byte_sum l c (8 * Z.of_nat n).
Proof.
  intros Hl Hc Hb. unfold BitCount.popc_bytes. rewrite <- zsum_slice by lia.
  replace (Z.to_nat (8 * Z.of_nat n / 8)) with n by (rewrite Z.mul_comm, Z.div_mul by lia; lia).
  apply popc_chunks_sum; [auto with wedb|]. pose proof (zlen_slice c (c + 8 * Z.of_nat n) l) as Hz. unfold zlen in *. lia.
Qed.

Lemma simd_popc_sum l start stop :
  bytes_ok l -> 0 <= start <= stop -> stop < zlen l ->
  BitCount.simd_popc_x256 l start stop = byte_sum l start (stop - start + 1).
Proof.
  intros Hl Hs Hb. unfold BitCount.simd_popc_x256. set (len := stop - start + 1).
  change (8 * 32) with 256. change (256 - 1) with (Z.ones 8). change (32 - 1) with (Z.ones 5).
  rewrite !Z.land_ones by lia. change (2 ^ 8) with 256. change (2 ^ 5) with 32.
  rewrite (batches_mod _ l); [|done|lia|lia|lia|intros c ? ?; apply (popc_bytes_sum l c 32); (done || lia)].
  pose proof (Z.mod_pos_bound len 256 ltac:(lia)). pose proof (Z.mod_le len 256 ltac:(lia) ltac:(lia)).
  set (t := len mod 256) in *. destruct (Z.eqb_spec t 0) as [Ht|Ht]; [rewrite Z.add_0_l; f_equal; lia|].
  rewrite (batches_mod _ l); [|done|lia|lia|lia|intros c ? ?; apply (popc_bytes_sum l c 4); (done || lia)].
  pose proof (Z.mod_pos_bound t 32 ltac:(lia)). pose proof (Z.mod_le t 32 ltac:(lia) ltac:(lia)).
  assert (byte_sum l start len = byte_sum l start (len - t) + (byte_sum l (start + (len - t)) (t - t mod 32)
    + byte_sum l (start + (len - t) + (t - t mod 32)) (t mod 32))) as ->.
  { rewrite <- byte_sum_split by lia. rewrite <- byte_sum_split by lia. f_equal. lia. }
  destruct (Z.eqb_spec (t mod 32) 0) as [E|].
  - rewrite E. unfold byte_sum at 5. rewrite zrange_empty by lia. lia.
  - rewrite popc_u64_span_sum by (done || lia). lia.
Qed.

Lemma bit_count_bytes_sum l start stop count :
  bytes_ok l -> 0 <= start <= stop -> stop < zlen l ->
  BitCount.bit_count_bytes l start stop count = count + byte_sum l start (stop - start + 1).
Proof.
  intros Hl Hs Hb. unfold BitCount.bit_count_bytes, BitCount.scalar_popc.
  destruct (stop - start <? 128); [rewrite popc_u64_span_sum by (done || lia)|rewrite simd_popc_sum by done]; done.
Qed.

(** ** Bits of a part of a byte *)

Lemma mask_loop_spec (n : nat) i m k :
  0 <= i -> i + Z.of_nat n <= 8 -> 0 <= k ->
  Z.testbit (mask_loop n i m) k = Z.testbit m k || ((7 - i - Z.of_nat n <? k) && (k <=? 7 - i)).
Proof.
  revert i m. induction n as [|n IH]; intros i m Hi Hn Hk; cbn [mask_loop].
  - destruct (Z.ltb_spec (7 - i - Z.of_nat 0) k), (Z.leb_spec k (7 - i)); try lia; by rewrite ?orb_false_r.
  - rewrite IH by lia. rewrite Z.lor_spec. change (Z.shiftl 1 (7 - i)) with (Z.shiftl 1 (7 - i)).
    rewrite Z.shiftl_1_l, Z.pow2_bits_eqb by lia.
    destruct (Z.testbit m k), (Z.eqb_spec (7 - i) k), (Z.ltb_spec (7 - (i + 1) - Z.of_nat n) k),
      (Z.leb_spec k (7 - (i + 1))), (Z.ltb_spec (7 - i - Z.of_nat (S n)) k), (Z.leb_spec k (7 - i)); (done || lia).
Qed.

Lemma mask_spec s e k :
  0 <= s <= e -> e <= 8 -> 0 <= k ->
  Z.testbit (BIT_RANGE_MASKS s e) k = (8 - e <=? k) && (k <? 8 - s).
Proof.
  intros Hs He Hk. unfold BIT_RANGE_MASKS. destruct (Z.ltb_spec s e).
  - rewrite mask_loop_spec, Z.testbit_0_l by lia. cbn [orb].
    destruct (Z.ltb_spec (7 - s - Z.of_nat (Z.to_nat (e - s))) k), (Z.leb_spec k (7 - s)),
      (Z.leb_spec (8 - e) k), (Z.ltb_spec k (8 - s)); (done || lia).
  - rewrite Z.testbit_0_l. destruct (Z.leb_spec (8 - e) k), (Z.ltb_spec k (8 - s)); (done || lia).
Qed.

Lemma bit_index_count_sum l i s e :
  0 <= i -> 0 <= s <= e -> e <= 8 ->
  BitCount.bit_index_count (byte_at l i) s e = zrange (bit_z l) (8 * i + s) (e - s).
Proof.
  intros Hi Hs He. unfold BitCount.bit_index_count.
  destruct (Z.ltb_spec 8 s), (Z.ltb_spec 8 e); try lia. cbn [orb].
  set (x := Z.land (BIT_RANGE_MASKS s e) (byte_at l i)).
  change (count_ones 8 x) with (count_ones 8 (byte_at [x] 0)). rewrite count_ones_byte by lia.
  unfold byte_sum. change (8 * 0) with 0. change (8 * 1) with 8.
  rewrite zrange_shift, <- (zrange_window _ 8 s e) by lia. apply zrange_ext. intros j Hj.
  unfold bit_z. rewrite bit_cons_low by lia. unfold x. rewrite Z.land_spec, mask_spec by lia. unfold bit.
  replace ((8 * i + j) / 8) with i by (apply (Z.div_unique _ _ _ j); lia).
  replace ((8 * i + j) mod 8) with j by (apply (Z.mod_unique _ _ i); lia).
  destruct (Z.leb_spec (8 - e) (7 - j)), (Z.ltb_spec (7 - j) (8 - s)), (Z.leb_spec s j), (Z.ltb_spec j e); (done || lia).
Qed.

(** ** Ranges *)

(** The limit of offsets, and an offset counted from the start. *)
Definition limit_of (offset_type len : Z) : Z := if offset_type =? OFFSET_UNIT_BIT then len * 8 else len.
Definition resolve (limit o : Z) : Z := if o <? 0 then Z.max 0 (limit + o) else o.
(** The unit of bit [j]. *)
Definition unit_of (offset_type j : Z) : Z := if offset_type =? OFFSET_UNIT_BIT then j else j / 8.

(** Bit [j] lies between the two offsets. *)
Definition selected (offset_type start stop len j : Z) : bool :=
  (resolve (limit_of offset_type len) start <=? unit_of offset_type j)
  && (unit_of offset_type j <=? resolve (limit_of offset_type len) stop).

Lemma process_negative_resolve limit o : 0 <= limit ->
  (if o <? 0 then process_negative_offset o limit else o) = resolve limit o.
Proof.
  intros Hl. unfold resolve, process_negative_offset. destruct (Z.ltb_spec o 0); [|done].
  destruct (Z.leb_spec limit 0), (Z.leb_spec o (- limit)); cbn [orb]; lia.
Qed.

Lemma unit_bounds ot len j : 0 <= j < 8 * len -> 0 <= unit_of ot j < limit_of ot len.
Proof. intros Hj. unfold unit_of, limit_of. destruct (ot =? OFFSET_UNIT_BIT); [lia|]. pose proof (Z.div_mod j 8). pose proof (Z.mod_pos_bound j 8). lia. Qed.

(** What [normalize_scan_range] computes. *)
Lemma normalize_spec ot start stop len :
  0 <= len ->
  match normalize_scan_range ot start stop len with
  | None => forall j, 0 <= j < 8 * len -> selected ot start stop len j = false
  | Some (a, b) => 0 <= a <= b /\ b < limit_of ot len /\
      forall j, 0 <= j < 8 * len -> selected ot start stop len j = (a <=? unit_of ot j) && (unit_of ot j <=? b)
  end.
Proof.
  intros Hlen. unfold normalize_scan_range. fold (limit_of ot len).
  assert (0 <= limit_of ot len) as Hlim by (unfold limit_of; destruct (ot =? OFFSET_UNIT_BIT); lia).
  rewrite !process_negative_resolve by done. unfold selected.
  assert (forall o, 0 <= resolve (limit_of ot len) o) as Hr by (intros o; unfold resolve; destruct (Z.ltb_spec o 0); lia).
  pose proof (Hr start) as Ha. pose proof (Hr stop) as Hb. clear Hr.
  set (a := resolve _ start) in *. set (b := resolve _ stop) in *.
  destruct (Z.leb_spec (limit_of ot len) b), (Z.leb_spec (limit_of ot len) a); cbn [orb];
    (try match goal with |- context [if ?x <? ?y then _ else _] => destruct (Z.ltb_spec x y) end); try lia.
  all: try split; try lia; try split; try lia; intros j Hj; pose proof (unit_bounds ot len j Hj).
  all: repeat match goal with |- context [?x <=? ?y] => destruct (Z.leb_spec x y) end; (done || lia).
Qed.

(** The bits that [BITCOUNT] counts. *)
Definition count_spec (ot start stop : Z) (value : list Z) : Z :=
  if (start <? 0) && (stop <? 0) && (stop <? start) then 0
  else zrange (fun j => if selected ot start stop (zlen value) j then bit_z value j else 0) 0 (8 * zlen value).

Lemma bit_range_count value a b :
  bytes_ok value -> 0 <= a <= b -> b < 8 * zlen value ->
  (let count := BitCount.bit_index_count_range value a b in
   if b / 8 - 1 <? a / 8 + 1 then count else BitCount.bit_count_bytes value (a / 8 + 1) (b / 8 - 1) count) =
  zrange (bit_z value) a (b - a + 1).
Proof.
  intros Hv Hab Hb. cbv zeta. unfold BitCount.bit_index_count_range. rewrite !land_7.
  pose proof (Z.div_mod a 8 ltac:(lia)). pose proof (Z.mod_pos_bound a 8 ltac:(lia)).
  pose proof (Z.div_mod b 8 ltac:(lia)). pose proof (Z.mod_pos_bound b 8 ltac:(lia)).
  set (i := a / 8) in *. set (k := b / 8) in *. set (s := a mod 8) in *. set (e := b mod 8) in *.
  destruct (Z.eqb_spec i k) as [Ek|Hne].
  - destruct (Z.ltb_spec (k - 1) (i + 1)); [|lia]. rewrite bit_index_count_sum by lia. f_equal; lia.
  - rewrite !bit_index_count_sum by lia.
    assert (zrange (bit_z value) a (b - a + 1) =
      zrange (bit_z value) (8 * i + s) (8 - s) + (byte_sum value (i + 1) (k - i - 1) + zrange (bit_z value) (8 * k + 0) (e + 1 - 0))) as ->.
    { replace (b - a + 1) with ((8 - s) + (8 * (k - i - 1) + (e + 1 - 0))) by lia. rewrite !zrange_split by lia.
      unfold byte_sum. f_equal; [f_equal; lia|]. f_equal; f_equal; lia. }
    destruct (Z.ltb_spec (k - 1) (i + 1)).
    + unfold byte_sum. rewrite (zrange_empty _ (8 * (i + 1))) by lia. lia.
    + rewrite bit_count_bytes_sum by (done || lia). replace (k - 1 - (i + 1) + 1) with (k - i - 1) by lia. lia.
Qed.

(** [BITCOUNT] counts exactly the set bits between the two offsets, in bytes
    or in bits, negative offsets counting from the end: the counting of whole
    64-bit words, of batches of 32 and 256 bytes and of parts of bytes together
    equals the count bit by bit. *)
Theorem bit_count_correct start stop ot value :
  bytes_ok value ->
  BitCount.bit_count_driver start stop ot value (zlen value) = count_spec ot start stop value.
Proof.
  intros Hv. unfold BitCount.bit_count_driver, count_spec. destruct ((start <? 0) && (stop <? 0) && (stop <? start)); [done|].
  pose proof (normalize_spec ot start stop (zlen value) (zlen_nonneg value)) as Hn.
  destruct (normalize_scan_range ot start stop (zlen value)) as [[a b]|].
  2:{ symmetry. apply zrange_zero. intros j Hj. by rewrite Hn by lia. }
  destruct Hn as (Hab & Hb & Hsel).
  rewrite (zrange_ext _ (fun j => if (a <=? unit_of ot j) && (unit_of ot j <=? b) then bit_z value j else 0))
    by (intros j Hj; by rewrite Hsel by lia).
  unfold limit_of, unit_of in *. destruct (Z.eqb_spec ot OFFSET_UNIT_BIT).
  - pose proof (bit_range_count value a b Hv Hab ltac:(lia)) as Hc. cbv zeta in Hc. rewrite Hc.
    replace (b - a + 1) with (b + 1 - a) by lia. rewrite <- (zrange_window _ (8 * zlen value) a (b + 1)) by lia.
    apply zrange_ext. intros j Hj. repeat match goal with |- context [?x <=? ?y] => destruct (Z.leb_spec x y) end;
      destruct (Z.ltb_spec j (b + 1)); (done || lia).
  - rewrite bit_count_bytes_sum by done. unfold byte_sum.
    replace (8 * (b - a + 1)) with (8 * (b + 1) - 8 * a) by lia.
    rewrite Z.add_0_l, <- (zrange_window _ (8 * zlen value) (8 * a) (8 * (b + 1))) by lia.
    apply zrange_ext. intros j Hj. pose proof (Z.div_mod j 8). pose proof (Z.mod_pos_bound j 8).
    repeat match goal with |- context [?x <=? ?y] => destruct (Z.leb_spec x y) end;
      destruct (Z.ltb_spec j (8 * (b + 1))); (done || lia).
Qed.

Lemma bit_count_correct_witness :
  BitCount.bit_count_driver 7 (-8) 1 [1; 255; 128] 3 = count_spec 1 7 (-8) [1; 255; 128].
Proof. apply (bit_count_correct 7 (-8) 1 [1; 255; 128]). repeat constructor; by vm_compute. Defined.

End BitmapSpec.
