(* ===== verification/BitPosSpec.v ===== *)
(** * Correctness of searching a bitmap ([wedb/wbitmap/src/bit_pos.rs]) *)

From stdpp Require Import base list numbers option tactics.
From Stdlib Require Import ZArith Lia Bool.
From S2P Require Import Prelude Bytes Num Bitmap BitmapSpec.

Module BitPosSpec.
Import Manager BitPos BitmapSpec.

(** ** The first bit of a word *)

Lemma leading_zeros_first w x :
  0 < w -> fits w x -> x <> 0 ->
  let p := leading_zeros w x in
  0 <= p < w /\ Z.testbit x (w - 1 - p) = true /\ forall q, 0 <= q < p -> Z.testbit x (w - 1 - q) = false.
Proof.
  intros Hw Hx Hne. unfold leading_zeros. destruct (Z.eqb_spec x 0); [done|]. unfold fits in Hx. cbv zeta.
  pose proof (Z.log2_nonneg x). pose proof (proj1 (Z.log2_lt_pow2 x w ltac:(lia)) ltac:(lia)).
  split; [lia|]. replace (w - 1 - (w - 1 - Z.log2 x)) with (Z.log2 x) by lia.
  split; [apply Z.bit_log2; lia|]. intros q Hq. apply Z.bits_above_log2; lia.
Qed.

Lemma bnot_eq_0 w x : 0 <= w -> fits w x -> bnot w x = 0 -> x = 2 ^ w - 1.
Proof.
  intros Hw Hx E. rewrite Z.sub_1_r, <- Z.ones_equiv. apply Z.bits_inj'. intros i Hi.
  rewrite ones_testbit by lia. destruct (Z.ltb_spec i w).
  - pose proof (f_equal (fun y => Z.testbit y i) E) as Hb. cbn beta in Hb.
    rewrite bnot_spec, Z.testbit_0_l in Hb by lia. destruct (Z.ltb_spec i w); [|lia].
    destruct (Z.testbit x i); [by rewrite ?andb_true_r|done].
  - rewrite (fits_high w x) by (done || lia). by rewrite ?andb_false_r.
Qed.

(** [first_hit] finds the first bit, from the top, that is the one sought. *)
Lemma first_hit_first w x sb :
  0 < w -> fits w x -> x <> invalid_word w sb ->
  let p := first_hit w x sb in
  0 <= p < w /\ Z.testbit x (w - 1 - p) = sb /\ forall q, 0 <= q < p -> Z.testbit x (w - 1 - q) = negb sb.
Proof.
  intros Hw Hx Hne. unfold first_hit, invalid_word in *. destruct sb.
  - by apply leading_zeros_first.
  - destruct (leading_zeros_first w (bnot w x)) as (H1 & H2 & H3);
      [done|by apply fits_bnot; lia|intros E; apply Hne; apply bnot_eq_0; (done || lia)|].
    cbv zeta. set (p := leading_zeros w (bnot w x)) in *. rewrite bnot_spec in H2 by lia.
    split; [done|]. split.
    + destruct (Z.testbit x (w - 1 - p)); [|done]. by rewrite ?andb_false_r in H2.
    + intros q Hq. specialize (H3 q Hq). rewrite bnot_spec in H3 by lia.
      destruct (Z.ltb_spec (w - 1 - q) w); [|lia]. by destruct (Z.testbit x (w - 1 - q)).
Qed.

Lemma invalid_word_bits w sb i : 0 <= i < w -> Z.testbit (invalid_word w sb) i = negb sb.
Proof.
  intros Hi. unfold invalid_word. destruct sb; [apply Z.testbit_0_l|].
  rewrite Z.sub_1_r, <- Z.ones_equiv, ones_testbit by lia. destruct (Z.ltb_spec i w); [done|lia].
Qed.

(** ** Searching bytes *)

(** The outcome of a search of the bits [a, b) for [sb]: the first such bit. *)
Definition found (l : list Z) (sb : bool) (a b : Z) (r : option Z) : Prop :=
  match r with
  | Some p => a <= p < b /\ bit l p = sb /\ forall j, a <= j < p -> bit l j = negb sb
  | None => forall j, a <= j < b -> bit l j = negb sb
  end.

Lemma found_skip l sb a m b r :
  a <= m <= b -> found l sb a m None -> found l sb m b r -> found l sb a b r.
Proof.
  intros Hm Hn. destruct r as [p|]; cbn.
  - intros (Hp & Hb & Hq). split; [lia|]. split; [done|]. intros j Hj.
    destruct (Z.lt_ge_cases j m); [apply Hn; lia|apply Hq; lia].
  - intros Hq j Hj. destruct (Z.lt_ge_cases j m); [apply Hn; lia|apply Hq; lia].
Qed.

Lemma found_hit l sb a m b p : a <= m <= b -> found l sb a m (Some p) -> found l sb a b (Some p).
Proof. intros Hm (Hp & Hb & Hq). split; [lia|]. done. Qed.

Lemma shiftl_3 c : Z.shiftl c 3 = 8 * c.
Proof. rewrite Z.shiftl_mul_pow2 by lia. lia. Qed.

(** A word of [n] bytes: hit or skip. *)
Lemma word_search l c n sb :
  bytes_ok l -> 0 <= c -> 0 < n -> c + n <= zlen l ->
  let payload := be_num (slice c (c + n) l) in
  found l sb (8 * c) (8 * (c + n))
    (if negb (payload =? invalid_word (8 * n) sb)
     then Some (Z.shiftl c 3 + first_hit (8 * n) payload sb) else None).
Proof.
  intros Hl Hc Hn Hb. set (ws := slice c (c + n) l).
  assert (zlen ws = n) as Hz by (unfold ws; rewrite zlen_slice; lia).
  assert (bytes_ok ws) as Hok by (unfold ws; auto with wedb).
  assert (forall q, 0 <= q < 8 * n -> Z.testbit (be_num ws) (8 * n - 1 - q) = bit l (8 * c + q)) as Hbit.
  { intros q Hq. rewrite <- Hz at 1. rewrite bit_be_num by (done || lia). unfold ws. by rewrite bit_slice by lia. }
  cbv zeta. destruct (Z.eqb_spec (be_num ws) (invalid_word (8 * n) sb)) as [E|Hne]; cbn [negb found].
  - intros j Hj. replace j with (8 * c + (j - 8 * c)) by lia. rewrite <- Hbit by lia. rewrite E.
    apply invalid_word_bits. lia.
  - destruct (first_hit_first (8 * n) (be_num ws) sb) as (H1 & H2 & H3); [lia| |done|].
    { pose proof (be_num_bound ws Hok) as Hbd. rewrite pow256_pow2 in Hbd. change (Z.of_nat (length ws)) with (zlen ws) in Hbd.
      rewrite Hz in Hbd. exact Hbd. }
    rewrite shiftl_3. cbv zeta in *. set (p := first_hit _ _ _) in *. split; [lia|].
    split; [by rewrite <- Hbit by lia|]. intros j Hj. replace j with (8 * c + (j - 8 * c)) by lia.
    rewrite <- Hbit by lia. apply H3. lia.
Qed.

(** A 64-bit word whose first [n] bits are those of the bitmap from [a] on, one of
    them the bit sought. *)
Lemma shifted_search l y a n sb :
  fits 64 y -> 0 < n <= 64 -> (forall q, 0 <= q < n -> Z.testbit y (63 - q) = bit l (a + q)) ->
  (exists q, 0 <= q < n /\ bit l (a + q) = sb) ->
  found l sb a (a + n) (Some (a + first_hit 64 y sb)).
Proof.
  intros Hy Hn Hbit (q0 & Hq0 & Hs). destruct (first_hit_first 64 y sb) as (H1 & H2 & H3); [lia|done| |].
  { intros E. rewrite <- (Hbit q0 Hq0), E, invalid_word_bits in Hs by lia. by destruct sb. }
  cbv zeta in *. set (p := first_hit 64 y sb) in *. change (64 - 1) with 63 in *.
  assert (p <= q0) as Hp.
  { destruct (Z.le_gt_cases p q0); [done|]. specialize (H3 q0 ltac:(lia)). rewrite Hbit, Hs in H3 by lia. by destruct sb. }
  split; [lia|]. split; [by rewrite <- Hbit by lia|]. intros j Hj. replace j with (a + (j - a)) by lia.
  rewrite <- Hbit by lia. apply H3. lia.
Qed.

(** Some bit of a range is [sb], or all are not. *)
Lemma some_or_none l a n sb :
  (exists q, 0 <= q < n /\ bit l (a + q) = sb) \/ (forall q, 0 <= q < n -> bit l (a + q) = negb sb).
Proof.
  destruct (existsb (fun q => Bool.eqb (bit l (a + q)) sb) (seqZ 0 n)) eqn:E.
  - left. apply existsb_exists in E as (q & Hq%list_elem_of_In%elem_of_seqZ & Hb%Bool.eqb_prop). exists q. split; [lia|done].
  - right. intros q Hq. destruct (Bool.bool_dec (bit l (a + q)) sb) as [Hs|Hs]; [|by destruct (bit l (a + q)), sb].
    exfalso. assert (existsb (fun q => Bool.eqb (bit l (a + q)) sb) (seqZ 0 n) = true) as Ht; [|congruence].
    apply existsb_exists. exists q. split; [apply list_elem_of_In, elem_of_seqZ; lia|by rewrite Hs, Bool.eqb_reflx].
Qed.

Lemma bit_of_byte l i q : 0 <= q < 8 -> bit l (8 * i + q) = Z.testbit (byte_at l i) (7 - q).
Proof.
  intros Hq. unfold bit. replace ((8 * i + q) / 8) with i by (apply (Z.div_unique _ _ _ q); lia).
  replace ((8 * i + q) mod 8) with q by (apply (Z.mod_unique _ _ i); lia). done.
Qed.

(** A single byte, shifted to the top of a 64-bit word. *)
Lemma byte_search l c sb :
  bytes_ok l -> 0 <= c < zlen l ->
  let byte := byte_at l c in
  found l sb (8 * c) (8 * (c + 1))
    (if negb (byte =? invalid_word 8 sb)
     then Some (Z.shiftl c 3 + first_hit 64 (Z.shiftl byte 56) sb) else None).
Proof.
  intros Hl Hc. cbv zeta. pose proof (byte_at_ok l c Hl) as Hb. rewrite shiftl_3.
  replace (8 * (c + 1)) with (8 * c + 8) by lia.
  destruct (Z.eqb_spec (byte_at l c) (invalid_word 8 sb)) as [E|Hne]; cbn [negb].
  - intros j Hj. replace j with (8 * c + (j - 8 * c)) by lia. rewrite bit_of_byte, E by lia. apply invalid_word_bits. lia.
  - apply shifted_search; [unfold fits in *; rewrite Z.shiftl_mul_pow2 by lia; lia|lia| |].
    + intros q Hq. rewrite bit_of_byte, Z.shiftl_spec by lia. f_equal. lia.
    + destruct (some_or_none l (8 * c) 8 sb) as [|Hall]; [done|]. exfalso. apply Hne.
      apply Z.bits_inj'. intros k Hk. destruct (Z.lt_ge_cases k 8).
      * rewrite invalid_word_bits, <- (Hall (7 - k)), bit_of_byte by lia. f_equal. lia.
      * rewrite (fits_high 8) by (done || lia). symmetry. apply (fits_high 8); [|done]. by destruct sb.
Qed.

Lemma byte_search_loop_found fuel l c stop sb :
  bytes_ok l -> 0 <= c -> stop < zlen l -> stop - c + 1 < Z.of_nat fuel -> c <= stop + 1 ->
  found l sb (8 * c) (8 * (stop + 1)) (byte_search_loop fuel l c stop sb).
Proof.
  intros Hl. revert c. induction fuel as [|fuel IH]; intros c Hc Hs Hf Hcs; [lia|]. cbn [byte_search_loop].
  destruct (Z.leb_spec c stop) as [Hle|Hgt]; [|intros j Hj; lia].
  destruct (Z.leb_spec 8 (stop - c + 1)); [|destruct (Z.leb_spec 4 (stop - c + 1))].
  - pose proof (word_search l c 8 sb Hl Hc ltac:(lia) ltac:(lia)) as Hw. cbv zeta in Hw. change (8 * 8) with 64 in Hw.
    destruct (negb _); [eapply found_hit; [|done]; lia|eapply (found_skip _ _ _ (8 * (c + 8))); [lia|done|apply IH; lia]].
  - pose proof (word_search l c 4 sb Hl Hc ltac:(lia) ltac:(lia)) as Hw. cbv zeta in Hw. change (8 * 4) with 32 in Hw.
    destruct (negb _); [eapply found_hit; [|done]; lia|eapply (found_skip _ _ _ (8 * (c + 4))); [lia|done|apply IH; lia]].
  - pose proof (byte_search l c sb Hl ltac:(lia)) as Hw. cbv zeta in Hw.
    destruct (negb _); [eapply found_hit; [|done]; lia|eapply (found_skip _ _ _ (8 * (c + 1))); [lia|done|apply IH; lia]].
Qed.

(** ** Searching bits *)

Lemma ff_shift s k : 0 <= s -> 0 <= k -> Z.testbit (Z.shiftr 0xff s) k = (k <? 8 - s).
Proof.
  intros Hs Hk. change 0xff with (Z.ones 8). rewrite Z.shiftr_spec, ones_testbit by lia.
  destruct (Z.ltb_spec (k + s) 8), (Z.ltb_spec k (8 - s)); (done || lia).
Qed.

Lemma bit_mask_spec l r k :
  0 <= l < r -> l < 8 -> 0 <= k -> Z.testbit (bit_mask l r) k = (8 - r <=? k) && (k <? 8 - l).
Proof.
  intros Hl Hr Hk. unfold bit_mask. change 0xff with (Z.ones 8) at 3.
  rewrite Z.land_spec, Z.lxor_spec, !ff_shift, ones_testbit by lia.
  destruct (Z.ltb_spec k (8 - l)), (Z.ltb_spec k (8 - r)), (Z.leb_spec (8 - r) k), (Z.ltb_spec k 8); (done || lia).
Qed.

(** The part [left, right) of byte [i]. *)
Lemma part_search l i left right sb :
  bytes_ok l -> 0 <= left < right -> left < 8 ->
  let n := Z.min right 8 - left in
  let payload := Z.land (byte_at l i) (bit_mask left right) in
  let y := wrap 64 (Z.shiftl payload (56 + left)) in
  found l sb (8 * i + left) (8 * i + left + n)
    (if negb (payload =? Z.land (if sb then 0 else 0xff) (bit_mask left right))
     then Some (8 * i + left + leading_zeros 64 (if sb then y else bnot 64 y)) else None).
Proof.
  intros Hl Hlr H8 n payload y. pose proof (byte_at_ok l i Hl) as Hb.
  assert (forall k, 0 <= k < 8 -> Z.testbit (if sb then 0 else 0xff) k = negb sb) as Hinv.
  { intros k Hk. apply (invalid_word_bits 8 sb k Hk). }
  assert (forall k, 0 <= k -> Z.testbit payload k = (8 - right <=? k) && (k <? 8 - left) && Z.testbit (byte_at l i) k) as Hpay.
  { intros k Hk. unfold payload. by rewrite Z.land_spec, bit_mask_spec, andb_comm by lia. }
  destruct (Z.eqb_spec payload (Z.land (if sb then 0 else 0xff) (bit_mask left right))) as [E|Hne]; cbn [negb].
  - intros j Hj. replace j with (8 * i + (j - 8 * i)) by lia. rewrite bit_of_byte by lia.
    pose proof (f_equal (fun z => Z.testbit z (7 - (j - 8 * i))) E) as Hk. cbn beta in Hk.
    rewrite Hpay, Z.land_spec, Hinv, bit_mask_spec in Hk by lia.
    destruct (Z.leb_spec (8 - right) (7 - (j - 8 * i))), (Z.ltb_spec (7 - (j - 8 * i)) (8 - left)); try lia.
    by rewrite ?andb_true_r in Hk.
  - change (leading_zeros 64 (if sb then y else bnot 64 y)) with (first_hit 64 y sb).
    apply shifted_search; [apply wrap_fits; lia|lia| |].
    + intros q Hq. unfold y. rewrite wrap_testbit, Z.shiftl_spec, Hpay by lia.
      replace (8 * i + left + q) with (8 * i + (left + q)) by lia. rewrite bit_of_byte by lia.
      replace (63 - q - (56 + left)) with (7 - (left + q)) by lia.
      destruct (Z.ltb_spec (63 - q) 64), (Z.leb_spec (8 - right) (7 - (left + q))), (Z.ltb_spec (7 - (left + q)) (8 - left)); try lia.
      by rewrite ?andb_true_r.
    + destruct (some_or_none l (8 * i + left) n sb) as [|Hall]; [done|]. exfalso. apply Hne.
      apply Z.bits_inj'. intros k Hk. rewrite Hpay, Z.land_spec, bit_mask_spec by lia.
      destruct (Z.leb_spec (8 - right) k), (Z.ltb_spec k (8 - left)); rewrite ?andb_false_r; try done.
      cbn [andb]. rewrite andb_true_r, Hinv by lia. rewrite <- (Hall (7 - k - left)) by lia.
      replace (8 * i + left + (7 - k - left)) with (8 * i + (7 - k)) by lia. rewrite bit_of_byte by lia. f_equal. lia.
Qed.

(** The position as a number: [-1] for none. *)
Definition or_minus_one (r : option Z) : Z := match r with Some p => p | None => -1 end.

Lemma bit_search_loop_found fuel l c stop sb :
  bytes_ok l -> 0 <= c -> stop - c + 1 < Z.of_nat fuel -> c <= stop + 8 ->
  exists r, bit_search_loop fuel l c stop sb = or_minus_one r /\ found l sb c (stop + 1) r.
Proof.
  intros Hl. revert c. induction fuel as [|fuel IH]; intros c Hc Hf Hcs.
  { exists None. split; [done|]. intros j Hj. lia. }
  cbn [bit_search_loop]. destruct (Z.leb_spec c stop) as [Hle|Hgt]; [|exists None; split; [done|intros j Hj; lia]].
  rewrite shiftr_3, !land_7. pose proof (Z.div_mod c 8 ltac:(lia)) as Hd. pose proof (Z.mod_pos_bound c 8 ltac:(lia)).
  set (i := c / 8) in *. set (left := c mod 8) in *.
  set (right := if c + (8 - left) <=? stop then left + 8 else stop mod 8 + 1).
  assert (left < right /\ 8 * i + left + (Z.min right 8 - left) = Z.min (c + (8 - left)) (stop + 1)) as [Hlr Hend].
  { unfold right. destruct (Z.leb_spec (c + (8 - left)) stop); [lia|].
    assert (stop / 8 = i) as Hi by (symmetry; apply (Z.div_unique _ _ _ (stop - 8 * i)); lia).
    pose proof (Z.div_mod stop 8 ltac:(lia)). rewrite Hi in *. lia. }
  pose proof (part_search l i left right sb Hl ltac:(lia) ltac:(lia)) as Hp. cbv zeta in Hp. rewrite Hend in Hp.
  replace (8 * i + left) with c in Hp by lia.
  destruct (negb _).
  - eexists (Some _). split; [done|]. eapply found_hit; [|exact Hp]. lia.
  - destruct (IH (c + (8 - left))) as (r & -> & Hr); [lia|lia|lia|]. exists r. split; [done|].
    destruct (Z.leb_spec (c + (8 - left)) stop).
    + eapply (found_skip _ _ _ (c + (8 - left))); [lia| |done]. by rewrite Z.min_l in Hp by lia.
    + rewrite Z.min_r in Hp by lia. destruct r as [p|]; [|done]. destruct Hr as ((? & ?) & _). lia.
Qed.

(** ** BITPOS *)

(** The position of the first selected bit that is [sb]. *)
Definition first_selected (ot start stop : Z) (value : list Z) (sb : bool) (r : option Z) : Prop :=
  match r with
  | Some p => 0 <= p < 8 * zlen value /\ selected ot start stop (zlen value) p = true /\ bit value p = sb /\
      forall j, 0 <= j < p -> selected ot start stop (zlen value) j = true -> bit value j = negb sb
  | None => forall j, 0 <= j < 8 * zlen value -> selected ot start stop (zlen value) j = true -> bit value j = negb sb
  end.

Lemma found_selected ot start stop value sb a b r :
  0 <= a <= b -> b <= 8 * zlen value ->
  (forall j, 0 <= j < 8 * zlen value -> selected ot start stop (zlen value) j = true <-> a <= j < b) ->
  found value sb a b r -> first_selected ot start stop value sb r.
Proof.
  intros Ha Hb Hs. destruct r as [p|]; cbn.
  - intros (Hp & Hbp & Hq). split; [lia|]. split; [by apply Hs; lia|]. split; [done|].
    intros j Hj Hsel%Hs; [apply Hq|]; lia.
  - intros Hq j Hj Hsel%Hs; [apply Hq|]; lia.
Qed.

(** [BITPOS] returns the first bit between the two offsets, in bytes or in
    bits, that is the one sought, although it looks at words of 64 and 32 bits and
    at shifted parts of bytes.  Without such a bit it returns -1, or, when a zero
    is sought in bytes without an explicit end and the range is not empty, the
    first position behind the bitmap. *)
Theorem bit_pos_correct value start stop search_for ot has_end :
  bytes_ok value -> 0 <= search_for <= 1 -> ot = OFFSET_UNIT_BYTE \/ ot = OFFSET_UNIT_BIT ->
  exists r, first_selected ot start stop value (search_for =? 1) r /\
    bit_pos_driver value (zlen value) start stop search_for ot has_end =
    match r with
    | Some p => p
    | None => if (search_for =? 0) && negb has_end && (ot =? OFFSET_UNIT_BYTE)
                 && negb (bool_decide (normalize_scan_range ot start stop (zlen value) = None))
              then 8 * zlen value else -1
    end.
Proof.
  intros Hv Hs Hot. unfold bit_pos_driver.
  pose proof (normalize_spec ot start stop (zlen value) (zlen_nonneg value)) as Hn.
  destruct (normalize_scan_range ot start stop (zlen value)) as [[a b]|].
  2:{ exists None. split; [intros j Hj Hsel; rewrite Hn in Hsel by lia; done|]. by rewrite andb_false_r. }
  destruct Hn as (Hab & Hb & Hsel). destruct Hot as [->| ->].
  - change (OFFSET_UNIT_BYTE =? OFFSET_UNIT_BYTE) with true. cbv iota. unfold bit_pos_byte_search.
    change (limit_of OFFSET_UNIT_BYTE (zlen value)) with (zlen value) in Hb.
    pose proof (byte_search_loop_found (S (Z.to_nat (b - a + 1))) value a b (search_for =? 1) Hv ltac:(lia) Hb ltac:(lia) ltac:(lia)) as Hf.
    eexists. split; [eapply found_selected; [| | |exact Hf]; [lia|lia|]|].
    + intros j Hj. rewrite Hsel by lia. change (unit_of OFFSET_UNIT_BYTE j) with (j / 8).
      rewrite andb_true_iff, !Z.leb_le. pose proof (Z.div_mod j 8). pose proof (Z.mod_pos_bound j 8). lia.
    + destruct (byte_search_loop _ _ _ _ _); [done|].
      rewrite bool_decide_eq_false_2 by done. destruct (search_for =? 0), has_end; cbn [andb negb]; (done || lia).
  - change (OFFSET_UNIT_BIT =? OFFSET_UNIT_BYTE) with false. cbv iota. unfold bit_pos_bit_search.
    change (limit_of OFFSET_UNIT_BIT (zlen value)) with (zlen value * 8) in Hb.
    destruct (bit_search_loop_found (S (Z.to_nat (b - a + 1))) value a b (search_for =? 1) Hv) as (r & -> & Hf); [lia|lia|lia|].
    exists r. split; [eapply found_selected; [| | |exact Hf]; [lia|lia|]|].
    + intros j Hj. rewrite Hsel by lia. change (unit_of OFFSET_UNIT_BIT j) with j. rewrite andb_true_iff, !Z.leb_le. lia.
    + destruct r; [done|]. by rewrite andb_false_r.
Qed.

Lemma bit_pos_correct_witness :
  exists r, first_selected 1 3 (-4) [255; 240; 7] false r /\
    bit_pos_driver [255; 240; 7] 3 3 (-4) 0 1 true = match r with Some p => p | None => -1 end.
Proof.
  destruct (bit_pos_correct [255; 240; 7] 3 (-4) 0 1 true) as (r & Hr & E);
    [repeat constructor; by vm_compute|lia|by right|]. exists r. split; [exact Hr|]. exact E.
Defined.

End BitPosSpec.
