(* ===== verification/BitOpSpec.v ===== *)
(** * Correctness of the bitwise operations on bitmaps
    ([wedb/wbitmap/src/bit_op.rs])

    Folding the sources one by one into the accumulator gives the operation on
    all of them, bit by bit, sources being extended with zeros. *)

From stdpp Require Import base list numbers option tactics.
From Stdlib Require Import ZArith Lia Bool.
From S2P Require Import Prelude Bytes Num Bitmap BitmapSpec.

Module BitOpSpec.
Import Manager BitOp BitmapSpec.

(** ** Folding over the common prefix *)

(** [f] on bytes acts as [fb] on bits. *)
Definition bitwise (f : Z -> Z -> Z) (fb : bool -> bool -> bool) : Prop :=
  forall x y k, 0 <= k < 8 -> Z.testbit (f x y) k = fb (Z.testbit x k) (Z.testbit y k).

Lemma bitwise_land : bitwise Z.land andb.
Proof. intros x y k _. apply Z.land_spec. Qed.
Lemma bitwise_lor : bitwise Z.lor orb.
Proof. intros x y k _. apply Z.lor_spec. Qed.
Lemma bitwise_lxor : bitwise Z.lxor xorb.
Proof. intros x y k _. apply Z.lxor_spec. Qed.
Lemma bitwise_diff : bitwise (fun d s => Z.land d (bnot 8 s)) (fun d s => d && negb s).
Proof.
  intros x y k Hk. rewrite Z.land_spec, bnot_spec by lia. destruct (Z.ltb_spec k 8); [|lia]. by rewrite ?andb_true_r.
Qed.

Lemma length_fold_common f d s : length (fold_common f d s) = length d.
Proof. revert s. induction d as [|x d IH]; intros [|y s]; cbn [fold_common length]; try done. by rewrite IH. Qed.

Lemma bit_fold_common f fb d s j :
  bitwise f fb -> 0 <= j ->
  bit (fold_common f d s) j = if j <? 8 * Z.min (zlen d) (zlen s) then fb (bit d j) (bit s j) else bit d j.
Proof.
  intros Hf. revert s j. induction d as [|x d IH]; intros [|y s] j Hj; cbn [fold_common].
  1-3: match goal with |- context [Z.min ?m ?n] => replace (Z.min m n) with 0 by (unfold zlen; cbn [length]; lia) end.
  1-3: by destruct (Z.ltb_spec j (8 * 0)); [lia|].
  rewrite !zlen_cons. destruct (Z.lt_ge_cases j 8) as [Hlt|Hge].
  - rewrite !bit_cons_low by lia. rewrite Hf by lia. pose proof (zlen_nonneg d). pose proof (zlen_nonneg s).
    destruct (Z.ltb_spec j (8 * Z.min (1 + zlen d) (1 + zlen s))); [done|lia].
  - rewrite !bit_cons_high by lia. rewrite IH by lia.
    destruct (Z.ltb_spec (j - 8) (8 * Z.min (zlen d) (zlen s))), (Z.ltb_spec j (8 * Z.min (1 + zlen d) (1 + zlen s))); (done || lia).
Qed.

Lemma zlen_fold_common f d s : zlen (fold_common f d s) = zlen d.
Proof. unfold zlen. by rewrite length_fold_common. Qed.

Lemma bit_replicate_zero n j : bit (replicate n 0) j = false.
Proof.
  unfold bit, byte_at. destruct (replicate n 0 !! Z.to_nat (j / 8)) as [b|] eqn:E; [|apply Z.testbit_0_l].
  apply lookup_replicate in E as [-> _]. apply Z.testbit_0_l.
Qed.

Lemma bit_slice_from c l j : 0 <= c -> 0 <= j -> bit (slice_from c l) j = bit l (8 * c + j).
Proof.
  intros Hc Hj. unfold slice_from, bit, byte_at. rewrite lookup_drop.
  replace (Z.to_nat c + Z.to_nat (j / 8))%nat with (Z.to_nat ((8 * c + j) / 8)).
  - replace ((8 * c + j) mod 8) with (j mod 8) by (rewrite Z.add_comm, Z.mul_comm, Z.mod_add; lia). done.
  - rewrite Z.add_comm, Z.mul_comm, Z.div_add by lia. pose proof (Z.div_pos j 8). lia.
Qed.

Lemma zlen_grow_zero n d : zlen (grow_zero n d) = Z.max n (zlen d).
Proof.
  unfold grow_zero. destruct (Z.ltb_spec (zlen d) n); [|lia]. rewrite zlen_app. unfold zlen in *. rewrite length_replicate. lia.
Qed.

Lemma bit_grow_zero n d j : 0 <= j -> bit (grow_zero n d) j = bit d j.
Proof.
  intros Hj. unfold grow_zero. destruct (zlen d <? n); [|done]. rewrite bit_app by done.
  destruct (Z.ltb_spec j (8 * zlen d)); [done|]. by rewrite bit_replicate_zero, bit_high.
Qed.

(** Operations for which zero is neutral: the longer source is taken over. *)
Lemma bit_fold_extend f fb d s j :
  bitwise f fb -> (forall b, fb b false = b) -> (forall b, fb false b = b) -> 0 <= j ->
  bit (fold_common f d s ++ slice_from (Z.min (zlen d) (zlen s)) s) j = fb (bit d j) (bit s j).
Proof.
  intros Hf Hr Hl Hj. pose proof (zlen_nonneg d). pose proof (zlen_nonneg s).
  rewrite bit_app, zlen_fold_common by done. destruct (Z.ltb_spec j (8 * zlen d)).
  - rewrite (bit_fold_common f fb) by done. destruct (Z.ltb_spec j (8 * Z.min (zlen d) (zlen s))); [done|].
    by rewrite (bit_high s), Hr by lia.
  - rewrite bit_slice_from by lia. rewrite (bit_high d), Hl by lia.
    destruct (Z.le_ge_cases (zlen d) (zlen s)); [f_equal; lia|]. by rewrite !bit_high by lia.
Qed.

Lemma zlen_fold_extend f d s :
  zlen (fold_common f d s ++ slice_from (Z.min (zlen d) (zlen s)) s) = Z.max (zlen d) (zlen s).
Proof. rewrite zlen_app, zlen_fold_common. unfold zlen, slice_from. rewrite length_drop. lia. Qed.

(** ** The operation on all sources *)

Definition max_len (srcs : list (list Z)) : Z := foldr (fun s n => Z.max (zlen s) n) 0 srcs.

(** Bit [j] of the result. *)
Definition bit_op (o : BitmapOperation) (srcs : list (list Z)) (j : Z) : bool :=
  match o with
  | And => forallb (fun s => bit s j) srcs
  | Or => existsb (fun s => bit s j) srcs
  | Xor => foldl (fun b s => xorb b (bit s j)) false srcs
  | Not => match srcs with s :: _ => negb (bit s j) | [] => false end
  | Diff => match srcs with s :: rest => bit s j && negb (existsb (fun s => bit s j) rest) | [] => false end
  end.

#[export] Instance BitmapOperation_eq_dec : EqDecision BitmapOperation.
Proof. solve_decision. Defined.

(** Sources as the operating system can hold them. *)
Definition source (s : list Z) : Prop := bytes_ok s /\ zlen s <= u64_max.

Definition folded (o : BitmapOperation) (srcs : list (list Z)) : BitOpAccumulator := foldl fold (new o) srcs.

(** The accumulator after one or more sources. *)
Record inv (o : BitmapOperation) (srcs : list (list Z)) (a : BitOpAccumulator) : Prop := {
  inv_op : op a = o;
  inv_keys : keys_found a = zlen srcs;
  inv_len : zlen (dst a) = max_len srcs;
  inv_short : 0 <= shortest_src_length a <= max_len srcs;
  inv_and : o = And -> forall j, 8 * shortest_src_length a <= j -> bit_op And srcs j = false;
  inv_bits : forall j, 0 <= j < 8 * (if decide (o = And) then shortest_src_length a else max_len srcs) ->
    bit (dst a) j = bit_op o srcs j
}.

Lemma bit_map_not s j : 0 <= j < 8 * zlen s -> bit (map (bnot 8) s) j = negb (bit s j).
Proof.
  intros Hj. unfold bit, byte_at. pose proof (Z.div_mod j 8). pose proof (Z.mod_pos_bound j 8).
  destruct (lookup_lt_is_Some_2 s (Z.to_nat (j / 8))) as [b Hb]; [unfold zlen in Hj; lia|].
  change (map (bnot 8) s) with (bnot 8 <$> s). rewrite list_lookup_fmap, Hb. simpl.
  rewrite bnot_spec by lia. destruct (Z.ltb_spec (7 - j mod 8) 8); [|lia]. by rewrite ?andb_true_r.
Qed.

Lemma inv_first o s : source s -> inv o [s] (fold (new o) s).
Proof.
  intros [Hok Hlen]. pose proof (zlen_nonneg s) as Hn.
  assert (max_len [s] = zlen s) as Hm by (cbn; lia).
  assert (zlen (dst (fold (new o) s)) = zlen s) as Hd
    by (destruct o; try done; unfold zlen; f_equal; apply (length_fmap (bnot 8) s)).
  assert (shortest_src_length (fold (new o) s) = zlen s) as Hs by (cbn; unfold u64_max in *; lia).
  split; [by destruct o|done|lia|lia| |].
  - intros -> j Hj. rewrite Hs in Hj. cbn. by rewrite bit_high by lia.
  - rewrite Hm, Hs. intros j Hj. assert (0 <= j < 8 * zlen s) as Hj' by (destruct (decide (o = And)); lia).
    destruct o; cbn [fold new op dst keys_found bit_op Z.add Z.eqb]; change (0 + 1 =? 1) with true; cbv iota; cbn.
    + by rewrite andb_true_r.
    + by rewrite orb_false_r.
    + by destruct (bit s j).
    + by apply bit_map_not.
    + by rewrite andb_true_r.
Qed.

Lemma max_len_snoc srcs s : max_len (srcs ++ [s]) = Z.max (max_len srcs) (zlen s).
Proof.
  pose proof (zlen_nonneg s).
  induction srcs as [|x srcs IH]; cbn [app max_len foldr]; [cbn; lia|]. unfold max_len in *. rewrite IH. lia.
Qed.

Lemma max_len_ge srcs s : s ∈ srcs -> zlen s <= max_len srcs.
Proof. induction 1 as [|? ? ? ? IH]; cbn [max_len foldr]; unfold max_len in *; lia. Qed.

Lemma xor_zero srcs j b :
  (forall s, s ∈ srcs -> bit s j = false) -> foldl (fun b s => xorb b (bit s j)) b srcs = b.
Proof.
  revert b. induction srcs as [|s srcs IH]; intros b Hz; [done|]. cbn [foldl]. rewrite (Hz s) by left.
  rewrite xorb_false_r. apply IH. intros ? ?. apply Hz. by right.
Qed.

Lemma bit_op_high o srcs j : o <> And -> o <> Not -> 8 * max_len srcs <= j -> bit_op o srcs j = false.
Proof.
  intros Ha Hn Hj. assert (forall s, s ∈ srcs -> bit s j = false) as Hz.
  { intros s Hs%max_len_ge. apply bit_high. lia. }
  destruct o; cbn [bit_op]; try done.
  - apply not_true_iff_false. intros (s & Hs%list_elem_of_In & Hb)%existsb_exists. by rewrite Hz in Hb.
  - by apply xor_zero.
  - destruct srcs as [|s srcs]; [done|]. rewrite (Hz s) by left. done.
Qed.

Lemma inv_next o srcs a s :
  o <> Not -> srcs <> [] -> source s -> inv o srcs a -> inv o (srcs ++ [s]) (fold a s).
Proof.
  intros Hnot Hne [Hok Hlen] [Hop Hk Hl Hsh Hand Hbits]. pose proof (zlen_nonneg s).
  assert (0 < zlen srcs) as Hpos by (destruct srcs; [done|]; rewrite zlen_cons; pose proof (zlen_nonneg srcs); lia).
  assert ((keys_found a + 1 =? 1) = false) as Hk1 by (apply Z.eqb_neq; lia).
  assert (zlen (dst (fold a s)) = Z.max (max_len srcs) (zlen s)) as Hd.
  { unfold fold. rewrite Hk1, Hop. cbn [dst]. destruct o; [..|done|]; rewrite ?zlen_grow_zero, ?zlen_fold_common, ?zlen_fold_extend; lia. }
  split; [done| | |cbn; rewrite max_len_snoc; lia| |].
  - cbn. rewrite zlen_app, Hk. done.
  - rewrite max_len_snoc. exact Hd.
  - intros -> j Hj. cbn [fold shortest_src_length] in Hj. cbn [bit_op]. rewrite forallb_app. cbn [forallb].
    destruct (Z.le_ge_cases (shortest_src_length a) (zlen s)).
    + specialize (Hand eq_refl j ltac:(lia)). cbn [bit_op] in Hand. by rewrite Hand.
    + rewrite (bit_high s) by lia. by rewrite andb_false_r.
  - intros j Hj. rewrite max_len_snoc in Hj. cbn [fold shortest_src_length] in Hj. unfold fold. rewrite Hk1, Hop. cbn [dst].
    assert (o <> And -> bit (dst a) j = bit_op o srcs j) as Hall.
    { intros Ho. rewrite decide_False in Hbits by done. destruct (Z.lt_ge_cases j (8 * max_len srcs)); [apply Hbits; lia|].
      by rewrite bit_high, bit_op_high by (done || lia). }
    destruct o; cbn [bit_op].
    + rewrite decide_True in Hj, Hbits by done. rewrite bit_grow_zero, (bit_fold_common _ andb) by (apply bitwise_land || lia).
      destruct (Z.ltb_spec j (8 * Z.min (zlen (dst a)) (zlen s))); [|lia].
      rewrite Hbits by lia. cbn [bit_op]. rewrite forallb_app. cbn [forallb]. by rewrite andb_true_r.
    + rewrite (bit_fold_extend _ orb); [|apply bitwise_lor|by intros []|by intros []|lia].
      rewrite Hall by done. cbn [bit_op]. rewrite existsb_app. cbn [existsb]. by rewrite orb_false_r.
    + rewrite (bit_fold_extend _ xorb); [|apply bitwise_lxor|by intros []|by intros []|lia].
      rewrite Hall by done. cbn [bit_op]. by rewrite foldl_snoc.
    + done.
    + rewrite bit_grow_zero, (bit_fold_common _ (fun d s => d && negb s)) by (apply bitwise_diff || lia).
      rewrite Hall by done. cbn [bit_op]. destruct srcs as [|s0 srcs]; [done|]. cbn [app].
      rewrite existsb_app. cbn [existsb]. rewrite orb_false_r, negb_orb, andb_assoc.
      destruct (Z.ltb_spec j (8 * Z.min (zlen (dst a)) (zlen s))); [done|].
      destruct (Z.lt_ge_cases j (8 * zlen s)); [|by rewrite (bit_high s), andb_true_r by lia].
      specialize (Hall ltac:(done)). rewrite bit_high in Hall by lia. cbn [bit_op] in Hall. by rewrite <- Hall.
Qed.

(** One source after another. *)
Lemma folded_inv o s srcs :
  (o = Not -> srcs = []) -> source s -> Forall source srcs -> inv o (s :: srcs) (folded o (s :: srcs)).
Proof.
  intros Ho Hs. induction srcs as [|s' srcs IH] using rev_ind; intros Hf; [by apply inv_first|].
  apply Forall_app in Hf as [Hf Hs']. rewrite Forall_singleton in Hs'.
  change (s :: srcs ++ [s']) with ((s :: srcs) ++ [s']). unfold folded. rewrite foldl_app. cbn [foldl].
  assert (o <> Not) as Hn by (intros E; specialize (Ho E); by destruct srcs).
  apply inv_next; [done|done|done|]. apply IH; done.
Qed.

(** For one or more sources - exactly one for [NOT], at least two for [DIFF] -
    the accumulator finishes with a result as long as the longest source whose
    every bit is the operation applied to that bit of all sources, shorter
    sources being extended with zeros. *)
Theorem bit_op_correct o s srcs :
  (o = Not -> srcs = []) -> (o = Diff -> srcs <> []) -> source s -> Forall source srcs ->
  exists r, finish (folded o (s :: srcs)) = Some r /\ zlen r = max_len (s :: srcs) /\
    forall j, 0 <= j < 8 * max_len (s :: srcs) -> bit r j = bit_op o (s :: srcs) j.
Proof.
  intros Hn Hd Hs Hf. destruct (folded_inv o s srcs Hn Hs Hf) as [Hop Hk Hl Hsh Hand Hbits].
  set (a := folded o (s :: srcs)) in *. pose proof (zlen_nonneg srcs). rewrite zlen_cons in Hk.
  unfold finish. rewrite Hop. destruct o; try (exists (dst a); rewrite decide_False in Hbits by done; by split).
  - destruct (Z.ltb_spec 0 (keys_found a)); [|lia]. eexists. split; [done|]. rewrite decide_True in Hbits by done.
    set (k := shortest_src_length a) in *.
    assert (zlen (take (Z.to_nat k) (dst a)) = k) as Hz by (unfold zlen in *; rewrite length_take; lia).
    split.
    + rewrite zlen_app, Hz. unfold zlen in *. rewrite length_replicate. lia.
    + intros j Hj. rewrite bit_app, Hz by lia. destruct (Z.ltb_spec j (8 * k)).
      * rewrite <- Hbits by lia. rewrite <- (take_drop (Z.to_nat k) (dst a)) at 2. rewrite bit_app, Hz by lia.
        by destruct (Z.ltb_spec j (8 * k)); [|lia].
      * rewrite bit_replicate_zero. symmetry. by apply Hand.
  - destruct (Z.eqb_spec (keys_found a) 1) as [E|]; [exfalso; apply Hd; [done|]; destruct srcs; [done|rewrite zlen_cons in *; pose proof (zlen_nonneg srcs); lia]|].
    exists (dst a). rewrite decide_False in Hbits by done. by split.
Qed.

Definition source_check (s : list Z) : bool := forallb (fun b => (0 <=? b) && (b <? 256)) s && (zlen s <=? u64_max).

Lemma source_check_ok s : source_check s = true -> source s.
Proof.
  unfold source_check. intros [Hb Hl]%andb_true_iff. split; [|by apply Z.leb_le].
  apply Forall_forall. intros b Hin. rewrite forallb_forall in Hb. specialize (Hb b Hin).
  apply andb_true_iff in Hb as [H1%Z.leb_le H2%Z.ltb_lt]. unfold fits. change (2 ^ 8) with 256. lia.
Qed.

Lemma bit_op_correct_witness :
  exists r, finish (folded Diff [[255; 15]; [240]; [0; 0; 1]]) = Some r /\ zlen r = 3 /\
    forall j, 0 <= j < 24 -> bit r j = bit_op Diff [[255; 15]; [240]; [0; 0; 1]] j.
Proof.
  apply (bit_op_correct Diff [255; 15] [[240]; [0; 0; 1]]); [discriminate|discriminate|..].
  - apply source_check_ok. reflexivity.
  - constructor; [|constructor; [|constructor]]; apply source_check_ok; reflexivity.
Defined.

End BitOpSpec.
