(* ===== verification/BitfieldSpec.v ===== *)
(** * Correctness of bit fields ([wedb/wbitmap/src/bitfield])

    [field l off w] is the number in the [w] bits from bit [off] on.  [GET] reads
    it, [SET] and [INCRBY] write it and no other bit; what the overflow policies
    do is stated for the increments they get right, and for those they do not. *)

From stdpp Require Import base list numbers option tactics.
From Stdlib Require Import ZArith Lia Bool.
From S2P Require Import Prelude Bytes Num Bitmap BitmapSpec.

Module BitfieldSpec.
Import Manager BitField BitmapSpec.

(** ** Fields *)

Definition field (l : list Z) (off w : Z) : Z :=
  foldl (fun v i => 2 * v + Z.b2z (bit l (off + i))) 0 (seqZ 0 w).

Lemma field_bits l off w k :
  0 <= w -> 0 <= k -> Z.testbit (field l off w) k = (k <? w) && bit l (off + w - 1 - k).
Proof.
  intros Hw. revert k. pattern w. apply natlike_ind; [| |done]; clear w Hw.
  - intros k Hk. unfold field. rewrite seqZ_nil by lia. cbn [foldl]. rewrite Z.testbit_0_l.
    by destruct (Z.ltb_spec k 0); [lia|].
  - intros w Hw IH k Hk. unfold field. replace (Z.succ w) with (w + 1) by lia. rewrite seqZ_app by lia. rewrite foldl_app.
    fold (field l off w). rewrite (seqZ_cons (0 + w)), seqZ_nil by lia. cbn [foldl]. rewrite Z.add_0_l.
    destruct (Z.eq_dec k 0) as [->|].
    + rewrite Z.testbit_0_r. destruct (Z.ltb_spec 0 (w + 1)); [|lia]. cbn [andb]. f_equal. lia.
    + replace k with (Z.succ (k - 1)) by lia. rewrite Z.testbit_succ_r by lia. rewrite IH by lia.
      replace (Z.succ (k - 1)) with k by lia. f_equal; [|f_equal; lia].
      destruct (Z.ltb_spec (k - 1) w), (Z.ltb_spec k (w + 1)); (done || lia).
Qed.

Lemma field_fits l off w : 0 <= w -> fits w (field l off w).
Proof.
  intros Hw. apply fits_of_bits; [done| |].
  all: swap 1 2. { intros i Hi. rewrite field_bits by lia. by destruct (Z.ltb_spec i w); [lia|]. }
  pattern w. apply natlike_ind; [| |done]; clear w Hw.
  - unfold field. by rewrite seqZ_nil.
  - intros w Hw IH. unfold field. replace (Z.succ w) with (w + 1) by lia. rewrite seqZ_app by lia. rewrite foldl_app.
    fold (field l off w). rewrite (seqZ_cons (0 + w)), seqZ_nil by lia. cbn [foldl]. destruct (bit l _); cbn; lia.
Qed.

(** Two's complement. *)
Definition signed_value (w x : Z) : Z := if x <? 2 ^ (w - 1) then x else x - 2 ^ w.

(** The field as [GET] reports it. *)
Definition field_value (l : list Z) (off w : Z) (signed : bool) : Z :=
  if signed then signed_value w (field l off w) else to_i64 (field l off w).

(** ** Reading *)

Lemma fill_buf_spec (k : nat) buf value curr cend :
  (k <= length buf)%nat -> 0 <= curr <= cend -> cend <= zlen value ->
  let m := Z.min (Z.of_nat k) (cend - curr) in
  fill_buf k buf value curr cend =
  (take (k - Z.to_nat m) buf ++ rev (slice curr (curr + m) value) ++ drop k buf, curr + m).
Proof.
  revert buf curr. induction k as [|k IH]; intros buf curr Hk Hc Hv m; cbn [fill_buf].
  - replace m with 0 by lia. unfold slice. replace (Z.to_nat (curr + 0 - curr)) with 0%nat by lia.
    by rewrite drop_0, Z.add_0_r.
  - destruct (Z.ltb_spec curr cend) as [Hlt|Hge].
    + rewrite IH by (rewrite ?length_insert; lia). set (m' := Z.min (Z.of_nat k) (cend - (curr + 1))).
      assert (m = m' + 1) as -> by lia. f_equal; [|lia].
      replace (S k - Z.to_nat (m' + 1))%nat with (k - Z.to_nat m')%nat by lia. f_equal; [apply take_insert_ge; lia|].
      replace (curr + (m' + 1)) with (curr + 1 + m') by lia.
      replace (slice curr (curr + 1 + m') value) with (byte_at value curr :: slice (curr + 1) (curr + 1 + m') value)
        by (replace (curr + 1 + m') with (curr + (1 + m')) by lia; rewrite slice_cons by lia; done).
      cbn [rev]. rewrite <- app_assoc. f_equal. cbn [app].
      rewrite (drop_S _ (byte_at value curr) k) by (apply list_lookup_insert_eq; lia). f_equal.
      by rewrite drop_insert_lt by lia.
    + rewrite IH by lia. replace m with 0 by lia. replace (Z.min (Z.of_nat k) (cend - curr)) with 0 by lia.
      unfold slice. replace (Z.to_nat (curr + 0 - curr)) with 0%nat by lia. rewrite take_0. cbn [rev app].
      change (Z.to_nat 0) with 0%nat. rewrite !Nat.sub_0_r, !take_drop. done.
Qed.

(** The eight bytes that are read, as one number: the bytes of the field, filled
    up with zeros. *)
Definition window (value : list Z) (i m : Z) : list Z := slice i (i + m) value ++ replicate (Z.to_nat (8 - m)) 0.

Lemma fill_buf_window value i cend :
  0 <= i <= cend -> cend <= zlen value ->
  let m := Z.min 8 (cend - i) in
  fill_buf 8 (replicate 8 0) value i cend = (rev (window value i m), i + m).
Proof.
  intros Hi Hv m. rewrite fill_buf_spec by (rewrite ?length_replicate; lia). change (Z.of_nat 8) with 8. fold m.
  f_equal. unfold window. rewrite rev_app_distr. rewrite (drop_ge (replicate 8 0)) by (rewrite length_replicate; lia).
  rewrite app_nil_r, take_replicate. f_equal.
  replace (8 - Z.to_nat m)%nat with (Z.to_nat (8 - m)) by lia. replace (Z.to_nat (8 - m) `min` 8)%nat with (Z.to_nat (8 - m)) by lia.
  rewrite <- (reverse_replicate (Z.to_nat (8 - m)) 0) at 1. unfold reverse. by rewrite rev_alt.
Qed.

Lemma window_ok value i m :
  bytes_ok value -> 0 <= i -> 0 <= m <= 8 -> i + m <= zlen value ->
  bytes_ok (window value i m) /\ zlen (window value i m) = 8.
Proof.
  intros Hv Hi Hm Hb. unfold window. split.
  - apply bytes_ok_app. split; [auto with wedb|]. apply Forall_replicate. done.
  - rewrite zlen_app, zlen_slice by lia. unfold zlen. rewrite length_replicate. lia.
Qed.

Lemma window_bits value i m q :
  0 <= i -> 0 <= m <= 8 -> i + m <= zlen value -> 0 <= q ->
  bit (window value i m) q = (q <? 8 * m) && bit value (8 * i + q).
Proof.
  intros Hi Hm Hb Hq. unfold window. rewrite bit_app, zlen_slice by lia. replace (i + m - i) with m by lia.
  destruct (Z.ltb_spec q (8 * m)); [by rewrite bit_slice by lia|].
  unfold bit, byte_at. destruct (replicate _ 0 !! _) as [b|] eqn:E; [|apply Z.testbit_0_l].
  apply lookup_replicate in E as [-> _]. apply Z.testbit_0_l.
Qed.

(** The window as a 64-bit number. *)
Lemma window_num value i m q :
  bytes_ok value -> 0 <= i -> 0 <= m <= 8 -> i + m <= zlen value -> 0 <= q < 64 ->
  Z.testbit (le_num (rev (window value i m))) (63 - q) = (q <? 8 * m) && bit value (8 * i + q).
Proof.
  intros Hv Hi Hm Hb Hq. destruct (window_ok value i m Hv Hi Hm Hb) as [Hok Hz].
  rewrite <- window_bits by lia. change (le_num (rev (window value i m))) with (be_num (window value i m)).
  rewrite <- bit_be_num by (done || lia). f_equal. lia.
Qed.

Lemma window_fits value i m :
  bytes_ok value -> 0 <= i -> 0 <= m <= 8 -> i + m <= zlen value -> fits 64 (le_num (rev (window value i m))).
Proof.
  intros Hv Hi Hm Hb. destruct (window_ok value i m Hv Hi Hm Hb) as [Hok Hz].
  pose proof (be_num_bound (window value i m) Hok) as H. rewrite pow256_pow2 in H.
  change (Z.of_nat (length (window value i m))) with (zlen (window value i m)) in H. by rewrite Hz in H.
Qed.

(** The 64 bits from the start of the field on, of which [get_value] takes the
    first [encoding]. *)
Definition field_word (value : list Z) (curr vend left encoding : Z) (buf : list Z) : Z :=
  let v := wrap 64 (Z.shiftl (le_num buf) left) in
  if 64 - left <? encoding
  then Z.lor v (if curr <? vend then Z.shiftr (byte_at value curr) (8 - left) else 0) else v.

Lemma field_word_bits value off w k :
  bytes_ok value -> 0 <= off -> 1 <= w <= 64 -> off / 8 < zlen value ->
  let i := off / 8 in let left := off mod 8 in
  let cend := Z.min ((off + w - 1) / 8 + 1) (zlen value) in
  let m := Z.min 8 (cend - i) in
  64 - w <= k < 64 ->
  Z.testbit (field_word value (i + m) (zlen value) left w (rev (window value i m))) k = bit value (off + 63 - k).
Proof.
  intros Hv Ho Hw Hi i left cend m Hk.
  pose proof (Z.div_mod off 8 ltac:(lia)) as Hd. pose proof (Z.mod_pos_bound off 8 ltac:(lia)) as Hl. fold i left in Hd, Hl.
  pose proof (Z.div_mod (off + w - 1) 8 ltac:(lia)). pose proof (Z.mod_pos_bound (off + w - 1) 8 ltac:(lia)).
  assert (0 <= i) by (apply Z.div_pos; lia). assert (0 <= m <= 8 /\ i + m <= zlen value) as [Hm Hmv] by lia.
  assert (Z.testbit (wrap 64 (Z.shiftl (le_num (rev (window value i m))) left)) k =
    (left <=? k) && bit value (off + 63 - k)) as Hmain.
  { rewrite wrap_testbit, Z.shiftl_spec by lia. destruct (Z.ltb_spec k 64); [|lia]. cbn [andb]. rewrite ?andb_true_r.
    destruct (Z.leb_spec left k); [|by rewrite Z.testbit_neg_r by lia].
    replace (k - left) with (63 - (63 - k + left)) by lia. rewrite window_num by (done || lia).
    replace (8 * i + (63 - k + left)) with (off + 63 - k) by lia.
    destruct (Z.ltb_spec (63 - k + left) (8 * m)); [done|]. by rewrite bit_high by lia. }
  unfold field_word. destruct (Z.ltb_spec (64 - left) w).
  - rewrite Z.lor_spec, Hmain. destruct (Z.leb_spec left k).
    + cbn [andb]. destruct (Z.ltb_spec (i + m) (zlen value)); [|by rewrite Z.testbit_0_l, orb_false_r].
      rewrite Z.shiftr_spec by lia. rewrite (fits_high 8) by (try apply byte_at_ok; done || lia). by rewrite orb_false_r.
    + cbn [andb orb]. destruct (Z.ltb_spec (i + m) (zlen value)).
      * assert (m = 8) as -> by lia. rewrite Z.shiftr_spec by lia.
        replace (off + 63 - k) with (8 * (i + 8) + (left - 1 - k)) by lia. unfold bit.
        replace ((8 * (i + 8) + (left - 1 - k)) / 8) with (i + 8) by (apply (Z.div_unique _ _ _ (left - 1 - k)); lia).
        replace ((8 * (i + 8) + (left - 1 - k)) mod 8) with (left - 1 - k) by (apply (Z.mod_unique _ _ (i + 8)); lia).
        f_equal. lia.
      * rewrite Z.testbit_0_l. by rewrite bit_high by lia.
  - rewrite Hmain. destruct (Z.leb_spec left k); [done|lia].
Qed.

Lemma low_bits off : off - Z.shiftl (Z.shiftr off 3) 3 = off mod 8.
Proof. rewrite shiftr_3, Z.shiftl_mul_pow2 by lia. rewrite Z.mod_eq by lia. lia. Qed.

Lemma field_word_fits value curr vend left w buf :
  bytes_ok value -> 0 <= left < 8 -> fits 64 (field_word value curr vend left w buf).
Proof.
  intros Hv Hl. unfold field_word. assert (fits 64 (wrap 64 (Z.shiftl (le_num buf) left))) by (by apply wrap_fits).
  destruct (64 - left <? w); [|done]. apply fits_lor; [lia|done|]. destruct (curr <? vend); [|done].
  apply (fits_mono (8 - (8 - left))); [|lia]. apply fits_shiftr; [lia|]. by apply byte_at_ok.
Qed.

(** Sign extension by an arithmetic shift. *)
Lemma shiftr_to_i64 v w :
  fits 64 v -> 1 <= w <= 64 -> Z.shiftr (to_i64 v) (64 - w) = signed_value w (Z.shiftr v (64 - w)).
Proof.
  intros Hv Hw. unfold fits in Hv. rewrite !Z.shiftr_div_pow2 by lia. unfold to_i64, signed_value.
  set (r := 64 - w). assert (0 < 2 ^ r) as Hr by (apply Z.pow_pos_nonneg; lia).
  assert (2 ^ 63 = 2 ^ (w - 1) * 2 ^ r) as E63 by (rewrite <- Z.pow_add_r by lia; f_equal; lia).
  assert (2 ^ 64 = 2 ^ w * 2 ^ r) as E64 by (rewrite <- Z.pow_add_r by lia; f_equal; lia).
  pose proof (Z.div_mod v (2 ^ r) ltac:(lia)). pose proof (Z.mod_pos_bound v (2 ^ r) Hr).
  destruct (Z.ltb_spec v (2 ^ 63)), (Z.ltb_spec (v / 2 ^ r) (2 ^ (w - 1))); [done|nia|nia|].
  rewrite E64. replace (v - 2 ^ w * 2 ^ r) with (v + (- 2 ^ w) * 2 ^ r) by lia. rewrite Z.div_add by lia. lia.
Qed.

Lemma get_value_spec value off w signed :
  bytes_ok value -> 0 <= off -> 1 <= w <= 64 -> off / 8 < zlen value ->
  let i := off / 8 in
  let cend := Z.min ((off + w - 1) / 8 + 1) (zlen value) in
  let m := Z.min 8 (cend - i) in
  get_value value i cend (zlen value) off w signed = (field_value value off w signed, rev (window value i m), i + m).
Proof.
  intros Hv Ho Hw Hi i cend m. unfold get_value. rewrite low_bits.
  pose proof (Z.div_mod off 8 ltac:(lia)). pose proof (Z.mod_pos_bound off 8 ltac:(lia)) as Hl.
  pose proof (Z.div_mod (off + w - 1) 8 ltac:(lia)). pose proof (Z.mod_pos_bound (off + w - 1) 8 ltac:(lia)).
  assert (0 <= i) by (apply Z.div_pos; lia). rewrite fill_buf_window by lia. fold m.
  pose proof (field_word_fits value (i + m) (zlen value) (off mod 8) w (rev (window value i m)) Hv Hl) as Hf.
  assert (Z.shiftr (field_word value (i + m) (zlen value) (off mod 8) w (rev (window value i m))) (64 - w) = field value off w) as Hs.
  { apply Z.bits_inj'. intros k Hk. rewrite Z.shiftr_spec, field_bits by lia. destruct (Z.ltb_spec k w).
    - pose proof (field_word_bits value off w (k + (64 - w)) Hv Ho Hw Hi ltac:(lia)) as Hb. cbv zeta in Hb.
      fold i cend m in Hb. rewrite Hb. cbn [andb]. f_equal. lia.
    - apply (fits_high 64); [done|lia]. }
  unfold field_word in *. cbv zeta in *. f_equal. f_equal. unfold field_value. destruct signed.
  - rewrite shiftr_to_i64 by (done || lia). by rewrite Hs.
  - by rewrite Hs.
Qed.

Lemma valid_offset o : 0 <= o <= MAX_OFFSET_FOR_BITMAP_LENGTH -> is_valid_bit_offset o = true.
Proof. intros [H1 H2]. unfold is_valid_bit_offset. by rewrite (proj2 (Z.leb_le _ _) H1), (proj2 (Z.leb_le _ _) H2). Qed.

Lemma validate_ok off w :
  0 <= off -> 1 <= w <= 64 -> off + w - 1 <= MAX_OFFSET_FOR_BITMAP_LENGTH ->
  try_validate_bitfield_offset off w false = Some (off, off + w - 1) /\
  index off = Some (off / 8) /\ index (off + w - 1) = Some ((off + w - 1) / 8).
Proof.
  intros Ho Hw He. unfold try_validate_bitfield_offset, index. rewrite !valid_offset, !shiftr_3 by lia.
  split; [|done]. destruct (Z.eqb_spec w 0); [lia|]. destruct (Z.ltb_spec off 0); [lia|].
  unfold checked_add_i64. replace (i64_ok (off + (w - 1))) with true.
  - replace (off + (w - 1)) with (off + w - 1) by lia. by rewrite valid_offset by lia.
  - symmetry. unfold MAX_OFFSET_FOR_BITMAP_LENGTH, MAX_BITMAP_PAYLOAD_BYTES in He.
    apply andb_true_iff. unfold i64_min, i64_max. rewrite !Z.leb_le. lia.
Qed.

(** A field behind the end of the bitmap is zero. *)
Lemma field_high l off w : 0 <= w -> 8 * zlen l <= off -> field l off w = 0.
Proof.
  intros Hw Ho. apply Z.bits_inj'. intros k Hk. rewrite field_bits, Z.testbit_0_l by lia.
  destruct (Z.ltb_spec k w); [|done]. cbn [andb]. apply bit_high. lia.
Qed.

Lemma get_bitfield_spec value off w signed :
  bytes_ok value -> 0 <= off -> 1 <= w <= 64 -> off + w - 1 <= MAX_OFFSET_FOR_BITMAP_LENGTH ->
  get_bitfield value (zlen value) off w signed = Some (field_value value off w signed).
Proof.
  intros Hv Ho Hw He. unfold get_bitfield. destruct (validate_ok off w Ho Hw He) as (-> & -> & ->).
  destruct (Z.leb_spec (zlen value) (off / 8)) as [Hge|Hlt]; [|by rewrite get_value_spec].
  pose proof (Z.div_mod off 8). pose proof (Z.mod_pos_bound off 8). unfold field_value.
  rewrite field_high by lia. destruct signed; [|done]. unfold signed_value.
  destruct (Z.ltb_spec 0 (2 ^ (w - 1))) as [|Hp]; [done|]. pose proof (Z.pow_pos_nonneg 2 (w - 1)). lia.
Qed.

(** C30: [GET] returns the number in the bits of the field, most significant bit
    first, in two's complement for a signed field, wherever the field starts and
    however many bytes - up to nine - it spans; bits behind the end are zero. *)
Theorem get_bitfield_correct value off w signed :
  bytes_ok value -> 0 <= off -> 1 <= w <= 64 -> off + w - 1 <= MAX_OFFSET_FOR_BITMAP_LENGTH ->
  get_bitfield value (zlen value) off w signed = Some (field_value value off w signed).
Proof. apply get_bitfield_spec. Qed.

Lemma get_bitfield_correct_witness :
  get_bitfield [255; 16; 3; 4; 5; 6; 7; 8; 9] 9 7 64 true =
  Some (field_value [255; 16; 3; 4; 5; 6; 7; 8; 9] 7 64 true).
Proof.
  apply (get_bitfield_correct [255; 16; 3; 4; 5; 6; 7; 8; 9] 7 64 true);
    [repeat constructor; by vm_compute|lia|lia|by vm_compute].
Defined.

(** ** Writing *)

(** The low [w] bits of the new value. *)
Lemma low_value new w k :
  1 <= w <= 64 -> 0 <= k ->
  Z.testbit (Z.land (of_i64 new) (if w =? 64 then 2 ^ 64 - 1 else Z.shiftl 1 w - 1)) k = (k <? w) && Z.testbit new k.
Proof.
  intros Hw Hk. assert ((if w =? 64 then 2 ^ 64 - 1 else Z.shiftl 1 w - 1) = Z.ones w) as ->.
  { rewrite Z.shiftl_1_l, Z.ones_equiv. destruct (Z.eqb_spec w 64) as [->|]; lia. }
  rewrite Z.land_spec, ones_testbit by lia. unfold of_i64. rewrite wrap_testbit by lia.
  destruct (Z.ltb_spec k w), (Z.ltb_spec k 64); try lia; by rewrite ?andb_true_r, ?andb_false_r.
Qed.

(** The word in which the field has been replaced: its first [left] bits and the
    bits behind the field are kept. *)
Definition placed (N new left w T : Z) : Prop :=
  forall q, 0 <= q < 64 ->
    Z.testbit T (63 - q) =
    if (left <=? q) && (q <? left + w) then Z.testbit new (w - 1 - (q - left)) else Z.testbit N (63 - q).

(** The field ends within the 64 bits. *)
Lemma placed_inside N new left w tmp :
  0 <= left < 8 -> 1 <= w <= 64 - left ->
  (forall k, 0 <= k -> Z.testbit tmp k = (k <? w) && Z.testbit new k) ->
  let shf := 64 - left - w in
  let mask := if w =? 64 then 2 ^ 64 - 1 else Z.shiftl 1 w - 1 in
  placed N new left w
    (Z.lor (Z.land N (bnot 64 (wrap 64 (Z.shiftl mask shf)))) (wrap 64 (Z.shiftl tmp shf))).
Proof.
  intros Hl Hw Ht shf mask q Hq. assert (mask = Z.ones w) as ->.
  { unfold mask. rewrite Z.shiftl_1_l, Z.ones_equiv. destruct (Z.eqb_spec w 64) as [->|]; lia. }
  rewrite Z.lor_spec, Z.land_spec, bnot_spec, !wrap_testbit, !Z.shiftl_spec by lia.
  destruct (Z.ltb_spec (63 - q) 64); [|lia]. cbn [andb]. rewrite ?andb_true_r.
  destruct (Z.lt_ge_cases (63 - q - shf) 0).
  - rewrite !(Z.testbit_neg_r _ (63 - q - shf)) by lia. cbn [negb]. rewrite andb_true_r, orb_false_r.
    destruct (Z.leb_spec left q), (Z.ltb_spec q (left + w)); (done || lia).
  - rewrite ones_testbit, Ht by lia.
    destruct (Z.ltb_spec (63 - q - shf) w), (Z.leb_spec left q), (Z.ltb_spec q (left + w)); try lia; cbn [negb andb orb].
    + rewrite andb_false_r. cbn [orb]. f_equal. lia.
    + by rewrite andb_true_r, orb_false_r.
Qed.

(** The field goes on in a ninth byte. *)
Lemma placed_across N new left w tmp :
  0 <= left < 8 -> 64 - left < w <= 64 ->
  (forall k, 0 <= k -> Z.testbit tmp k = (k <? w) && Z.testbit new k) ->
  let sbits := w - (64 - left) in
  let mask := if w =? 64 then 2 ^ 64 - 1 else Z.shiftl 1 (w - sbits) - 1 in
  placed N new left w
    (Z.lor (Z.land N (bnot 64 (Z.shiftr (wrap 64 (Z.shiftl mask sbits)) sbits)))
           (Z.shiftr (Z.land tmp (bnot 64 (Z.shiftl 1 sbits - 1))) sbits)).
Proof.
  intros Hl Hw Ht sbits mask q Hq.
  assert (forall k, 0 <= k -> Z.testbit (Z.shiftr (wrap 64 (Z.shiftl mask sbits)) sbits) k = (k <? 64 - left)) as Hmask.
  { intros k Hk. rewrite Z.shiftr_spec, wrap_testbit, Z.shiftl_spec by lia. replace (k + sbits - sbits) with k by lia.
    unfold mask. destruct (Z.eqb_spec w 64) as [->|].
    - change (2 ^ 64 - 1) with (Z.ones 64). rewrite ones_testbit by lia.
      destruct (Z.ltb_spec (k + sbits) 64), (Z.ltb_spec k 64), (Z.ltb_spec k (64 - left)); (done || lia).
    - rewrite Z.shiftl_1_l, Z.sub_1_r, <- Z.ones_equiv, ones_testbit by lia.
      destruct (Z.ltb_spec (k + sbits) 64), (Z.ltb_spec k (w - sbits)), (Z.ltb_spec k (64 - left)); (done || lia). }
  rewrite Z.lor_spec, Z.land_spec, bnot_spec, Hmask, Z.shiftr_spec, Z.land_spec, bnot_spec, Ht by lia.
  rewrite Z.shiftl_1_l, Z.sub_1_r, <- Z.ones_equiv, ones_testbit by lia.
  destruct (Z.ltb_spec (63 - q) 64), (Z.ltb_spec (63 - q) (64 - left)), (Z.ltb_spec (63 - q + sbits) w),
    (Z.ltb_spec (63 - q + sbits) 64), (Z.ltb_spec (63 - q + sbits) sbits), (Z.leb_spec left q), (Z.ltb_spec q (left + w));
    try lia; cbn [negb andb orb]; rewrite ?andb_true_r, ?andb_false_r, ?orb_false_r; cbn [orb]; try done; f_equal; lia.
Qed.

Lemma bit_splice i bs l j :
  0 <= i -> i + zlen bs <= zlen l -> 0 <= j ->
  bit (splice i bs l) j = if (8 * i <=? j) && (j <? 8 * (i + zlen bs)) then bit bs (j - 8 * i) else bit l j.
Proof.
  intros Hi Hb Hj. unfold splice. assert (zlen (take (Z.to_nat i) l) = i) as Hz by (unfold zlen in *; rewrite length_take; lia).
  pose proof (zlen_nonneg bs). rewrite bit_app, Hz by lia. destruct (Z.ltb_spec j (8 * i)).
  - destruct (Z.leb_spec (8 * i) j); [lia|]. cbn [andb]. rewrite <- (take_drop (Z.to_nat i) l) at 2.
    rewrite bit_app, Hz by lia. by destruct (Z.ltb_spec j (8 * i)); [|lia].
  - destruct (Z.leb_spec (8 * i) j); [|lia]. cbn [andb]. rewrite bit_app by lia.
    destruct (Z.ltb_spec (j - 8 * i) (8 * zlen bs)), (Z.ltb_spec j (8 * (i + zlen bs))); try lia; [done|].
    unfold zlen in *.
    rewrite <- (take_drop (Z.to_nat i + length bs) l) at 2. rewrite bit_app by lia.
    unfold zlen. rewrite length_take. destruct (Z.ltb_spec j (8 * Z.of_nat ((Z.to_nat i + length bs) `min` length l))); [lia|].
    f_equal. lia.
Qed.

(** [value'] is [value] with the field replaced by the low bits of [new]. *)
Record written (value : list Z) (off w new : Z) (value' : list Z) : Prop := {
  wr_len : zlen value' = zlen value;
  wr_ok : bytes_ok value';
  wr_bits : forall j, 0 <= j ->
    bit value' j = if (off <=? j) && (j <? off + w) then Z.testbit new (w - 1 - (j - off)) else bit value j
}.

(** Storing the first [m] bytes of the word. *)
Lemma store_word value value1 off w new m T :
  bytes_ok value -> bytes_ok value1 -> zlen value1 = zlen value -> 0 <= off -> 1 <= w <= 64 ->
  let i := off / 8 in let left := off mod 8 in
  m = Z.min 8 ((off + w - 1) / 8 + 1 - i) -> i + m <= zlen value ->
  placed (le_num (rev (window value i m))) new left w T ->
  (forall j, 0 <= j -> ~ (8 * i <= j < 8 * (i + m)) ->
     bit value1 j = if (off <=? j) && (j <? off + w) then Z.testbit new (w - 1 - (j - off)) else bit value j) ->
  written value off w new (splice i (slice 0 m (be_bytes 8 T)) value1).
Proof.
  intros Hv Hv1 Hz Ho Hw i left Hm Hb HT Hrest.
  pose proof (Z.div_mod off 8 ltac:(lia)) as Hd. pose proof (Z.mod_pos_bound off 8 ltac:(lia)) as Hl. fold i left in Hd, Hl.
  pose proof (Z.div_mod (off + w - 1) 8 ltac:(lia)). pose proof (Z.mod_pos_bound (off + w - 1) 8 ltac:(lia)).
  assert (0 <= i) by (apply Z.div_pos; lia). assert (0 <= m <= 8) as Hm8 by lia.
  assert (zlen (be_bytes 8 T) = 8) as Hbe by (unfold zlen; by rewrite length_be_bytes).
  assert (zlen (slice 0 m (be_bytes 8 T)) = m) as Hs by (rewrite zlen_slice; lia).
  split.
  - rewrite zlen_splice; [done|lia|lia].
  - apply bytes_ok_splice; [|done]. apply bytes_ok_slice, be_bytes_ok.
  - intros j Hj. rewrite bit_splice, Hs by lia.
    destruct (Z.leb_spec (8 * i) j), (Z.ltb_spec j (8 * (i + m))); cbn [andb]; try (apply Hrest; lia).
    rewrite bit_slice, Z.mul_0_r, Z.add_0_l, bit_be_bytes by lia. change (8 * Z.of_nat 8) with 64.
    replace (64 - 1 - (j - 8 * i)) with (63 - (j - 8 * i)) by lia. rewrite HT by lia. rewrite window_num by (done || lia).
    replace (8 * i + (j - 8 * i)) with j by lia.
    destruct (Z.leb_spec left (j - 8 * i)), (Z.ltb_spec (j - 8 * i) (left + w)), (Z.leb_spec off j), (Z.ltb_spec j (off + w)),
      (Z.ltb_spec (j - 8 * i) (8 * m)); try lia; cbn [andb]; try done. f_equal. lia.
Qed.

(** The ninth byte. *)
Lemma ninth_byte left w new tmp b :
  0 <= left < 8 -> 64 - left < w <= 64 -> fits 8 b ->
  (forall k, 0 <= k -> Z.testbit tmp k = (k <? w) && Z.testbit new k) ->
  let sbits := w - (64 - left) in
  let keep := 8 - sbits in
  let b' := Z.lor (wrap 8 (Z.shiftl (Z.land tmp (Z.shiftl 1 sbits - 1)) keep)) (Z.land b (Z.shiftl 1 keep - 1)) in
  fits 8 b' /\ forall r, 0 <= r < 8 ->
    Z.testbit b' (7 - r) = if r <? sbits then Z.testbit new (sbits - 1 - r) else Z.testbit b (7 - r).
Proof.
  intros Hl Hw Hb Ht sbits keep b'. split.
  { apply fits_lor; [lia|apply wrap_fits; lia|]. apply fits_land_l; [lia|done]. }
  intros r Hr. unfold b'. rewrite Z.lor_spec, wrap_testbit, Z.shiftl_spec, Z.land_spec by lia.
  rewrite !Z.shiftl_1_l, !Z.sub_1_r, <- !Z.ones_equiv, Z.land_spec, (ones_testbit keep) by lia.
  destruct (Z.lt_ge_cases (7 - r - keep) 0).
  - rewrite !(Z.testbit_neg_r _ (7 - r - keep)) by lia. cbn [andb]. rewrite ?andb_false_r. cbn [orb].
    destruct (Z.ltb_spec r sbits), (Z.ltb_spec (7 - r) keep); try lia. by rewrite ?andb_true_r.
  - rewrite ones_testbit, Ht by lia.
    destruct (Z.ltb_spec r sbits), (Z.ltb_spec (7 - r) keep), (Z.ltb_spec (7 - r) 8), (Z.ltb_spec (7 - r - keep) w),
      (Z.ltb_spec (7 - r - keep) sbits); try lia. cbn [andb]. rewrite ?andb_true_r, ?andb_false_r, ?orb_false_r. f_equal. lia.
Qed.

Lemma set_value_spec value off w new :
  bytes_ok value -> 0 <= off -> 1 <= w <= 64 -> (off + w - 1) / 8 < zlen value ->
  let i := off / 8 in
  let cend := (off + w - 1) / 8 + 1 in
  let m := Z.min 8 (cend - i) in
  exists value', set_value (rev (window value i m)) value (i + m) cend off w (64 - off mod 8) new = Some value' /\
    written value off w new value'.
Proof.
  intros Hv Ho Hw He i cend m.
  pose proof (Z.div_mod off 8 ltac:(lia)) as Hd. pose proof (Z.mod_pos_bound off 8 ltac:(lia)) as Hl. fold i in Hd.
  pose proof (Z.div_mod (off + w - 1) 8 ltac:(lia)). pose proof (Z.mod_pos_bound (off + w - 1) 8 ltac:(lia)).
  assert (0 <= i) by (apply Z.div_pos; lia). unfold set_value. rewrite shiftr_3. fold i.
  set (tmp := Z.land (of_i64 new) _). pose proof (low_value new w) as Ht. fold tmp in Ht.
  destruct (Z.ltb_spec i cend); [|lia]. replace (Z.min (cend - i) 8) with m by lia.
  destruct (Z.ltb_spec (64 - off mod 8) w) as [Hacross|Hin].
  - assert (m = 8) as Hm by lia.
    destruct (lookup_lt_is_Some_2 value (Z.to_nat (i + m))) as [b Hb]; [unfold zlen in *; lia|]. rewrite Hb.
    assert (fits 8 b) as Hfb by (by apply (Forall_lookup_1 _ _ _ _ Hv Hb)).
    destruct (ninth_byte (off mod 8) w new tmp b) as [Hf9 Hb9]; [lia|lia|done|intros; by apply Ht|].
    set (sbits := w - (64 - off mod 8)) in *. set (b' := Z.lor _ _) in *.
    destruct (Z.ltb_spec (64 - off mod 8 - w) 0); [|lia]. replace (- (64 - off mod 8 - w)) with sbits by lia.
    eexists. split; [done|]. apply (store_word value _ off w new m); try done; [|..].
    + apply Forall_insert; done.
    + unfold zlen. by rewrite length_insert.
    + lia.
    + apply placed_across; [lia|lia|intros; by apply Ht].
    + intros j Hj Hout. rewrite bit_insert by lia. fold i in Hout.
      destruct (Z.eqb_spec (j / 8) (i + m)) as [Ej|Hne].
      * pose proof (Z.div_mod j 8 ltac:(lia)). pose proof (Z.mod_pos_bound j 8 ltac:(lia)). rewrite Hb9 by lia.
        destruct (Z.ltb_spec (j mod 8) sbits), (Z.leb_spec off j), (Z.ltb_spec j (off + w)); try lia; cbn [andb].
        -- f_equal. lia.
        -- unfold bit, byte_at. by rewrite Ej, Hb.
      * pose proof (Z.div_mod j 8 ltac:(lia)). pose proof (Z.mod_pos_bound j 8 ltac:(lia)).
        destruct (Z.leb_spec off j), (Z.ltb_spec j (off + w)); try done; lia.
  - destruct (Z.ltb_spec (64 - off mod 8 - w) 0); [lia|].
    eexists. split; [done|]. apply (store_word value value off w new m); try done; [lia| |].
    + apply placed_inside; [lia|lia|intros; by apply Ht].
    + intros j Hj Hout. fold i in Hout. destruct (Z.leb_spec off j), (Z.ltb_spec j (off + w)); try done; lia.
Qed.

End BitfieldSpec.
