(* ===== verification/BitfieldExec.v ===== *)
(** * Execution of bit field commands ([wedb/wbitmap/src/bitfield/execute.rs])

    [SET] and [INCRBY] on a field, and what the overflow policies do. *)

From stdpp Require Import base list numbers option tactics.
From Stdlib Require Import ZArith Lia Bool.
From S2P Require Import Prelude Bytes Num Bitmap BitmapSpec BitfieldSpec.

Module BitfieldExec.
Import Manager BitField BitmapSpec BitfieldSpec.

(** ** What a write leaves *)

Lemma field_written value off w new value' :
  0 <= off -> 0 <= w -> written value off w new value' -> field value' off w = wrap w new.
Proof.
  intros Ho Hw Hwr. apply Z.bits_inj'. intros k Hk. rewrite field_bits, wrap_testbit by lia.
  destruct (Z.ltb_spec k w); [|by rewrite ?andb_false_r]. rewrite (wr_bits _ _ _ _ _ Hwr) by lia. cbn [andb].
  destruct (Z.leb_spec off (off + w - 1 - k)), (Z.ltb_spec (off + w - 1 - k) (off + w)); try lia. cbn [andb].
  rewrite ?andb_true_r. f_equal. lia.
Qed.

(** Fields that do not overlap are not affected. *)
Lemma field_other value off w new value' off2 w2 :
  0 <= off2 -> 0 <= w2 -> written value off w new value' -> off2 + w2 <= off \/ off + w <= off2 ->
  field value' off2 w2 = field value off2 w2.
Proof.
  intros Ho Hw Hwr Hd. apply Z.bits_inj'. intros k Hk. rewrite !field_bits by lia.
  destruct (Z.ltb_spec k w2); [|done]. cbn [andb]. rewrite (wr_bits _ _ _ _ _ Hwr) by lia.
  destruct (Z.leb_spec off (off2 + w2 - 1 - k)), (Z.ltb_spec (off2 + w2 - 1 - k) (off + w)); try lia; done.
Qed.

(** A command on a field that the bitmap holds. *)
Record fits_bitmap (args : BitFieldCmdArgs) (value : list Z) : Prop := {
  fb_ok : bytes_ok value;
  fb_off : 0 <= args_offset args;
  fb_width : 1 <= encoding_of (type_info args) <= 64;
  fb_max : args_offset args + encoding_of (type_info args) - 1 <= MAX_OFFSET_FOR_BITMAP_LENGTH;
  fb_len : (args_offset args + encoding_of (type_info args) - 1) / 8 < zlen value
}.

(** The field of a command, and as it is reported. *)
Definition arg_field (args : BitFieldCmdArgs) (value : list Z) : Z :=
  field value (args_offset args) (encoding_of (type_info args)).
Definition arg_value (args : BitFieldCmdArgs) (value : list Z) : Z :=
  field_value value (args_offset args) (encoding_of (type_info args)) (signed_of (type_info args)).

Lemma write_bitfield_spec args value new overflow :
  fits_bitmap args value -> new_field_value args (arg_value args value) = Some (new, overflow) ->
  exists value',
    write_bitfield value (zlen value) args =
      Some (Some (match secondary_command args with Set_ => (arg_value args value, false) | _ => (new, overflow) end), value') /\
    written value (args_offset args) (encoding_of (type_info args)) new value'.
Proof.
  intros [Hv Ho Hw Hm Hl] Hnew. unfold write_bitfield. set (off := args_offset args) in *. set (w := encoding_of (type_info args)) in *.
  destruct (validate_ok off w Ho Hw Hm) as (-> & -> & ->).
  pose proof (Z.div_mod off 8). pose proof (Z.mod_pos_bound off 8).
  pose proof (Z.div_mod (off + w - 1) 8). pose proof (Z.mod_pos_bound (off + w - 1) 8).
  destruct (Z.leb_spec (zlen value) (off / 8)); [lia|]. rewrite get_value_spec by (done || lia).
  unfold arg_value in Hnew. fold off w in Hnew. rewrite Hnew, low_bits, (Z.min_l _ (zlen value)) by lia.
  destruct (set_value_spec value off w new Hv Ho Hw Hl) as (value' & -> & Hwr). exists value'. by split.
Qed.

(** ** Overflow policies *)

Definition field_min (w : Z) (signed : bool) : Z := if signed then - 2 ^ (w - 1) else 0.
Definition field_max (w : Z) (signed : bool) : Z := if signed then 2 ^ (w - 1) - 1 else 2 ^ w - 1.

(** What a policy makes of the exact result: the value to store and whether the
    command is to be abandoned. *)
Definition policy (ot w : Z) (signed : bool) (exact : Z) : Z * bool :=
  if (field_min w signed <=? exact) && (exact <=? field_max w signed) then (exact, false)
  else if ot =? Wrap then (if signed then signed_value w (wrap w exact) else wrap w exact, false)
  else if ot =? Sat then (if exact <? field_min w signed then field_min w signed else field_max w signed, false)
  else (0, true).

(** The policies of the code. *)
Definition known_policy (ot : Z) : Prop := ot = Wrap \/ ot = Sat \/ ot = Fail_.

Lemma pow_pred w : 1 <= w -> 2 ^ w = 2 * 2 ^ (w - 1).
Proof. intros Hw. rewrite <- Z.pow_succ_r by lia. f_equal. lia. Qed.

Lemma pow_bounds w n : 0 <= w <= n -> 0 < 2 ^ w <= 2 ^ n.
Proof. intros Hw. split; [apply Z.pow_pos_nonneg; lia|apply Z.pow_le_mono_r; lia]. Qed.

Lemma land_max x w : 1 <= w -> Z.land x (UNSIGNED_MAX_VAL w) = wrap w x.
Proof.
  intros Hw. unfold UNSIGNED_MAX_VAL. destruct (Z.eqb_spec w 0); [lia|].
  rewrite Z.sub_1_r, <- Z.ones_equiv, Z.land_ones by lia. done.
Qed.

Lemma to_i64_small x : 0 <= x < 2 ^ 63 -> to_i64 x = x.
Proof. intros Hx. unfold to_i64. by destruct (Z.ltb_spec x (2 ^ 63)); [|lia]. Qed.

Lemma of_i64_nonneg x : 0 <= x <= i64_max -> of_i64 x = x.
Proof. intros Hx. apply wrap_id. unfold fits, i64_max in *. lia. Qed.

Lemma bnot_sub x : fits 64 x -> bnot 64 x = 2 ^ 64 - 1 - x.
Proof.
  intros Hx. unfold bnot. rewrite <- Z.sub_nocarry_ldiff; [done|].
  destruct (Z.eq_dec x 0) as [->|]; [by rewrite Z.ldiff_0_l|]. unfold fits in Hx.
  apply Z.ldiff_ones_r_low; [lia|]. apply Z.log2_lt_pow2; lia.
Qed.

(** The absolute value of a negative increment. *)
Lemma abs_incr incr : i64_min <= incr < 0 -> wadd 64 (bnot 64 (of_i64 incr)) 1 = - incr.
Proof.
  intros Hi. unfold i64_min in Hi. assert (bnot 64 (of_i64 incr) = - incr - 1) as ->.
  { unfold of_i64, wrap. replace (incr mod 2 ^ 64) with (incr + 2 ^ 64) by (apply (Z.mod_unique _ _ (-1)); lia).
    rewrite bnot_sub by (unfold fits; lia). lia. }
  unfold wadd. rewrite wrap_id by (unfold fits; lia). lia.
Qed.

Lemma unsigned_correct value incr w ot :
  1 <= w <= 63 -> 0 <= value <= 2 ^ w - 1 -> known_policy ot ->
  0 <= incr <= i64_max \/ i64_min <= incr < 0 /\ - incr <= 2 ^ w - 1 - value ->
  check_bitfield_overflow value incr w ot false = policy ot w false (value + incr).
Proof.
  intros Hw Hv Hot Hi. pose proof (pow_bounds w 63 ltac:(lia)) as Hp.
  unfold check_bitfield_overflow, check_unsigned_bitfield_overflow, policy, field_min, field_max.
  rewrite (of_i64_nonneg value) by (unfold i64_max; lia). rewrite land_max by lia.
  assert (UNSIGNED_MAX_VAL w = 2 ^ w - 1) as -> by (unfold UNSIGNED_MAX_VAL; by destruct (Z.eqb_spec w 0); [lia|]).
  assert (wsub 64 (2 ^ w - 1) value = 2 ^ w - 1 - value) as -> by (apply wrap_id; unfold fits; lia).
  destruct Hi as [Hi|[Hi Habs]].
  - destruct (Z.ltb_spec incr 0); [lia|]. rewrite andb_false_r, of_i64_nonneg by done. unfold i64_max in Hi.
    assert (wadd 64 value incr = value + incr) as -> by (apply wrap_id; unfold fits; lia).
    destruct (Z.leb_spec 0 (value + incr)); [|lia]. cbn [andb]. rewrite orb_false_r.
    destruct (Z.ltb_spec (2 ^ w - 1 - value) incr), (Z.leb_spec (value + incr) (2 ^ w - 1)); try lia.
    + pose proof (wrap_fits w (value + incr) ltac:(lia)) as Hf. unfold fits in Hf.
      destruct Hot as [->|[->| ->]]; cbn [Z.eqb andb Pos.eqb Wrap Sat Fail_]; [by rewrite to_i64_small by lia| |done].
      destruct (Z.ltb_spec (value + incr) 0); [lia|]. by rewrite to_i64_small by lia.
    + rewrite (wrap_id w) by (unfold fits; lia).
      destruct Hot as [->|[->| ->]]; cbn [Z.eqb andb Pos.eqb Wrap Sat Fail_]; by rewrite to_i64_small by lia.
  - destruct (Z.ltb_spec incr 0); [|lia]. rewrite andb_true_r, abs_incr by done.
    destruct (Z.ltb_spec (2 ^ w - 1 - value) (- incr)); [lia|]. cbn [orb].
    destruct (Z.leb_spec (value + incr) (2 ^ w - 1)); [|lia]. rewrite andb_true_r.
    destruct (Z.ltb_spec value (- incr)), (Z.leb_spec 0 (value + incr)); try lia.
    + assert (wrap w (wsub 64 value (- incr)) = wrap w (value + incr)) as Hwr.
      { unfold wsub, wrap. replace (value - - incr) with (value + incr) by lia. apply Z.mod_mod_divide.
        exists (2 ^ (64 - w)). rewrite <- Z.pow_add_r by lia. f_equal. lia. }
      rewrite Hwr. pose proof (wrap_fits w (value + incr) ltac:(lia)) as Hf. unfold fits in Hf.
      destruct Hot as [->|[->| ->]]; cbn [Z.eqb andb Pos.eqb Wrap Sat Fail_]; [by rewrite to_i64_small by lia| |done].
      destruct (Z.ltb_spec (value + incr) 0); [|lia]. done.
    + assert (wsub 64 value (- incr) = value + incr) as -> by (unfold wsub; rewrite wrap_id by (unfold fits; lia); lia).
      rewrite (wrap_id w) by (unfold fits; lia).
      destruct Hot as [->|[->| ->]]; cbn [Z.eqb andb Pos.eqb Wrap Sat Fail_]; by rewrite to_i64_small by lia.
Qed.

(** ** Signed fields *)

(** The pattern of the sum, and its value. *)
Lemma wadd_pattern a b : wadd 64 (of_i64 a) (of_i64 b) = of_i64 (a + b).
Proof. unfold wadd, of_i64, wrap. by rewrite <- Z.add_mod by lia. Qed.

Lemma of_i64_cases e : - 2 ^ 64 <= e < 2 ^ 64 -> of_i64 e = if e <? 0 then e + 2 ^ 64 else e.
Proof.
  intros He. unfold of_i64, wrap. destruct (Z.ltb_spec e 0).
  - destruct (Z.eq_dec e (- 2 ^ 64)) as [->|]; [done|]. symmetry. apply (Z.mod_unique _ _ (-1)); lia.
  - apply Z.mod_small. lia.
Qed.

(** The sign bit of a sum of two negative numbers. *)
Lemma signbit_negative w e :
  1 <= w <= 64 -> - 2 ^ w <= e < 0 ->
  (Z.land (of_i64 e) (SIGNED_SIGNBIT w) =? 0) = (e <? - 2 ^ (w - 1)).
Proof.
  intros Hw He. pose proof (pow_pred w ltac:(lia)) as Hp. pose proof (pow_bounds (w - 1) 63 ltac:(lia)).
  unfold SIGNED_SIGNBIT. destruct (Z.eqb_spec w 0); [lia|]. rewrite land_pow2 by lia.
  unfold of_i64. rewrite wrap_testbit by lia. destruct (Z.ltb_spec (w - 1) 64); [|lia]. cbn [andb]. rewrite ?andb_true_r.
  assert (Z.testbit e (w - 1) = negb (e <? - 2 ^ (w - 1))) as ->.
  { rewrite <- (Z.mod_pow2_bits_low e w) by lia.
    replace (e mod 2 ^ w) with (e + 2 ^ w - (if e =? - 2 ^ w then 2 ^ w - 2 ^ w else 0)).
    2:{ destruct (Z.eqb_spec e (- 2 ^ w)) as [->|]; [|apply (Z.mod_unique _ _ (-1)); lia].
        replace (- 2 ^ w) with ((-1) * 2 ^ w) by lia. rewrite Z.mod_mul by lia. lia. }
    replace (e + 2 ^ w - _) with (e + 2 ^ w) by (destruct (e =? - 2 ^ w); lia).
    rewrite testbit_top by (unfold fits; replace (w - 1 + 1) with w by lia; lia).
    destruct (Z.leb_spec (2 ^ (w - 1)) (e + 2 ^ w)), (Z.ltb_spec e (- 2 ^ (w - 1))); (done || lia). }
  destruct (Z.ltb_spec e (- 2 ^ (w - 1))); cbn [negb]; [done|]. apply Z.eqb_neq. lia.
Qed.

(** Bits above the value of a non-negative sum. *)
Lemma high_bits_positive w e :
  1 <= w <= 63 -> 0 <= e < 2 ^ 63 -> (0 <? Z.land (of_i64 e) (bnot 64 (SIGNED_MASK w))) = (2 ^ (w - 1) <=? e).
Proof.
  intros Hw He. pose proof (pow_bounds (w - 1) 62 ltac:(lia)) as Hp.
  unfold SIGNED_MASK. destruct (Z.eqb_spec w 0), (Z.eqb_spec w 64); try lia.
  rewrite of_i64_nonneg by (unfold i64_max; lia).
  rewrite (clear_low_bits 64 (w - 1) e) by (unfold fits; lia).
  pose proof (Z.div_mod e (2 ^ (w - 1)) ltac:(lia)). pose proof (Z.mod_pos_bound e (2 ^ (w - 1)) ltac:(lia)).
  destruct (Z.leb_spec (2 ^ (w - 1)) e) as [Hle|Hlt].
  - apply Z.ltb_lt. nia.
  - apply Z.ltb_ge. rewrite Z.div_small by lia. lia.
Qed.

(** A value of the field, or an increment of that size. *)
Definition in_signed (w x : Z) : Prop := - 2 ^ (w - 1) <= x < 2 ^ (w - 1).

Lemma underflow_flag w value incr :
  1 <= w <= 64 -> in_signed w value -> in_signed w incr ->
  (Z.land (of_i64 (value + incr)) (SIGNED_SIGNBIT w) =? 0) && (value <? 0) && (incr <? 0) =
  (value + incr <? - 2 ^ (w - 1)).
Proof.
  unfold in_signed. intros Hw Hv Hi. pose proof (pow_pred w ltac:(lia)).
  destruct (Z.ltb_spec value 0), (Z.ltb_spec incr 0); rewrite ?andb_true_r, ?andb_false_r; cbn [andb];
    [by apply signbit_negative; lia|..]; by destruct (Z.ltb_spec (value + incr) (- 2 ^ (w - 1))); [lia|].
Qed.

Lemma overflow_flag w value incr :
  1 <= w <= 64 -> in_signed w value -> in_signed w incr ->
  (if w =? 64 then (to_i64 (of_i64 (value + incr)) <? 0) && (0 <=? value) && (0 <? incr)
   else (0 <? Z.land (of_i64 (value + incr)) (bnot 64 (SIGNED_MASK w))) && (0 <=? value) && (0 <? incr)) =
  (2 ^ (w - 1) <=? value + incr).
Proof.
  unfold in_signed. intros Hw Hv Hi. pose proof (pow_pred w ltac:(lia)).
  destruct (Z.leb_spec 0 value), (Z.ltb_spec 0 incr); rewrite ?andb_true_r, ?andb_false_r;
    try (destruct (w =? 64); by destruct (Z.leb_spec (2 ^ (w - 1)) (value + incr)); [lia|]).
  destruct (Z.eqb_spec w 64) as [->|].
  - change (64 - 1) with 63 in *. rewrite of_i64_cases by lia. destruct (Z.ltb_spec (value + incr) 0); [lia|].
    unfold to_i64. destruct (Z.ltb_spec (value + incr) (2 ^ 63)), (Z.leb_spec (2 ^ 63) (value + incr)); lia.
  - apply high_bits_positive; [lia|]. pose proof (pow_bounds w 63). lia.
Qed.

(** Wrapping a result that is too small, or too large. *)
Definition wrapped (w P : Z) : Z :=
  if w <? 64 then
    if 0 <? Z.land P (SIGNED_SIGNBIT w) then Z.lor P (bnot 64 (SIGNED_MASK w)) else Z.land P (SIGNED_MASK w)
  else P.

Lemma wrapped_low w e :
  1 <= w <= 64 -> - 2 ^ w <= e < - 2 ^ (w - 1) -> to_i64 (wrapped w (of_i64 e)) = e + 2 ^ w.
Proof.
  intros Hw He. pose proof (pow_pred w ltac:(lia)). pose proof (pow_bounds (w - 1) 63 ltac:(lia)).
  unfold wrapped. destruct (Z.ltb_spec w 64).
  - pose proof (signbit_negative w e Hw ltac:(lia)) as Hs. destruct (Z.ltb_spec e (- 2 ^ (w - 1))); [|lia].
    apply Z.eqb_eq in Hs. rewrite Hs. cbn [Z.ltb Z.compare]. unfold SIGNED_MASK.
    destruct (Z.eqb_spec w 0), (Z.eqb_spec w 64); try lia.
    rewrite Z.sub_1_r, <- Z.ones_equiv, Z.land_ones by lia. unfold of_i64, wrap.
    rewrite Z.mod_mod_divide by (exists (2 ^ (64 - (w - 1))); rewrite <- Z.pow_add_r by lia; f_equal; lia).
    replace (e mod 2 ^ (w - 1)) with (e + 2 ^ w) by (apply (Z.mod_unique _ _ (-2)); lia).
    apply to_i64_small. lia.
  - assert (w = 64) as -> by lia. change (64 - 1) with 63 in *. rewrite of_i64_cases by lia.
    destruct (Z.ltb_spec e 0); [|lia]. apply to_i64_small. lia.
Qed.

Lemma wrapped_high w e :
  1 <= w <= 64 -> 2 ^ (w - 1) <= e < 2 ^ w -> to_i64 (wrapped w (of_i64 e)) = e - 2 ^ w.
Proof.
  intros Hw He. pose proof (pow_pred w ltac:(lia)). pose proof (pow_bounds (w - 1) 63 ltac:(lia)).
  pose proof (pow_bounds w 64 ltac:(lia)). rewrite of_i64_cases by lia. destruct (Z.ltb_spec e 0); [lia|].
  unfold wrapped. destruct (Z.ltb_spec w 64).
  - unfold SIGNED_SIGNBIT, SIGNED_MASK. destruct (Z.eqb_spec w 0), (Z.eqb_spec w 64); try lia.
    rewrite land_pow2 by lia. rewrite testbit_top by (unfold fits; replace (w - 1 + 1) with w by lia; lia).
    destruct (Z.leb_spec (2 ^ (w - 1)) e); [|lia]. destruct (Z.ltb_spec 0 (2 ^ (w - 1))); [|lia].
    rewrite Z.sub_1_r, <- Z.ones_equiv.
    assert (Z.lor e (bnot 64 (Z.ones (w - 1))) = bnot 64 (Z.land (bnot 64 e) (Z.ones (w - 1)))) as ->
      by (assert (fits 64 e) by (unfold fits; lia); bitblast).
    rewrite Z.land_ones, (bnot_sub e) by (unfold fits; lia).
    replace ((2 ^ 64 - 1 - e) mod 2 ^ (w - 1)) with (2 ^ w - 1 - e).
    2:{ apply (Z.mod_unique _ _ (2 ^ (64 - (w - 1)) - 2)); [lia|].
        rewrite Z.mul_sub_distr_l, <- Z.pow_add_r by lia. replace (w - 1 + (64 - (w - 1))) with 64 by lia. lia. }
    rewrite bnot_sub by (unfold fits; lia). unfold to_i64.
    destruct (Z.ltb_spec (2 ^ 64 - 1 - (2 ^ w - 1 - e)) (2 ^ 63)); lia.
  - assert (w = 64) as -> by lia. change (64 - 1) with 63 in *. unfold to_i64.
    destruct (Z.ltb_spec e (2 ^ 63)); lia.
Qed.

Lemma signed_correct value incr w ot :
  1 <= w <= 64 -> in_signed w value -> in_signed w incr -> known_policy ot ->
  check_bitfield_overflow value incr w ot true = policy ot w true (value + incr).
Proof.
  intros Hw Hv Hi Hot. pose proof (pow_pred w ltac:(lia)) as Hp. pose proof (pow_bounds (w - 1) 63 ltac:(lia)) as Hb.
  unfold check_bitfield_overflow, check_signed_bitfield_overflow, policy, field_min, field_max. rewrite wadd_pattern.
  rewrite underflow_flag, overflow_flag by done. fold (wrapped w (of_i64 (value + incr))). unfold in_signed in *.
  set (e := value + incr) in *.
  assert ((if w =? 64 then i64_max else to_i64 (SIGNED_SIGNBIT w) - 1) = 2 ^ (w - 1) - 1) as ->.
  { unfold SIGNED_SIGNBIT. destruct (Z.eqb_spec w 64) as [->|]; [done|]. destruct (Z.eqb_spec w 0); [lia|].
    pose proof (pow_bounds (w - 1) 62). rewrite to_i64_small by lia. done. }
  destruct (Z.ltb_spec e (- 2 ^ (w - 1))), (Z.leb_spec (2 ^ (w - 1)) e); try lia.
  - destruct (Z.leb_spec (- 2 ^ (w - 1)) e); [lia|]. cbn [andb orb].
    destruct Hot as [->|[->| ->]]; cbn [Z.eqb andb Pos.eqb Wrap Sat Fail_]; [|f_equal; lia|done].
    rewrite wrapped_low by lia. f_equal. unfold signed_value, wrap.
    destruct (Z.eq_dec e (- 2 ^ w)) as [->|].
    + replace (- 2 ^ w) with ((-1) * 2 ^ w) by lia. rewrite Z.mod_mul by lia. destruct (Z.ltb_spec 0 (2 ^ (w - 1))); lia.
    + replace (e mod 2 ^ w) with (e + 2 ^ w) by (apply (Z.mod_unique _ _ (-1)); lia).
      destruct (Z.ltb_spec (e + 2 ^ w) (2 ^ (w - 1))); lia.
  - destruct (Z.leb_spec (- 2 ^ (w - 1)) e), (Z.leb_spec e (2 ^ (w - 1) - 1)); try lia. cbn [andb orb].
    destruct Hot as [->|[->| ->]]; cbn [Z.eqb andb Pos.eqb Wrap Sat Fail_]; [|done|done].
    rewrite wrapped_high by lia. f_equal. unfold signed_value, wrap. rewrite Z.mod_small by lia.
    destruct (Z.ltb_spec e (2 ^ (w - 1))); lia.
  - destruct (Z.leb_spec (- 2 ^ (w - 1)) e), (Z.leb_spec e (2 ^ (w - 1) - 1)); try lia. cbn [andb orb].
    rewrite to_of_i64 by (unfold i64_min, i64_max; lia). by destruct Hot as [->|[->| ->]].
Qed.

(** ** Commands *)

Lemma arg_value_signed args value :
  1 <= encoding_of (type_info args) <= 64 -> signed_of (type_info args) = true ->
  in_signed (encoding_of (type_info args)) (arg_value args value).
Proof.
  intros Hw Hs. unfold arg_value, field_value, in_signed, signed_value. rewrite Hs.
  set (w := encoding_of (type_info args)) in *. pose proof (field_fits value (args_offset args) w ltac:(lia)) as Hf.
  pose proof (pow_pred w ltac:(lia)). unfold fits in Hf.
  destruct (Z.ltb_spec (field value (args_offset args) w) (2 ^ (w - 1))); lia.
Qed.

Lemma arg_value_unsigned args value :
  1 <= encoding_of (type_info args) <= 63 -> signed_of (type_info args) = false ->
  0 <= arg_value args value <= 2 ^ encoding_of (type_info args) - 1.
Proof.
  intros Hw Hs. unfold arg_value, field_value. rewrite Hs. set (w := encoding_of (type_info args)) in *.
  pose proof (field_fits value (args_offset args) w ltac:(lia)) as Hf. pose proof (pow_bounds w 63 ltac:(lia)).
  unfold fits in Hf. rewrite to_i64_small by lia. lia.
Qed.

(** An increment of zero overflows nothing. *)
Lemma check_zero old w signed : (check_bitfield_overflow old 0 w Fail_ signed).2 = false.
Proof.
  unfold check_bitfield_overflow. destruct signed; cbn [snd].
  - unfold check_signed_bitfield_overflow. change (0 <? 0) with false. rewrite !andb_false_r. by destruct (w =? 64).
  - unfold check_unsigned_bitfield_overflow. change (0 <? 0) with false. cbv iota. change (of_i64 0) with 0.
    rewrite andb_false_r. pose proof (wrap_fits 64 (UNSIGNED_MAX_VAL w - of_i64 old) ltac:(lia)) as Hf. unfold fits in Hf.
    unfold wsub. destruct (Z.ltb_spec (wrap 64 (UNSIGNED_MAX_VAL w - of_i64 old)) 0); [lia|done].
Qed.

(** C31: [SET] returns the old value of the field and stores the low bits of the
    new one; it is never abandoned, and no bit outside the field changes. *)
Theorem set_correct args value :
  fits_bitmap args value -> secondary_command args = Set_ ->
  exists value', bit_field_execute args value = Some (Some (arg_value args value, false), value') /\
    arg_field args value' = wrap (encoding_of (type_info args)) (args_value args) /\
    written value (args_offset args) (encoding_of (type_info args)) (args_value args) value'.
Proof.
  intros Hf Hc. destruct (write_bitfield_spec args value (args_value args) false Hf) as (value' & E & Hwr).
  - unfold new_field_value. rewrite Hc. destruct (Z.eqb_spec (overflow_type args) Fail_) as [->|]; [|done].
    by rewrite check_zero.
  - exists value'. rewrite Hc in E. unfold bit_field_execute. rewrite Hc. split; [done|]. split; [|done].
    destruct Hf. apply (field_written value); [done|lia|done].
Qed.

(** *** Wrapping, whatever the increment *)

Lemma wrap_wrap w x : 0 <= w <= 64 -> wrap w (wrap 64 x) = wrap w x.
Proof.
  intros Hw. unfold wrap. apply Z.mod_mod_divide. exists (2 ^ (64 - w)). rewrite <- Z.pow_add_r by lia. f_equal. lia.
Qed.

Lemma wrap_to_i64 w x : 0 <= w <= 64 -> wrap w (to_i64 x) = wrap w x.
Proof.
  intros Hw. unfold to_i64. destruct (x <? 2 ^ 63); [done|]. unfold wrap.
  replace (2 ^ 64) with (2 ^ (64 - w) * 2 ^ w) by (rewrite <- Z.pow_add_r by lia; f_equal; lia).
  replace (x - 2 ^ (64 - w) * 2 ^ w) with (x + - 2 ^ (64 - w) * 2 ^ w) by lia. apply Z.mod_add.
  pose proof (Z.pow_pos_nonneg 2 w). lia.
Qed.

(** Extending or cutting the sign keeps the low bits. *)
Lemma wrap_wrapped w P : 1 <= w <= 64 -> wrap w (wrapped w P) = wrap w P.
Proof.
  intros Hw. unfold wrapped. destruct (Z.ltb_spec w 64); [|done]. unfold SIGNED_SIGNBIT, SIGNED_MASK.
  destruct (Z.eqb_spec w 0), (Z.eqb_spec w 64); try lia. rewrite land_pow2 by lia.
  replace (2 ^ (w - 1) - 1) with (Z.ones (w - 1)) by (rewrite Z.ones_equiv; lia).
  pose proof (Z.pow_pos_nonneg 2 (w - 1)). apply Z.bits_inj'. intros i Hi. rewrite !wrap_testbit by lia.
  destruct (Z.ltb_spec i w); [|done]. cbn [andb].
  destruct (Z.testbit P (w - 1)) eqn:T.
  - destruct (Z.ltb_spec 0 (2 ^ (w - 1))); [|lia]. rewrite Z.lor_spec, bnot_spec, ones_testbit by lia.
    destruct (Z.ltb_spec i 64), (Z.ltb_spec i (w - 1)); try lia; cbn [andb negb]; [by rewrite orb_false_r|].
    replace i with (w - 1) by lia. by rewrite T.
  - rewrite Z.ltb_irrefl, Z.land_spec, ones_testbit by lia. destruct (Z.ltb_spec i (w - 1)); [by rewrite andb_true_r|].
    replace i with (w - 1) by lia. by rewrite T.
Qed.

Lemma wrap_any value incr w signed : 1 <= w <= 64 -> i64_min <= incr <= i64_max ->
  exists stored, check_bitfield_overflow value incr w Wrap signed = (stored, false) /\ wrap w stored = wrap w (value + incr).
Proof.
  intros Hw Hi. unfold check_bitfield_overflow. destruct signed.
  - unfold check_signed_bitfield_overflow. rewrite wadd_pattern. fold (wrapped w (of_i64 (value + incr))).
    cbn [Z.eqb Wrap Fail_]. destruct (_ || _); (eexists; split; [done|]); rewrite wrap_to_i64, ?wrap_wrapped by lia;
      unfold of_i64; by apply wrap_wrap; lia.
  - unfold check_unsigned_bitfield_overflow. cbn [Z.eqb Wrap Fail_]. rewrite land_max by lia.
    assert (E : wrap w (if incr <? 0 then wsub 64 (of_i64 value) (if incr <? 0 then wadd 64 (bnot 64 (of_i64 incr)) 1 else of_i64 incr)
                        else wadd 64 (of_i64 value) (if incr <? 0 then wadd 64 (bnot 64 (of_i64 incr)) 1 else of_i64 incr)) = wrap w (value + incr)).
    { destruct (Z.ltb_spec incr 0).
      - rewrite abs_incr by lia. unfold wsub, of_i64. rewrite wrap_wrap by lia. unfold wrap.
        rewrite Zminus_mod, Z.mod_mod_divide, <- Zminus_mod by (exists (2 ^ (64 - w)); rewrite <- Z.pow_add_r by lia; f_equal; lia).
        f_equal. lia.
      - rewrite wadd_pattern. by apply wrap_wrap; lia. }
    destruct (_ || _); (eexists; split; [done|]); rewrite wrap_to_i64, E by lia; by rewrite wrap_id by (apply wrap_fits; lia).
Qed.

(** The increments for which the overflow checks are right: in the range of a
    signed field; not negative, or at most the room above, for an unsigned one. *)
Definition sane_increment (w : Z) (signed : bool) (old incr : Z) : Prop :=
  if signed then in_signed w incr
  else w <= 63 /\ (0 <= incr <= i64_max \/ i64_min <= incr < 0 /\ - incr <= 2 ^ w - 1 - old).

(** C32: what [INCRBY] does to a field of a bitmap that holds it.  Under [WRAP] the
    field holds the sum modulo its width, for every increment.  When the increment
    is one the overflow checks are made for - in the range of a signed field, and
    for an unsigned one not negative or no larger than the room above the old value
    - every policy does what it says: the exact sum if it is in range, else the sum
    modulo the width, the nearest bound, or, under [FAIL], an abandoned command; the
    field then holds the value returned - under [FAIL] that is zero: the abandoned
    command clears the field.  In both cases no bit outside the field changes.  For
    other increments saturation and [FAIL] can go wrong. *)
Theorem incrby_correct args value :
  fits_bitmap args value -> secondary_command args = IncrBy -> known_policy (overflow_type args) ->
  i64_min <= args_value args <= i64_max ->
  let w := encoding_of (type_info args) in
  let exact := arg_value args value + args_value args in
  (overflow_type args = Wrap ->
     exists stored value', bit_field_execute args value = Some (Some (stored, false), value') /\
       arg_field args value' = wrap w exact /\ written value (args_offset args) w stored value') /\
  (sane_increment w (signed_of (type_info args)) (arg_value args value) (args_value args) ->
     let '(stored, abandoned) := policy (overflow_type args) w (signed_of (type_info args)) exact in
     exists value', bit_field_execute args value = Some (Some (stored, abandoned), value') /\
       arg_field args value' = wrap w stored /\ written value (args_offset args) w stored value').
Proof.
  intros Hf Hc Hot Hi w exact. pose proof (fb_width _ _ Hf) as Hw. fold w in Hw.
  assert (Hexec : forall stored abandoned,
    check_bitfield_overflow (arg_value args value) (args_value args) w (overflow_type args) (signed_of (type_info args)) = (stored, abandoned) ->
    exists value', bit_field_execute args value = Some (Some (stored, abandoned), value') /\
      arg_field args value' = wrap w stored /\ written value (args_offset args) w stored value').
  { intros stored abandoned E. destruct (write_bitfield_spec args value stored abandoned Hf) as (value' & Ex & Hwr).
    { unfold new_field_value. rewrite Hc. fold w. by rewrite E. }
    exists value'. rewrite Hc in Ex. unfold bit_field_execute. rewrite Hc. split; [done|]. split; [|done].
    destruct Hf. apply (field_written value); [done|lia|done]. }
  split.
  - intros Hwrap. destruct (wrap_any (arg_value args value) (args_value args) w (signed_of (type_info args)) Hw Hi) as (stored & E & Ew).
    rewrite <- Hwrap in E. destruct (Hexec _ _ E) as (value' & Ex & Ha & Hwr). exists stored, value'. by rewrite Ha, Ew.
  - intros Hs. destruct (policy _ _ _ _) as [stored abandoned] eqn:Hp. apply Hexec. rewrite <- Hp. unfold sane_increment in Hs.
    destruct (signed_of (type_info args)) eqn:Hsg.
    + apply signed_correct; [done|by apply arg_value_signed|done|done].
    + destruct Hs as [Hw63 Hs]. apply unsigned_correct; [lia|by apply arg_value_unsigned; [lia|]|done|done].
Qed.

(** ** Increments that the checks get wrong *)

(** C33: a decrement that an unsigned field can take is treated as an overflow when
    it exceeds the room above the value: saturation stores the maximum and [FAIL]
    abandons the command, although the exact result is in range. *)
Theorem decrement_taken_for_overflow value d w :
  1 <= w <= 63 -> 0 <= value <= 2 ^ w - 1 -> 2 ^ w - 1 - value < d <= value ->
  check_bitfield_overflow value (- d) w Sat false = (2 ^ w - 1, false) /\
  check_bitfield_overflow value (- d) w Fail_ false = (0, true) /\
  policy Sat w false (value + - d) = (value - d, false).
Proof.
  intros Hw Hv Hd. pose proof (pow_bounds w 63 ltac:(lia)) as Hp.
  unfold check_bitfield_overflow, check_unsigned_bitfield_overflow.
  rewrite (of_i64_nonneg value) by (unfold i64_max; lia).
  assert (UNSIGNED_MAX_VAL w = 2 ^ w - 1) as -> by (unfold UNSIGNED_MAX_VAL; by destruct (Z.eqb_spec w 0); [lia|]).
  assert (wsub 64 (2 ^ w - 1) value = 2 ^ w - 1 - value) as -> by (apply wrap_id; unfold fits; lia).
  destruct (Z.ltb_spec (- d) 0); [|lia]. rewrite abs_incr, Z.opp_involutive by (unfold i64_min; lia).
  destruct (Z.ltb_spec (2 ^ w - 1 - value) d); [|lia]. cbn [orb Z.eqb Pos.eqb Wrap Sat Fail_ andb].
  rewrite to_i64_small by lia. split; [done|]. split; [done|]. unfold policy, field_min, field_max.
  destruct (Z.leb_spec 0 (value + - d)), (Z.leb_spec (value + - d) (2 ^ w - 1)); try lia. cbn [andb]. f_equal.
Qed.

Lemma decrement_taken_for_overflow_witness :
  check_bitfield_overflow 250 (- 10) 8 Sat false = (255, false) /\
  check_bitfield_overflow 250 (- 10) 8 Fail_ false = (0, true) /\
  policy Sat 8 false (250 + - 10) = (240, false).
Proof. apply (decrement_taken_for_overflow 250 10 8); lia. Defined.

(** When the value of a signed field and the increment have opposite signs no
    policy applies, however large the increment: the exact sum is returned, in
    range of the field or not. *)
Theorem mixed_signs_unchecked value incr w ot :
  1 <= w <= 64 -> in_signed w value -> i64_min <= incr <= i64_max -> known_policy ot ->
  value < 0 <= incr \/ incr <= 0 <= value ->
  check_bitfield_overflow value incr w ot true = (value + incr, false).
Proof.
  intros Hw Hv Hi Hot Hsign. pose proof (pow_bounds (w - 1) 63 ltac:(lia)) as Hb. unfold in_signed in Hv.
  unfold check_bitfield_overflow, check_signed_bitfield_overflow. rewrite wadd_pattern.
  assert ((value <? 0) && (incr <? 0) = false) as Hu by (destruct (Z.ltb_spec value 0), (Z.ltb_spec incr 0); (done || lia)).
  assert ((0 <=? value) && (0 <? incr) = false) as Ho by (destruct (Z.leb_spec 0 value), (Z.ltb_spec 0 incr); (done || lia)).
  rewrite <- !andb_assoc, Hu, Ho, !andb_false_r.
  replace (if w =? 64 then false else false) with false by (by destruct (w =? 64)). cbn [orb].
  rewrite to_of_i64 by (unfold i64_min, i64_max in *; lia). by destruct Hot as [->|[->| ->]].
Qed.

Lemma mixed_signs_unchecked_witness :
  check_bitfield_overflow 5 (-1000) 8 Sat true = (-995, false) /\ ~ in_signed 8 (-995).
Proof.
  split; [|unfold in_signed; cbn; lia].
  apply (mixed_signs_unchecked 5 (-1000) 8 Sat); [lia|by vm_compute|by vm_compute|right; by left|right; lia].
Defined.

(** [SET i5 6 -3] on two bytes, and [INCRBY u8 4 10] under [FAIL]. *)
Lemma set_correct_witness :
  exists value', bit_field_execute (Args Set_ 0x85 6 (-3) Wrap) [255; 255] = Some (Some (-1, false), value') /\
    arg_field (Args Set_ 0x85 6 (-3) Wrap) value' = 29 /\ written [255; 255] 6 5 (-3) value'.
Proof.
  apply (set_correct (Args Set_ 0x85 6 (-3) Wrap) [255; 255]); [|reflexivity].
  split; [repeat constructor; by vm_compute|..]; by vm_compute.
Defined.

Lemma incrby_correct_witness :
  (exists value', bit_field_execute (Args IncrBy 8 4 10 Fail_) [15; 175] = Some (Some (0, true), value') /\
    arg_field (Args IncrBy 8 4 10 Fail_) value' = 0 /\ written [15; 175] 4 8 0 value') /\
  exists stored value', bit_field_execute (Args IncrBy 8 4 (-300) Wrap) [15; 175] = Some (Some (stored, false), value') /\
    arg_field (Args IncrBy 8 4 (-300) Wrap) value' = 206 /\ written [15; 175] 4 8 stored value'.
Proof.
  split.
  - destruct (incrby_correct (Args IncrBy 8 4 10 Fail_) [15; 175]) as [_ H].
    + split; [repeat constructor; by vm_compute|..]; by vm_compute.
    + reflexivity.
    + right. by right.
    + by vm_compute.
    + apply H. split; [by vm_compute|]. left. by vm_compute.
  - destruct (incrby_correct (Args IncrBy 8 4 (-300) Wrap) [15; 175]) as [H _].
    + split; [repeat constructor; by vm_compute|..]; by vm_compute.
    + reflexivity.
    + by left.
    + by vm_compute.
    + exact (H eq_refl).
Defined.

(** ** Parsed commands *)

Lemma parse_encoding_range enc w signed :
  parse_bitfield_encoding enc = Some (w, signed) -> 1 <= w <= 64 /\ (signed = false -> w <= 63).
Proof.
  unfold parse_bitfield_encoding. destruct enc as [|c [|d ds]]; [done|done|].
  destruct (if c =? 105 then Some true else if c =? 117 then Some false else None) as [s|]; [|done].
  destruct (Num.strict_i64 (d :: ds)) as [n|]; [|done].
  destruct (Z.ltb_spec 0 n); [|done]. cbn [andb].
  destruct s; [destruct (Z.leb_spec n 64)|destruct (Z.ltb_spec n 64)]; intros [= <- <-]; (split; [lia|]); (done || lia).
Qed.

Lemma validated off w mul norm stop :
  1 <= w -> try_validate_bitfield_offset off w mul = Some (norm, stop) ->
  0 <= norm /\ stop = norm + w - 1 /\ stop <= MAX_OFFSET_FOR_BITMAP_LENGTH.
Proof.
  intros Hw. unfold try_validate_bitfield_offset. destruct (w =? 0); [done|].
  destruct (if mul then checked_mul_i64 off w else Some off) as [n|]; [|done].
  destruct (Z.ltb_spec n 0); [done|]. unfold checked_add_i64. destruct (i64_ok (n + (w - 1))); [|done].
  destruct (is_valid_bit_offset (n + (w - 1))) eqn:E; [|done]. intros [= <- <-].
  apply andb_true_iff in E as [_ E%Z.leb_le]. lia.
Qed.

(** The type byte carries width and sign. *)
Lemma type_info_decode w (signed : bool) :
  1 <= w <= 64 -> let ti := if signed then Z.lor 0x80 w else w in encoding_of ti = w /\ signed_of ti = signed.
Proof.
  intros Hw ti. assert (fits 7 w) as Hf by (unfold fits; lia). unfold encoding_of, signed_of.
  assert (Z.land w 0x80 = 0) as H80
    by (change 0x80 with (2 ^ 7); rewrite land_pow2 by lia; by rewrite (fits_high 7 w) by (done || lia)).
  unfold ti. destruct signed.
  - rewrite !Z.land_lor_distr_l, H80. change (Z.land 128 127) with 0. change (Z.land 128 128) with 128. cbn [Z.lor].
    split; [by apply (land_ones_id 7)|done].
  - rewrite H80. split; [by apply (land_ones_id 7)|done].
Qed.

(** A field that the parser accepts has a width of 1 to 64 bits - 63 for an
    unsigned one - and, in a bitmap grown to the length computed for it, lies
    inside the bitmap: every command on it executes without an index out of
    range. *)
Theorem parsed_fits enc offset_raw ti off cmd v ot value :
  parse_bitfield_type_offset enc offset_raw = Some (ti, off) -> bytes_ok value ->
  let args := Args cmd ti off v ot in
  length_from_type args <= zlen value ->
  fits_bitmap args value /\ (signed_of ti = false -> encoding_of ti <= 63) /\
  exists r value', bit_field_execute args value = Some (Some r, value') /\ zlen value' = zlen value.
Proof.
  intros Hparse Hv args Hlen. revert Hparse. unfold parse_bitfield_type_offset.
  destruct (parse_bitfield_encoding enc) as [[w signed]|] eqn:Ee; [|done].
  destruct (parse_bitfield_offset offset_raw) as [[o mul]|]; [|done].
  destruct (try_validate_bitfield_offset o w mul) as [[norm stop]|] eqn:Ev; [|done].
  intros [= Eti <-]. apply parse_encoding_range in Ee as [Hw H63].
  destruct (validated o w mul norm stop) as (Ho & -> & Hm); [lia|done|].
  destruct (type_info_decode w signed Hw) as [He Hs]. rewrite Eti in He, Hs.
  assert (fits_bitmap args value) as Hfit.
  { split; unfold args; cbn [args_offset type_info]; rewrite ?He; [done|done|done|done|].
    unfold length_from_type, length_in_bytes in Hlen. cbn [args args_offset type_info] in Hlen.
    rewrite He, valid_offset, shiftr_3 in Hlen by lia. simpl in Hlen. lia. }
  split; [done|]. split; [rewrite Hs, He; exact H63|]. unfold bit_field_execute. destruct cmd; cbn [secondary_command args].
  - change (args_offset args) with norm. change (type_info args) with ti. rewrite He, Hs, get_bitfield_spec by (done || lia). by exists (field_value value norm w signed, false), value.
  - destruct (write_bitfield_spec args value v false Hfit) as (value' & -> & Hwr).
    + unfold new_field_value. cbn [secondary_command args overflow_type]. destruct (Z.eqb_spec ot Fail_) as [->|]; [|done].
      by rewrite check_zero.
    + eexists (_, _), value'. split; [done|]. apply Hwr.
  - destruct (check_bitfield_overflow (arg_value args value) v (encoding_of ti) ot (signed_of ti)) as [nv ov] eqn:Ec.
    destruct (write_bitfield_spec args value nv ov Hfit) as (value' & -> & Hwr).
    + unfold new_field_value. cbn [secondary_command args args_value overflow_type type_info]. by rewrite Ec.
    + eexists (_, _), value'. split; [done|]. apply Hwr.
Qed.

(** [INCRBY i5 #3 1]. *)
Lemma parsed_fits_witness :
  let args := Args IncrBy 0x85 15 1 Wrap in
  fits_bitmap args [1; 2; 3] /\ (signed_of 0x85 = false -> encoding_of 0x85 <= 63) /\
  exists r value', bit_field_execute args [1; 2; 3] = Some (Some r, value') /\ zlen value' = 3.
Proof.
  apply (parsed_fits [105; 53] [35; 51] 0x85 15 IncrBy 1 Wrap [1; 2; 3]);
    [reflexivity|repeat constructor; by vm_compute|by vm_compute].
Defined.

End BitfieldExec.
