(* ===== verification/Resize.v ===== *)
(** * Online growth of the index ([wedb/wkv/src/store/resize.rs])

    [grow_index] replaces the active [HashIndex] by one of twice the size while
    sessions keep working: it closes the barrier ([PrepareGrow]), waits for the
    registered transactions and for the epoch, publishes the new table, opens the
    barrier again ([InProgressGrow]) and moves the chunks of the old table, which
    sessions help with ([split_buckets]).  The cells of a store are the resize
    state, the published pointers, the cells of every table ([Index]) and those of
    the epoch ([Epoch]); the programs of those components run on them relocated.

    An [Arc] is a pointer drawn from [NextPtr]; the null pointer is 0.  A table's
    size is immutable and stored beside its pointer. *)

From stdpp Require Import base list numbers option tactics.
From Stdlib Require Import ZArith Lia Bool.
From S2P Require Import Prelude Base Atomic Bucket Candidate Index Epoch.
Local Open Scope prog_scope.

Module Resize.
Import Index.

Inductive sloc : Type :=
| Phase | SplitStatus | PendingChunks | OldIndex | ActiveTxns | Torn
| ActiveIndex
| StatusLen (p : Z) | Status (p i : Z)
| IndexSize (p : Z) | TableCell (p : Z) (l : iloc)
| NextPtr
| HeadAddress | BeginAddress
| EpochCell (l : Epoch.loc)
| Pin (t : nat).

#[export] Instance sloc_eq_dec : EqDecision sloc.
Proof. solve_decision. Defined.

Inductive ResizePhase : Type := Rest | PrepareGrow | InProgressGrow | Checkpoint.

(** [phase as u8]. *)
Definition phase_u8 (p : ResizePhase) : Z :=
  match p with Rest => 0 | PrepareGrow => 1 | InProgressGrow => 2 | Checkpoint => 3 end.

Definition from_u8 (val : Z) : ResizePhase :=
  if val =? 1 then PrepareGrow
  else if val =? 2 then InProgressGrow
  else if val =? 3 then Checkpoint
  else Rest.

Definition SPLIT_UNSTARTED : Z := 0.
Definition SPLIT_IN_PROGRESS : Z := 1.
Definition SPLIT_COMPLETED : Z := 2.

(** The errors of the store that resizing raises. *)
Inductive StoreError : Type :=
| IndexError (e : Error)
| GrowRescanExhausted (pending : Z).

(** ** [IndexResizeState] *)

Definition phase : prog sloc ResizePhase := let* p := load Phase in Ret (from_u8 p).

Definition is_growing : prog sloc bool :=
  let* p := phase in
  Ret (match p with PrepareGrow | InProgressGrow => true | _ => false end).

Definition try_acquire_txn : prog sloc bool :=
  let* p := load Phase in
  if p =? phase_u8 PrepareGrow then Ret false
  else
    let* _ := fetch_add ActiveTxns 1 in
    let* p := load Phase in
    if negb (p =? phase_u8 PrepareGrow) then Ret true
    else
      let* _ := fetch_sub ActiveTxns 1 in
      Ret false.

Definition release_txn : prog sloc unit :=
  let* _ := fetch_sub ActiveTxns 1 in Ret tt.

(** The cells of a store as [IndexResizeState::new] and the first table leave
    them: table 1 has [size] buckets. *)
Definition new_cells (size head begin : Z) (l : sloc) : Z :=
  match l with
  | ActiveIndex => 1
  | IndexSize 1 => size
  | NextPtr => 2
  | HeadAddress => head
  | BeginAddress => begin
  | EpochCell l => LightEpoch.new_cells l
  | _ => 0
  end.

(** ** The checkpoint's use of the phase ([store/cpr_host.rs]) *)

Definition enter_checkpoint : prog sloc bool :=
  let* (ok, _) := compare_exchange Phase (phase_u8 Rest) (phase_u8 Checkpoint) in Ret ok.

Definition exit_checkpoint : prog sloc unit :=
  let* _ := compare_exchange Phase (phase_u8 Checkpoint) (phase_u8 Rest) in Ret tt.

(** ** Tables *)

(** An [Arc<HashIndex>]. *)
Record IndexRef : Type := mkRef { ptr : Z; table : HashIndex }.

Definition load_table (p : Z) : prog sloc IndexRef :=
  let* n := load (IndexSize p) in Ret (mkRef p (mkIndex n (n - 1))).

Definition active_index : prog sloc IndexRef :=
  let* p := load ActiveIndex in load_table p.

Definition old_index : prog sloc (option IndexRef) :=
  let* p := load OldIndex in
  if p =? 0 then Ret None else (let* r := load_table p in Ret (Some r)).

(** [Arc::new]. *)
Definition alloc : prog sloc Z := fetch_add NextPtr 1.

(** The cells of the migration's source and destination. *)
Definition two_tables (old new : Z) (l : Split.loc2) : sloc :=
  match l with inl l => TableCell old l | inr l => TableCell new l end.

(** ** Following the log

    [locate curr]: hash and previous address of a record in memory. *)
Fixpoint trace_back_loop (fuel : nat) (locate : Z -> option (Z * Z))
    (curr target_bit head_addr old_size new_mask : Z) : option Z + Z :=
  match fuel with
  | O => inr curr
  | S fuel' =>
      if head_addr <=? curr then
        match locate curr with
        | Some (hash, next_prev) =>
            let bit := Z.b2z (old_size <=? Z.land hash new_mask) in
            if bit =? target_bit then inl (Some curr)
            else trace_back_loop fuel' locate next_prev target_bit head_addr old_size new_mask
        | None => inr curr
        end
      else inr curr
  end.

(** A chain descends, so that its address bounds its length. *)
Definition trace_back_for_other_chain_start (locate : Z -> option (Z * Z))
    (curr target_bit head_addr begin_addr old_size new_mask : Z) : option Z :=
  match trace_back_loop (S (Z.to_nat curr)) locate curr target_bit head_addr old_size new_mask with
  | inl found => found
  | inr curr =>
      if (0 <? curr) && (begin_addr <=? curr) && (curr <? head_addr) then Some curr else None
  end.

(** ** Growing *)
Section Grow.
(** [DirectVirtualMemory::allocate]; the store's epoch and which instances are
    alive; whether ten seconds have passed in a round of the rescan. *)
Context (vm_allocate : Z -> Z -> bool) (e : LightEpoch.LightEpoch) (alive : Z -> bool).
Context (expired : nat -> bool).
(** The log: [skip_read_cache] follows read-cache addresses to the main log,
    [memory_record] is the key hash and previous address of a resident record. *)
Context (skip_read_cache : Z -> option Z) (memory_record : Z -> option (Z * Z)).
Context (fuel : nat).

Definition get_record_hash_and_prev (head_addr addr : Z) : option (Z * Z) :=
  let main_addr :=
    if Addr.is_read_cache addr then default 0 (skip_read_cache addr) else addr in
  if head_addr <=? main_addr then memory_record main_addr else None.

(** [None]: a loop of the migration still runs. *)
Definition split_single_chunk (chunk_idx num_chunks : Z) (old : IndexRef)
  : prog sloc (option (bool + StoreError)) :=
  let* split_status := load SplitStatus in
  let* len := load (StatusLen split_status) in
  if len <=? chunk_idx then Ret (Some (inl false))
  else
    let* (won, _) := compare_exchange (Status split_status chunk_idx) SPLIT_UNSTARTED SPLIT_IN_PROGRESS in
    if won then
      let* new := active_index in
      let* head_addr := load HeadAddress in
      let* begin_addr := load BeginAddress in
      let locate := get_record_hash_and_prev head_addr in
      let* r := relocate (two_tables (ptr old) (ptr new))
        (Split.split_chunk (table old) (table new) fuel fuel begin_addr locate
           (fun prev_addr target_bit =>
              trace_back_for_other_chain_start locate prev_addr target_bit head_addr begin_addr
                (size (table old)) (mask (table new)))
           chunk_idx num_chunks) in
      match r with
      | None => Ret None
      | Some (inr err) =>
          store (Status split_status chunk_idx) SPLIT_UNSTARTED ;;
          Ret (Some (inr (IndexError err)))
      | Some (inl _) =>
          store (Status split_status chunk_idx) SPLIT_COMPLETED ;;
          let* _ := fetch_sub PendingChunks 1 in
          Ret (Some (inl true))
      end
    else Ret (Some (inl false)).

(** The ring of chunks from the session's own, up to the first it migrates. *)
Fixpoint split_ring (n : nat) (i num_chunks : Z) (old : IndexRef) : prog sloc (option (unit + StoreError)) :=
  match n with
  | O => Ret (Some (inl tt))
  | S n' =>
      let* r := split_single_chunk (Z.land i (num_chunks - 1)) num_chunks old in
      match r with
      | None => Ret None
      | Some (inr err) => Ret (Some (inr err))
      | Some (inl true) => Ret (Some (inl tt))
      | Some (inl false) => split_ring n' (i + 1) num_chunks old
      end
  end.

Fixpoint split_buckets_loop (rounds : nat) (chunk_offset num_chunks : Z) (old : IndexRef)
  : prog sloc (option (unit + StoreError)) :=
  match rounds with
  | O => Ret None
  | S rounds' =>
      let* r := split_ring (Z.to_nat num_chunks) chunk_offset num_chunks old in
      match r with
      | Some (inl _) =>
          let target_idx := Z.land chunk_offset (num_chunks - 1) in
          let* split_status := load SplitStatus in
          let* len := load (StatusLen split_status) in
          if len <=? target_idx then Ret (Some (inl tt))
          else
            let* s := load (Status split_status target_idx) in
            if s =? SPLIT_COMPLETED then Ret (Some (inl tt))
            else split_buckets_loop rounds' chunk_offset num_chunks old
      | _ => Ret r
      end
  end.

Definition split_buckets (hash : Z) : prog sloc (option (unit + StoreError)) :=
  let* old := old_index in
  match old with
  | None => Ret (Some (inl tt))
  | Some old =>
      let num_chunks := Split.chunk_count (size (table old)) in
      let chunk_offset := Split.chunk_offset_for_hash hash (mask (table old)) in
      split_buckets_loop fuel chunk_offset num_chunks old
  end.

(** [for i in 0..num_chunks { self.split_single_chunk(i, ..)?; }] *)
Fixpoint split_each (n : nat) (i num_chunks : Z) (old : IndexRef) : prog sloc (option (unit + StoreError)) :=
  match n with
  | O => Ret (Some (inl tt))
  | S n' =>
      let* r := split_single_chunk i num_chunks old in
      match r with
      | None => Ret None
      | Some (inr err) => Ret (Some (inr err))
      | Some (inl _) => split_each n' (i + 1) num_chunks old
      end
  end.

(** The chunks of the vector read at the start of a round that are back to
    unstarted. *)
Fixpoint rescan (n : nat) (i split_status num_chunks : Z) (old : IndexRef)
  : prog sloc (option (unit + StoreError)) :=
  match n with
  | O => Ret (Some (inl tt))
  | S n' =>
      let* s := load (Status split_status i) in
      if s =? SPLIT_UNSTARTED then
        let* r := split_single_chunk i num_chunks old in
        match r with
        | None => Ret None
        | Some (inr err) => Ret (Some (inr err))
        | Some (inl _) => rescan n' (i + 1) split_status num_chunks old
        end
      else rescan n' (i + 1) split_status num_chunks old
  end.

Fixpoint await_chunks (rounds : nat) (round : nat) (num_chunks : Z) (old : IndexRef)
  : prog sloc (option (unit + StoreError)) :=
  match rounds with
  | O => Ret None
  | S rounds' =>
      let* pending := load PendingChunks in
      if pending =? 0 then Ret (Some (inl tt))
      else
        let* split_status := load SplitStatus in
        let* len := load (StatusLen split_status) in
        let* r := rescan (Z.to_nat (Z.min len num_chunks)) 0 split_status num_chunks old in
        match r with
        | Some (inl _) =>
            let* pending := load PendingChunks in
            if pending =? 0 then Ret (Some (inl tt))
            else if expired round then
              let* pending := load PendingChunks in
              Ret (Some (inr (GrowRescanExhausted pending)))
            else await_chunks rounds' (S round) num_chunks old
        | _ => Ret r
        end
  end.

Definition split_all_buckets (old : IndexRef) (num_chunks : Z) : prog sloc (option (unit + StoreError)) :=
  let* r := split_each (Z.to_nat num_chunks) 0 num_chunks old in
  match r with
  | Some (inl _) => await_chunks fuel 0 num_chunks old
  | _ => Ret r
  end.

Fixpoint drain_txns (rounds : nat) : prog sloc bool :=
  match rounds with
  | O => Ret false
  | S rounds' =>
      let* n := load ActiveTxns in
      if 0 <? n then drain_txns rounds' else Ret true
  end.

(** [bump_current_epoch] followed by [bump_and_wait] on the epoch it returned. *)
Definition drain_epoch (t : Tls.ThreadLocal) : prog sloc bool :=
  let* target_epoch := relocate EpochCell (LightEpoch.bump_current_epoch e) in
  relocate EpochCell (LightEpoch.bump_and_wait alive fuel e t target_epoch).

(** The part of [grow_index] behind the publication of the new table. *)
Definition migrate (t : Tls.ThreadLocal) (old : IndexRef) (num_chunks : Z)
  : prog sloc (option (bool + StoreError)) :=
  let* r := split_all_buckets old num_chunks in
  match r with
  | None => Ret None
  | Some (inr err) =>
      store Torn 1 ;;
      store Phase (phase_u8 Rest) ;;
      store OldIndex 0 ;;
      let* empty := alloc in
      store SplitStatus empty ;;
      Ret (Some (inr err))
  | Some (inl _) =>
      store Phase (phase_u8 Rest) ;;
      let* drained := drain_epoch t in
      if negb drained then Ret None
      else
        store OldIndex 0 ;;
        let* empty := alloc in
        store SplitStatus empty ;;
        Ret (Some (inl true))
  end.

(** Publication: status vector, counter, old table, new table, phase. *)
Definition publish (old : IndexRef) (new_table : HashIndex) (num_chunks : Z) : prog sloc unit :=
  let* new := alloc in
  store (IndexSize new) (size new_table) ;;
  let* status_vec := alloc in
  store (StatusLen status_vec) num_chunks ;;
  store SplitStatus status_vec ;;
  store PendingChunks num_chunks ;;
  store OldIndex (ptr old) ;;
  store ActiveIndex new ;;
  store Phase (phase_u8 InProgressGrow).

Definition grow_index (t : Tls.ThreadLocal) : prog sloc (option (bool + StoreError)) :=
  let* (won, _) := compare_exchange Phase (phase_u8 Rest) (phase_u8 PrepareGrow) in
  if negb won then Ret (Some (inl false))
  else
    let* drained := drain_txns fuel in
    if negb drained then Ret None
    else
      let* drained := drain_epoch t in
      if negb drained then Ret None
      else
        let* old := active_index in
        match checked_mul (size (table old)) 2 with
        | None =>
            store Phase (phase_u8 Rest) ;;
            Ret (Some (inr (IndexError (InvalidBucketCount u64_max))))
        | Some new_size =>
            match new_index vm_allocate new_size with
            | inr err =>
                store Phase (phase_u8 Rest) ;;
                Ret (Some (inr (IndexError err)))
            | inl new_table =>
                let num_chunks := Split.chunk_count (size (table old)) in
                publish old new_table num_chunks ;;
                migrate t old num_chunks
            end
        end.

Definition index_rebuild_pending : prog sloc bool :=
  let* torn := load Torn in Ret (negb (torn =? 0)).

(** ** Sessions *)

(** [barrier_enter]; the session's participant owns entry [entry_idx]. *)
Fixpoint barrier_enter (rounds : nat) (t : Tls.ThreadLocal) (entry_idx : nat) : prog sloc bool :=
  match rounds with
  | O => Ret false
  | S rounds' =>
      let* r := relocate EpochCell (Participant.enter fuel e t entry_idx) in
      match r with
      | None => Ret false
      | Some _ =>
          let* p := load Phase in
          let* open :=
            (if negb (p =? phase_u8 PrepareGrow) then Ret true
             else (let* n := load ActiveTxns in Ret (0 <? n))) in
          if (open : bool) then Ret true
          else
            let* ok := relocate EpochCell (Participant.exit fuel e entry_idx) in
            if (ok : bool) then barrier_enter rounds' t entry_idx else Ret false
      end
  end.

(** [StoreSession::ensure_split_by_hash] ([session/mod.rs]). *)
Definition ensure_split_by_hash (hash : Z) : prog sloc (option (unit + StoreError)) :=
  let* old := old_index in
  match old with
  | None => Ret (Some (inl tt))
  | Some old =>
      let* active := active_index in
      if ptr old =? ptr active then Ret (Some (inl tt)) else split_buckets hash
  end.

End Grow.

End Resize.
