(* ===== verification/ResizeSpec.v ===== *)
(** * The barrier between transactions and the growth of the index

    Any number of threads register transactions, grow the index, take
    checkpoints and run session operations, interleaved action by action.  The
    ghost state of a thread says how far it is in the protocol; the invariant
    [Inv] ties the phase word and the counter of active transactions to the
    ghosts.  [registered_pins_index]: the table a registered transaction pinned
    stays the active one until it deregisters. *)

From stdpp Require Import base list numbers option tactics relations.
From Stdlib Require Import ZArith Lia Bool.
From S2P Require Import Prelude Atomic Index Epoch Resize.
Local Open Scope prog_scope.

Module Barrier.
Import Index Resize.

(** ** Protocol states *)

(** [Counted]: has incremented the counter, the phase not yet rechecked;
    [Registered], and [Pinned p] once table [p] was read.  [Preparing]: owns
    [PrepareGrow]; [Drained]: has then seen no transaction; [Migrating]: owns
    [InProgressGrow]. *)
Inductive state : Type :=
| Out | Counted | Registered | Pinned (p : Z) | Preparing | Drained | Migrating.

(** [g_pin]: the value of the [Pin] cell of thread [g_tid]. *)
Record ghost : Type := mkGhost { g_tid : nat; g_st : state; g_pin : Z }.

Definition is_counted (g : ghost) : Z :=
  match g_st g with Counted | Registered | Pinned _ => 1 | _ => 0 end.
Definition is_preparing (g : ghost) : Z :=
  match g_st g with Preparing | Drained => 1 | _ => 0 end.
Definition is_migrating (g : ghost) : Z := match g_st g with Migrating => 1 | _ => 0 end.
Definition registered (g : ghost) : Prop :=
  match g_st g with Registered | Pinned _ => True | _ => False end.

Definition pin_ok (g : ghost) : Prop := g_pin g = 0 \/ g_st g = Pinned (g_pin g).

Record Inv (m : mem sloc) (gs : list ghost) : Prop := {
  inv_len : Z.of_nat (length gs) < 2 ^ 64;
  inv_counted : m ActiveTxns = zsum is_counted gs;
  inv_preparing : zsum is_preparing gs = Z.b2z (m Phase =? phase_u8 PrepareGrow);
  inv_migrating : zsum is_migrating gs = Z.b2z (m Phase =? phase_u8 InProgressGrow);
  inv_drained : forall i j g h, gs !! i = Some g -> gs !! j = Some h ->
    g_st g = Drained -> registered h -> False;
  inv_pinned : forall i g p, gs !! i = Some g -> g_st g = Pinned p -> m ActiveIndex = p;
  inv_pins : forall t, m (Pin t) = match gs !! t with Some g => g_pin g | None => 0 end;
  inv_thread : forall i g, gs !! i = Some g -> g_tid g = i /\ pin_ok g
}.

Lemma counted_range g : 0 <= is_counted g <= 1.
Proof. unfold is_counted. destruct (g_st g); lia. Qed.
Lemma preparing_nonneg g : 0 <= is_preparing g.
Proof. unfold is_preparing. destruct (g_st g); lia. Qed.
Lemma migrating_nonneg g : 0 <= is_migrating g.
Proof. unfold is_migrating. destruct (g_st g); lia. Qed.

Lemma zsum_counted_le gs : 0 <= zsum is_counted gs <= Z.of_nat (length gs).
Proof.
  induction gs as [|g gs IH]; unfold zsum in *; cbn -[Z.add Z.of_nat]; [done|].
  pose proof (counted_range g). lia.
Qed.

(** ** Steps *)

(** The cells the invariant does not look at. *)
Definition Free (l : sloc) : Prop :=
  match l with Phase | ActiveTxns | ActiveIndex | Pin _ => False | _ => True end.

Lemma barrier_inv_free m gs l v : Inv m gs -> Free l -> Inv (upd m l v) gs.
Proof.
  intros [] Hl. assert (E : forall l', ~ Free l' -> upd m l v l' = m l').
  { intros l' Hl'. apply upd_ne. by intros <-. }
  constructor; try done; rewrite ?E by (intros []); try done.
  intros t. rewrite E by (intros []). auto.
Qed.

(** Thread [i] moves from [g] to [g'] while the memory goes from [m] to [m']. *)
Record may_move (m m' : mem sloc) (g g' : ghost) : Prop := {
  mm_counted : m' ActiveTxns = wrap 64 (m ActiveTxns - is_counted g + is_counted g');
  mm_preparing : Z.b2z (m' Phase =? phase_u8 PrepareGrow) =
    Z.b2z (m Phase =? phase_u8 PrepareGrow) - is_preparing g + is_preparing g';
  mm_migrating : Z.b2z (m' Phase =? phase_u8 InProgressGrow) =
    Z.b2z (m Phase =? phase_u8 InProgressGrow) - is_migrating g + is_migrating g';
  mm_drained : g_st g' = Drained -> g_st g = Drained \/ m ActiveTxns = 0;
  mm_registered : registered g' -> registered g \/ m Phase <> phase_u8 PrepareGrow;
  mm_index : m' ActiveIndex = m ActiveIndex \/ g_st g = Drained /\ g_st g' = Drained;
  mm_pinned : forall p, g_st g' = Pinned p -> m' ActiveIndex = p;
  mm_pins : forall t, m' (Pin t) = if decide (t = g_tid g) then g_pin g' else m (Pin t);
  mm_thread : g_tid g' = g_tid g /\ pin_ok g'
}.

Lemma phase_preparing m gs i g :
  Inv m gs -> gs !! i = Some g -> is_preparing g = 1 -> m Phase = phase_u8 PrepareGrow.
Proof.
  intros HI Hi Hg. pose proof (zsum_lookup is_preparing gs i g preparing_nonneg Hi) as H.
  rewrite (inv_preparing _ _ HI), Hg in H.
  by destruct (Z.eqb_spec (m Phase) (phase_u8 PrepareGrow)).
Qed.

Lemma phase_migrating m gs i g :
  Inv m gs -> gs !! i = Some g -> is_migrating g = 1 -> m Phase = phase_u8 InProgressGrow.
Proof.
  intros HI Hi Hg. pose proof (zsum_lookup is_migrating gs i g migrating_nonneg Hi) as H.
  rewrite (inv_migrating _ _ HI), Hg in H.
  by destruct (Z.eqb_spec (m Phase) (phase_u8 InProgressGrow)).
Qed.

Lemma registered_counted g : registered g -> is_counted g = 1.
Proof. unfold registered, is_counted. by destruct (g_st g). Qed.

Lemma inv_move m m' gs i g g' :
  Inv m gs -> gs !! i = Some g -> may_move m m' g g' -> Inv m' (<[i := g']> gs).
Proof.
  intros HI Hi [M1 M2 M3 M4 M5 M6 M7 M8 M9].
  assert (Hlt : (i < length gs)%nat) by (by eapply lookup_lt_Some).
  destruct HI as [I0 I1 I2 I3 I4 I5 I6 I7] eqn:EI. clear EI.
  assert (Hnew : zsum is_counted (<[i := g']> gs) = m ActiveTxns - is_counted g + is_counted g').
  { rewrite (zsum_insert _ _ _ _ _ Hi). lia. }
  constructor.
  - by rewrite length_insert.
  - rewrite M1, <- Hnew. pose proof (zsum_counted_le (<[i := g']> gs)) as Hb.
    rewrite length_insert in Hb. unfold wrap. apply Z.mod_small. lia.
  - rewrite (zsum_insert _ _ _ _ _ Hi). lia.
  - rewrite (zsum_insert _ _ _ _ _ Hi). lia.
  - intros j k x y Hj Hk Hd Hr.
    destruct (decide (j = i)) as [->|Hj'], (decide (k = i)) as [->|Hk'];
      rewrite ?list_lookup_insert_eq in Hj by done; rewrite ?list_lookup_insert_ne in Hj by done;
      rewrite ?list_lookup_insert_eq in Hk by done; rewrite ?list_lookup_insert_ne in Hk by done;
      simplify_eq.
    + unfold registered in Hr. by rewrite Hd in Hr.
    + destruct (M4 Hd) as [Hg|Hz]; [by eapply (I4 i k)|].
      pose proof (zsum_lookup is_counted gs k y (fun a => proj1 (counted_range a)) Hk) as Hc.
      rewrite (registered_counted _ Hr) in Hc. lia.
    + destruct (M5 Hr) as [Hg|Hp]; [by eapply (I4 j i)|]. apply Hp.
      eapply (phase_preparing m gs j x); [by constructor|done|]. unfold is_preparing. by rewrite Hd.
    + by eapply (I4 j k).
  - intros j x p Hj Hp. destruct (decide (j = i)) as [->|Hj'].
    + rewrite list_lookup_insert_eq in Hj by done. simplify_eq. auto.
    + rewrite list_lookup_insert_ne in Hj by done.
      destruct M6 as [->|[Hd _]]; [by eapply I5|]. exfalso. eapply (I4 i j); [done..|].
      unfold registered. by rewrite Hp.
  - intros t. rewrite M8. destruct (I7 i g Hi) as [Ht _]. rewrite Ht. case_decide as Et; [subst t; by rewrite list_lookup_insert_eq|].
    rewrite list_lookup_insert_ne by done. apply I6.
  - intros j x Hj. destruct (decide (j = i)) as [->|Hj'].
    + rewrite list_lookup_insert_eq in Hj by done. destruct (I7 i g Hi). destruct M9. simplify_eq. split; congruence.
    + rewrite list_lookup_insert_ne in Hj by done. by eapply I7.
Qed.

(** ** Triples *)

Abbreviation wpb := (wp Inv).

Lemma wp_barrier_free {A} (p : prog sloc A) g : writes Free p -> wpb p g (fun _ h => h = g).
Proof. apply wp_frame. intros. by apply barrier_inv_free. Qed.

(** A free prefix. *)
Lemma wp_free_bind {A B} (p : prog sloc A) (k : A -> prog sloc B) g Q :
  writes Free p -> (forall a, wpb (k a) g Q) -> wpb (let* a := p in k a) g Q.
Proof. intros Hp Hk. apply wp_bind. eapply wp_mono; [|by apply wp_barrier_free]. by intros a h ->. Qed.

(** One action of thread [g], by the move it makes. *)
Lemma wp_load_move {A} l (k : Z -> prog sloc A) g Q :
  (forall m gs i, Inv m gs -> gs !! i = Some g ->
     exists g', may_move m m g g' /\ wpb (k (m l)) g' Q) ->
  wpb (let* v := load l in k v) g Q.
Proof.
  intros Hk m gs i HI Hi. destruct (Hk m gs i HI Hi) as (g' & Hm & Hw).
  exists g'. split; [by eapply inv_move|done].
Qed.

Lemma wp_store_move {A} l v (k : prog sloc A) g g' Q :
  (forall m gs i, Inv m gs -> gs !! i = Some g -> may_move m (upd m l v) g g') ->
  wpb k g' Q -> wpb (store l v ;; k) g Q.
Proof.
  intros Hm Hk m gs i HI Hi. exists g'. split; [|done].
  eapply inv_move; [done..|]. by eapply Hm.
Qed.

Lemma wp_rmw_move {A} l f (k : Z -> prog sloc A) g g' Q :
  (forall m gs i, Inv m gs -> gs !! i = Some g -> may_move m (upd m l (f (m l))) g g') ->
  (forall v, wpb (k v) g' Q) -> wpb (Rmw l f k) g Q.
Proof.
  intros Hm Hk m gs i HI Hi. exists g'. split; [|done].
  eapply inv_move; [done..|]. by eapply Hm.
Qed.

Lemma wp_cas_move {A} l old new (k : bool * Z -> prog sloc A) g g' Q :
  (forall m gs i, Inv m gs -> gs !! i = Some g -> m l = old -> may_move m (upd m l new) g g') ->
  wpb (k (true, old)) g' Q -> (forall v, wpb (k (false, v)) g Q) ->
  wpb (let* r := compare_exchange l old new in k r) g Q.
Proof.
  intros Hm Hok Hfail m gs i HI Hi. split.
  - intros E. exists g'. split; [|done]. eapply inv_move; [done..|]. by eapply Hm.
  - intros _. exists g. unfold guar. rewrite list_insert_id by done. split; [done|apply Hfail].
Qed.

(** ** The moves of the protocol *)

Lemma counter_fits m gs : Inv m gs -> fits 64 (m ActiveTxns).
Proof. intros []. rewrite inv_counted0. pose proof (zsum_counted_le gs). unfold fits. lia. Qed.

Lemma own_pin m gs i g : Inv m gs -> gs !! i = Some g -> m (Pin (g_tid g)) = g_pin g /\ pin_ok g.
Proof.
  intros HI Hi. destruct (inv_thread _ _ HI i g Hi) as [Ht Hp].
  split; [by rewrite (inv_pins _ _ HI), Ht, Hi|done].
Qed.

(** Evaluates the ghosts and the updated cells. *)
Ltac solve_move HI Hi :=
  pose proof (counter_fits _ _ HI) as Hfits;
  destruct (own_pin _ _ _ _ HI Hi) as [Hpin Hok];
  constructor; unfold registered, is_counted, is_preparing, is_migrating, pin_ok in *;
  cbn [g_st g_pin g_tid phase_u8] in *; rewrite ?upd_eq, ?upd_ne by done;
  first
    [ done | tauto | lia | by intros; simplify_eq
    | unfold wadd, wsub, wrap, fits in *; f_equal; lia
    | unfold wadd, wsub, wrap, fits in *; rewrite Z.mod_small; lia
    | let t := fresh in intros t; rewrite ?upd_ne by done; case_decide; subst; congruence
    | let t := fresh in
      intros t; case_decide; [subst; by rewrite upd_eq|rewrite upd_ne by congruence; done]
    | idtac ].

Lemma inv_stay m gs i g : Inv m gs -> gs !! i = Some g -> may_move m m g g.
Proof. intros HI Hi. solve_move HI Hi. intros p. by eapply inv_pinned. Qed.

(** A load of any cell by a thread that stays where it is. *)
Lemma wp_load_stay {A} l (k : Z -> prog sloc A) g Q :
  (forall v, wpb (k v) g Q) -> wpb (let* v := load l in k v) g Q.
Proof. intros Hk. apply wp_load_move. intros m gs i HI Hi. exists g. split; [by eapply inv_stay|done]. Qed.

Lemma wp_barrier_acquire t :
  wpb try_acquire_txn (mkGhost t Out 0) (fun ok g => g = mkGhost t (if ok then Registered else Out) 0).
Proof.
  apply wp_load_stay. intros p. destruct (p =? phase_u8 PrepareGrow); [done|].
  apply (wp_rmw_move _ _ _ _ (mkGhost t Counted 0)); [intros m gs i HI Hi; solve_move HI Hi|].
  intros _. apply wp_load_move. intros m gs i HI Hi.
  destruct (Z.eqb_spec (m Phase) (phase_u8 PrepareGrow)); cbn [negb].
  - eexists. split; [by eapply inv_stay|].
    apply (wp_rmw_move _ _ _ _ (mkGhost t Out 0)); [|done].
    intros m1 gs1 i1 HI1 Hi1. solve_move HI1 Hi1.
  - exists (mkGhost t Registered 0). split; [solve_move HI Hi|done].
Qed.

Lemma wp_release t st :
  st = Registered \/ (exists p, st = Pinned p) ->
  wpb release_txn (mkGhost t st 0) (fun _ g => g = mkGhost t Out 0).
Proof.
  intros Hst. apply (wp_rmw_move _ _ _ _ (mkGhost t Out 0)); [|done].
  intros m gs i HI Hi. destruct Hst as [-> | [p ->]]; solve_move HI Hi.
Qed.

(** ** The parts of growing that leave the barrier alone *)

Ltac free_relocate :=
  apply writes_relocate; let l := fresh in intros l; first [exact I|destruct l; exact I].

(** Walks through a program of known shape. *)
Ltac free_step :=
  lazymatch goal with
  | |- forall _, _ => intros
  | |- writes _ (Ret _) => exact I
  | |- writes _ (bind (Ret _) _) => cbn [bind]
  | |- writes _ (bind (load _) _) => apply writes_bind; [by intros|]
  | |- writes _ (bind (relocate _ _) _) => apply writes_bind; [free_relocate|]
  | |- writes _ (relocate _ _) => free_relocate
  | |- writes _ (bind (store _ _) _) => split; [exact I|]
  | |- writes _ (bind (fetch_add _ _) _) => split; [exact I|]
  | |- writes _ (bind (fetch_sub _ _) _) => split; [exact I|]
  | |- writes _ (bind (compare_exchange _ _ _) _) => split; [exact I|]
  | |- writes _ (if ?b then _ else _) => destruct b
  | |- writes _ (match ?x with _ => _ end) => destruct x
  end.

Section Protocol.
Context (vm_allocate : Z -> Z -> bool) (e : LightEpoch.LightEpoch) (alive : Z -> bool).
Context (expired : nat -> bool).
Context (skip_read_cache : Z -> option Z) (memory_record : Z -> option (Z * Z)) (fuel : nat).

Abbreviation split_chunk1 := (split_single_chunk skip_read_cache memory_record fuel).

Lemma free_active_index : writes Free active_index.
Proof. by intros ? ?. Qed.

Lemma free_old_index : writes Free old_index.
Proof. intros p. cbn. by destruct (p =? 0); [|intros ?]. Qed.

Lemma free_split_single i n old : writes Free (split_chunk1 i n old).
Proof.
  unfold split_single_chunk. repeat free_step.
  apply writes_bind; [apply free_active_index|]. repeat free_step.
Qed.

#[local] Hint Resolve free_active_index free_old_index free_split_single : core.

Lemma free_split_ring n i c old : writes Free (split_ring skip_read_cache memory_record fuel n i c old).
Proof.
  revert i. induction n as [|n IH]; intros i; [done|]. cbn [split_ring].
  apply writes_bind; [done|]. repeat free_step. apply IH.
Qed.

Lemma free_split_buckets_loop r o c old :
  writes Free (split_buckets_loop skip_read_cache memory_record fuel r o c old).
Proof.
  induction r as [|r IH]; [done|]. cbn [split_buckets_loop].
  apply writes_bind; [apply free_split_ring|]. repeat free_step; done.
Qed.

Lemma free_split_buckets hash : writes Free (split_buckets skip_read_cache memory_record fuel hash).
Proof.
  apply writes_bind; [done|]. intros [old|]; [apply free_split_buckets_loop|done].
Qed.

Lemma free_ensure_split hash : writes Free (ensure_split_by_hash skip_read_cache memory_record fuel hash).
Proof.
  apply writes_bind; [done|]. intros [old|]; [|done]. apply writes_bind; [done|].
  intros active. destruct (ptr old =? ptr active); [done|apply free_split_buckets].
Qed.

Lemma free_barrier_enter r t i : writes Free (barrier_enter e fuel r t i).
Proof.
  induction r as [|r IH]; [done|]. cbn [barrier_enter]. repeat free_step.
  apply writes_bind; [by repeat free_step|]. repeat free_step. done.
Qed.

Lemma free_split_each n i c old : writes Free (split_each skip_read_cache memory_record fuel n i c old).
Proof.
  revert i. induction n as [|n IH]; intros i; [done|]. cbn [split_each].
  apply writes_bind; [done|]. repeat free_step. apply IH.
Qed.

Lemma free_rescan n i s c old : writes Free (rescan skip_read_cache memory_record fuel n i s c old).
Proof.
  revert i. induction n as [|n IH]; intros i; [done|]. cbn [rescan]. repeat free_step; [|apply IH].
  apply writes_bind; [done|]. repeat free_step. apply IH.
Qed.

Lemma free_await n r c old : writes Free (await_chunks expired skip_read_cache memory_record fuel n r c old).
Proof.
  revert r. induction n as [|n IH]; intros r; [done|]. cbn [await_chunks]. repeat free_step.
  apply writes_bind; [apply free_rescan|]. repeat free_step. apply IH.
Qed.

Lemma free_split_all old c : writes Free (split_all_buckets expired skip_read_cache memory_record fuel old c).
Proof. apply writes_bind; [apply free_split_each|]. repeat free_step. apply free_await. Qed.

Lemma free_drain_epoch t : writes Free (drain_epoch e alive fuel t).
Proof. unfold drain_epoch. repeat free_step. Qed.

(** ** Growing *)

(** A thread that has not run out of fuel is outside the protocol again. *)
Definition back_out {A} (t : nat) (r : option A) (g : ghost) : Prop :=
  r <> None -> g = mkGhost t Out 0.

Lemma out_none {A} t g : @back_out A t None g.
Proof. by intros []. Qed.

Lemma wp_drain_txns t r :
  wpb (drain_txns r) (mkGhost t Preparing 0)
    (fun ok g => g = mkGhost t (if ok then Drained else Preparing) 0).
Proof.
  induction r as [|r IH]; [done|]. cbn [drain_txns].
  apply wp_load_move. intros m gs i HI Hi. destruct (Z.ltb_spec 0 (m ActiveTxns)).
  - eexists. split; [by eapply inv_stay|apply IH].
  - exists (mkGhost t Drained 0). split; [solve_move HI Hi|done].
Qed.

(** A store of the phase by the thread that owns the current one. *)
Lemma wp_store_phase {A} t st st' v (k : prog sloc A) Q :
  (st = Preparing \/ st = Drained \/ st = Migrating) ->
  (v = phase_u8 Rest /\ st' = Out \/ v = phase_u8 InProgressGrow /\ st' = Migrating) ->
  wpb k (mkGhost t st' 0) Q -> wpb (store Phase v ;; k) (mkGhost t st 0) Q.
Proof.
  intros Hst Hst'. apply wp_store_move. intros m gs i HI Hi.
  assert (Hph : m Phase = phase_u8 (match st with Migrating => InProgressGrow | _ => PrepareGrow end)).
  { destruct Hst as [-> | [-> | ->]];
      [by eapply phase_preparing|by eapply phase_preparing|by eapply phase_migrating]. }
  destruct Hst as [-> | [-> | ->]], Hst' as [[-> ->]|[-> ->]]; solve_move HI Hi; by rewrite Hph.
Qed.

Lemma wp_migrate t tl old c :
  wpb (migrate e alive expired skip_read_cache memory_record fuel tl old c)
    (mkGhost t Migrating 0) (back_out t).
Proof.
  apply wp_free_bind; [apply free_split_all|]. intros [[[]|err]|]; [| |apply out_none].
  - apply (wp_store_phase _ _ Out); [auto..|].
    apply wp_free_bind; [apply free_drain_epoch|]. intros []; [|apply out_none].
    eapply wp_mono; [|apply wp_barrier_free; by repeat free_step]. by intros ? ? ->.
  - apply (wp_free_bind (store Torn 1)); [done|]. intros _.
    apply (wp_store_phase _ _ Out); [auto..|].
    eapply wp_mono; [|apply wp_barrier_free; by repeat free_step]. by intros ? ? ->.
Qed.

Lemma wp_publish t old tb c :
  wpb (publish old tb c) (mkGhost t Drained 0) (fun _ g => g = mkGhost t Migrating 0).
Proof.
  apply (wp_free_bind alloc); [done|]. intros new.
  apply (wp_free_bind (store _ _)); [done|]. intros _.
  apply (wp_free_bind alloc); [done|]. intros sv.
  do 4 (apply (wp_free_bind (store _ _)); [done|]; intros _).
  apply (wp_store_move _ _ _ _ (mkGhost t Drained 0)).
  { intros m gs i HI Hi. solve_move HI Hi. }
  apply (wp_store_phase _ _ Migrating); auto. done.
Qed.

Lemma wp_grow_index t tl :
  wpb (grow_index vm_allocate e alive expired skip_read_cache memory_record fuel tl)
    (mkGhost t Out 0) (back_out t).
Proof.
  apply (wp_cas_move _ _ _ _ _ (mkGhost t Preparing 0)); [|cbn [negb]|done].
  { intros m gs i HI Hi Hph. solve_move HI Hi; by rewrite Hph. }
  apply wp_bind. eapply wp_mono; [|apply wp_drain_txns]. intros [] g ->; cbn [negb]; [|apply out_none].
  apply wp_free_bind; [apply free_drain_epoch|]. intros []; cbn [negb]; [|apply out_none].
  apply wp_free_bind; [done|]. intros old.
  destruct (checked_mul _ _) as [n|]; [destruct (new_index _ _) as [tb|err]|].
  - apply wp_bind. eapply wp_mono; [|apply wp_publish]. intros _ g ->. apply wp_migrate.
  - by apply (wp_store_phase _ _ Out); [auto..|].
  - by apply (wp_store_phase _ _ Out); [auto..|].
Qed.

(** ** Clients *)

(** What a thread does.  A transaction pins the active table while it is
    registered; a checkpoint leaves its phase twice, once itself and once when
    its guard is dropped; a session operation passes the barrier, helps with the
    migration and leaves the epoch.  The bodies are arbitrary programs. *)
Inductive task : Type :=
| Transaction (body : IndexRef -> prog sloc unit)
| Growth (tl : Tls.ThreadLocal)
| Snapshot (body : prog sloc unit)
| Operation (tl : Tls.ThreadLocal) (entry_idx : nat) (hash : Z) (body : prog sloc unit).

(** [false]: the thread is still inside an unbounded loop. *)
Definition task_prog (t : nat) (k : task) : prog sloc bool :=
  match k with
  | Transaction body =>
      let* ok := try_acquire_txn in
      if (ok : bool) then
        let* ix := active_index in
        store (Pin t) (ptr ix) ;;
        body ix ;;
        store (Pin t) 0 ;;
        release_txn ;;
        Ret true
      else Ret true
  | Growth tl =>
      let* r := grow_index vm_allocate e alive expired skip_read_cache memory_record fuel tl in
      Ret (match r with Some _ => true | None => false end)
  | Snapshot body =>
      let* ok := enter_checkpoint in
      if (ok : bool) then body ;; exit_checkpoint ;; exit_checkpoint ;; Ret true else Ret true
  | Operation tl entry_idx hash body =>
      let* ok := barrier_enter e fuel fuel tl entry_idx in
      if negb ok then Ret false
      else
        let* r := ensure_split_by_hash skip_read_cache memory_record fuel hash in
        match r with
        | None => Ret false
        | Some r =>
            (match r with inl _ => body | inr _ => Ret tt end) ;;
            relocate EpochCell (Participant.exit fuel e entry_idx)
        end
  end.

Fixpoint client (t : nat) (ks : list task) : prog sloc bool :=
  match ks with
  | [] => Ret true
  | k :: rest =>
      let* ok := task_prog t k in
      if (ok : bool) then client t rest else Ret false
  end.

(** Bodies do not write the words of the barrier. *)
Definition task_free (k : task) : Prop :=
  match k with
  | Transaction body => forall ix, writes Free (body ix)
  | Snapshot body | Operation _ _ _ body => writes Free body
  | Growth _ => True
  end.

Definition done_out (t : nat) (ok : bool) (g : ghost) : Prop := ok = true -> g = mkGhost t Out 0.

Lemma wp_transaction t body :
  (forall ix, writes Free (body ix)) ->
  wpb (task_prog t (Transaction body)) (mkGhost t Out 0) (done_out t).
Proof.
  intros Hb. apply wp_bind. eapply wp_mono; [|apply wp_barrier_acquire]. intros [] g ->; [|done].
  apply wp_bind. apply wp_load_move. intros m gs i HI Hi.
  exists (mkGhost t (Pinned (m ActiveIndex)) 0). split; [solve_move HI Hi|].
  apply wp_load_stay. intros n. cbn [wp ptr]. set (p := m ActiveIndex). clearbody p. clear m gs i HI Hi.
  apply (wp_store_move _ _ _ _ (mkGhost t (Pinned p) p)).
  { intros m gs i HI Hi. solve_move HI Hi. intros q [= <-]. by eapply inv_pinned. }
  apply wp_free_bind; [apply Hb|]. intros _.
  apply (wp_store_move _ _ _ _ (mkGhost t (Pinned p) 0)).
  { intros m gs i HI Hi. solve_move HI Hi. intros q [= <-]. by eapply inv_pinned. }
  apply wp_bind. eapply wp_mono; [|apply wp_release; eauto]. by intros _ g ->.
Qed.

(** Neither the entry into a checkpoint nor leaving it concerns the barrier. *)
Lemma wp_cas_checkpoint {A} t old new (k : bool * Z -> prog sloc A) Q :
  (old = phase_u8 Rest /\ new = phase_u8 Checkpoint \/
   old = phase_u8 Checkpoint /\ new = phase_u8 Rest) ->
  (forall r, wpb (k r) (mkGhost t Out 0) Q) ->
  wpb (let* r := compare_exchange Phase old new in k r) (mkGhost t Out 0) Q.
Proof.
  intros Hon Hk. apply (wp_cas_move _ _ _ _ _ (mkGhost t Out 0)); [|done..].
  intros m gs i HI Hi Hph.
  destruct Hon as [[-> ->]|[-> ->]]; solve_move HI Hi; by rewrite Hph.
Qed.

Lemma wp_task t k : task_free k -> wpb (task_prog t k) (mkGhost t Out 0) (done_out t).
Proof.
  destruct k as [body|tl|body|tl i h body]; intros Hk.
  - by apply wp_transaction.
  - apply wp_bind. eapply wp_mono; [|apply wp_grow_index].
    intros [r|] g Hg; [|done]. intros _. by apply Hg.
  - apply wp_bind, wp_cas_checkpoint; [auto|]. intros [[] v]; [|done].
    apply wp_free_bind; [done|]. intros _.
    apply wp_bind, wp_cas_checkpoint; [auto|]. intros _.
    apply wp_bind, wp_cas_checkpoint; [auto|]. done.
  - eapply wp_mono; [|apply wp_barrier_free]. { by intros ok g -> _. }
    apply writes_bind; [apply free_barrier_enter|]. intros []; [|done].
    apply writes_bind; [apply free_ensure_split|]. intros [[]|]; [| |done];
      (apply writes_bind; [done|]; repeat free_step).
Qed.

Lemma wp_barrier_client t ks : Forall task_free ks -> wpb (client t ks) (mkGhost t Out 0) (done_out t).
Proof.
  induction 1 as [|k ks Hk _ IH]; [done|]. cbn [client]. apply wp_bind.
  eapply wp_mono; [|by apply wp_task]. intros [] g Hg; [|done]. by rewrite (Hg eq_refl).
Qed.

Definition threads (clients : list (list task)) : list (prog sloc bool) := imap client clients.

Definition out_ghosts (n : nat) : list ghost := map (fun t => mkGhost t Out 0) (seq 0 n).

Lemma out_ghosts_lookup n i : out_ghosts n !! i = if decide (i < n)%nat then Some (mkGhost i Out 0) else None.
Proof.
  unfold out_ghosts. rewrite list_lookup_fmap. case_decide.
  - by rewrite lookup_seq_lt.
  - by rewrite lookup_seq_ge by lia.
Qed.

Lemma zsum_out f n : (forall t, f (mkGhost t Out 0) = 0) -> zsum f (out_ghosts n) = 0.
Proof.
  intros Hf. unfold out_ghosts. rewrite zsum_map. generalize 0%nat.
  induction n as [|n IH]; intros s; cbn; [done|]. rewrite Hf. apply IH.
Qed.

Lemma barrier_initial_ok clients size head begin :
  Z.of_nat (length clients) < 2 ^ 64 -> Forall (Forall task_free) clients ->
  exists gs, Inv (new_cells size head begin) gs /\
    Forall2 (fun p g => wpb p g (fun _ _ => True)) (threads clients) gs.
Proof.
  intros Hlen Hfree. exists (out_ghosts (length clients)). split.
  - constructor; rewrite ?zsum_out by done; try done.
    + unfold out_ghosts. by rewrite length_map, length_seq.
    + intros i j g h Hi _ Hd. rewrite out_ghosts_lookup in Hi. case_decide; by simplify_eq/=.
    + intros i g q Hi Hd. rewrite out_ghosts_lookup in Hi. case_decide; by simplify_eq/=.
    + intros t. rewrite out_ghosts_lookup. by case_decide.
    + intros i g Hi. rewrite out_ghosts_lookup in Hi. case_decide; simplify_eq. split; [done|by left].
  - apply Forall2_same_length_lookup. unfold threads. split.
    { unfold out_ghosts. by rewrite length_imap, length_map, length_seq. }
    intros i q g Hp Hg. rewrite out_ghosts_lookup in Hg. case_decide; simplify_eq.
    rewrite list_lookup_imap in Hp. apply fmap_Some in Hp as (ks & Hks & ->).
    eapply wp_mono; [|apply wp_barrier_client; by eapply (Forall_lookup_1 _ _ _ _ Hfree)]. done.
Qed.

End Protocol.

(** C5: the barrier keeps the index of a registered transaction in place.
    Threads register transactions, grow the index, take checkpoints and run
    session operations in any number and any interleaving, from a new store.  As
    long as a transaction that was admitted by [try_acquire_txn] has not
    deregistered, the table it pinned is the active one: no growth publishes
    another table. *)
Theorem registered_pins_index vm e alive expired skip rec fuel clients size head begin m ps t :
  rtc pstep (new_cells size head begin, threads vm e alive expired skip rec fuel clients) (m, ps) ->
  Z.of_nat (length clients) < 2 ^ 64 -> Forall (Forall task_free) clients ->
  m (Pin t) <> 0 -> m (Pin t) = m ActiveIndex.
Proof.
  intros Hr Hlen Hfree Hp.
  destruct (pool_safe Inv (fun _ _ => True) _ _ Hr) as (gs & HI & _);
    [by apply barrier_initial_ok|]. simpl in HI.
  rewrite (inv_pins _ _ HI) in *. destruct (gs !! t) as [g|] eqn:Hg; [|done].
  destruct (inv_thread _ _ HI t g Hg) as [_ [Hz|Hst]]; [done|].
  by rewrite (inv_pinned _ _ HI t g _ Hg Hst).
Qed.

(** A transaction inside its section while another thread has begun to grow the
    index and waits. *)
Definition demo_epoch : LightEpoch.LightEpoch :=
  {| LightEpoch.id := 1; LightEpoch.n_entries := 1; LightEpoch.max_sessions := 1 |}.
Definition demo_clients : list (list task) :=
  [[Transaction (fun _ => Ret tt)]; [Growth (Tls.new_thread 7)]].
Abbreviation demo_threads :=
  (threads (fun _ _ => true) demo_epoch (fun _ => true) (fun _ => false) (fun _ => None)
     (fun _ => None) 3 demo_clients).
Definition demo_thread (i : nat) : prog sloc bool := default (Ret true) (demo_threads !! i).
Definition demo_inside : mem sloc * prog sloc bool :=
  run_for 6 (demo_thread 0) (new_cells 1 0 0).
Definition demo_waiting : mem sloc * prog sloc bool :=
  run_for 3 (demo_thread 1) demo_inside.1.

Lemma registered_pins_index_witness :
  demo_waiting.1 (Pin 0) = 1 /\ demo_waiting.1 Phase = 1 /\ demo_waiting.1 ActiveIndex = 1.
Proof.
  split; [reflexivity|]. split; [reflexivity|].
  symmetry. apply (registered_pins_index (fun _ _ => true) demo_epoch (fun _ => true)
    (fun _ => false) (fun _ => None) (fun _ => None) 3 demo_clients 1 0 0 demo_waiting.1
    (<[1%nat := demo_waiting.2]> (<[0%nat := demo_inside.2]> demo_threads)) 0);
    [|by vm_compute|repeat constructor|by vm_compute].
  etrans; [apply (run_for_steps 6 (demo_thread 0) _ demo_threads 0); reflexivity|].
  apply (run_for_steps 3 (demo_thread 1) demo_inside.1 _ 1). reflexivity.
Defined.

End Barrier.
