(* ===== verification/ResizeRace.v ===== *)
(** * A rejected transaction opens the barrier ([wedb/wkv/src/store/resize.rs])

    [barrier_enter] lets an operation pass in phase [PrepareGrow] when the counter
    of active transactions is not zero, on the ground that the operation then
    belongs to a transaction that [grow_index] still waits for.  A transaction
    that [try_acquire_txn] is about to reject raises the counter for a moment,
    also after [grow_index] has seen it at zero and has drained the epoch.  An
    operation that passes in that moment works on the old table while the new one
    is published and filled. *)

From stdpp Require Import base list numbers option tactics relations.
From Stdlib Require Import ZArith Lia Bool.
From S2P Require Import Prelude Atomic Bucket Index Epoch History Resize.
Local Open Scope prog_scope.

Module ResizeRace.
Import Index Resize.

Definition race_epoch : LightEpoch.LightEpoch :=
  {| LightEpoch.id := 1; LightEpoch.n_entries := 1; LightEpoch.max_sessions := 1 |}.

Abbreviation result := (option (bool + StoreError)).

Definition grower : prog sloc result :=
  grow_index (fun _ _ => true) race_epoch (fun _ => true) (fun _ => false) (fun _ => None)
    (fun _ => None) 4 (Tls.new_thread 1).

Definition transaction : prog sloc result :=
  let* ok := try_acquire_txn in Ret (Some (inl ok)).

(** A session operation: it registers a participant, passes the barrier, helps
    with the migration, and inserts an entry into the table it then loads. *)
Definition insertion (hash address : Z) : prog sloc result :=
  let* r := relocate EpochCell (LightEpoch.register race_epoch (Tls.new_thread 2)) in
  match r with
  | inr _ => Ret None
  | inl (entry_idx, tl) =>
      let* ok := barrier_enter race_epoch 4 4 tl entry_idx in
      if negb ok then Ret None
      else
        let* r := ensure_split_by_hash (fun _ => None) (fun _ => None) 4 hash in
        match r with
        | Some (inl _) =>
            let* ix := active_index in
            let* r := relocate (TableCell (ptr ix))
              (insert_to_bucket (table ix) 4 4 (bucket_index_for_hash (table ix) hash)
                 (Entry.tag_from_hash hash) address) in
            let* ok := relocate EpochCell (Participant.exit 4 race_epoch entry_idx) in
            Ret (match r with
                 | Some (inl _) => Some (inl ok)
                 | Some (inr err) => Some (inr (IndexError err))
                 | None => None
                 end)
        | _ => Ret None
        end
  end.

Definition race_hash : Z := 0x5A00000000000000.
Definition race_start : pool result :=
  (new_cells 1 0 0, [grower; transaction; insertion race_hash 64]).

(** The transaction sees phase [Rest]; the grower closes the barrier, sees no
    transaction and drains the epoch; the transaction raises the counter; the
    operation passes and loads the table; the transaction is rejected. *)
Definition race_passed : pool result :=
  run_schedule ([1%nat] ++ replicate 18 0%nat ++ [1%nat] ++ replicate 14 2%nat ++ replicate 2 1%nat)
    race_start.

(** The grower publishes the new table and migrates the old one. *)
Definition race_swapped : pool result := run_schedule (replicate 30 0%nat) race_passed.

(** The operation inserts and leaves; the grower finishes. *)
Definition race_end : pool result :=
  run_schedule (replicate 7 2%nat ++ replicate 30 0%nat) race_swapped.

(** Looking the inserted entry up in table [p]. *)
Definition lookup_in (p : Z) (c : pool result) : option (option Z) :=
  (run (let* ix := load_table p in
        relocate (TableCell p) (find_tag_by_hash (table ix) 4 race_hash)) c.1).1.

(** C6: the barrier can be passed while no transaction is registered, and an
    index entry is lost.  There is an interleaving in which the only transaction
    is rejected, an operation holds its guard ([EntryEpoch 0] is set) while the
    grower publishes table 2 and migrates table 1, the operation's insertion then
    succeeds, the grower returns [Ok(true)], and the entry is in the discarded
    table but not in the active one. *)
Theorem operation_passes_closed_barrier :
  exists c1 c2 : pool result,
    rtc pstep race_start c1 /\
      c1.2 !! 1%nat = Some (Ret (Some (inl false))) /\ c1.1 ActiveTxns = 0 /\
      c1.1 (EpochCell (EntryEpoch 0)) <> 0 /\ c1.1 ActiveIndex = 2 /\ c1.1 PendingChunks = 0 /\
    rtc pstep c1 c2 /\
      c2.2 !! 2%nat = Some (Ret (Some (inl true))) /\ c2.2 !! 0%nat = Some (Ret (Some (inl true))) /\
      c2.1 ActiveIndex = 2 /\ lookup_in 1 c2 = Some (Some 64) /\ lookup_in 2 c2 = Some None.
Proof.
  exists race_swapped, race_end.
  split; [transitivity race_passed; apply run_schedule_rtc|].
  split; [vm_compute; reflexivity|]. split; [vm_compute; reflexivity|].
  split; [vm_compute; discriminate|].
  split; [vm_compute; reflexivity|]. split; [vm_compute; reflexivity|].
  split; [apply run_schedule_rtc|].
  split; [vm_compute; reflexivity|]. split; [vm_compute; reflexivity|].
  split; [vm_compute; reflexivity|]. split; vm_compute; reflexivity.
Qed.

End ResizeRace.
