(* ===== verification/ResizeGrow.v ===== *)
(** * What one growth of the index does ([wedb/wkv/src/store/resize.rs])

    [grow_index] run alone on an idle store, composed of the epoch ([Epoch]), the
    splitting of buckets ([SplitSpec]) and the resize state: the new table holds
    exactly the entries that splitting every bucket prescribes ([grow_result]).
    What this means for the records is in [ResizeReach]. *)

From stdpp Require Import base list numbers option tactics relations.
From Stdlib Require Import ZArith Lia Bool.
From S2P Require Import Prelude Base Atomic Bucket Index OverflowPool Table SplitSpec.
From S2P Require Import Epoch EpochLive Resize ResizeSpec.
Local Open Scope prog_scope.

Module GrowSpec.
Import Index OverflowPool Table SplitSpec Resize Barrier.

(** ** The epoch of an idle store *)
Module Idle.
Import LightEpoch EpochLive.

(** No entry is protected, nothing is to be drained, the epoch is [c]. *)
Record idle (e : LightEpoch) (m : mem Epoch.loc) (c : Z) : Prop := {
  idle_current : m CurrentEpoch = c;
  idle_safe : 0 <= m SafeToReclaim < c;
  idle_drain : m DrainCount = 0;
  idle_entries : unprotected e m
}.

Lemma run_bump e m c :
  idle e m c -> c + 1 < 2 ^ 64 ->
  exists m', run (bump_current_epoch e) m = (c + 1, m') /\ idle e m' (c + 1) /\ m' SafeToReclaim = c.
Proof.
  intros [Hc Hs Hd Hu] Hb. unfold bump_current_epoch, has_pending_drain, fetch_add. cbn [bind run load].
  rewrite Hc, upd_ne, Hd by done. replace (wadd 64 c 1) with (c + 1)
    by (unfold wadd, wrap; rewrite Z.mod_small; lia).
  change (0 <? 0) with false. cbn iota.
  unfold compute_safe_to_reclaim_epoch_with. rewrite !run_bind, run_oldest.
  2: { intros k Hk. rewrite upd_ne by done. apply Hu. lia. }
  cbn. rewrite upd_ne by done. replace (sat_sub (c + 1) 1) with c by (unfold sat_sub; lia).
  destruct (Z.ltb_spec (m SafeToReclaim) c); [|lia]. cbn. eexists. split; [done|].
  rewrite upd_eq, upd_ne, Z.max_r by (done || lia). split; [|done].
  split; rewrite ?upd_eq, ?upd_ne by done; rewrite ?upd_eq; [done|lia|done|].
  intros i Hi. rewrite !upd_ne by done. by apply Hu.
Qed.

Lemma run_refresh_pinned n i t target cur m :
  (forall k, (i <= k < i + n)%nat -> m (EntryEpoch k) = 0) ->
  run (refresh_pinned n i t target cur) m = (tt, m).
Proof.
  revert i. induction n as [|n IH]; intros i Hi; [done|]. cbn. rewrite Hi by lia. cbn.
  apply IH. intros k Hk. apply Hi. lia.
Qed.

Lemma run_bump_and_wait alive e m c t fuel :
  idle e m c -> c + 1 < 2 ^ 64 -> (2 <= fuel)%nat ->
  exists m', run (bump_and_wait alive fuel e t c) m = (true, m') /\ idle e m' (c + 1).
Proof.
  intros Hi Hc Hf. destruct fuel as [|[|fuel]]; [lia|lia|].
  destruct (run_bump e m c Hi Hc) as (m1 & Hr & Hi1 & Hs). exists m1. split; [|done].
  unfold bump_and_wait. cbn [bump_past]. rewrite run_bind. cbn [bind run load].
  rewrite (idle_current _ _ _ Hi), Z.leb_refl, run_bind, Hr. cbn [bind run load].
  rewrite (idle_current _ _ _ Hi1). destruct (Z.leb_spec (c + 1) c); [lia|]. cbn [negb bind run load].
  rewrite run_bind, run_refresh_pinned by (intros k Hk; apply (idle_entries _ _ _ Hi1); lia).
  unfold wait_condition_sync, is_safe_to_reclaim. cbn [bind run load]. rewrite Hs, Z.leb_refl.
  unfold drain_if_pending, has_pending_drain. cbn [bind run load].
  by rewrite (idle_drain _ _ _ Hi1).
Qed.

End Idle.

(** ** Parts of the memory *)

(** Reads of updated cells. *)
Ltac upd_simpl := repeat first [rewrite upd_eq|rewrite upd_ne by done].

Definition epoch_of (m : mem sloc) : mem Epoch.loc := fun l => m (EpochCell l).
Definition table_of (m : mem sloc) (p : Z) : mem iloc := fun l => m (TableCell p l).

Definition is_epoch (l : sloc) : Prop := match l with EpochCell _ => True | _ => False end.

Lemma run_epoch {A} (p : prog Epoch.loc A) m :
  let r := run (relocate EpochCell p) m in
  r.1 = (run p (epoch_of m)).1 /\ (forall l, epoch_of r.2 l = (run p (epoch_of m)).2 l) /\
  (forall l, ~ is_epoch l -> r.2 l = m l).
Proof.
  destruct (run_relocate EpochCell p ltac:(by intros ? ? [= ->]) m (epoch_of m)
              ltac:(done)) as (H1 & H2 & H3).
  split; [done|]. split; [done|]. intros l Hl. apply H3. intros l' ->. by apply Hl.
Qed.

Lemma idle_ext e m m' c : (forall l, m' l = m l) -> Idle.idle e m c -> Idle.idle e m' c.
Proof. intros E [H1 H2 H3 H4]. split; rewrite ?E; try done. intros i Hi. rewrite E. by apply H4. Qed.

Lemma run_drain_epoch e alive fuel t m c :
  Idle.idle e (epoch_of m) c -> c + 2 < 2 ^ 64 -> (2 <= fuel)%nat ->
  exists m', run (drain_epoch e alive fuel t) m = (true, m') /\
    Idle.idle e (epoch_of m') (c + 2) /\ (forall l, ~ is_epoch l -> m' l = m l).
Proof.
  intros Hi Hc Hf. unfold drain_epoch. rewrite run_bind.
  destruct (Idle.run_bump e _ c Hi ltac:(lia)) as (n1 & Hr & Hi1 & _).
  destruct (run_epoch (LightEpoch.bump_current_epoch e) m) as (H1 & H2 & H3).
  destruct (run (relocate EpochCell (LightEpoch.bump_current_epoch e)) m) as [v m1].
  cbn [fst snd] in *. rewrite Hr in H1, H2. cbn [fst snd] in *. subst v.
  apply (idle_ext e _ (epoch_of m1)) in Hi1; [|done].
  destruct (Idle.run_bump_and_wait alive e _ _ t fuel Hi1 ltac:(lia) Hf) as (n2 & Hr2 & Hi2).
  destruct (run_epoch (LightEpoch.bump_and_wait alive fuel e t (c + 1)) m1) as (K1 & K2 & K3).
  destruct (run (relocate EpochCell (LightEpoch.bump_and_wait alive fuel e t (c + 1))) m1) as [b m2].
  cbn [fst snd] in *. rewrite Hr2 in K1, K2. cbn [fst snd] in *. subst b.
  exists m2. split; [done|]. split; [|intros l Hl; by rewrite K3, H3].
  replace (c + 2) with (c + 1 + 1) by lia. by eapply idle_ext.
Qed.

(** ** Migrating the chunks *)

Lemma chunk_count_spec n k :
  0 <= k < 64 -> n = 2 ^ k ->
  exists j, 0 <= j <= k /\ Split.chunk_count n = 2 ^ j /\ n / Split.chunk_count n = 2 ^ (k - j).
Proof.
  intros Hk ->. unfold Split.chunk_count. change Split.CHUNK_SIZE with (2 ^ 14).
  destruct (Z.leb_spec 14 k) as [H|H].
  - rewrite <- Z.pow_sub_r by lia. pose proof (Z.pow_pos_nonneg 2 (k - 14)).
    destruct (Z.eqb_spec (2 ^ (k - 14)) 0); [lia|]. exists (k - 14).
    rewrite <- Z.pow_sub_r by lia. split_and!; [lia|lia|done|done].
  - rewrite Z.div_small by (split; [apply Z.pow_nonneg; lia|apply Z.pow_lt_mono_r; lia]). cbn.
    exists 0. rewrite Z.div_1_r, Z.sub_0_r. split_and!; [lia|lia|done|done].
Qed.

Section Migration.
Context (expired : nat -> bool) (skip : Z -> option Z) (rec : Z -> option (Z * Z)) (fuel : nat).
Context (old new : HashIndex) (p q sv head begin : Z).
Context (mo : mem iloc) (oc : Z -> list Z) (ofl : list Z).
Context (Ho : index_ok old mo oc ofl) (Hsize : size new = 2 * size old) (Hpq : p <> q).
Context (Hmask : mask new = size new - 1).
Context (Hfuel : (0 < fuel)%nat).

Definition locate : Z -> option (Z * Z) := get_record_hash_and_prev skip rec head.
Definition trace : Z -> Z -> option Z := fun prev bit =>
  trace_back_for_other_chain_start locate prev bit head begin (size old) (mask new).

Context (Htrace : forall addr hash prev b other, locate addr = Some (hash, prev) ->
  trace prev b = Some other -> 0 < other <= Addr.ADDRESS_MASK).
Context (Hf : forall j, 0 <= j < size old -> (length (oc j) < fuel)%nat).
Context (Hst : forall j, 0 <= j < size old -> Z.of_nat (length (oc j)) < MAX_CHAIN_STEPS).

Abbreviation c := (Split.chunk_count (size old)).
Abbreviation cs := (size old / c).

Definition view2 (m : mem sloc) : mem Split.loc2 := fun l => m (two_tables p q l).

Abbreviation bmoves := (bucket_moves old mo oc begin locate trace).
Abbreviation st := (SplitSpec.state new fuel mo).

(** [i] chunks are migrated. *)
Record growing (i : Z) (m : mem sloc) : Prop := {
  gr_status : m SplitStatus = sv;
  gr_len : m (StatusLen sv) = c;
  gr_chunks : forall k, 0 <= k < c -> m (Status sv k) = if k <? i then SPLIT_COMPLETED else SPLIT_UNSTARTED;
  gr_pending : m PendingChunks = c - i;
  gr_active : m ActiveIndex = q;
  gr_size : m (IndexSize q) = size new;
  gr_head : m HeadAddress = head;
  gr_begin : m BeginAddress = begin
}.

(** The cells that migrating writes. *)
Definition migration_cell (l : sloc) : Prop :=
  match l with Status _ _ | PendingChunks | TableCell _ _ => True | _ => False end.

Lemma chunk_facts : 0 < c /\ 0 < cs /\ c * cs = size old /\ c < 2 ^ 64.
Proof.
  destruct (io_size _ _ _ _ Ho) as (k & Hk & Hp). destruct (chunk_count_spec _ k Hk Hp) as (j & Hj & E & F).
  rewrite F, E, Hp, <- Z.pow_add_r by lia. replace (j + (k - j)) with k by lia.
  split_and!; [apply Z.pow_pos_nonneg; lia|apply Z.pow_pos_nonneg; lia|done|apply Z.pow_lt_mono_r; lia].
Qed.

Lemma chunk_index i : 0 <= i < c -> Z.land i (c - 1) = i.
Proof.
  intros Hi. destruct (io_size _ _ _ _ Ho) as (k & Hk & Hp).
  destruct (chunk_count_spec _ k Hk Hp) as (j & Hj & E & F). rewrite E in *.
  rewrite Z.sub_1_r, <- Z.ones_equiv, Z.land_ones, Z.mod_small; lia.
Qed.

Lemma does_chunk i sub : 0 <= i < c ->
  does new fuel mo (Split.split_chunk old new fuel (S sub) begin locate trace i c)
    (seqZ (cs * i) cs ≫= bmoves).
Proof.
  intros Hi. destruct chunk_facts as (H1 & H2 & H3 & _). unfold Split.split_chunk.
  rewrite chunk_index by done.
  pose proof (does_range old new fuel sub begin locate trace mo oc ofl Ho Hsize Htrace Hf Hst
    (Z.to_nat cs) (cs * i)) as Hr.
  rewrite Z2Nat.id in Hr by lia. apply Hr; nia.
Qed.

Lemma two_tables_inj l l' : two_tables p q l = two_tables p q l' -> l = l'.
Proof. destruct l, l'; cbn; intros [=]; congruence. Qed.

Lemma state_view k m m' mn nc nfl :
  (forall l, view2 m' l = view2 m l) -> st k (view2 m) mn nc nfl -> st k (view2 m') mn nc nfl.
Proof. intros E [H1 H2 H3 H4 H5]. split; [| |done..]; intros l; by rewrite E. Qed.

Abbreviation chunk_moves i := (seqZ (cs * i) cs ≫= bmoves).

Lemma does_chunk_fuel i : 0 <= i < c ->
  does new fuel mo (Split.split_chunk old new fuel fuel begin locate trace i c) (chunk_moves i).
Proof. intros Hi. pose proof (does_chunk i (pred fuel) Hi) as H. by rewrite Nat.succ_pred in H by lia. Qed.

Lemma run_active m :
  m ActiveIndex = q -> m (IndexSize q) = size new -> run active_index m = (mkRef q new, m).
Proof.
  intros Ha Hq. unfold active_index, load_table. cbn. rewrite Ha, Hq.
  by destruct new as [n mk]; cbn in *; rewrite Hmask.
Qed.

(** What migrating [mv] makes of the two tables. *)
Definition tables_after (mv : list move) (k : Z -> nat) (mn : mem iloc) (nc : Z -> list Z)
    (ok failed : Prop) (m' : mem sloc) : Prop :=
  exists mn' nc' nfl' k' mv', st k' (view2 m') mn' nc' nfl' /\ migrated new mv' mn nc mn' nc' /\
    ((ok /\ mv' = mv /\ k' = k) \/
     (failed /\ mv' `prefix_of` mv /\ nfl' = [] /\ mn' PAllocated = CAPACITY)).

Definition exhausted {A} (r : option (A + StoreError)) : Prop :=
  r = Some (inr (IndexError OverflowPoolExhausted)).

Lemma growing_next i m m2 :
  growing i m -> 0 <= i < c ->
  (forall l, match l with TableCell _ _ => False | _ => True end ->
     m2 l = upd m (Status sv i) SPLIT_IN_PROGRESS l) ->
  growing (i + 1) (upd (upd m2 (Status sv i) SPLIT_COMPLETED) PendingChunks
    (wsub 64 (upd m2 (Status sv i) SPLIT_COMPLETED PendingChunks) 1)).
Proof.
  intros [G1 G2 G3 G4 G5 G6 G7 G8] Hi E. destruct chunk_facts as (_ & _ & _ & Hc).
  split; rewrite ?upd_eq; rewrite ?upd_ne by done; rewrite ?E by done; rewrite ?upd_ne by done; try done.
  - intros k Hk. rewrite upd_ne by done. destruct (decide (k = i)) as [->|Hne].
    + rewrite upd_eq. destruct (Z.ltb_spec i (i + 1)); [done|lia].
    + rewrite upd_ne, E, upd_ne, G3 by (congruence || done).
      destruct (Z.ltb_spec k i), (Z.ltb_spec k (i + 1)); done || lia.
  - rewrite G4. unfold wsub, wrap. rewrite Z.mod_small; lia.
Qed.

Lemma run_split_single i m k mn nc nfl :
  growing i m -> 0 <= i < c ->
  st (fun j => length (bound_for j (chunk_moves i)) + k j)%nat (view2 m) mn nc nfl ->
  let '(r, m') := run (split_single_chunk skip rec fuel i c (mkRef p old)) m in
  (forall l, ~ migration_cell l -> m' l = m l) /\
  tables_after (chunk_moves i) k mn nc (r = Some (inl true) /\ growing (i + 1) m') (exhausted r) m'.
Proof.
  intros G Hi Hs. unfold split_single_chunk. cbn [bind run load].
  rewrite (gr_status _ _ G), (gr_len _ _ G). destruct (Z.leb_spec c i); [lia|].
  rewrite run_cas_ok by (rewrite (gr_chunks _ _ G i Hi); by rewrite Z.ltb_irrefl).
  set (m1 := upd m _ _). cbn iota beta zeta.
  assert (O1 : forall l, l <> Status sv i -> m1 l = m l) by (intros l Hl; apply upd_ne; congruence).
  rewrite run_bind, (run_active m1); [|rewrite O1 by done; by apply (gr_active _ _ G)
    |rewrite O1 by done; by apply (gr_size _ _ G)].
  cbn [bind run load ptr table]. rewrite !O1, (gr_head _ _ G), (gr_begin _ _ G) by done.
  rewrite run_bind. fold locate. fold trace.
  set (pr := Split.split_chunk old new fuel fuel begin locate trace i c).
  assert (Hs1 : st (fun j => length (bound_for j (chunk_moves i)) + k j)%nat (view2 m1) mn nc nfl)
    by (eapply state_view; [|exact Hs]; intros l; apply O1; by destruct l).
  pose proof (does_chunk_fuel i Hi k (view2 m1) mn nc nfl Hs1) as Hdo. fold pr in Hdo.
  destruct (run_relocate (two_tables p q) pr two_tables_inj m1 (view2 m1) (fun l => eq_refl))
    as (E1 & E2 & E3).
  destruct (run (relocate (two_tables p q) pr) m1) as [r m2], (run pr (view2 m1)) as [r' v2].
  cbn [fst snd] in *. subst r'.
  destruct Hdo as (mn' & nc' & nfl' & k' & mv' & Hst' & Hmig & Hres).
  assert (Hst2 : forall m', (forall l, view2 m' l = view2 m2 l) -> st k' (view2 m') mn' nc' nfl').
  { intros m' Hm'. destruct Hst' as [S1 S2 S3 S4 S5]. split; [| |done..];
      intros l; rewrite Hm'; unfold view2; rewrite E2; auto. }
  assert (O2 : forall l, ~ migration_cell l -> m2 l = m l).
  { intros l Hl. rewrite E3, O1; [done| |]; [by intros ->|]. by intros [x|x] ->. }
  destruct Hres as [(-> & -> & ->)|(-> & Hpre & Hfl & Hcap)]; cbn [bind run store fetch_sub].
  - split.
    { intros l Hl. rewrite !upd_ne by (by intros <-). auto. }
    exists mn', nc', nfl', k, (chunk_moves i). split; [|split; [done|left; split_and!; try done]].
    { apply Hst2. intros l. unfold view2. by rewrite !upd_ne by (by destruct l). }
    assert (E3' : forall l, match l with TableCell _ _ => False | _ => True end -> m2 l = m1 l)
      by (intros l Hl; apply E3; by intros [x|x] ->).
    by apply (growing_next i m).
  - split.
    { intros l Hl. rewrite !upd_ne by (by intros <-). auto. }
    exists mn', nc', nfl', k', mv'. split; [|split; [done|right; by split_and!]].
    apply Hst2. intros l. unfold view2. by rewrite !upd_ne by (by destruct l).
Qed.


(** The entries of the chunks from [i] on. *)
Abbreviation rest_moves i n := (seqZ (cs * i) (cs * n) ≫= bmoves).

Lemma rest_moves_cons i n : 0 <= n -> rest_moves i (n + 1) = chunk_moves i ++ rest_moves (i + 1) n.
Proof.
  intros Hn. destruct chunk_facts as (_ & H & _).
  replace (cs * (n + 1)) with (cs + cs * n) by lia. rewrite seqZ_app, bind_app by nia.
  do 3 f_equal. lia.
Qed.

Lemma tables_after_nil k mn nc nfl (ok failed : Prop) m :
  st k (view2 m) mn nc nfl -> ok -> tables_after [] k mn nc ok failed m.
Proof. intros Hs Hok. exists mn, nc, nfl, k, []. split; [done|]. split; [apply migrated_nil|by left]. Qed.

Lemma run_split_each n : forall i m k mn nc nfl,
  growing i m -> 0 <= i -> i + Z.of_nat n = c ->
  st (fun j => length (bound_for j (rest_moves i (Z.of_nat n))) + k j)%nat (view2 m) mn nc nfl ->
  let '(r, m') := run (split_each skip rec fuel n i c (mkRef p old)) m in
  (forall l, ~ migration_cell l -> m' l = m l) /\
  tables_after (rest_moves i (Z.of_nat n)) k mn nc (r = Some (inl tt) /\ growing c m') (exhausted r) m'.
Proof.
  induction n as [|n IH]; intros i m k mn nc nfl G Hi Hn Hs.
  { cbn. split; [done|]. rewrite Z.mul_0_r in *. cbn in *. replace i with c in G by lia.
    by eapply tables_after_nil. }
  cbn [split_each]. rewrite run_bind. replace (Z.of_nat (S n)) with (Z.of_nat n + 1) in * by lia.
  rewrite rest_moves_cons in * by lia.
  eapply (state_ext _ _ _ _ (fun j => length (bound_for j (chunk_moves i)) +
    (length (bound_for j (rest_moves (i + 1) (Z.of_nat n))) + k j))%nat) in Hs;
    [|intros j; rewrite bound_for_app, length_app; lia].
  pose proof (run_split_single i m _ mn nc nfl G ltac:(lia) Hs) as H1.
  destruct (run (split_single_chunk _ _ _ _ _ _) m) as [r m1].
  destruct H1 as (F1 & mn1 & nc1 & nfl1 & k1 & mv1 & Hs1 & Hm1 & [((-> & G1) & -> & ->)|(-> & Hpre & E1 & E2)]).
  - specialize (IH (i + 1) m1 k mn1 nc1 nfl1 G1 ltac:(lia) ltac:(lia) Hs1).
    destruct (run (split_each _ _ _ _ _ _ _) m1) as [r m2].
    destruct IH as (F2 & mn2 & nc2 & nfl2 & k2 & mv2 & Hs2 & Hm2 & Hr).
    split; [intros l Hl; by rewrite F2, F1|].
    exists mn2, nc2, nfl2, k2, (chunk_moves i ++ mv2). split; [done|].
    split; [by eapply migrated_app|].
    destruct Hr as [(? & -> & ->)|(? & Hpre & ? & ?)]; [by left|right].
    split_and!; [done|by apply prefix_app|done..].
  - cbn. split; [done|]. exists mn1, nc1, nfl1, k1, mv1. split; [done|]. split; [done|]. right.
    split_and!; [done|by apply prefix_app_r|done..].
Qed.

Lemma run_await n r x m :
  (0 < n)%nat -> m PendingChunks = 0 ->
  run (await_chunks expired skip rec fuel n r c x) m = (Some (inl tt), m).
Proof. intros Hn Hm. destruct n as [|n]; [lia|]. cbn [await_chunks bind run load]. by rewrite Hm. Qed.

Lemma run_split_all m k mn nc nfl :
  growing 0 m ->
  st (fun j => length (bound_for j (seqZ 0 (size old) ≫= bmoves)) + k j)%nat (view2 m) mn nc nfl ->
  let '(r, m') := run (split_all_buckets expired skip rec fuel (mkRef p old) c) m in
  (forall l, ~ migration_cell l -> m' l = m l) /\
  tables_after (seqZ 0 (size old) ≫= bmoves) k mn nc
    (r = Some (inl tt) /\ growing c m') (exhausted r) m'.
Proof.
  intros G Hs. destruct chunk_facts as (Hc & _ & Hcs & _).
  pose proof (run_split_each (Z.to_nat c) 0 m k mn nc nfl G ltac:(lia) ltac:(lia)) as H.
  rewrite Z2Nat.id, Z.mul_0_r, (Z.mul_comm cs), Hcs in H by lia. specialize (H Hs).
  unfold split_all_buckets. rewrite run_bind.
  destruct (run (split_each _ _ _ _ _ _ _) m) as [r m1].
  destruct H as (F1 & mn1 & nc1 & nfl1 & k1 & mv1 & Hs1 & Hm1 & Hr).
  destruct Hr as [((-> & G1) & -> & ->)|(-> & Hpre & E1 & E2)].
  - rewrite run_await by (done || rewrite (gr_pending _ _ G1); lia). split; [done|].
    exists mn1, nc1, nfl1, k, (seqZ 0 (size old) ≫= bmoves). split; [done|]. split; [done|by left].
  - cbn. split; [done|]. exists mn1, nc1, nfl1, k1, mv1. split; [done|]. split; [done|by right].
Qed.

End Migration.

(** ** Growing *)

(** The store at rest: table [p] is active, no transaction is registered, the
    next pointers [q] and [q + 1] are fresh. *)
Record at_rest (e : LightEpoch.LightEpoch) (m : mem sloc) (p q : Z) (old : HashIndex)
    (oc : Z -> list Z) (ofl : list Z) (cur : Z) : Prop := {
  ar_phase : m Phase = phase_u8 Rest;
  ar_txns : m ActiveTxns = 0;
  ar_active : m ActiveIndex = p;
  ar_size : m (IndexSize p) = size old;
  ar_table : index_ok old (table_of m p) oc ofl;
  ar_next : m NextPtr = q;
  ar_order : 0 < p < q;
  ar_bound : q + 3 < 2 ^ 64;
  ar_fresh : forall l, m (TableCell q l) = 0;
  ar_status : forall i, m (Status (q + 1) i) = SPLIT_UNSTARTED;
  ar_epoch : Idle.idle e (epoch_of m) cur;
  ar_epochs : cur + 4 < 2 ^ 64
}.

(** The memory behind [publish]. *)
Lemma run_publish old_ref tb c m q :
  m NextPtr = q -> 0 <= q -> q + 3 < 2 ^ 64 ->
  let r := run (publish old_ref tb c) m in
  r.2 NextPtr = q + 2 /\ r.2 (IndexSize q) = size tb /\ r.2 (StatusLen (q + 1)) = c /\
  r.2 SplitStatus = q + 1 /\ r.2 PendingChunks = c /\ r.2 OldIndex = ptr old_ref /\
  r.2 ActiveIndex = q /\ r.2 Phase = phase_u8 InProgressGrow /\
  forall l, match l with
            | NextPtr | SplitStatus | PendingChunks | OldIndex | ActiveIndex | Phase
            | IndexSize _ | StatusLen _ => False
            | _ => True end -> r.2 l = m l.
Proof.
  intros Hq H0 H1 r. subst r. unfold publish, alloc, fetch_add. cbn [bind run store].
  rewrite Hq. rewrite !upd_ne by done. rewrite !upd_eq.
  replace (wadd 64 q 1) with (q + 1) by (unfold wadd, wrap; rewrite Z.mod_small; lia).
  replace (wadd 64 (q + 1) 1) with (q + 2) by (unfold wadd, wrap; rewrite Z.mod_small; lia).
  cbn [snd]. repeat split; repeat (rewrite ?upd_eq; rewrite ?upd_ne by done); try done.
  intros l Hl. rewrite !upd_ne by (by intros <-). done.
Qed.

Lemma run_drain_txns n m : (0 < n)%nat -> m ActiveTxns = 0 -> run (drain_txns n) m = (true, m).
Proof. intros Hn Hm. destruct n as [|n]; [lia|]. cbn [drain_txns bind run load]. by rewrite Hm. Qed.

Lemma run_active_table m p ix :
  m ActiveIndex = p -> m (IndexSize p) = size ix -> mask ix = size ix - 1 ->
  run active_index m = (mkRef p ix, m).
Proof.
  intros Ha Hs Hm. unfold active_index, load_table. cbn. rewrite Ha, Hs. destruct ix; cbn in *. by subst.
Qed.

Section Grow.
Context (vm : Z -> Z -> bool) (e : LightEpoch.LightEpoch) (alive : Z -> bool) (expired : nat -> bool).
Context (skip : Z -> option Z) (rec : Z -> option (Z * Z)) (fuel : nat) (t : Tls.ThreadLocal).

Abbreviation grow := (grow_index vm e alive expired skip rec fuel t).

(** Up to the publication: the barrier is closed, transactions and epoch drained. *)
Lemma run_grow_prefix m p q old oc ofl cur :
  at_rest e m p q old oc ofl cur -> (2 <= fuel)%nat ->
  exists m1, Idle.idle e (epoch_of m1) (cur + 2) /\ m1 Phase = phase_u8 PrepareGrow /\
    (forall l, ~ is_epoch l -> l <> Phase -> m1 l = m l) /\
    run grow m = run
      (match checked_mul (size old) 2 with
       | None => store Phase (phase_u8 Rest) ;; Ret (Some (inr (IndexError (InvalidBucketCount u64_max))))
       | Some new_size =>
           match new_index vm new_size with
           | inr err => store Phase (phase_u8 Rest) ;; Ret (Some (inr (IndexError err)))
           | inl tb =>
               publish (mkRef p old) tb (Split.chunk_count (size old)) ;;
               migrate e alive expired skip rec fuel t (mkRef p old) (Split.chunk_count (size old))
           end
       end) m1.
Proof.
  intros R Hf. set (m0 := upd m Phase (phase_u8 PrepareGrow)).
  assert (O0 : forall l, l <> Phase -> m0 l = m l) by (intros l Hl; apply upd_ne; congruence).
  destruct (run_drain_epoch e alive fuel t m0 cur) as (m1 & Hr & Hi & O1).
  { eapply idle_ext; [|apply (ar_epoch _ _ _ _ _ _ _ _ R)]. intros l. by apply O0. }
  { pose proof (ar_epochs _ _ _ _ _ _ _ _ R). lia. } { done. }
  exists m1. split; [done|]. split; [rewrite O1 by (intros []); apply upd_eq|].
  split; [intros l Hl Hp; by rewrite O1, O0|].
  unfold grow_index. rewrite run_cas_ok by apply (ar_phase _ _ _ _ _ _ _ _ R). fold m0. cbn [negb].
  rewrite run_bind, run_drain_txns
    by (lia || rewrite O0 by done; apply (ar_txns _ _ _ _ _ _ _ _ R)).
  cbn [negb]. rewrite run_bind, Hr. cbn [negb]. rewrite run_bind.
  rewrite (run_active_table _ p old); [done| | |].
  - rewrite O1, O0 by (done || intros []). apply (ar_active _ _ _ _ _ _ _ _ R).
  - rewrite O1, O0 by (done || intros []). apply (ar_size _ _ _ _ _ _ _ _ R).
  - apply (io_mask _ _ _ _ (ar_table _ _ _ _ _ _ _ _ R)).
Qed.

(** The state a finished growth leaves: at rest on table [q]. *)
Definition closed (q : Z) (m m' : mem sloc) : Prop :=
  m' Phase = phase_u8 Rest /\ m' OldIndex = 0 /\ m' ActiveIndex = m ActiveIndex /\
  m' ActiveTxns = m ActiveTxns /\ m' (IndexSize q) = m (IndexSize q) /\
  (forall p l, m' (TableCell p l) = m (TableCell p l)).

Lemma run_migrate m c x old_ref q :
  let '(r1, m1) := run (split_all_buckets expired skip rec fuel old_ref c) m in
  (forall l, ~ migration_cell l -> m1 l = m l) ->
  Idle.idle e (epoch_of m) x -> x + 2 < 2 ^ 64 -> (2 <= fuel)%nat ->
  let '(r, m') := run (migrate e alive expired skip rec fuel t old_ref c) m in
  match r1 with
  | Some (inl _) => r = Some (inl true) /\ closed q m1 m' /\ m' Torn = m Torn
  | Some (inr err) => r = Some (inr err) /\ closed q m1 m' /\ m' Torn = 1
  | None => r = None
  end.
Proof.
  unfold migrate. rewrite run_bind.
  destruct (run (split_all_buckets _ _ _ _ _ _) m) as [r1 m1]. intros F Hi Hx Hf.
  destruct r1 as [[[]|err]|]; [| |done].
  - rewrite run_store, run_bind. set (m2 := upd m1 _ _).
    destruct (run_drain_epoch e alive fuel t m2 x) as (m3 & Hr & _ & O3); [|done..|].
    { eapply idle_ext; [|exact Hi]. intros l. unfold epoch_of, m2. rewrite upd_ne by done. apply F. intros []. }
    rewrite Hr. unfold alloc, fetch_add. cbn [negb bind run store].
    split; [done|]. unfold closed.
    repeat split; intros; upd_simpl; rewrite ?O3 by (intros []); unfold m2; upd_simpl; try done.
    apply F. intros [].
  - unfold alloc, fetch_add. cbn [bind run store]. split; [done|]. unfold closed.
    by repeat split; intros; upd_simpl.
Qed.

End Grow.

(** ** Following the log *)

(** What the log promises of records in memory: their addresses are not null, and
    their chains are made of 48-bit addresses and descend. *)
Definition log_ok (rec : Z -> option (Z * Z)) : Prop :=
  forall a hash prev, rec a = Some (hash, prev) -> 0 < a /\ 0 <= prev <= Addr.ADDRESS_MASK.

Lemma locate_pos skip rec head a r :
  log_ok rec -> 0 <= a -> get_record_hash_and_prev skip rec head a = Some r -> 0 < a.
Proof.
  intros Hlog Ha. unfold get_record_hash_and_prev. destruct (Addr.is_read_cache a) eqn:Hrc.
  - intros _. destruct (Z.eq_dec a 0) as [->|]; [done|lia].
  - destruct (head <=? a); [|done]. destruct r. by intros (? & _)%Hlog.
Qed.

Lemma locate_prev skip rec head a hash prev :
  log_ok rec -> get_record_hash_and_prev skip rec head a = Some (hash, prev) ->
  0 <= prev <= Addr.ADDRESS_MASK.
Proof.
  intros Hlog. unfold get_record_hash_and_prev. destruct (_ <=? _); [|done]. by intros (_ & ?)%Hlog.
Qed.

Lemma trace_loop_range skip rec head bit n mk fuel : log_ok rec -> forall curr,
  0 <= curr <= Addr.ADDRESS_MASK ->
  match trace_back_loop fuel (get_record_hash_and_prev skip rec head) curr bit head n mk with
  | inl (Some a) => 0 < a <= Addr.ADDRESS_MASK
  | inl None => True
  | inr a => 0 <= a <= Addr.ADDRESS_MASK
  end.
Proof.
  intros Hlog. induction fuel as [|fuel IH]; intros curr Hc; cbn [trace_back_loop]; [done|].
  destruct (head <=? curr); [|done].
  destruct (get_record_hash_and_prev skip rec head curr) as [[hash prev]|] eqn:E; [|done].
  destruct (_ =? bit).
  - split; [|lia]. eapply locate_pos; [done| |done]. lia.
  - apply IH. by eapply locate_prev.
Qed.

Lemma trace_range skip rec head begin n mk addr hash prev b other :
  log_ok rec -> get_record_hash_and_prev skip rec head addr = Some (hash, prev) ->
  trace_back_for_other_chain_start (get_record_hash_and_prev skip rec head) prev b head begin n mk =
    Some other -> 0 < other <= Addr.ADDRESS_MASK.
Proof.
  intros Hlog Hl. pose proof (locate_prev _ _ _ _ _ _ Hlog Hl) as Hp.
  unfold trace_back_for_other_chain_start.
  pose proof (trace_loop_range skip rec head b n mk (S (Z.to_nat prev)) Hlog prev Hp) as H.
  destruct (trace_back_loop _ _ _ _ _ _ _) as [[a|]|a]; [by intros [= ->]|done|].
  destruct (Z.ltb_spec 0 a); [|done]. cbn [andb].
  destruct (_ && _); [|done]. intros [= <-]. lia.
Qed.

Section Trace.
Context (locate : Z -> option (Z * Z)) (target_bit head begin old_size new_mask : Z).

(** The record at [a] is in memory; [at_target]: and on the wanted side. *)
Definition side (hash : Z) : Z := Z.b2z (old_size <=? Z.land hash new_mask).
Definition skips (a b : Z) : Prop :=
  head <= a /\ exists hash, locate a = Some (hash, b) /\ side hash <> target_bit.
Definition at_target (a : Z) : Prop :=
  head <= a /\ exists hash b, locate a = Some (hash, b) /\ side hash = target_bit.

(** Tracing back follows the chain over the records of the other side and stops
    at the first that is on the wanted side, or at the first that is not in
    memory, which counts when it is in the part of the log on disk.  On a chain
    that descends the walk ends. *)
Lemma trace_back_correct curr :
  (forall a hash prev, 0 <= a -> head <= a -> locate a = Some (hash, prev) -> 0 <= prev < a) -> 0 <= curr ->
  exists a, rtc skips curr a /\
    ((at_target a /\
      trace_back_for_other_chain_start locate curr target_bit head begin old_size new_mask = Some a) \/
     ((a < head \/ locate a = None) /\
      trace_back_for_other_chain_start locate curr target_bit head begin old_size new_mask =
        if (0 <? a) && (begin <=? a) && (a <? head) then Some a else None)).
Proof.
  intros Hdesc Hc. unfold trace_back_for_other_chain_start.
  assert (Hf : (Z.to_nat curr < S (Z.to_nat curr))%nat) by lia. revert Hf.
  generalize (S (Z.to_nat curr)) as fuel. intros fuel. revert curr Hc.
  induction fuel as [|fuel IH]; intros curr Hc Hf; [lia|]. cbn [trace_back_loop].
  destruct (Z.leb_spec head curr) as [Hh|Hh]; [|exists curr; split; [done|right; split; [by left|done]]].
  destruct (locate curr) as [[hash prev]|] eqn:E;
    [|exists curr; split; [done|right; split; [by right|done]]].
  fold (side hash). destruct (Z.eqb_spec (side hash) target_bit) as [Hs|Hs].
  - exists curr. split; [done|]. left. split; [|done]. split; [done|]. eauto.
  - destruct (Hdesc curr hash prev Hc Hh E) as [Hp0 Hp1].
    destruct (IH prev Hp0 ltac:(lia)) as (a & Hr & H). exists a. split; [|done].
    eapply rtc_l; [|done]. split; [done|]. eauto.
Qed.

End Trace.

(** ** The theorem *)

Section Correct.
Context (vm : Z -> Z -> bool) (e : LightEpoch.LightEpoch) (alive : Z -> bool) (expired : nat -> bool).
Context (skip : Z -> option Z) (rec : Z -> option (Z * Z)) (fuel : nat) (t : Tls.ThreadLocal).

(** The entries the new table is to hold. *)
Definition grown_moves (m : mem sloc) (p : Z) (old : HashIndex) (oc : Z -> list Z) : list move :=
  let located := get_record_hash_and_prev skip rec (m HeadAddress) in
  seqZ 0 (size old) ≫= bucket_moves old (table_of m p) oc (m BeginAddress) located
    (fun prev bit => trace_back_for_other_chain_start located prev bit (m HeadAddress)
       (m BeginAddress) (size old) (2 * size old - 1)).

Lemma new_table_ok n k :
  0 <= k < 63 -> n = 2 ^ k -> 2 * n * BUCKET_BYTES < 2 ^ 64 -> vm (2 * n * BUCKET_BYTES) 64 = true ->
  new_index vm (2 * n) = inl (mkIndex (2 * n) (2 * n - 1)) /\
  index_ok (mkIndex (2 * n) (2 * n - 1)) (fun _ => 0) (fun _ => []) [].
Proof.
  intros Hk -> Hb Hvm. pose proof (Z.pow_pos_nonneg 2 k).
  pose proof (new_index_correct vm (2 * 2 ^ k)) as H'. unfold BUCKET_BYTES in *.
  specialize (H' ltac:(lia)).
  destruct (new_index vm (2 * 2 ^ k)) as [ix|err] eqn:E.
  - destruct H' as (_ & _ & Hs & Hok & _). pose proof (io_mask _ _ _ _ Hok) as Hm.
    destruct ix as [a b]; cbn in *; subst. done.
  - exfalso. assert (Hpow : 2 * 2 ^ k = 2 ^ (k + 1)) by (rewrite Z.pow_add_r; lia).
    destruct err; try (by destruct H'); [|congruence].
    destruct H' as [_ [Hn|Hn]]; [|lia]. apply (Hn (k + 1)); lia.
Qed.

Context (m : mem sloc) (p q : Z) (old : HashIndex) (oc : Z -> list Z) (ofl : list Z) (cur : Z).
Context (R : at_rest e m p q old oc ofl cur) (Hlog : log_ok rec) (Hf2 : (2 <= fuel)%nat).
Context (Hbytes : 2 * size old * BUCKET_BYTES < 2 ^ 64).
Context (Hchains : forall j, 0 <= j < size old ->
  (length (oc j) < fuel)%nat /\ Z.of_nat (length (oc j)) < MAX_CHAIN_STEPS).
Context (Hroom : forall j, 0 <= j < 2 * size old ->
  let n := length (bound_for j (grown_moves m p old oc)) in
  (n < fuel)%nat /\ Z.of_nat n < MAX_CHAIN_STEPS).

Abbreviation grow := (grow_index vm e alive expired skip rec fuel t).
Abbreviation new := (mkIndex (2 * size old) (2 * size old - 1)).
Abbreviation chunks := (Split.chunk_count (size old)).

(** The growth comes down to migrating on the published memory. *)
Lemma run_grow_published :
  vm (2 * size old * BUCKET_BYTES) 64 = true ->
  exists m2, Idle.idle e (epoch_of m2) (cur + 2) /\
    growing old new q (q + 1) (m HeadAddress) (m BeginAddress) 0 m2 /\
    (forall l, table_of m2 p l = table_of m p l) /\ (forall l, table_of m2 q l = 0) /\
    m2 ActiveTxns = 0 /\ m2 Torn = m Torn /\
    run grow m = run (migrate e alive expired skip rec fuel t (mkRef p old) chunks) m2.
Proof.
  intros Hvm. pose proof (ar_table _ _ _ _ _ _ _ _ R) as Hok.
  destruct (run_grow_prefix vm e alive expired skip rec fuel t _ _ _ _ _ _ _ R Hf2)
    as (m1 & Hi & Hph & O1 & ->).
  destruct (io_size _ _ _ _ Hok) as (k & Hk & Hpow). unfold BUCKET_BYTES in *.
  assert (Hk63 : k < 63).
  { destruct (Z.le_gt_cases 63 k) as [Hge|]; [|lia].
    pose proof (Z.pow_le_mono_r 2 63 k ltac:(lia) Hge). lia. }
  destruct (new_table_ok (size old) k ltac:(lia) Hpow Hbytes Hvm) as [Hnew _].
  assert (checked_mul (size old) 2 = Some (2 * size old)) as ->.
  { unfold checked_mul, u64_max. destruct (Z.leb_spec (size old * 2) (2 ^ 64 - 1)); [f_equal|]; lia. }
  rewrite Hnew, run_bind. cbn [size].
  assert (Hq : m1 NextPtr = q) by (rewrite O1 by (done || intros []); apply (ar_next _ _ _ _ _ _ _ _ R)).
  destruct (run_publish (mkRef p old) new chunks m1 q Hq) as (P1 & P2 & P3 & P4 & P5 & P6 & P7 & P8 & P9);
    [destruct (ar_order _ _ _ _ _ _ _ _ R); lia|apply (ar_bound _ _ _ _ _ _ _ _ R)|].
  destruct (run (publish (mkRef p old) new chunks) m1) as [u m2]. cbn [fst snd] in *.
  assert (O2 : forall l, match l with ActiveTxns | Torn | TableCell _ _ | Status _ _ | HeadAddress
    | BeginAddress => True | _ => False end -> m2 l = m l).
  { intros l Hl. rewrite P9 by (by destruct l). apply O1; [destruct l; done || intros []|by destruct l]. }
  exists m2. split; [eapply idle_ext; [|exact Hi]; intros l; unfold epoch_of; by rewrite P9|].
  split.
  - split; [done|done| |rewrite P5; lia|done|done|by rewrite O2|by rewrite O2].
    intros i Hc. rewrite O2, (ar_status _ _ _ _ _ _ _ _ R) by done. by destruct (Z.ltb_spec i 0); [lia|].
  - split_and!; intros; unfold table_of; rewrite ?O2 by done; try done.
    + by apply (ar_fresh _ _ _ _ _ _ _ _ R).
    + apply (ar_txns _ _ _ _ _ _ _ _ R).
Qed.

(** The published memory is a state of the migration. *)
Lemma published_state m2 :
  (forall l, table_of m2 p l = table_of m p l) -> (forall l, table_of m2 q l = 0) ->
  index_ok new (fun _ => 0) (fun _ => []) [] ->
  SplitSpec.state new fuel (table_of m p)
    (fun j => length (bound_for j (grown_moves m p old oc)) + 0)%nat (view2 p q m2)
    (fun _ => 0) (fun _ => []) [].
Proof.
  intros Hp Hq Hok. split; [exact Hp|exact Hq|done| |]; intros j Hj; cbn [length size] in *;
    destruct (Hroom j Hj); rewrite Nat.add_0_r; lia.
Qed.

Lemma grow_result :
  vm (2 * size old * BUCKET_BYTES) 64 = true ->
  let '(r, m') := run grow m in
  closed q (fun l => match l with ActiveIndex => q | ActiveTxns => 0 | IndexSize _ => size new
                     | l => m' l end) m' /\
  (forall l, table_of m' p l = table_of m p l) /\
  exists mn nc nfl mv, (forall l, table_of m' q l = mn l) /\ index_ok new mn nc nfl /\
    migrated new mv (fun _ => 0) (fun _ => []) mn nc /\
    ((r = Some (inl true) /\ m' Torn = m Torn /\ mv = grown_moves m p old oc) \/
     (exhausted r /\ m' Torn = 1 /\ mv `prefix_of` grown_moves m p old oc)).
Proof.
  intros Hvm. destruct (run_grow_published Hvm) as (m2 & Hi & G & Tp & Tq & Hn & Ht & ->).
  pose proof (ar_table _ _ _ _ _ _ _ _ R) as Hok. destruct (io_size _ _ _ _ Hok) as (k & Hk & Hpow).
  destruct (new_table_ok (size old) k) as [_ Hnew]; [|done..|].
  { unfold BUCKET_BYTES in *. destruct (Z.le_gt_cases 63 k) as [Hge|]; [|lia].
    pose proof (Z.pow_le_mono_r 2 63 k ltac:(lia) Hge). lia. }
  pose proof (run_split_all expired skip rec fuel old new p q (q + 1) (m HeadAddress) (m BeginAddress)
    (table_of m p) oc ofl Hok eq_refl ltac:(destruct (ar_order _ _ _ _ _ _ _ _ R); lia) eq_refl
    ltac:(lia) ltac:(intros; by eapply trace_range) (fun j Hj => proj1 (Hchains j Hj))
    (fun j Hj => proj2 (Hchains j Hj)) m2 (fun _ => 0%nat) (fun _ => 0) (fun _ => []) [] G
    (published_state m2 Tp Tq Hnew)) as Hall.
  pose proof (run_migrate e alive expired skip rec fuel t m2 chunks (cur + 2) (mkRef p old) q) as Hmig.
  destruct (run (split_all_buckets expired skip rec fuel (mkRef p old) chunks) m2) as [r1 m3].
  destruct Hall as (F & mn & nc & nfl & k' & mv & [S1 S2 S3 _ _] & Hmv & Hres).
  specialize (Hmig F Hi ltac:(pose proof (ar_epochs _ _ _ _ _ _ _ _ R); lia) Hf2).
  destruct (run (migrate _ _ _ _ _ _ _ _ _) m2) as [r m'].
  assert (Hcl : closed q m3 m' -> closed q (fun l => match l with ActiveIndex => q | ActiveTxns => 0
    | IndexSize _ => size new | l => m' l end) m' /\ (forall l, table_of m' p l = table_of m p l) /\
    (forall l, table_of m' q l = mn l)).
  { intros (C1 & C2 & C3 & C4 & C5 & C6). 
    split; [|split; intros l; unfold table_of; rewrite C6; [apply (S1 l)|apply (S2 l)]].
    rewrite F in C3, C4, C5 by (intros []). rewrite (gr_active _ _ _ _ _ _ _ _ G) in C3.
    rewrite (gr_size _ _ _ _ _ _ _ _ G) in C5. rewrite Hn in C4. done. }
  destruct Hres as [((-> & _) & -> & _)|(-> & Hpre & _)];
    destruct Hmig as (-> & Hc & Hto); destruct (Hcl Hc) as (D1 & D2 & D3);
    (split; [done|split; [done|]]); exists mn, nc, nfl; eexists; (split; [done|split; [done|split; [done|]]]).
  - left. by rewrite Hto.
  - right. by split_and!.
Qed.

(** The refusals: a taken phase, and no memory for the new table.  Both leave the
    active table and the barrier as they were. *)
Theorem grow_index_refused :
  (forall m0, m0 Phase <> phase_u8 Rest -> run grow m0 = (Some (inl false), m0)) /\
  (vm (2 * size old * BUCKET_BYTES) 64 = false ->
   let '(r, m') := run grow m in
   r = Some (inr (IndexError Mem)) /\ m' Phase = phase_u8 Rest /\
   forall l, ~ is_epoch l -> m' l = m l).
Proof.
  split.
  - intros m0 Hm0. unfold grow_index, compare_exchange. cbn [bind run].
    by destruct (Z.eqb_spec (m0 Phase) (phase_u8 Rest)).
  - intros Hvm. pose proof (ar_table _ _ _ _ _ _ _ _ R) as Hok.
    destruct (run_grow_prefix vm e alive expired skip rec fuel t _ _ _ _ _ _ _ R Hf2)
      as (m1 & Hi & Hph & O1 & ->).
    destruct (io_size _ _ _ _ Hok) as (k & Hk & Hpow). unfold BUCKET_BYTES in *.
    pose proof (Z.pow_pos_nonneg 2 k ltac:(lia) ltac:(lia)).
    assert (checked_mul (size old) 2 = Some (2 * size old)) as ->.
    { unfold checked_mul, u64_max. destruct (Z.leb_spec (size old * 2) (2 ^ 64 - 1)); [f_equal|]; lia. }
    assert (new_index vm (2 * size old) = inr Mem) as ->.
    { unfold new_index, buckets_new, checked_mul, u64_max, BUCKET_BYTES.
      destruct (Z.eqb_spec (2 * size old) 0); [lia|].
      assert (is_power_of_two (2 * size old) = true) as ->.
      { apply is_power_of_two_spec. exists (k + 1). rewrite Z.pow_add_r; lia. }
      cbn [negb orb]. destruct (Z.leb_spec (2 * size old * 64) (2 ^ 64 - 1)); [|lia]. by rewrite Hvm. }
    cbn [bind run store]. split; [done|]. split; [apply upd_eq|]. intros l Hl.
    destruct (decide (l = Phase)) as [->|Hne]; [rewrite upd_eq; symmetry; apply (ar_phase _ _ _ _ _ _ _ _ R)|].
    rewrite upd_ne by congruence. by apply O1.
Qed.

End Correct.

End GrowSpec.
