(* ===== verification/ResizeReach.v ===== *)
(** * Growth of the index and the log

    What a growth of the index means for the records: which records a table entry
    leads to is said by the log alone ([leads_to]: follow the previous addresses of
    the records in memory), and growing the table keeps it - every record and every
    part of the log on disk that an old entry led to is led to by an entry of the
    same tag in the bucket where the new table looks for it. *)

From stdpp Require Import base list numbers option tactics relations.
From Stdlib Require Import ZArith Lia Bool.
From S2P Require Import Prelude Base Atomic Bucket Index OverflowPool Table SplitSpec.
From S2P Require Import Epoch EpochLive Resize ResizeSpec ResizeGrow.
Local Open Scope prog_scope.

Module ReachSpec.
Import Index OverflowPool Table SplitSpec Resize Barrier GrowSpec.

(** ** Entries *)

Lemma tag_bound raw : 0 <= Entry.tag raw < 2 ^ 15.
Proof.
  unfold Entry.tag. assert (H : fits 15 (Z.shiftr (Z.land raw Entry.TAG_POS_MASK) Entry.TAG_SHIFT)).
  { change Entry.TAG_POS_MASK with (Z.shiftl (Z.ones 15) 48). change Entry.TAG_SHIFT with 48.
    replace (Z.shiftr (Z.land raw (Z.shiftl (Z.ones 15) 48)) 48) with (Z.land (Z.shiftr raw 48) (Z.ones 15)) by bitblast.
    apply fits_land_r; [lia|]. by apply fits_ones. }
  rewrite wrap_id; [exact H|]. unfold fits in *. lia.
Qed.

Lemma entry_of_address address tag : 0 <= address <= Addr.ADDRESS_MASK -> Entry.address (entry_of address tag) = address.
Proof.
  intros Ha. unfold entry_of, Entry.address, Entry.new. change Addr.ADDRESS_MASK with (Z.ones 48) in *. change Entry.TAG_SHIFT with 48.
  assert (fits 48 address) by (unfold fits; change (Z.ones 48) with (2 ^ 48 - 1) in Ha; lia). bitblast.
Qed.

Lemma entry_of_tag address tag : 0 <= tag < 2 ^ 15 -> Entry.tag (entry_of address tag) = tag.
Proof.
  intros Ht. unfold entry_of, Entry.tag, Entry.new. change Addr.ADDRESS_MASK with (Z.ones 48). change Entry.TAG_SHIFT with 48.
  change Entry.TAG_POS_MASK with (Z.shiftl (Z.ones 15) 48). change Entry.TAG_MASK with (Z.ones 15).
  assert (fits 15 tag) by (unfold fits; lia).
  assert (E : Z.shiftr (Z.land (Z.lor (Z.lor (Z.land address (Z.ones 48)) (Z.shiftl (Z.land tag (Z.ones 15)) 48)) 0) (Z.shiftl (Z.ones 15) 48)) 48 = tag) by bitblast.
  rewrite E. apply wrap_id. unfold fits in *. lia.
Qed.

(** ** The log *)

(** What the log promises: the addresses of a chain of records descend, a
    read-cache address stands for one of the main log, and the main log is below
    the read-cache addresses. *)
Record log_shape (skip : Z -> option Z) (rec : Z -> option (Z * Z)) (head : Z) : Prop := {
  ls_prev : forall a hash prev, rec a = Some (hash, prev) -> 0 <= prev < a /\ a <= Addr.ADDRESS_MASK;
  ls_main : forall a b, skip a = Some b -> b < Addr.READ_CACHE_BIT;
  ls_head : head <= Addr.READ_CACHE_BIT
}.

Lemma log_shape_ok skip rec head : log_shape skip rec head -> log_ok rec.
Proof. intros [Hp _ _] a hash prev H. apply Hp in H. lia. Qed.

Section Log.
Context (skip : Z -> option Z) (rec : Z -> option (Z * Z)) (head begin : Z).
Context (Hshape : log_shape skip rec head).

Abbreviation located := (get_record_hash_and_prev skip rec head).

(** From a record in memory to the one before it. *)
Definition link (a b : Z) : Prop := exists hash, located a = Some (hash, b).

(** The addresses an entry leads to. *)
Definition leads_to (raw a : Z) : Prop := rtc link (Entry.address raw) a.

Lemma located_bounds a hash prev : 0 <= a -> located a = Some (hash, prev) -> head <= a /\ 0 <= prev < a.
Proof.
  intros Ha. destruct Hshape as [Hp Hm Hh]. unfold get_record_hash_and_prev. destruct (Addr.is_read_cache a) eqn:E.
  - assert (Hrc : Addr.READ_CACHE_BIT <= a).
    { rewrite Addr.is_read_cache_testbit in E. rewrite Addr.READ_CACHE_BIT_pow. destruct (Z.le_gt_cases (2 ^ 47) a); [done|].
      rewrite (Z.bits_above_log2 a 47) in E; [done|lia|]. destruct (Z.eq_dec a 0) as [->|]; [done|]. apply Z.log2_lt_pow2; lia. }
    destruct (Z.leb_spec head (default 0 (skip a))); [|done]. intros Hr%Hp.
    destruct (skip a) as [b|] eqn:Es; cbn [default] in *; unfold id in *; [apply Hm in Es|]; lia.
  - destruct (Z.leb_spec head a); [|done]. intros Hr%Hp. lia.
Qed.

Lemma link_fun a b c : link a b -> link a c -> b = c.
Proof. intros [h1 E1] [h2 E2]. congruence. Qed.

Lemma link_nonneg a b : 0 <= a -> rtc link a b -> 0 <= b.
Proof. intros Ha H. induction H as [|x y z [h E] _ IH]; [done|]. apply IH. by apply located_bounds in E as [_ ?]; [lia|]. Qed.

Lemma null_end a : rtc link 0 a -> a = 0.
Proof. intros H. inversion H as [|? y ? [h E] _]; subst; [done|]. apply located_bounds in E; lia. Qed.

(** *** Tracing back *)

Context (k : Z) (Hk : 0 <= k).

Abbreviation n := (2 ^ k).
Abbreviation trace := (fun prev bit => trace_back_for_other_chain_start located prev bit head begin n (2 * n - 1)).

Lemma side_bit hash : side n (2 * n - 1) hash = Z.b2z (Z.testbit hash k).
Proof.
  pose proof (Z.pow_pos_nonneg 2 k ltac:(lia) Hk) as Hp. unfold side.
  replace (2 * n - 1) with (Z.ones (k + 1)) by (rewrite Z.ones_equiv, Z.pow_add_r by lia; lia).
  rewrite Z.land_ones by lia. replace (2 ^ (k + 1)) with (2 * n) by (rewrite Z.pow_add_r by lia; lia).
  rewrite double_mod by done. pose proof (Z.mod_pos_bound hash n Hp). f_equal.
  destruct (Z.testbit hash k); match goal with |- (?x <=? ?y) = _ => destruct (Z.leb_spec x y) end; (done || lia).
Qed.

Lemma descends a hash prev : 0 <= a -> head <= a -> located a = Some (hash, prev) -> 0 <= prev < a.
Proof. intros Ha _ E. by destruct (located_bounds _ _ _ Ha E). Qed.

(** Tracing back, with the addresses it passes. *)
Lemma traced bit curr : 0 <= curr -> exists a,
  rtc (skips located bit head n (2 * n - 1)) curr a /\
  ((exists hash b, located a = Some (hash, b) /\ Z.b2z (Z.testbit hash k) = bit /\ trace curr bit = Some a) \/
   (located a = None /\ trace curr bit = if (0 <? a) && (begin <=? a) && (a <? head) then Some a else None)).
Proof.
  intros Hc. destruct (trace_back_correct located bit head begin n (2 * n - 1) curr descends Hc)
    as (a & Hr & [[(Hh & hash & b & E & Hs) Et]|[Hstop Et]]); exists a; (split; [done|]).
  - left. exists hash, b. by rewrite <- side_bit.
  - right. split; [|done]. destruct Hstop as [Hlow|]; [|done]. destruct (located a) as [[hash b]|] eqn:E; [|done].
    assert (Ha : 0 <= a).
    { clear -Hr Hc Hshape. induction Hr as [|x y z (_ & h & E & _) _ IH]; [done|]. apply IH. by apply located_bounds in E as [_ ?]; [lia|]. }
    apply located_bounds in E; lia.
Qed.

Lemma skips_link bit a b : rtc (skips located bit head n (2 * n - 1)) a b -> rtc link a b.
Proof. induction 1 as [|x y z (_ & h & E & _) _ IH]; [done|]. eapply rtc_l; [by exists h|done]. Qed.

(** What is on the way and not passed over comes behind the place where the walk ends. *)
Lemma not_passed bit curr a0 a : rtc (skips located bit head n (2 * n - 1)) curr a0 -> rtc link curr a ->
  (forall hash b, located a = Some (hash, b) -> Z.b2z (Z.testbit hash k) = bit) -> rtc link a0 a.
Proof.
  intros Hs. induction Hs as [|x y z (_ & h & E & Hne) _ IH]; [done|]. intros Hl Hside.
  inversion Hl as [|? y' ? [h' E'] Hl']; subst; [|assert (y' = y) as -> by congruence; by apply IH].
  destruct Hne. rewrite side_bit. by eapply Hside.
Qed.

(** The other side's part of the log is found again. *)
Lemma trace_leads bit curr a : 0 <= curr -> rtc link curr a ->
  ((exists hash b, located a = Some (hash, b) /\ Z.b2z (Z.testbit hash k) = bit) \/
   (located a = None /\ 0 < a /\ begin <= a < head)) ->
  exists a0, trace curr bit = Some a0 /\ rtc link a0 a.
Proof.
  intros Hc Hl Ha. destruct (traced bit curr Hc) as (a0 & Hs & Ht).
  assert (Hl0 : rtc link a0 a).
  { eapply not_passed; [done..|]. intros hash b E. destruct Ha as [(h & b' & E' & Hb)|[E' _]]; congruence. }
  destruct Ht as [(h & b & _ & _ & Et)|[E0 Et]]; [by exists a0|].
  inversion Hl0 as [|? y ? [h E] _]; subst; [|congruence].
  destruct Ha as [(h & b & E & _)|(_ & H0 & Hb)]; [congruence|].
  exists a. split; [|done]. rewrite Et.
  destruct (Z.ltb_spec 0 a), (Z.leb_spec begin a), (Z.ltb_spec a head); (done || lia).
Qed.

Lemma trace_sound bit curr a : 0 <= curr -> trace curr bit = Some a -> rtc link curr a.
Proof.
  intros Hc E. destruct (traced bit curr Hc) as (a0 & Hs & [(h & b & _ & _ & Et)|[_ Et]]); cbv beta in E, Et; rewrite Et in E.
  - injection E as <-. by eapply skips_link.
  - destruct (_ && _); [|done]. injection E as <-. by eapply skips_link.
Qed.

(** *** The entries of a split *)

Context (left right : Z).

Abbreviation moved := (moves begin located trace left right k).

Lemma live_address raw : live_entry begin raw = true -> 0 < Entry.address raw <= Addr.ADDRESS_MASK.
Proof.
  unfold live_entry. intros H. repeat apply andb_true_iff in H as [H ?]. apply address_bounds.
  intros E. rewrite E in *. done.
Qed.

(** A moved entry is of the tag of the old one, which leads to it. *)
Lemma moved_sound raw j e : (j, e) ∈ moved raw ->
  live_entry begin raw = true /\ (j = left \/ j = right) /\ Entry.tag e = Entry.tag raw /\ leads_to raw (Entry.address e).
Proof.
  unfold moves. destruct (live_entry begin raw) eqn:Hl; [|by intros ?%elem_of_nil].
  pose proof (live_address raw Hl) as Ha. pose proof (tag_bound raw) as Ht.
  assert (Hself : forall i, (j, e) = (i, entry_of (Entry.address raw) (Entry.tag raw)) -> i = left \/ i = right ->
    (j = left \/ j = right) /\ Entry.tag e = Entry.tag raw /\ leads_to raw (Entry.address e)).
  { intros i [= -> ->] Hi. rewrite entry_of_tag, entry_of_address by lia. split; [done|]. split; [done|apply rtc_refl]. }
  intros H. split; [done|]. cbn zeta in H.
  destruct (located (Entry.address raw)) as [[hash prev]|] eqn:El.
  2:{ apply elem_of_cons in H as [H|H%list_elem_of_singleton]; eapply Hself; eauto. }
  apply elem_of_cons in H as [H|H]; [eapply Hself; [done|]; destruct (Z.testbit hash k); auto|].
  destruct (Z.eqb_spec prev 0) as [|Hnz]; [by apply elem_of_nil in H|].
  destruct (located_bounds (Entry.address raw) hash prev ltac:(lia) El) as [_ Hp].
  cbv beta in H. destruct (trace_back_for_other_chain_start _ _ _ _ _ _ _) as [other|] eqn:Et; [|by apply elem_of_nil in H]. apply list_elem_of_singleton in H as [= -> ->].
  apply trace_sound in Et as Hr; [|lia].
  assert (0 <= other <= Addr.ADDRESS_MASK).
  { destruct (trace_range skip rec head begin n (2 * n - 1) _ _ _ _ _ (log_shape_ok _ _ _ Hshape) El Et). lia. }
  rewrite entry_of_tag, entry_of_address by done. split; [destruct (Z.testbit hash k); auto|]. split; [done|].
  eapply rtc_l; [by exists hash|done].
Qed.

(** What an old entry led to is led to by a moved one on the side it belongs to. *)
Lemma moved_complete raw a bit : live_entry begin raw = true -> leads_to raw a ->
  ((exists hash b, located a = Some (hash, b) /\ Z.testbit hash k = bit) \/
   (located a = None /\ (a = Entry.address raw \/ 0 < a /\ begin <= a < head))) ->
  exists e, (if bit then right else left, e) ∈ moved raw /\ Entry.tag e = Entry.tag raw /\ leads_to e a.
Proof.
  intros Hl Hr Ha. pose proof (live_address raw Hl) as Haddr. pose proof (tag_bound raw) as Ht.
  assert (Hself : Entry.tag (entry_of (Entry.address raw) (Entry.tag raw)) = Entry.tag raw /\
    leads_to (entry_of (Entry.address raw) (Entry.tag raw)) a).
  { unfold leads_to. by rewrite entry_of_tag, entry_of_address by lia. }
  unfold moves. rewrite Hl. cbn zeta. destruct (located (Entry.address raw)) as [[hash prev]|] eqn:El.
  2:{ eexists. split; [|exact Hself]. rewrite elem_of_cons, list_elem_of_singleton. destruct bit; auto. }
  destruct (Bool.bool_dec (Z.testbit hash k) bit) as [<-|Hne].
  { eexists. split; [|exact Hself]. apply elem_of_cons. by left. }
  destruct (located_bounds (Entry.address raw) hash prev ltac:(lia) El) as [_ Hp].
  inversion Hr as [|? y ? [h E] Hr']; subst.
  { exfalso. destruct Ha as [(h & b & E & Hb)|[E _]]; congruence. }
  assert (y = prev) as -> by congruence.
  destruct (Z.eqb_spec prev 0) as [->|Hnz].
  { exfalso. apply null_end in Hr' as ->. destruct Ha as [(h' & b & E' & _)|[_ [E'|?]]]; [|lia|lia].
    apply located_bounds in E'; lia. }
  destruct (trace_leads (if Z.testbit hash k then 0 else 1) prev a) as (a0 & Et & Hr0); [lia|done| |].
  { destruct Ha as [(h' & b & E' & Hb)|[E' [E''|?]]]; [left|exfalso|by right].
    - exists h', b. split; [done|]. rewrite Hb. destruct (Z.testbit hash k), bit; done.
    - subst a. congruence. }
  assert (0 <= a0 <= Addr.ADDRESS_MASK).
  { destruct (trace_range skip rec head begin n (2 * n - 1) _ _ _ _ _ (log_shape_ok _ _ _ Hshape) El Et). lia. }
  exists (entry_of a0 (Entry.tag raw)). unfold leads_to. rewrite Et, entry_of_tag, entry_of_address by done. split; [|done].
  apply elem_of_cons. right. apply list_elem_of_singleton. f_equal. destruct (Z.testbit hash k), bit; done.
Qed.

(** At most one entry per side, of the tag of the old one. *)
Lemma moved_tags raw j : left <> right ->
  map Entry.tag (bound_for j (moved raw)) `sublist_of` map Entry.tag (filter (fun w => live_entry begin w = true) [raw]).
Proof.
  intros Hne. assert (Hall : Forall (fun e => Entry.tag e = Entry.tag raw) (bound_for j (moved raw))).
  { apply Forall_forall. intros e (x & -> & [Hx Hin]%list_elem_of_filter)%list_elem_of_fmap. destruct x as [i e].
    by apply moved_sound in Hin as (_ & _ & Ht & _). }
  assert (Hlen : (length (bound_for j (moved raw)) <= if live_entry begin raw then 1 else 0)%nat).
  { unfold moves. destruct (live_entry begin raw); [|done]. cbn zeta.
    assert (Htwo : forall x y, left <> right -> (length (bound_for j [(left, x); (right, y)]) <= 1)%nat /\
      (length (bound_for j [(right, x); (left, y)]) <= 1)%nat).
    { intros x y _. unfold bound_for. rewrite !filter_cons. cbn [fst]. rewrite filter_nil.
      repeat case_decide; cbn [map length]; (lia || congruence). }
    assert (Hone : forall i x, (length (bound_for j [(i, x)]) <= 1)%nat).
    { intros i x. rewrite bound_one. case_decide; cbn [length]; lia. }
    destruct (located _) as [[hash prev]|]; [|by apply Htwo].
    destruct (prev =? 0); [apply Hone|]. cbv beta. destruct (trace_back_for_other_chain_start _ _ _ _ _ _ _); [|apply Hone].
    destruct (Z.testbit hash k); by apply Htwo. }
  rewrite filter_cons, filter_nil. destruct (bound_for j (moved raw)) as [|e [|e' l]]; [apply sublist_nil_l| |].
  - destruct (live_entry begin raw); cbn [length] in Hlen; [|lia]. cbn [map].
    apply Forall_inv in Hall. by rewrite Hall.
  - destruct (live_entry begin raw); cbn [length] in Hlen; lia.
Qed.

Lemma bucket_tags ws j : left <> right ->
  map Entry.tag (bound_for j (ws ≫= moved)) `sublist_of` map Entry.tag (filter (fun w => live_entry begin w = true) ws).
Proof.
  intros Hne. induction ws as [|raw ws IH]; [done|]. cbn [mbind list_bind].
  change (raw :: ws) with ([raw] ++ ws). rewrite list.filter_app, bound_for_app, !map_app.
  apply sublist_app; [by apply moved_tags|exact IH].
Qed.

End Log.

(** ** The entries of the new table *)

Lemma bound_for_bind {A} j (f : A -> list move) l : bound_for j (l ≫= f) = l ≫= (fun x => bound_for j (f x)).
Proof. induction l as [|x l IH]; [done|]. cbn [mbind list_bind]. rewrite bound_for_app. f_equal. exact IH. Qed.

Lemma bind_none {A B} (f : A -> list B) l : (forall x, x ∈ l -> f x = []) -> l ≫= f = [].
Proof.
  induction l as [|x l IH]; intros H; [done|]. cbn [mbind list_bind]. rewrite H by left. apply IH.
  intros y Hy. apply H. by right.
Qed.

Section Grown.
Context (skip : Z -> option Z) (rec : Z -> option (Z * Z)) (m : mem sloc) (p : Z) (old : HashIndex) (oc : Z -> list Z).
Context (Hshape : log_shape skip rec (m HeadAddress)).
Context (k : Z) (Hk : 0 <= k) (Hsize : size old = 2 ^ k).

Abbreviation located := (get_record_hash_and_prev skip rec (m HeadAddress)).
Abbreviation reaches := (leads_to skip rec (m HeadAddress)).
Abbreviation bmoves := (bucket_moves old (table_of m p) oc (m BeginAddress) located
  (fun prev bit => trace_back_for_other_chain_start located prev bit (m HeadAddress)
     (m BeginAddress) (size old) (2 * size old - 1))).

(** The entries of old bucket [b] that are not behind the log. *)
Definition live_entries (b : Z) : list Z :=
  filter (fun w => live_entry (m BeginAddress) w = true) (words_at (table_of m p) oc b).

Lemma live_entries_elem b raw : raw ∈ live_entries b <-> live_entry (m BeginAddress) raw = true /\ raw ∈ words_at (table_of m p) oc b.
Proof. unfold live_entries. by rewrite list_elem_of_filter. Qed.

Lemma bmoves_sound b j e : (j, e) ∈ bmoves b -> exists raw, raw ∈ live_entries b /\ (j = b \/ j = b + size old) /\
  Entry.tag e = Entry.tag raw /\ reaches raw (Entry.address e).
Proof.
  unfold bucket_moves. rewrite Hsize, Z.log2_pow2 by done. intros (raw & Hm & Hin)%list_elem_of_bind.
  apply moved_sound in Hm as (Hl & Hj & Ht & Hr); [|done..]. exists raw. by rewrite live_entries_elem.
Qed.

(** Only one old bucket moves entries to a new one. *)
Lemma bound_for_grown j : 0 <= j < 2 * size old ->
  bound_for j (grown_moves skip rec m p old oc) = bound_for j (bmoves (j mod size old)).
Proof.
  pose proof (Z.pow_pos_nonneg 2 k ltac:(lia) Hk) as Hp. intros Hj. unfold grown_moves. rewrite bound_for_bind.
  pose proof (Z.mod_pos_bound j (size old) ltac:(lia)) as Hb. set (b := j mod size old) in *.
  assert (Hother : forall i, 0 <= i < size old -> i <> b -> bound_for j (bmoves i) = []).
  { intros i Hi Hne. unfold bound_for. destruct (filter _ _) as [|[j' e] l] eqn:E; [done|]. exfalso.
    assert (Hin : (j', e) ∈ filter (fun x => x.1 = j) (bmoves i)) by (rewrite E; left).
    apply list_elem_of_filter in Hin as [Hj' Hin]. cbn in Hj'. subst j'.
    apply bmoves_sound in Hin as (_ & _ & [->| ->] & _); apply Hne; unfold b.
    - by rewrite Z.mod_small.
    - rewrite <- (Z.mul_1_l (size old)) at 1. by rewrite Z_mod_plus_full, Z.mod_small. }
  replace (size old) with (b + (1 + (size old - b - 1))) at 1 by lia.
  rewrite !seqZ_app by lia. rewrite !bind_app. rewrite (bind_none _ (seqZ 0 b)) by (intros i Hi%elem_of_seqZ; apply Hother; lia).
  rewrite (bind_none _ (seqZ (0 + b + 1) _)) by (intros i Hi%elem_of_seqZ; apply Hother; lia).
  rewrite app_nil_r. cbn [app]. rewrite seqZ_cons by lia. cbn. by rewrite app_nil_r.
Qed.

Lemma grown_tags j : 0 <= j < 2 * size old ->
  map Entry.tag (bound_for j (grown_moves skip rec m p old oc)) `sublist_of` map Entry.tag (live_entries (j mod size old)).
Proof.
  intros Hj. rewrite bound_for_grown by done. unfold bucket_moves. rewrite Hsize, Z.log2_pow2 by done.
  apply bucket_tags; [done..|]. pose proof (Z.pow_pos_nonneg 2 k ltac:(lia) Hk). lia.
Qed.

(** An entry of the new table comes from the old bucket of its hashes. *)
Lemma grown_sound j e : 0 <= j < 2 * size old -> e ∈ bound_for j (grown_moves skip rec m p old oc) ->
  exists raw, raw ∈ live_entries (j mod size old) /\ Entry.tag e = Entry.tag raw /\ reaches raw (Entry.address e).
Proof.
  intros Hj. rewrite bound_for_grown by done. intros ([i x] & -> & [_ Hin]%list_elem_of_filter)%list_elem_of_fmap.
  apply bmoves_sound in Hin as (raw & Hin & _ & H). by exists raw.
Qed.

Lemma grown_complete b raw a bit : 0 <= b < size old -> raw ∈ live_entries b -> reaches raw a ->
  ((exists hash c, located a = Some (hash, c) /\ Z.testbit hash k = bit) \/
   (located a = None /\ (a = Entry.address raw \/ 0 < a /\ m BeginAddress <= a < m HeadAddress))) ->
  exists e, (b + (if bit then size old else 0), e) ∈ grown_moves skip rec m p old oc /\ Entry.tag e = Entry.tag raw /\ reaches e a.
Proof.
  intros Hb [Hl Hin]%live_entries_elem Hr Ha.
  destruct (moved_complete skip rec (m HeadAddress) (m BeginAddress) Hshape k Hk b (b + size old) raw a bit Hl Hr Ha)
    as (e & He & H). exists e. split; [|exact H].
  apply list_elem_of_bind. exists b. split; [|by apply elem_of_seqZ; lia].
  apply list_elem_of_bind. exists raw. split; [|done]. rewrite Hsize, Z.log2_pow2 by done. rewrite Hsize in He.
  destruct bit; by rewrite ?Z.add_0_r.
Qed.

(** The new table leads nowhere the old one did not, under the same tags. *)
Record follows (mn : mem iloc) (nc : Z -> list Z) : Prop := {
  fo_entries : forall j e, 0 <= j < 2 * size old -> e ∈ occupied mn nc j ->
    exists raw, raw ∈ live_entries (j mod size old) /\ Entry.tag e = Entry.tag raw /\ reaches raw (Entry.address e);
  fo_tags : forall j, 0 <= j < 2 * size old ->
    NoDup (map Entry.tag (live_entries (j mod size old))) -> NoDup (map Entry.tag (occupied mn nc j))
}.

(** And it leads everywhere the old one did: to a record in memory from the bucket
    of its hash, and to what is not in memory - an entry's own address, or an
    address on disk - from both buckets that may hold its hash. *)
Record covers (mn : mem iloc) (nc : Z -> list Z) : Prop := {
  co_memory : forall b raw a hash prev, 0 <= b < size old -> raw ∈ live_entries b -> reaches raw a ->
    located a = Some (hash, prev) -> hash mod size old = b ->
    exists e, e ∈ occupied mn nc (hash mod (2 * size old)) /\ Entry.tag e = Entry.tag raw /\ reaches e a;
  co_disk : forall j raw a, 0 <= j < 2 * size old -> raw ∈ live_entries (j mod size old) -> reaches raw a ->
    located a = None -> (a = Entry.address raw \/ 0 < a /\ m BeginAddress <= a < m HeadAddress) ->
    exists e, e ∈ occupied mn nc j /\ Entry.tag e = Entry.tag raw /\ reaches e a
}.

Abbreviation new := (mkIndex (2 * size old) (2 * size old - 1)).

Lemma migrated_fresh mv mn nc j : migrated new mv (fun _ => 0) (fun _ => []) mn nc -> 0 <= j < 2 * size old ->
  occupied mn nc j ≡ₚ bound_for j mv.
Proof.
  intros H Hj. rewrite (H j Hj). replace (occupied (fun _ => 0) (fun _ => []) j) with (@nil Z); [by rewrite app_nil_r|].
  reflexivity.
Qed.

Lemma grown_follows mv mn nc : mv `prefix_of` grown_moves skip rec m p old oc ->
  migrated new mv (fun _ => 0) (fun _ => []) mn nc -> follows mn nc.
Proof.
  intros [mv' E] Hm. split.
  - intros j e Hj. rewrite (migrated_fresh _ _ _ _ Hm Hj). intros He. apply grown_sound; [done|].
    rewrite E, bound_for_app. apply elem_of_app. by left.
  - intros j Hj Hnd. rewrite (migrated_fresh _ _ _ _ Hm Hj). eapply sublist_NoDup; [exact Hnd|].
    etrans; [|by apply grown_tags]. rewrite E, bound_for_app, map_app. by apply sublist_inserts_r.
Qed.

Lemma grown_covers mn nc : migrated new (grown_moves skip rec m p old oc) (fun _ => 0) (fun _ => []) mn nc -> covers mn nc.
Proof.
  pose proof (Z.pow_pos_nonneg 2 k ltac:(lia) Hk) as Hp. intros Hm. split.
  - intros b raw a hash prev Hb Hin Hr El Hh.
    destruct (grown_complete b raw a (Z.testbit hash k) Hb Hin Hr) as (e & He & H); [left; by exists hash, prev|].
    exists e. split; [|exact H]. pose proof (Z.mod_pos_bound hash (2 * size old) ltac:(lia)).
    eapply migrated_elem; [exact Hm|done|]. rewrite Hsize, double_mod by done. rewrite <- Hsize, Hh.
    by destruct (Z.testbit hash k).
  - intros j raw a Hj Hin Hr El Ha. pose proof (Z.mod_pos_bound j (size old) ltac:(lia)) as Hb.
    destruct (grown_complete (j mod size old) raw a (Z.testbit j k) Hb Hin Hr) as (e & He & H); [by right|].
    exists e. split; [|exact H]. eapply migrated_elem; [exact Hm|done|].
    assert (E : j mod (2 * size old) = j) by (by apply Z.mod_small). rewrite Hsize, double_mod, <- Hsize in E by done.
    rewrite <- E at 1. by destruct (Z.testbit j k).
Qed.

End Grown.

(** ** The theorem *)

Section Correct.
Context (vm : Z -> Z -> bool) (e : LightEpoch.LightEpoch) (alive : Z -> bool) (expired : nat -> bool).
Context (skip : Z -> option Z) (rec : Z -> option (Z * Z)) (fuel : nat) (t : Tls.ThreadLocal).

Abbreviation new old := (mkIndex (2 * size old) (2 * size old - 1)).

(** C3: Growing the index of an idle store - run alone, by one thread, with no
    transaction registered and no growth or checkpoint begun, when there is memory for
    the new table and every old bucket has fewer overflow buckets and live entries
    than a walk along a chain may take steps - publishes a table of twice the size
    and leaves the state of a growth behind: the phase is back at
    rest, the old table is given up and was not written to, no transaction is
    registered.  The new table is well formed, and which records it leads to is what
    the log says, not what the splitting computes: an entry of bucket [j] has the tag
    of a live entry of the old bucket [j mod size] which leads to its address, and
    distinct tags stay distinct ([follows]).  When it succeeds, the new table also
    leads to all the old one led to ([covers]): a record in memory is reached under
    the same tag in the bucket of its hash, and an entry's own address that is not in
    memory, or an address on disk at the end of a chain, is reached in both buckets
    that may hold its hash.  Otherwise the overflow buckets are exhausted and the
    index is marked as torn.  Not promised are addresses behind the beginning of the
    log, and addresses inside a chain that are at or above the head and yet not
    readable. *)
Theorem grow_index_correct m p q old oc ofl cur :
  at_rest e m p q old oc ofl cur -> log_shape skip rec (m HeadAddress) -> (2 <= fuel)%nat ->
  2 * size old * BUCKET_BYTES < 2 ^ 64 ->
  (forall b, 0 <= b < size old -> (length (oc b) < fuel)%nat /\ Z.of_nat (length (oc b)) < MAX_CHAIN_STEPS) ->
  (forall b, 0 <= b < size old -> (length (live_entries m p oc b) < fuel)%nat /\
     Z.of_nat (length (live_entries m p oc b)) < MAX_CHAIN_STEPS) ->
  vm (2 * size old * BUCKET_BYTES) 64 = true ->
  let '(r, m') := run (grow_index vm e alive expired skip rec fuel t) m in
  m' Phase = phase_u8 Rest /\ m' OldIndex = 0 /\ m' ActiveTxns = 0 /\
  m' ActiveIndex = q /\ m' (IndexSize q) = 2 * size old /\
  (forall l, table_of m' p l = table_of m p l) /\
  exists mn nc nfl, (forall l, table_of m' q l = mn l) /\ index_ok (new old) mn nc nfl /\
    follows skip rec m p old oc mn nc /\
    ((r = Some (inl true) /\ m' Torn = m Torn /\ covers skip rec m p old oc mn nc) \/
     (exhausted r /\ m' Torn = 1)).
Proof.
  intros R Hshape Hf2 Hbytes Hchains Hlive Hvm. destruct (io_size _ _ _ _ (ar_table _ _ _ _ _ _ _ _ R)) as (k & Hk & Hs).
  pose proof (Z.pow_pos_nonneg 2 k ltac:(lia) ltac:(lia)) as Hp.
  assert (Hroom : forall j, 0 <= j < 2 * size old -> let n := length (bound_for j (grown_moves skip rec m p old oc)) in
    (n < fuel)%nat /\ Z.of_nat n < MAX_CHAIN_STEPS).
  { intros j Hj n. pose proof (sublist_length _ _ (grown_tags skip rec m p old oc Hshape k ltac:(lia) Hs j Hj)) as Hn.
    rewrite !length_map in Hn. destruct (Hlive (j mod size old)); [apply Z.mod_pos_bound; lia|]. fold n in Hn. lia. }
  pose proof (grow_result vm e alive expired skip rec fuel t m p q old oc ofl cur R (log_shape_ok _ _ _ Hshape) Hf2
    Hbytes Hchains Hroom Hvm) as H.
  destruct (run _ m) as [r m']. destruct H as ((C1 & C2 & C3 & C4 & C5 & _) & Hold & mn & nc & nfl & mv & Hq & Hok & Hmv & Hres).
  do 6 (split; [done|]). exists mn, nc, nfl. split; [done|]. split; [done|].
  destruct Hres as [(-> & Ht & ->)|(Hr & Ht & Hpre)].
  - split; [exact (grown_follows _ _ _ _ _ _ Hshape k ltac:(lia) Hs _ _ _ (reflexivity _) Hmv)|].
    left. split; [done|]. split; [done|]. exact (grown_covers _ _ _ _ _ _ Hshape k ltac:(lia) Hs _ _ Hmv).
  - split; [exact (grown_follows _ _ _ _ _ _ Hshape k ltac:(lia) Hs _ _ _ Hpre Hmv)|]. by right.
Qed.

End Correct.

(** A table of one full bucket.  Each of its records is the newer one of two, which
    belong to different sides. *)
Definition demo_store : mem sloc := fun l =>
  match l with TableCell 1 x => Table.demo x | l => new_cells 1 1 1 l end.
Definition demo_record (a : Z) : option (Z * Z) :=
  if (0 <? a) && (a <=? Addr.ADDRESS_MASK) then Some (demo_hash + (a / 50) mod 2, if 100 <=? a then a - 50 else 0)
  else None.

Lemma demo_at_rest : at_rest demo_epoch demo_store 1 2 demo_ix (fun _ => []) [] 1.
Proof.
  split; [reflexivity..|exact demo_ok|reflexivity|lia|lia|reflexivity|reflexivity| |lia].
  split; [reflexivity|split; [discriminate|reflexivity]|reflexivity|intros i _; reflexivity].
Qed.

Lemma demo_shape : log_shape (fun _ => None) demo_record (demo_store HeadAddress).
Proof.
  split; [|discriminate|by vm_compute]. intros a hash prev. unfold demo_record.
  destruct (Z.ltb_spec 0 a), (Z.leb_spec a Addr.ADDRESS_MASK); cbn [andb]; try discriminate.
  intros [= _ <-]. destruct (Z.leb_spec 100 a); lia.
Qed.

Lemma demo_live b : 0 <= b < size demo_ix -> (length (live_entries demo_store 1 (fun _ => []) b) < 20)%nat /\
  Z.of_nat (length (live_entries demo_store 1 (fun _ => []) b)) < MAX_CHAIN_STEPS.
Proof.
  intros [? ?]. assert (b = 0) as -> by (cbn in *; lia).
  split; [apply Nat.ltb_lt; vm_compute; reflexivity|vm_compute; reflexivity].
Qed.

Lemma grow_index_correct_witness :
  let '(r, m') := run (grow_index (fun _ _ => true) demo_epoch (fun _ => true) (fun _ => false)
                         (fun _ => None) demo_record 20 (Tls.new_thread 7)) demo_store in
  r = Some (inl true) /\ m' ActiveIndex = 2 /\ m' (IndexSize 2) = 2 /\
  exists mn nc entry, (forall l, table_of m' 2 l = mn l) /\ entry ∈ occupied mn nc 1 /\ leads_to (fun _ => None) demo_record 1 entry 53.
Proof.
  pose proof (grow_index_correct (fun _ _ => true) demo_epoch (fun _ => true) (fun _ => false)
    (fun _ => None) demo_record 20 (Tls.new_thread 7) demo_store 1 2 demo_ix (fun _ => []) [] 1
    demo_at_rest demo_shape ltac:(lia) eq_refl
    (fun j _ => conj (Nat.lt_0_succ 19) eq_refl) demo_live eq_refl) as H.
  assert ((run (grow_index (fun _ _ => true) demo_epoch (fun _ => true) (fun _ => false)
                  (fun _ => None) demo_record 20 (Tls.new_thread 7)) demo_store).1 = Some (inl true))
    as E by (vm_compute; reflexivity).
  destruct (run _ demo_store) as [r m']. cbn [fst] in E. subst r.
  destruct H as (_ & _ & _ & H1 & H2 & _ & mn & nc & nfl & Hq & _ & _ & [(_ & _ & Hc)|[H _]]); [|discriminate].
  split; [done|]. split; [exact H1|]. split; [exact H2|].
  destruct (co_memory _ _ _ _ _ _ _ _ Hc 0 (demo_entry 3) 53 (demo_hash + 1) 0) as (x & Hx & _ & Hr);
    [cbn; lia| | |reflexivity|reflexivity|].
  - apply live_entries_elem. split; [reflexivity|]. vm_compute. do 3 right. left.
  - apply rtc_once. exists demo_hash. reflexivity.
  - exists mn, nc, x. split; [exact Hq|]. split; [exact Hx|exact Hr].
Defined.

End ReachSpec.
