(* ===== verification/Txn.v ===== *)
(** * Transactions ([wedb/wtxn/src])

    A transaction latches the hash buckets of its keys in ascending order, checks
    the versions of the keys it watches, and releases everything when it commits.
    [KeyEntries] is the set of keys and latches ([txn_key_entry.rs]), [Watch] the
    optimistic part ([watch_version_map.rs], [txn_watched_keys_container.rs]),
    [KeysBuffer] the queued keys ([txn_keys_buffer.rs], [txn_key_manager.rs]) and
    [Manager] the session's transaction ([transaction_manager.rs]).  The latches
    are those of the store's tables ([Bucket]), the barrier the one of [Resize].

    A program returns [Spinning] when it is still inside an unbounded loop and
    [Panicked] where the source panics. *)

From stdpp Require Import base list numbers option tactics.
From Stdlib Require Import ZArith Lia Bool.
From S2P Require Import Prelude Bytes Hasher Atomic Bucket Latch Index Resize.
Local Open Scope prog_scope.

Module Txn.
Import Index Resize.

(** The cells of engine [e]; the engine that replaced the first one; the version
    counters of [WATCH]; the global sequence of transaction versions.  [Inside]
    belongs to the clients of the latches. *)
Inductive tloc : Type :=
| Engine (e : Z) (l : sloc)
| SwapSlot
| Version (slot : Z)
| TxnVersionSeq
| Inside (k : Z * Z * bref) (t : nat).

#[export] Instance tloc_eq_dec : EqDecision tloc.
Proof. solve_decision. Defined.

(** [Undefined]: an unchecked index was out of range. *)
Inductive outcome (A : Type) : Type :=
| Done (a : A)
| Spinning
| Panicked
| Undefined.
#[global] Arguments Done {A} _.
#[global] Arguments Spinning {A}.
#[global] Arguments Panicked {A}.
#[global] Arguments Undefined {A}.

Abbreviation tprog A := (prog tloc (outcome A)).

Definition obind {A B} (p : tprog A) (f : A -> tprog B) : tprog B :=
  let* r := p in
  match r with
  | Done a => f a
  | Spinning => Ret Spinning
  | Panicked => Ret Panicked
  | Undefined => Ret Undefined
  end.

Declare Scope txn_scope.
Delimit Scope txn_scope with txn.
Notation "'do*' x := p 'in' q" := (obind p (fun x => q))
  (at level 10, x pattern, p at level 100, q at level 200) : txn_scope.
#[local] Open Scope txn_scope.

(** A program that always returns. *)
Definition lift {A} (p : prog tloc A) : tprog A := let* a := p in Ret (Done a).

(** ** The lock table ([txn_lock_table.rs]) *)
Module LockTable.

(** [Arc<HashIndex>]: a table of an engine. *)
Record PinnedIndex : Type := mkPinned { engine : Z; index : IndexRef }.

(** [TxnBarrierTicket]: the way to deregister. *)
Record Ticket : Type := mkTicket { end_txn : prog tloc unit }.

Record TxnLockTable : Type := mkTable {
  loader : prog tloc PinnedIndex;
  acquire : prog tloc (option Ticket)
}.

Definition DEFAULT_TXN_BUCKETS : Z := 1024.

Definition NOOP_BARRIER : Ticket := mkTicket (Ret tt).

Definition from_loader (loader : prog tloc PinnedIndex) : TxnLockTable :=
  mkTable loader (Ret (Some NOOP_BARRIER)).

(** The table's own index is table [p] of engine [e]. *)
Definition new (vm_allocate : Z -> Z -> bool) (e p : Z) : outcome TxnLockTable :=
  match Index.new_index vm_allocate DEFAULT_TXN_BUCKETS with
  | inl ix => Done (from_loader (Ret (mkPinned e (mkRef p ix))))
  | inr _ => Panicked
  end.

Definition from_loader_gated (loader : prog tloc PinnedIndex) (acquire : prog tloc (option Ticket))
  : TxnLockTable := mkTable loader acquire.

Definition pin (t : TxnLockTable) : prog tloc PinnedIndex := loader t.

Definition try_acquire_txn (t : TxnLockTable) : prog tloc (option Ticket) := acquire t.

Fixpoint acquire_txn (fuel : nat) (t : TxnLockTable) : tprog Ticket :=
  match fuel with
  | O => Ret Spinning
  | S fuel' =>
      let* r := try_acquire_txn t in
      match r with Some ticket => Ret (Done ticket) | None => acquire_txn fuel' t end
  end.

(** The slot holds 0 while no engine was swapped in. *)
Definition current_store (base : Z) : prog tloc Z :=
  let* e := load SwapSlot in Ret (if e =? 0 then base else e).

(** [ResizeBarrier]. *)
Definition resize_barrier (e : Z) : Ticket := mkTicket (relocate (Engine e) release_txn).

Definition build_txn_lock_table (store : Z) : TxnLockTable :=
  from_loader_gated
    (let* e := current_store store in
     let* ix := relocate (Engine e) active_index in
     Ret (mkPinned e ix))
    (let* e := current_store store in
     let* ok := relocate (Engine e) Resize.try_acquire_txn in
     Ret (if (ok : bool) then Some (resize_barrier e) else None)).

End LockTable.

(** ** Keys and latches *)
Module KeyEntries.
Import LockTable.

Inductive LockType : Type := Exclusive | Shared.

(** [#[repr(u8)]], the derived order. *)
Definition lock_u8 (t : LockType) : Z := match t with Exclusive => 1 | Shared => 2 end.
Definition is_exclusive (t : LockType) : bool := match t with Exclusive => true | Shared => false end.

(** Hashes are [i64]. *)
Record TxnKeyEntry : Type := mkEntry {
  key_hash : Z;
  routing_hash : Z;
  lock_type : LockType
}.

Record LockPlanSlot : Type := mkSlot { bucket : Z; exclusive : bool }.

Inductive IncrementalStep : Type :=
| Acquire (slot : LockPlanSlot)
| Upgrade (bucket : Z) (held_pos : nat).

Record TxnKeyEntries : Type := mkEntries {
  lock_table : TxnLockTable;
  keys : list TxnKeyEntry;
  unified_store_key_locked : bool;
  held : list LockPlanSlot;
  latch : option PinnedIndex;
  plan : option (list LockPlanSlot)
}.

Definition new (lock_table : TxnLockTable) : TxnKeyEntries :=
  mkEntries lock_table [] false [] None None.

Definition with_keys (s : TxnKeyEntries) (ks : list TxnKeyEntry) : TxnKeyEntries :=
  mkEntries (lock_table s) ks (unified_store_key_locked s) (held s) (latch s) (plan s).
Definition with_held (s : TxnKeyEntries) (h : list LockPlanSlot) : TxnKeyEntries :=
  mkEntries (lock_table s) (keys s) (unified_store_key_locked s) h (latch s) (plan s).
Definition with_latch (s : TxnKeyEntries) (l : option PinnedIndex) : TxnKeyEntries :=
  mkEntries (lock_table s) (keys s) (unified_store_key_locked s) (held s) l (plan s).
Definition with_plan (s : TxnKeyEntries) (p : option (list LockPlanSlot)) : TxnKeyEntries :=
  mkEntries (lock_table s) (keys s) (unified_store_key_locked s) (held s) (latch s) p.
Definition with_locked (s : TxnKeyEntries) (b : bool) : TxnKeyEntries :=
  mkEntries (lock_table s) (keys s) b (held s) (latch s) (plan s).

Definition is_read_only (s : TxnKeyEntries) : bool :=
  negb (existsb (fun k => is_exclusive (lock_type k)) (keys s)).

Definition routing_hashes (s : TxnKeyEntries) : list Z := map routing_hash (keys s).

Definition add_key (s : TxnKeyEntries) (key_hash routing_hash : Z) (t : LockType) : TxnKeyEntries :=
  with_keys s (keys s ++ [mkEntry key_hash routing_hash t]).

(** *** The plan *)

Definition scoped_key_hash (gxhash64 : list Z -> Z -> Z) (prefix key : list Z) : Z :=
  to_i64 (Hasher.scoped_hash gxhash64 prefix key).

Definition bucket_of (ix : HashIndex) (e : TxnKeyEntry) : Z :=
  bucket_index_for_hash ix (of_i64 (key_hash e)).

(** [TxnKeyEntryComparison::compare] ([txn_key_entry_comparison.rs]). *)
Definition compare (ix : HashIndex) (key1 key2 : TxnKeyEntry) : comparison :=
  match Z.compare (bucket_of ix key1) (bucket_of ix key2) with
  | Eq =>
      match Z.compare (key_hash key1) (key_hash key2) with
      | Eq => Z.compare (lock_u8 (lock_type key1)) (lock_u8 (lock_type key2))
      | c => c
      end
  | c => c
  end.

(** [sort_unstable_by]: some ordering of the elements; elements that compare
    equal differ only in their routing hash. *)
Fixpoint insert_by {A} (cmp : A -> A -> comparison) (x : A) (l : list A) : list A :=
  match l with
  | [] => [x]
  | y :: l' => match cmp x y with Gt => y :: insert_by cmp x l' | _ => x :: l end
  end.
Definition sort_by {A} (cmp : A -> A -> comparison) (l : list A) : list A :=
  foldr (insert_by cmp) [] l.

(** The scan that merges the slots of one bucket into the last of the plan (the
    plan in reverse). *)
Definition merge_slot (acc : list LockPlanSlot) (s : LockPlanSlot) : list LockPlanSlot :=
  match acc with
  | last :: acc' =>
      if bucket last =? bucket s
      then mkSlot (bucket last) (exclusive last || exclusive s) :: acc'
      else s :: acc
  | [] => [s]
  end.
Definition merge_slots (l : list LockPlanSlot) : list LockPlanSlot := rev (fold_left merge_slot l []).

Definition slot_of (ix : HashIndex) (e : TxnKeyEntry) : LockPlanSlot :=
  mkSlot (bucket_of ix e) (is_exclusive (lock_type e)).

(** The sorted keys and the plan. *)
Definition lock_plan (ix : HashIndex) (ks : list TxnKeyEntry) : list TxnKeyEntry * list LockPlanSlot :=
  match ks with
  | [] => ([], [])
  | _ => let ks := sort_by (compare ix) ks in (ks, merge_slots (map (slot_of ix) ks))
  end.

(** *** Latches *)

(** The cells of one bucket; the flags of [Latch] are [Inside]. *)
Definition at_bucket (k : Z * Z * bref) (l : Latch.lloc) : tloc :=
  match l with
  | Latch.Cell i => Engine k.1.1 (TableCell k.1.2 (Slot k.2 i))
  | Latch.Flag t => Inside k t
  end.
Definition bucket_cells (ix : PinnedIndex) (b : Z) : Z * Z * bref :=
  (engine ix, ptr (index ix), get_bucket (table (index ix)) b).

Definition try_lock_shared (ix : PinnedIndex) (b : Z) : prog tloc bool :=
  relocate (at_bucket (bucket_cells ix b)) (Bucket.try_lock_shared Latch.Cell).
Definition unlock_shared (ix : PinnedIndex) (b : Z) : prog tloc unit :=
  relocate (at_bucket (bucket_cells ix b)) (Bucket.unlock_shared Latch.Cell).
Definition try_lock_exclusive (fuel : nat) (ix : PinnedIndex) (b : Z) : prog tloc (option bool) :=
  relocate (at_bucket (bucket_cells ix b)) (Bucket.try_lock_exclusive Latch.Cell fuel).
Definition unlock_exclusive (ix : PinnedIndex) (b : Z) : prog tloc unit :=
  relocate (at_bucket (bucket_cells ix b)) (Bucket.unlock_exclusive Latch.Cell).

Definition take_slot (fuel : nat) (ix : PinnedIndex) (s : LockPlanSlot) : tprog bool :=
  if exclusive s then
    let* r := try_lock_exclusive fuel ix (bucket s) in
    Ret (match r with Some ok => Done ok | None => Spinning end)
  else lift (try_lock_shared ix (bucket s)).

Definition drop_slot (ix : PinnedIndex) (s : LockPlanSlot) : prog tloc unit :=
  if exclusive s then unlock_exclusive ix (bucket s) else unlock_shared ix (bucket s).

Fixpoint drop_slots (ix : PinnedIndex) (l : list LockPlanSlot) : prog tloc unit :=
  match l with
  | [] => Ret tt
  | s :: rest => drop_slot ix s ;; drop_slots ix rest
  end.

Definition release_held (s : TxnKeyEntries) : prog tloc TxnKeyEntries :=
  match latch s with
  | None => Ret (with_held s [])
  | Some ix => drop_slots ix (rev (held s)) ;; Ret (with_held s [])
  end.

Fixpoint acquire_loop (fuel : nat) (ix : PinnedIndex) (slots : list LockPlanSlot) (s : TxnKeyEntries)
  : tprog (bool * TxnKeyEntries) :=
  match slots with
  | [] => Ret (Done (true, s))
  | slot :: rest =>
      do* taken := take_slot fuel ix slot in
      if (taken : bool) then acquire_loop fuel ix rest (with_held s (held s ++ [slot]))
      else (let* s := release_held s in Ret (Done (false, s)))
  end.

Definition acquire_plan (fuel : nat) (s : TxnKeyEntries) (slots : list LockPlanSlot)
  : tprog (bool * TxnKeyEntries) :=
  let s := with_held s [] in
  match latch s with
  | None => Ret Panicked
  | Some ix => acquire_loop fuel ix slots s
  end.

Definition ensure_plan (s : TxnKeyEntries) : prog tloc TxnKeyEntries :=
  match plan s with
  | Some _ => Ret s
  | None =>
      let* ix := pin (lock_table s) in
      let '(ks, slots) := lock_plan (table (index ix)) (keys s) in
      let s := with_keys s ks in
      let s := match slots with [] => s | _ => with_latch s (Some ix) end in
      Ret (with_plan s (Some slots))
  end.

Definition try_lock_all_keys_once (fuel : nat) (s : TxnKeyEntries) : tprog (bool * TxnKeyEntries) :=
  let* s := ensure_plan s in
  match plan s with
  | Some (slot :: slots) =>
      let p := plan s in
      do* (acquired, s) := acquire_plan fuel (with_plan s None) (slot :: slots) in
      let s := with_plan s p in
      Ret (Done (acquired, if (acquired : bool) then with_locked s true else s))
  | _ => Ret (Done (true, s))
  end.

Fixpoint lock_all_keys (rounds fuel : nat) (s : TxnKeyEntries) : tprog TxnKeyEntries :=
  match rounds with
  | O => Ret Spinning
  | S rounds' =>
      do* (ok, s) := try_lock_all_keys_once fuel s in
      if (ok : bool) then Ret (Done s) else lock_all_keys rounds' fuel s
  end.

(** [over n]: the timeout is zero, or it has passed when the [n]-th attempt failed. *)
Fixpoint try_lock_all_keys (rounds n fuel : nat) (over : nat -> bool) (s : TxnKeyEntries)
  : tprog (bool * TxnKeyEntries) :=
  match rounds with
  | O => Ret Spinning
  | S rounds' =>
      do* (ok, s) := try_lock_all_keys_once fuel s in
      if (ok : bool) then Ret (Done (true, s))
      else if over n then
        Ret (Done (false, with_locked (with_plan (with_latch s None) None) false))
      else try_lock_all_keys rounds' (S n) fuel over s
  end.

Definition unlock_all_keys (s : TxnKeyEntries) : prog tloc TxnKeyEntries :=
  let* s := (if unified_store_key_locked s then release_held s else Ret s) in
  Ret (mkEntries (lock_table s) [] false [] None None).

(** [binary_search_by] on the buckets of [held], which ascend strictly. *)
Definition search_held (h : list LockPlanSlot) (b : Z) : option nat :=
  fst <$> list_find (fun s => bucket s = b) h.

Definition held_bucket_exclusive (s : TxnKeyEntries) (b : Z) : option bool :=
  pos ← search_held (held s) b; exclusive <$> held s !! pos.

Definition covers_user_keys (gxhash64 : list Z -> Z -> Z) (s : TxnKeyEntries) (prefix : list Z)
    (ks : list (list Z)) (require_exclusive : bool) : bool :=
  match ks with
  | [] => true
  | _ =>
      match latch s with
      | None => false
      | Some ix =>
          forallb (fun key =>
            match held_bucket_exclusive s
                    (bucket_index_for_hash (table (index ix)) (of_i64 (scoped_key_hash gxhash64 prefix key))) with
            | Some ex => negb require_exclusive || ex
            | None => false
            end) ks
      end
  end.

(** *** Incremental locking *)

(** The steps for the merged slots: buckets that are not held are taken, shared
    ones that are to be exclusive are upgraded. *)
Definition incremental_step (h : list LockPlanSlot) (slot : LockPlanSlot) : list IncrementalStep :=
  match search_held h (bucket slot) with
  | Some held_pos =>
      if exclusive slot && negb (default false (exclusive <$> h !! held_pos))
      then [Upgrade (bucket slot) held_pos] else []
  | None => [Acquire slot]
  end.

Definition take_step (fuel : nat) (ix : PinnedIndex) (st : IncrementalStep) : tprog bool :=
  match st with
  | Acquire slot => take_slot fuel ix slot
  | Upgrade b _ => unlock_shared ix b ;; take_slot fuel ix (mkSlot b true)
  end.

(** A shared latch given back to bucket [b], or the bucket is lost. *)
Definition regain (ix : PinnedIndex) (b : Z) (lost : list Z) : prog tloc (list Z) :=
  let* ok := try_lock_shared ix b in Ret (if (ok : bool) then lost else lost ++ [b]).

Fixpoint undo_steps (ix : PinnedIndex) (done : list IncrementalStep) (lost : list Z) : prog tloc (list Z) :=
  match done with
  | [] => Ret lost
  | Acquire slot :: rest => drop_slot ix slot ;; undo_steps ix rest lost
  | Upgrade b _ :: rest =>
      unlock_exclusive ix b ;;
      let* lost := regain ix b lost in
      undo_steps ix rest lost
  end.

Definition remove_lost (h : list LockPlanSlot) (b : Z) : list LockPlanSlot :=
  match search_held h b with Some pos => delete pos h | None => h end.

(** [done] are the steps already taken, the last first.  [inl lost]: a step failed,
    everything was undone. *)
Fixpoint run_steps (fuel : nat) (ix : PinnedIndex) (steps done : list IncrementalStep)
  : tprog (list Z + unit) :=
  match steps with
  | [] => Ret (Done (inr tt))
  | st :: rest =>
      do* taken := take_step fuel ix st in
      if (taken : bool) then run_steps fuel ix rest (st :: done)
      else
        let* lost := (match st with Upgrade b _ => regain ix b [] | Acquire _ => Ret [] end) in
        let* lost := undo_steps ix done lost in
        Ret (Done (inl lost))
  end.

Definition apply_step (h : list LockPlanSlot) (st : IncrementalStep) : list LockPlanSlot :=
  match st with
  | Acquire slot => h ++ [slot]
  | Upgrade _ held_pos => alter (fun s => mkSlot (bucket s) true) held_pos h
  end.

Definition by_bucket (a b : LockPlanSlot) : comparison := Z.compare (bucket a) (bucket b).

Definition try_lock_incremental_entries (fuel : nat) (s : TxnKeyEntries) (new_entries : list TxnKeyEntry)
  : tprog (bool * TxnKeyEntries) :=
  match new_entries with
  | [] => Ret (Done (true, s))
  | _ =>
      let* (s, ix) :=
        (match latch s with
         | Some ix => Ret (s, ix)
         | None => let* ix := pin (lock_table s) in Ret (with_latch s (Some ix), ix)
         end) in
      let merged := merge_slots (sort_by by_bucket (map (slot_of (table (index ix))) new_entries)) in
      match merged ≫= incremental_step (held s) with
      | [] => Ret (Done (true, with_plan (with_keys s (keys s ++ new_entries)) None))
      | steps =>
          do* r := run_steps fuel ix steps [] in
          match r with
          | inl lost => Ret (Done (false, with_held s (fold_left remove_lost lost (held s))))
          | inr _ =>
              let h := sort_by by_bucket (fold_left apply_step steps (held s)) in
              Ret (Done (true, with_locked (with_plan (with_keys (with_held s h) (keys s ++ new_entries))
                                              None) true))
          end
      end
  end.

End KeyEntries.

(** ** Watched keys *)
Module Watch.
Import KeyEntries.

(** [WatchVersionMap]: the counters are the cells [Version]. *)
Record WatchVersionMap : Type := mkMap { size_mask : Z }.

Definition DEFAULT_VERSION_MAP_SIZE : Z := Z.shiftl 1 16.

(** Its zeroed counters are part of the initial memory. *)
Definition new_map (size : Z) : outcome WatchVersionMap :=
  if is_power_of_two size then Done (mkMap (size - 1)) else Panicked.

(** The counters are [AtomicI64], read as [u64]. *)
Definition read_version (map : WatchVersionMap) (key_hash : Z) : prog tloc Z :=
  load (Version (Z.land key_hash (size_mask map))).

Definition increment_version (map : WatchVersionMap) (key_hash : Z) : prog tloc unit :=
  let* _ := fetch_add (Version (Z.land key_hash (size_mask map))) 1 in Ret tt.

Record WatchedKeySlice : Type := mkSlice { key : list Z; hash : Z; version : Z }.

Record TxnWatchedKeysContainer : Type := mkContainer {
  key_slices : list WatchedKeySlice;
  version_map : WatchVersionMap
}.

Definition new (map : WatchVersionMap) : TxnWatchedKeysContainer := mkContainer [] map.

Definition reset (c : TxnWatchedKeysContainer) : TxnWatchedKeysContainer :=
  mkContainer [] (version_map c).

Section Hashing.
Context (gxhash64 : list Z -> Z -> Z).

Definition add_watch (c : TxnWatchedKeysContainer) (prefix k : list Z)
  : prog tloc TxnWatchedKeysContainer :=
  let h := of_i64 (scoped_key_hash gxhash64 prefix k) in
  if existsb (fun slice => (hash slice =? h) && bool_decide (key slice = k)) (key_slices c)
  then Ret c
  else
    let* v := read_version (version_map c) h in
    Ret (mkContainer (key_slices c ++ [mkSlice k h v]) (version_map c)).

Definition save_lock_hashes (c : TxnWatchedKeysContainer) (prefix : list Z) : list (Z * Z) :=
  map (fun slice => (scoped_key_hash gxhash64 prefix (key slice),
                     Hasher.fast_hash_i64 gxhash64 (key slice))) (key_slices c).

End Hashing.

Fixpoint validate_slices (map : WatchVersionMap) (l : list WatchedKeySlice) : prog tloc bool :=
  match l with
  | [] => Ret true
  | slice :: rest =>
      let* v := read_version map (hash slice) in
      if v =? version slice then validate_slices map rest else Ret false
  end.

Definition validate_watch_version (c : TxnWatchedKeysContainer) : prog tloc bool :=
  validate_slices (version_map c) (key_slices c).

Definition save_keys_to_key_list (c : TxnWatchedKeysContainer) : list (list Z) :=
  map key (key_slices c).

End Watch.

(** ** Queued keys *)
Module KeysBuffer.
Import KeyEntries.

Record TxnKeysBuffer : Type := mkBuffer {
  bytes : list Z;
  offsets : list Z;
  lock_types : list LockType
}.

Definition new : TxnKeysBuffer := mkBuffer [] [] [].
Definition is_empty (b : TxnKeysBuffer) : bool := match offsets b with [] => true | _ => false end.
Definition len (b : TxnKeysBuffer) : Z := zlen (offsets b).

(** [as u32]. *)
Definition push (b : TxnKeysBuffer) (key : list Z) (t : LockType) : TxnKeysBuffer :=
  let bytes := bytes b ++ key in
  mkBuffer bytes (offsets b ++ [wrap 32 (zlen bytes)]) (lock_types b ++ [t]).

Definition clear (b : TxnKeysBuffer) : TxnKeysBuffer := mkBuffer [] [] [].

(** [get_unchecked(start..end)]; [None]: the range is not one of the bytes. *)
Definition get_unchecked (bs : list Z) (start stop : Z) : option (list Z) :=
  if (start <=? stop) && (stop <=? zlen bs) then Some (slice start stop bs) else None.

(** The keys the iterator yields after [prev]. *)
Fixpoint iter_from (bs : list Z) (prev : Z) (ends : list Z) : option (list (list Z)) :=
  match ends with
  | [] => Some []
  | stop :: rest =>
      k ← get_unchecked bs prev stop;
      ks ← iter_from bs stop rest;
      Some (k :: ks)
  end.
Definition iter (b : TxnKeysBuffer) : option (list (list Z)) := iter_from (bytes b) 0 (offsets b).

Definition iter_with_lock (b : TxnKeysBuffer) : option (list (list Z * LockType)) :=
  ks ← iter b; Some (zip ks (lock_types b)).

Definition is_read_only (b : TxnKeysBuffer) : bool :=
  negb (existsb is_exclusive (lock_types b)).

Definition get_lock_type (b : TxnKeysBuffer) (i : nat) : option LockType := lock_types b !! i.

(** *** The keys of a queued command ([txn_key_manager.rs], [txn_key_spec.rs]) *)

Record TxnKeySpec : Type := mkSpec { first_idx : Z; last_idx : Z; step : Z; read_only : bool }.

(** [(first..=last).step_by(step)]. *)
Definition step_by (first last step : Z) : list Z :=
  map (fun n => first + n * step) (seqZ 0 ((last - first) / step + 1)).

(** The argument positions a specification selects among [arg_count]. *)
Definition key_window (arg_count : Z) (spec : TxnKeySpec) : list Z :=
  let last := if last_idx spec <? 0 then arg_count + last_idx spec else last_idx spec in
  if last <? 0 then []
  else
    let last := Z.min last (Z.max 0 (arg_count - 1)) in
    if (last <? first_idx spec) || (arg_count <=? first_idx spec) then []
    else step_by (first_idx spec) last (Z.max (step spec) 1).

(** [get_arg] is the session's argument at a position. *)
Definition lock_spec (get_arg : Z -> list Z) (arg_count : Z) (b : TxnKeysBuffer) (spec : TxnKeySpec)
  : TxnKeysBuffer :=
  let t := if read_only spec then Shared else Exclusive in
  fold_left (fun b idx => push b (get_arg idx) t) (key_window arg_count spec) b.

Definition lock_keys (get_arg : Z -> list Z) (arg_count : Z) (b : TxnKeysBuffer)
    (key_specs : list TxnKeySpec) : TxnKeysBuffer :=
  fold_left (lock_spec get_arg arg_count) key_specs b.

End KeysBuffer.

(** ** The session's transaction *)
Module Manager.
Import LockTable KeyEntries.
Import KeysBuffer(TxnKeysBuffer, iter_with_lock).

Inductive TxnState : Type := None_ | Started | Running | Aborted.

Inductive TxnEntryType : Type := TxnStart | TxnCommit | TxnAbort.

Definition REPLAY_TASK_ACCESS_VECTOR_BYTES : nat := 32.

Record SublogAccess : Type := mkAccess {
  physical_vector : Z;
  virtual_vectors : list (list Z);
  participant_count : Z
}.

(** The log a transaction writes its markers to; [enqueue_txn op version session
    access] tells whether the entry was queued. *)
Record TxnAofLog : Type := mkLog {
  log_size : Z;
  replay_task_count : Z;
  get_physical_sublog_idx : Z -> Z;
  get_replay_task_idx : Z -> Z;
  enqueue_txn : TxnEntryType -> Z -> Z -> SublogAccess -> prog tloc bool
}.

Inductive ExecRun : Type := ExecStarted | Contended | ExecAborted.

Record TransactionManager : Type := mkManager {
  state : TxnState;
  key_entries : TxnKeyEntries;
  watch_container : Watch.TxnWatchedKeysContainer;
  txn_start_head : Z;
  operation_cnt_txn : Z;
  perform_writes : bool;
  txn_version : Z;
  txn_barrier : option Ticket;
  aof_log : option TxnAofLog;
  session_id : Z;
  txn_keys : TxnKeysBuffer;
  cluster_enabled : bool;
  exec_lock_armed : bool;
  watch_merged_into_txn_keys : bool;
  lock_prefix : option (list Z)
}.

Definition new (t : TxnLockTable) (map : Watch.WatchVersionMap) (log : option TxnAofLog)
  : TransactionManager :=
  mkManager None_ (KeyEntries.new t) (Watch.new map) 0 0 false 0 None log 0 KeysBuffer.new
    false false false None.

Definition with_entries (s : TransactionManager) (k : TxnKeyEntries) : TransactionManager :=
  mkManager (state s) k (watch_container s) (txn_start_head s) (operation_cnt_txn s) (perform_writes s)
    (txn_version s) (txn_barrier s) (aof_log s) (session_id s) (txn_keys s) (cluster_enabled s)
    (exec_lock_armed s) (watch_merged_into_txn_keys s) (lock_prefix s).
Definition with_state (s : TransactionManager) (st : TxnState) : TransactionManager :=
  mkManager st (key_entries s) (watch_container s) (txn_start_head s) (operation_cnt_txn s)
    (perform_writes s) (txn_version s) (txn_barrier s) (aof_log s) (session_id s) (txn_keys s)
    (cluster_enabled s) (exec_lock_armed s) (watch_merged_into_txn_keys s) (lock_prefix s).
Definition with_watch (s : TransactionManager) (w : Watch.TxnWatchedKeysContainer) : TransactionManager :=
  mkManager (state s) (key_entries s) w (txn_start_head s) (operation_cnt_txn s) (perform_writes s)
    (txn_version s) (txn_barrier s) (aof_log s) (session_id s) (txn_keys s) (cluster_enabled s)
    (exec_lock_armed s) (watch_merged_into_txn_keys s) (lock_prefix s).
Definition with_barrier (s : TransactionManager) (b : option Ticket) : TransactionManager :=
  mkManager (state s) (key_entries s) (watch_container s) (txn_start_head s) (operation_cnt_txn s)
    (perform_writes s) (txn_version s) b (aof_log s) (session_id s) (txn_keys s) (cluster_enabled s)
    (exec_lock_armed s) (watch_merged_into_txn_keys s) (lock_prefix s).
Definition with_writes (s : TransactionManager) (w : bool) : TransactionManager :=
  mkManager (state s) (key_entries s) (watch_container s) (txn_start_head s) (operation_cnt_txn s) w
    (txn_version s) (txn_barrier s) (aof_log s) (session_id s) (txn_keys s) (cluster_enabled s)
    (exec_lock_armed s) (watch_merged_into_txn_keys s) (lock_prefix s).
Definition with_version (s : TransactionManager) (v : Z) : TransactionManager :=
  mkManager (state s) (key_entries s) (watch_container s) (txn_start_head s) (operation_cnt_txn s)
    (perform_writes s) v (txn_barrier s) (aof_log s) (session_id s) (txn_keys s) (cluster_enabled s)
    (exec_lock_armed s) (watch_merged_into_txn_keys s) (lock_prefix s).
Definition with_prefix (s : TransactionManager) (p : option (list Z)) : TransactionManager :=
  mkManager (state s) (key_entries s) (watch_container s) (txn_start_head s) (operation_cnt_txn s)
    (perform_writes s) (txn_version s) (txn_barrier s) (aof_log s) (session_id s) (txn_keys s)
    (cluster_enabled s) (exec_lock_armed s) (watch_merged_into_txn_keys s) p.
Definition with_armed (s : TransactionManager) (b : bool) : TransactionManager :=
  mkManager (state s) (key_entries s) (watch_container s) (txn_start_head s) (operation_cnt_txn s)
    (perform_writes s) (txn_version s) (txn_barrier s) (aof_log s) (session_id s) (txn_keys s)
    (cluster_enabled s) b (watch_merged_into_txn_keys s) (lock_prefix s).

(** [txn_barrier.take()] and, when there was one, [end_txn]. *)
Definition end_barrier (s : TransactionManager) : prog tloc TransactionManager :=
  match txn_barrier s with
  | Some ticket => end_txn ticket ;; Ret (with_barrier s None)
  | None => Ret s
  end.

Definition reset (s : TransactionManager) : prog tloc TransactionManager :=
  let* k := unlock_all_keys (key_entries s) in
  let* s := end_barrier (with_entries s k) in
  Ret (mkManager None_ (key_entries s) (watch_container s) 0 0 false 0 None (aof_log s)
         (session_id s) (KeysBuffer.clear (txn_keys s)) (cluster_enabled s) false false None).

Definition reset_watch (s : TransactionManager) : TransactionManager :=
  with_watch s (Watch.reset (watch_container s)).

(** *** AOF markers *)

(** One routing hash: the bit of its replay task in the vector of its sublog. *)
Definition add_route (log : TxnAofLog) (acc : SublogAccess) (routing_hash : Z) : SublogAccess :=
  let physical_idx := get_physical_sublog_idx log routing_hash in
  let replay_idx := get_replay_task_idx log routing_hash in
  let physical := if physical_idx <? 64
                  then Z.lor (physical_vector acc) (Z.shiftl 1 physical_idx)
                  else physical_vector acc in
  let byte_idx := Z.to_nat (replay_idx / 8) in
  let bit_mask := Z.shiftl 1 (replay_idx mod 8) in
  match (v ← virtual_vectors acc !! Z.to_nat physical_idx; slot ← v !! byte_idx; Some (v, slot)) with
  | Some (v, slot) =>
      if Z.land slot bit_mask =? 0
      then mkAccess physical
             (<[Z.to_nat physical_idx := <[byte_idx := Z.lor slot bit_mask]> v]> (virtual_vectors acc))
             (participant_count acc + 1)
      else mkAccess physical (virtual_vectors acc) (participant_count acc)
  | None => mkAccess physical (virtual_vectors acc) (participant_count acc)
  end.

Definition compute_sublog_access_vector (s : TransactionManager) : SublogAccess :=
  match aof_log s with
  | None => mkAccess 0 [] 0
  | Some log =>
      if (log_size log <=? 1) && (replay_task_count log <=? 1) then mkAccess 0 [] 0
      else
        fold_left (add_route log) (routing_hashes (key_entries s))
          (mkAccess 0 (repeat (repeat 0 REPLAY_TASK_ACCESS_VECTOR_BYTES) (Z.to_nat (log_size log))) 0)
  end.

Definition enqueue_txn_marker (s : TransactionManager) (log : TxnAofLog) (op : TxnEntryType)
  : prog tloc bool :=
  enqueue_txn log op (txn_version s) (session_id s) (compute_sublog_access_vector s).

(** The marker of a transaction that writes, when there is a log. *)
Definition mark (s : TransactionManager) (op : TxnEntryType) : prog tloc bool :=
  match aof_log s with
  | Some log => if perform_writes s then enqueue_txn_marker s log op else Ret true
  | None => Ret true
  end.

(** *** Starting *)

Definition try_acquire_barrier (s : TransactionManager) : prog tloc (bool * TransactionManager) :=
  match txn_barrier s with
  | Some _ => Ret (true, s)
  | None =>
      let* b := try_acquire_txn (lock_table (key_entries s)) in
      Ret (match b with Some _ => true | None => false end, with_barrier s b)
  end.

Definition finish_run_postlock (s : TransactionManager) (internal_txn : bool)
  : prog tloc (bool * TransactionManager) :=
  let* valid := (if internal_txn then Ret true else Watch.validate_watch_version (watch_container s)) in
  if negb valid then
    let* s := reset s in Ret (false, reset_watch s)
  else
    let* ok := mark s TxnStart in
    if negb ok then
      let* s := reset s in Ret (false, if internal_txn then s else reset_watch s)
    else Ret (true, with_state s Running).

Section Hashing.
Context (gxhash64 : list Z -> Z -> Z).

(** The entries of the watched and of the queued keys under a prefix. *)
Definition watch_entries (s : TransactionManager) (prefix : list Z) : list TxnKeyEntry :=
  map (fun '(h, r) => mkEntry h r Shared)
    (Watch.save_lock_hashes gxhash64 (watch_container s) prefix).
Definition queued_entries (prefix : list Z) (queued : list (list Z * LockType)) : list TxnKeyEntry :=
  map (fun '(k, t) => mkEntry (scoped_key_hash gxhash64 prefix k) (Hasher.fast_hash_i64 gxhash64 k) t)
    queued.
Definition queued_writes (queued : list (list Z * LockType)) : bool :=
  existsb (fun q => is_exclusive (snd q)) queued.

Definition register_run_preamble (s : TransactionManager) (prefix : list Z) (internal_txn : bool)
  : tprog TransactionManager :=
  let s := with_prefix s (Some prefix) in
  let k := key_entries s in
  let k := if internal_txn then k else with_keys k (keys k ++ watch_entries s prefix) in
  match iter_with_lock (txn_keys s) with
  | None => Ret Undefined
  | Some queued =>
      let s := with_writes s (perform_writes s || queued_writes queued) in
      let k := with_keys k (keys k ++ queued_entries prefix queued) in
      let* v := fetch_add TxnVersionSeq 1 in
      Ret (Done (with_version (with_entries s k) (to_i64 v)))
  end.

Definition begin_run_preamble (fuel : nat) (s : TransactionManager) (prefix : list Z)
    (internal_txn : bool) : tprog TransactionManager :=
  do* s := (match txn_barrier s with
            | Some _ => Ret (Done s)
            | None =>
                do* ticket := acquire_txn fuel (lock_table (key_entries s)) in
                Ret (Done (with_barrier s (Some ticket)))
            end) in
  register_run_preamble s prefix internal_txn.

(** [over] as in [try_lock_all_keys]. *)
Definition run (rounds fuel : nat) (s : TransactionManager) (prefix : list Z)
    (internal_txn fail_fast_on_lock : bool) (over : nat -> bool) : tprog (bool * TransactionManager) :=
  do* s := begin_run_preamble rounds s prefix internal_txn in
  do* (ok, k) := (if fail_fast_on_lock then try_lock_all_keys rounds 0 fuel over (key_entries s)
                  else do* k := lock_all_keys rounds fuel (key_entries s) in Ret (Done (true, k))) in
  let s := with_entries s k in
  if negb ok then
    let* s := reset s in
    Ret (Done (false, if internal_txn then s else reset_watch s))
  else lift (finish_run_postlock s internal_txn).

(** The barrier and the key set of this attempt; [inl]: contended. *)
Definition arm_exec (s : TransactionManager) (prefix : list Z)
  : tprog (TransactionManager + TransactionManager) :=
  if negb (exec_lock_armed s) then
    let* (ok, s) := try_acquire_barrier s in
    if negb ok then Ret (Done (inl s))
    else
      do* s := register_run_preamble s prefix false in
      Ret (Done (inr (with_armed s true)))
  else if match txn_barrier s with None => true | Some _ => false end
          || match lock_prefix s with Some anchor => negb (bool_decide (anchor = prefix)) | None => false end
  then
    let* s := end_barrier s in
    let* (ok, s) := try_acquire_barrier s in
    if negb ok then Ret (Done (inl s))
    else
      let* k := unlock_all_keys (key_entries s) in
      do* s := register_run_preamble (with_entries s k) prefix false in
      Ret (Done (inr s))
  else Ret (Done (inr s)).

Definition run_exec (fuel : nat) (s : TransactionManager) (prefix : list Z)
  : tprog (ExecRun * TransactionManager) :=
  do* r := arm_exec s prefix in
  match r with
  | inl s => Ret (Done (Contended, s))
  | inr s =>
      do* (ok, k) := try_lock_all_keys_once fuel (key_entries s) in
      let s := with_entries s k in
      if negb ok then Ret (Done (Contended, s))
      else
        let* (ok, s) := finish_run_postlock s false in
        Ret (Done (if (ok : bool) then ExecStarted else ExecAborted, s))
  end.

Definition reexpand_for_generation_swap (fuel : nat) (s : TransactionManager) (new_prefix : list Z)
  : tprog (bool * TransactionManager) :=
  match iter_with_lock (txn_keys s) with
  | None => Ret Undefined
  | Some queued =>
      let new_entries := watch_entries s new_prefix ++ queued_entries new_prefix queued in
      let s := with_writes s (perform_writes s || queued_writes queued) in
      do* (ok, k) := try_lock_incremental_entries fuel (key_entries s) new_entries in
      let s := with_entries s k in
      Ret (Done (ok, if (ok : bool) then with_prefix s (Some new_prefix) else s))
  end.

Definition watch (s : TransactionManager) (prefix key : list Z) : prog tloc TransactionManager :=
  let* w := Watch.add_watch gxhash64 (watch_container s) prefix key in
  Ret (with_watch s w).

End Hashing.

(** *** Ending *)

Definition commit (s : TransactionManager) (internal_txn : bool) : prog tloc (bool * TransactionManager) :=
  let* enqueued := mark s TxnCommit in
  let s := if internal_txn then s else reset_watch s in
  let* s := reset s in
  Ret (enqueued, s).

Definition abort (s : TransactionManager) : TransactionManager := with_state s Aborted.

Definition finish_abandoned (s : TransactionManager) : prog tloc (bool * TransactionManager) :=
  match state s with
  | Running =>
      let* enqueued := mark s TxnAbort in
      let* s := reset s in
      Ret (enqueued, s)
  | _ => Ret (true, s)
  end.

Definition is_skipping_operations (s : TransactionManager) : bool :=
  match state s with Started | Aborted => true | _ => false end.

Definition is_read_only (s : TransactionManager) : bool :=
  KeyEntries.is_read_only (key_entries s) && KeysBuffer.is_read_only (txn_keys s).

Definition save_key_entry_to_lock (s : TransactionManager) (key : list Z) (t : LockType)
  : TransactionManager :=
  mkManager (state s) (key_entries s) (watch_container s) (txn_start_head s) (operation_cnt_txn s)
    (perform_writes s) (txn_version s) (txn_barrier s) (aof_log s) (session_id s)
    (KeysBuffer.push (txn_keys s) key t) (cluster_enabled s) (exec_lock_armed s)
    (watch_merged_into_txn_keys s) (lock_prefix s).

End Manager.

End Txn.
