(* ===== verification/TxnPlan.v ===== *)
(** * The lock plan of a transaction ([wedb/wtxn/src/txn_key_entry.rs])

    Sorting and merging: the plan visits the buckets of the keys in strictly
    ascending order, each bucket once, with the strongest lock a key asks for. *)

From stdpp Require Import base list numbers option tactics sorting.
From Stdlib Require Import ZArith Lia Bool.
From S2P Require Import Prelude Atomic Index Resize Txn.

Module Plan.
Import Index Resize Txn.KeyEntries.

(** ** Sorting *)

Section Sort.
Context {A : Type} (cmp : A -> A -> comparison).

Lemma insert_by_perm x l : insert_by cmp x l ≡ₚ x :: l.
Proof.
  induction l as [|y l IH]; cbn [insert_by]; [done|]. destruct (cmp x y); [done..|].
  rewrite IH. constructor.
Qed.

Lemma sort_by_perm l : sort_by cmp l ≡ₚ l.
Proof. induction l as [|x l IH]; cbn; [done|]. by rewrite insert_by_perm, IH. Qed.

Context (f : A -> Z).
Hypothesis cmp_le : forall a b, cmp a b <> Gt -> f a <= f b.
Hypothesis cmp_gt : forall a b, cmp a b = Gt -> f b <= f a.

Lemma insert_by_sorted x l :
  StronglySorted Z.le (f <$> l) -> StronglySorted Z.le (f <$> insert_by cmp x l).
Proof.
  induction l as [|y l IH]; cbn [insert_by]; [by repeat constructor|].
  rewrite fmap_cons. intros Hs. apply StronglySorted_inv in Hs as [Hl Hy].
  assert (Hcons : f x <= f y -> StronglySorted Z.le (f <$> x :: y :: l)).
  { intros Hxy. rewrite !fmap_cons. constructor; [by constructor|].
    constructor; [done|]. eapply Forall_impl; [exact Hy|]. cbn. lia. }
  destruct (cmp x y) eqn:E; [apply Hcons, cmp_le; by rewrite E..|].
  rewrite fmap_cons. constructor; [by apply IH|].
  rewrite insert_by_perm, fmap_cons. constructor; [by apply cmp_gt|done].
Qed.

Lemma sort_by_sorted l : StronglySorted Z.le (f <$> sort_by cmp l).
Proof. induction l as [|x l IH]; cbn; [constructor|]. by apply insert_by_sorted. Qed.

End Sort.

Lemma compare_bucket ix a b :
  (compare ix a b <> Gt -> bucket_of ix a <= bucket_of ix b) /\
  (compare ix a b = Gt -> bucket_of ix b <= bucket_of ix a).
Proof. unfold compare. destruct (Z.compare_spec (bucket_of ix a) (bucket_of ix b)); split; intros; try done; lia. Qed.

Lemma by_bucket_spec a b :
  (by_bucket a b <> Gt -> bucket a <= bucket b) /\ (by_bucket a b = Gt -> bucket b <= bucket a).
Proof. unfold by_bucket. destruct (Z.compare_spec (bucket a) (bucket b)); split; intros; try done; lia. Qed.

(** ** Merging *)

(** Whether bucket [b] is in the list, and whether it is asked for exclusively. *)
Definition has (l : list LockPlanSlot) (b : Z) : bool := existsb (fun s => bucket s =? b) l.
Definition wants (l : list LockPlanSlot) (b : Z) : bool :=
  existsb (fun s => (bucket s =? b) && exclusive s) l.

Lemma merge_slot_spec acc s b :
  has (merge_slot acc s) b = has [s] b || has acc b /\
  wants (merge_slot acc s) b = wants [s] b || wants acc b.
Proof.
  destruct s as [bs es]. destruct acc as [|[bl el] acc]; [by split; cbn; rewrite ?orb_false_r|].
  cbn [merge_slot bucket exclusive].
  destruct (Z.eqb_spec bl bs) as [->|Hne]; cbn; rewrite ?orb_false_r; [|done].
  destruct (bs =? b), es, el, (existsb _ acc); done.
Qed.

Lemma merge_fold_spec l acc b :
  has (fold_left merge_slot l acc) b = has l b || has acc b /\
  wants (fold_left merge_slot l acc) b = wants l b || wants acc b.
Proof.
  revert acc. induction l as [|s l IH]; intros acc; [done|]. cbn [fold_left].
  destruct (IH (merge_slot acc s)) as [-> ->]. destruct (merge_slot_spec acc s b) as [-> ->].
  unfold has, wants. cbn. rewrite !orb_false_r.
  split; rewrite orb_assoc; f_equal; apply orb_comm.
Qed.

Lemma merge_fold_sorted l acc :
  StronglySorted Z.le (bucket <$> l) -> StronglySorted Z.gt (bucket <$> acc) ->
  (forall a s, a ∈ acc -> s ∈ l -> bucket a <= bucket s) ->
  StronglySorted Z.gt (bucket <$> fold_left merge_slot l acc).
Proof.
  revert acc. induction l as [|s l IH]; intros acc Hl Hacc Hle; [done|]. cbn [fold_left].
  rewrite fmap_cons in Hl. apply StronglySorted_inv in Hl as [Hl Hs].
  rewrite Forall_fmap, Forall_forall in Hs. apply IH; [done|..].
  - destruct acc as [|a acc]; [by repeat constructor|]. cbn [merge_slot].
    pose proof (Hle a s ltac:(left) ltac:(left)).
    destruct (Z.eqb_spec (bucket a) (bucket s)) as [E|Hne]; [done|].
    rewrite (fmap_cons bucket s). constructor; [done|]. rewrite Forall_fmap, Forall_forall.
    intros x Hx. rewrite fmap_cons in Hacc. apply StronglySorted_inv in Hacc as [_ Ha].
    rewrite Forall_fmap, Forall_forall in Ha. apply elem_of_cons in Hx as [->|Hx]; cbn; [lia|].
    pose proof (Ha x Hx) as Hax. cbn in Hax. lia.
  - assert (Hmem : forall a, a ∈ merge_slot acc s -> bucket a = bucket s \/ exists a', a' ∈ acc /\ bucket a = bucket a').
    { intros a. destruct acc as [|c acc]; cbn [merge_slot].
      - intros ->%list_elem_of_singleton. auto.
      - destruct (Z.eqb_spec (bucket c) (bucket s)); intros [->|Ha]%elem_of_cons; cbn;
          eauto using list_elem_of_here, list_elem_of_further. }
    intros a x Ha Hx. destruct (Hmem a Ha) as [->|(a' & Ha' & ->)]; [by apply Hs|].
    apply Hle; [done|by right].
Qed.

Lemma strongly_sorted_rev (l : list Z) : StronglySorted Z.gt l -> StronglySorted Z.lt (rev l).
Proof.
  induction 1 as [|x l Hl IH Hx]; cbn; [constructor|].
  apply StronglySorted_app_2; [|done|by repeat constructor].
  intros y z Hy ->%list_elem_of_singleton. rewrite Forall_forall in Hx.
  assert (Hy' : y ∈ l) by (by rewrite list_elem_of_In, <- in_rev, <- list_elem_of_In in Hy).
  pose proof (Hx y Hy'). lia.
Qed.

Lemma merge_slots_sorted l :
  StronglySorted Z.le (bucket <$> l) -> StronglySorted Z.lt (bucket <$> merge_slots l).
Proof.
  intros Hl. unfold merge_slots. change (fmap (M := list) bucket) with (map bucket).
  rewrite map_rev. apply strongly_sorted_rev, merge_fold_sorted; [done|constructor|]. intros a s Ha. by apply not_elem_of_nil in Ha.
Qed.

Lemma existsb_rev {A} (p : A -> bool) l : existsb p (rev l) = existsb p l.
Proof.
  induction l as [|x l IH]; [done|]. cbn. rewrite existsb_app, IH. cbn. rewrite orb_false_r. apply orb_comm.
Qed.

Lemma merge_slots_spec l b :
  has (merge_slots l) b = has l b /\ wants (merge_slots l) b = wants l b.
Proof.
  unfold merge_slots. destruct (merge_fold_spec l [] b) as [H1 H2].
  unfold has, wants in *. rewrite !existsb_rev, H1, H2. cbn. by rewrite !orb_false_r.
Qed.

Lemma has_spec l b : has l b = true <-> exists s, s ∈ l /\ bucket s = b.
Proof.
  unfold has. rewrite existsb_exists. setoid_rewrite Z.eqb_eq. setoid_rewrite list_elem_of_In. done.
Qed.

Lemma wants_spec l b : wants l b = true <-> exists s, s ∈ l /\ bucket s = b /\ exclusive s = true.
Proof.
  unfold wants. rewrite existsb_exists. setoid_rewrite andb_true_iff. setoid_rewrite Z.eqb_eq.
  setoid_rewrite list_elem_of_In. done.
Qed.

Lemma sorted_unique l s s' :
  StronglySorted Z.lt (bucket <$> l) -> s ∈ l -> s' ∈ l -> bucket s = bucket s' -> s = s'.
Proof.
  induction l as [|x l IH]; intros Hl Hs Hs' E; [by apply not_elem_of_nil in Hs|].
  rewrite fmap_cons in Hl. apply StronglySorted_inv in Hl as [Hl Hx].
  rewrite Forall_fmap, Forall_forall in Hx.
  apply elem_of_cons in Hs as [->|Hs], Hs' as [->|Hs']; auto.
  - pose proof (Hx s' Hs'). cbn in *. lia.
  - pose proof (Hx s Hs). cbn in *. lia.
Qed.

(** ** The plan *)

(** Every key of [ks] has its bucket in [h], at least as strong as it asks for. *)
Definition covers (ix : HashIndex) (h : list LockPlanSlot) (ks : list TxnKeyEntry) : Prop :=
  forall e, e ∈ ks -> exists s, s ∈ h /\ bucket s = bucket_of ix e /\
    (lock_type e = Exclusive -> exclusive s = true).

(** The merged slots of a list of keys, sorted by their bucket. *)
Definition merged_of (ix : HashIndex) (ks : list TxnKeyEntry) (plan : list LockPlanSlot) : Prop :=
  StronglySorted Z.lt (bucket <$> plan) /\
  (forall b, b ∈ bucket <$> plan <-> b ∈ bucket_of ix <$> ks) /\
  (forall s, s ∈ plan -> exclusive s = true <->
     exists e, e ∈ ks /\ bucket_of ix e = bucket s /\ lock_type e = Exclusive).

Lemma is_exclusive_eq t : is_exclusive t = true <-> t = Exclusive.
Proof. by destruct t. Qed.

Lemma merged_slots ix ks l :
  l ≡ₚ map (slot_of ix) ks -> StronglySorted Z.le (bucket <$> l) -> merged_of ix ks (merge_slots l).
Proof.
  intros Hp Hs. pose proof (merge_slots_sorted l Hs) as Hm. split; [done|].
  assert (Hl : forall s, s ∈ l <-> exists e, s = slot_of ix e /\ e ∈ ks).
  { intros s. rewrite Hp, list_elem_of_In, in_map_iff. setoid_rewrite <- list_elem_of_In.
    split; intros (e & ? & ?); eauto. }
  split.
  - intros b. rewrite !list_elem_of_fmap. split.
    + intros (s & -> & Hin). assert (Hh : has (merge_slots l) (bucket s) = true) by (apply has_spec; eauto).
      rewrite (proj1 (merge_slots_spec l _)) in Hh. apply has_spec in Hh as (s' & Hs' & <-).
      apply Hl in Hs' as (e & -> & He). by exists e.
    + intros (e & -> & He). assert (Hh : has l (bucket_of ix e) = true).
      { apply has_spec. exists (slot_of ix e). rewrite Hl. eauto. }
      rewrite <- (proj1 (merge_slots_spec l _)) in Hh. apply has_spec in Hh as (s' & Hs' & <-). by exists s'.
  - intros s Hin. transitivity (wants (merge_slots l) (bucket s) = true).
    + rewrite wants_spec. split; [eauto|]. intros (s' & Hs' & E & Hex).
      by rewrite (sorted_unique _ s s' Hm Hin Hs' (eq_sym E)).
    + rewrite (proj2 (merge_slots_spec l _)), wants_spec. setoid_rewrite Hl. split.
      * intros (s' & (e & -> & He) & E & Hex). exists e. cbn in *. by rewrite is_exclusive_eq in Hex.
      * intros (e & He & E & Hex). exists (slot_of ix e). cbn. rewrite is_exclusive_eq. eauto.
Qed.

Lemma lock_plan_merged ix ks :
  (lock_plan ix ks).1 ≡ₚ ks /\ merged_of ix ks (lock_plan ix ks).2.
Proof.
  unfold lock_plan. destruct ks as [|e ks].
  { split; [done|]. split; [constructor|]. split; [done|]. intros s Hs. by apply not_elem_of_nil in Hs. }
  set (l := e :: ks). cbn [fst snd]. split; [apply sort_by_perm|]. apply merged_slots.
  - by rewrite (sort_by_perm (compare ix) l).
  - change (map (slot_of ix)) with (fmap (M := list) (slot_of ix)). rewrite <- list_fmap_compose.
    apply (sort_by_sorted (compare ix) (bucket ∘ slot_of ix)); intros a b; apply (compare_bucket ix a b).
Qed.

Lemma merged_covers ix ks plan : merged_of ix ks plan -> covers ix plan ks.
Proof.
  intros (_ & Hb & Hex) e He.
  assert (Hin : bucket_of ix e ∈ bucket <$> plan) by (apply Hb, list_elem_of_fmap; eauto).
  apply list_elem_of_fmap in Hin as (s & E & Hs). exists s. split; [done|]. split; [done|].
  intros Hl. apply Hex; eauto.
Qed.

(** The plan of [TxnKeyEntries::lock_plan] is a correct lock plan for the keys.
    The keys are only reordered; the plan names every bucket that a key falls
    into and no other, each once and in strictly ascending order (so that
    transactions on the same table take their latches in one global order), and
    a bucket is to be taken exclusively exactly when some key of it asks for
    an exclusive lock. *)
Theorem lock_plan_correct ix ks ks' plan :
  lock_plan ix ks = (ks', plan) ->
  ks' ≡ₚ ks /\ StronglySorted Z.lt (bucket <$> plan) /\
  (forall b, b ∈ bucket <$> plan <-> b ∈ bucket_of ix <$> ks) /\
  (forall s, s ∈ plan -> exclusive s = true <->
     exists e, e ∈ ks /\ bucket_of ix e = bucket s /\ lock_type e = Exclusive).
Proof.
  intros E. destruct (lock_plan_merged ix ks) as [H1 H2]. rewrite E in H1, H2. by split.
Qed.

(** Four keys in three buckets of a table of eight. *)
Lemma lock_plan_correct_witness :
  let ks := [mkEntry 13 0 Shared; mkEntry 2 0 Shared; mkEntry (-3) 0 Exclusive; mkEntry 7 0 Shared] in
  let ix := mkIndex 8 7 in
  (lock_plan ix ks).2 = [mkSlot 2 false; mkSlot 5 true; mkSlot 7 false] /\
  StronglySorted Z.lt (bucket <$> (lock_plan ix ks).2).
Proof.
  intros ks ix. split; [vm_compute; reflexivity|].
  exact (proj1 (proj2 (lock_plan_correct ix ks _ _ (surjective_pairing _)))).
Defined.

End Plan.
