(* ===== verification/TxnLatch.v ===== *)
(** * The latches of many buckets

    [Latch] verifies the latch of one bucket; a transaction holds the latches of
    several buckets of several tables.  Here the ghost state of a thread is a
    latch state for every bucket and a count of barrier registrations for every
    engine; programs on one bucket keep their triples ([wp_at]), and the methods
    of [TxnKeyEntries] are proved against them. *)

From stdpp Require Import base list numbers option tactics relations sorting.
From Stdlib Require Import ZArith Lia Bool.
From S2P Require Import Prelude Atomic Bucket Latch Index Resize Txn TxnPlan.
Local Open Scope prog_scope.

Module Latches.
Import Index Resize Txn Txn.LockTable Txn.KeyEntries.

#[local] Existing Instance Latch.lloc_eq_dec.

Abbreviation bkey := (Z * Z * bref)%type.

(** ** Ghost state and invariant *)

Record ghost : Type := mkGhost { latches : bkey -> Latch.ghost; tickets : Z -> Z }.

Definition fupd {K V} `{EqDecision K} (f : K -> V) (k : K) (v : V) (k' : K) : V :=
  if decide (k = k') then v else f k'.

Lemma fupd_eq {K V} `{EqDecision K} (f : K -> V) k v : fupd f k v k = v.
Proof. unfold fupd. by rewrite decide_True. Qed.
Lemma fupd_ne {K V} `{EqDecision K} (f : K -> V) k k' v : k <> k' -> fupd f k v k' = f k'.
Proof. intros. unfold fupd. by rewrite decide_False. Qed.

Definition view (k : bkey) (m : mem tloc) : mem Latch.lloc := fun l => m (at_bucket k l).

Record Inv (m : mem tloc) (gs : list ghost) : Prop := {
  inv_latch : forall k, Latch.Inv (view k m) ((fun g => latches g k) <$> gs);
  inv_tickets : forall e, m (Engine e ActiveTxns) = wrap 64 (zsum (fun g => tickets g e) gs)
}.

Abbreviation wpt := (wp Inv).

Lemma at_bucket_inj k k' l l' : at_bucket k l = at_bucket k' l' -> k = k' /\ l = l'.
Proof. destruct k as [[??]?], k' as [[??]?], l, l'; cbn; intros; by simplify_eq. Qed.

Lemma view_upd_eq k m l v l' : view k (upd m (at_bucket k l) v) l' = upd (view k m) l v l'.
Proof.
  unfold view, upd. do 2 case_decide; try done; [|by subst].
  by destruct (at_bucket_inj _ _ _ _ H) as [_ ?].
Qed.

Lemma view_upd_ne k k' m l v l' : k <> k' -> view k' (upd m (at_bucket k l) v) l' = view k' m l'.
Proof. intros Hne. apply (upd_ne m). intros E. by destruct (at_bucket_inj _ _ _ _ E). Qed.

(** One action on bucket [k] moves the ghost of the thread there only. *)
Lemma inv_at m m' gs i G k h :
  Inv m gs -> gs !! i = Some G ->
  (forall k' l, k <> k' -> view k' m' l = view k' m l) ->
  (forall e, m' (Engine e ActiveTxns) = m (Engine e ActiveTxns)) ->
  Latch.Inv (view k m') (<[i := h]> ((fun g => latches g k) <$> gs)) ->
  Inv m' (<[i := mkGhost (fupd (latches G) k h) (tickets G)]> gs).
Proof.
  intros [I1 I2] Hi Hv Ht Hk. constructor.
  - intros k'. rewrite list_fmap_insert. cbn [latches]. destruct (decide (k = k')) as [<-|Hne].
    + by rewrite fupd_eq.
    + rewrite fupd_ne, list_insert_id by (rewrite ?list_lookup_fmap, ?Hi; done).
      eapply Latch.Inv_ext; [|apply I1]. intros l. by rewrite Hv.
  - intros e. rewrite Ht, I2, (zsum_insert _ _ _ _ _ Hi). cbn [tickets]. f_equal. lia.
Qed.

(** A step of a program on bucket [k]. *)
Lemma inv_at_upd m gs i G k l v h :
  Inv m gs -> gs !! i = Some G ->
  Latch.Inv (upd (view k m) l v) (<[i := h]> ((fun g => latches g k) <$> gs)) ->
  Inv (upd m (at_bucket k l) v) (<[i := mkGhost (fupd (latches G) k h) (tickets G)]> gs).
Proof.
  intros HI Hi Hk. eapply inv_at; [done..| | |].
  - intros. by apply view_upd_ne.
  - intros e. apply upd_ne. by destruct l.
  - eapply Latch.Inv_ext; [|exact Hk]. intros l'. by rewrite view_upd_eq.
Qed.

(** ** Programs on one bucket *)

(** The ghost [H] is [G] with [h] at [k]. *)
Definition moved (G : ghost) (k : bkey) (h : Latch.ghost) (H : ghost) : Prop :=
  (forall k', latches H k' = fupd (latches G) k h k') /\ (forall e, tickets H e = tickets G e).

Lemma moved_moved G k h h' H :
  moved (mkGhost (fupd (latches G) k h) (tickets G)) k h' H -> moved G k h' H.
Proof.
  intros [H1 H2]. split; [|done]. intros k'. rewrite H1. cbn [latches]. unfold fupd. by case_decide.
Qed.

Lemma wp_at {A} k (p : prog Latch.lloc A) G Q :
  wp Latch.Inv p (latches G k) Q ->
  wpt (relocate (at_bucket k) p) G (fun a H => exists h, Q a h /\ moved G k h H).
Proof.
  revert G. induction p as [a|l c IH|l v c IH|w l old new c IH|l f c IH]; intros G Hp; cbn [relocate wp] in *.
  { exists (latches G k). split; [done|]. split; [|done]. intros k'. unfold fupd. by case_decide; subst. }
  all: intros m gs i HI Hi; specialize (Hp (view k m) _ i (inv_latch _ _ HI k)
         ltac:(by rewrite list_lookup_fmap, Hi)); unfold guar in *.
  all: assert (Hnext : forall h B (q : prog _ B) R, wpt q (mkGhost (fupd (latches G) k h) (tickets G))
         (fun a H => exists h', R a h' /\ moved (mkGhost (fupd (latches G) k h) (tickets G)) k h' H) ->
         wpt q (mkGhost (fupd (latches G) k h) (tickets G)) (fun a H => exists h', R a h' /\ moved G k h' H))
    by (intros h B q R; apply wp_mono; intros a H (h' & ? & Hm); eauto using moved_moved).
  - destruct Hp as (h & Hg & Hp). exists (mkGhost (fupd (latches G) k h) (tickets G)). split.
    + by eapply inv_at.
    + apply Hnext, IH. cbn [latches]. by rewrite fupd_eq.
  - destruct Hp as (h & Hg & Hp). exists (mkGhost (fupd (latches G) k h) (tickets G)). split.
    + by apply inv_at_upd.
    + apply Hnext, IH. cbn [latches]. by rewrite fupd_eq.
  - destruct Hp as [Hok Hfail]. split.
    + intros E. destruct (Hok E) as (h & Hg & Hp). eexists (mkGhost (fupd (latches G) k h) (tickets G)). split.
      * by apply inv_at_upd.
      * apply Hnext, IH. cbn [latches]. by rewrite fupd_eq.
    + intros E. destruct (Hfail E) as (h & Hg & Hp). exists (mkGhost (fupd (latches G) k h) (tickets G)). split.
      * by eapply inv_at.
      * apply Hnext, IH. cbn [latches]. by rewrite fupd_eq.
  - destruct Hp as (h & Hg & Hp). exists (mkGhost (fupd (latches G) k h) (tickets G)). split.
    + by apply inv_at_upd.
    + apply Hnext, IH. cbn [latches]. by rewrite fupd_eq.
Qed.

(** Cells that are no latch word, no mark and no counter of transactions. *)
Definition Free (l : tloc) : Prop :=
  match l with
  | Engine _ (TableCell _ (Slot _ i)) => i <> Bucket.OVERFLOW_INDEX
  | Engine _ ActiveTxns | Inside _ _ => False
  | _ => True
  end.

Lemma inv_free m gs l v : Inv m gs -> Free l -> Inv (upd m l v) gs.
Proof.
  intros [I1 I2] Hl. constructor.
  - intros k. destruct (I1 k) as [J1 J2 J3 J4 J5].
    assert (Ew : Latch.word (view k (upd m l v)) = Latch.word (view k m)).
    { unfold Latch.word, view. apply upd_ne. intros ->. by destruct k as [[]]. }
    assert (Ef : forall t, view k (upd m l v) (Latch.Flag t) = view k m (Latch.Flag t)).
    { intros t. apply (upd_ne m). by intros ->. }
    constructor; rewrite ?Ew; try done. intros i g Hi. rewrite Ef. by apply J5.
  - intros e. rewrite upd_ne; [done|]. by intros ->.
Qed.

Lemma wp_free {A} (p : prog tloc A) G : writes Free p -> wpt p G (fun _ H => H = G).
Proof. apply wp_frame. intros. by apply inv_free. Qed.

(** ** What a thread owns *)

(** Thread [t] is in latch state [f k] at every bucket [k], with no mark raised,
    and registered [n e] times with engine [e]. *)
Definition owns (t : nat) (f : bkey -> Latch.lstate) (n : Z -> Z) (G : ghost) : Prop :=
  (forall k, latches G k = Latch.mkGhost t (f k) 0) /\ (forall e, tickets G e = n e).

Lemma owns_ext t f f' n n' G :
  owns t f n G -> (forall k, f k = f' k) -> (forall e, n e = n' e) -> owns t f' n' G.
Proof. intros [H1 H2] Hf Hn. split; intros; by rewrite <- ?Hf, <- ?Hn. Qed.

(** Triples of fallible programs: nothing is said where they do not return. *)
Definition wpo {A} (p : tprog A) (G : ghost) (Q : A -> ghost -> Prop) : Prop :=
  wpt p G (fun r H => match r with Done a => Q a H | _ => True end).

Lemma wpo_bind {A B} (p : tprog A) (f : A -> tprog B) G Q :
  wpo p G (fun a H => wpo (f a) H Q) -> wpo (obind p f) G Q.
Proof. intros Hp. apply wp_bind. eapply wp_mono; [|exact Hp]. by intros [] H. Qed.

Lemma wpo_mono {A} (p : tprog A) G (Q R : A -> ghost -> Prop) :
  (forall a h, Q a h -> R a h) -> wpo p G Q -> wpo p G R.
Proof. intros HQR. apply wp_mono. intros [] H; auto. Qed.

Lemma wpo_lift {A} (p : prog tloc A) G Q : wpt p G Q -> wpo (lift p) G Q.
Proof. intros Hp. apply wp_bind. exact Hp. Qed.

Lemma wpo_let {A B} (p : prog tloc A) (f : A -> tprog B) G Q :
  wpt p G (fun a H => wpo (f a) H Q) -> wpo (let* a := p in f a) G Q.
Proof. apply wp_bind. Qed.

(** ** One slot *)

Definition slot_key (ix : PinnedIndex) (s : LockPlanSlot) : bkey := bucket_cells ix (bucket s).
Definition slot_state (s : LockPlanSlot) : Latch.lstate :=
  if exclusive s then Latch.Excl else Latch.Shared.

Lemma owns_moved t f n G k st H :
  owns t f n G -> moved G k (Latch.mkGhost t st 0) H -> owns t (fupd f k st) n H.
Proof.
  intros [H1 H2] [M1 M2]. split.
  - intros k'. rewrite M1. unfold fupd. by case_decide.
  - intros e. by rewrite M2.
Qed.

Lemma wp_try_shared t f n G ix b :
  owns t f n G -> f (bucket_cells ix b) = Latch.Idle ->
  wpt (try_lock_shared ix b) G (fun ok H =>
    owns t (if (ok : bool) then fupd f (bucket_cells ix b) Latch.Shared else f) n H).
Proof.
  intros Ho Hf. eapply wp_mono; [|apply wp_at].
  2: { rewrite (proj1 Ho), Hf. apply Latch.wp_lock_shared. }
  intros ok H (h & -> & Hm). pose proof (owns_moved _ _ _ _ _ _ _ Ho Hm) as Hn. destruct ok; [done|].
  eapply owns_ext; [exact Hn| |done]. intros k. unfold fupd. case_decide; congruence.
Qed.

Lemma wp_bucket_unlock_shared t f n G ix b :
  owns t f n G -> f (bucket_cells ix b) = Latch.Shared ->
  wpt (unlock_shared ix b) G (fun _ H => owns t (fupd f (bucket_cells ix b) Latch.Idle) n H).
Proof.
  intros Ho Hf. eapply wp_mono; [|apply wp_at].
  2: { rewrite (proj1 Ho), Hf. apply Latch.wp_unlock_shared. }
  intros ok H (h & -> & Hm). by eapply owns_moved.
Qed.

Lemma wp_bucket_unlock_exclusive t f n G ix b :
  owns t f n G -> f (bucket_cells ix b) = Latch.Excl ->
  wpt (unlock_exclusive ix b) G (fun _ H => owns t (fupd f (bucket_cells ix b) Latch.Idle) n H).
Proof.
  intros Ho Hf. eapply wp_mono; [|apply wp_at].
  2: { rewrite (proj1 Ho), Hf. apply Latch.wp_unlock_exclusive. }
  intros ok H (h & -> & Hm). by eapply owns_moved.
Qed.

Lemma wp_take_slot t f n G fuel ix s :
  owns t f n G -> f (slot_key ix s) = Latch.Idle ->
  wpo (take_slot fuel ix s) G (fun ok H =>
    owns t (if (ok : bool) then fupd f (slot_key ix s) (slot_state s) else f) n H).
Proof.
  intros Ho Hf. unfold take_slot, slot_state. destruct (exclusive s).
  - apply wpo_let. eapply wp_mono; [|apply wp_at].
    2: { unfold slot_key in Hf. rewrite (proj1 Ho), Hf. apply Latch.wp_try_lock_exclusive. }
    intros r H (h & -> & Hm). pose proof (owns_moved _ _ _ _ _ _ _ Ho Hm) as Hn.
    destruct r as [[]|]; [exact Hn| |done]. eapply owns_ext; [exact Hn| |done].
    intros k. cbn [Latch.after_excl]. unfold fupd, slot_key in *. case_decide; congruence.
  - apply wpo_lift. by apply wp_try_shared.
Qed.

Lemma wp_drop_slot t f n G ix s :
  owns t f n G -> f (slot_key ix s) = slot_state s ->
  wpt (drop_slot ix s) G (fun _ H => owns t (fupd f (slot_key ix s) Latch.Idle) n H).
Proof.
  intros Ho Hf. unfold drop_slot, slot_state in *.
  destruct (exclusive s); [by apply wp_bucket_unlock_exclusive|by apply wp_bucket_unlock_shared].
Qed.

End Latches.
