(* ===== verification/TxnEntries.v ===== *)
(** * The latches a transaction records are the latches it has

    The methods of [TxnKeyEntries] ([wedb/wtxn/src/txn_key_entry.rs]) under any
    interleaving: [held] is exactly the set of latches the thread owns after
    every method, through contention, roll back, upgrade and lost buckets. *)

From stdpp Require Import base list numbers option tactics relations sorting.
From Stdlib Require Import ZArith Lia Bool.
From S2P Require Import Prelude Atomic Bucket Latch Index Resize Txn TxnPlan TxnLatch.
Local Open Scope prog_scope.

Module Entries.
Import Index Resize Txn Txn.LockTable Txn.KeyEntries Plan Latches.

(** ** Holding a list of slots *)

Fixpoint holding (ix : PinnedIndex) (h : list LockPlanSlot) (k : bkey) : Latch.lstate :=
  match h with
  | [] => Latch.Idle
  | s :: h' => fupd (holding ix h') (slot_key ix s) (slot_state s) k
  end.

Definition normal (ix : PinnedIndex) (b : Z) : Prop := Z.land b (mask (table (index ix))) = b.

(** Ascending bucket numbers of the table. *)
Definition wf (ix : PinnedIndex) (h : list LockPlanSlot) : Prop :=
  StronglySorted Z.lt (bucket <$> h) /\ Forall (fun s => normal ix (bucket s)) h.

Lemma bucket_cells_inj ix b b' :
  normal ix b -> normal ix b' -> bucket_cells ix b = bucket_cells ix b' -> b = b'.
Proof. unfold normal, bucket_cells, get_bucket. intros E1 E2 E. simplify_eq. congruence. Qed.

Lemma sorted_nodup (l : list Z) : StronglySorted Z.lt l -> NoDup l.
Proof.
  induction 1 as [|x l _ IH Hx]; constructor; [|done]. intros Hin.
  rewrite Forall_forall in Hx. pose proof (Hx x Hin). lia.
Qed.

Definition distinct (ix : PinnedIndex) (h : list LockPlanSlot) : Prop := NoDup (slot_key ix <$> h).

Lemma wf_distinct ix h : wf ix h -> distinct ix h.
Proof.
  intros [Hs Hn]. apply sorted_nodup in Hs. unfold distinct.
  induction h as [|s h IH]; [constructor|]. rewrite fmap_cons in *.
  apply NoDup_cons in Hs as [Hs Hh]. apply Forall_cons in Hn as [Hn Hnh].
  constructor; [|by apply IH]. intros Hin. apply Hs.
  apply list_elem_of_fmap in Hin as (s' & E & Hs'). apply list_elem_of_fmap. exists s'. split; [|done].
  rewrite Forall_forall in Hnh. eapply bucket_cells_inj; [done|by apply Hnh|done].
Qed.

Lemma holding_notin ix h k : k ∉ slot_key ix <$> h -> holding ix h k = Latch.Idle.
Proof.
  induction h as [|s h IH]; [done|]. rewrite fmap_cons, not_elem_of_cons. intros [Hk Hh].
  cbn [holding]. rewrite fupd_ne by congruence. auto.
Qed.

Lemma holding_perm ix h h' k : h ≡ₚ h' -> distinct ix h -> holding ix h k = holding ix h' k.
Proof.
  unfold distinct. induction 1 as [|s h h' Hp IH|s s' h|h1 h2 h3 H12 IH1 H23 IH2];
    rewrite ?fmap_cons, ?NoDup_cons; intros Hd; cbn [holding].
  - done.
  - destruct Hd as [_ Hd]. unfold fupd. case_decide; auto.
  - destruct Hd as [Hd _]. rewrite not_elem_of_cons in Hd. destruct Hd as [Hd _].
    unfold fupd. by repeat case_decide; try congruence.
  - rewrite IH1 by done. apply IH2. by rewrite <- H12.
Qed.

Lemma holding_in ix h s : distinct ix h -> s ∈ h -> holding ix h (slot_key ix s) = slot_state s.
Proof.
  unfold distinct. induction h as [|x h IH]; intros Hd Hs; [by apply not_elem_of_nil in Hs|].
  rewrite fmap_cons, NoDup_cons in Hd. destruct Hd as [Hx Hd]. cbn [holding].
  apply elem_of_cons in Hs as [->|Hs]; [by rewrite fupd_eq|]. rewrite fupd_ne; [by apply IH|].
  intros E. apply Hx. rewrite E. apply list_elem_of_fmap. eauto.
Qed.

Lemma holding_snoc ix h s k :
  distinct ix (h ++ [s]) -> holding ix (h ++ [s]) k = fupd (holding ix h) (slot_key ix s) (slot_state s) k.
Proof. intros Hd. by rewrite (holding_perm ix (h ++ [s]) (s :: h)) by (try done; apply Permutation_app_comm). Qed.

Lemma distinct_snoc ix h s : distinct ix (h ++ [s]) -> slot_key ix s ∉ slot_key ix <$> h.
Proof.
  unfold distinct. rewrite fmap_app, NoDup_app. intros (_ & Hd & _) Hin. by eapply Hd, list_elem_of_here.
Qed.

Lemma distinct_app_l ix h h' : distinct ix (h ++ h') -> distinct ix h.
Proof. unfold distinct. rewrite fmap_app, NoDup_app. by intros []. Qed.

(** ** Releasing and acquiring *)

Lemma wp_drop_slots t n ix l f G :
  owns t f n G -> distinct ix l -> (forall k, f k = holding ix l k) ->
  wpt (drop_slots ix l) G (fun _ H => owns t (fun _ => Latch.Idle) n H).
Proof.
  revert f G. induction l as [|s l IH]; intros f G Ho Hd Hf; cbn [drop_slots].
  { by eapply owns_ext. }
  apply wp_bind. eapply wp_mono; [|apply wp_drop_slot; [exact Ho|]].
  2: { rewrite Hf. cbn [holding]. apply fupd_eq. }
  intros ? H HH. unfold distinct in Hd. rewrite fmap_cons, NoDup_cons in Hd. destruct Hd as [Hs Hd].
  eapply IH; [exact HH|done|]. intros k. unfold fupd. case_decide as E.
  - subst k. by rewrite holding_notin.
  - rewrite Hf. cbn [holding]. by rewrite fupd_ne.
Qed.

Lemma wp_release_held t n s ix f G :
  owns t f n G -> latch s = Some ix -> distinct ix (held s) -> (forall k, f k = holding ix (held s) k) ->
  wpt (release_held s) G (fun s' H => s' = with_held s [] /\ owns t (fun _ => Latch.Idle) n H).
Proof.
  intros Ho El Hd Hf. unfold release_held. rewrite El. apply wp_bind.
  assert (Hp : rev (held s) ≡ₚ held s) by (symmetry; apply Permutation_rev).
  eapply wp_mono; [|eapply (wp_drop_slots t n ix (rev (held s))); [exact Ho|..]].
  - intros ? H HH. by split.
  - unfold distinct. by rewrite Hp.
  - intros k. rewrite Hf. by apply holding_perm.
Qed.

Lemma wp_acquire_loop t n fuel ix slots s f G :
  owns t f n G -> latch s = Some ix -> distinct ix (held s ++ slots) ->
  (forall k, f k = holding ix (held s) k) ->
  wpo (acquire_loop fuel ix slots s) G (fun '(ok, s') H =>
    s' = with_held s (if (ok : bool) then held s ++ slots else []) /\
    owns t (if (ok : bool) then holding ix (held s ++ slots) else fun _ => Latch.Idle) n H).
Proof.
  revert s f G. induction slots as [|x slots IH]; intros s f G Ho El Hd Hf; cbn [acquire_loop].
  { cbn. rewrite app_nil_r. split; [by destruct s|by eapply owns_ext]. }
  assert (Hdx : distinct ix (held s ++ [x])).
  { eapply (distinct_app_l ix _ slots). by rewrite <- app_assoc. }
  apply wpo_bind. eapply wpo_mono; [|apply wp_take_slot; [exact Ho|]].
  2: { rewrite Hf. by apply holding_notin, distinct_snoc. }
  intros [] H HH; cbn iota.
  - eapply wpo_mono; [|eapply (IH (with_held s (held s ++ [x]))); [exact HH|done|..]].
    + intros [ok s'] H'. cbn [with_held held]. by rewrite <- app_assoc.
    + cbn [with_held held]. by rewrite <- app_assoc.
    + intros k. cbn [with_held held]. rewrite holding_snoc by done.
      unfold fupd. by case_decide.
  - apply wpo_let. eapply wp_mono; [|eapply wp_release_held; [exact HH|done|by eapply distinct_app_l|done]].
    intros s' H' [-> HH']. by split.
Qed.

(** ** The invariant of [TxnKeyEntries] *)

Record entries_ok (s : TxnKeyEntries) (f : bkey -> Latch.lstate) : Prop := {
  eo_hold : forall k, f k = match latch s with Some ix => holding ix (held s) k | None => Latch.Idle end;
  eo_wf : match latch s with Some ix => wf ix (held s) | None => held s = [] end;
  eo_locked : held s <> [] -> unified_store_key_locked s = true;
  eo_plan : match plan s with
            | None => True
            | Some [] => keys s = []
            | Some p => exists ix, latch s = Some ix /\ wf ix p /\ covers (table (index ix)) p (keys s)
            end
}.

(** The latches held cover the keys [ks]. *)
Definition covered (s : TxnKeyEntries) (ks : list TxnKeyEntry) : Prop :=
  forall e, e ∈ ks -> exists ix, latch s = Some ix /\ covers (table (index ix)) (held s) [e].

Lemma covers_one ix h ks e : covers ix h ks -> e ∈ ks -> covers ix h [e].
Proof. intros Hc He e' ->%list_elem_of_singleton. by apply Hc. Qed.

Lemma entries_ok_empty s f :
  entries_ok s f -> held s = [] -> forall k, f k = Latch.Idle.
Proof. intros Ho Eh k. rewrite (eo_hold _ _ Ho). destruct (latch s); [by rewrite Eh|done]. Qed.

Lemma new_entries_ok tbl : entries_ok (new tbl) (fun _ => Latch.Idle).
Proof. by constructor. Qed.

Lemma bucket_of_normal ix e : normal ix (bucket_of (table (index ix)) e).
Proof.
  unfold normal, bucket_of, bucket_index_for_hash. by rewrite <- Z.land_assoc, Z.land_diag.
Qed.

Lemma merged_wf ix ks plan : merged_of (table (index ix)) ks plan -> wf ix plan.
Proof.
  intros (Hs & Hb & _). split; [done|]. apply Forall_forall. intros s Hin.
  assert (He : bucket s ∈ bucket_of (table (index ix)) <$> ks) by (apply Hb, list_elem_of_fmap; eauto).
  apply list_elem_of_fmap in He as (e & -> & _). apply bucket_of_normal.
Qed.

Section Triples.
Context (t : nat) (n : Z -> Z) (fuel : nat) (tbl : TxnLockTable).

(** Loading the table writes nothing the latches depend on. *)
Hypothesis pin_free : writes Free (pin tbl).

Lemma wp_pin G : wpt (pin tbl) G (fun _ H => H = G).
Proof. by apply wp_free. Qed.

Lemma lock_plan_nonempty ix ks : (lock_plan ix ks).2 = [] -> ks = [].
Proof.
  intros E. destruct (lock_plan_merged ix ks) as [_ (_ & Hb & _)]. rewrite E in Hb.
  destruct ks as [|e ks]; [done|].
  exfalso. apply (not_elem_of_nil (bucket_of ix e)), Hb. left.
Qed.

Lemma wp_ensure_plan s f G :
  owns t f n G -> entries_ok s f -> lock_table s = tbl -> held s = [] ->
  wpt (ensure_plan s) G (fun s' H => owns t f n H /\ entries_ok s' f /\ lock_table s' = tbl /\
    held s' = [] /\ keys s' ≡ₚ keys s /\ plan s' <> None).
Proof.
  intros Ho He Et Eh. pose proof (entries_ok_empty _ _ He Eh) as Hidle.
  unfold ensure_plan. destruct (plan s) as [p|] eqn:Ep.
  { cbn. do 3 (split; [done|]). split; [done|]. split; [done|]. by rewrite Ep. }
  rewrite Et. apply wp_bind. eapply wp_mono; [|apply wp_pin]. intros ix H ->.
  destruct (lock_plan_merged (table (index ix)) (keys s)) as [Hp Hm].
  pose proof (lock_plan_nonempty (table (index ix)) (keys s)) as Hne.
  destruct (lock_plan (table (index ix)) (keys s)) as [ks p]. cbn [fst snd] in *.
  assert (Hc : covers (table (index ix)) p ks).
  { intros e Hin. apply (merged_covers _ _ _ Hm). by rewrite <- Hp. }
  cbn. destruct p as [|x p]; cbn; (split; [done|]); (split; [constructor; cbn|done]).
  - intros k. by rewrite <- (eo_hold _ _ He).
  - apply (eo_wf _ _ He).
  - apply (eo_locked _ _ He).
  - rewrite (Hne eq_refl) in Hp. by apply Permutation_nil_r in Hp.
  - intros k. by rewrite Hidle, Eh.
  - rewrite Eh. split; constructor.
  - apply (eo_locked _ _ He).
  - exists ix. split; [done|]. split; [by eapply merged_wf|done].
Qed.

(** What an attempt to lock leaves behind. *)
Definition locked_post (s : TxnKeyEntries) (ok : bool) (s' : TxnKeyEntries) (H : ghost) : Prop :=
  exists f', owns t f' n H /\ entries_ok s' f' /\ lock_table s' = tbl /\ keys s' ≡ₚ keys s /\
    (if ok then covered s' (keys s') else held s' = []).

Lemma wp_try_lock_all_keys_once s f G :
  owns t f n G -> entries_ok s f -> lock_table s = tbl -> held s = [] ->
  wpo (try_lock_all_keys_once fuel s) G (fun '(ok, s') H => locked_post s ok s' H).
Proof.
  intros Ho He Et Eh. unfold try_lock_all_keys_once. apply wpo_let.
  eapply wp_mono; [|by eapply wp_ensure_plan]. clear He Et Eh Ho.
  intros s' H (Ho & He & Et & Eh & Hk & Hp). pose proof (eo_plan _ _ He) as Hplan.
  destruct (plan s') as [[|x p]|] eqn:Ep; [|clear Hp|done].
  { cbn. exists f. do 4 (split; [done|]). rewrite Hplan. intros e Hin. by apply not_elem_of_nil in Hin. }
  destruct Hplan as (ix & El & Hw & Hc). apply wpo_bind. unfold acquire_plan. cbn [with_held latch with_plan].
  rewrite El. eapply wpo_mono; [|eapply (wp_acquire_loop t n fuel ix (x :: p)); [exact Ho|exact El|..]].
  - intros [ok s''] H' [-> Ho']. destruct ok; cbn -[holding] in *.
    + eexists. split; [exact Ho'|]. split; [|split; [done|split; [done|]]].
      * constructor; cbn -[holding]; rewrite ?El; try done. exists ix. done.
      * intros e Hin. exists ix. cbn. split; [done|]. by eapply covers_one.
    + eexists. split; [exact Ho'|]. split; [|done].
      constructor; cbn -[holding]; rewrite ?El; try done; [split; constructor|]. exists ix. done.
  - by apply wf_distinct.
  - intros k. by apply entries_ok_empty with s'.
Qed.

Lemma wp_lock_all_keys rounds s f G :
  owns t f n G -> entries_ok s f -> lock_table s = tbl -> held s = [] ->
  wpo (lock_all_keys rounds fuel s) G (fun s' H => locked_post s true s' H).
Proof.
  revert s f G. induction rounds as [|r IH]; intros s f G Ho He Et Eh; [done|]. cbn [lock_all_keys].
  apply wpo_bind. eapply wpo_mono; [|by eapply wp_try_lock_all_keys_once].
  intros [[] s'] H (f' & Ho' & He' & Et' & Hk & Hc); cbn iota.
  - exists f'. done.
  - eapply wpo_mono; [|by eapply IH]. intros s'' H' (f'' & ? & ? & ? & Hk' & ?).
    exists f''. do 3 (split; [done|]). split; [by rewrite Hk'|done].
Qed.

Lemma wp_try_lock_all_keys rounds i over s f G :
  owns t f n G -> entries_ok s f -> lock_table s = tbl -> held s = [] ->
  wpo (try_lock_all_keys rounds i fuel over s) G (fun '(ok, s') H => locked_post s ok s' H).
Proof.
  revert i s f G. induction rounds as [|r IH]; intros i s f G Ho He Et Eh; [done|].
  cbn [try_lock_all_keys]. apply wpo_bind. eapply wpo_mono; [|by eapply wp_try_lock_all_keys_once].
  intros [[] s'] H (f' & Ho' & He' & Et' & Hk & Hc); cbn iota.
  - exists f'. done.
  - destruct (over i).
    + exists f'. split; [done|]. split; [|done].
      constructor; cbn; try done. by eapply entries_ok_empty.
    + eapply wpo_mono; [|by eapply IH]. intros [ok s''] H' (f'' & ? & ? & ? & Hk' & ?).
      exists f''. do 3 (split; [done|]). split; [by rewrite Hk'|done].
Qed.

Lemma wp_unlock_all_keys s f G :
  owns t f n G -> entries_ok s f ->
  wpt (unlock_all_keys s) G (fun s' H =>
    s' = new (lock_table s) /\ owns t (fun _ => Latch.Idle) n H).
Proof.
  intros Ho He. unfold unlock_all_keys. apply wp_bind.
  destruct (unified_store_key_locked s) eqn:Eu; cbn iota.
  - pose proof (eo_wf _ _ He) as Hw. pose proof (eo_hold _ _ He) as Hf. destruct (latch s) as [ix|] eqn:El.
    + eapply wp_mono; [|eapply wp_release_held; [exact Ho|exact El|by apply wf_distinct|done]].
      by intros s' H [-> HH].
    + unfold release_held. rewrite El. cbn. split; [done|]. by eapply owns_ext.
  - cbn. split; [done|]. eapply owns_ext; [exact Ho| |done]. apply (entries_ok_empty _ _ He).
    destruct (held s) eqn:Eh; [done|]. pose proof (eo_locked _ _ He) as H. rewrite Eh in H. by rewrite H in Eu.
Qed.

End Triples.

End Entries.
