(* ===== verification/TxnUpgrade.v ===== *)
(** * Latching further buckets during a transaction

    [TxnKeyEntries::try_lock_incremental_entries] takes the buckets of new keys
    one by one and upgrades shared ones; when a step fails everything is undone
    in reverse, and a bucket whose shared latch cannot be regained is struck
    from [held].  Its triple: [held] stays what the thread owns. *)

From stdpp Require Import base list numbers option tactics relations sorting.
From Stdlib Require Import ZArith Lia Bool.
From S2P Require Import Prelude Atomic Bucket Latch Index Resize Txn TxnPlan TxnLatch TxnEntries.
Local Open Scope prog_scope.

Module Upgrades.
Import Index Resize Txn Txn.LockTable Txn.KeyEntries Plan Latches Entries.

(** ** Strength *)

(** The latch state is at least what the lock type asks for. *)
Definition strong (t : LockType) (st : Latch.lstate) : Prop :=
  match st with Latch.Excl => True | Latch.Shared => t = Shared | _ => False end.

Definition entry_key (ix : PinnedIndex) (e : TxnKeyEntry) : bkey :=
  bucket_cells ix (bucket_of (table (index ix)) e).

Lemma holding_inv ix h k : holding ix h k <> Latch.Idle ->
  exists s, s ∈ h /\ slot_key ix s = k /\ slot_state s = holding ix h k.
Proof.
  induction h as [|s h IH]; [done|]. cbn [holding]. unfold fupd. case_decide as E.
  - intros _. exists s. split; [left|done].
  - intros Hk. destruct (IH Hk) as (s' & ? & ? & ?). exists s'. split; [by right|done].
Qed.

Lemma strong_slot t s : strong t (slot_state s) <-> (t = Exclusive -> exclusive s = true).
Proof. unfold strong, slot_state. destruct (exclusive s), t; split; intros H; try done; by specialize (H eq_refl). Qed.

Lemma covers_strong ix h e :
  wf ix h ->
  covers (table (index ix)) h [e] <-> strong (lock_type e) (holding ix h (entry_key ix e)).
Proof.
  intros Hw. pose proof (wf_distinct _ _ Hw) as Hd. destruct Hw as [_ Hn]. rewrite Forall_forall in Hn. split.
  - intros Hc. destruct (Hc e ltac:(left)) as (s & Hs & Eb & Hx).
    unfold entry_key. rewrite <- Eb. change (bucket_cells ix (bucket s)) with (slot_key ix s).
    rewrite (holding_in ix h s Hd Hs). by apply strong_slot.
  - intros Hst e' ->%list_elem_of_singleton.
    destruct (holding_inv ix h (entry_key ix e)) as (s & Hs & Ek & Est); [by intros E; rewrite E in Hst|].
    exists s. split; [done|]. split; [|by rewrite <- Est in Hst; apply strong_slot].
    eapply bucket_cells_inj; [by apply Hn|apply bucket_of_normal|done].
Qed.

(** ** Changes of the recorded slots *)

Lemma sorted_delete (l : list LockPlanSlot) i :
  StronglySorted Z.lt (bucket <$> l) -> StronglySorted Z.lt (bucket <$> delete i l).
Proof.
  revert i. induction l as [|x l IH]; intros [|i]; try done; rewrite fmap_cons; intros [Hl Hx]%StronglySorted_inv.
  - done.
  - change (delete (S i) (x :: l)) with (x :: delete i l). rewrite fmap_cons. constructor; [by apply IH|].
    rewrite list_fmap_delete. by apply Forall_delete.
Qed.

Lemma search_held_Some h b i :
  search_held h b = Some i -> exists s, h !! i = Some s /\ bucket s = b.
Proof.
  unfold search_held. destruct (list_find _ h) as [[j s]|] eqn:E; [|done]. intros [= <-].
  apply list_find_Some in E as (? & ? & _). eauto.
Qed.

Lemma search_held_None h b : search_held h b = None -> b ∉ bucket <$> h.
Proof.
  unfold search_held. destruct (list_find _ h) as [|] eqn:E; [done|]. intros _ Hin.
  apply list_find_None in E. rewrite Forall_forall in E.
  apply list_elem_of_fmap in Hin as (s & -> & Hs). by apply (E s Hs).
Qed.

Lemma notin_keys ix h b :
  Forall (fun s => normal ix (bucket s)) h -> normal ix b -> b ∉ bucket <$> h ->
  bucket_cells ix b ∉ slot_key ix <$> h.
Proof.
  intros Hn Hb Hin Hk. apply Hin. apply list_elem_of_fmap in Hk as (s & E & Hs).
  rewrite Forall_forall in Hn. apply list_elem_of_fmap. exists s. split; [|done].
  by eapply bucket_cells_inj; [|apply Hn|].
Qed.

Lemma remove_lost_wf ix h b : wf ix h -> wf ix (remove_lost h b).
Proof.
  intros [Hs Hn]. unfold remove_lost. destruct (search_held h b) as [i|]; [|done].
  split; [by apply sorted_delete|by apply Forall_delete].
Qed.

Lemma remove_lost_holding ix h b k :
  wf ix h -> normal ix b ->
  holding ix (remove_lost h b) k = fupd (holding ix h) (bucket_cells ix b) Latch.Idle k.
Proof.
  intros Hw Hb. pose proof (wf_distinct _ _ Hw) as Hd. unfold remove_lost.
  destruct (search_held h b) as [i|] eqn:Es.
  - apply search_held_Some in Es as (s & Hi & <-).
    pose proof (delete_Permutation _ _ _ Hi) as Hp.
    change (bucket_cells ix (bucket s)) with (slot_key ix s).
    assert (Hnot : slot_key ix s ∉ slot_key ix <$> delete i h).
    { unfold distinct in Hd. rewrite Hp, fmap_cons, NoDup_cons in Hd. by destruct Hd. }
    unfold fupd. case_decide as E; [subst k; by apply holding_notin|].
    rewrite (holding_perm ix h _ k Hp Hd). cbn [holding]. by rewrite fupd_ne.
  - apply search_held_None in Es. unfold fupd. case_decide as E; [|done]. subst k.
    destruct Hw as [_ Hn]. by apply holding_notin, notin_keys.
Qed.

(** [lost] buckets are idle, the others as in [f]. *)
Fixpoint idle_at (ix : PinnedIndex) (lost : list Z) (f : bkey -> Latch.lstate) (k : bkey) : Latch.lstate :=
  match lost with
  | [] => f k
  | b :: lost' => fupd (idle_at ix lost' f) (bucket_cells ix b) Latch.Idle k
  end.

Lemma idle_at_fupd ix lost f b k :
  idle_at ix lost (fupd f (bucket_cells ix b) Latch.Idle) k
  = fupd (idle_at ix lost f) (bucket_cells ix b) Latch.Idle k.
Proof.
  induction lost as [|c lost IH]; [done|]. cbn [idle_at].
  unfold fupd in *. repeat case_decide; try done.
Qed.

Lemma remove_all_lost ix lost h :
  wf ix h -> Forall (normal ix) lost ->
  wf ix (fold_left remove_lost lost h) /\
  forall k, holding ix (fold_left remove_lost lost h) k = idle_at ix lost (holding ix h) k.
Proof.
  revert h. induction lost as [|b lost IH]; intros h Hw Hn; cbn [fold_left]; [done|].
  apply Forall_cons in Hn as [Hb Hn]. destruct (IH (remove_lost h b)) as [H1 H2]; [by apply remove_lost_wf|done|].
  split; [done|]. intros k. rewrite H2. cbn [idle_at]. rewrite <- idle_at_fupd.
  clear H1 H2 IH Hn. induction lost as [|c lost IH]; cbn [idle_at]; [by apply remove_lost_holding|].
  unfold fupd in *. by case_decide.
Qed.

(** ** Steps *)

Definition step_bucket (st : IncrementalStep) : Z :=
  match st with Acquire slot => bucket slot | Upgrade b _ => b end.
Definition step_origin (st : IncrementalStep) : Latch.lstate :=
  match st with Acquire _ => Latch.Idle | Upgrade _ _ => Latch.Shared end.
Definition step_target (st : IncrementalStep) : Latch.lstate :=
  match st with Acquire slot => slot_state slot | Upgrade _ _ => Latch.Excl end.

Section Steps.
Context (t : nat) (n : Z -> Z) (fuel : nat) (ix : PinnedIndex) (f0 : bkey -> Latch.lstate).

Definition step_key (st : IncrementalStep) : bkey := bucket_cells ix (step_bucket st).

(** The state after the steps [l] (the last first). *)
Fixpoint after (l : list IncrementalStep) (k : bkey) : Latch.lstate :=
  match l with
  | [] => f0 k
  | st :: l' => fupd (after l') (step_key st) (step_target st) k
  end.

Record steps_ok (l : list IncrementalStep) : Prop := {
  so_nodup : NoDup (step_key <$> l);
  so_origin : Forall (fun st => f0 (step_key st) = step_origin st) l;
  so_normal : Forall (fun st => normal ix (step_bucket st)) l
}.

Lemma after_notin l k : k ∉ step_key <$> l -> after l k = f0 k.
Proof.
  induction l as [|st l IH]; [done|]. rewrite fmap_cons, not_elem_of_cons. intros [H1 H2].
  cbn [after]. rewrite fupd_ne by congruence. auto.
Qed.

Lemma after_in l st : NoDup (step_key <$> l) -> st ∈ l -> after l (step_key st) = step_target st.
Proof.
  induction l as [|x l IH]; intros Hd Hs; [by apply not_elem_of_nil in Hs|].
  rewrite fmap_cons, NoDup_cons in Hd. destruct Hd as [Hx Hd]. cbn [after].
  apply elem_of_cons in Hs as [->|Hs]; [by rewrite fupd_eq|]. rewrite fupd_ne; [by apply IH|].
  intros E. apply Hx. rewrite E. apply list_elem_of_fmap. eauto.
Qed.

Lemma wp_regain f G b lost :
  owns t f n G -> f (bucket_cells ix b) = Latch.Idle ->
  wpt (regain ix b lost) G (fun lost' H =>
    (lost' = lost /\ owns t (fupd f (bucket_cells ix b) Latch.Shared) n H) \/
    (lost' = lost ++ [b] /\ owns t f n H)).
Proof.
  intros Ho Hf. apply wp_bind. eapply wp_mono; [|by eapply wp_try_shared].
  intros [] H HH; cbn; [by left|by right].
Qed.

Lemma idle_at_snoc lost b f k :
  idle_at ix (lost ++ [b]) f k = fupd (idle_at ix lost f) (bucket_cells ix b) Latch.Idle k.
Proof.
  induction lost as [|c lost IH]; [done|]. cbn [app idle_at]. unfold fupd in *. repeat case_decide; try done.
Qed.

Lemma idle_at_other lost f k :
  Forall (fun b => bucket_cells ix b <> k) lost -> idle_at ix lost f k = f k.
Proof. induction 1; [done|]. cbn [idle_at]. by rewrite fupd_ne. Qed.

Lemma idle_at_ext lost f g k : f k = g k -> idle_at ix lost f k = idle_at ix lost g k.
Proof. intros E. induction lost as [|b lost IH]; [done|]. cbn [idle_at]. unfold fupd. by case_decide. Qed.

(** Undoing the head of [done] gives back its origin, or loses the bucket. *)
Lemma wp_undo_steps done lost f G :
  owns t f n G -> steps_ok done -> Forall (normal ix) lost ->
  (forall k, f k = idle_at ix lost (after done) k) ->
  (forall b st, b ∈ lost -> st ∈ done -> bucket_cells ix b <> step_key st) ->
  wpt (undo_steps ix done lost) G (fun lost' H =>
    Forall (normal ix) lost' /\ owns t (idle_at ix lost' f0) n H).
Proof.
  revert lost f G. induction done as [|st done IH]; intros lost f G Ho Hok Hn Hf Hdis; cbn [undo_steps].
  { cbn. split; [done|]. by eapply owns_ext. }
  destruct Hok as [Hd Horig Hnorm]. rewrite fmap_cons, NoDup_cons in Hd. destruct Hd as [Hst Hd].
  apply Forall_cons in Horig as [Eo Horig]. apply Forall_cons in Hnorm as [Hb Hnorm].
  assert (Hlost : Forall (fun b => bucket_cells ix b <> step_key st) lost).
  { apply Forall_forall. intros b Hin. apply Hdis; [done|left]. }
  assert (Hcur : f (step_key st) = step_target st).
  { rewrite Hf, idle_at_other by done. cbn [after]. apply fupd_eq. }
  assert (Hback : after done (step_key st) = step_origin st) by (by rewrite after_notin).
  assert (Hrest : forall k, fupd f (step_key st) (step_origin st) k = idle_at ix lost (after done) k).
  { intros k. unfold fupd. case_decide as E.
    - subst k. by rewrite idle_at_other.
    - rewrite Hf. apply idle_at_ext. cbn [after]. by rewrite fupd_ne. }
  assert (Hdis' : forall b s, b ∈ lost -> s ∈ done -> bucket_cells ix b <> step_key s).
  { intros b s Hin Hs. apply Hdis; [done|by right]. }
  assert (Hok' : steps_ok done) by (by constructor).
  destruct st as [slot|b pos]; apply wp_bind.
  - eapply wp_mono; [|eapply wp_drop_slot; [exact Ho|exact Hcur]].
    intros ? H HH. eapply IH; [exact HH|done|done|exact Hrest|done].
  - eapply wp_mono; [|eapply wp_bucket_unlock_exclusive; [exact Ho|exact Hcur]].
    intros ? H HH. apply wp_bind. eapply wp_mono; [|eapply wp_regain; [exact HH|apply fupd_eq]].
    intros lost' H' [[-> HH']|[-> HH']].
    + eapply IH; [exact HH'|done..| |done]. intros k. rewrite <- Hrest. unfold fupd.
      change (step_key (Upgrade b pos)) with (bucket_cells ix b). by case_decide.
    + eapply IH; [exact HH'|done|by apply Forall_app; repeat constructor| |].
      * intros k. rewrite idle_at_snoc. unfold fupd. case_decide as E; [done|].
        rewrite <- Hrest, fupd_ne; done.
      * intros c s [Hc| ->%list_elem_of_singleton]%elem_of_app Hs; [by apply Hdis'|].
        intros E. apply Hst. apply list_elem_of_fmap. by exists s.
Qed.

Lemma steps_ok_app_r l l' : steps_ok (l ++ l') -> steps_ok l'.
Proof.
  intros [H1 H2 H3]. rewrite fmap_app, NoDup_app in H1. rewrite Forall_app in H2, H3.
  constructor; [apply H1|apply H2|apply H3].
Qed.

Lemma steps_ok_perm l l' : l ≡ₚ l' -> steps_ok l -> steps_ok l'.
Proof. intros Hp [H1 H2 H3]. by constructor; rewrite <- Hp. Qed.

Lemma wp_run_steps steps done f G :
  owns t f n G -> steps_ok (steps ++ done) -> (forall k, f k = after done k) ->
  wpo (run_steps fuel ix steps done) G (fun r H =>
    match r with
    | inl lost => Forall (normal ix) lost /\ owns t (idle_at ix lost f0) n H
    | inr _ => owns t (after (rev steps ++ done)) n H
    end).
Proof.
  revert done f G. induction steps as [|st steps IH]; intros done f G Ho Hok Hf; cbn [run_steps].
  { cbn. by eapply owns_ext. }
  pose proof (steps_ok_app_r (st :: steps) done Hok) as Hdone.
  assert (Hmid : steps_ok (steps ++ st :: done)).
  { eapply steps_ok_perm; [|exact Hok]. cbn. apply Permutation_middle. }
  pose proof (steps_ok_app_r steps (st :: done) Hmid) as [Hd Horig Hnorm].
  rewrite fmap_cons, NoDup_cons in Hd. destruct Hd as [Hst _].
  apply Forall_cons in Horig as [Eo _]. apply Forall_cons in Hnorm as [Hb _].
  assert (Hcur : f (step_key st) = step_origin st) by (by rewrite Hf, after_notin).
  assert (Hnext : forall H, owns t (fupd f (step_key st) (step_target st)) n H ->
    wpo (run_steps fuel ix steps (st :: done)) H (fun r H =>
    match r with
    | inl lost => Forall (normal ix) lost /\ owns t (idle_at ix lost f0) n H
    | inr _ => owns t (after (rev (st :: steps) ++ done)) n H
    end)).
  { intros H HH. eapply wpo_mono; [|eapply IH; [exact HH|done|]].
    - intros [lost|[]] H'; [done|]. cbn [rev]. by rewrite <- app_assoc.
    - intros k. cbn [after]. unfold fupd. by case_decide. }
  apply wpo_bind. destruct st as [slot|b pos]; cbn [take_step].
  - eapply wpo_mono; [|eapply wp_take_slot; [exact Ho|exact Hcur]].
    intros [] H HH; cbn iota; [by apply Hnext|]. apply wpo_let. cbn.
    apply wpo_let. eapply wp_mono; [|eapply wp_undo_steps; [exact HH|done|done|done|]].
    { by intros lost H'. } intros b s Hb'. by apply not_elem_of_nil in Hb'.
  - apply wpo_let. eapply wp_mono; [|eapply wp_bucket_unlock_shared; [exact Ho|exact Hcur]].
    intros ? H HH. eapply wpo_mono; [|eapply (wp_take_slot _ _ _ _ _ _ (mkSlot b true)); [exact HH|apply fupd_eq]].
    intros [] H' HH'; cbn iota.
    { apply Hnext. eapply owns_ext; [exact HH'| |done]. intros k.
      change (slot_key ix (mkSlot b true)) with (bucket_cells ix b).
      change (step_key (Upgrade b pos)) with (bucket_cells ix b). unfold fupd. by case_decide. }
    apply wpo_let. eapply wp_mono; [|eapply wp_regain; [exact HH'|apply fupd_eq]].
    intros lost H'' HH''. apply wpo_let.
    assert (Hlost : exists g, owns t g n H'' /\ Forall (normal ix) lost /\
      (forall k, g k = idle_at ix lost (after done) k) /\
      (forall c s, c ∈ lost -> s ∈ done -> bucket_cells ix c <> step_key s)).
    { destruct HH'' as [[-> HH'']|[-> HH'']]; eexists; (split; [exact HH''|]).
      - split; [done|]. split; [|intros c s Hc; by apply not_elem_of_nil in Hc].
        intros k. cbn [idle_at]. rewrite <- Hf. unfold fupd. case_decide as E; [|done].
        subst k. by symmetry.
      - split; [by repeat constructor|]. split.
        + intros k. cbn [app idle_at]. unfold fupd. case_decide; [done|]. apply Hf.
        + intros c s ->%list_elem_of_singleton Hs E. apply Hst, list_elem_of_fmap. by exists s. }
    destruct Hlost as (g & Hg & Hn & Hgk & Hdis).
    eapply wp_mono; [|by eapply wp_undo_steps]. by intros lost' H'''.
Qed.

End Steps.

(** ** The slots after all steps *)

Lemma holding_idle ix h k : distinct ix h -> holding ix h k = Latch.Idle -> k ∉ slot_key ix <$> h.
Proof.
  intros Hd Hk Hin. apply list_elem_of_fmap in Hin as (s & -> & Hs).
  rewrite (holding_in ix h s Hd Hs) in Hk. unfold slot_state in Hk. by destruct (exclusive s).
Qed.

Lemma alter_perm {A} (g : A -> A) (l : list A) i x :
  l !! i = Some x -> exists r, l ≡ₚ x :: r /\ alter g i l ≡ₚ g x :: r.
Proof.
  revert i. induction l as [|y l IH]; intros [|i] Hi; [done..| |].
  - injection Hi as ->. by exists l.
  - destruct (IH i Hi) as (r & H1 & H2). exists (y :: r).
    change (alter g (S i) (y :: l)) with (y :: alter g i l). rewrite H1 at 1. rewrite H2.
    split; constructor.
Qed.

Section Apply.
Context (ix : PinnedIndex) (h : list LockPlanSlot).

(** [c] records the state after [done], the slots of [h] in their places. *)
Record recorded (c : list LockPlanSlot) (done : list IncrementalStep) : Prop := {
  rc_distinct : distinct ix c;
  rc_normal : Forall (fun s => normal ix (bucket s)) c;
  rc_holding : forall k, holding ix c k = after ix (holding ix h) done k;
  rc_places : forall i s, h !! i = Some s -> exists s', c !! i = Some s' /\ bucket s' = bucket s
}.

Definition in_place (st : IncrementalStep) : Prop :=
  match st with Acquire _ => True | Upgrade b i => exists s, h !! i = Some s /\ bucket s = b end.

Lemma recorded_step c done st :
  recorded c done -> steps_ok ix (holding ix h) (st :: done) -> in_place st ->
  recorded (apply_step c st) (st :: done).
Proof.
  intros [Hd Hn Hh Hp] [Hk Ho Hb] Hi. rewrite fmap_cons, NoDup_cons in Hk. destruct Hk as [Hk _].
  apply Forall_cons in Ho as [Ho _]. apply Forall_cons in Hb as [Hb _].
  destruct st as [slot|b i]; cbn [apply_step step_bucket step_origin in_place] in *.
  - assert (Hnew : slot_key ix slot ∉ slot_key ix <$> c).
    { apply holding_idle; [done|]. rewrite Hh, after_notin; done. }
    assert (Hd' : distinct ix (c ++ [slot])).
    { unfold distinct. rewrite fmap_app, NoDup_app. split; [done|]. split; [|apply NoDup_singleton].
      intros k Hin ->%list_elem_of_singleton. done. }
    constructor; [done|by apply Forall_app; repeat constructor|..].
    + intros k. rewrite holding_snoc by done. cbn [after]. unfold fupd.
      change (step_key ix (Acquire slot)) with (slot_key ix slot). by case_decide.
    + intros j s Hj. destruct (Hp j s Hj) as (s' & Hs' & ?). exists s'. split; [|done].
      by apply lookup_app_l_Some.
  - destruct Hi as (s & Hs & Eb). destruct (Hp i s Hs) as (s' & Hs' & Eb').
    destruct (alter_perm (fun s => mkSlot (bucket s) true) c i s' Hs') as (r & Hr & Hr').
    assert (Hd' : distinct ix (alter (fun s => mkSlot (bucket s) true) i c)).
    { unfold distinct in *. rewrite Hr, fmap_cons in Hd. by rewrite Hr', fmap_cons. }
    constructor; [done|..].
    + rewrite Hr'. rewrite Hr in Hn. apply Forall_cons in Hn as [??]. by constructor.
    + intros k. rewrite (holding_perm ix _ _ k Hr' Hd'). cbn [holding after]. unfold fupd.
      change (step_key ix (Upgrade b i)) with (bucket_cells ix b).
      unfold slot_key. cbn [bucket]. rewrite Eb', Eb. case_decide as E; [done|].
      rewrite <- Hh, (holding_perm ix c _ k Hr Hd). cbn [holding]. rewrite fupd_ne; [done|].
      unfold slot_key. by rewrite Eb', Eb.
    + intros j x Hj. destruct (Hp j x Hj) as (x' & Hx' & Ex). destruct (decide (i = j)) as [<-|Hne].
      * rewrite list_lookup_alter_eq, Hx'. eexists. by split.
      * rewrite list_lookup_alter_ne by done. eauto.
Qed.

Lemma recorded_steps steps c done :
  recorded c done -> steps_ok ix (holding ix h) (steps ++ done) -> Forall in_place steps ->
  recorded (fold_left apply_step steps c) (rev steps ++ done).
Proof.
  revert c done. induction steps as [|st steps IH]; intros c dn Hr Hok Hi; [exact Hr|].
  apply Forall_cons in Hi as [Hst Hi]. cbn [fold_left rev]. rewrite <- app_assoc. cbn [app].
  assert (Hmid : steps_ok ix (holding ix h) (steps ++ st :: dn)).
  { eapply steps_ok_perm; [|exact Hok]. cbn. apply Permutation_middle. }
  apply IH; [|done|done]. apply recorded_step; [done| |done]. by eapply steps_ok_app_r.
Qed.

Lemma sorted_strict (l : list Z) : StronglySorted Z.le l -> NoDup l -> StronglySorted Z.lt l.
Proof.
  induction 1 as [|x l Hl IH Hx]; intros Hd; [constructor|]. apply NoDup_cons in Hd as [Hnx Hd].
  constructor; [by apply IH|]. rewrite Forall_forall in *. intros y Hy. pose proof (Hx y Hy).
  destruct (decide (x = y)); [by subst|lia].
Qed.

Lemma recorded_sorted c done :
  recorded c done ->
  wf ix (sort_by by_bucket c) /\
  forall k, holding ix (sort_by by_bucket c) k = after ix (holding ix h) done k.
Proof.
  intros [Hd Hn Hh _]. pose proof (sort_by_perm by_bucket c) as Hp. split; [split|].
  - apply sorted_strict; [apply sort_by_sorted; intros a b; apply by_bucket_spec|].
    rewrite Hp. unfold distinct in Hd. apply (NoDup_fmap_1 (fun b => bucket_cells ix b)).
    by rewrite <- list_fmap_compose.
  - by rewrite Hp.
  - intros k. rewrite <- Hh. apply holding_perm; [done|]. unfold distinct. by rewrite Hp.
Qed.

(** *** The steps for merged slots *)

Lemma incremental_step_spec slot :
  wf ix h -> normal ix (bucket slot) ->
  match incremental_step h slot with
  | [] => exists s, s ∈ h /\ bucket s = bucket slot /\ (exclusive slot = true -> exclusive s = true)
  | [st] => step_bucket st = bucket slot /\ in_place st /\
      holding ix h (step_key ix st) = step_origin st /\
      step_target st = (if exclusive slot then Latch.Excl else Latch.Shared)
  | _ => False
  end.
Proof.
  intros Hw Hb. pose proof (wf_distinct _ _ Hw) as Hd. unfold incremental_step.
  destruct (search_held h (bucket slot)) as [i|] eqn:Es.
  - apply search_held_Some in Es as (s & Hs & Eb). rewrite Hs. cbn [fmap option_fmap option_map default].
    pose proof (list_elem_of_lookup_2 _ _ _ Hs) as Hin.
    destruct (exclusive slot) eqn:Ex, (exclusive s) eqn:Exs; cbn; eauto 6.
    split; [done|]. split; [eauto|]. split; [|done].
    unfold step_key. cbn [step_bucket]. rewrite <- Eb. change (bucket_cells ix (bucket s)) with (slot_key ix s).
    rewrite (holding_in ix h s Hd Hin). unfold slot_state. by rewrite Exs.
  - cbn. split; [done|]. split; [done|]. split; [|done].
    apply search_held_None in Es. apply holding_notin, notin_keys; [apply Hw|done|done].
Qed.

Lemma merged_steps merged :
  wf ix h -> wf ix merged ->
  let steps := merged ≫= incremental_step h in
  steps_ok ix (holding ix h) steps /\ Forall in_place steps /\
  (forall b, b ∈ step_bucket <$> steps -> b ∈ bucket <$> merged) /\
  forall s, s ∈ merged ->
    (exists x, x ∈ h /\ bucket x = bucket s /\ (exclusive s = true -> exclusive x = true)) \/
    exists st, st ∈ steps /\ step_bucket st = bucket s /\
      step_target st = (if exclusive s then Latch.Excl else Latch.Shared).
Proof.
  intros Hw. induction merged as [|x merged IH]; intros [Hs Hn] steps.
  { subst steps. cbn. split; [constructor; constructor|]. split; [constructor|].
    split; [done|]. intros s Hin. by apply not_elem_of_nil in Hin. }
  rewrite fmap_cons in Hs. apply StronglySorted_inv in Hs as [Hs Hx]. apply Forall_cons in Hn as [Hnx Hn].
  destruct IH as (Hok & Hi & Hsub & Hcov); [by split|].
  pose proof (incremental_step_spec x Hw Hnx) as Hspec. subst steps. rewrite bind_cons.
  destruct (incremental_step h x) as [|st [|]] eqn:Ex; [| |done]; cbn [app].
  - split; [done|]. split; [done|]. split; [intros b Hb; right; by apply Hsub|].
    intros s [->|Hin]%elem_of_cons; [by left|by apply Hcov].
  - destruct Hspec as (Eb & Hp & Ho & Et). split; [|split; [by constructor|split]].
    + destruct Hok as [H1 H2 H3].
      constructor; [|by constructor|constructor; [by rewrite Eb|done]].
      rewrite fmap_cons. constructor; [|done]. intros Hin.
      apply list_elem_of_fmap in Hin as (st' & E & Hst').
      rewrite Forall_forall in H3. pose proof (H3 st' Hst') as Hn'.
      apply bucket_cells_inj in E; [|by rewrite Eb|done].
      assert (Hm : step_bucket st' ∈ bucket <$> merged) by (apply Hsub, list_elem_of_fmap; eauto).
      rewrite Forall_forall in Hx. pose proof (Hx _ Hm). rewrite <- E, Eb in *. lia.
    + intros b. rewrite !fmap_cons, !elem_of_cons. intros [->|Hb]; [by left|right; by apply Hsub].
    + intros s [->|Hin]%elem_of_cons.
      * right. exists st. split; [left|done].
      * destruct (Hcov s Hin) as [|(st' & ? & ? & ?)]; [by left|]. right. exists st'.
        split; [by right|done].
Qed.

End Apply.

(** ** The method *)

Section Incremental.
Context (t : nat) (n : Z -> Z) (fuel : nat) (tbl : TxnLockTable).
Hypothesis pin_free : writes Free (pin tbl).

(** The state of the entries once the table is pinned. *)
Definition pinned (s : TxnKeyEntries) (ix : PinnedIndex) (f : bkey -> Latch.lstate) : Prop :=
  latch s = Some ix /\ entries_ok s f /\ lock_table s = tbl.

Lemma wp_pinned {B} s f G (k : TxnKeyEntries * PinnedIndex -> tprog B) Q :
  owns t f n G -> entries_ok s f -> lock_table s = tbl ->
  (forall ix s', pinned s' ix f -> keys s' = keys s -> held s' = held s ->
     forall H, owns t f n H -> wpo (k (s', ix)) H Q) ->
  wpo (let* r := (match latch s with
                  | Some ix => Ret (s, ix)
                  | None => let* ix := pin (lock_table s) in Ret (with_latch s (Some ix), ix)
                  end) in k r) G Q.
Proof.
  intros Ho He Et Hk. apply wpo_let. destruct (latch s) as [ix|] eqn:El.
  { by apply Hk. }
  apply wp_bind. rewrite Et. eapply wp_mono; [|by apply wp_pin]. intros ix H ->. apply Hk; [|done..].
  split; [done|]. split; [|done]. destruct He as [H1 H2 H3 H4]. rewrite El in H1, H2.
  constructor; cbn; [by rewrite H2|by rewrite H2; split; constructor|done|].
  destruct (plan s) as [[|]|]; try done. destruct H4 as (? & E & _). by rewrite El in E.
Qed.

Lemma slots_merged ix ks :
  merged_of (table (index ix)) ks (merge_slots (sort_by by_bucket (map (slot_of (table (index ix))) ks))).
Proof.
  apply merged_slots; [apply sort_by_perm|]. apply sort_by_sorted; intros a b; apply by_bucket_spec.
Qed.

(** The keys of merged slots that are all taken or held. *)
Lemma incremental_covered ix h h' ks merged :
  merged_of (table (index ix)) ks merged -> wf ix h -> wf ix h' ->
  (forall k, holding ix h' k = after ix (holding ix h) (rev (merged ≫= incremental_step h)) k) ->
  covers (table (index ix)) h' ks.
Proof.
  intros Hm Hw Hw' Hh e He. pose proof (merged_wf _ _ _ Hm) as Hwm.
  destruct (merged_steps ix h merged Hw Hwm) as ([Hnd Ho Hn] & _ & _ & Hcov).
  destruct (merged_covers _ _ _ Hm e He) as (s & Hs & Eb & Hx).
  assert (Hnd' : NoDup (step_key ix <$> rev (merged ≫= incremental_step h))) by (by rewrite <- Permutation_rev).
  enough (Hst : strong (lock_type e) (holding ix h' (entry_key ix e))).
  { apply covers_strong in Hst; [|done]. by apply (Hst e), list_elem_of_here. }
  unfold entry_key. rewrite <- Eb, Hh. destruct (Hcov s Hs) as [(x & Hin & Ex & Hxx)|(st & Hin & Est & Et)].
  - destruct (decide (bucket_cells ix (bucket s) ∈ step_key ix <$> rev (merged ≫= incremental_step h))) as [Hk|Hk].
    + apply list_elem_of_fmap in Hk as (st & E & Hst). rewrite E, after_in by done.
      rewrite <- Permutation_rev in Hst. rewrite Forall_forall in Ho. pose proof (Ho st Hst) as Hor.
      change (bucket_cells ix (bucket s)) with (slot_key ix s) in E. rewrite <- E in Hor.
      unfold slot_key in Hor. rewrite <- Ex in Hor. change (bucket_cells ix (bucket x)) with (slot_key ix x) in Hor.
      rewrite (holding_in ix h x (wf_distinct _ _ Hw) Hin) in Hor. unfold slot_state in Hor.
      destruct st; cbn in *; [by destruct (exclusive x)|done].
    + rewrite after_notin by done. rewrite <- Ex. change (bucket_cells ix (bucket x)) with (slot_key ix x).
      rewrite (holding_in ix h x (wf_distinct _ _ Hw) Hin). apply strong_slot. auto.
  - rewrite <- Est. change (bucket_cells ix (step_bucket st)) with (step_key ix st).
    rewrite after_in; [|done|by rewrite <- Permutation_rev]. rewrite Et.
    change (if exclusive s then Latch.Excl else Latch.Shared) with (slot_state s). by apply strong_slot.
Qed.

Lemma wp_try_lock_incremental_entries s f G es :
  owns t f n G -> entries_ok s f -> lock_table s = tbl ->
  wpo (try_lock_incremental_entries fuel s es) G (fun '(ok, s') H =>
    exists f', owns t f' n H /\ entries_ok s' f' /\ lock_table s' = tbl /\
      ((ok : bool) = true -> covered s' es)).
Proof.
  intros Ho He Et. unfold try_lock_incremental_entries. destruct es as [|e0 es0].
  { cbn. exists f. do 3 (split; [done|]). intros _ e Hin. by apply not_elem_of_nil in Hin. }
  set (es := e0 :: es0). eapply wp_pinned; [done..|]. clear He Et.
  intros ix s' (El & He & Et) Ek Eh H HH. cbn beta iota.
  pose proof (slots_merged ix es) as Hm. set (merged := merge_slots _) in *.
  pose proof (eo_hold _ _ He) as Hf. pose proof (eo_wf _ _ He) as Hw. rewrite El in Hf, Hw.
  pose proof (merged_wf _ _ _ Hm) as Hwm.
  destruct (merged_steps ix (held s') merged Hw Hwm) as (Hok & Hip & _ & _).
  pose proof (fun h' => incremental_covered ix (held s') h' es merged Hm Hw) as Hcov.
  destruct (merged ≫= incremental_step (held s')) as [|st steps] eqn:Est.
  { exists f. split; [done|]. split; [|split; [done|]].
    - destruct He as [H1 H2 H3 H4]. by constructor; cbn.
    - intros _ e Hin. exists ix. split; [done|]. eapply covers_one; [|exact Hin]. by apply Hcov. }
  rewrite <- (app_nil_r (st :: steps)) in Hok.
  apply wpo_bind. eapply wpo_mono; [|eapply (wp_run_steps t n fuel ix (holding ix (held s'))); [exact HH|exact Hok|exact Hf]].
  intros [lost|[]] H'.
  - intros [Hn Ho']. destruct (remove_all_lost ix lost (held s') Hw Hn) as [Hw' Hh'].
    exists (idle_at ix lost (holding ix (held s'))). split; [done|]. split; [|done].
    destruct He as [H1 H2 H3 H4]. constructor; cbn; rewrite ?El; try done.
    + intros Hne. apply H3. intros E. apply Hne. rewrite E. clear. by induction lost.
    + by rewrite El in H4.
  - intros Ho'. rewrite app_nil_r in *.
    assert (Hrec : recorded ix (held s') (held s') []).
    { constructor; [by apply wf_distinct|apply Hw|done|eauto]. }
    pose proof (recorded_steps ix (held s') (st :: steps) _ [] Hrec) as Hr. rewrite !app_nil_r in Hr.
    destruct (recorded_sorted _ _ _ _ (Hr Hok Hip)) as [Hw' Hh'].
    exists (after ix (holding ix (held s')) (rev (st :: steps))). split; [done|]. split; [|split; [done|]].
    + constructor; cbn -[rev]; rewrite ?El; done.
    + intros _ e Hin. exists ix. split; [done|]. eapply covers_one; [|exact Hin]. by apply Hcov.
Qed.

End Incremental.

End Upgrades.
