(* ===== verification/TxnSpec.v ===== *)
(** * Transactions exclude each other

    Sessions run their transactions through [TransactionManager], beside threads
    that do anything else, interleaved action by action.  [exec_isolation]: while
    a transaction works on a key it asked to write, no other transaction is
    inside the same bucket.  [exec_no_leak]: however the transactions end, every
    latch and every barrier registration is given back. *)

From stdpp Require Import base list numbers option tactics relations sorting.
From Stdlib Require Import ZArith Lia Bool.
From S2P Require Import Prelude Hasher Atomic Bucket Latch Index Resize Txn TxnPlan TxnLatch TxnEntries TxnUpgrade.
Local Open Scope prog_scope.

Module Sessions.
Import Index Resize Txn Txn.LockTable Txn.KeyEntries Txn.Manager Plan Latches Entries Upgrades.
#[local] Open Scope txn_scope.

(** ** Client threads *)

Section Client.
Context (gxhash64 : list Z -> Z -> Z) (store : Z) (map : Watch.WatchVersionMap).
Context (rounds fuel : nat).

(** What a transaction does while it runs: some work, or the session's physical
    prefix changes and the keys are expanded again. *)
Inductive op : Type :=
| Work (p : prog tloc unit)
| SwapGeneration (prefix : list Z).

(** [MULTI]/[EXEC], retried under the given prefixes until the session goes away,
    or a transaction of a thread of its own. *)
Inductive start : Type :=
| Exec (prefixes : list (list Z))
| Thread (prefix : list Z) (internal_txn fail_fast : bool) (over : nat -> bool).

Inductive ending : Type := Commit | Abandon | DropSession.

Record request : Type := mkRequest {
  watched : list (list Z * list Z);
  queued : list (list Z * LockType);
  how : start;
  ops : list op;
  last : ending
}.

Definition internal (r : request) : bool :=
  match how r with Exec _ => false | Thread _ b _ _ => b end.

Fixpoint watch_all (s : TransactionManager) (l : list (list Z * list Z)) : prog tloc TransactionManager :=
  match l with
  | [] => Ret s
  | (prefix, key) :: rest => let* s := watch gxhash64 s prefix key in watch_all s rest
  end.

Definition queue_all (s : TransactionManager) (l : list (list Z * LockType)) : TransactionManager :=
  fold_left (fun s '(key, t) => save_key_entry_to_lock s key t) l s.

(** The keys the transaction declares, under a prefix. *)
Definition declared (internal_txn : bool) (s : TransactionManager) (prefix : list Z)
  : option (list TxnKeyEntry) :=
  queued ← KeysBuffer.iter_with_lock (txn_keys s);
  Some ((if internal_txn then [] else watch_entries gxhash64 s prefix)
        ++ queued_entries gxhash64 prefix queued).

Fixpoint set_marks (t : nat) (ix : PinnedIndex) (es : list TxnKeyEntry) (v : Z) : prog tloc unit :=
  match es with
  | [] => Ret tt
  | e :: rest => Atomic.store (Inside (entry_key ix e) t) v ;; set_marks t ix rest v
  end.

(** Work with the mark of every declared key raised: 1 to read, 2 to write. *)
Definition work (t : nat) (internal_txn : bool) (s : TransactionManager) (prefix : list Z)
    (p : prog tloc unit) : tprog unit :=
  match declared internal_txn s prefix, latch (key_entries s) with
  | Some es, Some ix =>
      lift (set_marks t ix (List.filter (fun e => negb (is_exclusive (lock_type e))) es) 1 ;;
            set_marks t ix (List.filter (fun e => is_exclusive (lock_type e)) es) 2 ;;
            p ;; set_marks t ix es 0)
  | Some _, None => lift p
  | None, _ => Ret Undefined
  end.

Fixpoint perform (t : nat) (internal_txn : bool) (s : TransactionManager) (prefix : list Z) (l : list op)
  : tprog TransactionManager :=
  match l with
  | [] => Ret (Done s)
  | Work p :: rest => do* _ := work t internal_txn s prefix p in perform t internal_txn s prefix rest
  | SwapGeneration prefix' :: rest =>
      do* (ok, s) := reexpand_for_generation_swap gxhash64 fuel s prefix' in
      if (ok : bool) then perform t internal_txn s prefix' rest else Ret (Done s)
  end.

Fixpoint exec_attempts (s : TransactionManager) (prefixes : list (list Z))
  : tprog (option (list Z) * TransactionManager) :=
  match prefixes with
  | [] => let* s := reset s in Ret (Done (None, s))
  | prefix :: rest =>
      do* (r, s) := run_exec gxhash64 fuel s prefix in
      match r with
      | ExecStarted => Ret (Done (Some prefix, s))
      | Contended => exec_attempts s rest
      | ExecAborted => Ret (Done (None, s))
      end
  end.

Definition begin_txn (s : TransactionManager) (how : start)
  : tprog (option (list Z) * TransactionManager) :=
  match how with
  | Exec prefixes => exec_attempts s prefixes
  | Thread prefix internal_txn fail_fast over =>
      do* (ok, s) := Manager.run gxhash64 rounds fuel s prefix internal_txn fail_fast over in
      Ret (Done (if (ok : bool) then Some prefix else None, s))
  end.

Definition end_txn_as (s : TransactionManager) (internal_txn : bool) (e : ending)
  : prog tloc TransactionManager :=
  match e with
  | Commit => let* r := commit s internal_txn in Ret (snd r)
  | Abandon => let* r := finish_abandoned s in Ret (snd r)
  | DropSession => reset s
  end.

Definition serve (t : nat) (s : TransactionManager) (r : request) : tprog TransactionManager :=
  let* s := watch_all s (watched r) in
  let s := with_state (queue_all s (queued r)) Started in
  do* (o, s) := begin_txn s (how r) in
  match o with
  | None => Ret (Done s)
  | Some prefix =>
      do* s := perform t (internal r) s prefix (ops r) in
      lift (end_txn_as s (internal r) (last r))
  end.

Fixpoint serve_all (t : nat) (s : TransactionManager) (l : list request) : tprog unit :=
  match l with
  | [] => Ret (Done tt)
  | r :: rest => do* s := serve t s r in serve_all t s rest
  end.

(** A session with its log and its requests, or a thread that does other things. *)
Inductive thread : Type :=
| Session (log : option TxnAofLog) (requests : list request)
| Other (p : prog tloc unit).

Definition thread_prog (t : nat) (th : thread) : tprog unit :=
  match th with
  | Session log requests => serve_all t (Manager.new (build_txn_lock_table store) map log) requests
  | Other p => lift p
  end.

Definition threads (l : list thread) : list (tprog unit) := imap thread_prog l.

(** The work of transactions, their logs and the other threads stay away from the
    latch words, the marks and the counters of transactions. *)
Definition log_free (log : option TxnAofLog) : Prop :=
  forall l, log = Some l -> forall op v i a, writes Free (enqueue_txn l op v i a).
Definition op_free (o : op) : Prop := match o with Work p => writes Free p | _ => True end.
Definition thread_free (th : thread) : Prop :=
  match th with
  | Session log requests => log_free log /\ Forall (fun r => Forall op_free (ops r)) requests
  | Other p => writes Free p
  end.

(** No latch is held, no mark raised, no transaction registered. *)
Record quiet (m : mem tloc) : Prop := {
  quiet_words : forall k, fits 64 (Latch.word (view k m)) /\
    Latch.shared_of (Latch.word (view k m)) = 0 /\ Latch.excl_of (Latch.word (view k m)) = false;
  quiet_marks : forall k t, m (Inside k t) = 0;
  quiet_txns : forall e, m (Engine e ActiveTxns) = 0
}.

(** ** The barrier *)

Abbreviation tbl := (build_txn_lock_table store).

Lemma pin_free : writes Free (pin tbl).
Proof. done. Qed.

(** Registered with the engine [tk]. *)
Definition tick (tk : option Z) (e : Z) : Z := if decide (tk = Some e) then 1 else 0.

Lemma wp_count {A} e d (c : Z -> prog tloc A) f G Q :
  (forall v, f v = wrap 64 (v + d)) ->
  (forall v, wpt (c v) (mkGhost (latches G) (fupd (tickets G) e (tickets G e + d))) Q) ->
  wpt (Rmw (Engine e ActiveTxns) f c) G Q.
Proof.
  intros Hf Hk m gs i HI Hi. eexists. split; [|apply Hk]. unfold guar. rewrite Hf.
  destruct HI as [I1 I2]. constructor.
  - intros k. rewrite list_fmap_insert, list_insert_id by (by rewrite list_lookup_fmap, Hi).
    eapply Latch.Inv_ext; [|apply I1]. intros l. unfold view. rewrite upd_ne; [done|]. by destruct l.
  - intros e'. rewrite (zsum_insert _ _ _ _ _ Hi). cbn [tickets]. unfold fupd. case_decide as E.
    + subst e'. rewrite upd_eq, I2. unfold wrap. rewrite Z.add_mod_idemp_l by lia. f_equal. lia.
    + rewrite upd_ne by congruence. rewrite I2. f_equal. lia.
Qed.

Lemma owns_count t f tk tk' e d G :
  owns t f (tick tk) G -> (forall e', tick tk' e' = fupd (tick tk) e (tick tk e + d) e') ->
  owns t f (tick tk') (mkGhost (latches G) (fupd (tickets G) e (tickets G e + d))).
Proof.
  intros [H1 H2] Ht. split; cbn; [done|]. intros e'. rewrite Ht. unfold fupd. by rewrite !H2.
Qed.

Lemma tick_add e e' : tick (Some e) e' = fupd (tick None) e (tick None e + 1) e'.
Proof. unfold tick, fupd. repeat case_decide; naive_solver. Qed.

Lemma tick_sub e e' : tick None e' = fupd (tick (Some e)) e (tick (Some e) e + -1) e'.
Proof. unfold tick, fupd. repeat case_decide; naive_solver. Qed.

Lemma wp_end_txn t f e G :
  owns t f (tick (Some e)) G -> wpt (end_txn (resize_barrier e)) G (fun _ H => owns t f (tick None) H).
Proof.
  intros Ho. apply (wp_count e (-1)); [done|]. intros v. eapply owns_count; [exact Ho|apply tick_sub].
Qed.

Lemma wp_session_load {A} l (c : Z -> prog tloc A) G Q :
  (forall v, wpt (c v) G Q) -> wpt (Load l c) G Q.
Proof. intros Hk m gs i HI Hi. exists G. unfold guar. by rewrite list_insert_id. Qed.

Lemma wp_session_acquire t f G :
  owns t f (tick None) G ->
  wpt (try_acquire_txn tbl) G (fun r H => exists tk, r = resize_barrier <$> tk /\ owns t f (tick tk) H).
Proof.
  intros Ho. cbn -[wp Z.add]. apply wp_session_load. intros e. apply wp_session_load. intros p. set (x := if e =? 0 then store else e).
  destruct (p =? _); [by exists None|].
  apply (wp_count x 1); [done|]. intros v. pose proof (owns_count _ _ _ (Some x) x 1 _ Ho (tick_add x)) as Ho'.
  apply wp_session_load. intros q. destruct (q =? _); cbn -[wp]; [|by exists (Some x)].
  apply (wp_count x (-1)); [done|]. intros w. exists None. split; [done|].
  eapply owns_count; [exact Ho'|apply tick_sub].
Qed.

Lemma wp_acquire_txn t f G k :
  owns t f (tick None) G ->
  wpo (acquire_txn k tbl) G (fun r H => exists e, r = resize_barrier e /\ owns t f (tick (Some e)) H).
Proof.
  revert G. induction k as [|k IH]; intros G Ho; [done|]. cbn [acquire_txn]. apply wpo_let.
  eapply wp_mono; [|by apply wp_session_acquire]. intros r H ([e|] & -> & HH); cbn; [by exists e|by apply IH].
Qed.

(** ** The manager's invariant *)

(** Thread [t] owns what the manager [s] records. *)
Definition mgr_ok (t : nat) (s : TransactionManager) (G : ghost) : Prop :=
  exists f tk, owns t f (tick tk) G /\ entries_ok (key_entries s) f /\
    lock_table (key_entries s) = tbl /\ txn_barrier s = resize_barrier <$> tk /\ log_free (aof_log s).

(** No latch held; the keys are registered exactly when [exec_lock_armed]. *)
Definition waiting (s : TransactionManager) : Prop :=
  held (key_entries s) = [] /\
  if exec_lock_armed s
  then exists p, lock_prefix s = Some p /\
         forall es, declared false s p = Some es -> forall e, e ∈ es -> e ∈ keys (key_entries s)
  else plan (key_entries s) = None.

Definition idle (s : TransactionManager) : Prop := waiting s /\ exec_lock_armed s = false.

(** The declared keys are latched. *)
Definition running (internal_txn : bool) (s : TransactionManager) (prefix : list Z) : Prop :=
  state s = Running /\
  forall es, declared internal_txn s prefix = Some es -> covered (key_entries s) es.

Lemma wp_end_barrier t f tk s G :
  owns t f (tick tk) G -> txn_barrier s = resize_barrier <$> tk ->
  wpt (end_barrier s) G (fun s' H => s' = with_barrier s None /\ owns t f (tick None) H).
Proof.
  intros Ho Eb. unfold end_barrier. rewrite Eb. destruct tk as [e|]; cbn [fmap option_fmap option_map].
  - apply wp_bind. eapply wp_mono; [|by apply wp_end_txn]. intros ? H HH. by split.
  - cbn. split; [|done]. destruct s. cbn in *. by subst.
Qed.

Lemma wp_reset t s G :
  mgr_ok t s G -> wpt (Manager.reset s) G (fun s' H => mgr_ok t s' H /\ idle s' /\
    owns t (fun _ => Latch.Idle) (tick None) H).
Proof.
  intros (f & tk & Ho & He & Et & Eb & Hl). unfold Manager.reset. apply wp_bind.
  eapply wp_mono; [|by eapply wp_unlock_all_keys]. intros k H [-> HH]. apply wp_bind.
  eapply wp_mono; [|by eapply (wp_end_barrier _ _ tk)]. intros s' H' [-> HH'].
  cbn. split; [|done]. eexists _, None. split; [exact HH'|]. split; [apply new_entries_ok|done].
Qed.

Lemma wp_mark t s op G : mgr_ok t s G -> wpt (mark s op) G (fun _ H => H = G).
Proof.
  intros (f & tk & _ & _ & _ & _ & Hl). unfold mark. destruct (aof_log s) as [log|] eqn:El; [|done].
  destruct (perform_writes s); [|done]. apply wp_free. by apply Hl.
Qed.

Lemma wp_validate c G : wpt (Watch.validate_watch_version c) G (fun _ H => H = G).
Proof.
  apply wp_free. unfold Watch.validate_watch_version.
  induction (Watch.key_slices c) as [|x l IH]; [done|]. intros v. cbn.
  by destruct (v =? Watch.version x).
Qed.

(** ** Starting a transaction *)

Lemma mgr_ok_other t s s' G :
  mgr_ok t s G -> key_entries s' = key_entries s -> txn_barrier s' = txn_barrier s ->
  aof_log s' = aof_log s -> mgr_ok t s' G.
Proof. intros (f & tk & ?) E1 E2 E3. exists f, tk. by rewrite E1, E2, E3. Qed.

Lemma idle_other s s' :
  idle s -> key_entries s' = key_entries s -> exec_lock_armed s' = exec_lock_armed s -> idle s'.
Proof.
  intros [[H1 H2] Ea] E1 E2. unfold idle, waiting. rewrite Ea in H2. by rewrite E1, E2, Ea.
Qed.

Lemma wp_finish_run_postlock t s internal_txn prefix G :
  mgr_ok t s G ->
  (forall es, declared internal_txn s prefix = Some es -> covered (key_entries s) es) ->
  wpt (finish_run_postlock s internal_txn) G (fun '(ok, s') H => mgr_ok t s' H /\
    if (ok : bool) then running internal_txn s' prefix
    else idle s' /\ owns t (fun _ => Latch.Idle) (tick None) H).
Proof.
  intros Hs Hc. unfold finish_run_postlock. apply wp_bind.
  eapply (wp_mono _ _ _ (fun _ H => H = G)).
  2: { destruct internal_txn; [done|apply wp_validate]. }
  intros valid H ->. destruct valid; cbn [negb].
  - apply wp_bind. eapply wp_mono; [|by eapply wp_mark]. intros ok H ->. destruct ok; cbn [negb].
    + split; [by eapply mgr_ok_other|]. by split.
    + apply wp_bind. eapply wp_mono; [|by apply wp_reset]. intros s' H (Hs' & Hi & Ho).
      cbn. destruct internal_txn; [done|]. split; [by eapply mgr_ok_other|].
      split; [by eapply idle_other|done].
  - apply wp_bind. eapply wp_mono; [|by apply wp_reset]. intros s' H (Hs' & Hi & Ho).
    split; [by eapply mgr_ok_other|]. split; [by eapply idle_other|done].
Qed.

Lemma wp_load_free {A} (p : prog tloc A) G Q :
  writes Free p -> (forall a, Q a G) -> wpt p G Q.
Proof. intros Hp HQ. eapply wp_mono; [|by apply wp_free]. by intros a H ->. Qed.

Lemma entries_ok_keys s f ks :
  entries_ok s f -> plan s = None -> entries_ok (with_keys s ks) f.
Proof. intros [H1 H2 H3 H4] Ep. constructor; cbn; try done. by rewrite Ep. Qed.

(** The keys registered are the declared ones, beside earlier ones. *)
Lemma wp_register t s prefix internal_txn G :
  mgr_ok t s G -> plan (key_entries s) = None ->
  wpo (register_run_preamble gxhash64 s prefix internal_txn) G (fun s' H =>
    mgr_ok t s' H /\ lock_prefix s' = Some prefix /\ exec_lock_armed s' = exec_lock_armed s /\
    plan (key_entries s') = None /\ held (key_entries s') = held (key_entries s) /\
    txn_barrier s' = txn_barrier s /\
    forall es, declared internal_txn s' prefix = Some es -> forall e, e ∈ es -> e ∈ keys (key_entries s')).
Proof.
  intros (f & tk & Ho & He & Et & Eb & Hl) Ep. unfold register_run_preamble.
  destruct (KeysBuffer.iter_with_lock (txn_keys (with_prefix s (Some prefix)))) as [qs|] eqn:Eq; [|done].
  apply wpo_let. apply wp_load_free; [done|]. intros v. cbn.
  split; [|split; [done|split; [done|split; [|split; [|split; [done|]]]]]].
  - exists f, tk. split; [done|]. cbn. destruct internal_txn; cbn.
    + split; [|done]. by apply entries_ok_keys.
    + split; [|done]. by repeat apply entries_ok_keys.
  - by destruct internal_txn.
  - by destruct internal_txn.
  - intros es Hes e Hin. unfold declared in Hes. cbn in Hes. cbn in Eq. rewrite Eq in Hes. cbn in Hes.
    injection Hes as <-. destruct internal_txn; cbn in *; rewrite !elem_of_app in *; tauto.
Qed.

Lemma wp_try_acquire_barrier t s G :
  mgr_ok t s G ->
  wpt (try_acquire_barrier s) G (fun '(ok, s') H => mgr_ok t s' H /\
    exists b, s' = with_barrier s b).
Proof.
  intros (f & tk & Ho & He & Et & Eb & Hl). unfold try_acquire_barrier.
  destruct (txn_barrier s) as [b|] eqn:E.
  - cbn. split; [exists f, tk; by rewrite E|]. exists (txn_barrier s). by destruct s.
  - apply wp_bind. rewrite Et. destruct tk; [done|]. eapply wp_mono; [|by apply wp_session_acquire].
    intros r H (tk & -> & HH). cbn. split; [by exists f, tk|eauto].
Qed.

(** Locking the registered keys. *)
Lemma locked_running t s k ok prefix internal_txn H tk :
  locked_post t (tick tk) tbl (key_entries s) ok k H ->
  txn_barrier s = resize_barrier <$> tk -> log_free (aof_log s) ->
  (forall es, declared internal_txn s prefix = Some es -> forall e, e ∈ es -> e ∈ keys (key_entries s)) ->
  mgr_ok t (with_entries s k) H /\
  if ok then forall es, declared internal_txn (with_entries s k) prefix = Some es ->
         covered (key_entries (with_entries s k)) es
  else held k = [].
Proof.
  intros (f & Ho & He & Et & Hk & Hc) Eb Hl Hd. split; [by exists f, tk|].
  destruct ok; [|done]. intros es Hes e Hin. cbn. apply Hc. rewrite Hk. by eapply Hd.
Qed.

Lemma waiting_locked s k :
  waiting s -> exec_lock_armed s = true -> held k = [] -> keys k ≡ₚ keys (key_entries s) ->
  waiting (with_entries s k).
Proof.
  intros [_ Hw] Ea Eh Hk. rewrite Ea in Hw. split; [done|]. cbn. rewrite Ea.
  destruct Hw as (p & Ep & Hd). exists p. split; [done|]. intros es Hes e Hin. rewrite Hk. by eapply Hd.
Qed.

(** The thread arm. *)
Lemma wp_run t s prefix internal_txn fail_fast over G :
  mgr_ok t s G -> idle s ->
  wpo (Manager.run gxhash64 rounds fuel s prefix internal_txn fail_fast over) G (fun '(ok, s') H =>
    mgr_ok t s' H /\ if (ok : bool) then running internal_txn s' prefix
                     else idle s' /\ owns t (fun _ => Latch.Idle) (tick None) H).
Proof.
  intros Hs [[Eh Hp] Ea]. rewrite Ea in Hp. unfold Manager.run. apply wpo_bind. unfold begin_run_preamble.
  apply wpo_bind. eapply (wpo_mono _ _ (fun s' H => mgr_ok t s' H /\ exists b, s' = with_barrier s b)).
  2: { destruct Hs as (f & tk & Ho & He & Et & Eb & Hl). destruct (txn_barrier s) as [b|] eqn:E.
       - cbn. split; [exists f, tk; by rewrite E|]. exists (txn_barrier s). by destruct s.
       - apply wpo_bind. rewrite Et. destruct tk; [done|]. eapply wpo_mono; [|by apply wp_acquire_txn].
         intros r H (e & -> & HH). cbn. split; [by exists f, (Some e)|eauto]. }
  intros s1 H1 [Hs1 (b & ->)]. eapply wpo_mono; [|apply (wp_register t _ _ _ _ Hs1); exact Hp].
  clear G Hs. intros s2 H2 (Hs2 & _ & _ & Hp2 & Eh2 & _ & Hd2). cbn in Eh2. rewrite Eh in Eh2.
  destruct Hs2 as (f & tk & Ho & He & Et & Eb & Hl). apply wpo_bind.
  eapply (wpo_mono _ _ (fun '(ok, k) H => locked_post t (tick tk) tbl (key_entries s2) ok k H)).
  2: { destruct fail_fast; [by eapply wp_try_lock_all_keys|]. apply wpo_bind.
       eapply wpo_mono; [|eapply (wp_lock_all_keys t (tick tk) fuel tbl pin_free); [exact Ho|exact He|done..]]. done. }
  intros [ok k] H Hk. destruct (locked_running t s2 k ok prefix internal_txn H tk Hk Eb Hl Hd2) as [Hs3 Hc].
  destruct ok; cbn [negb].
  - apply wpo_lift. by apply wp_finish_run_postlock.
  - apply wpo_let. eapply wp_mono; [|by apply wp_reset]. intros s4 H4 (Hs4 & Hi & Ho4). cbn.
    destruct internal_txn; [done|]. split; [by eapply mgr_ok_other|]. split; [by eapply idle_other|done].
Qed.

(** The asynchronous arm: the keys are registered once per prefix. *)
Lemma wp_arm_exec t s prefix G :
  mgr_ok t s G -> waiting s ->
  wpo (arm_exec gxhash64 s prefix) G (fun r H =>
    match r with
    | inl s' => mgr_ok t s' H /\ waiting s'
    | inr s' => mgr_ok t s' H /\ waiting s' /\ exec_lock_armed s' = true /\ lock_prefix s' = Some prefix
    end).
Proof.
  intros Hs Hw. unfold arm_exec. destruct (exec_lock_armed s) eqn:Ea; cbn [negb].
  - destruct (_ || _) eqn:Ec.
    + destruct Hs as (f & tk & Ho & He & Et & Eb & Hl). apply wpo_let.
      eapply wp_mono; [|by eapply wp_end_barrier]. intros s1 H1 [-> Ho1]. apply wpo_let.
      assert (Hs1 : mgr_ok t (with_barrier s None) H1) by (by exists f, None).
      eapply wp_mono; [|by apply wp_try_acquire_barrier]. intros [ok s2] H2 [Hs2 (b & ->)].
      destruct ok; cbn [negb]; [|by split].
      destruct Hs2 as (f2 & tk2 & Ho2 & He2 & Et2 & Eb2 & Hl2). apply wpo_let.
      eapply wp_mono; [|by eapply wp_unlock_all_keys]. intros k H3 [-> Ho3]. apply wpo_bind.
      eapply wpo_mono; [|apply (wp_register t); [|done]].
      2: { exists (fun _ => Latch.Idle), tk2. split; [done|]. cbn. split; [apply new_entries_ok|done]. }
      intros s4 H4 (Hs4 & Ep & Ea4 & Hp4 & Eh4 & _ & Hd4). cbn in Ea4, Eh4 |- *. rewrite Ea in Ea4.
      split; [done|]. split; [|done]. split; [done|]. rewrite Ea4. eauto.
    + apply orb_false_elim in Ec as [_ Ec]. cbn. split; [done|]. split; [done|]. split; [done|].
      destruct Hw as [_ Hw]. rewrite Ea in Hw. destruct Hw as (p & Ep & _). rewrite Ep in Ec |- *.
      apply negb_false_iff, bool_decide_eq_true in Ec. by subst.
  - apply wpo_let. eapply wp_mono; [|by apply wp_try_acquire_barrier]. intros [ok s2] H2 [Hs2 (b & ->)].
    destruct Hw as [Eh Hp]. rewrite Ea in Hp. destruct ok; cbn [negb].
    + apply wpo_bind. eapply wpo_mono; [|apply (wp_register t _ _ _ _ Hs2); exact Hp].
      intros s4 H4 (Hs4 & Ep & _ & Hp4 & Eh4 & _ & Hd4). cbn in Eh4. rewrite Eh in Eh4. cbn.
      split; [by eapply mgr_ok_other|]. split; [|done]. split; [done|]. cbn. eauto.
    + split; [done|]. split; [done|]. cbn. by rewrite Ea.
Qed.

Lemma wp_run_exec t s prefix G :
  mgr_ok t s G -> waiting s ->
  wpo (run_exec gxhash64 fuel s prefix) G (fun '(r, s') H => mgr_ok t s' H /\
    match r with
    | ExecStarted => running false s' prefix
    | Contended => waiting s'
    | ExecAborted => idle s' /\ owns t (fun _ => Latch.Idle) (tick None) H
    end).
Proof.
  intros Hs Hw. unfold run_exec. apply wpo_bind. eapply wpo_mono; [|by apply wp_arm_exec].
  intros [s1|s1] H1; [done|]. intros (Hs1 & Hw1 & Ea & Ep). destruct Hs1 as (f & tk & Ho & He & Et & Eb & Hl).
  apply wpo_bind. eapply wpo_mono; [|eapply (wp_try_lock_all_keys_once t (tick tk) fuel tbl); try done; apply Hw1].
  intros [ok k] H2 Hk. assert (Hd : forall es, declared false s1 prefix = Some es ->
    forall e, e ∈ es -> e ∈ keys (key_entries s1)).
  { destruct Hw1 as [_ Hw1]. rewrite Ea in Hw1. destruct Hw1 as (p & Ep' & Hd). rewrite Ep in Ep'.
    by injection Ep' as <-. }
  destruct (locked_running t s1 k ok prefix false H2 tk Hk Eb Hl Hd) as [Hs2 Hc].
  destruct ok; cbn [negb].
  - apply wpo_let. eapply wp_mono; [|by eapply (wp_finish_run_postlock t _ false prefix)].
    by intros [[] s3] H3 [Hs3 Hr].
  - split; [done|]. apply waiting_locked; [done..|]. by destruct Hk as (? & ? & ? & ? & ? & ?).
Qed.

(** ** Working *)

(** As [owns], with marks raised at most at the keys [es]. *)
Definition marked (t : nat) (ix : PinnedIndex) (f : bkey -> Latch.lstate) (n : Z -> Z)
    (es : list TxnKeyEntry) (G : ghost) : Prop :=
  exists mk, (forall k, latches G k = Latch.mkGhost t (f k) (mk k)) /\ (forall e, tickets G e = n e) /\
    forall k, mk k <> 0 -> k ∈ entry_key ix <$> es.

Lemma owns_marked t ix f n es G : owns t f n G -> marked t ix f n es G.
Proof. intros [H1 H2]. by exists (fun _ => 0). Qed.

Lemma marked_owns t ix f n G : marked t ix f n [] G -> owns t f n G.
Proof.
  intros (mk & H1 & H2 & H3). split; [|done]. intros k. rewrite H1. f_equal.
  destruct (decide (mk k = 0)) as [|Hne]; [done|]. by apply H3, not_elem_of_nil in Hne.
Qed.

Lemma wp_store_mark t k v st G mkk :
  latches G k = Latch.mkGhost t st mkk -> Latch.flag_ok (Latch.mkGhost t st v) ->
  wpt (Atomic.store (Inside k t) v) G (fun _ H => moved G k (Latch.mkGhost t st v) H).
Proof.
  intros Hk Hf.
  change (Atomic.store (Inside k t) v) with (relocate (at_bucket k) (Atomic.store (Latch.Flag t) v)).
  eapply wp_mono; [|apply (wp_at k _ _ (fun _ h => h = Latch.mkGhost t st v))].
  - by intros ? H (h & -> & Hm).
  - rewrite Hk. by apply (Latch.wp_flag (Ret tt) (Latch.mkGhost t st mkk)).
Qed.

Lemma wp_raise t ix f n es es' v G :
  marked t ix f n es G -> (forall e, e ∈ es' -> e ∈ es) ->
  (forall e, e ∈ es' -> Latch.flag_ok (Latch.mkGhost t (f (entry_key ix e)) v)) ->
  wpt (set_marks t ix es' v) G (fun _ H => marked t ix f n es H).
Proof.
  revert G. induction es' as [|e es' IH]; intros G Hm Hsub Hf; [done|]. cbn [set_marks].
  destruct Hm as (mk & H1 & H2 & H3). apply wp_bind.
  eapply wp_mono; [|eapply wp_store_mark; [apply H1|apply Hf; left]].
  intros ? H [M1 M2]. apply IH; [|intros e' He'; apply Hsub; by right|intros e' He'; apply Hf; by right].
  exists (fupd mk (entry_key ix e) v). split; [|split; [by intros x; rewrite M2|]].
  - intros k. rewrite M1. unfold fupd. by case_decide; subst.
  - intros k. unfold fupd. case_decide as E; [|apply H3]. intros _. subst k.
    apply list_elem_of_fmap. exists e. split; [done|]. apply Hsub. left.
Qed.

Lemma wp_lower t ix f n es G :
  marked t ix f n es G -> wpt (set_marks t ix es 0) G (fun _ H => owns t f n H).
Proof.
  revert G. induction es as [|e es IH]; intros G Hm; cbn [set_marks]; [by eapply marked_owns|].
  destruct Hm as (mk & H1 & H2 & H3). apply wp_bind.
  eapply wp_mono; [|eapply wp_store_mark; [apply H1|by left]].
  intros ? H [M1 M2]. apply IH.
  exists (fupd mk (entry_key ix e) 0). split; [|split; [by intros x; rewrite M2|]].
  - intros k. rewrite M1. unfold fupd. by case_decide; subst.
  - intros k. unfold fupd. case_decide as E; [done|]. intros Hk. apply H3 in Hk.
    rewrite fmap_cons, elem_of_cons in Hk. destruct Hk; congruence.
Qed.

Lemma strong_flag t lt st v :
  strong lt st -> v = (if is_exclusive lt then 2 else 1) -> Latch.flag_ok (Latch.mkGhost t st v).
Proof. intros Hs ->. unfold Latch.flag_ok. cbn. destruct st, lt; cbn in *; auto 6; done. Qed.

Lemma wp_work t internal_txn s prefix p G :
  mgr_ok t s G -> running internal_txn s prefix -> writes Free p ->
  wpo (work t internal_txn s prefix p) G (fun _ H => mgr_ok t s H).
Proof.
  intros Hs [_ Hr] Hp. unfold work. destruct (declared internal_txn s prefix) as [es|]; [|done].
  specialize (Hr es eq_refl). pose proof Hs as (f & tk & Ho & He & Et & Eb & Hl).
  destruct (latch (key_entries s)) as [ix|] eqn:El; [|apply wpo_lift, wp_load_free; done].
  assert (Hst : forall e, e ∈ es -> strong (lock_type e) (f (entry_key ix e))).
  { intros e Hin. destruct (Hr e Hin) as (ix' & El' & Hc). rewrite El in El'. injection El' as <-.
    pose proof (eo_hold _ _ He) as Hf. pose proof (eo_wf _ _ He) as Hw. rewrite El in Hf, Hw.
    rewrite Hf. by apply covers_strong. }
  assert (Hfilter : forall (q : TxnKeyEntry -> bool) e, e ∈ List.filter q es -> e ∈ es /\ q e = true).
  { intros q e. rewrite !list_elem_of_In. apply filter_In. }
  apply wpo_lift, wp_bind. eapply wp_mono; [|apply (wp_raise t ix f (tick tk) es); [by apply owns_marked|..]].
  2: { intros e Hin. apply (Hfilter _ _ Hin). }
  2: { intros e Hin. destruct (Hfilter _ _ Hin) as [Hin' Hx]. eapply strong_flag; [by apply Hst|].
       by destruct (is_exclusive (lock_type e)). }
  intros ? H1 Hm1. apply wp_bind. eapply wp_mono; [|apply (wp_raise t ix f (tick tk) es); [exact Hm1|..]].
  2: { intros e Hin. apply (Hfilter _ _ Hin). }
  2: { intros e Hin. destruct (Hfilter _ _ Hin) as [Hin' Hx]. eapply strong_flag; [by apply Hst|]. by rewrite Hx. }
  intros ? H2 Hm2. apply wp_bind. apply wp_load_free; [done|]. intros _.
  eapply wp_mono; [|apply (wp_lower t ix f (tick tk) es); exact Hm2]. intros ? H3 Ho3. by exists f, tk.
Qed.

Lemma wp_reexpand t internal_txn s prefix' G :
  mgr_ok t s G -> state s = Running ->
  wpo (reexpand_for_generation_swap gxhash64 fuel s prefix') G (fun '(ok, s') H => mgr_ok t s' H /\
    state s' = Running /\ ((ok : bool) = true -> running internal_txn s' prefix')).
Proof.
  intros (f & tk & Ho & He & Et & Eb & Hl) Est. unfold reexpand_for_generation_swap.
  destruct (KeysBuffer.iter_with_lock (txn_keys s)) as [qs|] eqn:Eq; [|done]. apply wpo_bind.
  eapply wpo_mono; [|eapply (wp_try_lock_incremental_entries t (tick tk) fuel tbl pin_free); done].
  intros [ok k] H (f' & Ho' & He' & Et' & Hc).
  assert (Hs' : mgr_ok t (with_entries (with_writes s (perform_writes s || queued_writes qs)) k) H)
    by (by exists f', tk).
  destruct ok; cbn; [|by split; [|split]].
  split; [by eapply mgr_ok_other|]. split; [done|]. intros _. split; [done|].
  intros es Hes e Hin. unfold declared in Hes. cbn in Hes. rewrite Eq in Hes. cbn in Hes.
  injection Hes as <-. cbn. apply (Hc eq_refl). rewrite elem_of_app in *.
  destruct internal_txn; [|done]. right. destruct Hin as [Hin|]; [by apply not_elem_of_nil in Hin|done].
Qed.

Lemma wp_perform t internal_txn l s prefix G :
  mgr_ok t s G -> running internal_txn s prefix -> Forall op_free l ->
  wpo (perform t internal_txn s prefix l) G (fun s' H => mgr_ok t s' H /\ state s' = Running).
Proof.
  intros Hs Hr Hl. revert s prefix G Hs Hr.
  induction Hl as [|[p|prefix'] l Hp Hl IH]; intros s prefix G Hs Hr; cbn [perform].
  - split; [done|apply Hr].
  - apply wpo_bind. eapply wpo_mono; [|by apply wp_work]. intros ? H Hs'. by eapply IH.
  - apply wpo_bind. eapply wpo_mono; [|apply (wp_reexpand t internal_txn); [done|apply Hr]].
    intros [[] s'] H (Hs' & Est & Hr'); [|done]. apply IH; auto.
Qed.

(** ** Whole sessions *)

(** Between transactions: nothing owned, nothing registered. *)
Definition at_rest (t : nat) (s : TransactionManager) (H : ghost) : Prop :=
  mgr_ok t s H /\ idle s /\ owns t (fun _ => Latch.Idle) (tick None) H.

Lemma wp_end_as t s internal_txn e G :
  mgr_ok t s G -> state s = Running ->
  wpt (end_txn_as s internal_txn e) G (fun s' H => at_rest t s' H).
Proof.
  intros Hs Est. destruct e; cbn [end_txn_as].
  - apply wp_bind. unfold commit. apply wp_bind. eapply wp_mono; [|by eapply wp_mark]. intros ok H ->.
    apply wp_bind. eapply wp_mono; [|apply (wp_reset t)]; [done|].
    destruct internal_txn; [done|by eapply mgr_ok_other].
  - apply wp_bind. unfold finish_abandoned. rewrite Est. apply wp_bind.
    eapply wp_mono; [|by eapply wp_mark]. intros ok H ->.
    apply wp_bind. eapply wp_mono; [|by apply (wp_reset t)]. done.
  - by apply wp_reset.
Qed.

Lemma wp_exec_attempts t prefixes s G :
  mgr_ok t s G -> waiting s ->
  wpo (exec_attempts s prefixes) G (fun '(o, s') H =>
    match o with Some prefix => mgr_ok t s' H /\ running false s' prefix | None => at_rest t s' H end).
Proof.
  revert s G. induction prefixes as [|prefix rest IH]; intros s G Hs Hw; cbn [exec_attempts].
  - apply wpo_let. eapply wp_mono; [|by apply (wp_reset t)]. done.
  - apply wpo_bind. eapply wpo_mono; [|by apply wp_run_exec].
    intros [[] s'] H [Hs' Hr]; [done|by apply IH|]. split; [done|by destruct Hr].
Qed.

Lemma watch_all_rest t l s G :
  at_rest t s G -> wpt (watch_all s l) G (fun s' H => at_rest t s' H).
Proof.
  revert s G. induction l as [|[prefix key] l IH]; intros s G Hs; [done|]. cbn [watch_all].
  apply wp_bind. unfold watch. apply wp_bind. apply wp_load_free.
  { unfold Watch.add_watch. by destruct (existsb _ _). }
  intros w. apply IH. destruct Hs as (Hs & Hi & Ho).
  split; [by eapply mgr_ok_other|]. split; [by eapply idle_other|done].
Qed.

Lemma queue_all_rest t l s G : at_rest t s G -> at_rest t (queue_all s l) G.
Proof.
  unfold queue_all. revert s. induction l as [|[key lt] l IH]; intros s Hs; cbn [fold_left]; [done|].
  apply IH. destruct Hs as (Hs & Hi & Ho).
  split; [by eapply mgr_ok_other|]. split; [by eapply idle_other|done].
Qed.

Lemma wp_serve t s r G :
  at_rest t s G -> Forall op_free (ops r) -> wpo (serve t s r) G (fun s' H => at_rest t s' H).
Proof.
  intros Hs Hf. unfold serve. apply wpo_let. eapply wp_mono; [|by apply watch_all_rest].
  clear Hs. intros s1 H1 Hs1. apply (queue_all_rest t (queued r)) in Hs1. destruct Hs1 as (Hs1 & Hi1 & _).
  set (s2 := with_state _ Started).
  assert (Hs2 : mgr_ok t s2 H1) by (by eapply mgr_ok_other).
  assert (Hi2 : idle s2) by (by eapply idle_other). apply wpo_bind.
  eapply (wpo_mono _ _ (fun '(o, s') H => match o with
    | Some prefix => mgr_ok t s' H /\ running (internal r) s' prefix
    | None => at_rest t s' H end)).
  - intros [[prefix|] s3] H3; [|done]. intros [Hs3 Hr3]. apply wpo_bind.
    eapply wpo_mono; [|by eapply wp_perform]. intros s4 H4 [Hs4 Hst4]. apply wpo_lift. by apply wp_end_as.
  - unfold internal, begin_txn. destruct (how r) as [prefixes|prefix internal_txn ff over].
    + apply wp_exec_attempts; [done|apply Hi2].
    + apply wpo_bind. eapply wpo_mono; [|by apply wp_run].
      intros [[] s3] H3 [Hs3 Hr]; [done|]. split; [done|by destruct Hr].
Qed.

Definition finished (r : outcome unit) (H : ghost) : Prop :=
  match r with Done _ => exists t, owns t (fun _ => Latch.Idle) (tick None) H | _ => True end.

Lemma wp_serve_all t l s G :
  at_rest t s G -> Forall (fun r => Forall op_free (ops r)) l ->
  wpt (serve_all t s l) G finished.
Proof.
  intros Hs Hl. revert s G Hs. induction Hl as [|r l Hr Hl IH]; intros s G Hs; cbn [serve_all].
  - exists t. apply Hs.
  - apply wp_bind. eapply wp_mono; [|by eapply wp_serve]. intros [] H; try done. apply IH.
Qed.

Definition start_ghost (t : nat) : ghost := mkGhost (fun _ => Latch.mkGhost t Latch.Idle 0) (fun _ => 0).

Lemma wp_thread t th : thread_free th -> wpt (thread_prog t th) (start_ghost t) finished.
Proof.
  assert (Ho : owns t (fun _ => Latch.Idle) (tick None) (start_ghost t)) by done.
  destruct th as [log requests|p]; cbn [thread_free thread_prog].
  - intros [Hl Hr]. apply wp_serve_all; [|done]. split; [|done].
    exists (fun _ => Latch.Idle), None. split; [done|]. split; [apply new_entries_ok|done].
  - intros Hp. apply wp_bind. apply wp_load_free; [done|]. intros ?. by exists t.
Qed.

Lemma quiet_inv m n : quiet m -> Inv m (start_ghost <$> seq 0 n).
Proof.
  intros [Hw Hm Ht]. constructor.
  - intros k. destruct (Hw k) as (H1 & H2 & H3).
    assert (Hz : forall (f : Latch.ghost -> Z), (forall t, f (Latch.mkGhost t Latch.Idle 0) = 0) ->
      zsum f ((fun g => latches g k) <$> (start_ghost <$> seq 0 n)) = 0).
    { intros f Hf. generalize 0%nat. induction n as [|n' IH]; intros i; cbn; [done|].
      rewrite Hf. apply IH. }
    constructor; [done|by rewrite Hz|by rewrite Hz, H3|..].
    + intros i g Hi Hst. done.
    + intros i g Hi. rewrite !list_lookup_fmap in Hi.
      destruct (seq 0 n !! i) as [j|] eqn:Ej; [|done]. apply lookup_seq in Ej as [-> Hlt].
      cbn in Hi. injection Hi as <-. cbn. split; [done|]. split; [apply Hm|by left].
  - intros e. rewrite Ht. assert (Hz : zsum (fun g => tickets g e) (start_ghost <$> seq 0 n) = 0).
    { generalize 0%nat. induction n as [|n' IH]; intros i; cbn; [done|]. apply IH. }
    by rewrite Hz.
Qed.

Lemma threads_ok m l :
  quiet m -> Forall thread_free l -> pool_ok Inv finished (m, threads l).
Proof.
  intros Hq Hl. exists (start_ghost <$> seq 0 (length l)). split; [by apply quiet_inv|].
  unfold threads. apply Forall2_same_length_lookup_2; cbn [snd].
  - by rewrite length_imap, length_fmap, length_seq.
  - intros i p g Hp Hg. rewrite list_lookup_imap in Hp. rewrite list_lookup_fmap in Hg.
    destruct (l !! i) as [th|] eqn:Ei; [|done]. cbn in Hp. injection Hp as <-.
    destruct (seq 0 (length l) !! i) as [j|] eqn:Ej; [|done]. apply lookup_seq in Ej as [-> _].
    cbn in Hg. injection Hg as <-. apply wp_thread.
    eapply Forall_lookup_1; [exact Hl|exact Ei].
Qed.

(** C2: transactions are isolated from each other.  Sessions run [MULTI]/[EXEC]
    transactions and threads run transactions of their own through the
    manager, with watched and queued keys, retries, changes of the session's
    prefix, upgrades and every way to end, beside threads that swap engines,
    bump versions or write records, in any interleaving.  While a transaction
    works with a key it declared for writing, no other transaction works with a
    key of the same bucket, declared for reading or for writing.  The bodies of
    the transactions, the log and the other threads are arbitrary programs that
    do not write the words which hold the latches, nor the counters of
    registered transactions ([thread_free]); a body that extends a bucket's
    chain writes such a word and is not covered. *)
Theorem exec_isolation l m0 m ps k i j :
  quiet m0 -> Forall thread_free l ->
  rtc pstep (m0, threads l) (m, ps) ->
  (i < length l)%nat -> (j < length l)%nat -> i <> j ->
  m (Inside k i) = 2 -> m (Inside k j) = 0.
Proof.
  intros Hq Hl Hr Hi Hj Hij Hm.
  destruct (pool_safe Inv finished _ _ Hr (threads_ok m0 l Hq Hl)) as (gs & HI & Hall).
  pose proof (pstep_length _ _ Hr) as Hlen. cbn [snd] in Hlen, HI, Hall. unfold threads in Hlen.
  rewrite length_imap in Hlen. apply Forall2_length in Hall.
  by eapply (Latch.flag_exclusion (view k m) _ i j); [apply HI|rewrite length_fmap; lia..| |].
Qed.

(** C4: nothing leaks.  When all threads have finished, however their
    transactions went (committed, abandoned, refused, contended to the end,
    dropped), every bucket's latch is free and no engine counts an active
    transaction.  As in the theorem before, the bodies, the log and the other
    threads do not themselves write latch words or counters of registered
    transactions ([thread_free]). *)
Theorem exec_no_leak l m0 m ps :
  quiet m0 -> Forall thread_free l ->
  rtc pstep (m0, threads l) (m, ps) -> Forall (fun p => p = Ret (Done tt)) ps ->
  (forall k, Latch.shared_of (Latch.word (view k m)) = 0 /\ Latch.excl_of (Latch.word (view k m)) = false) /\
  (forall e, m (Engine e ActiveTxns) = 0).
Proof.
  intros Hq Hl Hr Hdone.
  destruct (pool_safe Inv finished _ _ Hr (threads_ok m0 l Hq Hl)) as (gs & [I1 I2] & Hall).
  cbn [fst snd] in *. assert (Hown : Forall (fun g => exists t, owns t (fun _ => Latch.Idle) (tick None) g) gs).
  { apply Forall_lookup. intros i g Hg. destruct (Forall2_lookup_r _ _ _ _ _ Hall Hg) as (p & Hp & Hwp).
    rewrite (proj1 (Forall_lookup _ _) Hdone i p Hp) in Hwp. exact Hwp. }
  split.
  - intros k. eapply Latch.idle_free; [apply I1|]. apply Forall_fmap.
    eapply Forall_impl; [exact Hown|]. intros g (t & Ho & _). cbn. by rewrite Ho.
  - intros e. pose proof (I2 e) as E.
    assert (Hz : zsum (fun g => tickets g e) gs = 0); [|by rewrite Hz in E].
    clear -Hown. induction Hown as [|g gs (t & _ & Ht) _ IH]; [done|].
    unfold zsum in *. cbn. rewrite Ht. exact IH.
Qed.

End Client.

(** ** Two sessions on a table of eight buckets *)

Definition demo_memory : mem tloc := fun l =>
  match l with
  | Engine 1 ActiveIndex => 1
  | Engine 1 (IndexSize 1) => 8
  | _ => 0
  end.
Definition demo_map : Watch.WatchVersionMap := Watch.mkMap 15.
Definition demo_work : prog tloc unit := Atomic.store (Engine 1 (TableCell 1 (Slot (Main 5) 0))) 9.
Definition demo_log : TxnAofLog := mkLog 1 1 (fun _ => 0) (fun _ => 0) (fun _ _ _ _ => Ret true).
Definition demo_a : thread :=
  Session (Some demo_log)
    [mkRequest [([], [7])] [([3], Exclusive); ([5], Shared)] (Exec [[0]])
       [Work demo_work; SwapGeneration [1]; Work demo_work] Commit].
Definition demo_b : thread :=
  Session None
    [mkRequest [] [([3], Exclusive)] (Thread [0] true false (fun _ => false)) [Work demo_work] DropSession].
Abbreviation demo_prog := (thread_prog Hasher.toy_hash 1 demo_map 4 4).
Abbreviation demo_threads := (threads Hasher.toy_hash 1 demo_map 4 4 [demo_a; demo_b]).

Lemma demo_quiet : quiet demo_memory.
Proof.
  assert (Hz : forall e p b i, demo_memory (Engine e (TableCell p (Slot b i))) = 0) by (by intros [|[]|]).
  constructor; [|done|by intros [|[]|]]. intros [[e p] b].
  unfold Latch.word, view. cbn [at_bucket fst snd]. by rewrite Hz.
Qed.

Lemma demo_free : Forall thread_free [demo_a; demo_b].
Proof.
  repeat constructor; cbn; try lia; try done. intros l [= <-]. done.
Qed.

(** The first session has raised its marks: it owns the bucket of key [3]. *)
Definition demo_inside : mem tloc * tprog unit := run_for 22 (demo_prog 0%nat demo_a) demo_memory.

Lemma exec_isolation_witness :
  demo_inside.1 (Inside (1, 1, Main 3) 0%nat) = 2 /\ demo_inside.1 (Inside (1, 1, Main 3) 1%nat) = 0.
Proof.
  split; [vm_compute; reflexivity|].
  apply (exec_isolation Hasher.toy_hash 1 demo_map 4 4 [demo_a; demo_b] demo_memory demo_inside.1
           (<[0%nat := demo_inside.2]> demo_threads) _ 0 1);
    [apply demo_quiet|apply demo_free| |simpl; lia|simpl; lia|lia|vm_compute; reflexivity].
  apply run_for_steps. reflexivity.
Defined.

(** One session after the other. *)
Lemma exec_no_leak_witness :
  let m1 := (Atomic.run (demo_prog 0%nat demo_a) demo_memory).2 in
  let m2 := (Atomic.run (demo_prog 1%nat demo_b) m1).2 in
  m2 (Engine 1 (TableCell 1 (Slot (Main 3) 7))) = Bucket.RELEASE_NOTIFY_MASK /\
  m2 (Engine 1 ActiveTxns) = 0.
Proof.
  intros m1 m2. split; [vm_compute; reflexivity|].
  apply (exec_no_leak Hasher.toy_hash 1 demo_map 4 4 [demo_a; demo_b] demo_memory m2
           [Ret (Done tt); Ret (Done tt)]); [apply demo_quiet|apply demo_free| |by repeat constructor].
  pose proof (Atomic.run_steps (demo_prog 0%nat demo_a) demo_memory demo_threads 0 eq_refl) as S1.
  pose proof (Atomic.run_steps (demo_prog 1%nat demo_b) m1 [Ret (Done tt); demo_prog 1%nat demo_b] 1 eq_refl) as S2.
  replace (Atomic.run (demo_prog 0%nat demo_a) demo_memory).1 with (Done tt) in S1
    by (vm_compute; reflexivity).
  replace (Atomic.run (demo_prog 1%nat demo_b) m1).1 with (Done tt) in S2 by (vm_compute; reflexivity).
  etrans; [exact S1|exact S2].
Defined.

End Sessions.
