(* ===== verification/TxnData.v ===== *)
(** * Watched keys, queued keys and log routes of a transaction

    [WATCH] ([watch_version_map.rs], [txn_watched_keys_container.rs]) against the
    history of watches and writes; the buffer of queued keys
    ([txn_keys_buffer.rs]) as a round trip, and where it breaks; the access
    vectors of the AOF markers ([transaction_manager.rs]) as the set of routes. *)

From stdpp Require Import base list numbers option tactics gmap.
From Stdlib Require Import ZArith Lia Bool.
From S2P Require Import Prelude Bytes Hasher Atomic Txn.
Local Open Scope prog_scope.

Module TxnData.
Import Txn Txn.KeyEntries.

(** ** WATCH *)

Section Watching.
Import Watch.
Context (gxhash64 : list Z -> Z -> Z) (map : WatchVersionMap).

(** A session watches a key under a prefix, or somebody writes a key of the given
    version hash. *)
Inductive event : Type :=
| Watched (prefix key : list Z)
| Written (hash : Z).

Definition happen (st : TxnWatchedKeysContainer * mem tloc) (ev : event)
  : TxnWatchedKeysContainer * mem tloc :=
  match ev with
  | Watched prefix key => run (add_watch gxhash64 st.1 prefix key) st.2
  | Written h => (st.1, (run (increment_version map h) st.2).2)
  end.
Definition history (m : mem tloc) (l : list event) : TxnWatchedKeysContainer * mem tloc :=
  fold_left happen l (new map, m).

Definition version_slot (h : Z) : Z := Z.land h (size_mask map).
Definition watch_hash (prefix key : list Z) : Z := of_i64 (scoped_key_hash gxhash64 prefix key).

(** The number of writes to slot [i] in [l]. *)
Definition writes_to (i : Z) (l : list event) : Z :=
  zsum (fun ev => match ev with Written h => if version_slot h =? i then 1 else 0 | _ => 0 end) l.

(** The watch of [h] is the first of its key. *)
Definition slice_of (l : list event) (m0 : mem tloc) (s : WatchedKeySlice) : Prop :=
  exists l1 l2 prefix, l = l1 ++ Watched prefix (key s) :: l2 /\ hash s = watch_hash prefix (key s) /\
    version s = wrap 64 (m0 (Version (version_slot (hash s))) + writes_to (version_slot (hash s)) l1).

Lemma writes_to_app i l l' : writes_to i (l ++ l') = writes_to i l + writes_to i l'.
Proof. unfold writes_to, zsum. induction l as [|ev l IH]; cbn [app foldr]; lia. Qed.

Lemma writes_to_watched i p k l : writes_to i (Watched p k :: l) = writes_to i l.
Proof. unfold writes_to, zsum. cbn. lia. Qed.

Lemma writes_to_bound i l : 0 <= writes_to i l <= zlen l.
Proof.
  unfold writes_to, zlen, zsum. induction l as [|ev l IH]; cbn -[Z.add Z.of_nat]; [lia|].
  destruct ev as [|h]; [lia|]. destruct (version_slot h =? i); lia.
Qed.

Lemma writes_to_zero i l :
  writes_to i l = 0 <-> forall h, Written h ∈ l -> version_slot h <> i.
Proof.
  induction l as [|ev l IH].
  { split; [|done]. intros _ h Hin. by apply not_elem_of_nil in Hin. }
  pose proof (writes_to_bound i l) as Hb. change (ev :: l) with ([ev] ++ l) at 1. rewrite (writes_to_app i [ev] l).
  assert (E : writes_to i [ev] = match ev with Written h => if version_slot h =? i then 1 else 0 | _ => 0 end)
    by (unfold writes_to, zsum; cbn; lia). rewrite E. setoid_rewrite elem_of_cons.
  destruct ev as [p k|h].
  - rewrite Z.add_0_l, IH. split; [intros H h [?|]; [done|auto]|auto].
  - destruct (Z.eqb_spec (version_slot h) i) as [Eh|Eh].
    + split; [lia|]. intros H. exfalso. apply (H h); auto.
    + rewrite Z.add_0_l, IH. split; [|auto]. intros H h' [[= ->]|]; auto.
Qed.

Lemma wrap_succ x d : wrap 64 (wrap 64 x + d) = wrap 64 (x + d).
Proof. unfold wrap. by rewrite Z.add_mod_idemp_l by lia. Qed.

(** The memory and the container after a history. *)
Lemma history_state m l :
  (forall i, fits 64 (m (Version i))) ->
  version_map (history m l).1 = map /\
  (forall i, (history m l).2 (Version i) = wrap 64 (m (Version i) + writes_to i l)) /\
  (forall s, s ∈ key_slices (history m l).1 -> slice_of l m s) /\
  (forall l1 l2 prefix k, l = l1 ++ Watched prefix k :: l2 ->
     exists s, s ∈ key_slices (history m l).1 /\ key s = k /\ hash s = watch_hash prefix k /\
       exists l1', l1' `prefix_of` l1 /\
         version s = wrap 64 (m (Version (version_slot (hash s))) + writes_to (version_slot (hash s)) l1')).
Proof.
  intros Hm. unfold history. induction l as [|ev l IH] using rev_ind.
  { cbn. split; [done|]. split; [|split].
    - intros i. unfold writes_to, zsum. cbn. rewrite Z.add_0_r. by rewrite wrap_id.
    - intros s Hs. by apply not_elem_of_nil in Hs.
    - intros [|? ?] ? ? ? ?; done. }
  rewrite fold_left_app. cbn [fold_left]. destruct (fold_left happen l (new map, m)) as [c m'] eqn:E.
  destruct IH as (I1 & I2 & I3 & I4). cbn [fst snd] in *.
  assert (Hslice : forall s, slice_of l m s -> slice_of (l ++ [ev]) m s).
  { intros s (l1 & l2 & p & -> & H1 & H2). exists l1, (l2 ++ [ev]), p. by rewrite <- app_assoc. }
  assert (Hold : forall l1 l2 p k, l ++ [ev] = l1 ++ Watched p k :: l2 ->
    (l2 = [] /\ l1 = l /\ ev = Watched p k) \/ exists l2', l = l1 ++ Watched p k :: l2').
  { intros l1 l2 p k Hl. destruct l2 as [|x l2 _] using rev_ind.
    - left. apply app_inj_tail in Hl as [-> ->]. done.
    - right. exists l2. rewrite app_comm_cons, app_assoc in Hl. by apply app_inj_tail in Hl as [-> _]. }
  destruct ev as [p k|h]; cbn [happen fst snd].
  - assert (Ew : forall i, writes_to i (l ++ [Watched p k]) = writes_to i l).
    { intros i. rewrite writes_to_app. unfold writes_to at 2, zsum. cbn. lia. }
    unfold add_watch. fold (watch_hash p k). destruct (existsb _ _) eqn:Ex.
    + cbn. split; [done|]. split; [intros i; by rewrite Ew|]. split; [auto|].
      intros l1 l2 p' k' Hl. destruct (Hold _ _ _ _ Hl) as [(-> & -> & [= <- <-])|(l2' & Hl')]; [|eauto].
      apply existsb_exists in Ex as (s & Hs & Hb). apply andb_true_iff in Hb as [Hh Hk].
      apply Z.eqb_eq in Hh. apply bool_decide_eq_true in Hk. apply list_elem_of_In in Hs.
      exists s. split; [done|]. split; [done|]. split; [done|].
      destruct (I3 s Hs) as (a & b & q & Ea & _ & Ev). exists a. split; [|done]. rewrite Ea. by eexists.
    + unfold read_version. cbn -[wrap]. rewrite I1, I2.
      split; [done|]. split; [intros i; by rewrite Ew, I2|]. split.
      * intros s [Hs| ->%list_elem_of_singleton]%elem_of_app; [auto|].
        exists l, [], p. by cbn.
      * intros l1 l2 p' k' Hl. destruct (Hold _ _ _ _ Hl) as [(-> & -> & [= <- <-])|(l2' & Hl')].
        -- eexists. split; [apply elem_of_app; right; left|]. cbn. do 2 (split; [done|]). by exists l.
        -- destruct (I4 _ _ _ _ Hl') as (s & Hs & Hr). exists s. split; [|done]. apply elem_of_app. by left.
  - cbn -[wrap]. split; [done|]. split; [|split; [auto|]].
    + intros i. rewrite writes_to_app. unfold writes_to at 2, zsum. cbn -[wrap upd].
      fold (version_slot h). destruct (Z.eqb_spec (version_slot h) i) as [<-|Hne].
      * rewrite upd_eq. unfold wadd. rewrite I2, wrap_succ. f_equal. lia.
      * rewrite upd_ne by congruence. rewrite I2. f_equal. lia.
    + intros l1 l2 p' k' Hl. destruct (Hold _ _ _ _ Hl) as [(_ & _ & ?)|(l2' & Hl')]; [done|eauto].
Qed.

Lemma validate_run l m :
  (run (validate_slices map l) m).1 = true <->
  forall s, s ∈ l -> m (Version (version_slot (hash s))) = version s.
Proof.
  induction l as [|s l IH]; cbn; [split; [intros _ s Hs; by apply not_elem_of_nil in Hs|done]|].
  fold (version_slot (hash s)). setoid_rewrite elem_of_cons.
  destruct (Z.eqb_spec (m (Version (version_slot (hash s)))) (version s)) as [E|E].
  - rewrite IH. split; [intros H x [->|]; auto|auto].
  - split; [done|]. intros H. exfalso. apply E. auto.
Qed.

Lemma wrap_same x a b : 0 <= a <= b -> b < 2 ^ 64 -> wrap 64 (x + b) = wrap 64 (x + a) -> a = b.
Proof.
  intros Ha Hb E. unfold wrap in E. assert (Hz : (b - a) mod 2 ^ 64 = 0).
  { replace (b - a) with ((x + b) - (x + a)) by lia. rewrite Zminus_mod, E, Z.sub_diag. done. }
  rewrite Z.mod_small in Hz; lia.
Qed.

(** C9: optimistic locking is exact.  After any history of watches by a session
    and writes by anybody (fewer than 2^64), the check of [EXEC] succeeds exactly
    when no key was written after the session first watched it, where keys that
    share a slot of the version map count as one.  Watching a key again does not
    forget the writes since the first watch. *)
Theorem watch_detects m l c m' :
  (forall i, fits 64 (m (Version i))) -> zlen l < 2 ^ 64 ->
  history m l = (c, m') ->
  (run (validate_watch_version c) m').1 = true <->
  forall l1 l2 prefix key, l = l1 ++ Watched prefix key :: l2 ->
    forall h, Written h ∈ l2 -> version_slot h <> version_slot (watch_hash prefix key).
Proof.
  intros Hm Hlen E. destruct (history_state m l Hm) as (I1 & I2 & I3 & I4).
  rewrite E in I1, I2, I3, I4. cbn [fst snd] in *.
  unfold validate_watch_version. rewrite I1, validate_run. split.
  - intros Hv l1 l2 prefix k Hl. rewrite <- writes_to_zero.
    destruct (I4 _ _ _ _ Hl) as (s & Hs & Ek & Eh & l1' & [r Hpre] & Ev).
    pose proof (Hv s Hs) as Hs'. rewrite I2, Ev in Hs'. rewrite <- Eh. set (i := version_slot (hash s)) in *.
    pose proof (writes_to_bound i l) as Hb. pose proof (writes_to_bound i l1') as Hb1.
    assert (Hsum : writes_to i l = writes_to i l1' + writes_to i r + writes_to i l2).
    { by rewrite Hl, Hpre, !writes_to_app, writes_to_watched. }
    pose proof (writes_to_bound i r). pose proof (writes_to_bound i l2).
    pose proof (wrap_same _ (writes_to i l1') (writes_to i l) ltac:(lia) ltac:(lia) Hs'). lia.
  - intros Hno s Hs. destruct (I3 s Hs) as (l1 & l2 & p & Hl & Eh & Ev).
    rewrite I2, Ev. f_equal. f_equal. rewrite Hl, writes_to_app, writes_to_watched.
    rewrite (proj2 (writes_to_zero _ l2)); [lia|].
    rewrite Eh. by apply (Hno l1 l2 p (key s)).
Qed.

End Watching.

(** The session watches a key twice; the write in between is not forgotten. *)
Lemma watch_detects_witness :
  let h := watch_hash Hasher.toy_hash [] [7] in
  let l := [Watched [] [7]; Written h; Watched [] [7]] in
  let '(c, m) := history Hasher.toy_hash (Watch.mkMap 15) (fun _ => 0) l in
  (run (Watch.validate_watch_version c) m).1 <> true.
Proof.
  intros h l. destruct (history Hasher.toy_hash (Watch.mkMap 15) (fun _ => 0) l) as [c m] eqn:E.
  rewrite (watch_detects Hasher.toy_hash (Watch.mkMap 15) (fun _ => 0) l c m); [|done|done|done].
  intros H. apply (H [] [Written h; Watched [] [7]] [] [7] eq_refl h); [left|done].
Defined.

(** ** Queued keys *)

Section Buffer.
Import KeysBuffer.

Definition push_all (l : list (list Z * LockType)) : TxnKeysBuffer :=
  fold_left (fun b '(key, t) => push b key t) l new.

(** The end offsets of consecutive keys. *)
Fixpoint ends (start : Z) (l : list (list Z * LockType)) : list Z :=
  match l with
  | [] => []
  | (key, _) :: rest => (start + zlen key) :: ends (start + zlen key) rest
  end.

Definition total (l : list (list Z * LockType)) : Z := zlen (concat l.*1).

Lemma total_cons key t l : total ((key, t) :: l) = zlen key + total l.
Proof. unfold total, zlen. cbn. rewrite length_app. lia. Qed.

Lemma total_nonneg l : 0 <= total l.
Proof. unfold total, zlen. lia. Qed.

Lemma push_all_state l b :
  zlen (bytes b) + total l < 2 ^ 32 ->
  fold_left (fun b '(key, t) => push b key t) l b =
    mkBuffer (bytes b ++ concat l.*1) (offsets b ++ ends (zlen (bytes b)) l) (lock_types b ++ l.*2).
Proof.
  revert b. induction l as [|[key t] l IH]; intros b Hb; cbn [fold_left].
  { destruct b. cbn. by rewrite !app_nil_r. }
  rewrite total_cons in Hb. pose proof (total_nonneg l).
  assert (Hz : zlen (bytes b ++ key) = zlen (bytes b) + zlen key) by (unfold zlen; rewrite length_app; lia).
  rewrite IH; unfold push; cbn [bytes offsets lock_types]; rewrite Hz; [|lia].
  rewrite wrap_id by (unfold fits, zlen in *; lia). cbn. by rewrite <- !app_assoc.
Qed.

Lemma slice_middle (a b c : list Z) : slice (zlen a) (zlen a + zlen b) (a ++ b ++ c) = b.
Proof.
  unfold slice, zlen. rewrite drop_app_length' by lia. rewrite take_app_length' by lia. done.
Qed.

Lemma iter_from_ends pre l :
  iter_from (pre ++ concat l.*1) (zlen pre) (ends (zlen pre) l) = Some l.*1.
Proof.
  revert pre. induction l as [|[key t] l IH]; intros pre; [done|]. cbn [ends iter_from].
  unfold get_unchecked.
  assert (Hz : zlen (pre ++ concat ((key, t) :: l).*1) = zlen pre + zlen key + zlen (concat l.*1))
    by (unfold zlen; cbn; rewrite !length_app; lia).
  rewrite (proj2 (Z.leb_le _ _)) by (unfold zlen; lia).
  rewrite (proj2 (Z.leb_le (zlen pre + zlen key) _)) by (rewrite Hz; unfold zlen; lia). cbn [andb mbind option_bind].
  change (concat ((key, t) :: l).*1) with (key ++ concat l.*1). rewrite slice_middle.
  assert (Hk : zlen (pre ++ key) = zlen pre + zlen key) by (unfold zlen; rewrite length_app; lia).
  specialize (IH (pre ++ key)). rewrite <- app_assoc, Hk in IH. by rewrite IH.
Qed.

(** The flat buffer of queued keys loses nothing: as long as the keys have
    fewer than 2^32 bytes together, the iterator gives back exactly the keys
    that were pushed, in order, each with its lock type. *)
Theorem keys_buffer_roundtrip l :
  total l < 2 ^ 32 -> iter_with_lock (push_all l) = Some l.
Proof.
  intros Hl. unfold push_all. rewrite push_all_state by done. unfold iter_with_lock, iter.
  cbn [bytes offsets lock_types new app]. pose proof (iter_from_ends [] l) as E. cbn in E.
  change (zlen []) with 0 in *. rewrite E. cbn. by rewrite zip_fst_snd.
Qed.

Lemma keys_buffer_roundtrip_witness :
  iter_with_lock (push_all [([1; 2], Exclusive); ([], Shared); ([3], Shared)])
  = Some [([1; 2], Exclusive); ([], Shared); ([3], Shared)].
Proof. apply keys_buffer_roundtrip. done. Defined.

(** Past 2^32 bytes the stored offset wraps around and the iterator slices
    backwards, although its comment takes [start <= end <= bytes.len()] for
    granted. *)
Theorem keys_buffer_overflow a b ta tb :
  zlen a < 2 ^ 32 -> zlen b < 2 ^ 32 -> 2 ^ 32 <= zlen a + zlen b ->
  iter (push_all [(a, ta); (b, tb)]) = None.
Proof.
  intros Ha Hb Hab. unfold push_all, iter. cbn [fold_left push bytes offsets lock_types new app iter_from].
  assert (Hz : zlen (a ++ b) = zlen a + zlen b) by (unfold zlen; rewrite length_app; lia).
  assert (E1 : wrap 32 (zlen a) = zlen a) by (apply wrap_id; unfold fits, zlen in *; lia).
  assert (E2 : wrap 32 (zlen (a ++ b)) = zlen a + zlen b - 2 ^ 32).
  { rewrite Hz. unfold wrap. symmetry. apply Z.mod_unique with 1; lia. }
  rewrite E1, E2. assert (Hbad : get_unchecked (a ++ b) (zlen a) (zlen a + zlen b - 2 ^ 32) = None).
  { unfold get_unchecked. by rewrite (proj2 (Z.leb_gt (zlen a) _)) by lia. }
  rewrite Hbad. by destruct (get_unchecked (a ++ b) 0 (zlen a)).
Qed.

End Buffer.

(** ** Routes of the log markers *)

Section Routes.
Import Manager.
Context (log : TxnAofLog).

(** The bit of replay task [r] of sublog [p]. *)
Definition task_bit (acc : SublogAccess) (p r : Z) : bool :=
  match (v ← virtual_vectors acc !! Z.to_nat p; v !! Z.to_nat (r / 8)) with
  | Some slot => Z.testbit slot (r mod 8)
  | None => false
  end.

Definition in_range (p r : Z) : Prop :=
  0 <= p < log_size log /\ 0 <= r < 8 * Z.of_nat REPLAY_TASK_ACCESS_VECTOR_BYTES.
#[local] Instance in_range_dec p r : Decision (in_range p r).
Proof. unfold in_range. apply _. Defined.

Definition route (h : Z) : Z * Z := (get_physical_sublog_idx log h, get_replay_task_idx log h).

(** The distinct tasks that take part. *)
Definition tasks (hs : list Z) : gset (Z * Z) :=
  list_to_set (filter (fun q => in_range q.1 q.2) (route <$> hs)).

(** [usize] indices. *)
Hypothesis route_nonneg : forall h, 0 <= (route h).1 /\ 0 <= (route h).2.

Record routes_ok (acc : SublogAccess) (hs : list Z) : Prop := {
  ro_len : length (virtual_vectors acc) = Z.to_nat (log_size log);
  ro_width : Forall (fun v => length v = REPLAY_TASK_ACCESS_VECTOR_BYTES) (virtual_vectors acc);
  ro_physical : forall p, 0 <= p -> Z.testbit (physical_vector acc) p = true <->
    p < 64 /\ exists h, h ∈ hs /\ (route h).1 = p;
  ro_task : forall p r, 0 <= p -> 0 <= r -> task_bit acc p r = true <-> in_range p r /\ (p, r) ∈ route <$> hs;
  ro_count : participant_count acc = Z.of_nat (size (tasks hs))
}.

Lemma tasks_snoc hs h :
  tasks (hs ++ [h]) = tasks hs ∪ (if decide (in_range (route h).1 (route h).2) then {[route h]} else ∅).
Proof.
  unfold tasks. rewrite fmap_app, filter_app, list_to_set_app_L. f_equal. cbn.
  unfold filter, list_filter. case_decide; cbn; [apply union_empty_r_L|done].
Qed.

Lemma elem_tasks hs q : q ∈ tasks hs <-> in_range q.1 q.2 /\ q ∈ route <$> hs.
Proof. unfold tasks. by rewrite elem_of_list_to_set, list_elem_of_filter. Qed.

Lemma physical_step acc hs h p :
  routes_ok acc hs -> 0 <= p ->
  Z.testbit (physical_vector (add_route log acc h)) p = true <->
    p < 64 /\ exists h', h' ∈ hs ++ [h] /\ (route h').1 = p.
Proof.
  intros Hok Hp. destruct (route_nonneg h) as [Hn _]. cbn [route fst] in Hn.
  assert (E : physical_vector (add_route log acc h) =
    if get_physical_sublog_idx log h <? 64
    then Z.lor (physical_vector acc) (Z.shiftl 1 (get_physical_sublog_idx log h)) else physical_vector acc).
  { unfold add_route. destruct (_ ≫= _) as [[v slot]|]; [|done]. by destruct (_ =? 0). }
  rewrite E. setoid_rewrite elem_of_app. setoid_rewrite list_elem_of_singleton.
  pose proof (ro_physical _ _ Hok p Hp) as Hold.
  destruct (Z.ltb_spec (get_physical_sublog_idx log h) 64) as [Hlt|Hge].
  - rewrite Z.lor_spec, orb_true_iff, Hold, Z.shiftl_1_l, Z.pow2_bits_eqb, Z.eqb_eq by lia. split.
    + intros [(? & h' & ? & ?)|<-]; [|split; [lia|exists h; auto]]. split; [done|]. exists h'. auto.
    + intros (? & h' & [?| ->] & ?); [left; eauto|right; done].
  - rewrite Hold. split.
    + intros (? & h' & ? & ?). split; [done|]. exists h'. auto.
    + intros (? & h' & [?| ->] & E'); [eauto|]. cbn in E'. lia.
Qed.

(** The slot a route in range points at. *)
Lemma slot_exists acc hs p r :
  routes_ok acc hs -> in_range p r ->
  exists v slot, virtual_vectors acc !! Z.to_nat p = Some v /\ v !! Z.to_nat (r / 8) = Some slot.
Proof.
  intros Hok [Hp Hr]. unfold REPLAY_TASK_ACCESS_VECTOR_BYTES in Hr.
  destruct (lookup_lt_is_Some_2 (virtual_vectors acc) (Z.to_nat p)) as [v Hv]; [rewrite (ro_len _ _ Hok); lia|].
  pose proof (Forall_lookup_1 _ _ _ _ (ro_width _ _ Hok) Hv) as Hlen. cbn in Hlen.
  destruct (lookup_lt_is_Some_2 v (Z.to_nat (r / 8))) as [slot Hs]; [|eauto].
  rewrite Hlen. unfold REPLAY_TASK_ACCESS_VECTOR_BYTES.
  pose proof (Z.div_lt_upper_bound r 8 32 ltac:(lia) ltac:(lia)).
  pose proof (Z.div_pos r 8 ltac:(lia) ltac:(lia)). lia.
Qed.

Lemma slot_missing acc hs p r :
  routes_ok acc hs -> 0 <= p -> 0 <= r -> ~ in_range p r ->
  (v ← virtual_vectors acc !! Z.to_nat p; v !! Z.to_nat (r / 8)) = None.
Proof.
  intros Hok Hp Hr Hn. destruct (virtual_vectors acc !! Z.to_nat p) as [v|] eqn:Hv; [|done]. cbn.
  pose proof (Forall_lookup_1 _ _ _ _ (ro_width _ _ Hok) Hv) as Hlen. cbn in Hlen.
  apply lookup_lt_Some in Hv. rewrite (ro_len _ _ Hok) in Hv. apply lookup_ge_None. rewrite Hlen.
  unfold in_range, REPLAY_TASK_ACCESS_VECTOR_BYTES in *.
  pose proof (Z.div_le_lower_bound r 8 32 ltac:(lia)). lia.
Qed.

(** Setting one bit. *)
Lemma task_bit_set acc acc' p r v slot p' r' :
  0 <= p -> 0 <= r -> 0 <= p' -> 0 <= r' ->
  virtual_vectors acc !! Z.to_nat p = Some v -> v !! Z.to_nat (r / 8) = Some slot ->
  virtual_vectors acc' =
    <[Z.to_nat p := <[Z.to_nat (r / 8) := Z.lor slot (Z.shiftl 1 (r mod 8))]> v]> (virtual_vectors acc) ->
  task_bit acc' p' r' = true <-> (p', r') = (p, r) \/ task_bit acc p' r' = true.
Proof.
  intros Hp Hr Hp' Hr' Hv Hs E. unfold task_bit. rewrite E.
  destruct (decide (p = p')) as [<-|Hne].
  2: { rewrite list_lookup_insert_ne by lia. split; [auto|]. by intros [[= -> ->]|?]. }
  rewrite list_lookup_insert_eq by (by eapply lookup_lt_Some). rewrite Hv. cbn [mbind option_bind].
  pose proof (Z.div_mod r 8 ltac:(lia)). pose proof (Z.div_mod r' 8 ltac:(lia)).
  pose proof (Z.div_pos r 8 ltac:(lia) ltac:(lia)). pose proof (Z.div_pos r' 8 ltac:(lia) ltac:(lia)).
  pose proof (Z.mod_pos_bound r 8 ltac:(lia)). pose proof (Z.mod_pos_bound r' 8 ltac:(lia)).
  destruct (decide (r / 8 = r' / 8)) as [Ed|Hne].
  - rewrite <- Ed, list_lookup_insert_eq by (by eapply lookup_lt_Some). rewrite Hs.
    rewrite Z.lor_spec, orb_true_iff, Z.shiftl_1_l, Z.pow2_bits_eqb, Z.eqb_eq by lia. split.
    + intros [?|?]; [by right|]. left. f_equal. lia.
    + intros [[= ->]|?]; auto.
  - rewrite list_lookup_insert_ne by lia. split; [auto|]. intros [[= ->]|?]; done.
Qed.

Lemma task_step acc hs h :
  routes_ok acc hs -> routes_ok (add_route log acc h) (hs ++ [h]).
Proof.
  intros Hok. pose proof (fun p => physical_step acc hs h p Hok) as Hphys.
  destruct (route_nonneg h) as [Hp Hr]. cbn [route fst snd] in Hp, Hr.
  set (p := get_physical_sublog_idx log h) in *. set (r := get_replay_task_idx log h) in *.
  assert (Hroute : route h = (p, r)) by done. pose proof (tasks_snoc hs h) as Ht. rewrite Hroute in Ht. cbn [fst snd] in Ht.
  assert (Hin : forall q, q ∈ route <$> (hs ++ [h]) <-> q = (p, r) \/ q ∈ route <$> hs).
  { intros q. rewrite fmap_app, elem_of_app. cbn. rewrite list_elem_of_singleton. tauto. }
  revert Hphys. unfold add_route. fold p r.
  destruct (decide (in_range p r)) as [Hrange|Hrange].
  - destruct (slot_exists acc hs p r Hok Hrange) as (v & slot & Hv & Hs). rewrite Hv. cbn [mbind option_bind].
    rewrite Hs. cbn [mbind option_bind].
    assert (Hbit : (Z.land slot (Z.shiftl 1 (r mod 8)) =? 0) = negb (task_bit acc p r)).
    { unfold task_bit. rewrite Hv. cbn [mbind option_bind]. rewrite Hs, Z.shiftl_1_l.
      rewrite <- (land_pow2_nonzero slot (r mod 8)), negb_involutive; [done|apply Z.mod_pos_bound; lia]. }
    rewrite Hbit. destruct (task_bit acc p r) eqn:Eb; cbn [negb]; intros Hphys.
    + pose proof (proj1 (ro_task _ _ Hok p r Hp Hr) Eb) as [_ Hmem]. destruct Hok as [O1 O2 O3 O4 O5].
      constructor; cbn; try done; [|rewrite O5, Ht; do 2 f_equal].
      * intros p' r' ? ?. rewrite (O4 p' r') by done. rewrite Hin. split; [tauto|]. intros [? [[= -> ->]|?]]; tauto.
      * assert (Hm : (p, r) ∈ tasks hs) by (by apply elem_tasks).
        apply singleton_subseteq_l in Hm. by rewrite union_comm_L, subseteq_union_1_L.
    + assert (Hnot : (p, r) ∉ tasks hs).
      { intros Hm. apply elem_tasks in Hm. apply (ro_task _ _ Hok p r Hp Hr) in Hm. congruence. }
      destruct Hok as [O1 O2 O3 O4 O5]. constructor; cbn; [by rewrite length_insert| |done|..].
      * apply Forall_insert; [done|]. rewrite length_insert. by eapply (Forall_lookup_1 _ _ _ _ O2).
      * intros p' r' ? ?. rewrite (task_bit_set acc _ p r v slot) by done. rewrite O4, Hin by done.
        split; [intros [[= -> ->]|[? ?]]; auto|intros [? [->|?]]; auto].
      * rewrite O5, Ht, size_union by (by apply disjoint_singleton_r). rewrite size_singleton. lia.
  - pose proof (slot_missing acc hs p r Hok Hp Hr Hrange) as Hnone.
    assert (Hnone' : (v ← virtual_vectors acc !! Z.to_nat p; slot ← v !! Z.to_nat (r / 8); Some (v, slot)) = None).
    { destruct (virtual_vectors acc !! Z.to_nat p) as [v|]; [|done]. cbn in *. by rewrite Hnone. }
    rewrite Hnone'. intros Hphys. destruct Hok as [O1 O2 O3 O4 O5]. constructor; cbn; try done.
    + intros p' r' ? ?. rewrite (O4 p' r') by done. rewrite Hin. split; [tauto|]. intros [? [[= -> ->]|?]]; tauto.
    + rewrite O5, Ht. by rewrite union_empty_r_L.
Qed.

Lemma routes_fold hs acc hs0 :
  routes_ok acc hs0 -> routes_ok (fold_left (add_route log) hs acc) (hs0 ++ hs).
Proof.
  revert acc hs0. induction hs as [|h hs IH]; intros acc hs0 Hok; cbn [fold_left]; [by rewrite app_nil_r|].
  replace (hs0 ++ h :: hs) with ((hs0 ++ [h]) ++ hs) by (by rewrite <- app_assoc).
  by apply IH, task_step.
Qed.

Lemma routes_init :
  routes_ok (mkAccess 0 (repeat (repeat 0 REPLAY_TASK_ACCESS_VECTOR_BYTES) (Z.to_nat (log_size log))) 0) [].
Proof.
  constructor; cbn [virtual_vectors physical_vector participant_count].
  - apply repeat_length.
  - apply Forall_forall. intros v Hv. apply list_elem_of_In, repeat_spec in Hv as ->. apply repeat_length.
  - intros p Hp. rewrite Z.bits_0. split; [done|]. intros (_ & h & Hh & _). by apply not_elem_of_nil in Hh.
  - intros p r Hp Hr. split; [|intros [_ H]; by apply not_elem_of_nil in H]. unfold task_bit. cbn [virtual_vectors].
    destruct (repeat _ _ !! Z.to_nat p) as [v|] eqn:Ev; [|done]. cbn [mbind option_bind].
    apply list_elem_of_lookup_2, list_elem_of_In, repeat_spec in Ev as ->.
    destruct (repeat 0 _ !! Z.to_nat (r / 8)) as [x|] eqn:Ex; [|done].
    apply list_elem_of_lookup_2, list_elem_of_In, repeat_spec in Ex as ->. by rewrite Z.bits_0.
  - done.
Qed.

(** The access vectors of a transaction's AOF markers are the set of its
    routes.  With several sublogs or replay tasks, bit [r] of the vector of
    sublog [p] is set exactly when a locked key is routed there (task numbers
    below 256), bit [p] of the physical vector exactly when a key is routed to
    sublog [p] (sublogs below 64), and the participant count is the number of
    distinct tasks that take part. *)
Theorem sublog_access_exact s :
  aof_log s = Some log -> 1 < log_size log \/ 1 < replay_task_count log ->
  routes_ok (compute_sublog_access_vector s) (routing_hashes (key_entries s)).
Proof.
  intros El Hsize. unfold compute_sublog_access_vector. rewrite El.
  destruct ((log_size log <=? 1) && (replay_task_count log <=? 1)) eqn:E; [lia|].
  apply (routes_fold _ _ []), routes_init.
Qed.

End Routes.

(** Four keys of a log with three sublogs; two of them share a task. *)
Definition demo_log : Manager.TxnAofLog :=
  Manager.mkLog 3 4 (fun h => h mod 3) (fun h => h mod 4) (fun _ _ _ _ => Ret true).
Definition demo_manager : Manager.TransactionManager :=
  let s := Manager.new (LockTable.build_txn_lock_table 1) (Watch.mkMap 15) (Some demo_log) in
  Manager.with_entries s
    (with_keys (Manager.key_entries s) [mkEntry 0 5 Shared; mkEntry 0 6 Exclusive; mkEntry 0 17 Shared; mkEntry 0 4 Shared]).

Lemma sublog_access_exact_witness :
  Manager.compute_sublog_access_vector demo_manager =
    Manager.mkAccess 7 [4 :: repeat 0 31; 1 :: repeat 0 31; 2 :: repeat 0 31] 3 /\
  size (tasks demo_log [5; 6; 17; 4]) = 3%nat.
Proof.
  split; [vm_compute; reflexivity|].
  assert (Hn : forall h, 0 <= (route demo_log h).1 /\ 0 <= (route demo_log h).2)
    by (intros h; split; apply Z.mod_pos_bound; lia).
  pose proof (ro_count _ _ _ (sublog_access_exact demo_log Hn demo_manager eq_refl ltac:(left; done))) as E.
  apply Nat2Z.inj. etrans; [symmetry; exact E|]. vm_compute. reflexivity.
Defined.

End TxnData.
